(* ===== verification/_CoqProject ===== *)
-Q . S2P
Prelude.v
JsMap.v
JsText.v
JsDate.v
JsJson.v
OfflineTypes.v
JsCursor.v
Listing.v
RangeAdmin.v
Numbering.v
NumberingInv.v
NumberingSafety.v
NumberingClaims.v
SessionSpec.v
InMemorySessions.v
SessionRevocations.v
SessionService.v
SessionInv.v
SessionMethods.v
SessionClaims.v
MobileRuntime.v
MobileInv.v
MobileClaims.v
Cron.v
CronParse.v
CronSearch.v
CronClaims.v
LruCache.v
PermissionCache.v
PermissionClaims.v
MemoryFrames.v
FrameHistory.v
FrameInv.v
FrameRollback.v
FrameClaims.v
TenantGate.v
SyncTypes.v
SyncStore.v
SyncItem.v
SyncBatch.v
SyncEffects.v
SyncBatches.v
SyncClaims.v
Archive.v
ArchiveRun.v
ArchiveRestore.v
ArchiveClaims.v
Idempotency.v
IdempotencySystem.v
IdempotencyClaims.v
WorklistTypes.v
BusinessCalendar.v
CalendarClaims.v
Worklist.v
WorklistItems.v
WorklistSpec.v
WorklistInv.v
WorklistPublish.v
WorklistOrder.v
WorklistClaims.v
JobsRepository.v
JobsService.v
JobsSystem.v
JobsInv.v
JobsRun.v
JobsClaims.v
RateLimit.v
RateLimitClaims.v
OutboxSelectors.v
Outbox.v
OutboxLegacy.v
OutboxSystem.v
OutboxInv.v
OutboxMoves.v
OutboxTables.v
OutboxRun.v
OutboxStream.v
OutboxReads.v
OutboxExample.v
OutboxClaims.v
