(* ===== verification/Prelude.v ===== *)
(** * The stynx development

    stynx is a TypeScript monorepo of NestJS packages for multi-tenant back ends and offline
    devices. This development models the parts of it that carry state machines and algorithms
    of their own, as executable functions of explicit state, and proves what they promise.
    File names below are relative to [src/packages/].

    ** The parts and how they interact

    A device creates drafts offline and numbers them from reservations it was granted
    ([mobile-runtime]); it sends them in batches to the server, which keeps number ranges,
    reservations and the record of applied numbers ([offline-sync]). Requests are made inside a
    session ([sessions]) whose permissions come from a cache in front of the database ([auth]),
    and pass an interceptor that replays the answers of repeated ones ([idempotency]).
    Handlers delete and restore trees of rows ([data]) and move the items of work lists
    ([worklist]); they log events in their own transaction, which sweeps deliver to destinations
    and readers follow as a stream ([outbox]). Jobs are enqueued by requests or materialised from
    schedules with cron expressions, and workers claim them ([jobs]). A guard counts requests
    against limits ([ratelimit]). The components meet at interfaces: the session service talks to any store of [SessionSpec], the permission cache to any
    backend of [PermissionCache], the interceptor to any store of its record [DurableStore], the
    device to the server through the replies of a port.

    ** The language

    - This file: outcomes of calls ([outcome]: a value or a thrown error), the monad [js] of
      calls on a shared state, where a throw keeps the writes made before it, triples for it,
      stable sorting ([Array.sort], [toSorted]) and the lemmas on filtered lists.
    - [JsMap]: [Map] and [Set] in insertion order. [JsText]: string operations.
      [JsDate]: [Date], [Date.parse], [toISOString]. [JsJson]: JSON values and
      canonical texts. [JsCursor]: base64url and arrays of strings.
    A [number] is a [Z]; the code's [Number.isSafeInteger] tests are kept where it has them, and
    dates are checked against the maximal time value. A [Date] is its time value.

    ** offline-sync: numbering (offline-sync/src)

    - [OfflineTypes]: types.ts, errors.ts. [Listing]: instant-microseconds.ts,
      listing.ts. [RangeAdmin]: range-administration.ts, reservation-admission.ts,
      reconciliation.ts, consumption-projection.ts. [Numbering]: the numbering methods of
      in-memory-offline-sync.store.ts over a [Store] record with the fields of the class they
      use; [assertNumberingCoverage] and [applyNumberingEntry] are the two numbering steps
      [processItem] makes on either side of the await of the applier.
    - [NumberingInv], [NumberingSafety]: the invariant [Inv] (numbers of the reservations of a
      range are disjoint and lie below its next number; every entry lies in its reservation)
      and that each method keeps it; the store as a state machine, [reachable]
      states and what no step takes back. [NumberingClaims]: no number is issued twice, none is
      applied twice, retries replay, reconciliation reports exactly the differences, errors have
      their causes; and the two places where the code gives less.
    - [run] applies an item in one step. [wstep] takes that step apart, as the code awaits the applier
      between check and finalisation: any operations come in between. No number is issued twice in the
      states it reaches as long as no reservation is cancelled while it covers an item being applied,
      and [cancel_during_apply_reissues] shows that the condition is needed.
    - [Listing] also proves that cursors round-trip and that following them lists every row once.

    ** offline-sync: transactions of the in-memory store (offline-sync/src)

    - [MemoryFrames]: the mutation frames of in-memory-offline-sync.store.ts: versions of
      projection keys, claims, undo, rollback, the owned frames of [processItem] and the
      conflict locks. A projection key is a parameter. Every piece of a method between two
      awaits is one operation. [FrameHistory] is the log of all writes; [FrameInv] and
      [FrameRollback] show that what the code keeps is the replay of the log;
      [FrameClaims]: projections are the replay of the writes that were not rolled back, reads
      see settled writes, a rollback completes.
    - [TenantGate]: shared and exclusive operations of a tenant ([enter], [leave] of
      tenantOperation): who waits for whom.

    ** offline-sync: batches, items and conflicts (offline-sync/src)

    - [SyncTypes]: the types of types.ts they use, domain outcomes and contexts of the errors.
      [SyncStore]: the thirteen maps behind the projections, conflicts and their resolution,
      [submitSyncBatch], integrity rejections. [SyncItem]: payload-integrity.ts, pre-apply.ts
      and [processItem]. [SyncBatch]: [submitDurableSyncBatch], cut into [beginBatch] (item
      keys, checks, admission) and [runBatch], between which other calls run, and [endWait].
      The listings are there too.
    - Each method is one step on the maps, which [FrameClaims] and [TenantGate] justify: an
      item's frame is settled or undone as a whole, and operations that conflict exclude each
      other. What does run in between is the numbering of other calls, which the projections do
      not cover: [meanwhile n] is any change of the numbering store that only moves forward
      ([forward]), made during the [n]-th await.
    - [effects] records each run of the host's applier that was not rolled back; the code has
      no such field. The [n]-th call of a port is answered by its [n]-th reply. The members
      [retryable] and [context] that a subclass of [OfflineSyncError] may carry are not kept,
      the text of a result (JSON.stringify) is a parameter, and a port that calls back into the
      store during its own answer is not modelled.
    - [SyncEffects]: relations every call respects, by one tactic; an item is applied
      once. [SyncBatches]: the store with its pending runs as a state machine, results and sequences of batches. [SyncClaims]: the properties.

    ** sessions (sessions/src)

    - [SessionSpec]: types.ts, errors.ts, the interface of a store, abstract
      sessions as finite maps, and the laws that relate the two. [InMemorySessions]:
      in-memory-session-store.ts, which is a refinement of the abstract sessions. [SessionRevocations]: session-revocation-list.ts.
    - [SessionService]: session.service.ts over any store. [SessionInv], [SessionMethods]: each
      method as moves of the abstract sessions. [SessionClaims]: refresh tokens are single-use
      and reuse ends the session, the single-session policy, exchange, revocation, deadlines.

    ** mobile-runtime (mobile-runtime/src)

    - [MobileRuntime]: types.ts and every method of runtime.ts over the typed
      collections of the encrypted store. [MobileInv]: the invariant of the device, kept by
      every operation. [MobileClaims]: no number, id or key is used by two drafts, the queue
      holds finalised drafts, submissions neither lose nor repeat items.
    - [createDraft] awaits the store between the choice of a number and the draft that takes it:
      [Drafting] is a call with others in between. Two of them at a time may draft one number
      ([interleaved_drafts_share_number]); the properties are about histories without that.

    ** jobs (jobs/src, data/migrations/platform/0018_jobs.sql, 0019_jobs_actor_timezone.sql)

    - [Cron]: cron.ts. [CronParse]: the grammar of fields and the values they denote.
      [CronSearch]: what the search finds, in UTC and with any zone data.
      [CronClaims]: the next run is the least due minute.
    - [JobsRepository]: jobs.repository.ts over the tables of the migrations. [JobsService]:
      jobs.service.ts, jobs.registry.ts, backoff.ts. [JobsSystem]: jobs.worker.ts and jobs.scheduler.ts;
      claims, handlers, settlements and materialisations are separate steps beside any other calls.
    - [JobsInv]: the life of a job and what the steps do to it. [JobsRun]: what holds in every
      reachable state. [JobsClaims]: jobs follow their life, an attempt is run once, claims wait for
      leases, a cron schedule skips no run, a failed attempt is retried or ends, and one schedule that
      can block the others.
    - A transaction is one step, with [locked] the rows that others hold. A [jsonb] value is its text, an
      id a lower-case uuid, the multiplier of a backoff an integer, a run at minus infinity has no time.
      The memberships a call read before its transaction are an argument. The module and the metrics
      are left out.

    ** ratelimit (ratelimit/src)

    - [RateLimit]: the script and the store of redis-rate-limit.store.ts, pg-rate-limit.store.ts,
      rate-limit-policy.service.ts, rate-limit.guard.ts, request-context.ts and the counters of
      metrics.ts. [RateLimitClaims]: the Redis store answers what a log of all admitted requests
      answers, and admits at most the limit in any window; and what the limits do not cover.
    - Redis runs the script in one step, on the three keys of a bucket, which expire together. Failures of
      its connection, the names of the Postgres columns, percentiles and histograms are left out.

    ** auth (auth/src)

    - [LruCache]: the bounded cache of permission-cache.ts against an unbounded one.
      [PermissionCache]: permission-cache.ts over any backend, permission-cache-metrics.ts and
      in-memory-permission-cache-backend.ts. [PermissionClaims]: a change of
      permissions is seen within the life of a hash probe, and the corner cases.

    ** data: soft deletion and restoration (data/src)

    - [Archive]: internal/soft-delete-cascade.ts, archive-relations.ts, archive-restore.ts,
      table-meta.ts and the methods of transaction.ts that use them. The catalog of foreign keys
      and what the constraints of the schema make of a write are parameters; tables are maps from
      keys to rows. [ArchiveRun]: the rows a deletion moves, as a list; what a plan
      visits and that its walk ends. [ArchiveRestore]: a restoration puts the rows back.
      [ArchiveClaims]: a deletion moves the whole subtree, a dry run predicts it, the walk ends
      whatever the data, a restoration undoes the deletion.
    - A walk that meets more levels than its fuel ends in [Exhausted]; the fuel of the planning
      and of the deletion is the depth limit plus one, and [plan_enough] shows that it is enough.
      The restoration has no limit in the code: enough fuel exists. The gauge of the metrics is
      left out.
    - [Lawful] is what the theorems ask of the database. It excludes schemas in which a column of a
      [hide] key carries another key; the registry's query reads composite keys, as those of
      0014_flow.sql, by their first column, and [composite_key_blocks] shows what becomes of a cascade
      there. A restoration puts the moved rows back; references by [hide] keys that the deletion
      nulled stay null.

    ** idempotency (idempotency/src)

    - [Idempotency]: idempotency.interceptor.ts as a tree of awaited calls, and the
      two durable stores as tables. [IdempotencySystem]: requests that run side by side, one
      call at a time, over the Redis backend and a store. [IdempotencyClaims]: in strict mode one
      handler of a key settles, later requests get its answer; and what the other modes give.
    - A lock can expire and a call can fail at any point; a history records the handlers that
      began and ended. That a key is settled once is shown for calls of the backend and the store that
      do not fail; [strict_settles_twice_on_failure] is what a failure can do. The timing header, the names of metrics and of SQL tables are left out.

    ** worklist (worklist/src, data/migrations/platform/0018_worklist.sql)

    - [WorklistTypes]: errors.ts, sql-errors.ts, the deadlines of types.ts. [BusinessCalendar]:
      tenant-business-calendar.ts and deadline.ts, with the zone data and the host's holidays as
      parameters. [CalendarClaims]: the deadline is the first instant after the [n]-th working
      day, and the search finds it.
    - [Worklist]: the functions of the migration over the tables of one tenant.
      [WorklistItems]: worklist-items.service.ts, strategies.ts, worklist-sla.service.ts. A
      function is one step, since it locks the rows it changes and the capacity of the worker
      before it reads them; [locked] are the rows that other sessions hold, which
      [skip locked] passes over.
    - [WorklistSpec]: the abstract work list, whose steps move one item and record one event.
      Every function implements it. [WorklistInv]: what its steps keep.
      [WorklistPublish]: what a call appends is what it publishes.
      [WorklistOrder]: which item a claim takes. [WorklistClaims]: the properties.
    - A call counts the events of its item before it locks the row. [service_refines] and the other
      properties of the tables do not depend on the count; what is published does: [ostep] has calls
      that overlap, whose events are published at least once
      ([overlapping_calls_publish_twice]), and calls one after another publish exactly the ledger.

    ** outbox (outbox/src, data/migrations/platform/0018_outbox, 0021, 0022, 0025, 0026)

    - [OutboxSelectors]: the destination registry and the entity selectors of outbox.service.ts.
      [Outbox]: the methods on the event log and its queue: append, claim, settlement,
      acknowledgement, retry, retirement. [OutboxLegacy]: the message table of the first outbox and
      the cutover. [OutboxSystem]: sweeps, whose claim, send and settlement are separate steps,
      beside any other calls. [OutboxStream]: event-stream-source.ts and backoff.ts.
      [OutboxReads]: the reads.
    - A transaction is one step: it locks the delivery it changes before it reads it, appends of a
      tenant hold an advisory lock, and [locked] are the rows that other transactions hold, which
      [skip locked] passes over. The attempts of a message that its retry reads without a lock are a
      parameter. A port may answer anything or throw, a settlement may fail, a process may stop.
    - [OutboxInv]: the abstract queue ([dtrans], [move]) and what its moves keep. [OutboxMoves],
      [OutboxTables]: every method is a sequence of moves, and an aggregate with an open event has
      a head. [OutboxRun]: what holds in every reachable state, and what appends answer.
      [OutboxExample] runs scripts; [OutboxClaims]: events of an aggregate are claimed in order,
      an attempt is sent once, appends and retirements are idempotent, a stream shows every event
      once, the cutover hands every message over once.
    - An acknowledgement is verified but for events taken over from the first outbox; a head of an
      aggregate that is due is claimed unless its sending is unresolved, its message not migrated, its
      row locked or the limit of the sweep below the number of due events.
    - A [jsonb] value is its text, an id a number, times of the database are microseconds. The
      check of roles at the start of the module, retries after lock timeouts, metrics,
      [strictItemMode] and commits whose outcome is unknown are left out.

    ** Outside sources

    What the code calls and does not define is a parameter: the clocks and random sources (read
    by index, so that a reading is one event), sha256, [localeCompare], the zone data of
    [Intl.DateTimeFormat], the token signer, the claims resolver, the backend, printer and
    session ports of the device, the permission database. Properties that need something of
    them name it: random ids do not repeat, the clock does not run backwards, the collation is
    a total order. The witnesses give every parameter a concrete function.

    ** Fuel

    Loops whose bound is computed carry a fuel argument fixed by the caller: [count_up] takes
    the width of the interval plus one, [locate] the width of the bisected interval,
    [gap_matches] the number of minutes, [search] the number of dates up to the last one, the
    JSON readers the length of the text, [words] and [trim] the length of the string, [bisect] 29
    halvings of four days of milliseconds, [walk] the 1098 dates of the code's own loop. Each is
    shown to be enough where a theorem needs the result: [count_up_elem], [locate_spec],
    [search_utc], [read_string_escape], [read_items_text], [plan_enough], [deadline_is_found].

    ** Not modelled

    - offline-sync: the Postgres stores and storage catalogs (SQL text), offline-sync.service.ts
      (it forwards to a store), the HTTP controllers and interceptors, the Postgres import.
    - sessions: the Redis store (Lua), RSA signing. auth: guards, JWT validation, Cognito,
      Redis.
    - idempotency: the transactional store, which is SQL inside the transaction of the command
      interceptor of backend. worklist: the administration of queues and workers, which the
      model lets change at any time, and the zod schemas. data: pools, transactions, migrations.
    - outbox: the HTTP dispatcher and the signatures of acknowledgements, the storage catalog, the
      module.
    - Packages whose logic is SQL, HTTP or framework wiring: tenancy, audit, privacy,
      flow, notifications, storage, signature, backend and the Angular libraries; and
      the build and release scripts. *)
From stdpp Require Export prelude strings gmap list sorting.

(** ** Outcomes of JavaScript computations *)

(** A completed call either returns a value or throws. *)
Inductive outcome (E A : Type) : Type :=
| Ok (a : A)
| Throw (e : E).
Arguments Ok {E A} a.
Arguments Throw {E A} e.

#[export] Instance outcome_eq_dec `{EqDecision E, EqDecision A} : EqDecision (outcome E A).
Proof. solve_decision. Defined.

Definition is_ok {E A} (o : outcome E A) : bool :=
  match o with Ok _ => true | Throw _ => false end.

#[export] Instance outcome_ret {E} : MRet (outcome E) := λ A a, Ok a.
#[export] Instance outcome_bind {E} : MBind (outcome E) := λ A B f o,
  match o with Ok a => f a | Throw e => Throw e end.
#[export] Instance outcome_fmap {E} : FMap (outcome E) := λ A B f o,
  match o with Ok a => Ok (f a) | Throw e => Throw e end.

(** A method of an object with fields [S]: state passing, and the fields written
    before a [throw] stay written. *)
Definition JS (S E A : Type) : Type := S → outcome E A * S.

#[export] Instance js_ret {S E} : MRet (JS S E) := λ A a s, (Ok a, s).
#[export] Instance js_bind {S E} : MBind (JS S E) := λ A B f m s,
  match m s with
  | (Ok a, s') => f a s'
  | (Throw e, s') => (Throw e, s')
  end.
#[export] Instance js_fmap {S E} : FMap (JS S E) := λ A B f m s,
  match m s with
  | (Ok a, s') => (Ok (f a), s')
  | (Throw e, s') => (Throw e, s')
  end.

Definition throw {S E A} (e : E) : JS S E A := λ s, (Throw e, s).
Definition getf {S E A} (f : S → A) : JS S E A := λ s, (Ok (f s), s).
Definition modify {S E} (f : S → S) : JS S E () := λ s, (Ok (), f s).
(** A pure computation that may throw, run inside a method. *)
Definition lift {S E A} (o : outcome E A) : JS S E A := λ s, (o, s).
(** [if (c) throw e;] *)
Definition throw_if {S E} (c : bool) (e : E) : JS S E () := if c then throw e else mret ().

(** [try { m } catch (e) { handler }] and [try { m } finally { fin }]. *)
Definition js_catch {S E A} (m : JS S E A) (handler : E → JS S E A) : JS S E A := λ s,
  match m s with
  | (Ok a, s') => (Ok a, s')
  | (Throw e, s') => handler e s'
  end.
Definition js_finally {S E A} (m : JS S E A) (fin : JS S E ()) : JS S E A := λ s,
  match fin (m s).2 with
  | (Ok _, s') => ((m s).1, s')
  | (Throw e, s') => (Throw e, s')
  end.

(** [for (const x of l) f(x);] *)
Fixpoint js_each {S E A} (f : A → JS S E ()) (l : list A) : JS S E () :=
  match l with
  | [] => mret ()
  | x :: l' => _ ← f x; js_each f l'
  end.

Section js_laws.
Context {S E : Type}.

Lemma js_bind_ok {A B} (m : JS S E A) (f : A → JS S E B) s b s' :
  (m ≫= f) s = (Ok b, s') ↔ ∃ a s1, m s = (Ok a, s1) ∧ f a s1 = (Ok b, s').
Proof.
  unfold mbind, js_bind. destruct (m s) as [[a|e] s1]; split; intros; simplify_eq/=; eauto; naive_solver.
Qed.

Lemma js_bind_throw {A B} (m : JS S E A) (f : A → JS S E B) s e s' :
  (m ≫= f) s = (Throw e, s') ↔
  m s = (Throw e, s') ∨ ∃ a s1, m s = (Ok a, s1) ∧ f a s1 = (Throw e, s').
Proof.
  unfold mbind, js_bind. destruct (m s) as [[a|e1] s1]; split; intros; simplify_eq/=; eauto; naive_solver.
Qed.
End js_laws.

Lemma outcome_bind_ok {E A B} (m : outcome E A) (f : A → outcome E B) b :
  m ≫= f = Ok b ↔ ∃ a, m = Ok a ∧ f a = Ok b.
Proof. destruct m; simpl; naive_solver. Qed.

(** ** Hoare triples over methods *)

(** [triple P m Q]: run from a state satisfying [P], the method ends, by returning
    or by throwing, in a state and outcome satisfying [Q]. *)
Definition triple {S E A} (P : S → Prop) (m : JS S E A) (Q : outcome E A → S → Prop) : Prop :=
  ∀ s, P s → Q (m s).1 (m s).2.

(** [preserves I m]: the invariant [I] survives the method, thrown errors included. *)
Definition preserves {S E A} (I : S → Prop) (m : JS S E A) : Prop :=
  triple I m (λ _, I).

Section triples.
Context {S E : Type}.
Implicit Types P I : S → Prop.

Lemma triple_bind {A B} P (m : JS S E A) (f : A → JS S E B) R Q :
  triple P m R →
  (∀ a, triple (R (Ok a)) (f a) Q) →
  (∀ e s, R (Throw e) s → Q (Throw e) s) →
  triple P (m ≫= f) Q.
Proof.
  intros Hm Hf He s HP. specialize (Hm s HP).
  unfold mbind, js_bind. destruct (m s) as [[a|e] s1]; simpl in *; [by apply Hf|by apply He].
Qed.

Lemma triple_weaken {A} P P' (m : JS S E A) (Q Q' : outcome E A → S → Prop) :
  triple P' m Q' → (∀ s, P s → P' s) → (∀ o s, Q' o s → Q o s) → triple P m Q.
Proof. unfold triple. naive_solver. Qed.

Lemma preserves_ret {A} I (a : A) : preserves I (mret a : JS S E A).
Proof. by intros s. Qed.
Lemma preserves_throw {A} I (e : E) : preserves I (throw e : JS S E A).
Proof. by intros s. Qed.
Lemma preserves_getf {A} I (f : S → A) : preserves I (getf f : JS S E A).
Proof. by intros s. Qed.
Lemma preserves_lift {A} I (o : outcome E A) : preserves I (lift o : JS S E A).
Proof. by intros s. Qed.
Lemma preserves_throw_if I c (e : E) : preserves I (throw_if c e : JS S E ()).
Proof. intros s ?. by destruct c. Qed.
Lemma preserves_modify I (f : S → S) : (∀ s, I s → I (f s)) → preserves I (modify f : JS S E ()).
Proof. intros H s. apply H. Qed.
Lemma preserves_bind {A B} I (m : JS S E A) (f : A → JS S E B) :
  preserves I m → (∀ a, preserves I (f a)) → preserves I (m ≫= f).
Proof. intros Hm Hf. by eapply triple_bind. Qed.
End triples.

Create HintDb js discriminated.
#[export] Hint Resolve preserves_ret preserves_throw preserves_getf preserves_lift
  preserves_throw_if : js.

(** ** [Array.prototype.sort] *)

(** Stable sorting by a comparison [le]: [le a b] is the test [compare(a, b) <= 0]. *)
Section js_sort.
Context {A : Type} (le : A → A → bool).

Fixpoint js_insert (x : A) (l : list A) : list A :=
  match l with
  | [] => [x]
  | y :: l' => if le x y then x :: y :: l' else y :: js_insert x l'
  end.
Definition js_sort (l : list A) : list A := foldr js_insert [] l.

Lemma js_insert_perm x l : js_insert x l ≡ₚ x :: l.
Proof. induction l as [|y l IH]; simpl; [done|]. case_match; [done|]. rewrite IH. apply Permutation_swap. Qed.

Lemma js_sort_perm l : js_sort l ≡ₚ l.
Proof. induction l as [|x l IH]; simpl; [done|]. by rewrite js_insert_perm, IH. Qed.

(** On the elements that satisfy [P], [le] is a total preorder. *)
Context (P : A → Prop)
        (Htotal : ∀ x y, P x → P y → le x y = false → le y x = true)
        (Htrans : ∀ x y z, P x → P y → P z → le x y = true → le y z = true → le x z = true).
Let sorted : list A → Prop := StronglySorted (λ a b, le a b = true).

Lemma js_insert_sorted x l : P x → Forall P l → sorted l → sorted (js_insert x l).
Proof using Htotal Htrans.
  intros Hx Hl. induction 1 as [|y l Hs IH Hy]; simpl; [by repeat constructor|].
  apply Forall_cons in Hl as [HPy Hl].
  destruct (le x y) eqn:Hxy.
  - constructor; [by constructor|]. constructor; [done|].
    rewrite Forall_forall in Hy, Hl |- *. intros z Hz. eapply (Htrans x y z); auto.
  - constructor; [by apply IH|]. rewrite Forall_forall in Hy |- *. intros z Hz.
    rewrite js_insert_perm in Hz. apply elem_of_cons in Hz as [->|Hz]; auto.
Qed.

Lemma js_sort_sorted l : Forall P l → sorted (js_sort l).
Proof using Htotal Htrans.
  induction 1; simpl; [constructor|]. apply js_insert_sorted; [done| |done].
  by rewrite js_sort_perm.
Qed.

(** Permutations whose elements [le] tells apart are sorted the same way. *)
Lemma js_sort_unique l1 l2 :
  Forall P l1 → (∀ x y, x ∈ l1 → y ∈ l1 → le x y = true → le y x = true → x = y) →
  l1 ≡ₚ l2 → js_sort l1 = js_sort l2.
Proof using Htotal Htrans.
  intros HP Hanti Hp.
  assert (js_sort l1 ≡ₚ js_sort l2) as Hp' by by rewrite !js_sort_perm.
  assert (∀ x y, x ∈ js_sort l1 → y ∈ js_sort l1 → le x y = true → le y x = true → x = y) as Hanti'.
  { intros x y. rewrite !js_sort_perm. apply Hanti. }
  pose proof (js_sort_sorted l1 HP) as H1.
  pose proof (js_sort_sorted l2 ltac:(by rewrite <- Hp)) as H2. unfold sorted in *.
  clear HP Hanti Hp. revert Hp' Hanti' H1 H2. generalize (js_sort l1) (js_sort l2). clear l1 l2.
  intros l1. induction l1 as [|x l1 IH]; intros l2 Hp Hanti H1 H2.
  { symmetry. by apply Permutation_nil. }
  destruct l2 as [|y l2]; [symmetry in Hp; by apply Permutation_nil_cons in Hp|].
  assert (x = y) as ->.
  { apply StronglySorted_inv in H1 as [_ H1], H2 as [_ H2]. rewrite Forall_forall in H1, H2.
    assert (y ∈ x :: l1) as Hy by (rewrite Hp; by left).
    assert (x ∈ y :: l2) as Hx by (rewrite <- Hp; by left).
    apply elem_of_cons in Hy as [->|Hy]; [done|]. apply elem_of_cons in Hx as [->|Hx]; [done|].
    apply Hanti; [by left|by right|auto|auto]. }
  f_equal. apply IH.
  - by apply Permutation_cons_inv in Hp.
  - intros. by apply Hanti; [right|right|..].
  - by apply StronglySorted_inv in H1 as [].
  - by apply StronglySorted_inv in H2 as [].
Qed.
End js_sort.

(** ** [Array.prototype.filter] *)
Section filters.
Context {A : Type} (f : A → bool).
Lemma filter_all_true l : Forall (λ x, f x = true) l → List.filter f l = l.
Proof. induction 1 as [|x l Hx _ IH]; simpl; [done|]. by rewrite Hx, IH. Qed.
Lemma filter_all_false l : Forall (λ x, f x = false) l → List.filter f l = [].
Proof. induction 1 as [|x l Hx _ IH]; simpl; [done|]. by rewrite Hx. Qed.
End filters.

Lemma filter_ext_elem {A} (P Q : A → Prop) `{∀ x, Decision (P x), ∀ x, Decision (Q x)} (l : list A) :
  (∀ x, x ∈ l → P x ↔ Q x) → filter P l = filter Q l.
Proof.
  induction l as [|x l IH]; intros Hl; [done|]. rewrite !filter_cons.
  specialize (IH (λ y Hy, Hl y ltac:(by right))). pose proof (Hl x ltac:(by left)).
  destruct (decide (P x)), (decide (Q x)); [by rewrite IH|exfalso; tauto|exfalso; tauto|done].
Qed.

Lemma NoDup_fmap_filter {A B} (f : A → B) (p : A → bool) l : NoDup (f <$> l) → NoDup (f <$> List.filter p l).
Proof.
  induction l as [|x l IH]; csimpl; [done|]. rewrite NoDup_cons. intros [Hni Hnd].
  destruct (p x); csimpl; [|auto]. constructor; [|auto].
  intros (y & He & Hy)%list_elem_of_fmap. apply Hni, list_elem_of_fmap. exists y. split; [done|].
  apply list_elem_of_In, filter_In in Hy as [Hy _]. by apply list_elem_of_In.
Qed.

(** ** Tactics *)

(** Open every monadic step of a hypothesis or goal and split on what it tests. *)
Ltac js_unfold :=
  unfold throw_if in *; unfold mbind, js_bind, mret, js_ret, fmap, js_fmap, throw, getf, modify, lift,
    outcome_bind, outcome_ret, outcome_fmap in *; cbn beta iota in *.
Ltac js_case :=
  repeat (js_unfold; simplify_eq/=; try done; case_match; simplify_eq/=; try done).
