(* ===== verification/JsMap.v ===== *)
(** * JsMap: the ECMAScript [Map] and [Set], which iterate in insertion order. *)
From S2P Require Import Prelude.

(** A [Map] is the list of its entries in insertion order: setting a present key
    keeps its place, a deleted key that is set again goes to the end. *)
Definition jsmap (K V : Type) : Type := list (K * V).

Section jsmap.
Context {K : Type} `{EqDecision K} {V : Type}.
Implicit Types (m : jsmap K V) (k : K) (v : V).

Fixpoint jm_get k m : option V :=
  match m with
  | [] => None
  | (k', v) :: m' => if decide (k = k') then Some v else jm_get k m'
  end.

Fixpoint jm_set k v m : jsmap K V :=
  match m with
  | [] => [(k, v)]
  | (k', v') :: m' => if decide (k = k') then (k', v) :: m' else (k', v') :: jm_set k v m'
  end.

Fixpoint jm_delete k m : jsmap K V :=
  match m with
  | [] => []
  | (k', v') :: m' => if decide (k = k') then jm_delete k m' else (k', v') :: jm_delete k m'
  end.

Definition jm_has k m : bool := bool_decide (is_Some (jm_get k m)).
Definition jm_keys m : list K := m.*1.
Definition jm_values m : list V := m.*2.

(** Keys occur once: the representation invariant of a [Map]. *)
Definition jm_wf m : Prop := NoDup (jm_keys m).

Lemma jm_get_set_eq k v m : jm_get k (jm_set k v m) = Some v.
Proof.
  induction m as [|[k' v'] m IH]; simpl; [by rewrite decide_True|].
  case_decide; simpl; [by rewrite decide_True|by rewrite decide_False].
Qed.

Lemma jm_get_set_ne k k' v m : k ≠ k' → jm_get k (jm_set k' v m) = jm_get k m.
Proof.
  intros Hne. induction m as [|[k1 v1] m IH]; simpl; [by rewrite decide_False|].
  case_decide; subst; simpl; [by rewrite !decide_False by done|].
  case_decide; [done|apply IH].
Qed.

Lemma jm_get_set k k' v m :
  jm_get k (jm_set k' v m) = if decide (k = k') then Some v else jm_get k m.
Proof. case_decide; subst; auto using jm_get_set_eq, jm_get_set_ne. Qed.

Lemma jm_set_set k v v' m : jm_set k v (jm_set k v' m) = jm_set k v m.
Proof.
  induction m as [|[k' w] m IH]; simpl; [by rewrite decide_True|].
  case_decide; simpl; [by rewrite decide_True|by rewrite decide_False, IH].
Qed.

Lemma jm_get_delete_eq k m : jm_get k (jm_delete k m) = None.
Proof. induction m as [|[k' v'] m IH]; simpl; [done|]. case_decide; simpl; [done|by rewrite decide_False]. Qed.

Lemma jm_get_delete_ne k k' m : k ≠ k' → jm_get k (jm_delete k' m) = jm_get k m.
Proof.
  intros Hne. induction m as [|[k1 v1] m IH]; simpl; [done|].
  repeat case_decide; simpl; repeat case_decide; congruence.
Qed.

Lemma jm_get_elem k v m : jm_get k m = Some v → (k, v) ∈ m.
Proof.
  induction m as [|[k' v'] m IH]; simpl; [done|].
  case_decide; intros; simplify_eq; [by left|right; auto].
Qed.

Lemma jm_get_None k m : jm_get k m = None ↔ k ∉ jm_keys m.
Proof.
  unfold jm_keys. induction m as [|[k' v'] m IH]; simpl; [set_solver|].
  rewrite not_elem_of_cons. case_decide; subst; [naive_solver|]. rewrite IH. naive_solver.
Qed.

Lemma jm_elem_get k v m : jm_wf m → (k, v) ∈ m → jm_get k m = Some v.
Proof.
  unfold jm_wf, jm_keys. induction m as [|[k' v'] m IH]; simpl; [set_solver|].
  rewrite NoDup_cons, elem_of_cons. intros [Hni Hnd] [?|Hin]; simplify_eq; [by rewrite decide_True|].
  rewrite decide_False; [by apply IH|]. intros ->. apply Hni.
  apply list_elem_of_fmap. by exists (k', v).
Qed.

Lemma jm_keys_set k v m :
  jm_keys (jm_set k v m) = if decide (k ∈ jm_keys m) then jm_keys m else jm_keys m ++ [k].
Proof.
  unfold jm_keys. induction m as [|[k' v'] m IH]; [case_decide; set_solver|]. cbn [jm_set].
  destruct (decide (k = k')) as [->|]; rewrite !fmap_cons; simpl.
  { rewrite decide_True by set_solver. done. }
  rewrite IH. repeat case_decide; set_solver.
Qed.

Lemma jm_wf_nil : jm_wf [].
Proof. constructor. Qed.

Lemma jm_wf_set k v m : jm_wf m → jm_wf (jm_set k v m).
Proof.
  unfold jm_wf. rewrite jm_keys_set. case_decide; [done|].
  intros. apply NoDup_app. repeat split; [done|set_solver|apply NoDup_singleton].
Qed.

Lemma jm_delete_elem k k' v m : (k', v) ∈ jm_delete k m ↔ (k', v) ∈ m ∧ k' ≠ k.
Proof.
  induction m as [|[k1 v1] m IH]; simpl; [set_solver|].
  case_decide; rewrite ?elem_of_cons, IH; naive_solver.
Qed.

Lemma jm_keys_delete k m : jm_keys (jm_delete k m) = filter (λ k', k' ≠ k) (jm_keys m).
Proof.
  unfold jm_keys. induction m as [|[k1 v1] m IH]; simpl; [done|].
  rewrite filter_cons. destruct (decide (k = k1)) as [->|Hne]; simpl.
  { by rewrite decide_False by naive_solver. }
  rewrite decide_True by done. f_equal. exact IH.
Qed.

Lemma jm_wf_delete k m : jm_wf m → jm_wf (jm_delete k m).
Proof. unfold jm_wf. rewrite jm_keys_delete. intros. by apply NoDup_filter. Qed.

(** Every entry of an updated map is the new one or an old one of another key. *)
Lemma jm_set_elem k v k' v' m :
  jm_wf m → (k', v') ∈ jm_set k v m → (k' = k ∧ v' = v) ∨ (k' ≠ k ∧ (k', v') ∈ m).
Proof.
  intros Hwf Hin. apply jm_elem_get in Hin; [|by apply jm_wf_set].
  rewrite jm_get_set in Hin. case_decide; simplify_eq; [by left|right; auto using jm_get_elem].
Qed.

Lemma jm_set_same k v m : jm_get k m = Some v → jm_set k v m = m.
Proof.
  induction m as [|[k' v'] m IH]; simpl; [done|]. case_decide; intros; simplify_eq; [done|].
  by rewrite IH.
Qed.

Lemma jm_values_elem v m : v ∈ jm_values m ↔ ∃ k, (k, v) ∈ m.
Proof.
  unfold jm_values. rewrite list_elem_of_fmap. split.
  - intros ([k v'] & -> & Hin). by exists k.
  - intros [k Hin]. by exists (k, v).
Qed.

Lemma jm_values_get v m : jm_wf m → v ∈ jm_values m → ∃ k, jm_get k m = Some v.
Proof. intros Hwf [k Hin]%jm_values_elem. exists k. by apply jm_elem_get. Qed.

Lemma jm_get_values k v m : jm_get k m = Some v → v ∈ jm_values m.
Proof. intros H%jm_get_elem. apply jm_values_elem. eauto. Qed.

Lemma jm_get_is_Some k m : is_Some (jm_get k m) ↔ k ∈ jm_keys m.
Proof. rewrite <- not_eq_None_Some, jm_get_None. split; [apply dec_stable|naive_solver]. Qed.

Lemma jm_keys_set_present k v m : is_Some (jm_get k m) → jm_keys (jm_set k v m) = jm_keys m.
Proof. intros H%jm_get_is_Some. rewrite jm_keys_set. by rewrite decide_True. Qed.

(** When every value names its key, the names of the values are the keys. *)
Lemma jm_values_keys (f : V → K) m : jm_wf m → (∀ k v, jm_get k m = Some v → f v = k) → f <$> jm_values m = jm_keys m.
Proof.
  intros Hwf Hf. unfold jm_values, jm_keys. rewrite <- list_fmap_compose. apply list_fmap_ext.
  intros i [k v] Hi. simpl. apply Hf, jm_elem_get; [done|]. by eapply list_elem_of_lookup_2.
Qed.

(** Replacing values in place. *)
Lemma jm_get_map (f : K * V → K * V) k m :
  (∀ p, (f p).1 = p.1) → jm_get k (map f m) = (λ v, (f (k, v)).2) <$> jm_get k m.
Proof.
  intros Hf. induction m as [|[k' v'] m IH]; simpl; [done|].
  specialize (Hf (k', v')). destruct (f (k', v')) as [k1 v1] eqn:He. simpl in *. subst.
  case_decide; subst; [simpl; by rewrite He|done].
Qed.

Lemma jm_keys_map (f : K * V → K * V) m :
  (∀ p, (f p).1 = p.1) → jm_keys (map f m) = jm_keys m.
Proof.
  intros Hf. unfold jm_keys. induction m as [|p m IH]; simpl; [done|]. rewrite Hf. f_equal. exact IH.
Qed.

End jsmap.

(** ** Abstraction to finite maps *)

Section jm_gmap.
Context {V : Type}.
Implicit Types m : jsmap string V.

(** What a [Map] says, without its order. *)
Definition jm_map (m : jsmap string V) : gmap string V := foldr (λ p g, <[p.1 := p.2]> g) ∅ m.

Lemma lookup_jm_map m k : jm_map m !! k = jm_get k m.
Proof.
  induction m as [|[k' v] m IH]; simpl; [by rewrite lookup_empty|].
  case_decide; subst; [by rewrite lookup_insert_eq|]. by rewrite lookup_insert_ne by done.
Qed.

Lemma jm_map_set m k v : jm_map (jm_set k v m) = <[k := v]> (jm_map m).
Proof.
  apply map_eq. intros k'. rewrite lookup_jm_map, jm_get_set.
  destruct (decide (k' = k)) as [->|]; [by rewrite lookup_insert_eq|].
  by rewrite lookup_insert_ne, lookup_jm_map.
Qed.

Lemma jm_map_delete m k : jm_map (jm_delete k m) = delete k (jm_map m).
Proof.
  apply map_eq. intros k'. rewrite lookup_jm_map.
  destruct (decide (k' = k)) as [->|]; [by rewrite jm_get_delete_eq, lookup_delete_eq|].
  by rewrite jm_get_delete_ne, lookup_delete_ne, lookup_jm_map.
Qed.
End jm_gmap.

(** ** [Set] *)

(** A [Set] is the list of its members in insertion order. *)
Section js_set.
Context {A : Type} `{EqDecision A}.
Implicit Types (x y : A) (l : list A).

Definition set_add x l : list A := if decide (x ∈ l) then l else l ++ [x].
Definition set_delete x l : list A := filter (λ y, y ≠ x) l.
(** [new Set(l)] *)
Definition js_set l : list A := foldl (λ acc x, set_add x acc) [] l.

Lemma elem_of_set_add x y l : x ∈ set_add y l ↔ x = y ∨ x ∈ l.
Proof. unfold set_add. case_decide; set_solver. Qed.
Lemma NoDup_set_add x l : NoDup l → NoDup (set_add x l).
Proof.
  unfold set_add. case_decide; [done|]. intros. apply NoDup_app. split_and!; [done|set_solver|apply NoDup_singleton].
Qed.
Lemma elem_of_set_delete x y l : x ∈ set_delete y l ↔ x ≠ y ∧ x ∈ l.
Proof. unfold set_delete. by rewrite list_elem_of_filter. Qed.

Lemma elem_of_js_set x l : x ∈ js_set l ↔ x ∈ l.
Proof.
  unfold js_set. assert (∀ acc, x ∈ foldl (λ acc x, set_add x acc) acc l ↔ x ∈ acc ∨ x ∈ l) as H.
  { induction l as [|y l IH]; intros acc; simpl; [set_solver|].
    rewrite IH, elem_of_set_add, elem_of_cons. tauto. }
  rewrite H. set_solver.
Qed.
Lemma NoDup_js_set l : NoDup (js_set l).
Proof.
  unfold js_set. assert (∀ acc, NoDup acc → NoDup (foldl (λ acc x, set_add x acc) acc l)) as H.
  { induction l as [|y l IH]; intros acc Ha; simpl; [done|]. apply IH. by apply NoDup_set_add. }
  apply H. constructor.
Qed.
End js_set.

#[export] Hint Resolve jm_wf_nil jm_wf_set jm_wf_delete : js.
