(* ===== verification/JsText.v ===== *)
(** * JsText: the string operations of ECMAScript that the components use.

    A JavaScript string is represented by the bytes of its UTF-8 encoding, so
    [Buffer.byteLength] is [String.length] and the well-formedness test
    [Buffer.from(s).toString('utf8') === s] holds of every value. *)
From S2P Require Import Prelude.
From Stdlib Require Import Ascii.

(** [+:+] does not reduce by [simpl]; these are its equations. *)
Lemma str_app_nil b : EmptyString +:+ b = b.
Proof. reflexivity. Qed.
Lemma str_app_cons c a b : String c a +:+ b = String c (a +:+ b).
Proof. reflexivity. Qed.
Lemma str_app_assoc a b c : a +:+ (b +:+ c) = (a +:+ b) +:+ c.
Proof. induction a as [|x a IH]; [done|]. rewrite !str_app_cons. by rewrite IH. Qed.
Lemma str_app_nil_r a : a +:+ EmptyString = a.
Proof. induction a as [|x a IH]; [done|]. rewrite str_app_cons. by rewrite IH. Qed.
Lemma str_app_length a b : String.length (a +:+ b) = String.length a + String.length b.
Proof. induction a as [|x a IH]; [done|]. rewrite str_app_cons. simpl. by rewrite IH. Qed.
Lemma list_ascii_app a b :
  String.list_ascii_of_string (a +:+ b) = String.list_ascii_of_string a ++ String.list_ascii_of_string b.
Proof. induction a as [|x a IH]; [done|]. rewrite str_app_cons. simpl. by rewrite IH. Qed.

Definition byteLength (s : string) : Z := Z.of_nat (String.length s).

(** The code of a byte. *)
Definition code (c : ascii) : Z := Z.of_N (N_of_ascii c).

(** ** Decimal digits *)

Definition is_digit (c : ascii) : bool := (48 <=? code c)%Z && (code c <=? 57)%Z.
Definition digit_val (c : ascii) : Z := (code c - 48)%Z.
Definition digit_char (d : Z) : ascii := ascii_of_N (Z.to_N (d + 48)).

(** Reads exactly [n] digits ([\d{n}]) and returns the number and the rest. *)
Fixpoint take_digits (n : nat) (acc : Z) (s : string) : option (Z * string) :=
  match n with
  | O => Some (acc, s)
  | S n' =>
      match s with
      | String c s' => if is_digit c then take_digits n' (acc * 10 + digit_val c)%Z s' else None
      | EmptyString => None
      end
  end.

(** The greedy [\d+]: the digits a string starts with, and the rest. *)
Fixpoint span_digits (s : string) : string * string :=
  match s with
  | String c s' =>
      if is_digit c then let '(ds, r) := span_digits s' in (String c ds, r) else (EmptyString, s)
  | EmptyString => (EmptyString, EmptyString)
  end.

(** [Number.parseInt(s, 10)] of a string of digits. *)
Fixpoint digits_value (acc : Z) (s : string) : Z :=
  match s with
  | String c s' => digits_value (acc * 10 + digit_val c)%Z s'
  | EmptyString => acc
  end.

Definition all_digits (s : string) : bool :=
  negb (String.eqb s EmptyString) && String.eqb (span_digits s).2 EmptyString.

(** The last [n] decimal digits of [z], most significant first ([padStart(n, '0')]). *)
Fixpoint print_digits (n : nat) (z : Z) : string :=
  match n with
  | O => EmptyString
  | S n' => String (digit_char (z / 10 ^ Z.of_nat n' mod 10)%Z) (print_digits n' z)
  end.

Lemma code_digit_char d : (0 ≤ d < 10)%Z → code (digit_char d) = (d + 48)%Z.
Proof.
  intros. unfold code, digit_char. rewrite N_ascii_embedding; [|lia]. rewrite Z2N.id; lia.
Qed.

Lemma take_print_digits n acc z rest :
  take_digits n acc (print_digits n z +:+ rest) =
  Some ((acc * 10 ^ Z.of_nat n + z mod 10 ^ Z.of_nat n)%Z, rest).
Proof.
  revert acc. induction n as [|n IH]; intros acc; cbn [take_digits print_digits String.append].
  { rewrite Z.mod_1_r. f_equal. f_equal. simpl (Z.of_nat 0). rewrite Z.pow_0_r. lia. }
  set (d := (z / 10 ^ Z.of_nat n mod 10)%Z).
  assert (0 ≤ d < 10)%Z as Hd by (apply Z.mod_pos_bound; lia).
  change (String (digit_char d) (print_digits n z) +:+ rest)
    with (String (digit_char d) (print_digits n z +:+ rest)).
  cbv beta iota. unfold is_digit, digit_val. rewrite code_digit_char by done.
  replace ((48 <=? d + 48)%Z && (d + 48 <=? 57)%Z) with true by lia.
  replace (d + 48 - 48)%Z with d by lia. rewrite IH. f_equal. f_equal.
  rewrite Nat2Z.inj_succ, Z.pow_succ_r by lia.
  rewrite (Z.mul_comm 10 (10 ^ Z.of_nat n)), Z.rem_mul_r; [|lia|lia].
  fold d. ring.
Qed.

(** ** Whitespace and [trim] *)

Definition byte_in (lo hi : Z) (c : ascii) : bool := (lo <=? code c)%Z && (code c <=? hi)%Z.

(** One white-space code point of ECMAScript's [WhiteSpace] and [LineTerminator] at
    the head of a byte string, by its UTF-8 bytes. *)
Definition skip_space (s : list ascii) : option (list ascii) :=
  match s with
  | c :: r =>
      if byte_in 9 13 c || byte_in 32 32 c then Some r else
      match r with
      | c2 :: r2 =>
          if byte_in 194 194 c && byte_in 160 160 c2 then Some r2 else
          match r2 with
          | c3 :: r3 =>
              if (byte_in 225 225 c && byte_in 154 154 c2 && byte_in 128 128 c3)
                 || (byte_in 226 226 c && byte_in 128 128 c2
                     && (byte_in 128 138 c3 || byte_in 168 169 c3 || byte_in 175 175 c3))
                 || (byte_in 226 226 c && byte_in 129 129 c2 && byte_in 159 159 c3)
                 || (byte_in 227 227 c && byte_in 128 128 c2 && byte_in 128 128 c3)
                 || (byte_in 239 239 c && byte_in 187 187 c2 && byte_in 191 191 c3)
              then Some r3 else None
          | [] => None
          end
      | [] => None
      end
  | [] => None
  end.

(** [trimStart]; [fuel] is the number of bytes, and every step removes at least one. *)
Fixpoint trim_start (fuel : nat) (s : list ascii) : list ascii :=
  match fuel with
  | O => s
  | S fuel' => match skip_space s with Some s' => trim_start fuel' s' | None => s end
  end.

(** [!value.trim()]: nothing is left of the string but white space. *)
Definition blank (s : string) : bool :=
  match trim_start (String.length s) (String.list_ascii_of_string s) with [] => true | _ => false end.

(** [value.includes('\0')] *)
Fixpoint has_nul (s : string) : bool :=
  match s with
  | String c s' => (code c =? 0)%Z || has_nul s'
  | EmptyString => false
  end.

(** ASCII [toLowerCase]. *)
Definition lower_char (c : ascii) : ascii :=
  if byte_in 65 90 c then ascii_of_N (Z.to_N (code c + 32)) else c.
Fixpoint lower (s : string) : string :=
  match s with
  | String c s' => String (lower_char c) (lower s')
  | EmptyString => EmptyString
  end.

Definition starts_with (p s : string) : bool := String.prefix p s.

Lemma starts_with_spec p s : starts_with p s = true ↔ ∃ r, s = p +:+ r.
Proof.
  unfold starts_with. revert s. induction p as [|c p IH]; intros s.
  { split; [|by destruct s]. intros _. exists s. by rewrite str_app_nil. }
  destruct s as [|c' s]; cbn [String.prefix].
  { split; [done|]. intros [r Hr]. by rewrite str_app_cons in Hr. }
  destruct (ascii_dec c c') as [->|Hne].
  - rewrite IH. split; intros [r Hr]; exists r; rewrite str_app_cons in *; congruence.
  - split; [done|]. intros [r Hr]. rewrite str_app_cons in Hr. congruence.
Qed.

(** ** Joining and splitting *)
Fixpoint has_char (c : ascii) (s : string) : bool :=
  match s with
  | String c' s' => Ascii.eqb c c' || has_char c s'
  | EmptyString => false
  end.

(** [a + c + b] determines [a] and [b] when [a] does not contain [c]. *)
Lemma append_char_inj c a b a' b' :
  has_char c a = false → has_char c a' = false →
  a +:+ String c b = a' +:+ String c b' → a = a' ∧ b = b'.
Proof.
  revert a'. induction a as [|x a IH]; intros [|x' a'] Ha Ha' Heq; simpl in *; simplify_eq; [done|..].
  - by rewrite Ascii.eqb_refl in Ha'.
  - by rewrite Ascii.eqb_refl in Ha.
  - apply orb_false_iff in Ha as [_ Ha], Ha' as [_ Ha'].
    destruct (IH a' Ha Ha') as [-> ->]; done.
Qed.

(** ** [split] *)

(** [s.split(c)] for a one-character separator: the pieces between its occurrences, at least one. *)
Fixpoint split_on (c : ascii) (s : string) : list string :=
  match s with
  | EmptyString => [EmptyString]
  | String x s' =>
      if Ascii.eqb c x then EmptyString :: split_on c s'
      else match split_on c s' with
           | p :: ps => String x p :: ps
           | [] => [String x EmptyString]
           end
  end.

(** [s.trim().split(/\s+/)] but for the empty piece of a blank string: the runs without white
    space. [fuel] is above the number of bytes, and every step removes at least one. *)
Definition flush (word : list ascii) : list string :=
  match word with [] => [] | _ => [String.string_of_list_ascii word] end.
Fixpoint words_from (fuel : nat) (word s : list ascii) : list string :=
  match fuel with
  | O => []
  | S fuel' =>
      match skip_space s with
      | Some s' => flush word ++ words_from fuel' [] s'
      | None => match s with [] => flush word | c :: s' => words_from fuel' (word ++ [c]) s' end
      end
  end.
Definition words (s : string) : list string :=
  words_from (S (String.length s)) [] (String.list_ascii_of_string s).

Lemma split_on_cons c s : ∃ p ps, split_on c s = p :: ps.
Proof. induction s as [|x s (p & ps & IH)]; simpl; [eauto|]. rewrite IH. case_match; eauto. Qed.

Lemma split_on_app c a s : has_char c a = false → split_on c (a +:+ String c s) = a :: split_on c s.
Proof.
  induction a as [|x a IH]; intros Ha.
  { rewrite str_app_nil. simpl. by rewrite Ascii.eqb_refl. }
  rewrite str_app_cons. simpl in *. apply orb_false_iff in Ha as [Hx Ha]. rewrite Hx, IH by done. done.
Qed.
Lemma split_on_single c a : has_char c a = false → split_on c a = [a].
Proof.
  induction a as [|x a IH]; intros Ha; [done|]. simpl in *. apply orb_false_iff in Ha as [Hx Ha].
  rewrite Hx, IH by done. done.
Qed.
Lemma split_on_pieces c s : Forall (λ p, has_char c p = false) (split_on c s).
Proof.
  induction s as [|x s IH]; simpl; [by repeat constructor|]. destruct (Ascii.eqb c x) eqn:Hx; [by constructor|].
  destruct (split_on c s) as [|p ps]; [|apply Forall_cons in IH as [Hp IH]];
    (constructor; [by simpl; rewrite Hx|done]).
Qed.

Lemma has_char_app c a b : has_char c (a +:+ b) = has_char c a || has_char c b.
Proof. induction a as [|x a IH]; [done|]. rewrite str_app_cons. simpl. by rewrite IH, orb_assoc. Qed.
