(* ===== verification/JsDate.v ===== *)
(** * JsDate: ECMAScript time values, the UTC calendar and ISO 8601 strings.

    A [Date] is its time value, the integer of milliseconds since 1970-01-01 UTC.
    [make_day]/[civil_from_days] are the calendar of ECMA-262 (Day, YearFromTime,
    MonthFromTime, DateFromTime on the proleptic Gregorian calendar). *)
From S2P Require Import Prelude JsText.
From Stdlib Require Import Ascii.

Local Open Scope Z_scope.

Definition MS_PER_DAY : Z := 86400000.

(** ** The calendar *)

(** Day of a year that starts on March 1st, from the month and the day of the month. *)
Definition doy_of (m d : Z) : Z := (153 * (if m >? 2 then m - 3 else m + 9) + 2) / 5 + d - 1.

(** Day number inside a 400-year era that starts on March 1st. *)
Definition doe_of (yoe doy : Z) : Z := yoe * 365 + yoe / 4 - yoe / 100 + doy.

Definition days_from_civil (y m d : Z) : Z :=
  let y' := if m <=? 2 then y - 1 else y in
  y' / 400 * 146097 + doe_of (y' mod 400) (doy_of m d) - 719468.

(** Year of era and day of year: the century, the four-year cycle, the year in it. *)
Definition year_of_doe (doe : Z) : Z * Z :=
  let c := Z.min 3 (doe / 36524) in
  let q := (doe - c * 36524) / 1461 in
  let y := Z.min 3 ((doe - c * 36524 - q * 1461) / 365) in
  (100 * c + 4 * q + y, doe - c * 36524 - q * 1461 - y * 365).

Definition month_of_doy (doy : Z) : Z * Z :=
  let mp := (5 * doy + 2) / 153 in
  ((if mp <? 10 then mp + 3 else mp - 9), doy - (153 * mp + 2) / 5 + 1).

Definition civil_from_days (z : Z) : Z * Z * Z :=
  let z' := z + 719468 in
  let '(yoe, doy) := year_of_doe (z' mod 146097) in
  let '(m, d) := month_of_doy doy in
  let y := yoe + z' / 146097 * 400 in
  ((if m <=? 2 then y + 1 else y), m, d).

Definition leap (y : Z) : bool := (y mod 4 =? 0) && (negb (y mod 100 =? 0) || (y mod 400 =? 0)).
Definition month_length (is_leap : bool) (m : Z) : Z :=
  if (m =? 4) || (m =? 6) || (m =? 9) || (m =? 11) then 30
  else if m =? 2 then (if is_leap then 29 else 28) else 31.
Definition days_in_month (y m : Z) : Z := month_length (leap y) m.
Definition valid_civil (y m d : Z) : bool :=
  (1 <=? m) && (m <=? 12) && (1 <=? d) && (d <=? days_in_month y m).

(** [f] holds on the [n] integers from [z] on. *)
Fixpoint all_from (n : nat) (f : Z → bool) (z : Z) : bool :=
  match n with O => true | S n' => f z && all_from n' f (z + 1) end.

Lemma all_from_spec n f z x : all_from n f z = true → z ≤ x < z + Z.of_nat n → f x = true.
Proof.
  revert z. induction n as [|n IH]; intros z; cbn [all_from]; [lia|].
  intros [Hz Hn]%andb_true_iff Hx. destruct (decide (x = z)) as [->|]; [done|].
  apply (IH (z + 1)); [done|lia].
Qed.

(** Months: both directions evaluated on the 366 days of a year. *)
Definition doy_ok (doy : Z) : bool :=
  let '(m, d) := month_of_doy doy in
  (doy_of m d =? doy) && (1 <=? m) && (m <=? 12) && (1 <=? d)
  && (d <=? month_length (doy =? 365) m).
Definition month_ok (m d : Z) : bool :=
  negb (d <=? month_length true m)
  || ((0 <=? doy_of m d) && (doy_of m d <=? (if d <=? month_length false m then 364 else 365))
      && (if (m =? 2) && (d =? 29) then doy_of m d =? 365 else true)
      && bool_decide (month_of_doy (doy_of m d) = (m, d))).

Lemma doys_checked : all_from 366 doy_ok 0 = true.
Proof. reflexivity. Qed.
Lemma months_checked : all_from 12 (λ m, all_from 31 (month_ok m) 1) 1 = true.
Proof. reflexivity. Qed.

Lemma month_length_bounds b m : 28 ≤ month_length b m ≤ 31.
Proof. unfold month_length. repeat case_match; lia. Qed.

Lemma month_of_doy_spec doy m d :
  0 ≤ doy < 366 → month_of_doy doy = (m, d) →
  doy_of m d = doy ∧ 1 ≤ m ≤ 12 ∧ 1 ≤ d ≤ month_length (doy =? 365) m.
Proof.
  intros Hdoy Heq. pose proof (all_from_spec _ _ _ doy doys_checked ltac:(lia)) as Hok.
  unfold doy_ok in Hok. rewrite Heq in Hok. lia.
Qed.

Lemma doy_of_spec b m d :
  1 ≤ m ≤ 12 → 1 ≤ d ≤ month_length b m →
  0 ≤ doy_of m d < 366 ∧ (doy_of m d = 365 → b = true) ∧ month_of_doy (doy_of m d) = (m, d).
Proof.
  intros Hm Hd. pose proof (month_length_bounds b m).
  pose proof months_checked as Hok. apply (all_from_spec _ _ _ m) in Hok; [|lia]. cbv beta in Hok.
  apply (all_from_spec _ _ _ d) in Hok; [|lia]. unfold month_ok in Hok.
  assert (d <= month_length true m) by (unfold month_length in *; repeat case_match; lia).
  apply orb_true_iff in Hok as [?|[[[??]%andb_true_iff _]%andb_true_iff ?%bool_decide_eq_true]%andb_true_iff]; [lia|].
  repeat split; [lia|case_match; lia| |done].
  intros. destruct b; [done|]. destruct (d <=? month_length false m) eqn:?; lia.
Qed.

(** Years: linear arithmetic on centuries, cycles and years. *)
Lemma year_of_doe_spec doe yoe doy :
  0 ≤ doe < 146097 → year_of_doe doe = (yoe, doy) →
  doe_of yoe doy = doe ∧ 0 ≤ yoe < 400 ∧ 0 ≤ doy < 366 ∧ (doy = 365 → leap (yoe + 1) = true).
Proof.
  intros Hdoe [= <- <-]. unfold doe_of, leap.
  set (c := Z.min 3 (doe / 36524)). set (r := doe - c * 36524).
  assert (0 ≤ c ≤ 3 ∧ 0 ≤ r ≤ 36524 ∧ (c < 3 → r < 36524)) as (Hc & Hr & Hr')
    by (unfold r, c; Z.div_mod_to_equations; lia).
  clearbody c. set (q := r / 1461).
  assert (0 ≤ q ≤ 24 ∧ 0 ≤ r - q * 1461 < 1461) as [Hq Hr2] by (unfold q; Z.div_mod_to_equations; lia).
  clearbody q. set (y := Z.min 3 ((r - q * 1461) / 365)).
  assert (0 ≤ y ≤ 3 ∧ 0 ≤ r - q * 1461 - y * 365 < 366 ∧ (y < 3 → r - q * 1461 - y * 365 < 365))
    as (Hy & Hr3 & Hr4) by (unfold y; Z.div_mod_to_equations; lia).
  clearbody y. repeat split; try (unfold r in *; Z.div_mod_to_equations; lia).
Qed.

Lemma doe_of_spec yoe doy :
  0 ≤ yoe < 400 → 0 ≤ doy < 366 → (doy = 365 → leap (yoe + 1) = true) →
  0 ≤ doe_of yoe doy < 146097 ∧ year_of_doe (doe_of yoe doy) = (yoe, doy).
Proof.
  intros Hyoe Hdoy Hleap. unfold doe_of, leap in *.
  set (c := yoe / 100). set (q := yoe / 4 - 25 * c). set (y := yoe - 100 * c - 4 * q).
  assert (0 ≤ c ≤ 3 ∧ 0 ≤ q ≤ 24 ∧ 0 ≤ y ≤ 3) as (Hc & Hq & Hy)
    by (unfold y, q, c; Z.div_mod_to_equations; lia).
  assert (yoe = 100 * c + 4 * q + y ∧ yoe / 4 = 25 * c + q) as (Heq & ->) by (unfold y, q; lia).
  assert (doy = 365 → y = 3 ∧ (q < 24 ∨ c = 3)) as Hlast.
  { intros Hd. specialize (Hleap Hd). rewrite Heq in Hleap. clearbody c q y.
    split; [Z.div_mod_to_equations; lia|].
    destruct (decide (q < 24)); [by left|right].
    assert (q = 24) as -> by lia. Z.div_mod_to_equations; lia. }
  clearbody c q y. subst yoe.
  set (doe := (100 * c + 4 * q + y) * 365 + (25 * c + q) - c + doy).
  assert (doe = 36524 * c + 1461 * q + 365 * y + doy) as Hdoe by (unfold doe; lia). clearbody doe.
  split; [lia|]. unfold year_of_doe.
  assert (Z.min 3 (doe / 36524) = c) as -> by (Z.div_mod_to_equations; lia).
  assert ((doe - c * 36524) / 1461 = q) as -> by (Z.div_mod_to_equations; lia).
  assert (Z.min 3 ((doe - c * 36524 - q * 1461) / 365) = y) as -> by (Z.div_mod_to_equations; lia).
  f_equal; lia.
Qed.

Lemma leap_period y k : leap (y + k * 400) = leap y.
Proof.
  unfold leap.
  replace (y + k * 400) with (y + k * 100 * 4) at 1 by ring.
  replace (y + k * 400) with (y + k * 4 * 100) at 1 by ring.
  by rewrite !Z.mod_add by lia.
Qed.

(** The calendar round trips. *)
Lemma days_civil_days z :
  let '(y, m, d) := civil_from_days z in days_from_civil y m d = z ∧ valid_civil y m d = true.
Proof.
  unfold civil_from_days. set (z' := z + 719468).
  pose proof (Z.mod_pos_bound z' 146097 ltac:(lia)) as Hb.
  destruct (year_of_doe (z' mod 146097)) as [yoe doy] eqn:Hy.
  apply year_of_doe_spec in Hy as (Hdoe & Hyoe & Hdoy & Hleap); [|done].
  destruct (month_of_doy doy) as [m d] eqn:Hm.
  apply month_of_doy_spec in Hm as (Hdoy' & Hm & Hd); [|done]. split.
  - unfold days_from_civil.
    replace (if m <=? 2 then (if m <=? 2 then yoe + z' / 146097 * 400 + 1 else yoe + z' / 146097 * 400) - 1
             else if m <=? 2 then yoe + z' / 146097 * 400 + 1 else yoe + z' / 146097 * 400)
      with (yoe + z' / 146097 * 400) by (destruct (m <=? 2); lia).
    rewrite Z.div_add, Z.mod_add by lia.
    rewrite Z.div_small, Z.mod_small, Hdoy', Hdoe by lia.
    pose proof (Z_div_mod_eq_full z' 146097). lia.
  - unfold valid_civil, days_in_month.
    assert (d ≤ month_length (leap (if m <=? 2 then yoe + z' / 146097 * 400 + 1 else yoe + z' / 146097 * 400)) m); [|lia].
    destruct (doy =? 365) eqn:Hlast; unfold month_length in *; [|repeat case_match; lia].
    destruct (m =? 2) eqn:Hfeb; [|repeat case_match; lia].
    replace (m <=? 2) with true by lia.
    replace (yoe + z' / 146097 * 400 + 1) with (yoe + 1 + z' / 146097 * 400) by ring.
    rewrite leap_period, Hleap by lia. repeat case_match; lia.
Qed.

Lemma civil_days_civil y m d :
  valid_civil y m d = true → civil_from_days (days_from_civil y m d) = (y, m, d).
Proof.
  intros Hv. unfold days_from_civil, civil_from_days.
  set (y' := if m <=? 2 then y - 1 else y).
  pose proof (Z.mod_pos_bound y' 400 ltac:(lia)) as Hb.
  unfold valid_civil, days_in_month in Hv.
  destruct (doy_of_spec (leap y) m d) as (Hdoy & Hlast & Hmonth); [lia|lia|].
  assert (doy_of m d = 365 → m = 2) as Hfeb.
  { intros H. rewrite H in Hmonth.
    assert (month_of_doy 365 = (2, 29)) as Hm by reflexivity. congruence. }
  destruct (doe_of_spec (y' mod 400) (doy_of m d)) as [Hdoe Hyear]; [lia|lia| |].
  { intros H. specialize (Hlast H). specialize (Hfeb H).
    assert (y' = y - 1) as -> by (unfold y'; by rewrite Hfeb).
    rewrite <- (leap_period _ ((y - 1) / 400)). rewrite <- Hlast. f_equal.
    pose proof (Z_div_mod_eq_full (y - 1) 400). lia. }
  replace (y' / 400 * 146097 + doe_of (y' mod 400) (doy_of m d) - 719468 + 719468)
    with (doe_of (y' mod 400) (doy_of m d) + y' / 400 * 146097) by ring.
  rewrite Z.mod_add, Z.div_add by lia.
  rewrite (Z.mod_small (doe_of _ _)), (Z.div_small (doe_of _ _)) by lia.
  rewrite Hyear, Hmonth. pose proof (Z_div_mod_eq_full y' 400).
  f_equal. f_equal. unfold y' in *. destruct (m <=? 2); lia.
Qed.

(** ** Time values *)

Record DateFields := {
  df_year : Z; df_month : Z; df_day : Z;
  df_hour : Z; df_minute : Z; df_second : Z; df_ms : Z }.

(** [MakeDay] with the day of the month counted from the first, and [MakeTime]. *)
Definition make_day (y m d : Z) : Z := days_from_civil y m 1 + d - 1.
Definition make_time (h mi s ms : Z) : Z := h * 3600000 + mi * 60000 + s * 1000 + ms.
Definition date_utc (f : DateFields) : Z :=
  make_day (df_year f) (df_month f) (df_day f) * MS_PER_DAY
  + make_time (df_hour f) (df_minute f) (df_second f) (df_ms f).

(** [getUTCFullYear] ... [getUTCMilliseconds]; months are counted from 1 here. *)
Definition utc_fields (t : Z) : DateFields :=
  let '(y, m, d) := civil_from_days (t / MS_PER_DAY) in
  let r := t mod MS_PER_DAY in
  {| df_year := y; df_month := m; df_day := d;
     df_hour := r / 3600000; df_minute := r / 60000 mod 60;
     df_second := r / 1000 mod 60; df_ms := r mod 1000 |}.

(** [getUTCDay], 0 for Sunday. *)
Definition utc_weekday (t : Z) : Z := (t / MS_PER_DAY + 4) mod 7.

Lemma days_from_civil_day y m d : days_from_civil y m d = make_day y m d.
Proof. unfold make_day, days_from_civil, doe_of, doy_of. lia. Qed.

Lemma utc_fields_date_utc t : date_utc (utc_fields t) = t.
Proof.
  unfold utc_fields, date_utc. pose proof (days_civil_days (t / MS_PER_DAY)) as H.
  destruct (civil_from_days (t / MS_PER_DAY)) as [[y m] d]; simpl. destruct H as [H _].
  rewrite <- days_from_civil_day, H. unfold MS_PER_DAY, make_time.
  Z.div_mod_to_equations. lia.
Qed.

Lemma utc_fields_valid t :
  let f := utc_fields t in
  valid_civil (df_year f) (df_month f) (df_day f) = true ∧
  0 ≤ df_hour f < 24 ∧ 0 ≤ df_minute f < 60 ∧ 0 ≤ df_second f < 60 ∧ 0 ≤ df_ms f < 1000.
Proof.
  unfold utc_fields. pose proof (days_civil_days (t / MS_PER_DAY)) as H.
  destruct (civil_from_days (t / MS_PER_DAY)) as [[y m] d]; simpl. destruct H as [_ H].
  unfold MS_PER_DAY in *. repeat split; try done; Z.div_mod_to_equations; lia.
Qed.

(** Largest time value ([TimeClip]). *)
Definition MAX_TIME : Z := 8640000000000000.
Definition time_clip (t : Z) : option Z := if Z.abs t <=? MAX_TIME then Some t else None.

(** ** ISO strings *)

Definition print_year (y : Z) : string :=
  if (0 <=? y) && (y <=? 9999) then print_digits 4 y
  else if y <? 0 then "-" +:+ print_digits 6 (- y) else "+" +:+ print_digits 6 y.

Definition print_fields (f : DateFields) : string :=
  print_year (df_year f) +:+ "-" +:+ print_digits 2 (df_month f) +:+ "-" +:+ print_digits 2 (df_day f)
  +:+ "T" +:+ print_digits 2 (df_hour f) +:+ ":" +:+ print_digits 2 (df_minute f)
  +:+ ":" +:+ print_digits 2 (df_second f) +:+ "." +:+ print_digits 3 (df_ms f) +:+ "Z".

(** [new Date(t).toISOString()]; a time value outside [TimeClip] throws a RangeError. *)
Definition to_iso (t : Z) : string := print_fields (utc_fields t).

Definition expect (c : Ascii.ascii) (s : string) : option string :=
  match s with String c' s' => if Ascii.eqb c c' then Some s' else None | EmptyString => None end.

Definition parse_year (s : string) : option (Z * string) :=
  match s with
  | String c s' =>
      if Ascii.eqb c "+"%char then take_digits 6 0 s'
      else if Ascii.eqb c "-"%char then
        '(y, r) ← take_digits 6 0 s'; if y =? 0 then None else Some (- y, r)
      else take_digits 4 0 s
  | EmptyString => None
  end.

(** Fraction digits: the first three count, the rest is dropped. *)
Definition parse_ms (s : string) : option (Z * string) :=
  let '(ds, r) := span_digits s in
  if String.eqb ds EmptyString then None
  else '(ms, _) ← take_digits 3 0 (ds +:+ "00"); Some (ms, r).

Definition parse_offset (s : string) : option Z :=
  match s with
  | String sign s1 =>
      if Ascii.eqb sign "Z"%char then if String.eqb s1 EmptyString then Some 0 else None
      else if Ascii.eqb sign "+"%char || Ascii.eqb sign "-"%char then
        '(h, s2) ← take_digits 2 0 s1; s3 ← expect ":"%char s2; '(m, s4) ← take_digits 2 0 s3;
        if String.eqb s4 EmptyString && (h <=? 23) && (m <=? 59)
        then Some ((if Ascii.eqb sign "-"%char then -1 else 1) * (h * 3600000 + m * 60000)) else None
      else None
  | EmptyString => None
  end.

(** [Date.parse] on the Date Time String Format with an explicit offset, and on its
    date-only form: [None] is NaN. As V8 does, a day up to 31 is accepted in every month
    and rolls over. Strings outside the format, whose meaning ECMA-262 leaves to the
    implementation, are NaN here. *)
Definition date_parse (s : string) : option Z :=
  '(y, s1) ← parse_year s; s2 ← expect "-"%char s1;
  '(m, s3) ← take_digits 2 0 s2; s4 ← expect "-"%char s3;
  '(d, s5) ← take_digits 2 0 s4;
  if negb ((1 <=? m) && (m <=? 12) && (1 <=? d) && (d <=? 31)) then None
  else if String.eqb s5 EmptyString then time_clip (make_day y m d * MS_PER_DAY) else
  s6 ← expect "T"%char s5;
  '(h, s7) ← take_digits 2 0 s6; s8 ← expect ":"%char s7;
  '(mi, s9) ← take_digits 2 0 s8;
  '(sec, s11) ← match expect ":"%char s9 with Some s10 => take_digits 2 0 s10 | None => Some (0, s9) end;
  '(ms, s13) ← match expect "."%char s11 with Some s12 => parse_ms s12 | None => Some (0, s11) end;
  off ← parse_offset s13;
  if ((h <=? 23) || ((h =? 24) && (mi =? 0) && (sec =? 0) && (ms =? 0)))
     && (mi <=? 59) && (sec <=? 59)
  then time_clip (make_day y m d * MS_PER_DAY + make_time h mi sec ms - off) else None.

(** [Date.parse(a) > Date.parse(b)]: false when either is NaN. *)
Definition date_gt (a b : string) : bool :=
  match date_parse a, date_parse b with Some x, Some y => y <? x | _, _ => false end.

Example date_parse_1 : date_parse "2026-09-29T12:00:00.000Z" = Some 1790683200000.
Proof. reflexivity. Qed.
Example date_parse_2 : date_parse "2026-02-30" = date_parse "2026-03-02T00:00Z".
Proof. reflexivity. Qed.
Example to_iso_1 : to_iso 1790683200123 = "2026-09-29T12:00:00.123Z".
Proof. reflexivity. Qed.

(** ** Order of time values *)

Lemma days_formula y m d :
  days_from_civil y m d =
  let y' := if m <=? 2 then y - 1 else y in
  365 * y' + y' / 4 - y' / 100 + y' / 400 + doy_of m d - 719468.
Proof. unfold days_from_civil, doe_of. cbv zeta. destruct (m <=? 2); Z.div_mod_to_equations; lia. Qed.

Lemma month_step y m :
  1 ≤ m ≤ 12 →
  days_from_civil y m 1 + days_in_month y m =
  if m =? 12 then days_from_civil (y + 1) 1 1 else days_from_civil y (m + 1) 1.
Proof.
  intros Hm. rewrite !days_formula. unfold doy_of, days_in_month, month_length, leap. cbv zeta.
  assert (m = 1 ∨ m = 2 ∨ m = 3 ∨ m = 4 ∨ m = 5 ∨ m = 6 ∨ m = 7 ∨ m = 8 ∨ m = 9 ∨ m = 10 ∨ m = 11 ∨ m = 12)
    as Hcases by lia.
  destruct_or!; subst m; simpl; try (Z.div_mod_to_equations; lia).
  destruct (y mod 4 =? 0) eqn:?, (y mod 100 =? 0) eqn:?, (y mod 400 =? 0) eqn:?; simpl;
    Z.div_mod_to_equations; lia.
Qed.

Lemma days_in_month_pos y m : 28 ≤ days_in_month y m.
Proof. apply month_length_bounds. Qed.

Lemma month_mono y m n :
  1 ≤ m → m + 1 + Z.of_nat n ≤ 12 →
  days_from_civil y m 1 + days_in_month y m ≤ days_from_civil y (m + 1 + Z.of_nat n) 1.
Proof.
  intros Hm Hn. induction n as [|n IH].
  - rewrite month_step by lia. destruct (m =? 12) eqn:?; [lia|]. by rewrite Z.add_0_r.
  - specialize (IH ltac:(lia)). etrans; [exact IH|].
    pose proof (month_step y (m + 1 + Z.of_nat n) ltac:(lia)) as Hs.
    pose proof (days_in_month_pos y (m + 1 + Z.of_nat n)).
    destruct (m + 1 + Z.of_nat n =? 12) eqn:?; [lia|].
    replace (m + 1 + Z.of_nat (S n)) with (m + 1 + Z.of_nat n + 1) by lia. lia.
Qed.

Lemma year_mono y y' : y < y' → days_from_civil (y + 1) 1 1 ≤ days_from_civil y' 1 1.
Proof. intros. rewrite !days_formula. simpl. Z.div_mod_to_equations. lia. Qed.

(** A date is before every date of a later month. *)
Lemma date_month_lt y m d y' m' d' :
  valid_civil y m d = true → valid_civil y' m' d' = true →
  y < y' ∨ (y = y' ∧ m < m') → days_from_civil y m d < days_from_civil y' m' d'.
Proof.
  intros Hv Hv' Hlt. unfold valid_civil in *.
  rewrite !(days_from_civil_day _ _ d), !(days_from_civil_day _ _ d'). unfold make_day.
  assert (days_from_civil y m 1 + days_in_month y m ≤ days_from_civil y' m' 1); [|lia].
  destruct Hlt as [Hlt|[<- Hlt]].
  - assert (days_from_civil y m 1 + days_in_month y m ≤ days_from_civil (y + 1) 1 1) as H1.
    { destruct (decide (m = 12)) as [->|]; [by rewrite month_step by lia|].
      pose proof (month_mono y m (Z.to_nat (11 - m)) ltac:(lia) ltac:(lia)) as H.
      replace (m + 1 + Z.of_nat (Z.to_nat (11 - m))) with 12 in H by lia.
      pose proof (month_step y 12 ltac:(lia)) as Hs. simpl in Hs. pose proof (days_in_month_pos y 12). lia. }
    pose proof (year_mono y y' Hlt) as Hyear.
    assert (days_from_civil y' 1 1 ≤ days_from_civil y' m' 1); [|lia].
    destruct (decide (m' = 1)) as [->|]; [lia|].
    pose proof (month_mono y' 1 (Z.to_nat (m' - 2)) ltac:(lia) ltac:(lia)) as H.
    replace (1 + 1 + Z.of_nat (Z.to_nat (m' - 2))) with m' in H by lia.
    pose proof (days_in_month_pos y' 1). lia.
  - pose proof (month_mono y m (Z.to_nat (m' - m - 1)) ltac:(lia) ltac:(lia)) as H.
    by replace (m + 1 + Z.of_nat (Z.to_nat (m' - m - 1))) with m' in H by lia.
Qed.

(** Lexicographic order of the fields, as a comparison of their digits decides it. *)
Definition fields_lt (f g : DateFields) : Prop :=
  df_year f < df_year g ∨ (df_year f = df_year g ∧
  (df_month f < df_month g ∨ (df_month f = df_month g ∧
  (df_day f < df_day g ∨ (df_day f = df_day g ∧
  (df_hour f < df_hour g ∨ (df_hour f = df_hour g ∧
  (df_minute f < df_minute g ∨ (df_minute f = df_minute g ∧
  (df_second f < df_second g ∨ (df_second f = df_second g ∧ df_ms f < df_ms g))))))))))).

Lemma fields_lt_time x y : fields_lt (utc_fields x) (utc_fields y) → x < y.
Proof.
  pose proof (utc_fields_date_utc x) as Hx. pose proof (utc_fields_date_utc y) as Hy.
  pose proof (utc_fields_valid x) as Vx. pose proof (utc_fields_valid y) as Vy. cbv zeta in Vx, Vy.
  revert Hx Hy Vx Vy. generalize (utc_fields x) (utc_fields y). intros f g <- <- Vx Vy Hlt.
  unfold date_utc. rewrite <- !days_from_civil_day. unfold make_time, MS_PER_DAY.
  destruct Vx as (Vx & ? & ? & ? & ?), Vy as (Vy & ? & ? & ? & ?).
  assert (days_from_civil (df_year f) (df_month f) (df_day f) <
          days_from_civil (df_year g) (df_month g) (df_day g) ∨
          (df_year f = df_year g ∧ df_month f = df_month g ∧ df_day f = df_day g ∧
           make_time (df_hour f) (df_minute f) (df_second f) (df_ms f)
             < make_time (df_hour g) (df_minute g) (df_second g) (df_ms g))) as [Hd|(-> & -> & -> & Ht)].
  { unfold fields_lt in Hlt. destruct Hlt as [Hlt|[Hy [Hlt|[Hm [Hlt|[Hd Hlt]]]]]].
    - left. apply date_month_lt; auto.
    - left. apply date_month_lt; auto.
    - left. rewrite Hy, Hm, !(days_from_civil_day _ _ (df_day f)), !(days_from_civil_day _ _ (df_day g)).
      unfold make_day. lia.
    - right. split_and!; try done. unfold make_time. lia. }
  - lia.
  - unfold make_time in Ht. lia.
Qed.

Lemma fields_lt_total f g : fields_lt f g ∨ f = g ∨ fields_lt g f.
Proof.
  unfold fields_lt. destruct f as [a1 a2 a3 a4 a5 a6 a7], g as [b1 b2 b3 b4 b5 b6 b7]; simpl.
  destruct (Z.lt_trichotomy a1 b1) as [?|[->|?]]; [tauto| |tauto].
  destruct (Z.lt_trichotomy a2 b2) as [?|[->|?]]; [tauto| |tauto].
  destruct (Z.lt_trichotomy a3 b3) as [?|[->|?]]; [tauto| |tauto].
  destruct (Z.lt_trichotomy a4 b4) as [?|[->|?]]; [tauto| |tauto].
  destruct (Z.lt_trichotomy a5 b5) as [?|[->|?]]; [tauto| |tauto].
  destruct (Z.lt_trichotomy a6 b6) as [?|[->|?]]; [tauto| |tauto].
  destruct (Z.lt_trichotomy a7 b7) as [?|[->|?]]; [tauto| |tauto].
  tauto.
Qed.

Lemma fields_lt_iff x y : fields_lt (utc_fields x) (utc_fields y) ↔ x < y.
Proof.
  split; [apply fields_lt_time|]. intros Hlt.
  destruct (fields_lt_total (utc_fields x) (utc_fields y)) as [?|[He|Hgt]]; [done| |].
  - apply (f_equal date_utc) in He. rewrite !utc_fields_date_utc in He. lia.
  - apply fields_lt_time in Hgt. lia.
Qed.

(** ** [Date.parse] reads back what [toISOString] writes. *)

Definition four_digit_year (t : Z) : Prop := 0 ≤ df_year (utc_fields t) ≤ 9999.

Lemma take_field n z c r :
  0 ≤ z < 10 ^ Z.of_nat n →
  take_digits n 0 (print_digits n z +:+ String c r) = Some (z, String c r).
Proof. intros Hz. rewrite take_print_digits, Z.mod_small by done. done. Qed.

Lemma expect_cons c r : expect c (String c r) = Some r.
Proof. unfold expect. by rewrite Ascii.eqb_refl. Qed.

Lemma parse_year_digits y c r :
  0 ≤ y ≤ 9999 → parse_year (print_digits 4 y +:+ String c r) = Some (y, String c r).
Proof.
  intros Hy. pose proof (take_field 4 y c r ltac:(lia)) as Ht. revert Ht.
  change (print_digits 4 y) with (String (digit_char (y / 10 ^ 3 mod 10)) (print_digits 3 y)).
  rewrite str_app_cons. unfold parse_year. intros Ht.
  assert (∀ ch, code ch < 48 → Ascii.eqb (digit_char (y / 10 ^ 3 mod 10)) ch = false) as Hsign.
  { intros ch Hch. apply Ascii.eqb_neq. intros <-. rewrite code_digit_char in Hch by (apply Z.mod_pos_bound; lia).
    pose proof (Z.mod_pos_bound (y / 10 ^ 3) 10 ltac:(lia)). lia. }
  rewrite !Hsign by (vm_compute; reflexivity). exact Ht.
Qed.

Lemma span_print_digits n z c r :
  is_digit c = false → span_digits (print_digits n z +:+ String c r) = (print_digits n z, String c r).
Proof.
  intros Hc. induction n as [|n IH]; cbn [print_digits].
  { rewrite str_app_nil. simpl. by rewrite Hc. }
  rewrite str_app_cons. cbn [span_digits]. rewrite IH. unfold is_digit.
  rewrite code_digit_char by (apply Z.mod_pos_bound; lia).
  pose proof (Z.mod_pos_bound (z / 10 ^ Z.of_nat n) 10 ltac:(lia)).
  by replace ((48 <=? _) && _) with true by lia.
Qed.

Lemma print_fields_text f :
  0 ≤ df_year f ≤ 9999 →
  print_fields f =
  print_digits 4 (df_year f) +:+ String "-" (print_digits 2 (df_month f) +:+ String "-"
    (print_digits 2 (df_day f) +:+ String "T" (print_digits 2 (df_hour f) +:+ String ":"
      (print_digits 2 (df_minute f) +:+ String ":" (print_digits 2 (df_second f) +:+ String "."
        (print_digits 3 (df_ms f) +:+ String "Z" EmptyString)))))).
Proof.
  intros Hy. unfold print_fields, print_year.
  replace ((0 <=? df_year f) && (df_year f <=? 9999)) with true by lia.
  rewrite <- ?str_app_assoc. by rewrite !str_app_cons, !str_app_nil.
Qed.

(** [Date.parse] reads back what [toISOString] writes. *)
Lemma date_parse_iso t : four_digit_year t → Z.abs t ≤ MAX_TIME → date_parse (to_iso t) = Some t.
Proof.
  intros Hy Hmax. unfold to_iso. rewrite print_fields_text by done.
  pose proof (utc_fields_date_utc t) as Ht. pose proof (utc_fields_valid t) as Hv. cbv zeta in Hv.
  unfold four_digit_year in Hy. revert Ht Hv Hy. generalize (utc_fields t). intros f Ht Hv Hy.
  destruct Hv as (Hv & Hh & Hmi & Hs & Hms). unfold valid_civil in Hv.
  pose proof (month_length_bounds (leap (df_year f)) (df_month f)). unfold days_in_month in Hv.
  unfold date_parse. rewrite parse_year_digits by done.
  cbn [mbind option_bind]. rewrite expect_cons. cbn [mbind option_bind]. rewrite take_field by (simpl; lia).
  cbn [mbind option_bind]. rewrite expect_cons. cbn [mbind option_bind]. rewrite take_field by (simpl; lia).
  cbn [mbind option_bind].
  replace (negb _) with false by lia. cbn [String.eqb]. rewrite expect_cons.
  cbn [mbind option_bind]. rewrite take_field by (simpl; lia).
  cbn [mbind option_bind]. rewrite expect_cons. cbn [mbind option_bind]. rewrite take_field by (simpl; lia).
  cbn [mbind option_bind]. rewrite expect_cons. cbn [mbind option_bind]. rewrite take_field by (simpl; lia).
  cbn [mbind option_bind]. rewrite expect_cons. cbn [mbind option_bind].
  unfold parse_ms. rewrite span_print_digits by reflexivity.
  change (String.eqb (print_digits 3 (df_ms f)) EmptyString) with false. cbn iota.
  rewrite take_print_digits, Z.mod_small by (simpl; lia).
  change (0 * 10 ^ Z.of_nat 3 + df_ms f) with (df_ms f). cbn [mbind option_bind].
  unfold parse_offset. cbn [Ascii.eqb Bool.eqb String.eqb mbind option_bind].
  replace ((_ || _) && _ && _) with true by lia.
  match goal with |- time_clip (?x - 0) = _ =>
    replace (x - 0) with t by (rewrite <- Ht; unfold date_utc; lia) end.
  unfold time_clip. by replace (Z.abs t <=? MAX_TIME) with true by lia.
Qed.
