(* ===== verification/JsJson.v ===== *)
(** * JsJson: JSON values and their two canonical encodings.

    [json] is a value of JavaScript made of plain data. [encode] is [JSON.stringify],
    [canonicalOfflineSyncPayload] the canonical payload text of
    [offline-sync/src/payload-integrity.ts] and [stableStringify] the transport text of
    [offline-sync/src/transport.ts]. *)
From S2P Require Import Prelude JsText.
From Stdlib Require Import Ascii.

(** A finite number is carried by the text [JSON.stringify] gives it, an object by its own
    enumerable properties in their own order. [JUndefined] stands for [undefined] and for a
    function or symbol, [JExotic] for an object whose prototype, symbols or accessors make it
    something other than plain data. *)
Inductive json : Type :=
| JUndefined
| JNull
| JBool (b : bool)
| JNumber (text : string)
| JNonFinite
| JString (s : string)
| JArray (items : list json)
| JObject (props : list (string * json))
| JExotic.

Fixpoint json_size (j : json) : nat :=
  match j with
  | JArray l => S (foldr (λ x n, json_size x + n) 0 l)
  | JObject l => S (foldr (λ p n, json_size p.2 + n) 0 l)
  | _ => 1
  end.

(** ** Strings *)

Definition hex_digit (n : Z) : ascii :=
  if (n <? 10)%Z then ascii_of_N (Z.to_N (n + 48)) else ascii_of_N (Z.to_N (n + 87)).
Definition quote_char : ascii := ascii_of_nat 34.
Definition backslash : ascii := ascii_of_nat 92.

(** [QuoteJSONString]: one code unit below 128, all others verbatim. *)
Definition escape_char (c : ascii) : list ascii :=
  let z := code c in
  if (z =? 34)%Z then [backslash; quote_char]
  else if (z =? 92)%Z then [backslash; backslash]
  else if (z =? 8)%Z then [backslash; "b"%char]
  else if (z =? 9)%Z then [backslash; "t"%char]
  else if (z =? 10)%Z then [backslash; "n"%char]
  else if (z =? 12)%Z then [backslash; "f"%char]
  else if (z =? 13)%Z then [backslash; "r"%char]
  else if (z <? 32)%Z then
    [backslash; "u"%char; "0"%char; "0"%char; hex_digit (z / 16); hex_digit (z mod 16)]
  else [c].

Definition escape (s : string) : string :=
  String.string_of_list_ascii (flat_map escape_char (String.list_ascii_of_string s)).
(** [JSON.stringify] of a string. *)
Definition quote (s : string) : string :=
  String quote_char (escape s +:+ String quote_char EmptyString).

(** [l.join(sep)] *)
Fixpoint join (sep : string) (l : list string) : string :=
  match l with
  | [] => EmptyString
  | [x] => x
  | x :: l' => x +:+ sep +:+ join sep l'
  end.

Lemma join_cons sep x y l : join sep (x :: y :: l) = x +:+ sep +:+ join sep (y :: l).
Proof. reflexivity. Qed.

(** The order of UTF-16 code units on UTF-8 bytes: a lead byte of a supplementary code
    point (a surrogate pair) comes before the lead bytes of U+E000 to U+FFFF. *)
Definition utf16_rank (c : ascii) : Z :=
  let z := code c in
  if (z <? 238)%Z then z else if (z <? 240)%Z then (z + 16)%Z else (z - 2)%Z.
Fixpoint utf16_le (a b : string) : bool :=
  match a, b with
  | EmptyString, _ => true
  | String _ _, EmptyString => false
  | String x a', String y b' =>
      (utf16_rank x <? utf16_rank y)%Z || ((utf16_rank x =? utf16_rank y)%Z && utf16_le a' b')
  end.

(** ** [JSON.stringify] *)

Definition member_text (kt : string * string) : string := quote kt.1 +:+ ":" +:+ kt.2.

(** [None]: the value is left out of an object, and [null] in an array. *)
Fixpoint encode (j : json) : option string :=
  match j with
  | JUndefined => None
  | JNull | JNonFinite => Some "null"
  | JBool b => Some (if b then "true" else "false")
  | JNumber t => Some t
  | JString s => Some (quote s)
  | JArray l =>
      Some ("[" +:+ join "," (map (λ x, default "null" (encode x)) l) +:+ "]")
  | JObject l =>
      Some ("{" +:+ join ","
        (omap (λ p, (λ t, member_text (p.1, t)) <$> encode p.2) l) +:+ "}")
  | JExotic => Some "{}"
  end.

(** What [JSON.parse(JSON.stringify(value))] and [structuredClone] of plain data return. *)
Fixpoint json_clone (j : json) : json :=
  match j with
  | JArray l => JArray (map (λ x, match x with JUndefined => JNull | _ => json_clone x end) l)
  | JObject l =>
      JObject (omap (λ p, match p.2 with JUndefined => None | _ => Some (p.1, json_clone p.2) end) l)
  | JNonFinite => JNull
  | JExotic => JObject []
  | _ => j
  end.

(** A value [JSON.parse] can return: nothing in it is lost or changed by a clone. *)
Fixpoint plain (j : json) : bool :=
  match j with
  | JUndefined | JNonFinite | JExotic => false
  | JArray l => forallb plain l
  | JObject l => forallb (λ p, plain p.2) l
  | _ => true
  end.

(** Induction over nested values. *)
Section json_ind.
Context (P : json → Prop).
Context (Hleaf : ∀ j, (∀ l, j ≠ JArray l) → (∀ l, j ≠ JObject l) → P j).
Context (Harray : ∀ l, Forall P l → P (JArray l)).
Context (Hobject : ∀ l, Forall (λ p : string * json, P p.2) l → P (JObject l)).
Fixpoint json_rect' (j : json) : P j :=
  match j with
  | JArray l =>
      Harray l ((fix go l := match l return Forall P l with
                 | [] => Forall_nil_2 P
                 | x :: l' => Forall_cons_2 P x l' (json_rect' x) (go l') end) l)
  | JObject l =>
      Hobject l ((fix go l := match l return Forall (λ p : string * json, P p.2) l with
                 | [] => Forall_nil_2 _
                 | x :: l' => Forall_cons_2 _ x l' (json_rect' x.2) (go l') end) l)
  | j' => Hleaf j' ltac:(discriminate) ltac:(discriminate)
  end.
End json_ind.

Lemma json_clone_plain j : plain j = true → json_clone j = j.
Proof.
  induction j as [j Ha Ho|l IH|l IH] using json_rect'; intros Hp.
  - destruct j; try done; [by destruct (Ha items)|by destruct (Ho props)].
  - simpl in *. f_equal. induction IH as [|x l Hx IH IHl]; simpl in *; [done|].
    apply andb_true_iff in Hp as [Hpx Hpl]. rewrite (IHl Hpl). f_equal.
    destruct x; try done; by apply Hx.
  - simpl in *. f_equal. induction IH as [|[k x] l Hx IH IHl]; simpl in *; [done|].
    apply andb_true_iff in Hp as [Hpx Hpl]. specialize (IHl Hpl). specialize (Hx Hpx).
    destruct x; try done; cbn in Hx |- *; f_equal; try done; by rewrite Hx.
Qed.

(** ** Canonical payload text *)

Definition key_le {A} (p q : string * A) : bool := utf16_le p.1 q.1.

(** [encode] of payload-integrity.ts; [None] is the call of [invalid()]. *)
Fixpoint canonical_encode (j : json) : option string :=
  match j with
  | JNull => Some "null"
  | JString s => Some (quote s)
  | JBool b => Some (if b then "true" else "false")
  | JNumber t => Some t
  | JArray l =>
      ts ← foldr (λ x r, t ← canonical_encode x; ts ← r; Some (t :: ts)) (Some []) l;
      Some ("[" +:+ join "," ts +:+ "]")
  | JObject l =>
      ts ← foldr (λ p r, t ← canonical_encode p.2; ts ← r; Some ((p.1, t) :: ts)) (Some []) l;
      Some ("{" +:+ join "," (map member_text (js_sort key_le ts)) +:+ "}")
  | JUndefined | JNonFinite | JExotic => None
  end.

Definition canonicalOfflineSyncPayload (payload : json) : option string :=
  match payload with JObject _ => canonical_encode payload | _ => None end.

(** An array index as a property key: such keys come first, in ascending order. *)
Definition index_key (k : string) : bool :=
  all_digits k && (String.eqb k "0" || negb (starts_with "0" k)) && (digits_value 0 k <? 4294967295)%Z.
Definition own_order {A} (l : list (string * A)) : list (string * A) :=
  js_sort (λ p q, digits_value 0 p.1 <=? digits_value 0 q.1)%Z (List.filter (λ p, index_key p.1) l)
  ++ List.filter (λ p, negb (index_key p.1)) l.

(** What [JSON.parse] makes of the canonical text: the same value with sorted keys. *)
Fixpoint canonical_value (j : json) : json :=
  match j with
  | JArray l => JArray (map canonical_value l)
  | JObject l => JObject (own_order (js_sort key_le (map (λ p, (p.1, canonical_value p.2)) l)))
  | _ => j
  end.

(** ** Transport text *)

(** [key.replace(/"/g, '\\"')] *)
Definition escape_quotes (s : string) : string :=
  String.string_of_list_ascii
    (flat_map (λ c, if Ascii.eqb c quote_char then [backslash; quote_char] else [c])
       (String.list_ascii_of_string s)).

Section stable.
(** [a.localeCompare(b) <= 0]: the collation of the host's locale. *)
Context (locale_le : string → string → bool).

Fixpoint stableStringify (j : json) : string :=
  match j with
  | JNull | JUndefined => "null"
  | JArray l => "[" +:+ join "," (map stableStringify l) +:+ "]"
  | JObject l =>
      "{" +:+ join ","
        (map (λ p, String quote_char (escape_quotes p.1 +:+ String quote_char (":" +:+ p.2)))
           (js_sort (λ p q, locale_le p.1 q.1) (map (λ p, (p.1, stableStringify p.2)) l))) +:+ "}"
  | JExotic => "{}"
  | _ => default "null" (encode j)
  end.
End stable.

(** ** Order of keys *)

Lemma utf16_rank_inj a b : utf16_rank a = utf16_rank b → a = b.
Proof.
  unfold utf16_rank, code. intros H.
  rewrite <- (ascii_N_embedding a), <- (ascii_N_embedding b). f_equal.
  pose proof (N_ascii_bounded a). pose proof (N_ascii_bounded b).
  repeat case_match; lia.
Qed.

Lemma utf16_le_total a b : utf16_le a b = false → utf16_le b a = true.
Proof.
  revert b. induction a as [|x a IH]; intros [|y b]; simpl; [done..|].
  intros [H1 H2]%orb_false_iff. apply orb_true_iff.
  destruct (utf16_rank x =? utf16_rank y)%Z eqn:He; [right|left; lia].
  simpl in H2. rewrite (IH _ H2). lia.
Qed.

Lemma utf16_le_trans a b c : utf16_le a b = true → utf16_le b c = true → utf16_le a c = true.
Proof.
  revert b c. induction a as [|x a IH]; intros [|y b] [|z c]; simpl; try done.
  rewrite !orb_true_iff, !andb_true_iff. intros [H1|[H1 H1']] [H2|[H2 H2']]; [left; lia..|].
  right. split; [lia|eauto].
Qed.

Lemma utf16_le_anti a b : utf16_le a b = true → utf16_le b a = true → a = b.
Proof.
  revert b. induction a as [|x a IH]; intros [|y b]; simpl; try done.
  rewrite !orb_true_iff, !andb_true_iff. intros [H1|[H1 H1']] [H2|[H2 H2']]; [lia..|].
  rewrite (utf16_rank_inj x y) by lia. f_equal. eauto.
Qed.

Lemma elem_same_key {A} (l : list (string * A)) (x y : string * A) :
  NoDup l.*1 → x ∈ l → y ∈ l → x.1 = y.1 → x = y.
Proof.
  induction l as [|z l IH]; [set_solver|]. rewrite fmap_cons, NoDup_cons, !elem_of_cons.
  intros [Hni Hnd] [->|Hx] [->|Hy] Heq; [done| | |eauto].
  - exfalso. apply Hni. rewrite Heq. apply list_elem_of_fmap. eauto.
  - exfalso. apply Hni. rewrite <- Heq. apply list_elem_of_fmap. eauto.
Qed.

Lemma key_sort_perm {A} (l1 l2 : list (string * A)) :
  NoDup l1.*1 → l1 ≡ₚ l2 → js_sort key_le l1 = js_sort key_le l2.
Proof.
  intros Hnd Hp. apply (js_sort_unique _ (λ _, True)); unfold key_le.
  - intros. by apply utf16_le_total.
  - intros x y z _ _ _. by apply utf16_le_trans.
  - by apply Forall_true.
  - intros x y Hx Hy H1 H2. apply (elem_same_key l1); auto using utf16_le_anti.
  - done.
Qed.
