(* ===== verification/OfflineTypes.v ===== *)
(** * OfflineTypes: the data of the offline-sync package.

    The records of [offline-sync/src/types.ts] and the errors of
    [offline-sync/src/errors.ts]. An optional property is an [option]; an integer-valued
    [number] is a [Z] (the code tests [Number.isSafeInteger] where it matters); opaque
    consumer attributes are [json]. *)
From S2P Require Import Prelude JsJson.

(** ** Errors *)

Inductive ErrorCode :=
| UNAUTHENTICATED | FORBIDDEN | CONTEXT_OVERRIDE | INVALID_INPUT
| RANGE_IDEMPOTENCY_CONFLICT | RANGE_CONFLICT | RANGE_STATE | RANGE_NOT_FOUND
| RANGE_UNAVAILABLE | RESERVATION_NOT_FOUND | RECONCILIATION_IDEMPOTENCY_CONFLICT
| RESERVATION_STATE | ACTIVE_RESERVATION | NUMBERING_NO_COVERAGE | NUMBERING_AMBIGUOUS
| NUMBERING_EXPIRED | NUMBERING_ALREADY_APPLIED | QUEUE_ITEM_NOT_FOUND | QUEUE_ID_REUSED
| CONFLICT_NOT_FOUND | CONFLICT_STATE | CONFLICT_RESOLUTION | BATCH_CONFLICT
| BATCH_SEQUENCE | ITEM_INTEGRITY | INTEGRITY_REJECTION_NOT_FOUND | BATCH_IN_PROGRESS.

#[export] Instance ErrorCode_eq_dec : EqDecision ErrorCode.
Proof. solve_decision. Defined.

Inductive UnavailableReason := reason_inactive | reason_exhausted | reason_insufficient_capacity.

#[export] Instance UnavailableReason_eq_dec : EqDecision UnavailableReason.
Proof. solve_decision. Defined.

(** Everything an operation of the package throws; [RangeError] and [TypeError] are the
    language's own. *)
Inductive OfflineError :=
| OfflineSyncError (code : ErrorCode) (status : Z) (message : string)
| OfflineSyncConfigurationError (option_name : string)
| OfflineSyncRangeUnavailableError (reason : UnavailableReason) (message : string)
| OfflineSyncReservationReplayError
| OfflineSyncNumberingOutcome (code : ErrorCode) (number : Z) (reservationId : option string)
| RangeError
| TypeError.

#[export] Instance OfflineError_eq_dec : EqDecision OfflineError.
Proof. solve_decision. Defined.

(** The HTTP status of the response; a configuration or language error is an
    unhandled exception. *)
Definition error_status (e : OfflineError) : Z :=
  match e with
  | OfflineSyncError _ status _ => status
  | OfflineSyncRangeUnavailableError _ _ | OfflineSyncReservationReplayError
  | OfflineSyncNumberingOutcome _ _ _ => 409
  | OfflineSyncConfigurationError _ | RangeError | TypeError => 500
  end.

Inductive ReceiptStatus := receipt_rejected | receipt_conflict.
Definition receiptStatus (code : ErrorCode) : ReceiptStatus :=
  match code with NUMBERING_EXPIRED => receipt_conflict | _ => receipt_rejected end.

Notation result := (outcome OfflineError).

(** ** Numbering *)

(** [TrustedOfflineSyncScope], with the members [agentId] and [ctg9] that the service adds. *)
Record Scope := {
  tenantId : string;
  actorId : string;
  sc_agentId : option string;
  sc_ctg9 : bool }.

(** [scope.agentId ?? scope.actorId] *)
Definition scope_agent (scope : Scope) : string := default (actorId scope) (sc_agentId scope).

Inductive RangeStatus := range_active | range_exhausted | range_cancelled.
#[export] Instance RangeStatus_eq_dec : EqDecision RangeStatus.
Proof. solve_decision. Defined.

Record NumberingRange := {
  rg_id : string;
  rg_tenantId : string;
  rg_orgUnitId : string;
  rg_entityType : string;
  rg_series : string;
  rg_startNumber : Z;
  rg_endNumber : Z;
  rg_nextNumber : Z;
  rg_status : RangeStatus;
  rg_consumerAttributes : option json;
  rg_createdBy : option string;
  rg_createdAt : option string;
  rg_updatedAt : option string;
  rg_cancelledBy : option string;
  rg_cancellationReason : option string;
  rg_cancelledAt : option string }.

(** The object a caller passes as input, for the checks on its own properties: a plain
    prototype, no symbols, and its property names with "enumerable data property". *)
Record ObjectShape := { os_plain : bool; os_symbols : bool; os_properties : list (string * bool) }.

Record CreateNumberingRangeInput := {
  cri_shape : ObjectShape;
  cri_orgUnitId : string;
  cri_entityType : string;
  cri_series : string;
  cri_startNumber : Z;
  cri_endNumber : Z;
  cri_idempotencyKey : option string;
  cri_consumerAttributes : option json }.

Record CancelNumberingRangeInput := { xri_shape : ObjectShape; xri_reason : option string }.

Record ListNumberingRangesInput := {
  lri_shape : ObjectShape;
  lri_orgUnitId : option string;
  lri_entityType : option string;
  lri_series : option string;
  lri_status : option RangeStatus;
  lri_limit : option Z;
  lri_cursor : option string }.

Inductive ReservationStatus := reserved | consumed | expired | cancelled | blocked.
#[export] Instance ReservationStatus_eq_dec : EqDecision ReservationStatus.
Proof. solve_decision. Defined.

Definition status_name (s : ReservationStatus) : string :=
  match s with
  | reserved => "reserved" | consumed => "consumed" | expired => "expired"
  | cancelled => "cancelled" | blocked => "blocked"
  end.

(** [CTG9NumberingReservation]; a [NumberingReservation] is one with a shift whose status
    is not [blocked]. *)
Record Reservation := {
  rv_reservationId : string;
  rv_rangeId : string;
  rv_tenantId : string;
  rv_orgUnitId : string;
  rv_entityType : string;
  rv_series : string;
  rv_agentId : string;
  rv_deviceId : string;
  rv_shiftId : option string;
  rv_startNumber : Z;
  rv_endNumber : Z;
  rv_nextNumber : Z;
  rv_validUntil : string;
  rv_status : ReservationStatus }.

(** [CTG9ReserveNumberingInput]; [rni_shiftId = None] is the JavaScript [null]. *)
Record ReserveNumberingInput := {
  rni_orgUnitId : string;
  rni_deviceId : string;
  rni_shiftId : option string;
  rni_entityType : string;
  rni_requestedSize : Z;
  rni_rangeId : option string;
  rni_series : option string;
  rni_validUntil : option string;
  rni_idempotencyKey : option string;
  rni_agentId : option string }.

Inductive EntryStatus := entry_available | entry_claimed | entry_applied | entry_blocked | entry_expired.
#[export] Instance EntryStatus_eq_dec : EqDecision EntryStatus.
Proof. solve_decision. Defined.

Record ConsumptionEntry := {
  ce_number : Z;
  ce_status : EntryStatus;
  ce_serverEntityId : option string;
  ce_finalizedAt : option string }.

Record ConsumptionResult := {
  cr_reservationId : string;
  cr_status : ReservationStatus;
  cr_consumption : list ConsumptionEntry }.

Record ReconcileInput := {
  rci_idempotencyKey : option string;
  rci_claimedNumbers : option (list Z);
  rci_userRef : option string }.

Record ReconcileResult := {
  rr_current : ConsumptionResult;
  rr_reconciliationId : string;
  rr_missingOnServer : list Z;
  rr_unexpectedOnServer : list Z }.

Record ReconciliationRecord := {
  rec_reconciliationId : string;
  rec_tenantId : string;
  rec_reservationId : string;
  rec_actorId : string;
  rec_createdAt : string;
  rec_claimedNumbers : list Z;
  rec_userRef : option string;
  rec_idempotencyKey : option string;
  rec_result : ReconcileResult }.

Record ListReconciliationsInput := {
  lci_reservationId : string;
  lci_limit : option Z;
  lci_cursor : option string }.

(** [OfflineSyncPage<T>]; a [null] cursor is [None]. *)
Record Page (T : Type) := { items : list T; nextCursor : option string }.
Arguments items {T} _.
Arguments nextCursor {T} _.
Arguments Build_Page {T} _ _.

Inductive Origin := origin_e6 | origin_ctg9.
#[export] Instance Origin_eq_dec : EqDecision Origin.
Proof. solve_decision. Defined.

(** ** Updates ([{ ...value, field: v }]) *)

Definition set_rg_progress (next : Z) (status : RangeStatus) (r : NumberingRange) : NumberingRange :=
  {| rg_id := rg_id r; rg_tenantId := rg_tenantId r; rg_orgUnitId := rg_orgUnitId r;
     rg_entityType := rg_entityType r; rg_series := rg_series r;
     rg_startNumber := rg_startNumber r; rg_endNumber := rg_endNumber r;
     rg_nextNumber := next; rg_status := status;
     rg_consumerAttributes := rg_consumerAttributes r; rg_createdBy := rg_createdBy r;
     rg_createdAt := rg_createdAt r; rg_updatedAt := rg_updatedAt r;
     rg_cancelledBy := rg_cancelledBy r; rg_cancellationReason := rg_cancellationReason r;
     rg_cancelledAt := rg_cancelledAt r |}.

Definition set_rv_status (status : ReservationStatus) (r : Reservation) : Reservation :=
  {| rv_reservationId := rv_reservationId r; rv_rangeId := rv_rangeId r;
     rv_tenantId := rv_tenantId r; rv_orgUnitId := rv_orgUnitId r;
     rv_entityType := rv_entityType r; rv_series := rv_series r; rv_agentId := rv_agentId r;
     rv_deviceId := rv_deviceId r; rv_shiftId := rv_shiftId r;
     rv_startNumber := rv_startNumber r; rv_endNumber := rv_endNumber r;
     rv_nextNumber := rv_nextNumber r; rv_validUntil := rv_validUntil r; rv_status := status |}.

Definition set_ce_status (status : EntryStatus) (e : ConsumptionEntry) : ConsumptionEntry :=
  {| ce_number := ce_number e; ce_status := status;
     ce_serverEntityId := ce_serverEntityId e; ce_finalizedAt := ce_finalizedAt e |}.

(** [JSON.parse(JSON.stringify(range))] *)
Definition cloneRange (r : NumberingRange) : NumberingRange :=
  {| rg_id := rg_id r; rg_tenantId := rg_tenantId r; rg_orgUnitId := rg_orgUnitId r;
     rg_entityType := rg_entityType r; rg_series := rg_series r;
     rg_startNumber := rg_startNumber r; rg_endNumber := rg_endNumber r;
     rg_nextNumber := rg_nextNumber r; rg_status := rg_status r;
     rg_consumerAttributes := json_clone <$> rg_consumerAttributes r;
     rg_createdBy := rg_createdBy r; rg_createdAt := rg_createdAt r;
     rg_updatedAt := rg_updatedAt r; rg_cancelledBy := rg_cancelledBy r;
     rg_cancellationReason := rg_cancellationReason r; rg_cancelledAt := rg_cancelledAt r |}.

Definition attributes_plain (r : NumberingRange) : bool :=
  match rg_consumerAttributes r with Some j => plain j | None => true end.

Lemma cloneRange_plain r : attributes_plain r = true → cloneRange r = r.
Proof.
  destruct r as [???????? ? attrs]. unfold attributes_plain, cloneRange. simpl.
  destruct attrs; simpl; [|done]. intros. by rewrite json_clone_plain.
Qed.
