(* ===== verification/JsCursor.v ===== *)
(** * JsCursor: base64url text and the JSON text of an array of strings.

    [base64url_encode]/[base64url_decode] are [Buffer.toString('base64url')] and
    [Buffer.from(text, 'base64url')]; [strings_text] is [JSON.stringify] of an array of
    strings and [parse_strings] is [JSON.parse] restricted to such arrays ([None] for every
    other text). Decoded bytes are taken as UTF-8. *)
From S2P Require Import Prelude JsText JsJson.
From Stdlib Require Import Ascii.
Local Open Scope Z_scope.

(** ** base64url *)

Definition sextet_char (n : Z) : ascii :=
  ascii_of_N (Z.to_N (if n <? 26 then n + 65 else if n <? 52 then n + 71
                      else if n <? 62 then n - 4 else if n =? 62 then 45 else 95)).
(** Both alphabets are read; other characters are skipped. *)
Definition char_sextet (c : ascii) : option Z :=
  let z := code c in
  if (65 <=? z) && (z <=? 90) then Some (z - 65)
  else if (97 <=? z) && (z <=? 122) then Some (z - 71)
  else if (48 <=? z) && (z <=? 57) then Some (z + 4)
  else if (z =? 45) || (z =? 43) then Some 62
  else if (z =? 95) || (z =? 47) then Some 63
  else None.

Fixpoint encode_groups (l : list Z) : list Z :=
  match l with
  | a :: b :: c :: l' =>
      a / 4 :: a mod 4 * 16 + b / 16 :: b mod 16 * 4 + c / 64 :: c mod 64 :: encode_groups l'
  | [a; b] => [a / 4; a mod 4 * 16 + b / 16; b mod 16 * 4]
  | [a] => [a / 4; a mod 4 * 16]
  | [] => []
  end.
Fixpoint decode_groups (l : list Z) : list Z :=
  match l with
  | a :: b :: c :: d :: l' =>
      a * 4 + b / 16 :: b mod 16 * 16 + c / 4 :: c mod 4 * 64 + d :: decode_groups l'
  | [a; b; c] => [a * 4 + b / 16; b mod 16 * 16 + c / 4]
  | [a; b] => [a * 4 + b / 16]
  | _ => []
  end.

Definition bytes_of (s : string) : list Z := map code (String.list_ascii_of_string s).
Definition of_bytes (l : list Z) : string :=
  String.string_of_list_ascii (map (λ z, ascii_of_N (Z.to_N z)) l).

(** Decoding stops at the padding character. *)
Fixpoint sextets (l : list ascii) : list Z :=
  match l with
  | [] => []
  | c :: l' =>
      if code c =? 61 then []
      else match char_sextet c with Some n => n :: sextets l' | None => sextets l' end
  end.

Definition base64url_encode (s : string) : string :=
  String.string_of_list_ascii (map sextet_char (encode_groups (bytes_of s))).
Definition base64url_decode (s : string) : string :=
  of_bytes (decode_groups (sextets (String.list_ascii_of_string s))).

Lemma three_ind {A} (P : list A → Prop) :
  P [] → (∀ a, P [a]) → (∀ a b, P [a; b]) → (∀ a b c l, P l → P (a :: b :: c :: l)) → ∀ l, P l.
Proof.
  intros H0 H1 H2 H3 l. assert (P l ∧ (∀ a, P (a :: l)) ∧ (∀ a b, P (a :: b :: l))); [|naive_solver].
  induction l as [|x l (IH0 & IH1 & IH2)]; [auto|]. split_and!; auto.
Qed.

Lemma decode_encode_groups l :
  Forall (λ z, 0 ≤ z < 256) l → decode_groups (encode_groups l) = l.
Proof.
  induction l as [|a|a b|a b c l IH] using three_ind; intros Hl; [done|..];
    repeat match goal with H : Forall _ (_ :: _) |- _ => apply Forall_cons in H as [? H] end.
  - cbn. f_equal. Z.div_mod_to_equations; lia.
  - cbn. repeat f_equal; Z.div_mod_to_equations; lia.
  - cbn [encode_groups decode_groups]. rewrite IH by done. repeat f_equal; Z.div_mod_to_equations; lia.
Qed.

Lemma encode_groups_range l :
  Forall (λ z, 0 ≤ z < 256) l → Forall (λ z, 0 ≤ z < 64) (encode_groups l).
Proof.
  induction l as [|a|a b|a b c l IH] using three_ind; intros Hl; [constructor|..];
    repeat match goal with H : Forall _ (_ :: _) |- _ => apply Forall_cons in H as [? H] end;
    cbn [encode_groups]; rewrite ?Forall_cons, ?Forall_nil; split_and!; auto;
    Z.div_mod_to_equations; lia.
Qed.

Lemma code_of_code z : 0 ≤ z < 256 → code (ascii_of_N (Z.to_N z)) = z.
Proof. intros. unfold code. rewrite N_ascii_embedding, Z2N.id; lia. Qed.

Lemma of_code c : ascii_of_N (Z.to_N (code c)) = c.
Proof. unfold code. rewrite N2Z.id. apply ascii_N_embedding. Qed.

Lemma code_bounds c : 0 ≤ code c < 256.
Proof. unfold code. pose proof (N_ascii_bounded c). lia. Qed.

Lemma sextet_inverse n :
  0 ≤ n < 64 → code (sextet_char n) ≠ 61 ∧ char_sextet (sextet_char n) = Some n.
Proof.
  intros. unfold char_sextet, sextet_char.
  rewrite code_of_code by (repeat case_match; lia).
  repeat case_match; split; try lia; f_equal; lia.
Qed.

Lemma sextets_chars l : Forall (λ z, 0 ≤ z < 64) l → sextets (map sextet_char l) = l.
Proof.
  induction 1 as [|n l Hn _ IH]; simpl; [done|].
  destruct (sextet_inverse n Hn) as [Hne ->]. rewrite IH.
  by destruct (code (sextet_char n) =? 61) eqn:?; [lia|].
Qed.

Lemma base64url_roundtrip s : base64url_decode (base64url_encode s) = s.
Proof.
  unfold base64url_decode, base64url_encode.
  rewrite String.list_ascii_of_string_of_list_ascii.
  assert (Forall (λ z, 0 ≤ z < 256) (bytes_of s)) as Hb.
  { unfold bytes_of. apply Forall_map, Forall_true. intros. apply code_bounds. }
  rewrite sextets_chars, decode_encode_groups by auto using encode_groups_range.
  unfold of_bytes, bytes_of. rewrite List.map_map.
  rewrite (List.map_ext _ (λ c, c)) by apply of_code. rewrite List.map_id.
  apply String.string_of_list_ascii_of_string.
Qed.

(** ** Arrays of strings as JSON text *)

Definition strings_text (l : list string) : string := "[" +:+ join "," (map quote l) +:+ "]".

Definition is_ws (c : ascii) : bool :=
  (code c =? 32) || (code c =? 9) || (code c =? 10) || (code c =? 13).
Fixpoint skip_ws (l : list ascii) : list ascii :=
  match l with c :: l' => if is_ws c then skip_ws l' else l | [] => [] end.

Definition hex_value (c : ascii) : option Z :=
  let z := code c in
  if (48 <=? z) && (z <=? 57) then Some (z - 48)
  else if (97 <=? z) && (z <=? 102) then Some (z - 87)
  else if (65 <=? z) && (z <=? 70) then Some (z - 55)
  else None.

(** UTF-8 bytes of a code point. *)
Definition utf8 (u : Z) : list ascii :=
  map (λ z, ascii_of_N (Z.to_N z))
    (if u <? 128 then [u]
     else if u <? 2048 then [192 + u / 64; 128 + u mod 64]
     else if u <? 65536 then [224 + u / 4096; 128 + u / 64 mod 64; 128 + u mod 64]
     else [240 + u / 262144; 128 + u / 4096 mod 64; 128 + u / 64 mod 64; 128 + u mod 64]).

Definition hex4 (l : list ascii) : option (Z * list ascii) :=
  match l with
  | a :: b :: c :: d :: l' =>
      a' ← hex_value a; b' ← hex_value b; c' ← hex_value c; d' ← hex_value d;
      Some (a' * 4096 + b' * 256 + c' * 16 + d', l')
  | _ => None
  end.

(** The escape after a backslash: the bytes it stands for. *)
Definition read_escape (l : list ascii) : option (list ascii * list ascii) :=
  match l with
  | c :: l' =>
      let z := code c in
      if (z =? 34) || (z =? 92) || (z =? 47) then Some ([c], l')
      else if z =? 98 then Some (utf8 8, l')
      else if z =? 102 then Some (utf8 12, l')
      else if z =? 110 then Some (utf8 10, l')
      else if z =? 114 then Some (utf8 13, l')
      else if z =? 116 then Some (utf8 9, l')
      else if z =? 117 then
        '(u, r) ← hex4 l';
        if (55296 <=? u) && (u <=? 56319) then
          match r with
          | b :: e :: r' =>
              match hex4 r' with
              | Some (v, r'') =>
                  if (code b =? 92) && (code e =? 117) && (56320 <=? v) && (v <=? 57343)
                  then Some (utf8 (65536 + (u - 55296) * 1024 + (v - 56320)), r'')
                  else Some (utf8 u, r)
              | None => Some (utf8 u, r)
              end
          | _ => Some (utf8 u, r)
          end
        else Some (utf8 u, r)
      else None
  | [] => None
  end.

(** The body of a string after its opening quote; [fuel] bounds the number of items. *)
Fixpoint read_string (fuel : nat) (l : list ascii) : option (list ascii * list ascii) :=
  match fuel, l with
  | S fuel', c :: l' =>
      let z := code c in
      if z =? 34 then Some ([], l')
      else if z =? 92 then
        '(bytes, r) ← read_escape l'; '(rest, r') ← read_string fuel' r; Some (bytes ++ rest, r')
      else if z <? 32 then None
      else '(rest, r') ← read_string fuel' l'; Some (c :: rest, r')
  | _, _ => None
  end.

(** Strings separated by commas up to the closing bracket. *)
Fixpoint read_items (fuel : nat) (l : list ascii) : option (list string * list ascii) :=
  match fuel, skip_ws l with
  | S fuel', c :: l' =>
      if code c =? 34 then
        '(bytes, r) ← read_string (length l') l';
        match skip_ws r with
        | d :: r' =>
            if code d =? 44 then
              '(more, r'') ← read_items fuel' r';
              Some (String.string_of_list_ascii bytes :: more, r'')
            else if code d =? 93 then Some ([String.string_of_list_ascii bytes], r') else None
        | [] => None
        end
      else None
  | _, _ => None
  end.

Definition parse_strings (s : string) : option (list string) :=
  match skip_ws (String.list_ascii_of_string s) with
  | c :: l =>
      if code c =? 91 then
        match skip_ws l with
        | d :: r =>
            if code d =? 93 then match skip_ws r with [] => Some [] | _ => None end
            else
              '(v, rest) ← read_items (length l) l;
              match skip_ws rest with [] => Some v | _ => None end
        | [] => None
        end
      else None
  | [] => None
  end.

(** ** Round trip *)

Notation la := String.list_ascii_of_string.

Lemma read_escape_char c rest :
  code c < 32 ∨ code c = 34 ∨ code c = 92 →
  ∃ l, escape_char c = backslash :: l ∧ read_escape (l ++ rest) = Some ([c], rest).
Proof.
  intros Hc. destruct c as [[] [] [] [] [] [] [] []];
    first [ exfalso; cbv in Hc; naive_solver lia | eexists; split; reflexivity ].
Qed.

Lemma read_string_escape s fuel rest :
  (String.length (escape s) < fuel)%nat →
  read_string fuel (la (escape s) ++ quote_char :: rest) = Some (la s, rest).
Proof.
  revert fuel. unfold escape. induction s as [|c s IH]; intros fuel Hf; simpl in *.
  { destruct fuel; [lia|]. reflexivity. }
  rewrite String.list_ascii_of_string_of_list_ascii in *.
  assert (∀ l, String.length (String.string_of_list_ascii l) = length l) as Hlen.
  { intros l. induction l; simpl; congruence. }
  rewrite Hlen in Hf. rewrite length_app in Hf.
  destruct (decide (code c < 32 ∨ code c = 34 ∨ code c = 92)) as [Hc|Hc].
  - destruct (read_escape_char c (flat_map escape_char (la s) ++ quote_char :: rest) Hc) as (l & Hl & Hr).
    rewrite Hl in *. simpl in Hf. destruct fuel as [|fuel]; [lia|].
    rewrite <- app_assoc. cbn [app read_string]. change (code backslash) with 92. cbn -[read_escape read_string].
    rewrite Hr. cbn -[read_string].
    rewrite (IH fuel); [done|]. rewrite Hlen. lia.
  - assert (escape_char c = [c]) as Hl by (unfold escape_char; repeat case_match; first [done|lia]).
    rewrite Hl in *. simpl in Hf. destruct fuel as [|fuel]; [lia|].
    cbn [app read_string].
    replace (code c =? 34) with false by lia. replace (code c =? 92) with false by lia.
    replace (code c <? 32) with false by lia.
    rewrite (IH fuel); [done|]. rewrite Hlen. lia.
Qed.

Lemma la_quote s : la (quote s) = quote_char :: la (escape s) ++ [quote_char].
Proof. unfold quote. simpl. by rewrite list_ascii_app. Qed.

Lemma la_length s : length (la s) = String.length s.
Proof. induction s; simpl; congruence. Qed.

Lemma read_items_text s l fuel rest :
  (length l < fuel)%nat →
  read_items fuel (la (join "," (map quote (s :: l))) ++ "]"%char :: rest) = Some (s :: l, rest).
Proof.
  revert s fuel. induction l as [|s' l IH]; intros s fuel Hf; destruct fuel as [|fuel]; try (simpl in Hf; lia).
  - cbn [map join]. rewrite la_quote. cbn [la app read_items skip_ws].
    change (is_ws quote_char) with false. change (code quote_char =? 34) with true. cbn -[read_string].
    rewrite <- !app_assoc. cbn [app].
    rewrite read_string_escape by (rewrite length_app, la_length; simpl; lia).
    cbn. by rewrite String.string_of_list_ascii_of_string.
  - assert (la (join "," (map quote (s :: s' :: l))) =
            quote_char :: la (escape s) ++ quote_char :: ","%char :: la (join "," (map quote (s' :: l)))) as ->.
    { rewrite !map_cons, join_cons, !list_ascii_app, la_quote. simpl. by rewrite <- app_assoc. }
    specialize (IH s' fuel ltac:(simpl in Hf; lia)).
    generalize dependent (join "," (map quote (s' :: l))). intros J IH.
    cbn [app read_items skip_ws].
    change (is_ws quote_char) with false. change (code quote_char =? 34) with true. cbn -[read_string read_items].
    rewrite <- !app_assoc. cbn [app].
    rewrite read_string_escape by (rewrite length_app, la_length; simpl; lia).
    cbn -[read_items skip_ws].
    change (skip_ws (","%char :: la J ++ "]"%char :: rest)) with (","%char :: la J ++ "]"%char :: rest).
    cbn iota. change (code ","%char =? 44) with true. cbn -[read_items]. rewrite IH. cbn. by rewrite String.string_of_list_ascii_of_string.
Qed.

Lemma parse_strings_text l : parse_strings (strings_text l) = Some l.
Proof.
  unfold parse_strings, strings_text. destruct l as [|s l]; [reflexivity|].
  rewrite !list_ascii_app. cbn [la app skip_ws].
  change (is_ws "["%char) with false. change (code "["%char =? 91) with true. cbn [negb].
  assert (∃ r, la (join "," (map quote (s :: l))) = quote_char :: r) as [r Hr].
  { destruct l as [|s' l]; rewrite !map_cons, ?join_cons, ?list_ascii_app; cbn [map join];
      rewrite la_quote; by eexists. }
  pose proof (read_items_text s l (length (la (join "," (map quote (s :: l))) ++ ["]"%char])) []) as Hi.
  rewrite Hr in *. cbn [app skip_ws] in *.
  change (is_ws quote_char) with false. change (code quote_char =? 93) with false. cbn iota.
  rewrite Hi; [done|].
  assert (length l ≤ length (la (join "," (map quote (s :: l)))))%nat as Hlen.
  { clear. rewrite la_length. revert s. induction l as [|s' l IH]; intros s; simpl; [lia|].
    specialize (IH s'). simpl in IH. rewrite !str_app_length. change (String.length ",") with 1%nat. lia. }
  rewrite Hr in Hlen. simpl in *. rewrite length_app. simpl. lia.
Qed.
