(* ===== verification/Listing.v ===== *)
(** * Listing: instants with microseconds and keyset pages
    ([offline-sync/src/instant-microseconds.ts], [listing.ts]).

    A row carries a sort key: a UTC instant with microseconds, then tie-break identifiers.
    Rows are ordered newest first; the cursor of a page is the encoded key of its last row. *)
From S2P Require Import Prelude JsText JsDate JsJson OfflineTypes JsCursor.
From Stdlib Require Import Ascii.
From stdpp Require Import pretty.

(** ** Microsecond instants ([offline-sync/src/instant-microseconds.ts]). *)

Local Open Scope Z_scope.

(** The groups of the instant's regular expression. *)
Record InstantMatch := {
  im_year : Z; im_month : Z; im_day : Z; im_hour : Z; im_minute : Z; im_second : Z;
  im_fraction : string; im_negative : bool; im_zoneHours : Z; im_zoneMinutes : Z }.

(** [(?:\.(\d{1,6}))?] *)
Definition match_fraction (s : string) : option (string * string) :=
  match expect "."%char s with
  | Some r =>
      let '(ds, rest) := span_digits r in
      if (1 <=? byteLength ds) && (byteLength ds <=? 6) then Some (ds, rest) else None
  | None => Some (EmptyString, s)
  end.

(** [(Z|([+-])(\d{2}):(\d{2}))$] *)
Definition match_zone (s : string) : option (bool * Z * Z) :=
  match s with
  | String c r =>
      if Ascii.eqb c "Z"%char then if String.eqb r EmptyString then Some (false, 0, 0) else None
      else if Ascii.eqb c "+"%char || Ascii.eqb c "-"%char then
        '(h, r1) ← take_digits 2 0 r; r2 ← expect ":"%char r1; '(m, r3) ← take_digits 2 0 r2;
        if String.eqb r3 EmptyString then Some (Ascii.eqb c "-"%char, h, m) else None
      else None
  | EmptyString => None
  end.

Definition match_instant (value : string) : option InstantMatch :=
  '(year, s1) ← take_digits 4 0 value; s2 ← expect "-"%char s1;
  '(month, s3) ← take_digits 2 0 s2; s4 ← expect "-"%char s3;
  '(day, s5) ← take_digits 2 0 s4; s6 ← expect "T"%char s5;
  '(hour, s7) ← take_digits 2 0 s6; s8 ← expect ":"%char s7;
  '(minute, s9) ← take_digits 2 0 s8; s10 ← expect ":"%char s9;
  '(second, s11) ← take_digits 2 0 s10;
  '(fraction, s12) ← match_fraction s11;
  '(negative, zoneHours, zoneMinutes) ← match_zone s12;
  Some {| im_year := year; im_month := month; im_day := day; im_hour := hour;
          im_minute := minute; im_second := second; im_fraction := fraction;
          im_negative := negative; im_zoneHours := zoneHours; im_zoneMinutes := zoneMinutes |}.

(** [text.padEnd(6, '0')] as an integer: [BigInt] of the empty string is 0. *)
Definition padded_fraction (s : string) : Z :=
  digits_value 0 s * 10 ^ (6 - byteLength s).

Definition out_of_range (m : InstantMatch) : bool :=
  (im_year m <? 1) || (im_month m <? 1) || (12 <? im_month m) || (im_day m <? 1)
  || (31 <? im_day m) || (23 <? im_hour m) || (59 <? im_minute m) || (59 <? im_second m)
  || (15 <? im_zoneHours m) || (59 <? im_zoneMinutes m).

(** [None] is the call of [refuse()]. *)
Definition instantMicroseconds (value : string) : option Z :=
  m ← match_instant value;
  if out_of_range m then None else
  let days := make_day (im_year m) (im_month m) (im_day m) in
  let calendar := days * MS_PER_DAY + make_time (im_hour m) (im_minute m) (im_second m) 0 in
  if negb (bool_decide (civil_from_days (calendar / MS_PER_DAY) = (im_year m, im_month m, im_day m)))
  then None else
  let offset := (im_zoneHours m * 60 + im_zoneMinutes m) * 60000 * (if im_negative m then -1 else 1) in
  Some ((calendar - offset) * 1000 + padded_fraction (im_fraction m)).

Example instant_1 : instantMicroseconds "1970-01-01T00:00:00.5Z" = Some 500000.
Proof. reflexivity. Qed.
Example instant_2 : instantMicroseconds "2026-02-29T00:00:00Z" = None.
Proof. reflexivity. Qed.
Example instant_3 :
  instantMicroseconds "2026-09-29T14:00:00.123456+02:00" = Some 1790683200123456.
Proof. reflexivity. Qed.

Definition listDefaultLimit : Z := 50.
Definition listMaxLimit : Z := 200.

Definition SortKey : Type := list string.
Record Row (T : Type) := { row_key : SortKey; row_value : T }.
Arguments row_key {T} _.
Arguments row_value {T} _.
Arguments Build_Row {T} _ _.

(** [/^sha256:[0-9a-f]{64}$/] *)
Definition is_lower_hex (c : ascii) : bool := byte_in 48 57 c || byte_in 97 102 c.
Definition canonicalPayloadHash (s : string) : bool :=
  starts_with "sha256:" s &&
  let hex := String.substring 7 (String.length s - 7) s in
  (byteLength hex =? 64) && forallb is_lower_hex (String.list_ascii_of_string hex).

(** [/^\d{4}-\d{2}-\d{2}T\d{2}:\d{2}:\d{2}\.\d{6}Z$/] *)
Definition sortInstant (s : string) : bool :=
  match
    '(_, s1) ← take_digits 4 0 s; s2 ← expect "-"%char s1; '(_, s3) ← take_digits 2 0 s2;
    s4 ← expect "-"%char s3; '(_, s5) ← take_digits 2 0 s4; s6 ← expect "T"%char s5;
    '(_, s7) ← take_digits 2 0 s6; s8 ← expect ":"%char s7; '(_, s9) ← take_digits 2 0 s8;
    s10 ← expect ":"%char s9; '(_, s11) ← take_digits 2 0 s10; s12 ← expect "."%char s11;
    '(_, s13) ← take_digits 6 0 s12; expect "Z"%char s13
  with Some rest => String.eqb rest EmptyString | None => false end.

(** The instant is real: its milliseconds survive a [Date]. *)
Definition validInstant (value : string) : bool :=
  sortInstant value &&
  let millis := String.substring 0 23 value +:+ "Z" in
  match date_parse millis with
  | Some t => String.eqb (to_iso t) millis
  | None => false
  end.

(** [text.replace('Z', by)]: the first occurrence. *)
Fixpoint replace_z (by_ : string) (s : string) : string :=
  match s with
  | String c s' => if Ascii.eqb c "Z"%char then by_ +:+ s' else String c (replace_z by_ s')
  | EmptyString => EmptyString
  end.

Definition sortInstantOf (value : string) : result string :=
  match date_parse value with
  | Some t => Ok (replace_z "000Z" (to_iso t))
  | None => Throw RangeError
  end.

Definition encodeCursor (key : SortKey) : string := base64url_encode (strings_text key).

Definition cursor_invalid : OfflineError := OfflineSyncError INVALID_INPUT 400 "cursor is invalid.".

Definition decodeCursor (cursor : option string) (arity : nat) : result (option SortKey) :=
  match cursor with
  | None => Ok None
  | Some c =>
      match parse_strings (base64url_decode c) with
      | Some values =>
          if Nat.eqb (length values) arity && match values with v :: _ => validInstant v | [] => false end
          then Ok (Some values) else Throw cursor_invalid
      | None => Throw cursor_invalid
      end
  end.

Fixpoint compare (a b : SortKey) : Z :=
  match a, b with
  | [], _ => 0
  | x :: a', y :: b' => if decide (x = y) then compare a' b' else if utf16_le x y then -1 else 1
  | _ :: _, [] => 1
  end.

(** [rows.slice(0, n)] *)
Definition slice_to {A} (n : Z) (l : list A) : list A :=
  if n <? 0 then take (Z.to_nat (Z.of_nat (length l) + n)) l else take (Z.to_nat n) l.

Definition finishPage {T} (rows : list (Row T)) (limit : Z) : result (Page T) :=
  let items := slice_to limit rows in
  if limit <? Z.of_nat (length rows) then
    match last items with
    | Some row => Ok (Build_Page (map row_value items) (Some (encodeCursor (row_key row))))
    | None => Throw TypeError
    end
  else Ok (Build_Page (map row_value items) None).

Definition row_le {T} (a b : Row T) : bool := compare (row_key b) (row_key a) <=? 0.

Definition pageOf {T} (rows : list (Row T)) (arity : nat) (cursor : option string)
    (limit : option Z) : result (Page T) :=
  after ← decodeCursor cursor arity;
  let ordered := List.filter
    (λ row, match after with None => true | Some k => compare (row_key row) k <? 0 end)
    (js_sort row_le rows) in
  let size := default listDefaultLimit limit in
  finishPage (slice_to (size + 1) ordered) size.

Definition normalInstant (value : option string) : option string :=
  match value with
  | None => None
  | Some v => match date_parse v with Some t => Some (to_iso t) | None => Some v end
  end.

(** [JSON.stringify] of a safe integer. *)
Definition integer (z : Z) : json := JNumber (pretty z).
Definition optional (s : option string) : json := match s with Some v => JString v | None => JUndefined end.
Definition nullable (s : option string) : json := match s with Some v => JString v | None => JNull end.

Section fingerprint.
(** Hexadecimal SHA-256 of a text, and the host's collation. *)
Context (sha256 : string → string) (locale_le : string → string → bool).

Definition reservation_request (scope : Scope) (input : ReserveNumberingInput) : json :=
  JObject
    ([("agentId", JString (scope_agent scope))]
     ++ match rni_agentId input with Some a => [("requestedAgentId", JString a)] | None => [] end
     ++ [("orgUnitId", JString (rni_orgUnitId input));
         ("deviceId", JString (rni_deviceId input));
         ("shiftId", nullable (rni_shiftId input));
         ("entityType", JString (rni_entityType input));
         ("requestedSize", integer (rni_requestedSize input));
         ("rangeId", optional (rni_rangeId input));
         ("series", optional (rni_series input));
         ("validUntil", optional (normalInstant (rni_validUntil input)))]).

Definition reservationFingerprint (scope : Scope) (input : ReserveNumberingInput) : string :=
  "sha256:" +:+ sha256 (stableStringify locale_le (reservation_request scope input)).
End fingerprint.

Definition rangeUnavailableReason (range : NumberingRange) (input : ReserveNumberingInput) :
    UnavailableReason :=
  if bool_decide (rg_status range = range_exhausted)
     && String.eqb (rg_orgUnitId range) (rni_orgUnitId input)
     && String.eqb (rg_entityType range) (rni_entityType input)
  then reason_exhausted else reason_inactive.

(** ** The order of keys *)

Lemma compare_refl a : compare a a = 0.
Proof. induction a; simpl; [done|]. by rewrite decide_True. Qed.

Lemma compare_opp a b : length a = length b → compare b a = - compare a b.
Proof.
  revert b. induction a as [|x a IH]; intros [|y b] Hl; simpl in *; try done.
  repeat case_decide; subst; try done; [by apply IH; lia|].
  destruct (utf16_le x y) eqn:H1, (utf16_le y x) eqn:H2; try done.
  - exfalso. eauto using utf16_le_anti.
  - apply utf16_le_total in H1. congruence.
Qed.

Lemma compare_zero a b : length a = length b → compare a b = 0 → a = b.
Proof.
  revert b. induction a as [|x a IH]; intros [|y b] Hl; simpl in *; try done.
  case_decide; subst; [intros; f_equal; apply IH; lia|]. by destruct (utf16_le x y).
Qed.

Lemma compare_trans a b c :
  length a = length b → length b = length c →
  compare a b <= 0 → compare b c <= 0 → compare a c <= 0.
Proof.
  revert b c. induction a as [|x a IH]; intros [|y b] [|z c] H1 H2; simpl in *; try lia.
  repeat case_decide; subst; try lia; try congruence; [by apply IH; lia| |].
  - destruct (utf16_le y z) eqn:E1, (utf16_le z y) eqn:E2; try lia.
    exfalso. eauto using utf16_le_anti.
  - destruct (utf16_le x y) eqn:E1, (utf16_le y z) eqn:E2; try lia.
    by rewrite (utf16_le_trans _ _ _ E1 E2).
Qed.

(** Rows of one listing: keys of one arity, each key once. *)
Definition keyed {T} (arity : nat) (rows : list (Row T)) : Prop :=
  Forall (λ r, length (row_key r) = arity) rows ∧ NoDup (map row_key rows).

Section paging.
Context {T : Type} (arity : nat).
Implicit Types rows l : list (Row T).
Let le_total (x y : Row T) :
  length (row_key x) = arity → length (row_key y) = arity → row_le x y = false → row_le y x = true.
Proof. unfold row_le. intros ? ? H. pose proof (compare_opp (row_key x) (row_key y)). lia. Qed.
Let le_trans (x y z : Row T) :
  length (row_key x) = arity → length (row_key y) = arity → length (row_key z) = arity →
  row_le x y = true → row_le y z = true → row_le x z = true.
Proof.
  unfold row_le. intros ? ? ? H1 H2. pose proof (compare_trans (row_key z) (row_key y) (row_key x)). lia.
Qed.

(** Sorted rows are strictly descending. *)
Definition descending l : Prop :=
  StronglySorted (λ a b, compare (row_key b) (row_key a) < 0) l.

Lemma sorted_keyed rows : keyed arity rows → keyed arity (js_sort row_le rows).
Proof.
  intros [Ha Hn]. split; [by rewrite js_sort_perm|]. by rewrite js_sort_perm.
Qed.

Lemma sorted_descending rows : keyed arity rows → descending (js_sort row_le rows).
Proof using le_total le_trans.
  intros Hk. pose proof (sorted_keyed _ Hk) as [Ha Hn]. destruct Hk as [Hk _].
  pose proof (js_sort_sorted row_le _ le_total le_trans rows Hk) as Hs.
  revert Ha Hn Hs. generalize (js_sort row_le rows). intros l. clear.
  unfold descending. induction l as [|x l IH]; intros Ha Hn Hs; constructor;
    apply Forall_cons in Ha as [Hx Ha]; apply NoDup_cons in Hn as [Hni Hn];
    apply StronglySorted_inv in Hs as [Hs Hle]; [by apply IH|].
  rewrite Forall_forall in Hle, Ha |- *. intros y Hy.
  specialize (Hle y Hy). specialize (Ha y Hy). unfold row_le in Hle.
  destruct (decide (compare (row_key y) (row_key x) = 0)) as [Hz|]; [|lia].
  exfalso. apply Hni. apply compare_zero in Hz; [|congruence]. rewrite <- Hz.
  by apply list_elem_of_fmap_2.
Qed.

(** The rows after the key of a row are the ones behind it. *)
Lemma filter_after l1 x l2 :
  keyed arity (l1 ++ x :: l2) → descending (l1 ++ x :: l2) →
  List.filter (λ r, compare (row_key r) (row_key x) <? 0) (l1 ++ x :: l2) = l2.
Proof.
  intros [Ha _] Hd. rewrite List.filter_app. simpl. rewrite compare_refl. simpl.
  assert (Forall (λ r, compare (row_key r) (row_key x) <? 0 = false) l1) as H1.
  { apply Forall_app in Ha as [Ha1 [Hx _]%Forall_cons]. clear -Ha1 Hx Hd. unfold descending in Hd.
    induction l1 as [|y l1 IH]; constructor; simpl in *;
      apply Forall_cons in Ha1 as [Hy Ha1]; apply StronglySorted_inv in Hd as [Hd Hf]; [|auto].
    apply Forall_app in Hf as [_ [Hf _]%Forall_cons].
    pose proof (compare_opp (row_key y) (row_key x) ltac:(congruence)). simpl in *. lia. }
  assert (Forall (λ r, compare (row_key r) (row_key x) <? 0 = true) l2) as H2.
  { clear -Hd. unfold descending in Hd. induction l1 as [|y l1 IH]; simpl in *;
      apply StronglySorted_inv in Hd as [Hd Hf]; [|auto].
    eapply Forall_impl; [exact Hf|]. simpl. intros. lia. }
  by rewrite (filter_all_false _ l1), (filter_all_true _ l2).
Qed.

Lemma finishPage_ok l (n : Z) :
  1 <= n →
  finishPage (slice_to (n + 1) l) n =
  Ok (Build_Page (map row_value (take (Z.to_nat n) l))
        (if n <? Z.of_nat (length l)
         then (λ r, encodeCursor (row_key r)) <$> last (take (Z.to_nat n) l) else None)).
Proof.
  intros Hn. unfold finishPage, slice_to.
  destruct (n + 1 <? 0) eqn:?; [lia|]. destruct (n <? 0) eqn:?; [lia|].
  rewrite take_take, length_take.
  replace (Z.to_nat n `min` Z.to_nat (n + 1))%nat with (Z.to_nat n) by lia.
  replace (n <? Z.of_nat (Z.to_nat (n + 1) `min` length l)) with (n <? Z.of_nat (length l))
    by (apply eq_true_iff_eq; rewrite !Z.ltb_lt; lia).
  destruct (n <? Z.of_nat (length l)) eqn:Hlt; [|done].
  destruct (last (take (Z.to_nat n) l)) as [r|] eqn:Hlast; [done|].
  apply last_None in Hlast. apply (f_equal length) in Hlast. rewrite length_take in Hlast. simpl in *. lia.
Qed.
End paging.

(** Following [nextCursor] from the first page to the last. *)
Fixpoint all_pages {T} (fuel : nat) (rows : list (Row T)) (arity : nat) (cursor : option string)
    (limit : Z) : result (list (list T)) :=
  match fuel with
  | O => Ok []
  | S fuel' =>
      page ← pageOf rows arity cursor (Some limit);
      match nextCursor page with
      | None => Ok [items page]
      | Some c => rest ← all_pages fuel' rows arity (Some c) limit; Ok (items page :: rest)
      end
  end.

Lemma decode_encode key arity :
  length key = arity → match key with v :: _ => validInstant v | [] => false end = true →
  decodeCursor (Some (encodeCursor key)) arity = Ok (Some key).
Proof.
  intros Hl Hv. unfold decodeCursor, encodeCursor. rewrite base64url_roundtrip, parse_strings_text.
  by rewrite Hl, Nat.eqb_refl, Hv.
Qed.

(** A listing whose keys are all well formed. *)
Definition listable {T} (arity : nat) (rows : list (Row T)) : Prop :=
  keyed arity rows ∧
  Forall (λ r, match row_key r with v :: _ => validInstant v | [] => false end = true) rows.

(** One page from a position of the sorted listing: its rows, and the cursor of the next. *)
Lemma pageOf_from {T} arity (rows l1 l2 : list (Row T)) n cursor :
  listable arity rows → 1 <= n → js_sort row_le rows = l1 ++ l2 →
  cursor = ((λ r, encodeCursor (row_key r)) <$> last l1) →
  pageOf rows arity cursor (Some n) =
  Ok (Build_Page (map row_value (take (Z.to_nat n) l2))
        (if n <? Z.of_nat (length l2)
         then (λ r, encodeCursor (row_key r)) <$> last (take (Z.to_nat n) l2) else None)).
Proof.
  intros [Hk Hv] Hn Hs ->. unfold pageOf. rewrite Hs.
  pose proof (sorted_keyed arity _ Hk) as Hk'. pose proof (sorted_descending arity _ Hk) as Hd.
  rewrite Hs in Hk', Hd.
  destruct (last l1) as [x|] eqn:Hlast.
  - apply last_Some in Hlast as [l1' ->]. rewrite <- app_assoc in Hk', Hd, Hs |- *. cbn [app] in *.
    change ((λ r : Row T, encodeCursor (row_key r)) <$> Some x) with (Some (encodeCursor (row_key x))).
    assert (x ∈ rows) as Hx by (rewrite <- (js_sort_perm row_le rows), Hs; set_solver).
    destruct Hk as [Ha _]. rewrite Forall_forall in Ha, Hv.
    rewrite decode_encode by auto. cbn -[finishPage slice_to List.filter].
    rewrite (filter_after arity) by done. by apply finishPage_ok.
  - apply last_None in Hlast as ->. cbn -[finishPage slice_to List.filter].
    rewrite filter_all_true by by apply Forall_true. by apply finishPage_ok.
Qed.

Lemma all_pages_from {T} arity (rows l1 l2 : list (Row T)) n fuel cursor :
  listable arity rows → 1 <= n → js_sort row_le rows = l1 ++ l2 →
  cursor = ((λ r, encodeCursor (row_key r)) <$> last l1) →
  (length l2 < fuel)%nat →
  ∃ pages, all_pages fuel rows arity cursor n = Ok pages ∧
    concat pages = map row_value l2 ∧ Forall (λ p, Z.of_nat (length p) <= n) pages.
Proof.
  intros Hl Hn. revert l1 l2 cursor. induction fuel as [|fuel IH]; intros l1 l2 cursor Hs Hc Hf; [lia|].
  cbn [all_pages]. rewrite (pageOf_from arity rows l1 l2 n cursor Hl Hn Hs Hc).
  cbn -[all_pages take]. destruct (n <? Z.of_nat (length l2)) eqn:Hlt.
  - destruct (last (take (Z.to_nat n) l2)) as [x|] eqn:Hx; cycle 1.
    { apply last_None, (f_equal length) in Hx. rewrite length_take in Hx. simpl in Hx. lia. }
    destruct (IH (l1 ++ take (Z.to_nat n) l2) (drop (Z.to_nat n) l2) (Some (encodeCursor (row_key x))))
      as (pages & Hp & Hcat & Hlen).
    { by rewrite <- app_assoc, take_drop. }
    { by rewrite last_app, Hx. }
    { rewrite length_drop. lia. }
    cbn -[all_pages take]. rewrite Hp. cbn -[take]. eexists. split; [done|]. split.
    + cbn -[take]. rewrite Hcat, <- map_app, take_drop. done.
    + constructor; [|done]. rewrite length_map, length_take. lia.
  - eexists. split; [done|]. split.
    + cbn -[take]. rewrite app_nil_r, take_ge by lia. done.
    + repeat constructor. rewrite length_map, length_take. lia.
Qed.

(** ** Sort instants *)

Lemma utf16_le_refl a : utf16_le a a = true.
Proof. induction a as [|c a IH]; simpl; [done|]. rewrite Z.eqb_refl, IH. apply orb_true_r. Qed.

Lemma utf16_le_cons c a b : utf16_le (String c a) (String c b) = utf16_le a b.
Proof. simpl. by rewrite Z.ltb_irrefl, Z.eqb_refl. Qed.

Lemma digit_rank d : 0 ≤ d < 10 → utf16_rank (digit_char d) = d + 48.
Proof. intros. unfold utf16_rank. rewrite code_digit_char by done. by destruct (d + 48 <? 238) eqn:?; [|lia]. Qed.

(** Fields of one width compare as numbers. *)
Lemma utf16_le_digits n x y r1 r2 :
  utf16_le (print_digits n x +:+ r1) (print_digits n y +:+ r2) =
  (x mod 10 ^ Z.of_nat n <? y mod 10 ^ Z.of_nat n)
  || ((x mod 10 ^ Z.of_nat n =? y mod 10 ^ Z.of_nat n) && utf16_le r1 r2).
Proof.
  induction n as [|n IH]; cbn [print_digits].
  { rewrite !str_app_nil, !Z.mod_1_r. done. }
  rewrite !str_app_cons. cbn [utf16_le]. rewrite IH, !digit_rank by (apply Z.mod_pos_bound; lia).
  rewrite Nat2Z.inj_succ, Z.pow_succ_r, (Z.mul_comm 10) by lia.
  rewrite !Z.rem_mul_r by lia.
  pose proof (Z.mod_pos_bound x (10 ^ Z.of_nat n) ltac:(lia)).
  pose proof (Z.mod_pos_bound y (10 ^ Z.of_nat n) ltac:(lia)).
  revert H H0. generalize (x / 10 ^ Z.of_nat n mod 10). intros c. generalize (y / 10 ^ Z.of_nat n mod 10). intros d.
  generalize (x mod 10 ^ Z.of_nat n). intros a. generalize (y mod 10 ^ Z.of_nat n). intros b.
  generalize (10 ^ Z.of_nat n). intros p Ha Hb.
  destruct (Z.lt_trichotomy c d) as [Hc|[->|Hc]].
  - assert (p * (c + 1) ≤ p * d) by (apply Z.mul_le_mono_nonneg_l; lia).
    replace (c + 48 <? d + 48) with true by lia. by replace (a + p * c <? b + p * d) with true by (symmetry; apply Z.ltb_lt; lia).
  - rewrite Z.ltb_irrefl, Z.eqb_refl. simpl.
    replace (a + p * d <? b + p * d) with (a <? b) by (apply eq_true_iff_eq; rewrite !Z.ltb_lt; lia).
    by replace (a + p * d =? b + p * d) with (a =? b) by (apply eq_true_iff_eq; rewrite !Z.eqb_eq; lia).
  - assert (p * (d + 1) ≤ p * c) by (apply Z.mul_le_mono_nonneg_l; lia).
    replace (c + 48 <? d + 48) with false by lia. replace (c + 48 =? d + 48) with false by lia.
    replace (a + p * c <? b + p * d) with false by (symmetry; apply Z.ltb_ge; lia).
    by replace (a + p * c =? b + p * d) with false by (symmetry; apply Z.eqb_neq; lia).
Qed.

Lemma replace_z_digits by_ n z r :
  replace_z by_ (print_digits n z +:+ r) = print_digits n z +:+ replace_z by_ r.
Proof.
  induction n as [|n IH]; cbn [print_digits]; [done|]. rewrite !str_app_cons. cbn [replace_z].
  rewrite IH. destruct (Ascii.eqb _ _) eqn:He; [|done]. apply Ascii.eqb_eq in He.
  apply (f_equal code) in He. rewrite code_digit_char in He by (apply Z.mod_pos_bound; lia).
  change (code "Z"%char) with 90 in He. pose proof (Z.mod_pos_bound (z / 10 ^ Z.of_nat n) 10 ltac:(lia)). lia.
Qed.

Lemma replace_z_cons by_ c r : c ≠ "Z"%char → replace_z by_ (String c r) = String c (replace_z by_ r).
Proof. intros Hc. simpl. by destruct (Ascii.eqb_spec c "Z"%char). Qed.

(** The sort instant, field by field. *)
Lemma sort_text by_ f :
  0 ≤ df_year f ≤ 9999 →
  replace_z by_ (print_fields f) =
  print_digits 4 (df_year f) +:+ String "-" (print_digits 2 (df_month f) +:+ String "-"
    (print_digits 2 (df_day f) +:+ String "T" (print_digits 2 (df_hour f) +:+ String ":"
      (print_digits 2 (df_minute f) +:+ String ":" (print_digits 2 (df_second f) +:+ String "."
        (print_digits 3 (df_ms f) +:+ by_)))))).
Proof.
  intros Hy. unfold print_fields, print_year.
  replace ((0 <=? df_year f) && (df_year f <=? 9999)) with true by lia.
  rewrite <- ?str_app_assoc. rewrite !str_app_cons, !str_app_nil.
  rewrite replace_z_digits, replace_z_cons, replace_z_digits, replace_z_cons, replace_z_digits,
    replace_z_cons, replace_z_digits, replace_z_cons, replace_z_digits, replace_z_cons,
    replace_z_digits, replace_z_cons, replace_z_digits by discriminate.
  cbn [replace_z Ascii.eqb Bool.eqb]. by rewrite str_app_nil_r.
Qed.

Lemma take_digits_split n k a z r :
  take_digits (n + k) a (print_digits n z +:+ r) =
  take_digits k (a * 10 ^ Z.of_nat n + z mod 10 ^ Z.of_nat n) r.
Proof.
  revert a. induction n as [|n IH]; intros a.
  - cbn [print_digits plus]. rewrite str_app_nil, Z.mod_1_r. f_equal. simpl (Z.of_nat 0). lia.
  - cbn [print_digits plus take_digits]. rewrite str_app_cons. unfold is_digit, digit_val.
    set (d := z / 10 ^ Z.of_nat n mod 10).
    assert (0 ≤ d < 10) as Hd by (apply Z.mod_pos_bound; lia). rewrite code_digit_char by done.
    replace ((48 <=? d + 48) && (d + 48 <=? 57)) with true by lia. rewrite IH. f_equal.
    rewrite Nat2Z.inj_succ, Z.pow_succ_r, (Z.mul_comm 10 (10 ^ Z.of_nat n)), Z.rem_mul_r by lia. fold d. ring.
Qed.

Lemma sort_instant_valid t :
  four_digit_year t → Z.abs t ≤ MAX_TIME → validInstant (replace_z "000Z" (to_iso t)) = true.
Proof.
  intros Hy Hmax. pose proof (date_parse_iso t Hy Hmax) as Hparse. unfold validInstant.
  assert (String.substring 0 23 (replace_z "000Z" (to_iso t)) +:+ "Z" = to_iso t) as Hmillis.
  { unfold to_iso. rewrite sort_text, print_fields_text by done. reflexivity. }
  rewrite Hmillis, Hparse, String.eqb_refl. rewrite andb_true_r. clear Hmillis Hparse.
  unfold to_iso. rewrite sort_text by done. pose proof (utc_fields_valid t) as Hv. cbv zeta in Hv.
  unfold four_digit_year in Hy. revert Hv Hy. generalize (utc_fields t). intros f Hv Hy.
  destruct Hv as (Hv & Hh & Hmi & Hs & Hms). unfold valid_civil, days_in_month in Hv.
  pose proof (month_length_bounds (leap (df_year f)) (df_month f)).
  unfold sortInstant.
  rewrite take_field by (simpl; lia). cbn [mbind option_bind]. rewrite expect_cons.
  do 5 (cbn [mbind option_bind]; rewrite take_field by (simpl; lia); cbn [mbind option_bind]; rewrite expect_cons).
  cbn [mbind option_bind]. change "000Z" with (print_digits 3 0 +:+ "Z").
  rewrite (take_digits_split 3 3), take_print_digits. reflexivity.
Qed.

(** Sort keys order like time. For instants of the years 0 to 9999, the sort instants
    are well formed cursor instants, and comparing them as strings, the way pages are
    ordered, compares the times they stand for. *)
Theorem sort_instant_chronological (a b : string) (x y : Z)
  (Hx : date_parse a = Some x) (Hy : date_parse b = Some y)
  (Hxr : four_digit_year x) (Hyr : four_digit_year y)
  (Hxm : Z.abs x ≤ MAX_TIME) (Hym : Z.abs y ≤ MAX_TIME) :
  ∃ ka kb, sortInstantOf a = Ok ka ∧ sortInstantOf b = Ok kb ∧
    validInstant ka = true ∧ validInstant kb = true ∧ utf16_le ka kb = (x <=? y).
Proof.
  unfold sortInstantOf. rewrite Hx, Hy. eexists _, _. split; [done|]. split; [done|].
  split; [by apply sort_instant_valid|]. split; [by apply sort_instant_valid|].
  unfold to_iso. rewrite !sort_text by done.
  pose proof (fields_lt_iff x y) as Hlt. pose proof (fields_lt_iff y x) as Hgt.
  pose proof (utc_fields_valid x) as Vx. pose proof (utc_fields_valid y) as Vy. cbv zeta in Vx, Vy.
  unfold four_digit_year in Hxr, Hyr. revert Hlt Hgt Vx Vy Hxr Hyr. clear.
  generalize (utc_fields x). intros f. generalize (utc_fields y). intros g Hlt Hgt Vx Vy Hf Hg.
  unfold valid_civil, days_in_month in *.
  pose proof (month_length_bounds (leap (df_year f)) (df_month f)).
  pose proof (month_length_bounds (leap (df_year g)) (df_month g)).
  rewrite !utf16_le_digits, !utf16_le_cons. rewrite !utf16_le_digits, !utf16_le_cons, !utf16_le_digits, !utf16_le_cons,
    !utf16_le_digits, !utf16_le_cons, !utf16_le_digits, !utf16_le_cons, !utf16_le_digits, !utf16_le_cons,
    !utf16_le_digits, utf16_le_refl.
  rewrite !Z.mod_small by (simpl; lia). unfold fields_lt in *.
  apply eq_true_iff_eq. rewrite Z.leb_le, !orb_true_iff, !andb_true_iff, !Z.ltb_lt, !Z.eqb_eq. lia.
Qed.

(** Cursors survive the trip through the client: a page's cursor decodes to the key it
    was made from when the key has the listing's arity and a real instant, and is refused
    otherwise. *)
Theorem cursor_roundtrip (key : SortKey) (arity : nat) :
  decodeCursor (Some (encodeCursor key)) arity =
  if Nat.eqb (length key) arity && match key with v :: _ => validInstant v | [] => false end
  then Ok (Some key) else Throw cursor_invalid.
Proof. unfold decodeCursor, encodeCursor. by rewrite base64url_roundtrip, parse_strings_text. Qed.

(** C36. Following cursors lists everything once. Starting without a cursor and taking each
    page's [nextCursor] until it is null, a client of a listing with well-formed distinct
    keys receives every row exactly once, newest first, in pages of at most [limit] rows;
    one request per row and one more are always enough. *)
Theorem pages_list_everything_once {T} (arity : nat) (rows : list (Row T)) (limit : Z)
  (Hrows : listable arity rows) (Hlimit : 1 ≤ limit) :
  ∃ pages, all_pages (S (length rows)) rows arity None limit = Ok pages ∧
    concat pages = map row_value (js_sort row_le rows) ∧
    Permutation (concat pages) (map row_value rows) ∧
    StronglySorted (λ a b, compare (row_key b) (row_key a) < 0) (js_sort row_le rows) ∧
    Forall (λ page, Z.of_nat (length page) ≤ limit) pages.
Proof.
  destruct (all_pages_from arity rows [] (js_sort row_le rows) limit (S (length rows)) None)
    as (pages & Hp & Hc & Hf); [done|done|done|done|by rewrite js_sort_perm; lia|].
  exists pages. split_and!; [done|done| | |done].
  - rewrite Hc. apply Permutation_map, js_sort_perm.
  - apply (sorted_descending arity). apply Hrows.
Qed.

(** ** Witnesses *)

Lemma sort_instant_chronological_witness :
  ∃ ka kb, sortInstantOf "2026-09-29T14:00+02:00" = Ok ka ∧ sortInstantOf "2026-10-01" = Ok kb ∧
    utf16_le ka kb = true.
Proof.
  destruct (sort_instant_chronological "2026-09-29T14:00+02:00" "2026-10-01" 1790683200000 1790812800000
    eq_refl eq_refl ltac:(unfold four_digit_year; vm_compute; split; discriminate)
    ltac:(unfold four_digit_year; vm_compute; split; discriminate)
    ltac:(vm_compute; discriminate) ltac:(vm_compute; discriminate)) as (ka & kb & Ha & Hb & _ & _ & Hle).
  exists ka, kb. split; [exact Ha|]. split; [exact Hb|exact Hle].
Defined.

Definition three_rows : list (Row nat) :=
  [Build_Row ["2026-09-29T12:00:00.000000Z"; "b"] 1%nat;
   Build_Row ["2026-09-30T12:00:00.000000Z"; "a"] 2%nat;
   Build_Row ["2026-09-29T12:00:00.000000Z"; "a"] 3%nat].

Lemma pages_list_everything_once_witness :
  ∃ pages, all_pages 4 three_rows 2 None 2 = Ok pages ∧ concat pages = [2; 1; 3]%nat.
Proof.
  destruct (pages_list_everything_once 2 three_rows 2) as (pages & Hp & Hc & _).
  - split; [split|].
    + repeat constructor.
    + apply (bool_decide_unpack _). vm_compute. exact I.
    + repeat constructor.
  - lia.
  - exists pages. split; [exact Hp|]. rewrite Hc. reflexivity.
Defined.
