(* ===== verification/RangeAdmin.v ===== *)
(** * RangeAdmin: validation of numbering requests.

    [offline-sync/src/range-administration.ts], [reservation-admission.ts],
    [reconciliation.ts], [consumption-projection.ts] and the bounded attributes of
    [stynx-context.ts]: what the stores check before they touch any state. *)
From S2P Require Import Prelude JsText JsDate JsJson OfflineTypes Listing JsCursor.
From Stdlib Require Import Ascii.
Local Open Scope Z_scope.

Definition MAX_SAFE_INTEGER : Z := 9007199254740991.
Definition isSafeInteger (z : Z) : bool := Z.abs z <=? MAX_SAFE_INTEGER.

(** ** Ranges *)

Definition range_invalid : OfflineError :=
  OfflineSyncError INVALID_INPUT 400 "Numbering range input is invalid.".

Definition string_in (s : string) (l : list string) : bool := existsb (String.eqb s) l.

Definition shape (input : ObjectShape) (allowed : list string) : result () :=
  if negb (os_plain input) || os_symbols input then Throw range_invalid
  else if forallb (λ p, string_in p.1 allowed && p.2) (os_properties input)
  then Ok () else Throw range_invalid.

Definition rangeText (value : string) (maximum : Z) : result () :=
  if blank value || has_nul value || (maximum <? byteLength value)
  then Throw range_invalid else Ok ().

Definition optional_text (value : option string) (maximum : Z) : result () :=
  match value with Some v => rangeText v maximum | None => Ok () end.

Definition is_hex (c : ascii) : bool := byte_in 48 57 c || byte_in 97 102 c || byte_in 65 70 c.
(** [/^[0-9a-f]{8}(?:-[0-9a-f]{4}){3}-[0-9a-f]{12}$/i] *)
Fixpoint hex_groups (groups : list nat) (s : list ascii) : bool :=
  match groups with
  | [] => match s with [] => true | _ => false end
  | n :: rest =>
      Nat.eqb (length (take n s)) n && forallb is_hex (take n s) &&
      match rest, drop n s with
      | [], [] => true
      | _ :: _, c :: s' => Ascii.eqb c "-"%char && hex_groups rest s'
      | _, _ => false
      end
  end.
Definition uuid (s : string) : bool := hex_groups [8; 4; 4; 4; 12]%nat (String.list_ascii_of_string s).

Definition rangeIdentity (value : string) : result string :=
  if uuid value then Ok (lower value) else Throw range_invalid.

Definition OFFLINE_SYNC_CONSUMER_ATTRIBUTES_MAX_BYTES : Z := 4096.

Definition boundedConsumerAttributes (value : option json) : result (option json) :=
  match value with
  | None => Ok None
  | Some v =>
      let invalid := OfflineSyncError INVALID_INPUT 400
        "consumerAttributes must be a JSON object of at most 4096 bytes." in
      match v with
      | JObject _ | JExotic =>
          if OFFLINE_SYNC_CONSUMER_ATTRIBUTES_MAX_BYTES <? byteLength (default EmptyString (encode v))
          then Throw invalid else Ok (Some v)
      | _ => Throw invalid
      end
  end.

(** The attributes of a creation request: parsed back from their canonical text. *)
Definition range_attributes (attributes : option json) : result (option json) :=
  match attributes with
  | None => Ok None
  | Some a =>
      match canonicalOfflineSyncPayload a with
      | Some _ =>
          match boundedConsumerAttributes (Some (canonical_value a)) with
          | Ok v => Ok v
          | Throw _ => Throw range_invalid
          end
      | None => Throw range_invalid
      end
  end.

Section creation.
Context (sha256 : string → string).

(** A request that reaches this point has a canonical text; the other branch is
    [invalid()] of the canonical encoder. *)
Definition canonicalOfflineSyncPayloadHash (payload : json) : result string :=
  match canonicalOfflineSyncPayload payload with
  | Some text => Ok ("sha256:" +:+ sha256 text)
  | None => Throw (OfflineSyncError INVALID_INPUT 400 "Payload must contain only unambiguous JSON values.")
  end.

Definition rangeCreation (scope : Scope) (input : CreateNumberingRangeInput) :
    result (CreateNumberingRangeInput * string) :=
  _ ← shape (cri_shape input)
    ["orgUnitId"; "entityType"; "series"; "startNumber"; "endNumber"; "idempotencyKey"; "consumerAttributes"];
  _ ← rangeText (cri_orgUnitId input) 255;
  _ ← rangeText (cri_entityType input) 100;
  _ ← rangeText (cri_series input) 80;
  _ ← optional_text (cri_idempotencyKey input) 255;
  if negb (isSafeInteger (cri_startNumber input)) || negb (isSafeInteger (cri_endNumber input))
     || negb (isSafeInteger (cri_endNumber input + 1)) || (cri_endNumber input <? cri_startNumber input)
  then Throw range_invalid else
  attributes ← range_attributes (cri_consumerAttributes input);
  fingerprint ← canonicalOfflineSyncPayloadHash (JObject
    ([("tenantId", JString (tenantId scope)); ("orgUnitId", JString (cri_orgUnitId input));
      ("entityType", JString (cri_entityType input)); ("series", JString (cri_series input));
      ("startNumber", integer (cri_startNumber input)); ("endNumber", integer (cri_endNumber input))]
     ++ match attributes with Some a => [("consumerAttributes", a)] | None => [] end));
  Ok ({| cri_shape := cri_shape input; cri_orgUnitId := cri_orgUnitId input;
         cri_entityType := cri_entityType input; cri_series := cri_series input;
         cri_startNumber := cri_startNumber input; cri_endNumber := cri_endNumber input;
         cri_idempotencyKey := cri_idempotencyKey input; cri_consumerAttributes := attributes |},
      fingerprint).
End creation.

(** The validated reason. *)
Definition rangeCancellation (input : CancelNumberingRangeInput) : result (option string) :=
  _ ← shape (xri_shape input) ["reason"];
  _ ← optional_text (xri_reason input) 500;
  Ok (xri_reason input).

Record RangeQuery := {
  rq_orgUnitId : option string; rq_entityType : option string; rq_series : option string;
  rq_status : option RangeStatus; rq_limit : Z; rq_cursor : option string }.

Definition rangeList (input : ListNumberingRangesInput) : result RangeQuery :=
  _ ← shape (lri_shape input) ["orgUnitId"; "entityType"; "series"; "status"; "limit"; "cursor"];
  _ ← optional_text (lri_orgUnitId input) 255;
  _ ← optional_text (lri_entityType input) 100;
  _ ← optional_text (lri_series input) 80;
  let limit := default 50 (lri_limit input) in
  if negb (isSafeInteger limit) || (limit <? 1) || (200 <? limit) then Throw range_invalid else
  cursor ← match lri_cursor input with
           | Some c => id ← rangeIdentity c; Ok (Some id)
           | None => Ok None
           end;
  Ok {| rq_orgUnitId := lri_orgUnitId input; rq_entityType := lri_entityType input;
        rq_series := lri_series input; rq_status := lri_status input; rq_limit := limit;
        rq_cursor := cursor |}.

Inductive RangeConflictKind := conflict_key | conflict_scope | conflict_state.
Definition rangeConflict (kind : RangeConflictKind) : OfflineError :=
  match kind with
  | conflict_key => OfflineSyncError RANGE_IDEMPOTENCY_CONFLICT 409
      "Range creation key was already used with a different request."
  | conflict_scope => OfflineSyncError RANGE_CONFLICT 409
      "A numbering range already exists for this organizational unit, entity and series."
  | conflict_state => OfflineSyncError RANGE_STATE 409 "Only an active numbering range can be cancelled."
  end.

Definition rangeNotFound : OfflineError :=
  OfflineSyncError RANGE_NOT_FOUND 404 "Numbering range was not found.".

(** ** Reservations *)

Definition OFFLINE_SYNC_NO_SHIFT : string := "stynx:no-shift".
Definition reservationShiftScope (shift : option string) : option string :=
  match shift with Some s => if String.eqb s OFFLINE_SYNC_NO_SHIFT then None else Some s | None => None end.

Definition activeReservationError : OfflineError :=
  OfflineSyncError ACTIVE_RESERVATION 409
    "An active numbering reservation already exists for this device and shift.".

Definition legacyReservation (value : Reservation) : result Reservation :=
  match rv_shiftId value with
  | Some _ =>
      if bool_decide (rv_status value = blocked)
      then Throw (OfflineSyncError RESERVATION_STATE 409 "This numbering reservation requires a durable operation.")
      else Ok value
  | None => Throw (OfflineSyncError RESERVATION_STATE 409 "This numbering reservation requires a durable operation.")
  end.

(** ** Consumption *)

Definition consumptionReadInstant (now : string) : result Z :=
  match instantMicroseconds now with
  | Some t => Ok t
  | None => Throw (OfflineSyncError INVALID_INPUT 400 "Invalid consumption read instant.")
  end.

Definition projectNumberingConsumption (status : ReservationStatus) (validUntil : string)
    (entries : list ConsumptionEntry) (observedAt : Z) : result (list ConsumptionEntry) :=
  fallback ← match status with
             | blocked => Ok entry_blocked
             | expired | cancelled | consumed => Ok entry_expired
             | reserved =>
                 until ← consumptionReadInstant validUntil;
                 Ok (if until <=? observedAt then entry_expired else entry_available)
             end;
  Ok (map (λ e, if bool_decide (ce_status e = entry_available) then set_ce_status fallback e else e) entries).

(** ** Reconciliation *)

(** [[...new Set(numbers)]]: the first occurrence of each. *)
Fixpoint set_values (seen : list Z) (l : list Z) : list Z :=
  match l with
  | [] => []
  | z :: l' => if existsb (Z.eqb z) seen then set_values seen l' else z :: set_values (z :: seen) l'
  end.

Section reconciliation.
(** [importDigest]: the digest of the canonical JSON text of a value
    (import-validation.ts, over the generated import contract). *)
Context (importDigest : json → string).

Definition reconciliationRequest (scope : Scope) (input : ReconcileInput) : result (list Z * string) :=
  _ ← rangeText (actorId scope) 255;
  _ ← rangeText (tenantId scope) 255;
  _ ← optional_text (rci_idempotencyKey input) 255;
  if match rci_userRef input with Some u => has_nul u || (255 <? byteLength u) | None => false end
  then Throw (OfflineSyncError INVALID_INPUT 400 "userRef is invalid.") else
  if match rci_claimedNumbers input with Some l => negb (forallb isSafeInteger l) | None => false end
  then Throw (OfflineSyncError INVALID_INPUT 400 "claimedNumbers is invalid.") else
  let claimed := js_sort Z.leb (set_values [] (default [] (rci_claimedNumbers input))) in
  Ok (claimed, importDigest (JObject
    [("claimedNumbers", JArray (map integer claimed)); ("userRef", nullable (rci_userRef input))])).
End reconciliation.

Definition reconciliationConflict : OfflineError :=
  OfflineSyncError RECONCILIATION_IDEMPOTENCY_CONFLICT 409
    "Reconciliation idempotency key was already used with a different request.".

Definition is_applied (e : ConsumptionEntry) : bool := bool_decide (ce_status e = entry_applied).

Definition reconciliationResult (current : ConsumptionResult) (claimedNumbers : list Z)
    (reconciliationId : string) : ReconcileResult :=
  let claims n := existsb (Z.eqb n) claimedNumbers in
  {| rr_current := current;
     rr_reconciliationId := reconciliationId;
     rr_missingOnServer := map ce_number
       (List.filter (λ e, claims (ce_number e) && negb (is_applied e)) (cr_consumption current));
     rr_unexpectedOnServer := map ce_number
       (List.filter (λ e, negb (claims (ce_number e)) && is_applied e) (cr_consumption current)) |}.

Definition reconciliationList (input : ListReconciliationsInput) : result Z :=
  _ ← rangeText (lci_reservationId input) 255;
  let limit := default listDefaultLimit (lci_limit input) in
  if negb (isSafeInteger limit) || (limit <? 1) || (listMaxLimit <? limit)
  then Throw (OfflineSyncError INVALID_INPUT 400 "limit must be an integer between 1 and 200.") else
  _ ← decodeCursor (lci_cursor input) 2;
  Ok limit.

(** The instant in UTC with its microseconds: the milliseconds of a [Date], then the rest.
    An instant outside the range of [Date] throws a RangeError. *)
Definition reconciliationSortInstant (value : string) : result string :=
  micros ← consumptionReadInstant value;
  let remainder := micros mod 1000 in
  match time_clip ((micros - remainder) / 1000) with
  | Some t => Ok (replace_z (print_digits 3 remainder +:+ "Z") (to_iso t))
  | None => Throw RangeError
  end.

Example reconciliation_instant_1 :
  reconciliationSortInstant "2026-09-29T14:00:00.123456+02:00" = Ok "2026-09-29T12:00:00.123456Z".
Proof. reflexivity. Qed.

(** ** Lemmas *)

Lemma set_values_elem seen l z : z ∈ set_values seen l ↔ z ∈ l ∧ z ∉ seen.
Proof.
  revert seen. induction l as [|x l IH]; intros seen; simpl; [set_solver|].
  destruct (existsb (Z.eqb x) seen) eqn:He.
  - apply existsb_exists in He as (y & Hy & ->%Z.eqb_eq). apply list_elem_of_In in Hy.
    rewrite IH. set_solver.
  - assert (x ∉ seen) as Hx.
    { intros Hx%list_elem_of_In. apply not_true_iff_false in He. apply He, existsb_exists.
      exists x. by rewrite Z.eqb_refl. }
    rewrite !elem_of_cons, IH, not_elem_of_cons. destruct (decide (z = x)); naive_solver.
Qed.

Lemma set_values_nodup seen l : NoDup (set_values seen l).
Proof.
  revert seen. induction l as [|x l IH]; intros seen; simpl; [constructor|].
  destruct (existsb _ _); [done|]. constructor; [|done]. rewrite set_values_elem. set_solver.
Qed.

Lemma existsb_elem n l : existsb (Z.eqb n) l = true ↔ n ∈ l.
Proof.
  rewrite existsb_exists, list_elem_of_In. split; [by intros (x & Hx & ->%Z.eqb_eq)|].
  intros. exists n. by rewrite Z.eqb_refl.
Qed.

Lemma legacyReservation_ok v r : legacyReservation v = Ok r → r = v.
Proof. unfold legacyReservation. repeat case_match; naive_solver. Qed.
