(* ===== verification/Numbering.v ===== *)
(** * Numbering: the numbering half of [InMemoryOfflineSyncStore].

    The fields of [offline-sync/src/in-memory-offline-sync.store.ts] that number ranges,
    reservations, consumption and reconciliations live in, with one method per method of
    the class. The methods do not await, so each runs as one step. The coverage check and
    the finalisation that [processItem] makes around the applier's [await] are two
    separate methods. *)
From S2P Require Import Prelude JsMap JsText JsDate JsJson OfflineTypes Listing JsCursor RangeAdmin.
From Stdlib Require Import Ascii.
Local Open Scope Z_scope.

Definition Consumption : Type := jsmap Z ConsumptionEntry.

Record Store := {
  rangeCreationReceipts : jsmap string (string * NumberingRange);
  ranges : jsmap string NumberingRange;
  reservations : jsmap string Reservation;
  reservationOrigins : jsmap string Origin;
  consumption : jsmap string Consumption;
  reconciliations : jsmap string (string * ReconciliationRecord);
  reservationKeys : jsmap string (string * string);
  uuids : nat }.

(** A new store. *)
Definition empty_store : Store :=
  {| rangeCreationReceipts := []; ranges := []; reservations := []; reservationOrigins := [];
     consumption := []; reconciliations := []; reservationKeys := []; uuids := 0 |}.

Definition upd_receipts f (s : Store) : Store :=
  {| rangeCreationReceipts := f (rangeCreationReceipts s); ranges := ranges s;
     reservations := reservations s; reservationOrigins := reservationOrigins s;
     consumption := consumption s; reconciliations := reconciliations s;
     reservationKeys := reservationKeys s; uuids := uuids s |}.
Definition upd_ranges f (s : Store) : Store :=
  {| rangeCreationReceipts := rangeCreationReceipts s; ranges := f (ranges s);
     reservations := reservations s; reservationOrigins := reservationOrigins s;
     consumption := consumption s; reconciliations := reconciliations s;
     reservationKeys := reservationKeys s; uuids := uuids s |}.
Definition upd_reservations f (s : Store) : Store :=
  {| rangeCreationReceipts := rangeCreationReceipts s; ranges := ranges s;
     reservations := f (reservations s); reservationOrigins := reservationOrigins s;
     consumption := consumption s; reconciliations := reconciliations s;
     reservationKeys := reservationKeys s; uuids := uuids s |}.
Definition upd_origins f (s : Store) : Store :=
  {| rangeCreationReceipts := rangeCreationReceipts s; ranges := ranges s;
     reservations := reservations s; reservationOrigins := f (reservationOrigins s);
     consumption := consumption s; reconciliations := reconciliations s;
     reservationKeys := reservationKeys s; uuids := uuids s |}.
Definition upd_consumption f (s : Store) : Store :=
  {| rangeCreationReceipts := rangeCreationReceipts s; ranges := ranges s;
     reservations := reservations s; reservationOrigins := reservationOrigins s;
     consumption := f (consumption s); reconciliations := reconciliations s;
     reservationKeys := reservationKeys s; uuids := uuids s |}.
Definition upd_reconciliations f (s : Store) : Store :=
  {| rangeCreationReceipts := rangeCreationReceipts s; ranges := ranges s;
     reservations := reservations s; reservationOrigins := reservationOrigins s;
     consumption := consumption s; reconciliations := f (reconciliations s);
     reservationKeys := reservationKeys s; uuids := uuids s |}.
Definition upd_keys f (s : Store) : Store :=
  {| rangeCreationReceipts := rangeCreationReceipts s; ranges := ranges s;
     reservations := reservations s; reservationOrigins := reservationOrigins s;
     consumption := consumption s; reconciliations := reconciliations s;
     reservationKeys := f (reservationKeys s); uuids := uuids s |}.
Definition next_uuid (s : Store) : Store :=
  {| rangeCreationReceipts := rangeCreationReceipts s; ranges := ranges s;
     reservations := reservations s; reservationOrigins := reservationOrigins s;
     consumption := consumption s; reconciliations := reconciliations s;
     reservationKeys := reservationKeys s; uuids := S (uuids s) |}.

(** [`${tenantId}:${id}`] *)
Definition key (tenantId id : string) : string := tenantId +:+ ":" +:+ id.

(** A string used as a condition: [undefined] and the empty string are false. *)
Definition truthy (s : option string) : option string :=
  match s with Some EmptyString | None => None | Some v => Some v end.
Definition omatch (o : option string) (v : string) : bool :=
  match o with Some x => String.eqb x v | None => true end.

(** The [available] entries of a consumption map moved to a status. *)
Definition move_available (status : EntryStatus) (entries : Consumption) : Consumption :=
  map (λ p, if bool_decide (ce_status p.2 = entry_available) then (p.1, set_ce_status status p.2) else p)
    entries.

Definition held_on_return (e : ConsumptionEntry) : bool :=
  bool_decide (ce_status e = entry_applied) || bool_decide (ce_status e = entry_claimed).

Definition highest_applied (startNumber : Z) (entries : Consumption) : Z :=
  foldr Z.max (startNumber - 1) (map ce_number (List.filter held_on_return (jm_values entries))).

Definition fresh_entries (first last : Z) : Consumption :=
  map (λ n, (n, {| ce_number := n; ce_status := entry_available; ce_serverEntityId := None;
                   ce_finalizedAt := None |}))
    (seqZ first (last - first + 1)).

Definition reservation_not_found : OfflineError :=
  OfflineSyncError RESERVATION_NOT_FOUND 404 "Reservation was not found.".

Definition set_cancelled (scope : Scope) (at_ : string) (reason : option string) (r : NumberingRange) :
    NumberingRange :=
  {| rg_id := rg_id r; rg_tenantId := rg_tenantId r; rg_orgUnitId := rg_orgUnitId r;
     rg_entityType := rg_entityType r; rg_series := rg_series r;
     rg_startNumber := rg_startNumber r; rg_endNumber := rg_endNumber r;
     rg_nextNumber := rg_nextNumber r; rg_status := range_cancelled;
     rg_consumerAttributes := rg_consumerAttributes r; rg_createdBy := rg_createdBy r;
     rg_createdAt := rg_createdAt r; rg_updatedAt := Some at_;
     rg_cancelledBy := Some (actorId scope);
     rg_cancellationReason := match reason with Some v => Some v | None => rg_cancellationReason r end;
     rg_cancelledAt := Some at_ |}.

Section numbering.
(** Hexadecimal SHA-256, the host's collation, the digest of import-validation.ts and the
    successive values of [randomUUID()]. *)
Context (sha256 : string → string) (locale_le : string → string → bool)
        (importDigest : json → string) (uuid_at : nat → string).

Notation M := (JS Store OfflineError).

Definition randomUUID : M string := λ s, (Ok (uuid_at (uuids s)), next_uuid s).

(** ** Ranges *)

Definition seedNumberingRange (range : NumberingRange) : M () :=
  modify (upd_ranges (jm_set (key (rg_tenantId range) (rg_id range)) (cloneRange range))).

Definition createNumberingRange (scope : Scope) (original : CreateNumberingRangeInput) (now : string) :
    M NumberingRange :=
  '(input, fingerprint) ← lift (rangeCreation sha256 scope original);
  let receipt_key := key (tenantId scope) <$> cri_idempotencyKey input in
  receipts ← getf rangeCreationReceipts;
  match k ← receipt_key; jm_get k receipts with
  | Some (prior, receipt) =>
      if String.eqb prior fingerprint then mret (cloneRange receipt) else throw (rangeConflict conflict_key)
  | None =>
      all ← getf (λ s, jm_values (ranges s));
      if existsb (λ r, String.eqb (rg_tenantId r) (tenantId scope)
                       && String.eqb (rg_orgUnitId r) (cri_orgUnitId input)
                       && String.eqb (rg_entityType r) (cri_entityType input)
                       && String.eqb (rg_series r) (cri_series input)) all
      then throw (rangeConflict conflict_scope) else
      match date_parse now with
      | None => throw (OfflineSyncConfigurationError "rangeTimestamp")
      | Some at_ =>
          id ← randomUUID;
          let range :=
            {| rg_id := id; rg_tenantId := tenantId scope; rg_orgUnitId := cri_orgUnitId input;
               rg_entityType := cri_entityType input; rg_series := cri_series input;
               rg_startNumber := cri_startNumber input; rg_endNumber := cri_endNumber input;
               rg_nextNumber := cri_startNumber input; rg_status := range_active;
               rg_consumerAttributes := cri_consumerAttributes input;
               rg_createdBy := Some (actorId scope); rg_createdAt := Some (to_iso at_);
               rg_updatedAt := None; rg_cancelledBy := None; rg_cancellationReason := None;
               rg_cancelledAt := None |} in
          _ ← modify (upd_ranges (jm_set (key (tenantId scope) id) (cloneRange range)));
          _ ← match receipt_key with
              | Some k => modify (upd_receipts (jm_set k (fingerprint, cloneRange range)))
              | None => mret ()
              end;
          mret (cloneRange range)
      end
  end.

Definition getNumberingRange (scope : Scope) (original : string) : M (option NumberingRange) :=
  id ← lift (rangeIdentity original);
  range ← getf (λ s, jm_get (key (tenantId scope) id) (ranges s));
  mret (cloneRange <$> range).

(** Range identifiers are lower-case UUIDs, which [localeCompare] orders by code unit. *)
Definition listNumberingRanges (scope : Scope) (original : ListNumberingRangesInput) :
    M (Page NumberingRange) :=
  input ← lift (rangeList original);
  all ← getf (λ s, jm_values (ranges s));
  let rows := js_sort (λ l r, utf16_le (rg_id l) (rg_id r)) (List.filter (λ r,
    String.eqb (rg_tenantId r) (tenantId scope)
    && omatch (rq_orgUnitId input) (rg_orgUnitId r) && omatch (rq_entityType input) (rg_entityType r)
    && omatch (rq_series input) (rg_series r)
    && match rq_status input with Some st => bool_decide (st = rg_status r) | None => true end
    && match rq_cursor input with Some c => negb (utf16_le (rg_id r) c) | None => true end) all) in
  let items := map cloneRange (slice_to (rq_limit input) rows) in
  mret (Build_Page items
    (if rq_limit input <? Z.of_nat (length rows) then rg_id <$> last items else None)).

Definition cancelNumberingRange (scope : Scope) (original : string)
    (originalInput : CancelNumberingRangeInput) (now : string) : M NumberingRange :=
  id ← lift (rangeIdentity original);
  reason ← lift (rangeCancellation originalInput);
  found ← getf (λ s, jm_get (key (tenantId scope) id) (ranges s));
  match found with
  | None => throw rangeNotFound
  | Some range =>
      match rg_status range with
      | range_cancelled => mret (cloneRange range)
      | range_exhausted => throw (rangeConflict conflict_state)
      | range_active =>
          match date_parse now with
          | None => throw (OfflineSyncConfigurationError "rangeTimestamp")
          | Some at_ =>
              let cancelled := set_cancelled scope (to_iso at_) reason range in
              _ ← modify (upd_ranges (jm_set (key (tenantId scope) id) cancelled));
              mret (cloneRange cancelled)
          end
      end
  end.

(** ** Reservations *)

Definition blocks_admission (origins : jsmap string Origin) (tenant device : string)
    (shift : option string) (now : string) (origin : Origin) (excludeId : option string)
    (p : string * Reservation) : bool :=
  let '(k, existing) := p in
  negb (bool_decide (Some (rv_reservationId existing) = excludeId))
  && String.eqb (rv_tenantId existing) tenant
  && String.eqb (rv_deviceId existing) device
  && bool_decide (reservationShiftScope (rv_shiftId existing) = reservationShiftScope shift)
  && (bool_decide (rv_status existing = reserved) || bool_decide (rv_status existing = blocked))
  && date_gt (rv_validUntil existing) now
  && (bool_decide (origin = origin_ctg9) || bool_decide (jm_get k origins = Some origin_ctg9)).

Definition assertReservationAdmission (tenant device : string) (shift : option string)
    (now : string) (origin : Origin) (excludeId : option string) : M () :=
  s ← getf id;
  throw_if (existsb (blocks_admission (reservationOrigins s) tenant device shift now origin excludeId)
              (reservations s)) activeReservationError.

Definition replayReservation (scope : Scope) (input : ReserveNumberingInput) : M (option Reservation) :=
  keys ← getf reservationKeys;
  match k ← rni_idempotencyKey input; jm_get (key (tenantId scope) k) keys with
  | None => mret None
  | Some (fingerprint, reservationId) =>
      _ ← throw_if (negb (String.eqb fingerprint (reservationFingerprint sha256 locale_le scope input)))
            OfflineSyncReservationReplayError;
      getf (λ s, jm_get (key (tenantId scope) reservationId) (reservations s))
  end.

(** The test of [find] that selects the range of a request. *)
Definition range_matches (scope : Scope) (input : ReserveNumberingInput) (candidate : NumberingRange) : bool :=
  String.eqb (rg_tenantId candidate) (tenantId scope) &&
  match truthy (rni_rangeId input) with
  | Some id => String.eqb (rg_id candidate) id
  | None =>
      String.eqb (rg_orgUnitId candidate) (rni_orgUnitId input)
      && String.eqb (rg_entityType candidate) (rni_entityType input)
      && match truthy (rni_series input) with
         | Some series => String.eqb (rg_series candidate) series
         | None => negb (bool_decide (rg_status candidate = range_cancelled))
         end
  end.

Definition allocateReservation (scope : Scope) (input : ReserveNumberingInput)
    (now defaultValidUntil : string) (origin : Origin) : M Reservation :=
  replay ← replayReservation scope input;
  match replay with
  | Some r => mret r
  | None =>
      _ ← throw_if (bool_decide (origin = origin_e6) && bool_decide (rni_shiftId input = None))
            (OfflineSyncError INVALID_INPUT 400 "shiftId is required.");
      _ ← assertReservationAdmission (tenantId scope) (rni_deviceId input) (rni_shiftId input) now origin None;
      let replayKey := key (tenantId scope) <$> rni_idempotencyKey input in
      let fingerprint := reservationFingerprint sha256 locale_le scope input in
      all ← getf (λ s, jm_values (ranges s));
      match List.find (range_matches scope input) all with
      | None => throw (OfflineSyncError RANGE_NOT_FOUND 404
          "No tenant-scoped numbering range matches this entity and organizational unit.")
      | Some range =>
          _ ← throw_if (negb (bool_decide (rg_status range = range_active))
                        || negb (String.eqb (rg_orgUnitId range) (rni_orgUnitId input))
                        || negb (String.eqb (rg_entityType range) (rni_entityType input)))
                (OfflineSyncRangeUnavailableError (rangeUnavailableReason range input)
                   "The selected numbering range is not active for this entity and organizational unit.");
          let endNumber := rg_nextNumber range + rni_requestedSize input - 1 in
          _ ← throw_if (rg_endNumber range <? endNumber)
                (OfflineSyncRangeUnavailableError reason_insufficient_capacity
                   "The selected numbering range has insufficient capacity.");
          _ ← modify (upd_ranges (jm_set (key (tenantId scope) (rg_id range))
                (set_rg_progress (endNumber + 1)
                   (if endNumber =? rg_endNumber range then range_exhausted else range_active) range)));
          id ← randomUUID;
          let reservation :=
            {| rv_reservationId := id; rv_rangeId := rg_id range; rv_tenantId := tenantId scope;
               rv_orgUnitId := rni_orgUnitId input; rv_entityType := rni_entityType input;
               rv_series := rg_series range; rv_agentId := scope_agent scope;
               rv_deviceId := rni_deviceId input; rv_shiftId := rni_shiftId input;
               rv_startNumber := rg_nextNumber range; rv_endNumber := endNumber;
               rv_nextNumber := rg_nextNumber range;
               rv_validUntil := default defaultValidUntil (rni_validUntil input);
               rv_status := reserved |} in
          _ ← modify (upd_reservations (jm_set (key (tenantId scope) id) reservation));
          _ ← modify (upd_origins (jm_set (key (tenantId scope) id) origin));
          _ ← match replayKey with
              | Some k => modify (upd_keys (jm_set k (fingerprint, id)))
              | None => mret ()
              end;
          _ ← modify (upd_consumption (jm_set (key (tenantId scope) id)
                (fresh_entries (rv_startNumber reservation) (rv_endNumber reservation))));
          mret reservation
      end
  end.

Definition reserveNumbering (scope : Scope) (input : ReserveNumberingInput)
    (now defaultValidUntil : string) : M Reservation :=
  r ← allocateReservation scope input now defaultValidUntil origin_e6;
  lift (legacyReservation r).

Definition reserveDurableNumbering (scope : Scope) (input : ReserveNumberingInput)
    (now defaultValidUntil : string) : M Reservation :=
  allocateReservation scope input now defaultValidUntil origin_ctg9.

Definition replayNumberingReservation (scope : Scope) (input : ReserveNumberingInput) :
    M (option Reservation) :=
  prior ← replayReservation scope input;
  match prior with
  | Some r => r' ← lift (legacyReservation r); mret (Some r')
  | None => mret None
  end.

Definition replayDurableNumberingReservation := replayReservation.

Definition cancelReservation (scope : Scope) (reservationId : string) (durable : bool) : M Reservation :=
  let k := key (tenantId scope) reservationId in
  found ← getf (λ s, jm_get k (reservations s));
  match found with
  | None => throw (OfflineSyncError RESERVATION_NOT_FOUND 404
      ("Numbering reservation " +:+ reservationId +:+ " was not found."))
  | Some reservation =>
      _ ← lift (if durable then Ok reservation else legacyReservation reservation);
      if bool_decide (rv_status reservation = cancelled) && (durable || sc_ctg9 scope)
      then mret reservation else
      _ ← throw_if (negb (bool_decide (rv_status reservation = reserved)))
            (OfflineSyncError RESERVATION_STATE 409
               ("Numbering reservation " +:+ reservationId +:+ " is "
                +:+ status_name (rv_status reservation) +:+ "; expected reserved."));
      let cancelled_ := set_rv_status cancelled reservation in
      _ ← modify (upd_reservations (jm_set k cancelled_));
      _ ← if durable || sc_ctg9 scope then
            let rangeKey := key (tenantId scope) (rv_rangeId reservation) in
            range ← getf (λ s, jm_get rangeKey (ranges s));
            entries ← getf (λ s, jm_get k (consumption s));
            match entries with
            | None => throw TypeError
            | Some entries =>
                let highestApplied := highest_applied (rv_startNumber reservation) entries in
                _ ← match range with
                    | Some r =>
                        if (rg_nextNumber r =? rv_endNumber reservation + 1)
                           && negb (bool_decide (rg_status r = range_cancelled))
                        then modify (upd_ranges (jm_set rangeKey
                               (set_rg_progress (highestApplied + 1) range_active r)))
                        else mret ()
                    | None => mret ()
                    end;
                modify (upd_consumption (jm_set k (move_available entry_expired entries)))
            end
          else mret ();
      mret cancelled_
  end.

Definition cancelNumberingReservation (scope : Scope) (id : string) : M Reservation :=
  r ← cancelReservation scope id false; lift (legacyReservation r).
Definition cancelDurableNumberingReservation (scope : Scope) (id : string) : M Reservation :=
  cancelReservation scope id true.

(** [status] is [blocked] or [consumed]. *)
Definition transitionReservation (scope : Scope) (id : string) (status : ReservationStatus)
    (now : string) : M Reservation :=
  let k := key (tenantId scope) id in
  found ← getf (λ s, jm_get k (reservations s));
  match found with
  | None => throw reservation_not_found
  | Some current =>
      if bool_decide (rv_status current = status) then mret current else
      _ ← throw_if (negb (bool_decide (rv_status current = reserved)
                          || bool_decide (rv_status current = expired)))
            (OfflineSyncError RESERVATION_STATE 409 "Reservation cannot transition from its current state.");
      _ ← if bool_decide (status = blocked) && date_gt (rv_validUntil current) now then
            origin ← getf (λ s, jm_get k (reservationOrigins s));
            assertReservationAdmission (tenantId scope) (rv_deviceId current) (rv_shiftId current)
              now (default origin_e6 origin) (Some id)
          else mret ();
      let changed := set_rv_status status current in
      _ ← modify (upd_reservations (jm_set k changed));
      entries ← getf (λ s, jm_get k (consumption s));
      match entries with
      | None => throw TypeError
      | Some entries =>
          _ ← modify (upd_consumption (jm_set k
                (move_available (if bool_decide (status = blocked) then entry_blocked else entry_expired)
                   entries)));
          mret changed
      end
  end.

Definition blockNumberingReservation scope id now := transitionReservation scope id blocked now.
Definition closeNumberingReservation scope id now := transitionReservation scope id consumed now.
Definition settleNumberingReservation scope id now := transitionReservation scope id consumed now.

(** ** Reconciliation and reads *)

Definition claim_entry (n : Z) (entries : Consumption) : Consumption :=
  match jm_get n entries with
  | Some e => if bool_decide (ce_status e = entry_available)
              then jm_set n (set_ce_status entry_claimed e) entries else entries
  | None => entries
  end.

Definition same_reconciliation (scope : Scope) (id k : string)
    (p : string * ReconciliationRecord) : bool :=
  String.eqb (rec_tenantId p.2) (tenantId scope) && String.eqb (rec_reservationId p.2) id
  && bool_decide (rec_idempotencyKey p.2 = Some k).

Definition reconcileNumberingReservation (scope : Scope) (id : string) (input : ReconcileInput)
    (now : string) : M ReconcileResult :=
  observedAt ← lift (consumptionReadInstant now);
  '(claimedNumbers, fingerprint) ← lift (reconciliationRequest importDigest scope input);
  let k := key (tenantId scope) id in
  found ← getf (λ s, jm_get k (reservations s));
  stored ← getf (λ s, jm_get k (consumption s));
  match found, stored with
  | Some reservation, Some entries =>
      all ← getf (λ s, jm_values (reconciliations s));
      match ik ← rci_idempotencyKey input; List.find (same_reconciliation scope id ik) all with
      | Some (prior, record) =>
          _ ← throw_if (negb (String.eqb prior fingerprint)) reconciliationConflict;
          mret (rec_result record)
      | None =>
          _ ← throw_if (negb (forallb (λ n, jm_has n entries) claimedNumbers))
                (OfflineSyncError INVALID_INPUT 400 "Claimed number is outside the reservation.");
          let entries' :=
            if bool_decide (rv_status reservation = reserved)
            then fold_left (λ es n, claim_entry n es) claimedNumbers entries else entries in
          _ ← modify (upd_consumption (jm_set k entries'));
          reconciliationId ← randomUUID;
          projected ← lift (projectNumberingConsumption (rv_status reservation)
                              (rv_validUntil reservation) (jm_values entries') observedAt);
          let result := reconciliationResult
            {| cr_reservationId := id; cr_status := rv_status reservation; cr_consumption := projected |}
            claimedNumbers reconciliationId in
          let record :=
            {| rec_reconciliationId := reconciliationId; rec_tenantId := tenantId scope;
               rec_reservationId := id; rec_actorId := actorId scope; rec_createdAt := now;
               rec_claimedNumbers := claimedNumbers; rec_userRef := rci_userRef input;
               rec_idempotencyKey := rci_idempotencyKey input; rec_result := result |} in
          _ ← modify (upd_reconciliations
                (jm_set (key (tenantId scope) reconciliationId) (fingerprint, record)));
          mret result
      end
  | _, _ => throw reservation_not_found
  end.

Fixpoint map_result {A B} (f : A → result B) (l : list A) : result (list B) :=
  match l with
  | [] => Ok []
  | x :: l' => y ← f x; ys ← map_result f l'; Ok (y :: ys)
  end.

Definition listNumberingReconciliations (scope : Scope) (input : ListReconciliationsInput) :
    M (Page ReconciliationRecord) :=
  limit ← lift (reconciliationList input);
  all ← getf (λ s, jm_values (reconciliations s));
  rows ← lift (map_result
    (λ p, at_ ← reconciliationSortInstant (rec_createdAt p.2);
          Ok (Build_Row [at_; rec_reconciliationId p.2] p.2))
    (List.filter (λ p, String.eqb (rec_tenantId p.2) (tenantId scope)
                       && String.eqb (rec_reservationId p.2) (lci_reservationId input)) all));
  lift (pageOf rows 2 (lci_cursor input) (Some limit)).

(** [clock] is [Date.now()], read when [now] is left out. *)
Definition getNumberingConsumption (scope : Scope) (id : string) (now : option string) (clock : Z) :
    M ConsumptionResult :=
  observedAt ← lift (consumptionReadInstant (default (to_iso clock) now));
  let k := key (tenantId scope) id in
  found ← getf (λ s, jm_get k (reservations s));
  match found with
  | None => throw reservation_not_found
  | Some reservation =>
      entries ← getf (λ s, jm_get k (consumption s));
      match entries with
      | None => throw TypeError
      | Some entries =>
          projected ← lift (projectNumberingConsumption (rv_status reservation)
                              (rv_validUntil reservation) (jm_values entries) observedAt);
          mret {| cr_reservationId := id; cr_status := rv_status reservation;
                  cr_consumption := projected |}
      end
  end.

(** ** Numbers of submitted items *)

(** The members of an item and of its batch that numbering reads. *)
Record NumberedItem := {
  ni_deviceId : string;
  ni_orgUnitId : string;
  ni_entityType : string;
  ni_reservationId : option string;
  ni_reservedNumber : option Z;
  ni_createdLocallyAt : string }.

Definition entry_status (s : Store) (k : string) (n : Z) : option EntryStatus :=
  entries ← jm_get k (consumption s); e ← jm_get n entries; Some (ce_status e).

Definition covers (s : Store) (scope : Scope) (item : NumberedItem) (n : Z)
    (p : string * Reservation) : bool :=
  let '(k, r) := p in
  starts_with (tenantId scope +:+ ":") k
  && String.eqb (rv_deviceId r) (ni_deviceId item)
  && String.eqb (rv_orgUnitId r) (ni_orgUnitId item)
  && String.eqb (rv_entityType r) (ni_entityType item)
  && (rv_startNumber r <=? n) && (n <=? rv_endNumber r)
  && match truthy (ni_reservationId item) with Some id => String.eqb (rv_reservationId r) id | None => true end
  && (negb (bool_decide (rv_status r = cancelled))
      || bool_decide (entry_status s k n = Some entry_applied)
      || bool_decide (entry_status s k n = Some entry_claimed)).

(** [Date.parse(a) < Date.parse(b)] *)
Definition date_lt (a b : string) : bool := date_gt b a.

(** The coverage check of [processItem]: the key of the covering reservation. *)
Definition coverReserved (scope : Scope) (item : NumberedItem) : M (option string) :=
  s ← getf id;
  match ni_reservedNumber item with
  | None => mret None
  | Some n =>
      match List.filter (covers s scope item n) (reservations s) with
      | [] => throw (OfflineSyncNumberingOutcome NUMBERING_NO_COVERAGE n (ni_reservationId item))
      | [(k, r)] =>
          _ ← throw_if (bool_decide (entry_status s k n = Some entry_applied))
                (OfflineSyncNumberingOutcome NUMBERING_ALREADY_APPLIED n (Some (rv_reservationId r)));
          _ ← throw_if (negb (bool_decide (rv_status r = reserved))
                        || date_lt (rv_validUntil r) (ni_createdLocallyAt item))
                (OfflineSyncNumberingOutcome NUMBERING_EXPIRED n (Some (rv_reservationId r)));
          mret (Some k)
      | _ :: _ :: _ => throw (OfflineSyncNumberingOutcome NUMBERING_AMBIGUOUS n None)
      end
  end.

(** The finalisation of [processItem] once the applier has returned [serverEntityId] and
    the item is applied or in conflict. *)
Definition finalizeReserved (coveringKey : option string) (item : NumberedItem)
    (serverEntityId now : string) : M () :=
  match coveringKey, ni_reservedNumber item with
  | Some k, Some n =>
      stored ← getf (λ s, jm_get k (consumption s));
      match stored with
      | None => throw TypeError
      | Some entries =>
          match jm_get n entries with
          | None => throw TypeError
          | Some e =>
              modify (upd_consumption (jm_set k (jm_set n
                {| ce_number := ce_number e; ce_status := entry_applied;
                   ce_serverEntityId := Some serverEntityId; ce_finalizedAt := Some now |} entries)))
          end
      end
  | _, _ => mret ()
  end.

(** An item whose applier ran with no other operation in between. *)
Definition applyReserved (scope : Scope) (item : NumberedItem) (serverEntityId now : string) : M () :=
  k ← coverReserved scope item; finalizeReserved k item serverEntityId now.
End numbering.
