(* ===== verification/NumberingInv.v ===== *)
(** * NumberingInv: the invariant of the numbering store, and its operations.

    A number belongs to the reservation that covers it until a durable cancellation gives
    it back. The invariant says that the numbers of the reservations of one range are
    disjoint and below the range's next number; every operation preserves it. *)
From S2P Require Import Prelude JsMap JsText JsDate JsJson OfflineTypes Listing JsCursor RangeAdmin Numbering.
From Stdlib Require Import Ascii.
Local Open Scope Z_scope.

Definition colon : ascii := ":"%char.
(** A tenant identifier that [key] keeps apart from every other. *)
Definition tenant_ok (tenant : string) : Prop := has_char colon tenant = false.

Lemma key_inj t i t' i' : tenant_ok t → tenant_ok t' → key t i = key t' i' → t = t' ∧ i = i'.
Proof. unfold key, tenant_ok. intros Ht Ht' H. by apply (append_char_inj colon). Qed.

(** ** Ownership *)

Definition owned (v : Reservation) (es : Consumption) (n : Z) : Prop :=
  rv_startNumber v ≤ n ≤ rv_endNumber v ∧
  (rv_status v = cancelled → ∃ e, jm_get n es = Some e ∧ ce_status e ≠ entry_expired).

(** The entries of a reservation: one per number, in order. *)
Definition entries_ok (v : Reservation) (es : Consumption) : Prop :=
  jm_keys es = seqZ (rv_startNumber v) (rv_endNumber v - rv_startNumber v + 1) ∧
  (∀ n e, jm_get n es = Some e → ce_number e = n) ∧
  (rv_status v = reserved → ∀ n e, jm_get n es = Some e →
     ce_status e = entry_available ∨ ce_status e = entry_claimed ∨ ce_status e = entry_applied).

Section inv.
Context (uuid_at : nat → string).

Record reservation_ok (s : Store) (k : string) (v : Reservation) (rg : NumberingRange)
    (es : Consumption) : Prop := {
  ro_key : k = key (rv_tenantId v) (rv_reservationId v);
  ro_tenant : tenant_ok (rv_tenantId v);
  ro_id : ∃ i, (i < uuids s)%nat ∧ rv_reservationId v = uuid_at i;
  ro_range : jm_get (key (rv_tenantId v) (rv_rangeId v)) (ranges s) = Some rg;
  ro_consumption : jm_get k (consumption s) = Some es;
  ro_entries : entries_ok v es;
  ro_start : rg_startNumber rg ≤ rv_startNumber v;
  ro_end : rv_startNumber v - 1 ≤ rv_endNumber v ≤ rg_endNumber rg;
  ro_next : ∀ n, owned v es n → n < rg_nextNumber rg }.

Record range_ok (s : Store) (k : string) (r : NumberingRange) : Prop := {
  rgo_key : k = key (rg_tenantId r) (rg_id r);
  rgo_tenant : tenant_ok (rg_tenantId r);
  rgo_id : ∀ j, (uuids s ≤ j)%nat → rg_id r ≠ uuid_at j;
  rgo_bounds : rg_startNumber r ≤ rg_nextNumber r ≤ rg_endNumber r + 1 }.

Record inv (s : Store) : Prop := {
  inv_ranges_wf : jm_wf (ranges s);
  inv_reservations_wf : jm_wf (reservations s);
  inv_ranges : ∀ k r, jm_get k (ranges s) = Some r → range_ok s k r;
  inv_reservations : ∀ k v, jm_get k (reservations s) = Some v → ∃ rg es, reservation_ok s k v rg es;
  inv_disjoint : ∀ k1 k2 v1 v2 es1 es2 n,
    k1 ≠ k2 → jm_get k1 (reservations s) = Some v1 → jm_get k2 (reservations s) = Some v2 →
    jm_get k1 (consumption s) = Some es1 → jm_get k2 (consumption s) = Some es2 →
    rv_tenantId v1 = rv_tenantId v2 → rv_rangeId v1 = rv_rangeId v2 →
    owned v1 es1 n → owned v2 es2 n → False }.

Lemma inv_empty : inv empty_store.
Proof. split; try done; apply jm_wf_nil. Qed.

Lemma inv_reservation s k v es :
  inv s → jm_get k (reservations s) = Some v → jm_get k (consumption s) = Some es →
  ∃ rg, reservation_ok s k v rg es.
Proof.
  intros Hi Hv Hes. destruct (inv_reservations _ Hi _ _ Hv) as (rg & es' & Hok).
  assert (es' = es) as -> by (pose proof (ro_consumption _ _ _ _ _ Hok); congruence). eauto.
Qed.

(** Fields outside the invariant. *)
Lemma inv_frame s s' :
  ranges s' = ranges s → reservations s' = reservations s → consumption s' = consumption s →
  (uuids s ≤ uuids s')%nat → inv s → inv s'.
Proof.
  intros H1 H2 H3 H4 [Hrw Hvw Hr Hv Hd]. split; rewrite ?H1, ?H2, ?H3; try done.
  - intros k r Hk. destruct (Hr k r Hk). split; eauto. intros j ?. apply rgo_id0. lia.
  - intros k v Hk. destruct (Hv k v Hk) as (rg & es & []). exists rg, es. split; rewrite ?H1, ?H3; try done.
    destruct ro_id0 as (i & ? & ?). exists i. split; [lia|done].
Qed.

(** A range is created, seeded or changed without a change of its progress. *)
Lemma inv_set_range s s' r :
  inv s →
  tenant_ok (rg_tenantId r) → rg_startNumber r ≤ rg_nextNumber r ≤ rg_endNumber r + 1 →
  (∀ j, (uuids s' ≤ j)%nat → rg_id r ≠ uuid_at j) →
  (∀ old, jm_get (key (rg_tenantId r) (rg_id r)) (ranges s) = Some old →
     rg_startNumber r ≤ rg_startNumber old ∧ rg_endNumber old ≤ rg_endNumber r ∧
     rg_nextNumber old ≤ rg_nextNumber r) →
  ranges s' = jm_set (key (rg_tenantId r) (rg_id r)) r (ranges s) →
  reservations s' = reservations s → consumption s' = consumption s →
  (uuids s ≤ uuids s')%nat → inv s'.
Proof.
  intros [Hrw Hvw Hr Hv Hd] Ht Hb Hfresh Hold H1 H2 H3 H4. split; rewrite ?H1, ?H2, ?H3; try done.
  - by apply jm_wf_set.
  - intros k r'. rewrite jm_get_set. case_decide; intros; simplify_eq; [by split|].
    destruct (Hr k r' ltac:(done)). split; try done. intros. apply rgo_id0. lia.
  - intros k v Hk. destruct (Hv k v Hk) as (rg & es & []).
    destruct (decide (key (rv_tenantId v) (rv_rangeId v) = key (rg_tenantId r) (rg_id r))) as [He|He].
    + rewrite He in ro_range0. destruct (Hold _ ro_range0) as (? & ? & ?).
      exists r, es. split; rewrite ?H1, ?H3; try done.
      * destruct ro_id0 as (i & ? & ?). exists i. split; [lia|done].
      * by rewrite He, jm_get_set_eq.
      * lia.
      * lia.
      * intros n Hn. specialize (ro_next0 n Hn). lia.
    + exists rg, es. split; rewrite ?H1, ?H3; try done.
      * destruct ro_id0 as (i & ? & ?). exists i. split; [lia|done].
      * by rewrite jm_get_set_ne.
Qed.

(** One reservation moves on: its status, its entries and the progress of its range. *)
Definition same_reservation (v v' : Reservation) : Prop :=
  rv_reservationId v' = rv_reservationId v ∧ rv_rangeId v' = rv_rangeId v ∧
  rv_tenantId v' = rv_tenantId v ∧ rv_startNumber v' = rv_startNumber v ∧
  rv_endNumber v' = rv_endNumber v.

Lemma inv_update_reservation s s' k v v' es es' rg next st :
  inv s → reservation_ok s k v rg es → jm_get k (reservations s) = Some v →
  same_reservation v v' → entries_ok v' es' →
  (∀ n, owned v' es' n → owned v es n ∧ n < next) →
  (∀ k2 v2 es2 n, k2 ≠ k → jm_get k2 (reservations s) = Some v2 →
     jm_get k2 (consumption s) = Some es2 → rv_tenantId v2 = rv_tenantId v →
     rv_rangeId v2 = rv_rangeId v → owned v2 es2 n → n < next) →
  rg_startNumber rg ≤ next ≤ rg_endNumber rg + 1 →
  ranges s' = jm_set (key (rv_tenantId v) (rv_rangeId v)) (set_rg_progress next st rg) (ranges s) →
  reservations s' = jm_set k v' (reservations s) → consumption s' = jm_set k es' (consumption s) →
  (uuids s ≤ uuids s')%nat → inv s'.
Proof.
  intros Hi Hok Hget (Hs1 & Hs2 & Hs3 & Hs4 & Hs5) Hent Hown Hothers Hb H1 H2 H3 H4.
  destruct Hi as [Hrw Hvw Hr Hv Hd]. destruct Hok. destruct (Hr _ _ ro_range0).
  split; rewrite ?H1, ?H2, ?H3; try by apply jm_wf_set.
  - intros k' r'. rewrite jm_get_set. case_decide; intros; simplify_eq.
    + split; try done. intros. apply rgo_id0. lia.
    + destruct (Hr k' r' ltac:(done)). split; try done. intros. apply rgo_id1. lia.
  - intros k' v0. rewrite jm_get_set. case_decide as Hk; [subst k'; intros [= <-]|intros Hv0].
    + exists (set_rg_progress next st rg), es'.
      split; rewrite ?H1, ?H3, ?Hs1, ?Hs2, ?Hs3, ?Hs4, ?Hs5; try done.
      * destruct ro_id0 as (i & ? & ?). exists i. split; [lia|done].
      * by rewrite jm_get_set_eq.
      * by rewrite jm_get_set_eq.
      * intros n Hn. by apply Hown.
    + destruct (Hv k' v0 Hv0) as (rg0 & es0 & []).
      assert (jm_get k' (jm_set k es' (consumption s)) = Some es0) by by rewrite jm_get_set_ne.
      destruct ro_id1 as (i & ? & ?).
      destruct (decide (key (rv_tenantId v0) (rv_rangeId v0) = key (rv_tenantId v) (rv_rangeId v))) as [He|He].
      * assert (rg0 = rg) as -> by (rewrite He in ro_range1; congruence).
        exists (set_rg_progress next st rg), es0. split; rewrite ?H1, ?H3; try done.
        -- exists i. split; [lia|done].
        -- by rewrite He, jm_get_set_eq.
        -- intros n Hn. apply key_inj in He as [? ?]; [|done..]. by eapply Hothers.
      * exists rg0, es0. split; rewrite ?H1, ?H3; try done.
        -- exists i. split; [lia|done].
        -- by rewrite jm_get_set_ne.
  - intros k1 k2 v1 v2 es1 es2 n Hne. rewrite !jm_get_set. clear ro_key0.
    destruct (decide (k1 = k)) as [->|Hk1], (decide (k2 = k)) as [->|Hk2]; [done| | |by apply Hd].
    + intros [= <-] Hv2 [= <-] Hes2 Ht2 Hr2 [Ho1 _]%Hown Ho2.
      apply (Hd k k2 v v2 es es2 n); congruence.
    + intros Hv1 [= <-] Hes1 [= <-] Ht1 Hr1 Ho1 [Ho2 _]%Hown.
      apply (Hd k1 k v1 v es1 es n); congruence.
Qed.

(** A reservation takes the next numbers of its range. *)
Lemma inv_add_reservation s s' k v rg st :
  inv s → (∀ i j, uuid_at i = uuid_at j → i = j) →
  tenant_ok (rv_tenantId v) → k = key (rv_tenantId v) (rv_reservationId v) →
  rv_reservationId v = uuid_at (uuids s) → rv_status v = reserved →
  jm_get (key (rv_tenantId v) (rv_rangeId v)) (ranges s) = Some rg →
  rv_startNumber v = rg_nextNumber rg → rv_startNumber v - 1 ≤ rv_endNumber v ≤ rg_endNumber rg →
  ranges s' = jm_set (key (rv_tenantId v) (rv_rangeId v)) (set_rg_progress (rv_endNumber v + 1) st rg) (ranges s) →
  reservations s' = jm_set k v (reservations s) →
  consumption s' = jm_set k (fresh_entries (rv_startNumber v) (rv_endNumber v)) (consumption s) →
  uuids s' = S (uuids s) → inv s'.
Proof.
  intros [Hrw Hvw Hr Hv Hd] Hinj Ht Hk Hid Hst Hrange Hstart Hend H1 H2 H3 H4.
  destruct (Hr _ _ Hrange).
  assert (∀ k' v', jm_get k' (reservations s) = Some v' → k' ≠ k) as Hnew.
  { intros k' v' Hv' ->. destruct (Hv _ _ Hv') as (rg' & es' & []). destruct ro_id0 as (i & ? & ?).
    rewrite Hk in ro_key0. apply key_inj in ro_key0 as [_ He]; [|done..].
    assert (uuids s = i) by (apply Hinj; congruence). lia. }
  split; rewrite ?H1, ?H2, ?H3; try by apply jm_wf_set.
  - intros k' r'. rewrite jm_get_set. case_decide; intros; simplify_eq.
    + split; simpl; try done; [|lia]. intros. apply rgo_id0. lia.
    + destruct (Hr k' r' ltac:(done)). split; try done. intros. apply rgo_id1. lia.
  - intros k' v0. rewrite jm_get_set. case_decide as Hk'; [subst k'; intros [= <-]|intros Hv0].
    + exists (set_rg_progress (rv_endNumber v + 1) st rg), (fresh_entries (rv_startNumber v) (rv_endNumber v)).
      split; rewrite ?H1, ?H3; simpl; try done; try lia.
      * exists (uuids s). split; [lia|done].
      * by rewrite jm_get_set_eq.
      * by rewrite jm_get_set_eq.
      * split_and!.
        -- unfold fresh_entries, jm_keys. rewrite <- list_fmap_compose. apply list_fmap_id.
        -- intros n e He%jm_get_elem. unfold fresh_entries in He.
           apply list_elem_of_fmap in He as (? & ? & _). by simplify_eq.
        -- intros _ n e He%jm_get_elem. unfold fresh_entries in He.
           apply list_elem_of_fmap in He as (? & ? & _). simplify_eq. by left.
      * intros n [? _]. lia.
    + destruct (Hv k' v0 Hv0) as (rg0 & es0 & []). destruct ro_id0 as (i & ? & ?).
      assert (jm_get k' (jm_set k (fresh_entries (rv_startNumber v) (rv_endNumber v)) (consumption s)) = Some es0)
        by by rewrite jm_get_set_ne.
      destruct (decide (key (rv_tenantId v0) (rv_rangeId v0) = key (rv_tenantId v) (rv_rangeId v))) as [He|He].
      * assert (rg0 = rg) as -> by (rewrite He in ro_range0; congruence).
        exists (set_rg_progress (rv_endNumber v + 1) st rg), es0.
        split; rewrite ?H1, ?H3; simpl; try done.
        -- exists i. split; [lia|done].
        -- by rewrite He, jm_get_set_eq.
        -- intros n Hn. specialize (ro_next0 n Hn). lia.
      * exists rg0, es0. split; rewrite ?H1, ?H3; try done.
        -- exists i. split; [lia|done].
        -- by rewrite jm_get_set_ne.
  - intros k1 k2 v1 v2 es1 es2 n Hne. rewrite !jm_get_set. clear Hk.
    assert (∀ k0 v0 es0, jm_get k0 (reservations s) = Some v0 → jm_get k0 (consumption s) = Some es0 →
              rv_tenantId v0 = rv_tenantId v → rv_rangeId v0 = rv_rangeId v →
              owned v0 es0 n → rv_startNumber v ≤ n → False) as Hbelow.
    { intros k0 v0 es0 Hv0 Hes0 Ht0 Hr0 Ho Hn. destruct (Hv _ _ Hv0) as (rg0 & es0' & []).
      assert (es0' = es0) as -> by congruence.
      assert (rg0 = rg) as -> by (rewrite Ht0, Hr0 in ro_range0; congruence).
      specialize (ro_next0 n Ho). lia. }
    destruct (decide (k1 = k)) as [->|Hk1], (decide (k2 = k)) as [->|Hk2]; [done| | |by apply Hd].
    + intros [= <-] Hv2 [= <-] Hes2 Ht2 Hr2 [Ho1 _] Ho2.
      apply (Hbelow k2 v2 es2); [done..|lia].
    + intros Hv1 [= <-] Hes1 [= <-] Ht1 Hr1 Ho1 [Ho2 _].
      apply (Hbelow k1 v1 es1); [done..|lia].
Qed.
End inv.

(** ** Entries under the updates of the operations *)

Lemma jm_get_move_available st n es :
  jm_get n (move_available st es) =
  (λ e, if bool_decide (ce_status e = entry_available) then set_ce_status st e else e) <$> jm_get n es.
Proof.
  unfold move_available. rewrite jm_get_map by (intros [? ?]; simpl; by case_match).
  destruct (jm_get n es); simpl; [|done]. by case_match.
Qed.

Lemma jm_keys_move_available st es : jm_keys (move_available st es) = jm_keys es.
Proof. unfold move_available. apply jm_keys_map. intros [? ?]; simpl. by case_match. Qed.

Lemma entries_ok_move v v' st es :
  entries_ok v es → rv_startNumber v' = rv_startNumber v → rv_endNumber v' = rv_endNumber v →
  rv_status v' ≠ reserved → entries_ok v' (move_available st es).
Proof.
  intros (Hk & Hn & _) Hs He Hst. split_and!.
  - by rewrite jm_keys_move_available, Hs, He.
  - intros n e. rewrite jm_get_move_available. intros (e0 & He0 & ->)%fmap_Some_1.
    rewrite <- (Hn n e0 He0). by case_match.
  - done.
Qed.

Lemma entries_ok_set v es n e e' :
  entries_ok v es → jm_get n es = Some e → ce_number e' = ce_number e →
  (rv_status v = reserved → ce_status e' = entry_available ∨ ce_status e' = entry_claimed ∨ ce_status e' = entry_applied) →
  entries_ok v (jm_set n e' es).
Proof.
  intros (Hk & Hn & Hr) He Hnum Hst. split_and!.
  - by rewrite jm_keys_set_present.
  - intros n0 e0. rewrite jm_get_set. case_decide; intros; simplify_eq; [|by apply Hn].
    rewrite Hnum. by apply Hn.
  - intros Hv n0 e0. rewrite jm_get_set. case_decide; intros; simplify_eq; [by apply Hst|by eapply Hr].
Qed.

Lemma entries_ok_range v es n :
  entries_ok v es → is_Some (jm_get n es) ↔ rv_startNumber v ≤ n ≤ rv_endNumber v.
Proof. intros (Hk & _ & _). rewrite jm_get_is_Some, Hk, elem_of_seqZ. lia. Qed.

Lemma claim_entry_get n m es :
  jm_get n (claim_entry m es) =
  (λ e, if bool_decide (n = m) && bool_decide (ce_status e = entry_available)
        then set_ce_status entry_claimed e else e) <$> jm_get n es.
Proof.
  unfold claim_entry. destruct (decide (n = m)) as [->|Hne].
  - rewrite (bool_decide_true (m = m)) by done. destruct (jm_get m es) as [e|] eqn:He; simpl; [|by rewrite He].
    case_match eqn:Hb; [by rewrite jm_get_set_eq|by rewrite He].
  - rewrite (bool_decide_false (n = m)) by done. simpl.
    transitivity (jm_get n es); [|by destruct (jm_get n es)].
    repeat case_match; rewrite ?jm_get_set_ne by done; done.
Qed.

Lemma claim_entries_ok v es l :
  rv_status v = reserved → entries_ok v es → entries_ok v (fold_left (λ es n, claim_entry n es) l es).
Proof.
  intros Hst. revert es. induction l as [|n l IH]; intros es Hok; simpl; [done|]. apply IH.
  unfold claim_entry. destruct (jm_get n es) as [e|] eqn:He; [|done].
  case_match; [|done]. apply (entries_ok_set _ _ _ e); simpl; auto.
Qed.

Lemma claim_entries_expired n l es e :
  jm_get n (fold_left (λ es n, claim_entry n es) l es) = Some e →
  ∃ e0, jm_get n es = Some e0 ∧ (ce_status e ≠ entry_expired → ce_status e0 ≠ entry_expired).
Proof.
  revert es. induction l as [|m l IH]; intros es; simpl; [eauto|].
  intros (e1 & He1 & H1)%IH. rewrite claim_entry_get in He1. apply fmap_Some_1 in He1 as (e0 & He0 & ->).
  exists e0. split; [done|]. intros He. specialize (H1 He).
  case_match eqn:Hb; [|done]. apply andb_true_iff in Hb as [_ Hb%bool_decide_eq_true]. congruence.
Qed.

Lemma highest_applied_ge start es : start - 1 ≤ highest_applied start es.
Proof. unfold highest_applied. induction (map _ _); simpl; lia. Qed.

Lemma highest_applied_bound start es m :
  start - 1 ≤ m → (∀ e, e ∈ jm_values es → held_on_return e = true → ce_number e ≤ m) →
  highest_applied start es ≤ m.
Proof.
  intros Hs He. unfold highest_applied.
  assert (∀ x, x ∈ map ce_number (List.filter held_on_return (jm_values es)) → x ≤ m) as Hx.
  { intros x (e & -> & Hin)%list_elem_of_fmap. apply list_elem_of_In, filter_In in Hin as [Hin Hh].
    apply He; [by apply list_elem_of_In|done]. }
  induction (map _ _) as [|x l IH]; simpl; [done|].
  assert (x ≤ m) by (apply Hx; by left). assert (foldr Z.max (start - 1) l ≤ m); [|lia].
  apply IH. intros. apply Hx. by right.
Qed.

Lemma highest_applied_elem start es e :
  e ∈ jm_values es → held_on_return e = true → ce_number e ≤ highest_applied start es.
Proof.
  intros Hin Hh. unfold highest_applied.
  assert (ce_number e ∈ map ce_number (List.filter held_on_return (jm_values es))) as Hx.
  { apply list_elem_of_fmap_2. apply list_elem_of_In, filter_In. split; [by apply list_elem_of_In|done]. }
  induction (map _ _) as [|x l IH]; simpl; [set_solver|].
  apply elem_of_cons in Hx as [->|Hx]; [lia|]. specialize (IH Hx). lia.
Qed.

Lemma highest_applied_in start es :
  start ≤ highest_applied start es →
  ∃ e, e ∈ jm_values es ∧ held_on_return e = true ∧ ce_number e = highest_applied start es.
Proof.
  unfold highest_applied. intros Hle.
  assert (∀ x, x ∈ map ce_number (List.filter held_on_return (jm_values es)) →
    ∃ e, e ∈ jm_values es ∧ held_on_return e = true ∧ ce_number e = x) as Hx.
  { intros x (e & -> & Hin)%list_elem_of_fmap. apply list_elem_of_In, filter_In in Hin as [Hin Hh].
    exists e. split_and!; [by apply list_elem_of_In|done|done]. }
  apply Hx. clear Hx. induction (map _ _) as [|x l IH]; simpl in *; [lia|].
  destruct (Z.max_spec x (foldr Z.max (start - 1) l)) as [[? Hm]|[? Hm]]; rewrite Hm in *; [|by left].
  right. by apply IH.
Qed.

Lemma set_progress_same r : set_rg_progress (rg_nextNumber r) (rg_status r) r = r.
Proof. by destruct r. Qed.
