(* ===== verification/NumberingSafety.v ===== *)
(** * NumberingSafety: what the numbering operations do, and that they keep the invariant; the
    store as a state machine. *)
From S2P Require Import Prelude JsMap JsText JsDate JsJson OfflineTypes JsCursor Listing RangeAdmin Numbering NumberingInv.
From Stdlib Require Import Ascii.

Local Open Scope Z_scope.

Section safety.
Context (sha256 : string → string) (locale_le : string → string → bool)
        (importDigest : json → string) (uuid_at : nat → string).
Context (uuid_inj : ∀ i j, uuid_at i = uuid_at j → i = j).

Local Notation inv := (inv uuid_at).
Local Notation allocate := (allocateReservation sha256 locale_le uuid_at).

(** ** Allocation *)

Definition new_reservation (scope : Scope) (input : ReserveNumberingInput) (until : string)
    (rg : NumberingRange) (id : string) : Reservation :=
  {| rv_reservationId := id; rv_rangeId := rg_id rg; rv_tenantId := tenantId scope;
     rv_orgUnitId := rni_orgUnitId input; rv_entityType := rni_entityType input;
     rv_series := rg_series rg; rv_agentId := scope_agent scope;
     rv_deviceId := rni_deviceId input; rv_shiftId := rni_shiftId input;
     rv_startNumber := rg_nextNumber rg;
     rv_endNumber := rg_nextNumber rg + rni_requestedSize input - 1;
     rv_nextNumber := rg_nextNumber rg;
     rv_validUntil := default until (rni_validUntil input); rv_status := reserved |}.

(** The store after a block of [rg] was given out as [v]. *)
Definition allocated (scope : Scope) (input : ReserveNumberingInput) (origin : Origin)
    (rg : NumberingRange) (v : Reservation) (s s' : Store) : Prop :=
  let k := key (tenantId scope) (rv_reservationId v) in
  ranges s' = jm_set (key (tenantId scope) (rg_id rg))
    (set_rg_progress (rv_endNumber v + 1)
       (if rv_endNumber v =? rg_endNumber rg then range_exhausted else range_active) rg) (ranges s) ∧
  reservations s' = jm_set k v (reservations s) ∧
  reservationOrigins s' = jm_set k origin (reservationOrigins s) ∧
  consumption s' = jm_set k (fresh_entries (rv_startNumber v) (rv_endNumber v)) (consumption s) ∧
  reservationKeys s' = match rni_idempotencyKey input with
                       | Some ik => jm_set (key (tenantId scope) ik)
                           (reservationFingerprint sha256 locale_le scope input, rv_reservationId v)
                           (reservationKeys s)
                       | None => reservationKeys s
                       end ∧
  reconciliations s' = reconciliations s ∧
  rangeCreationReceipts s' = rangeCreationReceipts s ∧
  uuids s' = S (uuids s).

(** Every outcome of an allocation: the stored reservation of its key, an error, or the
    next block of the first matching range. Only the last changes the store. *)
Lemma allocate_cases scope input now until origin s o s' :
  allocate scope input now until origin s = (o, s') →
  (s' = s ∧ ((∃ v, o = Ok v ∧ replayReservation sha256 locale_le scope input s = (Ok (Some v), s)) ∨
             ∃ e, o = Throw e)) ∨
  (∃ rg, let v := new_reservation scope input until rg (uuid_at (uuids s)) in
     o = Ok v ∧ replayReservation sha256 locale_le scope input s = (Ok None, s) ∧
     existsb (blocks_admission (reservationOrigins s) (tenantId scope) (rni_deviceId input)
                (rni_shiftId input) now origin None) (reservations s) = false ∧
     List.find (range_matches scope input) (jm_values (ranges s)) = Some rg ∧
     rg_status rg = range_active ∧ rg_orgUnitId rg = rni_orgUnitId input ∧
     rg_entityType rg = rni_entityType input ∧ rv_endNumber v ≤ rg_endNumber rg ∧
     allocated scope input origin rg v s s').
Proof.
  unfold allocateReservation, assertReservationAdmission, randomUUID.
  destruct (replayReservation sha256 locale_le scope input s) as [o1 s1] eqn:Hreplay.
  assert (s1 = s) as ->.
  { unfold replayReservation in Hreplay. js_unfold. repeat case_match; by simplify_eq. }
  unfold mbind at 1, js_bind at 1. rewrite Hreplay.
  destruct o1 as [[v|]|e]; [intros [= <- <-]; left; eauto| |intros [= <- <-]; left; eauto].
  js_unfold.
  destruct (bool_decide (origin = origin_e6) && _) eqn:Hshift; [intros [= <- <-]; left; eauto|].
  destruct (existsb _ _) eqn:Hadm; [intros [= <- <-]; left; eauto|].
  destruct (List.find _ _) as [rg|] eqn:Hfind; [|intros [= <- <-]; left; eauto].
  destruct (negb _ || negb _ || negb _) eqn:Hst; [intros [= <- <-]; left; eauto|].
  apply orb_false_iff in Hst as [[Hst%negb_false_iff%bool_decide_eq_true
    Hou%negb_false_iff%String.eqb_eq]%orb_false_iff Het%negb_false_iff%String.eqb_eq].
  destruct (rg_endNumber rg <? _) eqn:Hcap; [intros [= <- <-]; left; eauto|].
  intros Heq. right. exists rg. destruct (rni_idempotencyKey input) as [ik|] eqn:Hik;
    simpl in Heq; simplify_eq; unfold allocated; rewrite ?Hik; simpl; split_and!; try done; lia.
Qed.

Lemma preserves_inv_allocate scope input now until origin :
  tenant_ok (tenantId scope) → 0 ≤ rni_requestedSize input →
  preserves inv (allocate scope input now until origin).
Proof.
  intros Ht Hsize s Hi. destruct (allocate _ _ _ _ _ s) as [o s'] eqn:Heq. simpl.
  apply allocate_cases in Heq as [[-> _]|(rg & _ & _ & _ & Hfind & _ & _ & _ & Hend & Hs')]; [done|].
  apply List.find_some in Hfind as [Hin Hm]. unfold range_matches in Hm.
  apply andb_true_iff in Hm as [Htn%String.eqb_eq _].
  apply list_elem_of_In, (jm_values_get _ _ (inv_ranges_wf _ _ Hi)) in Hin as [k Hk].
  pose proof (rgo_key _ _ _ _ (inv_ranges _ _ Hi _ _ Hk)) as Hkey. subst k. rewrite Htn in Hk.
  destruct Hs' as (H1 & H2 & _ & H4 & _ & _ & _ & H8).
  eapply (inv_add_reservation uuid_at s s' _ (new_reservation scope input until rg (uuid_at (uuids s))) rg);
    try done; simpl in *; lia.
Qed.

(** ** Ranges *)

Lemma rangeCreation_ok scope original input f :
  rangeCreation sha256 scope original = Ok (input, f) →
  cri_startNumber input = cri_startNumber original ∧ cri_endNumber input = cri_endNumber original ∧
  cri_startNumber input ≤ cri_endNumber input ∧ cri_idempotencyKey input = cri_idempotencyKey original.
Proof. unfold rangeCreation. intros H. js_unfold. repeat case_match; simplify_eq/=; split_and!; first [done|lia]. Qed.

Definition new_range (scope : Scope) (input : CreateNumberingRangeInput) (id : string) (at_ : Z) : NumberingRange :=
  {| rg_id := id; rg_tenantId := tenantId scope; rg_orgUnitId := cri_orgUnitId input;
     rg_entityType := cri_entityType input; rg_series := cri_series input;
     rg_startNumber := cri_startNumber input; rg_endNumber := cri_endNumber input;
     rg_nextNumber := cri_startNumber input; rg_status := range_active;
     rg_consumerAttributes := cri_consumerAttributes input;
     rg_createdBy := Some (actorId scope); rg_createdAt := Some (to_iso at_);
     rg_updatedAt := None; rg_cancelledBy := None; rg_cancellationReason := None;
     rg_cancelledAt := None |}.

Lemma preserves_inv_create scope original now :
  tenant_ok (tenantId scope) →
  preserves inv (createNumberingRange sha256 uuid_at scope original now).
Proof.
  intros Ht s Hi. destruct (createNumberingRange _ _ _ _ _ s) as [o s'] eqn:Heq. simpl.
  unfold createNumberingRange, randomUUID in Heq. js_unfold.
  destruct (rangeCreation sha256 scope original) as [[input f]|] eqn:Hc; [|by simplify_eq].
  apply rangeCreation_ok in Hc as (_ & _ & Hb & _).
  destruct (option_bind _ _ _ _) as [[prior receipt]|]; [case_match; by simplify_eq|].
  destruct (existsb _ _); [by simplify_eq|]. destruct (date_parse now) as [t|]; [|by simplify_eq].
  set (range := new_range scope input (uuid_at (uuids s)) t).
  assert (inv (upd_ranges (jm_set (key (tenantId scope) (uuid_at (uuids s))) (cloneRange range)) (next_uuid s)))
    as Hi'.
  { eapply (inv_set_range uuid_at s _ (cloneRange range)); simpl; try done; [lia| | |lia].
    - intros j Hj He%uuid_inj. lia.
    - intros old Hold. destruct (inv_ranges _ _ Hi _ _ Hold).
      apply key_inj in rgo_key as [_ He]; [|done..]. exfalso. apply (rgo_id (uuids s)); [lia|done]. }
  destruct (cri_idempotencyKey input); simplify_eq/=; [|done].
  by eapply (inv_frame uuid_at); [..|exact Hi'].
Qed.

(** Operations on ranges leave reservations alone. *)
Definition reservations_frame (s s' : Store) : Prop :=
  reservations s' = reservations s ∧ consumption s' = consumption s ∧
  reservationKeys s' = reservationKeys s.

Lemma create_frame scope original now s :
  reservations_frame s (createNumberingRange sha256 uuid_at scope original now s).2.
Proof.
  destruct (createNumberingRange _ _ _ _ _ s) as [o s'] eqn:Heq. simpl.
  unfold createNumberingRange, randomUUID in Heq. js_unfold.
  destruct (rangeCreation _ _ _) as [[input f]|]; [|by simplify_eq].
  destruct (option_bind _ _ _ _) as [[prior receipt]|]; [case_match; by simplify_eq|].
  destruct (existsb _ _); [by simplify_eq|]. destruct (date_parse now) as [t|]; [|by simplify_eq].
  by destruct (cri_idempotencyKey input); simplify_eq/=.
Qed.

Lemma cancel_range_frame scope original input now s :
  reservations_frame s (cancelNumberingRange scope original input now s).2.
Proof.
  destruct (cancelNumberingRange _ _ _ _ s) as [o s'] eqn:Heq. simpl.
  unfold cancelNumberingRange in Heq. js_unfold. repeat case_match; by simplify_eq/=.
Qed.

(** A seed that fits the store: a well-formed range that does not take numbers back. *)
Definition seed_ok (s : Store) (r : NumberingRange) : Prop :=
  tenant_ok (rg_tenantId r) ∧ rg_startNumber r ≤ rg_nextNumber r ≤ rg_endNumber r + 1 ∧
  (∀ j, (uuids s ≤ j)%nat → rg_id r ≠ uuid_at j) ∧
  jm_get (key (rg_tenantId r) (rg_id r)) (ranges s) = None.

Lemma inv_seed r s : seed_ok s r → inv s → inv (seedNumberingRange r s).2.
Proof.
  intros (Ht & Hb & Hid & Hn) Hi. simpl.
  eapply (inv_set_range uuid_at s _ (cloneRange r)); simpl; try done. intros old. by rewrite Hn.
Qed.

Lemma preserves_inv_cancel_range scope original input now :
  preserves inv (cancelNumberingRange scope original input now).
Proof.
  intros s Hi. destruct (cancelNumberingRange _ _ _ _ s) as [o s'] eqn:Heq. simpl.
  unfold cancelNumberingRange in Heq. js_unfold.
  destruct (rangeIdentity original) as [id|]; [|by simplify_eq].
  destruct (rangeCancellation input) as [reason|]; [|by simplify_eq].
  destruct (jm_get _ _) as [r|] eqn:Hr; [|by simplify_eq].
  destruct (rg_status r); [|by simplify_eq..]. destruct (date_parse now) as [t|]; [|by simplify_eq].
  simplify_eq/=. destruct (inv_ranges _ _ Hi _ _ Hr) as [Hk Ht Hid Hb]. rewrite Hk in Hr |- *.
  eapply (inv_set_range uuid_at s _ (set_cancelled scope (to_iso t) reason r)); simpl; try done.
  intros old Hold. assert (old = r) as -> by congruence. lia.
Qed.

(** ** Cancellation *)

Definition gives_back (durable : bool) (scope : Scope) : bool := durable || sc_ctg9 scope.

(** The store after the cancellation of [v], whose entries are [es]. *)
Definition cancelled_store (scope : Scope) (durable : bool) (k : string) (v : Reservation) (s s' : Store) : Prop :=
  reservations s' = jm_set k (set_rv_status cancelled v) (reservations s) ∧
  reservationOrigins s' = reservationOrigins s ∧ reservationKeys s' = reservationKeys s ∧
  reconciliations s' = reconciliations s ∧ rangeCreationReceipts s' = rangeCreationReceipts s ∧
  uuids s' = uuids s ∧
  if gives_back durable scope then
    ∃ es, jm_get k (consumption s) = Some es ∧
      consumption s' = jm_set k (move_available entry_expired es) (consumption s) ∧
      ranges s' =
        match jm_get (key (tenantId scope) (rv_rangeId v)) (ranges s) with
        | Some r =>
            if (rg_nextNumber r =? rv_endNumber v + 1) && negb (bool_decide (rg_status r = range_cancelled))
            then jm_set (key (tenantId scope) (rv_rangeId v))
                   (set_rg_progress (highest_applied (rv_startNumber v) es + 1) range_active r) (ranges s)
            else ranges s
        | None => ranges s
        end
  else ranges s' = ranges s ∧ consumption s' = consumption s.

Lemma cancel_cases scope id durable s o s' :
  inv s → cancelReservation scope id durable s = (o, s') →
  let k := key (tenantId scope) id in
  (s' = s ∧ ((∃ v, o = Ok v ∧ jm_get k (reservations s) = Some v ∧ rv_status v = cancelled ∧
                   gives_back durable scope = true) ∨
               ∃ e, o = Throw e ∧ ∀ v, jm_get k (reservations s) = Some v → durable = true → rv_status v ≠ reserved)) ∨
  (∃ v, jm_get k (reservations s) = Some v ∧ rv_status v = reserved ∧
        o = Ok (set_rv_status cancelled v) ∧ cancelled_store scope durable k v s s').
Proof.
  intros Hi Heq k. unfold cancelReservation in Heq. fold k in Heq. js_unfold.
  destruct (jm_get k (reservations s)) as [v|] eqn:Hv;
    [|simplify_eq; left; split; [done|]; right; by eexists].
  destruct (inv_reservations _ _ Hi _ _ Hv) as (rg & es & Hok).
  pose proof (ro_consumption _ _ _ _ _ _ Hok) as Hes.
  destruct (if durable then Ok v else legacyReservation v) as [v0|e] eqn:Hl.
  2: { simplify_eq. left. split; [done|]. right. eexists. split; [done|]. by destruct durable. }
  destruct (bool_decide (rv_status v = cancelled) && _) eqn:Hcan.
  { apply andb_true_iff in Hcan as [?%bool_decide_eq_true ?]. simplify_eq. left. split; [done|]. left. eauto. }
  destruct (bool_decide (rv_status v = reserved)) eqn:Hres.
  2: { simplify_eq/=. apply bool_decide_eq_false in Hres. left. split; [done|]. right.
       eexists. split; [done|]. by intros ? [= <-]. }
  apply bool_decide_eq_true in Hres. cbn [negb] in Heq. right. exists v.
  unfold cancelled_store, gives_back.
  destruct (durable || sc_ctg9 scope); simpl in Heq; [rewrite Hes in Heq|by simplify_eq/=].
  destruct (jm_get (key (tenantId scope) (rv_rangeId v)) (ranges s)) as [r|];
    [destruct (_ && negb _)|]; simplify_eq/=; split_and!; try done; by exists es.
Qed.

(** All numbers of a reserved reservation belong to it. *)
Lemma owned_reserved v es n :
  rv_status v = reserved → rv_startNumber v ≤ n ≤ rv_endNumber v → owned v es n.
Proof. intros Hst Hn. split; [done|]. intros He. congruence. Qed.

Lemma preserves_inv_cancel scope id durable :
  tenant_ok (tenantId scope) → preserves inv (cancelReservation scope id durable).
Proof.
  intros Ht s Hi. destruct (cancelReservation _ _ _ s) as [o s'] eqn:Heq. simpl.
  apply cancel_cases in Heq as [[-> _]|(v & Hv & Hst & _ & H1 & _ & _ & _ & _ & H6 & H7)]; [done|..|done].
  set (k := key (tenantId scope) id) in *.
  destruct (inv_reservations _ _ Hi _ _ Hv) as (rg & es & Hok). pose proof Hok as [].
  destruct (inv_ranges _ _ Hi _ _ ro_range) as [_ _ _ Hb].
  rewrite <- (set_progress_same rg) in ro_range.
  assert (Hin : ∀ n e, jm_get n es = Some e → ce_number e = n ∧ rv_startNumber v ≤ n ≤ rv_endNumber v).
  { intros n e He. split; [by eapply (proj1 (proj2 ro_entries))|].
    apply (entries_ok_range v es); [done|]. by exists e. }
  assert (Hothers : ∀ k2 v2 es2 n, k2 ≠ k → jm_get k2 (reservations s) = Some v2 →
     jm_get k2 (consumption s) = Some es2 → rv_tenantId v2 = rv_tenantId v →
     rv_rangeId v2 = rv_rangeId v → owned v2 es2 n → n < rg_nextNumber rg ∧ ¬ (rv_startNumber v ≤ n ≤ rv_endNumber v)).
  { intros k2 v2 es2 n Hne Hv2 Hes2 Ht2 Hr2 Ho. split.
    - destruct (inv_reservation _ _ _ _ _ Hi Hv2 Hes2) as (rg2 & []).
      rewrite Ht2, Hr2 in ro_range0. assert (rg2 = rg) as -> by (rewrite set_progress_same in ro_range; congruence).
      by apply ro_next0.
    - intros Hn. eapply (inv_disjoint _ _ Hi k2 k v2 v es2 es n); eauto using owned_reserved. }
  assert (Htenant : tenantId scope = rv_tenantId v).
  { apply key_inj in ro_key as [? _]; done. }
  destruct (gives_back durable scope).
  - destruct H7 as (es' & Hes' & Hc & Hr). assert (es' = es) as -> by congruence. rewrite Htenant in Hr.
    rewrite set_progress_same in ro_range. rewrite ro_range in Hr.
    destruct ((rg_nextNumber rg =? rv_endNumber v + 1) && _) eqn:Htail.
    + apply andb_true_iff in Htail as [Htail%Z.eqb_eq _].
      eapply (inv_update_reservation uuid_at s s' k v (set_rv_status cancelled v) es (move_available entry_expired es) rg
        (highest_applied (rv_startNumber v) es + 1) range_active); try done; [by eapply entries_ok_move| | | |lia].
      * intros n [Hn Hc']. split; [by apply owned_reserved|]. destruct (Hc' eq_refl) as (e & He & Hne).
        rewrite jm_get_move_available in He. apply fmap_Some_1 in He as (e0 & He0 & ->).
        destruct (Hin n e0 He0) as [Hnum _].
        assert (n ≤ highest_applied (rv_startNumber v) es); [|lia]. rewrite <- Hnum.
        apply highest_applied_elem; [by eapply jm_get_values|].
        destruct (proj2 (proj2 ro_entries) Hst n e0 He0) as [Hs|[Hs|Hs]]; unfold held_on_return; rewrite Hs in *;
          [simpl in Hne; congruence|done..].
      * intros k2 v2 es2 n H2 H3 H4 H5 H8 Ho. destruct (Hothers k2 v2 es2 n H2 H3 H4 H5 H8 Ho).
        pose proof (highest_applied_ge (rv_startNumber v) es). lia.
      * pose proof (highest_applied_ge (rv_startNumber v) es).
        assert (highest_applied (rv_startNumber v) es ≤ rv_endNumber v); [|lia].
        apply highest_applied_bound; [lia|]. intros e He _.
        apply jm_values_get in He as [n He]; [destruct (Hin n e He); lia|].
        unfold jm_wf. rewrite (proj1 ro_entries). apply NoDup_seqZ.
    + eapply (inv_update_reservation uuid_at s s' k v (set_rv_status cancelled v) es (move_available entry_expired es) rg (rg_nextNumber rg) (rg_status rg));
        try done; [by eapply entries_ok_move| | | |lia].
      * intros n [Hn _]. split; [by apply owned_reserved|]. by apply ro_next, owned_reserved.
      * intros. by eapply Hothers.
      * by rewrite set_progress_same, jm_set_same.
  - destruct H7 as [Hr Hc].
    eapply (inv_update_reservation uuid_at s s' k v (set_rv_status cancelled v) es es rg (rg_nextNumber rg) (rg_status rg));
      try done; [| | | | |lia].
    * destruct ro_entries as (? & ? & _). split_and!; done.
    * intros n [Hn _]. split; [by apply owned_reserved|]. by apply ro_next, owned_reserved.
    * intros. by eapply Hothers.
    * rewrite set_progress_same in *. by rewrite jm_set_same.
    * by rewrite jm_set_same.
Qed.

(** ** Block, close and settle *)

Definition settled_entry (status : ReservationStatus) : EntryStatus :=
  if bool_decide (status = blocked) then entry_blocked else entry_expired.

Lemma transition_cases scope id status now s o s' :
  inv s → transitionReservation scope id status now s = (o, s') →
  let k := key (tenantId scope) id in
  (s' = s ∧ ((∃ v, o = Ok v ∧ jm_get k (reservations s) = Some v ∧ rv_status v = status) ∨ ∃ e, o = Throw e)) ∨
  (∃ v es, jm_get k (reservations s) = Some v ∧ jm_get k (consumption s) = Some es ∧
     (rv_status v = reserved ∨ rv_status v = expired) ∧ o = Ok (set_rv_status status v) ∧
     s' = upd_consumption (jm_set k (move_available (settled_entry status) es))
            (upd_reservations (jm_set k (set_rv_status status v)) s)).
Proof.
  intros Hi Heq k. unfold transitionReservation, assertReservationAdmission in Heq. fold k in Heq. js_unfold.
  destruct (jm_get k (reservations s)) as [v|] eqn:Hv; [|simplify_eq; left; eauto].
  destruct (inv_reservations _ _ Hi _ _ Hv) as (rg & es & Hok).
  pose proof (ro_consumption _ _ _ _ _ _ Hok) as Hes.
  destruct (bool_decide (rv_status v = status)) eqn:Hst.
  { apply bool_decide_eq_true in Hst. simplify_eq. left. split; [done|]. left. eauto. }
  destruct (bool_decide (rv_status v = reserved) || bool_decide (rv_status v = expired)) eqn:Hres;
    [|simplify_eq/=; left; by eauto].
  assert (rv_status v = reserved ∨ rv_status v = expired) as Hres'.
  { apply orb_true_iff in Hres as [H%bool_decide_eq_true|H%bool_decide_eq_true]; auto. }
  simpl in Heq.
  destruct (bool_decide (status = blocked) && date_gt _ _); [destruct (existsb _ _)|];
    simplify_eq/=; [by left; eauto|..]; rewrite Hes in Heq; simplify_eq/=; right; by exists v, es.
Qed.

Lemma preserves_inv_transition scope id status now :
  status = blocked ∨ status = consumed → preserves inv (transitionReservation scope id status now).
Proof.
  intros Hstatus s Hi. destruct (transitionReservation _ _ _ _ s) as [o s'] eqn:Heq. simpl.
  apply transition_cases in Heq as [[-> _]|(v & es & Hv & Hes & Hst & _ & ->)]; [done|..|done].
  destruct (inv_reservation _ _ _ _ _ Hi Hv Hes) as [rg Hok]. pose proof Hok as [].
  destruct (inv_ranges _ _ Hi _ _ ro_range) as [_ _ _ Hb].
  eapply (inv_update_reservation uuid_at s _ _ v (set_rv_status status v) es _ rg (rg_nextNumber rg) (rg_status rg));
    simpl; try done.
  - eapply entries_ok_move; [done..|]. simpl. destruct Hstatus; congruence.
  - intros n [Hn _]. assert (owned v es n) as Ho; [|split; [done|by apply ro_next]].
    split; [done|]. destruct Hst; congruence.
  - intros k2 v2 es2 n Hne Hv2 Hes2 Ht2 Hr2 Ho. destruct (inv_reservation _ _ _ _ _ Hi Hv2 Hes2) as (rg2 & []).
    assert (rg2 = rg) as -> by (rewrite Ht2, Hr2 in ro_range0; congruence). by apply ro_next0.
  - by rewrite set_progress_same, jm_set_same.
Qed.

(** ** Entries: claims and applications *)

(** An update of the entries of one reservation that gives no number a new owner. *)
Lemma inv_update_entries s s' k v es es' :
  inv s → jm_get k (reservations s) = Some v → jm_get k (consumption s) = Some es →
  entries_ok v es' →
  (rv_status v = cancelled → ∀ n e, jm_get n es' = Some e → ce_status e ≠ entry_expired →
     ∃ e0, jm_get n es = Some e0 ∧ ce_status e0 ≠ entry_expired) →
  ranges s' = ranges s → reservations s' = reservations s →
  consumption s' = jm_set k es' (consumption s) → (uuids s ≤ uuids s')%nat → inv s'.
Proof.
  intros Hi Hv Hes Hent Hexp H1 H2 H3 H4.
  destruct (inv_reservation _ _ _ _ _ Hi Hv Hes) as [rg Hok]. pose proof Hok as [].
  destruct (inv_ranges _ _ Hi _ _ ro_range) as [_ _ _ Hb].
  eapply (inv_update_reservation uuid_at s s' k v v es es' rg (rg_nextNumber rg) (rg_status rg)); try done.
  - intros n [Hn Hc]. assert (owned v es n) as Ho; [|split; [done|by apply ro_next]].
    split; [done|]. intros Hst. destruct (Hc Hst) as (e & He & Hne). by eapply Hexp.
  - intros k2 v2 es2 n Hne Hv2 Hes2 Ht2 Hr2 Ho. destruct (inv_reservation _ _ _ _ _ Hi Hv2 Hes2) as (rg2 & []).
    assert (rg2 = rg) as -> by (rewrite Ht2, Hr2 in ro_range0; congruence). by apply ro_next0.
  - rewrite H1. by rewrite set_progress_same, jm_set_same.
  - rewrite H2. by rewrite jm_set_same.
Qed.

(** The entries after the claims of a reconciliation. *)
Definition claimed_entries (v : Reservation) (claimed : list Z) (es : Consumption) : Consumption :=
  if bool_decide (rv_status v = reserved) then fold_left (λ es n, claim_entry n es) claimed es else es.

Lemma reconcile_cases scope id input now s o s' :
  reconcileNumberingReservation importDigest uuid_at scope id input now s = (o, s') →
  let k := key (tenantId scope) id in
  s' = s ∨
  ∃ v es claimed f, reconciliationRequest importDigest scope input = Ok (claimed, f) ∧
    jm_get k (reservations s) = Some v ∧ jm_get k (consumption s) = Some es ∧
    forallb (λ n, jm_has n es) claimed = true ∧
    ranges s' = ranges s ∧ reservations s' = reservations s ∧
    consumption s' = jm_set k (claimed_entries v claimed es) (consumption s) ∧
    reservationKeys s' = reservationKeys s ∧ uuids s' = S (uuids s).
Proof.
  intros Heq k. unfold reconcileNumberingReservation, randomUUID in Heq. fold k in Heq. js_unfold.
  destruct (consumptionReadInstant now); [|simplify_eq; by left].
  destruct (reconciliationRequest importDigest scope input) as [[claimed f]|] eqn:Hreq; [|simplify_eq; by left].
  destruct (jm_get k (reservations s)) as [v|] eqn:Hv; [|simplify_eq; by left].
  destruct (jm_get k (consumption s)) as [es|] eqn:Hes; [|simplify_eq; by left].
  destruct (option_bind _ _ _ _) as [[prior record]|];
    [destruct (String.eqb prior f); simplify_eq/=; by left|].
  destruct (forallb _ claimed) eqn:Hall; [|simplify_eq/=; by left]. simpl in Heq.
  right. exists v, es, claimed, f. unfold claimed_entries.
  destruct (bool_decide (rv_status v = reserved)), (projectNumberingConsumption _ _ _ _);
    simplify_eq/=; by split_and!.
Qed.

Lemma preserves_inv_reconcile scope id input now :
  preserves inv (reconcileNumberingReservation importDigest uuid_at scope id input now).
Proof.
  intros s Hi. destruct (reconcileNumberingReservation _ _ _ _ _ _ s) as [o s'] eqn:Heq. simpl.
  apply reconcile_cases in Heq as [->|(v & es & claimed & f & _ & Hv & Hes & _ & H1 & H2 & H3 & _ & H4)]; [done|].
  destruct (inv_reservation _ _ _ _ _ Hi Hv Hes) as [rg []].
  eapply (inv_update_entries s s' _ v es (claimed_entries v claimed es) Hi Hv Hes); [..|lia]; try done;
    unfold claimed_entries; case_bool_decide as Hst; eauto.
  - by apply claim_entries_ok.
  - congruence.
Qed.

Lemma cover_cases scope item s o s' :
  coverReserved scope item s = (o, s') →
  s' = s ∧
  (∀ k, o = Ok (Some k) → ∃ n r, ni_reservedNumber item = Some n ∧
     List.filter (covers s scope item n) (reservations s) = [(k, r)] ∧ rv_status r = reserved ∧
     entry_status s k n ≠ Some entry_applied ∧ date_lt (rv_validUntil r) (ni_createdLocallyAt item) = false) ∧
  (o = Ok None → ni_reservedNumber item = None).
Proof.
  intros Heq. unfold coverReserved in Heq. js_unfold.
  destruct (ni_reservedNumber item) as [n|]; [|by simplify_eq].
  destruct (List.filter _ _) as [|[k r] [|? ?]] eqn:Hf; [by simplify_eq| |by simplify_eq].
  destruct (bool_decide (entry_status (id s) k n = _)) eqn:Ha; [by simplify_eq|]. simpl in Heq.
  apply bool_decide_eq_false in Ha.
  destruct (negb _ || _) eqn:Hst; simplify_eq/=; [done|].
  apply orb_false_iff in Hst as [Hst%negb_false_iff%bool_decide_eq_true Hd].
  split; [done|]. split; [|done]. intros k' [= <-]. by exists n, r.
Qed.

Lemma covers_in_range s scope item n k r :
  covers s scope item n (k, r) = true → rv_startNumber r ≤ n ≤ rv_endNumber r.
Proof using. unfold covers. rewrite !andb_true_iff, !Z.leb_le. intros [[[[_ He] Hf] _] _]. done. Qed.

Definition applied_entry (e : ConsumptionEntry) (serverEntityId now : string) : ConsumptionEntry :=
  {| ce_number := ce_number e; ce_status := entry_applied;
     ce_serverEntityId := Some serverEntityId; ce_finalizedAt := Some now |}.

Lemma apply_cases scope item sid now s o s' :
  inv s → applyReserved scope item sid now s = (o, s') →
  (s' = s ∧ ((o = Ok () ∧ ni_reservedNumber item = None) ∨ ∃ e, o = Throw e)) ∨
  ∃ k v es n e, o = Ok () ∧ ni_reservedNumber item = Some n ∧
    List.filter (covers s scope item n) (reservations s) = [(k, v)] ∧
    jm_get k (reservations s) = Some v ∧ rv_status v = reserved ∧
    jm_get k (consumption s) = Some es ∧ jm_get n es = Some e ∧ ce_status e ≠ entry_applied ∧
    s' = upd_consumption (jm_set k (jm_set n (applied_entry e sid now) es)) s.
Proof.
  intros Hi Heq. unfold applyReserved in Heq. unfold mbind, js_bind in Heq.
  destruct (coverReserved scope item s) as [o1 s1] eqn:Hc.
  apply cover_cases in Hc as (-> & Hc & Hn). destruct o1 as [[k|]|e]; [| |simplify_eq; left; eauto].
  - destruct (Hc k eq_refl) as (n & v & Hnum & Hf & Hst & Hna & _). right.
    assert ((k, v) ∈ reservations s ∧ covers s scope item n (k, v) = true) as [Hin Hcov].
    { assert (In (k, v) (List.filter (covers s scope item n) (reservations s))) as H by (rewrite Hf; by left).
      apply filter_In in H as [H ?]. by rewrite list_elem_of_In. }
    assert (jm_get k (reservations s) = Some v) as Hv by (by apply jm_elem_get; [apply (inv_reservations_wf _ _ Hi)|]).
    destruct (inv_reservations _ _ Hi _ _ Hv) as (rg & es & []).
    apply covers_in_range in Hcov. apply (entries_ok_range v es) in Hcov as [e He]; [|done].
    exists k, v, es, n, e. unfold finalizeReserved in Heq. rewrite Hnum in Heq. js_unfold.
    rewrite ro_consumption, He in Heq. simplify_eq. split_and!; try done.
    intros Ha. apply Hna. unfold entry_status. rewrite ro_consumption. simpl. rewrite He. simpl. by rewrite Ha.
  - rewrite (Hn eq_refl) in *. unfold finalizeReserved in Heq. js_unfold. simplify_eq. left. eauto.
Qed.

Lemma preserves_inv_apply scope item sid now : preserves inv (applyReserved scope item sid now).
Proof.
  intros s Hi. destruct (applyReserved _ _ _ _ s) as [o s'] eqn:Heq. simpl.
  apply apply_cases in Heq as [[-> _]|(k & v & es & n & e & _ & _ & _ & Hv & Hst & Hes & He & _ & ->)]; [done| |done].
  destruct (inv_reservation _ _ _ _ _ Hi Hv Hes) as [rg []].
  eapply (inv_update_entries s _ k v es (jm_set n (applied_entry e sid now) es) Hi Hv Hes); try done.
  - apply (entries_ok_set _ _ _ e); simpl; auto.
  - congruence.
Qed.
End safety.

(** ** Sequences of numbering operations.

    The store as a state machine: one constructor of [op] per mutating method, the states
    it can reach from a new store, and the facts that no operation takes back: the
    identity of a reservation, its idempotency key and an applied number. *)

Inductive op :=
| OpSeed (range : NumberingRange)
| OpCreate (scope : Scope) (input : CreateNumberingRangeInput) (now : string)
| OpCancelRange (scope : Scope) (id : string) (input : CancelNumberingRangeInput) (now : string)
| OpReserve (scope : Scope) (input : ReserveNumberingInput) (now until : string) (origin : Origin)
| OpCancel (scope : Scope) (id : string) (durable : bool)
| OpBlock (scope : Scope) (id now : string)
| OpClose (scope : Scope) (id now : string)
| OpSettle (scope : Scope) (id now : string)
| OpReconcile (scope : Scope) (id : string) (input : ReconcileInput) (now : string)
(** an item when no other operation comes between its check and its finalisation; [wstep] has both apart *)
| OpApply (scope : Scope) (item : NumberedItem) (serverEntityId now : string).

Section steps.
Context (sha256 : string → string) (locale_le : string → string → bool)
        (importDigest : json → string) (uuid_at : nat → string).

Definition run (o : op) (s : Store) : Store :=
  match o with
  | OpSeed range => (seedNumberingRange range s).2
  | OpCreate scope input now => (createNumberingRange sha256 uuid_at scope input now s).2
  | OpCancelRange scope id input now => (cancelNumberingRange scope id input now s).2
  | OpReserve scope input now until origin =>
      (allocateReservation sha256 locale_le uuid_at scope input now until origin s).2
  | OpCancel scope id durable => (cancelReservation scope id durable s).2
  | OpBlock scope id now => (blockNumberingReservation scope id now s).2
  | OpClose scope id now => (closeNumberingReservation scope id now s).2
  | OpSettle scope id now => (settleNumberingReservation scope id now s).2
  | OpReconcile scope id input now => (reconcileNumberingReservation importDigest uuid_at scope id input now s).2
  | OpApply scope item sid now => (applyReserved scope item sid now s).2
  end.

(** What the callers guarantee: tenants without a colon, the size test of the service, and
    seeds that describe a new range. *)
Definition admissible (o : op) (s : Store) : Prop :=
  match o with
  | OpSeed range => seed_ok uuid_at s range
  | OpReserve scope input _ _ _ => tenant_ok (tenantId scope) ∧ 1 ≤ rni_requestedSize input
  | OpCreate scope _ _ | OpCancel scope _ _ => tenant_ok (tenantId scope)
  | _ => True
  end.

Inductive steps (s : Store) : Store → Prop :=
| steps_refl : steps s s
| steps_op s' o : steps s s' → admissible o s' → steps s (run o s').

Definition reachable : Store → Prop := steps empty_store.

Lemma steps_trans s1 s2 s3 : steps s1 s2 → steps s2 s3 → steps s1 s3.
Proof. intros H. induction 1; [done|by constructor]. Qed.

Section invariant.
Context (uuid_inj : ∀ i j, uuid_at i = uuid_at j → i = j).

Lemma inv_run o s : admissible o s → inv uuid_at s → inv uuid_at (run o s).
Proof using uuid_inj.
  destruct o; simpl; intros Ha Hi.
  - by apply inv_seed.
  - by apply preserves_inv_create.
  - by apply preserves_inv_cancel_range.
  - destruct Ha. apply preserves_inv_allocate; [done|done|lia|done].
  - by apply preserves_inv_cancel.
  - by apply preserves_inv_transition; [left|].
  - by apply preserves_inv_transition; [right|].
  - by apply preserves_inv_transition; [right|].
  - by apply preserves_inv_reconcile.
  - by apply preserves_inv_apply.
Qed.

Lemma inv_steps s s' : steps s s' → inv uuid_at s → inv uuid_at s'.
Proof using uuid_inj. induction 1; auto using inv_run. Qed.

Lemma inv_reachable s : reachable s → inv uuid_at s.
Proof using uuid_inj. intros H. eapply inv_steps; [exact H|]. apply inv_empty. Qed.

(** ** Facts that last *)

(** A later reservation record is the same block under a later status. *)
Definition later_reservation (v v' : Reservation) : Prop :=
  same_reservation v v' ∧ rv_deviceId v' = rv_deviceId v ∧ rv_orgUnitId v' = rv_orgUnitId v ∧
  rv_entityType v' = rv_entityType v.

Lemma later_refl v : later_reservation v v.
Proof. by repeat split. Qed.
Lemma later_status v st : later_reservation v (set_rv_status st v).
Proof. by repeat split. Qed.
Lemma later_trans v1 v2 v3 : later_reservation v1 v2 → later_reservation v2 v3 → later_reservation v1 v3.
Proof. unfold later_reservation, same_reservation. intros. destruct_and!. split_and!; congruence. Qed.

(** What one operation does to reservations and their entries. *)
Definition keeps (s s' : Store) : Prop :=
  (∀ k v, jm_get k (reservations s) = Some v →
     ∃ v', jm_get k (reservations s') = Some v' ∧ later_reservation v v') ∧
  (∀ k n, is_Some (jm_get k (reservations s)) →
     entry_status s k n = Some entry_applied → entry_status s' k n = Some entry_applied) ∧
  (∀ kk f id, jm_get kk (reservationKeys s) = Some (f, id) →
     (∃ t ik, kk = key t ik ∧ tenant_ok t ∧ is_Some (jm_get (key t id) (reservations s))) →
     jm_get kk (reservationKeys s') = Some (f, id)).

Lemma keeps_refl s : keeps s s.
Proof. split_and!; [|done|done]. intros k v Hv. exists v. split; [done|apply later_refl]. Qed.

(** Only one reservation and its entries change, and its applied entries stay. *)
Lemma keeps_update s s' k v v' es es' :
  jm_get k (reservations s) = Some v → later_reservation v v' →
  reservations s' = jm_set k v' (reservations s) →
  jm_get k (consumption s) = Some es → consumption s' = jm_set k es' (consumption s) →
  (∀ n e, jm_get n es = Some e → ce_status e = entry_applied →
     ∃ e', jm_get n es' = Some e' ∧ ce_status e' = entry_applied) →
  reservationKeys s' = reservationKeys s → keeps s s'.
Proof.
  intros Hv Hl H1 Hes H2 Happ H3. unfold keeps. rewrite H1, H3. split_and!; [| |done].
  - intros k0 v0 Hv0. rewrite jm_get_set. case_decide; subst; [|by eauto using later_refl].
    exists v'. split; [done|]. by assert (v0 = v) as -> by congruence.
  - intros k0 n _. unfold entry_status. rewrite H2, jm_get_set. case_decide; subst; [|done].
    rewrite Hes. simpl. destruct (jm_get n es) as [e|] eqn:He; simpl; [|done]. intros [= Hs].
    destruct (Happ n e He Hs) as (e' & -> & He'). simpl. by rewrite He'.
Qed.

Lemma keeps_frame s s' : reservations_frame s s' → keeps s s'.
Proof.
  intros (H1 & H2 & H3). unfold keeps, entry_status. rewrite H1, H2, H3.
  split_and!; [|done|done]. eauto using later_refl.
Qed.

Lemma move_keeps_applied st es n e :
  jm_get n es = Some e → ce_status e = entry_applied →
  ∃ e', jm_get n (move_available st es) = Some e' ∧ ce_status e' = entry_applied.
Proof. intros He Hs. exists e. rewrite jm_get_move_available, He. simpl. by rewrite bool_decide_false by congruence. Qed.

Lemma claims_keep_applied l es n e :
  jm_get n es = Some e → ce_status e = entry_applied →
  ∃ e', jm_get n (fold_left (λ es n, claim_entry n es) l es) = Some e' ∧ ce_status e' = entry_applied.
Proof.
  revert es. induction l as [|m l IH]; intros es He Hs; simpl; [eauto|]. apply IH; [|done].
  rewrite claim_entry_get, He. simpl. by rewrite (bool_decide_false (ce_status e = _)), andb_false_r by congruence.
Qed.

Lemma keeps_transition scope id st now s :
  inv uuid_at s → keeps s (transitionReservation scope id st now s).2.
Proof.
  intros Hi. destruct (transitionReservation _ _ _ _ s) as [o s'] eqn:Heq. simpl.
  eapply transition_cases in Heq as [[-> _]|(v & es & Hv & Hes & _ & _ & ->)]; [apply keeps_refl| |done].
  eapply (keeps_update _ _ _ v _ es); eauto using later_status, move_keeps_applied.
Qed.

Lemma keeps_cancel scope id durable s :
  inv uuid_at s → keeps s (cancelReservation scope id durable s).2.
Proof.
  intros Hi. destruct (cancelReservation _ _ _ s) as [o s'] eqn:Heq. simpl.
  eapply cancel_cases in Heq as [[-> _]|(v & Hv & _ & _ & H1 & _ & H3 & _ & _ & _ & H4)];
    [apply keeps_refl| |done].
  destruct (inv_reservations _ _ Hi _ _ Hv) as (rg & es & []).
  destruct (gives_back durable scope).
  - destruct H4 as (es' & Hes' & Hc & _).
    eapply (keeps_update _ _ _ v _ es'); eauto using later_status, move_keeps_applied.
  - destruct H4 as [_ Hc]. eapply (keeps_update _ _ _ v _ es es); eauto using later_status.
    by rewrite jm_set_same.
Qed.

Lemma keeps_reconcile scope id input now s :
  inv uuid_at s → keeps s (reconcileNumberingReservation importDigest uuid_at scope id input now s).2.
Proof.
  intros Hi. destruct (reconcileNumberingReservation _ _ _ _ _ _ s) as [o s'] eqn:Heq. simpl.
  apply reconcile_cases in Heq as [->|(v & es & claimed & f & _ & Hv & Hes & _ & _ & H2 & H3 & H4 & _)];
    [apply keeps_refl|].
  eapply (keeps_update _ _ _ v v es); eauto using later_refl; [by rewrite jm_set_same|].
  intros n e. unfold claimed_entries. case_bool_decide; eauto using claims_keep_applied.
Qed.

Lemma keeps_apply scope item sid now s :
  inv uuid_at s → keeps s (applyReserved scope item sid now s).2.
Proof.
  intros Hi. destruct (applyReserved _ _ _ _ s) as [o s'] eqn:Heq. simpl.
  eapply apply_cases in Heq as [[-> _]|(k & v & es & n & e & _ & _ & _ & Hv & _ & Hes & He & _ & ->)];
    [apply keeps_refl| |done].
  eapply (keeps_update _ _ _ v v es); simpl; eauto using later_refl; [by rewrite jm_set_same|].
  intros n0 e0 He0 Hs0. rewrite jm_get_set. case_decide; eauto.
Qed.

Lemma fresh_reservation_key s t :
  inv uuid_at s → tenant_ok t →
  jm_get (key t (uuid_at (uuids s))) (reservations s) = None.
Proof using uuid_inj.
  intros Hi Ht. destruct (jm_get _ _) as [v|] eqn:Hv; [|done].
  destruct (inv_reservations _ _ Hi _ _ Hv) as (rg & es & []). destruct ro_id as (i & ? & ?).
  apply key_inj in ro_key as [_ He]; [|done..]. assert (uuids s = i) by (apply uuid_inj; congruence). lia.
Qed.

Lemma keeps_reserve scope input now until origin s :
  inv uuid_at s → tenant_ok (tenantId scope) →
  keeps s (allocateReservation sha256 locale_le uuid_at scope input now until origin s).2.
Proof using uuid_inj.
  intros Hi Ht. destruct (allocateReservation _ _ _ _ _ _ _ _ s) as [o s'] eqn:Heq. simpl.
  apply allocate_cases in Heq as [[-> _]|(rg & _ & Hr & _ & _ & _ & _ & _ & _ & _ & H2 & _ & H4 & H5 & _)];
    [apply keeps_refl|].
  simpl in *. pose proof (fresh_reservation_key s _ Hi Ht) as Hfresh.
  assert (∀ k v, jm_get k (reservations s) = Some v → k ≠ key (tenantId scope) (uuid_at (uuids s))) as Hne.
  { intros k v Hv ->. congruence. }
  unfold keeps, entry_status. rewrite H2, H4, H5. split_and!.
  - intros k v Hv. rewrite jm_get_set_ne by eauto. eauto using later_refl.
  - intros k n [v Hv]. by rewrite jm_get_set_ne by eauto.
  - intros kk f id Hk (t & ik & -> & Htt & Hsome). destruct (rni_idempotencyKey input) as [ik'|] eqn:Hik; [|done].
    rewrite jm_get_set. case_decide as Hkk; [exfalso|done].
    apply key_inj in Hkk as [-> ->]; [|done..].
    unfold replayReservation in Hr. js_unfold. rewrite Hik in Hr. simpl in Hr. rewrite Hk in Hr.
    destruct (negb _); simpl in Hr; [congruence|]. destruct Hsome as [v Hv]. rewrite Hv in Hr. congruence.
Qed.

Lemma keeps_trans s1 s2 s3 : keeps s1 s2 → keeps s2 s3 → keeps s1 s3.
Proof.
  intros (A1 & A2 & A3) (B1 & B2 & B3). split_and!.
  - intros k v Hv. destruct (A1 k v Hv) as (v2 & Hv2 & ?). destruct (B1 k v2 Hv2) as (v3 & ? & ?).
    eauto using later_trans.
  - intros k n [v Hv] Hs. destruct (A1 k v Hv) as (v2 & Hv2 & _). apply B2; [by exists v2|].
    apply A2; [by exists v|done].
  - intros kk f id Hk Hex. apply B3; [by apply A3|]. destruct Hex as (t & ik & Hkk & Ht & [v Hv]).
    destruct (A1 _ _ Hv) as (v2 & ? & _). exists t, ik. split_and!; [done|done|by exists v2].
Qed.

Lemma keeps_run o s : admissible o s → inv uuid_at s → keeps s (run o s).
Proof using uuid_inj.
  intros Ha Hi. destruct o; simpl in Ha |- *.
  - apply keeps_frame. by split_and!.
  - apply keeps_frame, create_frame.
  - apply keeps_frame, cancel_range_frame.
  - by apply keeps_reserve; [|apply Ha].
  - by apply keeps_cancel.
  - by apply keeps_transition.
  - by apply keeps_transition.
  - by apply keeps_transition.
  - by apply keeps_reconcile.
  - by apply keeps_apply.
Qed.

Lemma keeps_steps s s' : inv uuid_at s → steps s s' → keeps s s'.
Proof using uuid_inj.
  intros Hi. induction 1 as [|s' o Hs IH Ha]; [apply keeps_refl|].
  eapply keeps_trans; [exact IH|]. apply keeps_run; [done|]. by eapply inv_steps.
Qed.

(** ** Applications that overlap other operations

    [processItem] checks the covering reservation, awaits the applier and then finalises: any
    operation may run in between, other items being applied among them. *)

(** An item whose applier runs, with the key of the reservation that covered it. *)
Record Application := { ap_scope : Scope; ap_item : NumberedItem; ap_key : option string }.
Record World := { numbers : Store; applying : list Application }.
Definition new_world : World := {| numbers := empty_store; applying := [] |}.

Inductive wstep (w : World) : World → Prop :=
| w_run o : (∀ scope item sid now, o ≠ OpApply scope item sid now) → admissible o (numbers w) →
    wstep w {| numbers := run o (numbers w); applying := applying w |}
| w_cover scope item k : coverReserved scope item (numbers w) = (Ok k, numbers w) →
    wstep w {| numbers := numbers w; applying := {| ap_scope := scope; ap_item := item; ap_key := k |} :: applying w |}
| w_finalize l1 a l2 sid now : applying w = l1 ++ a :: l2 →
    wstep w {| numbers := (finalizeReserved (ap_key a) (ap_item a) sid now (numbers w)).2; applying := l1 ++ l2 |}
| w_fail l1 a l2 : applying w = l1 ++ a :: l2 → wstep w {| numbers := numbers w; applying := l1 ++ l2 |}.

(** No reservation is cancelled that covers an item being applied. *)
Definition undisturbed (w w' : World) : Prop :=
  wstep w w' ∧ ∀ a k, a ∈ applying w → ap_key a = Some k →
    rv_status <$> jm_get k (reservations (numbers w')) = Some cancelled →
    rv_status <$> jm_get k (reservations (numbers w)) = Some cancelled.
Definition undisturbed_worlds : World → Prop := rtc undisturbed new_world.

(** What is known of an item whose applier runs. *)
Definition covered (s : Store) (a : Application) : Prop :=
  ∀ k n, ap_key a = Some k → ni_reservedNumber (ap_item a) = Some n →
    ∃ v, jm_get k (reservations s) = Some v ∧ rv_status v ≠ cancelled ∧ rv_startNumber v ≤ n ≤ rv_endNumber v.
Definition sound_world (w : World) : Prop := inv uuid_at (numbers w) ∧ ∀ a, a ∈ applying w → covered (numbers w) a.

Lemma coverReserved_covered scope item k s :
  inv uuid_at s → coverReserved scope item s = (Ok k, s) →
  covered s {| ap_scope := scope; ap_item := item; ap_key := k |}.
Proof.
  intros Hi (_ & Hc & _)%cover_cases k' n. simpl. intros -> Hn. destruct (Hc k' eq_refl) as (n' & v & Hn' & Hf & Hst & _).
  assert (n' = n) as -> by congruence.
  assert (In (k', v) (List.filter (covers s scope item n) (reservations s))) as [Hin Hcov]%filter_In by (rewrite Hf; by left).
  exists v. split; [apply jm_elem_get; [apply (inv_reservations_wf _ _ Hi)|by apply list_elem_of_In]|].
  split; [congruence|by eapply covers_in_range].
Qed.

Lemma finalize_cases k item sid now s o s' :
  finalizeReserved k item sid now s = (o, s') →
  s' = s ∨ ∃ k' n es e, k = Some k' ∧ ni_reservedNumber item = Some n ∧ jm_get k' (consumption s) = Some es ∧
    jm_get n es = Some e ∧ s' = upd_consumption (jm_set k' (jm_set n (applied_entry e sid now) es)) s.
Proof.
  intros Heq. unfold finalizeReserved in Heq. js_unfold. destruct k as [k|]; [|simplify_eq; by left].
  destruct (ni_reservedNumber item) as [n|]; [|simplify_eq; by left].
  destruct (jm_get k (consumption s)) as [es|] eqn:Hes; [|simplify_eq; by left].
  destruct (jm_get n es) as [e|] eqn:He; simplify_eq; [right|by left]. by exists k, n, es, e.
Qed.

Lemma inv_finalize_covered a sid now s :
  inv uuid_at s → covered s a → inv uuid_at (finalizeReserved (ap_key a) (ap_item a) sid now s).2.
Proof.
  intros Hi Hc. destruct (finalizeReserved _ _ _ _ s) as [o s'] eqn:Heq. simpl.
  apply finalize_cases in Heq as [->|(k & n & es & e & Hk & Hn & Hes & He & ->)]; [done|].
  destruct (Hc k n Hk Hn) as (v & Hv & Hst & _). destruct (inv_reservation _ _ _ _ _ Hi Hv Hes) as [rg []].
  eapply (inv_update_entries uuid_at s _ k v es (jm_set n (applied_entry e sid now) es) Hi Hv Hes); try done.
  apply (entries_ok_set _ _ _ e); simpl; auto.
Qed.

(** A reservation keeps covering while it is not cancelled. *)
Lemma covered_later s s' a :
  (∀ k v, jm_get k (reservations s) = Some v → ∃ v', jm_get k (reservations s') = Some v' ∧ later_reservation v v') →
  (∀ k, ap_key a = Some k → rv_status <$> jm_get k (reservations s') = Some cancelled →
        rv_status <$> jm_get k (reservations s) = Some cancelled) →
  covered s a → covered s' a.
Proof using.
  clear. intros Hk Hc Ha k n Hkey Hn. destruct (Ha k n Hkey Hn) as (v & Hv & Hst & Hr). destruct (Hk k v Hv) as (v' & Hv' & (Hs & _)).
  exists v'. split; [done|]. split.
  - intros Hcan. specialize (Hc k Hkey). rewrite Hv, Hv' in Hc. simpl in Hc. rewrite Hcan in Hc. specialize (Hc eq_refl). congruence.
  - destruct Hs as (_ & _ & _ & -> & ->). done.
Qed.

Lemma sound_undisturbed w w' : sound_world w → undisturbed w w' → sound_world w'.
Proof using uuid_inj.
  intros [Hi Hc] [Hst Hu]. destruct Hst as [o _ Ha|scope item k Hcov|l1 a l2 sid now Hl|l1 a l2 Hl]; simpl in *.
  - split; [by apply inv_run|]. intros a Hin. destruct (keeps_run o _ Ha Hi) as (Hk & _).
    eapply covered_later; [exact Hk|intros k Hkey; by apply (Hu a)|by apply Hc].
  - split; [done|]. intros a [->|Hin]%elem_of_cons; [by apply coverReserved_covered|by apply Hc].
  - split; [apply inv_finalize_covered; [done|apply Hc; rewrite Hl; set_solver]|]. intros b Hb.
    assert (b ∈ applying w) as Hin by (rewrite Hl; set_solver).
    destruct (finalizeReserved _ _ _ _ (numbers w)) as [o s'] eqn:Heq. simpl in *.
    apply finalize_cases in Heq as [->|(k & n & es & e & _ & _ & _ & _ & ->)]; by apply Hc.
  - split; [done|]. intros b Hb. apply Hc. rewrite Hl. set_solver.
Qed.

(** Operations one after the other, nothing being applied between them. *)
Lemma steps_undisturbed s s' : steps s s' →
  rtc undisturbed {| numbers := s; applying := [] |} {| numbers := s'; applying := [] |}.
Proof.
  induction 1 as [|s' o Hs IH Ha]; [done|]. etrans; [exact IH|].
  assert (∀ s0 s1 l, wstep {| numbers := s0; applying := [] |} {| numbers := s1; applying := l |} →
    undisturbed {| numbers := s0; applying := [] |} {| numbers := s1; applying := l |}) as Hidle.
  { intros s0 s1 l Hw. split; [done|]. intros a k []%elem_of_nil. }
  destruct o; try (apply rtc_once, Hidle; by apply (w_run {| numbers := s'; applying := [] |})).
  simpl. unfold applyReserved, mbind, js_bind. destruct (coverReserved scope item s') as [[k|e] s1] eqn:Hc;
    pose proof (cover_cases _ _ _ _ _ Hc) as [-> _]; [|done].
  set (a := {| ap_scope := scope; ap_item := item; ap_key := k |}).
  eapply rtc_l; [apply Hidle, (w_cover {| numbers := s'; applying := [] |} scope item k Hc)|]. apply rtc_once. split.
  - by apply (w_finalize {| numbers := s'; applying := [a] |} [] a []).
  - intros b k0 _ _. simpl. destruct (finalizeReserved _ _ _ _ s') as [o1 s1] eqn:Hf. simpl.
    by apply finalize_cases in Hf as [->|(? & ? & ? & ? & _ & _ & _ & _ & ->)].
Qed.

Lemma sound_worlds w : undisturbed_worlds w → sound_world w.
Proof using uuid_inj.
  intros Hw. eapply (rtc_ind_r sound_world); [| |exact Hw].
  - split; [apply inv_empty|]. intros a []%elem_of_nil.
  - intros. by eapply sound_undisturbed.
Qed.
End invariant.
End steps.
