(* ===== verification/NumberingClaims.v ===== *)
(** * NumberingClaims: the properties of the numbering store.

    Each theorem is about states the store can reach, or about one call from any state;
    the witnesses run a small store with one range of ten numbers. *)
From S2P Require Import Prelude JsMap JsText JsDate JsJson OfflineTypes Listing JsCursor RangeAdmin Numbering NumberingInv NumberingSafety.
From Stdlib Require Import Ascii.
From stdpp Require Import pretty.
Local Open Scope Z_scope.

Section claims.
Context (sha256 : string → string) (locale_le : string → string → bool)
        (importDigest : json → string) (uuid_at : nat → string).
Local Notation reachable := (reachable sha256 locale_le importDigest uuid_at).
Local Notation undisturbed_worlds := (undisturbed_worlds sha256 locale_le importDigest uuid_at).
Local Notation steps := (steps sha256 locale_le importDigest uuid_at).
Local Notation allocate := (allocateReservation sha256 locale_le uuid_at).
Local Notation reconcile := (reconcileNumberingReservation importDigest uuid_at).

Lemma entry_status_get s k n st :
  entry_status s k n = Some st →
  ∃ es e, jm_get k (consumption s) = Some es ∧ jm_get n es = Some e ∧ ce_status e = st.
Proof.
  unfold entry_status. intros (es & Hes & (e & He & [= <-])%bind_Some)%bind_Some. eauto.
Qed.

Lemma not_owned v es n e :
  jm_get n es = Some e → rv_startNumber v ≤ n ≤ rv_endNumber v → ¬ owned v es n →
  ce_status e = entry_expired ∧ rv_status v = cancelled.
Proof.
  intros He Hn Ho. destruct (decide (rv_status v = cancelled)) as [Hst|Hst].
  - split; [|done]. destruct (decide (ce_status e = entry_expired)); [done|]. exfalso. apply Ho. split; eauto.
  - exfalso. apply Ho. split; [done|]. intros. congruence.
Qed.

(** C1. No number of a range is live in two reservations: when two reservations of one
    range list the same number, one of them is cancelled and has given the number back
    (its entry is expired). Holds in every state the store reaches by any sequence of
    seeds, creations, reservations, cancellations, blocks, closes, settlements,
    reconciliations and applications, the appliers of items running while other operations
    do, as long as no reservation is cancelled while it covers an item whose applier runs. *)
Theorem no_number_issued_twice
  (uuid_inj : ∀ i j, uuid_at i = uuid_at j → i = j) (w : World) (Hw : undisturbed_worlds w)
  (k1 k2 : string) (v1 v2 : Reservation) (n : Z) (st1 st2 : EntryStatus)
  (Hne : k1 ≠ k2)
  (Hv1 : jm_get k1 (reservations (numbers w)) = Some v1) (Hv2 : jm_get k2 (reservations (numbers w)) = Some v2)
  (Htenant : rv_tenantId v1 = rv_tenantId v2) (Hrange : rv_rangeId v1 = rv_rangeId v2)
  (He1 : entry_status (numbers w) k1 n = Some st1) (He2 : entry_status (numbers w) k2 n = Some st2) :
  (st1 = entry_expired ∧ rv_status v1 = cancelled) ∨ (st2 = entry_expired ∧ rv_status v2 = cancelled).
Proof.
  apply sound_worlds in Hw as [Hi _]; [|done]. revert Hi Hv1 Hv2 He1 He2. generalize (numbers w). intros s Hi Hv1 Hv2 He1 He2.
  apply entry_status_get in He1 as (es1 & e1 & Hes1 & He1 & <-).
  apply entry_status_get in He2 as (es2 & e2 & Hes2 & He2 & <-).
  destruct (inv_reservation _ _ _ _ _ Hi Hv1 Hes1) as [rg1 Hok1].
  destruct (inv_reservation _ _ _ _ _ Hi Hv2 Hes2) as [rg2 Hok2].
  assert (rv_startNumber v1 ≤ n ≤ rv_endNumber v1) as Hn1
    by (apply (entries_ok_range v1 es1); [apply Hok1|by exists e1]).
  assert (rv_startNumber v2 ≤ n ≤ rv_endNumber v2) as Hn2
    by (apply (entries_ok_range v2 es2); [apply Hok2|by exists e2]).
  destruct (decide (rv_status v1 = cancelled)) as [Hc1|Hc1];
    [destruct (decide (ce_status e1 = entry_expired)) as [|Hx1]; [by left|]|];
    right; apply (not_owned v2 es2 n); try done; intros Ho2;
    apply (inv_disjoint _ _ Hi k1 k2 v1 v2 es1 es2 n); try done; split; try done; eauto.
Qed.

Lemma covering_key scope item n s k r :
  inv uuid_at s → tenant_ok (tenantId scope) → jm_get k (reservations s) = Some r →
  covers s scope item n (k, r) = true → k = key (tenantId scope) (rv_reservationId r).
Proof.
  intros Hi Ht Hr Hc. destruct (inv_reservations _ _ Hi _ _ Hr) as (rg & es & []).
  assert (rv_tenantId r = tenantId scope) as Heq; [|by rewrite ro_key, Heq].
  unfold covers in Hc. rewrite !andb_true_iff in Hc. destruct Hc as [[[[[[[Hp _] _] _] _] _] _] _].
  rewrite ro_key in Hp. apply starts_with_spec in Hp as [rest Hrest]. unfold key in Hrest.
  rewrite <- str_app_assoc in Hrest.
  by apply (append_char_inj colon) in Hrest as [? _].
Qed.

Lemma covering_unique scope item n s id :
  inv uuid_at s → tenant_ok (tenantId scope) → ni_reservationId item = Some id → id ≠ EmptyString →
  ∀ k r, jm_get k (reservations s) = Some r → covers s scope item n (k, r) = true →
  List.filter (covers s scope item n) (reservations s) = [(k, r)].
Proof.
  intros Hi Ht Hid Hne k r Hr Hc.
  assert (∀ p, p ∈ reservations s → covers s scope item n p = true → p.1 = key (tenantId scope) id) as Hkey.
  { intros [k' r'] Hin Hc'. apply jm_elem_get in Hin; [|apply (inv_reservations_wf _ _ Hi)].
    rewrite (covering_key _ _ _ _ _ _ Hi Ht Hin Hc'). simpl. f_equal.
    unfold covers in Hc'. rewrite Hid in Hc'. simpl in Hc'. destruct id as [|c id]; [done|].
    rewrite !andb_true_iff in Hc'. destruct Hc' as [[_ Hc'] _]. by apply String.eqb_eq. }
  pose proof (inv_reservations_wf _ _ Hi) as Hwf. apply jm_get_elem in Hr as Hin.
  revert Hkey Hwf Hin. unfold jm_wf, jm_keys. generalize (reservations s). clear -Hc. intros l Hkey Hwf Hin.
  pose proof (Hkey _ Hin Hc) as Hk. simpl in Hk.
  induction l as [|p l IH]; [set_solver|]. cbn [List.filter]. rewrite fmap_cons in Hwf. apply NoDup_cons in Hwf as [Hni Hwf].
  apply elem_of_cons in Hin as [<-|Hin].
  - rewrite Hc. f_equal. apply filter_all_false. apply Forall_forall. intros q Hq.
    destruct (covers s scope item n q) eqn:Hcq; [|done]. exfalso. apply Hni.
    simpl. rewrite Hk, <- (Hkey q); [|by right|done]. apply list_elem_of_fmap. by exists q.
  - destruct (covers s scope item n p) eqn:Hcp; [|apply IH; auto; intros; apply Hkey; [by right|done]].
    exfalso. apply Hni. rewrite (Hkey p); [|by left|done]. rewrite <- Hk.
    apply list_elem_of_fmap. by exists (k, r).
Qed.

(** C2. A reserved number is applied at most once. Once an item naming its reservation
    was applied with its number, every later submission of that number under that
    reservation, after any further operations, is refused as already applied and changes
    nothing. *)
Theorem applied_at_most_once
  (uuid_inj : ∀ i j, uuid_at i = uuid_at j → i = j) (s : Store) (Hs : reachable s)
  (scope : Scope) (Ht : tenant_ok (tenantId scope)) (item : NumberedItem) (id : string) (n : Z)
  (Hid : ni_reservationId item = Some id) (Hne : id ≠ EmptyString)
  (Hn : ni_reservedNumber item = Some n)
  (sid now : string) (s1 : Store) (Happly : applyReserved scope item sid now s = (Ok (), s1))
  (s2 : Store) (Hlater : steps s1 s2) (sid' now' : string) :
  applyReserved scope item sid' now' s2 =
  (Throw (OfflineSyncNumberingOutcome NUMBERING_ALREADY_APPLIED n (Some id)), s2).
Proof.
  apply inv_reachable in Hs as Hi; [|done].
  assert (inv uuid_at s1) as Hi1.
  { pose proof (preserves_inv_apply uuid_at scope item sid now s Hi) as H. by rewrite Happly in H. }
  apply (apply_cases uuid_at) in Happly as [[_ [[_ H]|[e H]]]|(k & v & es & n' & e & _ & Hn' & Hf & Hv & Hst & Hes & He & _ & ->)];
    [congruence|congruence| |done].
  assert (n' = n) as -> by congruence.
  assert (covers s scope item n (k, v) = true) as Hc.
  { assert (In (k, v) (List.filter (covers s scope item n) (reservations s))) as H by (rewrite Hf; by left).
    by apply filter_In in H as [_ ?]. }
  pose proof (covering_key _ _ _ _ _ _ Hi Ht Hv Hc) as Hkk.
  set (s1 := upd_consumption _ s) in *.
  destruct (keeps_steps _ _ _ _ uuid_inj _ _ Hi1 Hlater) as (K1 & K2 & _).
  destruct (K1 k v Hv) as (v' & Hv' & (Hr1 & Hr2 & Hr3 & Hr4 & Hr5) & Hd & Hou & Het).
  assert (entry_status s2 k n = Some entry_applied) as Happ.
  { apply K2; [by exists v|]. unfold entry_status, s1. simpl. rewrite jm_get_set_eq. simpl.
    by rewrite jm_get_set_eq. }
  assert (covers s2 scope item n (k, v') = true) as Hc'.
  { unfold covers in *. rewrite Hd, Hou, Het, Hr1, Hr4, Hr5, Happ. rewrite !andb_true_iff in Hc |- *.
    destruct Hc as [? _]. split; [done|]. rewrite (bool_decide_true (Some entry_applied = _)) by done.
    by rewrite orb_true_r. }
  assert (inv uuid_at s2) as Hi2 by (eapply inv_steps; eauto).
  unfold applyReserved, coverReserved. js_unfold. rewrite Hn.
  unfold Datatypes.id. rewrite (covering_unique _ _ _ _ id Hi2 Ht Hid Hne k v' Hv' Hc').
  rewrite Happ. simpl. rewrite Hr1.
  unfold covers in Hc. rewrite Hid in Hc. simpl in Hc. destruct id as [|c id]; [done|].
  rewrite !andb_true_iff in Hc. destruct Hc as [[_ Hc] _]. apply String.eqb_eq in Hc. by rewrite Hc.
Qed.

Lemma allocated_entry scope input origin rg v s s' n :
  allocated sha256 locale_le scope input origin rg v s s' →
  rv_startNumber v ≤ n ≤ rv_endNumber v →
  entry_status s' (key (tenantId scope) (rv_reservationId v)) n = Some entry_available.
Proof.
  intros (_ & _ & _ & H4 & _) Hn. unfold entry_status. rewrite H4, jm_get_set_eq. simpl.
  assert (NoDup (seqZ (rv_startNumber v) (rv_endNumber v - rv_startNumber v + 1))) as Hnd by apply NoDup_seqZ.
  assert (n ∈ seqZ (rv_startNumber v) (rv_endNumber v - rv_startNumber v + 1)) as Hin by (apply elem_of_seqZ; lia).
  unfold fresh_entries. revert Hin. generalize (seqZ (rv_startNumber v) (rv_endNumber v - rv_startNumber v + 1)).
  intros l. induction l as [|m l IH]; [set_solver|]. simpl. case_decide; [done|].
  intros [?|?]%elem_of_cons; [done|by apply IH].
Qed.

(** A reservation that is not a replay gets the next block of its range: exactly
    [requestedSize] consecutive numbers starting at the range's next number and inside the
    range, all available, none of them live in another reservation of the range; the
    range advances past them and is exhausted exactly when its last number is given out. *)
Theorem reserve_takes_next_block
  (uuid_inj : ∀ i j, uuid_at i = uuid_at j → i = j) (s : Store) (Hs : reachable s)
  (scope : Scope) (Ht : tenant_ok (tenantId scope)) (input : ReserveNumberingInput)
  (Hsize : 1 ≤ rni_requestedSize input) (now until : string) (origin : Origin)
  (Hnew : (replayReservation sha256 locale_le scope input s).1 = Ok None)
  (v : Reservation) (s' : Store) (Hok : allocate scope input now until origin s = (Ok v, s')) :
  ∃ rg, List.find (range_matches scope input) (jm_values (ranges s)) = Some rg ∧
    rg_status rg = range_active ∧
    rv_startNumber v = rg_nextNumber rg ∧
    rv_endNumber v = rv_startNumber v + rni_requestedSize input - 1 ∧
    rg_startNumber rg ≤ rv_startNumber v ∧ rv_endNumber v ≤ rg_endNumber rg ∧
    jm_get (key (tenantId scope) (rg_id rg)) (ranges s') =
      Some (set_rg_progress (rv_endNumber v + 1)
              (if rv_endNumber v =? rg_endNumber rg then range_exhausted else range_active) rg) ∧
    ∀ n, rv_startNumber v ≤ n ≤ rv_endNumber v →
      entry_status s' (key (tenantId scope) (rv_reservationId v)) n = Some entry_available ∧
      ∀ k2 v2 st, jm_get k2 (reservations s) = Some v2 → rv_tenantId v2 = tenantId scope →
        rv_rangeId v2 = rg_id rg → entry_status s k2 n = Some st →
        st = entry_expired ∧ rv_status v2 = cancelled.
Proof.
  apply inv_reachable in Hs as Hi; [|done].
  apply allocate_cases in Hok as [[-> [(v' & [= <-] & Hr)|[e He]]]|(rg & [= ->] & _ & _ & Hfind & Hact & _ & _ & Hend & Hall)];
    [rewrite Hr in Hnew; done|done|].
  pose proof Hfind as [Hin Hm]%List.find_some. unfold range_matches in Hm.
  apply andb_true_iff in Hm as [Htn%String.eqb_eq _].
  apply list_elem_of_In, (jm_values_get _ _ (inv_ranges_wf _ _ Hi)) in Hin as [k Hk].
  destruct (inv_ranges _ _ Hi _ _ Hk) as [Hkey _ _ Hb]. rewrite Htn in Hkey. subst k.
  exists rg. split_and!; try done; [simpl; lia| |].
  { destruct Hall as (-> & _). by rewrite jm_get_set_eq. }
  intros n Hn. split; [by eapply allocated_entry|].
  intros k2 v2 st Hv2 Ht2 Hr2 He2. apply entry_status_get in He2 as (es2 & e2 & Hes2 & He2 & <-).
  destruct (inv_reservation _ _ _ _ _ Hi Hv2 Hes2) as [rg2 []].
  apply (not_owned v2 es2 n); [done|apply (entries_ok_range v2 es2); [done|by exists e2]|].
  intros Ho%ro_next. rewrite Ht2, Hr2 in ro_range. assert (rg2 = rg) as -> by congruence. simpl in Hn. lia.
Qed.

Lemma replay_cases scope input s o s' :
  replayReservation sha256 locale_le scope input s = (o, s') →
  s' = s ∧ match o with
  | Ok None => True
  | Ok (Some v) => ∃ ik f id, rni_idempotencyKey input = Some ik ∧
      jm_get (key (tenantId scope) ik) (reservationKeys s) = Some (f, id) ∧
      jm_get (key (tenantId scope) id) (reservations s) = Some v ∧
      f = reservationFingerprint sha256 locale_le scope input
  | Throw e => e = OfflineSyncReservationReplayError ∧
      ∃ ik f id, rni_idempotencyKey input = Some ik ∧
        jm_get (key (tenantId scope) ik) (reservationKeys s) = Some (f, id) ∧
        f ≠ reservationFingerprint sha256 locale_le scope input
  end.
Proof.
  intros H. unfold replayReservation in H. js_unfold.
  destruct (option_bind _ _ _ _) as [[f id]|] eqn:Hkey; [|by simplify_eq].
  apply bind_Some in Hkey as (ik & Hik & Hk).
  destruct (String.eqb f _) eqn:Hf; simplify_eq/=; split; try done.
  - destruct (jm_get _ (reservations s')) as [v|] eqn:Hv; [|done].
    exists ik, f, id. split_and!; try done. by apply String.eqb_eq.
  - split; [done|]. exists ik, f, id. split_and!; try done. by apply String.eqb_neq.
Qed.

(** A reservation request that fails changes nothing, and each error has its cause: a
    key used for another request, a legacy request without a shift, an active reservation
    of the same device and shift, no matching range, a range that is not active for the
    unit and entity, or too few numbers left. *)
Theorem reserve_error_causes (s s' : Store) (scope : Scope) (input : ReserveNumberingInput)
  (now until : string) (origin : Origin) (e : OfflineError)
  (Hthrow : allocate scope input now until origin s = (Throw e, s')) :
  s' = s ∧
  ((e = OfflineSyncReservationReplayError ∧
      ∃ ik f id, rni_idempotencyKey input = Some ik ∧
        jm_get (key (tenantId scope) ik) (reservationKeys s) = Some (f, id) ∧
        f ≠ reservationFingerprint sha256 locale_le scope input) ∨
   (error_status e = 400 ∧ origin = origin_e6 ∧ rni_shiftId input = None) ∨
   (e = activeReservationError ∧
      ∃ k v, (k, v) ∈ reservations s ∧
        blocks_admission (reservationOrigins s) (tenantId scope) (rni_deviceId input)
          (rni_shiftId input) now origin None (k, v) = true) ∨
   (error_status e = 404 ∧ Forall (λ r, range_matches scope input r = false) (jm_values (ranges s))) ∨
   (∃ rg message, List.find (range_matches scope input) (jm_values (ranges s)) = Some rg ∧
      ((e = OfflineSyncRangeUnavailableError (rangeUnavailableReason rg input) message ∧
          (rg_status rg ≠ range_active ∨ rg_orgUnitId rg ≠ rni_orgUnitId input ∨
           rg_entityType rg ≠ rni_entityType input)) ∨
       (e = OfflineSyncRangeUnavailableError reason_insufficient_capacity message ∧
          rg_endNumber rg < rg_nextNumber rg + rni_requestedSize input - 1)))).
Proof.
  split.
  { apply allocate_cases in Hthrow as [[-> _]|(rg & [=] & _)]. done. }
  unfold allocateReservation, assertReservationAdmission, randomUUID in Hthrow.
  destruct (replayReservation sha256 locale_le scope input s) as [o1 s1] eqn:Hreplay.
  unfold mbind at 1, js_bind at 1 in Hthrow. rewrite Hreplay in Hthrow.
  apply replay_cases in Hreplay as [-> Hreplay]. destruct o1 as [[v|]|e1]; [done| |].
  2: { simplify_eq/=. by left. }
  clear Hreplay. js_unfold. right.
  destruct (bool_decide (origin = origin_e6) && _) eqn:Hshift.
  { apply andb_true_iff in Hshift as [?%bool_decide_eq_true ?%bool_decide_eq_true]. simplify_eq. by left. }
  right. destruct (existsb _ _) eqn:Hadm.
  { apply existsb_exists in Hadm as ([k v] & Hin%list_elem_of_In & Hb). simplify_eq. left. eauto. }
  right. destruct (List.find _ _) as [rg|] eqn:Hfind.
  2: { simplify_eq. left. split; [done|]. apply Forall_forall. intros r Hr.
       by apply (List.find_none _ _ Hfind), list_elem_of_In. }
  right. exists rg. destruct (negb _ || negb _ || negb _) eqn:Hst.
  { simplify_eq. eexists. split; [done|]. left. split; [done|].
    rewrite !orb_true_iff, !negb_true_iff, bool_decide_eq_false, !String.eqb_neq in Hst. tauto. }
  destruct (rg_endNumber rg <? _) eqn:Hcap; [|destruct (rni_idempotencyKey input); simplify_eq/=].
  simplify_eq. eexists. split; [done|]. right. split; [done|]. lia.
Qed.

(** A retried reservation request takes no numbers: after a keyed reservation
    succeeded, the same request under the same key, after any further operations and
    whatever its new time and default, returns that reservation in its current state and
    changes nothing. *)
Theorem keyed_retry_replays
  (uuid_inj : ∀ i j, uuid_at i = uuid_at j → i = j) (s : Store) (Hs : reachable s)
  (scope : Scope) (Ht : tenant_ok (tenantId scope)) (input : ReserveNumberingInput)
  (Hsize : 1 ≤ rni_requestedSize input) (ik : string) (Hik : rni_idempotencyKey input = Some ik)
  (now until : string) (origin : Origin) (v : Reservation) (s1 : Store)
  (Hok : allocate scope input now until origin s = (Ok v, s1))
  (s2 : Store) (Hlater : steps s1 s2) (now' until' : string) (origin' : Origin) :
  ∃ v', allocate scope input now' until' origin' s2 = (Ok v', s2) ∧
    rv_reservationId v' = rv_reservationId v ∧ rv_rangeId v' = rv_rangeId v ∧
    rv_startNumber v' = rv_startNumber v ∧ rv_endNumber v' = rv_endNumber v.
Proof.
  apply inv_reachable in Hs as Hi; [|done].
  assert (inv uuid_at s1) as Hi1.
  { pose proof (preserves_inv_allocate sha256 locale_le uuid_at uuid_inj scope input now until origin
      Ht ltac:(lia) s Hi) as H. by rewrite Hok in H. }
  assert (∃ id, jm_get (key (tenantId scope) ik) (reservationKeys s1) =
                  Some (reservationFingerprint sha256 locale_le scope input, id) ∧
                jm_get (key (tenantId scope) id) (reservations s1) = Some v) as (id & Hkey & Hv).
  { apply allocate_cases in Hok as [[-> [(v0 & [= <-] & Hr)|[e He]]]|(rg & [= ->] & _ & _ & _ & _ & _ & _ & _ & Hall)];
      [|done|].
    - apply replay_cases in Hr as [_ (ik' & f & id & Hik' & Hk & Hv & ->)].
      assert (ik' = ik) as -> by congruence. by exists id.
    - destruct Hall as (_ & H2 & _ & _ & H5 & _). rewrite Hik in H5. eexists.
      rewrite H5, H2, jm_get_set_eq. split; [done|]. by rewrite jm_get_set_eq. }
  destruct (keeps_steps _ _ _ _ uuid_inj _ _ Hi1 Hlater) as (K1 & _ & K3).
  destruct (K1 _ _ Hv) as (v' & Hv' & (Hr1 & Hr2 & Hr3 & Hr4 & Hr5) & _).
  assert (jm_get (key (tenantId scope) ik) (reservationKeys s2) =
            Some (reservationFingerprint sha256 locale_le scope input, id)) as Hkey'.
  { apply K3; [done|]. exists (tenantId scope), ik. split_and!; [done|done|by exists v]. }
  exists v'. split; [|done]. unfold allocateReservation, replayReservation. js_unfold.
  rewrite Hik. simpl. rewrite Hkey', String.eqb_refl. simpl. by rewrite Hv'.
Qed.

(** A durable cancellation gives the tail back. Cancelling a reserved reservation
    expires its unused numbers and keeps its applied and claimed ones; when it is the last
    block of a range that is not cancelled, the range continues right after the highest
    applied or claimed number and is active again, otherwise ranges do not change. A
    second cancellation changes nothing. *)
Theorem durable_cancel_returns_tail
  (uuid_inj : ∀ i j, uuid_at i = uuid_at j → i = j) (s : Store) (Hs : reachable s)
  (scope : Scope) (Ht : tenant_ok (tenantId scope)) (id : string) (v : Reservation)
  (Hv : jm_get (key (tenantId scope) id) (reservations s) = Some v) (Hst : rv_status v = reserved) :
  let k := key (tenantId scope) id in
  ∃ s' rg high, cancelDurableNumberingReservation scope id s = (Ok (set_rv_status cancelled v), s') ∧
    jm_get (key (tenantId scope) (rv_rangeId v)) (ranges s) = Some rg ∧
    rv_startNumber v - 1 ≤ high ≤ rv_endNumber v ∧
    (∀ n st, entry_status s k n = Some st →
       entry_status s' k n = Some (if bool_decide (st = entry_available) then entry_expired else st)) ∧
    (∀ n, high < n → entry_status s' k n = Some entry_expired ∨ entry_status s' k n = None) ∧
    (rv_startNumber v ≤ high → entry_status s k high = Some entry_applied ∨ entry_status s k high = Some entry_claimed) ∧
    jm_get (key (tenantId scope) (rv_rangeId v)) (ranges s') =
      Some (if (rg_nextNumber rg =? rv_endNumber v + 1) && negb (bool_decide (rg_status rg = range_cancelled))
            then set_rg_progress (high + 1) range_active rg else rg) ∧
    cancelDurableNumberingReservation scope id s' = (Ok (set_rv_status cancelled v), s').
Proof.
  intros k. apply inv_reachable in Hs as Hi; [|done].
  destruct (inv_reservations _ _ Hi _ _ Hv) as (rg & es & [Hkey Hvt _ Hrange Hes Hent Hstart Hend Hnext]).
  unfold cancelDurableNumberingReservation.
  destruct (cancelReservation scope id true s) as [o s'] eqn:Heq.
  eapply cancel_cases in Heq as [[_ [(v' & _ & Hv' & Hc & _)|[e He]]]|(v' & Hv' & _ & -> & H1 & _ & _ & _ & _ & _ & H2)];
    [congruence|by destruct (proj2 He v Hv eq_refl)| |exact Hi].
  assert (v' = v) as -> by congruence. cbn [gives_back orb] in H2. destruct H2 as (es' & Hes' & Hc & Hr).
  assert (es' = es) as -> by (unfold k in *; congruence).
  assert (rv_tenantId v = tenantId scope) as Htn by (by apply key_inj in Hkey as [? _]).
  rewrite Htn in Hrange. rewrite Hrange in Hr.
  assert (Hvals : ∀ e, e ∈ jm_values es → jm_get (ce_number e) es = Some e).
  { intros e He. apply jm_values_get in He as [n He].
    - by rewrite (proj1 (proj2 Hent) n e He).
    - unfold jm_wf. rewrite (proj1 Hent). apply NoDup_seqZ. }
  assert (Hmove : ∀ n st, entry_status s k n = Some st →
     entry_status s' k n = Some (if bool_decide (st = entry_available) then entry_expired else st)).
  { intros n st. unfold entry_status. rewrite Hc, jm_get_set_eq. fold k in Hes. rewrite Hes. simpl.
    rewrite jm_get_move_available. destruct (jm_get n es) as [e|]; simpl; [|done]. intros [= <-]. by destruct (bool_decide (ce_status e = entry_available)). }
  exists s', rg, (highest_applied (rv_startNumber v) es). split_and!; try done.
  - apply highest_applied_ge.
  - apply highest_applied_bound; [lia|]. intros e He%Hvals _.
    apply (entries_ok_range v es); [done|by eexists].
  - intros n Hn. destruct (entry_status s k n) as [st|] eqn:He.
    + left. rewrite (Hmove n st He). f_equal. apply entry_status_get in He as (es0 & e & Hes0 & He & <-).
      assert (es0 = es) as -> by (unfold k in *; congruence).
      destruct (proj2 (proj2 Hent) Hst n e He) as [Hs'|Hs']; [by rewrite Hs'|].
      exfalso. pose proof (highest_applied_elem (rv_startNumber v) es e (jm_get_values _ _ _ He)) as Hle.
      rewrite (proj1 (proj2 Hent) n e He) in Hle. unfold held_on_return in Hle.
      destruct Hs' as [Hs'|Hs']; rewrite Hs' in Hle; specialize (Hle eq_refl); lia.
    + right. unfold entry_status in *. rewrite Hc, jm_get_set_eq. fold k in Hes. rewrite Hes in He. simpl in *.
      rewrite jm_get_move_available. by destruct (jm_get n es).
  - intros Hle. destruct (highest_applied_in (rv_startNumber v) es) as (e & He%Hvals & Hh & Hn); [lia|].
    rewrite Hn in He. unfold entry_status. fold k in Hes. rewrite Hes. simpl. rewrite He. simpl.
    unfold held_on_return in Hh. apply orb_true_iff in Hh as [Hh%bool_decide_eq_true|Hh%bool_decide_eq_true];
      rewrite Hh; auto.
  - rewrite Hr. case_match; [by rewrite jm_get_set_eq|done].
  - unfold cancelReservation. js_unfold. fold k. by rewrite H1, jm_get_set_eq.
Qed.

Lemma covering_owned scope item n s k r es :
  inv uuid_at s → jm_get k (reservations s) = Some r → jm_get k (consumption s) = Some es →
  covers s scope item n (k, r) = true → owned r es n.
Proof.
  intros Hi Hr Hes Hc. split; [by eapply covers_in_range|]. intros Hst.
  unfold covers in Hc. rewrite Hst in Hc. rewrite !andb_true_iff in Hc. destruct Hc as [_ Hc]. simpl in Hc.
  apply orb_true_iff in Hc as [Hc%bool_decide_eq_true|Hc%bool_decide_eq_true];
    apply entry_status_get in Hc as (es0 & e & Hes0 & He & Hs); exists e;
    (split; [congruence|rewrite Hs; discriminate]).
Qed.

(** A submitted number is ambiguous only across ranges: when the coverage check finds
    more than one reservation, two of them belong to different ranges of the tenant. Within
    one range every number has at most one covering reservation. *)
Theorem ambiguity_needs_two_ranges
  (uuid_inj : ∀ i j, uuid_at i = uuid_at j → i = j) (s : Store) (Hs : reachable s)
  (scope : Scope) (Ht : tenant_ok (tenantId scope)) (item : NumberedItem) (n : Z) (r : option string) (s' : Store)
  (Hthrow : coverReserved scope item s = (Throw (OfflineSyncNumberingOutcome NUMBERING_AMBIGUOUS n r), s')) :
  ∃ k1 k2 v1 v2, jm_get k1 (reservations s) = Some v1 ∧ jm_get k2 (reservations s) = Some v2 ∧
    covers s scope item n (k1, v1) = true ∧ covers s scope item n (k2, v2) = true ∧
    rv_rangeId v1 ≠ rv_rangeId v2.
Proof.
  apply inv_reachable in Hs as Hi; [|done]. unfold coverReserved in Hthrow. js_unfold. unfold Datatypes.id in *.
  destruct (ni_reservedNumber item) as [m|]; [|done].
  destruct (List.filter _ _) as [|[k1 v1] [|[k2 v2] l]] eqn:Hf; [done| |].
  { destruct (bool_decide _); simpl in Hthrow; [done|]. by destruct (negb _ || _). }
  simplify_eq. exists k1, k2, v1, v2.
  assert (∀ p, p ∈ (k1, v1) :: (k2, v2) :: l → p ∈ reservations s' ∧ covers s' scope item n p = true) as Hp.
  { intros p Hin. rewrite <- Hf in Hin. apply list_elem_of_In, filter_In in Hin as [? ?].
    by rewrite list_elem_of_In. }
  pose proof (inv_reservations_wf _ _ Hi) as Hwf.
  destruct (Hp (k1, v1)) as [Hin1 Hc1]; [by left|]. destruct (Hp (k2, v2)) as [Hin2 Hc2]; [by right; left|].
  apply (jm_elem_get _ _ _ Hwf) in Hin1 as Hv1. apply (jm_elem_get _ _ _ Hwf) in Hin2 as Hv2.
  assert (k1 ≠ k2) as Hne.
  { intros <-. unfold jm_wf, jm_keys in Hwf.
    assert (NoDup (List.filter (covers s' scope item n) (reservations s')).*1) as Hnd.
    { revert Hwf. generalize (reservations s'). clear. intros m. generalize (covers s' scope item n). intros f.
      induction m as [|p m IH]; intros Hwf; [constructor|]. rewrite fmap_cons in Hwf.
      apply NoDup_cons in Hwf as [Hni Hwf]. cbn [List.filter]. destruct (f p); [|by apply IH].
      rewrite fmap_cons. constructor; [|by apply IH]. intros (q & Hq & Hin)%list_elem_of_fmap.
      apply list_elem_of_In, filter_In in Hin as [Hin _]. apply Hni. rewrite Hq.
      apply list_elem_of_fmap_2. by apply list_elem_of_In. }
    rewrite Hf in Hnd. rewrite !fmap_cons in Hnd. apply NoDup_cons in Hnd as [Hni _]. apply Hni. by left. }
  split_and!; try done. intros Hrange.
  destruct (inv_reservations _ _ Hi _ _ Hv1) as (rg1 & es1 & Hok1).
  destruct (inv_reservations _ _ Hi _ _ Hv2) as (rg2 & es2 & Hok2).
  pose proof (covering_key _ _ _ _ _ _ Hi Ht Hv1 Hc1) as Hk1.
  pose proof (covering_key _ _ _ _ _ _ Hi Ht Hv2 Hc2) as Hk2.
  rewrite (ro_key _ _ _ _ _ _ Hok1) in Hk1. rewrite (ro_key _ _ _ _ _ _ Hok2) in Hk2.
  apply key_inj in Hk1 as [Ht1 _]; [|apply Hok1|done]. apply key_inj in Hk2 as [Ht2 _]; [|apply Hok2|done].
  apply (inv_disjoint _ _ Hi k1 k2 v1 v2 es1 es2 n); try done.
  - apply Hok1.
  - apply Hok2.
  - congruence.
  - eapply covering_owned; eauto. apply Hok1.
  - eapply covering_owned; eauto. apply Hok2.
Qed.

(** ** Reconciliation *)

Lemma reconcile_ok scope id input now s r s' :
  reconcile scope id input now s = (Ok r, s') →
  let k := key (tenantId scope) id in
  ∃ claimed f, reconciliationRequest importDigest scope input = Ok (claimed, f) ∧
  is_Some (jm_get k (reservations s)) ∧ is_Some (jm_get k (consumption s)) ∧
  ((s' = s ∧ ∃ ik prior record, rci_idempotencyKey input = Some ik ∧
      List.find (same_reconciliation scope id ik) (jm_values (reconciliations s)) = Some (prior, record) ∧
      prior = f ∧ r = rec_result record) ∨
   (∃ v es rid at_ projected, let es' := claimed_entries v claimed es in
      (∀ ik, rci_idempotencyKey input = Some ik →
         List.find (same_reconciliation scope id ik) (jm_values (reconciliations s)) = None) ∧
      forallb (λ n, jm_has n es) claimed = true ∧
      jm_get k (reservations s) = Some v ∧ jm_get k (consumption s) = Some es ∧
      jm_get k (consumption s') = Some es' ∧ jm_get k (reservations s') = Some v ∧
      projectNumberingConsumption (rv_status v) (rv_validUntil v) (jm_values es') at_ = Ok projected ∧
      r = reconciliationResult {| cr_reservationId := id; cr_status := rv_status v; cr_consumption := projected |}
            claimed rid ∧
      ∃ record, rec_result record = r ∧ rec_tenantId record = tenantId scope ∧ rec_reservationId record = id ∧
        rec_idempotencyKey record = rci_idempotencyKey input ∧
        reconciliations s' = jm_set (key (tenantId scope) rid) (f, record) (reconciliations s))).
Proof.
  intros Heq k. unfold reconcileNumberingReservation, randomUUID in Heq. fold k in Heq. js_unfold.
  destruct (consumptionReadInstant now) as [at_|]; [|done].
  destruct (reconciliationRequest importDigest scope input) as [[claimed f]|] eqn:Hreq; [|done].
  destruct (jm_get k (reservations s)) as [v|] eqn:Hv; [|done].
  destruct (jm_get k (consumption s)) as [es|] eqn:Hes; [|done].
  exists claimed, f. split_and!; [done..|].
  destruct (option_bind _ _ _ _) as [[prior record]|] eqn:Hfind.
  - left. apply bind_Some in Hfind as (ik & Hik & Hf). destruct (String.eqb prior f) eqn:He; simplify_eq/=.
    apply String.eqb_eq in He as ->. split; [done|]. by exists ik, f, record.
  - destruct (forallb _ claimed) eqn:Hall; [|done]. simpl in Heq. right.
    destruct (projectNumberingConsumption _ _ _ _) as [projected|] eqn:Hp; [|done].
    simplify_eq/=. exists v, es, (uuid_at (uuids s)), at_, projected. simpl.
    split_and!; try done; [|by rewrite jm_get_set_eq|eexists; split_and!; [| | | |reflexivity]; done].
    intros ik Hik. rewrite Hik in Hfind. exact Hfind.
Qed.

Lemma project_numbers status until es at_ projected :
  projectNumberingConsumption status until es at_ = Ok projected →
  map ce_number projected = map ce_number es ∧
  Forall2 (λ e p, is_applied p = is_applied e) es projected.
Proof.
  unfold projectNumberingConsumption. intros H. js_unfold.
  destruct (match status with reserved => _ | _ => _ end) as [fb|] eqn:Hfb; [|done].
  assert (fb ≠ entry_applied) as Hne by (destruct status; repeat case_match; by simplify_eq).
  simplify_eq. clear Hfb. induction es as [|e es [IH1 IH2]]; simpl; [by split|]. split.
  - f_equal; [by case_match|done].
  - constructor; [|done]. case_bool_decide as He; [|done]. unfold is_applied. simpl.
    rewrite !bool_decide_false; [done|by rewrite He|done].
Qed.

Lemma request_claims scope input cl f n :
  reconciliationRequest importDigest scope input = Ok (cl, f) →
  n ∈ cl ↔ n ∈ default [] (rci_claimedNumbers input).
Proof.
  unfold reconciliationRequest. intros H. js_unfold.
  destruct (rangeText (actorId scope) 255); [|done]. destruct (rangeText (tenantId scope) 255); [|done].
  destruct (optional_text _ 255); [|done].
  destruct (match rci_userRef input with Some _ => _ | None => _ end); [done|].
  destruct (match rci_claimedNumbers input with Some _ => _ | None => _ end); [done|].
  simplify_eq. rewrite js_sort_perm, set_values_elem. pose proof (not_elem_of_nil n). tauto.
Qed.

(** The numbers selected by a test on claims and one on applied entries. *)
Lemma difference_elem (g : Z → bool) (b : bool) es projected n :
  map ce_number projected = map ce_number es → Forall2 (λ e p, is_applied p = is_applied e) es projected →
  n ∈ map ce_number (List.filter (λ e, g (ce_number e) && eqb (is_applied e) b) projected) ↔
  g n = true ∧ ∃ e, e ∈ es ∧ ce_number e = n ∧ is_applied e = b.
Proof.
  intros Hnum Happ. revert Hnum. induction Happ as [|e p es projected He _ IH]; simpl.
  - intros _. rewrite elem_of_nil. split; [done|]. intros (_ & e & He & _). by apply elem_of_nil in He.
  - intros [= Hn Hrest]. specialize (IH Hrest). rewrite Hn, He.
    assert ((∃ e', e' ∈ e :: es ∧ ce_number e' = n ∧ is_applied e' = b) ↔
            (ce_number e = n ∧ is_applied e = b) ∨ ∃ e', e' ∈ es ∧ ce_number e' = n ∧ is_applied e' = b) as ->.
    { setoid_rewrite elem_of_cons. naive_solver. }
    destruct (g (ce_number e) && eqb (is_applied e) b) eqn:Hb; cbn [map]; rewrite ?elem_of_cons, IH, ?Hn.
    + apply andb_true_iff in Hb as [Hg Heb%eqb_prop]. naive_solver.
    + apply andb_false_iff in Hb as [Hb|Hb%eqb_false_iff]; [|naive_solver].
      split; [naive_solver|]. intros (Hg & [[<- _]|?]); [congruence|naive_solver].
Qed.

(** The status of a number is that of the entry that carries it. *)
Lemma entry_status_values s k v es n st :
  jm_get k (consumption s) = Some es → entries_ok v es →
  entry_status s k n = Some st ↔ ∃ e, e ∈ jm_values es ∧ ce_number e = n ∧ ce_status e = st.
Proof.
  intros Hes Hent. split.
  - intros (es0 & e & Hes0 & He & <-)%entry_status_get. assert (es0 = es) as -> by congruence.
    exists e. split_and!; [by eapply jm_get_values|by apply Hent|done].
  - intros (e & He & <- & <-). apply jm_values_get in He as [n' He];
      [|unfold jm_wf; rewrite (proj1 Hent); apply NoDup_seqZ].
    rewrite (proj1 (proj2 Hent) n' e He). unfold entry_status. rewrite Hes. simpl. by rewrite He.
Qed.

(** A reconciliation compares the device's claims with the server's book. In its result
    the numbers missing on the server are exactly the claimed numbers of the reservation
    whose entry is not applied, and the unexpected ones exactly the applied numbers the
    device did not claim. The claims are those of the request without repetition. *)
Theorem reconcile_difference
  (uuid_inj : ∀ i j, uuid_at i = uuid_at j → i = j) (s : Store) (Hs : reachable s)
  (scope : Scope) (id : string) (input : ReconcileInput) (now : string)
  (Hnokey : rci_idempotencyKey input = None)
  (r : ReconcileResult) (s' : Store) (Hok : reconcile scope id input now s = (Ok r, s')) :
  let k := key (tenantId scope) id in
  let claimed n := n ∈ default [] (rci_claimedNumbers input) in
  (∀ n, n ∈ rr_missingOnServer r ↔
     claimed n ∧ is_Some (entry_status s' k n) ∧ entry_status s' k n ≠ Some entry_applied) ∧
  (∀ n, n ∈ rr_unexpectedOnServer r ↔ ¬ claimed n ∧ entry_status s' k n = Some entry_applied) ∧
  (∀ n, claimed n → is_Some (entry_status s' k n)).
Proof.
  intros k claimed. apply inv_reachable in Hs as Hi; [|done].
  assert (inv uuid_at s') as Hi'.
  { pose proof (preserves_inv_reconcile importDigest uuid_at scope id input now s Hi) as H. by rewrite Hok in H. }
  apply reconcile_ok in Hok as (cl & f & Hreq & _ & _ & [(_ & ik & ? & ? & Hik & _)|(v & es & rid & at_ & projected & _ & Hall & Hv & Hes & Hes' & Hv' & Hp & -> & _)]);
    [congruence|]. fold k in Hv, Hes, Hes', Hv'.
  assert (∀ n, existsb (Z.eqb n) cl = true ↔ claimed n) as Hcl.
  { intros n. rewrite existsb_elem. by eapply request_claims. }
  set (es' := claimed_entries v cl es) in *.
  destruct (inv_reservation _ _ _ _ _ Hi Hv Hes) as [rg0 [_ _ _ _ _ Hent0 _ _ _]].
  destruct (inv_reservation _ _ _ _ _ Hi' Hv' Hes') as [rg [_ _ _ _ _ Hent _ _ _]].
  apply project_numbers in Hp as [Hnum Happ].
  pose proof (λ n st, entry_status_values s' k v es' n st Hes' Hent) as Hbook.
  split_and!; intros n.
  - cbn [rr_missingOnServer reconciliationResult cr_consumption].
    rewrite (List.filter_ext _ (λ e, existsb (Z.eqb (ce_number e)) cl && eqb (is_applied e) false))
      by (intros e; by destruct (is_applied e)).
    rewrite (difference_elem (λ n, existsb (Z.eqb n) cl) _ (jm_values es')), Hcl by done. split.
    + intros (? & e & He & <- & Ha%bool_decide_eq_false). split_and!; [done| |].
      * exists (ce_status e). apply Hbook. eauto.
      * intros Happl. apply Ha. apply Hbook in Happl as (e' & He' & Hn' & <-).
        assert (entry_status s' k (ce_number e) = Some (ce_status e)) as H1 by (apply Hbook; eauto).
        assert (entry_status s' k (ce_number e) = Some (ce_status e')) as H2 by (apply Hbook; eauto). congruence.
    + intros (? & [st Hst] & Hna). split; [done|]. pose proof Hst as (e & He & Hn & Hs')%Hbook.
      exists e. split_and!; [done|done|]. apply bool_decide_eq_false. congruence.
  - cbn [rr_unexpectedOnServer reconciliationResult cr_consumption].
    rewrite (List.filter_ext _ (λ e, negb (existsb (Z.eqb (ce_number e)) cl) && eqb (is_applied e) true))
      by (intros e; by destruct (is_applied e)).
    rewrite (difference_elem (λ n, negb (existsb (Z.eqb n) cl)) _ (jm_values es')) by done.
    rewrite negb_true_iff, <- not_true_iff_false, Hcl, Hbook. unfold is_applied.
    setoid_rewrite bool_decide_eq_true. done.
  - intros Hn%Hcl%existsb_elem. rewrite List.forallb_forall in Hall. apply list_elem_of_In, Hall in Hn.
    unfold jm_has in Hn. apply bool_decide_eq_true in Hn. apply (entries_ok_range v es n Hent0) in Hn.
    apply (entries_ok_range v es' n Hent) in Hn as [e He]. exists (ce_status e).
    unfold entry_status. rewrite Hes'. simpl. by rewrite He.
Qed.

Lemma reconcile_replays scope id input now s ik at_ claimed f record :
  consumptionReadInstant now = Ok at_ → reconciliationRequest importDigest scope input = Ok (claimed, f) →
  is_Some (jm_get (key (tenantId scope) id) (reservations s)) →
  is_Some (jm_get (key (tenantId scope) id) (consumption s)) →
  rci_idempotencyKey input = Some ik →
  List.find (same_reconciliation scope id ik) (jm_values (reconciliations s)) = Some (f, record) →
  reconcile scope id input now s = (Ok (rec_result record), s).
Proof.
  intros Hat Hreq [v Hv] [es Hes] Hik Hfind. unfold reconcileNumberingReservation. js_unfold.
  rewrite Hat, Hreq, Hv, Hes, Hik. simpl. rewrite Hfind. by rewrite String.eqb_refl.
Qed.

Lemma find_set_new {A} (f : A → bool) k (v : A) (m : jsmap string A) :
  List.find f (jm_values m) = None → f v = true → List.find f (jm_values (jm_set k v m)) = Some v.
Proof.
  unfold jm_values. intros Hn Hv. induction m as [|[k' v'] m IH]; simpl in *; [by rewrite Hv|].
  destruct (f v') eqn:Hf; [done|]. case_decide; simpl; [by rewrite Hv|]. rewrite Hf. by apply IH.
Qed.

(** A retried reconciliation repeats its answer: under the same idempotency key the
    same request returns the stored result, at any later instant, and changes nothing. *)
Theorem reconcile_retry (s : Store) (scope : Scope) (id ik : string) (input : ReconcileInput)
  (Hik : rci_idempotencyKey input = Some ik) (now : string) (r : ReconcileResult) (s1 : Store)
  (Hok : reconcile scope id input now s = (Ok r, s1))
  (now' : string) (at_ : Z) (Hnow : consumptionReadInstant now' = Ok at_) :
  reconcile scope id input now' s1 = (Ok r, s1).
Proof.
  apply reconcile_ok in Hok as (cl & f & Hreq & Hv & Hes &
    [(-> & ik' & prior & record & Hik' & Hfind & -> & ->)|
     (v & es & rid & at0 & projected & Hnone & _ & _ & _ & Hes' & Hv' & _ & -> & record & Hr & Ht & Hid & Hk & Hrec)]).
  - assert (ik' = ik) as -> by congruence. by eapply reconcile_replays.
  - rewrite <- Hr. eapply reconcile_replays; eauto.
    rewrite Hrec. apply find_set_new; [by apply Hnone|].
    unfold same_reconciliation. simpl. rewrite Ht, Hid, Hk, Hik, !String.eqb_refl. by rewrite bool_decide_true.
Qed.

(** Reading consumption changes nothing and shows a number as available only while it
    can still be used: the reservation is reserved and the instant read is before its
    [validUntil]. Applied and claimed numbers are shown as stored; unused ones of a blocked
    reservation read as blocked and of any other reservation as expired. *)
Theorem consumption_view (s s' : Store) (scope : Scope) (id now : string) (clock : Z) (r : ConsumptionResult)
  (Hok : getNumberingConsumption scope id (Some now) clock s = (Ok r, s')) :
  s' = s ∧ ∃ v es observed, jm_get (key (tenantId scope) id) (reservations s) = Some v ∧
    jm_get (key (tenantId scope) id) (consumption s) = Some es ∧
    instantMicroseconds now = Some observed ∧ cr_status r = rv_status v ∧
    Forall2 (λ stored shown, ce_number shown = ce_number stored ∧
        ce_serverEntityId shown = ce_serverEntityId stored ∧
        if bool_decide (ce_status stored = entry_available) then
          match ce_status shown with
          | entry_available => rv_status v = reserved ∧
              ∃ until, instantMicroseconds (rv_validUntil v) = Some until ∧ observed < until
          | entry_blocked => rv_status v = blocked
          | entry_expired => rv_status v ≠ blocked
          | _ => False
          end
        else ce_status shown = ce_status stored)
      (jm_values es) (cr_consumption r).
Proof.
  unfold getNumberingConsumption, consumptionReadInstant in Hok. js_unfold. simpl in Hok.
  destruct (instantMicroseconds now) as [observed|]; [|done].
  destruct (jm_get _ (reservations s)) as [v|]; [|done].
  destruct (jm_get _ (consumption s)) as [es|]; [|done].
  destruct (projectNumberingConsumption _ _ _ _) as [projected|] eqn:Hp; [|done]. simplify_eq/=.
  split; [done|]. exists v, es, observed. split_and!; try done.
  unfold projectNumberingConsumption, consumptionReadInstant in Hp. js_unfold.
  destruct (match rv_status v with reserved => _ | _ => _ end) as [fb|] eqn:Hfb; [|done]. simplify_eq.
  clear -Hfb. induction (jm_values es) as [|e l IH]; constructor; [|done]. clear IH.
  case_bool_decide as He; [|done]. split_and!; try done. simpl.
  destruct (rv_status v) eqn:Hst; simplify_eq; try done.
  destruct (instantMicroseconds (rv_validUntil v)) as [until|]; simplify_eq.
  destruct (until <=? observed) eqn:Hu; [done|]. split; [done|]. exists until. split; [done|lia].
Qed.
End claims.

(** ** A concrete store *)

(** One range 101..110 of tenant t1, seeded; two devices; the host functions are simple
    stand-ins. *)
Module Example.
Definition sha (s : string) : string := s.
Definition collate : string → string → bool := utf16_le.
Definition digest (j : json) : string := default EmptyString (encode j).
Definition ids (i : nat) : string := "id-" +:+ pretty i.

Definition range : NumberingRange :=
  {| rg_id := "r1"; rg_tenantId := "t1"; rg_orgUnitId := "u1"; rg_entityType := "form"; rg_series := "A";
     rg_startNumber := 101; rg_endNumber := 110; rg_nextNumber := 101; rg_status := range_active;
     rg_consumerAttributes := None; rg_createdBy := None; rg_createdAt := None; rg_updatedAt := None;
     rg_cancelledBy := None; rg_cancellationReason := None; rg_cancelledAt := None |}.
Definition scope : Scope := {| tenantId := "t1"; actorId := "a1"; sc_agentId := None; sc_ctg9 := false |}.
Definition request (device : string) (size : Z) (ik : option string) : ReserveNumberingInput :=
  {| rni_orgUnitId := "u1"; rni_deviceId := device; rni_shiftId := None; rni_entityType := "form";
     rni_requestedSize := size; rni_rangeId := None; rni_series := Some "A"; rni_validUntil := None;
     rni_idempotencyKey := ik; rni_agentId := None |}.
Definition t0 : string := "2026-09-29T08:00:00.000Z".
Definition t1 : string := "2026-09-29T09:00:00.000Z".
Definition tomorrow : string := "2026-09-30T08:00:00.000Z".
Definition item (device id : string) (n : Z) : NumberedItem :=
  {| ni_deviceId := device; ni_orgUnitId := "u1"; ni_entityType := "form"; ni_reservationId := Some id;
     ni_reservedNumber := Some n; ni_createdLocallyAt := t1 |}.

Definition reserve device size ik := OpReserve scope (request device size ik) t0 tomorrow origin_ctg9.
Definition exec : list op → Store → Store := fold_left (λ s o, run sha collate digest ids o s).
Definition s0 : Store := exec [OpSeed range] empty_store.
(** Device d1 takes 101..104 under a key. *)
Definition s1 : Store := exec [reserve "d1" 4 (Some "k1")] s0.
(** It applies 102 and gives the rest back; device d2 takes 103..105. *)
Definition s2 : Store := exec [OpApply scope (item "d1" "id-0" 102) "e102" t1] s1.
Definition s3 : Store := exec [OpCancel scope "id-0" true] s2.
Definition s4 : Store := exec [reserve "d2" 3 None] s3.

Lemma ids_inj : ∀ i j, ids i = ids j → i = j.
Proof.
  unfold ids. intros i j H. rewrite !str_app_cons, !str_app_nil in H. injection H as H.
  by apply (inj pretty) in H.
Qed.

Lemma tenant : tenant_ok (tenantId scope).
Proof. reflexivity. Qed.

Lemma seed_fits : seed_ok ids empty_store range.
Proof.
  split_and!; [reflexivity|simpl; lia..| |reflexivity].
  intros j _ H. unfold ids in H. rewrite str_app_cons in H. discriminate.
Qed.

Local Notation steps := (steps sha collate digest ids).
Lemma steps_exec l s s' :
  (∀ o, In o l → ∀ s, admissible ids o s) → steps s s' → steps s (exec l s').
Proof.
  revert s'. induction l as [|o l IH]; intros s' Hl Hs; simpl; [done|].
  apply IH; [intros; apply Hl; by right|]. apply steps_op; [done|]. apply Hl. by left.
Qed.

Lemma reachable_s0 : reachable sha collate digest ids s0.
Proof. apply (steps_op sha collate digest ids empty_store empty_store (OpSeed range)); [constructor|apply seed_fits]. Qed.
Lemma reserve_admissible device size ik s : 1 ≤ size → admissible ids (reserve device size ik) s.
Proof. by split. Qed.
Lemma reachable_s1 : reachable sha collate digest ids s1.
Proof. apply steps_exec; [|apply reachable_s0]. intros o [<-|[]] s. by apply reserve_admissible. Qed.
Lemma reachable_s2 : reachable sha collate digest ids s2.
Proof. apply steps_exec; [|apply reachable_s1]. by intros o [<-|[]] s. Qed.
Lemma steps_2_4 : steps s2 s4.
Proof.
  apply steps_exec; [intros o [<-|[]] s; by apply reserve_admissible|].
  apply steps_exec; [by intros o [<-|[]] s|]. constructor.
Qed.
Lemma reachable_s4 : reachable sha collate digest ids s4.
Proof. eapply steps_trans; [apply reachable_s2|apply steps_2_4]. Qed.
End Example.

(** ** Two behaviours at the edges *)

Import Example.

(** The condition is needed: the coverage check does not protect the applier's await. With one
    range of ten numbers, device d1's item 102 passes the check; while its applier runs, the
    reservation is cancelled (the tail 101..104 returns to the range) and device d2 reserves three
    numbers; the first item is finalised and d2 applies 102 as well. One number of one range is
    then applied under two reservations. *)
Definition early : Application := {| ap_scope := scope; ap_item := item "d1" "id-0" 102; ap_key := Some "t1:id-0" |}.
Definition given_back : Store := run sha collate digest ids (OpCancel scope "id-0" true) s1.
Definition taken_back : Store := run sha collate digest ids (reserve "d2" 3 None) given_back.
Definition late : Store := (finalizeReserved (ap_key early) (ap_item early) "e1" t1 taken_back).2.
Definition reissued : World :=
  {| numbers := run sha collate digest ids (OpApply scope (item "d2" "id-1" 102) "e2" t1) late; applying := [] |}.
Theorem cancel_during_apply_reissues :
  rtc (wstep sha collate digest ids) new_world reissued ∧
  entry_status (numbers reissued) "t1:id-0" 102 = Some entry_applied ∧
  entry_status (numbers reissued) "t1:id-1" 102 = Some entry_applied ∧
  rv_rangeId <$> jm_get "t1:id-0" (reservations (numbers reissued)) =
  rv_rangeId <$> jm_get "t1:id-1" (reservations (numbers reissued)).
Proof.
  split; [|vm_compute; split_and!; reflexivity].
  etrans; [eapply rtc_subrel; [|apply steps_undisturbed; exact reachable_s1]; by intros ? ? [H _]|].
  apply (rtc_l _ _ {| numbers := s1; applying := [early] |}).
  { refine (w_cover _ _ _ _ {| numbers := s1; applying := [] |} scope (item "d1" "id-0" 102) (Some "t1:id-0") _). vm_compute. reflexivity. }
  apply (rtc_l _ _ {| numbers := given_back; applying := [early] |}).
  { refine (w_run _ _ _ _ {| numbers := s1; applying := [early] |} (OpCancel scope "id-0" true) _ tenant). discriminate. }
  apply (rtc_l _ _ {| numbers := taken_back; applying := [early] |}).
  { refine (w_run _ _ _ _ {| numbers := given_back; applying := [early] |}
      (reserve "d2" 3 None) _ (reserve_admissible "d2" 3 None _ _)); [discriminate|lia]. }
  apply (rtc_l _ _ {| numbers := late; applying := [] |}).
  { exact (w_finalize _ _ _ _ {| numbers := taken_back; applying := [early] |} [] early [] "e1" t1 eq_refl). }
  assert (steps sha collate digest ids late (numbers reissued)) as Hs.
  { exact (steps_op _ _ _ _ late late (OpApply scope (item "d2" "id-1" 102) "e2" t1) (steps_refl _ _ _ _ late) I). }
  apply steps_undisturbed in Hs. eapply rtc_subrel; [|exact Hs]. by intros ? ? [H _].
Qed.

Definition dated_request : ReserveNumberingInput :=
  {| rni_orgUnitId := "u1"; rni_deviceId := "d1"; rni_shiftId := None; rni_entityType := "form";
     rni_requestedSize := 2; rni_rangeId := None; rni_series := Some "A"; rni_validUntil := Some "2026-10-01";
     rni_idempotencyKey := None; rni_agentId := None |}.
Definition claim_101 : ReconcileInput :=
  {| rci_idempotencyKey := None; rci_claimedNumbers := Some [101]; rci_userRef := None |}.

(** A reconciliation that fails is not undone. A reservation may carry a [validUntil]
    that [Date.parse] reads but the instant parser of consumption does not, such as a date
    alone; reconciling it answers 400, yet the claimed number stays claimed, and its
    consumption cannot be read any more. *)
Theorem failed_reconcile_keeps_claims :
  let s := exec [OpReserve scope dated_request t0 tomorrow origin_ctg9] s0 in
  entry_status s "t1:id-0" 101 = Some entry_available ∧
  let '(o, s') := reconcileNumberingReservation digest ids scope "id-0" claim_101 t1 s in
  o = Throw (OfflineSyncError INVALID_INPUT 400 "Invalid consumption read instant.") ∧
  entry_status s' "t1:id-0" 101 = Some entry_claimed ∧
  getNumberingConsumption scope "id-0" (Some t1) 0 s' =
    (Throw (OfflineSyncError INVALID_INPUT 400 "Invalid consumption read instant."), s').
Proof. vm_compute. split_and!; reflexivity. Qed.

(** ** Witnesses *)

Definition entry_at (s : Store) (k : string) : Reservation :=
  default (new_reservation scope (request "" 0 None) "" range "") (jm_get k (reservations s)).

(** Item 103 of device d2 is being applied. *)
Definition w4 : World :=
  {| numbers := s4; applying := [{| ap_scope := scope; ap_item := item "d2" "id-1" 103; ap_key := Some "t1:id-1" |}] |}.
Lemma undisturbed_w4 : undisturbed_worlds sha collate digest ids w4.
Proof.
  eapply rtc_r; [apply steps_undisturbed; exact reachable_s4|]. split; [|by intros a k []%elem_of_nil].
  apply (w_cover sha collate digest ids {| numbers := s4; applying := [] |} scope). vm_compute. reflexivity.
Qed.
Lemma no_number_issued_twice_witness :
  entry_status s4 "t1:id-0" 103 = Some entry_expired ∧ entry_status s4 "t1:id-1" 103 = Some entry_available ∧
  ((entry_expired = entry_expired ∧ rv_status (entry_at s4 "t1:id-0") = cancelled) ∨
   (entry_available = entry_expired ∧ rv_status (entry_at s4 "t1:id-1") = cancelled)).
Proof.
  split; [reflexivity|]. split; [reflexivity|].
  apply (no_number_issued_twice sha collate digest ids ids_inj w4 undisturbed_w4 "t1:id-0" "t1:id-1" _ _ 103);
    first [discriminate|reflexivity].
Defined.

Lemma applied_at_most_once_witness :
  applyReserved scope (item "d1" "id-0" 102) "again" t1 s4 =
  (Throw (OfflineSyncNumberingOutcome NUMBERING_ALREADY_APPLIED 102 (Some "id-0")), s4).
Proof.
  apply (applied_at_most_once sha collate digest ids ids_inj s1 reachable_s1 scope tenant
           (item "d1" "id-0" 102) "id-0" 102 eq_refl ltac:(discriminate) eq_refl "e102" t1 s2 ltac:(vm_compute; reflexivity)
           s4 steps_2_4).
Defined.

Lemma reserve_takes_next_block_witness :
  ∃ rg, List.find (range_matches scope (request "d2" 3 None)) (jm_values (ranges s1)) = Some rg ∧
    rg_nextNumber rg = 105.
Proof.
  destruct (reserve_takes_next_block sha collate digest ids ids_inj s1 reachable_s1 scope tenant
    (request "d2" 3 None) ltac:(simpl; lia) t0 tomorrow origin_ctg9 eq_refl
    (new_reservation scope (request "d2" 3 None) tomorrow (set_rg_progress 105 range_active range) "id-1")
    (exec [reserve "d2" 3 None] s1) ltac:(vm_compute; reflexivity)) as (rg & Hf & _ & Hn & _).
  exists rg. split; [exact Hf|]. symmetry. exact Hn.
Defined.

Lemma reserve_error_causes_witness :
  ∃ rg, List.find (range_matches scope (request "d2" 7 None)) (jm_values (ranges s1)) = Some rg ∧
    rg_endNumber rg < rg_nextNumber rg + 7 - 1.
Proof.
  destruct (reserve_error_causes sha collate ids s1 s1 scope (request "d2" 7 None) t0 tomorrow origin_ctg9
    (OfflineSyncRangeUnavailableError reason_insufficient_capacity
      "The selected numbering range has insufficient capacity.") ltac:(vm_compute; reflexivity))
    as [_ [[H _]|[[H _]|[[H _]|[[H _]|(rg & m & Hf & [[H _]|[_ H]])]]]]]; try discriminate.
  - vm_compute in Hf. injection Hf as <-. discriminate.
  - exists rg. split; [exact Hf|exact H].
Defined.

Lemma keyed_retry_replays_witness :
  ∃ v', allocateReservation sha collate ids scope (request "d1" 4 (Some "k1")) t1 tomorrow origin_ctg9 s4 = (Ok v', s4)
    ∧ rv_reservationId v' = "id-0".
Proof.
  destruct (keyed_retry_replays sha collate digest ids ids_inj s0 reachable_s0 scope tenant
    (request "d1" 4 (Some "k1")) ltac:(simpl; lia) "k1" eq_refl t0 tomorrow origin_ctg9
    (new_reservation scope (request "d1" 4 None) tomorrow range "id-0") s1 ltac:(vm_compute; reflexivity)
    s4 (steps_trans _ _ _ _ s1 s2 s4 ltac:(apply steps_exec; [by intros o [<-|[]] s|constructor]) steps_2_4)
    t1 tomorrow origin_ctg9) as (v' & Heq & Hid & _).
  exists v'. split; [exact Heq|exact Hid].
Defined.

Lemma durable_cancel_returns_tail_witness :
  ∃ s', cancelDurableNumberingReservation scope "id-0" s2 =
    (Ok (set_rv_status cancelled (entry_at s2 "t1:id-0")), s').
Proof.
  destruct (durable_cancel_returns_tail sha collate digest ids ids_inj s2 reachable_s2 scope tenant "id-0"
    (entry_at s2 "t1:id-0") eq_refl eq_refl) as (s' & rg & high & H & _).
  exists s'. exact H.
Defined.

(** Two series of one unit that share numbers. *)
Definition range_b : NumberingRange :=
  {| rg_id := "r2"; rg_tenantId := "t1"; rg_orgUnitId := "u1"; rg_entityType := "form"; rg_series := "B";
     rg_startNumber := 101; rg_endNumber := 110; rg_nextNumber := 101; rg_status := range_active;
     rg_consumerAttributes := None; rg_createdBy := None; rg_createdAt := None; rg_updatedAt := None;
     rg_cancelledBy := None; rg_cancellationReason := None; rg_cancelledAt := None |}.
Definition request_b : ReserveNumberingInput :=
  {| rni_orgUnitId := "u1"; rni_deviceId := "d1"; rni_shiftId := Some "s2"; rni_entityType := "form";
     rni_requestedSize := 2; rni_rangeId := None; rni_series := Some "B"; rni_validUntil := None;
     rni_idempotencyKey := None; rni_agentId := None |}.
Definition s_two : Store := exec [OpReserve scope request_b t0 tomorrow origin_ctg9] (exec [OpSeed range_b] s1).
Definition item_any : NumberedItem :=
  {| ni_deviceId := "d1"; ni_orgUnitId := "u1"; ni_entityType := "form"; ni_reservationId := None;
     ni_reservedNumber := Some 101; ni_createdLocallyAt := t1 |}.

Lemma seed_fits_b : seed_ok ids s1 range_b.
Proof.
  split_and!; [reflexivity|simpl; lia..| |reflexivity].
  intros j _ H. unfold ids in H. rewrite str_app_cons in H. discriminate.
Qed.

Lemma reachable_s_two : reachable sha collate digest ids s_two.
Proof.
  apply steps_exec; [intros o [<-|[]] s; by split|].
  apply (steps_op sha collate digest ids empty_store s1 (OpSeed range_b)); [apply reachable_s1|apply seed_fits_b].
Qed.

Lemma ambiguity_needs_two_ranges_witness :
  ∃ k1 k2 v1 v2, jm_get k1 (reservations s_two) = Some v1 ∧ jm_get k2 (reservations s_two) = Some v2 ∧
    rv_rangeId v1 ≠ rv_rangeId v2.
Proof.
  destruct (ambiguity_needs_two_ranges sha collate digest ids ids_inj s_two reachable_s_two scope tenant
    item_any 101 None s_two ltac:(vm_compute; reflexivity)) as (k1 & k2 & v1 & v2 & H1 & H2 & _ & _ & H3).
  exists k1, k2, v1, v2. split; [exact H1|]. split; [exact H2|exact H3].
Defined.

Definition claim_input (ik : option string) : ReconcileInput :=
  {| rci_idempotencyKey := ik; rci_claimedNumbers := Some [103; 101; 103]; rci_userRef := None |}.
Definition reconciled (ik : option string) : ReconcileResult * Store :=
  match reconcileNumberingReservation digest ids scope "id-0" (claim_input ik) t1 s2 with
  | (Ok r, s') => (r, s')
  | (Throw _, s') => (Build_ReconcileResult (Build_ConsumptionResult "" reserved []) "" [] [], s')
  end.

Lemma reconcile_difference_witness :
  101 ∈ rr_missingOnServer (reconciled None).1 ↔
  101 ∈ [103; 101; 103] ∧ is_Some (entry_status (reconciled None).2 "t1:id-0" 101) ∧
  entry_status (reconciled None).2 "t1:id-0" 101 ≠ Some entry_applied.
Proof.
  destruct (reconcile_difference sha collate digest ids ids_inj s2 reachable_s2 scope "id-0" (claim_input None) t1
    eq_refl (reconciled None).1 (reconciled None).2 ltac:(vm_compute; reflexivity)) as (H & _).
  exact (H 101).
Defined.

Lemma reconcile_retry_witness :
  reconcileNumberingReservation digest ids scope "id-0" (claim_input (Some "rk")) tomorrow (reconciled (Some "rk")).2 =
  (Ok (reconciled (Some "rk")).1, (reconciled (Some "rk")).2).
Proof.
  apply (reconcile_retry digest ids s2 scope "id-0" "rk" (claim_input (Some "rk")) eq_refl t1
    (reconciled (Some "rk")).1 (reconciled (Some "rk")).2 ltac:(vm_compute; reflexivity) tomorrow 1790755200000000 eq_refl).
Defined.

Definition viewed : ConsumptionResult :=
  match getNumberingConsumption scope "id-0" (Some t1) 0 s2 with
  | (Ok r, _) => r
  | _ => Build_ConsumptionResult "" reserved []
  end.

Lemma consumption_view_witness : ∃ v es, jm_get "t1:id-0" (reservations s2) = Some v ∧
  jm_get "t1:id-0" (consumption s2) = Some es ∧ cr_status viewed = rv_status v ∧ length (cr_consumption viewed) = 4%nat.
Proof.
  destruct (consumption_view s2 s2 scope "id-0" t1 0 viewed ltac:(vm_compute; reflexivity))
    as (_ & v & es & _ & Hv & Hes & _ & Hst & _).
  exists v, es. split; [exact Hv|]. split; [exact Hes|]. split; [exact Hst|reflexivity].
Defined.
