(* ===== verification/SessionSpec.v ===== *)
(** * SessionSpec: what a session store promises.

    The interface [SessionStore] of [sessions/src/types.ts] as operations over an abstract
    state of finite maps, and the laws an implementation owes. The service is verified
    against the laws alone. *)
From S2P Require Import Prelude JsMap JsText JsDate JsJson.

(** ** The data of the sessions package.

    [sessions/src/types.ts] and [errors.ts]. An instant is the text [toISOString] gives, and
    a clock reading the time value of a [Date]. *)

Local Open Scope Z_scope.

Inductive SessionStatus := st_active | st_revoked | st_reuse_detected.
#[export] Instance SessionStatus_eq_dec : EqDecision SessionStatus.
Proof. solve_decision. Defined.

Record SessionRecord := {
  sr_sid : string;
  sr_userId : string;
  sr_tenantId : string;
  sr_cognitoSub : string;
  sr_membershipId : option string;
  sr_permsHash : option string;
  sr_permissions : option (list string);
  sr_roles : option (list string);
  sr_deviceMeta : option json;
  sr_refreshFamilyId : string;
  sr_refreshTokenHash : string;
  sr_status : SessionStatus;
  sr_createdAt : string;
  sr_updatedAt : string;
  sr_lastTouchedAt : string;
  sr_expiresAt : string;
  sr_idleExpiresAt : string;
  sr_revokedAt : option string;
  sr_strongFactorVerifiedAt : option string }.

Inductive LookupState := lookup_active | lookup_used.
#[export] Instance LookupState_eq_dec : EqDecision LookupState.
Proof. solve_decision. Defined.

Record RefreshTokenLookup := { rl_sid : string; rl_familyId : string; rl_state : LookupState }.

Record SessionMirrorEntry := {
  me_sid : string; me_tenantId : string; me_userId : string; me_membershipId : option string;
  me_status : SessionStatus; me_expiresAt : string; me_createdAt : string }.

Record SessionAuthorizationClaims := {
  ac_permissions : list string; ac_roles : list string; ac_permsHash : option string }.

Record SessionClaimsSubject := {
  cs_sid : string; cs_userId : string; cs_tenantId : string; cs_expiresAt : string }.

Record IssuedAccessToken := { at_token : string; at_expiresAt : string }.

Record SessionBundle := {
  sb_sid : string;
  sb_revokedSessionIds : option (list string);
  sb_accessToken : string;
  sb_accessTokenExpiresAt : string;
  sb_refreshToken : string;
  sb_expiresAt : string;
  sb_idleExpiresAt : string }.

Record SessionCreateMetadata := {
  cm_membershipId : option string;
  cm_permsHash : option string;
  cm_claims : option SessionAuthorizationClaims;
  cm_verifiedFactorClaims : option (list (string * json));
  cm_priorSessionId : option string }.

Inductive SingleSessionMode := mode_off | mode_revoke_existing | mode_reject_new.
#[export] Instance SingleSessionMode_eq_dec : EqDecision SingleSessionMode.
Proof. solve_decision. Defined.

Record SessionPolicyOptions := {
  po_mode : SingleSessionMode; po_now : string; po_priorSessionId : option string }.

Record SessionPolicyResult := { pr_created : SessionRecord; pr_revoked : list SessionRecord }.

Record SessionExchangeOptions := {
  eo_sessionId : string; eo_newTenantId : string; eo_actorUserId : string;
  eo_membershipId : option string; eo_deviceMeta : option json; eo_permsHash : option string }.

Record SessionRevocationEntry := { re_sid : string; re_revokedAt : string }.

(** [ResolvedStynxSessionsModuleOptions], the members the service and the list read. *)
Record StrongFactor := { sf_claimName : string; sf_acceptedValues : list string }.
Record SessionOptions := {
  opt_mode : SingleSessionMode;
  opt_strongFactor : option StrongFactor;
  opt_accessSeconds : Z;
  opt_absoluteSeconds : Z;
  opt_idleSeconds : Z;
  opt_maxStalenessMs : Z }.

Inductive ExchangeCode := SESSION_NOT_FOUND | SESSION_OWNER_MISMATCH | SESSION_NOT_ACTIVE.

Inductive SessionError :=
| InvalidRefreshTokenError
| RefreshTokenReuseDetectedError (sid : string)
| SessionExpiredError (sid : string)
| SessionConflictError
| StrongFactorRequiredError
| SessionExchangeError (code : ExchangeCode)
| PlainError (message : string)
| InvalidDate
| PortError (message : string).
#[export] Instance ExchangeCode_eq_dec : EqDecision ExchangeCode.
Proof. solve_decision. Defined.
#[export] Instance SessionError_eq_dec : EqDecision SessionError.
Proof. solve_decision. Defined.

(** A string used as a condition. *)
Definition truthy_string (s : option string) : option string :=
  match s with Some EmptyString | None => None | Some v => Some v end.

(** ** Updates *)

Definition set_touched (hash idleExpiresAt touchedAt : string) (r : SessionRecord) : SessionRecord :=
  {| sr_sid := sr_sid r; sr_userId := sr_userId r; sr_tenantId := sr_tenantId r;
     sr_cognitoSub := sr_cognitoSub r; sr_membershipId := sr_membershipId r;
     sr_permsHash := sr_permsHash r; sr_permissions := sr_permissions r; sr_roles := sr_roles r;
     sr_deviceMeta := sr_deviceMeta r; sr_refreshFamilyId := sr_refreshFamilyId r;
     sr_refreshTokenHash := hash; sr_status := sr_status r; sr_createdAt := sr_createdAt r;
     sr_updatedAt := touchedAt; sr_lastTouchedAt := touchedAt; sr_expiresAt := sr_expiresAt r;
     sr_idleExpiresAt := idleExpiresAt; sr_revokedAt := sr_revokedAt r;
     sr_strongFactorVerifiedAt := sr_strongFactorVerifiedAt r |}.

Definition set_revoked (status : SessionStatus) (revokedAt : string) (r : SessionRecord) : SessionRecord :=
  {| sr_sid := sr_sid r; sr_userId := sr_userId r; sr_tenantId := sr_tenantId r;
     sr_cognitoSub := sr_cognitoSub r; sr_membershipId := sr_membershipId r;
     sr_permsHash := sr_permsHash r; sr_permissions := sr_permissions r; sr_roles := sr_roles r;
     sr_deviceMeta := sr_deviceMeta r; sr_refreshFamilyId := sr_refreshFamilyId r;
     sr_refreshTokenHash := sr_refreshTokenHash r; sr_status := status; sr_createdAt := sr_createdAt r;
     sr_updatedAt := revokedAt; sr_lastTouchedAt := sr_lastTouchedAt r; sr_expiresAt := sr_expiresAt r;
     sr_idleExpiresAt := sr_idleExpiresAt r; sr_revokedAt := Some revokedAt;
     sr_strongFactorVerifiedAt := sr_strongFactorVerifiedAt r |}.

(** [{ ...record, permissions, roles, permsHash? }] *)
Definition set_claims (claims : SessionAuthorizationClaims) (r : SessionRecord) : SessionRecord :=
  {| sr_sid := sr_sid r; sr_userId := sr_userId r; sr_tenantId := sr_tenantId r;
     sr_cognitoSub := sr_cognitoSub r; sr_membershipId := sr_membershipId r;
     sr_permsHash := match ac_permsHash claims with Some h => Some h | None => sr_permsHash r end;
     sr_permissions := Some (ac_permissions claims); sr_roles := Some (ac_roles claims);
     sr_deviceMeta := sr_deviceMeta r; sr_refreshFamilyId := sr_refreshFamilyId r;
     sr_refreshTokenHash := sr_refreshTokenHash r; sr_status := sr_status r; sr_createdAt := sr_createdAt r;
     sr_updatedAt := sr_updatedAt r; sr_lastTouchedAt := sr_lastTouchedAt r; sr_expiresAt := sr_expiresAt r;
     sr_idleExpiresAt := sr_idleExpiresAt r; sr_revokedAt := sr_revokedAt r;
     sr_strongFactorVerifiedAt := sr_strongFactorVerifiedAt r |}.

(** The methods of [SessionStore]. *)
Class SessionStore (St : Type) := {
  createSession : SessionRecord → JS St SessionError ();
  createWithPolicy : SessionRecord → SessionPolicyOptions → JS St SessionError SessionPolicyResult;
  getSession : string → JS St SessionError (option SessionRecord);
  lookupRefreshToken : string → JS St SessionError (option RefreshTokenLookup);
  rotateRefreshToken : string → string → string → string → string →
    JS St SessionError (option SessionRecord);
  touchSession : string → string → string → JS St SessionError (option SessionRecord);
  revokeSession : string → string → SessionStatus → JS St SessionError (option SessionRecord);
  listSessionIdsByUser : string → JS St SessionError (list string);
  listSessionIdsByTenant : string → JS St SessionError (list string);
  publishInvalidation : string → JS St SessionError ();
  listRevokedSessions : string → JS St SessionError (list SessionRevocationEntry) }.

(** ** The abstract state *)

Record AbsSessions := {
  as_sessions : gmap string SessionRecord;
  as_lookups : gmap string RefreshTokenLookup;
  as_revoked : gmap string string;
  as_invalidations : list string }.

Definition abs_empty : AbsSessions :=
  {| as_sessions := ∅; as_lookups := ∅; as_revoked := ∅; as_invalidations := [] |}.

Definition lookup_of (state : LookupState) (r : SessionRecord) : RefreshTokenLookup :=
  {| rl_sid := sr_sid r; rl_familyId := sr_refreshFamilyId r; rl_state := state |}.

Definition abs_insert (r : SessionRecord) (a : AbsSessions) : AbsSessions :=
  {| as_sessions := <[sr_sid r := r]> (as_sessions a);
     as_lookups := <[sr_refreshTokenHash r := lookup_of lookup_active r]> (as_lookups a);
     as_revoked := as_revoked a; as_invalidations := as_invalidations a |}.

(** The session ends: its refresh token is spent and its id is listed as revoked. *)
Definition abs_retire (revokedAt : string) (a : AbsSessions) (r : SessionRecord) : AbsSessions :=
  {| as_sessions := delete (sr_sid r) (as_sessions a);
     as_lookups := <[sr_refreshTokenHash r := lookup_of lookup_used r]> (as_lookups a);
     as_revoked := <[sr_sid r := revokedAt]> (as_revoked a);
     as_invalidations := as_invalidations a |}.

Definition abs_rotate (r : SessionRecord) (next idle at_ : string) (a : AbsSessions) : AbsSessions :=
  {| as_sessions := <[sr_sid r := set_touched next idle at_ r]> (as_sessions a);
     as_lookups := <[next := lookup_of lookup_active r]>
                     (<[sr_refreshTokenHash r := lookup_of lookup_used r]> (as_lookups a));
     as_revoked := as_revoked a; as_invalidations := as_invalidations a |}.

Definition abs_touch (r : SessionRecord) (idle at_ : string) (a : AbsSessions) : AbsSessions :=
  {| as_sessions := <[sr_sid r := set_touched (sr_refreshTokenHash r) idle at_ r]> (as_sessions a);
     as_lookups := as_lookups a;
     as_revoked := as_revoked a; as_invalidations := as_invalidations a |}.

Definition abs_publish (message : string) (a : AbsSessions) : AbsSessions :=
  {| as_sessions := as_sessions a; as_lookups := as_lookups a; as_revoked := as_revoked a;
     as_invalidations := as_invalidations a ++ [message] |}.

(** [listRevokedSessions(since)] forgets the revocations older than [since]. *)
Definition abs_recent (since : string) (a : AbsSessions) : gmap string string :=
  filter (λ p, date_gt since p.2 = false) (as_revoked a).
Definition abs_prune (since : string) (a : AbsSessions) : AbsSessions :=
  {| as_sessions := as_sessions a; as_lookups := as_lookups a; as_revoked := abs_recent since a;
     as_invalidations := as_invalidations a |}.

(** Every live session is stored under its id and its current token is the only active one
    that names it; a revoked id has no session. *)
Record abs_wf (a : AbsSessions) : Prop := {
  wf_sid sid r : as_sessions a !! sid = Some r → sr_sid r = sid;
  wf_hash sid r : as_sessions a !! sid = Some r →
    as_lookups a !! sr_refreshTokenHash r = Some (lookup_of lookup_active r);
  wf_active h l : as_lookups a !! h = Some l → rl_state l = lookup_active →
    ∃ r, as_sessions a !! rl_sid l = Some r ∧ sr_refreshTokenHash r = h;
  wf_revoked sid : is_Some (as_revoked a !! sid) → as_sessions a !! sid = None }.

(** A record whose id and token are new. *)
Definition abs_fresh (r : SessionRecord) (a : AbsSessions) : Prop :=
  as_sessions a !! sr_sid r = None ∧ as_revoked a !! sr_sid r = None ∧
  as_lookups a !! sr_refreshTokenHash r = None.

(** ** The single-session policy *)

Definition isActive (r : SessionRecord) (now : string) : bool :=
  bool_decide (sr_status r = st_active) && date_gt (sr_expiresAt r) now && date_gt (sr_idleExpiresAt r) now.

Definition conflicting (r : SessionRecord) (o : SessionPolicyOptions) (old : SessionRecord) : bool :=
  bool_decide (sr_userId old = sr_userId r) && bool_decide (Some (sr_sid old) ≠ po_priorSessionId o)
  && String.eqb (sr_tenantId old) (sr_tenantId r) && isActive old (po_now o).

(** The live sessions the policy is about, each once. *)
Definition conflict_list (r : SessionRecord) (o : SessionPolicyOptions) (a : AbsSessions)
    (cs : list SessionRecord) : Prop :=
  NoDup (sr_sid <$> cs) ∧
  ∀ old, old ∈ cs ↔ as_sessions a !! sr_sid old = Some old ∧ conflicting r o old = true.

(** The prior session the options name, when they name one. *)
Definition abs_prior (o : SessionPolicyOptions) (a : AbsSessions) : option SessionRecord :=
  sid ← truthy_string (po_priorSessionId o); as_sessions a !! sid.
Definition prior_refused (r : SessionRecord) (o : SessionPolicyOptions) (a : AbsSessions) : bool :=
  match truthy_string (po_priorSessionId o) with
  | None => false
  | Some _ =>
      match abs_prior o a with
      | None => true
      | Some p => negb (String.eqb (sr_userId p) (sr_userId r)) || negb (isActive p (po_now o))
      end
  end.

Definition victims (o : SessionPolicyOptions) (prior : option SessionRecord) (cs : list SessionRecord) :
    list SessionRecord :=
  (if decide (po_mode o = mode_revoke_existing) then cs else []) ++ option_list prior.

Inductive abs_policy (r : SessionRecord) (o : SessionPolicyOptions) (a : AbsSessions) :
    outcome SessionError SessionPolicyResult → AbsSessions → Prop :=
| policy_prior :
    prior_refused r o a = true →
    abs_policy r o a (Throw (SessionExchangeError SESSION_NOT_ACTIVE)) a
| policy_conflict cs :
    prior_refused r o a = false → conflict_list r o a cs →
    po_mode o = mode_reject_new → cs ≠ [] →
    abs_policy r o a (Throw SessionConflictError) a
| policy_switch cs :
    prior_refused r o a = false → conflict_list r o a cs →
    ¬ (po_mode o = mode_reject_new ∧ cs ≠ []) →
    abs_policy r o a
      (Ok {| pr_created := r;
             pr_revoked := set_revoked st_revoked (po_now o) <$> victims o (abs_prior o a) cs |})
      (abs_insert r (foldl (abs_retire (po_now o)) a (victims o (abs_prior o a) cs))).

(** ** The laws *)

(** [m] run in [s] returns [o] and leaves a state of the invariant seen as [a']. *)
Definition lands {St A} (inv : St → Prop) (view : St → AbsSessions)
    (m : JS St SessionError A) (s : St) (o : outcome SessionError A) (a' : AbsSessions) : Prop :=
  ∃ s', m s = (o, s') ∧ inv s' ∧ view s' = a'.

Class SessionStoreLaws (St : Type) `{SessionStore St} (inv : St → Prop) (view : St → AbsSessions) : Prop := {
  inv_wf s : inv s → abs_wf (view s);
  getSession_law s sid : inv s → getSession sid s = (Ok (as_sessions (view s) !! sid), s);
  lookupRefreshToken_law s h : inv s → lookupRefreshToken h s = (Ok (as_lookups (view s) !! h), s);
  createSession_law s r : inv s → abs_fresh r (view s) →
    lands inv view (createSession r) s (Ok ()) (abs_insert r (view s));
  createWithPolicy_law s r o : inv s → abs_fresh r (view s) →
    ∃ out a', lands inv view (createWithPolicy r o) s out a' ∧ abs_policy r o (view s) out a';
  rotateRefreshToken_law s sid h next idle at_ : inv s → as_lookups (view s) !! next = None →
    match as_sessions (view s) !! sid with
    | Some r =>
        if decide (sr_refreshTokenHash r = h)
        then lands inv view (rotateRefreshToken sid h next idle at_) s
               (Ok (Some (set_touched next idle at_ r))) (abs_rotate r next idle at_ (view s))
        else lands inv view (rotateRefreshToken sid h next idle at_) s (Ok None) (view s)
    | None => lands inv view (rotateRefreshToken sid h next idle at_) s (Ok None) (view s)
    end;
  touchSession_law s sid idle at_ : inv s →
    match as_sessions (view s) !! sid with
    | Some r => lands inv view (touchSession sid idle at_) s
                  (Ok (Some (set_touched (sr_refreshTokenHash r) idle at_ r))) (abs_touch r idle at_ (view s))
    | None => lands inv view (touchSession sid idle at_) s (Ok None) (view s)
    end;
  revokeSession_law s sid at_ status : inv s →
    match as_sessions (view s) !! sid with
    | Some r => lands inv view (revokeSession sid at_ status) s
                  (Ok (Some (set_revoked status at_ r))) (abs_retire at_ (view s) r)
    | None => lands inv view (revokeSession sid at_ status) s (Ok None) (view s)
    end;
  listSessionIdsByUser_law s u : inv s → ∃ l,
    listSessionIdsByUser u s = (Ok l, s) ∧ NoDup l ∧
    ∀ sid, sid ∈ l ↔ ∃ r, as_sessions (view s) !! sid = Some r ∧ sr_userId r = u;
  listSessionIdsByTenant_law s t : inv s → ∃ l,
    listSessionIdsByTenant t s = (Ok l, s) ∧ NoDup l ∧
    ∀ sid, sid ∈ l ↔ ∃ r, as_sessions (view s) !! sid = Some r ∧ sr_tenantId r = t;
  publishInvalidation_law s msg : inv s →
    lands inv view (publishInvalidation msg) s (Ok ()) (abs_publish msg (view s));
  listRevokedSessions_law s since : inv s → ∃ l,
    lands inv view (listRevokedSessions since) s (Ok l) (abs_prune since (view s)) ∧
    ∀ sid at_, {| re_sid := sid; re_revokedAt := at_ |} ∈ l ↔ abs_recent since (view s) !! sid = Some at_ }.

(** ** The abstract operations keep well-formedness *)

Lemma abs_wf_empty : abs_wf abs_empty.
Proof. split; intros *; simpl; rewrite ?lookup_empty; done. Qed.

Lemma abs_wf_insert r a : abs_wf a → abs_fresh r a → abs_wf (abs_insert r a).
Proof.
  intros [W1 W2 W3 W4] (F1 & F2 & F3). split; cbn [abs_insert as_sessions as_lookups as_revoked].
  - intros sid r'. rewrite lookup_insert_Some. naive_solver.
  - intros sid r'. rewrite lookup_insert_Some. intros [[<- <-]|[Hne Hr]]; [by rewrite lookup_insert_eq|].
    rewrite lookup_insert_ne; [eauto|]. intros He. apply W2 in Hr. rewrite <- He in Hr. congruence.
  - intros h l. rewrite lookup_insert_Some. intros [[<- <-]|[Hne Hl]] Hs.
    { exists r. simpl. by rewrite lookup_insert_eq. }
    destruct (W3 _ _ Hl Hs) as (r' & Hr' & Hh). exists r'. split; [|done].
    rewrite lookup_insert_ne; [done|]. congruence.
  - intros sid Hsid. rewrite lookup_insert_None. split; [eauto|]. intros <-.
    rewrite F2 in Hsid. by destruct Hsid.
Qed.

Lemma abs_wf_retire t r a :
  abs_wf a → as_sessions a !! sr_sid r = Some r → abs_wf (abs_retire t a r).
Proof.
  intros [W1 W2 W3 W4] Hin. split; cbn [abs_retire as_sessions as_lookups as_revoked].
  - intros sid r'. rewrite lookup_delete_Some. naive_solver.
  - intros sid r'. rewrite lookup_delete_Some. intros [Hne Hr].
    rewrite lookup_insert_ne; [eauto|]. intros He. pose proof (W2 _ _ Hr) as H1. pose proof (W2 _ _ Hin) as H2.
    rewrite <- He, H2 in H1. pose proof (W1 _ _ Hr). unfold lookup_of in H1. congruence.
  - intros h l. rewrite lookup_insert_Some. intros [[<- <-]|[Hne Hl]] Hs; [done|].
    destruct (W3 _ _ Hl Hs) as (r' & Hr' & Hh). exists r'. split; [|done].
    rewrite lookup_delete_ne; [done|]. intros He. rewrite <- He in Hr'. congruence.
  - intros sid Hsid. rewrite lookup_delete_None.
    destruct (decide (sr_sid r = sid)) as [|Hne]; [by left|right]. rewrite lookup_insert_ne in Hsid by done. eauto.
Qed.

Lemma abs_wf_rotate r next idle t a :
  abs_wf a → as_sessions a !! sr_sid r = Some r → as_lookups a !! next = None →
  abs_wf (abs_rotate r next idle t a).
Proof.
  intros [W1 W2 W3 W4] Hin Hnext. pose proof (W2 _ _ Hin) as Hr.
  assert (sr_refreshTokenHash r ≠ next) as Hne by congruence.
  split; cbn [abs_rotate as_sessions as_lookups as_revoked].
  - intros sid r'. rewrite lookup_insert_Some. naive_solver.
  - intros sid r'. rewrite lookup_insert_Some. intros [[<- <-]|[Hs Hr']].
    { simpl. by rewrite lookup_insert_eq. }
    pose proof (W2 _ _ Hr') as H1. pose proof (W1 _ _ Hr').
    rewrite !lookup_insert_ne; [done| |].
    + intros He. rewrite <- He, Hr in H1. unfold lookup_of in H1. congruence.
    + congruence.
  - intros h l. rewrite !lookup_insert_Some.
    intros [[<- <-]|[Hn [[<- <-]|[Hn2 Hl]]]] Hs; [|done|].
    { exists (set_touched next idle t r). simpl. by rewrite lookup_insert_eq. }
    destruct (W3 _ _ Hl Hs) as (r' & Hr' & Hh). exists r'. split; [|done].
    rewrite lookup_insert_ne; [done|]. intros He. rewrite <- He in Hr'. congruence.
  - intros sid Hsid. rewrite lookup_insert_None. split; [eauto|]. intros <-.
    apply W4 in Hsid. congruence.
Qed.

Lemma abs_wf_touch r idle t a :
  abs_wf a → as_sessions a !! sr_sid r = Some r → abs_wf (abs_touch r idle t a).
Proof.
  intros [W1 W2 W3 W4] Hin. split; cbn [abs_touch as_sessions as_lookups as_revoked].
  - intros sid r'. rewrite lookup_insert_Some. naive_solver.
  - intros sid r'. rewrite lookup_insert_Some. intros [[<- <-]|[Hs Hr']]; [exact (W2 _ _ Hin)|eauto].
  - intros h l Hl Hs. destruct (W3 _ _ Hl Hs) as (r' & Hr' & Hh).
    destruct (decide (sr_sid r = rl_sid l)) as [He|].
    + rewrite He, lookup_insert_eq. eexists. split; [done|]. simpl. rewrite <- He in Hr'. congruence.
    + rewrite lookup_insert_ne by done. eauto.
  - intros sid Hsid. rewrite lookup_insert_None. split; [eauto|]. intros <-.
    apply W4 in Hsid. congruence.
Qed.

Lemma abs_wf_publish m a : abs_wf a → abs_wf (abs_publish m a).
Proof. by intros []. Qed.

Lemma abs_wf_prune t a : abs_wf a → abs_wf (abs_prune t a).
Proof.
  intros [W1 W2 W3 W4]. split; try done. simpl. unfold abs_recent. intros sid [x Hx].
  apply map_lookup_filter_Some in Hx as [Hx _]. eauto.
Qed.

(** Retiring distinct live sessions one after the other. *)
Lemma foldl_retire_sessions t a rs sid :
  as_sessions (foldl (abs_retire t) a rs) !! sid =
  if decide (sid ∈ sr_sid <$> rs) then None else as_sessions a !! sid.
Proof.
  revert a. induction rs as [|r rs IH]; intros a; [by rewrite decide_False by set_solver|]; cbn [foldl].
  rewrite IH. simpl. destruct (decide (sid = sr_sid r)) as [->|Hne].
  - rewrite lookup_delete_eq. repeat case_decide; set_solver.
  - rewrite lookup_delete_ne by done. repeat case_decide; set_solver.
Qed.

Lemma foldl_retire_revoked t a rs sid :
  as_revoked (foldl (abs_retire t) a rs) !! sid =
  if decide (sid ∈ sr_sid <$> rs) then Some t else as_revoked a !! sid.
Proof.
  revert a. induction rs as [|r rs IH]; intros a; [by rewrite decide_False by set_solver|]; cbn [foldl].
  rewrite IH. simpl. destruct (decide (sid = sr_sid r)) as [->|Hne].
  - rewrite lookup_insert_eq. repeat case_decide; set_solver.
  - rewrite lookup_insert_ne by done. repeat case_decide; set_solver.
Qed.

Lemma foldl_retire_lookups t a rs h :
  h ∉ sr_refreshTokenHash <$> rs →
  as_lookups (foldl (abs_retire t) a rs) !! h = as_lookups a !! h.
Proof.
  revert a. induction rs as [|r rs IH]; intros a; simpl; [done|].
  rewrite not_elem_of_cons. intros [Hne Hh]. rewrite IH by done. simpl. by rewrite lookup_insert_ne.
Qed.

Lemma abs_wf_retire_all t a rs :
  abs_wf a → NoDup (sr_sid <$> rs) → (∀ r, r ∈ rs → as_sessions a !! sr_sid r = Some r) →
  abs_wf (foldl (abs_retire t) a rs).
Proof.
  revert a. induction rs as [|r rs IH]; intros a Hwf Hnd Hin; simpl in *; [done|].
  apply NoDup_cons in Hnd as [Hni Hnd]. apply IH; [|done|].
  - apply abs_wf_retire; [done|]. apply Hin. by left.
  - intros r' Hr'. simpl. rewrite lookup_delete_ne; [apply Hin; by right|].
    intros He. apply Hni. rewrite He. by apply list_elem_of_fmap_2.
Qed.

(** The sessions a policy ends are live, and each is ended once. *)
Lemma victims_live r o a cs :
  abs_wf a → prior_refused r o a = false → conflict_list r o a cs →
  NoDup (sr_sid <$> victims o (abs_prior o a) cs) ∧
  ∀ v, v ∈ victims o (abs_prior o a) cs → as_sessions a !! sr_sid v = Some v.
Proof.
  intros Hwf Hp [Hnd Hin]. unfold victims, abs_prior.
  assert (∀ p sid, truthy_string (po_priorSessionId o) = Some sid → as_sessions a !! sid = Some p →
            sr_sid p = sid ∧ sr_sid p ∉ sr_sid <$> cs) as Hprior.
  { intros p sid Ht Hg. pose proof (wf_sid _ Hwf _ _ Hg) as Hsid. split; [done|].
    intros (c & He & Hc)%list_elem_of_fmap. apply Hin in Hc as [_ Hc]. unfold conflicting in Hc.
    rewrite !andb_true_iff, !bool_decide_eq_true in Hc. destruct Hc as [[[_ Hne] _] _].
    apply Hne. destruct (po_priorSessionId o) as [[|? ?]|]; simpl in Ht; congruence. }
  assert (∀ P : Prop, ∀ l : list SessionRecord, NoDup (sr_sid <$> l) →
    (∀ v, v ∈ l → v ∈ cs) →
    NoDup (sr_sid <$> l ++ option_list (sid ← truthy_string (po_priorSessionId o); as_sessions a !! sid)) ∧
    ∀ v, v ∈ l ++ option_list (sid ← truthy_string (po_priorSessionId o); as_sessions a !! sid) →
         as_sessions a !! sr_sid v = Some v) as Hgen.
  { intros _ l Hl Hsub. destruct (truthy_string _) as [sid|] eqn:Ht; simpl.
    2:{ rewrite app_nil_r. split; [done|]. intros v Hv. by apply Hin, Hsub. }
    destruct (as_sessions a !! sid) as [p|] eqn:Hg; simpl.
    2:{ rewrite app_nil_r. split; [done|]. intros v Hv. by apply Hin, Hsub. }
    destruct (Hprior p sid eq_refl Hg) as [Hsid Hni]. split.
    - rewrite fmap_app. apply NoDup_app. split_and!; [done| |apply NoDup_singleton].
      intros x (v & -> & Hv)%list_elem_of_fmap Hx%list_elem_of_singleton. apply Hni. rewrite <- Hx.
      by apply list_elem_of_fmap_2, Hsub.
    - intros v [Hv|Hv%list_elem_of_singleton]%elem_of_app; [by apply Hin, Hsub|congruence]. }
  destruct (decide _); apply (Hgen True); try done; [constructor|]. intros v Hv. by apply elem_of_nil in Hv.
Qed.

Lemma abs_fresh_retire_all r t a rs :
  abs_wf a → abs_fresh r a → (∀ v, v ∈ rs → as_sessions a !! sr_sid v = Some v) →
  abs_fresh r (foldl (abs_retire t) a rs).
Proof.
  intros Hwf (F1 & F2 & F3) Hin. unfold abs_fresh.
  rewrite foldl_retire_sessions, foldl_retire_revoked, foldl_retire_lookups.
  - assert (sr_sid r ∉ sr_sid <$> rs) as Hni.
    { intros (v & He & Hv)%list_elem_of_fmap. apply Hin in Hv. congruence. }
    by rewrite !decide_False by done.
  - intros (v & He & Hv)%list_elem_of_fmap. apply Hin, (wf_hash _ Hwf) in Hv. congruence.
Qed.

Create HintDb sessions.
#[export] Hint Resolve abs_wf_empty abs_wf_insert abs_wf_retire abs_wf_rotate abs_wf_touch abs_wf_publish
  abs_wf_prune : sessions.

(** ** Sequences of calls *)

Inductive StoreCall :=
| CallCreate (r : SessionRecord)
| CallPolicy (r : SessionRecord) (o : SessionPolicyOptions)
| CallGet (sid : string)
| CallLookup (hash : string)
| CallRotate (sid hash next idle at_ : string)
| CallTouch (sid idle at_ : string)
| CallRevoke (sid at_ : string) (status : SessionStatus)
| CallByUser (userId : string)
| CallByTenant (tenantId : string)
| CallPublish (message : string)
| CallRevoked (since : string).

Inductive StoreAnswer :=
| AnswerVoid
| AnswerPolicy (r : SessionPolicyResult)
| AnswerSession (r : option SessionRecord)
| AnswerLookup (l : option RefreshTokenLookup)
| AnswerIds (ids : list string)
| AnswerRevoked (entries : list SessionRevocationEntry).

Definition run_call {St} `{SessionStore St} (c : StoreCall) : JS St SessionError StoreAnswer :=
  match c with
  | CallCreate r => (λ _, AnswerVoid) <$> createSession r
  | CallPolicy r o => AnswerPolicy <$> createWithPolicy r o
  | CallGet sid => AnswerSession <$> getSession sid
  | CallLookup h => AnswerLookup <$> lookupRefreshToken h
  | CallRotate sid h n i t => AnswerSession <$> rotateRefreshToken sid h n i t
  | CallTouch sid i t => AnswerSession <$> touchSession sid i t
  | CallRevoke sid t st => AnswerSession <$> revokeSession sid t st
  | CallByUser u => AnswerIds <$> listSessionIdsByUser u
  | CallByTenant t => AnswerIds <$> listSessionIdsByTenant t
  | CallPublish m => (λ _, AnswerVoid) <$> publishInvalidation m
  | CallRevoked t => AnswerRevoked <$> listRevokedSessions t
  end.

Fixpoint run_calls {St} `{SessionStore St} (cs : list StoreCall) (s : St) :
    list (outcome SessionError StoreAnswer) * St :=
  match cs with
  | [] => ([], s)
  | c :: cs' => let '(o, s1) := run_call c s in let '(os, s2) := run_calls cs' s1 in (o :: os, s2)
  end.

(** What the abstract sessions answer. *)
Inductive abs_step (a : AbsSessions) : StoreCall → outcome SessionError StoreAnswer → AbsSessions → Prop :=
| step_create r : abs_step a (CallCreate r) (Ok AnswerVoid) (abs_insert r a)
| step_policy r o out a' : abs_policy r o a out a' →
    abs_step a (CallPolicy r o) (AnswerPolicy <$> out) a'
| step_get sid : abs_step a (CallGet sid) (Ok (AnswerSession (as_sessions a !! sid))) a
| step_lookup h : abs_step a (CallLookup h) (Ok (AnswerLookup (as_lookups a !! h))) a
| step_rotate sid h n i t r : as_sessions a !! sid = Some r → sr_refreshTokenHash r = h →
    abs_step a (CallRotate sid h n i t) (Ok (AnswerSession (Some (set_touched n i t r)))) (abs_rotate r n i t a)
| step_rotate_refused sid h n i t :
    (∀ r, as_sessions a !! sid = Some r → sr_refreshTokenHash r ≠ h) →
    abs_step a (CallRotate sid h n i t) (Ok (AnswerSession None)) a
| step_touch sid i t r : as_sessions a !! sid = Some r →
    abs_step a (CallTouch sid i t)
      (Ok (AnswerSession (Some (set_touched (sr_refreshTokenHash r) i t r)))) (abs_touch r i t a)
| step_touch_absent sid i t : as_sessions a !! sid = None →
    abs_step a (CallTouch sid i t) (Ok (AnswerSession None)) a
| step_revoke sid t st r : as_sessions a !! sid = Some r →
    abs_step a (CallRevoke sid t st) (Ok (AnswerSession (Some (set_revoked st t r)))) (abs_retire t a r)
| step_revoke_absent sid t st : as_sessions a !! sid = None →
    abs_step a (CallRevoke sid t st) (Ok (AnswerSession None)) a
| step_by_user u l : NoDup l →
    (∀ sid, sid ∈ l ↔ ∃ r, as_sessions a !! sid = Some r ∧ sr_userId r = u) →
    abs_step a (CallByUser u) (Ok (AnswerIds l)) a
| step_by_tenant t l : NoDup l →
    (∀ sid, sid ∈ l ↔ ∃ r, as_sessions a !! sid = Some r ∧ sr_tenantId r = t) →
    abs_step a (CallByTenant t) (Ok (AnswerIds l)) a
| step_publish m : abs_step a (CallPublish m) (Ok AnswerVoid) (abs_publish m a)
| step_revoked since l :
    (∀ sid t, {| re_sid := sid; re_revokedAt := t |} ∈ l ↔ abs_recent since a !! sid = Some t) →
    abs_step a (CallRevoked since) (Ok (AnswerRevoked l)) (abs_prune since a).

Inductive abs_steps : AbsSessions → list StoreCall → list (outcome SessionError StoreAnswer) → AbsSessions → Prop :=
| steps_nil a : abs_steps a [] [] a
| steps_cons a c o a1 cs os a2 :
    abs_step a c o a1 → abs_steps a1 cs os a2 → abs_steps a (c :: cs) (o :: os) a2.

(** Ids and tokens are random: a call that stores one brings a new one. *)
Definition call_fresh (c : StoreCall) (a : AbsSessions) : Prop :=
  match c with
  | CallCreate r | CallPolicy r _ => abs_fresh r a
  | CallRotate _ _ next _ _ => as_lookups a !! next = None
  | _ => True
  end.

Fixpoint calls_fresh {St} `{SessionStore St} (view : St → AbsSessions) (cs : list StoreCall) (s : St) : Prop :=
  match cs with
  | [] => True
  | c :: cs' => call_fresh c (view s) ∧ calls_fresh view cs' (run_call c s).2
  end.

Section laws.
Context {St} `{SessionStoreLaws St inv view}.

Lemma lands_fmap {A B} (f : A → B) (m : JS St SessionError A) s o a :
  lands inv view m s o a → lands inv view (f <$> m) s (f <$> o) a.
Proof.
  intros (s' & Hm & Hi & Hv). exists s'. split; [|done].
  unfold fmap, js_fmap. rewrite Hm. by destruct o.
Qed.

Lemma call_simulation c s :
  inv s → call_fresh c (view s) →
  ∃ o a', lands inv view (run_call c) s o a' ∧ abs_step (view s) c o a'.
Proof.
  intros Hi Hf. destruct c; simpl in Hf; cbn [run_call].
  - do 2 eexists. split; [by eapply lands_fmap, createSession_law|]. constructor.
  - destruct (createWithPolicy_law s r o Hi Hf) as (out & a' & Hl & Hp).
    do 2 eexists. split; [by eapply lands_fmap|]. by constructor.
  - do 2 eexists. split; [|constructor]. exists s. split; [|done].
    unfold fmap, js_fmap. by rewrite getSession_law.
  - do 2 eexists. split; [|constructor]. exists s. split; [|done].
    unfold fmap, js_fmap. by rewrite lookupRefreshToken_law.
  - pose proof (rotateRefreshToken_law s sid hash next idle at_ Hi Hf) as Hl.
    destruct (as_sessions (view s) !! sid) as [r|] eqn:Hr; [case_decide|];
      (do 2 eexists; split; [by eapply lands_fmap|]); constructor; naive_solver.
  - pose proof (touchSession_law s sid idle at_ Hi) as Hl.
    destruct (as_sessions (view s) !! sid) as [r|] eqn:Hr;
      (do 2 eexists; split; [by eapply lands_fmap|]); by constructor.
  - pose proof (revokeSession_law s sid at_ status Hi) as Hl.
    destruct (as_sessions (view s) !! sid) as [r|] eqn:Hr;
      (do 2 eexists; split; [by eapply lands_fmap|]); by constructor.
  - destruct (listSessionIdsByUser_law s userId Hi) as (l & Hl & Hnd & Hin).
    do 2 eexists. split; [|by apply (step_by_user _ _ l)]. exists s. split; [|done].
    unfold fmap, js_fmap. by rewrite Hl.
  - destruct (listSessionIdsByTenant_law s tenantId Hi) as (l & Hl & Hnd & Hin).
    do 2 eexists. split; [|by apply (step_by_tenant _ _ l)]. exists s. split; [|done].
    unfold fmap, js_fmap. by rewrite Hl.
  - do 2 eexists. split; [by eapply lands_fmap, publishInvalidation_law|]. constructor.
  - destruct (listRevokedSessions_law s since Hi) as (l & Hl & Hin).
    do 2 eexists. split; [by eapply lands_fmap|]. by constructor.
Qed.

Lemma calls_simulation cs s :
  inv s → calls_fresh view cs s →
  ∃ a', abs_steps (view s) cs (run_calls cs s).1 a' ∧
        view (run_calls cs s).2 = a' ∧ inv (run_calls cs s).2.
Proof.
  revert s. induction cs as [|c cs IH]; intros s Hi Hf; simpl in *; [eexists; split; [constructor|done]|].
  destruct Hf as [Hf Hfs]. destruct (call_simulation c s Hi Hf) as (o & a1 & (s1 & Hrun & Hi1 & Hv1) & Hstep).
  rewrite Hrun in Hfs |- *. simpl in Hfs. destruct (IH s1 Hi1 Hfs) as (a2 & Hsteps & Hv & Hi2).
  destruct (run_calls cs s1) as [os s2]. simpl in *. exists a2. split; [|done].
  econstructor; [done|]. by rewrite <- Hv1.
Qed.
End laws.
