(* ===== verification/InMemorySessions.v ===== *)
(** * InMemorySessions: [InMemorySessionStore] of [sessions/src/in-memory-session-store.ts],
    and that it keeps the promise of [SessionSpec]. *)
From S2P Require Import Prelude JsMap JsText JsDate JsJson SessionSpec.

Local Open Scope Z_scope.

(** The fields; a [Set] is the list of its members in insertion order. *)
Record MemSessions := {
  ms_sessions : jsmap string SessionRecord;
  ms_refreshLookups : jsmap string RefreshTokenLookup;
  ms_sessionsByUser : jsmap string (list string);
  ms_sessionsByTenant : jsmap string (list string);
  ms_revokedSessions : jsmap string string;
  ms_invalidations : list string }.

Definition empty_sessions : MemSessions :=
  {| ms_sessions := []; ms_refreshLookups := []; ms_sessionsByUser := []; ms_sessionsByTenant := [];
     ms_revokedSessions := []; ms_invalidations := [] |}.

Definition bucket (index : jsmap string (list string)) (key : string) : list string :=
  default [] (jm_get key index).
Definition addIndex (index : jsmap string (list string)) (key sid : string) : jsmap string (list string) :=
  jm_set key (set_add sid (bucket index key)) index.
(** [index.get(key)?.delete(sid)]: the bucket itself is changed. *)
Definition dropIndex (index : jsmap string (list string)) (key sid : string) : jsmap string (list string) :=
  match jm_get key index with
  | Some l => jm_set key (set_delete sid l) index
  | None => index
  end.

(** The four statements of [createSession], repeated at the end of [createWithPolicy]. *)
Definition insert_session (record : SessionRecord) (s : MemSessions) : MemSessions :=
  {| ms_sessions := jm_set (sr_sid record) record (ms_sessions s);
     ms_refreshLookups := jm_set (sr_refreshTokenHash record) (lookup_of lookup_active record) (ms_refreshLookups s);
     ms_sessionsByUser := addIndex (ms_sessionsByUser s) (sr_userId record) (sr_sid record);
     ms_sessionsByTenant := addIndex (ms_sessionsByTenant s) (sr_tenantId record) (sr_sid record);
     ms_revokedSessions := ms_revokedSessions s;
     ms_invalidations := ms_invalidations s |}.

(** The five statements that end a session in [revokeSession] and [createWithPolicy]. *)
Definition retire_session (sid revokedAt : string) (session : SessionRecord) (s : MemSessions) : MemSessions :=
  {| ms_sessions := jm_delete sid (ms_sessions s);
     ms_refreshLookups := jm_set (sr_refreshTokenHash session)
       {| rl_sid := sid; rl_familyId := sr_refreshFamilyId session; rl_state := lookup_used |} (ms_refreshLookups s);
     ms_sessionsByUser := dropIndex (ms_sessionsByUser s) (sr_userId session) sid;
     ms_sessionsByTenant := dropIndex (ms_sessionsByTenant s) (sr_tenantId session) sid;
     ms_revokedSessions := jm_set sid revokedAt (ms_revokedSessions s);
     ms_invalidations := ms_invalidations s |}.

Definition update_session (sid : string) (r : SessionRecord) (lookups : jsmap string RefreshTokenLookup)
    (s : MemSessions) : MemSessions :=
  {| ms_sessions := jm_set sid r (ms_sessions s); ms_refreshLookups := lookups;
     ms_sessionsByUser := ms_sessionsByUser s; ms_sessionsByTenant := ms_sessionsByTenant s;
     ms_revokedSessions := ms_revokedSessions s; ms_invalidations := ms_invalidations s |}.

Definition mem_createSession (record : SessionRecord) : JS MemSessions SessionError () :=
  modify (insert_session record).

(** The user's other live sessions in the tenant, in the order of their index. *)
Definition conflicts (record : SessionRecord) (options : SessionPolicyOptions) (s : MemSessions) :
    list SessionRecord :=
  List.filter (λ session, String.eqb (sr_tenantId session) (sr_tenantId record) && isActive session (po_now options))
    (omap (λ sid, jm_get sid (ms_sessions s))
       (filter (λ sid, Some sid ≠ po_priorSessionId options) (bucket (ms_sessionsByUser s) (sr_userId record)))).

Definition mem_createWithPolicy (record : SessionRecord) (options : SessionPolicyOptions) :
    JS MemSessions SessionError SessionPolicyResult :=
  sessions ← getf ms_sessions;
  let prior := sid ← truthy_string (po_priorSessionId options); jm_get sid sessions in
  _ ← throw_if
        (match truthy_string (po_priorSessionId options), prior with
         | None, _ => false
         | Some _, None => true
         | Some _, Some p => negb (String.eqb (sr_userId p) (sr_userId record)) || negb (isActive p (po_now options))
         end)
        (SessionExchangeError SESSION_NOT_ACTIVE);
  conflicts ← getf (conflicts record options);
  _ ← throw_if (bool_decide (po_mode options = mode_reject_new) && bool_decide (conflicts ≠ [])) SessionConflictError;
  let revoked := (if decide (po_mode options = mode_revoke_existing) then conflicts else []) ++ option_list prior in
  _ ← modify (λ s, foldl (λ s r, retire_session (sr_sid r) (po_now options) r s) s revoked);
  _ ← modify (insert_session record);
  mret {| pr_created := record; pr_revoked := set_revoked st_revoked (po_now options) <$> revoked |}.

Definition mem_getSession (sid : string) : JS MemSessions SessionError (option SessionRecord) :=
  getf (λ s, jm_get sid (ms_sessions s)).

Definition mem_lookupRefreshToken (hash : string) : JS MemSessions SessionError (option RefreshTokenLookup) :=
  getf (λ s, jm_get hash (ms_refreshLookups s)).

Definition mem_rotateRefreshToken (sid currentHash nextHash idleExpiresAt touchedAt : string) :
    JS MemSessions SessionError (option SessionRecord) :=
  s ← getf id;
  match jm_get sid (ms_sessions s), jm_get currentHash (ms_refreshLookups s) with
  | Some session, Some lookup =>
      if negb (bool_decide (rl_state lookup = lookup_active))
         || negb (String.eqb (sr_refreshTokenHash session) currentHash) then mret None
      else
        let used := jm_set currentHash {| rl_sid := sid; rl_familyId := sr_refreshFamilyId session;
                                          rl_state := lookup_used |} (ms_refreshLookups s) in
        let updated := set_touched nextHash idleExpiresAt touchedAt session in
        _ ← modify (update_session sid updated
              (jm_set nextHash {| rl_sid := sid; rl_familyId := sr_refreshFamilyId session;
                                  rl_state := lookup_active |} used));
        mret (Some updated)
  | _, _ => mret None
  end.

Definition mem_touchSession (sid idleExpiresAt touchedAt : string) :
    JS MemSessions SessionError (option SessionRecord) :=
  s ← getf id;
  match jm_get sid (ms_sessions s) with
  | None => mret None
  | Some session =>
      let updated := set_touched (sr_refreshTokenHash session) idleExpiresAt touchedAt session in
      _ ← modify (update_session sid updated (ms_refreshLookups s));
      mret (Some updated)
  end.

Definition mem_revokeSession (sid revokedAt : string) (status : SessionStatus) :
    JS MemSessions SessionError (option SessionRecord) :=
  s ← getf id;
  match jm_get sid (ms_sessions s) with
  | None => mret None
  | Some session =>
      _ ← modify (retire_session sid revokedAt session);
      mret (Some (set_revoked status revokedAt session))
  end.

Definition filterActive (values : option (list string)) (s : MemSessions) : list string :=
  match values with
  | None => []
  | Some l => List.filter (λ sid, jm_has sid (ms_sessions s)) l
  end.

Definition mem_listSessionIdsByUser (userId : string) : JS MemSessions SessionError (list string) :=
  getf (λ s, filterActive (jm_get userId (ms_sessionsByUser s)) s).
Definition mem_listSessionIdsByTenant (tenantId : string) : JS MemSessions SessionError (list string) :=
  getf (λ s, filterActive (jm_get tenantId (ms_sessionsByTenant s)) s).

(** The event emitter has no listener of the repository in this store; the message is kept. *)
Definition mem_publishInvalidation (message : string) : JS MemSessions SessionError () :=
  modify (λ s, {| ms_sessions := ms_sessions s; ms_refreshLookups := ms_refreshLookups s;
                  ms_sessionsByUser := ms_sessionsByUser s; ms_sessionsByTenant := ms_sessionsByTenant s;
                  ms_revokedSessions := ms_revokedSessions s;
                  ms_invalidations := ms_invalidations s ++ [message] |}).

(** The loop over [revokedSessions] deletes the old entries it meets and collects the others. *)
Fixpoint revoked_loop (since : string) (todo : jsmap string string) (entries : list SessionRevocationEntry)
    (revoked : jsmap string string) : list SessionRevocationEntry * jsmap string string :=
  match todo with
  | [] => (entries, revoked)
  | (sid, revokedAt) :: todo' =>
      if date_gt since revokedAt then revoked_loop since todo' entries (jm_delete sid revoked)
      else revoked_loop since todo' (entries ++ [{| re_sid := sid; re_revokedAt := revokedAt |}]) revoked
  end.

Definition mem_listRevokedSessions (since : string) : JS MemSessions SessionError (list SessionRevocationEntry) :=
  s ← getf id;
  let '(entries, revoked) := revoked_loop since (ms_revokedSessions s) [] (ms_revokedSessions s) in
  _ ← modify (λ s, {| ms_sessions := ms_sessions s; ms_refreshLookups := ms_refreshLookups s;
                      ms_sessionsByUser := ms_sessionsByUser s; ms_sessionsByTenant := ms_sessionsByTenant s;
                      ms_revokedSessions := revoked; ms_invalidations := ms_invalidations s |});
  mret entries.

Definition sessionCount (s : MemSessions) : nat := length (ms_sessions s).
Definition refreshLookupCount (s : MemSessions) : nat := length (ms_refreshLookups s).

#[export] Instance in_memory_store : SessionStore MemSessions := {
  createSession := mem_createSession;
  createWithPolicy := mem_createWithPolicy;
  getSession := mem_getSession;
  lookupRefreshToken := mem_lookupRefreshToken;
  rotateRefreshToken := mem_rotateRefreshToken;
  touchSession := mem_touchSession;
  revokeSession := mem_revokeSession;
  listSessionIdsByUser := mem_listSessionIdsByUser;
  listSessionIdsByTenant := mem_listSessionIdsByTenant;
  publishInvalidation := mem_publishInvalidation;
  listRevokedSessions := mem_listRevokedSessions }.

(** ** The in-memory store implements the abstract sessions.

    The representation invariant ([mem_inv]: two indexes that agree with the map of
    sessions), the abstraction ([mem_view]), one lemma per method, the instance of
    [SessionStoreLaws] and the simulation of whole sequences of calls. *)

Definition mem_view (s : MemSessions) : AbsSessions :=
  {| as_sessions := jm_map (ms_sessions s); as_lookups := jm_map (ms_refreshLookups s);
     as_revoked := jm_map (ms_revokedSessions s); as_invalidations := ms_invalidations s |}.

(** The bucket of [k] holds, once each, the ids of the sessions whose [key] is [k]. *)
Definition index_ok (key : SessionRecord → string) (index : jsmap string (list string))
    (sessions : jsmap string SessionRecord) : Prop :=
  (∀ k, NoDup (bucket index k)) ∧
  ∀ k sid, sid ∈ bucket index k ↔ ∃ r, jm_get sid sessions = Some r ∧ key r = k.

Record mem_inv (s : MemSessions) : Prop := {
  mi_wf : abs_wf (mem_view s);
  mi_user : index_ok sr_userId (ms_sessionsByUser s) (ms_sessions s);
  mi_tenant : index_ok sr_tenantId (ms_sessionsByTenant s) (ms_sessions s);
  mi_revoked : jm_wf (ms_revokedSessions s) }.

(** ** Indexes *)

Lemma bucket_add index k sid k' :
  bucket (addIndex index k sid) k' = if decide (k' = k) then set_add sid (bucket index k) else bucket index k'.
Proof. unfold addIndex, bucket at 1. rewrite jm_get_set. by case_decide. Qed.

Lemma bucket_drop index k sid k' :
  bucket (dropIndex index k sid) k' = if decide (k' = k) then set_delete sid (bucket index k) else bucket index k'.
Proof.
  unfold dropIndex, bucket. destruct (jm_get k index) as [l|] eqn:Hl.
  - rewrite jm_get_set. case_decide; subst; [done|done].
  - case_decide; subst; [by rewrite Hl|done].
Qed.

Lemma index_ok_add key index sessions r :
  index_ok key index sessions → jm_get (sr_sid r) sessions = None →
  index_ok key (addIndex index (key r) (sr_sid r)) (jm_set (sr_sid r) r sessions).
Proof.
  intros [Hnd Hin] Hnew. split.
  - intros k. rewrite bucket_add. case_decide; [by apply NoDup_set_add|done].
  - intros k sid. rewrite bucket_add, jm_get_set. case_decide as Hk; case_decide as Hs; subst.
    + rewrite elem_of_set_add. naive_solver.
    + rewrite elem_of_set_add, Hin. naive_solver.
    + rewrite Hin, Hnew. naive_solver.
    + apply Hin.
Qed.

Lemma index_ok_drop key index sessions sid r :
  index_ok key index sessions → jm_get sid sessions = Some r →
  index_ok key (dropIndex index (key r) sid) (jm_delete sid sessions).
Proof.
  intros [Hnd Hin] Hr. split.
  - intros k. rewrite bucket_drop. case_decide; [by apply NoDup_filter|done].
  - intros k sid'. rewrite bucket_drop. destruct (decide (sid' = sid)) as [->|Hne].
    + rewrite jm_get_delete_eq. case_decide; subst; [rewrite elem_of_set_delete; naive_solver|].
      rewrite Hin, Hr. naive_solver.
    + rewrite jm_get_delete_ne, <- Hin by done. case_decide; subst; [rewrite elem_of_set_delete; naive_solver|done].
Qed.

Lemma index_ok_update key index sessions sid r r' :
  index_ok key index sessions → jm_get sid sessions = Some r → key r' = key r →
  index_ok key index (jm_set sid r' sessions).
Proof.
  intros [Hnd Hin] Hr Hk. split; [done|]. intros k sid'. rewrite Hin, jm_get_set.
  case_decide; subst; [|done]. naive_solver.
Qed.

(** ** Methods *)

Ltac mem_eq := unfold mem_view; cbn -[jm_map jm_set jm_delete]; rewrite ?jm_map_set, ?jm_map_delete.

Lemma insert_spec s r :
  mem_inv s → abs_fresh r (mem_view s) →
  mem_inv (insert_session r s) ∧ mem_view (insert_session r s) = abs_insert r (mem_view s).
Proof.
  intros [Hwf Hu Ht Hr] Hf. assert (mem_view (insert_session r s) = abs_insert r (mem_view s)) as Heq by by mem_eq.
  split; [|done]. pose proof Hf as (Hnew & _). simpl in Hnew. rewrite lookup_jm_map in Hnew. split; simpl.
  - rewrite Heq. auto with sessions.
  - by apply index_ok_add.
  - by apply index_ok_add.
  - done.
Qed.

Lemma retire_spec s t r :
  mem_inv s → as_sessions (mem_view s) !! sr_sid r = Some r →
  mem_inv (retire_session (sr_sid r) t r s) ∧
  mem_view (retire_session (sr_sid r) t r s) = abs_retire t (mem_view s) r.
Proof.
  intros [Hwf Hu Ht Hr] Hin.
  assert (mem_view (retire_session (sr_sid r) t r s) = abs_retire t (mem_view s) r) as Heq by by mem_eq.
  split; [|done]. pose proof Hin as Hget. simpl in Hget. rewrite lookup_jm_map in Hget. split; simpl.
  - rewrite Heq. auto with sessions.
  - by apply index_ok_drop.
  - by apply index_ok_drop.
  - by apply jm_wf_set.
Qed.

Lemma retire_all_spec s t rs :
  mem_inv s → NoDup (sr_sid <$> rs) → (∀ r, r ∈ rs → as_sessions (mem_view s) !! sr_sid r = Some r) →
  mem_inv (foldl (λ s r, retire_session (sr_sid r) t r s) s rs) ∧
  mem_view (foldl (λ s r, retire_session (sr_sid r) t r s) s rs) = foldl (abs_retire t) (mem_view s) rs.
Proof.
  revert s. induction rs as [|r rs IH]; intros s Hinv Hnd Hin; cbn [foldl]; [done|].
  rewrite fmap_cons in Hnd. apply NoDup_cons in Hnd as [Hni Hnd].
  destruct (retire_spec s t r Hinv ltac:(apply Hin; by left)) as [Hinv' Heq].
  destruct (IH _ Hinv' Hnd) as [H1 H2].
  - intros r' Hr'. rewrite Heq. cbn [abs_retire as_sessions]. rewrite lookup_delete_ne; [apply Hin; by right|].
    intros He. apply Hni. rewrite He. by apply list_elem_of_fmap_2.
  - split; [done|]. by rewrite H2, Heq.
Qed.

Lemma NoDup_omap_sids (m : jsmap string SessionRecord) l :
  (∀ sid r, jm_get sid m = Some r → sr_sid r = sid) → NoDup l → NoDup (sr_sid <$> omap (λ sid, jm_get sid m) l).
Proof.
  intros Hwf. induction 1 as [|sid l Hni Hnd IH]; csimpl; [constructor|].
  destruct (jm_get sid m) as [r|] eqn:Hr; csimpl; [|done]. constructor; [|done].
  rewrite (Hwf _ _ Hr). intros (r' & He & Hin)%list_elem_of_fmap. apply list_elem_of_omap in Hin as (sid' & Hin & Hg).
  apply Hwf in Hg. congruence.
Qed.

Lemma conflicts_spec s r o : mem_inv s → conflict_list r o (mem_view s) (conflicts r o s).
Proof.
  intros [Hwf [Hnd Hin] _ _].
  assert (∀ sid r, jm_get sid (ms_sessions s) = Some r → sr_sid r = sid) as Hsid.
  { intros sid r'. rewrite <- lookup_jm_map. apply (wf_sid _ Hwf). }
  split.
  - apply NoDup_fmap_filter, NoDup_omap_sids; [done|]. by apply NoDup_filter.
  - intros old. unfold conflicts, conflicting. rewrite list_elem_of_In, filter_In, <- list_elem_of_In, list_elem_of_omap.
    simpl. rewrite lookup_jm_map. split.
    + intros ((sid & Hs & Hg) & Hc). apply list_elem_of_filter in Hs as [Hne Hs].
      pose proof (Hsid _ _ Hg) as <-. split; [done|]. apply Hin in Hs as (r' & Hr' & Hu).
      apply andb_true_iff in Hc as [Ht Ha]. rewrite Ht, Ha, !bool_decide_eq_true_2; [done|done|congruence].
    + intros [Hg Hc]. rewrite !andb_true_iff, !bool_decide_eq_true in Hc. destruct Hc as [[[Hu Hne] Ht] Ha].
      split; [|by rewrite Ht, Ha]. exists (sr_sid old). split; [|done].
      apply list_elem_of_filter. split; [done|]. apply Hin. eauto.
Qed.

Lemma createWithPolicy_eq s r o :
  let vs := victims o (abs_prior o (mem_view s)) (conflicts r o s) in
  mem_createWithPolicy r o s =
  if prior_refused r o (mem_view s) then (Throw (SessionExchangeError SESSION_NOT_ACTIVE), s)
  else if bool_decide (po_mode o = mode_reject_new) && bool_decide (conflicts r o s ≠ [])
  then (Throw SessionConflictError, s)
  else (Ok {| pr_created := r; pr_revoked := set_revoked st_revoked (po_now o) <$> vs |},
        insert_session r (foldl (λ s r, retire_session (sr_sid r) (po_now o) r s) s vs)).
Proof.
  assert (abs_prior o (mem_view s) = sid ← truthy_string (po_priorSessionId o); jm_get sid (ms_sessions s)) as Hprior.
  { unfold abs_prior. destruct (truthy_string _); simpl; [by rewrite lookup_jm_map|done]. }
  unfold prior_refused, victims. cbv zeta. rewrite Hprior. unfold mem_createWithPolicy. js_unfold.
  destruct (match truthy_string _ with Some _ => _ | None => _ end); [done|].
  by destruct (bool_decide _ && bool_decide _).
Qed.

Lemma createWithPolicy_spec s r o :
  mem_inv s → abs_fresh r (mem_view s) →
  ∃ out a', lands mem_inv mem_view (mem_createWithPolicy r o) s out a' ∧ abs_policy r o (mem_view s) out a'.
Proof.
  intros Hinv Hf. pose proof (conflicts_spec s r o Hinv) as Hc.
  unfold lands. rewrite createWithPolicy_eq.
  destruct (prior_refused r o (mem_view s)) eqn:Hp.
  { do 2 eexists. split; [by exists s|]. by apply policy_prior. }
  destruct (bool_decide _ && bool_decide _) eqn:Hrej.
  { apply andb_true_iff in Hrej as [?%bool_decide_eq_true ?%bool_decide_eq_true].
    do 2 eexists. split; [by exists s|]. by eapply policy_conflict. }
  destruct (victims_live r o _ _ (mi_wf _ Hinv) Hp Hc) as [Hvnd Hvin].
  destruct (retire_all_spec s (po_now o) _ Hinv Hvnd Hvin) as [Hinv1 Hv1].
  destruct (insert_spec _ r Hinv1) as [Hinv2 Hv2].
  { rewrite Hv1. by apply abs_fresh_retire_all; [apply Hinv|..]. }
  do 2 eexists. split; [eexists; split; [done|]; split; [done|]; by rewrite Hv2, Hv1|].
  apply policy_switch; [done|done|]. intros [Hm Hne].
  by rewrite !bool_decide_eq_true_2 in Hrej by done.
Qed.

Lemma rotate_spec s sid h next idle at_ :
  mem_inv s → as_lookups (mem_view s) !! next = None →
  match as_sessions (mem_view s) !! sid with
  | Some r =>
      if decide (sr_refreshTokenHash r = h)
      then lands mem_inv mem_view (mem_rotateRefreshToken sid h next idle at_) s
             (Ok (Some (set_touched next idle at_ r))) (abs_rotate r next idle at_ (mem_view s))
      else lands mem_inv mem_view (mem_rotateRefreshToken sid h next idle at_) s (Ok None) (mem_view s)
  | None => lands mem_inv mem_view (mem_rotateRefreshToken sid h next idle at_) s (Ok None) (mem_view s)
  end.
Proof.
  intros Hinv Hnext. pose proof (mi_wf _ Hinv) as Hwf. unfold lands, mem_rotateRefreshToken. js_unfold. unfold id.
  cbn [mem_view as_sessions]. rewrite lookup_jm_map.
  destruct (jm_get sid (ms_sessions s)) as [r|] eqn:Hr; [|by exists s].
  assert (as_sessions (mem_view s) !! sid = Some r) as Hr' by (simpl; by rewrite lookup_jm_map).
  pose proof (wf_sid _ Hwf _ _ Hr') as <-. pose proof (wf_hash _ Hwf _ _ Hr') as Hh. simpl in Hh.
  rewrite lookup_jm_map in Hh. case_decide as Hdec.
  2:{ destruct (jm_get h _); [|by exists s]. apply String.eqb_neq in Hdec. rewrite Hdec, orb_true_r. by exists s. }
  subst h. rewrite Hh, String.eqb_refl. simpl.
  eexists. split; [done|]. split; [|by mem_eq]. split; simpl.
  - replace (mem_view _) with (abs_rotate r next idle at_ (mem_view s)) by by mem_eq. auto with sessions.
  - by eapply index_ok_update; [apply Hinv|..].
  - by eapply index_ok_update; [apply Hinv|..].
  - apply Hinv.
Qed.

Lemma touch_spec s sid idle at_ :
  mem_inv s →
  match as_sessions (mem_view s) !! sid with
  | Some r => lands mem_inv mem_view (mem_touchSession sid idle at_) s
                (Ok (Some (set_touched (sr_refreshTokenHash r) idle at_ r))) (abs_touch r idle at_ (mem_view s))
  | None => lands mem_inv mem_view (mem_touchSession sid idle at_) s (Ok None) (mem_view s)
  end.
Proof.
  intros Hinv. pose proof (mi_wf _ Hinv) as Hwf. unfold lands, mem_touchSession. js_unfold. unfold id.
  cbn [mem_view as_sessions]. rewrite lookup_jm_map.
  destruct (jm_get sid (ms_sessions s)) as [r|] eqn:Hr; [|by exists s].
  assert (as_sessions (mem_view s) !! sid = Some r) as Hr' by (simpl; by rewrite lookup_jm_map).
  pose proof (wf_sid _ Hwf _ _ Hr') as <-.
  eexists. split; [done|]. split; [|by mem_eq]. split; simpl.
  - replace (mem_view _) with (abs_touch r idle at_ (mem_view s)) by by mem_eq. auto with sessions.
  - by eapply index_ok_update; [apply Hinv|..].
  - by eapply index_ok_update; [apply Hinv|..].
  - apply Hinv.
Qed.

Lemma revoke_spec s sid at_ status :
  mem_inv s →
  match as_sessions (mem_view s) !! sid with
  | Some r => lands mem_inv mem_view (mem_revokeSession sid at_ status) s
                (Ok (Some (set_revoked status at_ r))) (abs_retire at_ (mem_view s) r)
  | None => lands mem_inv mem_view (mem_revokeSession sid at_ status) s (Ok None) (mem_view s)
  end.
Proof.
  intros Hinv. pose proof (mi_wf _ Hinv) as Hwf. unfold lands, mem_revokeSession. js_unfold. unfold id.
  destruct (as_sessions (mem_view s) !! sid) as [r|] eqn:Hr.
  - pose proof (wf_sid _ Hwf _ _ Hr) as <-. destruct (retire_spec s at_ r Hinv Hr) as [H1 H2].
    simpl in Hr. rewrite lookup_jm_map in Hr. rewrite Hr. eauto.
  - simpl in Hr. rewrite lookup_jm_map in Hr. rewrite Hr. by exists s.
Qed.

Lemma filterActive_spec key index s k :
  index_ok key index (ms_sessions s) →
  filterActive (jm_get k index) s = bucket index k ∧ NoDup (bucket index k) ∧
  ∀ sid, sid ∈ bucket index k ↔ ∃ r, as_sessions (mem_view s) !! sid = Some r ∧ key r = k.
Proof.
  intros [Hnd Hin]. split_and!; [|done|intros sid; simpl; by rewrite lookup_jm_map].
  specialize (Hin k). unfold bucket in *. destruct (jm_get k index) as [l|]; [|done]. simpl in *.
  apply filter_all_true, Forall_forall. intros sid (r & Hr & _)%Hin.
  unfold jm_has. rewrite Hr. by apply bool_decide_eq_true.
Qed.

(** The loop of [listRevokedSessions] splits the map. *)
Lemma revoked_loop_spec since todo entries revoked :
  jm_wf todo →
  let p := revoked_loop since todo entries revoked in
  (∀ e, e ∈ p.1 ↔ e ∈ entries ∨ (re_sid e, re_revokedAt e) ∈ todo ∧ date_gt since (re_revokedAt e) = false) ∧
  (jm_wf revoked → jm_wf p.2) ∧
  ∀ sid, jm_get sid p.2 =
    match jm_get sid todo with Some t => if date_gt since t then None else jm_get sid revoked | None => jm_get sid revoked end.
Proof.
  revert entries revoked. induction todo as [|[sid t] todo IH]; intros entries revoked Hwf; cbn [revoked_loop].
  { split_and!; [|done|done]. intros e. simpl. set_solver. }
  apply NoDup_cons in Hwf as [Hni Hwf]. simpl in Hni. pose proof (proj2 (jm_get_None sid todo) Hni) as Hnone.
  destruct (date_gt since t) eqn:Ht.
  - destruct (IH entries (jm_delete sid revoked) Hwf) as (IH1 & IH2 & IH3). split_and!.
    + intros e. rewrite IH1, elem_of_cons. split; [naive_solver|].
      intros [?|[[He|?] Hg]]; [by left|simplify_eq; congruence|by right].
    + intros. apply IH2. by apply jm_wf_delete.
    + intros sid'. rewrite IH3. simpl. case_decide as Hs.
      { subst. by rewrite Hnone, Ht, jm_get_delete_eq. }
      by rewrite !jm_get_delete_ne by done.
  - destruct (IH (entries ++ [{| re_sid := sid; re_revokedAt := t |}]) revoked Hwf) as (IH1 & IH2 & IH3). split_and!.
    + intros e. rewrite IH1, elem_of_app, list_elem_of_singleton, elem_of_cons. split.
      * intros [[?| ->]|[? ?]]; [by left|right; split; [by left|done]|right; split; [by right|done]].
      * intros [?|[[He|?] Hg]]; [by do 2 left|left; right; destruct e; simpl in *; congruence|by right].
    + done.
    + intros sid'. rewrite IH3. simpl. case_decide as Hs; [|done]. subst. by rewrite Hnone, Ht.
Qed.

Lemma listRevoked_spec s since :
  mem_inv s → ∃ l,
    lands mem_inv mem_view (mem_listRevokedSessions since) s (Ok l) (abs_prune since (mem_view s)) ∧
    ∀ sid at_, {| re_sid := sid; re_revokedAt := at_ |} ∈ l ↔ abs_recent since (mem_view s) !! sid = Some at_.
Proof.
  intros Hinv. pose proof (mi_revoked _ Hinv) as Hwf.
  destruct (revoked_loop_spec since (ms_revokedSessions s) [] (ms_revokedSessions s) Hwf) as (H1 & H2 & H3).
  unfold lands, mem_listRevokedSessions. js_unfold. unfold id.
  destruct (revoked_loop _ _ _ _) as [l m]. simpl in *.
  assert (∀ sid, jm_map m !! sid = abs_recent since (mem_view s) !! sid) as Hm.
  { intros sid. unfold abs_recent. rewrite lookup_jm_map, H3, map_lookup_filter. simpl. rewrite lookup_jm_map.
    destruct (jm_get sid (ms_revokedSessions s)) as [t|]; simpl; [|done].
    destruct (date_gt since t); reflexivity. }
  exists l. split.
  - eexists. split; [done|]. assert (mem_view {| ms_sessions := ms_sessions s;
      ms_refreshLookups := ms_refreshLookups s; ms_sessionsByUser := ms_sessionsByUser s;
      ms_sessionsByTenant := ms_sessionsByTenant s; ms_revokedSessions := m;
      ms_invalidations := ms_invalidations s |} = abs_prune since (mem_view s)) as Heq.
    { unfold mem_view, abs_prune; simpl. f_equal. by apply map_eq. }
    split; [|done]. split; try apply Hinv; [|by apply H2]. rewrite Heq. apply abs_wf_prune, Hinv.
  - intros sid t. rewrite H1. simpl. unfold abs_recent. rewrite map_lookup_filter_Some. simpl.
    rewrite lookup_jm_map. split.
    + intros [Hn|[Hin Ht]]; [by apply elem_of_nil in Hn|]. split; [by apply jm_elem_get|done].
    + intros [Hg Ht]. right. split; [by apply jm_get_elem|done].
Qed.

#[export] Instance in_memory_laws : SessionStoreLaws MemSessions mem_inv mem_view.
Proof.
  split.
  - apply mi_wf.
  - intros s sid _. simpl. unfold mem_getSession. js_unfold. by rewrite lookup_jm_map.
  - intros s h _. simpl. unfold mem_lookupRefreshToken. js_unfold. by rewrite lookup_jm_map.
  - intros s r Hi Hf. destruct (insert_spec s r Hi Hf). by exists (insert_session r s).
  - apply createWithPolicy_spec.
  - apply rotate_spec.
  - apply touch_spec.
  - apply revoke_spec.
  - intros s u Hi. destruct (filterActive_spec _ _ s u (mi_user _ Hi)) as (He & ?).
    eexists. split; [|done]. simpl. unfold mem_listSessionIdsByUser. js_unfold. by rewrite He.
  - intros s t Hi. destruct (filterActive_spec _ _ s t (mi_tenant _ Hi)) as (He & ?).
    eexists. split; [|done]. simpl. unfold mem_listSessionIdsByTenant. js_unfold. by rewrite He.
  - intros s m [H1 H2 H3 H4]. eexists. split; [done|]. split; [|done].
    split; [exact (abs_wf_publish m _ H1)|done..].
  - apply listRevoked_spec.
Qed.

Lemma mem_inv_empty : mem_inv empty_sessions.
Proof.
  split; [exact abs_wf_empty| | |constructor]; (split; [intros; constructor|]); intros k sid; simpl;
    (split; [intros H; by apply elem_of_nil in H|naive_solver]).
Qed.

(** C6. The in-memory session store refines the abstract sessions: starting empty, any sequence of
    calls whose new records and tokens are fresh answers, call by call, what some run of the
    abstract sessions answers, and ends in a state that stands for the abstract one and keeps
    the representation invariant. *)
Theorem in_memory_refines (calls : list StoreCall)
  (Hfresh : calls_fresh mem_view calls empty_sessions) :
  ∃ a, abs_steps abs_empty calls (run_calls calls empty_sessions).1 a ∧
       mem_view (run_calls calls empty_sessions).2 = a ∧
       mem_inv (run_calls calls empty_sessions).2 ∧ abs_wf a.
Proof.
  destruct (calls_simulation calls empty_sessions mem_inv_empty Hfresh) as (a & H1 & H2 & H3).
  exists a. split_and!; [exact H1|done..|]. rewrite <- H2. apply H3.
Qed.

Definition example_session (sid hash user : string) : SessionRecord :=
  {| sr_sid := sid; sr_userId := user; sr_tenantId := "t"; sr_cognitoSub := "c"; sr_membershipId := None;
     sr_permsHash := None; sr_permissions := None; sr_roles := None; sr_deviceMeta := None;
     sr_refreshFamilyId := "f"; sr_refreshTokenHash := hash; sr_status := st_active;
     sr_createdAt := "2026-01-01T00:00:00.000Z"; sr_updatedAt := "2026-01-01T00:00:00.000Z";
     sr_lastTouchedAt := "2026-01-01T00:00:00.000Z"; sr_expiresAt := "2026-01-02T00:00:00.000Z";
     sr_idleExpiresAt := "2026-01-01T01:00:00.000Z"; sr_revokedAt := None; sr_strongFactorVerifiedAt := None |}.

Definition example_calls : list StoreCall :=
  let t := "2026-01-01T00:10:00.000Z" in
  [ CallCreate (example_session "s1" "h1" "u");
    CallRotate "s1" "h1" "h2" "2026-01-01T01:10:00.000Z" t;
    CallPolicy (example_session "s2" "h3" "u")
      {| po_mode := mode_revoke_existing; po_now := t; po_priorSessionId := None |};
    CallByUser "u"; CallRevoked t ].

Lemma in_memory_refines_witness :
  calls_fresh mem_view example_calls empty_sessions ∧
  (∃ a, abs_steps abs_empty example_calls (run_calls example_calls empty_sessions).1 a ∧
        mem_view (run_calls example_calls empty_sessions).2 = a ∧
        mem_inv (run_calls example_calls empty_sessions).2 ∧ abs_wf a).
Proof.
  assert (calls_fresh mem_view example_calls empty_sessions) as H by (vm_compute; repeat split).
  split; [exact H|exact (in_memory_refines example_calls H)].
Defined.
