(* ===== verification/SessionRevocations.v ===== *)
(** * SessionRevocations: [SessionRevocationList] of [sessions/src/session-revocation-list.ts].

    The list of revoked session ids checked on the request path. A reading of [Date.now()]
    is an argument; the timer and the sharing of a refresh in flight are scheduling. *)
From S2P Require Import Prelude JsMap JsDate JsText JsJson SessionSpec.
Local Open Scope Z_scope.

Record RevocationList := {
  revoked : jsmap string Z;
  lastRefreshedAt : option Z }.
Definition empty_list : RevocationList := {| revoked := []; lastRefreshedAt := None |}.

Definition RETENTION_SKEW_MS : Z := 60000.
Definition DEFAULT_MAX_STALENESS_MS : Z := 15000.
Definition DEFAULT_ACCESS_SECONDS : Z := 600.

(** [options?.timeouts?.accessSeconds ?? DEFAULT_ACCESS_SECONDS], in milliseconds with the skew. *)
Definition retentionMs (options : option SessionOptions) : Z :=
  match options with Some o => opt_accessSeconds o | None => DEFAULT_ACCESS_SECONDS end * 1000 + RETENTION_SKEW_MS.
Definition maxStalenessMs (options : option SessionOptions) : Z :=
  match options with Some o => opt_maxStalenessMs o | None => DEFAULT_MAX_STALENESS_MS end.

Definition set_revoked_map (m : jsmap string Z) (l : RevocationList) : RevocationList :=
  {| revoked := m; lastRefreshedAt := lastRefreshedAt l |}.

Definition isRevoked (sid : string) (now : Z) (l : RevocationList) : bool * RevocationList :=
  match jm_get sid (revoked l) with
  | None => (false, l)
  | Some until =>
      if until <=? now then (false, set_revoked_map (jm_delete sid (revoked l)) l) else (true, l)
  end.

(** [supported]: the store has [listRevokedSessions]. *)
Definition isStale (options : option SessionOptions) (supported : bool) (now : Z) (l : RevocationList) : bool :=
  if negb supported then false
  else match lastRefreshedAt l with
       | None => true
       | Some t => maxStalenessMs options <? now - t
       end.

(** [add(sid, revokedAt)]; a revocation instant that is not finite counts from now. *)
Definition add (options : option SessionOptions) (sid : string) (revokedAt : option Z) (now : Z)
    (l : RevocationList) : RevocationList :=
  let until := default now revokedAt + retentionMs options in
  match jm_get sid (revoked l) with
  | Some current => if current <? until then set_revoked_map (jm_set sid until (revoked l)) l else l
  | None => set_revoked_map (jm_set sid until (revoked l)) l
  end.

(** The loop of [prune] over the entries. *)
Fixpoint prune_loop (now : Z) (todo m : jsmap string Z) : jsmap string Z :=
  match todo with
  | [] => m
  | (sid, until) :: todo' => prune_loop now todo' (if until <=? now then jm_delete sid m else m)
  end.
Definition prune (now : Z) (l : RevocationList) : RevocationList :=
  set_revoked_map (prune_loop now (revoked l) (revoked l)) l.

Definition size (now : Z) (l : RevocationList) : nat * RevocationList :=
  let l' := prune now l in (length (revoked l'), l').

(** What [refreshFromStore] does with the entries the store returned: entries without an id
    are skipped, the others added; then the list is pruned. *)
Definition merge_entries (options : option SessionOptions) (entries : list SessionRevocationEntry)
    (now : Z) (l : RevocationList) : RevocationList :=
  foldl (λ l e, if String.eqb (re_sid e) EmptyString then l
                else add options (re_sid e) (date_parse (re_revokedAt e)) now l) l entries.

Definition refreshFromStore {St} `{SessionStore St} (options : option SessionOptions) (now : Z) :
    JS (RevocationList * St) SessionError () := λ '(l, s),
  match time_clip (now - retentionMs options) with
  | None => (Throw InvalidDate, (l, s))
  | Some since =>
      match listRevokedSessions (to_iso since) s with
      | (Throw e, s') => (Throw e, (l, s'))
      | (Ok entries, s') =>
          let l' := prune now (merge_entries options entries now l) in
          (Ok (), ({| revoked := revoked l'; lastRefreshedAt := Some now |}, s'))
      end
  end.

(** ** What the list remembers *)

Definition rl_wf (l : RevocationList) : Prop := jm_wf (revoked l).

(** Revoked and, at [now], still inside its retention. *)
Definition live_at (sid : string) (now : Z) (l : RevocationList) : Prop :=
  ∃ until, jm_get sid (revoked l) = Some until ∧ now < until.

Lemma isRevoked_live sid now l : (isRevoked sid now l).1 = true ↔ live_at sid now l.
Proof.
  unfold isRevoked, live_at. destruct (jm_get sid (revoked l)) as [u|]; simpl; [|split; [done|naive_solver]].
  destruct (Z.leb_spec u now); simpl; split; try done; [intros (u' & ? & ?); simplify_eq; lia|eauto].
Qed.

Lemma isRevoked_keeps sid sid' t now l : t ≤ now →
  live_at sid now (isRevoked sid' t l).2 ↔ live_at sid now l.
Proof.
  intros Ht. unfold isRevoked, live_at. destruct (jm_get sid' (revoked l)) as [u|] eqn:Hu; [|done].
  destruct (Z.leb_spec u t); [|done]. simpl. destruct (decide (sid = sid')) as [->|].
  - rewrite jm_get_delete_eq, Hu. split; [naive_solver|]. intros (u' & ? & ?). simplify_eq. lia.
  - by rewrite jm_get_delete_ne.
Qed.

Lemma add_live options sid sid' r t now l :
  live_at sid now (add options sid' r t l) ↔
  live_at sid now l ∨ (sid = sid' ∧ now < default t r + retentionMs options).
Proof.
  unfold add, live_at. set (u := default t r + retentionMs options).
  destruct (jm_get sid' (revoked l)) as [c|] eqn:Hc; [destruct (Z.ltb_spec c u)|]; simpl.
  - rewrite jm_get_set. case_decide as Hs; [subst|naive_solver]. rewrite Hc. split.
    + intros (? & ? & ?). simplify_eq. by right.
    + intros [(? & ? & ?)|[_ ?]]; simplify_eq; eexists; (split; [done|lia]).
  - split; [by left|]. intros [?|[-> ?]]; [done|]. exists c. split; [done|lia].
  - rewrite jm_get_set. case_decide as Hs; [subst|naive_solver]. rewrite Hc. split.
    + intros (? & ? & ?). simplify_eq. by right.
    + intros [(? & ? & ?)|[_ ?]]; simplify_eq. eauto.
Qed.

Lemma add_wf options sid r t l : rl_wf l → rl_wf (add options sid r t l).
Proof. unfold rl_wf, add. intros. repeat case_match; simpl; auto with js. Qed.

Lemma prune_loop_get now todo m sid :
  jm_wf todo →
  jm_get sid (prune_loop now todo m) =
  match jm_get sid todo with
  | Some u => if u <=? now then None else jm_get sid m
  | None => jm_get sid m
  end.
Proof.
  revert m. induction todo as [|[k u] todo IH]; intros m Hwf; [done|].
  apply NoDup_cons in Hwf as [Hni Hwf]. cbn [prune_loop]. rewrite IH by done. simpl.
  case_decide as Hs; [subst|].
  - rewrite (proj2 (jm_get_None k todo) Hni). destruct (u <=? now); [by rewrite jm_get_delete_eq|done].
  - destruct (u <=? now); [|done]. by rewrite jm_get_delete_ne.
Qed.

Lemma prune_loop_wf now todo m : jm_wf m → jm_wf (prune_loop now todo m).
Proof. revert m. induction todo as [|[k u] todo IH]; intros m Hm; [done|]. apply IH. case_match; auto with js. Qed.

Lemma prune_keeps sid t now l : rl_wf l → t ≤ now → live_at sid now (prune t l) ↔ live_at sid now l.
Proof.
  intros Hwf Ht. unfold prune, live_at. simpl. rewrite prune_loop_get by done.
  destruct (jm_get sid (revoked l)) as [u|]; [|done]. destruct (Z.leb_spec u t); [|done].
  split; [naive_solver|]. intros (? & ? & ?). simplify_eq. lia.
Qed.

Lemma prune_wf t l : rl_wf l → rl_wf (prune t l).
Proof. apply prune_loop_wf. Qed.
Lemma isRevoked_wf sid t l : rl_wf l → rl_wf (isRevoked sid t l).2.
Proof. unfold rl_wf, isRevoked. intros. repeat case_match; simpl; auto with js. Qed.

(** An entry of the store that is taken. *)
Definition entry_until (options : option SessionOptions) (now : Z) (e : SessionRevocationEntry) : Z :=
  default now (date_parse (re_revokedAt e)) + retentionMs options.

Lemma merge_live options entries t sid now l :
  live_at sid now (merge_entries options entries t l) ↔
  live_at sid now l ∨
  ∃ e, e ∈ entries ∧ re_sid e = sid ∧ sid ≠ EmptyString ∧ now < entry_until options t e.
Proof.
  unfold merge_entries. revert l. induction entries as [|e entries IH]; intros l; cbn [foldl].
  { split; [by left|]. intros [?|(e & He & _)]; [done|]. by apply elem_of_nil in He. }
  rewrite IH. setoid_rewrite elem_of_cons. destruct (String.eqb_spec (re_sid e) EmptyString) as [He|He].
  - naive_solver.
  - rewrite add_live. fold (entry_until options t e). naive_solver.
Qed.

Lemma merge_wf options entries t l : rl_wf l → rl_wf (merge_entries options entries t l).
Proof.
  unfold merge_entries. revert l. induction entries as [|e entries IH]; intros l Hl; [done|].
  apply IH. case_match; [done|by apply add_wf].
Qed.

(** ** Histories *)

Inductive RevocationOp :=
| OpAdd (sid : string) (revokedAt : option Z)
| OpIsRevoked (sid : string)
| OpSize
| OpRefresh (entries : list SessionRevocationEntry).

Definition revocation_step (options : option SessionOptions) (op : RevocationOp) (now : Z) (l : RevocationList) :
    RevocationList :=
  match op with
  | OpAdd sid r => add options sid r now l
  | OpIsRevoked sid => (isRevoked sid now l).2
  | OpSize => (size now l).2
  | OpRefresh entries =>
      let l' := prune now (merge_entries options entries now l) in
      {| revoked := revoked l'; lastRefreshedAt := Some now |}
  end.

(** The calls of a history with the clock reading of each. *)
Definition run_history (options : option SessionOptions) (h : list (Z * RevocationOp)) (l : RevocationList) :
    RevocationList := foldl (λ l p, revocation_step options p.2 p.1 l) l h.

(** The call of time [t] revokes [sid] past [now]. *)
Definition revokes (options : option SessionOptions) (sid : string) (now t : Z) (op : RevocationOp) : Prop :=
  match op with
  | OpAdd sid' r => sid = sid' ∧ now < default t r + retentionMs options
  | OpRefresh entries =>
      ∃ e, e ∈ entries ∧ re_sid e = sid ∧ sid ≠ EmptyString ∧ now < entry_until options t e
  | _ => False
  end.

Lemma revocation_step_wf options op t l : rl_wf l → rl_wf (revocation_step options op t l).
Proof.
  intros Hl. destruct op; simpl; [by apply add_wf|by apply isRevoked_wf|by apply prune_wf|].
  by apply prune_loop_wf, merge_wf.
Qed.

Lemma revocation_step_live options op t sid now l :
  rl_wf l → t ≤ now →
  live_at sid now (revocation_step options op t l) ↔ live_at sid now l ∨ revokes options sid now t op.
Proof.
  intros Hl Ht. destruct op; simpl.
  - apply add_live.
  - rewrite isRevoked_keeps by done. tauto.
  - rewrite prune_keeps by done. tauto.
  - rewrite <- merge_live. by apply (prune_keeps sid t now (merge_entries options entries t l)), Ht; apply merge_wf.
Qed.

Lemma run_history_live options h sid now l :
  rl_wf l → Forall (λ p, p.1 ≤ now) h →
  live_at sid now (run_history options h l) ↔
  live_at sid now l ∨ ∃ t op, (t, op) ∈ h ∧ revokes options sid now t op.
Proof.
  unfold run_history. revert l. induction h as [|[t op] h IH]; intros l Hl Hh; cbn [foldl].
  { split; [by left|]. intros [?|(? & ? & H & _)]; [done|]. by apply elem_of_nil in H. }
  apply Forall_cons in Hh as [Ht Hh]. simpl in *.
  rewrite IH, revocation_step_live by auto using revocation_step_wf. setoid_rewrite elem_of_cons. naive_solver.
Qed.

(** The revocation list is exact: after any history of additions, lookups, size queries and
    refreshes, none later than [now], [isRevoked] says a session is revoked at [now] if and only
    if some addition or refresh of the history revoked it at an instant whose retention (access
    token lifetime plus skew) has not ended. *)
Theorem isRevoked_exact (options : option SessionOptions) (h : list (Z * RevocationOp)) (sid : string) (now : Z)
  (Hpast : Forall (λ p, p.1 ≤ now) h) :
  (isRevoked sid now (run_history options h empty_list)).1 = true ↔
  ∃ t op, (t, op) ∈ h ∧ revokes options sid now t op.
Proof.
  rewrite isRevoked_live, run_history_live; [|constructor|done].
  split; [|by right]. intros [(u & Hu & _)|?]; [done|done].
Qed.

Definition example_history : list (Z * RevocationOp) :=
  [ (1000, OpAdd "s1" (Some 900)); (1500, OpIsRevoked "s1"); (2000, OpRefresh [{| re_sid := "s2"; re_revokedAt := "bad" |}]);
    (2500, OpSize) ].

Lemma isRevoked_exact_witness :
  Forall (λ p, p.1 ≤ 3000) example_history ∧
  ((isRevoked "s1" 3000 (run_history None example_history empty_list)).1 = true ↔
   ∃ t op, (t, op) ∈ example_history ∧ revokes None "s1" 3000 t op).
Proof.
  assert (Forall (λ p, p.1 ≤ 3000) example_history) as H by (repeat constructor; simpl; lia).
  split; [exact H|exact (isRevoked_exact None example_history "s1" 3000 H)].
Defined.
