(* ===== verification/SessionService.v ===== *)
(** * SessionService: [sessions/src/session.service.ts] over any session store.

    The service draws from three outside sources, each read by index: the clock of the
    options ([clock n] is its n-th reading, [None] an invalid [Date]), the random ids and the
    random refresh tokens. The hash, the claims resolver, the token signer and the mirror are
    parameters. *)
From S2P Require Import Prelude JsMap JsText JsDate JsJson SessionSpec SessionRevocations.
From Stdlib Require Import Ascii.
Local Open Scope Z_scope.

(** ** Dates *)

(** [date.toISOString()]: a RangeError for an invalid date. *)
Definition toISOString (d : option Z) : outcome SessionError string :=
  match d with Some t => Ok (to_iso t) | None => Throw InvalidDate end.

Definition addSeconds (d : option Z) (seconds : Z) : option Z := t ← d; time_clip (t + seconds * 1000).

(** [a <= b] on time values, false when one is NaN. *)
Definition time_le (a b : option Z) : bool :=
  match a, b with Some x, Some y => x <=? y | _, _ => false end.
Definition time_lt (a b : option Z) : bool :=
  match a, b with Some x, Some y => x <? y | _, _ => false end.

Definition minIso (a b : string) : string := if time_le (date_parse a) (date_parse b) then a else b.

(** ** Strong factor *)

(** Bytes after which [value.trim()] ends: the longest prefix not followed by white space only. *)
Fixpoint trim_end (l : list Ascii.ascii) : list Ascii.ascii :=
  match l with
  | [] => []
  | c :: r => match trim_start (length l) l with [] => [] | _ => c :: trim_end r end
  end.
Definition trim (s : string) : string :=
  String.string_of_list_ascii
    (trim_end (trim_start (String.length s) (String.list_ascii_of_string s))).

(** [raw.split(/[,\s]+/).filter(Boolean)]: the maximal runs without comma or white space. *)
Fixpoint split_tokens (fuel : nat) (word : list Ascii.ascii) (l : list Ascii.ascii) : list string :=
  let flush := match word with [] => [] | _ => [String.string_of_list_ascii (rev word)] end in
  match fuel, l with
  | S fuel', c :: r =>
      if Ascii.eqb c ","%char then flush ++ split_tokens fuel' [] r
      else match skip_space l with
           | Some r' => flush ++ split_tokens fuel' [] r'
           | None => split_tokens fuel' (c :: word) r
           end
  | _, _ => flush
  end.
Definition factor_values (raw : json) : json :=
  match raw with
  | JString s => JArray (JString <$> split_tokens (String.length s) [] (String.list_ascii_of_string s))
  | v => v
  end.

Definition is_jstring (v : json) : bool := match v with JString _ => true | _ => false end.
Definition accepted_value (acceptedValues : list string) (v : json) : bool :=
  match v with
  | JString s =>
      let normalized := lower (trim s) in
      negb (String.eqb normalized EmptyString) && bool_decide (normalized ∈ acceptedValues)
  | _ => false
  end.
Definition strong_factor_ok (f : StrongFactor) (claims : option (list (string * json))) : bool :=
  let raw := default JUndefined (c ← claims; jm_get (sf_claimName f) c) in
  match factor_values raw with
  | JArray values => forallb is_jstring values && existsb (accepted_value (sf_acceptedValues f)) values
  | _ => false
  end.

(** [Promise.all]: every call runs; the first rejection is the result. *)
Fixpoint promise_all {S E A} (ms : list (JS S E A)) : JS S E (list A) := λ s,
  match ms with
  | [] => (Ok [], s)
  | m :: ms' =>
      let '(o, s1) := m s in
      let '(os, s2) := promise_all ms' s1 in
      (a ← o; l ← os; mret (a :: l), s2)
  end.

(** A [for] loop that awaits each call. *)
Fixpoint for_each {S E A} (f : A → JS S E ()) (l : list A) : JS S E () :=
  match l with
  | [] => mret ()
  | a :: l' => _ ← f a; for_each f l'
  end.

(** [try { m } catch { throw e }] *)
Definition rethrow {E A} (o : outcome E A) (e : E) : outcome E A :=
  match o with Ok a => Ok a | Throw _ => Throw e end.

(** ** The service *)

Record Service (St : Type) := {
  sv_store : St;
  sv_clock : nat;
  sv_random : nat;
  sv_mirror : list SessionMirrorEntry;
  sv_revocations : option RevocationList }.
Arguments sv_store {St} _.
Arguments sv_clock {St} _.
Arguments sv_random {St} _.
Arguments sv_mirror {St} _.
Arguments sv_revocations {St} _.
Arguments Build_Service {St} _ _ _ _ _.

Section service.
Context {St : Type} `{SessionStore St}.
Context (options : SessionOptions)
        (clock : nat → option Z) (wall : nat → Z)
        (randomUUID createRefreshToken : nat → string)
        (hashRefreshToken : string → string)
        (claimsResolver : option (SessionClaimsSubject → outcome SessionError SessionAuthorizationClaims))
        (signAccessToken : SessionRecord → option Z → outcome SessionError IssuedAccessToken)
        (mirrorAppend : SessionMirrorEntry → outcome SessionError ()).

Notation M := (JS (Service St) SessionError).

Definition on_store {A} (m : JS St SessionError A) : M A := λ s,
  let '(o, st) := m (sv_store s) in
  (o, Build_Service st (sv_clock s) (sv_random s) (sv_mirror s) (sv_revocations s)).

Definition now : M (option Z) := λ s,
  (Ok (clock (sv_clock s)),
   Build_Service (sv_store s) (S (sv_clock s)) (sv_random s) (sv_mirror s) (sv_revocations s)).

Definition draw (source : nat → string) : M string := λ s,
  (Ok (source (sv_random s)),
   Build_Service (sv_store s) (sv_clock s) (S (sv_random s)) (sv_mirror s) (sv_revocations s)).

(** [this.revocations?.add(sid, revokedAt)] *)
Definition note_revoked (sid revokedAt : string) : M () := λ s,
  (Ok (),
   Build_Service (sv_store s) (sv_clock s) (sv_random s) (sv_mirror s)
     (add (Some options) sid (date_parse revokedAt) (wall (sv_clock s)) <$> sv_revocations s)).

Definition mirror_append (e : SessionMirrorEntry) : M () := λ s,
  match mirrorAppend e with
  | Ok _ => (Ok (), Build_Service (sv_store s) (sv_clock s) (sv_random s) (sv_mirror s ++ [e]) (sv_revocations s))
  | Throw e => (Throw e, s)
  end.

Definition appendMirror (record : SessionRecord) (status : SessionStatus) (createdAt : string) : M () :=
  mirror_append {| me_sid := sr_sid record; me_tenantId := sr_tenantId record; me_userId := sr_userId record;
                   me_membershipId := sr_membershipId record; me_status := status;
                   me_expiresAt := sr_expiresAt record; me_createdAt := createdAt |}.

Definition assertActive (record : SessionRecord) (now : option Z) : outcome SessionError () :=
  if negb (bool_decide (sr_status record = st_active)) then Throw InvalidRefreshTokenError
  else if time_le (date_parse (sr_expiresAt record)) now || time_le (date_parse (sr_idleExpiresAt record)) now
  then Throw (SessionExpiredError (sr_sid record))
  else Ok ().

Definition revokeRecord (sid : string) (status : SessionStatus) : M (option (SessionRecord * string)) :=
  n ← now;
  revokedAt ← lift (toISOString n);
  record ← on_store (revokeSession sid revokedAt status);
  match record with
  | None => mret None
  | Some record => _ ← note_revoked sid revokedAt; mret (Some (record, revokedAt))
  end.

(** [`${record.userId}:${record.tenantId}`] *)
Definition session_scope (record : SessionRecord) : string :=
  sr_userId record +:+ ":" +:+ sr_tenantId record.

Definition revokeInternal (sid : string) (status : SessionStatus)
    (publishMessage : option (SessionRecord → string)) : M (option SessionRecord) :=
  revokedSession ← revokeRecord sid status;
  match revokedSession with
  | None => mret None
  | Some (record, revokedAt) =>
      _ ← appendMirror record status revokedAt;
      _ ← match publishMessage with
          | Some f => on_store (publishInvalidation (f record))
          | None => mret ()
          end;
      mret (Some record)
  end.

Definition bundle (record : SessionRecord) (refreshToken : string) (now : option Z)
    (revokedIds : option (list string)) : M SessionBundle :=
  accessToken ← lift (signAccessToken record now);
  mret {| sb_sid := sr_sid record; sb_revokedSessionIds := revokedIds;
          sb_accessToken := at_token accessToken; sb_accessTokenExpiresAt := at_expiresAt accessToken;
          sb_refreshToken := refreshToken; sb_expiresAt := sr_expiresAt record;
          sb_idleExpiresAt := sr_idleExpiresAt record |}.

(** [await this.claimsResolver?.resolve(subject)] *)
Definition resolve (subject : SessionClaimsSubject) : outcome SessionError (option SessionAuthorizationClaims) :=
  match claimsResolver with Some f => Some <$> f subject | None => Ok None end.

(** The strong-factor step of [create]: the instant the factor was verified at, if any. *)
Definition factorVerifiedAt (prior : option SessionRecord) (metadata : SessionCreateMetadata) (now : option Z) :
    outcome SessionError (option string) :=
  let inherited := p ← prior; sr_strongFactorVerifiedAt p in
  verified ← match opt_strongFactor options, prior with
             | Some f, None =>
                 if strong_factor_ok f (cm_verifiedFactorClaims metadata) then Some <$> toISOString now
                 else Throw StrongFactorRequiredError
             | _, _ => Ok inherited
             end;
  match opt_strongFactor options, truthy_string verified with
  | Some _, None => Throw StrongFactorRequiredError
  | _, _ => Ok (truthy_string verified)
  end.

(** [Object.keys(deviceMeta).length > 0 ? { deviceMeta } : {}] *)
Definition device_meta (deviceMeta : json) : option json :=
  match deviceMeta with JObject (_ :: _) => Some deviceMeta | _ => None end.

Definition checkPrior (userId : string) (priorSessionId : option string) (now : option Z) :
    M (option SessionRecord) :=
  match truthy_string priorSessionId with
  | None => mret None
  | Some sid =>
      prior ← on_store (getSession sid);
      match prior with
      | None => throw (SessionExchangeError SESSION_OWNER_MISMATCH)
      | Some p =>
          _ ← throw_if (negb (String.eqb (sr_userId p) userId)) (SessionExchangeError SESSION_OWNER_MISMATCH);
          _ ← lift (rethrow (assertActive p now) (SessionExchangeError SESSION_NOT_ACTIVE));
          mret (Some p)
      end
  end.

(** The atomic step of [create]: a plain insertion when no policy and no prior session ask
    for more; the sessions it ended. *)
Definition persist (record : SessionRecord) (mode : SingleSessionMode) (priorSessionId : option string)
    (nowIso : string) : M (list SessionRecord) :=
  match mode, priorSessionId with
  | mode_off, None => _ ← on_store (createSession record); mret []
  | _, _ =>
      pr_revoked <$> on_store (createWithPolicy record
        {| po_mode := mode; po_now := nowIso; po_priorSessionId := priorSessionId |})
  end.

Definition create (userId tenantId cognitoSub : string) (deviceMeta : json) (metadata : SessionCreateMetadata) :
    M SessionBundle :=
  n ← now;
  prior ← checkPrior userId (cm_priorSessionId metadata) n;
  factorVerifiedAt ← lift (factorVerifiedAt prior metadata n);
  sid ← draw randomUUID;
  expiresAt ← lift (toISOString (addSeconds n (opt_absoluteSeconds options)));
  claims ← lift (match cm_claims metadata with
                 | Some c => Ok (Some c)
                 | None => resolve {| cs_sid := sid; cs_userId := userId; cs_tenantId := tenantId;
                                      cs_expiresAt := expiresAt |}
                 end);
  refreshToken ← draw createRefreshToken;
  idle ← lift (toISOString (addSeconds n (opt_idleSeconds options)));
  refreshFamilyId ← draw randomUUID;
  nowIso ← lift (toISOString n);
  let record := {|
    sr_sid := sid; sr_userId := userId; sr_tenantId := tenantId; sr_cognitoSub := cognitoSub;
    sr_membershipId := cm_membershipId metadata;
    sr_permsHash := match c ← claims; ac_permsHash c with Some h => Some h | None => cm_permsHash metadata end;
    sr_permissions := ac_permissions <$> claims; sr_roles := ac_roles <$> claims;
    sr_deviceMeta := device_meta deviceMeta; sr_refreshFamilyId := refreshFamilyId;
    sr_refreshTokenHash := hashRefreshToken refreshToken; sr_status := st_active;
    sr_createdAt := nowIso; sr_updatedAt := nowIso; sr_lastTouchedAt := nowIso;
    sr_expiresAt := expiresAt; sr_idleExpiresAt := minIso idle expiresAt; sr_revokedAt := None;
    sr_strongFactorVerifiedAt := factorVerifiedAt |} in
  revoked ← persist record (opt_mode options) (truthy_string (cm_priorSessionId metadata)) nowIso;
  _ ← for_each (λ old, note_revoked (sr_sid old) nowIso) revoked;
  _ ← for_each (λ scope, on_store (publishInvalidation scope)) (js_set (session_scope <$> revoked));
  _ ← for_each (λ old, appendMirror old st_revoked nowIso) revoked;
  _ ← mirror_append {| me_sid := sid; me_tenantId := tenantId; me_userId := userId; me_membershipId := None;
                       me_status := st_active; me_expiresAt := expiresAt; me_createdAt := nowIso |};
  bundle record refreshToken n (match revoked with [] => None | _ => Some (sr_sid <$> revoked) end).

Definition refresh (refreshToken : string) : M SessionBundle :=
  n ← now;
  let refreshHash := hashRefreshToken refreshToken in
  lookup ← on_store (lookupRefreshToken refreshHash);
  match lookup with
  | None => throw InvalidRefreshTokenError
  | Some lookup =>
      match rl_state lookup with
      | lookup_used =>
          _ ← revokeInternal (rl_sid lookup) st_reuse_detected None;
          throw (RefreshTokenReuseDetectedError (rl_sid lookup))
      | lookup_active =>
          current ← on_store (getSession (rl_sid lookup));
          match current with
          | None => throw InvalidRefreshTokenError
          | Some current =>
              _ ← lift (assertActive current n);
              claims ← lift (resolve {| cs_sid := sr_sid current; cs_userId := sr_userId current;
                                        cs_tenantId := sr_tenantId current; cs_expiresAt := sr_expiresAt current |});
              nextRefreshToken ← draw createRefreshToken;
              idle ← lift (toISOString (addSeconds n (opt_idleSeconds options)));
              nowIso ← lift (toISOString n);
              rotated ← on_store (rotateRefreshToken (sr_sid current) refreshHash
                          (hashRefreshToken nextRefreshToken) (minIso idle (sr_expiresAt current)) nowIso);
              match rotated with
              | None => throw InvalidRefreshTokenError
              | Some rotated =>
                  bundle (match claims with Some c => set_claims c rotated | None => rotated end)
                    nextRefreshToken n None
              end
          end
      end
  end.

Definition revoke (sid : string) : M bool :=
  revoked ← revokeInternal sid st_revoked (Some session_scope);
  mret (bool_decide (is_Some revoked)).

Definition revokeAllForUser (userId : string) : M nat :=
  sids ← on_store (listSessionIdsByUser userId);
  revoked ← promise_all ((λ sid, revokeRecord sid st_revoked) <$> sids);
  let revokedSessions := omap id revoked in
  _ ← promise_all ((λ message, on_store (publishInvalidation message)) <$>
        js_set ((λ p, session_scope p.1) <$> revokedSessions));
  _ ← promise_all ((λ p, appendMirror p.1 st_revoked p.2) <$> revokedSessions);
  mret (length revokedSessions).

Definition revokeAllForTenant (tenantId : string) : M nat :=
  sids ← on_store (listSessionIdsByTenant tenantId);
  revoked ← promise_all ((λ sid, revokeRecord sid st_revoked) <$> sids);
  let revokedSessions := omap id revoked in
  _ ← match revokedSessions with
      | [] => mret ()
      | _ => on_store (publishInvalidation ("*:" +:+ tenantId))
      end;
  _ ← promise_all ((λ p, appendMirror p.1 st_revoked p.2) <$> revokedSessions);
  mret (length revokedSessions).

Definition get (sid : string) : M (option SessionRecord) :=
  session ← on_store (getSession sid);
  match session with
  | None => mret None
  | Some session =>
      n ← now;
      match assertActive session n with
      | Ok _ => mret (Some session)
      | Throw (SessionExpiredError _) => _ ← revokeInternal sid st_revoked None; mret None
      | Throw e => throw e
      end
  end.

Definition nonempty (s : string) : bool := negb (String.eqb s EmptyString).

(** The order of the record's instants that [getActive] insists on. *)
Definition valid_record (sid : string) (session : SessionRecord) : bool :=
  String.eqb (sr_sid session) sid
  && forallb nonempty [sr_userId session; sr_tenantId session; sr_cognitoSub session;
                       sr_refreshFamilyId session; sr_refreshTokenHash session]
  && match date_parse (sr_createdAt session), date_parse (sr_updatedAt session),
           date_parse (sr_lastTouchedAt session), date_parse (sr_expiresAt session),
           date_parse (sr_idleExpiresAt session) with
     | Some createdAt, Some updatedAt, Some lastTouchedAt, Some expiresAt, Some idleExpiresAt =>
         negb ((lastTouchedAt <? createdAt) || (updatedAt <? lastTouchedAt) || (idleExpiresAt <? createdAt)
               || (expiresAt <? idleExpiresAt) || (expiresAt <? lastTouchedAt))
         && match sr_revokedAt session with
            | Some r => time_le (Some createdAt) (date_parse r)
            | None => true
            end
         && match sr_strongFactorVerifiedAt session with
            | Some v => bool_decide (is_Some (date_parse v))
            | None => true
            end
     | _, _, _, _, _ => false
     end.

Definition getActive (sid : string) : M (option SessionRecord) :=
  session ← on_store (getSession sid);
  match session with
  | None => mret None
  | Some session =>
      _ ← throw_if (negb (valid_record sid session)) (PlainError "SESSION_RECORD_INVALID");
      n ← now;
      match n with
      | None => throw (PlainError "SESSION_CLOCK_INVALID")
      | Some _ =>
          if negb (bool_decide (sr_status session = st_active)) then mret None
          else if time_le (date_parse (sr_expiresAt session)) n || time_le (date_parse (sr_idleExpiresAt session)) n
          then _ ← revokeInternal sid st_revoked None; mret None
          else mret (Some session)
      end
  end.

Definition touch (sid : string) : M (option SessionRecord) :=
  session ← get sid;
  match session with
  | None => mret None
  | Some session =>
      n ← now;
      touchedAt ← lift (toISOString n);
      idle ← lift (toISOString (addSeconds (date_parse touchedAt) (opt_idleSeconds options)));
      on_store (touchSession sid (minIso idle (sr_expiresAt session)) touchedAt)
  end.

(** The bundle and the id of the session it replaces. *)
Definition exchange (o : SessionExchangeOptions) : M (SessionBundle * string) :=
  current ← on_store (getSession (eo_sessionId o));
  match current with
  | None => throw (SessionExchangeError SESSION_NOT_FOUND)
  | Some current =>
      _ ← throw_if (negb (String.eqb (sr_userId current) (eo_actorUserId o)))
            (SessionExchangeError SESSION_OWNER_MISMATCH);
      n ← now;
      _ ← lift (rethrow (assertActive current n) (SessionExchangeError SESSION_NOT_ACTIVE));
      bundle ← create (eo_actorUserId o) (eo_newTenantId o) (sr_cognitoSub current)
        (match eo_deviceMeta o with
         | Some d => d
         | None => default (JObject []) (sr_deviceMeta current)
         end)
        {| cm_membershipId := eo_membershipId o; cm_permsHash := eo_permsHash o; cm_claims := None;
           cm_verifiedFactorClaims := None; cm_priorSessionId := Some (eo_sessionId o) |};
      mret (bundle, eo_sessionId o)
  end.
End service.
