(* ===== verification/SessionInv.v ===== *)
(** * SessionInv: how the service moves the abstract sessions.

    Every method of the service changes its store by moves of the abstract sessions, whatever
    the store behind the interface, and keeps the freshness of random ids and tokens. What a
    move can never undo holds of every later state: a spent token stays spent, an ended session
    stays ended. *)
From S2P Require Import Prelude JsMap JsText JsDate JsJson SessionSpec SessionRevocations SessionService.
Local Open Scope Z_scope.

(** ** Moves *)

Section moves.
Context (randomUUID createRefreshToken : nat → string) (hashRefreshToken : string → string)
        (uuid_inj : ∀ i j, randomUUID i = randomUUID j → i = j).

(** A state and the number of random draws made. *)
Definition Snapshot : Type := AbsSessions * nat.

Inductive move : Snapshot → Snapshot → Prop :=
| move_draw a n : move (a, n) (a, S n)
| move_insert a n r i j n' :
    (n ≤ i < n')%nat → (n ≤ j < n')%nat → abs_fresh r a →
    sr_sid r = randomUUID i → sr_refreshTokenHash r = hashRefreshToken (createRefreshToken j) →
    move (a, n) (abs_insert r a, n')
| move_retire a n t r : as_sessions a !! sr_sid r = Some r → move (a, n) (abs_retire t a r, n)
| move_rotate a n r next idle t j n' :
    (n ≤ j < n')%nat → next = hashRefreshToken (createRefreshToken j) →
    as_sessions a !! sr_sid r = Some r → as_lookups a !! next = None →
    move (a, n) (abs_rotate r next idle t a, n')
| move_touch a n r idle t : as_sessions a !! sr_sid r = Some r → move (a, n) (abs_touch r idle t a, n)
| move_publish a n m : move (a, n) (abs_publish m a, n)
| move_prune a n t : move (a, n) (abs_prune t a, n).

(** Ids and tokens in use were drawn. *)
Definition drawn (n : nat) (a : AbsSessions) : Prop :=
  (∀ h, is_Some (as_lookups a !! h) → ∃ i, (i < n)%nat ∧ h = hashRefreshToken (createRefreshToken i)) ∧
  (∀ sid, is_Some (as_sessions a !! sid) ∨ is_Some (as_revoked a !! sid) → ∃ i, (i < n)%nat ∧ sid = randomUUID i).

(** What no move undoes. *)
Record keeps (x y : Snapshot) : Prop := {
  kp_draws : (x.2 ≤ y.2)%nat;
  kp_used h l : as_lookups x.1 !! h = Some l → rl_state l = lookup_used → as_lookups y.1 !! h = Some l;
  kp_lookup h l : as_lookups x.1 !! h = Some l →
    ∃ l', as_lookups y.1 !! h = Some l' ∧ rl_sid l' = rl_sid l ∧ rl_familyId l' = rl_familyId l;
  kp_ended i : (i < x.2)%nat → as_sessions x.1 !! randomUUID i = None → as_sessions y.1 !! randomUUID i = None;
  kp_session sid r : as_sessions x.1 !! sid = Some r →
    as_sessions y.1 !! sid = None ∨
    ∃ r', as_sessions y.1 !! sid = Some r' ∧ sr_userId r' = sr_userId r ∧ sr_tenantId r' = sr_tenantId r ∧
          sr_expiresAt r' = sr_expiresAt r ∧ sr_refreshFamilyId r' = sr_refreshFamilyId r }.

Lemma kept_refl x : keeps x x.
Proof. split; try done; [naive_solver|]. intros. right. eauto 10. Qed.

(** Every snapshot reached is well formed and drawn. *)
Definition good (x : Snapshot) : Prop := abs_wf x.1 ∧ drawn x.2 x.1.

Lemma kept_trans x y z : good x → keeps x y → keeps y z → keeps x z.
Proof.
  intros [_ [_ Hd]] [D1 U1 L1 E1 S1] [D2 U2 L2 E2 S2]. split; eauto; [lia| | |].
  - intros h l Hl. destruct (L1 _ _ Hl) as (l' & Hl' & <- & <-). eauto.
  - intros i Hi Hn. apply E2; [lia|]. by apply E1.
  - intros sid r Hr. destruct (S1 _ _ Hr) as [Hn|(r' & Hr' & <- & <- & <- & <-)]; [left|eauto].
    destruct (Hd sid (or_introl (mk_is_Some _ _ Hr))) as (i & Hi & ->). apply E2; [lia|done].
Qed.

Lemma lookups_insert_is_Some (m : gmap string RefreshTokenLookup) k v h :
  is_Some (<[k := v]> m !! h) → h = k ∨ is_Some (m !! h).
Proof. rewrite lookup_insert_is_Some. naive_solver. Qed.

Lemma move_good x y : good x → move x y → good y.
Proof.
  intros [Hwf [Hd1 Hd2]] Hm. split; [destruct Hm; simpl in *; auto with sessions|].
  assert (∀ n n' h, (∃ i, (i < n)%nat ∧ h = hashRefreshToken (createRefreshToken i)) → (n ≤ n')%nat →
                 ∃ i, (i < n')%nat ∧ h = hashRefreshToken (createRefreshToken i)) as Hs1
    by (intros n n' h (i & ? & ?) ?; exists i; split; [lia|done]).
  assert (∀ n n' h, (∃ i, (i < n)%nat ∧ h = randomUUID i) → (n ≤ n')%nat →
                 ∃ i, (i < n')%nat ∧ h = randomUUID i) as Hs2
    by (intros n n' h (i & ? & ?) ?; exists i; split; [lia|done]).
  destruct Hm as [a n|a n r i j n' Hi Hj Hf Hsid Hh|a n t r Hr|a n r next idle t j n' Hj -> Hr Hn|a n r idle t Hr
                 |a n m|a n t];
    simpl in *; (split; [intros h Hh'|intros sid Hsid']); simpl in *; eauto with lia.
  - apply lookups_insert_is_Some in Hh' as [->|?]; [exists j; split; [lia|done]|eauto with lia].
  - rewrite lookup_insert_is_Some in Hsid'.
    destruct Hsid' as [[<-|[_ ?]]|?]; [exists i; split; [lia|done]|eauto with lia..].
  - apply lookups_insert_is_Some in Hh' as [->|?]; [|eauto]. apply Hd1.
    rewrite (wf_hash _ Hwf _ _ Hr). eauto.
  - rewrite lookup_delete_is_Some, lookup_insert_is_Some in Hsid'.
    destruct Hsid' as [[_ ?]|[<-|[_ ?]]]; eauto.
  - apply lookups_insert_is_Some in Hh' as [->|Hh']; [exists j; split; [lia|done]|].
    apply lookups_insert_is_Some in Hh' as [->|Hh']; [|eauto with lia]. eapply Hs1; [apply Hd1|lia].
    rewrite (wf_hash _ Hwf _ _ Hr). eauto.
  - rewrite lookup_insert_is_Some in Hsid'. destruct Hsid' as [[<-|[_ ?]]|?]; eauto with lia.
  - rewrite lookup_insert_is_Some in Hsid'. destruct Hsid' as [[<-|[_ ?]]|?]; eauto.
  - destruct Hsid' as [?|[x Hx]]; [eauto|]. apply map_lookup_filter_Some in Hx as [Hx _]. eauto.
Qed.

(** An update of a live session keeps it, under the same names. *)
Lemma kept_update (m : gmap string SessionRecord) (g : gmap string SessionRecord) r r' sid r0 :
  m !! sr_sid r = Some r → sr_userId r' = sr_userId r → sr_tenantId r' = sr_tenantId r →
  sr_expiresAt r' = sr_expiresAt r → sr_refreshFamilyId r' = sr_refreshFamilyId r →
  m !! sid = Some r0 →
  g !! sid = None ∨
  ∃ r1, <[sr_sid r := r']> m !! sid = Some r1 ∧ sr_userId r1 = sr_userId r0 ∧ sr_tenantId r1 = sr_tenantId r0 ∧
        sr_expiresAt r1 = sr_expiresAt r0 ∧ sr_refreshFamilyId r1 = sr_refreshFamilyId r0.
Proof.
  intros Hr Hu Ht He Hf Hr0. right. destruct (decide (sid = sr_sid r)) as [->|].
  - rewrite lookup_insert_eq. simplify_eq. eauto 10.
  - rewrite lookup_insert_ne by done. eauto 10.
Qed.

Lemma ended_update (m : gmap string SessionRecord) r r' sid :
  m !! sr_sid r = Some r → m !! sid = None → <[sr_sid r := r']> m !! sid = None.
Proof. intros Hr Hn. rewrite lookup_insert_ne; [done|congruence]. Qed.

Lemma move_keeps x y : good x → move x y → keeps x y.
Proof using uuid_inj.
  intros [Hwf Hd] Hm.
  destruct Hm as [a n|a n r i j n' Hi Hj Hf Hsid Hh|a n t r Hr|a n r next idle t j n' Hj -> Hr Hn|a n r idle t Hr
                 |a n m|a n t]; simpl in *.
  - destruct (kept_refl (a, n)). split; simpl in *; auto.
  - destruct Hf as (F1 & F2 & F3). split; simpl; [lia|..].
    + intros h l Hl _. rewrite lookup_insert_ne; [done|congruence].
    + intros h l Hl. rewrite lookup_insert_ne by congruence. eauto.
    + intros k Hk Hn. rewrite lookup_insert_ne; [done|]. rewrite Hsid. intros He. apply uuid_inj in He. lia.
    + intros sid r' Hr'. right. rewrite lookup_insert_ne by congruence. eauto 10.
  - pose proof (wf_hash _ Hwf _ _ Hr) as Hh. split; simpl; [done|..].
    + intros h l Hl Hs. rewrite lookup_insert_ne; [done|]. intros <-. simplify_eq/=.
    + intros h l Hl. destruct (decide (h = sr_refreshTokenHash r)) as [->|].
      * rewrite lookup_insert_eq. simplify_eq. eauto.
      * rewrite lookup_insert_ne by done. eauto.
    + intros k _ Hn. by rewrite lookup_delete_None; right.
    + intros sid r' Hr'. destruct (decide (sid = sr_sid r)) as [->|].
      * left. by rewrite lookup_delete_eq.
      * right. rewrite lookup_delete_ne by done. eauto 10.
  - pose proof (wf_hash _ Hwf _ _ Hr) as Hh. split; simpl; [lia|..].
    + intros h l Hl Hs. rewrite !lookup_insert_ne; [done| |congruence]. intros <-. simplify_eq/=.
    + intros h l Hl. rewrite lookup_insert_ne by congruence.
      destruct (decide (h = sr_refreshTokenHash r)) as [->|].
      * rewrite lookup_insert_eq. simplify_eq. eauto.
      * rewrite lookup_insert_ne by done. eauto.
    + intros k _ Hk. by apply ended_update.
    + intros sid r0 Hr0. by apply kept_update.
  - split; simpl; [done|done|eauto|intros k _ Hk; by apply ended_update|].
    intros sid r0 Hr0. by apply kept_update.
  - destruct (kept_refl (a, n)). split; simpl in *; auto.
  - destruct (kept_refl (a, n)). split; simpl in *; auto.
Qed.

Lemma moves_good x y : rtc move x y → good x → good y.
Proof. induction 1; eauto using move_good. Qed.

Lemma moves_keep x y : rtc move x y → good x → keeps x y.
Proof using uuid_inj. induction 1; eauto using move_good, move_keeps, kept_trans, kept_refl. Qed.
End moves.

(** ** The methods of the service make moves *)

Section service.
Context {St : Type} `{SessionStoreLaws St inv view}.
Context (options : SessionOptions)
        (clock : nat → option Z) (wall : nat → Z)
        (randomUUID createRefreshToken : nat → string)
        (hashRefreshToken : string → string)
        (claimsResolver : option (SessionClaimsSubject → outcome SessionError SessionAuthorizationClaims))
        (signAccessToken : SessionRecord → option Z → outcome SessionError IssuedAccessToken)
        (mirrorAppend : SessionMirrorEntry → outcome SessionError ())
        (uuid_inj : ∀ i j, randomUUID i = randomUUID j → i = j)
        (token_inj : ∀ i j, hashRefreshToken (createRefreshToken i) = hashRefreshToken (createRefreshToken j) → i = j).

Notation M := (JS (Service St) SessionError).
Notation moves := (rtc (move randomUUID createRefreshToken hashRefreshToken)).

Definition snapshot (s : Service St) : Snapshot := (view (sv_store s), sv_random s).
Definition svc_inv (s : Service St) : Prop :=
  inv (sv_store s) ∧ drawn randomUUID createRefreshToken hashRefreshToken (sv_random s) (view (sv_store s)).

(** Reached from [x] by moves, and in the invariant. *)
Definition from (x : Snapshot) (s : Service St) : Prop := svc_inv s ∧ moves x (snapshot s).

(** [m] makes moves only. *)
Definition sound {A} (m : M A) : Prop := ∀ x, preserves (from x) m.

Lemma svc_inv_good s : svc_inv s → good randomUUID createRefreshToken hashRefreshToken (snapshot s).
Proof. intros [Hi Hd]. split; [exact (inv_wf (sv_store s) Hi)|done]. Qed.

Lemma from_refl s : svc_inv s → from (snapshot s) s.
Proof. split; [done|apply rtc_refl]. Qed.

Lemma from_moves x s y :
  from x s → moves (snapshot s) y → good randomUUID createRefreshToken hashRefreshToken y ∧ moves x y.
Proof.
  intros [Hs Hm] Hmv. split; [by eapply moves_good; [|apply svc_inv_good]|by etrans].
Qed.

Lemma sound_run {A} (m : M A) s o s' : sound m → svc_inv s → m s = (o, s') → from (snapshot s) s'.
Proof. intros Hm Hs He. specialize (Hm _ s (from_refl s Hs)). by rewrite He in Hm. Qed.

Lemma sound_bind {A B} (m : M A) (f : A → M B) : sound m → (∀ a, sound (f a)) → sound (m ≫= f).
Proof. intros Hm Hf x. apply preserves_bind; [apply Hm|intros a; apply Hf]. Qed.
Lemma sound_fmap {A B} (f : A → B) (m : M A) : sound m → sound (f <$> m).
Proof.
  intros Hm x s Hs. specialize (Hm x s Hs). unfold fmap, js_fmap. by destruct (m s) as [[?|?] ?].
Qed.
Lemma sound_ret {A} (a : A) : sound (mret a).
Proof. intros x. apply preserves_ret. Qed.
Lemma sound_throw {A} e : sound (throw e : M A).
Proof. intros x. apply preserves_throw. Qed.
Lemma sound_lift {A} (o : outcome SessionError A) : sound (lift o).
Proof. intros x. apply preserves_lift. Qed.
Lemma sound_throw_if c e : sound (throw_if c e : M ()).
Proof. intros x. apply preserves_throw_if. Qed.
Lemma sound_now : sound (now clock).
Proof. by intros x s. Qed.
Lemma sound_note sid t : sound (note_revoked options wall sid t).
Proof. by intros x s. Qed.
Lemma sound_mirror e : sound (mirror_append mirrorAppend e).
Proof. intros x s Hs. unfold mirror_append. by destruct (mirrorAppend e). Qed.
Lemma sound_draw source : sound (draw source).
Proof.
  intros x s Hs.
  destruct (from_moves x s _ Hs (rtc_once _ _ (move_draw _ _ _ (view (sv_store s)) (sv_random s)))) as [[_ Hd] Hm].
  split; [split; [apply Hs|done]|done].
Qed.

(** A store method that makes moves. *)
Definition store_moves {A} (m : JS St SessionError A) (n : nat) (s : Service St) : Prop :=
  ∃ o a, lands inv view m (sv_store s) o a ∧ moves (view (sv_store s), n) (a, sv_random s).

Lemma store_moves_from {A} (m : JS St SessionError A) x n s :
  svc_inv s → moves x (view (sv_store s), n) →
  drawn randomUUID createRefreshToken hashRefreshToken n (view (sv_store s)) →
  store_moves m n s → from x (on_store m s).2.
Proof.
  intros Hs Hx Hd (o & a & (st & Hrun & Hi & Hv) & Hmv). unfold on_store. rewrite Hrun. simpl.
  assert (good randomUUID createRefreshToken hashRefreshToken (a, sv_random s)) as [_ Hd'].
  { eapply moves_good; [exact Hmv|]. split; [exact (inv_wf (sv_store s) (proj1 Hs))|done]. }
  unfold from, svc_inv, snapshot. simpl. rewrite Hv. split; [done|]. by etrans.
Qed.

Lemma sound_store {A} (m : JS St SessionError A) :
  (∀ s, svc_inv s → store_moves m (sv_random s) s) → sound (on_store m).
Proof.
  intros Hm x s [Hs Hmv]. apply (store_moves_from m x (sv_random s)); [done|done|apply Hs|by apply Hm].
Qed.

Lemma sound_getSession sid : sound (on_store (getSession sid)).
Proof.
  apply sound_store. intros s [Hi _]. do 2 eexists. split; [|apply rtc_refl].
  exists (sv_store s). by rewrite getSession_law.
Qed.
Lemma sound_lookup h : sound (on_store (lookupRefreshToken h)).
Proof.
  apply sound_store. intros s [Hi _]. do 2 eexists. split; [|apply rtc_refl].
  exists (sv_store s). by rewrite lookupRefreshToken_law.
Qed.
Lemma sound_byUser u : sound (on_store (listSessionIdsByUser u)).
Proof.
  apply sound_store. intros s [Hi _]. destruct (listSessionIdsByUser_law (sv_store s) u Hi) as (l & Hl & _).
  do 2 eexists. split; [|apply rtc_refl]. by exists (sv_store s).
Qed.
Lemma sound_byTenant t : sound (on_store (listSessionIdsByTenant t)).
Proof.
  apply sound_store. intros s [Hi _]. destruct (listSessionIdsByTenant_law (sv_store s) t Hi) as (l & Hl & _).
  do 2 eexists. split; [|apply rtc_refl]. by exists (sv_store s).
Qed.
Lemma sound_publish msg : sound (on_store (publishInvalidation msg)).
Proof.
  apply sound_store. intros s [Hi _]. do 2 eexists. split; [by apply publishInvalidation_law|apply rtc_once]. constructor.
Qed.
Lemma sound_revoke sid t st : sound (on_store (revokeSession sid t st)).
Proof.
  apply sound_store. intros s [Hi _]. pose proof (revokeSession_law (sv_store s) sid t st Hi) as Hl.
  destruct (as_sessions (view (sv_store s)) !! sid) as [r|] eqn:Hr.
  - do 2 eexists. split; [exact Hl|apply rtc_once]. constructor.
    by rewrite (wf_sid _ (inv_wf _ Hi) _ _ Hr).
  - do 2 eexists. split; [exact Hl|apply rtc_refl].
Qed.
Lemma sound_touch sid i t : sound (on_store (touchSession sid i t)).
Proof.
  apply sound_store. intros s [Hi _]. pose proof (touchSession_law (sv_store s) sid i t Hi) as Hl.
  destruct (as_sessions (view (sv_store s)) !! sid) as [r|] eqn:Hr.
  - do 2 eexists. split; [exact Hl|apply rtc_once]. constructor.
    by rewrite (wf_sid _ (inv_wf _ Hi) _ _ Hr).
  - do 2 eexists. split; [exact Hl|apply rtc_refl].
Qed.

Lemma sound_promise_all {A} (ms : list (M A)) : (∀ m, m ∈ ms → sound m) → sound (promise_all ms).
Proof.
  induction ms as [|m ms IH]; intros Hms x s Hs; [done|]. cbn [promise_all].
  pose proof (Hms m ltac:(by left) x s Hs) as H1. destruct (m s) as [o s1]. simpl in H1.
  pose proof (IH ltac:(intros; apply Hms; by right) x s1 H1) as H2. destruct (promise_all ms s1) as [os s2]. done.
Qed.
Lemma sound_for_each {A} (f : A → M ()) l : (∀ a, sound (f a)) → sound (for_each f l).
Proof. intros Hf. induction l as [|a l IH]; [apply sound_ret|]. apply sound_bind; [apply Hf|intros _; exact IH]. Qed.

(** ** Fresh draws *)

Lemma drawn_fresh_token n a i : drawn randomUUID createRefreshToken hashRefreshToken n a → (n ≤ i)%nat →
  as_lookups a !! hashRefreshToken (createRefreshToken i) = None.
Proof using Type* token_inj.
  intros [Hd _] Hi. apply eq_None_not_Some. intros (j & Hj & He)%Hd. apply token_inj in He. lia.
Qed.
Lemma drawn_fresh_sid n a i : drawn randomUUID createRefreshToken hashRefreshToken n a → (n ≤ i)%nat →
  as_sessions a !! randomUUID i = None ∧ as_revoked a !! randomUUID i = None.
Proof using Type* uuid_inj.
  intros [_ Hd] Hi. split; apply eq_None_not_Some; intros Hsome.
  - destruct (Hd _ (or_introl Hsome)) as (j & Hj & He). apply uuid_inj in He. lia.
  - destruct (Hd _ (or_intror Hsome)) as (j & Hj & He). apply uuid_inj in He. lia.
Qed.

(** [k] values were drawn since the store last changed, from index [n]. *)
Definition pending (x : Snapshot) (n k : nat) (s : Service St) : Prop :=
  svc_inv s ∧ moves x (view (sv_store s), n) ∧
  drawn randomUUID createRefreshToken hashRefreshToken n (view (sv_store s)) ∧ sv_random s = (n + k)%nat.

Lemma draw_moves a n k : moves (a, n) (a, (n + k)%nat).
Proof.
  induction k as [|k IH]; [rewrite Nat.add_0_r; apply rtc_refl|].
  eapply rtc_r; [exact IH|]. rewrite Nat.add_succ_r. constructor.
Qed.
Lemma pending_from x n k s : pending x n k s → from x s.
Proof.
  intros (Hi & Hm & _ & Hr). split; [done|]. etrans; [exact Hm|]. unfold snapshot. rewrite Hr. apply draw_moves.
Qed.

Lemma pending_draw {A} x n k source (f : string → M A) :
  triple (pending x n (S k)) (f (source (n + k)%nat)) (λ _, from x) →
  triple (pending x n k) (draw source ≫= f) (λ _, from x).
Proof.
  intros Hf s ((Hi & Hdr) & Hm & Hd & Hr). unfold mbind, js_bind. simpl. rewrite Hr. apply Hf.
  split; [|split; [done|split; [done|simpl; lia]]]. split; [done|]. simpl. destruct Hdr as [D1 D2]. rewrite Hr in D1, D2.
  split; [intros h Hh; destruct (D1 h Hh) as (i & ? & ?)|intros sid Hh; destruct (D2 sid Hh) as (i & ? & ?)];
    exists i; (split; [lia|done]).
Qed.
Lemma pending_lift {A B} x n k (o : outcome SessionError A) (f : A → M B) :
  (∀ a, o = Ok a → triple (pending x n k) (f a) (λ _, from x)) →
  triple (pending x n k) (lift o ≫= f) (λ _, from x).
Proof.
  intros Hf s Hs. unfold mbind, js_bind, lift. destruct o as [a|e]; [by apply (Hf a)|by eapply pending_from].
Qed.
Lemma pending_store {A B} x n k (m : JS St SessionError A) (f : A → M B) :
  (∀ s, pending x n k s → store_moves m n s) → (∀ a, sound (f a)) →
  triple (pending x n k) (on_store m ≫= f) (λ _, from x).
Proof.
  intros Hm Hf s Hs. pose proof (Hm s Hs) as Hst. destruct Hs as (Hi & Hx & Hd & _).
  pose proof (store_moves_from m x n s Hi Hx Hd Hst) as Hs'.
  unfold mbind, js_bind. destruct (on_store m s) as [[a|e] s1]; [|done]. by apply Hf.
Qed.
Lemma sound_pending {A} (m : M A) : (∀ x n, triple (pending x n 0) m (λ _, from x)) → sound m.
Proof.
  intros Hm x s [Hs Hmv]. apply (Hm x (sv_random s)). split; [done|]. split; [done|]. split; [apply Hs|lia].
Qed.

Lemma create_moves r s n i j :
  svc_inv s → (n ≤ i < sv_random s)%nat → (n ≤ j < sv_random s)%nat → abs_fresh r (view (sv_store s)) →
  sr_sid r = randomUUID i → sr_refreshTokenHash r = hashRefreshToken (createRefreshToken j) →
  store_moves (createSession r) n s.
Proof.
  intros [Hi Hd] Hli Hlj Hf Hsid Hh. do 2 eexists. split; [by apply createSession_law|].
  apply rtc_once. exact (move_insert _ _ _ _ _ r i j _ Hli Hlj Hf Hsid Hh).
Qed.

Lemma retire_moves t a n rs :
  NoDup (sr_sid <$> rs) → (∀ r, r ∈ rs → as_sessions a !! sr_sid r = Some r) →
  moves (a, n) (foldl (abs_retire t) a rs, n).
Proof.
  revert a. induction rs as [|r rs IH]; intros a Hnd Hin; cbn [foldl]; [apply rtc_refl|].
  rewrite fmap_cons in Hnd. apply NoDup_cons in Hnd as [Hni Hnd].
  eapply rtc_l; [apply move_retire, Hin; by left|]. apply IH; [done|].
  intros r' Hr'. simpl. rewrite lookup_delete_ne; [apply Hin; by right|].
  intros He. apply Hni. rewrite He. by apply list_elem_of_fmap_2.
Qed.

Lemma policy_moves r o s n i j :
  svc_inv s → (n ≤ i < sv_random s)%nat → (n ≤ j < sv_random s)%nat → abs_fresh r (view (sv_store s)) →
  sr_sid r = randomUUID i → sr_refreshTokenHash r = hashRefreshToken (createRefreshToken j) →
  store_moves (createWithPolicy r o) n s.
Proof.
  intros [Hi Hd] Hli Hlj Hf Hsid Hh.
  destruct (createWithPolicy_law (sv_store s) r o Hi Hf) as (out & a' & Hl & Hp).
  exists out, a'. split; [done|].
  assert (sv_random s = (n + (sv_random s - n))%nat) as Hr by lia.
  destruct Hp as [?|cs ? ? ? ?|cs Hp Hc _]; [rewrite Hr; apply draw_moves..|].
  destruct (victims_live r o _ cs (inv_wf (sv_store s) Hi) Hp Hc) as [Hnd Hin].
  eapply rtc_r; [by apply retire_moves|]. eapply move_insert; [exact Hli|exact Hlj| |done|done].
  apply abs_fresh_retire_all; [exact (inv_wf (sv_store s) Hi)|done|done].
Qed.

Lemma rotate_moves sid h next idle t s n j :
  svc_inv s → (n ≤ j < sv_random s)%nat → next = hashRefreshToken (createRefreshToken j) →
  as_lookups (view (sv_store s)) !! next = None →
  store_moves (rotateRefreshToken sid h next idle t) n s.
Proof.
  intros [Hi Hd] Hj Hn Hf. pose proof (rotateRefreshToken_law (sv_store s) sid h next idle t Hi Hf) as Hl.
  assert (sv_random s = (n + (sv_random s - n))%nat) as Hrand by lia.
  destruct (as_sessions (view (sv_store s)) !! sid) as [r|] eqn:Hr; [case_decide|];
    (do 2 eexists; split; [exact Hl|]); [|rewrite Hrand; apply draw_moves..].
  apply rtc_once. eapply move_rotate; [exact Hj|done| |done]. by rewrite (wf_sid _ (inv_wf (sv_store s) Hi) _ _ Hr).
Qed.

(** [listRevokedSessions] prunes. *)
Lemma sound_revokedSessions since : sound (on_store (listRevokedSessions since)).
Proof.
  apply sound_store. intros s [Hi _]. destruct (listRevokedSessions_law (sv_store s) since Hi) as (l & Hl & _).
  do 2 eexists. split; [exact Hl|apply rtc_once]. constructor.
Qed.

(** ** Methods *)

#[local] Hint Resolve sound_ret sound_throw sound_lift sound_throw_if sound_now sound_note sound_mirror
  sound_draw sound_getSession sound_lookup sound_byUser sound_byTenant sound_publish sound_revoke sound_touch
  sound_fmap : sessions.

(** Through binds and case distinctions to methods known to be sound. *)
Ltac sound :=
  repeat first
    [ solve [auto with sessions]
    | apply sound_bind; [|intros]
    | match goal with |- sound (match ?x with _ => _ end) => destruct x end ].

Notation appendMirror := (appendMirror mirrorAppend).
Notation revokeRecord := (revokeRecord options clock wall).
Notation revokeInternal := (revokeInternal options clock wall mirrorAppend).
Notation create := (create options clock wall randomUUID createRefreshToken hashRefreshToken claimsResolver
                      signAccessToken mirrorAppend).
Notation refresh := (refresh options clock wall createRefreshToken hashRefreshToken claimsResolver
                       signAccessToken mirrorAppend).
Notation get := (get options clock wall mirrorAppend).
Notation getActive := (getActive options clock wall mirrorAppend).

Lemma sound_appendMirror r st t : sound (appendMirror r st t).
Proof. apply sound_mirror. Qed.
#[local] Hint Resolve sound_appendMirror : sessions.
Lemma sound_revokeRecord sid st : sound (revokeRecord sid st).
Proof. unfold SessionService.revokeRecord. sound. Qed.
#[local] Hint Resolve sound_revokeRecord : sessions.
Lemma sound_revokeInternal sid st f : sound (revokeInternal sid st f).
Proof. unfold SessionService.revokeInternal. sound. Qed.
#[local] Hint Resolve sound_revokeInternal : sessions.
Lemma sound_bundle r tok n ids : sound (bundle signAccessToken r tok n ids).
Proof. unfold bundle. sound. Qed.
Lemma sound_revokeMethod sid : sound (revoke options clock wall mirrorAppend sid).
Proof. unfold revoke. sound. Qed.
Lemma sound_get sid : sound (get sid).
Proof. unfold SessionService.get. sound. Qed.
Lemma sound_getActive sid : sound (getActive sid).
Proof. unfold SessionService.getActive. sound. Qed.
#[local] Hint Resolve sound_bundle sound_get : sessions.
Lemma sound_touchMethod sid : sound (touch options clock wall mirrorAppend sid).
Proof. unfold touch. sound. Qed.
Lemma sound_checkPrior u sid n : sound (checkPrior u sid n).
Proof. unfold checkPrior. sound. Qed.

Lemma sound_map {A B} (f : A → M B) l : (∀ a, sound (f a)) → sound (promise_all (f <$> l)).
Proof. intros Hf. apply sound_promise_all. intros m (a & -> & _)%list_elem_of_fmap. apply Hf. Qed.
#[local] Hint Resolve sound_map sound_for_each sound_checkPrior : sessions.

Lemma sound_revokeAllForUser u : sound (revokeAllForUser options clock wall mirrorAppend u).
Proof. unfold revokeAllForUser. sound. Qed.
Lemma sound_revokeAllForTenant t : sound (revokeAllForTenant options clock wall mirrorAppend t).
Proof. unfold revokeAllForTenant. sound. Qed.

Lemma sound_refresh tok : sound (refresh tok).
Proof using Type* token_inj.
  unfold SessionService.refresh. apply sound_bind; [sound|intros n]. apply sound_bind; [sound|intros [lookup|]]; [|sound].
  destruct (rl_state lookup); [|sound]. apply sound_bind; [sound|intros [current|]]; [|sound].
  apply sound_bind; [sound|intros _]. apply sound_bind; [sound|intros claims].
  apply sound_pending. intros x k. apply pending_draw, pending_lift. intros idle _. apply pending_lift. intros nowIso _.
  apply pending_store; [|intros; sound]. intros s (Hs & _ & Hd & Hr). eapply (rotate_moves _ _ _ _ _ s k k); [done|lia| |].
  - by rewrite Nat.add_0_r.
  - rewrite Nat.add_0_r. by apply (drawn_fresh_token k).
Qed.

Lemma sound_create u t c d m : sound (create u t c d m).
Proof using Type* uuid_inj token_inj.
  unfold SessionService.create. apply sound_bind; [sound|intros n]. apply sound_bind; [sound|intros prior].
  apply sound_bind; [sound|intros verified].
  apply sound_pending. intros x k. apply pending_draw, pending_lift. intros expiresAt _. apply pending_lift. intros claims _.
  apply pending_draw, pending_lift. intros idle _. apply pending_draw, pending_lift. intros nowIso _.
  match goal with |- triple _ (_ ≫= ?f) _ => assert (∀ l, sound (f l)) as Hrest by (intros l; sound) end.
  set (record := Build_SessionRecord _ _ _ _ _ _ _ _ _ _ _ _ _ _ _ _ _ _ _) in *.
  assert (∀ s, pending x k 3 s → svc_inv s ∧ (k ≤ k < sv_random s)%nat ∧ (k ≤ k + 1 < sv_random s)%nat ∧
            abs_fresh record (view (sv_store s))) as Hfresh.
  { intros s (Hs & _ & Hd & Hr). split_and!; [done|lia..|]. split_and!; simpl; rewrite ?Nat.add_0_r.
    - by apply (drawn_fresh_sid k).
    - by apply (drawn_fresh_sid k).
    - apply (drawn_fresh_token k); [done|lia]. }
  assert (sr_sid record = randomUUID k) as Hsid by (simpl; by rewrite Nat.add_0_r).
  assert (∀ o, triple (pending x k 3) (pr_revoked <$> on_store (createWithPolicy record o)) (λ o s, from x s)) as Hpol.
  { intros o s Hs. destruct (Hfresh s Hs) as (Hi & Hk & Hk1 & Hf). destruct Hs as (_ & Hx & Hd & _).
    pose proof (store_moves_from _ x k s Hi Hx Hd (policy_moves record o s k k (k + 1) Hi Hk Hk1 Hf Hsid eq_refl)) as Hst.
    unfold fmap, js_fmap. by destruct (on_store (createWithPolicy record o) s) as [[?|?] ?]. }
  assert (triple (pending x k 3) (_ ← on_store (createSession record); mret [] : M (list SessionRecord))
            (λ o s, from x s)) as Hcreate.
  { apply pending_store; [|intros; sound]. intros s Hs. destruct (Hfresh s Hs) as (? & ? & ? & ?).
    by apply (create_moves record s k k (k + 1)). }
  apply (triple_bind _ _ _ (λ _, from x)); [|intros l; exact (Hrest l x)|done].
  unfold persist. destruct (opt_mode options), (truthy_string _); done.
Qed.
#[local] Hint Resolve sound_create : sessions.

Lemma sound_exchange o : sound (exchange options clock wall randomUUID createRefreshToken hashRefreshToken
  claimsResolver signAccessToken mirrorAppend o).
Proof using Type* uuid_inj token_inj. unfold exchange. sound. Qed.
End service.

#[export] Hint Resolve sound_ret sound_throw sound_lift sound_throw_if sound_now sound_note sound_mirror
    sound_draw sound_getSession sound_lookup sound_byUser sound_byTenant sound_publish sound_revoke sound_touch
    sound_fmap : sessions.
