(* ===== verification/SessionMethods.v ===== *)
(** * SessionMethods: what each method of the session service does to the abstract sessions. *)
From S2P Require Import Prelude JsMap JsText JsDate JsJson SessionSpec SessionRevocations SessionService SessionInv.
Local Open Scope Z_scope.

Section methods.
Context {St : Type} `{SessionStoreLaws St inv view}.
Context (options : SessionOptions)
        (clock : nat → option Z) (wall : nat → Z)
        (randomUUID createRefreshToken : nat → string)
        (hashRefreshToken : string → string)
        (claimsResolver : option (SessionClaimsSubject → outcome SessionError SessionAuthorizationClaims))
        (signAccessToken : SessionRecord → option Z → outcome SessionError IssuedAccessToken)
        (mirrorAppend : SessionMirrorEntry → outcome SessionError ())
        (uuid_inj : ∀ i j, randomUUID i = randomUUID j → i = j)
        (token_inj : ∀ i j, hashRefreshToken (createRefreshToken i) = hashRefreshToken (createRefreshToken j) → i = j).

Notation M := (JS (Service St) SessionError).
Notation V s := (view (sv_store s)).
Notation svc_inv := (svc_inv (inv := inv) (view := view) randomUUID createRefreshToken hashRefreshToken).
Notation from := (from (inv := inv) (view := view) randomUUID createRefreshToken hashRefreshToken).
Notation snapshot := (snapshot (view := view)).
Notation revokeRecord := (revokeRecord options clock wall).
Notation revokeInternal := (revokeInternal options clock wall mirrorAppend).
Notation create := (create options clock wall randomUUID createRefreshToken hashRefreshToken claimsResolver
                      signAccessToken mirrorAppend).
Notation refresh := (refresh options clock wall createRefreshToken hashRefreshToken claimsResolver
                       signAccessToken mirrorAppend).
Notation exchange := (exchange options clock wall randomUUID createRefreshToken hashRefreshToken claimsResolver
                       signAccessToken mirrorAppend).

(** [s] with another store. *)
Definition with_store (st : St) (s : Service St) : Service St :=
  Build_Service st (sv_clock s) (sv_random s) (sv_mirror s) (sv_revocations s).

Lemma on_store_eq {A} (m : JS St SessionError A) s :
  on_store m s = ((m (sv_store s)).1, with_store (m (sv_store s)).2 s).
Proof. unfold on_store. by destruct (m (sv_store s)). Qed.

Lemma on_store_lands {A} (m : JS St SessionError A) s o a :
  lands inv view m (sv_store s) o a →
  ∃ st, on_store m s = (o, with_store st s) ∧ inv st ∧ view st = a.
Proof. intros (st & Hm & Hi & Hv). exists st. by rewrite on_store_eq, Hm. Qed.

Lemma on_getSession s sid : svc_inv s → on_store (getSession sid) s = (Ok (as_sessions (V s) !! sid), s).
Proof. intros [Hi _]. rewrite on_store_eq, getSession_law by done. by destruct s. Qed.
Lemma on_lookup s h : svc_inv s → on_store (lookupRefreshToken h) s = (Ok (as_lookups (V s) !! h), s).
Proof. intros [Hi _]. rewrite on_store_eq, lookupRefreshToken_law by done. by destruct s. Qed.

Lemma svc_wf s : svc_inv s → abs_wf (V s).
Proof. intros [Hi _]. exact (inv_wf (sv_store s) Hi). Qed.

(** ** Ending sessions *)

(** The list of the service after [add(sid, revokedAt)]. *)
Definition noted (sid revokedAt : string) (w : nat) (l : option RevocationList) : option RevocationList :=
  add (Some options) sid (date_parse revokedAt) (wall w) <$> l.

Lemma revokeRecord_spec sid status s n :
  svc_inv s → clock (sv_clock s) = Some n →
  ∃ s', revokeRecord sid status s =
          (Ok ((λ r, (set_revoked status (to_iso n) r, to_iso n)) <$> as_sessions (V s) !! sid), s') ∧
        V s' = match as_sessions (V s) !! sid with Some r => abs_retire (to_iso n) (V s) r | None => V s end ∧
        sv_random s' = sv_random s ∧ sv_clock s' = S (sv_clock s) ∧ sv_mirror s' = sv_mirror s ∧
        sv_revocations s' = match as_sessions (V s) !! sid with
                            | Some _ => noted sid (to_iso n) (S (sv_clock s)) (sv_revocations s)
                            | None => sv_revocations s
                            end.
Proof.
  intros [Hi _] Hn. unfold SessionService.revokeRecord, now. js_unfold. rewrite Hn. simpl.
  rewrite on_store_eq. cbn [sv_store].
  pose proof (revokeSession_law (sv_store s) sid (to_iso n) status Hi) as Hl.
  destruct (as_sessions (V s) !! sid) as [r|]; destruct Hl as (st & -> & _ & Hv); simpl; eauto 10.
Qed.

Lemma revokeInternal_spec sid status f s n :
  svc_inv s → clock (sv_clock s) = Some n → (∀ e, mirrorAppend e = Ok ()) →
  ∃ s', revokeInternal sid status f s = (Ok (set_revoked status (to_iso n) <$> as_sessions (V s) !! sid), s') ∧
        V s' = match as_sessions (V s) !! sid with
               | Some r =>
                   let a := abs_retire (to_iso n) (V s) r in
                   match f with Some f => abs_publish (f (set_revoked status (to_iso n) r)) a | None => a end
               | None => V s
               end ∧
        sv_random s' = sv_random s ∧
        sv_revocations s' = match as_sessions (V s) !! sid with
                            | Some _ => noted sid (to_iso n) (S (sv_clock s)) (sv_revocations s)
                            | None => sv_revocations s
                            end.
Proof.
  intros Hs Hn Hmir. destruct (revokeRecord_spec sid status s n Hs Hn) as (s1 & Hrun & Hv & Hr & _ & _ & Hl).
  pose proof (sound_run _ _ _ _ _ _ _ (sound_revokeRecord options clock wall _ _ _ sid status) Hs Hrun) as [[Hi1 _] _].
  unfold SessionService.revokeInternal. unfold mbind at 1, js_bind at 1. rewrite Hrun.
  destruct (as_sessions (V s) !! sid) as [r|]; simpl; [|by exists s1].
  unfold appendMirror, mirror_append. js_unfold. rewrite Hmir. destruct f as [f|]; simpl; [|eauto 10].
  rewrite on_store_eq. simpl.
  destruct (publishInvalidation_law (sv_store s1) (f (set_revoked status (to_iso n) r)) Hi1) as (st & -> & _ & Hv2).
  simpl. eexists. split; [done|]. simpl. rewrite Hv2, Hv. done.
Qed.

(** ** Refreshing *)

Lemma bundle_ok r tok n ids (s : Service St) b s' :
  bundle (St := St) signAccessToken r tok n ids s = (Ok b, s') →
  s' = s ∧ sb_sid b = sr_sid r ∧ sb_refreshToken b = tok ∧ sb_expiresAt b = sr_expiresAt r ∧
  sb_idleExpiresAt b = sr_idleExpiresAt r ∧ sb_revokedSessionIds b = ids.
Proof. unfold bundle. js_unfold. destruct (signAccessToken r n); intros; by simplify_eq. Qed.

Lemma refresh_ok tok s b s' :
  svc_inv s → refresh tok s = (Ok b, s') →
  ∃ r n j idle, as_sessions (V s) !! sb_sid b = Some r ∧ sr_refreshTokenHash r = hashRefreshToken tok ∧
    assertActive r (clock (sv_clock s)) = Ok () ∧ clock (sv_clock s) = Some n ∧
    addSeconds (Some n) (opt_idleSeconds options) = Some idle ∧
    sb_refreshToken b = createRefreshToken j ∧ (sv_random s ≤ j)%nat ∧
    sb_expiresAt b = sr_expiresAt r ∧ sb_idleExpiresAt b = minIso (to_iso idle) (sr_expiresAt r) ∧
    V s' = abs_rotate r (hashRefreshToken (sb_refreshToken b)) (sb_idleExpiresAt b) (to_iso n) (V s).
Proof.
  intros Hs. pose proof (svc_wf s Hs) as Hwf. unfold SessionService.refresh.
  unfold mbind at 1, js_bind at 1. cbn [now].
  set (s1 := Build_Service _ (S _) _ _ _). assert (svc_inv s1) as Hs1 by exact Hs.
  unfold mbind at 1, js_bind at 1. rewrite on_lookup by done. change (V s1) with (V s).
  destruct (as_lookups (V s) !! hashRefreshToken tok) as [l|] eqn:Hl; [|js_unfold; done].
  destruct (rl_state l) eqn:Hst; [|intros (? & ? & _ & H1)%js_bind_ok; by js_unfold].
  unfold mbind at 1, js_bind at 1. rewrite on_getSession by done. change (V s1) with (V s).
  destruct (as_sessions (V s) !! rl_sid l) as [r|] eqn:Hr; [|js_unfold; done].
  pose proof (wf_sid _ Hwf _ _ Hr) as Hsid.
  assert (sr_refreshTokenHash r = hashRefreshToken tok) as Hhash.
  { destruct (wf_active _ Hwf _ _ Hl Hst) as (r' & Hr' & He). congruence. }
  unfold mbind at 1, js_bind at 1, lift at 1.
  destruct (assertActive r (clock (sv_clock s))) as [[]|e] eqn:Hact; [|done].
  unfold mbind at 1, js_bind at 1, lift at 1. destruct (resolve claimsResolver _) as [claims|e]; [|done].
  unfold mbind at 1, js_bind at 1. cbn [draw s1 sv_random].
  unfold mbind at 1, js_bind at 1, lift at 1.
  destruct (clock (sv_clock s)) as [n|]; [|done].
  destruct (addSeconds (Some n) (opt_idleSeconds options)) as [idle|] eqn:Hidle; [|done]. cbn [toISOString].
  unfold mbind at 1, js_bind at 1, lift at 1. unfold mbind at 1, js_bind at 1. rewrite on_store_eq.
  subst s1. cbn [sv_store sv_random].
  assert (as_lookups (V s) !! hashRefreshToken (createRefreshToken (sv_random s)) = None) as Hfresh
    by (eapply drawn_fresh_token; [exact uuid_inj|exact token_inj|apply Hs|lia]).
  pose proof (rotateRefreshToken_law (sv_store s) (sr_sid r) (hashRefreshToken tok)
    (hashRefreshToken (createRefreshToken (sv_random s))) (minIso (to_iso idle) (sr_expiresAt r)) (to_iso n)
    (proj1 Hs) Hfresh) as Hrot.
  rewrite Hsid, Hr, decide_True in Hrot by done. rewrite Hsid. destruct Hrot as (st & -> & _ & Hv). cbn [fst snd].
  intros (-> & H1 & H2 & H3 & H4 & _)%bundle_ok.
  exists r, n, (sv_random s), idle.
  assert (sb_sid b = rl_sid l) as -> by (rewrite H1; destruct claims; simpl; done).
  assert (sb_idleExpiresAt b = minIso (to_iso idle) (sr_expiresAt r)) as Hi by (rewrite H4; destruct claims; done).
  split_and!; try done; [rewrite H3; by destruct claims|].
  simpl. rewrite H2, Hi. exact Hv.
Qed.

(** A spent token: the session it names ends. *)
Lemma refresh_used tok s l n :
  svc_inv s → as_lookups (V s) !! hashRefreshToken tok = Some l → rl_state l = lookup_used →
  clock (S (sv_clock s)) = Some n → (∀ e, mirrorAppend e = Ok ()) →
  ∃ s', refresh tok s = (Throw (RefreshTokenReuseDetectedError (rl_sid l)), s') ∧
    V s' = match as_sessions (V s) !! rl_sid l with Some r => abs_retire (to_iso n) (V s) r | None => V s end ∧
    sv_revocations s' = match as_sessions (V s) !! rl_sid l with
                        | Some _ => noted (rl_sid l) (to_iso n) (S (S (sv_clock s))) (sv_revocations s)
                        | None => sv_revocations s
                        end.
Proof.
  intros Hs Hl Hst Hn Hmir. unfold SessionService.refresh. unfold mbind at 1, js_bind at 1. cbn [now].
  set (s1 := Build_Service _ (S _) _ _ _). assert (svc_inv s1) as Hs1 by exact Hs.
  unfold mbind at 1, js_bind at 1. rewrite on_lookup by done. change (V s1) with (V s). rewrite Hl, Hst.
  destruct (revokeInternal_spec (rl_sid l) st_reuse_detected None s1 n Hs1 Hn Hmir) as (s' & Hrun & Hv & _ & Hrev).
  unfold mbind at 1, js_bind at 1. rewrite Hrun. exists s'. done.
Qed.

(** ** Creating *)

(** Same sessions, tokens and revocations; the invalidation log may differ. *)
Definition same_core (a a' : AbsSessions) : Prop :=
  as_sessions a' = as_sessions a ∧ as_lookups a' = as_lookups a ∧ as_revoked a' = as_revoked a.

Lemma same_core_trans a b c : same_core a b → same_core b c → same_core a c.
Proof. unfold same_core. intros (? & ? & ?) (? & ? & ?). split_and!; congruence. Qed.

Lemma lift_ok {A} (o : outcome SessionError A) (s : Service St) a s' :
  lift o s = (Ok a, s') → o = Ok a ∧ s' = s.
Proof. unfold lift. intros. by simplify_eq. Qed.

Lemma for_each_publish l s o s' :
  inv (sv_store s) → for_each (λ scope, on_store (publishInvalidation scope)) l s = (o, s') →
  o = Ok () ∧ same_core (V s) (V s') ∧ sv_revocations s' = sv_revocations s.
Proof.
  revert s. induction l as [|x l IH]; intros s Hs; cbn [for_each].
  { unfold mret, js_ret. intros. by simplify_eq. }
  unfold mbind, js_bind. rewrite on_store_eq.
  destruct (publishInvalidation_law (sv_store s) x Hs) as (st & -> & Hi & Hv). simpl. intros Hrun.
  apply IH in Hrun as (-> & Hc & Hr); [|done]. split_and!; try done. simpl in Hc. by rewrite Hv in Hc.
Qed.

Lemma for_each_mirror {A} (f : A → SessionMirrorEntry) l (s : Service St) o s' :
  for_each (λ a, mirror_append mirrorAppend (f a)) l s = (o, s') →
  V s' = V s ∧ sv_revocations s' = sv_revocations s.
Proof.
  revert s. induction l as [|x l IH]; intros s; cbn [for_each].
  { unfold mret, js_ret. intros. by simplify_eq. }
  unfold mbind, js_bind, mirror_append at 1. destruct (mirrorAppend (f x)); [|intros; by simplify_eq].
  intros H1%IH. done.
Qed.

(** The list after the revocation of every session of [l]. *)
Definition noted_all (revokedAt : string) (w : nat) (l : list SessionRecord) (rl : option RevocationList) :
    option RevocationList := foldl (λ rl r, noted (sr_sid r) revokedAt w rl) rl l.

Lemma for_each_note l t (s : Service St) :
  for_each (λ old, note_revoked options wall (sr_sid old) t) l s =
  (Ok (), Build_Service (sv_store s) (sv_clock s) (sv_random s) (sv_mirror s)
            (noted_all t (sv_clock s) l (sv_revocations s))).
Proof.
  revert s. induction l as [|x l IH]; intros s; cbn [for_each]; [by destruct s|].
  unfold mbind, js_bind, note_revoked at 1. by rewrite IH.
Qed.

(** What [create] decides before it draws anything. *)
Lemma checkPrior_ok u sid n s p s' :
  svc_inv s → checkPrior u sid n s = (Ok p, s') →
  s' = s ∧ p = (sid ← truthy_string sid; as_sessions (V s) !! sid) ∧
  (is_Some (truthy_string sid) → ∃ r, p = Some r ∧ sr_userId r = u ∧ assertActive r n = Ok ()).
Proof.
  intros Hs. unfold checkPrior. destruct (truthy_string sid) as [k|]; simpl.
  2:{ unfold mret, js_ret. intros. simplify_eq. by split_and!; [..|intros []]. }
  unfold mbind at 1, js_bind at 1. rewrite on_getSession by done.
  destruct (as_sessions (V s) !! k) as [r|]; [|done]. js_unfold.
  destruct (String.eqb_spec (sr_userId r) u) as [Hu|]; simpl; [|done].
  destruct (assertActive r n) as [[]|err] eqn:Ha; simpl; [|done]. intros Heq. injection Heq as <- <-. eauto 10.
Qed.

(** The sessions a policy ended, and the state it left. *)
Definition switched (record : SessionRecord) (o : SessionPolicyOptions) (a : AbsSessions)
    (revoked : list SessionRecord) (a' : AbsSessions) : Prop :=
  ∃ cs, conflict_list record o a cs ∧ (po_mode o = mode_reject_new → cs = []) ∧
        revoked = set_revoked st_revoked (po_now o) <$> victims o (abs_prior o a) cs ∧
        a' = abs_insert record (foldl (abs_retire (po_now o)) a (victims o (abs_prior o a) cs)).

Lemma policy_ok r o s out s' :
  svc_inv s → abs_fresh r (V s) → on_store (createWithPolicy r o) s = (Ok out, s') →
  switched r o (V s) (pr_revoked out) (V s') ∧ sv_revocations s' = sv_revocations s ∧ sv_random s' = sv_random s ∧
  sv_clock s' = sv_clock s.
Proof.
  intros Hs Hf. destruct (createWithPolicy_law (sv_store s) r o (proj1 Hs) Hf) as (out' & a' & (st & Hrun & _ & Hv) & Hp).
  rewrite on_store_eq, Hrun. simpl. intros. simplify_eq. simpl. split; [|done].
  inversion Hp as [|? ? ? ? ?|cs Hpr Hc Hm]; subst. exists cs. split_and!; try done. simpl.
  intros Hrej. destruct cs; [done|]. exfalso. by apply Hm.
Qed.

(** How [create] leaves the abstract sessions. *)
Definition stored_as (record : SessionRecord) (mode : SingleSessionMode) (priorId : option string) (nowIso : string)
    (a : AbsSessions) (revoked : list SessionRecord) (a' : AbsSessions) : Prop :=
  match mode, priorId with
  | mode_off, None => revoked = [] ∧ a' = abs_insert record a
  | _, _ => switched record {| po_mode := mode; po_now := nowIso; po_priorSessionId := priorId |} a revoked a'
  end.

Lemma persist_ok record mode priorId nowIso s revoked s' :
  svc_inv s → abs_fresh record (V s) → persist record mode priorId nowIso s = (Ok revoked, s') →
  stored_as record mode priorId nowIso (V s) revoked (V s') ∧ sv_revocations s' = sv_revocations s ∧
  sv_clock s' = sv_clock s ∧ sv_random s' = sv_random s ∧ inv (sv_store s').
Proof.
  intros Hs Hf Hrun.
  assert (inv (sv_store s')) as Hi.
  { destruct (createSession_law (sv_store s) record (proj1 Hs) Hf) as (st & Hc & Hi & _).
    unfold persist in Hrun.
    assert (∀ o, (pr_revoked <$> on_store (createWithPolicy record o) : M (list SessionRecord)) s = (Ok revoked, s') →
              inv (sv_store s')) as Hpol.
    { intros o. destruct (createWithPolicy_law (sv_store s) record o (proj1 Hs) Hf) as (out & a' & (st2 & Hp & Hi2 & _) & _).
      unfold fmap, js_fmap. rewrite on_store_eq, Hp. simpl. destruct out; intros; by simplify_eq. }
    destruct mode, priorId; try (by eapply Hpol). unfold mbind, js_bind in Hrun. rewrite on_store_eq, Hc in Hrun.
    simpl in Hrun. unfold mret, js_ret in Hrun. by simplify_eq. }
  unfold persist, stored_as in *.
  assert (∀ o, (pr_revoked <$> on_store (createWithPolicy record o) : M (list SessionRecord)) s = (Ok revoked, s') →
            switched record o (V s) revoked (V s') ∧ sv_revocations s' = sv_revocations s ∧
            sv_clock s' = sv_clock s ∧ sv_random s' = sv_random s) as Hpol.
  { intros o. unfold fmap, js_fmap. destruct (on_store (createWithPolicy record o) s) as [[out|?] s1] eqn:Hp; [|done].
    intros. simplify_eq. by destruct (policy_ok _ _ _ _ _ Hs Hf Hp) as (? & ? & ? & ?). }
  destruct mode, priorId; try (apply Hpol in Hrun; tauto).
  unfold mbind, js_bind in Hrun. rewrite on_store_eq in Hrun.
  destruct (createSession_law (sv_store s) record (proj1 Hs) Hf) as (st & Hc & _ & Hv).
  rewrite Hc in Hrun. simpl in Hrun. unfold mret, js_ret in Hrun. by simplify_eq.
Qed.

Lemma create_ok u t c d m s b s' :
  svc_inv s → create u t c d m s = (Ok b, s') →
  let priorId := truthy_string (cm_priorSessionId m) in
  ∃ n j record revoked a verified,
    clock (sv_clock s) = Some n ∧ abs_fresh record (V s) ∧
    sr_sid record = sb_sid b ∧ sr_userId record = u ∧ sr_tenantId record = t ∧ sr_status record = st_active ∧
    sb_refreshToken b = createRefreshToken j ∧ sr_refreshTokenHash record = hashRefreshToken (sb_refreshToken b) ∧
    factorVerifiedAt options (sid ← priorId; as_sessions (V s) !! sid) m (Some n) = Ok verified ∧
    sr_strongFactorVerifiedAt record = verified ∧ sr_createdAt record = to_iso n ∧
    (∃ e i, addSeconds (Some n) (opt_absoluteSeconds options) = Some e ∧
            addSeconds (Some n) (opt_idleSeconds options) = Some i ∧
            sr_expiresAt record = to_iso e ∧ sr_idleExpiresAt record = minIso (to_iso i) (to_iso e)) ∧
    (is_Some priorId → ∃ p, (sid ← priorId; as_sessions (V s) !! sid) = Some p ∧ sr_userId p = u ∧
                            assertActive p (Some n) = Ok ()) ∧
    stored_as record (opt_mode options) priorId (to_iso n) (V s) revoked a ∧ same_core a (V s') ∧
    sv_revocations s' = noted_all (to_iso n) (S (sv_clock s)) revoked (sv_revocations s) ∧
    sb_revokedSessionIds b = (match revoked with [] => None | _ => Some (sr_sid <$> revoked) end).
Proof.
  intros Hs. cbv zeta. unfold SessionService.create.
  unfold mbind at 1, js_bind at 1. cbn [now].
  set (s0 := Build_Service _ (S _) _ _ _). assert (svc_inv s0) as Hs0 by exact Hs.
  intros (prior & s1 & Hprior & Hrun)%js_bind_ok. apply checkPrior_ok in Hprior as (-> & Hp & Hpo); [|done].
  apply js_bind_ok in Hrun as (verified & s1 & [Hver ->]%lift_ok & Hrun).
  apply js_bind_ok in Hrun as (sid & s1 & Hd1 & Hrun). unfold draw in Hd1. injection Hd1 as <- <-.
  apply js_bind_ok in Hrun as (expiresAt & s1 & [Hexp ->]%lift_ok & Hrun).
  destruct (clock (sv_clock s)) as [n|] eqn:Hn; [|done].
  destruct (addSeconds (Some n) (opt_absoluteSeconds options)) as [exp|] eqn:He; [|done].
  cbn [toISOString] in Hexp. injection Hexp as <-.
  apply js_bind_ok in Hrun as (claims & s1 & [_ ->]%lift_ok & Hrun).
  apply js_bind_ok in Hrun as (refreshToken & s1 & Hd2 & Hrun). unfold draw in Hd2. injection Hd2 as <- <-.
  apply js_bind_ok in Hrun as (idle & s1 & [Hidle ->]%lift_ok & Hrun).
  destruct (addSeconds (Some n) (opt_idleSeconds options)) as [i|] eqn:Hi; [|done].
  cbn [toISOString] in Hidle. injection Hidle as <-.
  apply js_bind_ok in Hrun as (family & s1 & Hd3 & Hrun). unfold draw in Hd3. injection Hd3 as <- <-.
  apply js_bind_ok in Hrun as (nowIso & s1 & [Hiso ->]%lift_ok & Hrun).
  cbn [toISOString] in Hiso. injection Hiso as <-.
  set (s3 := Build_Service _ _ _ _ _) in Hrun. set (record := Build_SessionRecord _ _ _ _ _ _ _ _ _ _ _ _ _ _ _ _ _ _ _) in Hrun.
  assert (svc_inv s3) as Hs3.
  { split; [apply Hs|]. simpl. destruct Hs as [_ [D1 D2]]. split.
    - intros h Hh. destruct (D1 h Hh) as (k & ? & ?). exists k. split; [lia|done].
    - intros k Hk. destruct (D2 k Hk) as (k' & ? & ?). exists k'. split; [lia|done]. }
  assert (abs_fresh record (V s3)) as Hfresh.
  { simpl. split_and!.
    - eapply drawn_fresh_sid; [exact uuid_inj|exact token_inj|apply Hs|lia].
    - eapply drawn_fresh_sid; [exact uuid_inj|exact token_inj|apply Hs|lia].
    - eapply drawn_fresh_token; [exact uuid_inj|exact token_inj|apply Hs|lia]. }
  apply js_bind_ok in Hrun as (revoked & s4 & Hst & Hrun).
  apply (persist_ok record (opt_mode options) (truthy_string (cm_priorSessionId m)) (to_iso n)) in Hst
    as (Hst & Hrev & Hclk & Hrand & Hi4); [|done..].
  unfold mbind at 1, js_bind at 1 in Hrun. rewrite for_each_note in Hrun.
  apply js_bind_ok in Hrun as ([] & s5 & Hpub & Hrun).
  apply for_each_publish in Hpub as (_ & Hcore & Hrev5); [|exact Hi4].
  apply js_bind_ok in Hrun as ([] & s6 & [Hv6 Hrev6]%for_each_mirror & Hrun).
  apply js_bind_ok in Hrun as ([] & s7 & Hmir & Hrun).
  unfold mirror_append in Hmir. destruct (mirrorAppend _); [|done]. simplify_eq.
  apply bundle_ok in Hrun as (-> & B1 & B2 & B3 & B4 & B5). cbn [sv_store sv_revocations] in *.
  exists n, (S (sv_random s)), record, revoked, (V s4), verified.
  split_and!; try done; [by rewrite B2|by exists exp, i| |].
  - by rewrite Hv6.
  - by rewrite Hrev6, Hrev5, Hrev, Hclk.
Qed.

(** ** Failures of [create] *)

Lemma checkPrior_same u sid n s : svc_inv s → (checkPrior u sid n s).2 = s.
Proof.
  intros Hs. unfold checkPrior. destruct (truthy_string sid) as [k|]; [|done].
  unfold mbind at 1, js_bind at 1. rewrite on_getSession by done.
  destruct (as_sessions (V s) !! k) as [r|]; [|done]. js_unfold.
  destruct (negb _); [done|]. by destruct (rethrow _ _).
Qed.

Lemma persist_throw record mode priorId nowIso s e s' :
  svc_inv s → abs_fresh record (V s) → persist record mode priorId nowIso s = (Throw e, s') → V s' = V s.
Proof.
  intros Hs Hf. unfold persist.
  assert (∀ o, (pr_revoked <$> on_store (createWithPolicy record o) : M (list SessionRecord)) s = (Throw e, s') →
            V s' = V s) as Hpol.
  { intros o. unfold fmap, js_fmap. rewrite on_store_eq.
    destruct (createWithPolicy_law (sv_store s) record o (proj1 Hs) Hf) as (out & a' & (st & -> & _ & Hv) & Hp).
    simpl. destruct out; intros; simplify_eq. simpl. by inversion Hp. }
  destruct mode, priorId; try apply Hpol.
  unfold mbind, js_bind. rewrite on_store_eq.
  by destruct (createSession_law (sv_store s) record (proj1 Hs) Hf) as (st & -> & _ & _).
Qed.

(** Where [create] cannot return, its failure came before anything was stored. *)
Lemma create_refused u t c d m s :
  svc_inv s →
  (∀ n record revoked a, sr_userId record = u → sr_tenantId record = t → clock (sv_clock s) = Some n →
     ¬ stored_as record (opt_mode options) (truthy_string (cm_priorSessionId m)) (to_iso n) (V s) revoked a) →
  ∃ e s', create u t c d m s = (Throw e, s') ∧ V s' = V s.
Proof.
  intros Hs Hno. unfold SessionService.create. unfold mbind at 1, js_bind at 1. cbn [now].
  set (s0 := Build_Service _ (S _) _ _ _). assert (svc_inv s0) as Hs0 by exact Hs.
  unfold mbind at 1, js_bind at 1. pose proof (checkPrior_same u (cm_priorSessionId m) (clock (sv_clock s)) s0 Hs0) as Hsame.
  destruct (checkPrior _ _ _ s0) as [[prior|e] s1]; simpl in Hsame; subst s1; [|by eauto].
  unfold mbind at 1, js_bind at 1, lift at 1. destruct (factorVerifiedAt _ _ _ _) as [verified|e]; [|by eauto].
  unfold mbind at 1, js_bind at 1. cbn [draw s0 sv_random].
  unfold mbind at 1, js_bind at 1, lift at 1. destruct (toISOString (addSeconds _ _)) as [expiresAt|e]; [|by eauto].
  unfold mbind at 1, js_bind at 1, lift at 1.
  destruct (match cm_claims m with Some _ => _ | None => _ end) as [claims|e]; [|by eauto].
  unfold mbind at 1, js_bind at 1. cbn [draw sv_random].
  unfold mbind at 1, js_bind at 1, lift at 1. destruct (toISOString (addSeconds _ _)) as [idle|e]; [|by eauto].
  unfold mbind at 1, js_bind at 1. cbn [draw sv_random].
  unfold mbind at 1, js_bind at 1, lift at 1. destruct (clock (sv_clock s)) as [n|]; [|by eauto].
  cbn [toISOString].
  set (s3 := Build_Service _ _ _ _ _). set (record := Build_SessionRecord _ _ _ _ _ _ _ _ _ _ _ _ _ _ _ _ _ _ _).
  assert (svc_inv s3) as Hs3.
  { split; [apply Hs|]. simpl. destruct Hs as [_ [D1 D2]]. split.
    - intros h Hh. destruct (D1 h Hh) as (k & ? & ?). exists k. split; [lia|done].
    - intros k Hk. destruct (D2 k Hk) as (k' & ? & ?). exists k'. split; [lia|done]. }
  assert (abs_fresh record (V s3)) as Hfresh.
  { simpl. split_and!.
    - eapply drawn_fresh_sid; [exact uuid_inj|exact token_inj|apply Hs|lia].
    - eapply drawn_fresh_sid; [exact uuid_inj|exact token_inj|apply Hs|lia].
    - eapply drawn_fresh_token; [exact uuid_inj|exact token_inj|apply Hs|lia]. }
  unfold mbind at 1, js_bind at 1.
  destruct (persist _ _ _ _ s3) as [[revoked|e] s4] eqn:Hp.
  - apply persist_ok in Hp as (Hst & _); [|done..]. destruct (Hno n record revoked (V s4)); done.
  - apply persist_throw in Hp; [|done..]. eauto.
Qed.

(** ** Ending many *)

Lemma from_inv x s : from x s → svc_inv s.
Proof. by intros [Hs _]. Qed.

(** The records [revokeRecord] found among [sids], in order, with the instant of each. *)
Lemma revoke_many sids s :
  svc_inv s → (∀ n, is_Some (clock n)) → NoDup sids →
  ∃ out s', promise_all ((λ sid, revokeRecord sid st_revoked) <$> sids) s = (Ok out, s') ∧
    svc_inv s' ∧
    length (omap id out) = length (filter (λ sid, is_Some (as_sessions (V s) !! sid)) sids) ∧
    (∀ sid, as_sessions (V s') !! sid = if decide (sid ∈ sids) then None else as_sessions (V s) !! sid) ∧
    (∀ sid, sid ∉ sids → as_revoked (V s') !! sid = as_revoked (V s) !! sid).
Proof.
  intros Hs Hclock. revert s Hs. induction sids as [|sid sids IH]; intros s Hs Hnd.
  { exists [], s. split_and!; try done. }
  apply NoDup_cons in Hnd as [Hni Hnd]. destruct (Hclock (sv_clock s)) as [n Hn].
  destruct (revokeRecord_spec sid st_revoked s n Hs Hn) as (s1 & Hrun & Hv & _).
  pose proof (from_inv _ _ (sound_run _ _ _ _ _ _ _ (sound_revokeRecord options clock wall _ _ _ sid st_revoked) Hs Hrun)) as Hs1.
  destruct (IH s1 Hs1 Hnd) as (out & s' & Hrest & Hs' & Hlen & Hsess & Hrev).
  rewrite fmap_cons. cbn [promise_all]. rewrite Hrun, Hrest. cbn [mbind outcome_bind mret outcome_ret].
  eexists _, s'. split; [done|]. split; [done|].
  assert (∀ k, k ≠ sid → as_sessions (V s1) !! k = as_sessions (V s) !! k ∧ as_revoked (V s1) !! k = as_revoked (V s) !! k) as Hother.
  { intros k Hk. rewrite Hv. destruct (as_sessions (V s) !! sid) as [r|] eqn:Hr; [|done].
    pose proof (wf_sid _ (svc_wf s Hs) _ _ Hr) as <-. simpl. by rewrite lookup_delete_ne, lookup_insert_ne. }
  assert (as_sessions (V s1) !! sid = None) as Hnone.
  { rewrite Hv. destruct (as_sessions (V s) !! sid) as [r|] eqn:Hr; [|done].
    rewrite <- (wf_sid _ (svc_wf s Hs) _ _ Hr). simpl. by rewrite lookup_delete_eq. }
  split_and!.
  - assert (filter (λ k, is_Some (as_sessions (V s1) !! k)) sids = filter (λ k, is_Some (as_sessions (V s) !! k)) sids) as Hf.
    { apply filter_ext_elem. intros k Hk. by rewrite (proj1 (Hother k ltac:(set_solver))). }
    rewrite Hf in Hlen. rewrite filter_cons. destruct (as_sessions (V s) !! sid) as [r|]; simpl; [f_equal; exact Hlen|exact Hlen].
  - intros k. rewrite Hsess. destruct (decide (k = sid)) as [->|Hk].
    + rewrite decide_False, decide_True by set_solver. done.
    + rewrite (proj1 (Hother k Hk)). repeat case_decide; set_solver.
  - intros k Hk. rewrite Hrev by set_solver. apply Hother. set_solver.
Qed.
End methods.
