(* ===== verification/SessionClaims.v ===== *)
(** * SessionClaims: the properties of the session service.

    Over any store that keeps the laws: single use of refresh tokens, the end of a family
    on reuse, the single-session policy, exchange and revocation; with runs of the service
    over the in-memory store as witnesses. *)
From S2P Require Import Prelude JsMap JsText JsDate JsJson SessionSpec InMemorySessions SessionRevocations SessionService SessionInv SessionMethods.
From Stdlib Require Import Ascii.
Local Open Scope Z_scope.

(** The calls a client, a guard or the refresh job makes. *)
Inductive SessionOp :=
| OpCreate (userId tenantId cognitoSub : string) (deviceMeta : json) (metadata : SessionCreateMetadata)
| OpRefreshToken (refreshToken : string)
| OpRevoke (sid : string)
| OpRevokeUser (userId : string)
| OpRevokeTenant (tenantId : string)
| OpGet (sid : string)
| OpGetActive (sid : string)
| OpTouch (sid : string)
| OpExchange (o : SessionExchangeOptions)
| OpRefreshList (at_ : Z).

Section claims.
Context {St : Type} `{SessionStoreLaws St inv view}.
Context (options : SessionOptions)
        (clock : nat → option Z) (wall : nat → Z)
        (randomUUID createRefreshToken : nat → string)
        (hashRefreshToken : string → string)
        (claimsResolver : option (SessionClaimsSubject → outcome SessionError SessionAuthorizationClaims))
        (signAccessToken : SessionRecord → option Z → outcome SessionError IssuedAccessToken)
        (mirrorAppend : SessionMirrorEntry → outcome SessionError ()).

Notation M := (JS (Service St) SessionError).
Notation V s := (view (sv_store s)).
Notation svc_inv := (svc_inv (inv := inv) (view := view) randomUUID createRefreshToken hashRefreshToken).
Notation from := (from (inv := inv) (view := view) randomUUID createRefreshToken hashRefreshToken).
Notation snapshot := (snapshot (view := view)).
Notation create := (create options clock wall randomUUID createRefreshToken hashRefreshToken claimsResolver
                      signAccessToken mirrorAppend).
Notation refresh := (refresh options clock wall createRefreshToken hashRefreshToken claimsResolver
                       signAccessToken mirrorAppend).
Notation exchange := (exchange options clock wall randomUUID createRefreshToken hashRefreshToken claimsResolver
                       signAccessToken mirrorAppend).
Notation revoke := (revoke options clock wall mirrorAppend).
Notation revokeAllForUser := (revokeAllForUser options clock wall mirrorAppend).

Definition run_op (op : SessionOp) (s : Service St) : Service St :=
  match op with
  | OpCreate u t c d m => (create u t c d m s).2
  | OpRefreshToken tok => (refresh tok s).2
  | OpRevoke sid => (revoke sid s).2
  | OpRevokeUser u => (revokeAllForUser u s).2
  | OpRevokeTenant t => (revokeAllForTenant options clock wall mirrorAppend t s).2
  | OpGet sid => (get options clock wall mirrorAppend sid s).2
  | OpGetActive sid => (getActive options clock wall mirrorAppend sid s).2
  | OpTouch sid => (touch options clock wall mirrorAppend sid s).2
  | OpExchange o => (exchange o s).2
  | OpRefreshList at_ =>
      match sv_revocations s with
      | None => s
      | Some l =>
          let '(l', st) := (refreshFromStore (Some options) at_ (l, sv_store s)).2 in
          Build_Service st (sv_clock s) (sv_random s) (sv_mirror s) (Some l')
      end
  end.
Definition run_ops (ops : list SessionOp) (s : Service St) : Service St := foldl (λ s op, run_op op s) s ops.

(** What the random sources promise. *)
Context (uuid_inj : ∀ i j, randomUUID i = randomUUID j → i = j)
        (token_inj : ∀ i j, hashRefreshToken (createRefreshToken i) = hashRefreshToken (createRefreshToken j) → i = j).

Lemma refreshFromStore_from x s at_ l :
  from x s →
  from x (let '(l', st) := (refreshFromStore (Some options) at_ (l, sv_store s)).2 in
          Build_Service st (sv_clock s) (sv_random s) (sv_mirror s) (Some l')).
Proof.
  intros Hs. unfold refreshFromStore. destruct (time_clip _) as [since|]; [|exact Hs].
  pose proof (sound_revokedSessions randomUUID createRefreshToken hashRefreshToken (to_iso since) x s Hs) as Hf.
  rewrite on_store_eq in Hf. by destruct (listRevokedSessions (to_iso since) (sv_store s)) as [[?|?] ?].
Qed.

Lemma run_op_from x op s : from x s → from x (run_op op s).
Proof using Type* uuid_inj token_inj.
  intros Hs. destruct op; simpl.
  - by apply sound_create.
  - by apply sound_refresh.
  - by apply sound_revokeMethod.
  - by apply sound_revokeAllForUser.
  - by apply sound_revokeAllForTenant.
  - by apply sound_get.
  - by apply sound_getActive.
  - by apply sound_touchMethod.
  - by apply sound_exchange.
  - destruct (sv_revocations s) as [l|]; [|done]. by apply refreshFromStore_from.
Qed.

Lemma run_ops_from ops s : svc_inv s → from (snapshot s) (run_ops ops s).
Proof using Type* uuid_inj token_inj.
  intros Hs. unfold run_ops. pose proof (from_refl _ _ _ s Hs) as Hf. revert Hf. generalize (snapshot s) as x. intros x.
  clear Hs. revert s. induction ops as [|op ops IH]; intros s Hf; [done|]. by apply IH, run_op_from.
Qed.

Lemma run_ops_inv ops s : svc_inv s → svc_inv (run_ops ops s).
Proof using Type* uuid_inj token_inj. intros Hs. apply (run_ops_from ops s Hs). Qed.

Lemma run_ops_keeps ops s :
  svc_inv s → keeps randomUUID (snapshot s) (snapshot (run_ops ops s)).
Proof using Type* uuid_inj token_inj.
  intros Hs. eapply moves_keep; [exact uuid_inj|apply (run_ops_from ops s Hs)|by apply svc_inv_good].
Qed.

(** A session that is gone stays gone, whatever is called. *)
Lemma gone_stays_gone ops s sid i :
  svc_inv s → sid = randomUUID i → (i < sv_random s)%nat → as_sessions (V s) !! sid = None →
  as_sessions (V (run_ops ops s)) !! sid = None.
Proof using Type* uuid_inj token_inj.
  intros Hs -> Hi Hn. exact (kp_ended _ _ _ (run_ops_keeps ops s Hs) i Hi Hn).
Qed.

(** A token naming [sid] that is refreshed succeeds only for a live session. *)
Lemma refresh_ok_live tok s b s' :
  svc_inv s → refresh tok s = (Ok b, s') → is_Some (as_sessions (V s) !! sb_sid b).
Proof using Type* uuid_inj token_inj.
  intros Hs Hrun. eapply refresh_ok in Hrun as (r & _ & _ & _ & Hr & _); eauto.
Qed.

(** C5. A refresh token is redeemed at most once, and presenting it again ends the session: after a
    successful refresh with [tok], and any further calls, refreshing [tok] again is refused as
    reuse of that session; the session is then gone, and no later refresh, with whatever token,
    yields a bundle of that session. *)
Theorem refresh_token_single_use (tok : string) (s s1 : Service St) (b : SessionBundle) (ops : list SessionOp)
  (Hs : svc_inv s) (Hfirst : refresh tok s = (Ok b, s1))
  (Hclock : ∀ n, is_Some (clock n)) (Hmirror : ∀ e, mirrorAppend e = Ok ()) :
  let s2 := run_ops ops s1 in
  ∃ s3, refresh tok s2 = (Throw (RefreshTokenReuseDetectedError (sb_sid b)), s3) ∧
        as_sessions (V s3) !! sb_sid b = None ∧
        ∀ ops' tok' b' s4, refresh tok' (run_ops ops' s3) = (Ok b', s4) → sb_sid b' ≠ sb_sid b.
Proof using Type* uuid_inj token_inj.
  cbv zeta.
  assert (svc_inv s1) as Hs1.
  { pose proof (run_ops_inv [OpRefreshToken tok] s Hs) as H1. cbn in H1. by rewrite Hfirst in H1. }
  destruct (refresh_ok _ _ _ _ _ _ _ _ _ uuid_inj token_inj _ _ _ _ Hs Hfirst)
    as (r & n & j & idle & Hr & Hh & _ & _ & _ & Htok & Hj & _ & _ & Hv).
  pose proof (wf_sid _ (svc_wf _ _ _ s Hs) _ _ Hr) as Hsid.
  assert (as_lookups (V s1) !! hashRefreshToken tok = Some (lookup_of lookup_used r)) as Hused.
  { rewrite Hv. simpl. rewrite lookup_insert_ne, <- Hh, lookup_insert_eq; [done|].
    intros He. pose proof (wf_hash _ (svc_wf _ _ _ s Hs) _ _ Hr) as Hl. rewrite Hh, <- He, Htok in Hl.
    erewrite (drawn_fresh_token _ _ _ uuid_inj token_inj) in Hl; [done|apply Hs|done]. }
  pose proof (kp_used _ _ _ (run_ops_keeps ops s1 Hs1) _ _ Hused eq_refl) as Hused2. simpl in Hused2.
  pose proof (run_ops_inv ops s1 Hs1) as Hs2. set (s2 := run_ops ops s1) in *.
  destruct (Hclock (S (sv_clock s2))) as [n2 Hn2].
  edestruct (refresh_used options clock wall randomUUID createRefreshToken hashRefreshToken claimsResolver
    signAccessToken mirrorAppend) as (s3 & Hrun & Hv3 & _); [exact Hs2|exact Hused2|done|exact Hn2|exact Hmirror|].
  simpl in Hrun, Hv3. rewrite Hsid in Hrun, Hv3.
  assert (svc_inv s3) as Hs3.
  { pose proof (run_ops_inv [OpRefreshToken tok] s2 Hs2) as H1. cbn in H1. by rewrite Hrun in H1. }
  assert (as_sessions (V s3) !! sb_sid b = None) as Hgone.
  { rewrite Hv3. destruct (as_sessions (V s2) !! sb_sid b) as [r2|] eqn:Hr2; [|done].
    simpl. rewrite (wf_sid _ (svc_wf _ _ _ s2 Hs2) _ _ Hr2). by rewrite lookup_delete_eq. }
  exists s3. split; [done|]. split; [done|]. intros ops' tok' b' s4 Hok He.
  assert (∃ i, (i < sv_random s3)%nat ∧ sb_sid b = randomUUID i) as (i & Hi & Hu).
  { destruct (proj2 (proj2 Hs) (sb_sid b) (or_introl (mk_is_Some _ _ Hr))) as (i & Hi & Hu). exists i. split; [|done].
    pose proof (kp_draws _ _ _ (run_ops_keeps [OpRefreshToken tok] s Hs)) as D1. cbn in D1. rewrite Hfirst in D1.
    pose proof (kp_draws _ _ _ (run_ops_keeps ops s1 Hs1)) as D2.
    pose proof (kp_draws _ _ _ (run_ops_keeps [OpRefreshToken tok] s2 Hs2)) as D3. cbn in D3. rewrite Hrun in D3.
    simpl in D1, D2, D3. fold s2 in D2. lia. }
  apply refresh_ok_live in Hok as [r4 Hr4]; [|by apply run_ops_inv].
  rewrite He, (gone_stays_gone ops' s3 (sb_sid b) i) in Hr4; done.
Qed.

(** ** Policies *)

Lemma truthy_idem x : truthy_string (truthy_string x) = truthy_string x.
Proof. by destruct x as [[|? ?]|]. Qed.

Lemma victims_elem o prior cs v :
  v ∈ victims o prior cs ↔ (po_mode o = mode_revoke_existing ∧ v ∈ cs) ∨ prior = Some v.
Proof.
  unfold victims. rewrite elem_of_app. case_decide; destruct prior; simpl;
    rewrite ?list_elem_of_singleton, ?elem_of_nil; naive_solver.
Qed.

(** After a policy step no other live session of the user and tenant is left. *)
Lemma switched_exclusive record o a revoked a' :
  abs_wf a → switched record o a revoked a' → po_mode o ≠ mode_off →
  truthy_string (po_priorSessionId o) = po_priorSessionId o →
  ∀ sid old, as_sessions a' !! sid = Some old → sr_userId old = sr_userId record →
    sr_tenantId old = sr_tenantId record → isActive old (po_now o) = true → sid = sr_sid record.
Proof.
  intros Hwf (cs & [_ Hin] & Hrej & _ & ->) Hmode Htruthy sid old Hold Hu Ht Ha. simpl in Hold.
  destruct (decide (sid = sr_sid record)) as [|Hne]; [done|exfalso].
  rewrite lookup_insert_ne, foldl_retire_sessions in Hold by done. case_decide as Hret; [done|].
  pose proof (wf_sid _ Hwf _ _ Hold) as Hsid. apply Hret. rewrite <- Hsid.
  apply list_elem_of_fmap_2, victims_elem. destruct (decide (Some sid = po_priorSessionId o)) as [Hp|Hp].
  - right. unfold abs_prior. by rewrite Htruthy, <- Hp.
  - assert (old ∈ cs) as Hc.
    { apply Hin. split; [by rewrite Hsid|]. unfold conflicting.
      rewrite Ht, Ha, String.eqb_refl, !bool_decide_eq_true_2 by congruence. done. }
    destruct (po_mode o); [done|by left|]. rewrite Hrej in Hc by done. by apply elem_of_nil in Hc.
Qed.

(** A policy step leaves every session alone that is neither the prior one nor the user's in the tenant. *)
Lemma switched_others record o a revoked a' sid old :
  abs_wf a → switched record o a revoked a' → as_sessions a !! sid = Some old →
  sr_userId old ≠ sr_userId record ∨ sr_tenantId old ≠ sr_tenantId record →
  truthy_string (po_priorSessionId o) ≠ Some sid → sid ≠ sr_sid record →
  as_sessions a' !! sid = Some old.
Proof.
  intros Hwf (cs & [_ Hin] & _ & _ & ->) Hold Hother Hprior Hne. simpl.
  rewrite lookup_insert_ne, foldl_retire_sessions by done. rewrite decide_False; [done|].
  intros (v & Hv & Hvin)%list_elem_of_fmap. apply victims_elem in Hvin as [[_ Hc]|Hp].
  - apply Hin in Hc as [Hg Hc]. rewrite <- Hv, Hold in Hg. simplify_eq. unfold conflicting in Hc.
    rewrite !andb_true_iff, String.eqb_eq, !bool_decide_eq_true in Hc. tauto.
  - unfold abs_prior in Hp. destruct (truthy_string _) as [k|] eqn:Hk; [|done]. simpl in Hp.
    pose proof (wf_sid _ Hwf _ _ Hp). congruence.
Qed.

(** The prior session is ended and listed, and the new one stored. *)
Lemma switched_prior record o a revoked a' sid p :
  abs_wf a → switched record o a revoked a' → truthy_string (po_priorSessionId o) = Some sid →
  as_sessions a !! sid = Some p → as_sessions a !! sr_sid record = None →
  as_sessions a' !! sid = None ∧ as_revoked a' !! sid = Some (po_now o) ∧
  as_sessions a' !! sr_sid record = Some record.
Proof.
  intros Hwf (cs & _ & _ & _ & ->) Hprior Hp Hnew.
  assert (sid ∈ sr_sid <$> victims o (abs_prior o a) cs) as Hv.
  { apply list_elem_of_fmap. exists p. split; [by rewrite (wf_sid _ Hwf _ _ Hp)|].
    apply victims_elem. right. unfold abs_prior. by rewrite Hprior. }
  simpl. rewrite lookup_insert_eq, lookup_insert_ne by congruence.
  by rewrite foldl_retire_sessions, foldl_retire_revoked, !decide_True.
Qed.

(** A session that succeeds another inherits its strong factor. *)
Lemma factor_inherited p m n v :
  factorVerifiedAt options (Some p) m n = Ok v → v = truthy_string (sr_strongFactorVerifiedAt p).
Proof.
  unfold factorVerifiedAt. simpl. destruct (opt_strongFactor options); simpl; [|by intros; simplify_eq].
  destruct (truthy_string (sr_strongFactorVerifiedAt p)); intros; by simplify_eq.
Qed.

Lemma stored_as_mode record mode priorId nowIso a revoked a' :
  mode ≠ mode_off ∨ is_Some priorId → stored_as record mode priorId nowIso a revoked a' →
  switched record {| po_mode := mode; po_now := nowIso; po_priorSessionId := priorId |} a revoked a'.
Proof. unfold stored_as. destruct mode, priorId; try done. intros [?|[? ?]]; done. Qed.

(** C32. Under a single-session mode, a successful [create] leaves the new session as the only one of
    the user in the tenant that is active at the instant of the call, and leaves alone every
    session of another user or tenant except the prior session it replaces. *)
Theorem single_session_policy (u t c : string) (d : json) (m : SessionCreateMetadata)
  (s s1 : Service St) (b : SessionBundle)
  (Hs : svc_inv s) (Hmode : opt_mode options ≠ mode_off) (Hrun : create u t c d m s = (Ok b, s1)) :
  ∃ n, clock (sv_clock s) = Some n ∧
  (∀ sid old, as_sessions (V s1) !! sid = Some old → sr_userId old = u → sr_tenantId old = t →
     isActive old (to_iso n) = true → sid = sb_sid b) ∧
  (∀ sid old, as_sessions (V s) !! sid = Some old → sr_userId old ≠ u ∨ sr_tenantId old ≠ t →
     truthy_string (cm_priorSessionId m) ≠ Some sid → as_sessions (V s1) !! sid = Some old).
Proof using Type* uuid_inj token_inj.
  destruct (create_ok _ _ _ _ _ _ _ _ _ uuid_inj token_inj _ _ _ _ _ _ _ _ Hs Hrun)
    as (n & j & record & revoked & a & verified & Hn & Hfresh & Hsid & Hu & Ht & _ & _ & _ & _ & _ & _ & _ & _ & Hst
        & (Hcore & _) & _).
  apply stored_as_mode in Hst; [|by left]. pose proof (svc_wf _ _ _ s Hs) as Hwf.
  exists n. split; [done|]. rewrite Hcore, <- Hsid. split.
  - intros sid old Hold Hou Hot Ha. eapply switched_exclusive; [exact Hwf|exact Hst|done|apply truthy_idem|done|congruence..|exact Ha].
  - intros sid old Hold Hother Hp. eapply switched_others; [exact Hwf|exact Hst|done| |simpl; by rewrite truthy_idem|].
    + by rewrite Hu, Ht.
    + intros ->. destruct Hfresh as [Hf _]. congruence.
Qed.

(** In [reject-new] mode, while the user has another active session in the tenant, [create]
    fails and changes no session, token or revocation. *)
Theorem reject_new_refuses (u t c : string) (d : json) (m : SessionCreateMetadata) (s : Service St) (sid : string)
  (old : SessionRecord) (n : Z)
  (Hs : svc_inv s) (Hmode : opt_mode options = mode_reject_new) (Hclock : clock (sv_clock s) = Some n)
  (Hold : as_sessions (V s) !! sid = Some old) (Hu : sr_userId old = u) (Ht : sr_tenantId old = t)
  (Hactive : isActive old (to_iso n) = true) (Hother : truthy_string (cm_priorSessionId m) ≠ Some sid) :
  ∃ e s1, create u t c d m s = (Throw e, s1) ∧ V s1 = V s.
Proof using Type* uuid_inj token_inj.
  apply create_refused; [exact uuid_inj|exact token_inj|done|].
  intros n' record revoked a Hru Hrt Hn' Hst. rewrite Hclock in Hn'. simplify_eq.
  apply stored_as_mode in Hst; [|left; congruence]. destruct Hst as (cs & [_ Hin] & Hrej & _).
  assert (old ∈ cs) as Hc.
  { pose proof (wf_sid _ (svc_wf _ _ _ s Hs) _ _ Hold) as <-. apply Hin. split; [done|]. unfold conflicting. simpl.
    rewrite Hrt, String.eqb_refl, Hactive, !bool_decide_eq_true_2 by congruence. done. }
  rewrite Hrej in Hc by done. by apply elem_of_nil in Hc.
Qed.

(** Exchanging a session for another tenant succeeds only for its owner; the old session is
    gone and listed as revoked, and the new one belongs to the same user in the new tenant and
    carries the instant the strong factor was verified at. *)
Theorem exchange_moves_session (o : SessionExchangeOptions) (s s1 : Service St) (b : SessionBundle) (oldSid : string)
  (Hs : svc_inv s) (Hnonempty : eo_sessionId o ≠ EmptyString) (Hrun : exchange o s = (Ok (b, oldSid), s1)) :
  ∃ p r, oldSid = eo_sessionId o ∧ as_sessions (V s) !! oldSid = Some p ∧ sr_userId p = eo_actorUserId o ∧
    as_sessions (V s1) !! oldSid = None ∧ is_Some (as_revoked (V s1) !! oldSid) ∧
    as_sessions (V s1) !! sb_sid b = Some r ∧ sr_userId r = sr_userId p ∧ sr_tenantId r = eo_newTenantId o ∧
    sr_strongFactorVerifiedAt r = truthy_string (sr_strongFactorVerifiedAt p).
Proof using Type* uuid_inj token_inj.
  pose proof (svc_wf _ _ _ s Hs) as Hwf. revert Hrun. unfold SessionService.exchange. unfold mbind at 1, js_bind at 1.
  rewrite (on_getSession _ _ _ s) by done.
  destruct (as_sessions (V s) !! eo_sessionId o) as [p|] eqn:Hp; [|done].
  intros ([] & s2 & Ht & Hrun)%js_bind_ok. unfold throw_if in Ht.
  destruct (String.eqb_spec (sr_userId p) (eo_actorUserId o)) as [Hu|]; simpl in Ht; [|done].
  injection Ht as <-. apply js_bind_ok in Hrun as (n0 & s2 & Hnow & Hrun). injection Hnow as <- <-.
  apply js_bind_ok in Hrun as ([] & s2 & [_ ->]%lift_ok & Hrun).
  apply js_bind_ok in Hrun as (b' & s3 & Hcreate & Hret). unfold mret, js_ret in Hret. injection Hret as <- <- <-.
  set (s0 := Build_Service _ (S _) _ _ _) in Hcreate. assert (svc_inv s0) as Hs0 by exact Hs.
  destruct (create_ok _ _ _ _ _ _ _ _ _ uuid_inj token_inj _ _ _ _ _ _ _ _ Hs0 Hcreate)
    as (n & j & record & revoked & a & verified & Hn & Hfresh & Hsid & Hru & Hrt & _ & _ & _ & Hver & Hstr & _ & _ & _ & Hst
        & (Hcore & _ & Hrevoked) & _).
  assert (truthy_string (Some (eo_sessionId o)) = Some (eo_sessionId o)) as Htruthy by (by destruct (eo_sessionId o)).
  cbn [cm_priorSessionId] in *. rewrite Htruthy in *. change (V s0) with (V s) in *.
  assert (Some (eo_sessionId o) ≫= (λ sid, as_sessions (V s) !! sid) = Some p) as Hprior by (simpl; exact Hp).
  rewrite Hprior in Hver. apply stored_as_mode in Hst; [|right; eauto].
  destruct (switched_prior _ _ _ _ _ (eo_sessionId o) p Hwf Hst Htruthy Hp (proj1 Hfresh)) as (G1 & G2 & G3).
  exists p, record. rewrite Hcore, Hrevoked, <- Hsid, Hstr, (factor_inherited _ _ _ _ Hver), Hru. split_and!; done.
Qed.

(** ** Revocation *)

(** The list of the service has [sid] until the retention of [n] ends. *)
Lemma noted_revoked sid n w l l' now :
  four_digit_year n → Z.abs n ≤ MAX_TIME → noted options wall sid (to_iso n) w (Some l) = Some l' →
  now < n + retentionMs (Some options) → (isRevoked sid now l').1 = true.
Proof.
  intros Hy Hmax Hl Hnow. unfold noted in Hl. simpl in Hl. injection Hl as <-.
  apply isRevoked_live, add_live. right. split; [done|]. by rewrite date_parse_iso.
Qed.

(** [revoke] ends exactly the named session and says whether there was one. From then on the
    revocation list reports it until the access tokens issued before have expired, clock skew
    included, and no refresh, after whatever calls, yields a bundle of it. *)
Theorem revoke_effect (sid : string) (s : Service St) (n : Z) (l : RevocationList)
  (Hs : svc_inv s) (Hclock : clock (sv_clock s) = Some n) (Hmirror : ∀ e, mirrorAppend e = Ok ())
  (Hyear : four_digit_year n) (Hmax : Z.abs n ≤ MAX_TIME) (Hlist : sv_revocations s = Some l) :
  ∃ s1, revoke sid s = (Ok (bool_decide (is_Some (as_sessions (V s) !! sid))), s1) ∧
    as_sessions (V s1) = delete sid (as_sessions (V s)) ∧
    (is_Some (as_sessions (V s) !! sid) →
       (∃ l1, sv_revocations s1 = Some l1 ∧
          ∀ now, now < n + retentionMs (Some options) → (isRevoked sid now l1).1 = true) ∧
       ∀ ops tok b s2, refresh tok (run_ops ops s1) = (Ok b, s2) → sb_sid b ≠ sid).
Proof using Type* uuid_inj token_inj.
  destruct (revokeInternal_spec options clock wall randomUUID createRefreshToken hashRefreshToken mirrorAppend
    sid st_revoked (Some session_scope) s n Hs Hclock Hmirror) as (s1 & Hrun & Hv & Hrand & Hrev).
  assert (revoke sid s = (Ok (bool_decide (is_Some (as_sessions (V s) !! sid))), s1)) as Hrevoke.
  { unfold SessionService.revoke. js_unfold. rewrite Hrun. by destruct (as_sessions (V s) !! sid). }
  exists s1. split; [done|].
  assert (as_sessions (V s1) = delete sid (as_sessions (V s))) as Hdel.
  { rewrite Hv. destruct (as_sessions (V s) !! sid) as [r|] eqn:Hr; [|by rewrite delete_id].
    simpl. by rewrite (wf_sid _ (svc_wf _ _ _ s Hs) _ _ Hr). }
  split; [done|]. intros [r Hr]. rewrite Hr, Hlist in Hrev. split.
  - destruct (sv_revocations s1) as [l1|] eqn:Hl1; [|done]. exists l1. split; [done|].
    intros now Hnow. symmetry in Hrev. by eapply noted_revoked.
  - intros ops tok b s2 Hok He. pose proof (run_ops_inv [OpRevoke sid] s Hs) as Hs1. cbn in Hs1.
    rewrite Hrevoke in Hs1. apply refresh_ok_live in Hok as [r2 Hr2]; [|by apply run_ops_inv].
    destruct (proj2 (proj2 Hs) sid (or_introl (mk_is_Some _ _ Hr))) as (i & Hi & Hu).
    rewrite He, (gone_stays_gone ops s1 sid i) in Hr2; [done|done|done|by rewrite Hrand|].
    by rewrite Hdel, lookup_delete_eq.
Qed.

Lemma promise_all_publish (msgs : list string) (s : Service St) :
  svc_inv s → ∃ out s', promise_all ((λ message, on_store (publishInvalidation message)) <$> msgs) s = (Ok out, s') ∧
    svc_inv s' ∧ same_core (V s) (V s').
Proof.
  revert s. induction msgs as [|x msgs IH]; intros s Hs; [by exists [], s|].
  rewrite fmap_cons. cbn [promise_all]. rewrite on_store_eq.
  destruct (publishInvalidation_law (sv_store s) x (proj1 Hs)) as (st & -> & Hi & Hv). simpl.
  assert (svc_inv (with_store st s)) as Hs1 by (split; [done|]; simpl; rewrite Hv; apply Hs).
  destruct (IH _ Hs1) as (out & s' & -> & Hs' & Hc). simpl. eexists _, s'. split; [done|]. split; [done|].
  simpl in Hc. by rewrite Hv in Hc.
Qed.

Lemma promise_all_mirror {A} (f : A → SessionMirrorEntry) (l : list A) (s : Service St) :
  (∀ e, mirrorAppend e = Ok ()) →
  ∃ out s', promise_all ((λ a, mirror_append mirrorAppend (f a)) <$> l) s = (Ok out, s') ∧ V s' = V s.
Proof.
  intros Hm. revert s. induction l as [|x l IH]; intros s; [by exists [], s|].
  rewrite fmap_cons. cbn [promise_all]. unfold mirror_append at 1. rewrite Hm.
  edestruct IH as (out & s' & -> & Hv). by eexists _, s'.
Qed.

(** [revokeAllForUser] ends every session of the user and no other, and returns how many. *)
Theorem revokeAllForUser_effect (u : string) (s : Service St)
  (Hs : svc_inv s) (Hclock : ∀ n, is_Some (clock n)) (Hmirror : ∀ e, mirrorAppend e = Ok ()) :
  ∃ s1 sids, revokeAllForUser u s = (Ok (length sids), s1) ∧ NoDup sids ∧
    (∀ sid, sid ∈ sids ↔ ∃ r, as_sessions (V s) !! sid = Some r ∧ sr_userId r = u) ∧
    (∀ sid, as_sessions (V s1) !! sid = if decide (sid ∈ sids) then None else as_sessions (V s) !! sid).
Proof using Type* uuid_inj token_inj.
  destruct (listSessionIdsByUser_law (sv_store s) u (proj1 Hs)) as (sids & Hl & Hnd & Hin).
  destruct (revoke_many options clock wall randomUUID createRefreshToken hashRefreshToken uuid_inj token_inj sids s Hs Hclock Hnd)
    as (out & s2 & Hmany & Hs2 & Hlen & Hsess & _).
  unfold SessionService.revokeAllForUser. unfold mbind at 1, js_bind at 1. rewrite on_store_eq, Hl.
  change (with_store _ s) with (with_store (sv_store s) s).
  replace (with_store (sv_store s) s) with s by (by destruct s).
  unfold mbind at 1, js_bind at 1. cbn [fst snd]. rewrite Hmany.
  destruct (promise_all_publish (js_set ((λ p, session_scope p.1) <$> omap id out)) s2 Hs2) as (o3 & s3 & Hpub & _ & Hcore).
  unfold mbind at 1, js_bind at 1. rewrite Hpub.
  destruct (promise_all_mirror (λ p : SessionRecord * string, {| me_sid := sr_sid p.1; me_tenantId := sr_tenantId p.1;
    me_userId := sr_userId p.1; me_membershipId := sr_membershipId p.1; me_status := st_revoked;
    me_expiresAt := sr_expiresAt p.1; me_createdAt := p.2 |}) (omap id out) s3 Hmirror) as (o4 & s4 & Hmir & Hv4).
  unfold mbind at 1, js_bind at 1. unfold appendMirror. rewrite Hmir. exists s4, sids. split_and!; [|done|done|].
  - unfold mret, js_ret. rewrite Hlen. do 3 f_equal.
    assert (filter (λ sid, is_Some (as_sessions (V s) !! sid)) sids = sids) as Hf; [|by rewrite Hf].
    rewrite (filter_ext_elem _ (λ _, True)); [by clear; induction sids as [|x l IH]; [|rewrite filter_cons, IH]|].
    intros sid (r & Hr & _)%Hin. split; eauto.
  - intros sid. destruct Hcore as [Hc _]. rewrite Hv4, Hc. apply Hsess.
Qed.

(** ** Reading the active session *)

(** For a well-formed stored record, [getActive] returns it exactly while it is active and
    before both deadlines; at a deadline it ends the session and returns nothing. *)
Theorem getActive_decides (sid : string) (s : Service St) (r : SessionRecord) (n : Z)
  (Hs : svc_inv s) (Hr : as_sessions (V s) !! sid = Some r) (Hvalid : valid_record sid r = true)
  (Hclock : clock (sv_clock s) = Some n) (Hclock' : ∀ k, is_Some (clock k)) (Hmirror : ∀ e, mirrorAppend e = Ok ()) :
  ∃ s1 expires idle, date_parse (sr_expiresAt r) = Some expires ∧ date_parse (sr_idleExpiresAt r) = Some idle ∧
    idle ≤ expires ∧
    getActive options clock wall mirrorAppend sid s =
      (Ok (if decide (sr_status r = st_active ∧ n < idle) then Some r else None), s1) ∧
    as_sessions (V s1) = (if decide (sr_status r = st_active ∧ idle ≤ n) then delete sid (as_sessions (V s))
                          else as_sessions (V s)).
Proof using Type* uuid_inj token_inj.
  assert (∃ expires idle, date_parse (sr_expiresAt r) = Some expires ∧ date_parse (sr_idleExpiresAt r) = Some idle ∧
            idle ≤ expires) as (expires & idle & He & Hi & Hle).
  { unfold valid_record in Hvalid. apply andb_true_iff in Hvalid as [_ Hvalid].
    destruct (date_parse (sr_createdAt r)), (date_parse (sr_updatedAt r)), (date_parse (sr_lastTouchedAt r)),
      (date_parse (sr_expiresAt r)) as [expires|], (date_parse (sr_idleExpiresAt r)) as [idle|]; try done.
    exists expires, idle. split_and!; try done. rewrite !andb_true_iff, negb_true_iff, !orb_false_iff in Hvalid. lia. }
  unfold SessionService.getActive. unfold mbind at 1, js_bind at 1. rewrite (on_getSession _ _ _ s), Hr, Hvalid by done.
  unfold mbind at 1, js_bind at 1. cbn [negb throw_if mret js_ret]. unfold mbind at 1, js_bind at 1. cbn [now].
  rewrite Hclock, He, Hi. set (s0 := Build_Service _ (S _) _ _ _).
  case_bool_decide as Hact; cbn [negb].
  2:{ exists s0, expires, idle. rewrite !decide_False by (intros [? _]; done). done. }
  cbn [time_le]. destruct (Z.leb_spec idle n) as [Hin|Hin].
  - rewrite orb_true_r. assert (svc_inv s0) as Hs0 by exact Hs. destruct (Hclock' (sv_clock s0)) as [k Hk].
    destruct (revokeInternal_spec options clock wall randomUUID createRefreshToken hashRefreshToken mirrorAppend
      sid st_revoked None s0 k Hs0 Hk Hmirror) as (s1 & Hrun & Hv & _).
    exists s1, expires, idle. rewrite decide_False by lia. rewrite decide_True by done. unfold mbind, js_bind.
    rewrite Hrun. split_and!; try done. rewrite Hv. change (V s0) with (V s). rewrite Hr. simpl.
    by rewrite (wf_sid _ (svc_wf _ _ _ s Hs) _ _ Hr).
  - exists s0, expires, idle. rewrite decide_True by (split; [done|lia]). rewrite decide_False by (intros [_ ?]; lia).
    replace (expires <=? n) with false by lia. done.
Qed.
End claims.

(** ** A run over the in-memory store *)

Module Example.
Fixpoint unary (n : nat) : string := match n with O => EmptyString | S n => String "1" (unary n) end.
Definition uuid (n : nat) : string := String "u" (unary n).
Definition token (n : nat) : string := String "t" (unary n).
Definition hash (s : string) : string := s.
(** 2026-01-01T00:00:00Z, and a minute between readings. *)
Definition clock (n : nat) : option Z := Some (1767225600000 + 60000 * Z.of_nat n).
Definition wall (n : nat) : Z := 1767225600000 + 60000 * Z.of_nat n.
Definition opts (mode : SingleSessionMode) : SessionOptions :=
  {| opt_mode := mode; opt_strongFactor := None; opt_accessSeconds := 600; opt_absoluteSeconds := 86400;
     opt_idleSeconds := 3600; opt_maxStalenessMs := 15000 |}.
Definition sign (r : SessionRecord) (issuedAt : option Z) : outcome SessionError IssuedAccessToken :=
  Ok {| at_token := sr_sid r; at_expiresAt := sr_expiresAt r |}.
Definition mirror (e : SessionMirrorEntry) : outcome SessionError () := Ok ().
Definition no_metadata : SessionCreateMetadata :=
  {| cm_membershipId := None; cm_permsHash := None; cm_claims := None; cm_verifiedFactorClaims := None;
     cm_priorSessionId := None |}.

Notation runs mode := (run_ops (opts mode) clock wall uuid token hash None sign mirror).
Notation create mode := (SessionService.create (opts mode) clock wall uuid token hash None sign mirror).
Notation refresh mode := (SessionService.refresh (opts mode) clock wall token hash None sign mirror).
Notation exchange mode := (SessionService.exchange (opts mode) clock wall uuid token hash None sign mirror).
Notation inv := (svc_inv (inv := mem_inv) (view := mem_view) uuid token hash).

Definition start : Service MemSessions := Build_Service empty_sessions 0 0 [] (Some empty_list).
Definition login : SessionOp := OpCreate "alice" "t1" "cog" (JObject []) no_metadata.
Definition one (mode : SingleSessionMode) : Service MemSessions := runs mode [login] start.

Lemma unary_inj i j : unary i = unary j → i = j.
Proof. revert j. induction i as [|i IH]; intros [|j] H; simplify_eq/=; auto. Qed.
Lemma uuid_inj i j : uuid i = uuid j → i = j.
Proof. intros H. injection H as H. by apply unary_inj. Qed.
Lemma token_inj i j : hash (token i) = hash (token j) → i = j.
Proof. intros H. injection H as H. by apply unary_inj. Qed.

Lemma start_inv : inv start.
Proof.
  split; [exact mem_inv_empty|]. split; [intros h Hh|intros sid [Hs|Hs]]; simpl in *; rewrite lookup_empty in *;
    by apply is_Some_None in Hh || by apply is_Some_None in Hs.
Qed.
Lemma one_inv mode : inv (one mode).
Proof. by apply (run_ops_inv (opts mode) clock wall uuid token hash None sign mirror uuid_inj token_inj), start_inv. Qed.
Lemma clock_total n : is_Some (clock n).
Proof. by eexists. Qed.
Lemma mirror_total e : mirror e = Ok ().
Proof. done. Qed.

Lemma one_clock mode : clock (sv_clock (one mode)) = Some 1767225660000.
Proof. destruct mode; by vm_compute. Qed.
Lemma one_list mode : sv_revocations (one mode) = Some empty_list.
Proof. destruct mode; by vm_compute. Qed.

(** The first session's refresh token is the second draw. *)
Lemma first_refresh mode :
  match refresh mode "t1" (one mode) with (Ok b, _) => sb_sid b = "u" ∧ sb_refreshToken b = "t111" | _ => False end.
Proof. destruct mode; by vm_compute. Qed.
End Example.

Lemma refresh_token_single_use_witness :
  ∃ b s1, Example.refresh mode_off "t1" (Example.one mode_off) = (Ok b, s1) ∧
  let s2 := Example.runs mode_off [OpGetActive "u"; Example.login] s1 in
  ∃ s3, Example.refresh mode_off "t1" s2 = (Throw (RefreshTokenReuseDetectedError (sb_sid b)), s3) ∧
        as_sessions (mem_view (sv_store s3)) !! sb_sid b = None ∧
        ∀ ops' tok' b' s4, Example.refresh mode_off tok' (Example.runs mode_off ops' s3) = (Ok b', s4) → sb_sid b' ≠ sb_sid b.
Proof.
  pose proof (Example.first_refresh mode_off) as Hfirst.
  destruct (Example.refresh mode_off "t1" (Example.one mode_off)) as [[b|e] s1] eqn:Hrun; [|destruct Hfirst].
  exists b, s1. split; [reflexivity|].
  exact (refresh_token_single_use (Example.opts mode_off) Example.clock Example.wall Example.uuid Example.token
    Example.hash None Example.sign Example.mirror Example.uuid_inj Example.token_inj "t1" (Example.one mode_off) s1 b
    [OpGetActive "u"; Example.login] (Example.one_inv mode_off) Hrun Example.clock_total Example.mirror_total).
Defined.

Notation second_login mode :=
  (Example.create mode "alice" "t1" "cog" (JObject []) Example.no_metadata (Example.one mode)).

Lemma single_session_policy_witness :
  ∃ b s1, second_login mode_revoke_existing = (Ok b, s1) ∧
  ∃ n, Example.clock (sv_clock (Example.one mode_revoke_existing)) = Some n ∧
  (∀ sid old, as_sessions (mem_view (sv_store s1)) !! sid = Some old → sr_userId old = "alice" → sr_tenantId old = "t1" →
     isActive old (to_iso n) = true → sid = sb_sid b) ∧
  (∀ sid old, as_sessions (mem_view (sv_store (Example.one mode_revoke_existing))) !! sid = Some old →
     sr_userId old ≠ "alice" ∨ sr_tenantId old ≠ "t1" →
     truthy_string (cm_priorSessionId Example.no_metadata) ≠ Some sid →
     as_sessions (mem_view (sv_store s1)) !! sid = Some old).
Proof.
  assert (match second_login mode_revoke_existing with (Ok b, _) => sb_revokedSessionIds b = Some ["u"] | _ => False end)
    as Hok by by vm_compute.
  destruct (second_login mode_revoke_existing) as [[b|e] s1] eqn:Hrun; [|destruct Hok].
  exists b, s1. split; [reflexivity|].
  exact (single_session_policy (Example.opts mode_revoke_existing) Example.clock Example.wall Example.uuid Example.token
    Example.hash None Example.sign Example.mirror Example.uuid_inj Example.token_inj "alice" "t1" "cog" (JObject [])
    Example.no_metadata (Example.one mode_revoke_existing) s1 b (Example.one_inv _) ltac:(discriminate) Hrun).
Defined.

Lemma reject_new_refuses_witness :
  ∃ e s1, second_login mode_reject_new = (Throw e, s1) ∧
          mem_view (sv_store s1) = mem_view (sv_store (Example.one mode_reject_new)).
Proof.
  destruct (as_sessions (mem_view (sv_store (Example.one mode_reject_new))) !! "u") as [old|] eqn:Hold;
    [|exfalso; vm_compute in Hold; discriminate].
  assert (sr_userId old = "alice" ∧ sr_tenantId old = "t1" ∧ isActive old (to_iso 1767225660000) = true) as (Hu & Ht & Ha).
  { vm_compute in Hold. injection Hold as <-. by vm_compute. }
  exact (reject_new_refuses (Example.opts mode_reject_new) Example.clock Example.wall Example.uuid Example.token
    Example.hash None Example.sign Example.mirror Example.uuid_inj Example.token_inj "alice" "t1" "cog" (JObject [])
    Example.no_metadata (Example.one mode_reject_new) "u" old 1767225660000 (Example.one_inv _) eq_refl (Example.one_clock _) Hold Hu Ht Ha ltac:(discriminate)).
Defined.

Definition example_exchange : SessionExchangeOptions :=
  {| eo_sessionId := "u"; eo_newTenantId := "t2"; eo_actorUserId := "alice"; eo_membershipId := None;
     eo_deviceMeta := None; eo_permsHash := None |}.

Lemma exchange_moves_session_witness :
  ∃ b oldSid s1, Example.exchange mode_off example_exchange (Example.one mode_off) = (Ok (b, oldSid), s1) ∧
  ∃ p r, oldSid = "u" ∧ as_sessions (mem_view (sv_store (Example.one mode_off))) !! oldSid = Some p ∧
    sr_userId p = "alice" ∧
    as_sessions (mem_view (sv_store s1)) !! oldSid = None ∧ is_Some (as_revoked (mem_view (sv_store s1)) !! oldSid) ∧
    as_sessions (mem_view (sv_store s1)) !! sb_sid b = Some r ∧ sr_userId r = sr_userId p ∧ sr_tenantId r = "t2" ∧
    sr_strongFactorVerifiedAt r = truthy_string (sr_strongFactorVerifiedAt p).
Proof.
  assert (is_ok (Example.exchange mode_off example_exchange (Example.one mode_off)).1 = true) as Hok by by vm_compute.
  destruct (Example.exchange mode_off example_exchange (Example.one mode_off)) as [[[b oldSid]|e] s1] eqn:Hrun; [|discriminate].
  exists b, oldSid, s1. split; [reflexivity|].
  exact (exchange_moves_session (Example.opts mode_off) Example.clock Example.wall Example.uuid Example.token
    Example.hash None Example.sign Example.mirror Example.uuid_inj Example.token_inj example_exchange (Example.one mode_off) s1 b oldSid
    (Example.one_inv _) ltac:(discriminate) Hrun).
Defined.

Lemma revoke_effect_witness :
  ∃ s1, revoke (Example.opts mode_off) Example.clock Example.wall Example.mirror "u" (Example.one mode_off) =
    (Ok (bool_decide (is_Some (as_sessions (mem_view (sv_store (Example.one mode_off))) !! "u"))), s1) ∧
    as_sessions (mem_view (sv_store s1)) = delete "u" (as_sessions (mem_view (sv_store (Example.one mode_off)))) ∧
    (is_Some (as_sessions (mem_view (sv_store (Example.one mode_off))) !! "u") →
       (∃ l1, sv_revocations s1 = Some l1 ∧
          ∀ now, now < 1767225660000 + retentionMs (Some (Example.opts mode_off)) → (isRevoked "u" now l1).1 = true) ∧
       ∀ ops tok b s2, Example.refresh mode_off tok (Example.runs mode_off ops s1) = (Ok b, s2) → sb_sid b ≠ "u").
Proof.
  exact (revoke_effect (Example.opts mode_off) Example.clock Example.wall Example.uuid Example.token
    Example.hash None Example.sign Example.mirror Example.uuid_inj Example.token_inj "u" (Example.one mode_off)
    1767225660000 empty_list (Example.one_inv _) (Example.one_clock _) Example.mirror_total
    ltac:(unfold four_digit_year; vm_compute; split; discriminate) ltac:(vm_compute; discriminate) (Example.one_list _)).
Defined.

Lemma revokeAllForUser_effect_witness :
  ∃ s1 sids, revokeAllForUser (Example.opts mode_off) Example.clock Example.wall Example.mirror "alice" (Example.one mode_off)
      = (Ok (length sids), s1) ∧ NoDup sids ∧
    (∀ sid, sid ∈ sids ↔ ∃ r, as_sessions (mem_view (sv_store (Example.one mode_off))) !! sid = Some r ∧ sr_userId r = "alice") ∧
    (∀ sid, as_sessions (mem_view (sv_store s1)) !! sid =
       if decide (sid ∈ sids) then None else as_sessions (mem_view (sv_store (Example.one mode_off))) !! sid).
Proof.
  exact (revokeAllForUser_effect (Example.opts mode_off) Example.clock Example.wall Example.uuid Example.token
    Example.hash Example.mirror Example.uuid_inj Example.token_inj "alice" (Example.one mode_off)
    (Example.one_inv _) Example.clock_total Example.mirror_total).
Defined.

Lemma getActive_decides_witness :
  ∃ r s1 expires idle, valid_record "u" r = true ∧
    date_parse (sr_expiresAt r) = Some expires ∧ date_parse (sr_idleExpiresAt r) = Some idle ∧ idle ≤ expires ∧
    getActive (Example.opts mode_off) Example.clock Example.wall Example.mirror "u" (Example.one mode_off) =
      (Ok (if decide (sr_status r = st_active ∧ 1767225660000 < idle) then Some r else None), s1) ∧
    as_sessions (mem_view (sv_store s1)) =
      (if decide (sr_status r = st_active ∧ idle ≤ 1767225660000)
       then delete "u" (as_sessions (mem_view (sv_store (Example.one mode_off))))
       else as_sessions (mem_view (sv_store (Example.one mode_off)))).
Proof.
  destruct (as_sessions (mem_view (sv_store (Example.one mode_off))) !! "u") as [r|] eqn:Hr;
    [|exfalso; vm_compute in Hr; discriminate].
  assert (valid_record "u" r = true) as Hvalid.
  { pose proof Hr as Hr'. vm_compute in Hr'. injection Hr' as <-. by vm_compute. }
  destruct (getActive_decides (Example.opts mode_off) Example.clock Example.wall Example.uuid Example.token
    Example.hash Example.mirror Example.uuid_inj Example.token_inj "u" (Example.one mode_off) r 1767225660000
    (Example.one_inv _) Hr Hvalid (Example.one_clock _) Example.clock_total Example.mirror_total) as (s1 & e & i & H).
  exists r, s1, e, i. split; [exact Hvalid|exact H].
Defined.

(** A [touch] that straddles the deadline: the check reads the clock one second before the
    session expires, the update one second after. *)
Definition straddling (n : nat) : option Z :=
  Some (1767225600000 + match n with O => 0 | 1%nat => 9000 | _ => 11000 end).
Definition short_opts : SessionOptions :=
  {| opt_mode := mode_off; opt_strongFactor := None; opt_accessSeconds := 600; opt_absoluteSeconds := 10;
     opt_idleSeconds := 10; opt_maxStalenessMs := 15000 |}.
Definition straddled : outcome SessionError (option SessionRecord) * Service MemSessions :=
  touch short_opts straddling Example.wall Example.mirror "u"
    (SessionService.create short_opts straddling Example.wall Example.uuid Example.token Example.hash None Example.sign
       Example.mirror "alice" "t1" "cog" (JObject []) Example.no_metadata Example.start).2.

(** A touch that begins before the expiry of a session and reads the clock again after it stores
    a record [getActive] refuses as invalid: the expired session is neither returned nor ended. *)
Theorem touch_past_expiry :
  is_ok straddled.1 = true ∧
  (getActive short_opts straddling Example.wall Example.mirror "u" straddled.2).1 =
    Throw (PlainError "SESSION_RECORD_INVALID") ∧
  is_Some (as_sessions (mem_view (sv_store
    (getActive short_opts straddling Example.wall Example.mirror "u" straddled.2).2)) !! "u").
Proof. split_and!; [by vm_compute|by vm_compute|]. eapply mk_is_Some. by vm_compute. Qed.
