(* ===== verification/MobileRuntime.v ===== *)
(** * MobileRuntime: [OfflineFirstMobileRuntime] of [mobile-runtime/src/runtime.ts], over the types
    of [types.ts].

    The encrypted store is its typed collections, listed in insertion order. The other ports
    are parameters: the clock and the ids are read by index, and the n-th call of the
    backend or the printer is answered by the n-th reply. A reply can be a failure. *)
From S2P Require Import Prelude JsMap JsText JsDate JsJson.

(** ** The data of the mobile runtime ([mobile-runtime/src/types.ts]).

    [TEntityType] is an open string. An instant is the text the clock port gives. *)

Local Open Scope Z_scope.

Inductive LocalDraftStatus := ld_draft | ld_finalized | ld_queued | ld_synced | ld_conflict | ld_wiped.
Inductive SyncQueueStatus := sq_pending | sq_sent | sq_received | sq_applied | sq_conflict | sq_rejected.
Inductive SyncConflictResolutionStrategy := device_wins | server_wins | manual_review.
#[export] Instance LocalDraftStatus_eq_dec : EqDecision LocalDraftStatus.
Proof. solve_decision. Defined.
#[export] Instance SyncQueueStatus_eq_dec : EqDecision SyncQueueStatus.
Proof. solve_decision. Defined.

Record MobileSessionContext := {
  ms_tenantId : string; ms_orgUnitId : string; ms_agentId : string; ms_deviceId : string;
  ms_shiftId : string; ms_appVersion : string; ms_roles : list string }.

Inductive PrinterStatus := printer_paired | printer_missing | printer_error.
Inductive NetworkStatus := net_online | net_offline | net_limited.
Record MobileDevicePosture := {
  dp_homologated : bool; dp_remoteWipeVersion : Z; dp_secureHardwareBacked : bool;
  dp_printerStatus : PrinterStatus; dp_networkStatus : NetworkStatus }.

Inductive PackageStatus := pk_published | pk_expired | pk_retired.
#[export] Instance PackageStatus_eq_dec : EqDecision PackageStatus.
Proof. solve_decision. Defined.
Record MobileNormativePackageSnapshot := {
  np_packageId : string; np_packageVersion : string; np_manifestHash : string;
  np_validUntil : string; np_status : PackageStatus }.

Inductive MobileReservationStatus := mr_reserved | mr_consumed | mr_expired | mr_cancelled.
#[export] Instance MobileReservationStatus_eq_dec : EqDecision MobileReservationStatus.
Proof. solve_decision. Defined.
Record MobileNumberingReservation := {
  mr_reservationId : string; mr_rangeId : string; mr_entityType : string; mr_series : string;
  mr_startNumber : Z; mr_endNumber : Z; mr_nextNumber : Z; mr_validUntil : string;
  mr_status : MobileReservationStatus }.

Inductive LocationSource := loc_gps | loc_network | loc_manual.
(** Coordinates are numbers the runtime never computes with: their decimal text. *)
Record MobileLocationContext := {
  lo_latitude : string; lo_longitude : string; lo_accuracyMeters : string; lo_capturedAt : string;
  lo_source : LocationSource; lo_manualJustification : option string }.

(** [hashAlgorithm] is typed ['sha256'] but checked at run time: any text. *)
Record MobileEvidenceDraft := {
  ev_localEvidenceId : string; ev_hashAlgorithm : string; ev_hashValue : string; ev_mediaType : string;
  ev_capturedAt : string; ev_storageIntentId : option string; ev_linkedLocalEntityId : option string }.

Record ReserveMobileNumberingInput := {
  ri_entityType : string; ri_requestedSize : Z; ri_series : option string }.

Record CreateMobileDraftInput := {
  ci_entityType : string; ci_payload : list (string * json); ci_location : MobileLocationContext;
  ci_observedAt : string; ci_reservedNumber : option Z }.

Record MobileEntityDraft := {
  md_localId : string; md_entityType : string; md_tenantId : string; md_orgUnitId : string;
  md_agentId : string; md_deviceId : string; md_shiftId : string; md_status : LocalDraftStatus;
  md_reservedNumber : Z; md_reservationId : string; md_idempotencyKey : string;
  md_normativePackageId : string; md_normativePackageVersion : string; md_localContentHash : string;
  md_payload : list (string * json); md_location : option MobileLocationContext;
  md_evidence : list MobileEvidenceDraft; md_createdAt : string; md_updatedAt : string;
  md_finalizedAt : option string }.

(** The object [toSyncPayload] builds, field by field. *)
Record SyncPayload := {
  sp_tenant_id : string; sp_org_unit_id : string; sp_agent_id : string; sp_device_id : string;
  sp_shift_id : string; sp_entity_type : string; sp_local_entity_id : string; sp_reserved_number : Z;
  sp_idempotency_key : string; sp_payload_hash : string; sp_normative_package_id : string;
  sp_normative_package_version : string; sp_location : option MobileLocationContext;
  sp_evidence : list MobileEvidenceDraft; sp_payload : list (string * json);
  sp_finalized_at : option string }.

Record MobileSyncQueueItem := {
  qi_queueItemId : string; qi_entityType : string; qi_localEntityId : string; qi_status : SyncQueueStatus;
  qi_attempts : Z; qi_idempotencyKey : string; qi_payloadHash : string; qi_payloadJson : SyncPayload;
  qi_deviceId : string; qi_agentId : string; qi_tenantId : string; qi_orgUnitId : string;
  qi_normativePackageId : string; qi_reservedNumber : option Z; qi_location : option MobileLocationContext;
  qi_createdLocallyAt : string; qi_lastSubmittedAt : option string }.

Record MobileSyncBatchResult := {
  br_batchId : string; br_acceptedItems : Z; br_conflicts : list string }.

Record MobileConflictResolution := {
  cr_conflictId : string; cr_queueItemId : string; cr_localEntityId : string;
  cr_resolution : SyncConflictResolutionStrategy; cr_resolvedAt : string; cr_payloadHash : string }.

Inductive PrintStatus := print_simulated | print_printed.
Record MobilePrintReceipt := {
  rc_receiptId : string; rc_localEntityId : string; rc_reservedNumber : Z; rc_printerAdapter : string;
  rc_status : PrintStatus; rc_printedAt : string; rc_contentHash : string }.

Record MobileRemoteWipeReceipt := {
  wr_wipeReceiptId : string; wr_deviceId : string; wr_reason : string; wr_wipedAt : string }.

Record MobileRuntimeSnapshot := {
  sn_activeSession : option MobileSessionContext; sn_activePackage : option MobileNormativePackageSnapshot;
  sn_devicePosture : option MobileDevicePosture; sn_draftCount : nat; sn_queuedCount : nat;
  sn_evidenceCount : nat; sn_printReceiptCount : nat; sn_conflictResolutionCount : nat;
  sn_pendingWipe : bool }.

(** The options with their defaults. *)
Record MobileRuntimeOptions := {
  mo_requiredRoles : list string; mo_requireEvidenceToFinalize : bool; mo_draftIdPrefix : string }.
Definition default_options : MobileRuntimeOptions :=
  {| mo_requiredRoles := []; mo_requireEvidenceToFinalize := true; mo_draftIdPrefix := "entity-local" |}.

(** What the runtime hashes. *)
Inductive HashSubject :=
| HashCreated (payload : list (string * json)) (input : CreateMobileDraftInput)
| HashFinalized (draft : MobileEntityDraft) (finalizedAt : string)
| HashReceipt (localEntityId : string) (reservedNumber : Z) (payloadHash : string) (evidence : list string).

(** ** The local store *)

(** The collections of the encrypted store, each a [Map] from keys to values. *)
Record Collections := {
  c_session : jsmap string MobileSessionContext;
  c_device : jsmap string MobileDevicePosture;
  c_package : jsmap string MobileNormativePackageSnapshot;
  c_reservations : jsmap string MobileNumberingReservation;
  c_drafts : jsmap string MobileEntityDraft;
  c_evidence : jsmap string MobileEvidenceDraft;
  c_queue : jsmap string MobileSyncQueueItem;
  c_resolutions : jsmap string MobileConflictResolution;
  c_receipts : jsmap string MobilePrintReceipt;
  c_wipes : jsmap string MobileRemoteWipeReceipt }.
Definition no_collections : Collections :=
  {| c_session := []; c_device := []; c_package := []; c_reservations := []; c_drafts := []; c_evidence := []; c_queue := []; c_resolutions := []; c_receipts := []; c_wipes := [] |}.

Definition put_session (key : string) (v : MobileSessionContext) (c : Collections) : Collections :=
  {| c_session := jm_set key v (c_session c); c_device := c_device c; c_package := c_package c;
     c_reservations := c_reservations c; c_drafts := c_drafts c; c_evidence := c_evidence c;
     c_queue := c_queue c; c_resolutions := c_resolutions c; c_receipts := c_receipts c;
     c_wipes := c_wipes c |}.
Definition put_device (key : string) (v : MobileDevicePosture) (c : Collections) : Collections :=
  {| c_session := c_session c; c_device := jm_set key v (c_device c); c_package := c_package c;
     c_reservations := c_reservations c; c_drafts := c_drafts c; c_evidence := c_evidence c;
     c_queue := c_queue c; c_resolutions := c_resolutions c; c_receipts := c_receipts c;
     c_wipes := c_wipes c |}.
Definition put_package (key : string) (v : MobileNormativePackageSnapshot) (c : Collections) : Collections :=
  {| c_session := c_session c; c_device := c_device c; c_package := jm_set key v (c_package c);
     c_reservations := c_reservations c; c_drafts := c_drafts c; c_evidence := c_evidence c;
     c_queue := c_queue c; c_resolutions := c_resolutions c; c_receipts := c_receipts c;
     c_wipes := c_wipes c |}.
Definition put_reservations (key : string) (v : MobileNumberingReservation) (c : Collections) : Collections :=
  {| c_session := c_session c; c_device := c_device c; c_package := c_package c;
     c_reservations := jm_set key v (c_reservations c); c_drafts := c_drafts c;
     c_evidence := c_evidence c; c_queue := c_queue c; c_resolutions := c_resolutions c;
     c_receipts := c_receipts c; c_wipes := c_wipes c |}.
Definition put_drafts (key : string) (v : MobileEntityDraft) (c : Collections) : Collections :=
  {| c_session := c_session c; c_device := c_device c; c_package := c_package c;
     c_reservations := c_reservations c; c_drafts := jm_set key v (c_drafts c);
     c_evidence := c_evidence c; c_queue := c_queue c; c_resolutions := c_resolutions c;
     c_receipts := c_receipts c; c_wipes := c_wipes c |}.
Definition put_evidence (key : string) (v : MobileEvidenceDraft) (c : Collections) : Collections :=
  {| c_session := c_session c; c_device := c_device c; c_package := c_package c;
     c_reservations := c_reservations c; c_drafts := c_drafts c;
     c_evidence := jm_set key v (c_evidence c); c_queue := c_queue c;
     c_resolutions := c_resolutions c; c_receipts := c_receipts c; c_wipes := c_wipes c |}.
Definition put_queue (key : string) (v : MobileSyncQueueItem) (c : Collections) : Collections :=
  {| c_session := c_session c; c_device := c_device c; c_package := c_package c;
     c_reservations := c_reservations c; c_drafts := c_drafts c; c_evidence := c_evidence c;
     c_queue := jm_set key v (c_queue c); c_resolutions := c_resolutions c;
     c_receipts := c_receipts c; c_wipes := c_wipes c |}.
Definition put_resolutions (key : string) (v : MobileConflictResolution) (c : Collections) : Collections :=
  {| c_session := c_session c; c_device := c_device c; c_package := c_package c;
     c_reservations := c_reservations c; c_drafts := c_drafts c; c_evidence := c_evidence c;
     c_queue := c_queue c; c_resolutions := jm_set key v (c_resolutions c);
     c_receipts := c_receipts c; c_wipes := c_wipes c |}.
Definition put_receipts (key : string) (v : MobilePrintReceipt) (c : Collections) : Collections :=
  {| c_session := c_session c; c_device := c_device c; c_package := c_package c;
     c_reservations := c_reservations c; c_drafts := c_drafts c; c_evidence := c_evidence c;
     c_queue := c_queue c; c_resolutions := c_resolutions c;
     c_receipts := jm_set key v (c_receipts c); c_wipes := c_wipes c |}.
Definition put_wipes (key : string) (v : MobileRemoteWipeReceipt) (c : Collections) : Collections :=
  {| c_session := c_session c; c_device := c_device c; c_package := c_package c;
     c_reservations := c_reservations c; c_drafts := c_drafts c; c_evidence := c_evidence c;
     c_queue := c_queue c; c_resolutions := c_resolutions c; c_receipts := c_receipts c;
     c_wipes := jm_set key v (c_wipes c) |}.

(** ** Updates *)

Definition set_mr_next (next : Z) (status : MobileReservationStatus) (r : MobileNumberingReservation) :
    MobileNumberingReservation :=
  {| mr_reservationId := mr_reservationId r; mr_rangeId := mr_rangeId r; mr_entityType := mr_entityType r;
     mr_series := mr_series r; mr_startNumber := mr_startNumber r; mr_endNumber := mr_endNumber r;
     mr_nextNumber := next; mr_validUntil := mr_validUntil r; mr_status := status |}.

(** [{ ...draft, status, evidence, localContentHash, finalizedAt, updatedAt }] *)
Definition patch_draft (status : LocalDraftStatus) (hash : string) (evidence : list MobileEvidenceDraft)
    (finalizedAt : option string) (updatedAt : string) (d : MobileEntityDraft) : MobileEntityDraft :=
  {| md_localId := md_localId d; md_entityType := md_entityType d; md_tenantId := md_tenantId d;
     md_orgUnitId := md_orgUnitId d; md_agentId := md_agentId d; md_deviceId := md_deviceId d;
     md_shiftId := md_shiftId d; md_status := status; md_reservedNumber := md_reservedNumber d;
     md_reservationId := md_reservationId d; md_idempotencyKey := md_idempotencyKey d;
     md_normativePackageId := md_normativePackageId d; md_normativePackageVersion := md_normativePackageVersion d;
     md_localContentHash := hash; md_payload := md_payload d; md_location := md_location d;
     md_evidence := evidence; md_createdAt := md_createdAt d; md_updatedAt := updatedAt;
     md_finalizedAt := finalizedAt |}.

Definition set_qi_status (status : SyncQueueStatus) (i : MobileSyncQueueItem) : MobileSyncQueueItem :=
  {| qi_queueItemId := qi_queueItemId i; qi_entityType := qi_entityType i; qi_localEntityId := qi_localEntityId i;
     qi_status := status; qi_attempts := qi_attempts i; qi_idempotencyKey := qi_idempotencyKey i;
     qi_payloadHash := qi_payloadHash i; qi_payloadJson := qi_payloadJson i; qi_deviceId := qi_deviceId i;
     qi_agentId := qi_agentId i; qi_tenantId := qi_tenantId i; qi_orgUnitId := qi_orgUnitId i;
     qi_normativePackageId := qi_normativePackageId i; qi_reservedNumber := qi_reservedNumber i;
     qi_location := qi_location i; qi_createdLocallyAt := qi_createdLocallyAt i;
     qi_lastSubmittedAt := qi_lastSubmittedAt i |}.

Definition set_qi_sent (submittedAt : string) (i : MobileSyncQueueItem) : MobileSyncQueueItem :=
  {| qi_queueItemId := qi_queueItemId i; qi_entityType := qi_entityType i; qi_localEntityId := qi_localEntityId i;
     qi_status := sq_sent; qi_attempts := qi_attempts i + 1; qi_idempotencyKey := qi_idempotencyKey i;
     qi_payloadHash := qi_payloadHash i; qi_payloadJson := qi_payloadJson i; qi_deviceId := qi_deviceId i;
     qi_agentId := qi_agentId i; qi_tenantId := qi_tenantId i; qi_orgUnitId := qi_orgUnitId i;
     qi_normativePackageId := qi_normativePackageId i; qi_reservedNumber := qi_reservedNumber i;
     qi_location := qi_location i; qi_createdLocallyAt := qi_createdLocallyAt i;
     qi_lastSubmittedAt := Some submittedAt |}.

(** Every failure of the runtime is an [Error] with a message. *)
Inductive MobileError :=
| MissingRoles (roles : list string)
| DevicePosture
| PackageNotPublished (id : string)
| PackageExpired (id : string)
| ReservationEntityMismatch (id actual expected : string)
| NoUsableReservation
| NoSession
| NoPackage
| DraftNotFound (id : string)
| DraftStatus (id : string) (status : LocalDraftStatus)
| EvidenceHash
| LacksIdentity
| LacksContext
| LacksEvidence
| QueueItemNotFound (id : string)
| QueueItemStatus (id : string) (status : SyncQueueStatus)
| NoPrinter

| PortFailure (message : string).

Record Device := {
  dv_store : Collections;
  dv_clock : nat;
  dv_ids : nat;
  dv_calls : nat }.

Notation Mobile A := (JS Device MobileError A).

(** Arguments of the backend calls. *)
Record ReserveRequest := {
  rq_tenantId : string; rq_orgUnitId : string; rq_agentId : string; rq_deviceId : string;
  rq_shiftId : string; rq_entityType : string; rq_requestedSize : Z; rq_series : option string }.
Record BatchRequest := {
  bq_tenantId : string; bq_orgUnitId : string; bq_agentId : string; bq_deviceId : string;
  bq_deviceBatchId : string; bq_items : list MobileSyncQueueItem }.
Record ResolveRequest := {
  vq_tenantId : string; vq_orgUnitId : string; vq_agentId : string; vq_deviceId : string;
  vq_queueItemId : string; vq_localEntityId : string; vq_resolution : SyncConflictResolutionStrategy;
  vq_payloadHash : string }.
Record PrintRequest := {
  pq_session : MobileSessionContext; pq_draft : MobileEntityDraft; pq_contentHash : string }.

Section runtime.
Context (options : MobileRuntimeOptions)
        (clock : nat → string) (ids : nat → string → string) (contentHash : HashSubject → string)
        (fetchPublishedNormativePackage : nat → outcome MobileError MobileNormativePackageSnapshot)
        (backendReserve : nat → ReserveRequest → outcome MobileError MobileNumberingReservation)
        (backendSubmit : nat → BatchRequest → outcome MobileError MobileSyncBatchResult)
        (backendResolve : nat → ResolveRequest → outcome MobileError MobileConflictResolution)
        (printer : option (nat → PrintRequest → outcome MobileError MobilePrintReceipt)).

(** ** Ports *)

Definition now : Mobile string := λ s,
  (Ok (clock (dv_clock s)), Build_Device (dv_store s) (S (dv_clock s)) (dv_ids s) (dv_calls s)).
Definition uuid (prefix : string) : Mobile string := λ s,
  (Ok (ids (dv_ids s) prefix), Build_Device (dv_store s) (dv_clock s) (S (dv_ids s)) (dv_calls s)).
Definition call {A} (f : nat → outcome MobileError A) : Mobile A := λ s,
  (f (dv_calls s), Build_Device (dv_store s) (dv_clock s) (dv_ids s) (S (dv_calls s))).
Definition store {A} (f : Collections → A) : Mobile A := getf (λ s, f (dv_store s)).
Definition put (f : Collections → Collections) : Mobile () := modify (λ s,
  Build_Device (f (dv_store s)) (dv_clock s) (dv_ids s) (dv_calls s)).

(** ** Requirements *)

Definition requireSession : Mobile MobileSessionContext :=
  session ← store (λ c, jm_get "active" (c_session c));
  match session with Some s => mret s | None => throw NoSession end.

Definition requireNormativePackage : Mobile MobileNormativePackageSnapshot :=
  package ← store (λ c, jm_get "active" (c_package c));
  match package with Some p => mret p | None => throw NoPackage end.

Definition requireDraft (localId : string) : Mobile MobileEntityDraft :=
  draft ← store (λ c, jm_get localId (c_drafts c));
  match draft with Some d => mret d | None => throw (DraftNotFound localId) end.

Definition nonempty (s : string) : bool := negb (String.eqb s EmptyString).

Definition assertOfflineInvariant (draft : MobileEntityDraft) : outcome MobileError () :=
  if negb (nonempty (md_idempotencyKey draft) && nonempty (md_reservationId draft)
           && nonempty (md_localContentHash draft)) then Throw LacksIdentity
  else if negb (nonempty (md_deviceId draft) && nonempty (md_agentId draft)
                && bool_decide (is_Some (md_location draft)) && nonempty (md_normativePackageId draft))
  then Throw LacksContext
  else if mo_requireEvidenceToFinalize options && bool_decide (md_evidence draft = []) then Throw LacksEvidence
  else Ok ().

Definition toSyncPayload (draft : MobileEntityDraft) : SyncPayload :=
  {| sp_tenant_id := md_tenantId draft; sp_org_unit_id := md_orgUnitId draft; sp_agent_id := md_agentId draft;
     sp_device_id := md_deviceId draft; sp_shift_id := md_shiftId draft; sp_entity_type := md_entityType draft;
     sp_local_entity_id := md_localId draft; sp_reserved_number := md_reservedNumber draft;
     sp_idempotency_key := md_idempotencyKey draft; sp_payload_hash := md_localContentHash draft;
     sp_normative_package_id := md_normativePackageId draft;
     sp_normative_package_version := md_normativePackageVersion draft; sp_location := md_location draft;
     sp_evidence := md_evidence draft; sp_payload := md_payload draft; sp_finalized_at := md_finalizedAt draft |}.

(** ** Numbering *)

(** [find] over the listed reservations; the clock is read for each candidate that is
    reserved and of the entity type. *)
Fixpoint findReservation (entityType : string) (requestedNumber : option Z)
    (reservations : list MobileNumberingReservation) : Mobile (option MobileNumberingReservation) :=
  match reservations with
  | [] => mret None
  | candidate :: rest =>
      if negb (bool_decide (mr_status candidate = mr_reserved) && String.eqb (mr_entityType candidate) entityType)
      then findReservation entityType requestedNumber rest
      else
        n ← now;
        if date_gt (mr_validUntil candidate) n && (mr_nextNumber candidate <=? mr_endNumber candidate)
           && match requestedNumber with
              | None => true
              | Some r => (r =? 0) || (mr_nextNumber candidate =? r)
              end
        then mret (Some candidate)
        else findReservation entityType requestedNumber rest
  end.

Definition consumed (r : MobileNumberingReservation) : MobileNumberingReservation :=
  set_mr_next (mr_nextNumber r + 1) (if mr_endNumber r <=? mr_nextNumber r then mr_consumed else mr_reserved) r.

(** The two halves of [consumeReservationNumber], between which it awaits the store. *)
Definition chooseReservation (entityType : string) (requestedNumber : option Z) : Mobile MobileNumberingReservation :=
  reservations ← store (λ c, jm_values (c_reservations c));
  reservation ← findReservation entityType requestedNumber reservations;
  match reservation with Some r => mret r | None => throw NoUsableReservation end.
Definition consumeReservationNumber (entityType : string) (requestedNumber : option Z) :
    Mobile MobileNumberingReservation :=
  reservation ← chooseReservation entityType requestedNumber;
  _ ← put (put_reservations (mr_reservationId reservation) (consumed reservation));
  mret reservation.

Definition reserveNumbering (input : ReserveMobileNumberingInput) : Mobile MobileNumberingReservation :=
  session ← requireSession;
  reservation ← call (λ n, backendReserve n
    {| rq_tenantId := ms_tenantId session; rq_orgUnitId := ms_orgUnitId session; rq_agentId := ms_agentId session;
       rq_deviceId := ms_deviceId session; rq_shiftId := ms_shiftId session; rq_entityType := ri_entityType input;
       rq_requestedSize := ri_requestedSize input; rq_series := ri_series input |});
  _ ← throw_if (negb (String.eqb (mr_entityType reservation) (ri_entityType input)))
        (ReservationEntityMismatch (mr_reservationId reservation) (mr_entityType reservation) (ri_entityType input));
  _ ← put (put_reservations (mr_reservationId reservation) reservation);
  mret reservation.

(** ** Session and package *)

Definition bootstrapSession (context : MobileSessionContext) (posture : MobileDevicePosture) : Mobile () :=
  let missingRoles := List.filter (λ role, negb (bool_decide (role ∈ ms_roles context))) (mo_requiredRoles options) in
  _ ← throw_if (bool_decide (missingRoles ≠ [])) (MissingRoles missingRoles);
  _ ← throw_if (negb (dp_homologated posture) || negb (dp_secureHardwareBacked posture)) DevicePosture;
  _ ← put (put_session "active" context);
  put (put_device (ms_deviceId context) posture).

(** [currentSession] is the reply of the session port. *)
Definition bootstrapFromStynxSession (currentSession : outcome MobileError MobileSessionContext)
    (posture : MobileDevicePosture) : Mobile MobileSessionContext :=
  context ← lift currentSession;
  _ ← bootstrapSession context posture;
  mret context.

Definition installPublishedNormativePackage : Mobile MobileNormativePackageSnapshot :=
  published ← call fetchPublishedNormativePackage;
  _ ← throw_if (negb (bool_decide (np_status published = pk_published))) (PackageNotPublished (np_packageId published));
  n ← now;
  _ ← throw_if (match date_parse (np_validUntil published), date_parse n with
                | Some v, Some t => v <=? t
                | _, _ => false
                end) (PackageExpired (np_packageId published));
  _ ← put (put_package "active" published);
  mret published.

(** ** Drafts *)

(** The rest of [createDraft], once a number was taken. *)
Definition draftWithNumber (input : CreateMobileDraftInput) (session : MobileSessionContext)
    (normativePackage : MobileNormativePackageSnapshot) (reservation : MobileNumberingReservation) :
    Mobile MobileEntityDraft :=
  n ← now;
  localId ← uuid (mo_draftIdPrefix options);
  let payload := jm_set "observed_at" (JString (ci_observedAt input)) (ci_payload input) in
  idempotencyKey ← uuid "idem";
  let draft := {|
    md_localId := localId; md_entityType := ci_entityType input; md_tenantId := ms_tenantId session;
    md_orgUnitId := ms_orgUnitId session; md_agentId := ms_agentId session; md_deviceId := ms_deviceId session;
    md_shiftId := ms_shiftId session; md_status := ld_draft; md_reservedNumber := mr_nextNumber reservation;
    md_reservationId := mr_reservationId reservation; md_idempotencyKey := idempotencyKey;
    md_normativePackageId := np_packageId normativePackage;
    md_normativePackageVersion := np_packageVersion normativePackage;
    md_localContentHash := contentHash (HashCreated payload input); md_payload := payload;
    md_location := Some (ci_location input); md_evidence := []; md_createdAt := n; md_updatedAt := n;
    md_finalizedAt := None |} in
  _ ← put (put_drafts localId draft);
  mret draft.

(** The call when no other runs while it awaits the store. *)
Definition createDraft (input : CreateMobileDraftInput) : Mobile MobileEntityDraft :=
  session ← requireSession;
  normativePackage ← requireNormativePackage;
  reservation ← consumeReservationNumber (ci_entityType input) (ci_reservedNumber input);
  draftWithNumber input session normativePackage reservation.

(** [createDraft] in two runs: up to the choice of the reservation, and from the store's [put]
    of the consumed one. Between them the runtime awaits the store, so that another
    [createDraft] can run. *)
Definition draftUntilChoice (input : CreateMobileDraftInput) :
    Mobile (MobileSessionContext * MobileNormativePackageSnapshot * MobileNumberingReservation) :=
  session ← requireSession;
  normativePackage ← requireNormativePackage;
  reservation ← chooseReservation (ci_entityType input) (ci_reservedNumber input);
  mret (session, normativePackage, reservation).
Definition draftFromChoice (input : CreateMobileDraftInput)
    (chosen : MobileSessionContext * MobileNormativePackageSnapshot * MobileNumberingReservation) :
    Mobile MobileEntityDraft :=
  let '(session, normativePackage, reservation) := chosen in
  _ ← put (put_reservations (mr_reservationId reservation) (consumed reservation));
  draftWithNumber input session normativePackage reservation.
(** Two calls, both choosing before either puts. *)
Definition twoDrafts (a b : CreateMobileDraftInput) : Mobile (MobileEntityDraft * MobileEntityDraft) :=
  chosen_a ← draftUntilChoice a;
  chosen_b ← draftUntilChoice b;
  draft_a ← draftFromChoice a chosen_a;
  draft_b ← draftFromChoice b chosen_b;
  mret (draft_a, draft_b).

(** [{ ...evidence, linkedLocalEntityId }] *)
Definition link (localEntityId : string) (evidence : MobileEvidenceDraft) : MobileEvidenceDraft :=
  {| ev_localEvidenceId := ev_localEvidenceId evidence; ev_hashAlgorithm := ev_hashAlgorithm evidence;
     ev_hashValue := ev_hashValue evidence; ev_mediaType := ev_mediaType evidence;
     ev_capturedAt := ev_capturedAt evidence; ev_storageIntentId := ev_storageIntentId evidence;
     ev_linkedLocalEntityId := Some localEntityId |}.

Definition attachEvidence (localEntityId : string) (evidence : MobileEvidenceDraft) : Mobile MobileEntityDraft :=
  _ ← throw_if (negb (String.eqb (ev_hashAlgorithm evidence) "sha256") || negb (nonempty (ev_hashValue evidence))
                || negb (starts_with "sha256:" (ev_hashValue evidence))) EvidenceHash;
  draft ← requireDraft localEntityId;
  let linkedEvidence := link localEntityId evidence in
  _ ← put (put_evidence (ev_localEvidenceId linkedEvidence) linkedEvidence);
  n ← now;
  let updated := patch_draft (md_status draft) (md_localContentHash draft) (md_evidence draft ++ [linkedEvidence])
                   (md_finalizedAt draft) n draft in
  _ ← put (put_drafts localEntityId updated);
  mret updated.

Definition finalizeOffline (localEntityId : string) : Mobile MobileEntityDraft :=
  draft ← requireDraft localEntityId;
  _ ← throw_if (negb (bool_decide (md_status draft = ld_draft))) (DraftStatus localEntityId (md_status draft));
  _ ← lift (assertOfflineInvariant draft);
  finalizedAt ← now;
  let hash := contentHash (HashFinalized draft finalizedAt) in
  n ← now;
  let finalized := patch_draft ld_finalized hash (md_evidence draft) (Some finalizedAt) n draft in
  _ ← put (put_drafts localEntityId finalized);
  mret finalized.

(** ** The queue *)

Definition enqueue (localEntityId : string) : Mobile MobileSyncQueueItem :=
  draft ← requireDraft localEntityId;
  _ ← throw_if (negb (bool_decide (md_status draft = ld_finalized))) (DraftStatus localEntityId (md_status draft));
  queueItemId ← uuid "sync-item";
  let queueItem := {|
    qi_queueItemId := queueItemId; qi_entityType := md_entityType draft; qi_localEntityId := md_localId draft;
    qi_status := sq_pending; qi_attempts := 0; qi_idempotencyKey := md_idempotencyKey draft;
    qi_payloadHash := md_localContentHash draft; qi_payloadJson := toSyncPayload draft;
    qi_deviceId := md_deviceId draft; qi_agentId := md_agentId draft; qi_tenantId := md_tenantId draft;
    qi_orgUnitId := md_orgUnitId draft; qi_normativePackageId := md_normativePackageId draft;
    qi_reservedNumber := Some (md_reservedNumber draft); qi_location := md_location draft;
    qi_createdLocallyAt := md_createdAt draft; qi_lastSubmittedAt := None |} in
  _ ← put (put_queue queueItemId queueItem);
  n ← now;
  _ ← put (put_drafts localEntityId (patch_draft ld_queued (md_localContentHash draft) (md_evidence draft)
                                       (md_finalizedAt draft) n draft));
  mret queueItem.

Definition put_items (f : MobileSyncQueueItem → MobileSyncQueueItem) (items : list MobileSyncQueueItem)
    (c : Collections) : Collections :=
  foldl (λ c item, put_queue (qi_queueItemId item) (f item) c) c items.

Definition submitPendingQueue : Mobile MobileSyncBatchResult :=
  session ← requireSession;
  queue ← store (λ c, jm_values (c_queue c));
  let pending := List.filter (λ item, bool_decide (qi_status item = sq_pending)) queue in
  match pending with
  | [] => mret {| br_batchId := "empty"; br_acceptedItems := 0; br_conflicts := [] |}
  | _ =>
      submittedAt ← now;
      let marked := set_qi_sent submittedAt <$> pending in
      _ ← put (put_items id marked);
      deviceBatchId ← uuid "device-batch";
      reply ← call (λ n, Ok (backendSubmit n
        {| bq_tenantId := ms_tenantId session; bq_orgUnitId := ms_orgUnitId session; bq_agentId := ms_agentId session;
           bq_deviceId := ms_deviceId session; bq_deviceBatchId := deviceBatchId; bq_items := marked |}));
      match reply with
      | Throw error => _ ← put (put_items (set_qi_status sq_pending) marked); throw error
      | Ok result =>
          _ ← put (put_items (λ item, set_qi_status
                (if bool_decide (qi_queueItemId item ∈ br_conflicts result) then sq_conflict else sq_received) item)
                marked);
          mret result
      end
  end.

Definition resolveSimpleConflict (queueItemId : string) (resolution : SyncConflictResolutionStrategy) :
    Mobile MobileConflictResolution :=
  session ← requireSession;
  item ← store (λ c, jm_get queueItemId (c_queue c));
  match item with
  | None => throw (QueueItemNotFound queueItemId)
  | Some item =>
      _ ← throw_if (negb (bool_decide (qi_status item = sq_conflict))) (QueueItemStatus queueItemId (qi_status item));
      resolved ← call (λ n, backendResolve n
        {| vq_tenantId := ms_tenantId session; vq_orgUnitId := ms_orgUnitId session; vq_agentId := ms_agentId session;
           vq_deviceId := ms_deviceId session; vq_queueItemId := qi_queueItemId item;
           vq_localEntityId := qi_localEntityId item; vq_resolution := resolution;
           vq_payloadHash := qi_payloadHash item |});
      _ ← put (put_resolutions (cr_conflictId resolved) resolved);
      _ ← put (put_queue (qi_queueItemId item) (set_qi_status sq_applied item));
      draft ← store (λ c, jm_get (qi_localEntityId item) (c_drafts c));
      _ ← match draft with
          | None => mret ()
          | Some d =>
              n ← now;
              put (put_drafts (md_localId d) (patch_draft ld_synced (md_localContentHash d) (md_evidence d)
                                                (md_finalizedAt d) n d))
          end;
      mret resolved
  end.

(** ** Receipts, wipe and snapshot *)

Definition printable (status : LocalDraftStatus) : bool :=
  match status with ld_finalized | ld_queued | ld_synced => true | _ => false end.

Definition printReceipt (localEntityId : string) : Mobile MobilePrintReceipt :=
  match printer with
  | None => throw NoPrinter
  | Some print =>
      session ← requireSession;
      draft ← requireDraft localEntityId;
      _ ← throw_if (negb (printable (md_status draft))) (DraftStatus localEntityId (md_status draft));
      receipt ← call (λ n, print n
        {| pq_session := session; pq_draft := draft;
           pq_contentHash := contentHash (HashReceipt (md_localId draft) (md_reservedNumber draft)
             (md_localContentHash draft) (ev_hashValue <$> md_evidence draft)) |});
      _ ← put (put_receipts (rc_receiptId receipt) receipt);
      mret receipt
  end.

Definition applyRemoteWipe (reason : string) : Mobile MobileRemoteWipeReceipt :=
  session ← store (λ c, jm_get "active" (c_session c));
  wipeReceiptId ← uuid "wipe";
  n ← now;
  let receipt := {| wr_wipeReceiptId := wipeReceiptId;
                    wr_deviceId := match session with Some s => ms_deviceId s | None => "unknown-device" end;
                    wr_reason := reason; wr_wipedAt := n |} in
  _ ← put (λ _, no_collections);
  _ ← put (put_wipes wipeReceiptId receipt);
  mret receipt.

Definition queued (status : SyncQueueStatus) : bool :=
  match status with sq_pending | sq_sent | sq_received | sq_conflict => true | _ => false end.

Definition snapshot : Mobile MobileRuntimeSnapshot :=
  c ← store id;
  let session := jm_get "active" (c_session c) in
  mret {|
    sn_activeSession := session;
    sn_activePackage := jm_get "active" (c_package c);
    sn_devicePosture := s ← session; jm_get (ms_deviceId s) (c_device c);
    sn_draftCount := length (List.filter (λ d, bool_decide (md_status d = ld_draft)) (jm_values (c_drafts c)));
    sn_queuedCount := length (List.filter (λ i, queued (qi_status i)) (jm_values (c_queue c)));
    sn_evidenceCount := length (jm_values (c_evidence c));
    sn_printReceiptCount := length (jm_values (c_receipts c));
    sn_conflictResolutionCount := length (jm_values (c_resolutions c));
    sn_pendingWipe := bool_decide (jm_values (c_wipes c) ≠ []) |}.

(** ** Runs *)

Inductive MobileOp :=
| OpBootstrap (context : MobileSessionContext) (posture : MobileDevicePosture)
| OpInstall
| OpReserve (input : ReserveMobileNumberingInput)
| OpCreateDraft (input : CreateMobileDraftInput)
| OpAttach (localEntityId : string) (evidence : MobileEvidenceDraft)
| OpFinalize (localEntityId : string)
| OpEnqueue (localEntityId : string)
| OpSubmit
| OpResolve (queueItemId : string) (resolution : SyncConflictResolutionStrategy)
| OpPrint (localEntityId : string)
| OpWipe (reason : string).

Definition run_op (op : MobileOp) : Mobile () :=
  match op with
  | OpBootstrap c p => bootstrapSession c p
  | OpInstall => (λ _, ()) <$> installPublishedNormativePackage
  | OpReserve i => (λ _, ()) <$> reserveNumbering i
  | OpCreateDraft i => (λ _, ()) <$> createDraft i
  | OpAttach id e => (λ _, ()) <$> attachEvidence id e
  | OpFinalize id => (λ _, ()) <$> finalizeOffline id
  | OpEnqueue id => (λ _, ()) <$> enqueue id
  | OpSubmit => (λ _, ()) <$> submitPendingQueue
  | OpResolve id r => (λ _, ()) <$> resolveSimpleConflict id r
  | OpPrint id => (λ _, ()) <$> printReceipt id
  | OpWipe r => (λ _, ()) <$> applyRemoteWipe r
  end.
Definition run_ops (ops : list MobileOp) (s : Device) : Device := foldl (λ s op, (run_op op s).2) s ops.
End runtime.

Definition new_device : Device := {| dv_store := no_collections; dv_clock := 0; dv_ids := 0; dv_calls := 0 |}.
