(* ===== verification/MobileInv.v ===== *)
(** * MobileInv: the invariant of the device, kept by every operation, and what the operations do.

    Section [claims] takes the ports; [preservation] adds what they promise: ids never repeat,
    a content hash is not empty, and two grants of the backend have different ids. *)
From S2P Require Import Prelude JsMap JsText JsDate JsJson MobileRuntime.
From Stdlib Require Import Ascii.
Local Open Scope Z_scope.

Section claims.
Context (options : MobileRuntimeOptions)
        (clock : nat → string) (ids : nat → string → string) (contentHash : HashSubject → string)
        (fetchPackage : nat → outcome MobileError MobileNormativePackageSnapshot)
        (backendReserve : nat → ReserveRequest → outcome MobileError MobileNumberingReservation)
        (backendSubmit : nat → BatchRequest → outcome MobileError MobileSyncBatchResult)
        (backendResolve : nat → ResolveRequest → outcome MobileError MobileConflictResolution)
        (printer : option (nat → PrintRequest → outcome MobileError MobilePrintReceipt)).

Notation createDraft := (createDraft options clock ids contentHash).
Notation finalizeOffline := (finalizeOffline options clock contentHash).
Notation enqueue := (enqueue clock ids).
Notation submitPendingQueue := (submitPendingQueue clock ids backendSubmit).
Notation run_op := (run_op options clock ids contentHash fetchPackage backendReserve backendSubmit backendResolve printer).
Notation run_ops := (run_ops options clock ids contentHash fetchPackage backendReserve backendSubmit backendResolve printer).

(** ** Choosing a reservation *)

(** What [find] looks for, at a clock reading. *)
Definition usable (entityType : string) (requested : option Z) (t : string) (r : MobileNumberingReservation) : Prop :=
  mr_status r = mr_reserved ∧ mr_entityType r = entityType ∧ date_gt (mr_validUntil r) t = true ∧
  mr_nextNumber r ≤ mr_endNumber r ∧ (∀ q, requested = Some q → q ≠ 0 → mr_nextNumber r = q).

Lemma findReservation_spec e q l s :
  ∃ o n, findReservation clock e q l s = (Ok o, Build_Device (dv_store s) n (dv_ids s) (dv_calls s)) ∧
  (dv_clock s ≤ n)%nat ∧
  (∀ r, o = Some r → r ∈ l ∧ ∃ k, (dv_clock s ≤ k < n)%nat ∧ usable e q (clock k) r) ∧
  (o = None → ∀ r, r ∈ l → ∃ k, ¬ usable e q (clock k) r).
Proof.
  revert s. induction l as [|c l IH]; intros s; cbn [findReservation].
  { exists None, (dv_clock s). destruct s. split_and!; try done. intros _ r Hr. by apply elem_of_nil in Hr. }
  destruct (bool_decide (mr_status c = mr_reserved) && String.eqb (mr_entityType c) e) eqn:Hc; cbn [negb].
  2:{ destruct (IH s) as (o & n & Hrun & Hn & Ho & Hnone). exists o, n. split_and!; try done.
      - intros r Hr. destruct (Ho r Hr) as (Hin & k & ? & ?). split; [by right|eauto].
      - intros Hnil r [->|Hr]%elem_of_cons; [|by apply Hnone]. exists 0%nat. intros (Hs & He & _).
        by rewrite Hs, He, bool_decide_eq_true_2, String.eqb_refl in Hc. }
  apply andb_true_iff in Hc as [Hs%bool_decide_eq_true He%String.eqb_eq].
  unfold mbind, js_bind, MobileRuntime.now. set (s1 := Build_Device _ (S _) _ _).
  destruct (date_gt _ _ && _ && _) eqn:Hu.
  - exists (Some c), (S (dv_clock s)). split_and!; [done|lia| |done]. intros r Hr. injection Hr as <-. split; [by left|].
    exists (dv_clock s). split; [lia|]. rewrite !andb_true_iff in Hu. destruct Hu as [[Hd Hle] Hq].
    split_and!; [done|done|done|lia|]. intros q' -> Hne. apply orb_true_iff in Hq as [?|?]; lia.
  - destruct (IH s1) as (o & n & Hrun & Hn & Ho & Hnone). exists o, n. simpl in Hrun, Hn. split_and!; [done|lia| |].
    + intros r Hr. destruct (Ho r Hr) as (Hin & k & Hk & ?). simpl in Hk. split; [by right|]. exists k. split; [lia|done].
    + intros Hnil r [->|Hr]%elem_of_cons; [|by apply Hnone]. exists (dv_clock s). intros (_ & _ & Hd & Hle & Hq).
      rewrite Hd in Hu. apply Z.leb_le in Hle. rewrite Hle in Hu. simpl in Hu. destruct q as [q'|]; [|done].
      apply orb_false_iff in Hu as [H0 H1]. specialize (Hq q' eq_refl). lia.
Qed.

Lemma consume_spec e q s :
  let m := consumeReservationNumber clock e q s in
  (m.1 = Throw NoUsableReservation ∧ dv_store m.2 = dv_store s ∧
     (∀ r, r ∈ jm_values (c_reservations (dv_store s)) → ∃ k, ¬ usable e q (clock k) r) ∨
   ∃ r k, m.1 = Ok r ∧ r ∈ jm_values (c_reservations (dv_store s)) ∧ usable e q (clock k) r ∧
     dv_store m.2 = put_reservations (mr_reservationId r) (consumed r) (dv_store s)) ∧
  dv_ids m.2 = dv_ids s ∧ dv_calls m.2 = dv_calls s.
Proof.
  unfold consumeReservationNumber, chooseReservation. js_unfold. cbn [store getf].
  destruct (findReservation_spec e q (jm_values (c_reservations (dv_store s))) s) as (o & n & Hrun & _ & Ho & Hnone).
  unfold store, getf. rewrite Hrun. destruct o as [r|]; simpl; [|by split_and!; [left; auto|..]].
  destruct (Ho r eq_refl) as (Hin & k & _ & Hu). split_and!; [right; by exists r, k|done|done].
Qed.

(** ** The invariant *)

Definition granted (calls : nat) (rid : string) : Prop :=
  ∃ k q r, (k < calls)%nat ∧ backendReserve k q = Ok r ∧ mr_reservationId r = rid.

Definition handed_over (d : MobileEntityDraft) : Prop := md_status d = ld_queued ∨ md_status d = ld_synced.

(** A draft past [draft] was finalised under the offline invariant. *)
Definition good_draft (d : MobileEntityDraft) : Prop :=
  (md_status d = ld_draft ∧ md_finalizedAt d = None) ∨
  ((md_status d = ld_finalized ∨ handed_over d) ∧ is_Some (md_finalizedAt d) ∧
   assertOfflineInvariant options d = Ok ()).

(** The queue item carries the identity of its draft. *)
Definition item_of (d : MobileEntityDraft) (i : MobileSyncQueueItem) : Prop :=
  qi_localEntityId i = md_localId d ∧ qi_entityType i = md_entityType d ∧
  qi_idempotencyKey i = md_idempotencyKey d ∧ qi_reservedNumber i = Some (md_reservedNumber d) ∧
  qi_payloadHash i = md_localContentHash d ∧ qi_tenantId i = md_tenantId d ∧ qi_deviceId i = md_deviceId d ∧
  qi_agentId i = md_agentId d ∧ qi_orgUnitId i = md_orgUnitId d.

Record device_inv (s : Device) : Prop := {
  di_res_wf : jm_wf (c_reservations (dv_store s));
  di_queue_wf : jm_wf (c_queue (dv_store s));
  di_res k r : jm_get k (c_reservations (dv_store s)) = Some r →
    mr_reservationId r = k ∧ granted (dv_calls s) k;
  di_draft k d : jm_get k (c_drafts (dv_store s)) = Some d →
    md_localId d = k ∧ (∃ n p, (n < dv_ids s)%nat ∧ k = ids n p) ∧ good_draft d;
  di_item k i : jm_get k (c_queue (dv_store s)) = Some i →
    qi_queueItemId i = k ∧ (∃ n p, (n < dv_ids s)%nat ∧ k = ids n p) ∧
    ∃ d, jm_get (qi_localEntityId i) (c_drafts (dv_store s)) = Some d ∧ handed_over d ∧ item_of d i;
  di_once k k' i i' : jm_get k (c_queue (dv_store s)) = Some i → jm_get k' (c_queue (dv_store s)) = Some i' →
    qi_localEntityId i = qi_localEntityId i' → k = k' }.

Lemma new_device_inv : device_inv new_device.
Proof. split; simpl; try done; constructor. Qed.

(** ** Preservation *)

(** A change of the collections outside reservations, drafts and queue. *)
Lemma device_frame s s' :
  device_inv s → (dv_ids s ≤ dv_ids s')%nat → (dv_calls s ≤ dv_calls s')%nat →
  c_reservations (dv_store s') = c_reservations (dv_store s) →
  c_drafts (dv_store s') = c_drafts (dv_store s) → c_queue (dv_store s') = c_queue (dv_store s) →
  device_inv s'.
Proof.
  intros [W1 W2 R D I O] Hids Hcalls E1 E2 E3. split; rewrite ?E1, ?E2, ?E3; try done.
  - intros k r Hr. destruct (R k r Hr) as (? & k' & q & r' & ? & ? & ?). split; [done|]. exists k', q, r'.
    split_and!; [lia|done..].
  - intros k d Hd. destruct (D k d Hd) as (? & (n & p & ? & ?) & ?). split_and!; [done| |done]. exists n, p. split; [lia|done].
  - intros k i Hi. destruct (I k i Hi) as (? & (n & p & ? & ?) & ?). split_and!; [done| |done]. exists n, p. split; [lia|done].
Qed.

Lemma good_draft_offline d :
  good_draft d → md_status d ≠ ld_draft → assertOfflineInvariant options d = Ok ().
Proof. intros [[? _]|(_ & _ & ?)] ?; done. Qed.

(** The offline invariant looks at identity, hash, context and evidence only. *)
Lemma offline_ext d d' :
  assertOfflineInvariant options d = Ok () →
  md_idempotencyKey d' = md_idempotencyKey d → md_reservationId d' = md_reservationId d →
  nonempty (md_localContentHash d') = true → md_deviceId d' = md_deviceId d → md_agentId d' = md_agentId d →
  md_location d' = md_location d → md_normativePackageId d' = md_normativePackageId d →
  (md_evidence d ≠ [] → md_evidence d' ≠ []) →
  assertOfflineInvariant options d' = Ok ().
Proof.
  unfold assertOfflineInvariant. intros Hok -> -> Hh -> -> -> -> He.
  destruct (negb (nonempty (md_idempotencyKey d) && nonempty (md_reservationId d) && nonempty (md_localContentHash d)))
    eqn:H1; [done|].
  destruct (negb (nonempty (md_deviceId d) && _ && _ && _)); [done|].
  apply negb_false_iff in H1. rewrite !andb_true_iff in H1. destruct H1 as [[-> ->] _]. rewrite Hh. simpl.
  destruct (mo_requireEvidenceToFinalize options); simpl in *; [|done].
  destruct (bool_decide (md_evidence d = [])) eqn:H2; [done|]. apply bool_decide_eq_false in H2.
  rewrite bool_decide_eq_false_2; auto.
Qed.

(** The state with other collections. *)
Definition with_store (c : Collections) (s : Device) : Device :=
  Build_Device c (dv_clock s) (dv_ids s) (dv_calls s).

(** A stored draft is replaced. *)
Lemma inv_update_draft s k d d' :
  device_inv s → jm_get k (c_drafts (dv_store s)) = Some d → md_localId d' = md_localId d → good_draft d' →
  (handed_over d → handed_over d' ∧ ∀ i, item_of d i → item_of d' i) →
  device_inv (with_store (put_drafts k d' (dv_store s)) s).
Proof.
  intros [W1 W2 R D I O] Hd Hid Hgood Hover. split; try done; simpl.
  - intros k' d2. rewrite jm_get_set. case_decide as Hk; [|by eauto]. intros. simplify_eq.
    destruct (D k d Hd) as (<- & ? & _). by split_and!.
  - intros k' i Hi. destruct (I k' i Hi) as (? & ? & d2 & Hd2 & Ho & Hitem). split_and!; [done|done|].
    rewrite jm_get_set. case_decide as Hk; [|by exists d2]. exists d'. simplify_eq.
    destruct (Hover Ho) as [? Hi']. split_and!; [done|done|]. by apply Hi'.
Qed.

(** A draft under a new id. *)
Lemma inv_new_draft s k d :
  device_inv s → jm_get k (c_drafts (dv_store s)) = None → md_localId d = k →
  (∃ n p, (n < dv_ids s)%nat ∧ k = ids n p) → good_draft d →
  device_inv (with_store (put_drafts k d (dv_store s)) s).
Proof.
  intros [W1 W2 R D I O] Hnone Hid Hk Hgood. split; try done; simpl.
  - intros k' d2. rewrite jm_get_set. case_decide; [|by eauto]. intros. by simplify_eq.
  - intros k' i Hi. destruct (I k' i Hi) as (? & ? & d2 & Hd2 & ? & ?). split_and!; [done|done|].
    exists d2. rewrite jm_get_set. case_decide; [congruence|done].
Qed.

(** A queue item changes its progress only. *)
Definition same_item (i i' : MobileSyncQueueItem) : Prop :=
  qi_queueItemId i' = qi_queueItemId i ∧ qi_localEntityId i' = qi_localEntityId i ∧ ∀ d, item_of d i ↔ item_of d i'.

Lemma inv_update_item s k i i' :
  device_inv s → jm_get k (c_queue (dv_store s)) = Some i → same_item i i' →
  device_inv (with_store (put_queue k i' (dv_store s)) s).
Proof.
  intros [W1 W2 R D I O] Hi (Hid & Hl & Hitem). split; try done; simpl.
  - auto with js.
  - intros k' i2. rewrite jm_get_set. case_decide as Hk; [|by eauto]. intros. simplify_eq.
    destruct (I k i Hi) as (<- & ? & d & Hd & ? & ?). rewrite Hl. split_and!; [done|done|]. exists d. by split_and!; [..|apply Hitem].
  - intros k1 k2 i1 i2. rewrite !jm_get_set. case_decide; case_decide; intros; simplify_eq; [done| | |by eauto].
    + eapply (O k k2); [done|done|congruence].
    + eapply (O k1 k); [done|done|congruence].
Qed.

Lemma device_reservation s r :
  device_inv s → granted (dv_calls s) (mr_reservationId r) →
  device_inv (with_store (put_reservations (mr_reservationId r) r (dv_store s)) s).
Proof.
  intros [W1 W2 R D I O] Hg. split; try done; simpl; [auto with js|].
  intros k' r'. rewrite jm_get_set. case_decide; [|by eauto]. intros. by simplify_eq.
Qed.

Lemma inv_put_items f items s :
  (∀ i, same_item i (f i)) →
  device_inv s → (∀ i, i ∈ items → ∃ i0, jm_get (qi_queueItemId i) (c_queue (dv_store s)) = Some i0 ∧ same_item i0 i) →
  device_inv (with_store (put_items f items (dv_store s)) s).
Proof.
  intros Hf. unfold put_items. revert s. induction items as [|i items IH]; intros s Hs Hin; cbn [foldl]; [by destruct s|].
  destruct (Hin i ltac:(by left)) as (i0 & Hi0 & (A1 & A2 & A3)). destruct (Hf i) as (B1 & B2 & B3).
  assert (device_inv (with_store (put_queue (qi_queueItemId i) (f i) (dv_store s)) s)) as Hs1.
  { eapply inv_update_item; [done|exact Hi0|]. split_and!; [congruence|congruence|]. intros d. by rewrite A3. }
  specialize (IH _ Hs1). apply IH. intros j Hj. destruct (Hin j ltac:(by right)) as (j0 & Hj0 & Hsame). simpl.
  rewrite jm_get_set. case_decide as Hk; [|eauto]. exists (f i). split; [done|]. rewrite Hk, Hi0 in Hj0. simplify_eq.
  destruct Hsame as (C1 & C2 & C3). split_and!; [congruence|congruence|].
  intros d. by rewrite <- C3, <- B3, A3.
Qed.

(** ** Every operation keeps the invariant *)

Section preservation.
Context (ids_inj : ∀ n m p q, ids n p = ids m q → n = m)
        (hash_nonempty : ∀ x, nonempty (contentHash x) = true).

Lemma fresh_draft s p : device_inv s → jm_get (ids (dv_ids s) p) (c_drafts (dv_store s)) = None.
Proof using ids_inj.
  intros Hs. destruct (jm_get _ _) as [d|] eqn:Hd; [|done]. destruct (di_draft _ Hs _ _ Hd) as (_ & (n & q & Hn & He) & _).
  apply ids_inj in He. lia.
Qed.
Lemma fresh_item s p : device_inv s → jm_get (ids (dv_ids s) p) (c_queue (dv_store s)) = None.
Proof using ids_inj.
  intros Hs. destruct (jm_get _ _) as [d|] eqn:Hd; [|done]. destruct (di_item _ Hs _ _ Hd) as (_ & (n & q & Hn & He) & _).
  apply ids_inj in He. lia.
Qed.

(** Other counters. *)
Lemma inv_counters s clk i c :
  device_inv s → (dv_ids s ≤ i)%nat → (dv_calls s ≤ c)%nat → device_inv (Build_Device (dv_store s) clk i c).
Proof. intros. by eapply (device_frame s). Qed.

Lemma inv_createDraft input s : device_inv s → device_inv (createDraft input s).2.
Proof using ids_inj.
  intros Hs. unfold MobileRuntime.createDraft. unfold mbind at 1, js_bind at 1. unfold requireSession, requireNormativePackage.
  js_unfold. unfold store, getf. destruct (jm_get "active" (c_session (dv_store s))) as [ses|]; [|done].
  destruct (jm_get "active" (c_package (dv_store s))) as [pkg|]; [|done].
  pose proof (consume_spec (ci_entityType input) (ci_reservedNumber input) s) as Hc. cbv zeta in Hc.
  destruct (consumeReservationNumber clock _ _ s) as [o s1]. simpl in Hc. destruct Hc as (Hc & Hids & Hcalls).
  destruct Hc as [(-> & Hst & Hnone)|(r & k & -> & Hin & Hu & Hst)].
  { simpl. by eapply (device_frame s); rewrite ?Hst, ?Hids, ?Hcalls. }
  cbn [fst snd]. unfold draftWithNumber. js_unfold. unfold MobileRuntime.now, uuid, put, modify. cbn [dv_store dv_ids dv_calls].
  assert (device_inv s1) as Hs1.
  { apply jm_values_get in Hin as [key Hkey]; [|apply Hs]. destruct (di_res _ Hs _ _ Hkey) as [Hid Hg].
    pose proof (device_reservation s (consumed r) Hs) as Hi. cbn [consumed set_mr_next mr_reservationId] in Hi.
    rewrite <- Hid in Hg. specialize (Hi Hg). eapply (device_frame _ s1) in Hi; simpl in *; rewrite ?Hst, ?Hids, ?Hcalls; done. }
  set (s2 := Build_Device (dv_store s1) (S (dv_clock s1)) (S (S (dv_ids s1))) (dv_calls s1)).
  assert (device_inv s2) as Hs2 by (apply inv_counters; [done|lia|lia]).
  apply (inv_new_draft s2); [done| |done| |by left].
  - by apply (fresh_draft s1).
  - exists (dv_ids s1), (mo_draftIdPrefix options). simpl. split; [lia|done].
Qed.

Lemma inv_attach id e s : device_inv s → device_inv (attachEvidence clock id e s).2.
Proof.
  intros Hs. unfold attachEvidence, requireDraft. js_unfold. destruct (_ || _ || _); [done|]. unfold store, getf.
  destruct (jm_get id (c_drafts (dv_store s))) as [d|] eqn:Hd; [|done].
  unfold MobileRuntime.now, put, modify. cbn [fst snd dv_store dv_clock dv_ids dv_calls].
  set (s1 := Build_Device (put_evidence (ev_localEvidenceId e) (link id e) (dv_store s)) (S (dv_clock s)) (dv_ids s) (dv_calls s)).
  assert (device_inv s1) as Hs1 by by eapply (device_frame s).
  pose proof (di_draft _ Hs _ _ Hd) as (Hid & _ & Hgood).
  apply (inv_update_draft s1 id d); [done|done|done| |by intros ?; split].
  destruct Hgood as [[H1 H2]|(H1 & H2 & H3)]; [by left|right]. split_and!; [done|done|].
  eapply offline_ext; [exact H3|try done..|].
  - simpl. unfold assertOfflineInvariant in H3. destruct (nonempty (md_localContentHash d)); [done|].
    by rewrite andb_false_r in H3.
  - simpl. intros _ Hnil. by apply app_nil in Hnil as [_ ?].
Qed.

Lemma inv_finalize id s : device_inv s → device_inv (finalizeOffline id s).2.
Proof using hash_nonempty.
  intros Hs. unfold MobileRuntime.finalizeOffline, requireDraft. js_unfold. unfold store, getf.
  destruct (jm_get id (c_drafts (dv_store s))) as [d|] eqn:Hd; [|done].
  destruct (bool_decide (md_status d = ld_draft)) eqn:Hst; [|done]. apply bool_decide_eq_true in Hst. simpl.
  destruct (assertOfflineInvariant options d) as [[]|e] eqn:Ha; [|done].
  unfold MobileRuntime.now, put, modify. cbn [fst snd dv_store dv_clock dv_ids dv_calls].
  apply (inv_update_draft (Build_Device (dv_store s) (S (S (dv_clock s))) (dv_ids s) (dv_calls s)) id d);
    [by eapply (device_frame s)|done|done| |].
  - right. split_and!; [by left|simpl; eauto|]. eapply offline_ext; [exact Ha|done|done|apply hash_nonempty|done..].
  - intros [?|?]; congruence.
Qed.

Lemma inv_enqueue id s : device_inv s → device_inv (enqueue id s).2.
Proof using ids_inj.
  intros Hs. unfold MobileRuntime.enqueue, requireDraft. js_unfold. unfold store, getf.
  destruct (jm_get id (c_drafts (dv_store s))) as [d|] eqn:Hd; [|done].
  destruct (bool_decide (md_status d = ld_finalized)) eqn:Hst; [|done]. apply bool_decide_eq_true in Hst. simpl.
  pose proof (di_draft _ Hs _ _ Hd) as (Hid & Hk & Hgood).
  set (d' := patch_draft _ _ _ _ _ d). set (item := Build_MobileSyncQueueItem _ _ _ _ _ _ _ _ _ _ _ _ _ _ _ _ _).
  set (s0 := Build_Device (dv_store s) (S (dv_clock s)) (S (dv_ids s)) (dv_calls s)).
  assert (device_inv s0) as Hs0 by (apply inv_counters; [done|lia|lia]).
  assert (good_draft d') as Hg'.
  { right. destruct Hgood as [[H1 _]|(_ & H2 & H3)]; [congruence|]. split_and!; [by right; left|done|].
    eapply offline_ext; [exact H3|done|done| |done..]. unfold assertOfflineInvariant in H3. simpl.
    destruct (nonempty (md_localContentHash d)); [done|]. by rewrite andb_false_r in H3. }
  assert (device_inv (with_store (put_drafts id d' (dv_store s0)) s0)) as Hs1.
  { apply (inv_update_draft s0 id d); [done|done|done|done|]. intros [?|?]; congruence. }
  pose proof (fresh_item s "sync-item" Hs) as Hfresh.
  destruct Hs1 as [W1 W2 R D I O]. split; simpl in *; try done.
  - auto with js.
  - intros k i. rewrite jm_get_set. case_decide as Hki; [|by apply I]. intros He. injection He as <-. subst k.
    split_and!; [done|exists (dv_ids s), "sync-item"; split; [lia|done]|]. exists d'. simpl. rewrite Hid, jm_get_set_eq.
    split_and!; [done|by left|]. by split_and!.
  - assert (∀ k i, jm_get k (c_queue (dv_store s)) = Some i → qi_localEntityId i ≠ md_localId d) as Hnew.
    { intros k i Hi He. destruct (di_item _ Hs _ _ Hi) as (_ & _ & d2 & Hd2 & [Ho|Ho] & _); rewrite He, Hid in Hd2; congruence. }
    intros k k' i i'. rewrite !jm_get_set. case_decide; case_decide; intros Hi Hi' He; simplify_eq; [done| | |by eauto].
    + by destruct (Hnew _ _ Hi').
    + by destruct (Hnew _ _ Hi).
Qed.

Lemma same_sent t i : same_item i (set_qi_sent t i).
Proof. by split_and!. Qed.
Lemma same_status st i : same_item i (set_qi_status st i).
Proof. by split_and!. Qed.
Lemma same_trans i j k : same_item i j → same_item j k → same_item i k.
Proof. intros (A1 & A2 & A3) (B1 & B2 & B3). split_and!; [congruence|congruence|]. intros d. by rewrite A3. Qed.

(** Every item the queue lists is stored under its id. *)
Lemma listed_item s i : device_inv s → i ∈ jm_values (c_queue (dv_store s)) →
  jm_get (qi_queueItemId i) (c_queue (dv_store s)) = Some i.
Proof.
  intros Hs Hin. apply jm_values_get in Hin as [k Hk]; [|apply Hs]. by destruct (di_item _ Hs _ _ Hk) as (-> & _).
Qed.

(** ** Submitting *)

Definition pending_items (s : Device) : list MobileSyncQueueItem :=
  List.filter (λ item, bool_decide (qi_status item = sq_pending)) (jm_values (c_queue (dv_store s))).

Lemma pending_elem s i : i ∈ pending_items s ↔ i ∈ jm_values (c_queue (dv_store s)) ∧ qi_status i = sq_pending.
Proof.
  unfold pending_items. rewrite list_elem_of_In, filter_In, <- list_elem_of_In, bool_decide_eq_true. done.
Qed.

Lemma pending_nodup s : device_inv s → NoDup (qi_queueItemId <$> pending_items s).
Proof.
  intros Hs. apply NoDup_fmap_filter. rewrite jm_values_keys; [apply Hs|apply Hs|].
  intros k i Hi. by destruct (di_item _ Hs _ _ Hi).
Qed.

(** [put_items] writes the items' places and nothing else. *)
Lemma put_items_get f items c k :
  (∀ i, qi_queueItemId (f i) = qi_queueItemId i) → NoDup (qi_queueItemId <$> items) →
  (∀ i, i ∈ items → qi_queueItemId i = k → jm_get k (c_queue (put_items f items c)) = Some (f i)) ∧
  ((∀ i, i ∈ items → qi_queueItemId i ≠ k) → jm_get k (c_queue (put_items f items c)) = jm_get k (c_queue c)).
Proof.
  intros Hf. unfold put_items. revert c. induction items as [|i items IH]; intros c Hnd; cbn [foldl].
  { split; [|done]. intros i Hi. by apply elem_of_nil in Hi. }
  rewrite fmap_cons in Hnd. apply NoDup_cons in Hnd as [Hni Hnd]. destruct (IH (put_queue (qi_queueItemId i) (f i) c) Hnd) as [IH1 IH2].
  split.
  - intros j [->|Hj]%elem_of_cons Hk; [|by apply IH1]. rewrite IH2.
    + simpl. by rewrite Hk, jm_get_set_eq.
    + intros j' Hj' He. apply Hni. rewrite Hk, <- He. by apply list_elem_of_fmap_2.
  - intros Hne. rewrite IH2 by (intros; apply Hne; by right). simpl. rewrite jm_get_set_ne; [done|].
    intros ->. by destruct (Hne i ltac:(by left)).
Qed.

Lemma put_items_other f items c :
  c_drafts (put_items f items c) = c_drafts c ∧ c_reservations (put_items f items c) = c_reservations c ∧
  c_session (put_items f items c) = c_session c.
Proof.
  unfold put_items. revert c. induction items as [|i items IH]; intros c; cbn [foldl]; [done|].
  by destruct (IH (put_queue (qi_queueItemId i) (f i) c)) as (-> & -> & ->).
Qed.

(** The queue after the pending items were marked and then settled by [g]. *)
Definition settled (g : MobileSyncQueueItem → MobileSyncQueueItem) (t : string) (s : Device) (c : Collections) : Prop :=
  (∀ k, jm_get k (c_queue c) =
     (λ i, if bool_decide (qi_status i = sq_pending) then g (set_qi_sent t i) else i) <$> jm_get k (c_queue (dv_store s))) ∧
  c_drafts c = c_drafts (dv_store s) ∧ c_reservations c = c_reservations (dv_store s) ∧
  c_session c = c_session (dv_store s).

Lemma settled_put g t s :
  device_inv s → (∀ i, qi_queueItemId (g i) = qi_queueItemId i) →
  settled g t s (put_items g (set_qi_sent t <$> pending_items s)
                  (put_items id (set_qi_sent t <$> pending_items s) (dv_store s))).
Proof.
  intros Hs Hg. set (marked := set_qi_sent t <$> pending_items s).
  assert (NoDup (qi_queueItemId <$> marked)) as Hnd.
  { unfold marked. rewrite <- list_fmap_compose. exact (pending_nodup s Hs). }
  unfold settled. destruct (put_items_other g marked (put_items id marked (dv_store s))) as (-> & -> & ->).
  destruct (put_items_other id marked (dv_store s)) as (-> & -> & ->). split; [|done]. intros k.
  destruct (put_items_get g marked (put_items id marked (dv_store s)) k Hg Hnd) as [H1 H2].
  destruct (put_items_get id marked (dv_store s) k ltac:(done) Hnd) as [_ H4].
  destruct (jm_get k (c_queue (dv_store s))) as [i|] eqn:Hi; simpl.
  - pose proof (di_item _ Hs _ _ Hi) as (Hid & _). case_bool_decide as Hp.
    + apply H1; [|done]. apply list_elem_of_fmap_2, pending_elem. split; [by eapply jm_get_values|done].
    + assert (∀ j, j ∈ marked → qi_queueItemId j ≠ k) as Hne; [|by rewrite H2, H4].
      intros j (j0 & -> & [Hj Hjp]%pending_elem)%list_elem_of_fmap He. apply listed_item in Hj; [|done].
      simpl in He. rewrite He, Hi in Hj. simplify_eq.
  - assert (∀ j, j ∈ marked → qi_queueItemId j ≠ k) as Hne; [|by rewrite H2, H4].
    intros j (j0 & -> & [Hj Hjp]%pending_elem)%list_elem_of_fmap He. apply listed_item in Hj; [|done].
    simpl in He. congruence.
Qed.

Lemma inv_settled g t s :
  device_inv s → (∀ i, same_item i (g i)) →
  device_inv (with_store (put_items g (set_qi_sent t <$> pending_items s)
                           (put_items id (set_qi_sent t <$> pending_items s) (dv_store s))) s).
Proof.
  intros Hs Hg.
  assert (∀ i, i ∈ set_qi_sent t <$> pending_items s →
            ∃ i0, jm_get (qi_queueItemId i) (c_queue (dv_store s)) = Some i0 ∧ same_item i0 i) as Hin.
  { intros i (i0 & -> & [Hi _]%pending_elem)%list_elem_of_fmap. exists i0. split; [exact (listed_item s i0 Hs Hi)|by split_and!]. }
  assert (device_inv (with_store (put_items id (set_qi_sent t <$> pending_items s) (dv_store s)) s)) as Hs1
    by (apply inv_put_items; [by intros i; split_and!|done|done]).
  apply (inv_put_items g _ _ Hg Hs1). simpl. intros i Hi. pose proof Hi as (i0 & -> & Hp)%list_elem_of_fmap.
  exists (set_qi_sent t i0). split; [|by split_and!].
  refine (proj1 (put_items_get id _ (dv_store s) _ _ _) _ Hi eq_refl); [done|].
  rewrite <- list_fmap_compose. exact (pending_nodup s Hs).
Qed.

(** What the queue item becomes when the batch was answered. *)
Definition answered (result : MobileSyncBatchResult) (item : MobileSyncQueueItem) : MobileSyncQueueItem :=
  set_qi_status (if bool_decide (qi_queueItemId item ∈ br_conflicts result) then sq_conflict else sq_received) item.

Lemma submit_spec s session :
  jm_get "active" (c_session (dv_store s)) = Some session →
  let t := clock (dv_clock s) in
  let marked := set_qi_sent t <$> pending_items s in
  let request := {| bq_tenantId := ms_tenantId session; bq_orgUnitId := ms_orgUnitId session;
                    bq_agentId := ms_agentId session; bq_deviceId := ms_deviceId session;
                    bq_deviceBatchId := ids (dv_ids s) "device-batch"; bq_items := marked |} in
  submitPendingQueue s =
  match pending_items s with
  | [] => (Ok {| br_batchId := "empty"; br_acceptedItems := 0; br_conflicts := [] |}, s)
  | _ =>
      let reply := backendSubmit (dv_calls s) request in
      let g := match reply with Ok result => answered result | Throw _ => set_qi_status sq_pending end in
      (reply, Build_Device (put_items g marked (put_items id marked (dv_store s)))
                (S (dv_clock s)) (S (dv_ids s)) (S (dv_calls s)))
  end.
Proof.
  intros Hses. cbv zeta. unfold MobileRuntime.submitPendingQueue, requireSession. js_unfold. unfold store, getf. rewrite Hses.
  unfold pending_items. destruct (List.filter _ _) as [|i l]; [done|].
  unfold MobileRuntime.now, uuid, call, put, modify. cbn [fst snd dv_store dv_clock dv_ids dv_calls].
  by destruct (backendSubmit _ _).
Qed.

Lemma inv_submit s : device_inv s → device_inv (submitPendingQueue s).2.
Proof.
  intros Hs. destruct (jm_get "active" (c_session (dv_store s))) as [session|] eqn:Hses.
  2:{ unfold MobileRuntime.submitPendingQueue, requireSession. js_unfold. unfold store, getf. by rewrite Hses. }
  rewrite (submit_spec s session Hses). cbv zeta. destruct (pending_items s) as [|i l] eqn:Hp; [done|]. rewrite <- Hp. cbn [snd].
  match goal with |- device_inv (Build_Device (put_items ?g _ _) _ _ _) => assert (∀ i, same_item i (g i)) as Hg
    by (intros j; destruct (backendSubmit _ _); apply same_status) end.
  eapply (device_frame _ _ (inv_settled _ (clock (dv_clock s)) s Hs Hg)); simpl; (lia || done).
Qed.

Lemma inv_resolve id r s : device_inv s → device_inv (resolveSimpleConflict clock backendResolve id r s).2.
Proof.
  intros Hs. unfold resolveSimpleConflict, requireSession. js_unfold. unfold store, getf.
  destruct (jm_get "active" (c_session (dv_store s))) as [session|]; [|done].
  destruct (jm_get id (c_queue (dv_store s))) as [item|] eqn:Hi; [|done].
  destruct (negb _); [done|]. unfold call.
  destruct (backendResolve _ _) as [res|e]; [|by apply inv_counters; [done|lia|simpl; lia]].
  unfold put, modify. cbn [fst snd dv_store dv_clock dv_ids dv_calls c_drafts put_queue put_resolutions].
  pose proof (di_item _ Hs _ _ Hi) as (Hid & _ & d & Hd & Ho & Hitem). rewrite Hd.
  pose proof (di_draft _ Hs _ _ Hd) as (Hdid & _ & Hgood).
  unfold MobileRuntime.now. cbn [fst snd dv_store dv_clock dv_ids dv_calls].
  rewrite Hid, Hdid.
  assert (device_inv (with_store (put_queue id (set_qi_status sq_applied item) (dv_store s)) s)) as Hs1
    by (eapply inv_update_item; [done|exact Hi|apply same_status]).
  pose proof (inv_update_draft _ (qi_localEntityId item) d
    (patch_draft ld_synced (md_localContentHash d) (md_evidence d) (md_finalizedAt d) (clock (dv_clock s)) d) Hs1 Hd eq_refl) as Hs2.
  eapply (device_frame _ _ (Hs2 _ _)); simpl; lia || done.
  Unshelve.
  - right. destruct Hgood as [[Hst _]|(_ & H2 & H3)]; [destruct Ho; congruence|]. split_and!; [right; by right|done|].
    eapply offline_ext; [exact H3|done|done| |done..]. unfold assertOfflineInvariant in H3. simpl.
    destruct (nonempty (md_localContentHash d)); [done|]. by rewrite andb_false_r in H3.
  - intros _. split; [by right|done].
Qed.

Lemma inv_reserve input s : device_inv s → device_inv (reserveNumbering backendReserve input s).2.
Proof.
  intros Hs. unfold reserveNumbering, requireSession. js_unfold. unfold store, getf.
  destruct (jm_get "active" (c_session (dv_store s))) as [session|]; [|done].
  unfold call. destruct (backendReserve _ _) as [res|e] eqn:Hb; [|by apply inv_counters; [done|lia|simpl; lia]].
  destruct (negb _); [by apply inv_counters; [done|lia|simpl; lia]|].
  unfold put, modify. cbn [fst snd dv_store dv_clock dv_ids dv_calls].
  apply (device_reservation (Build_Device (dv_store s) (dv_clock s) (dv_ids s) (S (dv_calls s)))).
  - by apply inv_counters; [done|lia|simpl; lia].
  - simpl. eexists (dv_calls s), _, res. split_and!; [lia|exact Hb|done].
Qed.

Lemma inv_wipe reason s : device_inv s → device_inv (applyRemoteWipe clock ids reason s).2.
Proof. intros Hs. split; simpl; try done; constructor. Qed.

Lemma run_op_inv op s : device_inv s → device_inv (run_op op s).2.
Proof using ids_inj hash_nonempty.
  assert (∀ {A} (m : Mobile A) s, device_inv (m s).2 → device_inv (((λ _ : A, ()) <$> m) s).2) as Hmap.
  { intros A m s'. unfold fmap, js_fmap. by destruct (m s') as [[?|?] ?]. }
  intros Hs. destruct op; simpl; try apply Hmap.
  - unfold bootstrapSession. js_unfold. destruct (bool_decide _); [done|]. destruct (_ || _); [done|].
    by eapply (device_frame s).
  - unfold installPublishedNormativePackage. js_unfold. unfold call.
    destruct (fetchPackage _) as [p|e]; [|by apply inv_counters; [done|lia|simpl; lia]].
    destruct (negb _); [by apply inv_counters; [done|lia|simpl; lia]|]. unfold MobileRuntime.now. cbn [fst snd dv_store dv_clock dv_ids dv_calls].
    destruct (match date_parse _ with Some _ => _ | None => _ end);
      [by apply inv_counters; [done|lia|simpl; lia]|]. eapply (device_frame s); simpl; lia || done.
  - by apply inv_reserve.
  - by apply inv_createDraft.
  - by apply inv_attach.
  - by apply inv_finalize.
  - by apply inv_enqueue.
  - by apply inv_submit.
  - by apply inv_resolve.
  - unfold printReceipt. destruct printer as [print|]; [|done]. unfold requireSession, requireDraft. js_unfold. unfold store, getf.
    destruct (jm_get "active" (c_session (dv_store s))) as [session|]; [|done].
    destruct (jm_get localEntityId (c_drafts (dv_store s))) as [d|]; [|done]. destruct (negb _); [done|]. unfold call.
    destruct (print _ _) as [rc|e]; [|by apply inv_counters; [done|lia|simpl; lia]]. eapply (device_frame s); simpl; lia || done.
  - by apply inv_wipe.
Qed.

Lemma device_run_inv ops s : device_inv s → device_inv (run_ops ops s).
Proof using ids_inj hash_nonempty.
  unfold MobileRuntime.run_ops. revert s. induction ops as [|op ops IH]; intros s Hs; [done|]. by apply IH, run_op_inv.
Qed.

(** ** Operations that leave the reservations alone *)

(** [m] keeps the collection of reservations and never turns a counter back. *)
Definition quiet {A} (m : Mobile A) : Prop := ∀ s,
  c_reservations (dv_store (m s).2) = c_reservations (dv_store s) ∧
  (dv_ids s ≤ dv_ids (m s).2)%nat ∧ (dv_calls s ≤ dv_calls (m s).2)%nat.

Lemma quiet_bind {A B} (m : Mobile A) (f : A → Mobile B) : quiet m → (∀ a, quiet (f a)) → quiet (m ≫= f).
Proof.
  intros Hm Hf s. specialize (Hm s). unfold mbind, js_bind. destruct (m s) as [[a|e] s1]; [|done].
  destruct (Hf a s1) as (H1 & H2 & H3). simpl in Hm. destruct Hm as (G1 & G2 & G3). rewrite H1, G1. split_and!; [done|lia|lia].
Qed.
Lemma quiet_fmap {A B} (g : A → B) (m : Mobile A) : quiet m → quiet (g <$> m).
Proof. intros Hm s. specialize (Hm s). unfold fmap, js_fmap. by destruct (m s) as [[?|?] ?]. Qed.
Lemma quiet_ret {A} (a : A) : quiet (mret a).
Proof. by intros s. Qed.
Lemma quiet_throw {A} e : quiet (throw e : Mobile A).
Proof. by intros s. Qed.
Lemma quiet_lift {A} (o : outcome MobileError A) : quiet (lift o).
Proof. by intros s. Qed.
Lemma quiet_throw_if c e : quiet (throw_if c e : Mobile ()).
Proof. intros s. by destruct c. Qed.
Lemma quiet_store {A} (g : Collections → A) : quiet (store g).
Proof. by intros s. Qed.
Lemma quiet_now : quiet (MobileRuntime.now clock).
Proof. by intros s. Qed.
Lemma quiet_uuid p : quiet (uuid ids p).
Proof. intros s. simpl. split_and!; [done|lia|done]. Qed.
Lemma quiet_call {A} (g : nat → outcome MobileError A) : quiet (call g).
Proof. intros s. simpl. split_and!; [done|done|lia]. Qed.
Lemma quiet_put (g : Collections → Collections) : (∀ c, c_reservations (g c) = c_reservations c) → quiet (put g).
Proof. intros Hg s. simpl. by rewrite Hg. Qed.
Lemma quiet_put_items g l : quiet (put (put_items g l)).
Proof. apply quiet_put. intros c. apply put_items_other. Qed.
Lemma quiet_requireSession : quiet requireSession.
Proof. unfold requireSession. apply quiet_bind; [apply quiet_store|intros [?|]]; [apply quiet_ret|apply quiet_throw]. Qed.
Lemma quiet_requireDraft id : quiet (requireDraft id).
Proof. unfold requireDraft. apply quiet_bind; [apply quiet_store|intros [?|]]; [apply quiet_ret|apply quiet_throw]. Qed.

#[local] Hint Resolve quiet_ret quiet_throw quiet_lift quiet_throw_if quiet_store quiet_now quiet_uuid quiet_call
  quiet_put_items quiet_requireSession quiet_requireDraft : mobile.
Ltac quiet :=
  repeat first
    [ solve [auto with mobile]
    | match goal with
      | |- quiet (put _) => apply quiet_put; intros; reflexivity
      | |- quiet (_ <$> _) => apply quiet_fmap
      | |- quiet (_ ≫= _) => apply quiet_bind; [|intros]
      | |- quiet (match ?x with _ => _ end) => destruct x
      end ].

(** Only drafting, reserving and wiping touch the reservations. *)
Definition touches_reservations (op : MobileOp) : bool :=
  match op with OpReserve _ | OpCreateDraft _ | OpWipe _ => true | _ => false end.

Lemma run_op_quiet op : touches_reservations op = false → quiet (run_op op).
Proof.
  destruct op; try done; intros _; simpl.
  - unfold bootstrapSession. quiet.
  - unfold installPublishedNormativePackage. quiet.
  - unfold attachEvidence. quiet.
  - unfold MobileRuntime.finalizeOffline. quiet.
  - unfold MobileRuntime.enqueue. quiet.
  - unfold MobileRuntime.submitPendingQueue. quiet.
  - unfold resolveSimpleConflict. quiet.
  - unfold printReceipt. destruct printer; quiet.
Qed.

(** ** Drafting *)

(** The draft [createDraft] builds. *)
Definition drafted (input : CreateMobileDraftInput) (s : Device) (r : MobileNumberingReservation)
    (d : MobileEntityDraft) : Prop :=
  (∃ session package, jm_get "active" (c_session (dv_store s)) = Some session ∧
     jm_get "active" (c_package (dv_store s)) = Some package ∧
     md_tenantId d = ms_tenantId session ∧ md_agentId d = ms_agentId session ∧ md_deviceId d = ms_deviceId session ∧
     md_normativePackageId d = np_packageId package) ∧
  r ∈ jm_values (c_reservations (dv_store s)) ∧ (∃ k, usable (ci_entityType input) (ci_reservedNumber input) (clock k) r) ∧
  md_entityType d = ci_entityType input ∧ md_status d = ld_draft ∧
  md_reservationId d = mr_reservationId r ∧ md_reservedNumber d = mr_nextNumber r ∧
  md_localId d = ids (dv_ids s) (mo_draftIdPrefix options) ∧ md_idempotencyKey d = ids (S (dv_ids s)) "idem".

Lemma createDraft_spec input s :
  (∃ e s', createDraft input s = (Throw e, s') ∧ dv_store s' = dv_store s ∧ dv_ids s' = dv_ids s ∧ dv_calls s' = dv_calls s ∧
     match e with
     | NoSession => jm_get "active" (c_session (dv_store s)) = None
     | NoPackage => jm_get "active" (c_package (dv_store s)) = None
     | NoUsableReservation => ∀ r, r ∈ jm_values (c_reservations (dv_store s)) →
         ∃ k, ¬ usable (ci_entityType input) (ci_reservedNumber input) (clock k) r
     | _ => False
     end) ∨
  ∃ d s' r, createDraft input s = (Ok d, s') ∧ drafted input s r d ∧
    dv_store s' = put_drafts (md_localId d) d (put_reservations (mr_reservationId r) (consumed r) (dv_store s)) ∧
    dv_ids s' = S (S (dv_ids s)) ∧ dv_calls s' = dv_calls s.
Proof.
  unfold MobileRuntime.createDraft, requireSession, requireNormativePackage. js_unfold. unfold store, getf.
  destruct (jm_get "active" (c_session (dv_store s))) as [session|] eqn:Hses; [|left; eexists NoSession, _; by split_and!].
  destruct (jm_get "active" (c_package (dv_store s))) as [package|] eqn:Hpkg; [|left; eexists NoPackage, _; by split_and!].
  pose proof (consume_spec (ci_entityType input) (ci_reservedNumber input) s) as Hc. cbv zeta in Hc.
  destruct (consumeReservationNumber clock _ _ s) as [o s1]. simpl in Hc. destruct Hc as (Hc & Hids & Hcalls).
  destruct Hc as [(-> & Hst & Hnone)|(r & k & -> & Hin & Hu & Hst)]; [left; eexists NoUsableReservation, _; by split_and!|right].
  unfold draftWithNumber. js_unfold.
  unfold MobileRuntime.now, uuid, put, modify. cbn [fst snd dv_store dv_clock dv_ids dv_calls].
  do 2 eexists. exists r. split; [done|]. split; [|simpl; rewrite Hst, Hids, Hcalls; done].
  split; [by exists session, package|]. simpl. rewrite !Hids. split_and!; try done. by exists k.
Qed.

(** ** Issued numbers *)

Definition created_by (op : MobileOp) (s : Device) : list MobileEntityDraft :=
  match op with
  | OpCreateDraft i => match (createDraft i s).1 with Ok d => [d] | Throw _ => [] end
  | _ => []
  end.
(** A number was given out, at [s], by a reservation granted before, below its next number;
    ids and keys were drawn before. *)
Record issued (s : Device) (d : MobileEntityDraft) : Prop := {
  is_granted : granted (dv_calls s) (md_reservationId d);
  is_below r : jm_get (md_reservationId d) (c_reservations (dv_store s)) = Some r → md_reservedNumber d < mr_nextNumber r;
  is_drawn : ∃ n m, (n < dv_ids s)%nat ∧ (m < dv_ids s)%nat ∧
    md_localId d = ids n (mo_draftIdPrefix options) ∧ md_idempotencyKey d = ids m "idem" }.

(** Two drafts that share neither number nor names. *)
Definition apart (d d' : MobileEntityDraft) : Prop :=
  (md_reservationId d, md_reservedNumber d) ≠ (md_reservationId d', md_reservedNumber d') ∧
  md_localId d ≠ md_localId d' ∧ md_idempotencyKey d ≠ md_idempotencyKey d'.

Context (grant_fresh : ∀ n m q q' r r', backendReserve n q = Ok r → backendReserve m q' = Ok r' → n ≠ m →
           mr_reservationId r ≠ mr_reservationId r').

Lemma issued_mono s s' d :
  issued s d → (dv_ids s ≤ dv_ids s')%nat → (dv_calls s ≤ dv_calls s')%nat →
  (∀ r, jm_get (md_reservationId d) (c_reservations (dv_store s')) = Some r →
        ∃ r0, jm_get (md_reservationId d) (c_reservations (dv_store s)) = Some r0 ∧ mr_nextNumber r0 ≤ mr_nextNumber r) →
  issued s' d.
Proof.
  intros [(k & q & r & Hk & Hr & Hid) B (n & m & Hn & Hm & H1 & H2)] Hids Hcalls Hres. split.
  - exists k, q, r. split_and!; [lia|done..].
  - intros r' Hr'. destruct (Hres r' Hr') as (r0 & Hr0 & Hle). specialize (B r0 Hr0). lia.
  - exists n, m. split_and!; [lia|lia|done..].
Qed.

Lemma createDraft_issued input s d s' :
  device_inv s → createDraft input s = (Ok d, s') →
  issued s' d ∧ ∀ d0, issued s d0 → issued s' d0 ∧ apart d0 d.
Proof using ids_inj.
  intros Hs Hrun. destruct (createDraft_spec input s) as [(e & s1 & He & _)|(d1 & s1 & r & He & Hd & Hst & Hids & Hcalls)];
    [congruence|]. rewrite Hrun in He. injection He as <- <-.
  destruct Hd as (_ & Hin & _ & _ & _ & Hrid & Hnum & Hlid & Hkey).
  apply jm_values_get in Hin as [k Hk]; [|apply Hs]. destruct (di_res _ Hs _ _ Hk) as [Hid Hg]. subst k.
  assert (c_reservations (dv_store s') = jm_set (mr_reservationId r) (consumed r) (c_reservations (dv_store s))) as Hr
    by by rewrite Hst.
  split.
  - split.
    + by rewrite Hrid, Hcalls.
    + rewrite Hrid, Hr, jm_get_set_eq, Hnum. intros r' Hr'. injection Hr' as <-. simpl. lia.
    + rewrite Hlid, Hkey, Hids. exists (dv_ids s), (S (dv_ids s)). split_and!; [lia|lia|done..].
  - intros d0 [G0 B0 (n & m & Hn & Hm & H1 & H2)]. split.
    + apply (issued_mono s); [by split; eauto 10|lia|lia|]. intros r'. rewrite Hr, jm_get_set.
      case_decide as Hc; [|eauto with lia]. intros Hr'. injection Hr' as <-. rewrite Hc. exists r. simpl. split; [done|lia].
    + split_and!.
      * intros He. injection He as He1 He2. rewrite He1, Hrid in B0. specialize (B0 r Hk). lia.
      * rewrite H1, Hlid. intros He. apply ids_inj in He. lia.
      * rewrite H2, Hkey. intros He. apply ids_inj in He. lia.
Qed.

(** Operations other than drafting keep what was issued. *)
Lemma run_op_issued op s d :
  (∀ i, op ≠ OpCreateDraft i) → issued s d → issued (run_op op s).2 d.
Proof using grant_fresh.
  intros Hop Hd. destruct (touches_reservations op) eqn:Ht.
  2:{ destruct (run_op_quiet op Ht s) as (Hr & Hi & Hc). apply (issued_mono s); [done|done|done|].
      rewrite Hr. intros r Hr'. exists r. split; [done|lia]. }
  destruct op as [| |i|i| | | | | | |reason]; try done; [|by destruct (Hop i)|].
  - simpl. unfold reserveNumbering, requireSession. js_unfold. unfold store, getf.
    destruct (jm_get "active" (c_session (dv_store s))) as [session|]; [|done].
    unfold call. destruct (backendReserve (dv_calls s) _) as [res|e] eqn:Hb;
      [|apply (issued_mono s); simpl; [done|lia|lia|eauto with lia]].
    destruct (negb _); [apply (issued_mono s); simpl; [done|lia|lia|eauto with lia]|].
    unfold put, modify. cbn [fst snd dv_store dv_clock dv_ids dv_calls].
    apply (issued_mono s); simpl; [done|lia|lia|]. intros r. rewrite jm_get_set. case_decide as Hc; [|eauto with lia].
    destruct (is_granted _ _ Hd) as (k & q & r0 & Hk & Hr0 & Hid). exfalso.
    eapply (grant_fresh k (dv_calls s)); [exact Hr0|exact Hb|lia|congruence].
  - apply (issued_mono s); simpl; [done|lia|lia|done].
Qed.

(** ** Drafts that await the store

    Between the choice of a reservation and the [put] of the consumed one [createDraft] awaits the
    store, and other calls of the runtime run. *)

Inductive MobileCall :=
| Whole (op : MobileOp)
| Drafting (input : CreateMobileDraftInput) (meanwhile : list MobileOp).
Definition run_call (c : MobileCall) (s : Device) : option MobileEntityDraft * Device :=
  match c with
  | Whole op => (head (created_by op s), (run_op op s).2)
  | Drafting input meanwhile =>
      match draftUntilChoice clock input s with
      | (Ok chosen, s1) =>
          let '(o, s2) := draftFromChoice options clock ids contentHash input chosen (run_ops meanwhile s1) in
          (match o with Ok d => Some d | Throw _ => None end, s2)
      | (Throw _, s1) => (None, run_ops meanwhile s1)
      end
  end.
Definition run_calls (calls : list MobileCall) (s : Device) : Device := foldl (λ s c, (run_call c s).2) s calls.
(** The drafts the calls return, in order. *)
Fixpoint drafts_of (calls : list MobileCall) (s : Device) : list MobileEntityDraft :=
  match calls with
  | [] => []
  | c :: calls => option_list (run_call c s).1 ++ drafts_of calls (run_call c s).2
  end.
(** No two drafts are being created at a time. *)
Definition drafts_alone (c : MobileCall) : Prop :=
  match c with
  | Whole _ => True
  | Drafting _ meanwhile => Forall (λ op, ∀ i, op ≠ OpCreateDraft i) meanwhile
  end.

Lemma draftUntilChoice_spec input s :
  let m := draftUntilChoice clock input s in
  dv_store m.2 = dv_store s ∧ dv_ids m.2 = dv_ids s ∧ dv_calls m.2 = dv_calls s ∧
  ∀ session package r, m.1 = Ok (session, package, r) → r ∈ jm_values (c_reservations (dv_store s)).
Proof using.
  clear. unfold draftUntilChoice, requireSession, requireNormativePackage, chooseReservation. js_unfold. unfold store, getf.
  destruct (jm_get "active" (c_session (dv_store s))) as [ses|]; [|done].
  destruct (jm_get "active" (c_package (dv_store s))) as [pkg|]; [|done].
  destruct (findReservation_spec (ci_entityType input) (ci_reservedNumber input) (jm_values (c_reservations (dv_store s))) s)
    as (o & n & Hrun & _ & Ho & _).
  rewrite Hrun. destruct o as [r|]; simpl; [|done]. split_and!; [done..|]. intros ? ? r' [= _ _ <-]. by apply Ho.
Qed.
Lemma draftFromChoice_spec input session package r s :
  ∃ d s', draftFromChoice options clock ids contentHash input (session, package, r) s = (Ok d, s') ∧
    md_status d = ld_draft ∧ md_finalizedAt d = None ∧
    md_reservationId d = mr_reservationId r ∧ md_reservedNumber d = mr_nextNumber r ∧
    md_localId d = ids (dv_ids s) (mo_draftIdPrefix options) ∧ md_idempotencyKey d = ids (S (dv_ids s)) "idem" ∧
    dv_store s' = put_drafts (md_localId d) d (put_reservations (mr_reservationId r) (consumed r) (dv_store s)) ∧
    dv_ids s' = S (S (dv_ids s)) ∧ dv_calls s' = dv_calls s.
Proof using.
  clear. unfold draftFromChoice, draftWithNumber. js_unfold. unfold MobileRuntime.now, uuid, put, modify.
  cbn [fst snd dv_store dv_clock dv_ids dv_calls]. do 2 eexists. split; [reflexivity|]. split_and!; done.
Qed.

(** The number of the chosen reservation is above those given out before. *)
Definition above (r : MobileNumberingReservation) (d : MobileEntityDraft) : Prop :=
  md_reservationId d = mr_reservationId r → md_reservedNumber d < mr_nextNumber r.

Lemma draftFromChoice_issued input session package r s d s' :
  device_inv s → granted (dv_calls s) (mr_reservationId r) →
  draftFromChoice options clock ids contentHash input (session, package, r) s = (Ok d, s') →
  device_inv s' ∧ issued s' d ∧ ∀ d0, issued s d0 → above r d0 → issued s' d0 ∧ apart d0 d.
Proof using ids_inj.
  intros Hs Hg Hrun. destruct (draftFromChoice_spec input session package r s)
    as (d1 & s1 & Hrun1 & Hst & Hfin & Hrid & Hnum & Hlid & Hkey & Hstore & Hids & Hcalls).
  rewrite Hrun in Hrun1. injection Hrun1 as <- <-.
  assert (c_reservations (dv_store s') = jm_set (mr_reservationId r) (consumed r) (c_reservations (dv_store s))) as Hr by by rewrite Hstore.
  split; [|split; [split|]].
  - set (s1 := Build_Device (put_reservations (mr_reservationId r) (consumed r) (dv_store s)) (dv_clock s) (dv_ids s) (dv_calls s)).
    assert (device_inv s1) as Hs1 by by apply (device_reservation s (consumed r)).
    set (s2 := Build_Device (dv_store s1) (dv_clock s1) (S (S (dv_ids s1))) (dv_calls s1)).
    assert (device_inv s2) as Hs2 by (apply inv_counters; [done|lia|lia]).
    eapply (device_frame (Build_Device (put_drafts (md_localId d) d (dv_store s2)) (dv_clock s2) (dv_ids s2) (dv_calls s2)));
      [|simpl; lia..|by rewrite Hstore|by rewrite Hstore|by rewrite Hstore].
    apply (inv_new_draft s2); [done| |done| |by left].
    + rewrite Hlid. by apply (fresh_draft s1).
    + exists (dv_ids s), (mo_draftIdPrefix options). simpl. split; [lia|done].
  - by rewrite Hrid, Hcalls.
  - rewrite Hrid, Hr, jm_get_set_eq, Hnum. intros r' [= <-]. simpl. lia.
  - rewrite Hlid, Hkey, Hids. exists (dv_ids s), (S (dv_ids s)). split_and!; [lia|lia|done..].
  - intros d0 [G0 B0 (n & m & Hn & Hm & H1 & H2)] Ha. split.
    + split; [by rewrite Hcalls| |exists n, m; split_and!; [lia|lia|done..]].
      intros r'. rewrite Hr, jm_get_set. case_decide as Hc; [|apply B0]. intros [= <-]. simpl. specialize (Ha Hc). lia.
    + split_and!.
      * rewrite Hrid, Hnum. intros [= He1 He2]. specialize (Ha He1). lia.
      * rewrite H1, Hlid. intros He. apply ids_inj in He. lia.
      * rewrite H2, Hkey. intros He. apply ids_inj in He. lia.
Qed.

Lemma run_ops_issued ops s d : Forall (λ op, ∀ i, op ≠ OpCreateDraft i) ops → issued s d → issued (run_ops ops s) d.
Proof using grant_fresh.
  unfold MobileRuntime.run_ops. intros Hops. revert s. induction Hops as [|op ops Hop _ IH]; intros s Hd; [done|].
  by apply IH, run_op_issued.
Qed.
Lemma run_op_calls op s : (dv_calls s ≤ dv_calls (run_op op s).2)%nat.
Proof using.
  clear. destruct (touches_reservations op) eqn:Ht; [|by apply run_op_quiet].
  destruct op as [| |i|i| | | | | | |reason]; try done; simpl.
  - unfold reserveNumbering, requireSession. js_unfold. unfold store, getf.
    destruct (jm_get "active" (c_session (dv_store s))) as [session|]; [|done].
    unfold call. destruct (backendReserve (dv_calls s) _) as [res|e]; [|simpl; lia]. destruct (negb _); simpl; lia.
  - unfold fmap, js_fmap. destruct (createDraft_spec i s) as [(e & s1 & -> & _ & _ & H & _)|(d & s1 & r & -> & _ & _ & _ & H)]; simpl; lia.
Qed.
Lemma run_ops_calls ops s : (dv_calls s ≤ dv_calls (run_ops ops s))%nat.
Proof using.
  clear. unfold MobileRuntime.run_ops. revert s. induction ops as [|op ops IH]; intros s; [done|].
  etrans; [|apply IH]. apply run_op_calls.
Qed.

(** One call: the state stays sound, what was issued stays issued, and a draft it returns is apart
    from it. *)
Lemma run_call_issued c s :
  device_inv s → drafts_alone c →
  let '(o, s') := run_call c s in
  device_inv s' ∧ (∀ d, o = Some d → issued s' d) ∧
  ∀ d0, issued s d0 → issued s' d0 ∧ ∀ d, o = Some d → apart d0 d.
Proof using grant_fresh ids_inj hash_nonempty.
  intros Hs Hc. destruct c as [op|input meanwhile]; cbn [run_call].
  - split; [by apply run_op_inv|]. destruct op as [| | |i| | | | | | |]; try (split; [done|]; intros d0 Hd0; split; [by apply run_op_issued|done]).
    simpl. destruct (createDraft_spec i s) as [(e & s1 & He & H1 & H2 & H3 & _)|(d1 & s1 & r & He & _)];
      unfold fmap, js_fmap; rewrite He; simpl.
    + split; [done|]. intros d0 Hd0. split; [|done]. apply (issued_mono s); rewrite ?H1, ?H2, ?H3; eauto with lia.
    + destruct (createDraft_issued i s d1 s1 Hs He) as [Hd Hall]. split; [by intros d [= <-]|].
      intros d0 Hd0. destruct (Hall d0 Hd0). split; [done|]. by intros d [= <-].
  - pose proof (draftUntilChoice_spec input s) as (Hst & Hids & Hcalls & Hin). cbv zeta in *.
    destruct (draftUntilChoice clock input s) as [[[[session package] r]|e] s1]; cbn [fst snd] in *.
    2: { assert (device_inv s1) as Hs1 by (by eapply (device_frame s); rewrite ?Hst, ?Hids, ?Hcalls).
         split; [by apply device_run_inv|]. split; [done|]. intros d0 Hd0. split; [|done]. apply run_ops_issued; [done|].
         apply (issued_mono s); rewrite ?Hst, ?Hids, ?Hcalls; eauto with lia. }
    assert (device_inv s1) as Hs1 by (by eapply (device_frame s); rewrite ?Hst, ?Hids, ?Hcalls).
    specialize (Hin _ _ _ eq_refl). apply jm_values_get in Hin as [k Hk]; [|apply Hs]. destruct (di_res _ Hs _ _ Hk) as [Hid Hg]. subst k.
    destruct (draftFromChoice options clock ids contentHash input (session, package, r) (run_ops meanwhile s1)) as [o s2] eqn:Hrun.
    destruct (draftFromChoice_spec input session package r (run_ops meanwhile s1)) as (d1 & s3 & Hrun1 & _).
    assert (o = Ok d1 ∧ s2 = s3) as [-> ->] by (split; congruence). clear Hrun1.
    eapply draftFromChoice_issued in Hrun as (Hs2 & Hd & Hall); [|by apply device_run_inv|].
    + split; [done|]. split; [by intros d [= <-]|]. intros d0 Hd0. destruct (Hall d0) as [Hi Ha].
      * apply run_ops_issued; [done|]. apply (issued_mono s); rewrite ?Hst, ?Hids, ?Hcalls; eauto with lia.
      * intros He. apply (is_below _ _ Hd0). by rewrite He.
      * split; [done|]. by intros d [= <-].
    + destruct Hg as (k1 & q & r0 & Hlt & ?). exists k1, q, r0. split; [|done]. pose proof (run_ops_calls meanwhile s1). lia.
Qed.

Lemma drafts_apart calls s old :
  device_inv s → Forall drafts_alone calls → Forall (issued s) old →
  ForallOrdPairs apart (drafts_of calls s) ∧ Forall (λ d0, Forall (apart d0) (drafts_of calls s)) old.
Proof using grant_fresh ids_inj hash_nonempty.
  revert s old. induction calls as [|c calls IH]; intros s old Hs Hc Hold; cbn [drafts_of].
  { split; [constructor|]. apply Forall_true. constructor. }
  apply Forall_cons in Hc as [Hc Hcs]. pose proof (run_call_issued c s Hs Hc) as Hrun.
  destruct (run_call c s) as [o s1]. destruct Hrun as (Hs1 & Hd & Hall). simpl.
  destruct (IH s1 (option_list o ++ old) Hs1 Hcs) as [Hp Ha].
  { apply Forall_app. split; [destruct o; constructor; auto|]. eapply Forall_impl; [exact Hold|]. intros d0 Hd0. by apply Hall. }
  apply Forall_app in Ha as [Hao Ha]. split.
  - destruct o as [d|]; [|done]. simpl in *. apply Forall_cons in Hao as [Hao _]. by constructor.
  - rewrite Forall_forall in Hold, Ha |- *. intros d0 Hd0. apply Forall_app. split; [|by apply Ha].
    destruct o as [d|]; simpl; constructor; [|constructor]. by apply Hall; [apply Hold|].
Qed.
End preservation.
End claims.
