(* ===== verification/MobileClaims.v ===== *)
(** * MobileClaims: the properties of the mobile runtime, and a device to try them on. *)
From S2P Require Import Prelude JsMap JsText JsDate JsJson MobileRuntime MobileInv.
From Stdlib Require Import Ascii.
Local Open Scope Z_scope.

Section claims.
Context (options : MobileRuntimeOptions)
        (clock : nat → string) (ids : nat → string → string) (contentHash : HashSubject → string)
        (fetchPackage : nat → outcome MobileError MobileNormativePackageSnapshot)
        (backendReserve : nat → ReserveRequest → outcome MobileError MobileNumberingReservation)
        (backendSubmit : nat → BatchRequest → outcome MobileError MobileSyncBatchResult)
        (backendResolve : nat → ResolveRequest → outcome MobileError MobileConflictResolution)
        (printer : option (nat → PrintRequest → outcome MobileError MobilePrintReceipt)).

Notation createDraft := (createDraft options clock ids contentHash).
Notation finalizeOffline := (finalizeOffline options clock contentHash).
Notation attachEvidence := (attachEvidence clock).
Notation enqueue := (enqueue clock ids).
Notation submitPendingQueue := (submitPendingQueue clock ids backendSubmit).
Notation run_op := (run_op options clock ids contentHash fetchPackage backendReserve backendSubmit backendResolve printer).
Notation run_ops := (run_ops options clock ids contentHash fetchPackage backendReserve backendSubmit backendResolve printer).
Notation drafts_of := (drafts_of options clock ids contentHash fetchPackage backendReserve backendSubmit backendResolve printer).

Lemma run_ops_app ops ops' s : run_ops (ops ++ ops') s = run_ops ops' (run_ops ops s).
Proof. apply foldl_app. Qed.

Context (ids_inj : ∀ n m p q, ids n p = ids m q → n = m)
        (hash_nonempty : ∀ x, nonempty (contentHash x) = true).

Lemma reached ops : device_inv options ids backendReserve (run_ops ops new_device).
Proof using ids_inj hash_nonempty. apply device_run_inv, new_device_inv; done. Qed.


(** In every reachable state each item of the queue is stored under its id and belongs to a
    stored draft that was finalised under the offline invariant and handed over, with the draft's
    identity, number, key and hash; and no draft is queued twice. *)
Theorem queue_matches_drafts ops :
  let c := dv_store (run_ops ops new_device) in
  (∀ k i, jm_get k (c_queue c) = Some i →
     qi_queueItemId i = k ∧ ∃ d, jm_get (qi_localEntityId i) (c_drafts c) = Some d ∧
       (md_status d = ld_queued ∨ md_status d = ld_synced) ∧ is_Some (md_finalizedAt d) ∧
       assertOfflineInvariant options d = Ok () ∧ item_of d i) ∧
  (∀ k k' i i', jm_get k (c_queue c) = Some i → jm_get k' (c_queue c) = Some i' →
     qi_localEntityId i = qi_localEntityId i' → k = k').
Proof using ids_inj hash_nonempty.
  pose proof (reached ops) as Hs. cbv zeta. split; [|apply Hs]. intros k i Hi.
  destruct (di_item _ _ _ _ Hs k i Hi) as (Hid & _ & d & Hd & Ho & Hitem). split; [done|]. exists d.
  destruct (di_draft _ _ _ _ Hs _ d Hd) as (_ & _ & [[Hst _]|(_ & Hf & Ha)]); [destruct Ho; congruence|].
  by split_and!.
Qed.

(** ** Submitting *)

Lemma submit_unfold s session :
  device_inv options ids backendReserve s → jm_get "active" (c_session (dv_store s)) = Some session →
  pending_items s ≠ [] →
  let reply := backendSubmit (dv_calls s)
    {| bq_tenantId := ms_tenantId session; bq_orgUnitId := ms_orgUnitId session; bq_agentId := ms_agentId session;
       bq_deviceId := ms_deviceId session; bq_deviceBatchId := ids (dv_ids s) "device-batch";
       bq_items := set_qi_sent (clock (dv_clock s)) <$> pending_items s |} in
  (submitPendingQueue s).1 = reply ∧ dv_calls (submitPendingQueue s).2 = S (dv_calls s) ∧
  settled (match reply with Ok result => answered result | Throw _ => set_qi_status sq_pending end)
    (clock (dv_clock s)) s (dv_store (submitPendingQueue s).2).
Proof.
  intros Hs Hses Hp. cbv zeta. rewrite (submit_spec clock ids backendSubmit s session Hses). cbv zeta.
  destruct (pending_items s) as [|i l] eqn:Hpi; [done|]. rewrite <- Hpi. cbn [fst snd dv_calls dv_store].
  split_and!; [done|done|]. apply (settled_put options ids backendReserve); [done|]. intros j. by destruct (backendSubmit _ _).
Qed.

(** A submission without pending items changes nothing. With some it sends exactly the pending
    items, marked as sent, and returns the backend's reply; an answered item becomes a conflict or
    received, after a failure it is pending again with one more attempt; every other item, the
    drafts and the reservations are as before. *)
Theorem submit_effect ops session :
  let s := run_ops ops new_device in
  jm_get "active" (c_session (dv_store s)) = Some session →
  let t := clock (dv_clock s) in
  let s' := (submitPendingQueue s).2 in
  (pending_items s = [] →
     submitPendingQueue s = (Ok {| br_batchId := "empty"; br_acceptedItems := 0; br_conflicts := [] |}, s)) ∧
  (pending_items s ≠ [] → ∃ request,
     bq_items request = set_qi_sent t <$> pending_items s ∧ bq_deviceId request = ms_deviceId session ∧
     bq_tenantId request = ms_tenantId session ∧
     let reply := backendSubmit (dv_calls s) request in
     (submitPendingQueue s).1 = reply ∧
     (∀ k, jm_get k (c_queue (dv_store s')) =
        (λ i, if bool_decide (qi_status i = sq_pending)
              then match reply with
                   | Ok result => set_qi_status (if bool_decide (k ∈ br_conflicts result) then sq_conflict else sq_received)
                                    (set_qi_sent t i)
                   | Throw _ => set_qi_status sq_pending (set_qi_sent t i)
                   end
              else i) <$> jm_get k (c_queue (dv_store s))) ∧
     c_drafts (dv_store s') = c_drafts (dv_store s) ∧ c_reservations (dv_store s') = c_reservations (dv_store s)).
Proof using ids_inj hash_nonempty.
  intros s Hses t s'. pose proof (reached ops) as Hs. fold s in Hs. split.
  { intros Hp. rewrite (submit_spec clock ids backendSubmit s session Hses). cbv zeta. by rewrite Hp. }
  intros Hp. destruct (submit_unfold s session Hs Hses Hp) as (Hr & _ & Hq & Hd & Hres & _).
  eexists {| bq_items := set_qi_sent t <$> pending_items s |}. split; [done|]. cbn [bq_deviceId bq_tenantId].
  split; [reflexivity|]. split; [reflexivity|]. cbv zeta. split; [exact Hr|]. split; [|done].
  intros k. unfold s'. rewrite Hq. destruct (jm_get k (c_queue (dv_store s))) as [i|] eqn:Hi; [|done]. simpl.
  case_bool_decide; [|done]. fold t. destruct (di_item _ _ _ _ Hs k i Hi) as (Hid & _). f_equal.
  destruct (backendSubmit _ _); [|done]. unfold answered. simpl. by rewrite Hid.
Qed.

Lemma settled_pending t s c k i :
  settled (set_qi_status sq_pending) t s c → jm_get k (c_queue (dv_store s)) = Some i → qi_status i = sq_pending →
  ∃ i', jm_get k (c_queue c) = Some i' ∧ qi_status i' = sq_pending ∧ qi_attempts i' = qi_attempts i + 1 ∧
        qi_idempotencyKey i' = qi_idempotencyKey i ∧ qi_payloadHash i' = qi_payloadHash i.
Proof. intros (Hq & _) Hi Hst. rewrite Hq, Hi. simpl. rewrite bool_decide_eq_true_2 by done. by eexists. Qed.

(** What [n] submissions, the last of them answered, did to an item. *)
Definition delivered (n : nat) (i i' : MobileSyncQueueItem) : Prop :=
  if bool_decide (qi_status i = sq_pending)
  then (qi_status i' = sq_conflict ∨ qi_status i' = sq_received) ∧ qi_attempts i' = qi_attempts i + Z.of_nat n ∧
       qi_idempotencyKey i' = qi_idempotencyKey i ∧ qi_payloadHash i' = qi_payloadHash i
  else i' = i.

Lemma pending_stored s k i :
  device_inv options ids backendReserve s → jm_get k (c_queue (dv_store s)) = Some i → qi_status i = sq_pending →
  pending_items s ≠ [].
Proof.
  intros Hs Hi Hst Hnil. assert (i ∈ pending_items s) as Hin by (apply pending_elem; split; [by eapply jm_get_values|done]).
  rewrite Hnil in Hin. by apply elem_of_nil in Hin.
Qed.

Lemma drains n s session :
  device_inv options ids backendReserve s → jm_get "active" (c_session (dv_store s)) = Some session →
  pending_items s ≠ [] →
  (∀ j q, (j < n)%nat → ∃ e, backendSubmit (dv_calls s + j) q = Throw e) →
  (∀ q, ∃ r, backendSubmit (dv_calls s + n) q = Ok r) →
  ∀ k i, jm_get k (c_queue (dv_store s)) = Some i →
  ∃ i', jm_get k (c_queue (dv_store (run_ops (replicate (S n) OpSubmit) s))) = Some i' ∧ delivered (S n) i i'.
Proof using ids_inj hash_nonempty.
  revert s. induction n as [|n IH]; intros s Hs Hses Hp Hfail Hok k i Hi;
    (assert ((run_op OpSubmit s).2 = (submitPendingQueue s).2) as Hop
       by (unfold MobileRuntime.run_op, fmap, js_fmap; by destruct (submitPendingQueue s) as [[?|?] ?]));
    destruct (submit_unfold s session Hs Hses Hp) as (_ & Hcalls & Hsettled); rewrite <- Hop in Hcalls, Hsettled.
  - match type of Hsettled with context [backendSubmit ?c ?q] => destruct (Hok q) as [r Hr] end.
    rewrite Nat.add_0_r in Hr. rewrite Hr in Hsettled.
    destruct Hsettled as (Hq & _). unfold replicate, MobileRuntime.run_ops. cbn [foldl]. rewrite Hq, Hi.
    eexists. split; [done|]. unfold delivered. case_bool_decide; [|done]. simpl.
    split_and!; [case_bool_decide; auto|done..].
  - match type of Hsettled with context [backendSubmit ?c ?q] => destruct (Hfail 0%nat q ltac:(lia)) as [e He] end.
    rewrite Nat.add_0_r in He. rewrite He in Hsettled.
    set (s1 := (run_op OpSubmit s).2) in *.
    assert (device_inv options ids backendReserve s1) as Hs1 by by apply run_op_inv.
    destruct Hsettled as (Hq & _ & _ & Hses1).
    assert (pending_items s1 ≠ []) as Hp1.
    { destruct (pending_items s) as [|j l] eqn:Hpi; [done|]. assert (j ∈ pending_items s) as Hj by (rewrite Hpi; by left).
      apply pending_elem in Hj as [Hj Hjst]. apply (listed_item options ids backendReserve) in Hj; [|done].
      eapply (pending_stored s1 _ _ Hs1); [rewrite Hq, Hj; done|]. simpl. by rewrite bool_decide_eq_true_2. }
    replace (run_ops (replicate (S (S n)) OpSubmit) s) with (run_ops (replicate (S n) OpSubmit) s1) by done.
    set (i1 := if bool_decide (qi_status i = sq_pending) then set_qi_status sq_pending (set_qi_sent (clock (dv_clock s)) i) else i).
    destruct (IH s1 Hs1 (eq_trans (f_equal (jm_get "active") Hses1) Hses) Hp1) with (k := k) (i := i1) as (i' & Hi' & Hdel).
    + intros j q Hj. rewrite Hcalls. destruct (Hfail (S j) q ltac:(lia)) as [e' He']. exists e'. rewrite <- He'. f_equal. lia.
    + intros q. rewrite Hcalls. destruct (Hok q) as [r Hr]. exists r. rewrite <- Hr. f_equal. lia.
    + by rewrite Hq, Hi.
    + exists i'. split; [done|]. revert Hdel. unfold delivered, i1.
      destruct (decide (qi_status i = sq_pending)) as [Hc|Hc];
        rewrite ?(bool_decide_eq_true_2 _ Hc), ?(bool_decide_eq_false_2 _ Hc); simpl; [|by rewrite ?(bool_decide_eq_false_2 _ Hc)].
      intros (Hst & Hatt & Hkey & Hhash). split_and!; [done|lia|done..].
Qed.

(** C40. However often the backend fails, the first submission it answers delivers every pending item:
    all of them are then received or in conflict, with one attempt counted per submission, under
    the idempotency key and hash they were queued with; the other items are untouched. *)
Theorem queue_drains ops session n :
  let s := run_ops ops new_device in
  jm_get "active" (c_session (dv_store s)) = Some session → pending_items s ≠ [] →
  (∀ j q, (j < n)%nat → ∃ e, backendSubmit (dv_calls s + j) q = Throw e) →
  (∀ q, ∃ r, backendSubmit (dv_calls s + n) q = Ok r) →
  let s' := run_ops (replicate (S n) OpSubmit) s in
  ∀ k i, jm_get k (c_queue (dv_store s)) = Some i →
  ∃ i', jm_get k (c_queue (dv_store s')) = Some i' ∧
    if bool_decide (qi_status i = sq_pending)
    then (qi_status i' = sq_conflict ∨ qi_status i' = sq_received) ∧ qi_attempts i' = qi_attempts i + Z.of_nat (S n) ∧
         qi_idempotencyKey i' = qi_idempotencyKey i ∧ qi_payloadHash i' = qi_payloadHash i
    else i' = i.
Proof using ids_inj hash_nonempty. intros s Hses Hp Hfail Hok s'. exact (drains n s session (reached ops) Hses Hp Hfail Hok). Qed.

(** ** Drafting *)

(** A draft takes the next number of a stored reservation of its entity type that was reserved and
    unexpired, inside its interval, and the number the caller asked for; the reservation moves on
    by one and is consumed after its last number, nothing else changes. A failed call changes no
    collection and tells its cause; it succeeds when a reservation stays usable. *)
Theorem createDraft_takes_number ops input :
  let s := run_ops ops new_device in
  match createDraft input s with
  | (Ok d, s') =>
      ∃ r k, r ∈ jm_values (c_reservations (dv_store s)) ∧
        mr_status r = mr_reserved ∧ mr_entityType r = ci_entityType input ∧ date_gt (mr_validUntil r) (clock k) = true ∧
        md_reservationId d = mr_reservationId r ∧ md_reservedNumber d = mr_nextNumber r ∧
        md_reservedNumber d ≤ mr_endNumber r ∧
        (∀ q, ci_reservedNumber input = Some q → q ≠ 0 → md_reservedNumber d = q) ∧
        md_status d = ld_draft ∧ jm_get (md_localId d) (c_drafts (dv_store s)) = None ∧
        dv_store s' = put_drafts (md_localId d) d
          (put_reservations (mr_reservationId r)
             (set_mr_next (mr_nextNumber r + 1) (if decide (mr_nextNumber r = mr_endNumber r) then mr_consumed else mr_reserved) r)
             (dv_store s))
  | (Throw e, s') =>
      dv_store s' = dv_store s ∧
      match e with
      | NoSession => jm_get "active" (c_session (dv_store s)) = None
      | NoPackage => jm_get "active" (c_package (dv_store s)) = None
      | NoUsableReservation => ∀ r, r ∈ jm_values (c_reservations (dv_store s)) →
          ∃ k, ¬ usable (ci_entityType input) (ci_reservedNumber input) (clock k) r
      | _ => False
      end
  end.
Proof using ids_inj hash_nonempty.
  intros s. pose proof (reached ops) as Hs. fold s in Hs.
  destruct (createDraft_spec options clock ids contentHash input s)
    as [(e & s' & -> & Hst & _ & _ & He)|(d & s' & r & -> & Hd & Hst & _)]; [done|].
  destruct Hd as (_ & Hin & (k & Hr1 & Hr2 & Hr3 & Hr4 & Hr5) & _ & Hdst & Hrid & Hnum & Hlid & _).
  exists r, k. rewrite Hnum. split_and!; try done.
  - rewrite Hlid. eapply fresh_draft; [exact ids_inj|exact Hs].
  - rewrite Hst. unfold consumed. repeat f_equal. case_decide; [rewrite (proj2 (Z.leb_le _ _)); [done|lia]|].
    rewrite (proj2 (Z.leb_gt _ _)); [done|lia].
Qed.

(** [createDraft] is its two runs one after the other. *)
Lemma createDraft_split input s :
  createDraft input s = (chosen ← draftUntilChoice clock input; draftFromChoice options clock ids contentHash input chosen) s.
Proof.
  unfold MobileRuntime.createDraft, draftUntilChoice, consumeReservationNumber, requireSession, requireNormativePackage.
  js_unfold. unfold store, getf. destruct (jm_get "active" (c_session (dv_store s))) as [session|]; [|done].
  destruct (jm_get "active" (c_package (dv_store s))) as [package|]; [|done].
  destruct (chooseReservation clock _ _ s) as [[r|e] s']; [|done]. unfold draftFromChoice. js_unfold. done.
Qed.

Lemma choose_with_clock t input s :
  (∀ n, clock n = t) →
  ∃ n, ∀ s0, dv_store s0 = dv_store s →
  draftUntilChoice clock input s0 =
    ((draftUntilChoice clock input s).1, Build_Device (dv_store s0) (dv_clock s0 + n) (dv_ids s0) (dv_calls s0)).
Proof.
  intros Ht. assert (∀ e q l, ∃ o n, ∀ s0, findReservation clock e q l s0 =
    (Ok o, Build_Device (dv_store s0) (dv_clock s0 + n) (dv_ids s0) (dv_calls s0))) as Hfind.
  { intros e q l. induction l as [|c l (o & n & IH)]; cbn [findReservation].
    { exists None, 0%nat. intros [? ? ? ?]. by rewrite Nat.add_0_r. }
    destruct (negb _); [by exists o, n|]. unfold mbind, js_bind, MobileRuntime.now.
    destruct (date_gt (mr_validUntil c) t && (mr_nextNumber c <=? mr_endNumber c)
              && match q with None => true | Some r => (r =? 0) || (mr_nextNumber c =? r) end) eqn:Hu.
    - exists (Some c), 1%nat. intros s0. rewrite Ht, Hu, Nat.add_1_r. done.
    - exists o, (S n). intros s0. rewrite Ht, Hu, IH. simpl. by rewrite Nat.add_succ_r. }
  destruct (Hfind (ci_entityType input) (ci_reservedNumber input) (jm_values (c_reservations (dv_store s)))) as (o & n & Hrun).
  unfold draftUntilChoice, requireSession, requireNormativePackage, chooseReservation. js_unfold. unfold store, getf.
  destruct (jm_get "active" (c_session (dv_store s))) as [session|] eqn:Hses;
    [|exists 0%nat; intros [? ? ? ?] H0; simpl in H0 |- *; subst; by rewrite Hses, Nat.add_0_r].
  simpl. destruct (jm_get "active" (c_package (dv_store s))) as [package|] eqn:Hpkg;
    [|exists 0%nat; intros [? ? ? ?] H0; simpl in H0 |- *; subst; rewrite Hses; simpl; by rewrite Hpkg, Nat.add_0_r].
  exists n. intros [? ? ? ?] H0. simpl in H0 |- *. subst. rewrite Hses. simpl. rewrite Hpkg. simpl. rewrite !Hrun. by destruct o.
Qed.

Lemma draftFromChoice_run input session package r s :
  ∃ d s', draftFromChoice options clock ids contentHash input (session, package, r) s = (Ok d, s') ∧
    md_reservationId d = mr_reservationId r ∧ md_reservedNumber d = mr_nextNumber r ∧
    md_localId d = ids (dv_ids s) (mo_draftIdPrefix options) ∧ dv_ids s' = S (S (dv_ids s)) ∧
    c_drafts (dv_store s') = jm_set (md_localId d) d (c_drafts (dv_store s)).
Proof.
  unfold draftFromChoice, draftWithNumber. js_unfold. unfold MobileRuntime.now, uuid, put, modify.
  cbn [fst snd dv_store dv_clock dv_ids dv_calls]. do 2 eexists. split; [reflexivity|]. done.
Qed.

(** Two calls of [createDraft] that both choose their reservation before either stores the consumed
    one get the same number of the same reservation, under two local ids: whenever one call would
    succeed and the clock stands still, so does every such pair. *)
Theorem interleaved_drafts_share_number input s d s1 t :
  (∀ n, clock n = t) → createDraft input s = (Ok d, s1) →
  ∃ d1 d2 s2, twoDrafts options clock ids contentHash input input s = (Ok (d1, d2), s2) ∧
    md_reservationId d1 = md_reservationId d2 ∧ md_reservedNumber d1 = md_reservedNumber d2 ∧
    md_localId d1 ≠ md_localId d2 ∧
    jm_get (md_localId d1) (c_drafts (dv_store s2)) = Some d1 ∧ jm_get (md_localId d2) (c_drafts (dv_store s2)) = Some d2.
Proof using ids_inj.
  intros Ht Hrun. rewrite createDraft_split in Hrun.
  destruct (choose_with_clock t input s Ht) as (n & Hc).
  unfold twoDrafts. unfold mbind at 1, js_bind at 1 in Hrun. unfold mbind at 1, js_bind at 1.
  pose proof (Hc s eq_refl) as H1. destruct (draftUntilChoice clock input s) as [o s'] eqn:Ho. simpl in H1.
  injection H1 as H1. destruct o as [[[session package] r]|e]; [|done]. subst s'.
  unfold mbind at 1, js_bind at 1. rewrite Hc by done. cbn [fst].
  set (s0 := Build_Device _ _ _ _).
  destruct (draftFromChoice_run input session package r s0) as (d1 & s2 & Hrun1 & A1 & A2 & A3 & A4 & A5).
  destruct (draftFromChoice_run input session package r s2) as (d2 & s3 & Hrun2 & B1 & B2 & B3 & _ & B5).
  assert (md_localId d1 ≠ md_localId d2) as Hne.
  { rewrite A3, B3, A4. intros He. apply ids_inj in He. lia. }
  exists d1, d2, s3. split; [by unfold mbind, js_bind; rewrite Hrun1, Hrun2|].
  rewrite B5, jm_get_set_eq, (jm_get_set_ne _ _ _ _ Hne), A5, jm_get_set_eq. split_and!; congruence || done.
Qed.

(** Evidence can be attached to a draft that was finalised: the call succeeds, and the queue item
    made of the draft then sends the new evidence under the hash taken before it. *)
Theorem evidence_after_finalize id e d s :
  jm_get id (c_drafts (dv_store s)) = Some d → md_status d = ld_draft → assertOfflineInvariant options d = Ok () →
  ev_hashAlgorithm e = "sha256" → starts_with "sha256:" (ev_hashValue e) = true →
  ∃ d1 s1 d2 s2 i s3,
    finalizeOffline id s = (Ok d1, s1) ∧ attachEvidence id e s1 = (Ok d2, s2) ∧ enqueue id s2 = (Ok i, s3) ∧
    qi_payloadHash i = contentHash (HashFinalized d (clock (dv_clock s))) ∧
    sp_payload_hash (qi_payloadJson i) = qi_payloadHash i ∧
    sp_evidence (qi_payloadJson i) = md_evidence d ++ [link id e].
Proof.
  intros Hd Hst Ha Halg Hhash.
  assert (finalizeOffline id s = (Ok (patch_draft ld_finalized (contentHash (HashFinalized d (clock (dv_clock s)))) (md_evidence d)
    (Some (clock (dv_clock s))) (clock (S (dv_clock s))) d), (finalizeOffline id s).2)) as Hfin.
  { unfold MobileRuntime.finalizeOffline, requireDraft. js_unfold. unfold store, getf. rewrite Hd.
    rewrite bool_decide_eq_true_2 by done. simpl. by rewrite Ha. }
  do 2 eexists. do 4 eexists. split; [exact Hfin|].
  assert (nonempty (ev_hashValue e) = true) as Hne by by destruct (ev_hashValue e).
  unfold MobileRuntime.finalizeOffline, requireDraft. js_unfold. unfold store, getf. rewrite Hd.
  rewrite bool_decide_eq_true_2 by done. simpl. rewrite Ha. simpl.
  split.
  { unfold MobileRuntime.attachEvidence, requireDraft. js_unfold. unfold store, getf. rewrite Halg, Hhash, Hne. simpl.
    rewrite jm_get_set_eq. reflexivity. }
  split.
  { unfold MobileRuntime.enqueue, requireDraft. js_unfold. unfold store, getf. simpl. rewrite jm_get_set_eq. simpl. reflexivity. }
  by simpl.
Qed.
End claims.

(** ** A device *)

Module Example.
Definition options : MobileRuntimeOptions :=
  {| mo_requiredRoles := ["agent"]; mo_requireEvidenceToFinalize := true; mo_draftIdPrefix := "entity-local" |}.
Definition clock (n : nat) : string := "2026-05-20T12:00:00.000Z".
Fixpoint ids (n : nat) (prefix : string) : string :=
  match n with O => String "-" prefix | S n => String "1" (ids n prefix) end%char.
Definition contentHash (x : HashSubject) : string := "sha256:0".
Definition fetchPackage (n : nat) : outcome MobileError MobileNormativePackageSnapshot :=
  Ok {| np_packageId := "pkg"; np_packageVersion := "1"; np_manifestHash := "sha256:1";
        np_validUntil := "2026-12-31T00:00:00.000Z"; np_status := pk_published |}.
Definition backendReserve (n : nat) (q : ReserveRequest) : outcome MobileError MobileNumberingReservation :=
  Ok {| mr_reservationId := ids n "range"; mr_rangeId := "range"; mr_entityType := rq_entityType q; mr_series := "A";
        mr_startNumber := 7; mr_endNumber := 8; mr_nextNumber := 7; mr_validUntil := "2026-12-31T00:00:00.000Z";
        mr_status := mr_reserved |}.
(** The first submission, the third call, fails. *)
Definition backendSubmit (n : nat) (q : BatchRequest) : outcome MobileError MobileSyncBatchResult :=
  if decide (n = 2)%nat then Throw (PortFailure "offline")
  else Ok {| br_batchId := "b"; br_acceptedItems := Z.of_nat (length (bq_items q)); br_conflicts := [] |}.
Definition backendResolve (n : nat) (q : ResolveRequest) : outcome MobileError MobileConflictResolution :=
  Throw (PortFailure "offline").
Definition session : MobileSessionContext :=
  {| ms_tenantId := "t"; ms_orgUnitId := "o"; ms_agentId := "a"; ms_deviceId := "d"; ms_shiftId := "s";
     ms_appVersion := "1"; ms_roles := ["agent"] |}.
Definition posture : MobileDevicePosture :=
  {| dp_homologated := true; dp_remoteWipeVersion := 0; dp_secureHardwareBacked := true;
     dp_printerStatus := printer_missing; dp_networkStatus := net_offline |}.
Definition location : MobileLocationContext :=
  {| lo_latitude := "0"; lo_longitude := "0"; lo_accuracyMeters := "5"; lo_capturedAt := "2026-05-20T12:00:00.000Z";
     lo_source := loc_gps; lo_manualJustification := None |}.
Definition input : CreateMobileDraftInput :=
  {| ci_entityType := "notice"; ci_payload := []; ci_location := location;
     ci_observedAt := "2026-05-20T12:00:00.000Z"; ci_reservedNumber := None |}.
Definition evidence : MobileEvidenceDraft :=
  {| ev_localEvidenceId := "e1"; ev_hashAlgorithm := "sha256"; ev_hashValue := "sha256:2"; ev_mediaType := "image/png";
     ev_capturedAt := "2026-05-20T12:00:00.000Z"; ev_storageIntentId := None; ev_linkedLocalEntityId := None |}.
Definition prepare : list MobileOp :=
  [OpBootstrap session posture; OpInstall;
   OpReserve {| ri_entityType := "notice"; ri_requestedSize := 2; ri_series := None |}].
Definition queue_one : list MobileOp :=
  prepare ++ [OpCreateDraft input; OpAttach "-entity-local" evidence; OpFinalize "-entity-local"; OpEnqueue "-entity-local"].

Notation run ops :=
  (run_ops options clock ids contentHash fetchPackage backendReserve backendSubmit backendResolve None ops new_device).
Notation drafts calls :=
  (drafts_of options clock ids contentHash fetchPackage backendReserve backendSubmit backendResolve None calls new_device).
Notation draft := (createDraft options clock ids contentHash input).

Lemma device_ids_inj n m p q : ids n p = ids m q → n = m.
Proof. revert m. induction n as [|n IH]; intros [|m] H; simplify_eq/=; auto. Qed.
Lemma hash_nonempty x : nonempty (contentHash x) = true.
Proof. done. Qed.
End Example.


Lemma queue_matches_drafts_witness :
  let c := dv_store (Example.run Example.queue_one) in
  length (c_queue c) = 1%nat ∧
  (∀ k i, jm_get k (c_queue c) = Some i →
     qi_queueItemId i = k ∧ ∃ d, jm_get (qi_localEntityId i) (c_drafts c) = Some d ∧
       (md_status d = ld_queued ∨ md_status d = ld_synced) ∧ is_Some (md_finalizedAt d) ∧
       assertOfflineInvariant Example.options d = Ok () ∧ item_of d i).
Proof.
  split; [by vm_compute|].
  exact (proj1 (queue_matches_drafts Example.options Example.clock Example.ids Example.contentHash Example.fetchPackage
    Example.backendReserve Example.backendSubmit Example.backendResolve None Example.device_ids_inj Example.hash_nonempty
    Example.queue_one)).
Defined.

(** The first submission of the example fails. *)
Lemma submit_effect_witness :
  let s := Example.run Example.queue_one in
  pending_items s ≠ [] ∧
  (pending_items s ≠ [] → ∃ request : BatchRequest, bq_deviceId request = "d" ∧
     (submitPendingQueue Example.clock Example.ids Example.backendSubmit s).1 =
       Example.backendSubmit (dv_calls s) request).
Proof.
  split; [by vm_compute|]. intros Hp.
  destruct (proj2 (submit_effect Example.options Example.clock Example.ids Example.contentHash Example.fetchPackage
    Example.backendReserve Example.backendSubmit Example.backendResolve None Example.device_ids_inj Example.hash_nonempty
    Example.queue_one Example.session eq_refl) Hp) as (request & _ & Hd & _ & Hr & _).
  exists request. split; [exact Hd|exact Hr].
Defined.

Lemma queue_drains_witness :
  ∃ i', jm_get "11-sync-item" (c_queue (dv_store (Example.run (Example.queue_one ++ [OpSubmit; OpSubmit])))) = Some i' ∧
        (qi_status i' = sq_conflict ∨ qi_status i' = sq_received) ∧ qi_attempts i' = 2.
Proof.
  destruct (jm_get "11-sync-item" (c_queue (dv_store (Example.run Example.queue_one)))) as [i|] eqn:Hi;
    [|exfalso; vm_compute in Hi; discriminate].
  assert (qi_status i = sq_pending ∧ qi_attempts i = 0) as [Hst Hatt] by (vm_compute in Hi; by injection Hi as <-).
  assert (dv_calls (Example.run Example.queue_one) = 2%nat) as Hcalls by by vm_compute.
  destruct (queue_drains Example.options Example.clock Example.ids Example.contentHash Example.fetchPackage
    Example.backendReserve Example.backendSubmit Example.backendResolve None Example.device_ids_inj Example.hash_nonempty
    Example.queue_one Example.session 1) with (k := "11-sync-item") (i := i) as (i' & Hi' & Hdel).
  - reflexivity.
  - by vm_compute.
  - intros j q Hj. rewrite Hcalls. assert (j = 0%nat) as -> by lia. by eexists.
  - intros q. rewrite Hcalls. by eexists.
  - exact Hi.
  - rewrite Hst, bool_decide_eq_true_2 in Hdel by reflexivity. destruct Hdel as (H1 & H2 & _).
    exists i'. split_and!; [rewrite run_ops_app; exact Hi'|exact H1|rewrite H2, Hatt; reflexivity].
Defined.

Lemma createDraft_takes_number_witness :
  ∃ d s', Example.draft (Example.run Example.prepare) = (Ok d, s') ∧ md_reservedNumber d = 7 ∧
          jm_get (md_localId d) (c_drafts (dv_store (Example.run Example.prepare))) = None.
Proof.
  pose proof (createDraft_takes_number Example.options Example.clock Example.ids Example.contentHash Example.fetchPackage
    Example.backendReserve Example.backendSubmit Example.backendResolve None Example.device_ids_inj Example.hash_nonempty
    Example.prepare Example.input) as H. cbv zeta in H.
  assert (match Example.draft (Example.run Example.prepare) with (Ok d, _) => md_reservedNumber d = 7 | _ => False end)
    as Hok by by vm_compute.
  destruct (Example.draft (Example.run Example.prepare)) as [[d|e] s']; [|destruct Hok].
  exists d, s'. destruct H as (r & k & _ & _ & _ & _ & _ & _ & _ & _ & _ & Hnew & _). split_and!; [reflexivity|exact Hok|exact Hnew].
Defined.

Lemma interleaved_drafts_share_number_witness :
  ∃ d1 d2 s2, twoDrafts Example.options Example.clock Example.ids Example.contentHash Example.input Example.input
                (Example.run Example.prepare) = (Ok (d1, d2), s2) ∧
    md_reservationId d1 = md_reservationId d2 ∧ md_reservedNumber d1 = md_reservedNumber d2 ∧
    md_localId d1 ≠ md_localId d2.
Proof.
  assert (match Example.draft (Example.run Example.prepare) with (Ok _, _) => True | _ => False end) as Hok by by vm_compute.
  destruct (Example.draft (Example.run Example.prepare)) as [[d|e] s1] eqn:Hrun; [|destruct Hok].
  destruct (interleaved_drafts_share_number Example.options Example.clock Example.ids Example.contentHash Example.device_ids_inj
    Example.input (Example.run Example.prepare) d s1 "2026-05-20T12:00:00.000Z" (λ _, eq_refl) Hrun)
    as (d1 & d2 & s2 & H1 & H2 & H3 & H4 & _).
  exists d1, d2, s2. split_and!; [exact H1|exact H2|exact H3|exact H4].
Defined.

Lemma evidence_after_finalize_witness :
  let s := Example.run (Example.prepare ++ [OpCreateDraft Example.input; OpAttach "-entity-local" Example.evidence]) in
  ∃ d, jm_get "-entity-local" (c_drafts (dv_store s)) = Some d ∧
  ∃ d1 s1 d2 s2 i s3,
    finalizeOffline Example.options Example.clock Example.contentHash "-entity-local" s = (Ok d1, s1) ∧
    attachEvidence Example.clock "-entity-local" Example.evidence s1 = (Ok d2, s2) ∧
    enqueue Example.clock Example.ids "-entity-local" s2 = (Ok i, s3) ∧
    sp_evidence (qi_payloadJson i) = md_evidence d ++ [link "-entity-local" Example.evidence].
Proof.
  intros s. destruct (jm_get "-entity-local" (c_drafts (dv_store s))) as [d|] eqn:Hd; [|exfalso; vm_compute in Hd; discriminate].
  exists d. split; [reflexivity|].
  assert (md_status d = ld_draft ∧ assertOfflineInvariant Example.options d = Ok ()) as [Hst Ha]
    by (vm_compute in Hd; by injection Hd as <-).
  destruct (evidence_after_finalize Example.options Example.clock Example.ids Example.contentHash
    "-entity-local" Example.evidence d s Hd Hst Ha eq_refl eq_refl) as (d1 & s1 & d2 & s2 & i & s3 & H1 & H2 & H3 & _ & _ & H4).
  exists d1, s1, d2, s2, i, s3. split_and!; [exact H1|exact H2|exact H3|exact H4].
Defined.
