(* ===== verification/Cron.v ===== *)
(** * Cron: the five-field cron parser and next-run calculator of [jobs/src/cron.ts].

    A time is its value in milliseconds and [None] the invalid [Date], whose comparisons are false.
    The zone data behind [Intl.DateTimeFormat] is a parameter: a timezone the constructor accepts
    gives a function from time values to wall clock minutes. *)
From S2P Require Import Prelude JsMap JsText JsDate.
From Stdlib Require Import Ascii.
Local Open Scope Z_scope.

Inductive CronError :=
| InvalidCronExpressionError (expression : string)
| InvalidDate.

(** ** Fields *)

Record FieldRange := { fr_min : Z; fr_max : Z }.
Definition minute_range : FieldRange := {| fr_min := 0; fr_max := 59 |}.
Definition hour_range : FieldRange := {| fr_min := 0; fr_max := 23 |}.
Definition dom_range : FieldRange := {| fr_min := 1; fr_max := 31 |}.
Definition month_range : FieldRange := {| fr_min := 1; fr_max := 12 |}.
Definition dow_range : FieldRange := {| fr_min := 0; fr_max := 6 |}.

(** [parseInt(s, 10)] when the whole of [s] is digits. *)
Definition parse_digits (s : string) : option Z := if all_digits s then Some (digits_value 0 s) else None.

(** [/^(\d+)(?:-(\d+))?$/]: the first number and, when there is one, the second. *)
Definition parse_base (s : string) : option (Z * option Z) :=
  let '(ds, rest) := span_digits s in
  if String.eqb ds EmptyString then None
  else match rest with
       | EmptyString => Some (digits_value 0 ds, None)
       | String c rest' =>
           if Ascii.eqb c "-" then b ← parse_digits rest'; Some (digits_value 0 ds, Some b) else None
       end.

(** [for (let value = start; value <= end; value += step)]: for a positive step [fuel] is enough
    when it exceeds [end - start]. *)
Fixpoint count_up (fuel : nat) (value last step : Z) : list Z :=
  match fuel with
  | O => []
  | S fuel' => if value <=? last then value :: count_up fuel' (value + step) last step else []
  end.

(** One part of a field, between commas. [None] is the throw of the parser. *)
Definition parse_part (part : string) (range : FieldRange) : option (list Z) :=
  segments ← (match split_on "/" part with
              | [base] => Some (base, None)
              | [base; step] => Some (base, Some step)
              | _ => None
              end);
  let '(base, stepPart) := segments in
  if String.eqb base EmptyString then None else
  step ← (match stepPart with
          | None => Some 1
          | Some s => n ← parse_digits s; if n <=? 0 then None else Some n
          end);
  bounds ← (if String.eqb base "*" then Some (fr_min range, fr_max range)
            else '(start, second) ← parse_base base;
                 Some (start, match second with
                              | Some b => b
                              | None => match stepPart with Some _ => fr_max range | None => start end
                              end));
  let '(start, last) := bounds in
  if (start <? fr_min range) || (last >? fr_max range) || (start >? last) then None
  else Some (count_up (Z.to_nat (last - start + 1)) start last step).

Definition parseField (raw : string) (range : FieldRange) : option (list Z) :=
  parts ← mapM (λ part, parse_part part range) (split_on "," raw);
  Some (js_set (mjoin parts)).

Record ParsedCron := {
  pc_minute : list Z; pc_hour : list Z; pc_dayOfMonth : list Z; pc_month : list Z; pc_dayOfWeek : list Z;
  pc_dayOfMonthRestricted : bool; pc_dayOfWeekRestricted : bool }.

Definition parseCronExpression (expression : string) : outcome CronError ParsedCron :=
  let parsed :=
    match words expression with
    | [minuteRaw; hourRaw; domRaw; monthRaw; dowRaw] =>
        minute ← parseField minuteRaw minute_range;
        hour ← parseField hourRaw hour_range;
        dayOfMonth ← parseField domRaw dom_range;
        month ← parseField monthRaw month_range;
        dayOfWeek ← parseField dowRaw dow_range;
        Some {| pc_minute := minute; pc_hour := hour; pc_dayOfMonth := dayOfMonth; pc_month := month;
                pc_dayOfWeek := dayOfWeek; pc_dayOfMonthRestricted := negb (String.eqb domRaw "*");
                pc_dayOfWeekRestricted := negb (String.eqb dowRaw "*") |}
    | _ => None
    end in
  match parsed with Some p => Ok p | None => Throw (InvalidCronExpressionError expression) end.

(** ** Wall clock minutes *)

Definition MINUTE_MS : Z := 60000.
Definition DAY_MS : Z := 24 * 60 * MINUTE_MS.
Definition MAX_SEARCH_MINUTES : Z := 60 * 24 * 366 * 5.

Record WallMinute := { wm_year : Z; wm_month : Z; wm_day : Z; wm_hour : Z; wm_minute : Z }.

(** [Date.UTC]: years 0 to 99 mean 1900 to 1999. *)
Definition Date_UTC (year month day hour minute : Z) : option Z :=
  let year' := if (0 <=? year) && (year <=? 99) then 1900 + year else year in
  time_clip (make_day year' month day * MS_PER_DAY + make_time hour minute 0 0).

Definition wallTime (wall : WallMinute) : option Z :=
  Date_UTC (wm_year wall) (wm_month wall) (wm_day wall) (wm_hour wall) (wm_minute wall).
Definition wallDate (wall : WallMinute) : option Z := Date_UTC (wm_year wall) (wm_month wall) (wm_day wall) 0 0.

Definition utcWall (time : Z) : WallMinute :=
  let f := utc_fields time in
  {| wm_year := df_year f; wm_month := df_month f; wm_day := df_day f; wm_hour := df_hour f; wm_minute := df_minute f |}.
(** [{ ...day, hour, minute }] *)
Definition at_time (day : WallMinute) (hour minute : Z) : WallMinute :=
  {| wm_year := wm_year day; wm_month := wm_month day; wm_day := wm_day day; wm_hour := hour; wm_minute := minute |}.

Definition has (l : list Z) (z : Z) : bool := bool_decide (z ∈ l).

Definition matchesDay (parsed : ParsedCron) (wall : WallMinute) : bool :=
  let domMatches := has (pc_dayOfMonth parsed) (wm_day wall) in
  let dowMatches := match wallTime wall with
                    | Some t => has (pc_dayOfWeek parsed) (utc_weekday t)
                    | None => false
                    end in
  if pc_dayOfMonthRestricted parsed && pc_dayOfWeekRestricted parsed then domMatches || dowMatches
  else domMatches && dowMatches.

(** The source repeats the day test inside [matches]. *)
Definition matches (parsed : ParsedCron) (wall : WallMinute) : bool :=
  has (pc_minute parsed) (wm_minute wall) && has (pc_hour parsed) (wm_hour wall)
  && has (pc_month parsed) (wm_month wall) && matchesDay parsed wall.

(** ** Timezones *)

Definition Formatter : Type := Z → WallMinute.

(** [===] and the comparisons of numbers, [None] for NaN. *)
Definition same (a b : option Z) : bool := match a, b with Some x, Some y => x =? y | _, _ => false end.
Definition less (a b : option Z) : bool := match a, b with Some x, Some y => x <? y | _, _ => false end.

Section search.
Context (intl : string → option Formatter).

Definition timezoneFormatter (timezone expression : string) : outcome CronError Formatter :=
  if (negb (String.eqb timezone "UTC") && negb (has_char "/" timezone))
     || starts_with "Etc/GMT+" timezone || starts_with "Etc/GMT-" timezone
  then Throw (InvalidCronExpressionError expression)
  else match intl timezone with Some f => Ok f | None => Throw (InvalidCronExpressionError expression) end.

(** [wallMinute(new Date(time), formatter)]: [formatToParts] throws on the invalid date. *)
Definition wallMinute (formatter : Formatter) (time : option Z) : outcome CronError WallMinute :=
  match time ≫= time_clip with Some t => Ok (formatter t) | None => Throw InvalidDate end.

(** [formatter ? wallMinute(date, formatter) : utcWall(date)] *)
Definition readWall (formatter : option Formatter) (time : option Z) : outcome CronError (option WallMinute) :=
  match formatter with
  | Some f => Some <$> wallMinute f time
  | None => Ok (utcWall <$> (time ≫= time_clip))
  end.

Definition offsetAt (formatter : Formatter) (time : Z) : outcome CronError (option Z) :=
  wall ← wallMinute formatter (Some time);
  mret ((λ w, w - time) <$> wallTime wall).

Record Transition := { tr_at : Z; tr_before : option Z; tr_after : option Z }.

(** The binary search between two probes, in minutes. *)
Fixpoint locate (formatter : Formatter) (previousOffset : option Z) (fuel : nat) (low high : Z) : outcome CronError Z :=
  match fuel with
  | O => mret high
  | S fuel' =>
      if high - low >? 1 then
        let middle := (low + high) / 2 in
        offset ← offsetAt formatter (middle * MINUTE_MS);
        if same offset previousOffset then locate formatter previousOffset fuel' middle high
        else locate formatter previousOffset fuel' low middle
      else mret high
  end.

Fixpoint probe_all (formatter : Formatter) (probes : list Z) (previousTime : Z) (previousOffset : option Z)
    (offsets : list (option Z)) (transitions : list Transition) :
    outcome CronError (list (option Z) * list Transition) :=
  match probes with
  | [] => mret (offsets, transitions)
  | probe :: rest =>
      currentOffset ← offsetAt formatter probe;
      transitions' ← (if same currentOffset previousOffset then mret transitions
                      else
                        let low := previousTime / MINUTE_MS in
                        let high := probe / MINUTE_MS in
                        minute ← locate formatter previousOffset (Z.to_nat (high - low)) low high;
                        mret (transitions ++ [{| tr_at := minute * MINUTE_MS; tr_before := previousOffset;
                                                 tr_after := currentOffset |}]));
      probe_all formatter rest probe currentOffset (set_add currentOffset offsets) transitions'
  end.

(** Six-hour probes over three days. *)
Definition probes_of (windowStart : Z) : list Z := (λ k, windowStart + k * (6 * 60 * MINUTE_MS)) <$> seqZ 1 12.

Definition zone_changes (formatter : option Formatter) (dayTime : Z) :
    outcome CronError (list (option Z) * list Transition) :=
  match formatter with
  | None => mret ([Some 0], [])
  | Some f =>
      let windowStart := dayTime - DAY_MS in
      previousOffset ← offsetAt f windowStart;
      probe_all f (probes_of windowStart) windowStart previousOffset [previousOffset] []
  end.

(** ** One local date *)

(** The later UTC occurrence of a local minute. *)
Fixpoint latest (formatter : option Formatter) (first last : Z) (local : option Z) (offsets : list (option Z))
    (later : option Z) : outcome CronError (option Z) :=
  match offsets with
  | [] => mret later
  | offset :: rest =>
      let time := l ← local; o ← offset; Some (l - o) in
      if less time (Some first) || less (Some last) time then latest formatter first last local rest later
      else
        resolved ← readWall formatter time;
        latest formatter first last local rest
          (if same (resolved ≫= wallTime) local
              && match later with None => true | Some _ => less later time end
           then time else later)
  end.

Definition earlier (candidate best : option Z) : bool :=
  match candidate, best with
  | Some _, None => true
  | Some c, Some b => c <? b
  | None, _ => false
  end.

Fixpoint best_of (formatter : option Formatter) (first last : Z) (day : WallMinute) (offsets : list (option Z))
    (times : list (Z * Z)) (best : option Z) : outcome CronError (option Z) :=
  match times with
  | [] => mret best
  | (hour, minute) :: rest =>
      later ← latest formatter first last (wallTime (at_time day hour minute)) offsets None;
      best_of formatter first last day offsets rest (if earlier later best then later else best)
  end.

Definition same_day (a b : WallMinute) : bool :=
  (wm_year a =? wm_year b) && (wm_month a =? wm_month b) && (wm_day a =? wm_day b).

(** A minute of the gap on this date that the expression matches. *)
Fixpoint gap_matches (parsed : ParsedCron) (day : WallMinute) (fuel : nat) (missing limit : Z) : bool :=
  match fuel with
  | O => false
  | S fuel' =>
      if missing <? limit then
        match time_clip missing with
        | Some t => same_day (utcWall t) day && matches parsed (utcWall t)
        | None => false
        end || gap_matches parsed day fuel' (missing + MINUTE_MS) limit
      else false
  end.

Definition gap_step (parsed : ParsedCron) (first last : Z) (day : WallMinute) (best : option Z) (t : Transition) : option Z :=
  match tr_before t, tr_after t with
  | Some before, Some after =>
      if (after <=? before) || (tr_at t <? first) || (tr_at t >? last) then best
      else if gap_matches parsed day (Z.to_nat ((after - before) / MINUTE_MS + 1)) (tr_at t + before) (tr_at t + after)
              && earlier (Some (tr_at t)) best
           then Some (tr_at t) else best
  | _, _ => best
  end.

Definition times_of (parsed : ParsedCron) : list (Z * Z) :=
  hour ← js_sort Z.leb (pc_hour parsed); minute ← js_sort Z.leb (pc_minute parsed); [(hour, minute)].

Definition day_best (parsed : ParsedCron) (formatter : option Formatter) (first last dayTime : Z) :
    outcome CronError (option Z) :=
  let day := utcWall dayTime in
  if negb (has (pc_month parsed) (wm_month day)) || negb (matchesDay parsed day) then mret None
  else
    '(offsets, transitions) ← zone_changes formatter dayTime;
    best ← best_of formatter first last day offsets (times_of parsed) None;
    mret (foldl (gap_step parsed first last day) best transitions).

(** ** The search *)

(** The loop over the dates from [dayTime] on; [fuel] counts the dates up to the last one. *)
Fixpoint search (parsed : ParsedCron) (formatter : option Formatter) (first last : Z) (fuel : nat) (dayTime : Z) :
    outcome CronError (option Z) :=
  match fuel with
  | O => mret None
  | S fuel' =>
      best ← day_best parsed formatter first last dayTime;
      match best with
      | Some t => mret (Some t)
      | None => search parsed formatter first last fuel' (dayTime + DAY_MS)
      end
  end.

Definition dates (firstDay lastDay : Z) : nat := Z.to_nat ((lastDay - firstDay) / DAY_MS + 1).

Definition first_minute (after : Z) : Z := after / MINUTE_MS * MINUTE_MS + MINUTE_MS.
Definition last_minute (first : Z) : Z := first + (MAX_SEARCH_MINUTES - 1) * MINUTE_MS.

Definition nextCronRunAt (expression : string) (after : option Z) (timezone : string) : outcome CronError Z :=
  parsed ← parseCronExpression expression;
  formatter ← (if String.eqb timezone "UTC" then mret None else Some <$> timezoneFormatter timezone expression);
  let first := first_minute <$> after in
  let last := last_minute <$> first in
  startWall ← readWall formatter first;
  endWall ← readWall formatter last;
  let firstDay := startWall ≫= wallDate in
  let lastDay := endWall ≫= wallDate in
  found ← (match first, last, firstDay, lastDay with
           | Some first, Some last, Some firstDay, Some lastDay =>
               search parsed formatter first last (dates firstDay lastDay) firstDay
           | _, _, _, _ => mret None
           end);
  match found with Some t => mret t | None => Throw (InvalidCronExpressionError expression) end.
End search.
