(* ===== verification/CronParse.v ===== *)
(** * CronParse: the grammar of cron fields and the values they stand for.

    A field is a list of parts between commas; a part is a star, a number or an interval, with or
    without a step. [parseField_grammar] shows that the parser accepts the texts of well-formed
    parts and no others. *)
From S2P Require Import Prelude JsMap JsText JsDate JsJson Cron.
From Stdlib Require Import Ascii.
Local Open Scope Z_scope.

(** ** The grammar *)

Inductive CronBase :=
| BaseStar
| BaseNumber (digits : string)
| BaseInterval (digits digits' : string).
Record CronPart := { cp_base : CronBase; cp_step : option string }.

Definition render_base (b : CronBase) : string :=
  match b with
  | BaseStar => "*"
  | BaseNumber ds => ds
  | BaseInterval ds ds' => ds +:+ String "-" ds'
  end.
Definition render_part (p : CronPart) : string :=
  match cp_step p with None => render_base (cp_base p) | Some s => render_base (cp_base p) +:+ String "/" s end.
Definition render_field (parts : list CronPart) : string := join "," (render_part <$> parts).

Definition number (ds : string) : Z := digits_value 0 ds.
Definition part_low (range : FieldRange) (p : CronPart) : Z :=
  match cp_base p with BaseStar => fr_min range | BaseNumber ds | BaseInterval ds _ => number ds end.
Definition part_high (range : FieldRange) (p : CronPart) : Z :=
  match cp_base p with
  | BaseStar => fr_max range
  | BaseNumber ds => match cp_step p with Some _ => fr_max range | None => number ds end
  | BaseInterval _ ds' => number ds'
  end.
Definition part_step (p : CronPart) : Z := match cp_step p with Some s => number s | None => 1 end.

(** Numbers are digits, the step is positive, and the interval is inside the range and not empty. *)
Definition part_ok (range : FieldRange) (p : CronPart) : Prop :=
  match cp_base p with
  | BaseStar => True
  | BaseNumber ds => all_digits ds = true
  | BaseInterval ds ds' => all_digits ds = true ∧ all_digits ds' = true
  end ∧
  match cp_step p with Some s => all_digits s = true | None => True end ∧ 0 < part_step p ∧
  fr_min range ≤ part_low range p ∧ part_low range p ≤ part_high range p ∧ part_high range p ≤ fr_max range.

(** The values a part stands for. *)
Definition part_has (range : FieldRange) (p : CronPart) (v : Z) : Prop :=
  part_low range p ≤ v ≤ part_high range p ∧ (part_step p | v - part_low range p).

(** ** Digits *)

Fixpoint only_digits (s : string) : bool :=
  match s with String c s' => is_digit c && only_digits s' | EmptyString => true end.

Lemma span_digits_spec s ds rest :
  span_digits s = (ds, rest) →
  s = ds +:+ rest ∧ only_digits ds = true ∧ match rest with String c _ => is_digit c = false | EmptyString => True end.
Proof.
  revert ds rest. induction s as [|c s IH]; intros ds rest; cbn [span_digits]; intros H.
  { injection H as <- <-. done. }
  destruct (is_digit c) eqn:Hc; [|by injection H as <- <-].
  destruct (span_digits s) as [ds' r]. injection H as <- <-. destruct (IH ds' r eq_refl) as (-> & H1 & H2).
  split_and!; [done|by simpl; rewrite Hc|done].
Qed.

Lemma span_digits_app ds rest :
  only_digits ds = true → match rest with String c _ => is_digit c = false | EmptyString => True end →
  span_digits (ds +:+ rest) = (ds, rest).
Proof.
  intros Hds Hrest. induction ds as [|c ds IH].
  - rewrite str_app_nil. destruct rest as [|c r]; [done|]. simpl. by rewrite Hrest.
  - rewrite str_app_cons. simpl in Hds |- *. apply andb_true_iff in Hds as [-> Hds]. by rewrite IH.
Qed.

Lemma all_digits_spec s : all_digits s = true ↔ s ≠ EmptyString ∧ only_digits s = true.
Proof.
  unfold all_digits. rewrite andb_true_iff, negb_true_iff, String.eqb_neq, String.eqb_eq. split; intros [H1 H2]; split; try done.
  - destruct (span_digits s) as [ds r] eqn:Hs. apply span_digits_spec in Hs as (-> & Hd & _). simpl in H2. subst r.
    by rewrite str_app_nil_r.
  - rewrite <- (str_app_nil_r s). by rewrite span_digits_app.
Qed.

Lemma digits_no_char c s : is_digit c = false → only_digits s = true → has_char c s = false.
Proof.
  intros Hc. induction s as [|x s IH]; [done|]. simpl. intros [Hx Hs]%andb_true_iff. rewrite IH by done.
  destruct (Ascii.eqb_spec c x); [congruence|done].
Qed.

Lemma parse_digits_Some s n : parse_digits s = Some n ↔ all_digits s = true ∧ n = number s.
Proof. unfold parse_digits. destruct (all_digits s); split; [intros [= <-]; done|by intros [_ ->]|done|by intros [? _]]. Qed.

(** The interval part of a base, which the star is not. *)
Lemma parse_base_spec s start second :
  parse_base s = Some (start, second) ↔
  ∃ b, s = render_base b ∧
    match b with
    | BaseStar => False
    | BaseNumber ds => all_digits ds = true ∧ start = number ds ∧ second = None
    | BaseInterval ds ds' => all_digits ds = true ∧ all_digits ds' = true ∧ start = number ds ∧ second = Some (number ds')
    end.
Proof.
  unfold parse_base. split.
  - destruct (span_digits s) as [ds rest] eqn:Hs. apply span_digits_spec in Hs as (-> & Hd & Hr).
    destruct (String.eqb_spec ds EmptyString) as [->|Hne]; [done|].
    assert (all_digits ds = true) as Hall by by apply all_digits_spec.
    destruct rest as [|c rest]; [intros [= <- <-]; exists (BaseNumber ds); simpl; by rewrite str_app_nil_r|].
    destruct (Ascii.eqb_spec c "-") as [->|]; [|done]. intros (b & Hb & [= <- <-])%bind_Some.
    apply parse_digits_Some in Hb as [Hb ->]. exists (BaseInterval ds rest). done.
  - intros ([|ds|ds ds'] & -> & Hb); [done| |]; simpl.
    + destruct Hb as (Hd & -> & ->). apply all_digits_spec in Hd as [Hne Hd].
      rewrite <- (str_app_nil_r ds) at 1. rewrite span_digits_app by done.
      by destruct (String.eqb_spec ds EmptyString).
    + destruct Hb as (Hd & Hd' & -> & ->). apply all_digits_spec in Hd as [Hne Hd].
      rewrite span_digits_app by done. destruct (String.eqb_spec ds EmptyString); [done|]. simpl.
      by rewrite (proj2 (parse_digits_Some ds' (number ds')) (conj Hd' eq_refl)).
Qed.

(** ** Counting *)

Lemma count_up_elem fuel value last step v :
  0 < step → last - value < Z.of_nat fuel →
  v ∈ count_up fuel value last step ↔ value ≤ v ≤ last ∧ (step | v - value).
Proof.
  intros Hstep. revert value. induction fuel as [|fuel IH]; intros value Hf; cbn [count_up].
  { split; [by intros ?%elem_of_nil|lia]. }
  destruct (Z.leb_spec value last) as [Hle|Hlt].
  - rewrite elem_of_cons, IH by lia. split.
    + intros [->|([Hv1 Hv2] & k & Hk)].
      * split; [lia|]. rewrite Z.sub_diag. apply Z.divide_0_r.
      * split; [lia|]. exists (k + 1). lia.
    + intros ([Hv1 Hv2] & k & Hk). destruct (decide (v = value)) as [|Hne]; [by left|right].
      assert (0 < k) by nia. split; [nia|]. exists (k - 1). lia.
  - split; [by intros ?%elem_of_nil|lia].
Qed.

(** ** Splitting *)

Lemma join_split c s : join (String c EmptyString) (split_on c s) = s.
Proof.
  induction s as [|x s IH]; [done|]. cbn [split_on]. destruct (split_on_cons c s) as (p & ps & Hs). rewrite Hs in *.
  destruct (Ascii.eqb_spec c x) as [->|]; [by rewrite join_cons, IH|].
  destruct ps as [|q ps]; [simpl in *; by rewrite IH|]. rewrite join_cons in IH |- *. by rewrite str_app_cons, IH.
Qed.

Lemma split_join c l :
  l ≠ [] → Forall (λ p, has_char c p = false) l → split_on c (join (String c EmptyString) l) = l.
Proof.
  intros Hl Hf. destruct l as [|x l]; [done|]. clear Hl. revert x Hf. induction l as [|y l IH]; intros x Hf.
  - apply Forall_cons in Hf as [Hx _]. by apply split_on_single.
  - apply Forall_cons in Hf as [Hx Hf]. rewrite join_cons, str_app_cons, str_app_nil, split_on_app by done. by rewrite IH.
Qed.

Lemma split_one c s p : split_on c s = [p] → s = p ∧ has_char c p = false.
Proof.
  intros Hs. pose proof (join_split c s) as Hj. pose proof (split_on_pieces c s) as Hf. rewrite Hs in *.
  apply Forall_inv in Hf. split; [symmetry; exact Hj|exact Hf].
Qed.
Lemma split_two c s p q :
  split_on c s = [p; q] → s = p +:+ String c q ∧ has_char c p = false ∧ has_char c q = false.
Proof.
  intros Hs. pose proof (join_split c s) as Hj. pose proof (split_on_pieces c s) as Hf. rewrite Hs in *.
  apply Forall_cons in Hf as [Hp Hq%Forall_inv]. split_and!; [by rewrite <- Hj|exact Hp|exact Hq].
Qed.

(** ** Parts *)

Definition base_ok (b : CronBase) : Prop :=
  match b with
  | BaseStar => True
  | BaseNumber ds => all_digits ds = true
  | BaseInterval ds ds' => all_digits ds = true ∧ all_digits ds' = true
  end.

(** The texts of well-formed parts have no separator. *)
Lemma base_no_char c b :
  base_ok b → is_digit c = false → c ≠ "*"%char → c ≠ "-"%char → has_char c (render_base b) = false.
Proof.
  intros Hb Hc Hstar Hdash.
  assert (∀ ds, all_digits ds = true → has_char c ds = false) as Hds
    by (intros ds [_ Hd]%all_digits_spec; by apply digits_no_char).
  destruct b as [|ds|ds ds']; simpl in *.
  - destruct (Ascii.eqb_spec c "*"); done.
  - by apply Hds.
  - destruct Hb as [H1 H2]. rewrite has_char_app, Hds by done. simpl. destruct (Ascii.eqb_spec c "-"); [done|].
    simpl. by apply Hds.
Qed.
Lemma base_not_empty b : base_ok b → render_base b ≠ EmptyString.
Proof.
  destruct b as [|ds|ds ds']; simpl; [done| |].
  - intros [? _]%all_digits_spec. done.
  - intros _. destruct ds; [rewrite str_app_nil|rewrite str_app_cons]; done.
Qed.
Lemma base_star b : base_ok b → render_base b = "*" → b = BaseStar.
Proof.
  intros Hb He. destruct b as [|ds|ds ds']; [done| |]; simpl in *.
  - subst ds. done.
  - destruct ds as [|c ds]; [by destruct Hb|]. rewrite str_app_cons in He. injection He as -> _. destruct Hb as [Hb _]. done.
Qed.

(** [part_step] and the interval are those of the parsed part. *)
Definition part_values (range : FieldRange) (p : CronPart) : list Z :=
  count_up (Z.to_nat (part_high range p - part_low range p + 1)) (part_low range p) (part_high range p) (part_step p).

Lemma part_segments p range :
  part_ok range p →
  split_on "/" (render_part p) = match cp_step p with None => [render_base (cp_base p)] | Some s => [render_base (cp_base p); s] end.
Proof.
  destruct p as [b [s|]]; unfold render_part; simpl; intros (Hb & Hs & _).
  - assert (has_char "/" (render_base b) = false) by by apply base_no_char.
    assert (has_char "/" s = false) by (apply all_digits_spec in Hs as [_ ?]; by apply digits_no_char).
    by rewrite split_on_app, split_on_single.
  - by apply split_on_single, base_no_char.
Qed.

(** The interval of a base, as [parse_part] computes it. *)
Definition base_bounds (range : FieldRange) (base : string) (stepPart : option string) : option (Z * Z) :=
  if String.eqb base "*" then Some (fr_min range, fr_max range)
  else '(start, second) ← parse_base base;
       Some (start, match second with
                    | Some b => b
                    | None => match stepPart with Some _ => fr_max range | None => start end
                    end).

Lemma base_bounds_spec range base stepPart lo hi :
  base_bounds range base stepPart = Some (lo, hi) ↔
  ∃ b, base = render_base b ∧ base_ok b ∧
       lo = part_low range {| cp_base := b; cp_step := stepPart |} ∧ hi = part_high range {| cp_base := b; cp_step := stepPart |}.
Proof.
  unfold base_bounds. split.
  - destruct (String.eqb_spec base "*") as [->|Hne]; [intros [= <- <-]; by exists BaseStar|].
    intros ([start second] & Hb & [= <- <-])%bind_Some. apply parse_base_spec in Hb as (b & -> & Hb). exists b.
    split; [done|]. destruct b as [|ds|ds ds']; [done| |]; unfold part_low, part_high; simpl.
    + by destruct Hb as (? & -> & ->).
    + by destruct Hb as (? & ? & -> & ->).
  - intros (b & -> & Hb & -> & ->). destruct (String.eqb_spec (render_base b) "*") as [He|Hne].
    + by apply base_star in He as ->.
    + destruct b as [|ds|ds ds']; [done| |]; cbn [render_base].
      * by rewrite (proj2 (parse_base_spec ds (number ds) None)) by by exists (BaseNumber ds).
      * destruct Hb as [H1 H2].
        by rewrite (proj2 (parse_base_spec (ds +:+ String "-" ds') (number ds) (Some (number ds')))) by by exists (BaseInterval ds ds').
Qed.

Lemma part_of_bounds range b stepPart :
  base_ok b → (match stepPart with Some s => all_digits s = true | None => True end) →
  0 < part_step {| cp_base := b; cp_step := stepPart |} →
  let p := {| cp_base := b; cp_step := stepPart |} in
  (part_low range p <? fr_min range) || (part_high range p >? fr_max range) || (part_low range p >? part_high range p) = false →
  part_ok range p.
Proof. intros Hb Hs Hpos p Hc. split_and!; [done|done|done|lia|lia|lia]. Qed.

Lemma parse_part_sound part range vs :
  parse_part part range = Some vs → ∃ p, part = render_part p ∧ part_ok range p ∧ vs = part_values range p.
Proof.
  unfold parse_part. intros ([base stepPart] & Hseg & H)%bind_Some.
  destruct (String.eqb_spec base EmptyString) as [|Hne]; [done|].
  apply bind_Some in H as (step & Hstep & H). change (if String.eqb base "*" then _ else _) with (base_bounds range base stepPart) in H.
  apply bind_Some in H as ([lo hi] & Hbounds & H). apply base_bounds_spec in Hbounds as (b & -> & Hb & -> & ->).
  destruct ((part_low _ _ <? _) || _ || _) eqn:Hc; [done|]. injection H as <-.
  assert ((match stepPart with Some s => all_digits s = true | None => True end) ∧
          0 < step ∧ step = part_step {| cp_base := b; cp_step := stepPart |}) as (Hd & Hpos & ->).
  { destruct stepPart as [s|]; [|by injection Hstep as <-]. apply bind_Some in Hstep as (n & Hn & Hn').
    apply parse_digits_Some in Hn as [Hn ->]. destruct (Z.leb_spec (number s) 0); [done|]. by injection Hn' as <-. }
  exists {| cp_base := b; cp_step := stepPart |}. split_and!; [|by apply part_of_bounds|done].
  unfold render_part. simpl. destruct (split_on "/" part) as [|x [|y [|]]] eqn:Hs; try done.
  - injection Hseg as -> <-. by apply split_one in Hs as [-> _].
  - injection Hseg as -> <-. by apply split_two in Hs as (-> & _).
Qed.

Lemma parse_part_complete p range : part_ok range p → parse_part (render_part p) range = Some (part_values range p).
Proof.
  intros Hp. unfold parse_part. rewrite (part_segments p range Hp). destruct Hp as (Hb & Hs & Hpos & H1 & H2 & H3).
  destruct p as [b stepPart]. cbn [cp_base cp_step] in *.
  assert (String.eqb (render_base b) EmptyString = false) as Hne by by apply String.eqb_neq, base_not_empty.
  pose proof (proj2 (base_bounds_spec range (render_base b) stepPart _ _) (ex_intro _ b (conj eq_refl (conj Hb (conj eq_refl eq_refl))))) as Hbounds.
  unfold base_bounds in Hbounds.
  destruct stepPart as [s|]; simpl; rewrite Hne; simpl in Hbounds |- *.
  - rewrite (proj2 (parse_digits_Some s (number s))) by done. simpl. unfold part_step in Hpos. simpl in Hpos.
    rewrite (proj2 (Z.leb_gt _ _)) by done. simpl. rewrite Hbounds. simpl.
    by replace ((_ <? _) || _ || _) with false by (symmetry; lia).
  - rewrite Hbounds. simpl. by replace ((_ <? _) || _ || _) with false by (symmetry; lia).
Qed.

(** ** Fields *)

Lemma mapM_parts_sound range pieces vss :
  mapM (λ part, parse_part part range) pieces = Some vss →
  ∃ parts, pieces = render_part <$> parts ∧ Forall (part_ok range) parts ∧ vss = part_values range <$> parts.
Proof.
  intros H%mapM_Some. induction H as [|part vs pieces vss Hp _ (parts & -> & Hok & ->)]; [by exists []|].
  apply parse_part_sound in Hp as (p & -> & Hp & ->). exists (p :: parts). split_and!; [done|by constructor|done].
Qed.

Lemma mapM_parts_complete range parts :
  Forall (part_ok range) parts →
  mapM (λ part, parse_part part range) (render_part <$> parts) = Some (part_values range <$> parts).
Proof.
  intros H. apply mapM_Some. induction H as [|p parts Hp _ IH]; constructor; [by apply parse_part_complete|done].
Qed.

Lemma part_values_elem range p v : part_ok range p → v ∈ part_values range p ↔ part_has range p v.
Proof. intros (_ & _ & Hpos & _). unfold part_values. rewrite count_up_elem by lia. done. Qed.

Lemma values_elem range parts v :
  Forall (part_ok range) parts →
  v ∈ js_set (mjoin (part_values range <$> parts)) ↔ ∃ p, p ∈ parts ∧ part_has range p v.
Proof.
  intros Hok. rewrite elem_of_js_set. rewrite Forall_forall in Hok. split.
  - intros (vs & Hv & (p & -> & Hp)%list_elem_of_fmap)%list_elem_of_join. exists p. split; [done|]. by apply part_values_elem; [apply Hok|].
  - intros (p & Hp & Hv). apply list_elem_of_join. exists (part_values range p).
    split; [by apply part_values_elem; [apply Hok|]|by apply list_elem_of_fmap_2].
Qed.

Lemma part_no_comma range p : part_ok range p → has_char "," (render_part p) = false.
Proof.
  intros (Hb & Hs & _). assert (has_char "," (render_base (cp_base p)) = false) as Hbase by by apply base_no_char.
  unfold render_part. destruct (cp_step p) as [s|]; [|done]. rewrite has_char_app, Hbase. simpl.
  apply all_digits_spec in Hs as [_ Hs]. by apply digits_no_char.
Qed.

(** What [parseField] accepts and returns. *)
Lemma parseField_sound raw range vs :
  parseField raw range = Some vs →
  ∃ parts, parts ≠ [] ∧ Forall (part_ok range) parts ∧ raw = render_field parts ∧
    NoDup vs ∧ ∀ v, v ∈ vs ↔ ∃ p, p ∈ parts ∧ part_has range p v.
Proof.
  intros (vss & H & [= <-])%bind_Some. apply mapM_parts_sound in H as (parts & Hs & Hok & ->). exists parts. split_and!.
  - intros ->. destruct (split_on_cons "," raw) as (? & ? & He). by rewrite He in Hs.
  - done.
  - unfold render_field. rewrite <- Hs. symmetry. apply join_split.
  - apply NoDup_js_set.
  - intros v. by apply values_elem.
Qed.

Lemma parseField_complete parts range :
  parts ≠ [] → Forall (part_ok range) parts → is_Some (parseField (render_field parts) range).
Proof.
  intros Hne Hok. unfold parseField, render_field. rewrite (split_join "," (render_part <$> parts)).
  - rewrite mapM_parts_complete by done. by eexists.
  - by destruct parts.
  - apply Forall_fmap. eapply Forall_impl; [exact Hok|]. intros p Hp. by eapply part_no_comma.
Qed.

Lemma field_bounds raw range vs :
  parseField raw range = Some vs → NoDup vs ∧ vs ≠ [] ∧ Forall (λ v, fr_min range ≤ v ≤ fr_max range) vs.
Proof.
  intros (parts & Hne & Hok & _ & Hnd & Hel)%parseField_sound. split_and!; [done| |].
  - intros ->. destruct parts as [|p parts]; [done|]. apply Forall_cons in Hok as [(_ & _ & _ & _ & Hle & _) _].
    assert (part_low range p ∈ []) as Hn; [|by apply elem_of_nil in Hn]. apply Hel. exists p. split; [by left|].
    split; [lia|]. rewrite Z.sub_diag. apply Z.divide_0_r.
  - rewrite Forall_forall in Hok. apply Forall_forall. intros v (p & Hp & Hv & _)%Hel. destruct (Hok p Hp) as (_ & _ & _ & ? & _ & ?). lia.
Qed.

(** A parsed expression: every field has a value, all of them in the field's range. *)
Definition field_ok (range : FieldRange) (vs : list Z) : Prop :=
  NoDup vs ∧ vs ≠ [] ∧ Forall (λ v, fr_min range ≤ v ≤ fr_max range) vs.
Definition parsed_ok (p : ParsedCron) : Prop :=
  field_ok minute_range (pc_minute p) ∧ field_ok hour_range (pc_hour p) ∧ field_ok dom_range (pc_dayOfMonth p) ∧
  field_ok month_range (pc_month p) ∧ field_ok dow_range (pc_dayOfWeek p).

Lemma parse_ok e p : parseCronExpression e = Ok p → parsed_ok p.
Proof.
  unfold parseCronExpression. destruct (match words e with [] => _ | _ => _ end) as [q|] eqn:Hq; [|done]. intros [= <-].
  destruct (words e) as [|r1 [|r2 [|r3 [|r4 [|r5 [|]]]]]]; try done.
  apply bind_Some in Hq as (v1 & H1 & Hq). apply bind_Some in Hq as (v2 & H2 & Hq). apply bind_Some in Hq as (v3 & H3 & Hq).
  apply bind_Some in Hq as (v4 & H4 & Hq). apply bind_Some in Hq as (v5 & H5 & Hq). injection Hq as <-.
  by split_and!; eapply field_bounds.
Qed.
