(* ===== verification/CronSearch.v ===== *)
(** * CronSearch: what the search over dates and minutes finds, in UTC and with any zone
    data. *)
From S2P Require Import Prelude JsMap JsText JsDate Cron CronParse.
From Stdlib Require Import Ascii.

Local Open Scope Z_scope.

(** A minute at which the expression is due. *)
Definition due (p : ParsedCron) (t : Z) : Prop := t mod MINUTE_MS = 0 ∧ matches p (utcWall t) = true.

(** [Date.UTC] reads the years 0 to 99 as 1900 to 1999: the calendar is exact from year 100 on. *)
Definition YEAR_100 : Z := days_from_civil 100 1 1 * MS_PER_DAY.
Definition exact_time (t : Z) : Prop := YEAR_100 ≤ t ≤ MAX_TIME.

Definition day_start (t : Z) : Z := t / DAY_MS * DAY_MS.
Definition time_of (day hour minute : Z) : Z := day + hour * 3600000 + minute * 60000.

(** ** The calendar of a day *)

Lemma YEAR_100_value : YEAR_100 = -59011459200000.
Proof. reflexivity. Qed.
Lemma DAY_MS_value : DAY_MS = 86400000.
Proof. reflexivity. Qed.

Lemma exact_year t : exact_time t → 100 ≤ df_year (utc_fields t).
Proof.
  intros [Ht _]. destruct (Z.lt_ge_cases (df_year (utc_fields t)) 100) as [Hy|]; [|done].
  assert (t < YEAR_100); [|lia]. apply fields_lt_iff. left.
  by replace (df_year (utc_fields YEAR_100)) with 100 by (vm_compute; reflexivity).
Qed.

Lemma utcWall_at t : utcWall t = at_time (utcWall (day_start t)) (t mod DAY_MS / 3600000) (t mod DAY_MS / 60000 mod 60).
Proof.
  unfold utcWall, utc_fields, at_time, day_start. change DAY_MS with MS_PER_DAY.
  rewrite Z.div_mul by done. by destruct (civil_from_days (t / MS_PER_DAY)) as [[y m] d].
Qed.

Lemma utcWall_time_of d h m :
  0 ≤ h < 24 → 0 ≤ m < 60 → utcWall (time_of (day_start d) h m) = at_time (utcWall (day_start d)) h m.
Proof.
  intros Hh Hm. rewrite (utcWall_at (time_of _ _ _)). unfold time_of, day_start.
  rewrite ?DAY_MS_value.
  f_equal; [f_equal|..]; Z.div_mod_to_equations; lia.
Qed.

Lemma day_fields t :
  exact_time t → ∃ y m d, civil_from_days (t / MS_PER_DAY) = (y, m, d) ∧ 100 ≤ y ∧ make_day y m d = t / MS_PER_DAY.
Proof.
  intros Ht. pose proof (exact_year t Ht) as Hy. pose proof (days_civil_days (t / MS_PER_DAY)) as Hd.
  unfold utc_fields in Hy. destruct (civil_from_days (t / MS_PER_DAY)) as [[y m] d]. exists y, m, d.
  split_and!; [done|done|]. rewrite <- days_from_civil_day. by destruct Hd.
Qed.

Lemma wallTime_at t h m :
  exact_time t → wallTime (at_time (utcWall (day_start t)) h m) = time_clip (time_of (day_start t) h m).
Proof.
  intros (y & mo & d & Hc & Hy & Hd)%day_fields. unfold wallTime, Date_UTC, at_time, utcWall, utc_fields, day_start, time_of.
  change DAY_MS with MS_PER_DAY. rewrite Z.div_mul by done. rewrite Hc.
  cbn [wm_year wm_month wm_day wm_hour wm_minute df_year df_month df_day].
  replace ((0 <=? y) && (y <=? 99)) with false by lia. rewrite Hd. f_equal. unfold make_time. lia.
Qed.

Lemma clip_exact t : exact_time t → time_clip t = Some t.
Proof.
  intros [H1 H2]. unfold time_clip. rewrite YEAR_100_value in *.
  by rewrite (proj2 (Z.leb_le _ _)) by (unfold MAX_TIME in *; lia).
Qed.

Lemma exact_time_of t h m : exact_time t → 0 ≤ h < 24 → 0 ≤ m < 60 → time_of (day_start t) h m ≤ MAX_TIME →
  exact_time (time_of (day_start t) h m).
Proof.
  intros [H1 H2] Hh Hm Hle. split; [|done]. rewrite YEAR_100_value in *.
  unfold time_of, day_start. rewrite DAY_MS_value. Z.div_mod_to_equations. lia.
Qed.

Lemma day_start_exact t : exact_time t → exact_time (day_start t).
Proof.
  intros Ht. replace (day_start t) with (time_of (day_start t) 0 0) by (unfold time_of; lia).
  apply exact_time_of; [done|lia|lia|]. destruct Ht as [_ Ht]. unfold time_of, day_start. rewrite DAY_MS_value.
  Z.div_mod_to_equations. lia.
Qed.

Lemma wallDate_at w h m : wallDate (at_time w h m) = wallTime (at_time w 0 0).
Proof. reflexivity. Qed.

Lemma wallDate_exact t : exact_time t → wallDate (utcWall t) = Some (day_start t).
Proof.
  intros Ht. rewrite (utcWall_at t), wallDate_at, (wallTime_at t 0 0 Ht). replace (time_of (day_start t) 0 0) with (day_start t) by (unfold time_of; lia).
  apply clip_exact, day_start_exact, Ht.
Qed.

(** ** Matching *)

Lemma weekday_time_of t h m :
  0 ≤ h < 24 → 0 ≤ m < 60 → utc_weekday (time_of (day_start t) h m) = utc_weekday (day_start t).
Proof.
  intros Hh Hm. unfold utc_weekday, time_of, day_start. rewrite ?DAY_MS_value.
  assert (MS_PER_DAY = 86400000) as -> by reflexivity. do 2 f_equal. Z.div_mod_to_equations. lia.
Qed.

Lemma matchesDay_at p t h m :
  exact_time t → 0 ≤ h < 24 → 0 ≤ m < 60 → time_of (day_start t) h m ≤ MAX_TIME →
  matchesDay p (at_time (utcWall (day_start t)) h m) = matchesDay p (utcWall (day_start t)).
Proof.
  intros Ht Hh Hm Hle. unfold matchesDay. rewrite (wallTime_at t) by done.
  rewrite (clip_exact _ (exact_time_of t h m Ht Hh Hm Hle)), weekday_time_of by done.
  assert (wallTime (utcWall (day_start t)) = Some (day_start t)) as ->; [|done].
  replace (utcWall (day_start t)) with (at_time (utcWall (day_start t)) 0 0).
  - rewrite (wallTime_at t) by done. replace (time_of (day_start t) 0 0) with (day_start t) by (unfold time_of; lia).
    apply clip_exact. replace (day_start t) with (time_of (day_start t) 0 0) by (unfold time_of; lia).
    apply exact_time_of; [done|lia|lia|]. unfold time_of in *. lia.
  - rewrite <- (utcWall_time_of t) by lia. f_equal. unfold time_of. lia.
Qed.

(** Being due is a matter of the day, the hour and the minute. *)
Lemma due_time_of p t h m :
  exact_time t → 0 ≤ h < 24 → 0 ≤ m < 60 → time_of (day_start t) h m ≤ MAX_TIME →
  due p (time_of (day_start t) h m) ↔
  h ∈ pc_hour p ∧ m ∈ pc_minute p ∧ has (pc_month p) (wm_month (utcWall (day_start t))) = true ∧
  matchesDay p (utcWall (day_start t)) = true.
Proof.
  intros Ht Hh Hm Hle. unfold due, matches. rewrite utcWall_time_of, matchesDay_at by done.
  cbn [at_time wm_minute wm_hour wm_month]. unfold has. rewrite !andb_true_iff, !bool_decide_eq_true.
  assert (time_of (day_start t) h m mod MINUTE_MS = 0) as ->; [|naive_solver].
  unfold time_of, day_start. rewrite ?DAY_MS_value. unfold MINUTE_MS. Z.div_mod_to_equations. lia.
Qed.

Lemma due_split p t : exact_time t → due p t →
  ∃ h m, 0 ≤ h < 24 ∧ 0 ≤ m < 60 ∧ t = time_of (day_start t) h m.
Proof.
  intros _ [Hmod _]. exists (t mod DAY_MS / 3600000), (t mod DAY_MS / 60000 mod 60).
  unfold time_of, day_start in *. rewrite ?DAY_MS_value. unfold MINUTE_MS in *.
  split_and!; Z.div_mod_to_equations; lia.
Qed.

(** ** One date *)

Section utc.
Context (intl : string → option Formatter) (p : ParsedCron) (Hp : parsed_ok p) (first last : Z).
Context (Hfirst : YEAR_100 ≤ first) (Hlast : last ≤ MAX_TIME).

Lemma between_exact t : first ≤ t ≤ last → exact_time t.
Proof using Hfirst Hlast. unfold exact_time. lia. Qed.

(** The minutes a list of times stands for on the date of [d]. *)
Definition candidate (d : Z) (times : list (Z * Z)) (c : Z) : Prop :=
  ∃ h m, (h, m) ∈ times ∧ c = time_of (day_start d) h m ∧ first ≤ c ≤ last.

Lemma latest_none : latest None first last None [Some 0] None = Ok None.
Proof. reflexivity. Qed.
Lemma latest_some l :
  wallTime (utcWall l) = Some l → exact_time l →
  latest None first last (Some l) [Some 0] None = Ok (if (first <=? l) && (l <=? last) then Some l else None).
Proof.
  intros Hl He. unfold latest. cbn [mbind option_bind less]. rewrite Z.sub_0_r. cbn [less].
  destruct (Z.ltb_spec l first) as [H1|H1]; cbn [orb].
  { by rewrite (proj2 (Z.leb_gt first l)) by done. }
  destruct (Z.ltb_spec last l) as [H2|H2].
  { by rewrite (proj2 (Z.leb_gt l last)), andb_false_r by done. }
  rewrite !(proj2 (Z.leb_le _ _)) by done. unfold readWall. cbn [mbind option_bind]. rewrite (clip_exact l He).
  cbn [fmap option_fmap option_map mbind option_bind outcome_bind andb]. rewrite Hl. cbn [same]. by rewrite Z.eqb_refl.
Qed.

Lemma latest_utc d h m :
  exact_time d → 0 ≤ h < 24 → 0 ≤ m < 60 →
  latest None first last (wallTime (at_time (utcWall (day_start d)) h m)) [Some 0] None =
  Ok (if (first <=? time_of (day_start d) h m) && (time_of (day_start d) h m <=? last)
      then Some (time_of (day_start d) h m) else None).
Proof using Hfirst Hlast.
  intros Hd Hh Hm. rewrite (wallTime_at d h m Hd). set (c := time_of (day_start d) h m).
  destruct (Z.le_gt_cases c MAX_TIME) as [Hc|Hc].
  - assert (exact_time c) as He by by apply exact_time_of. rewrite (clip_exact c He). apply latest_some; [|done].
    unfold c. rewrite utcWall_time_of, (wallTime_at d h m Hd) by done. by apply clip_exact.
  - unfold time_clip. rewrite (proj2 (Z.leb_gt _ _)) by lia. rewrite latest_none.
    by rewrite (proj2 (Z.leb_gt c last)), andb_false_r by lia.
Qed.

(** [b'] is the least of [b] and the candidates. *)
Definition least (P : Z → Prop) (b b' : option Z) : Prop :=
  (∀ c, P c ∨ b = Some c → ∃ t, b' = Some t ∧ t ≤ c) ∧ (∀ t, b' = Some t → P t ∨ b = Some t).

Lemma best_of_utc d times best :
  exact_time d → (∀ h m, (h, m) ∈ times → 0 ≤ h < 24 ∧ 0 ≤ m < 60) →
  ∃ b, best_of None first last (utcWall (day_start d)) [Some 0] times best = Ok b ∧ least (candidate d times) best b.
Proof using Hfirst Hlast.
  intros Hd. revert best. induction times as [|[h m] times IH]; intros best Ht; cbn [best_of].
  { exists best. split; [done|]. split.
    - intros c [(h & m & Hin & _)|Hc]; [by apply elem_of_nil in Hin|]. exists c. split; [done|lia].
    - intros t Hb. by right. }
  destruct (Ht h m ltac:(by left)) as [Hh Hm]. rewrite latest_utc by done. cbn [mbind outcome_bind].
  set (c := time_of (day_start d) h m). set (later := if (first <=? c) && (c <=? last) then Some c else None).
  destruct (IH (if earlier later best then later else best)) as (b & Hrun & H1 & H2); [intros; apply Ht; by right|].
  exists b. split; [exact Hrun|]. clear IH Hrun.
  assert (∀ c', later = Some c' ↔ c' = c ∧ first ≤ c ≤ last) as Hlater.
  { intros c'. unfold later. destruct ((first <=? c) && (c <=? last)) eqn:Hr.
    - split; [intros [= <-]; split; [done|lia]|by intros [-> _]].
    - split; [done|intros [_ ?]; lia]. }
  split.
  - intros c' [(h' & m' & [[= -> ->]|Hin]%elem_of_cons & -> & Hr)|Hb].
    + fold c in Hr |- *. pose proof (proj2 (Hlater c) (conj eq_refl Hr)) as Hl. rewrite Hl in H1. unfold earlier in H1.
      destruct best as [b0|]; [|apply H1; by right]. destruct (Z.ltb_spec c b0); [apply H1; by right|].
      destruct (H1 b0 ltac:(by right)) as (t & -> & ?). exists t. split; [done|lia].
    + apply H1. left. by exists h', m'.
    + rewrite Hb in H1. destruct later as [l|]; simpl in H1; [|apply H1; by right].
      destruct (Z.ltb_spec l c'); [|apply H1; by right]. destruct (H1 l ltac:(by right)) as (t & -> & ?). exists t. split; [done|lia].
  - intros t Hb. destruct (H2 t Hb) as [(h' & m' & Hin & Hr)|He].
    + left. exists h', m'. split; [by right|done].
    + destruct (earlier later best); [|by right]. apply Hlater in He as [-> Hr]. left. exists h, m. by split; [left|].
Qed.

Lemma times_elem h m : (h, m) ∈ times_of p ↔ h ∈ pc_hour p ∧ m ∈ pc_minute p.
Proof.
  unfold times_of. rewrite list_elem_of_bind. setoid_rewrite list_elem_of_bind. setoid_rewrite js_sort_perm. split.
  - intros (h' & (m' & [= -> ->]%list_elem_of_singleton & Hm) & Hh). done.
  - intros [Hh Hm]. exists h. split; [|done]. exists m. split; [by apply list_elem_of_singleton|done].
Qed.

Lemma times_ok h m : (h, m) ∈ times_of p → 0 ≤ h < 24 ∧ 0 ≤ m < 60.
Proof using Hp.
  intros [Hh Hm]%times_elem. destruct Hp as ((_ & _ & H1) & (_ & _ & H2) & _). rewrite Forall_forall in H1. rewrite Forall_forall in H2.
  specialize (H1 m Hm). specialize (H2 h Hh). simpl in *. lia.
Qed.

(** The minutes of one date at which the expression is due. *)
Definition due_on (d t : Z) : Prop := due p t ∧ day_start t = day_start d ∧ first ≤ t ≤ last.

Lemma due_candidate d t : exact_time d → due_on d t →
  has (pc_month p) (wm_month (utcWall (day_start d))) = true ∧ matchesDay p (utcWall (day_start d)) = true ∧
  candidate d (times_of p) t.
Proof using Hfirst Hlast.
  intros Hd (Hdue & Hday & Hr). destruct (due_split p t (between_exact t Hr) Hdue) as (h & m & Hh & Hm & Ht).
  rewrite Hday in Ht. rewrite Ht in Hdue. apply due_time_of in Hdue as (H1 & H2 & H3 & H4); [|done|done|done|lia].
  split_and!; [done|done|]. exists h, m. split_and!; [by apply times_elem|done|lia|lia].
Qed.

Lemma candidate_due d t : exact_time d →
  has (pc_month p) (wm_month (utcWall (day_start d))) = true → matchesDay p (utcWall (day_start d)) = true →
  candidate d (times_of p) t → due_on d t.
Proof using Hp Hlast.
  intros Hd Hmonth Hday (h & m & Hin & -> & Hr). destruct (times_ok h m Hin) as [Hh Hm]. apply times_elem in Hin as [H1 H2].
  split_and!; [apply due_time_of; [done|done|done|lia|done]| |lia|lia].
  unfold day_start, time_of. rewrite DAY_MS_value. Z.div_mod_to_equations. lia.
Qed.

Lemma day_best_utc d :
  exact_time d → ∃ b, day_best p None first last (day_start d) = Ok b ∧ least (due_on d) None b.
Proof using Hp Hfirst Hlast.
  intros Hd. unfold day_best.
  destruct (has (pc_month p) _) eqn:Hmonth; [|exists None; split; [done|]; split; [|done];
    intros c [Hc|]; [|done]; apply due_candidate in Hc as (? & _); [congruence|done]].
  destruct (matchesDay p _) eqn:Hday; [|exists None; split; [done|]; split; [|done];
    intros c [Hc|]; [|done]; apply due_candidate in Hc as (_ & ? & _); [congruence|done]].
  simpl. destruct (best_of_utc d (times_of p) None Hd times_ok) as (b & -> & H1 & H2). exists b. split; [done|]. split.
  - intros c [Hc|]; [|done]. apply H1. left. by apply due_candidate.
  - intros t Ht. left. destruct (H2 t Ht) as [Hc|]; [|done]. by apply candidate_due.
Qed.
(** ** The dates *)

Definition due_from (d : Z) (fuel : nat) (t : Z) : Prop :=
  due p t ∧ first ≤ t ≤ last ∧ day_start d ≤ t < day_start d + Z.of_nat fuel * DAY_MS.

Lemma day_start_bounds t : day_start t ≤ t < day_start t + DAY_MS.
Proof. unfold day_start. rewrite DAY_MS_value. Z.div_mod_to_equations. lia. Qed.
Lemma day_start_add t k : day_start (day_start t + k * DAY_MS) = day_start t + k * DAY_MS.
Proof. unfold day_start. rewrite <- Z.mul_add_distr_r, Z.div_mul by done. done. Qed.
Lemma day_start_same d t : day_start d ≤ t < day_start d + DAY_MS → day_start t = day_start d.
Proof. unfold day_start. rewrite DAY_MS_value. Z.div_mod_to_equations. lia. Qed.

Lemma search_utc fuel d :
  exact_time d → day_start d + Z.of_nat fuel * DAY_MS ≤ day_start last + DAY_MS →
  ∃ b, search p None first last fuel (day_start d) = Ok b ∧ least (due_from d fuel) None b.
Proof using Hp Hfirst Hlast.
  revert d. induction fuel as [|fuel IH]; intros d Hd Hend; cbn [search].
  { exists None. split; [done|]. split; [|done]. intros c [(_ & _ & Hc)|]; [lia|done]. }
  destruct (day_best_utc d Hd) as (b0 & -> & H1 & H2). cbn [mbind outcome_bind].
  destruct b0 as [t|].
  - exists (Some t). split; [done|]. destruct (H2 t eq_refl) as [Ht|]; [|done]. split.
    + intros c [(Hdue & Hr & Hc)|]; [|done]. destruct (Z.lt_ge_cases c (day_start d + DAY_MS)).
      * apply H1. left. split_and!; [done|apply day_start_same; lia|lia|lia].
      * exists t. split; [done|]. destruct Ht as (_ & Hsame & _). pose proof (day_start_bounds t). lia.
    + intros t' [= <-]. left. destruct Ht as (Hdue & Hsame & Hr). split_and!; [done|lia|lia| |];
        pose proof (day_start_bounds t); rewrite Hsame in *; rewrite DAY_MS_value in *; lia.
  - pose proof (day_start_add d 1) as Hnext. rewrite Z.mul_1_l in Hnext.
    destruct fuel as [|fuel].
    { exists None. split; [done|]. split; [|done]. intros c [(Hdue & Hr & Hc)|]; [|done].
      destruct (H1 c) as (t & Ht & _); [left; split_and!; [done|apply day_start_same; lia|lia|lia]|done]. }
    destruct (IH (day_start d + DAY_MS)) as (b & Hrun & H3 & H4).
    + destruct (day_start_exact d Hd) as [Hlo _]. pose proof (day_start_bounds last).
      split; rewrite DAY_MS_value in *; lia.
    + rewrite Hnext. lia.
    + rewrite Hnext in Hrun. exists b. split; [exact Hrun|]. split.
      * intros c [(Hdue & Hr & Hc)|]; [|done]. destruct (Z.lt_ge_cases c (day_start d + DAY_MS)).
        -- destruct (H1 c) as (t & Ht & _); [left; split_and!; [done|apply day_start_same; lia|lia|lia]|done].
        -- apply H3. left. split_and!; [done|lia|lia|lia|]. rewrite Hnext. lia.
      * intros t Ht. left. destruct (H4 t Ht) as [(Hdue & Hr & Hc)|]; [|done]. rewrite Hnext in Hc.
        split_and!; [done|lia|lia| |]; rewrite DAY_MS_value in *; lia.
Qed.
End utc.

(** The first minute after an instant, and the last one the search looks at. *)
Lemma first_minute_spec a : a < first_minute a ≤ a + MINUTE_MS ∧ first_minute a mod MINUTE_MS = 0 ∧
  ∀ t, a < t → t mod MINUTE_MS = 0 → first_minute a ≤ t.
Proof.
  unfold first_minute, MINUTE_MS. split_and!; [Z.div_mod_to_equations; lia..|].
  intros t Ht Hmod. Z.div_mod_to_equations. lia.
Qed.

Lemma dates_cover first last : first ≤ last →
  day_start first + Z.of_nat (dates (day_start first) (day_start last)) * DAY_MS = day_start last + DAY_MS.
Proof.
  intros Hle. unfold dates, day_start. rewrite <- Z.mul_sub_distr_r, Z.div_mul by done.
  assert (first / DAY_MS ≤ last / DAY_MS) by (rewrite DAY_MS_value; apply Z.div_le_mono; lia). rewrite Z2Nat.id by lia. lia.
Qed.

(** The next run in UTC. *)
Lemma next_run_least intl e a :
  YEAR_100 ≤ a → a + MAX_SEARCH_MINUTES * MINUTE_MS ≤ MAX_TIME →
  match parseCronExpression e with
  | Throw err => nextCronRunAt intl e (Some a) "UTC" = Throw err
  | Ok p =>
      (∃ t, nextCronRunAt intl e (Some a) "UTC" = Ok t ∧ due p t ∧ a < t ≤ a + MAX_SEARCH_MINUTES * MINUTE_MS ∧
            ∀ t', due p t' → a < t' → t ≤ t') ∨
      (nextCronRunAt intl e (Some a) "UTC" = Throw (InvalidCronExpressionError e) ∧
       ∀ t', due p t' → a < t' → first_minute a + (MAX_SEARCH_MINUTES - 1) * MINUTE_MS < t')
  end.
Proof.
  intros Ha Hmax. unfold nextCronRunAt. rewrite String.eqb_refl. destruct (parseCronExpression e) as [p|err] eqn:Hparse; [|done].
  cbn [mbind outcome_bind mret outcome_ret fmap option_fmap option_map]. unfold mret, outcome_ret.
  destruct (first_minute_spec a) as (Hf1 & Hf2 & Hf3). set (first := first_minute a) in *.
  change (last_minute first) with (first + (MAX_SEARCH_MINUTES - 1) * MINUTE_MS). set (last := first + _).
  assert (first ≤ last ∧ last ≤ MAX_TIME) as [Hle Hlast] by (unfold last, MAX_SEARCH_MINUTES, MINUTE_MS in *; lia).
  assert (exact_time first) as Hef by (unfold exact_time; lia).
  assert (exact_time last) as Hel by (unfold exact_time in *; lia).
  unfold readWall. cbn [mbind option_bind outcome_bind]. rewrite (clip_exact first Hef), (clip_exact last Hel).
  cbn [fmap option_fmap option_map mbind option_bind outcome_bind].
  rewrite (wallDate_exact first Hef), (wallDate_exact last Hel).
  destruct (search_utc p (parse_ok e p Hparse) first last ltac:(lia) Hlast
              (dates (day_start first) (day_start last)) first Hef) as (b & Hrun & H1 & H2).
  { rewrite dates_cover by done. lia. }
  rewrite Hrun. cbn [mbind outcome_bind].
  assert (∀ t', due p t' → a < t' → t' ≤ last → due_from p first last first (dates (day_start first) (day_start last)) t') as Hwin.
  { intros t' Hdue Hat Htl. specialize (Hf3 t' Hat (proj1 Hdue)). split_and!; [done|done|done| |].
    - pose proof (day_start_bounds first). lia.
    - rewrite dates_cover by done. pose proof (day_start_bounds last). lia. }
  destruct b as [t|].
  - left. exists t. destruct (H2 t eq_refl) as [(Hdue & Hr & _)|]; [|done]. split_and!; [done|done|lia| |].
    + unfold last, MAX_SEARCH_MINUTES, MINUTE_MS in *. lia.
    + intros t' Hdue' Hat. destruct (Z.le_gt_cases t' last); [|lia].
      destruct (H1 t') as (t0 & [= <-] & ?); [by left; apply Hwin|done].
  - right. split; [done|]. intros t' Hdue' Hat. destruct (Z.le_gt_cases t' last) as [Hl|]; [|lia].
    destruct (H1 t') as (t0 & ? & _); [by left; apply Hwin|done].
Qed.

(** ** What the search finds in a timezone, whatever the zone data. *)

(** The zone's clock jumps forward or back at [t]: the minute before has offset [before], [t] another. *)
Definition real_transition (f : Formatter) (before t : Z) : Prop :=
  offsetAt f (t - MINUTE_MS) = Ok (Some before) ∧ ∃ o, offsetAt f t = Ok o ∧ o ≠ Some before.

Lemma same_true a b : same a b = true ↔ a = b ∧ is_Some a.
Proof.
  destruct a as [a|], b as [b|]; simpl; split; try done; try (by intros [? [? ?]]).
  - intros ->%Z.eqb_eq. by split; [|eexists].
  - intros [[= ->] _]. apply Z.eqb_refl.
Qed.

Lemma locate_spec f before fuel low high r :
  low < high → high - low ≤ Z.of_nat fuel →
  offsetAt f (low * MINUTE_MS) = Ok (Some before) →
  (∃ o, offsetAt f (high * MINUTE_MS) = Ok o ∧ o ≠ Some before) →
  locate f (Some before) fuel low high = Ok r → real_transition f before (r * MINUTE_MS).
Proof.
  revert low high. induction fuel as [|fuel IH]; intros low high Hlt Hf Hlow Hhigh; [lia|]. cbn [locate].
  destruct (Z.gtb_spec (high - low) 1) as [Hgap|Hgap].
  - intros (o & Ho & Hrun)%outcome_bind_ok.
    assert (low < (low + high) / 2 < high) by (Z.div_mod_to_equations; lia).
    destruct (same o (Some before)) eqn:Hs.
    + apply same_true in Hs as [-> _]. by apply (IH _ _) in Hrun; [|lia|lia|..].
    + apply (IH low ((low + high) / 2)) in Hrun; [done|lia|lia|done|]. exists o. split; [done|]. intros ->. simpl in Hs.
      by rewrite Z.eqb_refl in Hs.
  - intros [= <-]. assert (low = high - 1) as -> by lia. split; [|done].
    by replace (high * MINUTE_MS - MINUTE_MS) with ((high - 1) * MINUTE_MS) by lia.
Qed.

Lemma probe_all_spec f probes t0 o0 offsets transitions offsets' transitions' :
  t0 mod MINUTE_MS = 0 → Forall (λ t, t mod MINUTE_MS = 0) probes → Sorted Z.lt (t0 :: probes) →
  offsetAt f t0 = Ok o0 →
  (∀ tr b, tr ∈ transitions → tr_before tr = Some b → real_transition f b (tr_at tr)) →
  probe_all f probes t0 o0 offsets transitions = Ok (offsets', transitions') →
  ∀ tr b, tr ∈ transitions' → tr_before tr = Some b → real_transition f b (tr_at tr).
Proof.
  revert t0 o0 offsets transitions. induction probes as [|t1 probes IH]; intros t0 o0 offsets transitions H0 Hmod Hsort Ho Htr Hrun;
    cbn [probe_all] in Hrun; [by injection Hrun as <- <-|].
  apply Forall_cons in Hmod as [H1 Hmod]. apply Sorted_inv in Hsort as [Hsort Hlt]. apply HdRel_inv in Hlt.
  apply outcome_bind_ok in Hrun as (o1 & Ho1 & Hrun). apply outcome_bind_ok in Hrun as (trs & Hstep & Hrun).
  apply (IH t1 o1 (set_add o1 offsets) trs); [done|done|done|done| |done]. clear IH Hrun.
  destruct (same o1 o0) eqn:Hs; [by injection Hstep as <-|].
  apply outcome_bind_ok in Hstep as (minute & Hloc & [= <-]). intros tr b [Hin|Hin]%elem_of_app Hb; [by eapply Htr|].
  apply list_elem_of_singleton in Hin as ->. simpl in Hb |- *. subst o0.
  assert (∀ t, t mod MINUTE_MS = 0 → t / MINUTE_MS * MINUTE_MS = t) as Hround
    by (intros t Ht; unfold MINUTE_MS in *; Z.div_mod_to_equations; lia).
  eapply locate_spec; [| | | |exact Hloc].
  - unfold MINUTE_MS in *. Z.div_mod_to_equations. lia.
  - unfold MINUTE_MS in *. Z.div_mod_to_equations. lia.
  - by rewrite Hround.
  - rewrite Hround by done. exists o1. split; [done|]. intros ->. simpl in Hs. by rewrite Z.eqb_refl in Hs.
Qed.

Lemma probes_ok t : t mod MINUTE_MS = 0 →
  Forall (λ t, t mod MINUTE_MS = 0) (probes_of t) ∧ Sorted Z.lt (t :: probes_of t).
Proof.
  intros Ht. unfold probes_of. change (seqZ 1 12) with [1; 2; 3; 4; 5; 6; 7; 8; 9; 10; 11; 12]. cbn [fmap list_fmap].
  unfold MINUTE_MS in *. split.
  - repeat constructor; Z.div_mod_to_equations; lia.
  - repeat constructor; lia.
Qed.

Lemma zone_changes_spec f d offsets transitions :
  d mod DAY_MS = 0 → zone_changes (Some f) d = Ok (offsets, transitions) →
  ∀ tr b, tr ∈ transitions → tr_before tr = Some b → real_transition f b (tr_at tr).
Proof.
  intros Hd (o & Ho & Hrun)%outcome_bind_ok.
  assert ((d - DAY_MS) mod MINUTE_MS = 0) as Hmod by (unfold DAY_MS, MINUTE_MS in *; Z.div_mod_to_equations; lia).
  destruct (probes_ok _ Hmod) as [H1 H2].
  eapply probe_all_spec; [exact Hmod|exact H1|exact H2|exact Ho| |exact Hrun]. by intros tr b ?%elem_of_nil.
Qed.

(** ** One date *)

Section zone.
Context (p : ParsedCron) (Hp : parsed_ok p) (f : Formatter) (first last : Z).

Lemma latest_sound local offsets later t :
  latest (Some f) first last local offsets later = Ok (Some t) →
  later = Some t ∨ (first ≤ t ≤ last ∧ is_Some local ∧ wallTime (f t) = local).
Proof.
  revert later. induction offsets as [|offset offsets IH]; intros later; cbn [latest]; [intros [= ->]; by left|].
  set (time := l ← local; o ← offset; Some (l - o)).
  destruct (less time (Some first) || less (Some last) time) eqn:Hout; [apply IH|].
  intros (resolved & Hres & Hrun)%outcome_bind_ok. apply IH in Hrun as [Hrun|?]; [|by right].
  destruct (same (resolved ≫= wallTime) local && _) eqn:Hsame; [|by left]. right.
  apply andb_true_iff in Hsame as [[Hw Hsome]%same_true _].
  unfold readWall, wallMinute in Hres. rewrite Hrun in Hres. cbn [mbind option_bind] in Hres.
  destruct (time_clip t) as [t'|] eqn:Hclip; [|done]. injection Hres as <-. cbn [mbind option_bind] in Hw, Hsome.
  assert (t' = t) as -> by (unfold time_clip in Hclip; destruct (Z.abs t <=? MAX_TIME); congruence).
  rewrite Hrun in Hout. cbn [less] in Hout. apply orb_false_iff in Hout as [H1 H2].
  apply Z.ltb_ge in H1, H2. split_and!; [lia|lia| |done]. by rewrite <- Hw.
Qed.

Lemma best_of_sound day offsets times best t :
  best_of (Some f) first last day offsets times best = Ok (Some t) →
  best = Some t ∨ ∃ h m, (h, m) ∈ times ∧ first ≤ t ≤ last ∧ is_Some (wallTime (at_time day h m)) ∧
                         wallTime (f t) = wallTime (at_time day h m).
Proof.
  revert best. induction times as [|[h m] times IH]; intros best; cbn [best_of]; [intros [= ->]; by left|].
  intros (later & Hl & Hrun)%outcome_bind_ok. apply IH in Hrun as [Hrun|(h' & m' & Hin & H)];
    [|right; exists h', m'; split; [by right|done]].
  destruct (earlier later best); [|by left]. rewrite Hrun in Hl. apply latest_sound in Hl as [?|H]; [done|].
  right. exists h, m. split; [by left|done].
Qed.

Lemma gap_matches_sound day fuel missing limit :
  gap_matches p day fuel missing limit = true → ∃ t, missing ≤ t < limit ∧ matches p (utcWall t) = true.
Proof.
  revert missing. induction fuel as [|fuel IH]; intros missing; cbn [gap_matches]; [done|].
  destruct (Z.ltb_spec missing limit) as [Hlt|]; [|done]. intros [Hm|Hm]%orb_true_iff.
  - destruct (time_clip missing) as [t|] eqn:Hc; [|done]. apply andb_true_iff in Hm as [_ Hm]. exists t. split; [|done].
    unfold time_clip in Hc. destruct (Z.abs missing <=? MAX_TIME); [|done]. injection Hc as <-. lia.
  - apply IH in Hm as (t & Ht & Hm). exists t. split; [unfold MINUTE_MS in *; lia|done].
Qed.

(** A missing local minute the expression matches, skipped by a forward jump at [t]. *)
Definition skipped_minute (before after t : Z) : Prop :=
  before < after ∧ ∃ missing, t + before ≤ missing < t + after ∧ matches p (utcWall missing) = true.

Lemma gaps_sound day transitions best t :
  foldl (gap_step p first last day) best transitions = Some t →
  best = Some t ∨ ∃ tr before after, tr ∈ transitions ∧ tr_at tr = t ∧ tr_before tr = Some before ∧ first ≤ t ≤ last ∧
    skipped_minute before after t.
Proof.
  revert best. induction transitions as [|tr transitions IH]; intros best; cbn [foldl]; [by left|].
  intros [H|(tr' & b & a & Hin & H)]%IH; [|right; exists tr', b, a; split; [by right|done]].
  unfold gap_step in H. destruct (tr_before tr) as [before|] eqn:Hb; [|by left]. destruct (tr_after tr) as [after|]; [|by left].
  destruct ((after <=? before) || (tr_at tr <? first) || (tr_at tr >? last)) eqn:Hskip; [by left|].
  destruct (gap_matches _ _ _ _ _ && _) eqn:Hg; [|by left]. injection H as <-. right.
  apply andb_true_iff in Hg as [(missing & Hm)%gap_matches_sound _].
  exists tr, before, after. split_and!; [by left|done|done|lia|lia|]. split; [lia|]. by exists missing.
Qed.

(** The day test does not depend on the time of day. *)
Lemma date_weekday y mo d h m t :
  0 ≤ h < 24 → 0 ≤ m < 60 → Date_UTC y mo d h m = Some t →
  utc_weekday t = (make_day (if (0 <=? y) && (y <=? 99) then 1900 + y else y) mo d + 4) mod 7.
Proof.
  intros Hh Hm. unfold Date_UTC, time_clip. destruct (_ <=? _); [|done]. intros [= <-].
  unfold utc_weekday, make_time. do 2 f_equal. unfold MS_PER_DAY. Z.div_mod_to_equations. lia.
Qed.

Lemma matchesDay_at_time w h m :
  0 ≤ wm_hour w < 24 → 0 ≤ wm_minute w < 60 → 0 ≤ h < 24 → 0 ≤ m < 60 → is_Some (wallTime (at_time w h m)) →
  matchesDay p w = true → matchesDay p (at_time w h m) = true.
Proof.
  intros Hwh Hwm Hh Hm [t Ht]. unfold matchesDay. rewrite Ht. cbn [at_time wm_day].
  destruct (wallTime w) as [t0|] eqn:Ht0.
  - assert (utc_weekday t0 = utc_weekday t) as ->; [|done].
    unfold wallTime in Ht, Ht0. cbn [at_time wm_year wm_month wm_day wm_hour wm_minute] in Ht.
    by rewrite (date_weekday _ _ _ _ _ _ Hwh Hwm Ht0), (date_weekday _ _ _ _ _ _ Hh Hm Ht).
  - destruct (pc_dayOfMonthRestricted p && _); [|by rewrite andb_false_r]. rewrite orb_false_r. by intros ->.
Qed.

Lemma day_best_sound d t :
  d mod DAY_MS = 0 → day_best p (Some f) first last d = Ok (Some t) →
  first ≤ t ≤ last ∧
  ((∃ w, matches p w = true ∧ is_Some (wallTime w) ∧ wallTime (f t) = wallTime w) ∨
   (∃ before after, real_transition f before t ∧ skipped_minute before after t)).
Proof using Hp.
  intros Hd. unfold day_best. destruct (has (pc_month p) _) eqn:Hmonth; [|done]. destruct (matchesDay p _) eqn:Hday; [|done].
  cbn [negb orb]. intros ([offsets transitions] & Hz & Hrun)%outcome_bind_ok.
  apply outcome_bind_ok in Hrun as (best & Hb & Hrun). injection Hrun as Hrun.
  apply gaps_sound in Hrun as [->|(tr & before & after & Hin & <- & Hbef & Hr & Hskip)].
  - apply best_of_sound in Hb as [?|(h & m & Hin & Hr & Hsome & Hw)]; [done|]. split; [done|left].
    exists (at_time (utcWall d) h m). split_and!; [|done|done].
    pose proof (times_ok p Hp h m Hin) as [Hh Hm]. apply times_elem in Hin as [H1 H2].
    unfold matches. cbn [at_time wm_minute wm_hour wm_month]. rewrite Hmonth.
    pose proof (utc_fields_valid d) as (_ & Vh & Vm & _).
    rewrite (matchesDay_at_time (utcWall d) h m) by done.
    unfold has. by rewrite !bool_decide_eq_true_2 by done.
  - split; [done|right]. exists before, after. split; [|done].
    eapply zone_changes_spec; [exact Hd|exact Hz|exact Hin|exact Hbef].
Qed.

Lemma search_sound fuel d t :
  d mod DAY_MS = 0 → search p (Some f) first last fuel d = Ok (Some t) →
  ∃ d', d' mod DAY_MS = 0 ∧ day_best p (Some f) first last d' = Ok (Some t).
Proof.
  revert d. induction fuel as [|fuel IH]; intros d Hd; cbn [search]; [done|].
  intros (best & Hb & Hrun)%outcome_bind_ok. destruct best as [t'|]; [injection Hrun as ->; by exists d|].
  apply IH in Hrun; [done|]. unfold DAY_MS, MINUTE_MS in *. Z.div_mod_to_equations. lia.
Qed.
End zone.

Lemma wallDate_aligned w d : wallDate w = Some d → d mod DAY_MS = 0.
Proof.
  unfold wallDate, Date_UTC, time_clip. destruct (_ <=? _); [|done]. intros [= <-]. rewrite DAY_MS_value.
  unfold make_time, MS_PER_DAY. Z.div_mod_to_equations. lia.
Qed.
