(* ===== verification/CronClaims.v ===== *)
(** * CronClaims: the properties of the cron calculator. *)
From S2P Require Import Prelude JsMap JsText JsDate Cron CronParse CronSearch.
From Stdlib Require Import Ascii.
Local Open Scope Z_scope.

(** A field is accepted exactly when it is a list of well-formed parts: stars, numbers and intervals
    with digits, inside the field's range, with a positive step. Its values are those of the parts,
    each once. *)
Theorem parseField_grammar range :
  (∀ parts, parts ≠ [] → Forall (part_ok range) parts → is_Some (parseField (render_field parts) range)) ∧
  (∀ raw vs, parseField raw range = Some vs →
     ∃ parts, parts ≠ [] ∧ Forall (part_ok range) parts ∧ raw = render_field parts ∧
       NoDup vs ∧ ∀ v, v ∈ vs ↔ ∃ p, p ∈ parts ∧ part_has range p v).
Proof. split; [intros parts; by apply parseField_complete|intros raw vs; apply parseField_sound]. Qed.

(** Every field of a parsed expression has a value and only values of its range: minutes to 59, hours
    to 23, days of the month from 1 to 31, months from 1 to 12, days of the week to 6. *)
Theorem parsed_in_range e p :
  parseCronExpression e = Ok p →
  let within := λ lo hi vs, NoDup vs ∧ vs ≠ [] ∧ Forall (λ v : Z, lo ≤ v ≤ hi) vs in
  within 0 59 (pc_minute p) ∧ within 0 23 (pc_hour p) ∧ within 1 31 (pc_dayOfMonth p) ∧
  within 1 12 (pc_month p) ∧ within 0 6 (pc_dayOfWeek p).
Proof. exact (parse_ok e p). Qed.

(** C34. In UTC the next run is the first minute after the given instant at which the expression is due,
    and the call fails exactly when the expression is malformed or when no minute of the following
    five years is due. The instants are from year 100 on, before the last five years of [Date]. *)
Theorem nextCronRunAt_least intl e a :
  YEAR_100 ≤ a → a + MAX_SEARCH_MINUTES * MINUTE_MS ≤ MAX_TIME →
  match parseCronExpression e with
  | Throw err => nextCronRunAt intl e (Some a) "UTC" = Throw err
  | Ok p =>
      (∃ t, nextCronRunAt intl e (Some a) "UTC" = Ok t ∧ due p t ∧ a < t ≤ a + MAX_SEARCH_MINUTES * MINUTE_MS ∧
            ∀ t', due p t' → a < t' → t ≤ t') ∨
      (nextCronRunAt intl e (Some a) "UTC" = Throw (InvalidCronExpressionError e) ∧
       ∀ t', due p t' → a < t' → first_minute a + (MAX_SEARCH_MINUTES - 1) * MINUTE_MS < t')
  end.
Proof. exact (next_run_least intl e a). Qed.

(** In a timezone, whatever the zone data, a returned run is after the given instant and at most five
    years later, and the expression is due at it: the local minute the zone shows is one it matches,
    or the zone's clock jumps forward at it over a local minute it matches. *)
Theorem zone_run_is_due intl e after timezone t :
  timezone ≠ "UTC" → nextCronRunAt intl e after timezone = Ok t →
  ∃ a f p, after = Some a ∧ intl timezone = Some f ∧ parseCronExpression e = Ok p ∧
    a < t ≤ a + MAX_SEARCH_MINUTES * MINUTE_MS ∧
    ((∃ w, matches p w = true ∧ is_Some (wallTime w) ∧ wallTime (f t) = wallTime w) ∨
     (∃ before jumped missing, offsetAt f (t - MINUTE_MS) = Ok (Some before) ∧ offsetAt f t ≠ Ok (Some before) ∧
        before < jumped ∧ t + before ≤ missing < t + jumped ∧ matches p (utcWall missing) = true)).
Proof.
  intros Htz. unfold nextCronRunAt. intros (p & Hparse & Hrun)%outcome_bind_ok.
  rewrite (proj2 (String.eqb_neq timezone "UTC") Htz) in Hrun.
  apply outcome_bind_ok in Hrun as (formatter & Hf & Hrun).
  assert (∃ f, formatter = Some f ∧ intl timezone = Some f) as (f & -> & Hintl).
  { unfold timezoneFormatter in Hf. destruct (_ || _); [done|]. destruct (intl timezone) as [f|]; [|done].
    injection Hf as <-. by exists f. }
  apply outcome_bind_ok in Hrun as (startWall & _ & Hrun). apply outcome_bind_ok in Hrun as (endWall & _ & Hrun).
  apply outcome_bind_ok in Hrun as (found & Hfound & Hrun). destruct found as [t'|]; [injection Hrun as ->|done].
  destruct after as [a|]; [|done]. cbn [fmap option_fmap option_map] in Hfound.
  destruct (startWall ≫= wallDate) as [firstDay|] eqn:Hstart; [|done].
  destruct (endWall ≫= wallDate) as [lastDay|]; [|done].
  apply bind_Some in Hstart as (w & _ & Hw). apply wallDate_aligned in Hw.
  apply search_sound in Hfound as (d & Hd & Hbest); [|done].
  apply day_best_sound in Hbest as [Hr Hcase]; [|by eapply parse_ok|done].
  exists a, f, p. split_and!; [done|done|done| | |].
  - pose proof (first_minute_spec a) as (? & _). lia.
  - pose proof (first_minute_spec a) as (? & _). unfold last_minute in Hr. lia.
  - destruct Hcase as [?|(before & jumped & [Hb (o & Ho & Hne)] & Hlt & missing & Hm)]; [by left|right].
    exists before, jumped, missing. split_and!; [done|rewrite Ho; congruence|done|lia|lia|by destruct Hm].
Qed.

(** ** Examples *)

Module Example.
Definition no_zone (timezone : string) : option Formatter := None.
(** New York in 2026, by its two clock changes. *)
Definition new_york (t : Z) : WallMinute :=
  utcWall (t + (if (t <? 1772953200000) || (1793512800000 <=? t) then -18000000 else -14400000)).
Definition intl (timezone : string) : option Formatter :=
  if String.eqb timezone "America/New_York" then Some new_york else None.
(** 2026-08-24T10:01:20Z and 2026-03-08T06:59:00Z *)
Definition august : Z := 1787565680000.
Definition spring : Z := 1772953140000.

Lemma august_run : nextCronRunAt no_zone "*/15 * * * *" (Some august) "UTC" = Ok 1787566500000.
Proof. vm_compute. reflexivity. Qed.
Lemma spring_run : nextCronRunAt intl "30 2 * * *" (Some spring) "America/New_York" = Ok 1772953200000.
Proof. vm_compute. reflexivity. Qed.
End Example.

Lemma parseField_grammar_witness :
  parseField "5,10-20/5" minute_range = Some [5; 10; 15; 20] ∧
  is_Some (parseField (render_field [{| cp_base := BaseNumber "5"; cp_step := None |};
                                     {| cp_base := BaseInterval "10" "20"; cp_step := Some "5" |}]) minute_range) ∧
  ∃ parts, parts ≠ [] ∧ Forall (part_ok minute_range) parts ∧ "5,10-20/5" = render_field parts ∧ NoDup [5; 10; 15; 20] ∧
    ∀ v, v ∈ [5; 10; 15; 20] ↔ ∃ p, p ∈ parts ∧ part_has minute_range p v.
Proof.
  split; [by vm_compute|]. split.
  - apply (proj1 (parseField_grammar minute_range)); [done|]. repeat constructor; vm_compute; done.
  - apply (proj2 (parseField_grammar minute_range)). by vm_compute.
Defined.

Lemma parsed_in_range_witness :
  ∃ p, parseCronExpression "*/15 9-17 * * 1-5" = Ok p ∧ Forall (λ v, 0 ≤ v ≤ 23) (pc_hour p) ∧ pc_dayOfWeek p = [1; 2; 3; 4; 5].
Proof.
  assert (match parseCronExpression "*/15 9-17 * * 1-5" with Ok p => pc_dayOfWeek p = [1; 2; 3; 4; 5] | _ => False end) as Hok
    by by vm_compute.
  destruct (parseCronExpression "*/15 9-17 * * 1-5") as [p|] eqn:He; [|destruct Hok]. exists p.
  destruct (parsed_in_range "*/15 9-17 * * 1-5" p He) as (_ & (_ & _ & H) & _). split_and!; [reflexivity|exact H|exact Hok].
Defined.

Lemma nextCronRunAt_least_witness :
  ∃ p t, parseCronExpression "*/15 * * * *" = Ok p ∧
    nextCronRunAt Example.no_zone "*/15 * * * *" (Some Example.august) "UTC" = Ok t ∧ to_iso t = "2026-08-24T10:15:00.000Z" ∧
    due p t ∧ ∀ t', due p t' → Example.august < t' → t ≤ t'.
Proof.
  pose proof (nextCronRunAt_least Example.no_zone "*/15 * * * *" Example.august) as H.
  specialize (H ltac:(vm_compute; discriminate) ltac:(vm_compute; discriminate)).
  assert (∃ p, parseCronExpression "*/15 * * * *" = Ok p) as [p Hp] by (vm_compute; eexists; reflexivity). rewrite Hp in H.
  destruct H as [(t & Ht & Hdue & _ & Hmin)|[H _]]; [|pose proof (eq_trans (eq_sym Example.august_run) H); discriminate].
  exists p, t. split; [exact Hp|]. split; [exact Ht|]. split; [|split; [exact Hdue|exact Hmin]].
  pose proof (eq_trans (eq_sym Example.august_run) Ht) as He. injection He as <-. by vm_compute.
Defined.

(** The spring gap of New York: 02:30 local time runs at 07:00Z. *)
Lemma zone_run_is_due_witness :
  ∃ t, nextCronRunAt Example.intl "30 2 * * *" (Some Example.spring) "America/New_York" = Ok t ∧
    to_iso t = "2026-03-08T07:00:00.000Z" ∧
    ∃ p, parseCronExpression "30 2 * * *" = Ok p ∧
    ((∃ w, matches p w = true ∧ is_Some (wallTime w) ∧ wallTime (Example.new_york t) = wallTime w) ∨
     (∃ before jumped missing, offsetAt Example.new_york (t - MINUTE_MS) = Ok (Some before) ∧
        offsetAt Example.new_york t ≠ Ok (Some before) ∧
        before < jumped ∧ t + before ≤ missing < t + jumped ∧ matches p (utcWall missing) = true)).
Proof.
  exists 1772953200000. split; [exact Example.spring_run|]. split; [by vm_compute|].
  destruct (zone_run_is_due Example.intl "30 2 * * *" (Some Example.spring) "America/New_York" 1772953200000 ltac:(discriminate)
              Example.spring_run)
    as (a & f & p & _ & Hf & Hp & _ & Hcase).
  assert (f = Example.new_york) as -> by (unfold Example.intl in Hf; rewrite String.eqb_refl in Hf; congruence).
  exists p. split; [exact Hp|exact Hcase].
Defined.
