(* ===== verification/LruCache.v ===== *)
(** * LruCache: [TtlLruCache] of [auth/src/permission-cache.ts], against an unbounded cache.

    The store is a [Map] in insertion order; a hit is deleted and inserted again, so the order is
    that of the last use. [Date.now()] is an argument of the two methods that read it. *)
From S2P Require Import Prelude JsMap.
Local Open Scope Z_scope.

Record TtlEntry (V : Type) := { te_value : V; te_expiresAt : Z }.
Arguments Build_TtlEntry {V}. Arguments te_value {V}. Arguments te_expiresAt {V}.

Section cache.
Context {K V : Type} `{EqDecision K}.
Notation cache := (jsmap K (TtlEntry V)).
Implicit Types c pre post : cache.

Definition lru_get (now : Z) (key : K) (c : cache) : option V * cache :=
  match jm_get key c with
  | None => (None, c)
  | Some entry =>
      if te_expiresAt entry <=? now then (None, jm_delete key c)
      else (Some (te_value entry), jm_set key entry (jm_delete key c))
  end.

Definition lru_set (ttlMs maxSize : Z) (now : Z) (key : K) (value : V) (c : cache) : cache :=
  let c' := jm_set key {| te_value := value; te_expiresAt := now + ttlMs |} (jm_delete key c) in
  if maxSize <? Z.of_nat (length c')
  then match jm_keys c' with oldest :: _ => jm_delete oldest c' | [] => c' end
  else c'.

Definition lru_delete (key : K) (c : cache) : cache := jm_delete key c.
Definition lru_clear (c : cache) : cache := [].
Definition lru_values (c : cache) : list V := te_value <$> jm_values c.

(** ** The order of the entries *)

Lemma jm_delete_absent k c : k ∉ jm_keys c → jm_delete k c = c.
Proof.
  induction c as [|[k' e] c IH]; simpl; [done|]. rewrite not_elem_of_cons. intros [Hne Hni].
  rewrite decide_False by done. by rewrite IH.
Qed.
Lemma jm_set_absent k e c : k ∉ jm_keys c → jm_set k e c = c ++ [(k, e)].
Proof.
  induction c as [|[k' e'] c IH]; simpl; [done|]. rewrite not_elem_of_cons. intros [Hne Hni].
  rewrite decide_False by done. by rewrite IH.
Qed.
Lemma jm_delete_app k c1 c2 : jm_delete k (c1 ++ c2) = jm_delete k c1 ++ jm_delete k c2.
Proof. induction c1 as [|[k' e] c IH]; simpl; [done|]. case_decide; [done|]. by rewrite IH. Qed.
Lemma jm_delete_not_key k c : k ∉ jm_keys (jm_delete k c).
Proof. apply jm_get_None, jm_get_delete_eq. Qed.

(** An insertion puts the entry last. *)
Lemma touch_last k e c : jm_set k e (jm_delete k c) = jm_delete k c ++ [(k, e)].
Proof. apply jm_set_absent, jm_delete_not_key. Qed.

Lemma jm_delete_length k c : (length (jm_delete k c) ≤ length c)%nat.
Proof. induction c as [|[k' e] c IH]; simpl; [lia|]. case_decide; simpl; lia. Qed.
Lemma jm_delete_shorter k c : is_Some (jm_get k c) → (length (jm_delete k c) < length c)%nat.
Proof.
  induction c as [|[k' e] c IH]; simpl; [by intros []|]. pose proof (jm_delete_length k c). case_decide; simpl; [lia|].
  intros Hk. apply IH in Hk. lia.
Qed.

Lemma jm_split k e c : jm_get k c = Some e → ∃ pre post, c = pre ++ (k, e) :: post.
Proof. intros Hk%jm_get_elem. apply list_elem_of_split in Hk as (pre & post & ->). eauto. Qed.

Lemma delete_get key k c e : jm_get key (jm_delete k c) = Some e → key ≠ k ∧ jm_get key c = Some e.
Proof.
  destruct (decide (key = k)) as [->|Hne]; [by rewrite jm_get_delete_eq|]. by rewrite jm_get_delete_ne.
Qed.

(** ** Uses *)

Inductive LruOp := LSet (key : K) (value : V) | LGet (key : K) | LDelete (key : K) | LClear.

Context (ttlMs maxSize : Z).

(** An operation at a reading of the clock. *)
Definition lru_step (c : cache) (op : LruOp * Z) : cache :=
  match op with
  | (LSet k v, now) => lru_set ttlMs maxSize now k v c
  | (LGet k, now) => (lru_get now k c).2
  | (LDelete k, _) => lru_delete k c
  | (LClear, _) => lru_clear c
  end.
Definition lru_run (ops : list (LruOp * Z)) : cache := foldl lru_step [] ops.

(** The unbounded cache at a key: its entry, and the other keys used since it was used. A read
    counts as a use when it is sure to hit. *)
Definition ref_step (key : K) (st : option (TtlEntry V) * list K) (op : LruOp * Z) : option (TtlEntry V) * list K :=
  let '(entry, since) := st in
  let use k := (entry, set_add k since) in
  match op with
  | (LSet k v, now) => if decide (k = key) then (Some {| te_value := v; te_expiresAt := now + ttlMs |}, []) else use k
  | (LGet k, now) =>
      if decide (k = key) then
        match entry with
        | Some e => if te_expiresAt e <=? now then (None, [])
                    else (Some e, if Z.of_nat (length since) <? maxSize then [] else since)
        | None => (None, since)
        end
      else use k
  | (LDelete k, _) => if decide (k = key) then (None, []) else (entry, since)
  | (LClear, _) => (None, [])
  end.
Definition ref_run (key : K) (ops : list (LruOp * Z)) : option (TtlEntry V) * list K := foldl (ref_step key) (None, []) ops.

(** The bounded cache holds nothing the unbounded one does not, and holds its entry as long as
    fewer than [maxSize] other keys were used since; those are the keys behind it. *)
Record tracks (key : K) (c : cache) (st : option (TtlEntry V) * list K) : Prop := {
  tr_wf : jm_wf c;
  tr_size : Z.of_nat (length c) ≤ maxSize;
  tr_since : NoDup st.2;
  tr_sound e : jm_get key c = Some e → st.1 = Some e;
  tr_kept e : st.1 = Some e → Z.of_nat (length st.2) < maxSize →
    ∃ pre post, c = pre ++ (key, e) :: post ∧ ∀ k, k ∈ jm_keys post → k ∈ st.2 }.

Lemma wf_app_inv (key : K) (e : TtlEntry V) (pre post : jsmap K (TtlEntry V)) : jm_wf (pre ++ (key, e) :: post) →
  key ∉ jm_keys pre ∧ key ∉ jm_keys post ∧ jm_wf pre ∧ jm_wf post.
Proof.
  unfold jm_wf, jm_keys. rewrite fmap_app, fmap_cons. simpl. intros (H1 & H2 & [H3 H4]%NoDup_cons)%NoDup_app.
  split_and!; [|done|done|done]. intros Hin. apply (H2 _ Hin). by left.
Qed.

(** Deleting another key keeps the entry and what is behind it. *)
Lemma kept_delete key e k c pre post (since : list K) :
  jm_wf c → c = pre ++ (key, e) :: post → k ≠ key → (∀ k', k' ∈ jm_keys post → k' ∈ since) →
  ∃ pre' post', jm_delete k c = pre' ++ (key, e) :: post' ∧ ∀ k', k' ∈ jm_keys post' → k' ∈ since ∧ k' ≠ k.
Proof.
  intros Hwf -> Hne Hpost. rewrite jm_delete_app. simpl. rewrite decide_False by done.
  exists (jm_delete k pre), (jm_delete k post). split; [done|]. intros k'. rewrite jm_keys_delete, list_elem_of_filter.
  intros [? ?]. auto.
Qed.

Lemma jm_length_keys c : length (jm_keys c) = length c.
Proof. apply length_fmap. Qed.

Definition touch (k : K) (e : TtlEntry V) (c : cache) : cache := jm_set k e (jm_delete k c).
Lemma touch_app k e c : touch k e c = jm_delete k c ++ [(k, e)].
Proof. apply touch_last. Qed.
Lemma touch_wf k e c : jm_wf c → jm_wf (touch k e c).
Proof. intros. by apply jm_wf_set, jm_wf_delete. Qed.
Lemma touch_length k e c : (length (touch k e c) ≤ S (length c))%nat.
Proof. rewrite touch_app, length_app. simpl. pose proof (jm_delete_length k c). lia. Qed.

(** The eviction of an insertion. *)
Definition evict (c : cache) : cache :=
  if maxSize <? Z.of_nat (length c) then match jm_keys c with oldest :: _ => jm_delete oldest c | [] => c end else c.

Context (Hpos : 0 < maxSize).

Lemma evict_spec c : jm_wf c →
  (evict c = c ∧ Z.of_nat (length c) ≤ maxSize) ∨
  ∃ o e rest, c = (o, e) :: rest ∧ evict c = rest ∧ maxSize < Z.of_nat (length c).
Proof using Hpos.
  intros Hwf. unfold evict. destruct (Z.ltb_spec maxSize (Z.of_nat (length c))) as [Hlt|]; [|by left].
  destruct c as [|[o e] rest]; [simpl in Hlt; lia|]. right. exists o, e, rest. split_and!; [done| |done].
  simpl. rewrite decide_True by done. apply jm_delete_absent. by apply NoDup_cons in Hwf as [? _].
Qed.

(** An entry with few enough keys behind it survives an eviction. *)
Lemma evict_kept key e c pre post (since : list K) :
  jm_wf c → c = pre ++ (key, e) :: post → NoDup since → (∀ k, k ∈ jm_keys post → k ∈ since) →
  Z.of_nat (length since) < maxSize → ∃ pre', evict c = pre' ++ (key, e) :: post.
Proof using Hpos.
  intros Hwf Hc Hnd Hpost Hlt. destruct (evict_spec c Hwf) as [[-> _]|(o & e' & rest & Hc' & -> & Hlen)]; [by exists pre|].
  destruct pre as [|p pre]; [|exists pre; rewrite Hc in Hc'; by injection Hc' as _ ->].
  rewrite Hc in Hlen, Hwf. apply (wf_app_inv key e []) in Hwf as (_ & _ & _ & Hwf).
  assert (length (jm_keys post) ≤ length since)%nat as Hle by (apply NoDup_incl_length;
    [by apply NoDup_ListNoDup|intros k Hk%list_elem_of_In; by apply list_elem_of_In, Hpost]).
  rewrite jm_length_keys in Hle. simpl in Hlen. lia.
Qed.

Lemma evict_get key c e : jm_get key (evict c) = Some e → jm_get key c = Some e.
Proof. unfold evict. destruct (_ <? _); [|done]. destruct (jm_keys c); [done|]. by intros [_ ?]%delete_get. Qed.

Lemma touch_get key k e c : key ≠ k → jm_get key (touch k e c) = jm_get key c.
Proof. intros Hne. unfold touch. by rewrite jm_get_set_ne, jm_get_delete_ne. Qed.

(** Another key is used: the entry stays as it was, with that key behind it. *)
Lemma tracks_other key k e c st :
  tracks key c st → k ≠ key → tracks key (evict (touch k e c)) (st.1, set_add k st.2).
Proof using Hpos.
  intros [W S N Hs Hk] Hne. pose proof (touch_wf k e c W) as Wt. split; simpl.
  - destruct (evict_spec _ Wt) as [[-> _]|(o & e' & rest & Hc & -> & _)]; [done|]. rewrite Hc in Wt. by apply NoDup_cons in Wt as [_ ?].
  - destruct (evict_spec _ Wt) as [[-> ?]|(o & e' & rest & Hc & -> & _)]; [done|]. pose proof (touch_length k e c) as Hl.
    rewrite Hc in Hl. simpl in Hl. lia.
  - by apply NoDup_set_add.
  - intros e' He%evict_get. rewrite touch_get in He by done. auto.
  - intros e' He Hlt. assert (Z.of_nat (length st.2) < maxSize) as Hlt'.
    { revert Hlt. unfold set_add. case_decide; [done|]. rewrite length_app. simpl. lia. }
    destruct (Hk e' He Hlt') as (pre & post & Hc & Hpost).
    destruct (kept_delete key e' k c pre post st.2 W Hc Hne Hpost) as (pre' & post' & Hd & Hpost').
    assert (touch k e c = pre' ++ (key, e') :: (post' ++ [(k, e)])) as Ht.
    { rewrite touch_app, Hd. by rewrite <- app_assoc. }
    assert (∀ k', k' ∈ jm_keys (post' ++ [(k, e)]) → k' ∈ set_add k st.2) as Hin.
    { intros k'. unfold jm_keys. rewrite fmap_app, elem_of_app, elem_of_set_add. simpl. rewrite list_elem_of_singleton.
      intros [Hk1| ->]; [right; by apply Hpost'|by left]. }
    destruct (evict_kept key e' _ _ _ _ Wt Ht (NoDup_set_add k _ N) Hin Hlt) as (pre'' & ->). eauto.
Qed.

(** A key is used: it is the last. *)
Lemma tracks_used key e c since :
  jm_wf c → Z.of_nat (length c) ≤ maxSize → NoDup since → tracks key (evict (touch key e c)) (Some e, since).
Proof using Hpos.
  intros W S N. pose proof (touch_wf key e c W) as Wt. pose proof (touch_app key e c) as Ht.
  pose proof (touch_length key e c) as Hl.
  assert (∃ pre, evict (touch key e c) = pre ++ [(key, e)]) as [pre Hpre].
  { apply (evict_kept key e _ (jm_delete key c) [] []); [done|done|constructor|by intros k ?%elem_of_nil|simpl; lia]. }
  split; simpl.
  - destruct (evict_spec _ Wt) as [[-> _]|(o & e' & rest & Hc & -> & _)]; [done|]. rewrite Hc in Wt. by apply NoDup_cons in Wt as [_ ?].
  - destruct (evict_spec _ Wt) as [[-> ?]|(o & e' & rest & Hc & -> & _)]; [done|]. rewrite Hc in Hl. simpl in Hl. lia.
  - done.
  - intros e' He%evict_get. unfold touch in He. by rewrite jm_get_set_eq in He.
  - intros e' [= <-] _. exists pre, []. split; [done|]. by intros k ?%elem_of_nil.
Qed.

(** Nothing is held under the key. *)
Lemma tracks_none key c since : jm_wf c → Z.of_nat (length c) ≤ maxSize → NoDup since → jm_get key c = None →
  tracks key c (None, since).
Proof. intros W S N Hk. split; simpl; [done|done|done|congruence|done]. Qed.

Lemma tracks_delete key k c st : tracks key c st → k ≠ key → tracks key (jm_delete k c) st.
Proof using Hpos.
  intros [W S N Hs Hk] Hne. split; [by apply jm_wf_delete| |done| |].
  - pose proof (jm_delete_length k c). lia.
  - intros e [_ He]%delete_get. auto.
  - intros e He Hlt. destruct (Hk e He Hlt) as (pre & post & Hc & Hpost).
    destruct (kept_delete key e k c pre post st.2 W Hc Hne Hpost) as (pre' & post' & Hd & Hpost'). exists pre', post'.
    split; [done|]. intros k' Hk'. by apply Hpost'.
Qed.

Lemma tracks_weaken key c st since : tracks key c st → NoDup since → (length st.2 ≤ length since)%nat → st.2 ⊆ since →
  tracks key c (st.1, since).
Proof using Hpos.
  intros [W S N Hs Hk] Hnd Hlen Hsub. split; simpl; [done|done|done|done|]. intros e He Hlt.
  destruct (Hk e He ltac:(lia)) as (pre & post & Hc & Hpost). exists pre, post. split; [done|]. intros k ?. by apply Hsub, Hpost.
Qed.

Lemma evict_small c : Z.of_nat (length c) ≤ maxSize → evict c = c.
Proof. intros. unfold evict. by rewrite (proj2 (Z.ltb_ge _ _)). Qed.

Lemma tracks_get_none key c st : tracks key c st → jm_get key c = None → Z.of_nat (length st.2) < maxSize → st.1 = None.
Proof using Hpos.
  intros [W S N Hs Hk] Hnone Hlt. destruct st.1 as [e|] eqn:He; [|done]. destruct (Hk e eq_refl Hlt) as (pre & post & -> & _).
  apply jm_get_None in Hnone. destruct Hnone. unfold jm_keys. rewrite fmap_app. apply elem_of_app. right. by left.
Qed.
Lemma touch_small key e e' c : jm_wf c → jm_get key c = Some e' → Z.of_nat (length c) ≤ maxSize → evict (touch key e c) = touch key e c.
Proof using Hpos.
  intros W Hk S. apply evict_small. rewrite touch_app, length_app. simpl.
  pose proof (jm_delete_shorter key c ltac:(eauto)). lia.
Qed.

Lemma tracks_step key c st op : tracks key c st → tracks key (lru_step c op) (ref_step key st op).
Proof using Hpos.
  intros Ht. pose proof Ht as [W S N Hs Hk]. destruct st as [entry since]. cbn [fst snd] in *.
  destruct op as [[k v|k|k|] now]; cbn [lru_step ref_step].
  - change (lru_set ttlMs maxSize now k v c) with (evict (touch k {| te_value := v; te_expiresAt := now + ttlMs |} c)).
    case_decide as Hkey; [subst k; apply tracks_used; [done|done|constructor]|].
    by apply (tracks_other key k _ c (entry, since)).
  - unfold lru_get. case_decide as Hkey.
    + subst k. destruct (jm_get key c) as [e|] eqn:Hget; simpl.
      * rewrite (Hs e eq_refl). destruct (te_expiresAt e <=? now); simpl.
        { apply tracks_none; [by apply jm_wf_delete| |constructor|apply jm_get_delete_eq]. pose proof (jm_delete_length key c). lia. }
        change (jm_set key e (jm_delete key c)) with (touch key e c).
        rewrite <- (touch_small key e e c W Hget S). apply tracks_used; [done|done|]. case_match; [constructor|done].
      * destruct entry as [e|]; [|done].
        assert (¬ Z.of_nat (length since) < maxSize) as Hlen.
        { intros Hlt. by pose proof (tracks_get_none key c (Some e, since) Ht Hget Hlt). }
        destruct (te_expiresAt e <=? now); [by apply tracks_none; [..|constructor|]|].
        by rewrite (proj2 (Z.ltb_ge _ _)) by lia.
    + destruct (jm_get k c) as [e|] eqn:Hget; simpl.
      * destruct (te_expiresAt e <=? now); simpl.
        -- assert (tracks key (jm_delete k c) (entry, since)) as Hd by by apply tracks_delete.
           apply (tracks_weaken key _ _ (set_add k since)) in Hd; [exact Hd|by apply NoDup_set_add| |].
           ++ simpl. unfold set_add. case_decide; [done|]. rewrite length_app. lia.
           ++ intros x. rewrite elem_of_set_add. auto.
        -- change (jm_set k e (jm_delete k c)) with (touch k e c). rewrite <- (touch_small k e e c W Hget S).
           by apply (tracks_other key k _ c (entry, since)).
      * apply (tracks_weaken key _ _ (set_add k since)) in Ht; [exact Ht|by apply NoDup_set_add| |].
        -- simpl. unfold set_add. case_decide; [done|]. rewrite length_app. lia.
        -- intros x. rewrite elem_of_set_add. auto.
  - unfold lru_delete. case_decide as Hkey; [subst k|by apply tracks_delete].
    apply tracks_none; [by apply jm_wf_delete| |constructor|apply jm_get_delete_eq]. pose proof (jm_delete_length key c). lia.
  - apply tracks_none; [constructor|simpl; lia|constructor|done].
Qed.

Lemma tracks_run key ops : tracks key (lru_run ops) (ref_run key ops).
Proof using Hpos.
  unfold lru_run, ref_run. assert (tracks key [] (None, [])) as H0 by (apply tracks_none; [constructor|simpl; lia|constructor|done]).
  revert H0. generalize (@nil (K * TtlEntry V)) (@None (TtlEntry V), @nil K). induction ops as [|op ops IH]; intros c st Hst; [done|].
  simpl. by apply IH, tracks_step.
Qed.

(** The bounded cache never exceeds its size and never holds an entry the unbounded one has not;
    and as long as fewer other keys than its size were used since a key was used, it holds exactly
    the entry of the unbounded cache: the last value set, until it expired or was deleted. *)
Theorem lru_exact key ops :
  Z.of_nat (length (lru_run ops)) ≤ maxSize ∧ NoDup (jm_keys (lru_run ops)) ∧
  (∀ e, jm_get key (lru_run ops) = Some e → (ref_run key ops).1 = Some e) ∧
  (Z.of_nat (length (ref_run key ops).2) < maxSize → jm_get key (lru_run ops) = (ref_run key ops).1).
Proof using Hpos.
  pose proof (tracks_run key ops) as Ht. pose proof Ht as [W S N Hs Hk]. split_and!; [done|done|done|]. intros Hlt.
  destruct (jm_get key (lru_run ops)) as [e|] eqn:Hget; [symmetry; by apply Hs|].
  symmetry. by eapply tracks_get_none.
Qed.
End cache.

(** Three keys in a cache of two: the least recently used one is gone, a read keeps its key. *)
Lemma lru_exact_witness :
  let ops := [(LSet "a" 1%nat, 0); (LSet "b" 2%nat, 10); (LGet "a", 20); (LSet "c" 3%nat, 30)] in
  jm_get "b" (lru_run 100 2 ops) = None ∧
  jm_get "a" (lru_run 100 2 ops) = (ref_run 100 2 "a" ops).1 ∧
  (ref_run 100 2 "a" ops).1 = Some {| te_value := 1%nat; te_expiresAt := 100 |}.
Proof.
  split; [by vm_compute|]. split; [|by vm_compute].
  apply (lru_exact 100 2 ltac:(lia) "a" [(LSet "a" 1%nat, 0); (LSet "b" 2%nat, 10); (LGet "a", 20); (LSet "c" 3%nat, 30)]).
  by vm_compute.
Defined.
