(* ===== verification/PermissionCache.v ===== *)
(** * PermissionCache: [auth/src/permission-cache.ts] over any backend, and its invariant.

    The two bounded caches are those of [LruCache]. [Date.now()] is read by index, and the n-th
    question to the permission database is answered by the n-th reply, which can be a failure.
    [InMemoryBackend] is [auth/src/in-memory-permission-cache-backend.ts]. *)
From S2P Require Import Prelude JsMap JsText JsDate LruCache.
From Stdlib Require Import Ascii.

Local Open Scope Z_scope.

Record PermissionCacheRecord := {
  pr_sid : string; pr_userId : string; pr_tenantId : string; pr_membershipId : string;
  pr_permissions : list string; pr_hash : string; pr_generation : Z; pr_computedAt : Z }.
Record HashProbeState := { hp_hash : option string; hp_generation : Z }.
Record ResolvedPermissionState := {
  rp_membershipId : string; rp_permissions : list string; rp_hash : string; rp_generation : Z }.
(** What [getForSession] reads of the access token. *)
Record StynxAccessTokenClaims := { tk_sub : string; tk_sid : string; tk_tenantId : string; tk_permsHash : option string }.

Inductive PermError := TenantAccessDenied | PortFailure (message : string).

(** A backend. A failing call leaves its own state. *)
Class PermissionCacheBackend (B : Type) := {
  be_get : string → JS B PermError (option PermissionCacheRecord);
  be_set : PermissionCacheRecord → option Z → JS B PermError ();
  be_delete : string → JS B PermError ();
  be_invalidateScope : string → JS B PermError ();
  (** The messages the subscriber of this process has handled when [publish] returns. *)
  be_publish : string → JS B PermError (list string) }.

(** [hits] of the metrics. *)
Record Hits := { hit_in_memory : Z; hit_redis : Z; hit_db : Z }.

Record Cache (B : Type) := {
  pm_inMemory : jsmap string (TtlEntry PermissionCacheRecord);
  pm_hashProbe : jsmap string (TtlEntry HashProbeState);
  pm_hits : Hits;
  pm_backend : option B;
  pm_clock : nat;
  pm_queries : nat }.
Arguments Build_Cache {B}. Arguments pm_inMemory {B}. Arguments pm_hashProbe {B}. Arguments pm_hits {B}.
Arguments pm_backend {B}. Arguments pm_clock {B}. Arguments pm_queries {B}.

Definition new_cache {B} (backend : option B) : Cache B :=
  {| pm_inMemory := []; pm_hashProbe := []; pm_hits := {| hit_in_memory := 0; hit_redis := 0; hit_db := 0 |};
     pm_backend := backend; pm_clock := 0; pm_queries := 0 |}.

Definition hashProbeKey (userId tenantId : string) : string := userId +:+ String ":" tenantId.

(** [const \[userId, tenantId\] = message.split(':')], both present and not empty. *)
Definition parse_scope (message : string) : option (string * string) :=
  match split_on ":" message with
  | userId :: tenantId :: _ =>
      if String.eqb userId EmptyString || String.eqb tenantId EmptyString then None else Some (userId, tenantId)
  | _ => None
  end.

(** [try { m } catch (error) { handler }] *)
Definition try_catch {S A} (m : JS S PermError A) (handler : PermError → JS S PermError A) : JS S PermError A :=
  λ s, match m s with (Ok a, s') => (Ok a, s') | (Throw e, s') => handler e s' end.

Section cache.
Context {B : Type} `{!PermissionCacheBackend B}.
Context (dbFallbackOnRedisDown : bool) (driftResyncIntervalMs : option Z) (clock : nat → Z)
        (resolveForUser : nat → string → string → outcome PermError ResolvedPermissionState)
        (probeHash : nat → string → string → outcome PermError HashProbeState).

Notation Perm A := (JS (Cache B) PermError A).

(** ** Parts of the state *)

Definition Date_now : Perm Z := λ s,
  (Ok (clock (pm_clock s)),
   Build_Cache (pm_inMemory s) (pm_hashProbe s) (pm_hits s) (pm_backend s) (S (pm_clock s)) (pm_queries s)).
Definition query {A} (f : nat → outcome PermError A) : Perm A := λ s,
  (f (pm_queries s),
   Build_Cache (pm_inMemory s) (pm_hashProbe s) (pm_hits s) (pm_backend s) (pm_clock s) (S (pm_queries s))).
Definition put_inMemory m (s : Cache B) : Cache B :=
  Build_Cache m (pm_hashProbe s) (pm_hits s) (pm_backend s) (pm_clock s) (pm_queries s).
Definition put_hashProbe m (s : Cache B) : Cache B :=
  Build_Cache (pm_inMemory s) m (pm_hits s) (pm_backend s) (pm_clock s) (pm_queries s).
Definition put_hits h (s : Cache B) : Cache B :=
  Build_Cache (pm_inMemory s) (pm_hashProbe s) h (pm_backend s) (pm_clock s) (pm_queries s).

(** A call of the backend when there is one. *)
Definition on_backend {A} (m : JS B PermError A) (absent : A) : Perm A := λ s,
  match pm_backend s with
  | None => (Ok absent, s)
  | Some b =>
      let '(o, b') := m b in
      (o, Build_Cache (pm_inMemory s) (pm_hashProbe s) (pm_hits s) (Some b') (pm_clock s) (pm_queries s))
  end.

Inductive Tier := tier_in_memory | tier_redis | tier_db.
Definition increment (tier : Tier) : Perm () := modify (λ s,
  put_hits (match tier with
            | tier_in_memory => {| hit_in_memory := hit_in_memory (pm_hits s) + 1; hit_redis := hit_redis (pm_hits s); hit_db := hit_db (pm_hits s) |}
            | tier_redis => {| hit_in_memory := hit_in_memory (pm_hits s); hit_redis := hit_redis (pm_hits s) + 1; hit_db := hit_db (pm_hits s) |}
            | tier_db => {| hit_in_memory := hit_in_memory (pm_hits s); hit_redis := hit_redis (pm_hits s); hit_db := hit_db (pm_hits s) + 1 |}
            end) s).

(** ** The two caches *)

Definition MEMORY_TTL : Z := 5000.
Definition PROBE_TTL : Z := 1000.
Definition MAX_SIZE : Z := 10000.

(** A [get] reads the clock only when there is an entry. *)
Definition inMemory_get (sid : string) : Perm (option PermissionCacheRecord) :=
  c ← getf pm_inMemory;
  match jm_get sid c with
  | None => mret None
  | Some _ => n ← Date_now; let '(v, c') := lru_get n sid c in _ ← modify (put_inMemory c'); mret v
  end.
Definition inMemory_set (sid : string) (record : PermissionCacheRecord) : Perm () :=
  n ← Date_now; modify (λ s, put_inMemory (lru_set MEMORY_TTL MAX_SIZE n sid record (pm_inMemory s)) s).
Definition inMemory_delete (sid : string) : Perm () := modify (λ s, put_inMemory (lru_delete sid (pm_inMemory s)) s).

Definition hashProbe_get (key : string) : Perm (option HashProbeState) :=
  c ← getf pm_hashProbe;
  match jm_get key c with
  | None => mret None
  | Some _ => n ← Date_now; let '(v, c') := lru_get n key c in _ ← modify (put_hashProbe c'); mret v
  end.
Definition hashProbe_set (key : string) (state : HashProbeState) : Perm () :=
  n ← Date_now; modify (λ s, put_hashProbe (lru_set PROBE_TTL MAX_SIZE n key state (pm_hashProbe s)) s).

(** ** Reading *)

Definition detectHashDrift (userId tenantId currentHash : string) : Perm bool :=
  let key := hashProbeKey userId tenantId in
  cached ← hashProbe_get key;
  match cached with
  | Some c => mret (negb (bool_decide (hp_hash c = Some currentHash)))
  | None =>
      probed ← query (λ n, probeHash n userId tenantId);
      _ ← hashProbe_set key probed;
      mret (bool_decide (hp_hash probed ≠ None) && negb (bool_decide (hp_hash probed = Some currentHash)))
  end.

Definition recompute (userId tenantId sid : string) : Perm PermissionCacheRecord :=
  resolved ← query (λ n, resolveForUser n userId tenantId);
  n ← Date_now;
  let record := {| pr_sid := sid; pr_userId := userId; pr_tenantId := tenantId;
                   pr_membershipId := rp_membershipId resolved; pr_permissions := rp_permissions resolved;
                   pr_hash := rp_hash resolved; pr_generation := rp_generation resolved; pr_computedAt := n |} in
  _ ← inMemory_set sid record;
  _ ← hashProbe_set (hashProbeKey userId tenantId) {| hp_hash := Some (pr_hash record); hp_generation := pr_generation record |};
  _ ← on_backend (be_set record (Some (24 * 60 * 60))) ();
  mret record.

(** [!claims.permsHash || record.hash === claims.permsHash] *)
Definition hash_accepted (claims : StynxAccessTokenClaims) (record : PermissionCacheRecord) : bool :=
  match tk_permsHash claims with
  | None => true
  | Some h => String.eqb h EmptyString || String.eqb (pr_hash record) h
  end.

Definition from_memory (claims : StynxAccessTokenClaims) : Perm (option PermissionCacheRecord) :=
  inMemory ← inMemory_get (tk_sid claims);
  match inMemory with
  | None => mret None
  | Some r =>
      if hash_accepted claims r then
        drift ← detectHashDrift (pr_userId r) (pr_tenantId r) (pr_hash r);
        if drift : bool then mret None else _ ← increment tier_in_memory; mret (Some r)
      else mret None
  end.

Definition from_backend (claims : StynxAccessTokenClaims) : Perm (option PermissionCacheRecord) :=
  redisRecord ← on_backend (be_get (tk_sid claims)) None;
  match redisRecord with
  | None => mret None
  | Some r =>
      if hash_accepted claims r then
        drift ← detectHashDrift (pr_userId r) (pr_tenantId r) (pr_hash r);
        if drift : bool then mret None
        else _ ← inMemory_set (tk_sid claims) r; _ ← increment tier_redis; mret (Some r)
      else mret None
  end.

Definition getForSession (claims : StynxAccessTokenClaims) : Perm PermissionCacheRecord :=
  inMemory ← from_memory claims;
  match inMemory with
  | Some r => mret r
  | None =>
      redisRecord ← try_catch (from_backend claims) (λ e, if dbFallbackOnRedisDown then mret None else throw e);
      match redisRecord with
      | Some r => mret r
      | None =>
          recomputed ← recompute (tk_sub claims) (tk_tenantId claims) (tk_sid claims);
          _ ← increment tier_db;
          mret recomputed
      end
  end.

(** ** Writing *)

(** [Math.max(1, Math.ceil((new Date(iso) - now) / 1000))], [None] for NaN. *)
Definition ttl_seconds (expiresAtIso : string) (now : Z) : option Z :=
  (λ t, Z.max 1 (- (- (t - now) / 1000))) <$> date_parse expiresAtIso.

Definition prime (record : PermissionCacheRecord) (expiresAtIso : string) : Perm () :=
  _ ← inMemory_set (pr_sid record) record;
  _ ← hashProbe_set (hashProbeKey (pr_userId record) (pr_tenantId record))
        {| hp_hash := Some (pr_hash record); hp_generation := pr_generation record |};
  backend ← getf pm_backend;
  match backend with
  | None => mret ()
  | Some _ => n ← Date_now; on_backend (be_set record (ttl_seconds expiresAtIso n)) ()
  end.

Definition invalidateSid (sid : string) : Perm () :=
  _ ← inMemory_delete sid;
  on_backend (be_delete sid) ().

Definition inspectSid (sid : string) : Perm (option PermissionCacheRecord) :=
  inMemory ← inMemory_get sid;
  match inMemory with Some r => mret (Some r) | None => on_backend (be_get sid) None end.

Definition in_scope (userId tenantId : string) (record : PermissionCacheRecord) : bool :=
  (String.eqb userId "*" || String.eqb (pr_userId record) userId)
  && (String.eqb tenantId "*" || String.eqb (pr_tenantId record) tenantId).

Definition handleInvalidation (message : string) : Perm () :=
  match parse_scope message with
  | None => mret ()
  | Some (userId, tenantId) =>
      _ ← (if String.eqb userId "*" && String.eqb tenantId "*" then modify (put_inMemory [])
           else
             records ← getf (λ s, lru_values (pm_inMemory s));
             modify (λ s, put_inMemory
               (foldl (λ c r, if in_scope userId tenantId r then lru_delete (pr_sid r) c else c) (pm_inMemory s) records) s));
      on_backend (be_invalidateScope message) ()
  end.

Definition publishInvalidation (message : string) : Perm () :=
  delivered ← on_backend (be_publish message) [];
  foldl (λ m msg, _ ← m; handleInvalidation msg) (mret ()) delivered.

(** ** The background refresh *)

Definition refreshEntry (record : PermissionCacheRecord) : Perm () :=
  (λ _, ()) <$> recompute (pr_userId record) (pr_tenantId record) (pr_sid record).

Definition resyncStaleCacheEntries : Perm () :=
  n ← Date_now;
  records ← getf (λ s, lru_values (pm_inMemory s));
  foldl (λ m r, _ ← m;
           if default 0 driftResyncIntervalMs <=? n - pr_computedAt r
           then try_catch (refreshEntry r) (λ _, mret ()) else mret ()) (mret ()) records.
End cache.

(** ** The in-memory backend *)

Record InMemoryBackend := {
  ib_records : jsmap string PermissionCacheRecord;
  ib_byUser : jsmap string (list string);
  ib_byTenant : jsmap string (list string);
  ib_subscribed : bool }.

Definition ib_addIndex (index : jsmap string (list string)) (key sid : string) : jsmap string (list string) :=
  jm_set key (set_add sid (default [] (jm_get key index))) index.
Definition ib_dropIndex (index : jsmap string (list string)) (key sid : string) : jsmap string (list string) :=
  match jm_get key index with Some l => jm_set key (set_delete sid l) index | None => index end.

Definition ib_get (sid : string) (b : InMemoryBackend) : option PermissionCacheRecord := jm_get sid (ib_records b).
Definition ib_set (record : PermissionCacheRecord) (b : InMemoryBackend) : InMemoryBackend :=
  {| ib_records := jm_set (pr_sid record) record (ib_records b);
     ib_byUser := ib_addIndex (ib_byUser b) (pr_userId record) (pr_sid record);
     ib_byTenant := ib_addIndex (ib_byTenant b) (pr_tenantId record) (pr_sid record);
     ib_subscribed := ib_subscribed b |}.
Definition ib_delete (sid : string) (b : InMemoryBackend) : InMemoryBackend :=
  match jm_get sid (ib_records b) with
  | None => b
  | Some record =>
      {| ib_records := jm_delete sid (ib_records b);
         ib_byUser := ib_dropIndex (ib_byUser b) (pr_userId record) sid;
         ib_byTenant := ib_dropIndex (ib_byTenant b) (pr_tenantId record) sid;
         ib_subscribed := ib_subscribed b |}
  end.
Definition ib_delete_all (sids : list string) (b : InMemoryBackend) : InMemoryBackend := foldl (λ b sid, ib_delete sid b) b sids.

Definition ib_invalidateScope (message : string) (b : InMemoryBackend) : InMemoryBackend :=
  match parse_scope message with
  | None => b
  | Some (userId, tenantId) =>
      if String.eqb userId "*" && String.eqb tenantId "*" then ib_delete_all (jm_keys (ib_records b)) b
      else if String.eqb userId "*" then ib_delete_all (default [] (jm_get tenantId (ib_byTenant b))) b
      else
        foldl (λ b sid,
                 match jm_get sid (ib_records b) with
                 | Some record => if String.eqb (pr_tenantId record) tenantId then ib_delete sid b else b
                 | None => b
                 end) b (default [] (jm_get userId (ib_byUser b)))
  end.
Definition ib_subscribe (b : InMemoryBackend) : InMemoryBackend :=
  {| ib_records := ib_records b; ib_byUser := ib_byUser b; ib_byTenant := ib_byTenant b; ib_subscribed := true |}.
Definition ib_close (b : InMemoryBackend) : InMemoryBackend :=
  {| ib_records := []; ib_byUser := []; ib_byTenant := []; ib_subscribed := ib_subscribed b |}.

#[export] Instance in_memory_backend : PermissionCacheBackend InMemoryBackend := {|
  be_get sid := getf (ib_get sid);
  be_set record _ := modify (ib_set record);
  be_delete sid := modify (ib_delete sid);
  be_invalidateScope message := modify (ib_invalidateScope message);
  be_publish message := getf (λ b, if ib_subscribed b then [message] else []) |}.

Definition new_backend : InMemoryBackend := {| ib_records := []; ib_byUser := []; ib_byTenant := []; ib_subscribed := true |}.

(** ** What every method keeps of the hash probes.

    Section [probes] is about any property [R] of a probe entry and a reading of the clock that
    time does not undo and that the replies of the permission database establish. *)

(** ** Entries of a bounded cache *)

Section entries.
Context {K V : Type} `{EqDecision K} (P : K → TtlEntry V → Prop).
Definition entries_ok (c : jsmap K (TtlEntry V)) : Prop := ∀ k e, jm_get k c = Some e → P k e.

Lemma entries_delete k c : entries_ok c → entries_ok (jm_delete k c).
Proof. intros Hc k' e [_ He]%delete_get. auto. Qed.
Lemma entries_lru_get now key c : entries_ok c → entries_ok (lru_get now key c).2.
Proof.
  intros Hc. unfold lru_get. destruct (jm_get key c) as [e|] eqn:Hget; [|done].
  destruct (te_expiresAt e <=? now); simpl; [by apply entries_delete|]. intros k e'. rewrite jm_get_set.
  case_decide as Hk; [intros [= <-]; subst k; by apply Hc|]. by intros [_ ?%Hc]%delete_get.
Qed.
Lemma entries_lru_set ttl size now key v c :
  entries_ok c → P key {| te_value := v; te_expiresAt := now + ttl |} → entries_ok (lru_set ttl size now key v c).
Proof.
  intros Hc Hp. assert (entries_ok (jm_set key {| te_value := v; te_expiresAt := now + ttl |} (jm_delete key c))) as Hset.
  { intros k e'. rewrite jm_get_set. case_decide as Hk; [intros [= <-]; by subst k|]. by intros [_ ?%Hc]%delete_get. }
  unfold lru_set. destruct (_ <? _); [|done]. destruct (jm_keys _); [done|]. by apply entries_delete.
Qed.
Lemma lru_get_value now (key : K) (c : jsmap K (TtlEntry V)) v c' : lru_get now key c = (Some v, c') →
  ∃ e, jm_get key c = Some e ∧ te_value e = v ∧ now < te_expiresAt e.
Proof.
  unfold lru_get. destruct (jm_get key c) as [e|]; [|done]. destruct (Z.leb_spec (te_expiresAt e) now); [done|].
  intros [= <- _]. by exists e.
Qed.
End entries.

Section probes.
Context {B : Type} `{!PermissionCacheBackend B}.
Context (dbFallbackOnRedisDown : bool) (driftResyncIntervalMs : option Z) (clock : nat → Z)
        (resolveForUser : nat → string → string → outcome PermError ResolvedPermissionState)
        (probeHash : nat → string → string → outcome PermError HashProbeState).

Context (R : string → TtlEntry HashProbeState → nat → Prop) (c0 q0 : nat).
Context (R_mono : ∀ k e c, R k e c → R k e (S c)).
Definition good (k : string) (st : HashProbeState) : Prop :=
  ∀ c, (c0 ≤ c)%nat → R k {| te_value := st; te_expiresAt := clock c + PROBE_TTL |} c.
Context (probe_good : ∀ n u t st, (q0 ≤ n)%nat → probeHash n u t = Ok st → good (hashProbeKey u t) st).
Context (resolve_good : ∀ n u t res, (q0 ≤ n)%nat → resolveForUser n u t = Ok res →
           good (hashProbeKey u t) {| hp_hash := Some (rp_hash res); hp_generation := rp_generation res |}).

Definition probe_inv (s : Cache B) : Prop :=
  (q0 ≤ pm_queries s)%nat ∧ (c0 ≤ pm_clock s)%nat ∧ entries_ok (λ k e, R k e (pm_clock s)) (pm_hashProbe s).

Notation keeps := (preserves (S := Cache B) (E := PermError) probe_inv).

Lemma keeps_Date_now : keeps (Date_now clock).
Proof using R_mono. intros s (Hq & Hc & He). split_and!; simpl; [done|lia|]. intros k e Hk. by apply R_mono, He. Qed.
Lemma keeps_put_inMemory f : keeps (modify (λ s, put_inMemory (f s) s)).
Proof. by apply preserves_modify. Qed.
Lemma keeps_increment tier : keeps (increment tier).
Proof. by apply preserves_modify. Qed.
Lemma keeps_on_backend {A} (m : JS B PermError A) absent : keeps (on_backend m absent).
Proof. intros s Hs. unfold on_backend. destruct (pm_backend s) as [b|]; [|done]. by destruct (m b). Qed.
Lemma keeps_try {A} (m : JS (Cache B) PermError A) handler : keeps m → (∀ e, keeps (handler e)) → keeps (try_catch m handler).
Proof. intros Hm Hh s Hs. specialize (Hm s Hs). unfold try_catch. destruct (m s) as [[a|e] s']; [done|by apply Hh]. Qed.
Lemma keeps_fmap {A A'} (f : A → A') (m : JS (Cache B) PermError A) : keeps m → keeps (f <$> m).
Proof. intros Hm s Hs. specialize (Hm s Hs). unfold fmap, js_fmap. by destruct (m s) as [[?|?] ?]. Qed.
Lemma keeps_fold {A} (f : A → JS (Cache B) PermError ()) l m :
  keeps m → (∀ a, keeps (f a)) → keeps (foldl (λ m a, _ ← m; f a) m l).
Proof. intros Hm Hf. revert m Hm. induction l as [|a l IH]; intros m Hm; simpl; [done|]. apply IH. by apply preserves_bind. Qed.

#[local] Hint Resolve keeps_Date_now keeps_put_inMemory keeps_increment keeps_on_backend : js.
Ltac keeps :=
  repeat first
    [ solve [auto with js]
    | match goal with
      | |- preserves _ (_ <$> _) => apply keeps_fmap
      | |- preserves _ (_ ≫= _) => apply preserves_bind; [|intros]
      | |- preserves _ (try_catch _ _) => apply keeps_try; [|intros]
      | |- preserves _ (match ?x with _ => _ end) => destruct x
      end ].

Lemma keeps_inMemory_get sid : keeps (inMemory_get clock sid).
Proof using R_mono. unfold inMemory_get. keeps. Qed.
Lemma keeps_inMemory_set sid r : keeps (inMemory_set clock sid r).
Proof using R_mono. unfold inMemory_set. keeps. Qed.
Lemma keeps_inMemory_delete sid : keeps (inMemory_delete (B := B) sid).
Proof. unfold inMemory_delete. keeps. Qed.

(** A probe that is returned is an entry that has not expired. *)
Lemma hashProbe_get_spec key s :
  probe_inv s →
  ∃ o s', hashProbe_get clock key s = (Ok o, s') ∧ probe_inv s' ∧ (pm_clock s ≤ pm_clock s')%nat ∧ pm_queries s' = pm_queries s ∧
    ∀ st, o = Some st → ∃ e, R key e (pm_clock s) ∧ te_value e = st ∧ clock (pm_clock s) < te_expiresAt e.
Proof using R_mono.
  intros (Hq & Hc & He). unfold hashProbe_get. js_unfold. destruct (jm_get key (pm_hashProbe s)) as [e0|] eqn:Hget;
    [|exists None, s; split_and!; done]. cbn [fst snd Date_now pm_clock pm_hashProbe].
  pose proof (entries_lru_get _ (clock (pm_clock s)) key _ He) as Hent.
  destruct (lru_get (clock (pm_clock s)) key (pm_hashProbe s)) as [v c'] eqn:Hl. simpl in Hent.
  exists v. eexists. split; [done|]. split; [|split; [simpl; lia|split; [done|]]].
  - split_and!; simpl; [done|lia|]. intros k e Hk. apply R_mono, Hent, Hk.
  - intros st ->. apply lru_get_value in Hl as (e & Hk & Hv & Hlt). exists e. split_and!; [by apply He|done|done].
Qed.

Lemma keeps_hashProbe_set key st : good key st → keeps (hashProbe_set clock key st).
Proof using R_mono.
  intros Hg s (Hq & Hc & He). split_and!; simpl; [done|lia|]. apply entries_lru_set.
  - intros k e Hk. by apply R_mono, He.
  - by apply R_mono, Hg.
Qed.

(** A reply of the database, from the settled ones on. *)
Lemma query_spec {A} (f : nat → outcome PermError A) s :
  probe_inv s → ∃ n s', query f s = (f n, s') ∧ (q0 ≤ n)%nat ∧ probe_inv s' ∧ pm_clock s' = pm_clock s.
Proof. intros (Hq & Hc & He). exists (pm_queries s). eexists. split; [done|]. split; [done|]. split; [|done]. split_and!; simpl; [lia|done|done]. Qed.

Lemma keeps_detectHashDrift u t h : keeps (detectHashDrift clock probeHash u t h).
Proof using R_mono probe_good.
  intros s Hs. unfold detectHashDrift. unfold mbind at 1, js_bind at 1.
  destruct (hashProbe_get_spec (hashProbeKey u t) s Hs) as (o & s1 & -> & Hs1 & _). destruct o as [st|]; [done|].
  unfold mbind at 1, js_bind at 1. destruct (query_spec (λ n, probeHash n u t) s1 Hs1) as (n & s2 & -> & Hn & Hs2 & _).
  destruct (probeHash n u t) as [st|e] eqn:Hp; [|done].
  apply (preserves_bind probe_inv); [apply keeps_hashProbe_set; by eapply probe_good|intros; auto with js|done].
Qed.

Lemma keeps_recompute u t sid : keeps (recompute clock resolveForUser u t sid).
Proof using R_mono resolve_good.
  intros s Hs. unfold recompute. unfold mbind at 1, js_bind at 1.
  destruct (query_spec (λ n, resolveForUser n u t) s Hs) as (n & s1 & -> & Hn & Hs1 & _).
  destruct (resolveForUser n u t) as [res|e] eqn:Hr; [|done].
  assert (∀ m : Z, keeps (
    let record := {| pr_sid := sid; pr_userId := u; pr_tenantId := t; pr_membershipId := rp_membershipId res;
                     pr_permissions := rp_permissions res; pr_hash := rp_hash res; pr_generation := rp_generation res;
                     pr_computedAt := m |} in
    _ ← inMemory_set clock sid record;
    _ ← hashProbe_set clock (hashProbeKey u t) {| hp_hash := Some (pr_hash record); hp_generation := pr_generation record |};
    _ ← on_backend (be_set record (Some (24 * 60 * 60))) ();
    mret record)) as Hk.
  { intros m. cbv zeta. apply preserves_bind; [apply keeps_inMemory_set|intros].
    apply preserves_bind; [apply keeps_hashProbe_set; by eapply resolve_good|intros]. keeps. }
  apply (preserves_bind probe_inv (Date_now clock)); [apply keeps_Date_now|exact Hk|exact Hs1].
Qed.

#[local] Hint Resolve keeps_inMemory_get keeps_inMemory_set keeps_inMemory_delete keeps_detectHashDrift keeps_recompute : js.

Lemma keeps_from_memory claims : keeps (from_memory clock probeHash claims).
Proof using R_mono probe_good. unfold from_memory. keeps. Qed.
Lemma keeps_from_backend claims : keeps (from_backend clock probeHash claims).
Proof using R_mono probe_good. unfold from_backend. keeps. Qed.
#[local] Hint Resolve keeps_from_memory keeps_from_backend : js.
Lemma keeps_getForSession claims : keeps (getForSession dbFallbackOnRedisDown clock resolveForUser probeHash claims).
Proof using R_mono probe_good resolve_good. unfold getForSession. keeps. Qed.
Lemma keeps_invalidateSid sid : keeps (invalidateSid (B := B) sid).
Proof. unfold invalidateSid. keeps. Qed.
Lemma keeps_inspectSid sid : keeps (inspectSid (B := B) clock sid).
Proof using R_mono. unfold inspectSid. keeps. Qed.
Lemma keeps_handleInvalidation msg : keeps (handleInvalidation (B := B) msg).
Proof. unfold handleInvalidation. keeps. Qed.
Lemma keeps_publishInvalidation msg : keeps (publishInvalidation (B := B) msg).
Proof.
  unfold publishInvalidation. apply preserves_bind; [auto with js|intros l].
  apply (keeps_fold handleInvalidation); [auto with js|apply keeps_handleInvalidation].
Qed.
Lemma keeps_resync : keeps (resyncStaleCacheEntries driftResyncIntervalMs clock resolveForUser).
Proof using R_mono resolve_good.
  unfold resyncStaleCacheEntries. apply preserves_bind; [auto with js|intros n]. apply preserves_bind; [auto with js|intros l].
  apply (keeps_fold (λ r, if default 0 driftResyncIntervalMs <=? n - pr_computedAt r
    then try_catch (refreshEntry clock resolveForUser r) (λ _, mret ()) else mret ())); [auto with js|].
  intros r. unfold refreshEntry. keeps.
Qed.
Lemma keeps_prime r iso :
  good (hashProbeKey (pr_userId r) (pr_tenantId r)) {| hp_hash := Some (pr_hash r); hp_generation := pr_generation r |} →
  keeps (prime clock r iso).
Proof using R_mono.
  intros Hg. unfold prime. apply preserves_bind; [auto with js|intros]. apply preserves_bind; [by apply keeps_hashProbe_set|intros].
  keeps.
Qed.
End probes.
