(* ===== verification/PermissionClaims.v ===== *)
(** * PermissionClaims: the properties of the permission cache. *)
From S2P Require Import Prelude JsMap JsText JsDate LruCache PermissionCache.
From Stdlib Require Import Ascii.
Local Open Scope Z_scope.

(** A user and a tenant without a colon have a probe key of their own. *)
Lemma hashProbeKey_inj u t u' t' :
  has_char ":" u = false → has_char ":" t = false → hashProbeKey u' t' = hashProbeKey u t → u' = u ∧ t' = t.
Proof.
  unfold hashProbeKey. intros Hu Ht. revert u'. induction u as [|c u IH]; intros [|c' u'].
  - rewrite !str_app_nil. by intros [= ->].
  - rewrite str_app_cons, str_app_nil. intros [= -> <-]. rewrite has_char_app in Ht. simpl in Ht.
    by rewrite orb_true_r in Ht.
  - rewrite str_app_cons, str_app_nil. intros [= <- _]. done.
  - rewrite !str_app_cons. intros [= -> He]. simpl in Hu. apply orb_false_iff in Hu as [_ Hu].
    by destruct (IH Hu u' He) as [-> ->].
Qed.

Section claims.
Context {B : Type} `{!PermissionCacheBackend B}.
Context (dbFallbackOnRedisDown : bool) (driftResyncIntervalMs : option Z) (clock : nat → Z)
        (resolveForUser : nat → string → string → outcome PermError ResolvedPermissionState)
        (probeHash : nat → string → string → outcome PermError HashProbeState).

Notation getForSession := (getForSession dbFallbackOnRedisDown clock resolveForUser probeHash).

Inductive PermOp :=
| OpGetForSession (claims : StynxAccessTokenClaims)
| OpPrime (record : PermissionCacheRecord) (expiresAtIso : string)
| OpInvalidateSid (sid : string)
| OpInspect (sid : string)
| OpPublish (message : string)
| OpMessage (message : string)
| OpResync.

Definition run_perm_op (op : PermOp) : JS (Cache B) PermError () :=
  match op with
  | OpGetForSession claims => (λ _, ()) <$> getForSession claims
  | OpPrime r iso => prime clock r iso
  | OpInvalidateSid sid => invalidateSid sid
  | OpInspect sid => (λ _, ()) <$> inspectSid clock sid
  | OpPublish m => publishInvalidation m
  | OpMessage m => handleInvalidation m
  | OpResync => resyncStaleCacheEntries driftResyncIntervalMs clock resolveForUser
  end.
Definition run_perm (ops : list PermOp) (s : Cache B) : Cache B := foldl (λ s op, (run_perm_op op s).2) s ops.

(** A run keeps the property of the probes when what it primes has it. *)
Lemma run_keeps R c0 q0 ops s :
  (∀ k e c, R k e c → R k e (S c)) →
  (∀ n u t st, (q0 ≤ n)%nat → probeHash n u t = Ok st → good clock R c0 (hashProbeKey u t) st) →
  (∀ n u t res, (q0 ≤ n)%nat → resolveForUser n u t = Ok res →
     good clock R c0 (hashProbeKey u t) {| hp_hash := Some (rp_hash res); hp_generation := rp_generation res |}) →
  (∀ r iso, OpPrime r iso ∈ ops →
     good clock R c0 (hashProbeKey (pr_userId r) (pr_tenantId r)) {| hp_hash := Some (pr_hash r); hp_generation := pr_generation r |}) →
  probe_inv R c0 q0 s → probe_inv R c0 q0 (run_perm ops s).
Proof.
  intros H1 H2 H3. revert s. induction ops as [|op ops IH]; intros s H4 Hs; [done|]. simpl.
  apply IH; [intros r iso Hin; apply (H4 r iso); by right|].
  assert (preserves (probe_inv R c0 q0) (run_perm_op op)) as Hop; [|by apply Hop].
  destruct op; simpl.
  - by apply keeps_fmap, keeps_getForSession.
  - apply keeps_prime; [done|]. apply (H4 record expiresAtIso). by left.
  - apply keeps_invalidateSid.
  - by apply keeps_fmap, keeps_inspectSid.
  - apply keeps_publishInvalidation.
  - apply keeps_handleInvalidation.
  - by apply keeps_resync.
Qed.

(** ** One user settles *)

Section settled.
Context (u t h : string) (now0 : Z) (c0 q0 : nat).
Context (Hu : has_char ":" u = false) (Ht : has_char ":" t = false).
Context (clock_mono : ∀ i j, (i ≤ j)%nat → clock i ≤ clock j).
Context (probe_settled : ∀ n st, (q0 ≤ n)%nat → probeHash n u t = Ok st → hp_hash st = Some h).
Context (resolve_settled : ∀ n res, (q0 ≤ n)%nat → resolveForUser n u t = Ok res → rp_hash res = h).

(** A probe of the user is old or right. *)
Definition old_or_right (k : string) (e : TtlEntry HashProbeState) (c : nat) : Prop :=
  k = hashProbeKey u t → te_expiresAt e ≤ now0 + PROBE_TTL ∨ hp_hash (te_value e) = Some h.

Lemma old_or_right_mono k e c : old_or_right k e c → old_or_right k e (S c).
Proof. done. Qed.
Lemma probe_right c n u' t' st : (q0 ≤ n)%nat → probeHash n u' t' = Ok st →
  good clock old_or_right c (hashProbeKey u' t') st.
Proof using Hu Ht probe_settled.
  intros Hn Hp c' Hc Hk. apply hashProbeKey_inj in Hk as [-> ->]; [|done|done]. right. by eapply probe_settled.
Qed.
Lemma resolve_right c n u' t' res : (q0 ≤ n)%nat → resolveForUser n u' t' = Ok res →
  good clock old_or_right c (hashProbeKey u' t') {| hp_hash := Some (rp_hash res); hp_generation := rp_generation res |}.
Proof using Hu Ht resolve_settled.
  intros Hn Hp c' Hc Hk. apply hashProbeKey_inj in Hk as [-> ->]; [|done|done]. right. simpl. f_equal. by eapply resolve_settled.
Qed.

Context (Hlate : now0 + PROBE_TTL ≤ clock c0).
Notation inv := (probe_inv old_or_right c0 q0).

Lemma detect_fresh current (s s' : Cache B) :
  inv s → detectHashDrift clock probeHash u t current s = (Ok false, s') → current = h.
Proof using Hu Ht probe_settled clock_mono Hlate.
  intros Hs. unfold detectHashDrift. unfold mbind at 1, js_bind at 1.
  destruct (hashProbe_get_spec clock _ c0 q0 old_or_right_mono (hashProbeKey u t) s Hs) as (o & s1 & -> & Hs1 & _ & _ & Ho).
  destruct o as [st|].
  - unfold mret, js_ret. intros [= Hd _]. apply negb_false_iff, bool_decide_eq_true in Hd.
    destruct (Ho st eq_refl) as (e & HR & Hv & Hlt). destruct (HR eq_refl) as [Hold|Hr]; [|rewrite Hv in Hr; congruence].
    destruct Hs as (_ & Hc & _). specialize (clock_mono _ _ Hc). lia.
  - unfold mbind at 1, js_bind at 1. destruct (query_spec _ c0 q0 (λ n, probeHash n u t) s1 Hs1) as (n & s2 & -> & Hn & _).
    destruct (probeHash n u t) as [st|e] eqn:Hp; [|done]. apply probe_settled in Hp; [|done].
    unfold hashProbe_set. js_unfold. unfold Date_now. simpl. intros [= Hd _]. rewrite Hp in Hd.
    rewrite bool_decide_eq_true_2 in Hd by done. simpl in Hd. apply negb_false_iff, bool_decide_eq_true in Hd. congruence.
Qed.

Definition fresh (r : PermissionCacheRecord) : Prop := pr_userId r = u → pr_tenantId r = t → pr_hash r = h.

(** The two tiers check a record the same way. *)
Lemma checked_fresh r (k k' : JS (Cache B) PermError (option PermissionCacheRecord)) (s s' : Cache B) r' :
  inv s → (∀ s0, (k s0).1 ≠ Ok (Some r')) → (∀ s0 s0', k' s0 = (Ok (Some r'), s0') → r' = r) →
  (drift ← detectHashDrift clock probeHash (pr_userId r) (pr_tenantId r) (pr_hash r); if drift : bool then k else k') s
    = (Ok (Some r'), s') → fresh r'.
Proof using Hu Ht probe_settled clock_mono Hlate.
  intros Hs Hk Hk' (drift & s1 & Hd & Hrun)%js_bind_ok. destruct drift.
  { exfalso. apply (Hk s1). by rewrite Hrun. }
  apply Hk' in Hrun as ->. intros Hru Hrt. rewrite Hru, Hrt in Hd. by eapply detect_fresh.
Qed.

Lemma from_memory_fresh claims (s : Cache B) r s' : inv s → from_memory clock probeHash claims s = (Ok (Some r), s') → fresh r.
Proof using Hu Ht probe_settled clock_mono Hlate.
  intros Hs (o & s1 & Hget & Hrun)%js_bind_ok.
  pose proof (keeps_inMemory_get clock _ c0 q0 old_or_right_mono (tk_sid claims) s Hs) as Hs1. rewrite Hget in Hs1.
  destruct o as [r0|]; [|done]. destruct (hash_accepted claims r0); [|done].
  refine (checked_fresh _ _ _ _ _ _ Hs1 _ _ Hrun); [done|]. intros s0 s0'. js_unfold. unfold increment, modify. congruence.
Qed.

Lemma from_backend_fresh claims (s : Cache B) r s' : inv s → from_backend clock probeHash claims s = (Ok (Some r), s') → fresh r.
Proof using Hu Ht probe_settled clock_mono Hlate.
  intros Hs (o & s1 & Hget & Hrun)%js_bind_ok.
  pose proof (keeps_on_backend old_or_right c0 q0 (be_get (tk_sid claims)) None s Hs) as Hs1. rewrite Hget in Hs1.
  destruct o as [r0|]; [|done]. destruct (hash_accepted claims r0); [|done].
  refine (checked_fresh _ _ _ _ _ _ Hs1 _ _ Hrun); [done|]. intros s0 s0'. unfold inMemory_set, Date_now, increment. js_unfold. congruence.
Qed.

Lemma recompute_fresh u' t' sid (s : Cache B) r s' : inv s → recompute clock resolveForUser u' t' sid s = (Ok r, s') → fresh r.
Proof using resolve_settled.
  intros Hs Hrun. unfold recompute in Hrun. unfold mbind at 1, js_bind at 1 in Hrun.
  destruct (query_spec _ c0 q0 (λ n, resolveForUser n u' t') s Hs) as (n & s1 & Hq & Hn & _). rewrite Hq in Hrun.
  destruct (resolveForUser n u' t') as [res|e] eqn:Hres; [|done].
  apply js_bind_ok in Hrun as (m & s2 & _ & Hrun). apply js_bind_ok in Hrun as ([] & s3 & _ & Hrun).
  apply js_bind_ok in Hrun as ([] & s4 & _ & Hrun). apply js_bind_ok in Hrun as ([] & s5 & _ & Hrun).
  injection Hrun as <- _. intros Hru Hrt. simpl in *. subst. by eapply resolve_settled.
Qed.

Lemma getForSession_fresh claims (s : Cache B) r s' : inv s → getForSession claims s = (Ok r, s') → fresh r.
Proof using Hu Ht probe_settled resolve_settled clock_mono Hlate.
  intros Hs (o & s1 & Hm & Hrun)%js_bind_ok. destruct o as [r0|]; [injection Hrun as -> _; by eapply from_memory_fresh|].
  pose proof (keeps_from_memory clock probeHash _ c0 q0 old_or_right_mono (probe_right c0) claims s Hs) as Hs1. rewrite Hm in Hs1.
  apply js_bind_ok in Hrun as (o & s2 & Hb & Hrun).
  assert (inv s2 ∧ ∀ r0, o = Some r0 → fresh r0) as [Hs2 Hfresh].
  { pose proof (keeps_from_backend clock probeHash _ c0 q0 old_or_right_mono (probe_right c0) claims s1 Hs1) as Hkeep.
    unfold try_catch in Hb. destruct (from_backend clock probeHash claims s1) as [[o'|e] s2'] eqn:He.
    - injection Hb as -> ->. split; [exact Hkeep|]. intros r0 ->. exact (from_backend_fresh claims s1 r0 _ Hs1 He).
    - destruct dbFallbackOnRedisDown; [|done]. injection Hb as <- <-. by split. }
  destruct o as [r0|]; [injection Hrun as -> _; by apply Hfresh|].
  apply js_bind_ok in Hrun as (r1 & s3 & Hrec & Hrun). apply js_bind_ok in Hrun as ([] & s4 & _ & Hrun).
  injection Hrun as -> _. by eapply recompute_fresh.
Qed.
End settled.

Lemma new_cache_inv R c0 q0 backend : (q0 ≤ 0)%nat → (c0 ≤ 0)%nat → probe_inv R c0 q0 (new_cache (B := B) backend).
Proof. intros Hq Hc. split; [done|]. split; [done|]. done. Qed.

(** C33. Whatever the caches and the backend hold, one second after the permissions of a user in a tenant
    settled (the database answers with one hash from then on, and sessions that are primed from then on
    carry it) no request is served a record of that user with another hash, after any further requests,
    invalidations and refreshes, also when the backend or the database fail. *)
Theorem permissions_settle backend ops ops' u t h claims r s' :
  let s1 := run_perm ops (new_cache backend) in
  let s2 := run_perm ops' s1 in
  (∀ i j, (i ≤ j)%nat → clock i ≤ clock j) →
  has_char ":" u = false → has_char ":" t = false →
  (∀ n st, (pm_queries s1 ≤ n)%nat → probeHash n u t = Ok st → hp_hash st = Some h) →
  (∀ n res, (pm_queries s1 ≤ n)%nat → resolveForUser n u t = Ok res → rp_hash res = h) →
  (∀ r iso, OpPrime r iso ∈ ops' → pr_userId r = u → pr_tenantId r = t → pr_hash r = h) →
  clock (pm_clock s1) + PROBE_TTL ≤ clock (pm_clock s2) →
  getForSession claims s2 = (Ok r, s') → pr_userId r = u → pr_tenantId r = t → pr_hash r = h.
Proof.
  intros s1 s2 Hmono Hu Ht Hprobe Hresolve Hprime Hlate Hrun.
  assert (probe_inv (λ k e c, te_expiresAt e ≤ clock c + PROBE_TTL) 0 0 s1) as (_ & _ & Hrecent).
  { apply run_keeps; [intros k e c He; pose proof (Hmono c (S c) ltac:(lia)); lia|..|by apply new_cache_inv];
      intros; intros c Hc; apply Z.le_refl. }
  assert (probe_inv (old_or_right u t h (clock (pm_clock s1))) 0 (pm_queries s1) s2) as (Hq & _ & He).
  { apply run_keeps.
    - apply old_or_right_mono.
    - intros n u' t' st. by apply probe_right.
    - intros n u' t' res. by apply resolve_right.
    - intros r0 iso Hin c Hc Hk. apply hashProbeKey_inj in Hk as [Hru Hrt]; [|done|done]. right. simpl. f_equal. by eapply Hprime.
    - split; [done|]. split; [lia|]. intros k e Hk _. left. by apply (Hrecent k). }
  refine (getForSession_fresh u t h (clock (pm_clock s1)) (pm_clock s2) (pm_queries s1) Hu Ht Hmono Hprobe Hresolve Hlate
            claims s2 r s' _ Hrun).
  by split_and!.
Qed.

(** A hit of either cache. *)
Lemma inMemory_hit sid e (s : Cache B) :
  jm_get sid (pm_inMemory s) = Some e → clock (pm_clock s) < te_expiresAt e →
  inMemory_get clock sid s = (Ok (Some (te_value e)),
    Build_Cache (jm_set sid e (jm_delete sid (pm_inMemory s))) (pm_hashProbe s) (pm_hits s) (pm_backend s) (S (pm_clock s)) (pm_queries s)).
Proof.
  intros Hget Hlt. unfold inMemory_get. js_unfold. rewrite Hget. unfold Date_now. cbn [pm_clock pm_inMemory].
  unfold lru_get. rewrite Hget. by rewrite (proj2 (Z.leb_gt _ _) Hlt).
Qed.
Lemma hashProbe_hit key e (s : Cache B) :
  jm_get key (pm_hashProbe s) = Some e → clock (pm_clock s) < te_expiresAt e →
  ∃ s', hashProbe_get clock key s = (Ok (Some (te_value e)), s') ∧ pm_backend s' = pm_backend s.
Proof.
  intros Hget Hlt. unfold hashProbe_get. js_unfold. rewrite Hget. unfold Date_now. cbn [pm_clock pm_hashProbe].
  unfold lru_get. rewrite Hget, (proj2 (Z.leb_gt _ _) Hlt). by eexists.
Qed.
Lemma hashProbe_miss key (s : Cache B) : jm_get key (pm_hashProbe s) = None → hashProbe_get clock key s = (Ok None, s).
Proof. intros Hget. unfold hashProbe_get. js_unfold. by rewrite Hget. Qed.

(** A record in memory whose user has a probe without hash is not served. *)
Lemma null_probe_misses claims e st (s : Cache B) :
  jm_get (tk_sid claims) (pm_inMemory s) = Some e → hash_accepted claims (te_value e) = true →
  jm_get (hashProbeKey (pr_userId (te_value e)) (pr_tenantId (te_value e))) (pm_hashProbe s) = Some st → hp_hash (te_value st) = None →
  clock (pm_clock s) < te_expiresAt e → clock (S (pm_clock s)) < te_expiresAt st →
  ∃ s', from_memory clock probeHash claims s = (Ok None, s') ∧ pm_backend s' = pm_backend s.
Proof.
  intros Hget Hacc Hst Hnull H0 H1. unfold from_memory. unfold mbind at 1, js_bind at 1. rewrite (inMemory_hit _ e) by done.
  rewrite Hacc. unfold detectHashDrift. set (s1 := Build_Cache _ _ _ _ _ _).
  destruct (hashProbe_hit _ st s1 Hst H1) as (s2 & Hrun & Hb). exists s2. split; [|done].
  unfold mbind, js_bind, mret, js_ret. rewrite Hrun, Hnull. by rewrite bool_decide_eq_false_2.
Qed.

(** Without a backend the rest of the request asks the database. *)
Lemma refused_without_backend claims (s : Cache B) s1 :
  from_memory clock probeHash claims s = (Ok None, s1) → pm_backend s1 = None →
  (∀ n, resolveForUser n (tk_sub claims) (tk_tenantId claims) = Throw TenantAccessDenied) →
  ∃ s2, getForSession claims s = (Throw TenantAccessDenied, s2).
Proof.
  intros Hrun Hb Hres. unfold getForSession. unfold mbind at 1, js_bind at 1. rewrite Hrun.
  unfold try_catch, from_backend, on_backend, recompute, query. js_unfold. rewrite Hb, Hres. by eexists.
Qed.

(** Once a membership is gone (the database has no hash for it and refuses to resolve it), the cached
    record is still served by the request that probes, and refused by the next one a moment later. *)
Theorem gone_membership_alternates claims e (s : Cache B) :
  let r := te_value e in
  let now i := clock (pm_clock s + i)%nat in
  jm_get (tk_sid claims) (pm_inMemory s) = Some e → hash_accepted claims r = true → pm_hashProbe s = [] → pm_backend s = None →
  (∀ n, ∃ g, probeHash n (pr_userId r) (pr_tenantId r) = Ok {| hp_hash := None; hp_generation := g |}) →
  (∀ n, resolveForUser n (tk_sub claims) (tk_tenantId claims) = Throw TenantAccessDenied) →
  now 0%nat < te_expiresAt e → now 2%nat < te_expiresAt e → now 3%nat < now 1%nat + PROBE_TTL →
  ∃ s1 s2, getForSession claims s = (Ok r, s1) ∧ getForSession claims s1 = (Throw TenantAccessDenied, s2).
Proof.
  intros r now Hget Hacc Hprobes Hback Hprobe Hresolve H0 H2 H3.
  assert (∃ s1, getForSession claims s = (Ok r, s1) ∧ pm_inMemory s1 = jm_set (tk_sid claims) e (jm_delete (tk_sid claims) (pm_inMemory s)) ∧
    pm_backend s1 = None ∧ pm_clock s1 = (pm_clock s + 2)%nat ∧
    ∃ g, pm_hashProbe s1 = [(hashProbeKey (pr_userId r) (pr_tenantId r),
      {| te_value := {| hp_hash := None; hp_generation := g |}; te_expiresAt := now 1%nat + PROBE_TTL |})]) as (s1 & Hrun & Hmem & Hb1 & Hc1 & g & Hp1).
  { destruct (Hprobe (pm_queries s)) as [g Hg]. unfold now in H0. rewrite Nat.add_0_r in H0.
    assert (∃ s1, from_memory clock probeHash claims s = (Ok (Some r), s1) ∧
      pm_inMemory s1 = jm_set (tk_sid claims) e (jm_delete (tk_sid claims) (pm_inMemory s)) ∧ pm_backend s1 = None ∧
      pm_clock s1 = (pm_clock s + 2)%nat ∧ pm_hashProbe s1 = [(hashProbeKey (pr_userId r) (pr_tenantId r),
      {| te_value := {| hp_hash := None; hp_generation := g |}; te_expiresAt := now 1%nat + PROBE_TTL |})]) as (s1 & Hrun & ?).
    { unfold from_memory. unfold mbind at 1, js_bind at 1. rewrite (inMemory_hit _ e) by done. fold r. rewrite Hacc.
      unfold detectHashDrift, mbind, js_bind. rewrite hashProbe_miss by (simpl; by rewrite Hprobes).
      unfold query, hashProbe_set, increment. js_unfold. cbn [pm_queries]. rewrite Hg. unfold Date_now. simpl. rewrite Hprobes.
      eexists. split; [done|]. simpl. split_and!; [done|done|lia|]. unfold now. by rewrite Nat.add_1_r. }
    exists s1. split; [|naive_solver]. unfold getForSession, mbind, js_bind. by rewrite Hrun. }
  exists s1. destruct (null_probe_misses claims e {| te_value := {| hp_hash := None; hp_generation := g |}; te_expiresAt := now 1%nat + PROBE_TTL |} s1)
    as (s1' & Hmiss & Hb).
  - by rewrite Hmem, jm_get_set_eq.
  - done.
  - rewrite Hp1. simpl. by rewrite decide_True.
  - done.
  - by rewrite Hc1.
  - rewrite Hc1. by rewrite <- Nat.add_succ_r.
  - destruct (refused_without_backend claims s1 s1' Hmiss ltac:(congruence) Hresolve) as [s2 H]. by exists s2.
Qed.
End claims.

(** ** The in-memory backend *)

Lemma ib_delete_other sid sid' b : sid ≠ sid' → jm_get sid (ib_records (ib_delete sid' b)) = jm_get sid (ib_records b).
Proof. intros Hne. unfold ib_delete. destruct (jm_get sid' (ib_records b)); [|done]. simpl. by apply jm_get_delete_ne. Qed.

Lemma user_scope_fold sid r tenantId sids b :
  jm_get sid (ib_records b) = Some r → pr_tenantId r ≠ tenantId →
  jm_get sid (ib_records (foldl (λ b sid,
     match jm_get sid (ib_records b) with
     | Some record => if String.eqb (pr_tenantId record) tenantId then ib_delete sid b else b
     | None => b
     end) b sids)) = Some r.
Proof.
  intros Hb Hne. revert b Hb. induction sids as [|sid' sids IH]; intros b Hb; [done|]. simpl. apply IH.
  destruct (jm_get sid' (ib_records b)) as [r'|] eqn:Hr'; [|done].
  destruct (String.eqb_spec (pr_tenantId r') tenantId) as [He|]; [|done].
  rewrite ib_delete_other; [done|]. intros ->. rewrite Hb in Hr'. injection Hr' as <-. done.
Qed.

Lemma scope_of_user u : has_char ":" u = false → u ≠ EmptyString → parse_scope (u +:+ ":*") = Some (u, "*").
Proof.
  intros Hu Hne. unfold parse_scope. change (":*") with (String ":" "*"). rewrite split_on_app by done. simpl.
  by destruct (String.eqb_spec u EmptyString).
Qed.

Lemma user_scope_keeps u sid r b :
  has_char ":" u = false → u ≠ EmptyString → u ≠ "*" → pr_tenantId r ≠ "*" → jm_get sid (ib_records b) = Some r →
  ib_get sid (ib_invalidateScope (u +:+ ":*") b) = Some r.
Proof.
  intros Hu Hne Hstar Ht Hr. unfold ib_get, ib_invalidateScope. rewrite (scope_of_user u Hu Hne), (proj2 (String.eqb_neq u "*") Hstar).
  cbn [andb]. by apply (user_scope_fold sid r "*").
Qed.

Lemma deleted_stays_deleted {V} sid (p : V → bool) (f : V → string) l (c : jsmap string (TtlEntry V)) :
  jm_get sid c = None → jm_get sid (foldl (λ c r, if p r then lru_delete (f r) c else c) c l) = None.
Proof.
  revert c. induction l as [|r l IH]; intros c Hc; [done|]. simpl. apply IH. destruct (p r); [|done]. unfold lru_delete.
  destruct (jm_get sid (jm_delete (f r) c)) as [e|] eqn:He; [|done]. apply delete_get in He as [_ He]. congruence.
Qed.
Lemma scope_deletes {V} sid (p : V → bool) (f : V → string) l r (c : jsmap string (TtlEntry V)) :
  r ∈ l → p r = true → f r = sid → jm_get sid (foldl (λ c r, if p r then lru_delete (f r) c else c) c l) = None.
Proof.
  revert c. induction l as [|r' l IH]; intros c Hin Hp Hf; [by apply elem_of_nil in Hin|]. simpl.
  apply elem_of_cons in Hin as [<-|Hin]; [|by apply IH]. rewrite Hp. apply deleted_stays_deleted. unfold lru_delete. rewrite Hf.
  apply jm_get_delete_eq.
Qed.

(** An invalidation of all tenants of a user drops the user's record from the process but not from the
    in-memory backend, which takes the star for a tenant's name: the record is found there again. *)
Theorem user_scope_keeps_backend clock u sid e b (s : Cache InMemoryBackend) :
  has_char ":" u = false → u ≠ EmptyString → u ≠ "*" →
  jm_get sid (pm_inMemory s) = Some e → pr_sid (te_value e) = sid → pr_userId (te_value e) = u →
  pr_tenantId (te_value e) ≠ "*" → pm_backend s = Some b → jm_get sid (ib_records b) = Some (te_value e) →
  ∃ s', handleInvalidation (u +:+ ":*") s = (Ok (), s') ∧ jm_get sid (pm_inMemory s') = None ∧
        inspectSid clock sid s' = (Ok (Some (te_value e)), s').
Proof.
  intros Hu Hne Hstar Hget Hsid Huser Htenant Hb Hrec.
  assert (jm_get sid (foldl (λ c r, if in_scope u "*" r then lru_delete (pr_sid r) c else c) (pm_inMemory s)
    (lru_values (pm_inMemory s))) = None) as Hgone.
  { apply (scope_deletes sid _ _ _ (te_value e)); [|unfold in_scope; by rewrite Huser, String.eqb_refl, orb_true_r|done].
    apply list_elem_of_fmap_2. by eapply jm_get_values. }
  unfold handleInvalidation. rewrite (scope_of_user u Hu Hne).
  rewrite (proj2 (String.eqb_neq u "*") Hstar). cbn [andb]. js_unfold. unfold on_backend. simpl. rewrite Hb.
  eexists. split; [done|]. split; [exact Hgone|].
  unfold inspectSid, inMemory_get. js_unfold. simpl. rewrite Hgone. unfold on_backend. cbn [pm_backend]. simpl. by rewrite (user_scope_keeps u sid (te_value e)).
Qed.

(** ** Examples *)

Module Example.
(** A reading every 400 ms. *)
Definition clock (n : nat) : Z := 400 * Z.of_nat n.
Definition resolved : ResolvedPermissionState :=
  {| rp_membershipId := "m"; rp_permissions := ["read"]; rp_hash := "h2"; rp_generation := 2 |}.
Definition resolve (n : nat) (u t : string) : outcome PermError ResolvedPermissionState := Ok resolved.
Definition probe (n : nat) (u t : string) : outcome PermError HashProbeState := Ok {| hp_hash := Some "h2"; hp_generation := 2 |}.
Definition old_record : PermissionCacheRecord :=
  {| pr_sid := "s"; pr_userId := "u"; pr_tenantId := "t"; pr_membershipId := "m"; pr_permissions := ["read"; "write"];
     pr_hash := "h1"; pr_generation := 1; pr_computedAt := 0 |}.
Definition token : StynxAccessTokenClaims := {| tk_sub := "u"; tk_sid := "s"; tk_tenantId := "t"; tk_permsHash := None |}.
Definition primed : list PermOp := [OpPrime old_record "1970-01-01T01:00:00.000Z"].
Definition later : list PermOp := [OpGetForSession token; OpMessage "other:t"; OpGetForSession token].
Notation run ops s := (run_perm true None clock resolve probe ops s).

Definition gone_resolve (n : nat) (u t : string) : outcome PermError ResolvedPermissionState := Throw TenantAccessDenied.
Definition gone_probe (n : nat) (u t : string) : outcome PermError HashProbeState := Ok {| hp_hash := None; hp_generation := 0 |}.
Definition entry : TtlEntry PermissionCacheRecord := {| te_value := old_record; te_expiresAt := 5000 |}.
Definition with_record : Cache InMemoryBackend := put_inMemory [("s", entry)] (new_cache None).
Definition backed : Cache InMemoryBackend := put_inMemory [("s", entry)] (new_cache (Some (ib_set old_record new_backend))).

Lemma clock_mono i j : (i ≤ j)%nat → clock i ≤ clock j.
Proof. unfold clock. lia. Qed.
End Example.

(** The permissions changed after the record was primed; a later request sees the new ones. *)
Lemma permissions_settle_witness :
  let s2 := Example.run Example.later (Example.run Example.primed (new_cache (B := InMemoryBackend) None)) in
  ∃ r s', getForSession true Example.clock Example.resolve Example.probe Example.token s2 = (Ok r, s') ∧ pr_hash r = "h2".
Proof.
  intros s2.
  assert (match getForSession true Example.clock Example.resolve Example.probe Example.token s2 with
          | (Ok r, _) => pr_userId r = "u" ∧ pr_tenantId r = "t" | _ => False end) as Hok by by vm_compute.
  destruct (getForSession true Example.clock Example.resolve Example.probe Example.token s2) as [[r|e] s'] eqn:Hrun; [|destruct Hok].
  exists r, s'. split; [reflexivity|].
  refine (permissions_settle true None Example.clock Example.resolve Example.probe None Example.primed Example.later "u" "t" "h2"
    Example.token r s' Example.clock_mono eq_refl eq_refl _ _ _ _ Hrun (proj1 Hok) (proj2 Hok)).
  - intros n st _ He. injection He as <-. reflexivity.
  - intros n res _ He. injection He as <-. reflexivity.
  - intros r0 iso Hin. exfalso. vm_compute in Hin. apply elem_of_cons in Hin as [Hin|Hin]; [discriminate|].
    apply elem_of_cons in Hin as [Hin|Hin]; [discriminate|].
    apply elem_of_cons in Hin as [Hin|Hin]; [discriminate|]. by apply elem_of_nil in Hin.
  - vm_compute. discriminate.
Defined.

Lemma gone_membership_alternates_witness :
  ∃ s1 s2, getForSession true Example.clock Example.gone_resolve Example.gone_probe Example.token Example.with_record
             = (Ok Example.old_record, s1) ∧
           getForSession true Example.clock Example.gone_resolve Example.gone_probe Example.token s1 = (Throw TenantAccessDenied, s2).
Proof.
  refine (gone_membership_alternates true Example.clock Example.gone_resolve Example.gone_probe Example.token Example.entry
    Example.with_record eq_refl eq_refl eq_refl eq_refl (λ n, ex_intro _ 0 eq_refl) (λ n, eq_refl) _ _ _); by vm_compute.
Defined.

Lemma user_scope_keeps_backend_witness :
  ∃ s', handleInvalidation "u:*" Example.backed = (Ok (), s') ∧ jm_get "s" (pm_inMemory s') = None ∧
        inspectSid Example.clock "s" s' = (Ok (Some Example.old_record), s').
Proof.
  exact (user_scope_keeps_backend Example.clock "u" "s" Example.entry (ib_set Example.old_record new_backend) Example.backed
    eq_refl ltac:(discriminate) ltac:(discriminate) eq_refl eq_refl eq_refl ltac:(discriminate) eq_refl eq_refl).
Defined.
