(* ===== verification/MemoryFrames.v ===== *)
(** * MemoryFrames: the transactions of [InMemoryOfflineSyncStore].

    The mutation frames of [offline-sync/src/in-memory-offline-sync.store.ts]: a root frame
    per tenant operation, nested owned frames, claims on projection keys, a chain of versions
    per key and the undo log. An object with identity is a number: frames and versions count
    up as they are created. The continuations of one call are separate operations ([begin]
    and [end]), so that calls can interleave the way promises do; [AsyncLocalStorage] gives
    each operation the frame it runs in. *)
From S2P Require Import Prelude JsMap JsJson OfflineTypes.
Local Open Scope nat_scope.

(** One projection key of one projection map is a [P]; its values are [V]. *)
Section frames.
Context {P V : Type} `{Countable P}.
(** An entry of [conflictActions], whose [actionId] is the first component. *)
Context {A : Type}.

(** ** State *)

(** A change remembers how to undo itself: a write, its version; an appended action, its id. *)
Inductive Undo :=
| UndoWrite (k : P) (version : nat)
| UndoAction (actionId : string).

#[global] Instance Undo_eq_dec : EqDecision Undo.
Proof. solve_decision. Defined.

Record MemoryProjectionChange := { ch_order : nat; ch_undo : Undo }.

(** [value] is [None] where [present] is false. *)
Record MemoryProjectionVersion := {
  vr_previous : option nat;
  vr_value : option V;
  vr_rolledBack : bool }.

Record MemoryMutationFrame := {
  fr_tenantId : string;
  fr_active : bool;
  fr_children : list nat;
  fr_changes : list MemoryProjectionChange;
  fr_claims : gset P;
  fr_releases : list string;
  fr_parent : option nat;
  fr_conflictId : option string }.

Record State := {
  frames : gmap nat MemoryMutationFrame;
  frameCount : nat;
  versionHeap : gmap (P * nat) MemoryProjectionVersion;
  versionCount : nat;
  projectionVersions : gmap P nat;
  projectionClaims : gmap P (gset nat);
  projections : gmap P V;
  projectionSequence : nat;
  conflictActions : list (string * A);
  queueResolutionLocks : gmap string (nat * nat) }.

Definition new_state : State :=
  {| frames := ∅; frameCount := 0; versionHeap := ∅; versionCount := 0; projectionVersions := ∅;
     projectionClaims := ∅; projections := ∅; projectionSequence := 0; conflictActions := [];
     queueResolutionLocks := ∅ |}.

Definition set_frames f (s : State) : State :=
  {| frames := f (frames s); frameCount := frameCount s; versionHeap := versionHeap s;
     versionCount := versionCount s; projectionVersions := projectionVersions s;
     projectionClaims := projectionClaims s; projections := projections s;
     projectionSequence := projectionSequence s; conflictActions := conflictActions s;
     queueResolutionLocks := queueResolutionLocks s |}.
Definition set_heap f (s : State) : State :=
  {| frames := frames s; frameCount := frameCount s; versionHeap := f (versionHeap s);
     versionCount := versionCount s; projectionVersions := projectionVersions s;
     projectionClaims := projectionClaims s; projections := projections s;
     projectionSequence := projectionSequence s; conflictActions := conflictActions s;
     queueResolutionLocks := queueResolutionLocks s |}.
Definition set_current k v (s : State) : State :=
  {| frames := frames s; frameCount := frameCount s; versionHeap := versionHeap s;
     versionCount := versionCount s; projectionVersions := <[k := v]> (projectionVersions s);
     projectionClaims := projectionClaims s; projections := projections s;
     projectionSequence := projectionSequence s; conflictActions := conflictActions s;
     queueResolutionLocks := queueResolutionLocks s |}.
Definition set_claims f (s : State) : State :=
  {| frames := frames s; frameCount := frameCount s; versionHeap := versionHeap s;
     versionCount := versionCount s; projectionVersions := projectionVersions s;
     projectionClaims := f (projectionClaims s); projections := projections s;
     projectionSequence := projectionSequence s; conflictActions := conflictActions s;
     queueResolutionLocks := queueResolutionLocks s |}.
Definition set_projections f (s : State) : State :=
  {| frames := frames s; frameCount := frameCount s; versionHeap := versionHeap s;
     versionCount := versionCount s; projectionVersions := projectionVersions s;
     projectionClaims := projectionClaims s; projections := f (projections s);
     projectionSequence := projectionSequence s; conflictActions := conflictActions s;
     queueResolutionLocks := queueResolutionLocks s |}.
Definition set_actions f (s : State) : State :=
  {| frames := frames s; frameCount := frameCount s; versionHeap := versionHeap s;
     versionCount := versionCount s; projectionVersions := projectionVersions s;
     projectionClaims := projectionClaims s; projections := projections s;
     projectionSequence := projectionSequence s; conflictActions := f (conflictActions s);
     queueResolutionLocks := queueResolutionLocks s |}.
Definition set_locks f (s : State) : State :=
  {| frames := frames s; frameCount := frameCount s; versionHeap := versionHeap s;
     versionCount := versionCount s; projectionVersions := projectionVersions s;
     projectionClaims := projectionClaims s; projections := projections s;
     projectionSequence := projectionSequence s; conflictActions := conflictActions s;
     queueResolutionLocks := f (queueResolutionLocks s) |}.
(** A new version object and a new frame object; [++this.projectionSequence]. *)
Definition count_version (s : State) : State :=
  {| frames := frames s; frameCount := frameCount s; versionHeap := versionHeap s;
     versionCount := S (versionCount s); projectionVersions := projectionVersions s;
     projectionClaims := projectionClaims s; projections := projections s;
     projectionSequence := projectionSequence s; conflictActions := conflictActions s;
     queueResolutionLocks := queueResolutionLocks s |}.
Definition count_frame (s : State) : State :=
  {| frames := frames s; frameCount := S (frameCount s); versionHeap := versionHeap s;
     versionCount := versionCount s; projectionVersions := projectionVersions s;
     projectionClaims := projectionClaims s; projections := projections s;
     projectionSequence := projectionSequence s; conflictActions := conflictActions s;
     queueResolutionLocks := queueResolutionLocks s |}.
Definition count_change (s : State) : State :=
  {| frames := frames s; frameCount := frameCount s; versionHeap := versionHeap s;
     versionCount := versionCount s; projectionVersions := projectionVersions s;
     projectionClaims := projectionClaims s; projections := projections s;
     projectionSequence := S (projectionSequence s); conflictActions := conflictActions s;
     queueResolutionLocks := queueResolutionLocks s |}.

Definition set_active b (fr : MemoryMutationFrame) : MemoryMutationFrame :=
  {| fr_tenantId := fr_tenantId fr; fr_active := b; fr_children := fr_children fr;
     fr_changes := fr_changes fr; fr_claims := fr_claims fr; fr_releases := fr_releases fr;
     fr_parent := fr_parent fr; fr_conflictId := fr_conflictId fr |}.
Definition set_children f (fr : MemoryMutationFrame) : MemoryMutationFrame :=
  {| fr_tenantId := fr_tenantId fr; fr_active := fr_active fr; fr_children := f (fr_children fr);
     fr_changes := fr_changes fr; fr_claims := fr_claims fr; fr_releases := fr_releases fr;
     fr_parent := fr_parent fr; fr_conflictId := fr_conflictId fr |}.
Definition set_changes f (fr : MemoryMutationFrame) : MemoryMutationFrame :=
  {| fr_tenantId := fr_tenantId fr; fr_active := fr_active fr; fr_children := fr_children fr;
     fr_changes := f (fr_changes fr); fr_claims := fr_claims fr; fr_releases := fr_releases fr;
     fr_parent := fr_parent fr; fr_conflictId := fr_conflictId fr |}.
Definition set_frame_claims f (fr : MemoryMutationFrame) : MemoryMutationFrame :=
  {| fr_tenantId := fr_tenantId fr; fr_active := fr_active fr; fr_children := fr_children fr;
     fr_changes := fr_changes fr; fr_claims := f (fr_claims fr); fr_releases := fr_releases fr;
     fr_parent := fr_parent fr; fr_conflictId := fr_conflictId fr |}.
Definition set_releases f (fr : MemoryMutationFrame) : MemoryMutationFrame :=
  {| fr_tenantId := fr_tenantId fr; fr_active := fr_active fr; fr_children := fr_children fr;
     fr_changes := fr_changes fr; fr_claims := fr_claims fr; fr_releases := f (fr_releases fr);
     fr_parent := fr_parent fr; fr_conflictId := fr_conflictId fr |}.

Definition upd_frame (f : nat) (g : MemoryMutationFrame → MemoryMutationFrame) : State → State :=
  set_frames (alter g f).

(** The members of a frame; a frame that does not exist is inactive. *)
Definition active (s : State) (f : nat) : bool := match frames s !! f with Some fr => fr_active fr | None => false end.
Definition parent (s : State) (f : nat) : option nat := frames s !! f ≫= fr_parent.
Definition children (s : State) (f : nat) : list nat := match frames s !! f with Some fr => fr_children fr | None => [] end.
Definition changes (s : State) (f : nat) : list MemoryProjectionChange :=
  match frames s !! f with Some fr => fr_changes fr | None => [] end.
Definition claims (s : State) (f : nat) : gset P := match frames s !! f with Some fr => fr_claims fr | None => ∅ end.
Definition owners (s : State) (k : P) : gset nat := default ∅ (projectionClaims s !! k).

(** [for (current = frame; current; current = current.parent)]: a parent is older than its
    children, so [S frame] steps reach the root. *)
Fixpoint line (up : nat → option nat) (fuel f : nat) : list nat :=
  match fuel with
  | 0 => []
  | S fuel' => f :: match up f with Some q => line up fuel' q | None => [] end
  end.
Definition ancestors (up : nat → option nat) (f : nat) : list nat := line up (S f) f.

Notation M := (JS State OfflineError).

Definition conflict_state (message : string) : OfflineError := OfflineSyncError CONFLICT_STATE 409 message.

(** ** Frames *)

Definition frameIsActive (s : State) (f : nat) : bool := forallb (active s) (ancestors (parent s) f).

(** [context] is [this.mutationContext.getStore()]. *)
Definition assertMutationOwner (context : option nat) (tenant : string) : M () :=
  s ← getf id;
  match context with
  | None => mret ()
  | Some f =>
      throw_if (negb (bool_decide (fr_tenantId <$> frames s !! f = Some tenant)) || negb (frameIsActive s f))
        (conflict_state "Memory transaction ownership is no longer valid for this tenant.")
  end.

(** [this.assertMutationOwner(frame)] *)
Definition assertOwnFrame (f : nat) : M () :=
  s ← getf id;
  throw_if (negb (frameIsActive s f))
    (conflict_state "Memory transaction ownership is no longer valid for this tenant.").

Definition assertFrameComplete (f : nat) : M () :=
  s ← getf id;
  throw_if (negb (frameIsActive s f) || negb (bool_decide (children s f = [])))
    (conflict_state "Memory transaction cannot commit closed or unfinished owned work.").

Definition isAncestor (s : State) (ancestor f : nat) : bool :=
  bool_decide (ancestor ∈ ancestors (parent s) f).

(** One claim of a frame given up; the last owner cuts the history of the key. *)
Definition release_claim (f : nat) (k : P) (s : State) : State :=
  let left_ := owners s k ∖ {[f]} in
  let s1 := set_claims <[k := left_]> s in
  if bool_decide (left_ = ∅) then
    match projectionVersions s !! k with
    | Some v => set_heap (alter (λ ver, {| vr_previous := None; vr_value := vr_value ver;
                                           vr_rolledBack := vr_rolledBack ver |}) (k, v)) s1
    | None => s1
    end
  else s1.
Definition releaseClaims (f : nat) (s : State) : State :=
  upd_frame f (set_frame_claims (λ _, ∅)) (foldr (release_claim f) s (elements (claims s f))).

(** ** Projections *)

Definition assertProjectionClaim (f : nat) (k : P) : M () :=
  _ ← assertOwnFrame f;
  s ← getf id;
  throw_if (existsb (λ o, negb (isAncestor s o f) && negb (isAncestor s f o)) (elements (owners s k)))
    (conflict_state "Another memory transaction owns this projection key.").

Definition readProjection (f : nat) (k : P) : M (option V) :=
  _ ← assertProjectionClaim f k; getf (λ s, projections s !! k).

(** The version the key has, made from the stored value where it has none yet. *)
Definition base_version (k : P) (s : State) : State :=
  match projectionVersions s !! k with
  | Some _ => s
  | None =>
      let v := versionCount s in
      set_current k v (count_version (set_heap
        <[(k, v) := {| vr_previous := None; vr_value := projections s !! k; vr_rolledBack := false |}]> s))
  end.
Definition add_claim (k : P) (f : nat) (s : State) : State :=
  upd_frame f (set_frame_claims (λ c, {[k]} ∪ c)) (set_claims <[k := {[f]} ∪ owners s k]> s).
Definition claimProjection (f : nat) (k : P) : M () :=
  _ ← assertProjectionClaim f k;
  modify (λ s, base_version k (foldr (add_claim k) s (ancestors (parent s) f))).

Definition push_change (f : nat) (undo : Undo) (s : State) : State :=
  upd_frame f (set_changes (λ l, l ++ [{| ch_order := S (projectionSequence s); ch_undo := undo |}]))
    (count_change s).

(** The version of a write, its change and the write itself. *)
Definition put_version (f : nat) (k : P) (value : V) (s : State) : State :=
  let v := versionCount s in
  let s1 := count_version (set_heap
    <[(k, v) := {| vr_previous := projectionVersions s !! k; vr_value := Some value; vr_rolledBack := false |}]> s) in
  set_projections <[k := value]> (set_current k v (push_change f (UndoWrite k v) s1)).
Definition writeProjection (f : nat) (k : P) (value : V) : M () :=
  _ ← claimProjection f k; modify (put_version f k value).

Definition appendConflictAction (f : nat) (entry : string * A) : M () :=
  _ ← assertOwnFrame f;
  modify (λ s, set_actions (λ l, l ++ [entry]) (push_change f (UndoAction entry.1) s)).

(** ** Rollback *)

(** [close]: the frame and the frames below it. A child is younger than its parent. *)
Fixpoint subtree (s : State) (fuel f : nat) : list nat :=
  match fuel with
  | 0 => []
  | S fuel' => f :: concat (map (subtree s fuel') (children s f))
  end.

Definition mark (s : State) (c : MemoryProjectionChange) : State :=
  match ch_undo c with
  | UndoWrite k v => set_heap (alter (λ ver, {| vr_previous := vr_previous ver; vr_value := vr_value ver;
                                                vr_rolledBack := true |}) (k, v)) s
  | UndoAction _ => s
  end.

(** [let prior = version.previous!; while (prior.rolledBack) prior = prior.previous!;] with
    [None] where the code would read a member of [undefined]. Versions grow older. *)
Fixpoint live_version (s : State) (k : P) (fuel : nat) (v : option nat) : option (nat * MemoryProjectionVersion) :=
  match fuel, v with
  | S fuel', Some v =>
      match versionHeap s !! (k, v) with
      | Some ver => if vr_rolledBack ver then live_version s k fuel' (vr_previous ver) else Some (v, ver)
      | None => None
      end
  | _, _ => None
  end.

Definition undo (c : MemoryProjectionChange) : M () :=
  s ← getf id;
  match ch_undo c with
  | UndoAction actionId => modify (set_actions (List.filter (λ e, negb (String.eqb e.1 actionId))))
  | UndoWrite k v =>
      if bool_decide (projectionVersions s !! k = Some v) then
        match live_version s k v (versionHeap s !! (k, v) ≫= vr_previous) with
        | None => throw TypeError
        | Some (prior, ver) =>
            _ ← modify (set_projections (match vr_value ver with Some value => <[k := value]> | None => delete k end));
            modify (set_current k prior)
        end
      else mret ()
  end.

Definition rollbackFrame (f : nat) : M () :=
  s ← getf id;
  let closed := subtree s (frameCount s) f in
  let undone := concat (map (changes s) closed) in
  _ ← modify (λ s, foldl (λ s g, upd_frame g (set_active false ∘ set_changes (λ _, [])) s) s closed);
  _ ← modify (λ s, foldl mark s undone);
  _ ← js_each undo (js_sort (λ l r, ch_order r <=? ch_order l) undone);
  modify (λ s, foldl (λ s g, releaseClaims g s) s closed).

(** ** Tenant operations and owned frames *)

Definition new_frame (tenant : string) (up : option nat) (conflictId : option string) : MemoryMutationFrame :=
  {| fr_tenantId := tenant; fr_active := true; fr_children := []; fr_changes := []; fr_claims := ∅;
     fr_releases := []; fr_parent := up; fr_conflictId := conflictId |}.

(** [mutateTenant] from outside any frame, once it is admitted. *)
Definition begin_tenant (tenant : string) : M nat :=
  f ← getf frameCount;
  _ ← modify (λ s, set_frames <[f := new_frame tenant None None]> (count_frame s));
  mret f.

(** The rest of [mutateTenant] once its operation has ended with [result]. *)
Definition end_tenant {R} (f : nat) (result : result R) : M R :=
  js_finally
    (js_catch (value ← lift result; _ ← assertFrameComplete f; mret value)
       (λ e, _ ← rollbackFrame f; throw e))
    (_ ← modify (upd_frame f (set_changes (λ _, []) ∘ set_active false));
     _ ← modify (releaseClaims f);
     modify (λ s, set_locks (λ locks, foldl (λ l k, delete k l) locks
                               (match frames s !! f with Some fr => fr_releases fr | None => [] end)) s)).

Definition begin_owned (tenant : string) (up : nat) (conflictId : option string) : M nat :=
  _ ← assertMutationOwner (Some up) tenant;
  s ← getf id;
  _ ← throw_if (bool_decide (is_Some conflictId)
                && existsb (λ g, bool_decide (frames s !! g ≫= fr_conflictId = conflictId)) (ancestors (parent s) up))
        (conflict_state "A conflict cannot recursively resolve itself.");
  f ← getf frameCount;
  _ ← modify (λ s, set_frames <[f := new_frame tenant (Some up) conflictId]> (count_frame s));
  _ ← modify (upd_frame up (set_children (set_add f)));
  mret f.

(** The rest of [ownedFrame] once its operation has ended with [result]. *)
Definition end_owned {R} (f : nat) (result : result R) : M R :=
  s ← getf id;
  match parent s f with
  | None => throw TypeError
  | Some up =>
      js_finally
        (js_catch (value ← lift result;
                   _ ← assertFrameComplete f;
                   _ ← modify (λ s, upd_frame f (set_changes (λ _, []))
                                      (upd_frame up (set_changes (λ l, l ++ changes s f)) s));
                   mret value)
           (λ e, _ ← rollbackFrame f; throw e))
        (modify (λ s, releaseClaims f (upd_frame up (set_children (set_delete f)) (upd_frame f (set_active false) s))))
  end.

(** [this.mutationContext.getStore()!.changes = []], after each item of a durable batch. *)
Definition keep_changes (f : nat) : M () := modify (upd_frame f (set_changes (λ _, []))).

(** ** Locks of queue items *)

(** [queueItems] is the projection key of a queue item. *)
Context (queueItems : string → P).

Definition root (s : State) (f : nat) : nat := default f (last (ancestors (parent s) f)).

(** One turn of the loop of [queueResolution] for the lock [k]: [true] runs the operation,
    [false] waits for the lock to be released and tries again. *)
Definition queueResolution (f : nat) (k : string) (nested : bool) : M bool :=
  s ← getf id;
  let owner := root s f in
  match queueResolutionLocks s !! k with
  | None =>
      _ ← modify (set_locks <[k := (owner, f)]>);
      _ ← modify (upd_frame owner (set_releases (λ l, l ++ [k])));
      _ ← claimProjection f (queueItems k);
      mret true
  | Some (holder, holding) =>
      if bool_decide (holder = owner) then
        _ ← throw_if (frameIsActive s holding) (conflict_state "A queue item cannot recursively resolve itself.");
        _ ← modify (set_locks <[k := (owner, f)]>);
        _ ← claimProjection f (queueItems k);
        mret true
      else
        _ ← throw_if nested (conflict_state "An owned callback cannot wait for another queue owner.");
        mret false
  end.
End frames.
