(* ===== verification/FrameHistory.v ===== *)
(** * FrameHistory: what the transactions promise, and one projection key seen alone.

    The promise is a log: every write that returned, newest first, under the frame it still
    belongs to; a committed write belongs to none. [KeyRel] says that the versions of a key
    are the undoable end of its part of the log. *)
From S2P Require Import Prelude JsMap JsJson OfflineTypes MemoryFrames.
Local Open Scope nat_scope.

Section history.
Context {P V : Type} `{Countable P} {A : Type}.
Notation State := (@State P V _ _ A).
Notation Version := (@MemoryProjectionVersion V).

(** ** Calls and their log *)

Inductive op :=
| OpBeginTenant (tenant : string)
| OpEndTenant (f : nat) (ended : result ())
| OpBeginOwned (tenant : string) (up : nat) (conflictId : option string)
| OpEndOwned (f : nat) (ended : result ())
| OpRead (f : nat) (k : P)
| OpWrite (f : nat) (k : P) (v : V)
| OpAppend (f : nat) (entry : string * A)
| OpKeep (f : nat)
| OpQueue (f : nat) (k : string) (nested : bool).

Definition run_op (queueItems : string → P) (o : op) : JS State OfflineError () :=
  match o with
  | OpBeginTenant tenant => _ ← begin_tenant tenant; mret ()
  | OpEndTenant f ended => end_tenant f ended
  | OpBeginOwned tenant up conflictId => _ ← begin_owned tenant up conflictId; mret ()
  | OpEndOwned f ended => end_owned f ended
  | OpRead f k => _ ← readProjection f k; mret ()
  | OpWrite f k v => writeProjection f k v
  | OpAppend f entry => appendConflictAction f entry
  | OpKeep f => keep_changes f
  | OpQueue f k nested => _ ← queueResolution queueItems f k nested; mret ()
  end.

(** The calls with what each returned, and the last state. *)
Fixpoint run_ops (queueItems : string → P) (s : State) (ops : list op) : list (op * result ()) * State :=
  match ops with
  | [] => ([], s)
  | o :: ops' =>
      let '(r, s1) := run_op queueItems o s in
      let '(trace, s2) := run_ops queueItems s1 ops' in
      ((o, r) :: trace, s2)
  end.

Record Entry := { en_owner : option nat; en_key : P; en_value : V }.

Record History := {
  hi_count : nat;
  hi_parent : gmap nat nat;
  hi_log : list Entry;
  hi_actions : list (option nat * (string * A)) }.

Definition no_history : History := {| hi_count := 0; hi_parent := ∅; hi_log := []; hi_actions := [] |}.

(** Every write and action moves from its frame [f] to [φ f]. *)
Definition rehome (φ : nat → option nat) (h : History) : History :=
  {| hi_count := hi_count h; hi_parent := hi_parent h;
     hi_log := map (λ e, {| en_owner := en_owner e ≫= φ; en_key := en_key e; en_value := en_value e |}) (hi_log h);
     hi_actions := map (λ p, (p.1 ≫= φ, p.2)) (hi_actions h) |}.
Definition move (f : nat) (target : option nat) (g : nat) : option nat := if decide (g = f) then target else Some g.

(** Is a write with this owner made under [f]? *)
Definition under (up : nat → option nat) (f : nat) (owner : option nat) : bool :=
  match owner with Some g => bool_decide (f ∈ ancestors up g) | None => false end.
Definition drop_under (f : nat) (h : History) : History :=
  {| hi_count := hi_count h; hi_parent := hi_parent h;
     hi_log := List.filter (λ e, negb (under (λ g, hi_parent h !! g) f (en_owner e))) (hi_log h);
     hi_actions := List.filter (λ p, negb (under (λ g, hi_parent h !! g) f p.1)) (hi_actions h) |}.

Definition record_call (h : History) (call : op * result ()) : History :=
  match call with
  | (OpBeginTenant _, Ok _) =>
      {| hi_count := S (hi_count h); hi_parent := hi_parent h; hi_log := hi_log h; hi_actions := hi_actions h |}
  | (OpBeginOwned _ up _, Ok _) =>
      {| hi_count := S (hi_count h); hi_parent := <[hi_count h := up]> (hi_parent h);
         hi_log := hi_log h; hi_actions := hi_actions h |}
  | (OpWrite f k v, Ok _) =>
      {| hi_count := hi_count h; hi_parent := hi_parent h;
         hi_log := {| en_owner := Some f; en_key := k; en_value := v |} :: hi_log h; hi_actions := hi_actions h |}
  | (OpAppend f entry, Ok _) =>
      {| hi_count := hi_count h; hi_parent := hi_parent h; hi_log := hi_log h;
         hi_actions := hi_actions h ++ [(Some f, entry)] |}
  | (OpKeep f, _) => rehome (move f None) h
  | (OpEndTenant f _, Ok _) => rehome (move f None) h
  | (OpEndOwned f _, Ok _) => rehome (move f (hi_parent h !! f)) h
  | (OpEndTenant f _, Throw _) | (OpEndOwned f _, Throw _) => drop_under f h
  | _ => h
  end.
Definition history (trace : list (op * result ())) : History := foldl record_call no_history trace.

Definition entries_of (k : P) (h : History) : list Entry := filter (λ e, en_key e = k) (hi_log h).
(** The value of a key: its last write that was not undone. *)
Definition replay (k : P) (h : History) : option V := en_value <$> head (entries_of k h).

(** ** One key *)

Notation Heap := (nat → option Version).

(** The versions reached from one by [previous], itself included. *)
Inductive chain (h : Heap) : nat → list nat → Prop :=
| chain_last v ver : h v = Some ver → vr_previous ver = None → chain h v [v]
| chain_cons v ver w c : h v = Some ver → vr_previous ver = Some w → w < v → chain h w c → chain h v (v :: c).

Definition live (h : Heap) (v : nat) : bool := match h v with Some ver => negb (vr_rolledBack ver) | None => false end.

(** The log of a key with the value under it. *)
Notation Line := (list (option nat * option V)).

(** [v] carries the value of an entry and is undoable by exactly its owner. *)
Definition carries (h : Heap) (pd : nat → nat → Prop) (v : nat) (e : option nat * option V) : Prop :=
  ∃ ver, h v = Some ver ∧ vr_value ver = e.2 ∧ ∀ f, pd f v ↔ e.1 = Some f.

Record Versions (h : Heap) (v : nat) (pd : nat → nat → Prop) (value : option V)
    (c : list nat) (top rest : Line) : Prop := {
  vs_chain : chain h v c;
  vs_carries : Forall2 (carries h pd) (List.filter (live h) c) top;
  vs_committed : Forall (λ e, e.1 = None) rest;
  vs_bottom : last c = last (List.filter (live h) c);
  vs_bottom_free : fst <$> last top = Some None;
  vs_pending : ∀ f w, pd f w → w ∈ List.filter (live h) c;
  vs_value : snd <$> head top = Some value }.

(** A key without versions was never claimed. *)
Definition KeyRel (h : Heap) (cur : option nat) (value : option V) (pd : nat → nat → Prop) (l : Line) : Prop :=
  match cur with
  | None => l = [(None, value)] ∧ (∀ f w, ¬ pd f w)
  | Some v => live h v = true ∧ ∃ c top rest, l = top ++ rest ∧ Versions h v pd value c top rest
  end.

Lemma chain_head h v c : chain h v c → ∃ c', c = v :: c'.
Proof. destruct 1; eauto. Qed.
Lemma chain_in h v c w : chain h v c → w ∈ c → is_Some (h w) ∧ w ≤ v.
Proof.
  induction 1 as [v ver Hv|v ver u c Hv Hp Hlt Hc IH]; intros Hw.
  - apply list_elem_of_singleton in Hw as ->. eauto.
  - apply elem_of_cons in Hw as [->|Hw]; [eauto|]. destruct (IH Hw) as [? ?]. split; [done|lia].
Qed.
Lemma chain_ext h h' v c :
  chain h v c → (∀ w, w ∈ c → vr_previous <$> h' w = vr_previous <$> h w) → chain h' v c.
Proof.
  induction 1 as [v ver Hv Hp|v ver u c Hv Hp Hlt Hc IH]; intros He.
  - specialize (He v ltac:(by left)). rewrite Hv in He. destruct (h' v) as [ver'|] eqn:Hv'; simplify_eq/=.
    apply (chain_last _ _ ver'); congruence.
  - pose proof (He v ltac:(by left)) as Hh. rewrite Hv in Hh. destruct (h' v) as [ver'|] eqn:Hv'; simplify_eq/=.
    apply (chain_cons _ _ ver' u); [done|congruence|done|]. apply IH. intros w Hw. apply He. by right.
Qed.
Lemma filter_live_ext h h' (c : list nat) :
  (∀ w, w ∈ c → live h' w = live h w) → List.filter (live h') c = List.filter (live h) c.
Proof.
  induction c as [|w c IH]; intros He; simpl; [done|].
  rewrite (He w) by (by left). rewrite IH by (intros; apply He; by right). done.
Qed.
Lemma Forall2_ext {X Y} (R S : X → Y → Prop) l k :
  Forall2 R l k → (∀ x y, x ∈ l → R x y → S x y) → Forall2 S l k.
Proof.
  induction 1 as [|x y l k Hxy Hl IH]; intros HS; constructor.
  - apply HS; [by left|done].
  - apply IH. intros. apply HS; [by right|done].
Qed.
Lemma elem_of_list_filter (p : nat → bool) l x : x ∈ List.filter p l ↔ x ∈ l ∧ p x = true.
Proof. rewrite !list_elem_of_In, filter_In. done. Qed.

Lemma live_some h v ver : h v = Some ver → live h v = negb (vr_rolledBack ver).
Proof. unfold live. by intros ->. Qed.

(** Nothing but the readings of the heap, the pending versions and the log matters. *)
Lemma key_ext h h' cur value pd pd' l :
  KeyRel h cur value pd l → (∀ w, h' w = h w) → (∀ f w, pd' f w ↔ pd f w) → KeyRel h' cur value pd' l.
Proof.
  intros Hk Hh Hp. destruct cur as [v|]; simpl in *; [|setoid_rewrite Hp; done].
  destruct Hk as [Hl (c & top & rest & -> & [Hc Hca Hco Hb Hbf Hpe Hv])].
  assert (∀ w, live h' w = live h w) as Hlive by (intros w; unfold live; by rewrite Hh).
  rewrite Hlive. split; [done|]. exists c, top, rest. split; [done|].
  assert (List.filter (live h') c = List.filter (live h) c) as He by (apply filter_live_ext; auto).
  split; rewrite ?He; try done.
  - eapply chain_ext; [done|]. intros. by rewrite Hh.
  - eapply Forall2_ext; [done|]. intros w e _ (ver & ? & ? & Hpd). exists ver. rewrite Hh. split_and!; [done..|].
    intros f. rewrite Hp. done.
  - intros f w ?%Hp. eauto.
Qed.

Lemma key_claim h h' w value pd l :
  KeyRel h None value pd l →
  h' w = Some {| vr_previous := None; vr_value := value; vr_rolledBack := false |} →
  KeyRel h' (Some w) value pd l.
Proof.
  intros [-> Hpd] Hw. unfold KeyRel. pose proof (live_some _ _ _ Hw) as Hl. simpl in Hl. split; [done|].
  exists [w], [(None, value)], []. split; [done|]. split; simpl; rewrite ?Hl; simpl; try done.
  - by eapply chain_last.
  - constructor; [|constructor]. eexists. split_and!; [done|done|]. intros f. split; [|done]. by intros ?%Hpd.
  - intros f u ?%Hpd. done.
Qed.

(** A write puts a new version on top. *)
Lemma key_write h h' v w f value value' pd pd' l :
  KeyRel h (Some v) value pd l → v < w → h w = None →
  h' w = Some {| vr_previous := Some v; vr_value := Some value'; vr_rolledBack := false |} →
  (∀ u, u ≠ w → h' u = h u) →
  (∀ g u, pd' g u ↔ pd g u ∨ g = f ∧ u = w) →
  KeyRel h' (Some w) (Some value') pd' ((Some f, Some value') :: l).
Proof.
  intros [Hl (c & top & rest & -> & [Hc Hca Hco Hb Hbf Hpe Hv])] Hlt Hnone Hw Hu Hpd.
  pose proof (live_some _ _ _ Hw) as Hlw. simpl in Hlw.
  assert (∀ u, u ∈ c → u ≠ w) as Hne by (intros u Hin ->; apply (chain_in _ _ _ _ Hc) in Hin as [? ?]; lia).
  assert (∀ u, u ∈ c → live h' u = live h u) as Hlu by (intros u Hin; unfold live; by rewrite Hu by auto).
  assert (List.filter (live h') c = List.filter (live h) c) as He by (apply filter_live_ext; auto).
  assert (∀ g, ¬ pd g w) as Hfresh.
  { intros g Hg%Hpe. apply elem_of_list_filter in Hg as [Hg _]. by apply (Hne w). }
  split; [done|]. exists (w :: c), ((Some f, Some value') :: top), rest. split; [done|].
  destruct (chain_head _ _ _ Hc) as [c' ->]. destruct top as [|e0 top]; [done|].
  assert (List.filter (live h) (v :: c') = v :: List.filter (live h) c') as Hfv by (simpl; by rewrite Hl).
  split.
  - eapply chain_cons; [done|done|done|]. eapply chain_ext; [done|]. intros u Hin. by rewrite Hu by auto.
  - remember (v :: c') as c0. simpl. rewrite Hlw, He. constructor.
    + eexists. split_and!; [done|done|]. intros g. rewrite Hpd. simpl. split.
      * intros [Hg|[-> _]]; [by apply Hfresh in Hg|done].
      * intros [= ->]. by right.
    + eapply Forall2_ext; [done|]. intros u e Hin (ver & Hver & Hval & Hown). exists ver.
      apply elem_of_list_filter in Hin as [Hin _]. rewrite Hu by auto. split_and!; [done..|].
      intros g. rewrite Hpd, Hown. split; [|by left]. intros [?|[_ ->]]; [done|]. exfalso. by apply (Hne w).
  - done.
  - remember (v :: c') as c0. simpl. rewrite Hlw, He, Hfv. subst c0. rewrite Hfv in Hb. rewrite !last_cons_cons. done.
  - rewrite last_cons_cons. done.
  - intros g u. rewrite Hpd. remember (v :: c') as c0. simpl. rewrite Hlw, He.
    intros [Hg|[-> ->]]; [right; eauto|left].
  - done.
Qed.

(** When no write of the key is undoable its history is one version. *)
Lemma key_cut h h' v value pd l :
  KeyRel h (Some v) value pd l → (∀ f w, ¬ pd f w) →
  (∃ ver, h v = Some ver ∧ h' v = Some {| vr_previous := None; vr_value := vr_value ver; vr_rolledBack := vr_rolledBack ver |}) →
  KeyRel h' (Some v) value pd l.
Proof.
  intros [Hl (c & top & rest & -> & [Hc Hca Hco Hb Hbf Hpe Hv])] Hno (ver & Hver & Hver').
  destruct (chain_head _ _ _ Hc) as [c' ->]. simpl in Hca. rewrite Hl in Hca.
  apply Forall2_cons_inv_l in Hca as (e & top' & Hcv & Htop & ->).
  assert (live h' v = true) as Hl'.
  { rewrite (live_some _ _ _ Hver'). simpl. by rewrite <- (live_some h v ver). }
  assert (Forall (λ e : option nat * option V, e.1 = None) (e :: top')) as Hnone.
  { assert (∀ u e, carries h pd u e → e.1 = None) as Hce.
    { intros u [[g|] x] (? & _ & _ & Hg); [|done]. specialize (Hg g). exfalso. eapply Hno. by apply Hg. }
    constructor; [eauto|]. clear Hb Hbf Hpe Hv. induction Htop; constructor; eauto. }
  apply Forall_cons in Hnone as [He Htn].
  split; [done|]. exists [v], [e], (top' ++ rest). split; [done|]. split; simpl; rewrite ?Hl'; simpl.
  - by eapply chain_last.
  - constructor; [|constructor]. destruct Hcv as (ver0 & ? & ? & Hown). simplify_eq. eexists.
    split_and!; [done|done|]. done.
  - apply Forall_app. done.
  - done.
  - by rewrite He.
  - intros f w ?%Hno. done.
  - done.
Qed.

(** Writes change hands. *)
Lemma key_rehome h cur value pd pd' l (φ : nat → option nat) :
  KeyRel h cur value pd l →
  (∀ f w, pd' f w ↔ ∃ g, pd g w ∧ φ g = Some f) →
  KeyRel h cur value pd' (map (λ e, (e.1 ≫= φ, e.2)) l).
Proof.
  intros Hk Hpd. destruct cur as [v|]; simpl in *.
  - destruct Hk as [Hl (c & top & rest & -> & [Hc Hca Hco Hb Hbf Hpe Hv])]. split; [done|].
    exists c, (map (λ e, (e.1 ≫= φ, e.2)) top), (map (λ e, (e.1 ≫= φ, e.2)) rest).
    split; [apply map_app|]. split; try done.
    + apply Forall2_fmap_r. eapply Forall2_impl; [done|]. intros u e (ver & ? & ? & Hown).
      exists ver. split_and!; [done..|]. intros f. rewrite Hpd. simpl. destruct (e.1) as [g|] eqn:Heg; simpl.
      * split; [|intros; exists g; split; [by apply Hown|done]].
        intros (g' & Hg' & Hφ). apply Hown in Hg'. naive_solver.
      * split; [|done]. intros (g' & Hg' & Hφ). apply Hown in Hg'. done.
    + apply Forall_fmap. eapply Forall_impl; [done|]. intros e He. simpl. by rewrite He.
    + rewrite fmap_last. destruct (last top) as [e|]; simplify_eq/=. by rewrite Hbf.
    + intros f w (g & Hg & _)%Hpd. eauto.
    + destruct top as [|e top]; simplify_eq/=. done.
  - destruct Hk as [-> Hno]. split; [done|]. intros f w (g & Hg%Hno & _)%Hpd. done.
Qed.
(** The first version that was not rolled back, from [v] on. *)
Inductive first_live (h : Heap) : nat → nat → Prop :=
| first_live_here v : live h v = true → first_live h v v
| first_live_next v ver w t : h v = Some ver → vr_rolledBack ver = true → vr_previous ver = Some w → w < v →
    first_live h w t → first_live h v t.

Lemma chain_first_live h v c t a :
  chain h v c → List.filter (live h) c = t :: a →
  ∃ c', chain h t c' ∧ List.filter (live h) c' = t :: a ∧ first_live h v t ∧ last c' = last c.
Proof.
  intros Hc. revert t a. induction Hc as [v ver Hv Hp|v ver w c Hv Hp Hlt Hc IH]; intros t a Hf.
  - pose proof Hf as Hf'. simpl in Hf. destruct (live h v) eqn:Hl; [|done]. simplify_eq.
    exists [t]. split_and!; [by eapply chain_last|done|by constructor|done].
  - destruct (live h v) eqn:Hl.
    + pose proof Hf as Hf'. simpl in Hf. rewrite Hl in Hf. simplify_eq.
      exists (t :: c). split_and!; [by eapply chain_cons|done|by constructor|done].
    + simpl in Hf. rewrite Hl in Hf. destruct (IH t a Hf) as (c' & ? & ? & Hfl & Hlast).
      exists c'. split_and!; [done|done| |].
      * eapply first_live_next; [done| |done|done|done]. rewrite (live_some _ _ _ Hv) in Hl. by apply negb_false_iff in Hl.
      * destruct (chain_head _ _ _ Hc) as [c0 ->]. by rewrite last_cons_cons.
Qed.

Lemma Forall2_list_filter {X Y} (R : X → Y → Prop) (p : X → bool) (q : Y → bool) l k :
  Forall2 R l k → (∀ x y, R x y → p x = q y) → Forall2 R (List.filter p l) (List.filter q k).
Proof.
  intros Hl Hpq. induction Hl as [|x y l k Hxy Hl IH]; simpl; [constructor|].
  rewrite (Hpq _ _ Hxy). destruct (q y); [by constructor|done].
Qed.
Lemma last_list_filter {X} (p : X → bool) l x : last l = Some x → p x = true → last (List.filter p l) = Some x.
Proof.
  induction l as [|y l IH]; intros Hl Hp; [done|]. destruct l as [|z l].
  - simplify_eq/=. by rewrite Hp.
  - rewrite last_cons_cons in Hl. specialize (IH Hl Hp).
    change (List.filter p (y :: z :: l)) with (if p y then y :: List.filter p (z :: l) else List.filter p (z :: l)).
    destruct (p y); [|done]. destruct (List.filter p (z :: l)) eqn:He; [done|]. by rewrite last_cons_cons.
Qed.
Lemma Forall2_last {X Y} (R : X → Y → Prop) l k y :
  Forall2 R l k → last k = Some y → ∃ x, last l = Some x ∧ R x y.
Proof.
  induction 1 as [|x y' l k Hxy Hl IH]; intros Hlast; [done|].
  destruct Hl as [|x2 y2 l k Hxy2 Hl]; [simplify_eq/=; eauto|]. apply (IH Hlast).
Qed.
Lemma list_filter_filter {X} (p q r : X → bool) l :
  (∀ x, x ∈ l → r x = p x && q x) → List.filter r l = List.filter q (List.filter p l).
Proof.
  induction l as [|x l IH]; intros Hr; simpl; [done|].
  rewrite (Hr x) by (by left). rewrite IH by (intros; apply Hr; by right).
  destruct (p x); simpl; [|done]. by destruct (q x).
Qed.

(** Is an entry owned by one of the frames [F]? *)
Definition owned (F : nat → bool) (e : option nat * option V) : bool :=
  match e.1 with Some f => F f | None => false end.

(** Rolling back the frames [F] leaves the versions of the others. *)
Lemma key_rollback h h' v value pd pd' l (F undone : nat → bool) :
  KeyRel h (Some v) value pd l →
  (∀ w, undone w = true ↔ ∃ f, F f = true ∧ pd f w) →
  (∀ w ver, h w = Some ver → h' w = Some {| vr_previous := vr_previous ver; vr_value := vr_value ver;
                                            vr_rolledBack := undone w || vr_rolledBack ver |}) →
  (∀ f w, pd' f w ↔ pd f w ∧ F f = false) →
  ∃ t ver, first_live h' v t ∧ h' t = Some ver ∧ undone t = false ∧
    KeyRel h' (Some t) (vr_value ver) pd' (List.filter (λ e, negb (owned F e)) l) ∧
    (undone v = false → t = v ∧ vr_value ver = value).
Proof.
  intros [Hl (c & top & rest & -> & [Hc Hca Hco Hb Hbf Hpe Hv])] Hundone Hh Hpd.
  assert (∀ w, w ∈ c → live h' w = live h w && negb (undone w)) as Hlive.
  { intros w Hw. destruct (chain_in _ _ _ _ Hc Hw) as [[ver Hver] _].
    rewrite (live_some _ _ _ Hver), (live_some _ _ _ (Hh _ _ Hver)). simpl.
    destruct (undone w), (vr_rolledBack ver); done. }
  pose proof (list_filter_filter (live h) (λ w, negb (undone w)) (live h') c Hlive) as Hfilter.
  assert (∀ w e, carries h pd w e → negb (undone w) = negb (owned F e)) as Hsame.
  { intros w e (ver & _ & _ & Hown). f_equal. apply eq_bool_prop_intro. unfold owned.
    rewrite !Is_true_true, Hundone. split.
    - intros (f & HF & Hf%Hown). by rewrite Hf.
    - intros HF. destruct (e.1) as [f|]; [|done]. exists f. split; [done|]. by apply Hown. }
  pose proof (Forall2_list_filter _ _ _ _ _ Hca Hsame) as Hca'. rewrite <- Hfilter in Hca'.
  assert (chain h' v c) as Hc'.
  { eapply chain_ext; [done|]. intros w Hw. destruct (chain_in _ _ _ _ Hc Hw) as [[ver Hver] _].
    by rewrite Hver, (Hh _ _ Hver). }
  destruct (last top) as [eb|] eqn:Hlt; simplify_eq/=.
  assert (last (List.filter (λ e, negb (owned F e)) top) = Some eb) as Hltop.
  { apply last_list_filter; [done|]. unfold owned. by rewrite Hbf. }
  destruct (Forall2_last _ _ _ _ Hca Hlt) as (wb & Hwb & Hcb).
  assert (last (List.filter (live h') c) = Some wb) as Hlb.
  { rewrite Hfilter. apply last_list_filter; [done|]. rewrite (Hsame _ _ Hcb). unfold owned. by rewrite Hbf. }
  destruct (List.filter (live h') c) as [|t a] eqn:Hfl; [done|].
  destruct (chain_first_live _ _ _ _ _ Hc' Hfl) as (c' & Hct & Hft & Hfirst & Hlast).
  assert (t ∈ List.filter (live h') c) as Ht by (rewrite Hfl; by left).
  apply elem_of_list_filter in Ht as [Htc Htl]. rewrite (Hlive _ Htc) in Htl.
  apply andb_true_iff in Htl as [Htl Htu]. apply negb_true_iff in Htu.
  destruct (List.filter (λ e, negb (owned F e)) top) as [|e top'] eqn:Htop; [done|].
  apply Forall2_cons in Hca' as [(ver & Hver & Hval & Hown) Hca'].
  pose proof (Hh _ _ Hver) as Hver'.
  eexists t, _. split; [done|]. split; [done|]. split; [done|]. split.
  - split; [by rewrite (Hlive _ Htc), Htl, Htu|].
    exists c', (e :: top'), rest. split.
    { rewrite List.filter_app, Htop. f_equal. apply filter_all_true.
      eapply Forall_impl; [done|]. intros x Hx. unfold owned. simpl in Hx. by rewrite Hx. }
    assert (∀ w e, w ∈ List.filter (live h') c → carries h pd w e → negb (owned F e) = true → carries h' pd' w e) as Hcarry.
    { intros w e' Hw (ver' & Hv1 & Hv2 & Hv3) Hne. eexists. split_and!; [by apply Hh|done|].
      intros f. rewrite Hpd, Hv3. apply negb_true_iff in Hne. unfold owned in Hne.
      split; [by intros []|]. intros He. split; [done|]. by rewrite He in Hne. }
    split; try done.
    + rewrite Hft, <- Htop. apply Forall2_same_length_lookup_2.
      * rewrite Htop. simpl. f_equal. by eapply Forall2_length.
      * intros i w e' Hwi Hei. apply Hcarry.
        -- rewrite Hfl. by eapply list_elem_of_lookup_2.
        -- rewrite Htop in Hei. assert (Forall2 (carries h pd) (t :: a) (e :: top')) as Hall.
           { constructor; [|done]. exists ver. done. }
           by eapply Forall2_lookup_lr.
        -- apply list_elem_of_lookup_2, list_elem_of_In, filter_In in Hei. apply Hei.
    + rewrite Hlast, Hb, Hft, Hwb. done.
    + rewrite Hltop. simpl. by rewrite Hbf.
    + intros f w [Hp HF]%Hpd. rewrite Hft, Hfilter. apply elem_of_list_filter. split; [by eapply Hpe|].
      apply negb_true_iff. destruct (undone w) eqn:Hu; [|done]. apply Hundone in Hu as (g & Hg & Hpg).
      pose proof (Hpe _ _ Hp) as Hin. apply list_elem_of_lookup_1 in Hin as [i Hi].
      destruct (Forall2_lookup_l _ _ _ _ _ Hca Hi) as (e' & _ & (? & _ & _ & Hown')).
      apply Hown' in Hp, Hpg. congruence.
    + simpl. by rewrite Hval.
  - intros Hvu. destruct (chain_head _ _ _ Hc) as [c0 ->]. simpl in Hfl.
    rewrite (Hlive v) in Hfl by (by left). rewrite Hl, Hvu in Hfl. simpl in Hfl. simplify_eq. split; [done|].
    destruct top as [|e1 top]; [done|]. simpl in Hca. rewrite Hl in Hca. apply Forall2_cons in Hca as [Hce _].
    destruct Hce as (ver1 & Hv1 & Hv2 & _). simplify_eq/=. congruence.
Qed.

Lemma first_live_live h v t : first_live h v t → live h t = true.
Proof. by induction 1. Qed.
End history.
