(* ===== verification/FrameInv.v ===== *)
(** * FrameInv: the store keeps the log of its calls.

    [Core] relates a state of the store to the log; every step a call is made of keeps it,
    and so do the calls. *)
From S2P Require Import Prelude JsMap JsJson OfflineTypes MemoryFrames FrameHistory.

Local Open Scope nat_scope.

(** ** Lines of ancestors *)
Section lines.
Context (up : nat → option nat) (Hup : ∀ f q, up f = Some q → q < f).

Lemma line_fuel n m f : f < n → f < m → line up n f = line up m f.
Proof using Hup.
  revert m f. induction n as [|n IH]; intros m f Hn Hm; [lia|]. destruct m as [|m]; [lia|]. simpl. f_equal.
  destruct (up f) as [q|] eqn:Hq; [|done]. apply Hup in Hq. apply IH; lia.
Qed.
Lemma ancestors_unfold f :
  ancestors up f = f :: match up f with Some q => ancestors up q | None => [] end.
Proof using Hup.
  change (ancestors up f) with (f :: match up f with Some q => line up f q | None => [] end). f_equal.
  destruct (up f) as [q|] eqn:Hq; [|done]. apply Hup in Hq. apply line_fuel; lia.
Qed.
Lemma ancestors_refl f : f ∈ ancestors up f.
Proof using Hup. rewrite ancestors_unfold. by left. Qed.
Lemma ancestors_up f q g : up f = Some q → g ∈ ancestors up q → g ∈ ancestors up f.
Proof using Hup. intros Hq Hg. rewrite ancestors_unfold, Hq. by right. Qed.

(** What holds of a frame and passes to parents holds of its ancestors. *)
Lemma ancestors_ind (Q : nat → Prop) f :
  Q f → (∀ g q, Q g → up g = Some q → Q q) → ∀ g, g ∈ ancestors up f → Q g.
Proof using Hup.
  intros Hf Hstep. revert Hf. induction f as [f IH] using lt_wf_ind. intros Hf g. rewrite ancestors_unfold.
  intros [->|Hg]%elem_of_cons; [done|]. destruct (up f) as [q|] eqn:Hq; [|by apply elem_of_nil in Hg].
  eapply (IH q); eauto.
Qed.
Lemma ancestors_trans f g k : g ∈ ancestors up f → k ∈ ancestors up g → k ∈ ancestors up f.
Proof using Hup.
  revert g k. induction f as [f IH] using lt_wf_ind. intros g k Hg Hk. rewrite ancestors_unfold in Hg |- *.
  apply elem_of_cons in Hg as [->|Hg].
  - by rewrite ancestors_unfold in Hk.
  - destruct (up f) as [q|] eqn:Hq; [|by apply elem_of_nil in Hg]. right. eapply (IH q); eauto.
Qed.
Lemma ancestors_le f g : g ∈ ancestors up f → g ≤ f.
Proof using Hup.
  intros Hg. eapply (ancestors_ind (λ g, g ≤ f) f); [lia| |done]. intros a q Ha Hq%Hup. lia.
Qed.
End lines.

Lemma ancestors_ext up up' f :
  (∀ g q, up g = Some q → q < g) → (∀ g, g ≤ f → up' g = up g) → ancestors up' f = ancestors up f.
Proof.
  intros Hup. unfold ancestors. generalize (S f). intros n He. revert f He.
  induction n as [|n IH]; intros f He; [done|]. simpl. f_equal. rewrite He by lia.
  destruct (up f) as [q|] eqn:Hq; [|done]. apply IH. intros g Hg. apply He. apply Hup in Hq. lia.
Qed.

Section inv.
Context {P V : Type} `{Countable P} {A : Type}.
Notation State := (@State P V _ _ A).
Notation History := (@History P V A).

Lemma lookup_upd_frame f (g : @MemoryMutationFrame P _ _ → MemoryMutationFrame) (s : State) x :
  frames (upd_frame f g s) !! x = if decide (x = f) then g <$> frames s !! x else frames s !! x.
Proof.
  unfold upd_frame. simpl. destruct (decide (x = f)) as [->|Hne]; [apply lookup_alter_eq|].
  by apply lookup_alter_ne.
Qed.

(** What a frame still has to undo. *)
Definition pend (s : State) (f : nat) : list (@Undo P) := ch_undo <$> changes s f.

Definition line_of (k : P) (h : History) : list (option nat * option V) :=
  map (λ e, (en_owner e, Some (en_value e))) (entries_of k h) ++ [(None, None)].

(** The key [k] of the state has the history [l]. *)
Definition KeyOk (s : State) (k : P) (l : list (option nat * option V)) : Prop :=
  KeyRel (λ v, versionHeap s !! (k, v)) (projectionVersions s !! k) (projections s !! k)
    (λ f v, UndoWrite k v ∈ pend s f) l.

Lemma key_same (s s' : State) k l :
  KeyOk s k l → (∀ w, versionHeap s' !! (k, w) = versionHeap s !! (k, w)) →
  projectionVersions s' !! k = projectionVersions s !! k → projections s' !! k = projections s !! k →
  (∀ f w, UndoWrite k w ∈ pend s' f ↔ UndoWrite k w ∈ pend s f) → KeyOk s' k l.
Proof.
  unfold KeyOk. intros Hk Hh -> -> Hp.
  apply (key_ext (λ v, versionHeap s !! (k, v)) _ _ _ (λ f v, UndoWrite k v ∈ pend s f)); done.
Qed.

(** The frames form trees of open frames. *)
Record Tree (s : State) : Prop := {
  tr_dom : ∀ f, is_Some (frames s !! f) → f < frameCount s;
  tr_older : ∀ f q, parent s f = Some q → q < f;
  tr_child : ∀ c q, c ∈ children s q → parent s c = Some q;
  tr_active : ∀ f q, active s f = true → parent s f = Some q → active s q = true ∧ f ∈ children s q }.

Record Core (s : State) (h : History) : Prop := {
  co_tree : Tree s;
  co_count : frameCount s = hi_count h;
  co_parent : ∀ f, parent s f = hi_parent h !! f;
  co_changes : ∀ f u, u ∈ pend s f → active s f = true;
  co_claims : ∀ f k, k ∈ claims s f ↔ f ∈ owners s k;
  co_owner : ∀ f q k, f ∈ owners s k → active s f = true → parent s f = Some q → q ∈ owners s k;
  co_pending : ∀ f k v, UndoWrite k v ∈ pend s f → f ∈ owners s k;
  co_versions : ∀ k v, is_Some (versionHeap s !! (k, v)) → v < versionCount s;
  co_key : ∀ k, KeyOk s k (line_of k h);
  co_actions : conflictActions s = map snd (hi_actions h);
  co_ids : NoDup (map (λ p, p.2.1) (hi_actions h));
  co_action_owner : ∀ f i, UndoAction i ∈ pend s f ↔ ∃ e, (Some f, e) ∈ hi_actions h ∧ e.1 = i }.

(** Only open frames hold claims. *)
Definition Rel (s : State) (h : History) : Prop :=
  Core s h ∧ ∀ f k, f ∈ owners s k → active s f = true.

Lemma core_new : Rel new_state no_history.
Proof.
  split; [split|]; try done.
  - split; try done; [by intros f [? Hf]|]. intros c q Hc. by apply elem_of_nil in Hc.
  - intros f u Hf. by apply elem_of_nil in Hf.
  - intros f k v Hf. by apply elem_of_nil in Hf.
  - intros k v [? Hk]. done.
  - intros k. split; [done|]. intros f w Hw. by apply elem_of_nil in Hw.
  - apply NoDup_nil_2.
  - intros f i. split; [intros Hi; by apply elem_of_nil in Hi|]. intros (e & He & _). by apply elem_of_nil in He.
Qed.

(** ** Readings of a changed frame *)
Lemma active_keep f g (s : State) x : (∀ fr, fr_active (g fr) = fr_active fr) → active (upd_frame f g s) x = active s x.
Proof. intros Hg. unfold active. rewrite lookup_upd_frame. destruct (frames s !! x); case_decide; simpl; auto. Qed.
Lemma parent_keep f g (s : State) x : (∀ fr, fr_parent (g fr) = fr_parent fr) → parent (upd_frame f g s) x = parent s x.
Proof. intros Hg. unfold parent. rewrite lookup_upd_frame. destruct (frames s !! x); case_decide; simpl; auto. Qed.
Lemma children_keep f g (s : State) x : (∀ fr, fr_children (g fr) = fr_children fr) → children (upd_frame f g s) x = children s x.
Proof. intros Hg. unfold children. rewrite lookup_upd_frame. destruct (frames s !! x); case_decide; simpl; auto. Qed.
Lemma changes_keep f g (s : State) x : (∀ fr, fr_changes (g fr) = fr_changes fr) → changes (upd_frame f g s) x = changes s x.
Proof. intros Hg. unfold changes. rewrite lookup_upd_frame. destruct (frames s !! x); case_decide; simpl; auto. Qed.
Lemma pend_keep f g (s : State) x : (∀ fr, fr_changes (g fr) = fr_changes fr) → pend (upd_frame f g s) x = pend s x.
Proof. intros Hg. unfold pend. by rewrite changes_keep. Qed.
Lemma claims_keep f g (s : State) x : (∀ fr, fr_claims (g fr) = fr_claims fr) → claims (upd_frame f g s) x = claims s x.
Proof. intros Hg. unfold claims. rewrite lookup_upd_frame. destruct (frames s !! x); case_decide; simpl; auto. Qed.

Lemma active_off f g (s : State) x :
  (∀ fr, fr_active (g fr) = false) → active (upd_frame f g s) x = active s x && bool_decide (x ≠ f).
Proof.
  intros Hg. unfold active. rewrite lookup_upd_frame. destruct (decide (x = f)) as [->|Hne].
  - rewrite bool_decide_eq_false_2 by auto. rewrite andb_false_r. destruct (frames s !! f); simpl; auto.
  - rewrite bool_decide_eq_true_2 by done. by rewrite andb_true_r.
Qed.
Lemma children_deleted f c (s : State) x :
  children (upd_frame f (set_children (set_delete c)) s) x = if decide (x = f) then set_delete c (children s x) else children s x.
Proof. unfold children. rewrite lookup_upd_frame. destruct (frames s !! x); case_decide; simpl; auto. Qed.
Lemma pend_cleared f g (s : State) x :
  (∀ fr, fr_changes (g fr) = []) → pend (upd_frame f g s) x = if decide (x = f) then [] else pend s x.
Proof.
  intros Hg. unfold pend, changes. rewrite lookup_upd_frame.
  destruct (frames s !! x); case_decide; simpl; rewrite ?Hg; auto.
Qed.
Lemma pend_added f l (s : State) x :
  is_Some (frames s !! f) →
  pend (upd_frame f (set_changes (λ l0, l0 ++ l)) s) x = if decide (x = f) then pend s x ++ (ch_undo <$> l) else pend s x.
Proof.
  intros [fr Hf]. unfold pend, changes. rewrite lookup_upd_frame.
  destruct (decide (x = f)) as [->|]; [|done]. rewrite Hf. simpl. by rewrite fmap_app.
Qed.
Lemma dom_upd f g (s : State) x : is_Some (frames (upd_frame f g s) !! x) ↔ is_Some (frames s !! x).
Proof. rewrite lookup_upd_frame. case_decide; [|done]. by rewrite fmap_is_Some. Qed.
Lemma active_dom (s : State) f : active s f = true → is_Some (frames s !! f).
Proof. unfold active. by destruct (frames s !! f). Qed.

(** States that differ in their frames only. *)
Record same_store (s s' : State) : Prop := {
  sm_count : frameCount s' = frameCount s;
  sm_heap : versionHeap s' = versionHeap s;
  sm_versions : versionCount s' = versionCount s;
  sm_current : projectionVersions s' = projectionVersions s;
  sm_claims : projectionClaims s' = projectionClaims s;
  sm_projections : projections s' = projections s;
  sm_actions : conflictActions s' = conflictActions s }.
Lemma same_upd f g (s : State) : same_store s (upd_frame f g s).
Proof. by split. Qed.

Lemma core_reframe (s s' : State) h :
  Core s h → same_store s s' → Tree s' →
  (∀ x, parent s' x = parent s x) → (∀ x, claims s' x = claims s x) → (∀ x, pend s' x = pend s x) →
  (∀ f u, u ∈ pend s f → active s' f = true) → (∀ f, active s' f = true → active s f = true) → Core s' h.
Proof.
  intros [Ht Hc Hp Hch Hcl Ho Hpe Hv Hk Ha Hi Hao] [S1 S2 S3 S4 S5 S6 S7] Ht' Ep Ec Eu Hon Hoff.
  assert (∀ k, owners s' k = owners s k) as Eo by (intros k; unfold owners; by rewrite S5).
  split; try done; intros; rewrite ?S1, ?S2, ?S3, ?S4, ?S6, ?S7, ?Ep, ?Ec, ?Eu, ?Eo in *; eauto.
  apply (key_same s); try congruence; intros; by rewrite ?S2, ?S4, ?S6, ?Eu.
Qed.

Lemma tree_deactivate s f :
  Tree s → (∀ g, active s g = true → parent s g ≠ Some f) → Tree (upd_frame f (set_active false) s).
Proof.
  intros [Hd Ho Hc Ha] Hno. split.
  - intros x. rewrite dom_upd. apply Hd.
  - intros x q. rewrite parent_keep by done. apply Ho.
  - intros c q. rewrite parent_keep, children_keep by done. apply Hc.
  - intros x q. rewrite !active_off, parent_keep, children_keep by done.
    intros [Hx Hne]%andb_true_iff Hq. destruct (Ha x q Hx Hq) as [Hq' Hin]. split; [|done].
    rewrite Hq'. simpl. apply bool_decide_eq_true. intros ->. by apply (Hno x).
Qed.

Lemma core_deactivate s h f :
  Core s h → pend s f = [] → (∀ g, active s g = true → parent s g ≠ Some f) →
  Core (upd_frame f (set_active false) s) h.
Proof.
  intros Hs Hf Hno. eapply core_reframe; [done|apply same_upd|by apply tree_deactivate; [apply Hs|]|..].
  - intros x. by apply parent_keep.
  - intros x. by apply claims_keep.
  - intros x. by apply pend_keep.
  - intros x u Hu. rewrite active_off by done. rewrite (co_changes _ _ Hs _ _ Hu). simpl.
    apply bool_decide_eq_true. intros ->. rewrite Hf in Hu. by apply elem_of_nil in Hu.
  - intros x. rewrite active_off by done. by intros [? _]%andb_true_iff.
Qed.

Lemma core_orphan s h f up :
  Core s h → active s f = false → Core (upd_frame up (set_children (set_delete f)) s) h.
Proof.
  intros Hs Hf. pose proof (co_tree _ _ Hs) as [Hd Ho Hc Ha]. eapply core_reframe; [done|apply same_upd|..].
  - split.
    + intros x. rewrite dom_upd. apply Hd.
    + intros x q. rewrite parent_keep by done. apply Ho.
    + intros c q. rewrite parent_keep, children_deleted by done. case_decide; [|apply Hc].
      intros [_ Hin]%elem_of_set_delete. by apply Hc.
    + intros x q. rewrite !active_keep, parent_keep, children_deleted by done. intros Hx Hq.
      destruct (Ha x q Hx Hq) as [Hq' Hin]. split; [done|]. case_decide; [|done].
      apply elem_of_set_delete. split; [|done]. intros ->. congruence.
  - intros x. by apply parent_keep.
  - intros x. by apply claims_keep.
  - intros x. by apply pend_keep.
  - intros x u Hu. rewrite active_keep by done. by eapply co_changes.
  - intros x. by rewrite active_keep.
Qed.

(** ** Claims given up *)
Definition cut (ver : @MemoryProjectionVersion V) : MemoryProjectionVersion :=
  {| vr_previous := None; vr_value := vr_value ver; vr_rolledBack := vr_rolledBack ver |}.

(** The history of [k] is that of [s], or cut at its current version because nobody owns [k]. *)
Definition trimmed (s s' : State) (k : P) : Prop :=
  (∀ w, versionHeap s' !! (k, w) = versionHeap s !! (k, w)) ∨
  owners s' k = ∅ ∧ ∃ v, projectionVersions s !! k = Some v ∧
    ∀ w, versionHeap s' !! (k, w) = if decide (w = v) then cut <$> versionHeap s !! (k, w) else versionHeap s !! (k, w).

Lemma emptied (X : gset nat) f g : g ∈ X → X ∖ {[f]} = ∅ → g = f.
Proof.
  intros Hg He. destruct (decide (g = f)) as [|Hne]; [done|]. exfalso.
  apply (not_elem_of_empty (C := gset nat) g). rewrite <- He. apply elem_of_difference.
  split; [done|]. by rewrite elem_of_singleton.
Qed.
Lemma owners_release f k (s : State) k' :
  owners (release_claim f k s) k' = if decide (k' = k) then owners s k ∖ {[f]} else owners s k'.
Proof.
  unfold release_claim.
  assert (owners (set_claims <[k:=owners s k ∖ {[f]}]> s) k' =
          if decide (k' = k) then owners s k ∖ {[f]} else owners s k') as He.
  { unfold owners. simpl. case_decide as Hk; [subst; by rewrite lookup_insert_eq|by rewrite lookup_insert_ne]. }
  case_bool_decide; [|done]. destruct (projectionVersions s !! k); done.
Qed.

Lemma trimmed_release f k (s : State) k' : trimmed s (release_claim f k s) k'.
Proof.
  unfold trimmed. rewrite owners_release. unfold release_claim.
  case_bool_decide as Hemp; [|by left]. destruct (projectionVersions s !! k) as [v|] eqn:Hv; [|by left].
  destruct (decide (k' = k)) as [->|Hne].
  - right. split; [done|]. exists v. split; [done|]. intros w. simpl. case_decide as Hw.
    + subst w. by rewrite lookup_alter_eq.
    + rewrite lookup_alter_ne by congruence. done.
  - left. intros w. simpl. rewrite lookup_alter_ne by congruence. done.
Qed.

Lemma release_fold f l (s : State) :
  NoDup l →
  let s' := foldr (release_claim f) s l in
  frames s' = frames s ∧ frameCount s' = frameCount s ∧ versionCount s' = versionCount s ∧
  projectionVersions s' = projectionVersions s ∧ projections s' = projections s ∧
  conflictActions s' = conflictActions s ∧
  (∀ k, owners s' k = if decide (k ∈ l) then owners s k ∖ {[f]} else owners s k) ∧
  (∀ k, trimmed s s' k).
Proof.
  induction 1 as [|k l Hk Hl IH]; simpl.
  { split_and!; try done. by left. }
  destruct IH as (E1 & E2 & E3 & E4 & E5 & E6 & Eo & Et). revert E1 E2 E3 E4 E5 E6 Eo Et.
  generalize (foldr (release_claim f) s l). intros s1 E1 E2 E3 E4 E5 E6 Eo Et.
  assert (∀ {X} (π : State → X), (∀ g s, π (set_claims g s) = π s) → (∀ g s, π (set_heap g s) = π s) →
            π (release_claim f k s1) = π s1) as Hπ.
  { intros X π Hc Hh. unfold release_claim. case_bool_decide; [|apply Hc].
    destruct (projectionVersions s1 !! k); [|apply Hc]. by rewrite Hh, Hc. }
  split_and!.
  - by rewrite (Hπ _ frames).
  - by rewrite (Hπ _ frameCount).
  - by rewrite (Hπ _ versionCount).
  - by rewrite (Hπ _ projectionVersions).
  - by rewrite (Hπ _ projections).
  - by rewrite (Hπ _ conflictActions).
  - intros k'. rewrite owners_release, !Eo. destruct (decide (k' = k)) as [->|Hne].
    + rewrite (decide_True (P := k ∈ k :: l)) by by left. by rewrite (decide_False (P := k ∈ l)).
    + destruct (decide (k' ∈ l)); [by rewrite decide_True by (by right)|].
      rewrite decide_False; [done|]. intros [|]%elem_of_cons; done.
  - intros k'. destruct (trimmed_release f k s1 k') as [Hs|(Ho & v & Hv & Hs)].
    + destruct (Et k') as [Hs1|(Ho1 & v & Hv & Hs1)].
      * left. intros w. by rewrite Hs.
      * right. split; [|exists v; split; [done|]; intros w; by rewrite Hs].
        rewrite owners_release. case_decide; [subst; rewrite Ho1; set_solver|done].
    + destruct (decide (k' = k)) as [->|Hne].
      * right. split; [done|]. exists v. rewrite <- E4. split; [done|]. intros w. rewrite Hs.
        destruct (Et k) as [Hs1|(Ho1 & v1 & Hv1 & Hs1)]; [by rewrite Hs1|].
        rewrite E4 in Hv. rewrite Hv in Hv1. simplify_eq. rewrite Hs1. case_decide; [|done].
        by destruct (versionHeap s !! (k, w)).
      * destruct (Et k') as [Hs1|(Ho1 & v1 & Hv1 & Hs1)].
        -- right. split; [done|]. exists v. rewrite <- E4. split; [done|]. intros w. by rewrite Hs, Hs1.
        -- right. split; [done|]. exists v1. split; [done|]. intros w. rewrite Hs, Hs1.
           rewrite E4 in Hv. rewrite Hv in Hv1. simplify_eq. case_decide; [|done].
           by destruct (versionHeap s !! (k', w)).
Qed.

Lemma claims_cleared f (s : State) x :
  claims (upd_frame f (set_frame_claims (λ _, ∅)) s) x = if decide (x = f) then ∅ else claims s x.
Proof. unfold claims. rewrite lookup_upd_frame. destruct (frames s !! x); case_decide; simpl; auto. Qed.

Lemma tree_ext (s s' : State) : Tree s → frames s' = frames s → frameCount s' = frameCount s → Tree s'.
Proof.
  intros [Hd Ho Hc Ha] Ef Ec. unfold active, parent, children in *.
  split; unfold active, parent, children; rewrite Ef, ?Ec; done.
Qed.

(** The shared part of the readings of [releaseClaims]. *)
Lemma release_views f (s : State) :
  let s' := releaseClaims f s in
  (∀ k, owners s' k = if decide (k ∈ claims s f) then owners s k ∖ {[f]} else owners s k) ∧
  (∀ k, trimmed s s' k) ∧ (∀ x, active s' x = active s x) ∧ (∀ x, parent s' x = parent s x) ∧
  (∀ x, pend s' x = pend s x) ∧ (∀ x, claims s' x = if decide (x = f) then ∅ else claims s x) ∧
  (∀ x, children s' x = children s x) ∧ (∀ x, is_Some (frames s' !! x) → is_Some (frames s !! x)) ∧
  frameCount s' = frameCount s ∧ versionCount s' = versionCount s ∧
  projectionVersions s' = projectionVersions s ∧ projections s' = projections s ∧
  conflictActions s' = conflictActions s.
Proof.
  destruct (release_fold f (elements (claims s f)) s (NoDup_elements _)) as (E1 & E2 & E3 & E4 & E5 & E6 & Eo & Et).
  unfold releaseClaims. cbv zeta.
  set (s1 := foldr (release_claim f) s (elements (claims s f))) in *. clearbody s1. split_and!.
  - intros k. unfold upd_frame, owners at 1. simpl. fold (owners s1 k).
    rewrite Eo. destruct (decide (k ∈ elements (claims s f))) as [Hk|Hk]; rewrite elem_of_elements in Hk;
      [by rewrite decide_True|by rewrite decide_False].
  - exact Et.
  - intros x. rewrite active_keep by done. unfold active. by rewrite E1.
  - intros x. rewrite parent_keep by done. unfold parent. by rewrite E1.
  - intros x. rewrite pend_keep by done. unfold pend, changes. by rewrite E1.
  - intros x. rewrite claims_cleared. unfold claims. by rewrite E1.
  - intros x. rewrite children_keep by done. unfold children. by rewrite E1.
  - intros x. by rewrite dom_upd, E1.
  - done.
  - done.
  - done.
  - done.
  - done.
Qed.

Lemma core_release s h f : Core s h → pend s f = [] → active s f = false → Core (releaseClaims f s) h.
Proof.
  intros Hs Hf Hoff. pose proof Hs as [Ht Hc Hp Hch Hcl Ho Hpe Hv Hk Ha Hi Hao].
  destruct (release_views f s) as (Eo & Et & Ea & Ep & Eu & Ec & Ech & Ed & E2 & E3 & E4 & E5 & E6).
  revert Eo Et Ea Ep Eu Ec Ech Ed E2 E3 E4 E5 E6. generalize (releaseClaims f s). intros s' Eo Et Ea Ep Eu Ec Ech Ed E2 E3 E4 E5 E6.
  split.
  - destruct Ht as [Hd Hol Hcc Hta]. split.
    + intros x Hx%Ed. rewrite E2. auto.
    + intros x q. rewrite Ep. apply Hol.
    + intros c q. rewrite Ep, Ech. apply Hcc.
    + intros x q. rewrite !Ea, Ep, Ech. apply Hta.
  - by rewrite E2.
  - intros x. by rewrite Ep.
  - intros x u. rewrite Eu, Ea. apply Hch.
  - intros x k. rewrite Ec, Eo. case_decide as Hx.
    + subst x. split; [set_solver|]. case_decide as Hk1; [set_solver|]. by intros ?%Hcl.
    + rewrite Hcl. case_decide; set_solver.
  - intros x q k. rewrite Ea, Ep, !Eo. intros Hx Hact Hq. destruct (tr_active _ Ht _ _ Hact Hq) as [Hqa _].
    case_decide; [|eauto]. apply elem_of_difference in Hx as [Hx _]. apply elem_of_difference. split; [eauto|].
    intros ->%elem_of_singleton. congruence.
  - intros x k v. rewrite Eu, Eo. intros Hx. pose proof (Hpe _ _ _ Hx). case_decide; [|done].
    apply elem_of_difference. split; [done|]. intros ->%elem_of_singleton. rewrite Hf in Hx. by apply elem_of_nil in Hx.
  - intros k v. rewrite E3. intros Hx. apply (Hv k). revert Hx.
    destruct (Et k) as [Hw|(_ & v' & _ & Hw)]; rewrite Hw; [done|]. case_decide; [|done]. by rewrite fmap_is_Some.
  - intros k. specialize (Hk k). destruct (Et k) as [Hw|(Hemp & v' & Hv' & Hw)].
    { apply (key_same s); rewrite ?E4, ?E5; try done. intros g w. by rewrite Eu. }
    assert (∀ g w, UndoWrite k w ∉ pend s g) as Hno.
    { intros g w Hg. pose proof (Hpe _ _ _ Hg) as Hgo. rewrite Eo in Hemp.
      case_decide; [|by rewrite Hemp in Hgo; apply not_elem_of_empty in Hgo].
      rewrite (emptied _ _ _ Hgo Hemp) in Hg. rewrite Hf in Hg. by apply elem_of_nil in Hg. }
    unfold KeyOk in Hk |- *. rewrite E4, E5. rewrite Hv' in Hk |- *.
    pose proof Hk as [Hl _]. unfold live in Hl. destruct (versionHeap s !! (k, v')) as [ver|] eqn:Hver; [|done].
    apply (key_ext (λ v, versionHeap s' !! (k, v)) _ _ _ (λ f v, UndoWrite k v ∈ pend s f)); [|done|intros; by rewrite Eu].
    apply (key_cut (λ v, versionHeap s !! (k, v))); [done|done|]. exists ver. split; [done|].
    by rewrite Hw, decide_True, Hver.
  - by rewrite E6.
  - done.
  - intros x i. rewrite Eu. apply Hao.
Qed.

(** ** Writes that change hands *)
Lemma line_rehome φ k (h : History) : line_of k (rehome φ h) = map (λ e, (e.1 ≫= φ, e.2)) (line_of k h).
Proof.
  unfold line_of, entries_of. simpl. rewrite map_app. f_equal.
  induction (hi_log h) as [|e l IH]; [done|]. simpl. rewrite !filter_cons. simpl.
  destruct (decide (en_key e = k)); simpl; [by rewrite IH|done].
Qed.

Lemma core_rehome (s s' : State) h (φ : nat → option nat) :
  Core s h → same_store s s' →
  (∀ x, active s' x = active s x) → (∀ x, parent s' x = parent s x) → (∀ x, claims s' x = claims s x) →
  (∀ x, children s' x = children s x) → (∀ x, is_Some (frames s' !! x) → is_Some (frames s !! x)) →
  (∀ f u, u ∈ pend s' f ↔ ∃ g, u ∈ pend s g ∧ φ g = Some f) →
  (∀ f g u, u ∈ pend s g → φ g = Some f → active s f = true) →
  (∀ f g k v, UndoWrite k v ∈ pend s g → φ g = Some f → f ∈ owners s k) →
  Core s' (rehome φ h).
Proof.
  intros [Ht Hc Hp Hch Hcl Ho Hpe Hv Hk Ha Hi Hao] [S1 S2 S3 S4 S5 S6 S7] Ea Ep Ec Ech Ed Hpend Hact Hown.
  assert (∀ k, owners s' k = owners s k) as Eo by (intros k; unfold owners; by rewrite S5).
  split; simpl.
  - destruct Ht as [Hd Hol Hcc Hta]. split.
    + intros x Hx%Ed. rewrite S1. auto.
    + intros x q. rewrite Ep. apply Hol.
    + intros c q. rewrite Ep, Ech. apply Hcc.
    + intros x q. rewrite !Ea, Ep, Ech. apply Hta.
  - congruence.
  - intros x. by rewrite Ep.
  - intros f u (g & Hg & Hφ)%Hpend. rewrite Ea. eauto.
  - intros x k. by rewrite Ec, Eo.
  - intros x q k. rewrite !Eo, Ea, Ep. apply Ho.
  - intros f k v (g & Hg & Hφ)%Hpend. rewrite Eo. eauto.
  - intros k v. rewrite S2, S3. apply Hv.
  - intros k. rewrite line_rehome. unfold KeyOk. rewrite S2, S4, S6.
    apply (key_rehome _ _ _ (λ f v, UndoWrite k v ∈ pend s f)); [apply Hk|]. intros f w. apply Hpend.
  - rewrite S7, Ha, !map_map. done.
  - rewrite map_map. done.
  - intros f i. rewrite Hpend. split.
    + intros (g & Hg & Hφ). apply Hao in Hg as (e & He & Hi'). exists e. split; [|done].
      apply list_elem_of_fmap. exists (Some g, e). split; [|done]. simpl. by rewrite Hφ.
    + intros (e & He & Hi'). apply list_elem_of_fmap in He as ([[g|] e'] & He & Hin); simplify_eq/=.
      exists g. split; [|done]. apply Hao. eauto.
Qed.

(** [frame.changes = []]: the writes of the frame are kept for good. *)
Lemma core_keep s h f g :
  Core s h → (∀ fr, g fr = set_changes (λ _, []) fr) → Core (upd_frame f g s) (rehome (move f None) h).
Proof.
  intros Hs Hg. assert (∀ fr, fr_active (g fr) = fr_active fr ∧ fr_parent (g fr) = fr_parent fr ∧
    fr_claims (g fr) = fr_claims fr ∧ fr_children (g fr) = fr_children fr ∧ fr_changes (g fr) = []) as Hfr.
  { intros fr. by rewrite Hg. }
  eapply core_rehome; [done|apply same_upd|..].
  - intros x. apply active_keep. apply Hfr.
  - intros x. apply parent_keep. apply Hfr.
  - intros x. apply claims_keep. apply Hfr.
  - intros x. apply children_keep. apply Hfr.
  - intros x. by rewrite dom_upd.
  - intros x u. rewrite pend_cleared by apply Hfr. unfold move. split.
    + case_decide; [intros Hu; by apply elem_of_nil in Hu|]. intros Hu. exists x. by rewrite decide_False.
    + intros (y & Hy & He). case_decide; [done|]. simplify_eq. by rewrite decide_False.
  - intros x y u Hu. unfold move. case_decide; [done|]. intros [= ->]. by eapply co_changes.
  - intros x y k v Hu. unfold move. case_decide; [done|]. intros [= ->]. by eapply co_pending.
Qed.

(** A nested frame hands its writes to its parent. *)
Definition hand_over (f up : nat) (s : State) : State :=
  upd_frame f (set_changes (λ _, [])) (upd_frame up (set_changes (λ l, l ++ changes s f)) s).

Lemma core_hand_over s h f up :
  Core s h → active s f = true → parent s f = Some up → Core (hand_over f up s) (rehome (move f (Some up)) h).
Proof.
  intros Hs Hf Hup. pose proof (co_tree _ _ Hs) as Ht. destruct (tr_active _ Ht _ _ Hf Hup) as [Hua _].
  pose proof (tr_older _ Ht _ _ Hup) as Hlt.
  unfold hand_over. eapply core_rehome; [done|by split|..].
  - intros x. by rewrite !active_keep.
  - intros x. by rewrite !parent_keep.
  - intros x. by rewrite !claims_keep.
  - intros x. by rewrite !children_keep.
  - intros x. by rewrite !dom_upd.
  - intros x u. rewrite pend_cleared by done. rewrite pend_added by by apply active_dom. unfold move. split.
    + case_decide as Hx; [intros Hu; by apply elem_of_nil in Hu|]. case_decide as Hx'.
      * subst x. intros [Hu|Hu]%elem_of_app; [exists up|exists f; by rewrite decide_True].
        by rewrite decide_False by lia.
      * intros Hu. exists x. by rewrite decide_False.
    + intros (y & Hy & He). case_decide as Hyf; simplify_eq.
      * rewrite decide_False by lia. rewrite decide_True by done. apply elem_of_app. by right.
      * rewrite decide_False by done. case_decide; [|done]. apply elem_of_app. by left.
  - intros x y u Hu. unfold move. case_decide; intros [= ->]; [done|]. by eapply co_changes.
  - intros x y k v Hu. unfold move. case_decide; intros [= ->]; [|by eapply co_pending]. subst y.
    apply (co_owner _ _ Hs f); [by eapply co_pending|done|done].
Qed.
End inv.

(** ** Claims, writes, appended actions, new frames and rollback keep the log. *)

Section steps.
Context {P V : Type} `{Countable P} {A : Type}.
Notation State := (@State P V _ _ A).
Notation History := (@History P V A).

Lemma frameIsActive_active (s : State) f : Tree s → frameIsActive s f = active s f.
Proof.
  intros Ht. unfold frameIsActive. apply eq_bool_prop_intro. rewrite !Is_true_true, forallb_forall. split.
  - intros Ha. apply Ha. apply list_elem_of_In, ancestors_refl. apply Ht.
  - intros Ha g Hg%list_elem_of_In.
    apply (ancestors_ind (parent s) (tr_older _ Ht) (λ g, active s g = true) f); [done| |done].
    intros x q Hx Hq. by eapply tr_active.
Qed.
Lemma ancestors_active (s : State) f g : Tree s → active s f = true → g ∈ ancestors (parent s) f → active s g = true.
Proof.
  intros Ht Ha Hg. apply (ancestors_ind (parent s) (tr_older _ Ht) (λ g, active s g = true) f); [done| |done].
  intros x q Hx Hq. by eapply tr_active.
Qed.

(** ** Claims *)
Lemma add_claims k l (s : State) :
  (∀ x, x ∈ l → is_Some (frames s !! x)) →
  let s' := foldr (add_claim k) s l in
  (∀ x k', x ∈ owners s' k' ↔ x ∈ owners s k' ∨ k' = k ∧ x ∈ l) ∧
  (∀ x k', k' ∈ claims s' x ↔ k' ∈ claims s x ∨ k' = k ∧ x ∈ l) ∧
  (∀ x, active s' x = active s x) ∧ (∀ x, parent s' x = parent s x) ∧ (∀ x, children s' x = children s x) ∧
  (∀ x, pend s' x = pend s x) ∧ (∀ x, is_Some (frames s' !! x) ↔ is_Some (frames s !! x)) ∧
  frameCount s' = frameCount s ∧ versionHeap s' = versionHeap s ∧ versionCount s' = versionCount s ∧
  projectionVersions s' = projectionVersions s ∧ projections s' = projections s ∧ conflictActions s' = conflictActions s.
Proof.
  induction l as [|y l IH]; intros Hdom; simpl.
  { split_and!; try done; intros x k'; (split; [by left|]); intros [|[_ Hx]]; try done; by apply elem_of_nil in Hx. }
  destruct IH as (Eo & Ec & Ea & Ep & Ech & Eu & Ed & E1 & E2 & E3 & E4 & E5 & E6); [intros x Hx; apply Hdom; by right|].
  assert (is_Some (frames s !! y)) as Hy by (apply Hdom; by left). apply Ed in Hy.
  revert Eo Ec Ea Ep Ech Eu Ed E1 E2 E3 E4 E5 E6 Hy. generalize (foldr (add_claim k) s l).
  intros s1 Eo Ec Ea Ep Ech Eu Ed E1 E2 E3 E4 E5 E6 Hy. unfold add_claim. split_and!; try done.
  - intros x k'. unfold upd_frame, owners at 1. simpl. rewrite elem_of_cons. destruct (decide (k' = k)) as [->|Hne].
    + rewrite lookup_insert_eq. simpl. rewrite elem_of_union, elem_of_singleton, Eo. naive_solver.
    + rewrite lookup_insert_ne by done. fold (owners s1 k'). rewrite Eo. naive_solver.
  - intros x k'. unfold claims at 1. rewrite lookup_upd_frame. simpl. fold (claims s1 x).
    rewrite elem_of_cons. destruct (decide (x = y)) as [->|Hne].
    + destruct Hy as [fr Hfr]. specialize (Ec y k'). unfold claims in Ec |- *. rewrite Hfr in Ec |- *. simpl.
      rewrite elem_of_union, elem_of_singleton, Ec. naive_solver.
    + specialize (Ec x k'). unfold claims in Ec. rewrite Ec. naive_solver.
  - intros x. rewrite active_keep by done. apply Ea.
  - intros x. rewrite parent_keep by done. apply Ep.
  - intros x. rewrite children_keep by done. apply Ech.
  - intros x. rewrite pend_keep by done. apply Eu.
  - intros x. rewrite <- Ed. apply (dom_upd y _ s1).
Qed.

Lemma core_add_claims (s : State) h f k :
  Core s h → active s f = true → Core (foldr (add_claim k) s (ancestors (parent s) f)) h.
Proof.
  intros Hs Hf. pose proof Hs as [Ht Hc Hp Hch Hcl Ho Hpe Hv Hk Ha Hi Hao].
  destruct (add_claims k (ancestors (parent s) f) s) as (Eo & Ec & Ea & Ep & Ech & Eu & Ed & E1 & E2 & E3 & E4 & E5 & E6).
  { intros x Hx. apply active_dom. by eapply ancestors_active. }
  revert Eo Ec Ea Ep Ech Eu Ed E1 E2 E3 E4 E5 E6. generalize (foldr (add_claim k) s (ancestors (parent s) f)).
  intros s' Eo Ec Ea Ep Ech Eu Ed E1 E2 E3 E4 E5 E6. split.
  - destruct Ht as [Hd Hol Hcc Hta]. split.
    + intros x Hx%Ed. rewrite E1. auto.
    + intros x q. rewrite Ep. apply Hol.
    + intros c q. rewrite Ep, Ech. apply Hcc.
    + intros x q. rewrite !Ea, Ep, Ech. apply Hta.
  - by rewrite E1.
  - intros x. by rewrite Ep.
  - intros x u. rewrite Eu, Ea. apply Hch.
  - intros x k'. by rewrite Ec, Eo, Hcl.
  - intros x q k'. rewrite Ea, Ep, !Eo. intros [Hx|[-> Hx]] Hact Hq; [left; eauto|right]. split; [done|].
    eapply ancestors_trans; [apply Ht|done|]. eapply ancestors_up; [apply Ht|done|]. apply ancestors_refl, Ht.
  - intros x k' v. rewrite Eu, Eo. eauto.
  - intros k' v. rewrite E2, E3. apply Hv.
  - intros k'. apply (key_same s); rewrite ?E2, ?E4, ?E5; try done. intros. by rewrite Eu.
  - by rewrite E6.
  - done.
  - intros x i. rewrite Eu. apply Hao.
Qed.

Lemma core_base_version (s : State) h k : Core s h → Core (base_version k s) h ∧ is_Some (projectionVersions (base_version k s) !! k).
Proof.
  intros Hs. pose proof Hs as [Ht Hc Hp Hch Hcl Ho Hpe Hv Hk Ha Hi Hao]. unfold base_version.
  destruct (projectionVersions s !! k) as [v|] eqn:Hcur; [by eauto|]. split; [|simpl; rewrite lookup_insert_eq; eauto].
  split; try done; [by apply (tree_ext s)|..].
  - intros k' v. simpl. intros Hx. destruct (decide ((k', v) = (k, versionCount s))) as [He|He]; [simplify_eq; lia|].
    rewrite lookup_insert_ne in Hx by done. specialize (Hv k' v Hx). lia.
  - intros k'. specialize (Hk k'). destruct (decide (k' = k)) as [->|Hne].
    + unfold KeyOk in Hk |- *. rewrite Hcur in Hk. simpl. rewrite lookup_insert_eq.
      eapply (key_claim (λ v, versionHeap s !! (k, v))); [exact Hk|]. apply lookup_insert_eq.
    + apply (key_same s); simpl; try done; intros; by rewrite lookup_insert_ne by congruence.
Qed.

(** ** Writes and appended actions *)
Lemma core_put_version (s : State) h f k value :
  Core s h → active s f = true → f ∈ owners s k → is_Some (projectionVersions s !! k) →
  Core (put_version f k value s)
    {| hi_count := hi_count h; hi_parent := hi_parent h;
       hi_log := {| en_owner := Some f; en_key := k; en_value := value |} :: hi_log h; hi_actions := hi_actions h |}.
Proof.
  intros Hs Hf Hown [v Hcur]. pose proof Hs as [Ht Hc Hp Hch Hcl Ho Hpe Hv Hk Ha Hi Hao].
  set (w := versionCount s). set (s' := put_version f k value s).
  assert (∀ x, pend s' x = if decide (x = f) then pend s x ++ [UndoWrite k w] else pend s x) as Eu.
  { intros x. unfold s', put_version, push_change.
    change (pend (upd_frame f (set_changes (λ l, l ++ [{| ch_order := S (projectionSequence s); ch_undo := UndoWrite k w |}])) s) x =
            if decide (x = f) then pend s x ++ [UndoWrite k w] else pend s x).
    rewrite pend_added by by apply active_dom. done. }
  assert (∀ g u, u ∈ pend s' g ↔ u ∈ pend s g ∨ g = f ∧ u = UndoWrite k w) as Hpend.
  { intros g u. rewrite Eu. case_decide; [rewrite elem_of_app, list_elem_of_singleton|]; naive_solver. }
  assert (∀ x, active s' x = active s x) as Ea by (intros x; by apply (active_keep f _ s)).
  assert (∀ x, parent s' x = parent s x) as Ep by (intros x; by apply (parent_keep f _ s)).
  assert (∀ x, claims s' x = claims s x) as Ec by (intros x; by apply (claims_keep f _ s)).
  assert (∀ x, children s' x = children s x) as Ech by (intros x; by apply (children_keep f _ s)).
  assert (∀ x, is_Some (frames s' !! x) ↔ is_Some (frames s !! x)) as Ed by (intros x; by apply (dom_upd f _ s)).
  assert (∀ k' u, versionHeap s' !! (k', u) = if decide ((k', u) = (k, w))
    then Some {| vr_previous := Some v; vr_value := Some value; vr_rolledBack := false |} else versionHeap s !! (k', u)) as Eh.
  { intros k' u. unfold s', put_version. simpl. rewrite Hcur. case_decide as He; [rewrite He; apply lookup_insert_eq|].
    by apply lookup_insert_ne. }
  split.
  - destruct Ht as [Hd Hol Hcc Hta]. split.
    + intros x Hx%Ed. by apply Hd.
    + intros x q. rewrite Ep. apply Hol.
    + intros c q. rewrite Ep, Ech. apply Hcc.
    + intros x q. rewrite !Ea, Ep, Ech. apply Hta.
  - done.
  - intros x. by rewrite Ep.
  - intros x u. rewrite Hpend, Ea. intros [|[-> _]]; eauto.
  - intros x k'. rewrite Ec. apply Hcl.
  - intros x q k'. rewrite Ea, Ep. apply Ho.
  - intros x k' u. rewrite Hpend. intros [Hu|[-> [= -> ->]]]; [|done]. by eapply Hpe.
  - intros k' u. rewrite Eh. change (versionCount s') with (S w). case_decide; [simplify_eq; lia|].
    intros Hx%Hv. unfold w. lia.
  - intros k'. specialize (Hk k'). unfold line_of, entries_of. simpl. rewrite filter_cons. simpl.
    destruct (decide (k = k')) as [<-|Hne]; simpl.
    + unfold KeyOk in Hk |- *. unfold s', put_version. simpl. rewrite !lookup_insert_eq. rewrite Hcur in Hk.
      fold w. apply (key_write (λ u, versionHeap s !! (k, u)) _ v w f (projections s !! k) _ (λ f v, UndoWrite k v ∈ pend s f)).
      * done.
      * destruct Hk as [Hl _]. unfold live in Hl. destruct (versionHeap s !! (k, v)) eqn:He; [|done].
        apply (Hv k). by rewrite He.
      * destruct (versionHeap s !! (k, w)) eqn:He; [|done]. assert (w < versionCount s) by (apply (Hv k); by rewrite He). lia.
      * rewrite <- Hcur. apply lookup_insert_eq.
      * intros u Hu. rewrite lookup_insert_ne; [done|congruence].
      * intros g u. change (UndoWrite k u ∈ pend s' g ↔ UndoWrite k u ∈ pend s g ∨ g = f ∧ u = w).
        rewrite Hpend. naive_solver.
    + apply (key_same s); [done|..].
      * intros u. rewrite Eh, decide_False; [done|congruence].
      * unfold s', put_version. simpl. by rewrite lookup_insert_ne by done.
      * unfold s', put_version. simpl. by rewrite lookup_insert_ne by done.
      * intros g u. rewrite Hpend. naive_solver.
  - done.
  - done.
  - intros x i. rewrite Hpend, <- Hao. naive_solver.
Qed.

Lemma core_append (s : State) h f entry :
  Core s h → active s f = true → entry.1 ∉ map (λ p, p.2.1) (hi_actions h) →
  Core (set_actions (λ l, l ++ [entry]) (push_change f (UndoAction entry.1) s))
    {| hi_count := hi_count h; hi_parent := hi_parent h; hi_log := hi_log h;
       hi_actions := hi_actions h ++ [(Some f, entry)] |}.
Proof.
  intros Hs Hf Hfresh. pose proof Hs as [Ht Hc Hp Hch Hcl Ho Hpe Hv Hk Ha Hi Hao].
  set (s' := set_actions _ _).
  assert (∀ x, pend s' x = if decide (x = f) then pend s x ++ [UndoAction entry.1] else pend s x) as Eu.
  { intros x. change (pend (upd_frame f (set_changes (λ l, l ++ [{| ch_order := S (projectionSequence s);
      ch_undo := UndoAction entry.1 |}])) s) x = if decide (x = f) then pend s x ++ [UndoAction entry.1] else pend s x).
    rewrite pend_added by by apply active_dom. done. }
  assert (∀ g u, u ∈ pend s' g ↔ u ∈ pend s g ∨ g = f ∧ u = UndoAction entry.1) as Hpend.
  { intros g u. rewrite Eu. case_decide; [rewrite elem_of_app, list_elem_of_singleton|]; naive_solver. }
  assert (∀ x, active s' x = active s x) as Ea by (intros x; by apply (active_keep f _ s)).
  assert (∀ x, parent s' x = parent s x) as Ep by (intros x; by apply (parent_keep f _ s)).
  assert (∀ x, children s' x = children s x) as Ech by (intros x; by apply (children_keep f _ s)).
  assert (∀ x, claims s' x = claims s x) as Ec by (intros x; by apply (claims_keep f _ s)).
  split; try done.
  - destruct Ht as [Hd Hol Hcc Hta]. split.
    + intros x Hx%(dom_upd f _ s). by apply Hd.
    + intros x q. rewrite Ep. apply Hol.
    + intros c q. rewrite Ep, Ech. apply Hcc.
    + intros x q. rewrite !Ea, Ep, Ech. apply Hta.
  - intros x. by rewrite Ep.
  - intros x u. rewrite Hpend, Ea. intros [|[-> _]]; eauto.
  - intros x k. rewrite Ec. apply Hcl.
  - intros x q k. rewrite Ea, Ep. apply Ho.
  - intros x k u. rewrite Hpend. intros [|[_ Hu]]; [eauto|done].
  - intros k. apply (key_same s); [apply Hk|done|done|done|]. intros g w. rewrite Hpend. naive_solver.
  - unfold s'. simpl. rewrite Ha, map_app. done.
  - simpl. rewrite map_app. apply NoDup_app. split_and!; [done| |apply NoDup_singleton].
    intros x Hx. simpl. intros ->%list_elem_of_singleton. done.
  - intros x i. rewrite Hpend, Hao. simpl. setoid_rewrite elem_of_app. setoid_rewrite list_elem_of_singleton.
    naive_solver.
Qed.

(** ** New frames *)
Section new_frame.
Context (s : State) (h : History) (Hs : Core s h) (tenant : string) (up : option nat) (conflictId : option string).
Let F := frameCount s.
Let s' := set_frames <[F := new_frame tenant up conflictId]> (count_frame s).

Lemma frame_fresh : frames s !! F = None.
Proof using Hs. destruct (frames s !! F) eqn:He; [|done]. assert (F < frameCount s) by (apply (co_tree _ _ Hs); by rewrite He). unfold F in *. lia. Qed.

Lemma new_frame_views :
  (∀ x, active s' x = if decide (x = F) then true else active s x) ∧
  (∀ x, parent s' x = if decide (x = F) then up else parent s x) ∧
  (∀ x, children s' x = children s x) ∧ (∀ x, pend s' x = pend s x) ∧ (∀ x, claims s' x = claims s x).
Proof using Hs.
  pose proof frame_fresh as Hf. unfold active, parent, children, pend, changes, claims, s'. simpl. split_and!.
  - intros x. case_decide as Hx; [subst; by rewrite lookup_insert_eq|by rewrite lookup_insert_ne by done].
  - intros x. case_decide as Hx; [subst; by rewrite lookup_insert_eq|by rewrite lookup_insert_ne by done].
  - intros x. destruct (decide (x = F)) as [->|Hx]; [by rewrite lookup_insert_eq, Hf|by rewrite lookup_insert_ne by done].
  - intros x. destruct (decide (x = F)) as [->|Hx]; [by rewrite lookup_insert_eq, Hf|by rewrite lookup_insert_ne by done].
  - intros x. destruct (decide (x = F)) as [->|Hx]; [by rewrite lookup_insert_eq, Hf|by rewrite lookup_insert_ne by done].
Qed.
End new_frame.

Lemma core_new_frame (s s' : State) h tenant up conflictId :
  Core s h →
  s' = set_frames <[frameCount s := new_frame tenant up conflictId]> (count_frame s) →
  (∀ q, up = Some q → active s q = true) →
  let s2 := match up with Some q => upd_frame q (set_children (set_add (frameCount s))) s' | None => s' end in
  Core s2 {| hi_count := S (hi_count h);
             hi_parent := match up with Some q => <[hi_count h := q]> (hi_parent h) | None => hi_parent h end;
             hi_log := hi_log h; hi_actions := hi_actions h |}.
Proof.
  intros Hs -> Hup. pose proof Hs as [Ht Hc Hp Hch Hcl Ho Hpe Hv Hk Ha Hi Hao].
  set (F := frameCount s) in *. pose proof (frame_fresh s h Hs) as Hfresh. fold F in Hfresh.
  destruct (new_frame_views s h Hs tenant up conflictId) as (Ea & Ep & Ech & Eu & Ec). fold F in Ea, Ep, Ech, Eu, Ec.
  revert Ea Ep Ech Eu Ec. set (s1 := set_frames _ (count_frame s)). intros Ea Ep Ech Eu Ec. cbv zeta.
  set (s2 := match up with Some q => _ | None => s1 end).
  assert (∀ x, active s2 x = active s1 x) as Ea2 by (intros x; unfold s2; destruct up; [by apply active_keep|done]).
  assert (∀ x, parent s2 x = parent s1 x) as Ep2 by (intros x; unfold s2; destruct up; [by apply parent_keep|done]).
  assert (∀ x, pend s2 x = pend s1 x) as Eu2 by (intros x; unfold s2; destruct up; [by apply pend_keep|done]).
  assert (∀ x, claims s2 x = claims s1 x) as Ec2 by (intros x; unfold s2; destruct up; [by apply claims_keep|done]).
  assert (∀ q, up = Some q → q ≠ F) as HqF.
  { intros q Hq ->. specialize (Hup F Hq). apply active_dom in Hup as [? Hup]. by rewrite Hfresh in Hup. }
  assert (∀ c q, c ∈ children s2 q ↔ c ∈ children s q ∨ up = Some q ∧ c = F) as Ech2.
  { intros c q. unfold s2. destruct up as [u|]; [|rewrite Ech; naive_solver].
    unfold children at 1. rewrite lookup_upd_frame. destruct (decide (q = u)) as [->|Hne].
    - pose proof (Ech u) as Hu. unfold children at 1 in Hu. destruct (frames s1 !! u) as [fr|] eqn:Hfr; simpl.
      + rewrite elem_of_set_add, Hu. naive_solver.
      + specialize (Hup u eq_refl). pose proof (Ea u) as Hau. rewrite decide_False in Hau by auto.
        rewrite Hup in Hau. apply active_dom in Hau as [? Hau]. congruence.
    - fold (children s1 q). rewrite Ech. naive_solver. }
  assert (∀ X (π : State → X), (∀ g y, π (set_frames g y) = π y) → (∀ y, π (count_frame y) = π y) → π s2 = π s) as Eπ.
  { intros X π H1 H2. unfold s2, s1, upd_frame. destruct up; by rewrite ?H1, ?H2. }
  assert (frameCount s2 = S F) as E1 by (unfold s2; by destruct up).
  assert (∀ k, owners s2 k = owners s k) as Eo.
  { intros k. unfold owners. by rewrite (Eπ _ projectionClaims). }
  assert (∀ x, x ∈ dom (hi_parent h) → x < F) as Hdom.
  { intros x Hx%elem_of_dom. rewrite <- Hp in Hx. unfold parent in Hx. apply (tr_dom _ Ht). destruct (frames s !! x); [done|]. by destruct Hx. }
  split; simpl.
  - destruct Ht as [Hd Hol Hcc Hta]. split.
    + intros x Hx. rewrite E1. destruct (decide (x = F)) as [->|Hne]; [lia|].
      assert (is_Some (frames s !! x)) as Hx'%Hd; [|unfold F; lia].
      unfold s2 in Hx. destruct up; [rewrite dom_upd in Hx|]; unfold s1 in Hx; simpl in Hx; by rewrite lookup_insert_ne in Hx by done.
    + intros x q. rewrite Ep2, Ep. case_decide as Hx; [|apply Hol]. intros Hq. subst x.
      specialize (Hup _ Hq). apply active_dom in Hup. apply Hd in Hup. done.
    + intros c q. rewrite Ech2, Ep2, Ep. intros [Hin|[-> ->]]; [|by rewrite decide_True].
      specialize (Hcc _ _ Hin). rewrite decide_False; [done|]. intros ->. unfold parent in Hcc. by rewrite Hfresh in Hcc.
    + intros x q. rewrite !Ea2, Ep2, !Ea, Ep, Ech2. case_decide as Hx.
      * intros _ Hq. subst x. rewrite decide_False by auto. split; [auto|naive_solver].
      * intros Hact Hq. destruct (Hta _ _ Hact Hq). split; [|by left]. by case_decide.
  - by rewrite E1, <- Hc.
  - intros x. rewrite Ep2, Ep. rewrite <- Hc. fold F. case_decide as Hx.
    + subst x. destruct up as [q|]; [by rewrite lookup_insert_eq|]. symmetry. apply not_elem_of_dom.
      intros Hin%Hdom. lia.
    + rewrite Hp. destruct up; [by rewrite lookup_insert_ne by done|done].
  - intros x u. rewrite Eu2, Eu, Ea2, Ea. intros Hu. case_decide; [done|]. eauto.
  - intros x k. rewrite Ec2, Ec, Eo. apply Hcl.
  - intros x q k. rewrite !Eo, Ea2, Ea, Ep2, Ep. intros Hx. case_decide as HxF; [|eauto].
    subst x. apply Hcl in Hx. unfold claims in Hx. rewrite Hfresh in Hx. by apply not_elem_of_empty in Hx.
  - intros x k v. rewrite Eu2, Eu, Eo. apply Hpe.
  - intros k v. rewrite (Eπ _ versionHeap), (Eπ _ versionCount) by done. apply Hv.
  - intros k. apply (key_same s); [apply Hk|..]; rewrite ?(Eπ _ versionHeap), ?(Eπ _ projectionVersions), ?(Eπ _ projections) by done; try done.
    intros g w. by rewrite Eu2, Eu.
  - by rewrite (Eπ _ conflictActions).
  - done.
  - intros x i. rewrite Eu2, Eu. apply Hao.
Qed.
End steps.
