(* ===== verification/FrameRollback.v ===== *)
(** * FrameRollback: rolling a frame back removes its writes and those below it, and nothing else. *)
From S2P Require Import Prelude JsMap JsJson OfflineTypes MemoryFrames FrameHistory FrameInv.
Local Open Scope nat_scope.

Section rollback.
Context {P V : Type} `{Countable P} {A : Type}.
Notation State := (@State P V _ _ A).
Notation History := (@History P V A).

(** ** The frames below a frame *)
Lemma subtree_under (s : State) n f g : Tree s → g ∈ subtree s n f → f ∈ ancestors (parent s) g.
Proof.
  intros Ht. revert f. induction n as [|n IH]; intros f Hg; [by apply elem_of_nil in Hg|].
  simpl in Hg. apply elem_of_cons in Hg as [->|Hg]; [apply ancestors_refl, Ht|].
  apply list_elem_of_In, in_concat in Hg as (l & Hl & Hg). apply in_map_iff in Hl as (c & <- & Hc).
  apply list_elem_of_In in Hg. apply list_elem_of_In, (tr_child _ Ht) in Hc.
  eapply ancestors_trans; [apply Ht|by apply IH|]. eapply ancestors_up; [apply Ht|done|]. apply ancestors_refl, Ht.
Qed.

Lemma ancestors_step up f g :
  (∀ f q, up f = Some q → q < f) → f ∈ ancestors up g → g ≠ f → ∃ c, c ∈ ancestors up g ∧ up c = Some f.
Proof.
  intros Hup. induction g as [g IH] using lt_wf_ind. rewrite ancestors_unfold by done.
  intros [->|Hf]%elem_of_cons Hne; [done|]. destruct (up g) as [q|] eqn:Hq; [|by apply elem_of_nil in Hf].
  destruct (decide (q = f)) as [->|Hqf]; [exists g; split; [by left|done]|].
  destruct (IH q ltac:(by eapply Hup) Hf Hqf) as (c & Hc & Hcf). exists c. split; [by right|done].
Qed.

Lemma under_subtree (s : State) n f g :
  Tree s → active s g = true → f ∈ ancestors (parent s) g → frameCount s ≤ n + f → g ∈ subtree s n f.
Proof.
  intros Ht Hg. revert f. induction n as [|n IH]; intros f Hf Hn.
  { pose proof (ancestors_le _ (tr_older _ Ht) _ _ Hf). apply active_dom, (tr_dom _ Ht) in Hg. lia. }
  simpl. destruct (decide (g = f)) as [->|Hne]; [by left|right].
  destruct (ancestors_step _ _ _ (tr_older _ Ht) Hf Hne) as (c & Hc & Hcf).
  pose proof (tr_older _ Ht _ _ Hcf) as Hlt.
  assert (active s c = true) as Hca by (by eapply ancestors_active).
  destruct (tr_active _ Ht _ _ Hca Hcf) as [_ Hch].
  apply list_elem_of_In, in_concat. exists (subtree s n c). split.
  - apply in_map_iff. exists c. split; [done|]. by apply list_elem_of_In.
  - apply list_elem_of_In, IH; [done|lia].
Qed.

(** ** The three passes *)
Definition close_frames (l : list nat) (s : State) : State :=
  foldl (λ s g, upd_frame g (set_active false ∘ set_changes (λ _, [])) s) s l.

Lemma close_views l (s : State) :
  let s' := close_frames l s in
  (∀ x, active s' x = active s x && bool_decide (x ∉ l)) ∧
  (∀ x, pend s' x = if decide (x ∈ l) then [] else pend s x) ∧
  (∀ x, parent s' x = parent s x) ∧ (∀ x, children s' x = children s x) ∧ (∀ x, claims s' x = claims s x) ∧
  (∀ x, is_Some (frames s' !! x) ↔ is_Some (frames s !! x)) ∧ same_store s s'.
Proof.
  revert s. induction l as [|g l IH]; intros s; simpl.
  { split_and!; try done. intros x. simpl. by rewrite andb_true_r. }
  destruct (IH (upd_frame g (set_active false ∘ set_changes (λ _, [])) s)) as (Ea & Eu & Ep & Ech & Ec & Ed & Es).
  split_and!.
  - intros x. rewrite Ea, active_off by done. rewrite <- andb_assoc. f_equal. rewrite <- bool_decide_and.
    apply bool_decide_ext. rewrite not_elem_of_cons. done.
  - intros x. rewrite Eu, pend_cleared by done. destruct (decide (x ∈ l)) as [Hx|Hx].
    + by rewrite decide_True by (by right).
    + case_decide as Hg; [by rewrite decide_True by (subst; by left)|]. rewrite decide_False; [done|].
      intros [|]%elem_of_cons; done.
  - intros x. rewrite Ep. by apply parent_keep.
  - intros x. rewrite Ech. by apply children_keep.
  - intros x. rewrite Ec. by apply claims_keep.
  - intros x. rewrite Ed. apply dom_upd.
  - destruct Es as [S1 S2 S3 S4 S5 S6 S7]. split; done.
Qed.

Definition rolled (ver : @MemoryProjectionVersion V) : MemoryProjectionVersion :=
  {| vr_previous := vr_previous ver; vr_value := vr_value ver; vr_rolledBack := true |}.

Lemma mark_views (l : list (@MemoryProjectionChange P)) (s : State) :
  let s' := foldl mark s l in
  frames s' = frames s ∧ frameCount s' = frameCount s ∧ versionCount s' = versionCount s ∧
  projectionVersions s' = projectionVersions s ∧ projectionClaims s' = projectionClaims s ∧
  projections s' = projections s ∧ conflictActions s' = conflictActions s ∧
  (∀ k w, versionHeap s' !! (k, w) =
     if decide (UndoWrite k w ∈ ch_undo <$> l) then rolled <$> versionHeap s !! (k, w) else versionHeap s !! (k, w)).
Proof.
  revert s. induction l as [|c l IH]; intros s; simpl.
  { split_and!; done. }
  destruct (IH (mark s c)) as (E1 & E2 & E3 & E4 & E5 & E6 & E7 & Eh).
  assert (∀ X (π : State → X), (∀ g y, π (set_heap g y) = π y) → π (mark s c) = π s) as Eπ.
  { intros X π Hπ. unfold mark. by destruct (ch_undo c). }
  split_and!.
  - by rewrite E1, (Eπ _ frames).
  - by rewrite E2, (Eπ _ frameCount).
  - by rewrite E3, (Eπ _ versionCount).
  - by rewrite E4, (Eπ _ projectionVersions).
  - by rewrite E5, (Eπ _ projectionClaims).
  - by rewrite E6, (Eπ _ projections).
  - by rewrite E7, (Eπ _ conflictActions).
  - intros k w. rewrite Eh.
    assert (versionHeap (mark s c) !! (k, w) =
            if decide (ch_undo c = UndoWrite k w) then rolled <$> versionHeap s !! (k, w) else versionHeap s !! (k, w)) as Hc.
    { unfold mark. destruct (ch_undo c) as [k0 v0|i]; [|by rewrite decide_False].
      simpl. case_decide as Hd; [simplify_eq; apply lookup_alter_eq|]. apply lookup_alter_ne. congruence. }
    rewrite Hc. assert (UndoWrite k w ∈ ch_undo <$> c :: l ↔ ch_undo c = UndoWrite k w ∨ UndoWrite k w ∈ ch_undo <$> l) as Hcons.
    { csimpl. rewrite elem_of_cons. naive_solver. }
    destruct (decide (UndoWrite k w ∈ ch_undo <$> l)), (decide (ch_undo c = UndoWrite k w)).
    + rewrite decide_True by tauto. by destruct (versionHeap s !! (k, w)).
    + by rewrite decide_True by tauto.
    + by rewrite decide_True by tauto.
    + by rewrite decide_False by tauto.
Qed.

Lemma live_version_first (s : State) k v t n ver :
  first_live (λ w, versionHeap s !! (k, w)) v t → versionHeap s !! (k, t) = Some ver → v < n →
  live_version s k n (Some v) = Some (t, ver).
Proof.
  intros Hf Ht. revert n. induction Hf as [v Hl|v ver' w t Hv Hr Hp Hlt Hf IH]; intros n Hn; (destruct n as [|n]; [lia|]); simpl.
  - rewrite Ht. unfold live in Hl. rewrite Ht in Hl. apply negb_true_iff in Hl. by rewrite Hl.
  - rewrite Hv, Hr, Hp. apply IH; [done|lia].
Qed.

Lemma live_version_heap (s s' : State) k n v :
  versionHeap s' = versionHeap s → live_version s' k n v = live_version s k n v.
Proof.
  intros He. revert v. induction n as [|n IH]; intros v; simpl; [done|]. rewrite He.
  destruct v as [v|]; [|done]. destruct (versionHeap s !! (k, v)) as [ver|]; [|done]. by rewrite IH.
Qed.

Lemma undo_all (l : list (@MemoryProjectionChange P)) (s : State) (T : P → nat * MemoryProjectionVersion) :
  (∀ k w, UndoWrite k w ∈ ch_undo <$> l → projectionVersions s !! k = Some w →
     live_version s k w (versionHeap s !! (k, w) ≫= vr_previous) = Some (T k)) →
  (∀ k w, UndoWrite k w ∈ ch_undo <$> l → (T k).1 ≠ w) →
  ∃ s', js_each undo l s = (Ok (), s') ∧
    frames s' = frames s ∧ frameCount s' = frameCount s ∧ versionCount s' = versionCount s ∧
    versionHeap s' = versionHeap s ∧ projectionClaims s' = projectionClaims s ∧
    conflictActions s' = List.filter (λ e, bool_decide (UndoAction e.1 ∉ ch_undo <$> l)) (conflictActions s) ∧
    ∀ k, (∃ w, projectionVersions s !! k = Some w ∧ UndoWrite k w ∈ ch_undo <$> l ∧
               projectionVersions s' !! k = Some (T k).1 ∧ projections s' !! k = vr_value (T k).2) ∨
         ((∀ w, projectionVersions s !! k = Some w → UndoWrite k w ∉ ch_undo <$> l) ∧
          projectionVersions s' !! k = projectionVersions s !! k ∧ projections s' !! k = projections s !! k).
Proof.
  revert s. induction l as [|c l IH]; intros s Hlive Hne.
  { exists s. split_and!; try done.
    - symmetry. apply filter_all_true, Forall_forall. intros e _. apply bool_decide_eq_true, not_elem_of_nil.
    - intros k. right. split; [|done]. intros w _. apply not_elem_of_nil. }
  simpl in *. unfold mbind at 1, js_bind at 1. unfold undo at 1. unfold mbind at 1, js_bind at 1. unfold getf. simpl.
  destruct (ch_undo c) as [k0 v0|i] eqn:Hc.
  - case_bool_decide as Hcur.
    + rewrite (Hlive k0 v0) by (done || by left). destruct (T k0) as [t ver] eqn:HT. simpl.
      set (s1 := set_current k0 t _).
      assert (projections s1 !! k0 = vr_value ver) as Hval.
      { unfold s1. simpl. destruct (vr_value ver); [apply lookup_insert_eq|apply lookup_delete_eq]. }
      assert (∀ k, k ≠ k0 → projections s1 !! k = projections s !! k) as Hval'.
      { intros k Hk. unfold s1. simpl. destruct (vr_value ver); [by apply lookup_insert_ne|by apply lookup_delete_ne]. }
      assert (projectionVersions s1 !! k0 = Some t) as Hcur1 by apply lookup_insert_eq.
      assert (∀ k, k ≠ k0 → projectionVersions s1 !! k = projectionVersions s !! k) as Hcur1' by (intros; by apply lookup_insert_ne).
      assert (∀ w, UndoWrite k0 w ∈ ch_undo <$> l → w ≠ t) as Hnt.
      { intros w Hw ->. apply (Hne k0 t); [by right|]. by rewrite HT. }
      destruct (IH s1) as (s' & Hrun & E1 & E2 & E3 & E4 & E5 & E6 & Ek).
      { intros k w Hw Hw'. destruct (decide (k = k0)) as [->|Hk].
        - rewrite Hcur1 in Hw'. simplify_eq. by destruct (Hnt w).
        - rewrite Hcur1' in Hw' by done. rewrite (live_version_heap s s1) by done.
          apply (Hlive k w); [by right|done]. }
      { intros k w Hw. apply Hne. by right. }
      exists s'. split_and!; [done|done|done|done|done|done| |].
      * rewrite E6. apply List.filter_ext. intros e. apply bool_decide_ext. rewrite not_elem_of_cons. naive_solver.
      * intros k. destruct (decide (k = k0)) as [->|Hk].
        -- left. exists v0. split; [done|]. split; [by left|].
           destruct (Ek k0) as [(w & Hw & Hin & _)|(_ & -> & ->)]; [rewrite Hcur1 in Hw; simplify_eq; by destruct (Hnt w)|].
           rewrite Hcur1, Hval, HT. done.
        -- destruct (Ek k) as [(w & Hw & Hin & He)|(Hno & He1 & He2)].
           ++ left. exists w. rewrite Hcur1' in Hw by done. split; [done|]. split; [by right|done].
           ++ right. rewrite He1, He2, Hcur1', Hval' by done. split; [|done]. intros w Hw.
              rewrite not_elem_of_cons. split; [congruence|]. apply Hno. by rewrite Hcur1'.
    + destruct (IH s) as (s' & Hrun & E1 & E2 & E3 & E4 & E5 & E6 & Ek).
      { intros k w Hw. apply Hlive. by right. }
      { intros k w Hw. apply Hne. by right. }
      exists s'. split_and!; [done|done|done|done|done|done| |].
      * rewrite E6. apply List.filter_ext. intros e. apply bool_decide_ext. rewrite not_elem_of_cons. naive_solver.
      * intros k. destruct (Ek k) as [(w & Hw & Hin & He)|(Hno & He)].
        -- left. exists w. split; [done|]. split; [by right|done].
        -- right. split; [|done]. intros w Hw. rewrite not_elem_of_cons. split; [|by apply Hno]. intros [= -> ->]. done.
  - destruct (IH (set_actions (List.filter (λ e, negb (String.eqb e.1 i))) s)) as (s' & Hrun & E1 & E2 & E3 & E4 & E5 & E6 & Ek).
    { intros k w Hw. rewrite (live_version_heap s) by done. apply Hlive. by right. }
    { intros k w Hw. apply Hne. by right. }
    exists s'. split_and!; [done|done|done|done|done|done| |].
    + rewrite E6. simpl. symmetry. apply list_filter_filter. intros e _. rewrite andb_comm.
      apply eq_bool_prop_intro. rewrite !Is_true_true, andb_true_iff, !bool_decide_eq_true, not_elem_of_cons, negb_true_iff, String.eqb_neq.
      naive_solver.
    + intros k. destruct (Ek k) as [(w & Hw & Hin & He)|(Hno & He)].
      * left. exists w. split; [done|]. split; [by right|done].
      * right. split; [|done]. intros w Hw. rewrite not_elem_of_cons. split; [done|by apply Hno].
Qed.

(** ** A rollback *)
Lemma key_owner_pending (hp : nat → option MemoryProjectionVersion) cur value pd l g x :
  KeyRel (V := V) hp cur value pd l → (Some g, x) ∈ l → ∃ w, pd g w.
Proof.
  intros Hk Hin. destruct cur as [v|]; simpl in Hk.
  - destruct Hk as [_ (c & top & rest & -> & [_ Hca Hco _ _ _ _])]. apply elem_of_app in Hin as [Hin|Hin].
    + apply list_elem_of_lookup_1 in Hin as [i Hi]. destruct (Forall2_lookup_r _ _ _ _ _ Hca Hi) as (w & _ & (ver & _ & _ & Hown)).
      exists w. by apply Hown.
    + rewrite Forall_forall in Hco. by apply Hco in Hin.
  - destruct Hk as [-> _]. by apply list_elem_of_singleton in Hin.
Qed.

Section one.
Context (s : State) (h : History) (f : nat) (Hs : Core s h).
Let closed := subtree s (frameCount s) f.
Let undone := concat (map (changes s) closed).
Let F (g : nat) : bool := bool_decide (g ∈ closed).

Lemma closed_under g : active s g = true → F g = under (λ x, hi_parent h !! x) f (Some g).
Proof using Hs.
  intros Hg. pose proof (co_tree _ _ Hs) as Ht. simpl.
  rewrite (ancestors_ext (parent s) (λ x, hi_parent h !! x)).
  - apply bool_decide_ext. split; [by apply subtree_under|]. intros Hf. apply under_subtree; [done..|lia].
  - apply Ht.
  - intros x _. symmetry. apply Hs.
Qed.

Lemma elem_undone u : u ∈ ch_undo <$> undone ↔ ∃ g, F g = true ∧ u ∈ pend s g.
Proof.
  unfold undone, F. induction closed as [|g l IH]; simpl.
  - split; [intros Hu; by apply elem_of_nil in Hu|]. by intros (g & ? & ?).
  - rewrite fmap_app, elem_of_app, IH. fold (pend s g). setoid_rewrite bool_decide_eq_true. setoid_rewrite elem_of_cons.
    naive_solver.
Qed.

Lemma line_drop k : line_of k (drop_under f h) = List.filter (λ e, negb (owned F e)) (line_of k h).
Proof using Hs.
  assert (∀ e, e ∈ entries_of k h → negb (under (λ x, hi_parent h !! x) f (en_owner e)) =
             negb (owned F (en_owner e, Some (en_value e)))) as He.
  { intros e Hin. f_equal. destruct (en_owner e) as [g|] eqn:Hg; [|done]. symmetry. apply closed_under.
    destruct (key_owner_pending _ _ _ _ _ g (Some (en_value e)) (co_key _ _ Hs k)) as [w Hw]; [|by eapply co_changes].
    unfold line_of. apply elem_of_app. left. apply list_elem_of_fmap. exists e. by rewrite Hg. }
  unfold line_of. rewrite List.filter_app. f_equal. revert He. unfold entries_of. simpl.
  induction (hi_log h) as [|e l IH]; intros He; [done|]. rewrite filter_cons in He. simpl. rewrite (filter_cons _ e l).
  destruct (decide (en_key e = k)) as [Hk|Hk].
  - simpl. rewrite <- He by by left. destruct (under _ f (en_owner e)); simpl.
    + apply IH. intros e' Hin. apply He. by right.
    + rewrite filter_cons, decide_True by done. simpl. f_equal. apply IH. intros e' Hin. apply He. by right.
  - destruct (under _ f (en_owner e)); simpl; [|rewrite filter_cons, decide_False by done]; by apply IH.
Qed.

Lemma action_undone p :
  p ∈ hi_actions h → under (λ x, hi_parent h !! x) f p.1 = bool_decide (UndoAction p.2.1 ∈ ch_undo <$> undone).
Proof using Hs.
  intros Hp. apply eq_bool_prop_intro. rewrite !Is_true_true, bool_decide_eq_true, elem_undone. destruct p as [o e].
  assert (∀ g, UndoAction e.1 ∈ pend s g → o = Some g) as Hsame.
  { intros g (e' & He' & Hid)%(co_action_owner _ _ Hs). pose proof (co_ids _ _ Hs) as Hnd.
    apply list_elem_of_lookup_1 in Hp as [i Hi], He' as [j Hj].
    assert (i = j) as ->; [|congruence]. eapply (NoDup_lookup _ i j e.1); [exact Hnd|..]; rewrite list_lookup_fmap.
    - by rewrite Hi.
    - by rewrite Hj, <- Hid. }
  simpl. split.
  - intros Hu. destruct o as [g|]; [|done]. assert (UndoAction e.1 ∈ pend s g) as Hg by (apply Hs; eauto).
    exists g. rewrite closed_under by by eapply co_changes. done.
  - intros (g & HF & Hg). rewrite (Hsame g Hg). rewrite <- closed_under by by eapply co_changes. done.
Qed.

Let s1 := close_frames closed s.
Let s2 := foldl mark s1 undone.
Let dead (k : P) (w : nat) : bool := bool_decide (UndoWrite k w ∈ ch_undo <$> undone).

(** What the rollback leaves of a key that has versions. *)
Lemma key_after k v :
  projectionVersions s !! k = Some v →
  ∃ t ver, live_version s2 k (S v) (Some v) = Some (t, ver) ∧ dead k t = false ∧
    KeyRel (λ w, versionHeap s2 !! (k, w)) (Some t) (vr_value ver) (λ g w, UndoWrite k w ∈ pend s1 g)
      (line_of k (drop_under f h)) ∧
    (dead k v = false → t = v ∧ vr_value ver = projections s !! k).
Proof using Hs.
  intros Hcur. destruct (close_views closed s) as (_ & Eu & _ & _ & _ & _ & [_ Sh _ _ _ _ _]).
  destruct (mark_views undone s1) as (_ & _ & _ & _ & _ & _ & _ & Eh).
  fold s1 in Eu, Sh. fold s2 in Eh.
  pose proof (co_key _ _ Hs k) as Hk. unfold KeyOk in Hk. rewrite Hcur in Hk.
  destruct (key_rollback (λ w, versionHeap s !! (k, w)) (λ w, versionHeap s2 !! (k, w)) v (projections s !! k)
    (λ g w, UndoWrite k w ∈ pend s g) (λ g w, UndoWrite k w ∈ pend s1 g) (line_of k h) F (dead k))
    as (t & ver & Hfirst & Ht & Hdead & Hkr & Hsame).
  - done.
  - intros w. unfold dead. by rewrite bool_decide_eq_true, elem_undone.
  - intros w ver Hver. simpl in *. rewrite Eh, Sh, Hver. unfold dead. case_bool_decide as Hd.
    + by rewrite decide_True.
    + rewrite decide_False by done. by destruct ver.
  - intros g w. rewrite Eu. unfold F. case_bool_decide as Hg.
    + rewrite decide_True by done. split; [intros Hw; by apply elem_of_nil in Hw|]. by intros [].
    + rewrite decide_False by done. naive_solver.
  - exists t, ver. split; [|split; [done|]].
    + eapply live_version_first; [exact Hfirst|done|lia].
    + split; [|done]. by rewrite line_drop.
Qed.

Lemma rollback_block :
  ∃ s3, js_each undo (js_sort (λ l r, ch_order r <=? ch_order l) undone) s2 = (Ok (), s3) ∧
    frames s3 = frames s1 ∧ frameCount s3 = frameCount s ∧ projectionClaims s3 = projectionClaims s ∧
    Core s3 (drop_under f h).
Proof using Hs.
  destruct (close_views closed s) as (Ea & Eu & Ep & Ech & Ec & Ed & [S1 S2 S3 S4 S5 S6 S7]).
  destruct (mark_views undone s1) as (M1 & M2 & M3 & M4 & M5 & M6 & M7 & Eh).
  fold s1 in Ea, Eu, Ep, Ech, Ec, Ed, S1, S2, S3, S4, S5, S6, S7. fold s2 in M1, M2, M3, M4, M5, M6, M7, Eh.
  pose proof Hs as [Ht Hc Hp Hch Hcl Ho Hpe Hv Hk Ha Hi Hao].
  set (T k := match projectionVersions s !! k with
              | Some v => default (0, {| vr_previous := None; vr_value := None; vr_rolledBack := false |})
                            (live_version s2 k (S v) (Some v))
              | None => (0, {| vr_previous := None; vr_value := None; vr_rolledBack := false |})
              end).
  set (sorted := js_sort _ undone).
  assert (∀ u, u ∈ ch_undo <$> sorted ↔ u ∈ ch_undo <$> undone) as Hsorted.
  { intros u. unfold sorted. by rewrite (fmap_Permutation ch_undo _ _ (js_sort_perm _ undone)). }
  assert (∀ k w, UndoWrite k w ∈ ch_undo <$> undone → ∃ v, projectionVersions s !! k = Some v) as Hhas.
  { intros k w (g & _ & Hg)%elem_undone. specialize (Hk k). unfold KeyOk, KeyRel in Hk.
    destruct (projectionVersions s !! k) as [v|]; [eauto|]. destruct Hk as [_ Hno]. by destruct (Hno g w). }
  destruct (undo_all sorted s2 T) as (s3 & Hrun & E1 & E2 & E3 & E4 & E5 & E6 & Ek).
  { intros k w Hw Hcur. rewrite M4, S4 in Hcur. destruct (key_after k w Hcur) as (t & ver & Hl & _).
    unfold T. rewrite Hcur, Hl. simpl. simpl in Hl. rewrite Hsorted in Hw.
    destruct (versionHeap s2 !! (k, w)) as [ver'|] eqn:Hver; [|done]. simpl.
    assert (vr_rolledBack ver' = true) as Hr.
    { rewrite Eh, decide_True in Hver by done. destruct (versionHeap s1 !! (k, w)); simplify_eq/=. done. }
    by rewrite Hr in Hl. }
  { intros k w Hw. rewrite Hsorted in Hw. destruct (Hhas k w Hw) as [v Hcur]. destruct (key_after k v Hcur) as (t & ver & Hl & Hd & _).
    unfold T. rewrite Hcur, Hl. simpl. intros ->. unfold dead in Hd. by apply bool_decide_eq_false in Hd. }
  exists s3. split; [done|]. rewrite M1 in E1. rewrite M2, S1 in E2. rewrite M5, S5 in E5. split_and!; try done.
  assert (∀ x, active s3 x = active s1 x) as Ea3 by (intros x; unfold active; by rewrite E1).
  assert (∀ x, parent s3 x = parent s1 x) as Ep3 by (intros x; unfold parent; by rewrite E1).
  assert (∀ x, children s3 x = children s1 x) as Ech3 by (intros x; unfold children; by rewrite E1).
  assert (∀ x, claims s3 x = claims s1 x) as Ec3 by (intros x; unfold claims; by rewrite E1).
  assert (∀ x, pend s3 x = pend s1 x) as Eu3 by (intros x; unfold pend, changes; by rewrite E1).
  assert (∀ k, owners s3 k = owners s k) as Eo3 by (intros k; unfold owners; by rewrite E5).
  assert (∀ x, active s x = true → x ∉ closed → ∀ q, parent s x = Some q → active s q = true ∧ q ∉ closed) as Hup.
  { intros x Hx Hxc q Hq. destruct (tr_active _ Ht _ _ Hx Hq) as [Hqa _]. split; [done|]. intros Hqc. apply Hxc.
    apply under_subtree; [done..| |lia]. eapply ancestors_up; [apply Ht|done|]. by eapply subtree_under. }
  split.
  - destruct Ht as [Hd Hol Hcc Hta]. split.
    + intros x. rewrite E1, Ed, E2. apply Hd.
    + intros x q. rewrite Ep3, Ep. apply Hol.
    + intros c q. rewrite Ep3, Ech3, Ep, Ech. apply Hcc.
    + intros x q. rewrite !Ea3, Ep3, Ech3, !Ea, Ep, Ech.
      intros [Hx Hxc%bool_decide_eq_true]%andb_true_iff Hq. destruct (Hup x Hx Hxc q Hq) as [Hqa Hqc].
      rewrite Hqa, bool_decide_eq_true_2 by done. split; [done|]. by destruct (Hta _ _ Hx Hq).
  - by rewrite E2.
  - intros x. rewrite Ep3, Ep. apply Hp.
  - intros x u. rewrite Eu3, Ea3, Ea, Eu. case_decide as Hx; [intros Hu; by apply elem_of_nil in Hu|].
    intros Hu. rewrite (Hch _ _ Hu). simpl. by apply bool_decide_eq_true.
  - intros x k. rewrite Ec3, Ec, Eo3. apply Hcl.
  - intros x q k. rewrite !Eo3, Ea3, Ea, Ep3, Ep. intros Hx [Hxa _]%andb_true_iff. by apply Ho.
  - intros x k v. rewrite Eu3, Eu, Eo3. case_decide; [intros Hu; by apply elem_of_nil in Hu|]. apply Hpe.
  - intros k v. rewrite E4, E3, M3, S3. intros Hx. apply (Hv k). rewrite <- S2. revert Hx. rewrite Eh.
    case_decide; [by rewrite fmap_is_Some|done].
  - intros k. unfold KeyOk. rewrite E4. destruct (projectionVersions s !! k) as [v|] eqn:Hcur.
    + destruct (key_after k v Hcur) as (t & ver & Hl & Hd & Hkr & Hsame).
      assert (T k = (t, ver)) as HT by (unfold T; by rewrite Hcur, Hl).
      assert (projectionVersions s3 !! k = Some t ∧ projections s3 !! k = vr_value ver) as [-> ->].
      { destruct (Ek k) as [(w & _ & _ & E7 & E8)|(Hno & E7 & E8)]; rewrite E7, E8; [by rewrite HT|].
        rewrite M4, S4, Hcur in Hno |- *. specialize (Hno v eq_refl). rewrite Hsorted in Hno.
        destruct Hsame as [-> ->]; [by apply bool_decide_eq_false|]. by rewrite M6, S6. }
      apply (key_ext (λ w, versionHeap s2 !! (k, w)) _ _ _ (λ g w, UndoWrite k w ∈ pend s1 g)); [done|done|].
      intros g w. by rewrite Eu3.
    + destruct (Ek k) as [(w & Hw & _)|(_ & -> & ->)]; [rewrite M4, S4 in Hw; congruence|].
      rewrite M4, S4, M6, S6, Hcur. specialize (Hk k). unfold KeyOk in Hk. rewrite Hcur in Hk. destruct Hk as [Hl Hno].
      rewrite line_drop, Hl. split; [done|]. intros g w. rewrite Eu3, Eu. case_decide; [|apply Hno].
      intros Hu; by apply elem_of_nil in Hu.
  - rewrite E6, M7, S7, Ha. unfold drop_under. simpl.
    assert (∀ p, p ∈ hi_actions h → negb (under (λ x, hi_parent h !! x) f p.1) = bool_decide (UndoAction p.2.1 ∉ ch_undo <$> sorted)) as Hx.
    { intros p Hin. rewrite action_undone by done. rewrite <- bool_decide_not. apply bool_decide_ext. by rewrite Hsorted. }
    revert Hx. clear. induction (hi_actions h) as [|p l IH]; intros Hx; [done|]. simpl. rewrite (Hx p) by by left.
    rewrite IH by (intros; apply Hx; by right). by case_bool_decide.
  - apply NoDup_fmap_filter. done.
  - intros x i. rewrite Eu3, Eu. unfold drop_under. simpl. case_decide as Hx.
    + split; [intros Hu; by apply elem_of_nil in Hu|]. intros (e & He & Hid). exfalso.
      apply list_elem_of_In, filter_In in He as [He Hu]. apply list_elem_of_In in He.
      assert (UndoAction i ∈ pend s x) as Hpx by (apply Hao; eauto). apply Hch in Hpx.
      apply negb_true_iff in Hu. change (under (λ x, hi_parent h !! x) f (Some x) = false) in Hu.
      rewrite <- (closed_under _ Hpx) in Hu. by apply bool_decide_eq_false in Hu.
    + rewrite Hao. split; intros (e & He & Hid); exists e; (split; [|done]).
      * apply list_elem_of_In, filter_In. split; [by apply list_elem_of_In|]. simpl. apply negb_true_iff.
        assert (active s x = true) as Hxa by (eapply Hch, Hao; eauto).
        change (under (λ x, hi_parent h !! x) f (Some x) = false). rewrite <- closed_under by done. by apply bool_decide_eq_false.
      * apply list_elem_of_In, filter_In in He as [He _]. by apply list_elem_of_In.
Qed.
End one.

Lemma core_release_all (s : State) h l :
  Core s h → (∀ g, g ∈ l → pend s g = [] ∧ active s g = false) →
  let s' := foldl (λ s g, releaseClaims g s) s l in
  Core s' h ∧ (∀ x, active s' x = active s x) ∧ (∀ x, parent s' x = parent s x) ∧ (∀ x, pend s' x = pend s x) ∧
  (∀ x k, x ∈ owners s' k → x ∈ owners s k ∧ x ∉ l).
Proof.
  revert s. induction l as [|g l IH]; intros s Hs Hl; simpl.
  { split_and!; try done. intros x k Hx. split; [done|]. apply not_elem_of_nil. }
  destruct (Hl g) as [Hg1 Hg2]; [by left|]. pose proof (core_release _ _ _ Hs Hg1 Hg2) as Hs1.
  destruct (release_views g s) as (Eo & _ & Ea & Ep & Eu & Ec & _).
  destruct (IH (releaseClaims g s) Hs1) as (Hs' & Ea' & Ep' & Eu' & Eo').
  { intros x Hx. rewrite Eu, Ea. apply Hl. by right. }
  split_and!; [done|..].
  - intros x. by rewrite Ea'.
  - intros x. by rewrite Ep'.
  - intros x. by rewrite Eu'.
  - intros x k [Hx Hxl]%Eo'. pose proof Hx as Hx1. rewrite Eo in Hx. split.
    + case_decide; [|done]. by apply elem_of_difference in Hx as [].
    + apply not_elem_of_cons. split; [|done]. intros ->. apply (co_claims _ _ Hs1) in Hx1. rewrite Ec, decide_True in Hx1 by done.
      by apply not_elem_of_empty in Hx1.
Qed.

Lemma core_rollback (s : State) h f :
  Core s h →
  ∃ s', rollbackFrame f s = (Ok (), s') ∧ Core s' (drop_under f h) ∧ active s' f = false ∧ pend s' f = [] ∧
    (∀ x, parent s' x = parent s x) ∧ (∀ x k, x ∈ owners s' k → x ∈ owners s k ∧ (active s x = true → active s' x = true)) ∧
    (∀ x, active s' x = true → active s x = true).
Proof.
  intros Hs. destruct (rollback_block s h f Hs) as (s3 & Hrun & E1 & E2 & E5 & Hs3).
  destruct (close_views (subtree s (frameCount s) f) s) as (Ea & Eu & Ep & _).
  revert Hrun E1 E2 E5 Hs3 Ea Eu Ep. set (closed := subtree s (frameCount s) f). set (s1 := close_frames closed s).
  intros Hrun E1 E2 E5 Hs3 Ea Eu Ep.
  assert (∀ x, active s3 x = active s x && bool_decide (x ∉ closed)) as Ea3 by (intros x; rewrite <- Ea; unfold active; by rewrite E1).
  assert (∀ x, parent s3 x = parent s x) as Ep3 by (intros x; rewrite <- Ep; unfold parent; by rewrite E1).
  assert (∀ x, pend s3 x = if decide (x ∈ closed) then [] else pend s x) as Eu3.
  { intros x. rewrite <- Eu. unfold pend, changes. by rewrite E1. }
  destruct (core_release_all s3 (drop_under f h) closed Hs3) as (Hs4 & Ea4 & Ep4 & Eu4 & Eo4).
  { intros g Hg. rewrite Eu3, Ea3, decide_True by done. split; [done|]. by rewrite bool_decide_eq_false_2, andb_false_r by auto. }
  eexists. split.
  { unfold rollbackFrame. unfold mbind at 1, js_bind at 1, getf. cbv zeta.
    unfold mbind at 1, js_bind at 1, modify at 1. unfold mbind at 1, js_bind at 1, modify at 1.
    unfold mbind at 1, js_bind at 1. change (id s) with s. fold closed. fold (close_frames closed s). fold s1.
    rewrite Hrun. done. }
  assert (active s3 f = false ∧ pend s3 f = []) as [Hf1 Hf2].
  { rewrite Ea3, Eu3. destruct (decide (f ∈ closed)) as [Hin|Hout].
    - by rewrite bool_decide_eq_false_2, andb_false_r by auto.
    - assert (active s f = false) as Hf.
      { destruct (active s f) eqn:Hf; [|done]. exfalso. apply Hout. apply under_subtree; [apply Hs|done| |lia].
        apply ancestors_refl, Hs. }
      rewrite Hf. split; [done|]. destruct (pend s f) as [|u l] eqn:Hu; [done|].
      rewrite (co_changes _ _ Hs f u) in Hf; [done|]. rewrite Hu. by left. }
  split_and!; [done|by rewrite Ea4|by rewrite Eu4| | |].
  - intros x. by rewrite Ep4.
  - intros x k [Hx Hxc]%Eo4. unfold owners in Hx. rewrite E5 in Hx. split; [done|]. intros Hxa.
    rewrite Ea4, Ea3, Hxa. simpl. by apply bool_decide_eq_true.
  - intros x. rewrite Ea4, Ea3. by intros [? _]%andb_true_iff.
Qed.
End rollback.
