(* ===== verification/FrameClaims.v ===== *)
(** * FrameClaims: the properties of the transactions of the in-memory store.

    Whatever calls interleave, the projections are the replay of the writes that were not
    rolled back; a read sees no write that another transaction could still undo; a rollback
    always completes. *)
From S2P Require Import Prelude JsMap JsJson OfflineTypes MemoryFrames FrameHistory FrameInv FrameRollback.
Local Open Scope nat_scope.

Section claims.
Context {P V : Type} `{Countable P} {A : Type} (queueItems : string → P).
Notation State := (@State P V _ _ A).
Notation History := (@History P V A).
Notation op := (@op P V A).

(** ** Each call keeps the log *)
Lemma core_locks (s : State) h g : Core s h → Core (set_locks g s) h.
Proof.
  intros Hs. apply (core_reframe s); try done; [by apply (tree_ext s); [apply Hs|..]|]. intros f u. apply Hs.
Qed.
Lemma rel_locks (s : State) h g : Rel s h → Rel (set_locks g s) h.
Proof. intros [Hs Ho]. split; [by apply core_locks|done]. Qed.

Lemma rel_releases (s : State) h f g : Rel s h → Rel (upd_frame f (set_releases g) s) h.
Proof.
  intros [Hs Ho]. split.
  - apply (core_reframe s); [done|apply same_upd|..].
    + pose proof (co_tree _ _ Hs) as [Hd Hol Hcc Hta]. split.
      * intros x. rewrite dom_upd. apply Hd.
      * intros x q. rewrite parent_keep by done. apply Hol.
      * intros c q. rewrite parent_keep, children_keep by done. apply Hcc.
      * intros x q. rewrite !active_keep, parent_keep, children_keep by done. apply Hta.
    + intros x. by apply parent_keep.
    + intros x. by apply claims_keep.
    + intros x. by apply pend_keep.
    + intros x u. rewrite active_keep by done. apply Hs.
    + intros x. by rewrite active_keep.
  - intros x k Hx. rewrite active_keep by done. by eapply Ho.
Qed.

(** A frame with nothing left to undo ends. *)
Definition ending (s : State) (h : History) (f : nat) : Prop :=
  Core s h ∧ pend s f = [] ∧ (∀ g, active s g = true → parent s g ≠ Some f) ∧
  (∀ x k, x ∈ owners s k → x = f ∨ active s x = true).

Lemma rel_release (s : State) h f :
  Core s h → pend s f = [] → active s f = false → (∀ x k, x ∈ owners s k → x = f ∨ active s x = true) →
  Rel (releaseClaims f s) h.
Proof.
  intros Hs Hp Hf Ho. split; [by apply core_release|]. destruct (release_views f s) as (Eo & _ & Ea & _).
  intros x k. rewrite Ea, Eo. intros Hx. assert (x ≠ f) as Hne.
  { intros ->. case_decide as Hk.
    - apply elem_of_difference in Hx as [_ Hx]. by apply Hx, elem_of_singleton.
    - by apply (co_claims _ _ Hs) in Hx. }
  case_decide; [apply elem_of_difference in Hx as [Hx _]|]; by destruct (Ho x k Hx).
Qed.

Lemma ending_deactivate (s : State) h f :
  ending s h f → ending (upd_frame f (set_active false) s) h f ∧ active (upd_frame f (set_active false) s) f = false.
Proof.
  intros (Hs & Hp & Hno & Ho). split; [split_and!|].
  - by apply core_deactivate.
  - by rewrite pend_keep by done.
  - intros g. rewrite active_off, parent_keep by done. intros [Hg _]%andb_true_iff. by apply Hno.
  - intros x k Hx. destruct (decide (x = f)) as [|Hne]; [by left|]. destruct (Ho x k Hx) as [|Hx']; [by left|right].
    rewrite active_off, Hx' by done. by apply bool_decide_eq_true.
  - rewrite active_off by done. by rewrite bool_decide_eq_false_2, andb_false_r by auto.
Qed.

Lemma upd_frame_compose f g1 g2 (s : State) : upd_frame f (g1 ∘ g2) s = upd_frame f g1 (upd_frame f g2 s).
Proof.
  unfold upd_frame, set_frames. simpl. f_equal. apply map_eq. intros x. destruct (decide (x = f)) as [->|Hne].
  - rewrite !lookup_alter_eq. by destruct (frames s !! f).
  - by rewrite !lookup_alter_ne.
Qed.

Lemma ending_clear (s : State) h f :
  ending s h f → ending (upd_frame f (set_changes (λ _, [])) s) h f.
Proof.
  intros (Hs & Hp & Hno & Ho).
  assert (∀ x, pend (upd_frame f (set_changes (λ _, [])) s) x = pend s x) as Eu.
  { intros x. rewrite pend_cleared by done. case_decide as Hx; [by subst|done]. }
  split_and!.
  - apply (core_reframe s); [done|apply same_upd|..].
    + pose proof (co_tree _ _ Hs) as [Hd Hol Hcc Hta]. split.
      * intros x. rewrite dom_upd. apply Hd.
      * intros x q. rewrite parent_keep by done. apply Hol.
      * intros c q. rewrite parent_keep, children_keep by done. apply Hcc.
      * intros x q. rewrite !active_keep, parent_keep, children_keep by done. apply Hta.
    + intros x. by apply parent_keep.
    + intros x. by apply claims_keep.
    + done.
    + intros x u. rewrite active_keep by done. apply Hs.
    + intros x. by rewrite active_keep.
  - by rewrite Eu.
  - intros g. rewrite active_keep, parent_keep by done. apply Hno.
  - intros x k Hx. rewrite active_keep by done. by eapply Ho.
Qed.

Lemma ending_rollback (s : State) h f :
  Rel s h → ∃ s', rollbackFrame f s = (Ok (), s') ∧ ending s' (drop_under f h) f ∧ (∀ x, parent s' x = parent s x).
Proof.
  intros [Hs Ho]. destruct (core_rollback s h f Hs) as (s' & Hrun & Hs' & Hf & Hp & Ep & Eo & Ea).
  exists s'. split; [done|]. split; [|done]. split_and!; [done|done| |].
  - intros g Hg Hgf. destruct (tr_active _ (co_tree _ _ Hs') _ _ Hg Hgf). congruence.
  - intros x k [Hx Hxa]%Eo. right. apply Hxa. by eapply Ho.
Qed.

Lemma ending_keep (s : State) h f :
  Rel s h → children s f = [] → ending (upd_frame f (set_changes (λ _, [])) s) (rehome (move f None) h) f.
Proof.
  intros [Hs Ho] Hch. split_and!.
  - by apply core_keep.
  - rewrite pend_cleared by done. by rewrite decide_True.
  - intros g. rewrite active_keep, parent_keep by done. intros Hg Hgf.
    destruct (tr_active _ (co_tree _ _ Hs) _ _ Hg Hgf) as [_ Hin]. rewrite Hch in Hin. by apply elem_of_nil in Hin.
  - intros x k Hx. right. rewrite active_keep by done. by eapply Ho.
Qed.

Definition frame_complete (s : State) (f : nat) : bool := frameIsActive s f && bool_decide (children s f = []).
Lemma assertFrameComplete_run f (s : State) :
  assertFrameComplete f s =
  if frame_complete s f then (Ok (), s)
  else (Throw (conflict_state "Memory transaction cannot commit closed or unfinished owned work."), s).
Proof.
  unfold assertFrameComplete, frame_complete. js_unfold. simpl. by destruct (frameIsActive s f), (bool_decide (children s f = [])).
Qed.

(** The end of a root frame: [s1] is the state its operation and the commit or the rollback left. *)
Definition close_tenant (f : nat) (s1 : State) : State :=
  let s2 := releaseClaims f (upd_frame f (set_changes (λ _, []) ∘ set_active false) s1) in
  set_locks (λ locks, foldl (λ l k, delete k l) locks
               (match frames s2 !! f with Some fr => fr_releases fr | None => [] end)) s2.

Lemma rel_close_tenant s1 h f : ending s1 h f → Rel (close_tenant f s1) h.
Proof.
  intros He. unfold close_tenant. apply rel_locks. rewrite upd_frame_compose.
  destruct (ending_deactivate _ _ _ He) as [He1 Hf]. pose proof (ending_clear _ _ _ He1) as (Hs & Hp & _ & Ho).
  apply rel_release; [done|done| |done]. by rewrite active_keep.
Qed.

Lemma rel_end_tenant (s : State) h f (ended : result ()) :
  Rel s h → parent s f = None →
  ∃ r s', end_tenant f ended s = (r, s') ∧ Rel s' (record_call h (OpEndTenant f ended, r)) ∧
    (∀ e, ended = Throw e → r = Throw e).
Proof.
  intros Hs Hup. destruct (ending_rollback s h f Hs) as (s1 & Hroll & He & _).
  assert (∀ r s1, js_catch (value ← lift ended; _ ← assertFrameComplete f; mret value) (λ e, _ ← rollbackFrame f; throw e) s = (r, s1) →
     end_tenant f ended s = (r, close_tenant f s1)) as Hfin.
  { intros r s2 Hrun. unfold end_tenant, js_finally. rewrite Hrun. done. }
  destruct ended as [[]|e].
  - unfold js_catch, lift, mbind, js_bind, mret, js_ret in Hfin. rewrite assertFrameComplete_run in Hfin.
    destruct (frame_complete s f) eqn:Hc.
    + eexists _, _. split; [by apply Hfin|]. split; [|done]. simpl. unfold frame_complete in Hc.
      apply andb_true_iff in Hc as [_ Hch%bool_decide_eq_true].
      unfold close_tenant. apply rel_locks.
      rewrite (upd_frame_compose f (set_changes (λ _, [])) (set_active false)).
      pose proof (ending_keep s h f Hs Hch) as Hk. destruct (ending_deactivate _ _ _ Hk) as [(Hs1 & Hp1 & _ & Ho1) Hf].
      assert (upd_frame f (set_changes (λ _, [])) (upd_frame f (set_active false) s) =
              upd_frame f (set_active false) (upd_frame f (set_changes (λ _, [])) s)) as ->.
      { rewrite <- !upd_frame_compose. done. }
      by apply rel_release.
    + eexists _, _. split; [apply Hfin; by rewrite Hroll|]. split; [|done]. simpl. by apply rel_close_tenant.
  - eexists _, _. split; [apply Hfin; unfold js_catch, lift, mbind, js_bind; by rewrite Hroll|].
    split; [|naive_solver]. simpl. by apply rel_close_tenant.
Qed.

(** The end of an owned frame. *)
Definition close_owned (f up : nat) (s1 : State) : State :=
  releaseClaims f (upd_frame up (set_children (set_delete f)) (upd_frame f (set_active false) s1)).

Lemma rel_close_owned (s1 : State) h f up : ending s1 h f → Rel (close_owned f up s1) h.
Proof.
  intros He. destruct (ending_deactivate _ _ _ He) as [(Hs & Hp & _ & Ho) Hf]. unfold close_owned. apply rel_release.
  - by apply core_orphan.
  - by rewrite pend_keep by done.
  - by rewrite active_keep by done.
  - intros x k Hx. rewrite active_keep by done. by eapply Ho.
Qed.

Lemma ending_hand_over (s : State) h f up :
  Rel s h → active s f = true → parent s f = Some up → children s f = [] →
  ending (hand_over f up s) (rehome (move f (Some up)) h) f.
Proof.
  intros [Hs Ho] Hf Hup Hch. split_and!.
  - by apply core_hand_over.
  - unfold hand_over. rewrite pend_cleared by done. by rewrite decide_True.
  - intros g. unfold hand_over. rewrite !active_keep, !parent_keep by done. intros Hg Hgf.
    destruct (tr_active _ (co_tree _ _ Hs) _ _ Hg Hgf) as [_ Hin]. rewrite Hch in Hin. by apply elem_of_nil in Hin.
  - intros x k Hx. right. unfold hand_over. rewrite !active_keep by done. by eapply Ho.
Qed.

Lemma rel_end_owned (s : State) h f up (ended : result ()) :
  Rel s h → parent s f = Some up →
  ∃ r s', end_owned f ended s = (r, s') ∧ Rel s' (record_call h (OpEndOwned f ended, r)) ∧
    (∀ e, ended = Throw e → r = Throw e).
Proof.
  intros Hs Hup. destruct (ending_rollback s h f Hs) as (s1 & Hroll & He & _).
  assert (∀ r s1, js_catch (value ← lift ended; _ ← assertFrameComplete f; _ ← modify (hand_over f up); mret value)
                    (λ e, _ ← rollbackFrame f; throw e) s = (r, s1) →
     end_owned f ended s = (r, close_owned f up s1)) as Hfin.
  { intros r s2 Hrun. unfold end_owned. unfold mbind at 1, js_bind at 1, getf. simpl. rewrite Hup.
    unfold js_finally. change (λ s, upd_frame f (set_changes (λ _, [])) (upd_frame up (set_changes (λ l, l ++ changes s f)) s))
      with (hand_over (P := P) (V := V) (A := A) f up). rewrite Hrun. done. }
  destruct ended as [[]|e].
  - unfold js_catch, lift, mbind, js_bind, mret, js_ret, modify in Hfin. rewrite assertFrameComplete_run in Hfin.
    destruct (frame_complete s f) eqn:Hc.
    + eexists _, _. split; [by apply Hfin|]. split; [|done]. simpl. unfold frame_complete in Hc.
      apply andb_true_iff in Hc as [Ha Hch%bool_decide_eq_true].
      rewrite frameIsActive_active in Ha by apply Hs. rewrite <- (co_parent _ _ (proj1 Hs)), Hup.
      apply rel_close_owned. by apply ending_hand_over.
    + eexists _, _. split; [apply Hfin; by rewrite Hroll|]. split; [|done]. simpl. by apply rel_close_owned.
  - eexists _, _. split; [apply Hfin; unfold js_catch, lift, mbind, js_bind; by rewrite Hroll|].
    split; [|naive_solver]. simpl. by apply rel_close_owned.
Qed.

Lemma rel_new_frame (s s' : State) h tenant up conflictId :
  Rel s h → s' = set_frames <[frameCount s := new_frame tenant up conflictId]> (count_frame s) →
  (∀ q, up = Some q → active s q = true) →
  Rel (match up with Some q => upd_frame q (set_children (set_add (frameCount s))) s' | None => s' end)
    {| hi_count := S (hi_count h);
       hi_parent := match up with Some q => <[hi_count h := q]> (hi_parent h) | None => hi_parent h end;
       hi_log := hi_log h; hi_actions := hi_actions h |}.
Proof.
  intros [Hs Ho] Hs' Hup. split; [by eapply core_new_frame|]. subst s'.
  destruct (new_frame_views s h Hs tenant up conflictId) as (Ea & _). intros x k Hx.
  assert (active s x = true) as Hxa by (apply (Ho x k); by destruct up).
  destruct up as [q|]; rewrite ?active_keep, Ea by done; by case_decide.
Qed.

Lemma rel_begin_owned (s : State) h tenant up conflictId :
  Rel s h → let '(r, s') := run_op queueItems (OpBeginOwned tenant up conflictId) s in
  Rel s' (record_call h (OpBeginOwned tenant up conflictId, r)).
Proof.
  intros Hs. simpl. unfold begin_owned, assertMutationOwner. js_unfold. simpl.
  destruct (negb _ || _) eqn:Hg; [done|]. destruct (bool_decide _ && _); [done|]. simpl.
  apply orb_false_iff in Hg as [_ Hg%negb_false_iff]. rewrite frameIsActive_active in Hg by apply Hs.
  apply (rel_new_frame s _ h tenant (Some up) conflictId); [done|done|]. by intros q [= <-].
Qed.

(** ** Claims, reads and writes *)
Definition claimed (f : nat) (k : P) (s : State) : State := base_version k (foldr (add_claim k) s (ancestors (parent s) f)).
Definition related (s : State) (f o : nat) : bool := isAncestor s o f || isAncestor s f o.
Definition may_claim (s : State) (f : nat) (k : P) : bool :=
  frameIsActive s f && forallb (related s f) (elements (owners s k)).

Lemma assertProjectionClaim_run (s : State) f k :
  (∃ e, assertProjectionClaim f k s = (Throw e, s) ∧ may_claim s f k = false) ∨
  assertProjectionClaim f k s = (Ok (), s) ∧ may_claim s f k = true.
Proof.
  unfold assertProjectionClaim, assertOwnFrame, may_claim. js_unfold. simpl.
  destruct (frameIsActive s f); simpl; [|left; eauto].
  assert (existsb (λ o, negb (isAncestor s o f) && negb (isAncestor s f o)) (elements (owners s k)) =
          negb (forallb (related s f) (elements (owners s k)))) as ->.
  { unfold related. induction (elements (owners s k)) as [|o l IH]; [done|]. simpl. rewrite IH.
    by destruct (isAncestor s o f), (isAncestor s f o), (forallb _ l). }
  destruct (forallb _ _); simpl; eauto.
Qed.

Lemma claimProjection_run (s : State) f k :
  (∃ e, claimProjection f k s = (Throw e, s)) ∨ claimProjection f k s = (Ok (), claimed f k s) ∧ may_claim s f k = true.
Proof.
  unfold claimProjection. unfold mbind, js_bind.
  destruct (assertProjectionClaim_run s f k) as [(e & -> & _)|[-> Hm]]; eauto.
Qed.

Lemma rel_claimed (s : State) h f k : Rel s h → active s f = true → Rel (claimed f k s) h.
Proof.
  intros [Hs Ho] Hf. split.
  - apply core_base_version, core_add_claims; done.
  - destruct (add_claims k (ancestors (parent s) f) s) as (Eo & _ & Ea & _).
    { intros x Hx. apply active_dom. eapply ancestors_active; [apply Hs|done|done]. }
    intros x k' Hx. unfold claimed, base_version in *.
    assert (x ∈ owners (foldr (add_claim k) s (ancestors (parent s) f)) k') as Hx'.
    { destruct (projectionVersions _ !! k); done. }
    assert (active (foldr (add_claim k) s (ancestors (parent s) f)) x = true) as Hxa.
    { rewrite Ea. apply Eo in Hx' as [Hx'|[_ Hx']]; [by eapply Ho|]. eapply ancestors_active; [apply Hs|done|done]. }
    by destruct (projectionVersions _ !! k).
Qed.

Lemma claimed_owner (s : State) h f k :
  Rel s h → active s f = true →
  f ∈ owners (claimed f k s) k ∧ active (claimed f k s) f = true ∧ is_Some (projectionVersions (claimed f k s) !! k).
Proof.
  intros Hs Hf. pose proof (rel_claimed s h f k Hs Hf) as Hc.
  destruct (add_claims k (ancestors (parent s) f) s) as (Eo & _ & Ea & _).
  { intros x Hx. apply active_dom. eapply ancestors_active; [apply Hs|done|done]. }
  assert (f ∈ owners (claimed f k s) k) as Hown.
  { unfold claimed, base_version. assert (f ∈ owners (foldr (add_claim k) s (ancestors (parent s) f)) k) as Hx.
    { apply Eo. right. split; [done|]. apply ancestors_refl, Hs. }
    by destruct (projectionVersions _ !! k). }
  split_and!; [done|by eapply (proj2 Hc)|]. eapply core_base_version, core_add_claims; [apply Hs|done].
Qed.

Lemma rel_write (s : State) h f k v :
  Rel s h → let '(r, s') := run_op queueItems (OpWrite f k v) s in Rel s' (record_call h (OpWrite f k v, r)).
Proof.
  intros Hs. simpl. unfold writeProjection. unfold mbind, js_bind.
  destruct (claimProjection_run s f k) as [(e & ->)|[-> Hm]]; [done|]. simpl.
  unfold may_claim in Hm. apply andb_true_iff in Hm as [Hf _]. rewrite frameIsActive_active in Hf by apply Hs.
  destruct (claimed_owner s h f k Hs Hf) as (Hown & Hact & Hcur).
  pose proof (rel_claimed s h f k Hs Hf) as [Hc Ho]. split; [by apply core_put_version|].
  intros x k' Hx. assert (active (claimed f k s) x = true) as Hxa by by eapply Ho.
  rewrite <- Hxa. by apply (active_keep f _ (claimed f k s)).
Qed.

Lemma rel_queue (s : State) h f k nested :
  Rel s h → let '(r, s') := run_op queueItems (OpQueue f k nested) s in Rel s' (record_call h (OpQueue f k nested, r)).
Proof.
  intros Hs. enough (Rel (run_op queueItems (OpQueue f k nested) s).2 h) as Hr.
  { by destruct (run_op queueItems (OpQueue f k nested) s) as [[[]|] s']. }
  simpl. unfold queueResolution. js_unfold. simpl.
  assert (∀ s1, Rel s1 h → Rel (claimProjection f (queueItems k) s1).2 h) as Hclaim.
  { intros s1 Hs1. destruct (claimProjection_run s1 f (queueItems k)) as [(e & ->)|[-> Hm]]; [done|].
    unfold may_claim in Hm. apply andb_true_iff in Hm as [Hf _]. rewrite frameIsActive_active in Hf by apply Hs1.
    by apply rel_claimed. }
  destruct (queueResolutionLocks s !! k) as [[holder holding]|].
  - case_bool_decide.
    + destruct (frameIsActive s holding); [done|]. simpl.
      specialize (Hclaim _ (rel_locks s h <[k := (root s f, f)]> Hs)).
      destruct (claimProjection f (queueItems k) _) as [[]]; done.
    + by destruct nested.
  - specialize (Hclaim _ (rel_releases _ h (root s f) (λ l, l ++ [k]) (rel_locks s h <[k := (root s f, f)]> Hs))).
    destruct (claimProjection f (queueItems k) _) as [[]]; done.
Qed.

(** ** Whole runs *)

(** A root frame is ended by [mutateTenant], an owned one by [ownedFrame]. *)
Definition callable (s : State) (o : op) : bool :=
  match o with
  | OpEndTenant f _ => bool_decide (parent s f = None)
  | OpEndOwned f _ => negb (bool_decide (parent s f = None))
  | _ => true
  end.
Fixpoint well_nested (s : State) (ops : list op) : bool :=
  match ops with
  | [] => true
  | o :: ops' => callable s o && well_nested (run_op queueItems o s).2 ops'
  end.
(** The ids of the appended actions, each of them a [randomUUID()]. *)
Definition action_ids (ops : list op) : list string :=
  omap (λ o, match o with OpAppend _ entry => Some entry.1 | _ => None end) ops.

Lemma rel_step (s : State) h o :
  Rel s h → callable s o = true → (∀ i, i ∈ action_ids [o] → i ∉ map (λ p, p.2.1) (hi_actions h)) →
  let '(r, s') := run_op queueItems o s in Rel s' (record_call h (o, r)).
Proof.
  intros Hs Hc Hi. destruct o as [tenant|f ended|tenant up conflictId|f ended|f k|f k v|f entry|f|f k nested].
  - simpl. js_unfold. by apply (rel_new_frame s _ h tenant None None).
  - cbn [run_op callable] in *. apply bool_decide_eq_true in Hc. destruct (rel_end_tenant s h f ended Hs Hc) as (r & s' & -> & Hs' & _). done.
  - by apply rel_begin_owned.
  - cbn [run_op callable] in *. destruct (parent s f) as [up|] eqn:Hup; [|done].
    destruct (rel_end_owned s h f up ended Hs Hup) as (r & s' & -> & Hs' & _). done.
  - simpl. unfold readProjection, getf. unfold mbind, js_bind.
    destruct (assertProjectionClaim_run s f k) as [(e & -> & _)|[-> _]]; done.
  - by apply rel_write.
  - simpl. unfold appendConflictAction, assertOwnFrame. js_unfold. simpl.
    destruct (frameIsActive s f) eqn:Hf; [|done]. simpl. rewrite frameIsActive_active in Hf by apply Hs.
    destruct Hs as [Hs Ho]. split; [apply core_append; [done|done|]; apply Hi; by left|].
    intros x k Hx. rewrite <- (Ho x k Hx). by apply (active_keep f _ s).
  - simpl. destruct Hs as [Hs Ho]. split; [by apply core_keep|]. intros x k Hx. rewrite active_keep by done. by eapply Ho.
  - by apply rel_queue.
Qed.

Lemma ids_step (h : History) o r i :
  i ∈ map (λ p, p.2.1) (hi_actions (record_call h (o, r))) → i ∈ map (λ p, p.2.1) (hi_actions h) ∨ i ∈ action_ids [o].
Proof.
  assert (∀ φ, i ∈ map (λ p, p.2.1) (hi_actions (rehome φ h)) → i ∈ map (λ p, p.2.1) (hi_actions h)) as Hφ.
  { intros φ. simpl. rewrite map_map. done. }
  assert (∀ f, i ∈ map (λ p, p.2.1) (hi_actions (drop_under f h)) → i ∈ map (λ p, p.2.1) (hi_actions h)) as Hd.
  { intros f. simpl. intros Hin. apply list_elem_of_fmap in Hin as (p & -> & Hp). apply list_elem_of_In, filter_In in Hp as [Hp _].
    apply list_elem_of_fmap. exists p. split; [done|]. by apply list_elem_of_In. }
  destruct o, r; try (by left); try (intros Hin; left; (by eapply Hφ) || (by eapply Hd)).
  simpl. rewrite map_app, elem_of_app. intros [|Hin]; [by left|right]. done.
Qed.

Lemma rel_run (s : State) h ops :
  Rel s h → well_nested s ops = true → NoDup (action_ids ops) →
  (∀ i, i ∈ action_ids ops → i ∉ map (λ p, p.2.1) (hi_actions h)) →
  let '(trace, s') := run_ops queueItems s ops in Rel s' (foldl record_call h trace).
Proof.
  revert s h. induction ops as [|o ops IH]; intros s h Hs Hw Hnd Hfresh; [done|]. cbn [run_ops well_nested] in *.
  apply andb_true_iff in Hw as [Hc Hw].
  assert (action_ids (o :: ops) = action_ids [o] ++ action_ids ops) as Happ.
  { unfold action_ids. change (o :: ops) with ([o] ++ ops). apply omap_app. }
  rewrite Happ in Hnd, Hfresh. apply NoDup_app in Hnd as (_ & Hdis & Hnd).
  pose proof (rel_step s h o Hs Hc) as Hstep.
  destruct (run_op queueItems o s) as [r s1] eqn:Hrun. simpl in Hw.
  specialize (Hstep (λ i Hi, Hfresh i (proj2 (elem_of_app _ _ _) (or_introl Hi)))).
  specialize (IH s1 (record_call h (o, r)) Hstep Hw Hnd).
  destruct (run_ops queueItems s1 ops) as [trace s2]. apply IH. intros i Hi Hin.
  apply ids_step in Hin as [Hin|Hin]; [|by eapply Hdis].
  eapply Hfresh; [|exact Hin]. apply elem_of_app. by right.
Qed.

Lemma rel_reached ops trace s :
  well_nested new_state ops = true → NoDup (action_ids ops) → run_ops queueItems new_state ops = (trace, s) → Rel s (history trace).
Proof.
  intros Hw Hnd Hrun. pose proof (rel_run new_state no_history ops core_new Hw Hnd (λ i _, not_elem_of_nil i)) as Hr.
  by rewrite Hrun in Hr.
Qed.

Lemma replay_line (s : State) h k : Core s h → projections s !! k = replay k h.
Proof.
  intros Hs. pose proof (co_key _ _ Hs k) as Hk. unfold KeyOk, KeyRel in Hk. unfold replay.
  assert (snd <$> head (line_of k h) = Some (projections s !! k)) as Hl.
  { destruct (projectionVersions s !! k) as [v|].
    - destruct Hk as [_ (c & top & rest & -> & [_ _ _ _ _ _ Hv])]. by destruct top.
    - by destruct Hk as [-> _]. }
  unfold line_of in Hl. destruct (entries_of k h) as [|e l]; simplify_eq/=; congruence.
Qed.

(** C26. However calls of the transaction methods interleave, every projection holds the last
    write to its key that was not rolled back, and the conflict actions are the appended ones
    that were not rolled back, in order. *)
Theorem projections_replay ops trace s :
  well_nested new_state ops = true → NoDup (action_ids ops) → run_ops queueItems new_state ops = (trace, s) →
  (∀ k, projections s !! k = replay k (history trace)) ∧ conflictActions s = map snd (hi_actions (history trace)).
Proof.
  intros Hw Hnd Hrun. pose proof (rel_reached ops trace s Hw Hnd Hrun) as [Hs _].
  split; [|apply Hs]. intros k. by apply replay_line.
Qed.

(** The writes a frame may see: those kept for good, those of the frames above it and below it. *)
Definition sees (h : History) (f : nat) (e : @Entry P V) : bool :=
  let up := λ g, hi_parent h !! g in
  match en_owner e with Some g => under up f (Some g) || under up g (Some f) | None => true end.
Definition visible (f : nat) (h : History) : History :=
  {| hi_count := hi_count h; hi_parent := hi_parent h; hi_log := List.filter (sees h f) (hi_log h);
     hi_actions := hi_actions h |}.

(** A read that returns has not seen a write that an unrelated transaction could still
    undo: its value is the last write among those kept for good and those of its own line of
    frames. *)
Theorem read_is_settled ops trace s f k v s' :
  well_nested new_state ops = true → NoDup (action_ids ops) → run_ops queueItems new_state ops = (trace, s) →
  readProjection f k s = (Ok v, s') → s' = s ∧ v = replay k (visible f (history trace)).
Proof.
  intros Hw Hnd Hrun Hread. pose proof (rel_reached ops trace s Hw Hnd Hrun) as [Hs _].
  unfold readProjection, getf in Hread. unfold mbind, js_bind in Hread.
  destruct (assertProjectionClaim_run s f k) as [(e & He & _)|[He Hm]]; rewrite He in Hread; [done|].
  injection Hread as <- <-. split; [done|]. rewrite (replay_line s _ k Hs). unfold replay. f_equal. f_equal.
  unfold may_claim in Hm. apply andb_true_iff in Hm as [Hf Hm].
  assert (∀ e, e ∈ entries_of k (history trace) → sees (history trace) f e = true) as Hsees.
  { intros e Hin. unfold sees. destruct (en_owner e) as [g|] eqn:Hg; [|done].
    destruct (key_owner_pending _ _ _ _ _ g (Some (en_value e)) (co_key _ _ Hs k)) as [w Hw'].
    { unfold line_of. apply elem_of_app. left. apply list_elem_of_fmap. exists e. by rewrite Hg. }
    apply (co_pending _ _ Hs) in Hw'. rewrite forallb_forall in Hm. specialize (Hm g).
    rewrite <- list_elem_of_In, elem_of_elements in Hm. specialize (Hm Hw'). unfold related, isAncestor in Hm. simpl.
    assert (∀ x, ancestors (λ g, hi_parent (history trace) !! g) x = ancestors (parent s) x) as Eanc.
    { intros x. apply ancestors_ext; [apply Hs|]. intros y _. symmetry. apply Hs. }
    rewrite !Eanc. by rewrite orb_comm. }
  revert Hsees. unfold entries_of, visible. simpl. generalize (sees (history trace) f). intros p.
  induction (hi_log (history trace)) as [|e l IH]; intros Hsees; [done|]. simpl. rewrite filter_cons in Hsees |- *.
  destruct (decide (en_key e = k)) as [Hk|Hk].
  - rewrite (Hsees e) by by left. rewrite filter_cons, decide_True by done. f_equal. apply IH. intros e' He'. apply Hsees. by right.
  - rewrite IH by done. destruct (p e); [by rewrite filter_cons, decide_False by done|done].
Qed.

(** From every state that calls can reach, rolling a frame back completes, closes the
    frame and every frame below it, and leaves them neither changes nor claims. *)
Theorem rollback_completes ops trace s f :
  well_nested new_state ops = true → NoDup (action_ids ops) → run_ops queueItems new_state ops = (trace, s) →
  ∃ s', rollbackFrame f s = (Ok (), s') ∧
    ∀ g, f ∈ ancestors (parent s) g → active s' g = false ∧ changes s' g = [] ∧ ∀ k, g ∉ owners s' k.
Proof.
  intros Hw Hnd Hrun. pose proof (rel_reached ops trace s Hw Hnd Hrun) as [Hs Ho].
  destruct (core_rollback s _ f Hs) as (s' & Hroll & Hs' & Hf & Hp & Ep & Eo & Ea).
  exists s'. split; [done|]. intros g Hg.
  assert (active s' g = false) as Hga.
  { destruct (active s' g) eqn:Hga; [|done]. 
    assert (active s' f = true); [|congruence]. eapply ancestors_active; [apply Hs'|exact Hga|].
    rewrite (ancestors_ext (parent s)); [done|apply Hs|]. intros x _. apply Ep. }
  split; [done|]. split.
  - destruct (changes s' g) as [|c l] eqn:Hc; [done|].
    assert (active s' g = true); [|congruence]. apply (co_changes _ _ Hs' g (ch_undo c)). unfold pend. rewrite Hc. by left.
  - intros k Hk. destruct (Eo g k Hk) as [Hk' Hact]. rewrite (Hact (Ho g k Hk')) in Hga. done.
Qed.
End claims.

(** ** Two tenant operations that overlap *)
Module Example.
Definition failure : result () := Throw (conflict_state "host").
(** Root frames 0 and 2; frame 1 runs inside frame 0 and fails; frame 3 runs inside frame 0
    and is still open. *)
Definition ops : list (@op string nat string) := [
  OpBeginTenant "t"; OpWrite 0 "a" 1; OpBeginOwned "t" 0 (Some "c"); OpWrite 1 "a" 2; OpWrite 1 "b" 3;
  OpAppend 1 ("x", "dropped"); OpBeginTenant "t"; OpWrite 2 "d" 9; OpRead 2 "a"; OpWrite 0 "a" 4;
  OpEndOwned 1 failure; OpAppend 0 ("y", "kept"); OpQueue 2 "item" false; OpEndTenant 2 (Ok ());
  OpBeginOwned "t" 0 None; OpWrite 3 "d" 10; OpWrite 3 "b" 5 ].
Definition run := run_ops (λ i, i) new_state ops.
Definition trace := run.1.
Definition last_state := run.2.

Lemma run_eq : run_ops (λ i, i) new_state ops = (trace, last_state).
Proof. unfold trace, last_state, run. by destruct (run_ops (λ i, i) new_state ops). Qed.
Lemma nested : well_nested (λ i, i) new_state ops = true.
Proof. vm_compute. reflexivity. Qed.
Lemma ids : NoDup (action_ids ops).
Proof. apply (bool_decide_unpack _). vm_compute. exact I. Qed.

(** The read of an undoable write by the other root frame fails; so does no other call but
    the end that was asked to. *)
Lemma results : map (λ c, is_ok c.2) trace =
  [true; true; true; true; true; true; true; true; false; true; false; true; true; true; true; true; true].
Proof. vm_compute. reflexivity. Qed.
Lemma values : map (λ k, projections last_state !! k) ["a"; "b"; "d"] = [Some 4; Some 5; Some 10].
Proof. vm_compute. reflexivity. Qed.
Lemma after_rollback :
  map (λ k, projections (rollbackFrame 0 last_state).2 !! k) ["a"; "b"; "d"] = [None; None; Some 9].
Proof. vm_compute. reflexivity. Qed.
Lemma read_value : (readProjection 3 "d" last_state).1 = Ok (Some 10).
Proof. vm_compute. reflexivity. Qed.
Lemma read_d : readProjection 3 "d" last_state = (Ok (Some 10), (readProjection 3 "d" last_state).2).
Proof. rewrite <- read_value. apply surjective_pairing. Qed.
End Example.

Lemma projections_replay_witness :
  projections Example.last_state !! "a" = replay "a" (history Example.trace) ∧ conflictActions Example.last_state = [("y", "kept")].
Proof.
  destruct (projections_replay (λ i, i) Example.ops Example.trace Example.last_state Example.nested Example.ids Example.run_eq) as [Hp Ha].
  split; [apply Hp|]. rewrite Ha. vm_compute. reflexivity.
Defined.

Lemma read_is_settled_witness : Some 10 = replay "d" (visible 3 (history Example.trace)).
Proof.
  apply (read_is_settled (λ i, i) Example.ops Example.trace Example.last_state 3 "d" (Some 10) _
    Example.nested Example.ids Example.run_eq Example.read_d).
Defined.

Lemma rollback_completes_witness :
  ∃ s', rollbackFrame 0 Example.last_state = (Ok (), s') ∧ active s' 3 = false.
Proof.
  destruct (rollback_completes (λ i, i) Example.ops Example.trace Example.last_state 0 Example.nested Example.ids Example.run_eq)
    as (s' & Hr & Hg).
  exists s'. split; [exact Hr|]. apply (Hg 3). apply (bool_decide_unpack _). vm_compute. exact I.
Defined.
