(* ===== verification/TenantGate.v ===== *)
(** * TenantGate: which operations of a tenant run at the same time.

    [mutateTenant] of [offline-sync/src/in-memory-offline-sync.store.ts] queues an operation
    behind promises: a shared one behind the last exclusive one, an exclusive one behind it
    and every shared one that has not ended. A call is a ticket, the number of its [gate]
    promise; [gate] settles when the operation has ended. *)
From S2P Require Import Prelude JsMap.
Local Open Scope nat_scope.

Record Ticket := {
  tk_tenantId : string;
  tk_exclusive : bool;
  tk_admitted : list nat;   (** the gates its [admitted] promise waits for *)
  tk_settled : bool }.

Record Gates := {
  tickets : list Ticket;
  tenantGate : gmap string nat;
  sharedMutations : gmap string (list nat) }.

Definition no_gates : Gates := {| tickets := []; tenantGate := ∅; sharedMutations := ∅ |}.

Definition readers_of (s : Gates) (tenant : string) : list nat := default [] (sharedMutations s !! tenant).
Definition settled (s : Gates) (t : nat) : bool := match tickets s !! t with Some k => tk_settled k | None => true end.

(** A call from outside any frame, up to its first [await]. *)
Definition enter (tenant : string) (exclusive : bool) (s : Gates) : Gates :=
  let me := length (tickets s) in
  let previous := match tenantGate s !! tenant with Some g => [g] | None => [] end in
  let readers := readers_of s tenant in
  {| tickets := tickets s ++ [{| tk_tenantId := tenant; tk_exclusive := exclusive; tk_settled := false;
       tk_admitted := if exclusive then previous ++ readers else previous |}];
     tenantGate := if exclusive then <[tenant := me]> (tenantGate s) else tenantGate s;
     sharedMutations := if exclusive then sharedMutations s else <[tenant := set_add me readers]> (sharedMutations s) |}.

(** The operation of a ticket starts once everything it waits for has settled. *)
Definition running (s : Gates) (t : nat) : bool :=
  match tickets s !! t with
  | Some k => negb (tk_settled k) && forallb (settled s) (tk_admitted k)
  | None => false
  end.

Definition settle (k : Ticket) : Ticket :=
  {| tk_tenantId := tk_tenantId k; tk_exclusive := tk_exclusive k; tk_admitted := tk_admitted k; tk_settled := true |}.

(** The operation ends and the [finally] block runs. *)
Definition leave (t : nat) (s : Gates) : Gates :=
  match tickets s !! t with
  | None => s
  | Some k =>
      let tenant := tk_tenantId k in
      let left_ := set_delete t (readers_of s tenant) in
      {| tickets := alter settle t (tickets s);
         tenantGate := if tk_exclusive k && bool_decide (tenantGate s !! tenant = Some t)
                       then delete tenant (tenantGate s) else tenantGate s;
         sharedMutations := if tk_exclusive k then sharedMutations s
                            else if bool_decide (left_ = []) then delete tenant (sharedMutations s)
                            else <[tenant := left_]> (sharedMutations s) |}
  end.

Inductive gate_step : Gates → Gates → Prop :=
| step_enter s tenant exclusive : gate_step s (enter tenant exclusive s)
| step_leave s t : running s t = true → gate_step s (leave t s).

Notation gates_reachable := (rtc gate_step no_gates).

(** ** The queue *)

Definition waits (s : Gates) (t : nat) (k : Ticket) : Prop := tickets s !! t = Some k ∧ tk_settled k = false.

Record gate_inv (s : Gates) : Prop := {
  gi_gate : ∀ tenant g, tenantGate s !! tenant = Some g →
    ∃ k, waits s g k ∧ tk_exclusive k = true ∧ tk_tenantId k = tenant;
  gi_last : ∀ t k, waits s t k → tk_exclusive k = true → ∃ g, tenantGate s !! tk_tenantId k = Some g ∧ t ≤ g;
  gi_readers : ∀ t k, waits s t k → tk_exclusive k = false → t ∈ readers_of s (tk_tenantId k);
  gi_older : ∀ t k c, tickets s !! t = Some k → c ∈ tk_admitted k →
    c < t ∧ ∃ k', tickets s !! c = Some k' ∧ tk_tenantId k' = tk_tenantId k;
  gi_reader_ok : ∀ tenant c, c ∈ readers_of s tenant → ∃ k', tickets s !! c = Some k' ∧ tk_tenantId k' = tenant;
  gi_exclusive : ∀ a b ka kb, waits s a ka → waits s b kb → a < b → tk_tenantId ka = tk_tenantId kb →
    tk_exclusive ka = true →
    ∃ g kg, g ∈ tk_admitted kb ∧ a ≤ g ∧ waits s g kg ∧ tk_exclusive kg = true ∧ tk_tenantId kg = tk_tenantId kb;
  gi_shared : ∀ a b ka kb, waits s a ka → waits s b kb → a < b → tk_tenantId ka = tk_tenantId kb →
    tk_exclusive ka = false → tk_exclusive kb = true → a ∈ tk_admitted kb }.

Lemma waits_blocks s t k c kc : tickets s !! t = Some k → waits s c kc → c ∈ tk_admitted k → running s t = false.
Proof.
  intros Ht [Hc Hs] Hin. unfold running. rewrite Ht. apply andb_false_iff. right. apply not_true_is_false.
  rewrite forallb_forall. intros Hall. apply list_elem_of_In, Hall in Hin. unfold settled in Hin. rewrite Hc in Hin. congruence.
Qed.

Lemma gate_inv_new : gate_inv no_gates.
Proof.
  assert (∀ t k, ¬ waits no_gates t k) as Hno by by intros t k [Ht _].
  split; try done; try (by intros t k Hw; apply Hno in Hw); try (by intros a b ka kb Hw; apply Hno in Hw).
  intros tenant c Hc. by apply elem_of_nil in Hc.
Qed.

Section enter.
Context (s : Gates) (tenant : string) (exclusive : bool).
Let me := length (tickets s).
Let s' := enter tenant exclusive s.

Lemma enter_ticket t k : tickets s' !! t = Some k ↔
  tickets s !! t = Some k ∨ t = me ∧ k = {| tk_tenantId := tenant; tk_exclusive := exclusive; tk_settled := false;
    tk_admitted := (match tenantGate s !! tenant with Some g => [g] | None => [] end) ++
                   (if exclusive then readers_of s tenant else []) |}.
Proof.
  unfold s', enter. simpl. destruct (decide (t < me)) as [Hlt|Hge].
  - rewrite lookup_app_l by done. split; [by left|]. intros [|[-> _]]; [done|lia].
  - rewrite lookup_app_r by (unfold me in *; lia). fold me. destruct (decide (t = me)) as [->|Hne].
    + rewrite Nat.sub_diag. simpl. rewrite (lookup_ge_None_2 (tickets s) me) by done.
      destruct exclusive; rewrite ?app_nil_r; naive_solver.
    + assert (me < t) as Hgt by lia. destruct (t - me) as [|d] eqn:Hd; [lia|]. simpl.
      rewrite (lookup_ge_None_2 (tickets s) t) by (unfold me in *; lia). naive_solver.
Qed.

Lemma enter_waits t k : waits s t k → waits s' t k.
Proof. intros [Ht Hs]. split; [|done]. apply enter_ticket. by left. Qed.

Lemma gate_inv_enter : gate_inv s → gate_inv s'.
Proof.
  intros [Hg Hl Hr Ho Hro He Hsh].
  assert (∀ t k, tickets s !! t = Some k → t < me) as Hlt by (intros t k Ht; by eapply lookup_lt_Some).
  assert (∀ x, readers_of s' x = if decide (exclusive = false ∧ x = tenant) then set_add me (readers_of s x) else readers_of s x) as Erd.
  { intros x. unfold s', enter, readers_of. simpl. destruct exclusive; [by rewrite decide_False by naive_solver|].
    destruct (decide (x = tenant)) as [->|Hne]; [by rewrite lookup_insert_eq, decide_True by done|].
    rewrite lookup_insert_ne by done. by rewrite decide_False by naive_solver. }
  assert (∀ x, tenantGate s' !! x = if decide (exclusive = true ∧ x = tenant) then Some me else tenantGate s !! x) as Egt.
  { intros x. unfold s', enter. simpl. destruct exclusive; [|by rewrite decide_False by naive_solver].
    destruct (decide (x = tenant)) as [->|Hne]; [by rewrite lookup_insert_eq, decide_True by done|].
    rewrite lookup_insert_ne by done. by rewrite decide_False by naive_solver. }
  assert (∀ t k, waits s' t k → waits s t k ∨ t = me ∧ tk_tenantId k = tenant ∧ tk_exclusive k = exclusive ∧
     tk_admitted k = (match tenantGate s !! tenant with Some g => [g] | None => [] end) ++
                     (if exclusive then readers_of s tenant else [])) as Hw.
  { intros t k [[Ht|[-> ->]]%enter_ticket Hk]; [by left|by right]. }
  split.
  - intros x g. rewrite Egt. destruct (decide (exclusive = true ∧ x = tenant)) as [Hx|Hx].
    + intros Hge. injection Hge as Hge. rewrite <- Hge. destruct Hx as [Hex ->]. eexists. split; [split; [apply enter_ticket; by right|done]|]. done.
    + intros (k & Hk & ?)%Hg. exists k. split; [by apply enter_waits|done].
  - intros t k [Ht|(-> & <- & Hex & _)]%Hw Hk.
    + destruct (Hl t k Ht Hk) as (g & Hgt & Hle). rewrite Egt. destruct (decide (exclusive = true ∧ tk_tenantId k = tenant)); [|eauto]. exists me. split; [done|].
      destruct Ht as [Ht _]. specialize (Hlt _ _ Ht). lia.
    + exists me. split; [|done]. rewrite Egt, decide_True; [done|]. split; [congruence|done].
  - intros t k [Ht|(-> & <- & Hex & _)]%Hw Hk; rewrite Erd.
    + destruct (decide (exclusive = false ∧ tk_tenantId k = tenant)); [apply elem_of_set_add; right|]; eauto.
    + rewrite decide_True by (split; [congruence|done]). apply elem_of_set_add. by left.
  - intros t k c [Ht|[-> ->]]%enter_ticket Hc; simpl in *.
    + destruct (Ho _ _ _ Ht Hc) as [? (k' & Hk' & ?)]. split; [done|]. exists k'. split; [apply enter_ticket; by left|done].
    + assert (∃ k', tickets s !! c = Some k' ∧ tk_tenantId k' = tenant) as (k' & Hk' & Htn).
      { apply elem_of_app in Hc as [Hc|Hc].
        - destruct (tenantGate s !! tenant) as [g|] eqn:Hgt; [|by apply elem_of_nil in Hc].
          apply list_elem_of_singleton in Hc as ->. destruct (Hg _ _ Hgt) as (k' & [Hk' _] & _ & Htn). eauto.
        - destruct exclusive; [by apply Hro|by apply elem_of_nil in Hc]. }
      split; [by eapply Hlt|]. exists k'. split; [apply enter_ticket; by left|done].
  - intros x c. rewrite Erd. destruct (decide (exclusive = false ∧ x = tenant)) as [Hx|Hx].
    + intros [->|Hc]%elem_of_set_add.
      * destruct Hx as [_ ->]. eexists. split; [apply enter_ticket; by right|done].
      * destruct (Hro _ _ Hc) as (k' & Hk' & ?). exists k'. split; [apply enter_ticket; by left|done].
    + intros (k' & Hk' & ?)%Hro. exists k'. split; [apply enter_ticket; by left|done].
  - intros a b ka kb [Ha|(-> & _)]%Hw [Hb|(-> & Htb & Hxb & Hab)]%Hw Hlab Htn Hxa.
    + destruct (He a b ka kb Ha Hb Hlab Htn Hxa) as (g & kg & ? & ? & ? & ?). exists g, kg. split_and!; try done; [by apply enter_waits|..]; naive_solver.
    + destruct (Hl a ka Ha Hxa) as (g & Hgt & Hle). rewrite Htn, Htb in Hgt.
      destruct (Hg _ _ Hgt) as (kg & Hwg & Hxg & Htg). exists g, kg. rewrite Hab, Hgt.
      split; [by left|]. split; [done|]. split; [by apply enter_waits|]. split; [done|congruence].
    + destruct Hb as [Hb _]. specialize (Hlt _ _ Hb). lia.
    + lia.
  - intros a b ka kb [Ha|(-> & _)]%Hw [Hb|(-> & Htb & Hxb & Hab)]%Hw Hlab Htn Hxa Hxkb.
    + eauto.
    + rewrite Hab. rewrite Hxb in Hxkb. rewrite Hxkb. apply elem_of_app. right. rewrite <- Htb, <- Htn. eauto.
    + destruct Hb as [Hb _]. specialize (Hlt _ _ Hb). lia.
    + lia.
Qed.
End enter.

Section leave.
Context (s : Gates) (t : nat) (k : Ticket) (Ht : tickets s !! t = Some k).
Let s' := leave t s.

Lemma leave_ticket x kx : tickets s' !! x = Some kx ↔
  x ≠ t ∧ tickets s !! x = Some kx ∨ x = t ∧ kx = settle k.
Proof using Ht.
  unfold s', leave. rewrite Ht. simpl. destruct (decide (x = t)) as [->|Hne].
  - rewrite list_lookup_alter_eq, Ht. simpl. naive_solver.
  - rewrite list_lookup_alter_ne by done. naive_solver.
Qed.
Lemma leave_waits x kx : waits s' x kx ↔ x ≠ t ∧ waits s x kx.
Proof using Ht. unfold waits. rewrite leave_ticket. naive_solver. Qed.
Lemma leave_known x kx : tickets s !! x = Some kx → ∃ kx', tickets s' !! x = Some kx' ∧ tk_tenantId kx' = tk_tenantId kx.
Proof using Ht.
  intros Hx. destruct (decide (x = t)) as [->|Hne].
  - exists (settle k). split; [apply leave_ticket; by right|]. by simplify_eq.
  - exists kx. split; [apply leave_ticket; by left|done].
Qed.

Lemma gate_inv_leave : gate_inv s → running s t = true → gate_inv s'.
Proof using Ht.
  intros [Hg Hl Hr Ho Hro He Hsh] Hrun.
  assert (waits s t k) as Hwt by (split; [done|]; unfold running in Hrun; rewrite Ht in Hrun; by destruct (tk_settled k)).
  (** What was waited for by a running ticket has settled. *)
  assert (∀ c kc, waits s c kc → c ∉ tk_admitted k) as Hfree.
  { intros c kc Hc Hin. by rewrite (waits_blocks s t k c kc Ht Hc Hin) in Hrun. }
  assert (∀ a ka, waits s a ka → a < t → tk_tenantId ka = tk_tenantId k → tk_exclusive ka = false) as Hshared.
  { intros a ka Ha Hlt Htn. apply not_true_is_false. intros Hx. destruct (He a t ka k Ha Hwt Hlt Htn Hx) as (g & kg & Hin & _ & Hwg & _).
    by eapply Hfree. }
  assert (∀ x, tenantGate s' !! x = if decide (tk_exclusive k = true ∧ tenantGate s !! tk_tenantId k = Some t ∧ x = tk_tenantId k)
     then None else tenantGate s !! x) as Egt.
  { intros x. unfold s', leave. rewrite Ht. simpl. destruct (tk_exclusive k); cbn [andb]; [|by rewrite decide_False by naive_solver].
    case_bool_decide as Hgt; [|by rewrite decide_False by naive_solver].
    destruct (decide (x = tk_tenantId k)) as [->|Hne]; [by rewrite lookup_delete_eq, decide_True by done|].
    rewrite lookup_delete_ne by done. by rewrite decide_False by naive_solver. }
  assert (∀ x, readers_of s' x = if decide (tk_exclusive k = false ∧ x = tk_tenantId k) then set_delete t (readers_of s x) else readers_of s x) as Erd.
  { intros x. unfold s', leave, readers_of at 1. rewrite Ht. simpl. destruct (tk_exclusive k); [by rewrite decide_False by naive_solver|].
    destruct (decide (x = tk_tenantId k)) as [->|Hne].
    - rewrite decide_True by done. case_bool_decide as Hemp; [by rewrite lookup_delete_eq|by rewrite lookup_insert_eq].
    - rewrite decide_False by naive_solver. case_bool_decide; [by rewrite lookup_delete_ne|by rewrite lookup_insert_ne]. }
  split.
  - intros x g. rewrite Egt. destruct (decide (tk_exclusive k = true ∧ tenantGate s !! tk_tenantId k = Some t ∧ x = tk_tenantId k)) as [Hx|Hx]; [done|]. intros Hgt. destruct (Hg _ _ Hgt) as (kg & Hwg & Hxg & Htg).
    exists kg. split; [|done]. apply leave_waits. split; [|done]. intros ->. destruct Hwg as [Hwg _]. simplify_eq. naive_solver.
  - intros x kx [Hne Hx]%leave_waits Hxx. destruct (Hl x kx Hx Hxx) as (g & Hgt & Hle). rewrite Egt.
    destruct (decide (tk_exclusive k = true ∧ tenantGate s !! tk_tenantId k = Some t ∧ tk_tenantId kx = tk_tenantId k)) as [Hd|]; [|eauto].
    destruct Hd as (Hxk & Hgk & Htn). exfalso. rewrite Htn, Hgk in Hgt. simplify_eq.
    rewrite (Hshared x kx Hx) in Hxx; [done|lia|done].
  - intros x kx [Hne Hx]%leave_waits Hxx. rewrite Erd.
    destruct (decide (tk_exclusive k = false ∧ tk_tenantId kx = tk_tenantId k)); [apply elem_of_set_delete; split; [done|]|]; eauto.
  - intros x kx c Hx Hc. assert (∃ kx', tickets s !! x = Some kx' ∧ tk_admitted kx' = tk_admitted kx ∧ tk_tenantId kx' = tk_tenantId kx)
      as (kx' & Hx' & Ead & Etn) by (apply leave_ticket in Hx as [[_ Hx]|[-> ->]]; eauto).
    rewrite <- Ead in Hc. destruct (Ho _ _ _ Hx' Hc) as [? (kc & Hkc & Htc)]. split; [done|].
    destruct (leave_known _ _ Hkc) as (kc' & ? & ?). exists kc'. split; [done|congruence].
  - intros x c Hc. assert (c ∈ readers_of s x) as (kc & Hkc & Htc)%Hro.
    { rewrite Erd in Hc. destruct (decide (tk_exclusive k = false ∧ x = tk_tenantId k)); [by apply elem_of_set_delete in Hc as []|done]. }
    destruct (leave_known _ _ Hkc) as (kc' & ? & ?). exists kc'. split; [done|congruence].
  - intros a b ka kb [Hna Ha]%leave_waits [Hnb Hb]%leave_waits Hlt Htn Hxa.
    destruct (He a b ka kb Ha Hb Hlt Htn Hxa) as (g & kg & Hin & Hle & Hwg & Hxg & Htg). exists g, kg. split_and!; try done;
      apply leave_waits; (split; [|done]); intros ->; destruct Hwg as [Hwg Hwg']; simplify_eq.
    all: assert (a < t) as Hat by lia; rewrite (Hshared a ka Ha Hat) in Hxa; [done|congruence].
  - intros a b ka kb [Hna Ha]%leave_waits [Hnb Hb]%leave_waits. apply Hsh; done.
Qed.
End leave.

Lemma gate_inv_reachable last : gates_reachable last → gate_inv last.
Proof.
  apply (rtc_ind_r gate_inv no_gates); [apply gate_inv_new|]. intros s1 s2 _ [s tenant exclusive|s t Hrun] Hs.
  - by apply gate_inv_enter.
  - pose proof Hrun as Hrun'. unfold running in Hrun'. destruct (tickets s !! t) as [k|] eqn:Ht; [|done]. by eapply gate_inv_leave.
Qed.

(** While an exclusive operation of a tenant runs, no other operation of the tenant does. *)
Theorem exclusive_runs_alone s a b ka kb :
  gates_reachable s → running s a = true → running s b = true →
  tickets s !! a = Some ka → tickets s !! b = Some kb → tk_tenantId ka = tk_tenantId kb → tk_exclusive ka = true → a = b.
Proof.
  intros Hs%gate_inv_reachable Ha Hb Hka Hkb Htn Hx.
  assert (∀ t k, running s t = true → tickets s !! t = Some k → waits s t k) as Hw.
  { intros t k Ht Hk. split; [done|]. unfold running in Ht. rewrite Hk in Ht. by destruct (tk_settled k). }
  destruct (lt_eq_lt_dec a b) as [[Hlt|]|Hlt]; [|done|]; exfalso.
  - destruct (gi_exclusive s Hs a b ka kb) as (g & kg & Hin & _ & Hwg & _); auto.
    by rewrite (waits_blocks s b kb g kg Hkb Hwg Hin) in Hb.
  - destruct (tk_exclusive kb) eqn:Hxb.
    + destruct (gi_exclusive s Hs b a kb ka) as (g & kg & Hin & _ & Hwg & _); auto.
      by rewrite (waits_blocks s a ka g kg Hka Hwg Hin) in Ha.
    + pose proof (gi_shared s Hs b a kb ka (Hw _ _ Hb Hkb) (Hw _ _ Ha Hka) Hlt ltac:(done) Hxb Hx) as Hin.
      by rewrite (waits_blocks s a ka b kb Hka (Hw _ _ Hb Hkb) Hin) in Ha.
Qed.

(** The queue of a tenant never blocks: as long as an operation has not ended, one of the
    tenant's operations that arrived no later is running. *)
Theorem gate_progresses s t k :
  gates_reachable s → tickets s !! t = Some k → tk_settled k = false →
  ∃ r kr, r ≤ t ∧ tickets s !! r = Some kr ∧ tk_tenantId kr = tk_tenantId k ∧ running s r = true.
Proof.
  intros Hs%gate_inv_reachable. revert k. induction t as [t IH] using lt_wf_ind. intros k Ht Hk.
  destruct (running s t) eqn:Hrun; [by exists t, k|]. unfold running in Hrun. rewrite Ht, Hk in Hrun. simpl in Hrun.
  assert (∃ c, c ∈ tk_admitted k ∧ settled s c = false) as (c & Hc & Hcs).
  { revert Hrun. clear. induction (tk_admitted k) as [|c l IHl]; [done|]. simpl. intros [Hc|Hl]%andb_false_iff.
    - exists c. split; [by left|done].
    - destruct (IHl Hl) as (c' & ? & ?). exists c'. split; [by right|done]. }
  destruct (gi_older s Hs t k c Ht Hc) as [Hlt (kc & Hkc & Htn)].
  unfold settled in Hcs. rewrite Hkc in Hcs. destruct (IH c Hlt kc Hkc Hcs) as (r & kr & ? & ? & ? & ?).
  exists r, kr. split_and!; [lia|done|congruence|done].
Qed.

(** ** Two shared operations around an exclusive one *)
Module Example.
Definition run : Gates :=
  enter "t" false (leave 1 (leave 0 (enter "t" true (enter "t" true (enter "t" false no_gates))))).

Lemma run_reached : gates_reachable run.
Proof.
  unfold run. repeat (eapply rtc_r; [|first [apply step_enter|by apply step_leave]]). apply rtc_refl.
Qed.
(** Ticket 2, exclusive, runs; ticket 3, shared, waits for it. *)
Lemma now_running : map (running run) [0; 1; 2; 3] = [false; false; true; false].
Proof. reflexivity. Qed.
End Example.

Lemma exclusive_runs_alone_witness : running Example.run 2 = true ∧ ∀ b kb,
  running Example.run b = true → tickets Example.run !! b = Some kb → tk_tenantId kb = "t" → b = 2.
Proof.
  split; [reflexivity|]. intros b kb Hb Hkb Ht. symmetry.
  apply (exclusive_runs_alone Example.run 2 b _ kb Example.run_reached eq_refl Hb eq_refl Hkb); [by rewrite Ht|reflexivity].
Defined.

Lemma gate_progresses_witness : ∃ r kr, r ≤ 3 ∧ tickets Example.run !! r = Some kr ∧ tk_tenantId kr = "t" ∧ running Example.run r = true.
Proof. apply (gate_progresses Example.run 3 _ Example.run_reached eq_refl eq_refl). Defined.
