(* ===== verification/SyncTypes.v ===== *)
(** * SyncTypes: the data of sync batches, receipts and conflicts.

    The batch half of [offline-sync/src/types.ts]. [Host] is whatever a port of the host
    throws that is not an error class of the package. *)
From S2P Require Import Prelude JsMap JsText JsDate JsJson OfflineTypes Listing JsCursor RangeAdmin Numbering.
From Stdlib Require Import Ascii.
Local Open Scope Z_scope.

(** ** Errors *)

(** What [domainErrorContext] finds under [context] of an error or its response: nothing, an
    accessor, or a value. *)
Inductive HostContext := context_absent | context_accessor | context_value (j : json).

(** [hf_httpStatus] is [getStatus()] of an [HttpException]; [hf_code] the own data property
    [code] when it is a string. *)
Record HostFailure := {
  hf_httpStatus : option Z;
  hf_code : option string;
  hf_message : string;
  hf_context : HostContext }.

Inductive SyncError :=
| Own (e : OfflineError)
| BodyReuse   (** [UnprocessableEntityException('IDEMPOTENT_KEY_REUSE_DIFFERENT_BODY')] *)
| Host (f : HostFailure).

(** [getStatus()], for the errors that are [HttpException]s. *)
Definition http_status (e : SyncError) : option Z :=
  match e with
  | Own (OfflineSyncError _ status _) => Some status
  | Own (OfflineSyncRangeUnavailableError _ _) | Own OfflineSyncReservationReplayError
  | Own (OfflineSyncNumberingOutcome _ _ _) => Some 409
  | Own (OfflineSyncConfigurationError _) | Own RangeError | Own TypeError => None
  | BodyReuse => Some 422
  | Host f => hf_httpStatus f
  end.

Definition code_text (c : ErrorCode) : string :=
  match c with
  | UNAUTHENTICATED => "OFFLINE_SYNC_UNAUTHENTICATED" | FORBIDDEN => "OFFLINE_SYNC_FORBIDDEN"
  | CONTEXT_OVERRIDE => "OFFLINE_SYNC_CONTEXT_OVERRIDE" | INVALID_INPUT => "OFFLINE_SYNC_INVALID_INPUT"
  | RANGE_IDEMPOTENCY_CONFLICT => "OFFLINE_SYNC_RANGE_IDEMPOTENCY_CONFLICT"
  | RANGE_CONFLICT => "OFFLINE_SYNC_RANGE_CONFLICT" | RANGE_STATE => "OFFLINE_SYNC_RANGE_STATE"
  | RANGE_NOT_FOUND => "OFFLINE_SYNC_RANGE_NOT_FOUND" | RANGE_UNAVAILABLE => "OFFLINE_SYNC_RANGE_UNAVAILABLE"
  | RESERVATION_NOT_FOUND => "OFFLINE_SYNC_RESERVATION_NOT_FOUND"
  | RECONCILIATION_IDEMPOTENCY_CONFLICT => "OFFLINE_SYNC_RECONCILIATION_IDEMPOTENCY_CONFLICT"
  | RESERVATION_STATE => "OFFLINE_SYNC_RESERVATION_STATE" | ACTIVE_RESERVATION => "OFFLINE_SYNC_ACTIVE_RESERVATION"
  | NUMBERING_NO_COVERAGE => "OFFLINE_SYNC_NUMBERING_NO_COVERAGE" | NUMBERING_AMBIGUOUS => "OFFLINE_SYNC_NUMBERING_AMBIGUOUS"
  | NUMBERING_EXPIRED => "OFFLINE_SYNC_NUMBERING_EXPIRED"
  | NUMBERING_ALREADY_APPLIED => "OFFLINE_SYNC_NUMBERING_ALREADY_APPLIED"
  | QUEUE_ITEM_NOT_FOUND => "OFFLINE_SYNC_QUEUE_ITEM_NOT_FOUND" | QUEUE_ID_REUSED => "OFFLINE_SYNC_QUEUE_ID_REUSED"
  | CONFLICT_NOT_FOUND => "OFFLINE_SYNC_CONFLICT_NOT_FOUND" | CONFLICT_STATE => "OFFLINE_SYNC_CONFLICT_STATE"
  | CONFLICT_RESOLUTION => "OFFLINE_SYNC_CONFLICT_RESOLUTION" | BATCH_CONFLICT => "OFFLINE_SYNC_BATCH_CONFLICT"
  | BATCH_SEQUENCE => "OFFLINE_SYNC_BATCH_SEQUENCE" | ITEM_INTEGRITY => "OFFLINE_SYNC_ITEM_INTEGRITY"
  | INTEGRITY_REJECTION_NOT_FOUND => "OFFLINE_SYNC_INTEGRITY_REJECTION_NOT_FOUND"
  | BATCH_IN_PROGRESS => "OFFLINE_SYNC:BATCH:in-progress"
  end.

(** [error.code] *)
Definition error_code (e : SyncError) : option string :=
  match e with
  | Own (OfflineSyncError c _ _) | Own (OfflineSyncNumberingOutcome c _ _) => Some (code_text c)
  | Own (OfflineSyncConfigurationError _) => Some "OFFLINE_SYNC_CONFIGURATION_ERROR"
  | Own (OfflineSyncRangeUnavailableError _ _) => Some (code_text RANGE_UNAVAILABLE)
  | Own OfflineSyncReservationReplayError => Some "OFFLINE_SYNC_RESERVATION_IDEMPOTENCY_CONFLICT"
  | Own RangeError | Own TypeError | BodyReuse => None
  | Host f => hf_code f
  end.

(** ** Items *)

Inductive QueueStatus := qs_received | qs_applied | qs_conflict | qs_rejected | qs_pending.
#[export] Instance QueueStatus_eq_dec : EqDecision QueueStatus.
Proof. solve_decision. Defined.

Definition queue_status_text (s : QueueStatus) : string :=
  match s with
  | qs_received => "received" | qs_applied => "applied" | qs_conflict => "conflict"
  | qs_rejected => "rejected" | qs_pending => "pending"
  end.

(** [CTG9SyncBatchItemInput]; a [SyncBatchItemInput] always has its key and no reservation. *)
Record SyncBatchItemInput := {
  bi_queueItemId : string;
  bi_entityType : string;
  bi_localEntityId : string;
  bi_idempotencyKey : option string;
  bi_payloadHash : string;
  bi_payloadJson : json;
  bi_createdLocallyAt : string;
  bi_reservedNumber : option Z;
  bi_reservationId : option string }.

(** [CTG9SubmitSyncBatchInput] *)
Record SubmitSyncBatchInput := {
  sb_orgUnitId : string;
  sb_deviceId : string;
  sb_deviceBatchId : string;
  sb_items : list SyncBatchItemInput;
  sb_agentId : option string;
  sb_batchSequence : option Z }.

Record ConcurrentPair := { firstItemId : string; secondItemId : string }.
#[export] Instance ConcurrentPair_eq_dec : EqDecision ConcurrentPair.
Proof. solve_decision. Defined.

(** [Record<string, unknown>]: own properties by name. *)
Notation Ctx := (jsmap string json).
(** [{ ...a, ...b }] *)
Definition spread (a b : Ctx) : Ctx := foldl (λ m p, jm_set p.1 p.2 m) a b.

(** [OfflineSyncStynxContext]; [version] is 1 and a [signals] member is the one signal. *)
Record Stynx := {
  sx_receiptId : option string;
  sx_appliedAt : option string;
  sx_serverEntityId : option string;
  sx_errorCode : option string;
  sx_errorMessage : option string;
  sx_attempts : option Z;
  sx_reasonCode : option string;
  sx_receivedPayloadHash : option string;
  sx_storedPayloadHash : option string;
  sx_relatedQueueItemId : option string;
  sx_retryable : option bool;
  sx_terminalReceived : bool;
  sx_consumerAttributes : option json;
  sx_concurrencySuspected : option bool;
  sx_concurrentPairs : option (list ConcurrentPair);
  sx_signals : bool }.

(** [{ version: 1 }] *)
Definition version1 : Stynx :=
  {| sx_receiptId := None; sx_appliedAt := None; sx_serverEntityId := None; sx_errorCode := None;
     sx_errorMessage := None; sx_attempts := None; sx_reasonCode := None; sx_receivedPayloadHash := None;
     sx_storedPayloadHash := None; sx_relatedQueueItemId := None; sx_retryable := None;
     sx_terminalReceived := false; sx_consumerAttributes := None; sx_concurrencySuspected := None;
     sx_concurrentPairs := None; sx_signals := false |}.

Definition over {X} (a b : option X) : option X := match b with Some _ => b | None => a end.
(** [{ ...a, ...b }] of two platform contexts. *)
Definition merge (a b : Stynx) : Stynx :=
  {| sx_receiptId := over (sx_receiptId a) (sx_receiptId b); sx_appliedAt := over (sx_appliedAt a) (sx_appliedAt b);
     sx_serverEntityId := over (sx_serverEntityId a) (sx_serverEntityId b);
     sx_errorCode := over (sx_errorCode a) (sx_errorCode b); sx_errorMessage := over (sx_errorMessage a) (sx_errorMessage b);
     sx_attempts := over (sx_attempts a) (sx_attempts b); sx_reasonCode := over (sx_reasonCode a) (sx_reasonCode b);
     sx_receivedPayloadHash := over (sx_receivedPayloadHash a) (sx_receivedPayloadHash b);
     sx_storedPayloadHash := over (sx_storedPayloadHash a) (sx_storedPayloadHash b);
     sx_relatedQueueItemId := over (sx_relatedQueueItemId a) (sx_relatedQueueItemId b);
     sx_retryable := over (sx_retryable a) (sx_retryable b);
     sx_terminalReceived := sx_terminalReceived a || sx_terminalReceived b;
     sx_consumerAttributes := over (sx_consumerAttributes a) (sx_consumerAttributes b);
     sx_concurrencySuspected := over (sx_concurrencySuspected a) (sx_concurrencySuspected b);
     sx_concurrentPairs := over (sx_concurrentPairs a) (sx_concurrentPairs b);
     sx_signals := sx_signals a || sx_signals b |}.

(** An item as stored and as returned: the input with what the store adds. The optional
    members are those of the items of a durable result. *)
Record StoredSyncQueueItem := {
  si_input : SyncBatchItemInput;
  si_tenantId : string;
  si_agentId : string;
  si_orgUnitId : string;
  si_deviceId : string;
  si_status : QueueStatus;
  si_receivedAt : string;
  si_errorCode : option string;
  si_context : option Ctx;
  si_stynx : option Stynx }.

Definition si_queueItemId (i : StoredSyncQueueItem) : string := bi_queueItemId (si_input i).
Definition si_payloadHash (i : StoredSyncQueueItem) : string := bi_payloadHash (si_input i).

Record SyncItemReceipt := {
  ir_queueItemId : string;
  ir_status : QueueStatus;
  ir_errorCode : option string;
  ir_context : option Ctx;
  ir_stynx : option Stynx }.

(** The entries of [itemReceipts] and [e6Items]. *)
Record ReceiptEntry := {
  re_hash : string;
  re_batchKey : string;
  re_receipt : SyncItemReceipt;
  re_item : StoredSyncQueueItem;
  re_deviceBatchId : string;
  re_receivedAt : string }.
Record E6Entry := { e6_item : StoredSyncQueueItem; e6_batchKey : string; e6_deviceBatchId : string }.

Inductive BatchStatus := batch_open | batch_closed | legacy_closed_unverified.
#[export] Instance BatchStatus_eq_dec : EqDecision BatchStatus.
Proof. solve_decision. Defined.

(** [responseBodyBytes] are the bytes of a text. *)
Record SyncBatchReceipt := {
  br_deviceId : string;
  br_deviceBatchId : string;
  br_batchSequence : option Z;
  br_status : BatchStatus;
  br_items : list SyncItemReceipt;
  br_responseStatus : option Z;
  br_responseBodyBytes : option string;
  br_responseHeaders : list (string * string) }.

Record SubmitSyncBatchResult := {
  sr_batchId : string;
  sr_acceptedItems : Z;
  sr_duplicateItems : Z;
  sr_conflicts : list string;
  sr_items : list StoredSyncQueueItem;
  sr_receipt : SyncBatchReceipt }.

(** What [submitSyncBatch] of the E6 mode returns: a result without receipt. *)
Record E6Result := {
  er_batchId : string;
  er_acceptedItems : Z;
  er_duplicateItems : Z;
  er_conflicts : list string;
  er_items : list StoredSyncQueueItem }.

(** ** Conflicts *)

Inductive ConflictStatus := conflict_open | conflict_resolved.
#[export] Instance ConflictStatus_eq_dec : EqDecision ConflictStatus.
Proof. solve_decision. Defined.

Record SyncConflict := {
  cf_conflictId : string;
  cf_tenantId : string;
  cf_queueItemId : string;
  cf_localEntityId : string;
  cf_payloadHash : string;
  cf_conflictType : string;
  cf_description : string;
  cf_status : ConflictStatus;
  cf_resolution : option string;
  cf_resolvedBy : option string;
  cf_resolvedAt : option string;
  cf_stynx : option Stynx }.

Record OpenSyncConflictInput := { oi_conflictType : string; oi_description : string }.
Record ResolveSyncConflictInput := {
  ri_resolution : string; ri_description : option string; ri_userRef : option string }.

Record SyncConflictActionRecord := {
  ar_actionId : string;
  ar_tenantId : string;
  ar_conflictId : string;
  ar_action : string;
  ar_reason : option string;
  ar_userRef : option string;
  ar_actorId : string;
  ar_resultingStatus : ConflictStatus;
  ar_createdAt : string }.

Record SyncIntegrityRejection := {
  rj_tenantId : string;
  rj_deviceId : string;
  rj_deviceBatchId : string;
  rj_queueItemId : string;
  rj_idempotencyKey : string;
  rj_receivedPayloadHash : string;
  rj_storedPayloadHash : option string;
  rj_originalQueueItemId : option string;
  rj_rejectedAt : string }.

(** ** Ports *)

(** [OfflineSyncItemContext] *)
Record ItemContext := {
  ic_scope : Scope;
  ic_agentId : string;
  ic_orgUnitId : string;
  ic_deviceId : string;
  ic_batchId : string;
  ic_now : string;
  ic_receiptId : option string;
  ic_concurrencySuspected : option bool;
  ic_concurrentPairs : option (list ConcurrentPair) }.

Record ConcurrencyResult := { cn_suspected : bool; cn_pairs : list ConcurrentPair }.
Record ApplyResult := { ap_serverEntityId : string; ap_consumerAttributes : option json }.
Record OfflineSyncEvent := {
  ev_entity : string; ev_entityId : string; ev_idempotencyKey : string; ev_payload : json }.
Record LegacyIdentity := {
  li_tenantId : string; li_deviceId : string; li_deviceBatchId : string;
  li_queueItemId : string; li_localEntityId : string; li_entityType : string }.
(** [OfflineSyncConflictResolution]: the members of the conflict the resolver returns that
    the stored conflict does not replace; the status is any string. *)
Record ConflictResolution := {
  rs_status : string; rs_consumerAttributes : option json; rs_stynx : option Stynx }.

(** What a classifier can answer: nothing, an exception, a value that is not closed data, or
    a status with a conflict ([None]: absent; [Some None]: not closed data with texts). *)
Record DomainFailure := { df_code : string; df_httpStatus : option Z; df_context : option Ctx }.
Inductive ClassifierReply :=
| cl_undefined
| cl_throws
| cl_opaque
| cl_outcome (status : string) (conflict : option (option (string * string))).

Notation Answer := (outcome SyncError).

(** The [n]-th call of any port is answered by the [n]-th reply. *)
Record Ports := {
  initialPending : bool;   (** [initialQueueStatus === 'pending'] *)
  policyResolver : bool;
  legacyItemIdentityResolver : option (nat → LegacyIdentity → Answer string);
  payloadHashPort : option (nat → SyncBatchItemInput → ItemContext → Answer string);
  preApplyDetector : option (nat → SyncBatchItemInput → ItemContext → Answer ConcurrencyResult);
  concurrencyDetector : option (nat → SyncBatchItemInput → ItemContext → Answer ConcurrencyResult);
  handoffPort : option (nat → ConcurrentPair → ItemContext → Answer bool);
  itemApplier : option (nat → SyncBatchItemInput → ItemContext → Answer ApplyResult);
  eventPort : option (nat → OfflineSyncEvent → Answer ());
  allowedActionsPort : option (nat → string → ItemContext → Answer (list string));
  domainOutcomeClassifier : option (DomainFailure → SyncBatchItemInput → ItemContext → ClassifierReply);
  replayKeyHeaderName : option string;
  replayMarkerHeaderName : option string }.

(** [OfflineSyncConflictResolver] *)
Record ConflictResolver := {
  resolve : nat → string → string → ItemContext → Answer ConflictResolution;
  resolverActions : option (nat → string → ItemContext → Answer (list string)) }.

(** [concurrencyApplication] is any string: the code checks it. *)
Record OfflineSyncPolicy := {
  concurrencyWindowMinutes : option Z; concurrencyApplication : option string }.

(** [SubmitSyncBatchOptions]; [to_headers] is [response.getHeaders()], a header whose value is
    not a string is [None], and no response is [None]. *)
Record TransportOptions := {
  to_transportIdempotencyKey : string;
  to_method : string;
  to_path : string;
  to_transportUserId : option (option string);   (** absent, [null] or a string *)
  to_requestBody : option json;
  to_headers : option (list (string * option string)) }.

Record Runtime := {
  rt_agentId : string; rt_policy : OfflineSyncPolicy; rt_ports : Ports; rt_transport : TransportOptions }.

(** ** [stynx-context.ts] *)

(** [executionStynxContext]: the fields with the signal of a missing window. *)
Definition executionStynxContext (r : Runtime) (fields : Stynx) : Stynx :=
  let pending := policyResolver (rt_ports r)
                 && bool_decide (is_Some (concurrencyDetector (rt_ports r)))
                 && bool_decide (concurrencyWindowMinutes (rt_policy r) = None) in
  {| sx_receiptId := sx_receiptId fields; sx_appliedAt := sx_appliedAt fields; sx_serverEntityId := sx_serverEntityId fields;
     sx_errorCode := sx_errorCode fields; sx_errorMessage := sx_errorMessage fields; sx_attempts := sx_attempts fields;
     sx_reasonCode := sx_reasonCode fields; sx_receivedPayloadHash := sx_receivedPayloadHash fields;
     sx_storedPayloadHash := sx_storedPayloadHash fields; sx_relatedQueueItemId := sx_relatedQueueItemId fields;
     sx_retryable := sx_retryable fields; sx_terminalReceived := sx_terminalReceived fields;
     sx_consumerAttributes := sx_consumerAttributes fields; sx_concurrencySuspected := sx_concurrencySuspected fields;
     sx_concurrentPairs := sx_concurrentPairs fields; sx_signals := sx_signals fields || pending |}.

(** [withoutResolution] *)
Definition withoutResolution (c : SyncConflict) : SyncConflict :=
  {| cf_conflictId := cf_conflictId c; cf_tenantId := cf_tenantId c; cf_queueItemId := cf_queueItemId c;
     cf_localEntityId := cf_localEntityId c; cf_payloadHash := cf_payloadHash c; cf_conflictType := cf_conflictType c;
     cf_description := cf_description c; cf_status := conflict_open; cf_resolution := None; cf_resolvedBy := None;
     cf_resolvedAt := None; cf_stynx := None |}.

(** ** [domain-error-context.ts] *)

Definition own_context (e : SyncError) : HostContext :=
  match e with
  | Own (OfflineSyncNumberingOutcome _ number reservationId) =>
      context_value (JObject [("number", integer number); ("reservationId", nullable reservationId)])
  | Own (OfflineSyncError _ _ _) | Own (OfflineSyncRangeUnavailableError _ _) => context_value JUndefined
  | Own _ | BodyReuse => context_absent
  | Host f => hf_context f
  end.

(** [valid] and the bounded [context] of an error. *)
Definition domainErrorContext (e : SyncError) : bool * option Ctx :=
  match own_context e with
  | context_absent | context_value JUndefined => (true, None)
  | context_value (JObject props as j) =>
      if bool_decide ("stynx" ∈ props.*1) then (false, None) else
      match canonicalOfflineSyncPayload j with
      | None => (false, None)
      | Some _ =>
          if 4096 <? byteLength (default EmptyString (encode j)) then (false, None)
          else match json_clone j with JObject l => (true, Some l) | _ => (false, None) end
      end
  | context_accessor | context_value _ => (false, None)
  end.

(** ** [domain-outcome.ts] *)

Definition domainFailureCode (e : SyncError) : option string :=
  match error_code e with
  | Some code => if blank code || (255 <? byteLength code) then None else Some code
  | None => None
  end.

(** [OfflineSyncError], its subclasses and [OfflineSyncConfigurationError]. *)
Definition is_package_error (e : SyncError) : bool :=
  match e with
  | Own (OfflineSyncError _ _ _) | Own (OfflineSyncRangeUnavailableError _ _)
  | Own (OfflineSyncNumberingOutcome _ _ _) | Own (OfflineSyncConfigurationError _) => true
  | _ => false
  end.

Record DomainOutcome := { do_status : QueueStatus; do_conflict : option (string * string) }.
Record Classification := { cs_valid : bool; cs_outcome : option DomainOutcome; cs_code : option string }.

Definition outcome_status (status : string) : option QueueStatus :=
  if String.eqb status "received" then Some qs_received
  else if String.eqb status "rejected" then Some qs_rejected
  else if String.eqb status "conflict" then Some qs_conflict else None.

Definition classifyDomainOutcome (classifier : option (DomainFailure → SyncBatchItemInput → ItemContext → ClassifierReply))
    (e : SyncError) (domainContext : bool * option Ctx) (item : SyncBatchItemInput) (context : ItemContext) :
    Classification :=
  let unclassified := {| cs_valid := true; cs_outcome := None; cs_code := None |} in
  let invalid := {| cs_valid := false; cs_outcome := None; cs_code := None |} in
  match classifier with
  | None => unclassified
  | Some classify =>
      if negb domainContext.1 || is_package_error e then unclassified else
      match domainFailureCode e with
      | None => unclassified
      | Some code =>
          if starts_with "OFFLINE_SYNC" code then unclassified else
          match classify {| df_code := code; df_httpStatus := http_status e; df_context := domainContext.2 |} item context with
          | cl_undefined => {| cs_valid := true; cs_outcome := None; cs_code := Some code |}
          | cl_throws | cl_opaque => invalid
          | cl_outcome status conflict =>
              match outcome_status status with
              | None => invalid
              | Some st =>
                  match conflict with
                  | None => {| cs_valid := true; cs_outcome := Some {| do_status := st; do_conflict := None |}; cs_code := Some code |}
                  | Some None => invalid
                  | Some (Some (type, description)) =>
                      if bool_decide (st = qs_received)
                         || negb (String.eqb type "domain" || String.eqb type "concurrency")
                         || blank description || (4000 <? byteLength description)
                      then invalid
                      else {| cs_valid := true; cs_code := Some code;
                              cs_outcome := Some {| do_status := st; do_conflict := Some (type, description) |} |}
                  end
              end
          end
      end
  end.
