(* ===== verification/SyncStore.v ===== *)
(** * SyncStore: queue items, receipts and conflicts of [InMemoryOfflineSyncStore].

    The fields of [offline-sync/src/in-memory-offline-sync.store.ts] that hold queue items,
    item receipts, conflicts and batches, and the methods that submit E6 batches, open and
    resolve conflicts and record integrity rejections.

    A method runs in one frame of MemoryFrames: [owned] gives back the projections when it
    throws (FrameClaims proves that of the frames). Numbering is not part of the frames, and
    its methods may run at any [await]: [meanwhile n] is what they do during the [n]-th. *)
From Stdlib Require Import Ascii.
From stdpp Require Import pretty.
From S2P Require Import Prelude JsMap JsText JsDate JsJson OfflineTypes Listing JsCursor RangeAdmin Numbering SyncTypes.
Local Open Scope Z_scope.

(** ** State *)

(** The maps that frames roll back. [effects] is not a field of the class: it lists the keys
    of the items whose applier has run in a transaction that was not rolled back. *)
Record Projections := {
  queueItems : jsmap string StoredSyncQueueItem;
  payloadIndex : jsmap string string;
  e6Items : jsmap string E6Entry;
  conflicts : jsmap string SyncConflict;
  itemReceipts : jsmap string ReceiptEntry;
  queueBatches : jsmap string string;
  conflictCreatedAt : jsmap string string;
  conflictAllowedActions : jsmap string (list string);
  conflictStynx : jsmap string Stynx;
  conflictDomainContexts : jsmap string Ctx;
  integrityConflicts : jsmap string string;
  integrityRejections : jsmap string SyncIntegrityRejection;
  conflictActions : list (SyncConflictActionRecord * string);
  effects : list string }.

Definition no_projections : Projections :=
  {| queueItems := []; payloadIndex := []; e6Items := []; conflicts := []; itemReceipts := [];
     queueBatches := []; conflictCreatedAt := []; conflictAllowedActions := []; conflictStynx := [];
     conflictDomainContexts := []; integrityConflicts := []; integrityRejections := [];
     conflictActions := []; effects := [] |}.

Definition on_queueItems f (p : Projections) : Projections :=
  {| queueItems := f (queueItems p); payloadIndex := payloadIndex p; e6Items := e6Items p; conflicts
     := conflicts p; itemReceipts := itemReceipts p; queueBatches := queueBatches p;
     conflictCreatedAt := conflictCreatedAt p; conflictAllowedActions := conflictAllowedActions p;
     conflictStynx := conflictStynx p; conflictDomainContexts := conflictDomainContexts p;
     integrityConflicts := integrityConflicts p; integrityRejections := integrityRejections p;
     conflictActions := conflictActions p; effects := effects p |}.
Definition on_payloadIndex f (p : Projections) : Projections :=
  {| queueItems := queueItems p; payloadIndex := f (payloadIndex p); e6Items := e6Items p; conflicts
     := conflicts p; itemReceipts := itemReceipts p; queueBatches := queueBatches p;
     conflictCreatedAt := conflictCreatedAt p; conflictAllowedActions := conflictAllowedActions p;
     conflictStynx := conflictStynx p; conflictDomainContexts := conflictDomainContexts p;
     integrityConflicts := integrityConflicts p; integrityRejections := integrityRejections p;
     conflictActions := conflictActions p; effects := effects p |}.
Definition on_e6Items f (p : Projections) : Projections :=
  {| queueItems := queueItems p; payloadIndex := payloadIndex p; e6Items := f (e6Items p); conflicts
     := conflicts p; itemReceipts := itemReceipts p; queueBatches := queueBatches p;
     conflictCreatedAt := conflictCreatedAt p; conflictAllowedActions := conflictAllowedActions p;
     conflictStynx := conflictStynx p; conflictDomainContexts := conflictDomainContexts p;
     integrityConflicts := integrityConflicts p; integrityRejections := integrityRejections p;
     conflictActions := conflictActions p; effects := effects p |}.
Definition on_conflicts f (p : Projections) : Projections :=
  {| queueItems := queueItems p; payloadIndex := payloadIndex p; e6Items := e6Items p; conflicts :=
     f (conflicts p); itemReceipts := itemReceipts p; queueBatches := queueBatches p;
     conflictCreatedAt := conflictCreatedAt p; conflictAllowedActions := conflictAllowedActions p;
     conflictStynx := conflictStynx p; conflictDomainContexts := conflictDomainContexts p;
     integrityConflicts := integrityConflicts p; integrityRejections := integrityRejections p;
     conflictActions := conflictActions p; effects := effects p |}.
Definition on_itemReceipts f (p : Projections) : Projections :=
  {| queueItems := queueItems p; payloadIndex := payloadIndex p; e6Items := e6Items p; conflicts :=
     conflicts p; itemReceipts := f (itemReceipts p); queueBatches := queueBatches p;
     conflictCreatedAt := conflictCreatedAt p; conflictAllowedActions := conflictAllowedActions p;
     conflictStynx := conflictStynx p; conflictDomainContexts := conflictDomainContexts p;
     integrityConflicts := integrityConflicts p; integrityRejections := integrityRejections p;
     conflictActions := conflictActions p; effects := effects p |}.
Definition on_queueBatches f (p : Projections) : Projections :=
  {| queueItems := queueItems p; payloadIndex := payloadIndex p; e6Items := e6Items p; conflicts :=
     conflicts p; itemReceipts := itemReceipts p; queueBatches := f (queueBatches p);
     conflictCreatedAt := conflictCreatedAt p; conflictAllowedActions := conflictAllowedActions p;
     conflictStynx := conflictStynx p; conflictDomainContexts := conflictDomainContexts p;
     integrityConflicts := integrityConflicts p; integrityRejections := integrityRejections p;
     conflictActions := conflictActions p; effects := effects p |}.
Definition on_conflictCreatedAt f (p : Projections) : Projections :=
  {| queueItems := queueItems p; payloadIndex := payloadIndex p; e6Items := e6Items p; conflicts :=
     conflicts p; itemReceipts := itemReceipts p; queueBatches := queueBatches p; conflictCreatedAt
     := f (conflictCreatedAt p); conflictAllowedActions := conflictAllowedActions p; conflictStynx
     := conflictStynx p; conflictDomainContexts := conflictDomainContexts p; integrityConflicts :=
     integrityConflicts p; integrityRejections := integrityRejections p; conflictActions :=
     conflictActions p; effects := effects p |}.
Definition on_conflictAllowedActions f (p : Projections) : Projections :=
  {| queueItems := queueItems p; payloadIndex := payloadIndex p; e6Items := e6Items p; conflicts :=
     conflicts p; itemReceipts := itemReceipts p; queueBatches := queueBatches p; conflictCreatedAt
     := conflictCreatedAt p; conflictAllowedActions := f (conflictAllowedActions p); conflictStynx
     := conflictStynx p; conflictDomainContexts := conflictDomainContexts p; integrityConflicts :=
     integrityConflicts p; integrityRejections := integrityRejections p; conflictActions :=
     conflictActions p; effects := effects p |}.
Definition on_conflictStynx f (p : Projections) : Projections :=
  {| queueItems := queueItems p; payloadIndex := payloadIndex p; e6Items := e6Items p; conflicts :=
     conflicts p; itemReceipts := itemReceipts p; queueBatches := queueBatches p; conflictCreatedAt
     := conflictCreatedAt p; conflictAllowedActions := conflictAllowedActions p; conflictStynx := f
     (conflictStynx p); conflictDomainContexts := conflictDomainContexts p; integrityConflicts :=
     integrityConflicts p; integrityRejections := integrityRejections p; conflictActions :=
     conflictActions p; effects := effects p |}.
Definition on_conflictDomainContexts f (p : Projections) : Projections :=
  {| queueItems := queueItems p; payloadIndex := payloadIndex p; e6Items := e6Items p; conflicts :=
     conflicts p; itemReceipts := itemReceipts p; queueBatches := queueBatches p; conflictCreatedAt
     := conflictCreatedAt p; conflictAllowedActions := conflictAllowedActions p; conflictStynx :=
     conflictStynx p; conflictDomainContexts := f (conflictDomainContexts p); integrityConflicts :=
     integrityConflicts p; integrityRejections := integrityRejections p; conflictActions :=
     conflictActions p; effects := effects p |}.
Definition on_integrityConflicts f (p : Projections) : Projections :=
  {| queueItems := queueItems p; payloadIndex := payloadIndex p; e6Items := e6Items p; conflicts :=
     conflicts p; itemReceipts := itemReceipts p; queueBatches := queueBatches p; conflictCreatedAt
     := conflictCreatedAt p; conflictAllowedActions := conflictAllowedActions p; conflictStynx :=
     conflictStynx p; conflictDomainContexts := conflictDomainContexts p; integrityConflicts := f
     (integrityConflicts p); integrityRejections := integrityRejections p; conflictActions :=
     conflictActions p; effects := effects p |}.
Definition on_integrityRejections f (p : Projections) : Projections :=
  {| queueItems := queueItems p; payloadIndex := payloadIndex p; e6Items := e6Items p; conflicts :=
     conflicts p; itemReceipts := itemReceipts p; queueBatches := queueBatches p; conflictCreatedAt
     := conflictCreatedAt p; conflictAllowedActions := conflictAllowedActions p; conflictStynx :=
     conflictStynx p; conflictDomainContexts := conflictDomainContexts p; integrityConflicts :=
     integrityConflicts p; integrityRejections := f (integrityRejections p); conflictActions :=
     conflictActions p; effects := effects p |}.
Definition on_conflictActions f (p : Projections) : Projections :=
  {| queueItems := queueItems p; payloadIndex := payloadIndex p; e6Items := e6Items p; conflicts :=
     conflicts p; itemReceipts := itemReceipts p; queueBatches := queueBatches p; conflictCreatedAt
     := conflictCreatedAt p; conflictAllowedActions := conflictAllowedActions p; conflictStynx :=
     conflictStynx p; conflictDomainContexts := conflictDomainContexts p; integrityConflicts :=
     integrityConflicts p; integrityRejections := integrityRejections p; conflictActions := f
     (conflictActions p); effects := effects p |}.
Definition on_effects f (p : Projections) : Projections :=
  {| queueItems := queueItems p; payloadIndex := payloadIndex p; e6Items := e6Items p; conflicts :=
     conflicts p; itemReceipts := itemReceipts p; queueBatches := queueBatches p; conflictCreatedAt
     := conflictCreatedAt p; conflictAllowedActions := conflictAllowedActions p; conflictStynx :=
     conflictStynx p; conflictDomainContexts := conflictDomainContexts p; integrityConflicts :=
     integrityConflicts p; integrityRejections := integrityRejections p; conflictActions :=
     conflictActions p; effects := f (effects p) |}.

(** An entry of [batches]; [be_promise] tells whether a run of the batch is pending. *)
Record BatchEntry := {
  be_contextHash : string;
  be_initialPending : bool;
  be_receipt : SyncBatchReceipt;
  be_result : option SubmitSyncBatchResult;
  be_promise : bool;
  be_transportKey : string;
  be_fingerprint : string;
  be_createdAt : string }.

(** [transport] maps a key to its batch identity and fingerprint; [awaits] counts the awaits
    so far. *)
Record SyncStore := {
  numbering : Store;
  projections : Projections;
  batches : jsmap string BatchEntry;
  transport : jsmap string (string * string);
  conflictActionSequence : Z;
  awaits : nat }.

Definition new_store : SyncStore :=
  {| numbering := empty_store; projections := no_projections; batches := []; transport := [];
     conflictActionSequence := 0; awaits := 0 |}.

Definition on_numbering f (s : SyncStore) : SyncStore :=
  {| numbering := f (numbering s); projections := projections s; batches := batches s;
     transport := transport s; conflictActionSequence := conflictActionSequence s; awaits := awaits s |}.
Definition on_projections f (s : SyncStore) : SyncStore :=
  {| numbering := numbering s; projections := f (projections s); batches := batches s;
     transport := transport s; conflictActionSequence := conflictActionSequence s; awaits := awaits s |}.
Definition on_batches f (s : SyncStore) : SyncStore :=
  {| numbering := numbering s; projections := projections s; batches := f (batches s);
     transport := transport s; conflictActionSequence := conflictActionSequence s; awaits := awaits s |}.
Definition on_transport f (s : SyncStore) : SyncStore :=
  {| numbering := numbering s; projections := projections s; batches := batches s;
     transport := f (transport s); conflictActionSequence := conflictActionSequence s; awaits := awaits s |}.
Definition next_sequence (s : SyncStore) : SyncStore :=
  {| numbering := numbering s; projections := projections s; batches := batches s;
     transport := transport s; conflictActionSequence := conflictActionSequence s + 1; awaits := awaits s |}.
Definition next_await (s : SyncStore) : SyncStore :=
  {| numbering := numbering s; projections := projections s; batches := batches s;
     transport := transport s; conflictActionSequence := conflictActionSequence s; awaits := S (awaits s) |}.

(** ** Updates of records *)

Definition set_bi_queueItemId id (i : SyncBatchItemInput) : SyncBatchItemInput :=
  {| bi_queueItemId := id; bi_entityType := bi_entityType i; bi_localEntityId := bi_localEntityId i;
     bi_idempotencyKey := bi_idempotencyKey i; bi_payloadHash := bi_payloadHash i;
     bi_payloadJson := bi_payloadJson i; bi_createdLocallyAt := bi_createdLocallyAt i;
     bi_reservedNumber := bi_reservedNumber i; bi_reservationId := bi_reservationId i |}.
Definition set_bi_key k (i : SyncBatchItemInput) : SyncBatchItemInput :=
  {| bi_queueItemId := bi_queueItemId i; bi_entityType := bi_entityType i; bi_localEntityId := bi_localEntityId i;
     bi_idempotencyKey := Some k; bi_payloadHash := bi_payloadHash i;
     bi_payloadJson := bi_payloadJson i; bi_createdLocallyAt := bi_createdLocallyAt i;
     bi_reservedNumber := bi_reservedNumber i; bi_reservationId := bi_reservationId i |}.
Definition set_si_input f (i : StoredSyncQueueItem) : StoredSyncQueueItem :=
  {| si_input := f (si_input i); si_tenantId := si_tenantId i; si_agentId := si_agentId i;
     si_orgUnitId := si_orgUnitId i; si_deviceId := si_deviceId i; si_status := si_status i;
     si_receivedAt := si_receivedAt i; si_errorCode := si_errorCode i; si_context := si_context i;
     si_stynx := si_stynx i |}.
Definition set_si_status st (i : StoredSyncQueueItem) : StoredSyncQueueItem :=
  {| si_input := si_input i; si_tenantId := si_tenantId i; si_agentId := si_agentId i;
     si_orgUnitId := si_orgUnitId i; si_deviceId := si_deviceId i; si_status := st;
     si_receivedAt := si_receivedAt i; si_errorCode := si_errorCode i; si_context := si_context i;
     si_stynx := si_stynx i |}.
Definition set_re_receipt r (e : ReceiptEntry) : ReceiptEntry :=
  {| re_hash := re_hash e; re_batchKey := re_batchKey e; re_receipt := r; re_item := re_item e;
     re_deviceBatchId := re_deviceBatchId e; re_receivedAt := re_receivedAt e |}.
Definition set_cf_status st (c : SyncConflict) : SyncConflict :=
  {| cf_conflictId := cf_conflictId c; cf_tenantId := cf_tenantId c; cf_queueItemId := cf_queueItemId c;
     cf_localEntityId := cf_localEntityId c; cf_payloadHash := cf_payloadHash c; cf_conflictType := cf_conflictType c;
     cf_description := cf_description c; cf_status := st; cf_resolution := cf_resolution c;
     cf_resolvedBy := cf_resolvedBy c; cf_resolvedAt := cf_resolvedAt c; cf_stynx := cf_stynx c |}.
(** [{ ...c, description, status: 'resolved', resolution, resolvedBy, resolvedAt }] *)
Definition resolved_conflict (description resolution by_ at_ : string) (c : SyncConflict) : SyncConflict :=
  {| cf_conflictId := cf_conflictId c; cf_tenantId := cf_tenantId c; cf_queueItemId := cf_queueItemId c;
     cf_localEntityId := cf_localEntityId c; cf_payloadHash := cf_payloadHash c; cf_conflictType := cf_conflictType c;
     cf_description := description; cf_status := conflict_resolved; cf_resolution := Some resolution;
     cf_resolvedBy := Some by_; cf_resolvedAt := Some at_; cf_stynx := cf_stynx c |}.
Definition set_cf_stynx sx (c : SyncConflict) : SyncConflict :=
  {| cf_conflictId := cf_conflictId c; cf_tenantId := cf_tenantId c; cf_queueItemId := cf_queueItemId c;
     cf_localEntityId := cf_localEntityId c; cf_payloadHash := cf_payloadHash c; cf_conflictType := cf_conflictType c;
     cf_description := cf_description c; cf_status := cf_status c; cf_resolution := cf_resolution c;
     cf_resolvedBy := cf_resolvedBy c; cf_resolvedAt := cf_resolvedAt c; cf_stynx := sx |}.
(** [{ ...sx, consumerAttributes }] *)
Definition set_sx_attributes j (x : Stynx) : Stynx :=
  merge x {| sx_receiptId := None; sx_appliedAt := None; sx_serverEntityId := None; sx_errorCode := None;
             sx_errorMessage := None; sx_attempts := None; sx_reasonCode := None; sx_receivedPayloadHash := None;
             sx_storedPayloadHash := None; sx_relatedQueueItemId := None; sx_retryable := None;
             sx_terminalReceived := false; sx_consumerAttributes := Some j; sx_concurrencySuspected := None;
             sx_concurrentPairs := None; sx_signals := false |}.

(** [String(n).padStart(12, '0')] *)
Definition padStart12 (z : Z) : string :=
  let t := pretty z in
  String.string_of_list_ascii (replicate (12 - String.length t) "0"%char) +:+ t.

(** [value.includes(text)] of a [context.allowedActions]: an array or a string; other
    values have no such method. *)
Fixpoint has_substring (fuel : nat) (p s : string) : bool :=
  String.prefix p s || match fuel, s with S n, String _ s' => has_substring n p s' | _, _ => false end.
Definition includes (j : json) (x : string) : option bool :=
  match j with
  | JArray l => Some (existsb (λ v, match v with JString t => String.eqb t x | _ => false end) l)
  | JString t => Some (has_substring (String.length t) x t)
  | _ => None
  end.

Definition strings (l : list string) : json := JArray (map JString l).

(** [['a', 'b'].includes(x)] *)
Definition includes_text (l : list string) (x : string) : bool := existsb (String.eqb x) l.

Section store.
(** The successive values of [randomUUID()], and what the numbering methods of other calls do
    during the [n]-th await. *)
Context (uuid_at : nat → string) (meanwhile : nat → Store → Store).

Notation M := (JS SyncStore SyncError).

(** ** Access to the fields *)

Definition own_error (code : ErrorCode) (status : Z) (message : string) : SyncError :=
  Own (OfflineSyncError code status message).

(** A numbering operation of the same object. *)
Definition number_op {A} (m : JS Store OfflineError A) : M A := λ s,
  match m (numbering s) with
  | (Ok a, n) => (Ok a, on_numbering (λ _, n) s)
  | (Throw e, n) => (Throw (Own e), on_numbering (λ _, n) s)
  end.

Definition randomUUID : M string := number_op (Numbering.randomUUID uuid_at).

(** [await reply]: the answer of a port call, and the other calls that run meanwhile. *)
Definition await {A} (reply : nat → Answer A) : M A :=
  n ← getf awaits;
  _ ← modify (λ s, on_numbering (meanwhile n) (next_await s));
  lift (reply n).
(** [await port?.call(...)] *)
Definition await_port {A} (port : option (nat → Answer A)) : M (option A) :=
  match port with
  | Some reply => Some <$> await reply
  | None => await (λ _, Ok None)
  end.

Definition readProjection {V} (m : Projections → jsmap string V) (k : string) : M (option V) :=
  getf (λ s, jm_get k (m (projections s))).
Definition write (f : Projections → Projections) : M () := modify (on_projections f).
Definition writeQueueItem k v : M () := write (on_queueItems (jm_set k v)).
Definition writeReceipt k v : M () := write (on_itemReceipts (jm_set k v)).
Definition writeConflict k v : M () := write (on_conflicts (jm_set k v)).

(** [mutateTenant] and [ownedFrame]: the projections of a frame that throws are given back. *)
Definition owned {A} (m : M A) : M A := λ s,
  match m s with
  | (Ok a, s') => (Ok a, s')
  | (Throw e, s') => (Throw e, on_projections (λ _, projections s) s')
  end.

(** ** Conflicts *)

Definition saveConflict (conflict : SyncConflict) (now : string) (allowedActions : option (list string))
    (stynx : option Stynx) (domainContext : option Ctx) : M () :=
  let k := key (cf_tenantId conflict) (cf_conflictId conflict) in
  _ ← writeConflict k conflict;
  _ ← write (on_conflictCreatedAt (jm_set k now));
  _ ← match allowedActions with Some l => write (on_conflictAllowedActions (jm_set k l)) | None => mret () end;
  _ ← match stynx with Some x => write (on_conflictStynx (jm_set k x)) | None => mret () end;
  match domainContext with Some c => write (on_conflictDomainContexts (jm_set k c)) | None => mret () end.

(** An open conflict as the store creates it. *)
Definition open_conflict (id : string) (scope : Scope) (queueItemId localEntityId payloadHash type description : string) :
    SyncConflict :=
  {| cf_conflictId := id; cf_tenantId := tenantId scope; cf_queueItemId := queueItemId;
     cf_localEntityId := localEntityId; cf_payloadHash := payloadHash; cf_conflictType := type;
     cf_description := description; cf_status := conflict_open; cf_resolution := None;
     cf_resolvedBy := None; cf_resolvedAt := None; cf_stynx := None |}.

Definition openConflict (scope : Scope) (queueItemId : string) (input : OpenSyncConflictInput) (now : string) :
    M SyncConflict :=
  owned (
    let queueKey := key (tenantId scope) queueItemId in
    item ← readProjection queueItems queueKey;
    match item with
    | None => throw (own_error QUEUE_ITEM_NOT_FOUND 404 ("Sync queue item " +:+ queueItemId +:+ " was not found."))
    | Some item =>
        _ ← writeQueueItem queueKey (set_si_status qs_conflict item);
        id ← randomUUID;
        let conflict := open_conflict id scope queueItemId (bi_localEntityId (si_input item)) (si_payloadHash item)
                          (oi_conflictType input) (oi_description input) in
        _ ← saveConflict conflict now None None None;
        mret conflict
    end).

Definition conflict_status_text (s : ConflictStatus) : string :=
  match s with conflict_open => "open" | conflict_resolved => "resolved" end.

Definition resolveConflict (scope : Scope) (conflictId : string) (input : ResolveSyncConflictInput) (now : string) :
    M SyncConflict :=
  owned (
    let conflictKey := key (tenantId scope) conflictId in
    found ← readProjection conflicts conflictKey;
    match found with
    | None => throw (own_error CONFLICT_NOT_FOUND 404 ("Sync conflict " +:+ conflictId +:+ " was not found."))
    | Some conflict =>
        _ ← throw_if (negb (bool_decide (cf_status conflict = conflict_open)))
              (own_error CONFLICT_STATE 409 ("Sync conflict " +:+ conflictId +:+ " is "
                 +:+ conflict_status_text (cf_status conflict) +:+ "; expected open."));
        let resolved := resolved_conflict (default (cf_description conflict) (ri_description input))
                          (ri_resolution input) (actorId scope) now conflict in
        _ ← writeConflict conflictKey resolved;
        let queueKey := key (tenantId scope) (cf_queueItemId conflict) in
        queueItem ← readProjection queueItems queueKey;
        _ ← match queueItem with
            | Some i => writeQueueItem queueKey
                (set_si_status (if String.eqb (ri_resolution input) "server-wins" then qs_rejected else qs_applied) i)
            | None => mret ()
            end;
        mret resolved
    end).

(** ** E6 batches *)

Definition stored_item (scope : Scope) (input : SubmitSyncBatchInput) (agentId now : string) (status : QueueStatus)
    (item : SyncBatchItemInput) : StoredSyncQueueItem :=
  {| si_input := item; si_tenantId := tenantId scope; si_agentId := agentId; si_orgUnitId := sb_orgUnitId input;
     si_deviceId := sb_deviceId input; si_status := status; si_receivedAt := now; si_errorCode := None;
     si_context := None; si_stynx := None |}.

(** The identity of a batch. *)
Definition batch_key (scope : Scope) (input : SubmitSyncBatchInput) : string :=
  key (tenantId scope) (sb_deviceId input +:+ ":" +:+ sb_deviceBatchId input).

(** The queue item an item of a batch is stored as, and whether it is a duplicate. *)
Definition submit_item (scope : Scope) (input : SubmitSyncBatchInput) (now : string) (item : SyncBatchItemInput) :
    M (StoredSyncQueueItem * bool) :=
  let payloadKey := key (tenantId scope) (bi_payloadHash item) in
  existingId ← readProjection payloadIndex payloadKey;
  existing ← match truthy existingId with
             | Some id => readProjection queueItems (key (tenantId scope) id)
             | None => mret None
             end;
  match existing with
  | Some existing => mret (existing, true)
  | None =>
      let itemKey := key (tenantId scope) (bi_queueItemId item) in
      reused ← readProjection queueItems itemKey;
      _ ← throw_if (match reused with Some r => negb (String.eqb (si_payloadHash r) (bi_payloadHash item)) | None => false end)
            (own_error QUEUE_ID_REUSED 409 ("Queue item " +:+ bi_queueItemId item
               +:+ " was already used with another payload hash."));
      let queueItem := stored_item scope input (actorId scope) now qs_received item in
      _ ← writeQueueItem itemKey queueItem;
      _ ← write (on_queueBatches (jm_set itemKey (sb_deviceBatchId input)));
      _ ← write (on_e6Items (jm_set (key (tenantId scope) (default "undefined" (bi_idempotencyKey item)))
             {| e6_item := queueItem; e6_batchKey := batch_key scope input; e6_deviceBatchId := sb_deviceBatchId input |}));
      _ ← write (on_payloadIndex (jm_set payloadKey (bi_queueItemId item)));
      mret (queueItem, false)
  end.

(** [for (const item of items)] collecting one value per item. *)
Fixpoint js_map {S E A B} (f : A → JS S E B) (l : list A) : JS S E (list B) :=
  match l with
  | [] => mret []
  | x :: l' => y ← f x; ys ← js_map f l'; mret (y :: ys)
  end.

Definition conflict_ids (stored : list StoredSyncQueueItem) : list string :=
  map si_queueItemId (List.filter (λ i, bool_decide (si_status i = qs_conflict)) stored).

Definition submitSyncBatch (scope : Scope) (input : SubmitSyncBatchInput) (now : string) : M E6Result :=
  owned (
    stored ← js_map (submit_item scope input now) (sb_items input);
    mret {| er_batchId := sb_deviceBatchId input; er_acceptedItems := Z.of_nat (length (sb_items input));
            er_duplicateItems := Z.of_nat (length (List.filter snd stored));
            er_conflicts := conflict_ids stored.*1; er_items := stored.*1 |}).

(** ** Resolution by the host *)

Definition receipt_of (queueItemId : string) (prefix : string) (receipts : jsmap string ReceiptEntry) :
    option (string * ReceiptEntry) :=
  List.find (λ p, starts_with prefix p.1 && String.eqb (si_queueItemId (re_item p.2)) queueItemId) receipts.

Definition item_context (scope : Scope) (agentId orgUnitId deviceId batchId now : string) (receiptId : option string) :
    ItemContext :=
  {| ic_scope := scope; ic_agentId := agentId; ic_orgUnitId := orgUnitId; ic_deviceId := deviceId;
     ic_batchId := batchId; ic_now := now; ic_receiptId := receiptId; ic_concurrencySuspected := None;
     ic_concurrentPairs := None |}.

(** The actions a conflict allows: those of the port, of the conflict, of the receipt or the
    default ones, with the test [allowed.includes(resolution)]. *)
Definition allows (ported stored : option (list string)) (receipt : option SyncItemReceipt) (resolution : string) :
    Answer bool :=
  match ported, stored with
  | Some l, _ | None, Some l => Ok (includes_text l resolution)
  | None, None =>
      match c ← (r ← receipt; ir_context r); jm_get "allowedActions" c with
      | None | Some JUndefined | Some JNull =>
          Ok (includes_text ["device-wins"; "server-wins"; "manual-review"] resolution)
      | Some j => match includes j resolution with Some b => Ok b | None => Throw (Own TypeError) end
      end
  end.

(** Whether a reservation of the device has the number of the item as applied. *)
Definition number_applied (s : Store) (scope : Scope) (item : StoredSyncQueueItem) : bool :=
  match bi_reservedNumber (si_input item) with
  | None => false
  | Some n =>
      existsb (λ p, starts_with (tenantId scope +:+ ":") p.1
                    && String.eqb (rv_deviceId p.2) (si_deviceId item)
                    && String.eqb (rv_orgUnitId p.2) (si_orgUnitId item)
                    && String.eqb (rv_entityType p.2) (bi_entityType (si_input item))
                    && bool_decide (entry_status s p.1 n = Some entry_applied)) (reservations s)
  end.

Definition pending_receipt (r : SyncItemReceipt) : SyncItemReceipt :=
  {| ir_queueItemId := ir_queueItemId r; ir_status := qs_pending; ir_errorCode := None;
     ir_context := ir_context r; ir_stynx := ir_stynx r |}.

(** [retry_after_correction]: the item and its receipt go back to [pending]. *)
Definition return_to_pending (scope : Scope) (conflictKey : string) (conflict : SyncConflict)
    (item : StoredSyncQueueItem) (receiptEntry : option (string * ReceiptEntry)) : M () :=
  let prefix := tenantId scope +:+ ":" in
  s ← getf id;
  let otherOpen := existsb (λ p, starts_with prefix p.1 && negb (String.eqb p.1 conflictKey)
                                 && String.eqb (cf_queueItemId p.2) (cf_queueItemId conflict)
                                 && bool_decide (cf_status p.2 = conflict_open)) (conflicts (projections s)) in
  let refused := own_error CONFLICT_RESOLUTION 409 "The item cannot return to pending." in
  match receiptEntry with
  | None => throw refused
  | Some (receiptKey, entry) =>
      let receipt := re_receipt entry in
      _ ← throw_if (negb (bool_decide (si_status item = qs_conflict))
                    || negb (bool_decide (ir_status receipt = qs_conflict))
                    || bool_decide (is_Some (x ← ir_stynx receipt; sx_appliedAt x))
                    || number_applied (numbering s) scope item || otherOpen) refused;
      _ ← writeQueueItem (key (tenantId scope) (cf_queueItemId conflict)) (set_si_status qs_pending item);
      writeReceipt receiptKey (set_re_receipt (pending_receipt receipt) entry)
  end.

Definition resolution_event (actionId : string) (scope : Scope) (id : string) (conflict : SyncConflict) (action : string)
    (status : ConflictStatus) (now : string) : OfflineSyncEvent :=
  {| ev_entity := "offline.sync-conflict"; ev_entityId := id;
     ev_idempotencyKey := "stynx:offline-sync:resolution:" +:+ actionId;
     ev_payload := JObject [("actionId", JString actionId); ("conflictId", JString id);
       ("queueItemId", JString (cf_queueItemId conflict)); ("action", JString action);
       ("resultingStatus", JString (conflict_status_text status)); ("actorId", JString (actorId scope));
       ("at", JString now)] |}.

Definition resolver_status (status : string) : option ConflictStatus :=
  if String.eqb status "resolved" then Some conflict_resolved
  else if String.eqb status "open" then Some conflict_open else None.

(** What follows the resolver's answer [supplied] with the status [status]. *)
Definition record_resolution (scope : Scope) (id : string) (input : ResolveSyncConflictInput) (now : string)
    (eventPort : option (nat → OfflineSyncEvent → Answer ())) (actionId : string) (conflict : SyncConflict)
    (supplied : ConflictResolution) (status : ConflictStatus) (consumerAttributes : option json) : M SyncConflict :=
  let k := key (tenantId scope) id in
  _ ← modify next_sequence;
  sequence ← getf conflictActionSequence;
  _ ← write (on_conflictActions (λ l, l ++ [(
        {| ar_actionId := actionId; ar_tenantId := tenantId scope; ar_conflictId := id;
           ar_action := ri_resolution input; ar_reason := ri_description input; ar_userRef := ri_userRef input;
           ar_actorId := actorId scope; ar_resultingStatus := status; ar_createdAt := now |},
        padStart12 sequence)]));
  platform ← readProjection conflictStynx k;
  _ ← match consumerAttributes with
      | Some j => write (on_conflictStynx (jm_set k (set_sx_attributes j (default version1 platform))))
      | None => mret ()
      end;
  stynx ← readProjection conflictStynx k;
  let canonical := set_cf_stynx (over (rs_stynx supplied) (cf_stynx conflict)) (set_cf_status status conflict) in
  let returned := resolved_conflict (cf_description conflict) (ri_resolution input) (actorId scope) now in
  let event := resolution_event actionId scope id conflict (ri_resolution input) status now in
  let append := await_port ((λ port n, port n event) <$> eventPort) in
  match status with
  | conflict_resolved =>
      _ ← writeConflict k (returned conflict);
      _ ← append;
      mret (set_cf_stynx (over (cf_stynx canonical) stynx) (returned canonical))
  | conflict_open =>
      _ ← append;
      mret (set_cf_stynx stynx (withoutResolution canonical))
  end.

Definition resolveWithPortLocked (scope : Scope) (id : string) (input : ResolveSyncConflictInput) (now : string)
    (port : ConflictResolver) (eventPort : option (nat → OfflineSyncEvent → Answer ())) : M SyncConflict :=
  let k := key (tenantId scope) id in
  found ← readProjection conflicts k;
  match found with
  | None => throw (own_error CONFLICT_NOT_FOUND 404 "Conflict was not found.")
  | Some conflict =>
      _ ← throw_if (negb (bool_decide (cf_status conflict = conflict_open)))
            (own_error CONFLICT_STATE 409 "Conflict is already resolved.");
      stored ← readProjection queueItems (key (tenantId scope) (cf_queueItemId conflict));
      _ ← randomUUID;
      receipts ← getf (λ s, itemReceipts (projections s));
      match stored with
      | None => throw (Own TypeError)
      | Some item =>
          let receiptEntry := receipt_of (cf_queueItemId conflict) (tenantId scope +:+ ":") receipts in
          let receipt := re_receipt ∘ snd <$> receiptEntry in
          let context := item_context scope (si_agentId item) (si_orgUnitId item) (si_deviceId item)
            (match receiptEntry with Some (_, e) => re_deviceBatchId e | None => EmptyString end) now None in
          ported ← await_port ((λ p n, p n id context) <$> resolverActions port);
          stored_actions ← readProjection conflictAllowedActions k;
          allowed ← lift (allows ported stored_actions receipt (ri_resolution input));
          _ ← throw_if (negb allowed) (own_error CONFLICT_RESOLUTION 409 "Resolution action is not allowed.");
          actionId ← randomUUID;
          supplied ← await (λ n, resolve port n id (ri_resolution input) context);
          match resolver_status (rs_status supplied) with
          | None => throw (own_error CONFLICT_RESOLUTION 409 "Conflict resolver did not resolve the conflict.")
          | Some status =>
              consumerAttributes ← number_op (lift (boundedConsumerAttributes (rs_consumerAttributes supplied)));
              _ ← if bool_decide (status = conflict_resolved)
                     && String.eqb (ri_resolution input) "retry_after_correction"
                  then return_to_pending scope k conflict item receiptEntry else mret ();
              record_resolution scope id input now eventPort actionId conflict supplied status consumerAttributes
          end
      end
  end.

Definition resolveWithPort (scope : Scope) (id : string) (input : ResolveSyncConflictInput) (now : string)
    (port : ConflictResolver) (eventPort : option (nat → OfflineSyncEvent → Answer ())) : M SyncConflict :=
  owned (resolveWithPortLocked scope id input now port eventPort).

(** ** Integrity rejections *)

Definition NUL : string := String (ascii_of_nat 0) EmptyString.

Definition rejection_key (scope : Scope) (deviceId deviceBatchId queueItemId : string) : string :=
  key (tenantId scope) (strings_text [deviceId; deviceBatchId; queueItemId]).

Definition saveRejection (scope : Scope) (input : SubmitSyncBatchInput) (item : SyncBatchItemInput) (k : string)
    (original : option StoredSyncQueueItem) (now : string) : M () :=
  let rejectionKey := rejection_key scope (sb_deviceId input) (sb_deviceBatchId input) (bi_queueItemId item) in
  recorded ← readProjection integrityRejections rejectionKey;
  match recorded with
  | Some _ => mret ()
  | None =>
      write (on_integrityRejections (jm_set rejectionKey
        {| rj_tenantId := tenantId scope; rj_deviceId := sb_deviceId input; rj_deviceBatchId := sb_deviceBatchId input;
           rj_queueItemId := bi_queueItemId item; rj_idempotencyKey := k; rj_receivedPayloadHash := bi_payloadHash item;
           rj_storedPayloadHash := si_payloadHash <$> original; rj_originalQueueItemId := si_queueItemId <$> original;
           rj_rejectedAt := now |}))
  end.

Definition integrity_stynx (receiptId : string) (errorCode : option string) (received : string)
    (stored related : option string) (retryable : bool) : Stynx :=
  {| sx_receiptId := Some receiptId; sx_appliedAt := None; sx_serverEntityId := None; sx_errorCode := errorCode;
     sx_errorMessage := None; sx_attempts := None; sx_reasonCode := Some (code_text ITEM_INTEGRITY);
     sx_receivedPayloadHash := Some received; sx_storedPayloadHash := stored; sx_relatedQueueItemId := related;
     sx_retryable := Some retryable; sx_terminalReceived := false; sx_consumerAttributes := None;
     sx_concurrencySuspected := None; sx_concurrentPairs := None; sx_signals := false |}.

Definition rejectionContext (scope : Scope) (input : SubmitSyncBatchInput) (item : SyncBatchItemInput) : M Stynx :=
  recorded ← readProjection integrityRejections
    (rejection_key scope (sb_deviceId input) (sb_deviceBatchId input) (bi_queueItemId item));
  match recorded with
  | None => throw (Own TypeError)
  | Some r => mret (integrity_stynx (rj_idempotencyKey r) (Some (code_text ITEM_INTEGRITY)) (rj_receivedPayloadHash r)
                      (rj_storedPayloadHash r) (rj_originalQueueItemId r) false)
  end.

Definition batch_context (scope : Scope) (input : SubmitSyncBatchInput) (runtime : Runtime) (now k : string) : ItemContext :=
  item_context scope (rt_agentId runtime) (sb_orgUnitId input) (sb_deviceId input) (sb_deviceBatchId input) now (Some k).

(** [(await allowedActions?.(trx, conflictId, context)) ?? otherwise] *)
Definition allowed_actions (runtime : Runtime) (conflictId : string) (context : ItemContext) (otherwise : list string) :
    M (list string) :=
  ported ← await_port ((λ p n, p n conflictId context) <$> allowedActionsPort (rt_ports runtime));
  mret (default otherwise ported).

Definition integrityConflict (scope : Scope) (input : SubmitSyncBatchInput) (item : SyncBatchItemInput) (k : string)
    (original : option StoredSyncQueueItem) (runtime : Runtime) (now : string) : M Stynx :=
  let dedupe := key (tenantId scope) (k +:+ NUL +:+ bi_payloadHash item) in
  known ← readProjection integrityConflicts dedupe;
  match original, known with
  | Some original, None =>
      conflictId ← randomUUID;
      _ ← randomUUID;
      allowedActions ← allowed_actions runtime conflictId (batch_context scope input runtime now k) ["reject"];
      _ ← saveRejection scope input item k (Some original) now;
      _ ← write (on_integrityConflicts (jm_set dedupe conflictId));
      _ ← saveConflict
            (open_conflict conflictId scope (si_queueItemId original) (bi_localEntityId (si_input original))
               (si_payloadHash original) "integrity" "Payload hash differs from the stored item.")
            now (Some allowedActions)
            (Some (integrity_stynx k None (bi_payloadHash item) (Some (si_payloadHash original))
                     (Some (bi_queueItemId item)) (includes_text allowedActions "retry_after_correction")))
            None;
      rejectionContext scope input item
  | _, _ => _ ← saveRejection scope input item k original now; rejectionContext scope input item
  end.

(** ** Reads *)

Definition getQueueItem (tenant queueItemId : string) : M (option StoredSyncQueueItem) :=
  readProjection queueItems (key tenant queueItemId).
Definition getSyncBatchReceipt (scope : Scope) (deviceId deviceBatchId : string) : M (option SyncBatchReceipt) :=
  getf (λ s, be_receipt <$> jm_get (key (tenantId scope) (deviceId +:+ ":" +:+ deviceBatchId)) (batches s)).
Definition getSyncIntegrityRejection (scope : Scope) (deviceId deviceBatchId queueItemId : string) :
    M (option SyncIntegrityRejection) :=
  readProjection integrityRejections (rejection_key scope deviceId deviceBatchId queueItemId).
Definition getSyncItemReceipt (scope : Scope) (idempotencyKey : string) : M (option SyncItemReceipt) :=
  e ← readProjection itemReceipts (key (tenantId scope) idempotencyKey); mret (re_receipt <$> e).
End store.
