(* ===== verification/SyncItem.v ===== *)
(** * SyncItem: one item of a durable batch.

    [verifyOfflineSyncPayloadHash] of [offline-sync/src/payload-integrity.ts],
    [prepareOfflineSyncItem] of [pre-apply.ts] and the function [processItem] inside
    [submitDurableSyncBatch] of [in-memory-offline-sync.store.ts]. The variables that
    [processItem] assigns inside [apply] are the value [apply] returns, and the ones it
    assigns in the batch ([stored], [itemReceipts], [duplicates], [retryable]) its own. *)
From Stdlib Require Import Ascii.
From stdpp Require Import pretty.
From S2P Require Import Prelude JsMap JsText JsDate JsJson OfflineTypes Listing JsCursor RangeAdmin Numbering SyncTypes SyncStore.
Local Open Scope Z_scope.

Section item.
(** Hexadecimal SHA-256; the [message] of the language's own errors. *)
Context (sha256 : string → string) (native_message : OfflineError → string).
Context (uuid_at : nat → string) (meanwhile : nat → Store → Store).

Notation M := (JS SyncStore SyncError).
Notation await := (await meanwhile).
Notation await_port := (await_port meanwhile).
Notation randomUUID := (SyncStore.randomUUID uuid_at).
Notation saveConflict := SyncStore.saveConflict.

Definition configuration (name : string) : SyncError := Own (OfflineSyncConfigurationError name).

(** ** Payload hash *)

Definition verifyOfflineSyncPayloadHash (item : SyncBatchItemInput) (context : ItemContext)
    (port : option (nat → SyncBatchItemInput → ItemContext → Answer string)) : M bool :=
  if negb (canonicalPayloadHash (bi_payloadHash item)) then mret false else
  computed ← match port with
             | Some p => await (λ n, p n item context)
             | None => number_op (lift (canonicalOfflineSyncPayloadHash sha256 (bi_payloadJson item)))
             end;
  _ ← throw_if (negb (canonicalPayloadHash computed)) (configuration "payloadHashPort");
  mret (String.eqb computed (bi_payloadHash item)).

(** ** [prepareOfflineSyncItem] *)

Record Prepared := { pp_context : ItemContext; pp_pairs : list ConcurrentPair; pp_defer : bool }.

Definition with_concurrency (suspected : bool) (pairs : list ConcurrentPair) (c : ItemContext) : ItemContext :=
  {| ic_scope := ic_scope c; ic_agentId := ic_agentId c; ic_orgUnitId := ic_orgUnitId c;
     ic_deviceId := ic_deviceId c; ic_batchId := ic_batchId c; ic_now := ic_now c;
     ic_receiptId := ic_receiptId c; ic_concurrencySuspected := Some suspected;
     ic_concurrentPairs := Some pairs |}.

Definition in_pair (id : string) (p : ConcurrentPair) : bool :=
  String.eqb (firstItemId p) id || String.eqb (secondItemId p) id.
Definition pair_identity (p : ConcurrentPair) : string :=
  strings_text (js_sort utf16_le [firstItemId p; secondItemId p]).
Definition nonempty {A} (l : list A) : bool := match l with [] => false | _ => true end.

(** [await handoffPort?.permits(trx, pair, context)] as a condition. *)
Definition permits (ports : Ports) (p : ConcurrentPair) (context : ItemContext) : M bool :=
  answer ← await_port ((λ port n, port n p context) <$> handoffPort ports);
  mret (default false answer).

(** The loop over the pairs of the detector, whose identities so far are [seen]. *)
Fixpoint admit_pairs (item : SyncBatchItemInput) (original : ItemContext) (ports : Ports) (exists_ : string → M bool)
    (seen : list string) (pairs : list ConcurrentPair) : M (list ConcurrentPair) :=
  match pairs with
  | [] => mret []
  | p :: rest =>
      first ← exists_ (firstItemId p);
      second ← exists_ (secondItemId p);
      _ ← throw_if (String.eqb (firstItemId p) EmptyString || String.eqb (secondItemId p) EmptyString
                    || String.eqb (firstItemId p) (secondItemId p)
                    || negb (in_pair (bi_queueItemId item) p) || negb first || negb second)
            (configuration "preApplyDetector");
      let identity := pair_identity p in
      if includes_text seen identity then admit_pairs item original ports exists_ seen rest else
      permitted ← permits ports p original;
      others ← admit_pairs item original ports exists_ (identity :: seen) rest;
      mret (if permitted : bool then others else p :: others)
  end.

Definition prepareOfflineSyncItem (item : SyncBatchItemInput) (original : ItemContext) (runtime : Runtime)
    (exists_ : string → M bool) : M Prepared :=
  let policy := default "defer" (concurrencyApplication (rt_policy runtime)) in
  _ ← throw_if (negb (includes_text ["apply"; "defer"] policy)) (configuration "concurrencyApplication");
  match preApplyDetector (rt_ports runtime) with
  | None => mret {| pp_context := original; pp_pairs := []; pp_defer := false |}
  | Some detect =>
      result ← await (λ n, detect n item original);
      _ ← throw_if (negb (eqb (cn_suspected result) (nonempty (cn_pairs result)))) (configuration "preApplyDetector");
      pairs ← admit_pairs item original (rt_ports runtime) exists_ [] (cn_pairs result);
      mret {| pp_context := with_concurrency (nonempty pairs) pairs original; pp_pairs := pairs;
              pp_defer := nonempty pairs && String.eqb policy "defer" |}
  end.

(** ** Suspected concurrency *)

(** [receiptContext] and [stynx] of [processItem]. *)
Notation Evidence := (option Ctx * option Stynx)%type.

Definition pair_stynx (runtime : Runtime) (p : ConcurrentPair) (related : string) (allowedActions : list string) : Stynx :=
  executionStynxContext runtime
    {| sx_receiptId := None; sx_appliedAt := None; sx_serverEntityId := None; sx_errorCode := None;
         sx_errorMessage := None; sx_attempts := None; sx_reasonCode := Some
         "OFFLINE_SYNC_CONCURRENCY_SUSPECTED"; sx_receivedPayloadHash := None; sx_storedPayloadHash
         := None; sx_relatedQueueItemId := Some related; sx_retryable := Some (includes_text
         allowedActions "retry_after_correction"); sx_terminalReceived := false;
         sx_consumerAttributes := None; sx_concurrencySuspected := Some true; sx_concurrentPairs :=
         Some [p]; sx_signals := false |}.

Definition concurrency_conflict (id : string) (scope : Scope) (queueItemId localEntityId payloadHash : string) : SyncConflict :=
  open_conflict id scope queueItemId localEntityId payloadHash "concurrency" "Concurrent agent activity".

Definition evidence_receipt (evidence : Ctx) (stynx : Stynx) (r : SyncItemReceipt) : SyncItemReceipt :=
  {| ir_queueItemId := ir_queueItemId r; ir_status := qs_conflict; ir_errorCode := ir_errorCode r;
     ir_context := Some evidence; ir_stynx := Some (merge (default version1 (ir_stynx r)) stynx) |}.

(** One receipt of the affected item. [affectedQueue!] is there: the item of a receipt is
    stored with it. *)
Definition mark_receipt (scope : Scope) (conflictId affected now : string) (allowedActions : list string)
    (evidence : Ctx) (stynx : Stynx) (p : string * ReceiptEntry) : M () :=
  let '(storedKey, old) := p in
  if String.eqb (si_queueItemId (re_item old)) affected && starts_with (tenantId scope +:+ ":") storedKey then
    _ ← writeReceipt storedKey (set_re_receipt (evidence_receipt evidence stynx (re_receipt old)) old);
    affectedQueue ← readProjection queueItems (key (tenantId scope) affected);
    _ ← match affectedQueue with
        | Some q => writeQueueItem (key (tenantId scope) affected) (set_si_status qs_conflict q)
        | None => throw (Own TypeError)
        end;
    saveConflict (concurrency_conflict conflictId scope affected (bi_localEntityId (si_input (re_item old)))
                    (si_payloadHash (re_item old))) now (Some allowedActions) (Some stynx) None
  else mret ().

(** The turn of [recordPairs] for one item of a pair; [item] is the one being processed,
    stored as [queueItemId]. *)
Definition record_affected (scope : Scope) (runtime : Runtime) (context : ItemContext) (item : SyncBatchItemInput)
    (queueItemId now : string) (p : ConcurrentPair) (affected : string) (locals : Evidence) : M Evidence :=
  conflictId ← randomUUID;
  let related := if String.eqb affected (firstItemId p) then secondItemId p else firstItemId p in
  allowedActions ← allowed_actions meanwhile runtime conflictId context ["manual-review"];
  let evidence := [("conflictId", JString conflictId); ("relatedQueueItemId", JString related);
                   ("allowedActions", strings allowedActions)] in
  let conflictStynx := pair_stynx runtime p related allowedActions in
  receipts ← getf (λ s, itemReceipts (projections s));
  _ ← js_each (mark_receipt scope conflictId affected now allowedActions evidence conflictStynx) receipts;
  if String.eqb affected queueItemId then
    _ ← saveConflict (concurrency_conflict conflictId scope affected (bi_localEntityId item) (bi_payloadHash item))
          now (Some allowedActions) (Some conflictStynx) None;
    mret (Some evidence, Some conflictStynx)
  else mret locals.

(** [recordPairs]: the locals it leaves, and whether a pair has the item. *)
Fixpoint record_pairs (scope : Scope) (runtime : Runtime) (context : ItemContext) (item : SyncBatchItemInput)
    (queueItemId now : string) (pairs : list ConcurrentPair) (locals : Evidence) : M (Evidence * bool) :=
  match pairs with
  | [] => mret (locals, false)
  | p :: rest =>
      l1 ← record_affected scope runtime context item queueItemId now p (firstItemId p) locals;
      l2 ← record_affected scope runtime context item queueItemId now p (secondItemId p) l1;
      '(l3, conflict) ← record_pairs scope runtime context item queueItemId now rest l2;
      mret (l3, in_pair queueItemId p || conflict)
  end.

(** ** The application of an item *)

(** The variables that [apply] assigns. *)
Record Applied := {
  at_status : QueueStatus;
  at_serverEntityId : option string;
  at_receiptContext : option Ctx;
  at_stynx : option Stynx;
  at_coveringKey : option string }.

(** What [processItem] has computed before the application: [pc_item] is [portItem]. *)
Record Process := {
  pc_scope : Scope;
  pc_input : SubmitSyncBatchInput;
  pc_runtime : Runtime;
  pc_now : string;
  pc_key : string;
  pc_item : SyncBatchItemInput;
  pc_initial : QueueStatus;
  pc_attempts : Z;
  pc_reapplying : bool }.

Definition numbered (input : SubmitSyncBatchInput) (item : SyncBatchItemInput) : NumberedItem :=
  {| ni_deviceId := sb_deviceId input; ni_orgUnitId := sb_orgUnitId input; ni_entityType := bi_entityType item;
     ni_reservationId := bi_reservationId item; ni_reservedNumber := bi_reservedNumber item;
     ni_createdLocallyAt := bi_createdLocallyAt item |}.

(** [policy.concurrencyWindowMinutes && ports.concurrencyDetector] *)
Definition window_detector (runtime : Runtime) : option (nat → SyncBatchItemInput → ItemContext → Answer ConcurrencyResult) :=
  match concurrencyWindowMinutes (rt_policy runtime) with
  | None | Some 0 => None
  | Some _ => concurrencyDetector (rt_ports runtime)
  end.

Definition same_pair (a b : ConcurrentPair) : bool := in_pair (firstItemId b) a && in_pair (secondItemId b) a.

(** The pairs the detector adds to [pairs] after the application. *)
Fixpoint add_pairs (ports : Ports) (context : ItemContext) (found pairs : list ConcurrentPair) : M (list ConcurrentPair) :=
  match found with
  | [] => mret pairs
  | p :: rest =>
      permitted ← permits ports p context;
      add_pairs ports context rest
        (if (permitted : bool) || existsb (λ old, same_pair old p) pairs then pairs else pairs ++ [p])
  end.

Definition detect_pairs (runtime : Runtime) (item : SyncBatchItemInput) (context : ItemContext)
    (prepared : list ConcurrentPair) : M (list ConcurrentPair) :=
  match window_detector runtime with
  | None => mret prepared
  | Some detect =>
      detected ← await (λ n, detect n item context);
      if cn_suspected detected then add_pairs (rt_ports runtime) context (cn_pairs detected) prepared
      else mret prepared
  end.

Definition deferred_stynx (c : Process) (context : ItemContext) : Stynx :=
  executionStynxContext (pc_runtime c)
    {| sx_receiptId := Some (pc_key c); sx_appliedAt := None; sx_serverEntityId := None; sx_errorCode :=
         None; sx_errorMessage := None; sx_attempts := Some (pc_attempts c); sx_reasonCode := None;
         sx_receivedPayloadHash := None; sx_storedPayloadHash := None; sx_relatedQueueItemId :=
         None; sx_retryable := None; sx_terminalReceived := false; sx_consumerAttributes := None;
         sx_concurrencySuspected := ic_concurrencySuspected context; sx_concurrentPairs :=
         ic_concurrentPairs context; sx_signals := false |}.

Definition applied_stynx (c : Process) (context : ItemContext) (serverEntityId : string) (attributes : option json)
    (pairs : list ConcurrentPair) : Stynx :=
  let looked := bool_decide (is_Some (ic_concurrencySuspected context))
                || bool_decide (is_Some (window_detector (pc_runtime c))) in
  executionStynxContext (pc_runtime c)
    {| sx_receiptId := Some (pc_key c); sx_appliedAt := Some (pc_now c); sx_serverEntityId := Some
         serverEntityId; sx_errorCode := None; sx_errorMessage := None; sx_attempts := Some
         (pc_attempts c); sx_reasonCode := None; sx_receivedPayloadHash := None;
         sx_storedPayloadHash := None; sx_relatedQueueItemId := None; sx_retryable := None;
         sx_terminalReceived := false; sx_consumerAttributes := attributes; sx_concurrencySuspected
         := if looked then Some (nonempty pairs) else None; sx_concurrentPairs := if looked then
         Some pairs else None; sx_signals := false |}.

Definition item_event (c : Process) (serverEntityId : string) : OfflineSyncEvent :=
  {| ev_entity := bi_entityType (pc_item c); ev_entityId := serverEntityId;
     ev_idempotencyKey := if pc_reapplying c then pc_key c +:+ ":retry:" +:+ pretty (pc_attempts c) else pc_key c;
     ev_payload := bi_payloadJson (pc_item c) |}.

(** The rest of [apply] once the item is prepared. The applier's effect is recorded when its
    call returns. *)
Definition apply_prepared (c : Process) (prepared : Prepared) : M Applied :=
  let runtime := pc_runtime c in
  let context := pp_context prepared in
  let queueItemId := bi_queueItemId (pc_item c) in
  let recordPairs pairs := record_pairs (pc_scope c) runtime context (pc_item c) queueItemId (pc_now c) pairs (None, None) in
  if pp_defer prepared then
    '(receiptContext, stynx, _) ← recordPairs (pp_pairs prepared);
    mret {| at_status := qs_conflict; at_serverEntityId := None; at_receiptContext := receiptContext;
            at_stynx := Some (match stynx with
                              | Some x => merge (deferred_stynx c context) x
                              | None => deferred_stynx c context
                              end);
            at_coveringKey := None |}
  else
    coveringKey ← number_op (coverReserved (pc_scope c) (numbered (pc_input c) (pc_item c)));
    match itemApplier (rt_ports runtime) with
    | None => mret {| at_status := pc_initial c; at_serverEntityId := None; at_receiptContext := None;
                      at_stynx := None; at_coveringKey := coveringKey |}
    | Some applier =>
        applied ← await (λ n, applier n (pc_item c) context);
        _ ← write (on_effects (λ l, l ++ [key (tenantId (pc_scope c)) (pc_key c)]));
        consumerAttributes ← number_op (lift (boundedConsumerAttributes (ap_consumerAttributes applied)));
        pairs ← detect_pairs runtime (pc_item c) context (pp_pairs prepared);
        '(receiptContext, stynx, conflict) ← recordPairs pairs;
        _ ← match eventPort (rt_ports runtime) with
            | Some p => await (λ n, p n (item_event c (ap_serverEntityId applied)))
            | None => throw (Own TypeError)
            end;
        mret {| at_status := if conflict : bool then qs_conflict else qs_applied;
                at_serverEntityId := Some (ap_serverEntityId applied); at_receiptContext := receiptContext;
                at_stynx := Some (merge (default version1 stynx)
                              (applied_stynx c context (ap_serverEntityId applied) consumerAttributes pairs));
                at_coveringKey := coveringKey |}
    end.

(** [try { m } catch (e) { ... }] with the caught value. *)
Definition js_try {S E A} (m : JS S E A) : JS S E (outcome E A) := λ s,
  match m s with
  | (Ok a, s') => (Ok (Ok a), s')
  | (Throw e, s') => (Ok (Throw e), s')
  end.

(** [await this.ownedFrame(scope, apply)], and the item context [apply] leaves. Preparing an
    item writes no projection, so the frame may as well begin after it. *)
Definition run_apply (c : Process) (original : ItemContext) (exists_ : string → M bool) :
    M (ItemContext * outcome SyncError Applied) :=
  prepared ← js_try (prepareOfflineSyncItem (pc_item c) original (pc_runtime c) exists_);
  match prepared with
  | Throw e => mret (original, Throw e)
  | Ok prepared =>
      applied ← js_try (owned (apply_prepared c prepared));
      mret (pp_context prepared, applied)
  end.

(** ** Failures *)

(** [error.message] *)
Definition error_message (e : SyncError) : string :=
  match e with
  | Own (OfflineSyncError _ _ m) | Own (OfflineSyncRangeUnavailableError _ m) => m
  | Own (OfflineSyncConfigurationError name) => "Invalid offline-sync configuration: " +:+ name
  | Own OfflineSyncReservationReplayError =>
      "Reservation idempotency key was already used with a different request."
  | Own (OfflineSyncNumberingOutcome c _ _) => code_text c
  | Own RangeError => native_message RangeError
  | Own TypeError => native_message TypeError
  | BodyReuse => "IDEMPOTENT_KEY_REUSE_DIFFERENT_BODY"
  | Host f => hf_message f
  end.

(** A failure with a status of the client's is final, unless the batch itself is in conflict. *)
Definition client_error (e : SyncError) : bool :=
  match http_status e with
  | Some status => (400 <=? status) && (status <? 500)
                   && negb (match e with Own (OfflineSyncError BATCH_CONFLICT _ _) => true | _ => false end)
  | None => false
  end.

(** An [OfflineSyncNumberingOutcome]: its code, the status of the receipt and its context. *)
Definition numbering_outcome (e : SyncError) : option (string * QueueStatus * Ctx) :=
  match e with
  | Own (OfflineSyncNumberingOutcome c number reservationId) =>
      Some (code_text c, match receiptStatus c with receipt_conflict => qs_conflict | receipt_rejected => qs_rejected end,
            [("number", integer number); ("reservationId", nullable reservationId)])
  | _ => None
  end.

Record Failed := {
  fl_status : QueueStatus;
  fl_errorCode : string;
  fl_receiptContext : option Ctx;
  fl_stynx : Stynx;
  fl_retryable : bool }.

Definition FAILED : string := "OFFLINE_SYNC_ITEM_FAILED".

Definition failure_code (ports : Ports) (e : SyncError) (contextValid : bool) (classification : Classification) : string :=
  if negb contextValid then "OFFLINE_SYNC_DOMAIN_CONTEXT_INVALID"
  else if negb (cs_valid classification) then "OFFLINE_SYNC_DOMAIN_OUTCOME_INVALID"
  else match domainOutcomeClassifier ports with
       | Some _ => default (default FAILED (domainFailureCode e)) (cs_code classification)
       | None => default FAILED (error_code e)
       end.

(** The [catch] of [processItem]. *)
Definition settle_failure (c : Process) (context : ItemContext) (e : SyncError) : M Failed :=
  let runtime := pc_runtime c in
  let item := pc_item c in
  let domainContext := domainErrorContext e in
  let classification := classifyDomainOutcome (domainOutcomeClassifier (rt_ports runtime)) e domainContext item context in
  let outcome := cs_outcome classification in
  let classified := domainContext.1 && cs_valid classification && client_error e in
  let numbering := numbering_outcome e in
  let settled := classified || bool_decide (is_Some outcome) in
  let status := match numbering, outcome with
                | Some (_, st, _), _ => st
                | None, Some o => do_status o
                | None, None => if classified then qs_rejected else if pc_reapplying c then qs_pending else pc_initial c
                end in
  let errorCode := failure_code (rt_ports runtime) e domainContext.1 classification in
  let stynx := executionStynxContext runtime
    {| sx_receiptId := Some (pc_key c); sx_appliedAt := None; sx_serverEntityId := None; sx_errorCode :=
         Some errorCode; sx_errorMessage := Some (error_message e); sx_attempts := Some (pc_attempts
         c); sx_reasonCode := match numbering with Some (code, _, _) => Some code | None => (λ _,
         errorCode) <$> outcome end; sx_receivedPayloadHash := None; sx_storedPayloadHash := None;
         sx_relatedQueueItemId := None; sx_retryable := Some (match outcome with Some _ => false |
         None => negb classified end); sx_terminalReceived := match outcome with Some o =>
         bool_decide (do_status o = qs_received) | None => false end; sx_consumerAttributes := None;
         sx_concurrencySuspected := None; sx_concurrentPairs := None; sx_signals := false |} in
  let plain_context := if settled && negb (bool_decide (is_Some numbering)) then domainContext.2 else None in
  let conflict := match numbering with
                  | Some (code, _, _) => Some ("domain", code)
                  | None => o ← outcome; do_conflict o
                  end in
  receiptContext ←
    match conflict with
    | None => mret plain_context
    | Some (conflictType, description) =>
        conflictId ← randomUUID;
        allowedActions ← allowed_actions meanwhile runtime conflictId context
          (if String.eqb conflictType "concurrency" then ["manual_review"] else ["reject"; "retry_after_correction"]);
        _ ← saveConflict
              (open_conflict conflictId (pc_scope c) (bi_queueItemId item) (bi_localEntityId item) (bi_payloadHash item)
                 conflictType description)
              (pc_now c) (Some allowedActions)
              (Some (executionStynxContext runtime
                {| sx_receiptId := Some (pc_key c); sx_appliedAt := None; sx_serverEntityId := None; sx_errorCode :=
         Some errorCode; sx_errorMessage := None; sx_attempts := Some (pc_attempts c); sx_reasonCode
         := Some errorCode; sx_receivedPayloadHash := None; sx_storedPayloadHash := None;
         sx_relatedQueueItemId := None; sx_retryable := Some (includes_text allowedActions
         "retry_after_correction"); sx_terminalReceived := false; sx_consumerAttributes := None;
         sx_concurrencySuspected := None; sx_concurrentPairs := None; sx_signals := false |}))
              (match numbering with Some _ => None | None => domainContext.2 end);
        mret (match numbering with
              | Some (_, _, evidence) => Some (spread evidence [("conflictId", JString conflictId);
                                                                ("allowedActions", strings allowedActions)])
              | None => plain_context
              end)
    end;
  mret {| fl_status := status; fl_errorCode := errorCode; fl_receiptContext := receiptContext; fl_stynx := stynx;
          fl_retryable := negb settled |}.

(** ** [processItem] *)

(** What an item adds to the batch. *)
Record ItemResult := {
  im_stored : StoredSyncQueueItem;
  im_receipt : SyncItemReceipt;
  im_duplicate : bool;
  im_retryable : bool }.

(** [{ ...stored, status, errorCode?, context?, stynx? }] *)
Definition with_outcome (status : QueueStatus) (errorCode : option string) (context : option Ctx) (stynx : option Stynx)
    (i : StoredSyncQueueItem) : StoredSyncQueueItem :=
  {| si_input := si_input i; si_tenantId := si_tenantId i; si_agentId := si_agentId i;
     si_orgUnitId := si_orgUnitId i; si_deviceId := si_deviceId i; si_status := status;
     si_receivedAt := si_receivedAt i; si_errorCode := over (si_errorCode i) errorCode;
     si_context := over (si_context i) context; si_stynx := over (si_stynx i) stynx |}.

Definition item_receipt (queueItemId : string) (status : QueueStatus) (errorCode : option string) (context : option Ctx)
    (stynx : option Stynx) : SyncItemReceipt :=
  {| ir_queueItemId := queueItemId; ir_status := status; ir_errorCode := errorCode; ir_context := context;
     ir_stynx := stynx |}.

(** [...(Object.keys(context).length ? { context } : {})] *)
Definition nonempty_context (c : Ctx) : option Ctx := match c with [] => None | _ => Some c end.

Definition original_id (original queueItemId : string) : Ctx :=
  if String.eqb original queueItemId then [] else [("originalQueueItemId", JString original)].

(** The batch an item belongs to and its place in it: [pk_key] is [itemKeys.get(queueItemId)],
    [pk_identity] the batch identity and [pk_initialPending] the status the batch began with. *)
Record Place := {
  pk_scope : Scope;
  pk_input : SubmitSyncBatchInput;
  pk_runtime : Runtime;
  pk_now : string;
  pk_identity : string;
  pk_initialPending : bool;
  pk_key : string }.

Definition fresh_item (b : Place) (status : QueueStatus) (item : SyncBatchItemInput) : StoredSyncQueueItem :=
  stored_item (pk_scope b) (pk_input b) (rt_agentId (pk_runtime b)) (pk_now b) status item.

Definition place_context (b : Place) : ItemContext :=
  batch_context (pk_scope b) (pk_input b) (pk_runtime b) (pk_now b) (pk_key b).

Definition integrity (b : Place) (item : SyncBatchItemInput) (original : option StoredSyncQueueItem) : M Stynx :=
  integrityConflict uuid_at meanwhile (pk_scope b) (pk_input b) item (pk_key b) original (pk_runtime b) (pk_now b).

Definition rejected (b : Place) (item : SyncBatchItemInput) (stored : StoredSyncQueueItem) (code : ErrorCode)
    (stynx : option Stynx) : ItemResult :=
  {| im_stored := with_outcome qs_rejected (Some (code_text code)) None stynx stored;
     im_receipt := item_receipt (bi_queueItemId item) qs_rejected (Some (code_text code)) None stynx;
     im_duplicate := false; im_retryable := false |}.

(** An item that was submitted before durable batches. *)
Definition process_e6 (b : Place) (item : SyncBatchItemInput) (itemKey : string) (e6 : E6Entry) : M ItemResult :=
  found ← readProjection queueItems (key (tenantId (pk_scope b)) (si_queueItemId (e6_item e6)));
  match found with
  | None => throw (Own TypeError)
  | Some legacy =>
      let sameHash := String.eqb (si_payloadHash legacy) (bi_payloadHash item) in
      stynx ← (if sameHash then mret None else Some <$> integrity b item (Some legacy));
      let legacyReceived := sameHash && bool_decide (si_status legacy = qs_received) in
      let status := if negb sameHash || legacyReceived then qs_rejected else si_status legacy in
      let errorCode := if negb sameHash then Some (code_text ITEM_INTEGRITY)
                       else if legacyReceived then Some "OFFLINE_SYNC_LEGACY_ITEM_NOT_APPLIED" else None in
      let context := nonempty_context (original_id (si_queueItemId legacy) (bi_queueItemId item)) in
      _ ← writeReceipt itemKey
            {| re_hash := si_payloadHash legacy; re_batchKey := e6_batchKey e6;
               re_receipt := item_receipt (si_queueItemId legacy) (si_status legacy) None None None;
               re_item := legacy; re_deviceBatchId := e6_deviceBatchId e6; re_receivedAt := si_receivedAt legacy |};
      mret {| im_stored := with_outcome status errorCode context stynx (fresh_item b status item);
              im_receipt := item_receipt (bi_queueItemId item) status errorCode context stynx;
              im_duplicate := sameHash && negb (String.eqb (e6_batchKey e6) (pk_identity b));
              im_retryable := false |}
  end.

(** A client key; a legacy item has none. *)
Definition declared (item : SyncBatchItemInput) : bool := bool_decide (is_Some (truthy (bi_idempotencyKey item))).
Definition applies (b : Place) : bool := bool_decide (is_Some (itemApplier (rt_ports (pk_runtime b)))).
Definition terminal (r : SyncItemReceipt) : bool := match ir_stynx r with Some x => sx_terminalReceived x | None => false end.

Definition initial_status (b : Place) (item : SyncBatchItemInput) : QueueStatus :=
  if declared item && pk_initialPending b then qs_pending else qs_received.

(** [reapplying]: a pending receipt, in a later batch of its device, with the same hash. *)
Definition reapplies (b : Place) (item : SyncBatchItemInput) (previous : option ReceiptEntry) : bool :=
  match previous with
  | None => false
  | Some e =>
      String.eqb (re_hash e) (bi_payloadHash item)
      && bool_decide (ir_status (re_receipt e) = qs_pending)
      && String.eqb (si_deviceId (re_item e)) (sb_deviceId (pk_input b))
      && negb (String.eqb (re_batchKey e) (pk_identity b))
      && declared item && applies b
  end.

(** A receipt that answers the item without another application. *)
Definition answered (b : Place) (item : SyncBatchItemInput) (e : ReceiptEntry) : bool :=
  negb (String.eqb (re_batchKey e) (pk_identity b))
  || negb (bool_decide (ir_status (re_receipt e) = initial_status b item))
  || terminal (re_receipt e) || negb (declared item).

Definition duplicate_result (b : Place) (item : SyncBatchItemInput) (e : ReceiptEntry) : ItemResult :=
  let r := re_receipt e in
  {| im_stored := set_si_input (set_bi_queueItemId (bi_queueItemId item)) (re_item e);
     im_receipt := item_receipt (bi_queueItemId item) (ir_status r) (truthy (ir_errorCode r))
       (nonempty_context (spread (default [] (ir_context r))
                            (original_id (si_queueItemId (re_item e)) (bi_queueItemId item))))
       (ir_stynx r);
     im_duplicate := negb (String.eqb (re_batchKey e) (pk_identity b));
     im_retryable := bool_decide (ir_status r = initial_status b item) && declared item && applies b
                     && negb (terminal r) |}.

Definition no_answer (initial : QueueStatus) : Applied :=
  {| at_status := initial; at_serverEntityId := None; at_receiptContext := None; at_stynx := None; at_coveringKey := None |}.

(** The variables [processItem] has assigned before it writes, with the error code and
    whether the batch stays open. *)
Definition outcome_of (b : Place) (item : SyncBatchItemInput) (c : Process) (ex : string → M bool) :
    M (Applied * option string * bool) :=
  if negb (declared item) then
    mret (no_answer (pc_initial c), Some "OFFLINE_SYNC_LEGACY_ITEM_NOT_APPLIED", false)
  else
    _ ← randomUUID;
    '(context, ended) ← run_apply c (place_context b) ex;
    match ended with
    | Ok applied => mret (applied, None, false)
    | Throw (Own (OfflineSyncConfigurationError _) as e) => throw e
    | Throw e =>
        failed ← settle_failure c context e;
        mret ({| at_status := fl_status failed; at_serverEntityId := None;
                 at_receiptContext := fl_receiptContext failed; at_stynx := Some (fl_stynx failed);
                 at_coveringKey := None |}, Some (fl_errorCode failed), fl_retryable failed)
    end.

(** The application of an item that has no answer yet, and the writes of its outcome. *)
Definition process_new (b : Place) (item : SyncBatchItemInput) (itemKey : string) (previous : option ReceiptEntry)
    (reapplying : bool) : M ItemResult :=
  let scope := pk_scope b in
  let queueItemId := match previous with
                     | Some e => if reapplying then si_queueItemId (re_item e) else bi_queueItemId item
                     | None => bi_queueItemId item
                     end in
  let portItem := set_bi_queueItemId queueItemId item in
  let attempts := default 0 (e ← previous; x ← ir_stynx (re_receipt e); sx_attempts x) + 1 in
  let initial := initial_status b item in
  let c := {| pc_scope := scope; pc_input := pk_input b; pc_runtime := pk_runtime b; pc_now := pk_now b;
              pc_key := pk_key b; pc_item := portItem; pc_initial := initial; pc_attempts := attempts;
              pc_reapplying := reapplying |} in
  let exists_ id := found ← readProjection queueItems (key (tenantId scope) id);
                    mret (String.eqb id queueItemId || bool_decide (is_Some found)) in
  '(applied, errorCode, retryable) ← outcome_of b item c exists_;
  let status := at_status applied in
  let stynx := at_stynx applied in
  let prior := e ← previous; ir_context (re_receipt e) in
  let receiptContext := match prior, at_receiptContext applied with
                        | None, None => None
                        | _, _ => Some (spread (default [] prior) (default [] (at_receiptContext applied)))
                        end in
  let resultContext := nonempty_context (spread (default [] receiptContext)
                         (if reapplying then original_id queueItemId (bi_queueItemId item) else [])) in
  let saved := with_outcome status None resultContext stynx (fresh_item b status item) in
  let storedItem := set_si_input (set_bi_queueItemId queueItemId) saved in
  _ ← writeQueueItem (key (tenantId scope) queueItemId) (set_si_input (set_bi_key (pk_key b)) storedItem);
  _ ← (if reapplying then mret ()
       else write (on_queueBatches (jm_set (key (tenantId scope) queueItemId) (sb_deviceBatchId (pk_input b)))));
  _ ← writeReceipt itemKey
        {| re_hash := bi_payloadHash item;
           re_batchKey := match previous with Some e => if reapplying then re_batchKey e else pk_identity b
                          | None => pk_identity b end;
           re_receipt := item_receipt queueItemId status (truthy errorCode) receiptContext stynx;
           re_item := storedItem;
           re_deviceBatchId := match previous with Some e => if reapplying then re_deviceBatchId e
                                                             else sb_deviceBatchId (pk_input b)
                               | None => sb_deviceBatchId (pk_input b) end;
           re_receivedAt := match previous with Some e => re_receivedAt e | None => pk_now b end |};
  _ ← match truthy (at_coveringKey applied), at_serverEntityId applied with
      | Some k, Some serverEntityId =>
          if bool_decide (status = qs_applied) || bool_decide (status = qs_conflict)
          then number_op (finalizeReserved (Some k) (numbered (pk_input b) item) serverEntityId (pk_now b))
          else mret ()
      | _, _ => mret ()
      end;
  mret {| im_stored := saved;
          im_receipt := item_receipt (bi_queueItemId item) status (truthy errorCode) resultContext stynx;
          im_duplicate := false; im_retryable := retryable |}.

Definition processItem (b : Place) (item : SyncBatchItemInput) : M ItemResult :=
  let tenant := tenantId (pk_scope b) in
  let itemKey := key tenant (pk_key b) in
  verified ← verifyOfflineSyncPayloadHash item (place_context b) (payloadHashPort (rt_ports (pk_runtime b)));
  if negb verified then
    e ← readProjection itemReceipts itemKey;
    stynx ← integrity b item (re_item <$> e);
    mret (rejected b item (fresh_item b qs_rejected item) ITEM_INTEGRITY (Some stynx))
  else
    previousQueue ← readProjection queueItems (key tenant (bi_queueItemId item));
    if match previousQueue with
       | Some q => negb (bool_decide (bi_idempotencyKey (si_input q) = Some (pk_key b)))
       | None => false
       end
    then mret (rejected b item (fresh_item b qs_rejected item) QUEUE_ID_REUSED None) else
    e6 ← readProjection e6Items itemKey;
    match e6 with
    | Some e6 => process_e6 b item itemKey e6
    | None =>
        previous ← readProjection itemReceipts itemKey;
        let reapplying := reapplies b item previous in
        match previous with
        | Some e =>
            if reapplying then process_new b item itemKey previous true
            else if negb (String.eqb (re_hash e) (bi_payloadHash item)) then
              stynx ← integrity b item (Some (re_item e));
              mret (rejected b item (set_si_input (set_bi_queueItemId (bi_queueItemId item)) (re_item e))
                      ITEM_INTEGRITY (Some stynx))
            else if answered b item e then mret (duplicate_result b item e)
            else process_new b item itemKey previous false
        | None => process_new b item itemKey None false
        end
    end.
End item.
