(* ===== verification/SyncBatch.v ===== *)
(** * SyncBatch: durable batches, and the listings.

    [submitDurableSyncBatch] of [offline-sync/src/in-memory-offline-sync.store.ts] with the
    fingerprints and replayed responses of [transport.ts]. The code that runs before the gate
    of the tenant ([beginBatch]) and the exclusive run ([runBatch]) are two operations:
    other calls can come between them. *)
From Stdlib Require Import Ascii.
From stdpp Require Import pretty.
From S2P Require Import Prelude JsMap JsText JsDate JsJson OfflineTypes JsCursor Listing RangeAdmin Numbering SyncTypes SyncStore SyncItem.

Local Open Scope Z_scope.

(** ** The input as data *)

Definition member (name : string) (o : option string) : list (string * json) :=
  match o with Some v => [(name, JString v)] | None => [] end.
Definition number_member (name : string) (o : option Z) : list (string * json) :=
  match o with Some v => [(name, integer v)] | None => [] end.

Definition item_json (i : SyncBatchItemInput) : json :=
  JObject ([("queueItemId", JString (bi_queueItemId i)); ("entityType", JString (bi_entityType i));
            ("localEntityId", JString (bi_localEntityId i))]
           ++ member "idempotencyKey" (bi_idempotencyKey i)
           ++ [("payloadHash", JString (bi_payloadHash i)); ("payloadJson", bi_payloadJson i);
               ("createdLocallyAt", JString (bi_createdLocallyAt i))]
           ++ number_member "reservedNumber" (bi_reservedNumber i)
           ++ member "reservationId" (bi_reservationId i)).

Definition input_json (i : SubmitSyncBatchInput) : json :=
  JObject ([("orgUnitId", JString (sb_orgUnitId i)); ("deviceId", JString (sb_deviceId i));
            ("deviceBatchId", JString (sb_deviceBatchId i)); ("items", JArray (map item_json (sb_items i)))]
           ++ member "agentId" (sb_agentId i) ++ number_member "batchSequence" (sb_batchSequence i)).

(** ** Responses *)

(** The calls a replay makes on the response: [status] and the headers it sets. *)
Record ReplayResponse := { rp_status : option Z; rp_headers : list (string * string) }.

Definition applyReplayResponse (transport : TransportOptions) (ports : Ports) (status : option Z)
    (headers : list (string * string)) : option ReplayResponse :=
  match to_headers transport with
  | None => None
  | Some _ => Some {| rp_status := status; rp_headers := headers ++
      [(default "X-Idempotency-Key" (replayKeyHeaderName ports), to_transportIdempotencyKey transport);
       (default "Idempotency-Replayed" (replayMarkerHeaderName ports), "true")] |}
  end.

(** The headers that are not kept: those that begin with one of these names, and the rate
    limits. *)
Definition dropped_headers : list string :=
  ["content-length"; "transfer-encoding"; "connection"; "date"; "x-request-id"; "x-correlation-id";
   "x-powered-by"; "x-idempotency-replayed"].
Definition limit_headers : list string := ["ratelimit"; "x-ratelimit"; "x-rate-limit"].
Definition dropped_header (name : string) : bool :=
  let n := lower name in
  existsb (λ p, starts_with p n) dropped_headers
  || existsb (λ p, String.eqb p n || starts_with (p +:+ "-") n) limit_headers.

Definition captureReplayableHeaders (transport : TransportOptions) : list (string * string) :=
  omap (λ p : string * option string, v ← p.2; if dropped_header p.1 then None else Some (p.1, v))
    (default [] (to_headers transport)).

Section batch.
(** Hexadecimal SHA-256, the host's collation, [JSON.stringify] of a result (whose members
    stand in the order of the caller's objects), the messages of the language's errors. *)
Context (sha256 : string → string) (locale_le : string → string → bool).
Context (stringify : SubmitSyncBatchResult → string) (native_message : OfflineError → string).
Context (uuid_at : nat → string) (meanwhile : nat → Store → Store).

Notation M := (JS SyncStore SyncError).
Notation await := (await meanwhile).
Notation processItem := (processItem sha256 native_message uuid_at meanwhile).

(** ** Fingerprints *)

Definition transportFingerprint (options : TransportOptions) (input : SubmitSyncBatchInput) : string :=
  let body := match to_requestBody options with
              | None | Some JUndefined | Some JNull => input_json input
              | Some j => j
              end in
  sha256 (to_method options +:+ ":" +:+ to_path options +:+ ":" +:+ stableStringify locale_le body).

Definition transportCompositeKey (scope : Scope) (options : TransportOptions) : string :=
  sha256 (default EmptyString (encode (JObject
    [("tenantId", JString (tenantId scope));
     ("userId", match to_transportUserId options with None => JString (actorId scope) | Some u => nullable u end);
     ("routeKey", JString (to_method options +:+ ":" +:+ to_path options));
     ("headerValue", JString (to_transportIdempotencyKey options))]))).

Definition nullable_integer (o : option Z) : json := match o with Some z => integer z | None => JNull end.

Definition context_item (i : SyncBatchItemInput) : json :=
  JObject [("id", JString (bi_queueItemId i)); ("key", nullable (bi_idempotencyKey i));
           ("hash", JString (bi_payloadHash i));
           ("payloadJsonHash", JString (sha256 (stableStringify locale_le (bi_payloadJson i))));
           ("entityType", JString (bi_entityType i)); ("localEntityId", JString (bi_localEntityId i));
           ("reservationId", nullable (bi_reservationId i));
           ("reservedNumber", nullable_integer (bi_reservedNumber i));
           ("createdLocallyAt", JString (bi_createdLocallyAt i))].

Definition batchContextFingerprint (input : SubmitSyncBatchInput) (agentId : string) : string :=
  sha256 (stableStringify locale_le (JObject
    ([("orgUnitId", JString (sb_orgUnitId input)); ("agentId", JString agentId)]
     ++ member "requestedAgentId" (sb_agentId input)
     ++ [("sequence", nullable_integer (sb_batchSequence input));
         ("items", JArray (map context_item (sb_items input)))]))).

(** ** Item keys *)

Definition invalid_input (message : string) : SyncError := own_error INVALID_INPUT 400 message.

(** The key of an item without one. *)
Definition legacy_key (scope : Scope) (input : SubmitSyncBatchInput) (ports : Ports) (item : SyncBatchItemInput) : M string :=
  identityText ← match legacyItemIdentityResolver ports with
                 | Some resolve => await (λ n, resolve n
                     {| li_tenantId := tenantId scope; li_deviceId := sb_deviceId input;
                        li_deviceBatchId := sb_deviceBatchId input; li_queueItemId := bi_queueItemId item;
                        li_localEntityId := bi_localEntityId item; li_entityType := bi_entityType item |})
                 | None => mret (join NUL [sb_deviceId input; sb_deviceBatchId input; bi_queueItemId item])
                 end;
  _ ← throw_if (String.eqb identityText EmptyString) (invalid_input "Legacy identity is empty.");
  mret ("stynx:legacy:v1:" +:+ sha256 (tenantId scope +:+ NUL +:+ identityText)).

(** The loop that fills [itemKeys] and [declaredKeys]. *)
Fixpoint item_keys (scope : Scope) (input : SubmitSyncBatchInput) (ports : Ports) (declaredKeys : list string)
    (itemKeys : jsmap string string) (l : list SyncBatchItemInput) : M (jsmap string string) :=
  match l with
  | [] => mret itemKeys
  | item :: rest =>
      _ ← throw_if (match bi_reservedNumber item with Some n => negb (isSafeInteger n) | None => false end)
            (invalid_input "reservedNumber must be a safe integer.");
      _ ← throw_if (match bi_idempotencyKey item with Some k => starts_with "stynx:legacy:" k | None => false end)
            (invalid_input "Reserved item namespace.");
      k ← match truthy (bi_idempotencyKey item) with
          | Some k => mret k
          | None => legacy_key scope input ports item
          end;
      _ ← throw_if (includes_text declaredKeys k) (invalid_input "Item identity appears more than once in the batch.");
      item_keys scope input ports (k :: declaredKeys) (jm_set (bi_queueItemId item) k itemKeys) rest
  end.

Definition check_ports (input : SubmitSyncBatchInput) (ports : Ports) : M () :=
  let applier := bool_decide (is_Some (itemApplier ports)) in
  _ ← throw_if (negb applier && existsb (λ i, declared i && bool_decide (is_Some (bi_reservedNumber i))) (sb_items input))
        (configuration "itemApplier");
  throw_if (applier && negb (bool_decide (is_Some (eventPort ports)))) (configuration "eventPort").

(** ** Admission *)

(** A replayed result, a wait for the pending run, or a run of its own. *)
Inductive Admission :=
| adm_replay (r : SubmitSyncBatchResult) (response : option ReplayResponse)
| adm_wait
| adm_run.

Definition batch_conflict (message : string) : SyncError := own_error BATCH_CONFLICT 409 message.

(** The checks of the transport key against the batch. *)
Definition check_transport (bound : option (string * string)) (identity fingerprint : string) : M () :=
  match bound with
  | None => mret ()
  | Some (batchIdentity, print) =>
      _ ← throw_if (negb (String.eqb print fingerprint)) BodyReuse;
      throw_if (negb (String.eqb batchIdentity identity)) (batch_conflict "Transport key belongs to another batch.")
  end.

(** The receipts of the batches of a device. *)
Definition siblings (scope : Scope) (deviceId : string) (s : SyncStore) : list SyncBatchReceipt :=
  List.filter (λ r, String.eqb (br_deviceId r) deviceId)
    (map (λ p, be_receipt p.2) (List.filter (λ p, starts_with (tenantId scope +:+ ":") p.1) (batches s))).

Definition expected_sequence (receipts : list SyncBatchReceipt) : Z :=
  foldr Z.max 0 (map (λ r, default 0 (br_batchSequence r)) receipts) + 1.

Definition check_sequence (scope : Scope) (input : SubmitSyncBatchInput) : M () :=
  match sb_batchSequence input with
  | None => mret ()
  | Some n =>
      receipts ← getf (siblings scope (sb_deviceId input));
      _ ← throw_if (existsb (λ r, bool_decide (br_batchSequence r = Some n)) receipts)
            (batch_conflict "Batch sequence is already used.");
      let expected := expected_sequence receipts in
      throw_if (negb (n =? expected))
        (own_error BATCH_SEQUENCE 422 ("Expected batch sequence " +:+ pretty expected +:+ "; received " +:+ pretty n +:+ "."))
  end.

Definition open_receipt (input : SubmitSyncBatchInput) : SyncBatchReceipt :=
  {| br_deviceId := sb_deviceId input; br_deviceBatchId := sb_deviceBatchId input;
     br_batchSequence := sb_batchSequence input; br_status := batch_open; br_items := [];
     br_responseStatus := None; br_responseBodyBytes := None; br_responseHeaders := [] |}.

Definition set_be_promise b (e : BatchEntry) : BatchEntry :=
  {| be_contextHash := be_contextHash e; be_initialPending := be_initialPending e; be_receipt := be_receipt e;
     be_result := be_result e; be_promise := b; be_transportKey := be_transportKey e;
     be_fingerprint := be_fingerprint e; be_createdAt := be_createdAt e |}.

Definition replay_of (runtime : Runtime) (e : BatchEntry) : option ReplayResponse :=
  applyReplayResponse (rt_transport runtime) (rt_ports runtime) (br_responseStatus (be_receipt e))
    (br_responseHeaders (be_receipt e)).

Definition admission_of (scope : Scope) (input : SubmitSyncBatchInput) (runtime : Runtime) (now : string) : M Admission :=
  let identity := batch_key scope input in
  let contextHash := batchContextFingerprint input (rt_agentId runtime) in
  let fingerprint := transportFingerprint (rt_transport runtime) input in
  let transportKey := transportCompositeKey scope (rt_transport runtime) in
  let bind_transport := modify (on_transport (jm_set transportKey (identity, fingerprint))) in
  prior ← getf (λ s, jm_get identity (batches s));
  bound ← getf (λ s, jm_get transportKey (transport s));
  match prior with
  | Some e =>
      _ ← throw_if (negb (String.eqb (be_contextHash e) contextHash))
            (batch_conflict "Batch context differs from the original.");
      _ ← check_transport bound identity fingerprint;
      _ ← bind_transport;
      match be_result e with
      | Some r => mret (adm_replay r (replay_of runtime e))
      | None =>
          if be_promise e then mret adm_wait else
          _ ← modify (on_batches (jm_set identity (set_be_promise true e)));
          mret adm_run
      end
  | None =>
      _ ← check_sequence scope input;
      _ ← check_transport bound identity fingerprint;
      _ ← modify (on_batches (jm_set identity
            {| be_contextHash := contextHash; be_initialPending := initialPending (rt_ports runtime);
               be_receipt := open_receipt input; be_result := None; be_promise := true;
               be_transportKey := transportKey; be_fingerprint := fingerprint; be_createdAt := now |}));
      _ ← bind_transport;
      mret adm_run
  end.

(** Everything before the run: the item keys and the admission. *)
Definition beginBatch (scope : Scope) (input : SubmitSyncBatchInput) (runtime : Runtime) (now : string) :
    M (jsmap string string * Admission) :=
  itemKeys ← item_keys scope input (rt_ports runtime) [] [] (sb_items input);
  _ ← check_ports input (rt_ports runtime);
  admission ← admission_of scope input runtime now;
  mret (itemKeys, admission).

(** The rest of a call that waits for the pending run, which has [settled] in time or not. *)
Definition endWait (scope : Scope) (input : SubmitSyncBatchInput) (runtime : Runtime)
    (settled : option (outcome SyncError SubmitSyncBatchResult)) : M (SubmitSyncBatchResult * option ReplayResponse) :=
  match settled with
  | Some (Throw e) => throw e
  | Some (Ok r) =>
      e ← getf (λ s, jm_get (batch_key scope input) (batches s));
      mret (r, e ≫= replay_of runtime)
  | None => throw (own_error BATCH_IN_PROGRESS 503 "Batch is in progress.")
  end.

(** ** The run *)

Definition final_receipt (entry : SyncBatchReceipt) (retryable : bool) (receipts : list SyncItemReceipt)
    (transport : TransportOptions) : SyncBatchReceipt :=
  {| br_deviceId := br_deviceId entry; br_deviceBatchId := br_deviceBatchId entry;
     br_batchSequence := br_batchSequence entry; br_status := if retryable then batch_open else batch_closed;
     br_items := receipts; br_responseStatus := if retryable then None else Some 201;
     br_responseBodyBytes := None; br_responseHeaders := captureReplayableHeaders transport |}.

Definition set_body (body : option string) (r : SyncBatchReceipt) : SyncBatchReceipt :=
  {| br_deviceId := br_deviceId r; br_deviceBatchId := br_deviceBatchId r; br_batchSequence := br_batchSequence r;
     br_status := br_status r; br_items := br_items r; br_responseStatus := br_responseStatus r;
     br_responseBodyBytes := body; br_responseHeaders := br_responseHeaders r |}.

Definition settle_batch (receipt : SyncBatchReceipt) (r : option SubmitSyncBatchResult) (e : BatchEntry) : BatchEntry :=
  {| be_contextHash := be_contextHash e; be_initialPending := be_initialPending e; be_receipt := receipt;
     be_result := over (be_result e) r; be_promise := be_promise e; be_transportKey := be_transportKey e;
     be_fingerprint := be_fingerprint e; be_createdAt := be_createdAt e |}.

(** The place of an item: [itemKeys.get(queueItemId)!]. *)
Definition place (scope : Scope) (input : SubmitSyncBatchInput) (runtime : Runtime) (now : string) (initialPending_ : bool)
    (itemKeys : jsmap string string) (item : SyncBatchItemInput) : Place :=
  {| pk_scope := scope; pk_input := input; pk_runtime := runtime; pk_now := now;
     pk_identity := batch_key scope input; pk_initialPending := initialPending_;
     pk_key := default EmptyString (jm_get (bi_queueItemId item) itemKeys) |}.

Definition batch_result (input : SubmitSyncBatchInput) (receipt : SyncBatchReceipt) (results : list ItemResult) :
    SubmitSyncBatchResult :=
  {| sr_batchId := sb_deviceBatchId input; sr_acceptedItems := Z.of_nat (length (sb_items input));
     sr_duplicateItems := Z.of_nat (length (List.filter im_duplicate results));
     sr_conflicts := conflict_ids (map im_stored results); sr_items := map im_stored results; sr_receipt := receipt |}.

(** [run]: each item in a frame of its own, then the receipt of the batch. *)
Definition run (scope : Scope) (input : SubmitSyncBatchInput) (runtime : Runtime) (now : string)
    (itemKeys : jsmap string string) : M SubmitSyncBatchResult :=
  let identity := batch_key scope input in
  record ← getf (λ s, jm_get identity (batches s));
  match record with
  | None => throw (Own TypeError)
  | Some record =>
      results ← js_map (λ item, owned (processItem (place scope input runtime now (be_initialPending record) itemKeys item) item))
                  (sb_items input);
      let retryable := existsb im_retryable results in
      let finalReceipt := final_receipt (be_receipt record) retryable (map im_receipt results) (rt_transport runtime) in
      let r := batch_result input finalReceipt results in
      _ ← modify (on_batches (λ b, match jm_get identity b with
            | Some e => jm_set identity
                (settle_batch (if retryable then finalReceipt else set_body (Some (stringify r)) finalReceipt)
                   (if retryable then None else Some r) e) b
            | None => b
            end));
      mret r
  end.

(** The run of an admitted batch: [finally] the promise goes. *)
Definition runBatch (scope : Scope) (input : SubmitSyncBatchInput) (runtime : Runtime) (now : string)
    (itemKeys : jsmap string string) : M SubmitSyncBatchResult :=
  js_finally (run scope input runtime now itemKeys)
    (modify (on_batches (λ b, match jm_get (batch_key scope input) b with
      | Some e => jm_set (batch_key scope input) (set_be_promise false e) b
      | None => b
      end))).

(** A call with no other call in between. *)
Definition submitDurableSyncBatch (scope : Scope) (input : SubmitSyncBatchInput) (runtime : Runtime) (now : string) :
    M (SubmitSyncBatchResult * option ReplayResponse) :=
  '(itemKeys, admission) ← beginBatch scope input runtime now;
  match admission with
  | adm_replay r response => mret (r, response)
  | adm_wait => endWait scope input runtime None
  | adm_run => r ← runBatch scope input runtime now itemKeys; mret (r, None)
  end.
End batch.

(** ** The listings of the sync store.

    [listSyncBatchReceipts], [listSyncItemReceipts], [listSyncQueueItems],
    [listSyncConflictActions] and [listSyncConflicts] of
    [offline-sync/src/in-memory-offline-sync.store.ts]. *)

(** ** Rows *)

Record SyncBatchReceiptSummary := {
  bs_deviceId : string; bs_deviceBatchId : string; bs_batchSequence : option Z; bs_status : BatchStatus;
  bs_responseStatus : option Z; bs_createdAt : string }.
Record SyncItemReceiptRecord := {
  rr_receipt : SyncItemReceipt; rr_receiptId : string; rr_deviceId : string; rr_deviceBatchId : string;
  rr_payloadHash : string; rr_receivedAt : string }.
Record SyncQueueItemRecord := { qr_item : StoredSyncQueueItem; qr_deviceBatchId : option string }.
Record SyncConflictRecord := { kr_conflict : SyncConflict; kr_deviceId : string; kr_createdAt : string }.

Record ListSyncBatchReceiptsInput := {
  lb_deviceId : option string; lb_status : option BatchStatus; lb_cursor : option string; lb_limit : option Z }.
Record ListSyncItemReceiptsInput := {
  lt_deviceId : option string; lt_deviceBatchId : option string; lt_status : option QueueStatus;
  lt_cursor : option string; lt_limit : option Z }.
Record ListSyncQueueItemsInput := {
  lq_deviceId : option string; lq_status : option QueueStatus; lq_entityType : option string;
  lq_cursor : option string; lq_limit : option Z }.
Record ListSyncConflictActionsInput := {
  la_conflictId : string; la_cursor : option string; la_limit : option Z }.
Record ListSyncConflictsInput := {
  lc_status : option ConflictStatus; lc_conflictType : option string; lc_queueItemId : option string;
  lc_deviceId : option string; lc_cursor : option string; lc_limit : option Z }.

(** [filter === undefined || value === filter] *)
Definition matches_status {A} `{EqDecision A} (o : option A) (v : A) : bool :=
  match o with Some x => bool_decide (v = x) | None => true end.

(** [new Date(value).toISOString()] *)
Definition iso_of (value : string) : result string :=
  match date_parse value with Some t => Ok (to_iso t) | None => Throw RangeError end.

Definition drop_prefix (p s : string) : string := String.substring (String.length p) (String.length s - String.length p) s.

Definition set_ir_queueItemId id (r : SyncItemReceipt) : SyncItemReceipt :=
  {| ir_queueItemId := id; ir_status := ir_status r; ir_errorCode := ir_errorCode r; ir_context := ir_context r;
     ir_stynx := ir_stynx r |}.
Definition set_si_stynx x (i : StoredSyncQueueItem) : StoredSyncQueueItem :=
  {| si_input := si_input i; si_tenantId := si_tenantId i; si_agentId := si_agentId i; si_orgUnitId := si_orgUnitId i;
     si_deviceId := si_deviceId i; si_status := si_status i; si_receivedAt := si_receivedAt i;
     si_errorCode := si_errorCode i; si_context := si_context i; si_stynx := x |}.

(** ** Listings *)

Notation prefix_of scope := (tenantId scope +:+ ":").

Definition listSyncBatchReceipts (s : SyncStore) (scope : Scope) (input : ListSyncBatchReceiptsInput) :
    result (Page SyncBatchReceiptSummary) :=
  rows ← map_result (λ p : string * BatchEntry,
      let r := be_receipt p.2 in
      at_ ← sortInstantOf (be_createdAt p.2);
      created ← iso_of (be_createdAt p.2);
      Ok (Build_Row [at_; br_deviceId r; br_deviceBatchId r]
        {| bs_deviceId := br_deviceId r; bs_deviceBatchId := br_deviceBatchId r; bs_batchSequence := br_batchSequence r;
           bs_status := br_status r; bs_responseStatus := br_responseStatus r; bs_createdAt := created |}))
    (List.filter (λ p : string * BatchEntry,
        starts_with (prefix_of scope) p.1 && omatch (lb_deviceId input) (br_deviceId (be_receipt p.2))
        && matches_status (lb_status input) (br_status (be_receipt p.2))) (batches s));
  pageOf rows 3 (lb_cursor input) (lb_limit input).

Definition listSyncItemReceipts (s : SyncStore) (scope : Scope) (input : ListSyncItemReceiptsInput) :
    result (Page SyncItemReceiptRecord) :=
  rows ← map_result (λ p : string * ReceiptEntry,
      let receiptId := drop_prefix (prefix_of scope) p.1 in
      at_ ← sortInstantOf (re_receivedAt p.2);
      received ← iso_of (re_receivedAt p.2);
      Ok (Build_Row [at_; receiptId]
        {| rr_receipt := set_ir_queueItemId (si_queueItemId (re_item p.2)) (re_receipt p.2); rr_receiptId := receiptId;
           rr_deviceId := si_deviceId (re_item p.2); rr_deviceBatchId := re_deviceBatchId p.2;
           rr_payloadHash := re_hash p.2; rr_receivedAt := received |}))
    (List.filter (λ p : string * ReceiptEntry,
        starts_with (prefix_of scope) p.1 && omatch (lt_deviceId input) (si_deviceId (re_item p.2))
        && omatch (lt_deviceBatchId input) (re_deviceBatchId p.2)
        && matches_status (lt_status input) (ir_status (re_receipt p.2))) (itemReceipts (projections s)));
  pageOf rows 2 (lt_cursor input) (lt_limit input).

Definition queue_row (s : SyncStore) (scope : Scope) (p : string * StoredSyncQueueItem) : result (Row SyncQueueItemRecord) :=
  let '(k, item) := p in
  let receipt := jm_get (key (tenantId scope) (default "undefined" (bi_idempotencyKey (si_input item))))
                   (itemReceipts (projections s)) in
  at_ ← sortInstantOf (si_receivedAt item);
  Ok (Build_Row [at_; si_queueItemId item]
    {| qr_item := match e ← receipt; ir_stynx (re_receipt e) with Some x => set_si_stynx (Some x) item | None => item end;
       qr_deviceBatchId := jm_get k (queueBatches (projections s)) |}).

Definition listSyncQueueItems (s : SyncStore) (scope : Scope) (input : ListSyncQueueItemsInput) :
    result (Page SyncQueueItemRecord) :=
  rows ← map_result (queue_row s scope)
    (List.filter (λ p : string * StoredSyncQueueItem,
        starts_with (prefix_of scope) p.1 && omatch (lq_deviceId input) (si_deviceId p.2)
        && matches_status (lq_status input) (si_status p.2)
        && omatch (lq_entityType input) (bi_entityType (si_input p.2))) (queueItems (projections s)));
  pageOf rows 2 (lq_cursor input) (lq_limit input).

Definition listSyncConflictActions (s : SyncStore) (scope : Scope) (input : ListSyncConflictActionsInput) :
    result (Page SyncConflictActionRecord) :=
  rows ← map_result (λ p : SyncConflictActionRecord * string,
      at_ ← sortInstantOf (ar_createdAt p.1); Ok (Build_Row [at_; p.2] p.1))
    (List.filter (λ p : SyncConflictActionRecord * string,
        String.eqb (ar_tenantId p.1) (tenantId scope) && String.eqb (ar_conflictId p.1) (la_conflictId input))
       (conflictActions (projections s)));
  pageOf rows 2 (la_cursor input) (la_limit input).

(** [queueItems.get(...)!.deviceId] *)
Definition deviceOf (s : SyncStore) (scope : Scope) (c : SyncConflict) : result string :=
  match jm_get (key (tenantId scope) (cf_queueItemId c)) (queueItems (projections s)) with
  | Some i => Ok (si_deviceId i)
  | None => Throw TypeError
  end.

(** The filter by device reads the device of every conflict it is asked about. *)
Fixpoint filter_device (s : SyncStore) (scope : Scope) (deviceId : option string) (l : list (string * SyncConflict)) :
    result (list (string * SyncConflict)) :=
  match deviceId, l with
  | None, _ | _, [] => Ok l
  | Some d, p :: l' =>
      device ← deviceOf s scope p.2;
      rest ← filter_device s scope deviceId l';
      Ok (if String.eqb device d then p :: rest else rest)
  end.

Definition conflict_row (s : SyncStore) (scope : Scope) (p : string * SyncConflict) : result (Row SyncConflictRecord) :=
  let '(k, c) := p in
  match jm_get k (conflictCreatedAt (projections s)) with
  | None => Throw RangeError
  | Some createdAt =>
      at_ ← sortInstantOf createdAt;
      device ← deviceOf s scope c;
      created ← iso_of createdAt;
      Ok (Build_Row [at_; cf_conflictId c]
        {| kr_conflict := match jm_get k (conflictStynx (projections s)) with Some x => set_cf_stynx (Some x) c | None => c end;
           kr_deviceId := device; kr_createdAt := created |})
  end.

Definition listSyncConflicts (s : SyncStore) (scope : Scope) (input : ListSyncConflictsInput) :
    result (Page SyncConflictRecord) :=
  asked ← filter_device s scope (lc_deviceId input)
    (List.filter (λ p : string * SyncConflict,
        starts_with (prefix_of scope) p.1 && matches_status (lc_status input) (cf_status p.2)
        && omatch (lc_conflictType input) (cf_conflictType p.2)
        && omatch (lc_queueItemId input) (cf_queueItemId p.2)) (conflicts (projections s)));
  rows ← map_result (conflict_row s scope) asked;
  pageOf rows 2 (lc_cursor input) (lc_limit input).
