(* ===== verification/SyncEffects.v ===== *)
(** * SyncEffects: relations that all methods respect; an applied item stays applied.

    The relation [keeps]: no further applier ran, and every item that is settled, by an
    applied receipt or by an E6 entry, stays settled. All methods respect it but the
    application of an item, which adds one effect and settles it. *)
From S2P Require Import Prelude JsMap JsText JsJson OfflineTypes RangeAdmin Numbering SyncTypes SyncStore SyncItem SyncBatch.

(** ** Relations that every method of the sync store respects.

    [leads R m]: the method [m] only moves from a state to an [R]-related one, whether it
    returns or throws. A [SyncRel] is a preorder that ignores numbering and awaits and that a
    rolled back frame respects; the methods of SyncStore, SyncItem and SyncBatch are
    traversed once for each relation with the tactic [lead]. *)

Local Open Scope Z_scope.

Notation M := (JS SyncStore SyncError).

Definition leads {A} (R : relation SyncStore) (m : M A) : Prop := ∀ s, R s (m s).2.

Lemma leads_run {A} R (m : M A) s o s' : leads R m → m s = (o, s') → R s s'.
Proof. intros Hm Hs. specialize (Hm s). by rewrite Hs in Hm. Qed.

(** Other calls only ever take further UUIDs. *)
Definition forward (meanwhile : nat → Store → Store) : Prop := ∀ n s, (uuids s ≤ uuids (meanwhile n s))%nat.

Class SyncRel (R : relation SyncStore) : Prop := {
  sr_pre :: PreOrder R;
  sr_numbering s n : (uuids (numbering s) ≤ uuids n)%nat → R s (on_numbering (λ _, n) s);
  sr_await s : R s (next_await s);
  sr_restore s s' : R s s' → R s (on_projections (λ _, projections s) s') }.

Create HintDb lead discriminated.

Section leads.
Context (R : relation SyncStore) `{!SyncRel R}.

Lemma leads_ret {A} (a : A) : leads R (mret a).
Proof. intros s. reflexivity. Qed.
Lemma leads_throw {A} e : leads R (throw e : M A).
Proof. intros s. reflexivity. Qed.
Lemma leads_getf {A} (f : SyncStore → A) : leads R (getf f).
Proof. intros s. reflexivity. Qed.
Lemma leads_lift {A} (o : outcome SyncError A) : leads R (lift o).
Proof. intros s. reflexivity. Qed.
Lemma leads_throw_if c e : leads R (throw_if c e).
Proof. intros s. by destruct c. Qed.
Lemma leads_modify f : (∀ s, R s (f s)) → leads R (modify f).
Proof. intros H s. apply H. Qed.
Lemma leads_bind {A B} (m : M A) (f : A → M B) : leads R m → (∀ a, leads R (f a)) → leads R (m ≫= f).
Proof.
  intros Hm Hf s. unfold mbind, js_bind. specialize (Hm s). destruct (m s) as [[a|e] s1]; simpl in *; [|done].
  etrans; [exact Hm|apply Hf].
Qed.
Lemma leads_fmap {A B} (f : A → B) (m : M A) : leads R m → leads R (f <$> m).
Proof. intros Hm s. specialize (Hm s). unfold fmap, js_fmap. by destruct (m s) as [[a|e] s1]. Qed.
Lemma leads_readProjection {V} (m : Projections → jsmap string V) k : leads R (readProjection m k).
Proof. apply leads_getf. Qed.
Lemma leads_owned {A} (m : M A) : leads R m → leads R (owned m).
Proof.
  intros Hm s. specialize (Hm s). unfold owned. destruct (m s) as [[a|e] s1]; simpl in *; [done|].
  by apply sr_restore.
Qed.
Lemma leads_try {A} (m : M A) : leads R m → leads R (js_try m).
Proof. intros Hm s. specialize (Hm s). unfold js_try. by destruct (m s) as [[a|e] s1]. Qed.
Lemma leads_finally {A} (m : M A) fin : leads R m → leads R fin → leads R (js_finally m fin).
Proof.
  intros Hm Hf s. unfold js_finally. specialize (Hm s). specialize (Hf (m s).2).
  destruct (fin (m s).2) as [[?|?] s2]; simpl in *; by etrans.
Qed.
Lemma leads_each {A} (f : A → M ()) l : (∀ x, leads R (f x)) → leads R (js_each f l).
Proof. intros Hf. induction l; simpl; [apply leads_ret|by apply leads_bind]. Qed.
Lemma leads_map {A B} (f : A → M B) l : (∀ x, leads R (f x)) → leads R (js_map f l).
Proof.
  intros Hf. induction l; simpl; [apply leads_ret|]. apply leads_bind; [done|]. intros. apply leads_bind; [done|].
  intros. apply leads_ret.
Qed.

Lemma leads_number_op {A} (m : JS Store OfflineError A) :
  (∀ n, (uuids n ≤ uuids (m n).2)%nat) → leads R (number_op m).
Proof.
  intros Hm s. specialize (Hm (numbering s)). unfold number_op.
  destruct (m (numbering s)) as [[a|e] n]; simpl in *; by apply sr_numbering.
Qed.
Lemma leads_number_lift {A} (o : outcome OfflineError A) : leads R (number_op (lift o)).
Proof. by apply leads_number_op. Qed.

Context (uuid_at : nat → string) (meanwhile : nat → Store → Store) (Hforward : forward meanwhile).

Lemma leads_uuid : leads R (SyncStore.randomUUID uuid_at).
Proof. apply leads_number_op. intros n. unfold Numbering.randomUUID, next_uuid. simpl. lia. Qed.
Lemma leads_await {A} (reply : nat → Answer A) : leads R (await meanwhile reply).
Proof using Hforward SyncRel0.
  intros s. unfold await. js_unfold. cbn. etrans; [apply sr_await|].
  apply (sr_numbering (next_await s)). apply (Hforward (awaits s)).
Qed.
Lemma leads_await_port {A} (port : option (nat → Answer A)) : leads R (await_port meanwhile port).
Proof using Hforward SyncRel0. destruct port; simpl; [apply leads_fmap|]; apply leads_await. Qed.

Lemma uuids_cover scope item n : (uuids n ≤ uuids (coverReserved scope item n).2)%nat.
Proof. unfold coverReserved. js_case. Qed.
Lemma uuids_finalize k item id now n : (uuids n ≤ uuids (finalizeReserved k item id now n).2)%nat.
Proof. unfold finalizeReserved. js_case. Qed.
Lemma leads_cover scope item : leads R (number_op (coverReserved scope item)).
Proof. apply leads_number_op, uuids_cover. Qed.
Lemma leads_finalize k item id now : leads R (number_op (finalizeReserved k item id now)).
Proof. apply leads_number_op. intros n. apply uuids_finalize. Qed.
End leads.

#[export] Hint Resolve leads_ret leads_throw leads_getf leads_lift leads_throw_if leads_readProjection leads_number_lift
  leads_uuid leads_await leads_await_port leads_cover leads_finalize : lead.
#[export] Hint Extern 1 (forward _) => assumption : lead.

(** Traverse a method; the writes are left, or solved by the hints. *)
Ltac lead :=
  repeat first
    [ progress intros
    | progress cbv beta
    | solve [eauto 3 with lead typeclass_instances]
    | apply (leads_bind _)
    | apply (leads_owned _)
    | apply (leads_try _)
    | apply (leads_fmap _)
    | apply (leads_map _)
    | apply (leads_each _)
    | apply (leads_finally _)
    | match goal with |- leads _ (match ?x with _ => _ end) => destruct x eqn:? end
    | match goal with |- leads _ ((match ?x with _ => _ end) _) => destruct x eqn:? end
    | match goal with |- leads _ (let _ := _ in _) => cbv zeta end ].

(** ** Methods from states with a property *)

(** From projections with [P]. *)
Definition leads_from {A} (P : Projections → Prop) (R : relation SyncStore) (m : M A) : Prop :=
  ∀ s, P (projections s) → R s (m s).2.

Definition same_projections (s s' : SyncStore) : Prop := projections s' = projections s.
#[export] Instance same_projections_rel : SyncRel same_projections.
Proof.
  split; unfold same_projections; try done. split; [done|]. intros ??? H1 H2. by rewrite H2.
Qed.

Section from.
Context (R : relation SyncStore) `{!SyncRel R}.
Implicit Types P : Projections → Prop.

Lemma from_leads {A} P (m : M A) : leads R m → leads_from P R m.
Proof. intros Hm s _. apply Hm. Qed.

Lemma from_weaken {A} P P' (m : M A) : leads_from P' R m → (∀ p, P p → P' p) → leads_from P R m.
Proof. intros Hm HP s Hs. by apply Hm, HP. Qed.

(** A step that writes no projection. *)
Lemma from_quiet {A B} P (m : M A) (f : A → M B) :
  leads same_projections m → leads R m → (∀ a, leads_from P R (f a)) → leads_from P R (m ≫= f).
Proof.
  intros Hq Hm Hf s Hs. specialize (Hq s). specialize (Hm s). unfold same_projections, mbind, js_bind in *.
  destruct (m s) as [[a|e] s1]; simpl in *; [|done]. etrans; [exact Hm|]. apply Hf. by rewrite Hq.
Qed.

(** The property is used by the first step. *)
Lemma from_bind {A B} P (m : M A) (f : A → M B) :
  leads_from P R m → (∀ a, leads R (f a)) → leads_from P R (m ≫= f).
Proof.
  intros Hm Hf s Hs. specialize (Hm s Hs). unfold mbind, js_bind in *. destruct (m s) as [[a|e] s1]; simpl in *; [|done].
  etrans; [exact Hm|apply Hf].
Qed.

(** The first step keeps [T], which turns the property into the one of what follows. *)
Lemma from_seq {A B} (T : relation SyncStore) P P' (m : M A) (f : A → M B) :
  leads_from P R m → leads T m → (∀ s s', T s s' → P (projections s) → P' (projections s')) →
  (∀ a, leads_from P' R (f a)) → leads_from P R (m ≫= f).
Proof.
  intros Hm Ht HP Hf s Hs. specialize (Hm s Hs). specialize (Ht s). unfold mbind, js_bind in *.
  destruct (m s) as [[a|e] s1]; simpl in *; [|done]. etrans; [exact Hm|apply Hf]. eauto.
Qed.

Lemma from_read {V B} P (m : Projections → jsmap string V) k (f : option V → M B) :
  (∀ a, leads_from (λ p, P p ∧ jm_get k (m p) = a) R (f a)) → leads_from P R (readProjection m k ≫= f).
Proof. intros Hf s Hs. by apply Hf. Qed.

Lemma from_getf {A B} P (g : SyncStore → A) (f : A → M B) :
  (∀ s, P (projections s) → leads_from (λ p, P p ∧ p = projections s) R (f (g s))) →
  leads_from P R (getf g ≫= f).
Proof. intros Hf s Hs. by apply (Hf s Hs). Qed.

(** A method may start by looking at the state. *)
Lemma leads_getf_from {A B} (g : SyncStore → A) (f : A → M B) :
  (∀ s, leads_from (λ p, p = projections s) R (f (g s))) → leads R (getf g ≫= f).
Proof. intros Hf s. by apply (Hf s). Qed.

Lemma from_throw_if {B} P (c : bool) e (f : () → M B) :
  (c = false → leads_from P R (f ())) → leads_from P R (throw_if c e ≫= f).
Proof. intros Hf s Hs. destruct c; simpl; [reflexivity|]. by apply Hf. Qed.

(** A write and what follows it. *)
Lemma from_write {B} P P' (g : Projections → Projections) (f : () → M B) :
  (∀ s, P (projections s) → R s (on_projections g s)) → (∀ p, P p → P' (g p)) → leads_from P' R (f ()) →
  leads_from P R (write g ≫= f).
Proof.
  intros Hg HP Hf s Hs. etrans; [by apply Hg|]. change (R (on_projections g s) (f () (on_projections g s)).2).
  apply Hf. by apply HP.
Qed.
End from.

(** ** The steps of an item that write no projection *)
Section quiet.
Context (R : relation SyncStore) `{!SyncRel R} (sha256 : string → string).
Context (uuid_at : nat → string) (meanwhile : nat → Store → Store) (Hforward : forward meanwhile).

Lemma leads_verify item c port : leads R (verifyOfflineSyncPayloadHash sha256 meanwhile item c port).
Proof using Hforward SyncRel0. unfold verifyOfflineSyncPayloadHash. lead. Qed.

Lemma leads_permits ports p c : leads R (permits meanwhile ports p c).
Proof using Hforward SyncRel0. unfold permits. lead. Qed.
#[local] Hint Resolve leads_permits : lead.

Lemma leads_admit_pairs item c ports ex seen pairs :
  (∀ id, leads R (ex id)) → leads R (admit_pairs meanwhile item c ports ex seen pairs).
Proof using Hforward SyncRel0. intros Hex. revert seen. induction pairs; intros; cbn [admit_pairs]; lead. Qed.
#[local] Hint Resolve leads_admit_pairs : lead.

Lemma leads_prepare item c runtime ex :
  (∀ id, leads R (ex id)) → leads R (prepareOfflineSyncItem meanwhile item c runtime ex).
Proof using Hforward SyncRel0. intros Hex. unfold prepareOfflineSyncItem. lead. Qed.

Lemma leads_detect runtime item c pairs : leads R (detect_pairs meanwhile runtime item c pairs).
Proof using Hforward SyncRel0.
  unfold detect_pairs. lead. generalize (cn_pairs a). intros found. revert pairs.
  induction found; intros; cbn [add_pairs]; lead.
Qed.
End quiet.
#[export] Hint Resolve leads_verify leads_prepare leads_detect : lead.

Definition applied_receipt (r : SyncItemReceipt) : Prop :=
  is_Some (x ← ir_stynx r; sx_appliedAt x) ∧ (ir_status r = qs_applied ∨ ir_status r = qs_conflict).

(** An item whose key never reaches an applier again. *)
Definition settled (p : Projections) (k : string) : Prop :=
  is_Some (jm_get k (e6Items p)) ∨ ∃ e, jm_get k (itemReceipts p) = Some e ∧ applied_receipt (re_receipt e).

Definition keeps (s s' : SyncStore) : Prop :=
  let p := projections s in let p' := projections s' in
  jm_wf (itemReceipts p) →
  jm_wf (itemReceipts p') ∧ effects p' = effects p ∧ ∀ k, settled p k → settled p' k.

#[export] Instance keeps_rel : SyncRel keeps.
Proof.
  split; unfold keeps; simpl; try done. split; [done|].
  intros s1 s2 s3 H1 H2 Hwf. destruct (H1 Hwf) as (W2 & E2 & S2). destruct (H2 W2) as (W3 & E3 & S3).
  split; [done|]. split; [congruence|auto].
Qed.

(** ** Writes *)
Lemma keeps_other f :
  (∀ p, itemReceipts (f p) = itemReceipts p ∧ effects (f p) = effects p ∧ e6Items (f p) = e6Items p) →
  leads keeps (write f).
Proof.
  intros Hf. apply leads_modify. intros s. destruct (Hf (projections s)) as (H1 & H2 & H3).
  unfold keeps, settled. simpl. by rewrite H1, H2, H3.
Qed.
Lemma keeps_queueItem k v : leads keeps (writeQueueItem k v).
Proof. by apply keeps_other. Qed.
Lemma keeps_conflict k v : leads keeps (writeConflict k v).
Proof. by apply keeps_other. Qed.
Lemma keeps_e6 k v : leads keeps (write (on_e6Items (jm_set k v))).
Proof.
  apply leads_modify. intros s Hwf. split; [done|]. split; [done|]. intros k' [Hk|Hk]; [|by right].
  left. simpl. rewrite jm_get_set. case_decide; [by eexists|done].
Qed.

(** A receipt may change as long as it does not stop being applied. *)
Lemma keeps_put s k v :
  (∀ e, jm_get k (itemReceipts (projections s)) = Some e → applied_receipt (re_receipt e) → applied_receipt (re_receipt v)) →
  keeps s (on_projections (on_itemReceipts (jm_set k v)) s).
Proof.
  intros Hv Hwf. split; [by apply jm_wf_set|]. split; [done|]. intros k' [Hk|(e & He & Ha)]; [by left|].
  right. simpl. rewrite jm_get_set. case_decide; subst; eauto.
Qed.

#[export] Hint Resolve keeps_queueItem keeps_conflict keeps_e6 : lead.
#[export] Hint Extern 2 (leads keeps (write _)) => apply keeps_other; done : lead.

Section effects.
Context (sha256 : string → string) (locale_le : string → string → bool).
Context (stringify : SubmitSyncBatchResult → string) (native_message : OfflineError → string).
Context (uuid_at : nat → string) (meanwhile : nat → Store → Store) (Hforward : forward meanwhile).

Lemma keeps_saveConflict c now a x d : leads keeps (saveConflict c now a x d).
Proof. unfold saveConflict. lead. Qed.
Hint Resolve keeps_saveConflict : lead.

Lemma keeps_openConflict scope id input now : leads keeps (openConflict uuid_at scope id input now).
Proof. unfold openConflict. lead. Qed.
Lemma keeps_resolveConflict scope id input now : leads keeps (resolveConflict scope id input now).
Proof. unfold resolveConflict. lead. Qed.
Lemma keeps_submitSyncBatch scope input now : leads keeps (submitSyncBatch scope input now).
Proof. unfold submitSyncBatch, submit_item. lead. Qed.

Lemma keeps_allowed runtime id c l : leads keeps (allowed_actions meanwhile runtime id c l).
Proof using Hforward. unfold allowed_actions. lead. Qed.
Hint Resolve keeps_allowed : lead.
Lemma keeps_integrity scope input item k o runtime now :
  leads keeps (integrityConflict uuid_at meanwhile scope input item k o runtime now).
Proof using Hforward. unfold integrityConflict, saveRejection, rejectionContext. lead. Qed.
Hint Resolve keeps_integrity : lead.

(** ** Resolution *)
Lemma keeps_record_resolution scope id input now ev actionId c supplied st a :
  leads keeps (record_resolution meanwhile scope id input now ev actionId c supplied st a).
Proof using Hforward.
  unfold record_resolution. apply leads_bind; [exact _| |intros _; lead].
  apply leads_modify. by intros s Hwf.
Qed.
Hint Resolve keeps_record_resolution : lead.

(** The receipt found for an item is the one under its key. *)
Lemma receipt_of_get id prefix (m : jsmap string ReceiptEntry) k e :
  jm_wf m → receipt_of id prefix m = Some (k, e) → jm_get k m = Some e.
Proof.
  unfold receipt_of. intros Hwf [Hin _]%List.find_some. apply jm_elem_get; [done|]. by apply list_elem_of_In.
Qed.

Lemma keeps_return_to_pending scope k c i id prefix receipts :
  leads_from (λ p, itemReceipts p = receipts) keeps (return_to_pending scope k c i (receipt_of id prefix receipts)).
Proof.
  unfold return_to_pending. apply (from_getf _). intros s0 Hs0.
  destruct (receipt_of id prefix receipts) as [[rk e]|] eqn:He; [|apply from_leads; lead].
  apply (from_throw_if _). rewrite !orb_false_iff. intros [[[[_ _] Ha] _] _].
  apply bool_decide_eq_false in Ha.
  apply (from_write _ _ (λ p, itemReceipts p = receipts)).
  - intros s _. apply keeps_queueItem.
  - intros p [_ ->]. done.
  - intros s Hs Hwf. apply keeps_put; [|done]. rewrite Hs in *. intros e' He' [Hap _].
    apply receipt_of_get in He; [|done]. by simplify_eq.
Qed.

Lemma keeps_resolveWithPort scope id input now port ev :
  leads keeps (resolveWithPort uuid_at meanwhile scope id input now port ev).
Proof using Hforward.
  apply leads_owned; [exact _|]. unfold resolveWithPortLocked.
  apply leads_bind; [exact _|lead|]. intros [c|]; [|lead].
  do 3 (apply leads_bind; [exact _|lead|intros ?]).
  apply (leads_getf_from _). intros s. cbv beta. set (receipts := itemReceipts (projections s)).
  destruct a0 as [i|]; [|apply from_leads; lead].
  repeat (apply (from_quiet _); [lead|lead|intros ?]).
  destruct (resolver_status _) as [st|]; [|apply from_leads; lead].
  apply (from_quiet _); [lead|lead|intros ?].
  apply (from_bind _); [|intros _; lead]. case_match; [|apply from_leads; lead].
  eapply from_weaken; [apply keeps_return_to_pending|]. by intros p ->.
Qed.

(** ** Items *)

(** Only the receipt under [k] may have changed. *)
Definition touches (k : string) (s s' : SyncStore) : Prop :=
  ∀ k', k' ≠ k → jm_get k' (itemReceipts (projections s')) = jm_get k' (itemReceipts (projections s)).
#[local] Instance touches_rel k : SyncRel (touches k).
Proof.
  split; unfold touches; simpl; try done. split; [done|]. intros s1 s2 s3 H1 H2 k' Hk. by rewrite H2, H1.
Qed.
Lemma touches_other k f : (∀ p, itemReceipts (f p) = itemReceipts p) → leads (touches k) (write f).
Proof. intros Hf. apply leads_modify. intros s k' _. simpl. by rewrite Hf. Qed.
Hint Extern 2 (leads (touches _) (write _)) => apply touches_other; done : lead.
Hint Extern 2 (leads (touches _) (writeQueueItem _ _)) => apply touches_other; done : lead.
Hint Extern 2 (leads (touches _) (writeConflict _ _)) => apply touches_other; done : lead.

Lemma touches_mark scope id affected now l ev x k e :
  leads (touches k) (mark_receipt scope id affected now l ev x (k, e)).
Proof.
  unfold mark_receipt, saveConflict. case_match; [|lead]. apply leads_bind; [exact _| |lead].
  apply leads_modify. intros s k' Hk'. simpl. by rewrite jm_get_set_ne.
Qed.

Lemma applied_evidence ev x r : sx_appliedAt x = None → applied_receipt r → applied_receipt (evidence_receipt ev x r).
Proof.
  intros Hx [Ha _]. split; [|by right]. unfold evidence_receipt. simpl. destruct (ir_stynx r) as [y|]; simpl in *.
  - unfold over. by rewrite Hx.
  - by destruct Ha.
Qed.

Lemma keeps_mark_one scope id affected now l ev x k e :
  sx_appliedAt x = None →
  leads_from (λ p, jm_get k (itemReceipts p) = Some e) keeps (mark_receipt scope id affected now l ev x (k, e)).
Proof.
  intros Hx. unfold mark_receipt. case_match; [|apply from_leads; lead].
  apply (from_write _ _ (λ _, True)); [|done|apply from_leads; lead].
  intros s Hs. apply keeps_put. intros e' He' Ha. simplify_eq. by apply applied_evidence.
Qed.

Lemma keeps_mark scope id affected now l ev x (receipts : jsmap string ReceiptEntry) :
  sx_appliedAt x = None → jm_wf receipts →
  leads_from (λ p, ∀ k e, (k, e) ∈ receipts → jm_get k (itemReceipts p) = Some e) keeps
    (js_each (mark_receipt scope id affected now l ev x) receipts).
Proof.
  intros Hx. induction receipts as [|[k e] m IH]; intros Hwf; [apply from_leads; lead|].
  apply NoDup_cons in Hwf as [Hk Hwf]. cbn [js_each].
  apply (from_seq _ (touches k) _ (λ p, ∀ k e, (k, e) ∈ m → jm_get k (itemReceipts p) = Some e)).
  - eapply from_weaken; [by apply keeps_mark_one|]. simpl. intros p Hp. apply Hp. by left.
  - apply touches_mark.
  - intros s s' Ht Hs k' e' He'. rewrite Ht; [apply Hs; by right|]. intros ->. apply Hk.
    apply list_elem_of_fmap. by exists (k, e').
  - intros _. by apply IH.
Qed.

Lemma keeps_assume {A} (m : M A) : leads_from (λ p, jm_wf (itemReceipts p)) keeps m → leads keeps m.
Proof. intros Hm s Hwf. by apply Hm. Qed.

Lemma keeps_record_affected scope runtime c item id now p affected locals :
  leads keeps (record_affected uuid_at meanwhile scope runtime c item id now p affected locals).
Proof using Hforward.
  unfold record_affected. apply leads_bind; [exact _|lead|]. intros conflictId.
  apply leads_bind; [exact _|lead|]. intros l. cbv zeta.
  apply keeps_assume. apply (from_getf _). intros s Hwf.
  apply (from_bind _); [|intros _; lead].
  eapply from_weaken; [apply keeps_mark; [done|exact Hwf]|].
  intros q [_ ->] k e Hin. by apply jm_elem_get.
Qed.
Hint Resolve keeps_record_affected : lead.

Lemma keeps_record_pairs scope runtime c item id now pairs locals :
  leads keeps (record_pairs uuid_at meanwhile scope runtime c item id now pairs locals).
Proof using Hforward. revert locals. induction pairs; intros; cbn [record_pairs]; lead. Qed.
Hint Resolve keeps_record_pairs : lead.

Lemma keeps_settle_failure c context e : leads keeps (settle_failure native_message uuid_at meanwhile c context e).
Proof using Hforward. unfold settle_failure. lead. Qed.
Hint Resolve keeps_settle_failure : lead.

(** ** The application of an item *)

(** One more effect, that the outcome of the application will settle. *)
Definition attempted (k : string) (applied : Applied) (s s' : SyncStore) : Prop :=
  let p := projections s in let p' := projections s' in
  jm_wf (itemReceipts p') ∧ (∀ k, settled p k → settled p' k) ∧
  (effects p' = effects p ∨
   effects p' = effects p ++ [k] ∧ (at_status applied = qs_applied ∨ at_status applied = qs_conflict) ∧
   is_Some (x ← at_stynx applied; sx_appliedAt x)).

Lemma attempted_keeps k a s1 s2 s3 : attempted k a s1 s2 → keeps s2 s3 → attempted k a s1 s3.
Proof.
  intros (W & S & E) K. destruct (K W) as (W' & E' & S'). split; [done|]. split; [auto|]. by rewrite E'.
Qed.
Lemma keeps_attempted k a s s' : jm_wf (itemReceipts (projections s)) → keeps s s' → attempted k a s s'.
Proof. intros W K. destruct (K W) as (W' & E' & S'). split; [done|]. split; [auto|]. by left. Qed.

Lemma apply_prepared_attempted c prepared s a s' :
  jm_wf (itemReceipts (projections s)) → apply_prepared uuid_at meanwhile c prepared s = (Ok a, s') →
  attempted (key (tenantId (pc_scope c)) (pc_key c)) a s s'.
Proof using Hforward.
  intros Hwf. unfold apply_prepared. destruct (pp_defer prepared).
  { intros Hr. apply keeps_attempted; [done|]. eapply (leads_run keeps); [|exact Hr]. lead. }
  intros (ck & s1 & Hc & Hr)%js_bind_ok. apply (leads_run keeps) in Hc; [|lead].
  destruct (itemApplier _) as [applier|]; [|injection Hr as <- <-; by apply keeps_attempted].
  apply js_bind_ok in Hr as (ap & s2 & Ha & Hr). apply (leads_run keeps) in Ha; [|lead].
  apply js_bind_ok in Hr as ([] & s3 & Hw & Hr). injection Hw as <-.
  apply js_bind_ok in Hr as (attrs & s4 & Hb & Hr). apply (leads_run keeps) in Hb; [|lead].
  apply js_bind_ok in Hr as (pairs & s5 & Hd & Hr). apply (leads_run keeps) in Hd; [|lead].
  apply js_bind_ok in Hr as ([[rc sx] conflict] & s6 & Hp & Hr). apply (leads_run keeps) in Hp; [|lead].
  apply js_bind_ok in Hr as ([] & s7 & He & Hr). apply (leads_run keeps) in He; [|lead].
  injection Hr as <- <-.
  assert (keeps s s2) as K by (by etrans). destruct (K Hwf) as (W2 & E2 & S2).
  eapply attempted_keeps; [|etrans; [exact Hb|etrans; [exact Hd|etrans; [exact Hp|exact He]]]].
  split; [done|]. split; [intros k Hk; by apply S2|]. right. simpl. rewrite E2. split; [done|].
  split; [destruct conflict; auto|]. unfold over. simpl. by eexists.
Qed.

(** No applier ran twice for a key, and every key whose applier ran is settled. *)
Definition sound (p : Projections) : Prop :=
  jm_wf (itemReceipts p) ∧ NoDup (effects p) ∧ ∀ k, k ∈ effects p → settled p k.

Lemma sound_keeps s s' : sound (projections s) → keeps s s' → sound (projections s').
Proof.
  intros (W & N & S) K. destruct (K W) as (W' & E' & S'). split; [done|]. rewrite E'. split; [done|auto].
Qed.

(** What [apply] or its [catch] leave, for an item that is not settled. *)
Definition pending_sound (k : string) (a : Applied) (p : Projections) : Prop :=
  jm_wf (itemReceipts p) ∧ NoDup (effects p) ∧
  ∀ k', k' ∈ effects p →
    (k' ≠ k ∧ settled p k') ∨
    (k' = k ∧ (at_status a = qs_applied ∨ at_status a = qs_conflict) ∧ is_Some (x ← at_stynx a; sx_appliedAt x)).

Lemma attempted_sound k a s s' :
  sound (projections s) → ¬ settled (projections s) k → attempted k a s s' → pending_sound k a (projections s').
Proof.
  intros (W & N & S) Hk (W' & S' & E). split; [done|].
  assert (k ∉ effects (projections s)) as Hn by (intros Hin; by apply Hk, S).
  destruct E as [E|(E & Ha)]; rewrite E.
  - split; [done|]. intros k' Hk'. left. split; [intros ->; done|auto].
  - split; [apply NoDup_app; split_and!; [done| |apply NoDup_singleton]|].
    + intros x Hx ->%list_elem_of_singleton. done.
    + intros k' [Hk'| ->%list_elem_of_singleton]%elem_of_app; [left|by right].
      split; [intros ->; done|auto].
Qed.

Lemma pending_keeps k a s s' : keeps s s' → pending_sound k a (projections s) → pending_sound k a (projections s').
Proof.
  intros K (W & N & S). destruct (K W) as (W' & E' & S'). split; [done|]. rewrite E'. split; [done|].
  intros k' [[? ?]|?]%S; [left; auto|by right].
Qed.

(** The receipt that is written settles the item if its applier ran. *)
Lemma pending_receipt_sound k a v s s' :
  pending_sound k a (projections s) → ir_status (re_receipt v) = at_status a → ir_stynx (re_receipt v) = at_stynx a →
  writeReceipt k v s = (Ok (), s') → sound (projections s').
Proof.
  intros (W & N & S) Hst Hsx [= <-]. split; [by apply jm_wf_set|]. split; [done|]. intros k' Hk'.
  destruct (S k' Hk') as [[Hne [He|(e & He & Ha)]]|(-> & Ha)].
  - by left.
  - right. exists e. split; [|done]. simpl. by rewrite jm_get_set_ne.
  - right. exists v. split; [apply jm_get_set_eq|]. destruct Ha as [H1 H2]. split; [by rewrite Hsx|by rewrite Hst].
Qed.

Lemma run_apply_attempted c context ex s o ctx s' :
  jm_wf (itemReceipts (projections s)) → (∀ id, leads keeps (ex id)) →
  run_apply uuid_at meanwhile c context ex s = (Ok (ctx, o), s') →
  match o with
  | Ok a => attempted (key (tenantId (pc_scope c)) (pc_key c)) a s s'
  | Throw _ => keeps s s'
  end.
Proof using Hforward.
  intros Hwf Hex (prepared & s1 & Hp & Hr)%js_bind_ok. apply (leads_run keeps) in Hp; [|lead].
  destruct prepared as [p|e]; [|by injection Hr as <- <- <-].
  apply js_bind_ok in Hr as (o' & s2 & Ht & Hr). injection Hr as <- <- <-.
  destruct (Hp Hwf) as (W1 & E1 & S1). unfold js_try, owned in Ht.
  destruct (apply_prepared uuid_at meanwhile c p s1) as [[a|e] s3] eqn:Ha; injection Ht as <- <-.
  - destruct (apply_prepared_attempted _ _ _ _ _ W1 Ha) as (W2 & S2 & E2). split; [done|]. split; [auto|].
    by rewrite E1 in E2.
  - exact Hp.
Qed.

Lemma keeps_then_attempted k a s1 s2 s3 :
  jm_wf (itemReceipts (projections s1)) → keeps s1 s2 → attempted k a s2 s3 → attempted k a s1 s3.
Proof.
  intros W K (W' & S' & E'). destruct (K W) as (W2 & E2 & S2). split; [done|]. split; [auto|]. by rewrite E2 in E'.
Qed.

Lemma outcome_attempted b item c ex s a code retryable s' :
  jm_wf (itemReceipts (projections s)) → (∀ id, leads keeps (ex id)) →
  outcome_of native_message uuid_at meanwhile b item c ex s = (Ok (a, code, retryable), s') →
  attempted (key (tenantId (pc_scope c)) (pc_key c)) a s s'.
Proof using Hforward.
  intros Hwf Hex. unfold outcome_of. destruct (negb (declared item)).
  { intros [= <- <- <- <-]. by apply keeps_attempted. }
  intros (u & s2 & Hu & Ha)%js_bind_ok. apply (leads_run keeps) in Hu; [|lead].
  apply js_bind_ok in Ha as ([ctx o] & s3 & Hrun & Ha).
  assert (jm_wf (itemReceipts (projections s2))) as W2 by apply (Hu Hwf).
  apply (keeps_then_attempted _ _ _ _ _ Hwf Hu). apply run_apply_attempted in Hrun; [|done..].
  destruct o as [a'|e]; [by injection Ha as <- <- <- <-|].
  assert (keeps s2 s') as K; [|by apply keeps_attempted].
  etrans; [exact Hrun|]. revert Ha. apply (leads_run keeps). destruct e as [[]| |]; lead.
Qed.

(** An item that is not settled is applied at most once more. *)
Lemma process_new_sound b item itemKey previous reapplying s r s' :
  itemKey = key (tenantId (pk_scope b)) (pk_key b) →
  sound (projections s) → ¬ settled (projections s) itemKey →
  process_new native_message uuid_at meanwhile b item itemKey previous reapplying s = (Ok r, s') →
  sound (projections s').
Proof using Hforward.
  intros -> Hs Hk. unfold process_new. cbv zeta. set (c := {| pc_scope := _ |}).
  intros ([[a code] retryable] & s1 & Ha & Hr)%js_bind_ok.
  apply outcome_attempted in Ha; [|apply Hs|intros id; lead].
  apply (attempted_sound _ _ _ _ Hs Hk) in Ha.
  apply js_bind_ok in Hr as ([] & s2 & Hw & Hr). apply (leads_run keeps) in Hw; [|lead].
  apply js_bind_ok in Hr as ([] & s3 & Hw2 & Hr). apply (leads_run keeps) in Hw2; [|lead].
  apply js_bind_ok in Hr as ([] & s4 & Hw3 & Hr).
  apply (pending_receipt_sound _ a) in Hw3; [|by eapply pending_keeps, pending_keeps|done|done].
  eapply sound_keeps; [exact Hw3|]. revert Hr. apply (leads_run keeps). lead.
Qed.

Notation processItem := (processItem sha256 native_message uuid_at meanwhile).

(** The E6 entries stay as they are. *)
Definition same_e6 (s s' : SyncStore) : Prop := e6Items (projections s') = e6Items (projections s).
#[local] Instance same_e6_rel : SyncRel same_e6.
Proof. split; unfold same_e6; simpl; try done. split; [done|]. intros s1 s2 s3 H1 H2. by rewrite H2. Qed.
Lemma same_e6_other f : (∀ p, e6Items (f p) = e6Items p) → leads same_e6 (write f).
Proof. intros Hf. apply leads_modify. intros s. apply Hf. Qed.
Hint Extern 2 (leads same_e6 (write _)) => apply same_e6_other; done : lead.
Hint Extern 2 (leads same_e6 (writeConflict _ _)) => apply same_e6_other; done : lead.

Lemma same_e6_integrity scope input item k o runtime now :
  leads same_e6 (integrityConflict uuid_at meanwhile scope input item k o runtime now).
Proof using Hforward. unfold integrityConflict, saveRejection, rejectionContext, allowed_actions, saveConflict. lead. Qed.
Hint Resolve same_e6_integrity : lead.

(** The receipt of an item with an E6 entry may be anything. *)
Lemma process_e6_sound b item itemKey e6 s r s' :
  jm_get itemKey (e6Items (projections s)) = Some e6 → sound (projections s) →
  process_e6 uuid_at meanwhile b item itemKey e6 s = (Ok r, s') → sound (projections s').
Proof using Hforward.
  intros He Hs (q & s1 & Hq & Hr)%js_bind_ok. injection Hq as <- <-. destruct (jm_get _ (queueItems _)); [|done].
  cbv zeta in Hr. apply js_bind_ok in Hr as (x & s2 & Hi & Hr).
  assert (keeps s s2 ∧ same_e6 s s2) as [K E].
  { split; revert Hi; apply leads_run; unfold integrity; lead. }
  apply js_bind_ok in Hr as ([] & s3 & Hw & Hr). injection Hw as <-. injection Hr as <- <-.
  destruct (sound_keeps _ _ Hs K) as (W & N & S). split; [by apply jm_wf_set|]. split; [done|].
  intros k Hk. destruct (S k Hk) as [H6|(e & Hg & Ha)]; [by left|].
  destruct (decide (k = itemKey)) as [->|Hne].
  - left. simpl. by rewrite E, He.
  - right. exists e. split; [|done]. simpl. by rewrite jm_get_set_ne.
Qed.

Lemma processItem_sound b item s r s' :
  sound (projections s) → processItem b item s = (Ok r, s') → sound (projections s').
Proof using Hforward.
  intros Hs (v & s1 & Hv & Hr)%js_bind_ok. cbv zeta in Hr. pose proof ((leads_run keeps) _ _ _ _ (leads_verify _ _ _ Hforward _ _ _) Hv) as K1.
  pose proof (sound_keeps _ _ Hs K1) as Hs1. destruct (negb v).
  { eapply sound_keeps; [exact Hs1|]. revert Hr. apply (leads_run keeps). unfold integrity. lead. }
  apply js_bind_ok in Hr as (q & s2 & Hq & Hr). injection Hq as <- <-.
  match type of Hr with (if ?c then _ else _) _ = _ => destruct c end; [by injection Hr as <- <-|].
  apply js_bind_ok in Hr as (e6 & s2 & He & Hr). injection He as <- <-.
  destruct (jm_get _ (e6Items _)) as [e6|] eqn:He; [by eapply process_e6_sound|].
  apply js_bind_ok in Hr as (previous & s2 & Hp & Hr). injection Hp as <- <-.
  set (k := key _ _) in *.
  assert (∀ e, jm_get k (itemReceipts (projections s1)) = Some e →
            ir_status (re_receipt e) = qs_received ∨ ir_status (re_receipt e) = qs_pending →
            ¬ settled (projections s1) k) as Hopen.
  { intros e Hg Hst [[? H6]|(e' & Hg' & _ & Ha)]; [by simplify_eq|].
    rewrite Hg in Hg'. injection Hg' as <-. destruct Hst as [Hst|Hst], Ha as [Ha|Ha]; by rewrite Hst in Ha. }
  destruct (jm_get k (itemReceipts _)) as [e|] eqn:Hp.
  - destruct (reapplies b item (Some e)) eqn:Hre.
    { revert Hr. apply process_new_sound; [done..|]. apply (Hopen e); [done|]. right.
      unfold reapplies in Hre. rewrite !andb_true_iff, bool_decide_eq_true in Hre. apply Hre. }
    destruct (negb (String.eqb (re_hash e) _)).
    { eapply sound_keeps; [exact Hs1|]. revert Hr. apply (leads_run keeps). unfold integrity. lead. }
    destruct (answered b item e) eqn:Hans; [by injection Hr as <- <-|].
    revert Hr. apply process_new_sound; [done..|]. apply (Hopen e); [done|].
    unfold answered in Hans. rewrite !orb_false_iff, !negb_false_iff, bool_decide_eq_true in Hans.
    destruct Hans as [[[_ ->] _] _]. unfold initial_status. case_match; auto.
  - revert Hr. apply process_new_sound; [done..|]. intros [[? H6]|(e' & Hg' & _)]; by simplify_eq.
Qed.

(** ** Batches *)

Lemma keeps_batches {A} (m : M A) : leads same_projections m → leads keeps m.
Proof. intros Hm s. specialize (Hm s). unfold keeps, same_projections in *. by rewrite Hm. Qed.

Lemma owned_sound {A} (m : M A) s :
  sound (projections s) → (∀ a s', m s = (Ok a, s') → sound (projections s')) → sound (projections (owned m s).2).
Proof. intros Hs Hm. unfold owned. destruct (m s) as [[a|e] s']; simpl; eauto. Qed.

Lemma map_sound {A B} (f : A → M B) l :
  (∀ x s, sound (projections s) → sound (projections (f x s).2)) →
  ∀ s, sound (projections s) → sound (projections (js_map f l s).2).
Proof.
  intros Hf. induction l as [|x l IH]; intros s Hs; [done|]. cbn [js_map]. unfold mbind, js_bind.
  specialize (Hf x s Hs). destruct (f x s) as [[y|e] s1]; simpl in *; [|done].
  specialize (IH s1 Hf). by destruct (js_map f l s1) as [[ys|e] s2].
Qed.

Lemma run_sound scope input runtime now itemKeys s :
  sound (projections s) →
  sound (projections (run sha256 stringify native_message uuid_at meanwhile scope input runtime now itemKeys s).2).
Proof using Hforward.
  intros Hs. unfold run. cbv zeta. unfold mbind at 1, js_bind at 1, getf. destruct (jm_get _ _) as [record|]; [|done].
  unfold mbind at 1, js_bind at 1.
  pose proof (map_sound (λ item, owned (processItem (place scope input runtime now (be_initialPending record) itemKeys item) item))
                (sb_items input)) as Hmap.
  specialize (Hmap (λ x s0 H0, owned_sound _ s0 H0 (λ a s', processItem_sound _ _ _ _ _ H0)) s Hs).
  destruct (js_map _ _ s) as [[rs|e] s1]; simpl in *; [|done]. done.
Qed.

Lemma runBatch_sound scope input runtime now itemKeys s :
  sound (projections s) →
  sound (projections (runBatch sha256 stringify native_message uuid_at meanwhile scope input runtime now itemKeys s).2).
Proof using Hforward.
  intros Hs. unfold runBatch, js_finally. cbn. pose proof (run_sound scope input runtime now itemKeys s Hs) as Hr.
  by destruct (run _ _ _ _ _ _ _ _ _ _ s) as [[r|e] s1].
Qed.

Lemma quiet_item_keys scope input ports declared_ keys l :
  leads same_projections (item_keys sha256 meanwhile scope input ports declared_ keys l).
Proof using Hforward. revert declared_ keys. induction l; intros; cbn [item_keys]; [lead|]. unfold legacy_key. lead. Qed.

Lemma quiet_beginBatch scope input runtime now :
  leads same_projections (beginBatch sha256 locale_le meanwhile scope input runtime now).
Proof using Hforward.
  unfold beginBatch. apply leads_bind; [exact _| |].
  - apply quiet_item_keys.
  - intros. unfold check_ports, admission_of, check_sequence, check_transport. lead; try apply leads_modify; done.
Qed.
End effects.
