(* ===== verification/SyncBatches.v ===== *)
(** * SyncBatches: the entries of the durable batches.

    What an admission and a run do to the entries of [batches]: a run settles its own entry,
    an entry with a result stays, and the sequences of a device are consecutive. *)
From Stdlib Require Import Ascii.
From S2P Require Import Prelude JsMap JsText JsJson OfflineTypes RangeAdmin Numbering SyncTypes SyncStore SyncItem SyncBatch SyncEffects.

(** ** The sync store under any sequence of calls.

    [step] is one call of a method, or one half of a durable batch: [beginBatch] until it is
    admitted, and its run. The runs that are admitted and not yet done are [sy_runs]. *)

Local Open Scope Z_scope.

Record Run := {
  rn_scope : Scope; rn_input : SubmitSyncBatchInput; rn_runtime : Runtime; rn_now : string;
  rn_itemKeys : jsmap string string }.

Record System := { sy_store : SyncStore; sy_runs : list Run }.

Definition new_system : System := {| sy_store := new_store; sy_runs := [] |}.

Section system.
Context (sha256 : string → string) (locale_le : string → string → bool).
Context (stringify : SubmitSyncBatchResult → string) (native_message : OfflineError → string).
Context (uuid_at : nat → string) (meanwhile : nat → Store → Store).
(** The scopes that call. *)
Context (trusted : Scope → Prop).

Definition run_identity (r : Run) : string := batch_key (rn_scope r) (rn_input r).
Definition execute (r : Run) : JS SyncStore SyncError SubmitSyncBatchResult :=
  runBatch sha256 stringify native_message uuid_at meanwhile (rn_scope r) (rn_input r) (rn_runtime r) (rn_now r) (rn_itemKeys r).

Inductive step : System → System → Prop :=
| step_submit scope input now s runs :
    trusted scope → step (Build_System s runs) (Build_System (submitSyncBatch scope input now s).2 runs)
| step_open scope id input now s runs :
    trusted scope → step (Build_System s runs) (Build_System (openConflict uuid_at scope id input now s).2 runs)
| step_resolve scope id input now s runs :
    trusted scope → step (Build_System s runs) (Build_System (resolveConflict scope id input now s).2 runs)
| step_resolve_port scope id input now port ev s runs :
    trusted scope →
    step (Build_System s runs) (Build_System (resolveWithPort uuid_at meanwhile scope id input now port ev s).2 runs)
| step_begin scope input runtime now s runs :
    trusted scope →
    step (Build_System s runs)
      (let o := beginBatch sha256 locale_le meanwhile scope input runtime now s in
       Build_System o.2
         (match o.1 with
          | Ok (itemKeys, adm_run) =>
              runs ++ [{| rn_scope := scope; rn_input := input; rn_runtime := runtime; rn_now := now;
                          rn_itemKeys := itemKeys |}]
          | _ => runs
          end))
| step_run r before after s :
    step (Build_System s (before ++ r :: after)) (Build_System (execute r s).2 (before ++ after))
| step_number n s runs :
    (uuids (numbering s) ≤ uuids n)%nat → step (Build_System s runs) (Build_System (on_numbering (λ _, n) s) runs).

Definition reachable (sys : System) : Prop := rtc step new_system sys.

Context (Hforward : forward meanwhile).

(** ** Applications *)

Lemma step_sound sys sys' :
  step sys sys' → sound (projections (sy_store sys)) → sound (projections (sy_store sys')).
Proof using Hforward.
  intros Hstep Hs. destruct Hstep; simpl in *.
  - eapply sound_keeps, keeps_submitSyncBatch. done.
  - eapply sound_keeps, keeps_openConflict. done.
  - eapply sound_keeps, keeps_resolveConflict. done.
  - eapply sound_keeps, keeps_resolveWithPort; done.
  - pose proof (quiet_beginBatch sha256 locale_le meanwhile Hforward scope input runtime now s) as Hq.
    unfold same_projections in Hq. by rewrite Hq.
  - by apply runBatch_sound.
  - done.
Qed.

Lemma sound_new : sound no_projections.
Proof. split; [constructor|]. split; [constructor|]. by intros k ?%elem_of_nil. Qed.

Lemma reachable_sound sys : reachable sys → sound (projections (sy_store sys)).
Proof using Hforward.
  intros Hr. eapply (rtc_ind_r (λ sys, sound (projections (sy_store sys))) new_system);
    [apply sound_new| |exact Hr]. intros ?? _ Hstep. by apply step_sound.
Qed.
End system.

(** ** Batches *)

(** The entries of the batches stay as they are. *)
Definition same_batches (s s' : SyncStore) : Prop := batches s' = batches s.
#[export] Instance same_batches_rel : SyncRel same_batches.
Proof. split; unfold same_batches; simpl; try done. split; [done|]. intros s1 s2 s3 H1 H2. by rewrite H2. Qed.
Lemma same_batches_write f : leads same_batches (write f).
Proof. by apply leads_modify. Qed.
#[export] Hint Resolve same_batches_write : lead.
#[export] Hint Extern 1 (leads same_batches (writeQueueItem _ _)) => apply same_batches_write : lead.
#[export] Hint Extern 1 (leads same_batches (writeReceipt _ _)) => apply same_batches_write : lead.
#[export] Hint Extern 1 (leads same_batches (writeConflict _ _)) => apply same_batches_write : lead.
#[export] Hint Extern 1 (leads same_batches (modify next_sequence)) => by apply leads_modify : lead.

Section same.
Context (sha256 : string → string) (native_message : OfflineError → string).
Context (uuid_at : nat → string) (meanwhile : nat → Store → Store) (Hforward : forward meanwhile).

Lemma batches_saveConflict c now a x d : leads same_batches (saveConflict c now a x d).
Proof. unfold saveConflict. lead. Qed.
Hint Resolve batches_saveConflict : lead.
Lemma batches_openConflict scope id input now : leads same_batches (openConflict uuid_at scope id input now).
Proof. unfold openConflict. lead. Qed.
Lemma batches_resolveConflict scope id input now : leads same_batches (resolveConflict scope id input now).
Proof. unfold resolveConflict. lead. Qed.
Lemma batches_submitSyncBatch scope input now : leads same_batches (submitSyncBatch scope input now).
Proof. unfold submitSyncBatch, submit_item. lead. Qed.
Lemma batches_resolveWithPort scope id input now port ev :
  leads same_batches (resolveWithPort uuid_at meanwhile scope id input now port ev).
Proof using Hforward.
  unfold resolveWithPort, resolveWithPortLocked, return_to_pending, record_resolution. lead.
Qed.
Lemma batches_integrity scope input item k o runtime now :
  leads same_batches (integrityConflict uuid_at meanwhile scope input item k o runtime now).
Proof using Hforward. unfold integrityConflict, saveRejection, rejectionContext, allowed_actions. lead. Qed.
Hint Resolve batches_integrity : lead.
Lemma batches_record_affected scope runtime c item id now p affected locals :
  leads same_batches (record_affected uuid_at meanwhile scope runtime c item id now p affected locals).
Proof using Hforward. unfold record_affected, allowed_actions, mark_receipt. lead. Qed.
Hint Resolve batches_record_affected : lead.
Lemma batches_record_pairs scope runtime c item id now pairs locals :
  leads same_batches (record_pairs uuid_at meanwhile scope runtime c item id now pairs locals).
Proof using Hforward. revert locals. induction pairs; intros; cbn [record_pairs]; lead. Qed.
Hint Resolve batches_record_pairs : lead.
Lemma batches_apply_prepared c p : leads same_batches (apply_prepared uuid_at meanwhile c p).
Proof using Hforward. unfold apply_prepared. lead. Qed.
Hint Resolve batches_apply_prepared : lead.
Lemma batches_settle_failure c context e : leads same_batches (settle_failure native_message uuid_at meanwhile c context e).
Proof using Hforward. unfold settle_failure, allowed_actions. lead. Qed.
Hint Resolve batches_settle_failure : lead.
Lemma batches_outcome_of b item c ex :
  (∀ id, leads same_batches (ex id)) → leads same_batches (outcome_of native_message uuid_at meanwhile b item c ex).
Proof using Hforward. intros Hex. unfold outcome_of, run_apply. lead. Qed.
Hint Resolve batches_outcome_of : lead.
Lemma batches_process_new b item k previous re :
  leads same_batches (process_new native_message uuid_at meanwhile b item k previous re).
Proof using Hforward.
  unfold process_new. cbv zeta. apply (leads_bind _); [apply batches_outcome_of; intros id; lead|].
  intros [[a code] retryable]. lead.
Qed.
Hint Resolve batches_process_new : lead.
Lemma batches_processItem b item : leads same_batches (processItem sha256 native_message uuid_at meanwhile b item).
Proof using Hforward. unfold processItem, process_e6, integrity. lead. Qed.
End same.

(** ** What a run does *)

(** The new receipt and the result, if the batch is closed, of one entry. *)
Definition settled_entry (receipt : SyncBatchReceipt) (r : option SubmitSyncBatchResult) (e : BatchEntry) : BatchEntry :=
  set_be_promise false (settle_batch receipt r e).

Section runs.
Context (sha256 : string → string) (locale_le : string → string → bool).
Context (stringify : SubmitSyncBatchResult → string) (native_message : OfflineError → string).
Context (uuid_at : nat → string) (meanwhile : nat → Store → Store) (Hforward : forward meanwhile).
Notation runBatch := (runBatch sha256 stringify native_message uuid_at meanwhile).

(** The items of a batch, each in its frame. *)
Definition run_items (scope : Scope) (input : SubmitSyncBatchInput) (runtime : Runtime) (now : string)
    (itemKeys : jsmap string string) (pending : bool) : JS SyncStore SyncError (list ItemResult) :=
  js_map (λ item, owned (processItem sha256 native_message uuid_at meanwhile
                           (place scope input runtime now pending itemKeys item) item)) (sb_items input).

(** The receipt and the result the run leaves in the entry [e]. *)
Definition batch_outcome (input : SubmitSyncBatchInput) (runtime : Runtime) (e : BatchEntry) (rs : list ItemResult) :
    SyncBatchReceipt * SubmitSyncBatchResult * option SubmitSyncBatchResult :=
  let retryable := existsb im_retryable rs in
  let receipt := final_receipt (be_receipt e) retryable (map im_receipt rs) (rt_transport runtime) in
  let r := batch_result input receipt rs in
  if retryable then (receipt, r, None) else (set_body (Some (stringify r)) receipt, r, Some r).

Lemma batches_run_items scope input runtime now itemKeys pending :
  leads same_batches (run_items scope input runtime now itemKeys pending).
Proof using Hforward. apply (leads_map _). intros x. apply (leads_owned _), batches_processItem, Hforward. Qed.

Lemma runBatch_eq scope input runtime now itemKeys s e :
  jm_get (batch_key scope input) (batches s) = Some e →
  runBatch scope input runtime now itemKeys s =
  match run_items scope input runtime now itemKeys (be_initialPending e) s with
  | (Ok rs, s1) =>
      let '(receipt, r, stored) := batch_outcome input runtime e rs in
      (Ok r, on_batches (jm_set (batch_key scope input) (settled_entry receipt stored e)) s1)
  | (Throw err, s1) =>
      (Throw err, on_batches (jm_set (batch_key scope input) (set_be_promise false e)) s1)
  end.
Proof using Hforward.
  intros He. unfold runBatch, js_finally, run. unfold mbind, js_bind, getf. cbn beta iota zeta. rewrite He.
  fold (run_items scope input runtime now itemKeys (be_initialPending e)).
  pose proof (batches_run_items scope input runtime now itemKeys (be_initialPending e) s) as Hm. unfold same_batches in Hm.
  destruct (run_items _ _ _ _ _ _ s) as [[rs|err] s1]; cbn in Hm |- *.
  - unfold on_batches, batch_outcome. cbn. rewrite !Hm, He, jm_get_set_eq, jm_set_set.
    by destruct (existsb im_retryable rs).
  - unfold on_batches. cbn. by rewrite !Hm, He.
Qed.

Lemma runBatch_batches scope input runtime now itemKeys s e o s' :
  jm_get (batch_key scope input) (batches s) = Some e →
  runBatch scope input runtime now itemKeys s = (o, s') →
  ∃ receipt r, batches s' = jm_set (batch_key scope input) (settled_entry receipt r e) (batches s) ∧
    br_deviceId receipt = br_deviceId (be_receipt e) ∧ br_batchSequence receipt = br_batchSequence (be_receipt e) ∧
    ∀ v, o = Ok v → br_status (sr_receipt v) = batch_closed → r = Some v.
Proof using Hforward.
  intros He Hr. rewrite (runBatch_eq _ _ _ _ _ _ _ He) in Hr.
  pose proof (batches_run_items scope input runtime now itemKeys (be_initialPending e) s) as Hm. unfold same_batches in Hm.
  destruct (run_items _ _ _ _ _ _ s) as [[rs|err] s1]; simpl in Hm.
  - unfold batch_outcome in Hr. destruct (existsb im_retryable rs); injection Hr as <- <-; simpl; rewrite Hm;
      eexists _, _; (split; [done|]; split; [done|]; split; [done|]); intros v [= <-]; done.
  - injection Hr as <- <-. simpl. rewrite Hm. exists (be_receipt e), None. split; [|done].
    unfold settled_entry, settle_batch, over. by destruct e.
Qed.
End runs.

(** ** What an admission does *)
Section admission.
Context (sha256 : string → string) (locale_le : string → string → bool).
Context (meanwhile : nat → Store → Store) (Hforward : forward meanwhile).
Notation beginBatch := (beginBatch sha256 locale_le meanwhile).
Notation admission_of := (admission_of sha256 locale_le).

(** A new entry, in its sequence, or an open entry without a pending run. *)
Definition admitted (scope : Scope) (input : SubmitSyncBatchInput) (s : SyncStore) (e : BatchEntry) : Prop :=
  be_promise e = true ∧ be_result e = None ∧
  match jm_get (batch_key scope input) (batches s) with
  | Some e0 => e = set_be_promise true e0 ∧ be_promise e0 = false
  | None => be_receipt e = open_receipt input ∧
            ∀ n, sb_batchSequence input = Some n → n = expected_sequence (siblings scope (sb_deviceId input) s)
  end.

Lemma check_transport_state bound identity fingerprint s : (check_transport bound identity fingerprint s).2 = s.
Proof. unfold check_transport. js_case. Qed.
Lemma check_sequence_state scope input s : (check_sequence scope input s).2 = s.
Proof. unfold check_sequence. js_case. Qed.
Lemma check_sequence_ok scope input s s' :
  check_sequence scope input s = (Ok (), s') →
  s' = s ∧ ∀ n, sb_batchSequence input = Some n → n = expected_sequence (siblings scope (sb_deviceId input) s).
Proof.
  unfold check_sequence. destruct (sb_batchSequence input) as [n|]; [|by intros [= <-]].
  js_unfold. destruct (existsb _ _); simpl; [done|]. destruct (n =? _) eqn:Hn; simpl; [|done].
  intros [= <-]. split; [done|]. intros m [= <-]. by apply Z.eqb_eq.
Qed.

Lemma admit_batches scope input runtime now s o s' :
  admission_of scope input runtime now s = (o, s') →
  if match o with Ok adm_run => true | _ => false end
  then ∃ e, batches s' = jm_set (batch_key scope input) e (batches s) ∧ admitted scope input s e
  else batches s' = batches s.
Proof.
  unfold admission_of. cbv zeta. unfold mbind, js_bind, getf. unfold admitted.
  destruct (jm_get _ (batches s)) as [e|] eqn:He.
  - unfold throw_if at 1. destruct (negb (String.eqb _ _)); [by intros [= <- <-]|]. cbn [mret js_ret].
    pose proof (check_transport_state (jm_get (transportCompositeKey sha256 scope (rt_transport runtime)) (transport s))
      (batch_key scope input) (transportFingerprint sha256 locale_le (rt_transport runtime) input) s) as Hc.
    unfold mret, js_ret at 1. destruct (check_transport _ _ _ s) as [[[]|err] s1]; simpl in Hc; subst; [|by intros [= <- <-]].
    unfold modify at 1. destruct (be_result e) as [r|] eqn:Hres; [by intros [= <- <-]|].
    destruct (be_promise e) eqn:Hp; [by intros [= <- <-]|].
    intros [= <- <-]. by exists (set_be_promise true e).
  - destruct (check_sequence scope input s) as [[[]|err] s1] eqn:Hq; [|].
    + apply check_sequence_ok in Hq as [-> Hseq].
      pose proof (check_transport_state (jm_get (transportCompositeKey sha256 scope (rt_transport runtime)) (transport s))
        (batch_key scope input) (transportFingerprint sha256 locale_le (rt_transport runtime) input) s) as Hc.
      destruct (check_transport _ _ _ s) as [[[]|err] s2]; simpl in Hc; subst; [|by intros [= <- <-]].
      intros [= <- <-]. eexists. split; [done|]. done.
    + intros [= <- <-]. pose proof (check_sequence_state scope input s) as Hst. by rewrite Hq in Hst; simpl in Hst; subst.
Qed.

(** The entry an admission finds or makes has the context of the submission. *)
Lemma admit_context scope input runtime now s a s' :
  admission_of scope input runtime now s = (Ok a, s') →
  match a with
  | adm_replay r _ => ∃ e, jm_get (batch_key scope input) (batches s') = Some e ∧ be_result e = Some r ∧
                           be_contextHash e = batchContextFingerprint sha256 locale_le input (rt_agentId runtime)
  | adm_wait => True
  | adm_run => ∃ e, jm_get (batch_key scope input) (batches s') = Some e ∧ be_result e = None ∧
                    be_contextHash e = batchContextFingerprint sha256 locale_le input (rt_agentId runtime)
  end.
Proof.
  intros (prior & s1 & Hp & Hr)%js_bind_ok. injection Hp as <- <-. cbv zeta in Hr.
  apply js_bind_ok in Hr as (bound & s1 & Hp & Hr). injection Hp as <- <-.
  destruct (jm_get _ (batches s)) as [e|] eqn:He.
  - apply js_bind_ok in Hr as ([] & s1 & Hc & Hr). unfold throw_if in Hc. destruct (negb _) eqn:Hh; [done|].
    injection Hc as <-. apply negb_false_iff, String.eqb_eq in Hh.
    apply js_bind_ok in Hr as ([] & s1 & Hc & Hr).
    pose proof (check_transport_state (jm_get (transportCompositeKey sha256 scope (rt_transport runtime)) (transport s))
      (batch_key scope input) (transportFingerprint sha256 locale_le (rt_transport runtime) input) s) as Hs.
    rewrite Hc in Hs. simpl in Hs. subst s1. apply js_bind_ok in Hr as ([] & s1 & Hm & Hr). injection Hm as <-.
    destruct (be_result e) as [r|] eqn:Hres; [injection Hr as <- <-; by exists e|].
    destruct (be_promise e); [by injection Hr as <- <-|].
    apply js_bind_ok in Hr as ([] & s1 & Hm & Hr). injection Hm as <-. injection Hr as <- <-.
    exists (set_be_promise true e). simpl. by rewrite jm_get_set_eq.
  - apply js_bind_ok in Hr as ([] & s1 & Hc & Hr). apply js_bind_ok in Hr as ([] & s2 & Ht & Hr).
    apply js_bind_ok in Hr as ([] & s3 & Hm & Hr). injection Hm as <-.
    apply js_bind_ok in Hr as ([] & s4 & Hm & Hr). injection Hm as <-. injection Hr as <- <-.
    eexists. simpl. by rewrite jm_get_set_eq.
Qed.

(** The item keys and the checks of the ports change no batch. *)
Lemma batches_item_keys scope input ports declared_ keys l :
  leads same_batches (item_keys sha256 meanwhile scope input ports declared_ keys l).
Proof using Hforward.
  revert declared_ keys. induction l; intros; cbn [item_keys]; [lead|]. unfold legacy_key. lead.
Qed.

Lemma beginBatch_batches scope input runtime now s o s' :
  beginBatch scope input runtime now s = (o, s') →
  if match o with Ok (_, adm_run) => true | _ => false end
  then ∃ e, batches s' = jm_set (batch_key scope input) e (batches s) ∧ admitted scope input s e
  else batches s' = batches s.
Proof using Hforward.
  unfold beginBatch. unfold mbind at 1, js_bind at 1.
  pose proof (batches_item_keys scope input (rt_ports runtime) [] [] (sb_items input) s) as Hk. unfold same_batches in Hk.
  destruct (item_keys _ _ _ _ _ _ _ _ s) as [[keys|err] s1]; simpl in Hk; [|by intros [= <- <-]].
  unfold mbind at 1, js_bind at 1.
  assert (leads same_batches (check_ports input (rt_ports runtime))) as Hp by (unfold check_ports; lead).
  specialize (Hp s1). unfold same_batches in Hp.
  destruct (check_ports _ _ s1) as [[[]|err] s2]; simpl in Hp; [|intros [= <- <-]; congruence].
  unfold mbind, js_bind. destruct (admission_of scope input runtime now s2) as [[a|err] s3] eqn:Ha; apply admit_batches in Ha.
  - intros [= <- <-]. destruct a; [congruence|congruence|]. destruct Ha as (e & Hb & Hadm). exists e.
    rewrite Hb, Hp, Hk. split; [done|]. revert Hadm. unfold admitted, siblings. by rewrite Hp, Hk.
  - intros [= <- <-]. congruence.
Qed.
End admission.

(** ** Pending runs, results and sequences of a system *)

(** Each admitted run has an entry of its own that waits for it. *)
Definition runs_pending (sys : System) : Prop :=
  NoDup (run_identity <$> sy_runs sys) ∧
  ∀ r, r ∈ sy_runs sys → ∃ e, jm_get (run_identity r) (batches (sy_store sys)) = Some e ∧
                              be_promise e = true ∧ be_result e = None.

(** The sequences of the batches of a device, as [siblings] finds them. *)
Definition sequences (scope : Scope) (deviceId : string) (s : SyncStore) : list Z :=
  omap br_batchSequence (siblings scope deviceId s).

Lemma sequences_batches scope d s s' : batches s = batches s' → sequences scope d s = sequences scope d s'.
Proof. intros Hb. unfold sequences, siblings. by rewrite Hb. Qed.

Lemma siblings_set_same scope d k (v e : BatchEntry) s b :
  jm_get k b = Some e → br_deviceId (be_receipt v) = br_deviceId (be_receipt e) →
  br_batchSequence (be_receipt v) = br_batchSequence (be_receipt e) →
  sequences scope d (on_batches (λ _, jm_set k v b) s) = sequences scope d (on_batches (λ _, b) s).
Proof.
  intros He Hd Hq. unfold sequences, siblings, on_batches. simpl. revert He.
  induction b as [|[k' w] b IH]; [done|]. cbn [jm_get jm_set]. case_decide; subst.
  - intros [= ->]. cbn [List.filter fst]. destruct (starts_with _ k'); [|done]. cbn. rewrite Hd.
    destruct (String.eqb _ d); [|done]. cbn. by rewrite Hq.
  - intros He. specialize (IH He). cbn [List.filter fst]. destruct (starts_with _ k'); [|done]. cbn.
    destruct (String.eqb _ d); [|done]. cbn. by rewrite IH.
Qed.

Lemma sequences_set_new scope d k (v : BatchEntry) s b :
  jm_get k b = None →
  sequences scope d (on_batches (λ _, jm_set k v b) s) =
  sequences scope d (on_batches (λ _, b) s) ++
  (if starts_with (tenantId scope +:+ ":") k && String.eqb (br_deviceId (be_receipt v)) d
   then option_list (br_batchSequence (be_receipt v)) else []).
Proof.
  intros Hk. unfold sequences, siblings, on_batches. simpl. revert Hk.
  induction b as [|[k' w] b IH]; cbn [jm_get jm_set].
  - intros _. cbn [List.filter fst]. destruct (starts_with _ k); [|done]. cbn. destruct (String.eqb _ d); [|done]. cbn.
    by destruct (br_batchSequence _).
  - case_decide; [done|]. intros Hk. specialize (IH Hk). cbn [List.filter fst].
    destruct (starts_with _ k') eqn:?; [|done]. cbn. destruct (String.eqb (br_deviceId (be_receipt w)) d); [|done]. cbn.
    destruct (br_batchSequence (be_receipt w)); cbn; by rewrite IH.
Qed.

(** [1, ..., n] in some order. *)
Definition consecutive (l : list Z) : Prop := ∃ n, 0 ≤ n ∧ l ≡ₚ seqZ 1 n.

Lemma foldr_max_perm l l' : l ≡ₚ l' → foldr Z.max 0 l = foldr Z.max 0 l'.
Proof. induction 1; simpl; lia. Qed.
Lemma foldr_max_base l a : 0 ≤ a → foldr Z.max a l = Z.max a (foldr Z.max 0 l).
Proof. intros Ha. induction l; simpl; lia. Qed.
Lemma foldr_max_seqZ n : 0 ≤ n → foldr Z.max 0 (seqZ 1 n) = n.
Proof.
  intros Hn. rewrite <- (Z2Nat.id n) by done. generalize (Z.to_nat n). clear. intros n.
  induction n as [|n IH]; [done|]. replace (Z.of_nat (S n)) with (Z.of_nat n + 1) by lia.
  rewrite seqZ_app, foldr_app by lia. cbn [foldr seqZ]. rewrite foldr_max_base, IH by (simpl; lia). simpl. lia.
Qed.

Lemma expected_sequences receipts : expected_sequence receipts = foldr Z.max 0 (omap br_batchSequence receipts) + 1.
Proof.
  unfold expected_sequence. f_equal.
  assert (∀ l : list SyncBatchReceipt, 0 ≤ foldr Z.max 0 (omap br_batchSequence l)) as Hp.
  { intros l. induction l as [|r l IH]; csimpl; [done|]. destruct (br_batchSequence r); csimpl; lia. }
  induction receipts as [|r l IH]; csimpl; [done|]. specialize (Hp l). destruct (br_batchSequence r); csimpl; lia.
Qed.

Lemma consecutive_next l n : consecutive l → n = foldr Z.max 0 l + 1 → consecutive (l ++ [n]).
Proof.
  intros (m & Hm & Hl) ->. rewrite (foldr_max_perm _ _ Hl), foldr_max_seqZ by done. exists (m + 1). split; [lia|].
  rewrite seqZ_app by lia. simpl. by rewrite Hl, Z.add_comm.
Qed.

Section invariants.
Context (sha256 : string → string) (locale_le : string → string → bool).
Context (stringify : SubmitSyncBatchResult → string) (native_message : OfflineError → string).
Context (uuid_at : nat → string) (meanwhile : nat → Store → Store).
Context (trusted : Scope → Prop) (Hforward : forward meanwhile).
Notation step := (step sha256 locale_le stringify native_message uuid_at meanwhile trusted).
Notation reachable := (reachable sha256 locale_le stringify native_message uuid_at meanwhile trusted).

(** What a step does to the batches. *)
Inductive batch_step : System → System → Prop :=
| bs_same s s' runs : batches s' = batches s → batch_step (Build_System s runs) (Build_System s' runs)
| bs_admit r e s s' runs :
    trusted (rn_scope r) → admitted (rn_scope r) (rn_input r) s e →
    batches s' = jm_set (run_identity r) e (batches s) →
    batch_step (Build_System s runs) (Build_System s' (runs ++ [r]))
| bs_run r e receipt result_ s s' before after :
    jm_get (run_identity r) (batches s) = Some e →
    br_deviceId receipt = br_deviceId (be_receipt e) → br_batchSequence receipt = br_batchSequence (be_receipt e) →
    batches s' = jm_set (run_identity r) (settled_entry receipt result_ e) (batches s) →
    batch_step (Build_System s (before ++ r :: after)) (Build_System s' (before ++ after)).

Lemma step_batches sys sys' : runs_pending sys → step sys sys' → batch_step sys sys'.
Proof using Hforward.
  intros [_ Hp] Hstep. destruct Hstep as [scope input now s runs Ht|scope id input now s runs Ht|scope id input now s runs Ht|
    scope id input now port ev s runs Ht|scope input runtime now s runs Ht|r before after s|n s runs Hn].
  - apply bs_same, batches_submitSyncBatch.
  - apply bs_same, batches_openConflict.
  - apply bs_same, batches_resolveConflict.
  - apply bs_same. by apply batches_resolveWithPort.
  - destruct (beginBatch _ _ _ _ _ _ _ s) as [o s'] eqn:Hb. simpl.
    apply (beginBatch_batches sha256 locale_le meanwhile Hforward) in Hb.
    destruct o as [[keys []]|err]; try by apply bs_same.
    destruct Hb as (e & Hb & Hadm). by apply (bs_admit {| rn_scope := scope; rn_itemKeys := keys |} e).
  - destruct (Hp r) as (e & He & _); [simpl; set_solver|]. simpl in He.
    destruct (execute sha256 stringify native_message uuid_at meanwhile r s) as [o s'] eqn:Hr. simpl.
    apply (runBatch_batches _ _ _ _ _ Hforward _ _ _ _ _ _ e) in Hr as (receipt & res & Hb & Hd & Hq & _); [|done].
    by apply (bs_run r e receipt res).
  - by apply bs_same.
Qed.

Lemma pending_step sys sys' : runs_pending sys → batch_step sys sys' → runs_pending sys'.
Proof.
  intros [Hn Hp] Hstep. destruct Hstep as [s s' runs Hb|r e s s' runs _ (Hpr & Hres & Hadm) Hb|
    r e receipt res s s' before after He _ _ Hb]; unfold runs_pending in *; simpl in *.
  - by rewrite Hb.
  - assert (run_identity r ∉ run_identity <$> runs) as Hni.
    { intros (r' & Heq & Hin)%list_elem_of_fmap. destruct (Hp r' Hin) as (e' & He' & Hpr' & Hres').
      rewrite <- Heq in He'. unfold run_identity in He'. rewrite He' in Hadm. destruct Hadm as [_ Hf]. congruence. }
    split.
    + rewrite fmap_app. simpl. apply NoDup_app. split_and!; [done| |apply NoDup_singleton].
      intros x Hx ->%list_elem_of_singleton. done.
    + intros r' [Hin| ->%list_elem_of_singleton]%elem_of_app; rewrite Hb.
      * rewrite jm_get_set_ne; [by apply Hp|]. intros Heq. apply Hni. rewrite <- Heq. by apply list_elem_of_fmap_2.
      * rewrite jm_get_set_eq. by exists e.
  - rewrite fmap_app, fmap_cons in Hn. apply NoDup_app in Hn as (Hn1 & Hd & [Hn2 Hn3]%NoDup_cons). split.
    + rewrite fmap_app. apply NoDup_app. split_and!; [done| |done]. intros x Hx Hx'. apply (Hd x Hx). by right.
    + intros r' Hin. rewrite Hb, jm_get_set_ne; [apply Hp; set_solver|]. intros Heq.
      apply elem_of_app in Hin as [Hin|Hin]; apply (list_elem_of_fmap_2 run_identity) in Hin; rewrite Heq in Hin.
      * apply (Hd _ Hin). by left.
      * done.
Qed.

Lemma reachable_pending sys : reachable sys → runs_pending sys.
Proof using Hforward.
  intros Hr. eapply (rtc_ind_r (λ sys, runs_pending sys) new_system); [| |exact Hr].
  - split; [constructor|]. by intros r ?%elem_of_nil.
  - intros y z _ Hstep Hy. eapply pending_step; [done|]. by apply step_batches.
Qed.

(** An entry with a result is never written again. *)
Lemma result_step sys sys' k e r :
  runs_pending sys → batch_step sys sys' → jm_get k (batches (sy_store sys)) = Some e → be_result e = Some r →
  jm_get k (batches (sy_store sys')) = Some e.
Proof.
  intros [_ Hp] Hstep. destruct Hstep as [s s' runs Hb|r' e' s s' runs _ (Hpr & Hres & Hadm) Hb|
    r' e' receipt res s s' before after He _ _ Hb]; simpl in *; rewrite Hb; intros Hk Hr; [done| |];
    (rewrite jm_get_set_ne; [done|]; intros ->).
  - unfold run_identity in Hk. rewrite Hk in Hadm. destruct Hadm as [-> _]. simpl in Hres. congruence.
  - destruct (Hp r') as (e2 & He2 & _ & Hres); [set_solver|]. congruence.
Qed.

Lemma result_steps sys sys' k e r :
  reachable sys → rtc step sys sys' → jm_get k (batches (sy_store sys)) = Some e → be_result e = Some r →
  jm_get k (batches (sy_store sys')) = Some e.
Proof using Hforward.
  intros Hreach Hsteps Hk Hr. induction Hsteps as [|x y z Hxy Hyz IH]; [done|].
  apply IH; [by eapply rtc_r|]. pose proof (reachable_pending _ Hreach) as Hp.
  eapply result_step; [done|by apply step_batches|done|done].
Qed.
(** Tenant ids hold no separator. *)
Definition plain_tenant (scope : Scope) : Prop := has_char ":"%char (tenantId scope) = false.

Lemma tenant_prefix a b rest :
  has_char ":"%char a = false → has_char ":"%char b = false → starts_with (a +:+ ":") (b +:+ ":" +:+ rest) = true → a = b.
Proof.
  intros Ha Hb [r Hr]%starts_with_spec. rewrite <- str_app_assoc in Hr.
  change (":" +:+ rest) with (String ":"%char rest) in Hr. change (":" +:+ r) with (String ":"%char r) in Hr.
  by apply append_char_inj in Hr as [-> _].
Qed.

Lemma sequences_step sys sys' scope d :
  (∀ x, trusted x → plain_tenant x) → plain_tenant scope → batch_step sys sys' →
  consecutive (sequences scope d (sy_store sys)) → consecutive (sequences scope d (sy_store sys')).
Proof.
  intros Htr Hpl Hstep Hc.
  destruct Hstep as [s s' runs Hb|r e s s' runs Ht (Hpr & Hres & Hadm) Hb|r e receipt res s s' before after He Hd Hq Hb];
    simpl in *.
  - by rewrite (sequences_batches _ _ s' s).
  - rewrite (sequences_batches _ _ s' (on_batches (λ _, jm_set (run_identity r) e (batches s)) s)) by done.
    unfold run_identity in *. destruct (jm_get _ (batches s)) as [e0|] eqn:He.
    + destruct Hadm as [-> _]. rewrite (siblings_set_same _ _ _ _ e0) by done. by rewrite (sequences_batches _ _ _ s).
    + destruct Hadm as [Hr Hn]. rewrite sequences_set_new by done. rewrite (sequences_batches _ _ _ s), Hr by done. simpl.
      destruct (starts_with _ _) eqn:Hs; [|by rewrite app_nil_r]. simpl. unfold batch_key, key in Hs.
      apply tenant_prefix in Hs; [|done|by apply Htr].
      destruct (String.eqb (sb_deviceId (rn_input r)) d) eqn:Hd; [|by rewrite app_nil_r].
      apply String.eqb_eq in Hd as <-. destruct (sb_batchSequence (rn_input r)) as [n|]; [|by rewrite app_nil_r].
      specialize (Hn n eq_refl). apply consecutive_next; [done|]. rewrite Hn, expected_sequences. unfold sequences.
      do 3 f_equal. unfold siblings. by rewrite Hs.
  - rewrite (sequences_batches _ _ s' (on_batches (λ _, jm_set (run_identity r) (settled_entry receipt res e) (batches s)) s)) by done.
    rewrite (siblings_set_same _ _ _ _ e) by done. by rewrite (sequences_batches _ _ _ s).
Qed.

Lemma sequences_reachable sys scope d :
  (∀ x, trusted x → plain_tenant x) → plain_tenant scope → reachable sys →
  consecutive (sequences scope d (sy_store sys)).
Proof using Hforward.
  intros Htr Hpl Hr. eapply (rtc_ind_r (λ sys, consecutive (sequences scope d (sy_store sys))) new_system); [| |exact Hr].
  - by exists 0.
  - intros y z Hy Hstep IH. eapply sequences_step; [done..| |done]. apply step_batches; [|done]. by apply reachable_pending.
Qed.
End invariants.
