(* ===== verification/SyncClaims.v ===== *)
(** * SyncClaims: the properties of the sync store.

    Whatever calls come in whatever order: an item is applied at most once, a closed batch
    answers a repeated submission with its stored result, the batches of a device are
    numbered without gaps, a tampered item changes nothing, and a batch stays open as long as
    one of its items can still be applied. *)
From Stdlib Require Import Ascii.
From stdpp Require Import pretty.
From S2P Require Import Prelude JsMap JsText JsJson OfflineTypes RangeAdmin Numbering SyncTypes SyncStore SyncItem SyncBatch SyncEffects SyncBatches.
Local Open Scope Z_scope.

Section claims.
Context (sha256 : string → string) (locale_le : string → string → bool).
Context (stringify : SubmitSyncBatchResult → string) (native_message : OfflineError → string).
Context (uuid_at : nat → string) (meanwhile : nat → Store → Store).
Context (trusted : Scope → Prop) (Hforward : forward meanwhile).
Notation step := (step sha256 locale_le stringify native_message uuid_at meanwhile trusted).
Notation reachable := (reachable sha256 locale_le stringify native_message uuid_at meanwhile trusted).
Notation processItem := (processItem sha256 native_message uuid_at meanwhile).
Notation submitDurableSyncBatch :=
  (submitDurableSyncBatch sha256 locale_le stringify native_message uuid_at meanwhile).

(** ** Effects *)

(** C3. In every sequence of calls, the effects of the host's applier that were not rolled
    back belong to different item keys, and an item whose applier ran keeps an applied receipt
    or an E6 entry, so that it never runs again. *)
Theorem effect_at_most_once sys :
  reachable sys →
  NoDup (effects (projections (sy_store sys))) ∧
  ∀ k, k ∈ effects (projections (sy_store sys)) → settled (projections (sy_store sys)) k.
Proof using Hforward. intros Hr. by apply reachable_sound in Hr as (_ & Hn & Hs). Qed.

(** ** Tampered items *)

(** Queue items, receipts, E6 entries and effects are as they were. *)
Definition untouched (s s' : SyncStore) : Prop :=
  let p := projections s in let p' := projections s' in
  queueItems p' = queueItems p ∧ itemReceipts p' = itemReceipts p ∧ e6Items p' = e6Items p ∧
  payloadIndex p' = payloadIndex p ∧ effects p' = effects p.
#[local] Instance untouched_rel : SyncRel untouched.
Proof.
  split; unfold untouched; simpl; try done. split; [done|].
  intros s1 s2 s3 (?&?&?&?&?) (?&?&?&?&?). split_and!; congruence.
Qed.
Lemma untouched_write f :
  (∀ p, queueItems (f p) = queueItems p ∧ itemReceipts (f p) = itemReceipts p ∧ e6Items (f p) = e6Items p ∧
        payloadIndex (f p) = payloadIndex p ∧ effects (f p) = effects p) → leads untouched (write f).
Proof. intros Hf. apply leads_modify. intros s. apply Hf. Qed.
Hint Extern 2 (leads untouched (write _)) => apply untouched_write; done : lead.
Hint Extern 2 (leads untouched (writeConflict _ _)) => apply untouched_write; done : lead.

Lemma untouched_integrity scope input item k o runtime now :
  leads untouched (integrityConflict uuid_at meanwhile scope input item k o runtime now).
Proof using Hforward. unfold integrityConflict, saveRejection, rejectionContext, allowed_actions, saveConflict. lead. Qed.
Hint Resolve untouched_integrity : lead.

(** What the stored state says against an item: its hash does not verify, or its key has a
    receipt with another hash. *)
Definition tampered (b : Place) (item : SyncBatchItemInput) (verified : bool) (p : Projections) : Prop :=
  verified = false ∨
  ∃ e, jm_get (key (tenantId (pk_scope b)) (pk_key b)) (itemReceipts p) = Some e ∧ re_hash e ≠ bi_payloadHash item ∧
       ∀ q, jm_get (key (tenantId (pk_scope b)) (bi_queueItemId item)) (queueItems p) = Some q →
            bi_idempotencyKey (si_input q) = Some (pk_key b).

(** An item whose payload hash does not verify, or differs from the one its key was first
    accepted with, is rejected with the integrity code; queue items, receipts and effects stay
    as they were. *)
Theorem tampered_item_rejected b item s v s1 r s' :
  verifyOfflineSyncPayloadHash sha256 meanwhile item (place_context b) (payloadHashPort (rt_ports (pk_runtime b))) s
    = (Ok v, s1) →
  tampered b item v (projections s) →
  jm_get (key (tenantId (pk_scope b)) (pk_key b)) (e6Items (projections s)) = None →
  processItem b item s = (Ok r, s') →
  ir_status (im_receipt r) = qs_rejected ∧ ir_errorCode (im_receipt r) = Some "OFFLINE_SYNC_ITEM_INTEGRITY" ∧
  si_status (im_stored r) = qs_rejected ∧ untouched s s'.
Proof using Hforward.
  intros Hv Ht He6. unfold processItem. unfold mbind at 1, js_bind at 1. rewrite Hv. cbv zeta.
  pose proof (leads_run untouched _ _ _ _ (leads_verify _ _ _ Hforward _ _ _) Hv) as U1.
  pose proof (leads_run same_projections _ _ _ _ (leads_verify _ _ _ Hforward _ _ _) Hv) as Hp. unfold same_projections in Hp.
  destruct v; simpl negb; cbv iota.
  - destruct Ht as [|(e & He & Hh & Hq)]; [done|].
    intros (q & s2 & Hq2 & Hr)%js_bind_ok. injection Hq2 as <- <-. rewrite Hp in Hr.
    set (queue := jm_get _ (queueItems _)) in *.
    assert (match queue with Some q => negb (bool_decide (bi_idempotencyKey (si_input q) = Some (pk_key b))) | None => false end = false) as Hf.
    { destruct queue as [q|] eqn:Hqq; [|done]. rewrite bool_decide_eq_true_2; [done|auto]. }
    rewrite Hf in Hr. apply js_bind_ok in Hr as (e6 & s2 & H6 & Hr). injection H6 as <- <-. rewrite Hp, He6 in Hr.
    apply js_bind_ok in Hr as (previous & s2 & Hprev & Hr). injection Hprev as <- <-. rewrite Hp, He in Hr.
    assert (String.eqb (re_hash e) (bi_payloadHash item) = false) as Hne by by apply String.eqb_neq.
    unfold reapplies in Hr. rewrite Hne in Hr. simpl in Hr.
    apply js_bind_ok in Hr as (x & s2 & Hi & Hr). injection Hr as <- <-. split_and!; try done.
    etrans; [exact U1|]. revert Hi. apply leads_run. unfold integrity. lead.
  - intros (e & s2 & He & Hr)%js_bind_ok. injection He as <- <-.
    apply js_bind_ok in Hr as (x & s2 & Hi & Hr). injection Hr as <- <-. split_and!; try done.
    etrans; [exact U1|]. revert Hi. apply leads_run. unfold integrity. lead.
Qed.

(** ** Batches *)

(** C28. The batches of a device that carry a sequence carry exactly 1, 2, ..., n: none is
    missing and none is used twice. *)
Theorem batch_sequences_consecutive sys scope deviceId :
  (∀ x, trusted x → plain_tenant x) → plain_tenant scope → reachable sys →
  ∃ n, 0 ≤ n ∧ sequences scope deviceId (sy_store sys) ≡ₚ seqZ 1 n.
Proof using Hforward. apply sequences_reachable, Hforward. Qed.

(** After a call that returned, the entry of the batch holds its result if it is closed. *)
Lemma submit_result scope input runtime now s r w s1 :
  submitDurableSyncBatch scope input runtime now s = (Ok (r, w), s1) → br_status (sr_receipt r) = batch_closed →
  ∃ e, jm_get (batch_key scope input) (batches s1) = Some e ∧ be_result e = Some r ∧
       be_contextHash e = batchContextFingerprint sha256 locale_le input (rt_agentId runtime).
Proof using Hforward.
  intros ([keys a] & s2 & Hb & Hr)%js_bind_ok Hclosed. pose proof Hb as Hb2.
  apply (beginBatch_batches sha256 locale_le meanwhile Hforward) in Hb2.
  apply js_bind_ok in Hb as (keys' & s3 & Hk & Hb). apply js_bind_ok in Hb as ([] & s4 & Hc & Hb).
  apply js_bind_ok in Hb as (a' & s5 & Ha & Hb). injection Hb as -> -> ->.
  pose proof (admit_context sha256 locale_le _ _ _ _ _ _ _ Ha) as Hctx.
  destruct a as [r' w'| |]; [| |].
  - injection Hr as -> -> ->. destruct Hctx as (e & He & Hres & Hh). by exists e.
  - done.
  - destruct Hctx as (e & He & Hnone & Hh). apply js_bind_ok in Hr as (r' & s6 & Hrun & Hr). injection Hr as -> <- ->.
    apply (runBatch_batches _ _ _ _ _ Hforward _ _ _ _ _ _ e) in Hrun as (receipt & res & Hbt & _ & _ & Hres); [|done].
    specialize (Hres r eq_refl Hclosed) as Hr'. subst res. rewrite Hbt. eexists. rewrite jm_get_set_eq.
    done.
Qed.

Lemma submit_steps scope input runtime now s runs r w s1 :
  trusted scope → submitDurableSyncBatch scope input runtime now s = (Ok (r, w), s1) →
  rtc step (Build_System s runs) (Build_System s1 runs).
Proof.
  intros Ht ([keys a] & s2 & Hb & Hr)%js_bind_ok.
  pose proof (step_begin sha256 locale_le stringify native_message uuid_at meanwhile trusted scope input runtime now s runs Ht) as Hst.
  rewrite Hb in Hst. simpl in Hst. destruct a as [r' w'| |]; [by injection Hr as -> -> ->; apply rtc_once|done|].
  apply js_bind_ok in Hr as (r' & s3 & Hrun & Hr). injection Hr as -> <- ->. eapply rtc_l; [exact Hst|]. apply rtc_once.
  set (rn := {| rn_scope := scope; rn_input := input; rn_runtime := runtime; rn_now := now; rn_itemKeys := keys |}).
  pose proof (step_run sha256 locale_le stringify native_message uuid_at meanwhile trusted rn runs [] s2) as Hs.
  rewrite app_nil_r in Hs.
  assert (execute sha256 stringify native_message uuid_at meanwhile rn s2 = (Ok r, s1)) as He by exact Hrun.
  by rewrite He in Hs.
Qed.

(** The checks that do not depend on the stored batches: the item keys and the ports. *)
Definition prepared_keys (scope : Scope) (input : SubmitSyncBatchInput) (ports : Ports) : JS SyncStore SyncError () :=
  _ ← item_keys sha256 meanwhile scope input ports [] [] (sb_items input); check_ports input ports.

Lemma prepared_keys_quiet scope input ports s o s' :
  prepared_keys scope input ports s = (o, s') →
  projections s' = projections s ∧ batches s' = batches s.
Proof using Hforward.
  intros Hk. split.
  - assert (leads same_projections (prepared_keys scope input ports)) as Hl; [|by apply (leads_run _ _ _ _ _ Hl Hk)].
    unfold prepared_keys. apply (leads_bind _); [apply quiet_item_keys, Hforward|]. unfold check_ports. lead.
  - assert (leads same_batches (prepared_keys scope input ports)) as Hl; [|by apply (leads_run _ _ _ _ _ Hl Hk)].
    unfold prepared_keys. apply (leads_bind _); [apply batches_item_keys, Hforward|]. unfold check_ports. lead.
Qed.

Lemma admit_replay scope input runtime now s e r :
  let fingerprint := transportFingerprint sha256 locale_le (rt_transport runtime) input in
  let bound := jm_get (transportCompositeKey sha256 scope (rt_transport runtime)) (transport s) in
  jm_get (batch_key scope input) (batches s) = Some e → be_result e = Some r →
  be_contextHash e = batchContextFingerprint sha256 locale_le input (rt_agentId runtime) →
  bound = None ∨ bound = Some (batch_key scope input, fingerprint) →
  ∃ s', admission_of sha256 locale_le scope input runtime now s = (Ok (adm_replay r (replay_of runtime e)), s') ∧
        projections s' = projections s ∧ batches s' = batches s.
Proof.
  cbv zeta. intros He Hr Hh Hb. unfold admission_of. cbv zeta. unfold mbind, js_bind, getf. rewrite He, Hh, String.eqb_refl.
  cbn [negb throw_if mret js_ret]. unfold mret, js_ret, check_transport.
  destruct Hb as [->| ->]; [|rewrite !String.eqb_refl]; cbn; rewrite Hr; by eexists.
Qed.

(** C27. Once a durable batch was answered with a closed receipt, every later submission of the
    same batch by the same agent, whatever was called in between, is answered with the same
    result, without touching an item or a batch. *)
Theorem closed_batch_replays scope input runtime now s runs r w s1 sys2 runtime2 now2 s3 :
  reachable (Build_System s runs) → trusted scope →
  submitDurableSyncBatch scope input runtime now s = (Ok (r, w), s1) →
  br_status (sr_receipt r) = batch_closed →
  rtc step (Build_System s1 runs) sys2 →
  rt_agentId runtime2 = rt_agentId runtime →
  prepared_keys scope input (rt_ports runtime2) (sy_store sys2) = (Ok (), s3) →
  (let bound := jm_get (transportCompositeKey sha256 scope (rt_transport runtime2)) (transport s3) in
   bound = None ∨
   bound = Some (batch_key scope input, transportFingerprint sha256 locale_le (rt_transport runtime2) input)) →
  ∃ w2 s4, submitDurableSyncBatch scope input runtime2 now2 (sy_store sys2) = (Ok (r, w2), s4) ∧
           projections s4 = projections (sy_store sys2) ∧ batches s4 = batches (sy_store sys2).
Proof using Hforward.
  intros Hreach Ht Hsub Hclosed Hsteps Hagent Hkeys Hbound.
  destruct (submit_result _ _ _ _ _ _ _ _ Hsub Hclosed) as (e & He & Hres & Hh).
  assert (reachable (Build_System s1 runs)) as Hreach1 by (unfold SyncBatches.reachable in *; etrans; [exact Hreach|by eapply submit_steps]).
  pose proof (result_steps _ _ _ _ _ _ _ Hforward _ _ _ _ _ Hreach1 Hsteps He Hres) as He2.
  destruct (prepared_keys_quiet _ _ _ _ _ _ Hkeys) as [Hp Hb].
  destruct (admit_replay scope input runtime2 now2 s3 e r) as (s4 & Ha & Hp4 & Hb4); [by rewrite Hb|done|by rewrite Hagent|done|].
  exists (replay_of runtime2 e), s4. split; [|by rewrite Hp4, Hb4, Hp, Hb].
  unfold SyncBatch.submitDurableSyncBatch, beginBatch. unfold prepared_keys in Hkeys.
  apply js_bind_ok in Hkeys as (keys & s5 & Hk & Hc). unfold mbind, js_bind in *. by rewrite Hk, Hc, Ha.
Qed.

(** ** Open batches *)

(** A status with its context: final, or terminally received. *)
Definition final_status (initial : QueueStatus) (status : QueueStatus) (stynx : option Stynx) : Prop :=
  status ≠ initial ∨ match stynx with Some x => sx_terminalReceived x | None => false end = true.

Lemma apply_prepared_final c p s a s' :
  is_Some (itemApplier (rt_ports (pc_runtime c))) → apply_prepared uuid_at meanwhile c p s = (Ok a, s') →
  at_status a = qs_applied ∨ at_status a = qs_conflict.
Proof.
  intros [applier Ha]. unfold apply_prepared. destruct (pp_defer p).
  { intros ([[rc sx] cf] & s1 & _ & Hr)%js_bind_ok. injection Hr as <- _. by right. }
  rewrite Ha. intros (ck & s1 & _ & Hr)%js_bind_ok.
  do 4 apply js_bind_ok in Hr as (? & ? & _ & Hr). apply js_bind_ok in Hr as ([[rc sx] cf] & ? & _ & Hr).
  apply js_bind_ok in Hr as (? & ? & _ & Hr). injection Hr as <- _. simpl. destruct cf; auto.
Qed.

Lemma classified_status classify e dc item ctx o :
  cs_outcome (classifyDomainOutcome classify e dc item ctx) = Some o →
  do_status o = qs_received ∨ do_status o = qs_rejected ∨ do_status o = qs_conflict.
Proof.
  clear. assert (∀ t st, outcome_status t = Some st → st = qs_received ∨ st = qs_rejected ∨ st = qs_conflict) as Ho.
  { intros t st. unfold outcome_status. repeat case_match; naive_solver. }
  unfold classifyDomainOutcome. repeat (case_match; simpl; try done); intros [= <-]; simpl; eauto.
Qed.

Lemma settle_failure_final c ctx e s f s' :
  settle_failure native_message uuid_at meanwhile c ctx e s = (Ok f, s') → fl_retryable f = false →
  pc_initial c = qs_received ∨ pc_initial c = qs_pending →
  final_status (pc_initial c) (fl_status f) (Some (fl_stynx f)).
Proof.
  unfold settle_failure. cbv zeta. intros (rc & s1 & _ & Hr)%js_bind_ok. injection Hr as <- _. simpl.
  intros Hre Hin. apply negb_false_iff in Hre. unfold final_status, executionStynxContext. simpl.
  destruct (numbering_outcome e) as [[[code st] ev]|] eqn:Hn.
  { left. unfold numbering_outcome in Hn. destruct e as [[]| |]; try done. injection Hn as _ <- _.
    unfold receiptStatus. repeat case_match; destruct Hin as [->| ->]; done. }
  destruct (cs_outcome _) as [o|] eqn:Ho.
  - apply classified_status in Ho as [->|[->| ->]]; [by right|left|left]; destruct Hin as [->| ->]; done.
  - rewrite bool_decide_eq_false_2 in Hre by (by intros [? ?]). rewrite orb_false_r in Hre. rewrite Hre.
    left. destruct Hin as [->| ->]; done.
Qed.

Lemma initial_status_cases b item : initial_status b item = qs_received ∨ initial_status b item = qs_pending.
Proof. unfold initial_status. case_match; auto. Qed.

Lemma outcome_final b item c ex s a code retryable s' :
  declared item = true → is_Some (itemApplier (rt_ports (pc_runtime c))) →
  pc_initial c = qs_received ∨ pc_initial c = qs_pending →
  outcome_of native_message uuid_at meanwhile b item c ex s = (Ok (a, code, retryable), s') → retryable = false →
  final_status (pc_initial c) (at_status a) (at_stynx a).
Proof.
  intros Hd Ha Hin. unfold outcome_of. rewrite Hd. cbn [negb]. intros (u & s1 & _ & Hr)%js_bind_ok.
  apply js_bind_ok in Hr as ([ctx o] & s2 & Hrun & Hr).
  destruct o as [a'|e].
  - injection Hr as <- <- <- <-. intros _. left. apply js_bind_ok in Hrun as ([p|e] & s3 & _ & Hrun); [|done].
    apply js_bind_ok in Hrun as (o & s4 & Ht & Hrun). injection Hrun as <- -> <-.
    unfold js_try, owned in Ht. destruct (apply_prepared uuid_at meanwhile c p s3) as [[a2|e] s5] eqn:Hap; [|done].
    injection Ht as -> <-. apply apply_prepared_final in Hap; [|done].
    destruct Hin as [->| ->], Hap as [->| ->]; done.
  - assert (∃ f, settle_failure native_message uuid_at meanwhile c ctx e s2 = (Ok f, s') ∧
              a = {| at_status := fl_status f; at_serverEntityId := None; at_receiptContext := fl_receiptContext f;
                     at_stynx := Some (fl_stynx f); at_coveringKey := None |} ∧ retryable = fl_retryable f)
      as (f & Hf & -> & ->).
    { assert (∀ m : JS SyncStore SyncError (Applied * option string * bool),
        m = (failed ← settle_failure native_message uuid_at meanwhile c ctx e;
             mret ({| at_status := fl_status failed; at_serverEntityId := None;
                      at_receiptContext := fl_receiptContext failed; at_stynx := Some (fl_stynx failed);
                      at_coveringKey := None |}, Some (fl_errorCode failed), fl_retryable failed)) →
        m s2 = (Ok (a, code, retryable), s') → ∃ f, settle_failure native_message uuid_at meanwhile c ctx e s2 = (Ok f, s') ∧
              a = {| at_status := fl_status f; at_serverEntityId := None; at_receiptContext := fl_receiptContext f;
                     at_stynx := Some (fl_stynx f); at_coveringKey := None |} ∧ retryable = fl_retryable f) as Hm.
      { intros m -> (f & s4 & Hf & Hr')%js_bind_ok. injection Hr' as <- _ <- <-. by exists f. }
      destruct e as [[]| |]; try done; by eapply Hm. }
    intros Hre. simpl. by eapply settle_failure_final.
Qed.

Lemma process_new_final b item k previous reapplying s r s' :
  declared item = true → is_Some (itemApplier (rt_ports (pk_runtime b))) →
  process_new native_message uuid_at meanwhile b item k previous reapplying s = (Ok r, s') → im_retryable r = false →
  final_status (initial_status b item) (ir_status (im_receipt r)) (ir_stynx (im_receipt r)).
Proof.
  intros Hd Ha. unfold process_new. cbv zeta. intros ([[a code] retryable] & s1 & Hout & Hr)%js_bind_ok.
  do 4 apply js_bind_ok in Hr as (? & ? & _ & Hr). injection Hr as <- _. simpl. intros Hre.
  apply (outcome_final _ _ _ _ _ _ _ _ _ Hd) in Hout; [exact Hout|exact Ha|apply initial_status_cases|exact Hre].
Qed.

Lemma rejected_final b item stored code x :
  final_status (initial_status b item) (ir_status (im_receipt (rejected b item stored code x)))
    (ir_stynx (im_receipt (rejected b item stored code x))).
Proof. left. simpl. by destruct (initial_status_cases b item) as [->| ->]. Qed.

(** A batch closes only when none of its items can still be applied: an item with a key of
    the client's that leaves the batch closable has been applied, rejected or put in conflict,
    or was received for good. *)
Theorem unsettled_item_keeps_batch_open b item s r s' :
  declared item = true → is_Some (itemApplier (rt_ports (pk_runtime b))) →
  jm_get (key (tenantId (pk_scope b)) (pk_key b)) (e6Items (projections s)) = None →
  processItem b item s = (Ok r, s') → im_retryable r = false →
  final_status (initial_status b item) (ir_status (im_receipt r)) (ir_stynx (im_receipt r)).
Proof using Hforward.
  intros Hd Ha He6 (v & s1 & Hv & Hr)%js_bind_ok. cbv zeta in Hr. destruct (negb v).
  { apply js_bind_ok in Hr as (? & ? & _ & Hr). apply js_bind_ok in Hr as (? & ? & _ & Hr). injection Hr as <- _.
    intros _. apply rejected_final. }
  pose proof (leads_run same_projections _ _ _ _ (leads_verify _ _ _ Hforward _ _ _) Hv) as Hp. unfold same_projections in Hp.
  apply js_bind_ok in Hr as (q & s2 & Hq & Hr). injection Hq as <- <-.
  match type of Hr with (if ?c then _ else _) _ = _ => destruct c end.
  { injection Hr as <- _. intros _. apply rejected_final. }
  apply js_bind_ok in Hr as (e6 & s2 & H6 & Hr). injection H6 as <- <-. rewrite Hp, He6 in Hr.
  apply js_bind_ok in Hr as (previous & s2 & Hprev & Hr). injection Hprev as <- <-.
  destruct (jm_get _ (itemReceipts _)) as [e|]; [|revert Hr; by apply process_new_final].
  destruct (reapplies b item (Some e)); [revert Hr; by apply process_new_final|].
  destruct (negb (String.eqb _ _)).
  { apply js_bind_ok in Hr as (? & ? & _ & Hr). injection Hr as <- _. intros _. apply rejected_final. }
  destruct (answered b item e); [|revert Hr; by apply process_new_final].
  injection Hr as <- _. unfold duplicate_result. cbn [im_retryable im_receipt item_receipt ir_status ir_stynx].
  unfold applies. rewrite Hd, (bool_decide_eq_true_2 _ Ha), !andb_true_r. unfold final_status, terminal.
  destruct (decide (ir_status (re_receipt e) = initial_status b item)) as [Heq|Hne]; [|by left].
  rewrite bool_decide_eq_true_2, andb_true_l by done. intros Ht%negb_false_iff. by right.
Qed.

(** ** Fatal items *)

Lemma js_map_fails {A B} (f : A → JS SyncStore SyncError B) l1 x l2 s ys s1 err s2 :
  js_map f l1 s = (Ok ys, s1) → f x s1 = (Throw err, s2) → js_map f (l1 ++ x :: l2) s = (Throw err, s2).
Proof.
  revert s ys. induction l1 as [|y l1 IH]; cbn [js_map app]; intros s ys.
  - intros [= <- <-] Hx. unfold mbind, js_bind. by rewrite Hx.
  - intros (z & s3 & Hy & Hr)%js_bind_ok Hx. apply js_bind_ok in Hr as (zs & s4 & Hzs & Hr). injection Hr as _ <-.
    specialize (IH _ _ Hzs Hx). unfold mbind, js_bind in *. by rewrite Hy, IH.
Qed.

(** An item whose processing throws ends the run: what the items before it wrote stays,
    none of its own writes does, and the batch waits for another run without a result. *)
Theorem fatal_item_ends_run scope input runtime now itemKeys s e l1 x l2 rs s1 err s2 :
  let item_place item := place scope input runtime now (be_initialPending e) itemKeys item in
  jm_get (batch_key scope input) (batches s) = Some e → sb_items input = l1 ++ x :: l2 →
  js_map (λ item, owned (processItem (item_place item) item)) l1 s = (Ok rs, s1) →
  processItem (item_place x) x s1 = (Throw err, s2) →
  ∃ s3, runBatch sha256 stringify native_message uuid_at meanwhile scope input runtime now itemKeys s = (Throw err, s3) ∧
        projections s3 = projections s1 ∧
        jm_get (batch_key scope input) (batches s3) = Some (set_be_promise false e).
Proof using Hforward.
  cbv zeta. intros He Hl H1 Hx. rewrite (runBatch_eq _ _ _ _ _ Hforward _ _ _ _ _ _ _ He).
  unfold run_items. rewrite Hl, (js_map_fails _ _ _ _ _ _ _ err (on_projections (λ _, projections s1) s2) H1).
  2: { unfold owned. by rewrite Hx. }
  eexists. split; [done|]. split; [done|]. simpl. by rewrite jm_get_set_eq.
Qed.
End claims.

(** ** A device that submits an item twice *)
Module Example.
Definition hash : string := "sha256:aaaaaaaaaaaaaaaaaaaaaaaaaaaaaaaaaaaaaaaaaaaaaaaaaaaaaaaaaaaaaaaa".
Definition other_hash : string := "sha256:bbbbbbbbbbbbbbbbbbbbbbbbbbbbbbbbbbbbbbbbbbbbbbbbbbbbbbbbbbbbbbbb".
Definition scope : Scope := {| tenantId := "t"; actorId := "ann"; sc_agentId := None; sc_ctg9 := true |}.
Definition ports : Ports :=
  {| initialPending := false; policyResolver := true; legacyItemIdentityResolver := None;
     payloadHashPort := Some (λ _ item _, Ok (bi_payloadHash item)); preApplyDetector := None;
     concurrencyDetector := None; handoffPort := None;
     itemApplier := Some (λ _ item _, Ok {| ap_serverEntityId := "server-" +:+ bi_localEntityId item;
                                            ap_consumerAttributes := None |});
     eventPort := Some (λ _ _, Ok ()); allowedActionsPort := None; domainOutcomeClassifier := None;
     replayKeyHeaderName := None; replayMarkerHeaderName := None |}.
Definition transport (k : string) : TransportOptions :=
  {| to_transportIdempotencyKey := k; to_method := "POST"; to_path := "/offline-sync/sync-batches";
     to_transportUserId := None; to_requestBody := None; to_headers := Some [] |}.
Definition runtime (k : string) : Runtime :=
  {| rt_agentId := "ann"; rt_policy := {| concurrencyWindowMinutes := None; concurrencyApplication := None |};
     rt_ports := ports; rt_transport := transport k |}.
Definition item (id h : string) : SyncBatchItemInput :=
  {| bi_queueItemId := id; bi_entityType := "note"; bi_localEntityId := "local-1"; bi_idempotencyKey := Some "key-1";
     bi_payloadHash := h; bi_payloadJson := JObject []; bi_createdLocallyAt := "2026-01-01T00:00:00.000Z";
     bi_reservedNumber := None; bi_reservationId := None |}.
Definition batch (id : string) (n : Z) (items : list SyncBatchItemInput) : SubmitSyncBatchInput :=
  {| sb_orgUnitId := "unit"; sb_deviceId := "device"; sb_deviceBatchId := id; sb_items := items; sb_agentId := None;
     sb_batchSequence := Some n |}.
Definition now : string := "2026-01-01T00:00:00.000Z".
Definition quietly (n : nat) (s : Store) : Store := s.
Definition everyone (s : Scope) : Prop := s = scope.

Notation submit input k :=
  (submitDurableSyncBatch id utf16_le (λ _, "body") (λ _, "message") pretty quietly scope input (runtime k) now).
Notation reaches := (reachable id utf16_le (λ _, "body") (λ _, "message") pretty quietly everyone).
Definition first : SubmitSyncBatchInput := batch "b1" 1 [item "q1" hash].
Definition second : SubmitSyncBatchInput := batch "b2" 2 [item "q2" hash].
Definition value {A} (o : outcome SyncError A * SyncStore) (d : A) : A := match o.1 with Ok a => a | Throw _ => d end.
Definition no_result : SubmitSyncBatchResult * option ReplayResponse := (batch_result first (open_receipt first) [], None).
Definition s1 : SyncStore := (submit first "k1" new_store).2.
Definition r1 : SubmitSyncBatchResult * option ReplayResponse := value (submit first "k1" new_store) no_result.
Definition s2 : SyncStore := (submit second "k2" s1).2.
Definition r2 : SubmitSyncBatchResult * option ReplayResponse := value (submit second "k2" s1) no_result.

Lemma quietly_forward : forward quietly.
Proof. intros n s. apply le_n. Qed.
Lemma first_answer : submit first "k1" new_store = (Ok (r1.1, r1.2), s1).
Proof. vm_compute. reflexivity. Qed.
Lemma second_answer : submit second "k2" s1 = (Ok (r2.1, r2.2), s2).
Proof. vm_compute. reflexivity. Qed.
Opaque s1 s2 r1 r2.
Lemma first_reached : reaches (Build_System s1 []).
Proof.
  exact (submit_steps id utf16_le (λ _, "body") (λ _, "message") pretty quietly everyone
           scope first (runtime "k1") now new_store [] r1.1 r1.2 s1 eq_refl first_answer).
Qed.
Lemma second_steps :
  rtc (step id utf16_le (λ _, "body") (λ _, "message") pretty quietly everyone) (Build_System s1 []) (Build_System s2 []).
Proof.
  exact (submit_steps id utf16_le (λ _, "body") (λ _, "message") pretty quietly everyone
           scope second (runtime "k2") now s1 [] r2.1 r2.2 s2 eq_refl second_answer).
Qed.
Lemma second_reached : reaches (Build_System s2 []).
Proof. unfold reachable. etrans; [exact first_reached|exact second_steps]. Qed.

Lemma effect_at_most_once_witness :
  reaches (Build_System s2 []) ∧ effects (projections s2) = [key "t" "key-1"] ∧
  settled (projections s2) (key "t" "key-1").
Proof.
  assert (key "t" "key-1" ∈ effects (projections s2)) as Hk by (vm_compute; left).
  split; [exact second_reached|]. split; [vm_compute; reflexivity|].
  exact (proj2 (effect_at_most_once id utf16_le (λ _, "body") (λ _, "message") pretty quietly everyone quietly_forward
           (Build_System s2 []) second_reached) (key "t" "key-1") Hk).
Defined.

(** The first item again, its payload changed. *)
Definition changed : SyncBatchItemInput := item "q1" other_hash.
Definition place_of (x : SyncBatchItemInput) : Place := place scope second (runtime "k2") now false [(bi_queueItemId x, "key-1")] x.
Lemma tampered_item_rejected_witness :
  match processItem id (λ _, "message") pretty quietly (place_of changed) changed s1 with
  | (Ok r, s') => ir_status (im_receipt r) = qs_rejected ∧ untouched s1 s'
  | (Throw _, _) => False
  end.
Proof.
  pose proof (tampered_item_rejected id (λ _, "message") pretty quietly quietly_forward (place_of changed) changed s1 true
    (verifyOfflineSyncPayloadHash id quietly changed (place_context (place_of changed)) (payloadHashPort ports) s1).2) as H.
  destruct (processItem id (λ _, "message") pretty quietly (place_of changed) changed s1) as [[r|e] s'] eqn:Hp.
  - destruct (H r s') as (Hr & _ & _ & Hu); [vm_compute; reflexivity| |vm_compute; reflexivity|reflexivity|by split].
    right. eexists. split; [vm_compute; reflexivity|]. split; [vm_compute; discriminate|].
    intros q Hq. vm_compute in Hq. injection Hq as <-. reflexivity.
  - vm_compute in Hp. discriminate Hp.
Defined.

Lemma batch_sequences_consecutive_witness :
  sequences scope "device" s2 = [1; 2] ∧ ∃ n, 0 ≤ n ∧ sequences scope "device" s2 ≡ₚ seqZ 1 n.
Proof.
  split; [vm_compute; reflexivity|].
  apply (batch_sequences_consecutive id utf16_le (λ _, "body") (λ _, "message") pretty quietly everyone quietly_forward
           (Build_System s2 []) scope "device"); [|vm_compute; intuition congruence|exact second_reached].
  intros x ->. vm_compute. intuition congruence.
Defined.

Lemma closed_batch_replays_witness :
  ∃ w2 s4, submit first "k1" s2 = (Ok (r1.1, w2), s4) ∧ projections s4 = projections s2 ∧ batches s4 = batches s2.
Proof.
  apply (closed_batch_replays id utf16_le (λ _, "body") (λ _, "message") pretty quietly everyone quietly_forward
           scope first (runtime "k1") now new_store [] r1.1 r1.2 s1 (Build_System s2 []) (runtime "k1") now
           (prepared_keys id quietly scope first ports s2).2);
    [apply rtc_refl|reflexivity|exact first_answer|vm_compute; reflexivity|exact second_steps|reflexivity
    |vm_compute; reflexivity|right; vm_compute; reflexivity].
Defined.

(** An applier that finds the item stale: the item is put in conflict and the batch can close. *)
Definition unsure : Runtime :=
  {| rt_agentId := "ann"; rt_policy := {| concurrencyWindowMinutes := None; concurrencyApplication := None |};
     rt_ports := ports; rt_transport := transport "k3" |}.
Definition third : SyncBatchItemInput := item "q1" hash.
Definition third_place : Place := place scope first unsure now false [("q1", "key-1")] third.
Definition third_answer := processItem id (λ _, "message") pretty quietly third_place third new_store.
Lemma unsettled_item_keeps_batch_open_witness :
  match third_answer with
  | (Ok r, _) => im_retryable r = false ∧
                 final_status (initial_status third_place third) (ir_status (im_receipt r)) (ir_stynx (im_receipt r))
  | (Throw _, _) => False
  end.
Proof.
  pose proof (unsettled_item_keeps_batch_open id (λ _, "message") pretty quietly quietly_forward third_place third new_store) as H.
  destruct third_answer as [[r|e] s'] eqn:Hp; [|vm_compute in Hp; discriminate Hp].
  assert (im_retryable r = false) as Hr by (vm_compute in Hp; injection Hp as <- _; reflexivity).
  split; [exact Hr|]. apply (H r s'); [vm_compute; reflexivity|by eexists|vm_compute; reflexivity|exact Hp|exact Hr].
Defined.

(** An applier that is not configured for the second item ends the run there. *)
Definition half : Ports :=
  {| initialPending := false; policyResolver := true; legacyItemIdentityResolver := None;
     payloadHashPort := Some (λ _ item _, Ok (bi_payloadHash item)); preApplyDetector := None;
     concurrencyDetector := None; handoffPort := None;
     itemApplier := Some (λ _ item _,
       if String.eqb (bi_queueItemId item) "q2" then Throw (Own (OfflineSyncConfigurationError "itemApplier"))
       else Ok {| ap_serverEntityId := "server-1"; ap_consumerAttributes := None |});
     eventPort := Some (λ _ _, Ok ()); allowedActionsPort := None; domainOutcomeClassifier := None;
     replayKeyHeaderName := None; replayMarkerHeaderName := None |}.
Definition half_runtime : Runtime :=
  {| rt_agentId := "ann"; rt_policy := {| concurrencyWindowMinutes := None; concurrencyApplication := None |};
     rt_ports := half; rt_transport := transport "k4" |}.
Definition pair : SubmitSyncBatchInput :=
  batch "b1" 1 [item "q1" hash; set_bi_key "key-2" (item "q2" hash)].
Definition pair_keys : jsmap string string := [("q1", "key-1"); ("q2", "key-2")].
Definition begun : SyncStore := (beginBatch id utf16_le quietly scope pair half_runtime now new_store).2.
Definition pair_place (x : SyncBatchItemInput) : Place := place scope pair half_runtime now false pair_keys x.
Lemma fatal_item_ends_run_witness :
  ∃ s3, runBatch id (λ _, "body") (λ _, "message") pretty quietly scope pair half_runtime now pair_keys begun
          = (Throw (Own (OfflineSyncConfigurationError "itemApplier")), s3) ∧
        effects (projections s3) = [key "t" "key-1"].
Proof.
  assert (∃ e, jm_get (batch_key scope pair) (batches begun) = Some e ∧ be_initialPending e = false) as (e & He & Hi)
    by (vm_compute; eexists; split; reflexivity).
  pose proof (fatal_item_ends_run id (λ _, "body") (λ _, "message") pretty quietly quietly_forward
    scope pair half_runtime now pair_keys begun e [item "q1" hash] (set_bi_key "key-2" (item "q2" hash)) []) as H.
  cbv zeta in H. rewrite Hi in H.
  destruct (js_map (λ x, owned (processItem id (λ _, "message") pretty quietly (pair_place x) x)) [item "q1" hash] begun)
    as [[rs|err] after] eqn:Hm; [|vm_compute in Hm; discriminate Hm].
  destruct (processItem id (λ _, "message") pretty quietly (pair_place (set_bi_key "key-2" (item "q2" hash)))
              (set_bi_key "key-2" (item "q2" hash)) after) as [[r|err] s2'] eqn:Hx.
  - exfalso. vm_compute in Hm. injection Hm as <- <-. vm_compute in Hx. discriminate Hx.
  - destruct (H rs after err s2' He eq_refl Hm Hx) as (s3 & Hr & Hp & _). exists s3. rewrite Hr, Hp.
    vm_compute in Hm. injection Hm as <- <-. vm_compute in Hx. injection Hx as <- _. split; reflexivity.
Defined.
Transparent s1 s2 r1 r2.
End Example.
