(* ===== verification/Archive.v ===== *)
(** * Archive: soft deletion and restoration of rows.

    [data/src/internal/soft-delete-cascade.ts], [archive-relations.ts], [archive-restore.ts],
    [table-meta.ts] and the methods of [data/src/transaction.ts] that use them: a row that is
    deleted moves, with the rows that depend on it, into the mirror table of its table, and can
    be moved back.

    The tables are finite maps the SQL statements read and write: [live] holds the rows by
    schema, table and id, [mirrors] the mirror tables by their name in the schema [archive].
    The rest of the database is the [Catalog]: the registry of foreign keys, the columns and
    unique constraints of a table, the order in which a select without [order by] answers, and
    what the constraints and triggers of the schema make of a delete or an insert. Every table of
    the registry has its mirror: a statement that names a missing table would fail. *)
From Stdlib Require Import Ascii.
From stdpp Require Import pretty.
From S2P Require Import Prelude JsText JsJson.
Local Open Scope Z_scope.

(** ** Tables *)

(** [quoteIdent], [qualifiedName], [mirrorQualifiedName] name the table in a statement. *)
Fixpoint double_quotes (s : string) : string :=
  match s with
  | EmptyString => EmptyString
  | String c s' => if Ascii.eqb c quote_char then String c (String c (double_quotes s')) else String c (double_quotes s')
  end.
Definition quoteIdent (identifier : string) : string :=
  String quote_char (double_quotes identifier +:+ String quote_char EmptyString).
Definition qualifiedName (schema table : string) : string := quoteIdent schema +:+ "." +:+ quoteIdent table.
Definition mirror_name (schema table : string) : string := schema +:+ "_" +:+ table.
Definition mirrorQualifiedName (schema table : string) : string := qualifiedName "archive" (mirror_name schema table).

Record TableMeta := { tm_schema : string; tm_table : string; columnNames : list string }.

Notation Row := (gmap string json).
(** Schema, table and id of a row. *)
Notation Key := (string * string * string)%type.
Notation Live := (gmap Key Row).
Definition row_key (meta : TableMeta) (id : string) : Key := (tm_schema meta, tm_table meta, id).
Definition key_id (k : Key) : string := k.2.

Inductive FkBehavior := fk_hide | fk_cascade | fk_block.
#[export] Instance FkBehavior_eq_dec : EqDecision FkBehavior.
Proof. solve_decision. Defined.

Record RegistryEntry := {
  parentSchema : string;
  parentTable : string;
  childSchema : string;
  childTable : string;
  fkConstraint : string;
  behavior : FkBehavior;
  childColumn : string }.

(** A row of a mirror table; [ar_id] is its id column. *)
Record Archived := {
  ar_archiveId : Z;
  ar_id : string;
  ar_row : Row;
  ar_deletedAt : Z;
  ar_deletedBy : option string }.

(** What the statements find in the database besides the tables: [scan] is the order of the
    rows of a select that asks for none, [delete_live] and [insert_error] what the constraints
    and triggers answer to a delete and to an insert (an SQLSTATE, and a constraint). *)
Record Catalog := {
  registry : list RegistryEntry;
  columns : string → string → list string;
  unique_constraints : string → string → list (string * list string);
  scan : ∀ {A}, list A → list A;
  delete_live : Live → Key → outcome string Live;
  insert_error : Live → Key → Row → option (string * option string) }.

(** ** Errors *)

Record CascadeStep := { cs_schema : string; cs_table : string; cs_rowCount : Z }.
Record CascadePlan := {
  cp_parent : Key;
  cp_steps : list CascadeStep;
  cp_totalRows : Z;
  cp_maxDepth : Z;
  cp_withinLimits : bool }.
Record Blocking := { bk_schema : string; bk_table : string; bk_count : Z; bk_sampleIds : list string }.

(** The errors of [errors.ts] with their context. [Database] is an SQLSTATE that passes
    through; [Exhausted] is none of the code's: the fuel of a definition ran out. *)
Inductive ArchiveError :=
| CascadeTooDeepError (attempted maxDepth : Z) (parent : Key)
| CascadeTooLargeError (maxRows : Z) (parent : Key) (plan : option CascadePlan) (child : option string)
| SoftDeleteBlockedError (parent : Key) (blockingChildren : list Blocking)
| RestoreConflictError (conflictingConstraint : string) (conflictValues : list (string * json)) (blockingLiveId : option string)
| RestoreCascadeParentsArchivedError (archivedParents : list Key)
| ArchiveMirrorMissingError (table : string) (id : option string)
| ReadOnlyViolationError
| TransactionRequiredError
| Database (code : string)
| Exhausted.

(** ** The transaction *)

Inductive Metric := m_soft_delete (label : string) | m_restore (label : string) | m_hard_delete (label : string).

(** A [Transaction] and the database as it sees it; [settings] are the [set_config] of the
    session, [metrics] what the sink was told (the gauge of the archive size, which only reads
    the catalog, is left out). *)
Record TxState := {
  active : bool;
  reader : bool;   (** [role === 'reader'] *)
  live : Live;
  mirrors : gmap string (list Archived);
  serials : gmap string Z;
  settings : gmap string string;
  metrics : list Metric }.

Definition on_live f s := {| active := active s; reader := reader s; live := f (live s); mirrors := mirrors s;
  serials := serials s; settings := settings s; metrics := metrics s |}.
Definition on_mirrors f s := {| active := active s; reader := reader s; live := live s; mirrors := f (mirrors s);
  serials := serials s; settings := settings s; metrics := metrics s |}.
Definition on_serials f s := {| active := active s; reader := reader s; live := live s; mirrors := mirrors s;
  serials := f (serials s); settings := settings s; metrics := metrics s |}.
Definition on_settings f s := {| active := active s; reader := reader s; live := live s; mirrors := mirrors s;
  serials := serials s; settings := f (settings s); metrics := metrics s |}.
Definition on_metrics f s := {| active := active s; reader := reader s; live := live s; mirrors := mirrors s;
  serials := serials s; settings := settings s; metrics := f (metrics s) |}.

Notation M := (JS TxState ArchiveError).

(** [for (const x of l) acc = f(acc, x);] *)
Fixpoint out_fold {E A B} (f : B → A → outcome E B) (l : list A) (b : B) : outcome E B :=
  match l with
  | [] => Ok b
  | x :: l' => b' ← f b x; out_fold f l' b'
  end.
Fixpoint js_fold {S E A B} (f : B → A → JS S E B) (l : list A) (b : B) : JS S E B :=
  match l with
  | [] => mret b
  | x :: l' => b' ← f b x; js_fold f l' b'
  end.

Section archive.
Context (c : Catalog).

(** ** Relations *)

Definition of_parent (schema table : string) (e : RegistryEntry) : bool :=
  String.eqb (parentSchema e) schema && String.eqb (parentTable e) table.
Definition of_child (schema table : string) (e : RegistryEntry) : bool :=
  String.eqb (childSchema e) schema && String.eqb (childTable e) table.
Definition loadRegistryByParent (schema table : string) : list RegistryEntry :=
  scan c (List.filter (of_parent schema table) (registry c)).
Definition loadRegistryByChild (schema table : string) : list RegistryEntry :=
  scan c (List.filter (of_child schema table) (registry c)).
Definition has_behavior (b : FkBehavior) (e : RegistryEntry) : bool := bool_decide (behavior e = b).

(** [column = $1], the parameter being a text *)
Definition sql_is (v : option json) (id : string) : bool :=
  match v with
  | Some (JString s) | Some (JNumber s) => String.eqb s id
  | _ => false
  end.

(** The rows of a table, and those whose column refers to an id. *)
Definition in_table (schema table : string) (k : Key) : bool := String.eqb k.1.1 schema && String.eqb k.1.2 table.
Definition refers (e : RegistryEntry) (id : string) (p : Key * Row) : bool :=
  in_table (childSchema e) (childTable e) p.1 && sql_is (p.2 !! childColumn e) id.
Definition listChildIds (l : Live) (entry : RegistryEntry) (parentId : string) : list string :=
  map (λ p, key_id p.1) (scan c (List.filter (refers entry parentId) (map_to_list l))).

Definition describeBlockingChildren (l : Live) (meta : TableMeta) (id : string) : list Blocking :=
  omap (λ entry,
    let ids := listChildIds l entry id in
    match ids with
    | [] => None
    | _ => Some {| bk_schema := childSchema entry; bk_table := childTable entry; bk_count := Z.of_nat (length ids);
                   bk_sampleIds := take 10 ids |}
    end) (List.filter (has_behavior fk_block) (loadRegistryByParent (tm_schema meta) (tm_table meta))).

Definition table_meta (schema table : string) : TableMeta :=
  {| tm_schema := schema; tm_table := table; columnNames := columns c schema table |}.
Definition child_meta (entry : RegistryEntry) : TableMeta := table_meta (childSchema entry) (childTable entry).

Definition ensureMirrorExists (meta : TableMeta) : M () :=
  found ← getf (λ s, mirrors s !! mirror_name (tm_schema meta) (tm_table meta));
  throw_if (bool_decide (found = None))
    (ArchiveMirrorMissingError (qualifiedName (tm_schema meta) (tm_table meta)) None).

(** ** Soft deletion *)

Definition cascades (meta : TableMeta) : list RegistryEntry :=
  List.filter (has_behavior fk_cascade) (loadRegistryByParent (tm_schema meta) (tm_table meta)).

Fixpoint buildCascadePlan (fuel : nat) (l : Live) (meta : TableMeta) (id : string)
    (maxCascadeDepth maxCascadeRows depth : Z) : outcome ArchiveError CascadePlan :=
  if maxCascadeDepth <? depth then Throw (CascadeTooDeepError depth maxCascadeDepth (row_key meta id)) else
  match fuel with
  | O => Throw Exhausted
  | S fuel =>
      '(steps, totalRows, observedMaxDepth) ← out_fold (λ '(steps, totalRows, observedMaxDepth) entry,
        let childIds := listChildIds l entry id in
        match childIds with
        | [] => Ok (steps, totalRows, observedMaxDepth)
        | _ =>
            let step := {| cs_schema := childSchema entry; cs_table := childTable entry;
                           cs_rowCount := Z.of_nat (length childIds) |} in
            out_fold (λ '(steps, totalRows, observedMaxDepth) childId,
              childPlan ← buildCascadePlan fuel l (child_meta entry) childId maxCascadeDepth maxCascadeRows (depth + 1);
              Ok (steps ++ cp_steps childPlan, totalRows + (cp_totalRows childPlan - 1),
                  Z.max observedMaxDepth (cp_maxDepth childPlan)))
              childIds (steps ++ [step], totalRows + Z.of_nat (length childIds), observedMaxDepth)
        end) (cascades meta) ([], 1, depth);
      let plan within := {| cp_parent := row_key meta id; cp_steps := steps; cp_totalRows := totalRows;
                            cp_maxDepth := observedMaxDepth; cp_withinLimits := within |} in
      if maxCascadeRows <? totalRows
      then Throw (CascadeTooLargeError maxCascadeRows (row_key meta id) (Some (plan false)) None)
      else Ok (plan true)
  end.

Record Cascaded := { ca_schema : string; ca_table : string; ca_archiveId : Z; ca_id : string }.

Definition set_config (name value : string) : M () := modify (on_settings (<[name := value]>)).
Definition report (m : Metric) : M () := modify (on_metrics (λ l, l ++ [m])).
Definition metricLabel (meta : TableMeta) : string := tm_schema meta +:+ "." +:+ tm_table meta.

(** The columns a statement names. *)
Definition pick (names : list string) (row : Row) : Row := filter (λ p, p.1 ∈ names) row.

(** [insert into mirror (...) select ... from table where id = $1 returning archive_id] *)
Definition insert_archive (meta : TableMeta) (id : string) (deletedAt : Z) : M (option Z) :=
  row ← getf (λ s, live s !! row_key meta id);
  match row with
  | None => mret None
  | Some row =>
      let name := mirror_name (tm_schema meta) (tm_table meta) in
      archiveId ← getf (λ s, default 1 (serials s !! name));
      actor ← getf (λ s, settings s !! "app.actor_id");
      _ ← modify (on_serials (<[name := archiveId + 1]>));
      _ ← modify (on_mirrors (λ m, <[name := default [] (m !! name) ++
            [{| ar_archiveId := archiveId; ar_id := id; ar_row := pick (columnNames meta) row;
                ar_deletedAt := deletedAt; ar_deletedBy := actor |}]]> m));
      mret (Some archiveId)
  end.

(** The row itself, once the rows below it are gone. *)
Definition archive_move (meta : TableMeta) (id : string) (deletedAt : Z) (cascaded : list Cascaded) : M (list Cascaded) :=
  blockingChildren ← getf (λ s, describeBlockingChildren (live s) meta id);
  _ ← throw_if (negb (bool_decide (length blockingChildren = 0%nat)))
        (SoftDeleteBlockedError (row_key meta id) blockingChildren);
  _ ← set_config "app.archive_move" "in_progress";
  _ ← set_config "app.archive_reason" "soft_delete";
  insert ← insert_archive meta id deletedAt;
  match insert with
  | None => throw (ArchiveMirrorMissingError (qualifiedName (tm_schema meta) (tm_table meta)) (Some id))
  | Some archiveId =>
      deleted ← getf (λ s, delete_live c (live s) (row_key meta id));
      match deleted with
      | Throw code =>
          throw (if String.eqb code "23503" || String.eqb code "23001"
                 then SoftDeleteBlockedError (row_key meta id) blockingChildren else Database code)
      | Ok l =>
          _ ← modify (on_live (λ _, l));
          _ ← report (m_soft_delete (metricLabel meta));
          mret (cascaded ++ [{| ca_schema := tm_schema meta; ca_table := tm_table meta; ca_archiveId := archiveId;
                                ca_id := id |}])
      end
  end.

Fixpoint softDeleteByReference (fuel : nat) (meta : TableMeta) (id : string) (deletedAt maxCascadeDepth maxCascadeRows
    depth : Z) (cascaded : list Cascaded) : M (list Cascaded) :=
  if maxCascadeDepth <? depth then throw (CascadeTooDeepError depth maxCascadeDepth (row_key meta id)) else
  match fuel with
  | O => throw Exhausted
  | S fuel =>
      _ ← ensureMirrorExists meta;
      '(_, cascaded) ← js_fold (λ '(totalRows, cascaded) entry,
        childIds ← getf (λ s, listChildIds (live s) entry id);
        let totalRows := totalRows + Z.of_nat (length childIds) in
        _ ← throw_if (maxCascadeRows <? totalRows)
              (CascadeTooLargeError maxCascadeRows (row_key meta id) None
                 (Some (childSchema entry +:+ "." +:+ childTable entry)));
        cascaded ← js_fold (λ cascaded childId,
          softDeleteByReference fuel (child_meta entry) childId deletedAt maxCascadeDepth maxCascadeRows (depth + 1) cascaded)
          childIds cascaded;
        mret (totalRows, cascaded)) (cascades meta) (1, cascaded);
      archive_move meta id deletedAt cascaded
  end.

(** ** Restoration *)

Definition loadArchivedRow (m : gmap string (list Archived)) (meta : TableMeta) (id : string) (archiveId : option Z) :
    option Archived :=
  head (js_sort (λ a b, ar_deletedAt b <=? ar_deletedAt a)
    (scan c (List.filter (λ a, String.eqb (ar_id a) id &&
                               match archiveId with Some n => ar_archiveId a =? n | None => true end)
      (default [] (m !! mirror_name (tm_schema meta) (tm_table meta)))))).

Definition findArchivedParents (s : TxState) (meta : TableMeta) (rowData : Row) : list Key :=
  omap (λ entry,
    match rowData !! childColumn entry with
    | Some (JString fkValue) =>
        if String.eqb fkValue EmptyString then None
        else if bool_decide (is_Some (live s !! (parentSchema entry, parentTable entry, fkValue))) then None
        else if existsb (λ a, String.eqb (ar_id a) fkValue)
                  (default [] (mirrors s !! mirror_name (parentSchema entry) (parentTable entry)))
        then Some (parentSchema entry, parentTable entry, fkValue) else None
    | _ => None
    end)
    (List.filter (λ e, has_behavior fk_block e || has_behavior fk_cascade e)
       (loadRegistryByChild (tm_schema meta) (tm_table meta))).

(** [column is not distinct from $n] *)
Definition same_value (a : option json) (b : json) : bool := bool_decide (default None (encode <$> a) = encode b).

Definition findRestoreConflict (l : Live) (meta : TableMeta) (rowData : Row) (id : string) :
    option (string * list (string * json) * option string) :=
  head (omap (λ '(name, cols),
    match mapM (λ col, rowData !! col ≫= λ v, match v with JNull | JUndefined => None | _ => Some (col, v) end) cols with
    | None => None
    | Some values =>
        (λ p, (name, values, Some (key_id p.1))) <$>
          head (scan c (List.filter (λ p, in_table (tm_schema meta) (tm_table meta) p.1
                  && negb (String.eqb (key_id p.1) id)
                  && forallb (λ v, same_value (p.2 !! v.1) v.2) values) (map_to_list l)))
    end) (unique_constraints c (tm_schema meta) (tm_table meta))).

(** [insert into table (...) select ... from mirror where archive_id = $1]: a row of the mirror
    that is gone by now inserts nothing. *)
Definition insert_live (meta : TableMeta) (id : string) (archiveId : Z) : M () :=
  s ← getf (λ s, s);
  match List.find (λ a, ar_archiveId a =? archiveId)
          (default [] (mirrors s !! mirror_name (tm_schema meta) (tm_table meta))) with
  | None => mret ()
  | Some a =>
      let row := pick (columnNames meta) (ar_row a) in
      match insert_error c (live s) (row_key meta (ar_id a)) row with
      | Some (code, constraint) =>
          throw (if String.eqb code "23505"
                 then RestoreConflictError (default "unique_violation" constraint) [("id", JString id)] (Some id)
                 else Database code)
      | None => modify (on_live (<[row_key meta (ar_id a) := row]>))
      end
  end.

Record RestoreOptions := { ro_archiveId : option Z; ro_cascade : bool }.
Definition with_cascade : RestoreOptions := {| ro_archiveId := None; ro_cascade := true |}.

(** The archived children of one restored row, deleted in the same operation. *)
Definition archived_children (m : gmap string (list Archived)) (entry : RegistryEntry) (id : string) (deletedAt : Z) :
    list string :=
  map ar_id (scan c (List.filter (λ a, sql_is (ar_row a !! childColumn entry) id && (ar_deletedAt a =? deletedAt))
    (default [] (m !! mirror_name (childSchema entry) (childTable entry))))).

(** [restoredChildren] is one array all calls append to. *)
Fixpoint restoreByReference (fuel : nat) (meta : TableMeta) (id : string) (options : RestoreOptions)
    (restoredChildren : list Key) : M (list Key) :=
  match fuel with
  | O => throw Exhausted
  | S fuel =>
      archived ← getf (λ s, loadArchivedRow (mirrors s) meta id (ro_archiveId options));
      match archived with
      | None => throw (ArchiveMirrorMissingError (mirrorQualifiedName (tm_schema meta) (tm_table meta)) (Some id))
      | Some archived =>
          archivedParents ← getf (λ s, findArchivedParents s meta (ar_row archived));
          _ ← throw_if (negb (bool_decide (length archivedParents = 0%nat)) && negb (ro_cascade options))
                (RestoreCascadeParentsArchivedError archivedParents);
          restoredChildren ← (if ro_cascade options
            then js_fold (λ restoredChildren parent,
                   restoreByReference fuel (table_meta parent.1.1 parent.1.2) (key_id parent) with_cascade restoredChildren)
                   archivedParents restoredChildren
            else mret restoredChildren);
          conflict ← getf (λ s, findRestoreConflict (live s) meta (ar_row archived) id);
          _ ← match conflict with
              | Some (constraint, values, blockingId) => throw (RestoreConflictError constraint values blockingId)
              | None => mret ()
              end;
          _ ← set_config "app.archive_move" "in_progress";
          _ ← set_config "app.archive_reason" "restore";
          _ ← insert_live meta id (ar_archiveId archived);
          _ ← modify (on_mirrors (λ m, alter (List.filter (λ a, negb (ar_archiveId a =? ar_archiveId archived)))
                (mirror_name (tm_schema meta) (tm_table meta)) m));
          _ ← report (m_restore (metricLabel meta));
          if ro_cascade options
          then js_fold (λ restoredChildren entry,
                 children ← getf (λ s, archived_children (mirrors s) entry id (ar_deletedAt archived));
                 js_fold (λ restoredChildren childId,
                   restoredChildren ← restoreByReference fuel (child_meta entry) childId with_cascade restoredChildren;
                   mret (restoredChildren ++ [(childSchema entry, childTable entry, childId)]))
                   children restoredChildren)
                 (cascades meta) restoredChildren
          else mret restoredChildren
      end
  end.

(** ** [Transaction] *)

Definition ensureActive : M () := a ← getf active; throw_if (negb a) TransactionRequiredError.
Definition ensureWritableRole : M () := r ← getf reader; throw_if r ReadOnlyViolationError.

(** A drizzle table: its meta data and the marker of a soft deletable table. *)
Record Table := { tb_meta : TableMeta; isSoftDeletable : bool }.

Record SoftDeleteOptions := { maxCascadeDepth : option Z; maxCascadeRows : option Z; dryRun : bool }.
Record SoftDeleteResult := { sd_archiveId : Z; sd_cascaded : list Cascaded; sd_deletedAt : Z }.

Definition is_root (meta : TableMeta) (id : string) (e : Cascaded) : bool :=
  String.eqb (ca_schema e) (tm_schema meta) && String.eqb (ca_table e) (tm_table meta) && String.eqb (ca_id e) id.

(** Levels of recursion: a call deeper than the limit throws before it recurses. *)
Definition depth_fuel (maxDepth : Z) : nat := S (Z.to_nat maxDepth).

Definition checked_table (table : Table) : M () :=
  _ ← ensureActive;
  _ ← ensureWritableRole;
  _ ← throw_if (negb (isSoftDeletable table))
        (ArchiveMirrorMissingError (qualifiedName (tm_schema (tb_meta table)) (tm_table (tb_meta table))) None);
  ensureMirrorExists (tb_meta table).

Definition softDelete (table : Table) (id : string) (options : SoftDeleteOptions) (now : Z) :
    M (CascadePlan + SoftDeleteResult) :=
  _ ← checked_table table;
  let meta := tb_meta table in
  let maxDepth := default 4 (maxCascadeDepth options) in
  let maxRows := default 100 (maxCascadeRows options) in
  l ← getf live;
  plan ← lift (buildCascadePlan (depth_fuel maxDepth) l meta id maxDepth maxRows 0);
  if dryRun options then mret (inl plan) else
  cascaded ← softDeleteByReference (depth_fuel maxDepth) meta id now maxDepth maxRows 0 [];
  mret (inr {| sd_archiveId := default 0 (ca_archiveId <$> List.find (is_root meta id) cascaded);
               sd_cascaded := List.filter (λ e, negb (is_root meta id e)) cascaded;
               sd_deletedAt := now |}).

(** The restored children; the code adds the id and the time of the call. *)
Definition restoreFromArchive (fuel : nat) (table : Table) (id : string) (options : RestoreOptions) : M (list Key) :=
  _ ← checked_table table;
  restoreByReference fuel (tb_meta table) id options [].
Definition restoreWithCascade (fuel : nat) (table : Table) (id : string) (archiveId : option Z) : M (list Key) :=
  restoreFromArchive fuel table id {| ro_archiveId := archiveId; ro_cascade := true |}.

Definition CONFIRM : string := "I understand this is irrecoverable".
Definition assertHardDeleteConfirmation (confirm : string) : M () :=
  throw_if (negb (String.eqb confirm CONFIRM)) ReadOnlyViolationError.

Definition hardDelete (table : Table) (id confirm : string) : M () :=
  _ ← ensureActive;
  _ ← ensureWritableRole;
  _ ← assertHardDeleteConfirmation confirm;
  let meta := tb_meta table in
  deleted ← getf (λ s, delete_live c (live s) (row_key meta id));
  match deleted with
  | Throw code => throw (Database code)
  | Ok l => _ ← modify (on_live (λ _, l)); report (m_hard_delete (metricLabel meta))
  end.

(** Schema and name of the table [parseArchiveTableName] names. *)
Definition parseArchiveTableName (archiveTable : string) : string * string :=
  match split_on "."%char archiveTable with
  | schemaName :: tableName :: _ =>
      if String.eqb schemaName EmptyString || String.eqb tableName EmptyString then ("archive", archiveTable)
      else (schemaName, tableName)
  | _ => ("archive", archiveTable)
  end.

(** Only the mirrors have a column [archive_id]: a statement on another table fails
    (undefined table or column). *)
Definition hardDeleteFromArchive (archiveId : Z) (archiveTable confirm : string) : M () :=
  _ ← ensureActive;
  _ ← ensureWritableRole;
  _ ← assertHardDeleteConfirmation confirm;
  let '(schema, name) := parseArchiveTableName archiveTable in
  mirror ← getf (λ s, mirrors s !! name);
  if negb (String.eqb schema "archive") then throw (Database "42703") else
  match mirror with
  | None => throw (Database "42P01")
  | Some l =>
      _ ← modify (on_mirrors (<[name := List.filter (λ a, negb (ar_archiveId a =? archiveId)) l]>));
      report (m_hard_delete archiveTable)
  end.
End archive.
