(* ===== verification/ArchiveRun.v ===== *)
(** * ArchiveRun: what a soft deletion moves.

    The rows a soft deletion takes out of the live tables, as the list of the archived rows it
    writes, in their order: every row comes after the rows below it. *)
From S2P Require Import Prelude JsText JsJson Archive.

Local Open Scope Z_scope.

Lemma js_fold_ok {S E A B} (f : B → A → JS S E B) x l b s b' s' :
  js_fold f (x :: l) b s = (Ok b', s') ↔ ∃ b1 s1, f b x s = (Ok b1, s1) ∧ js_fold f l b1 s1 = (Ok b', s').
Proof. cbn [js_fold]. apply js_bind_ok. Qed.

Lemma throw_if_ok {S E} (b : bool) (err : E) (s : S) u s' : throw_if b err s = (Ok u, s') ↔ b = false ∧ s' = s.
Proof. destruct b, u; cbv; naive_solver. Qed.

Lemma elem_of_filter {A} (f : A → bool) l x : x ∈ List.filter f l ↔ x ∈ l ∧ f x = true.
Proof. by rewrite !list_elem_of_In, List.filter_In. Qed.

Section catalog.
Context (c : Catalog).

(** A row as a delete elsewhere leaves it: columns of [hide] keys may have become null. *)
Definition hides (schema table col : string) : Prop :=
  ∃ e, e ∈ registry c ∧ of_child schema table e = true ∧ behavior e = fk_hide ∧ childColumn e = col.
Definition kept (k : Key) (r r' : Row) : Prop :=
  ∀ col, r' !! col = r !! col ∨ (hides k.1.1 k.1.2 col ∧ r' !! col = Some JNull).

(** The documented behaviour of the database: a select answers every row once, a delete takes
    out its row and nulls columns of [hide] keys; and such a column carries no other key. The last is no law of
    databases but a property of a schema: it holds for keys of one column, and fails for the composite keys of
    [0014_flow.sql], of which the registry's query shows the column they share, [tenant_id]. *)
Class Lawful : Prop := {
  scan_perm : ∀ A (l : list A), scan c l ≡ₚ l;
  delete_law : ∀ l k l', delete_live c l k = Ok l' →
    l' !! k = None ∧ ∀ k', k' ≠ k → option_Forall2 (kept k') (l !! k') (l' !! k');
  hide_alone : ∀ e, e ∈ registry c → behavior e ≠ fk_hide → ¬ hides (childSchema e) (childTable e) (childColumn e) }.

(** [via l e k k']: the live row [k'] refers to [k] by the key [e]. *)
Definition via (l : Live) (e : RegistryEntry) (k k' : Key) : Prop :=
  of_parent k.1.1 k.1.2 e = true ∧ k'.1 = (childSchema e, childTable e) ∧
  ∃ r, l !! k' = Some r ∧ sql_is (r !! childColumn e) k.2 = true.
(** [hangs l k k']: [k'] refers to [k] by a cascading or blocking key; [below l k k']: by a
    cascading one. *)
Definition hangs (l : Live) (k k' : Key) : Prop :=
  ∃ e, e ∈ registry c ∧ behavior e ≠ fk_hide ∧ via l e k k'.
Definition below (l : Live) (k k' : Key) : Prop :=
  ∃ e, e ∈ registry c ∧ behavior e = fk_cascade ∧ via l e k k'.
Lemma below_hangs l k k' : below l k k' → hangs l k k'.
Proof. intros (e & ? & Hb & ?). exists e. by rewrite Hb. Qed.

Lemma archive_kept_refl k r : kept k r r.
Proof. intros col. by left. Qed.
Lemma archive_kept_trans k r1 r2 r3 : kept k r1 r2 → kept k r2 r3 → kept k r1 r3.
Proof.
  intros H1 H2 col. destruct (H2 col) as [->|[??]]; [apply H1|by right].
Qed.

Context {Hlaw : Lawful}.

Lemma kept_link e r r' k :
  e ∈ registry c → behavior e ≠ fk_hide → k.1 = (childSchema e, childTable e) → kept k r r' →
  r' !! childColumn e = r !! childColumn e.
Proof using All.
  intros He Hb Hk Hkept. destruct (Hkept (childColumn e)) as [->|[Hh _]]; [done|].
  rewrite Hk in Hh. by destruct (hide_alone e He Hb).
Qed.

Lemma elem_cascades e meta :
  e ∈ cascades c meta ↔ e ∈ registry c ∧ behavior e = fk_cascade ∧ of_parent (tm_schema meta) (tm_table meta) e = true.
Proof using All.
  unfold cascades, loadRegistryByParent, has_behavior.
  rewrite elem_of_filter, scan_perm, elem_of_filter, bool_decide_eq_true. tauto.
Qed.

Lemma elem_listChildIds l e id id' :
  id' ∈ listChildIds c l e id ↔
  ∃ r, l !! (childSchema e, childTable e, id') = Some r ∧ sql_is (r !! childColumn e) id = true.
Proof using All.
  unfold listChildIds, refers, in_table, key_id. rewrite list_elem_of_fmap. setoid_rewrite scan_perm.
  split.
  - intros ([[[sc tb] i] r] & -> & Hp). rewrite elem_of_filter in Hp.
    destruct Hp as [Hp Hr]. apply elem_of_map_to_list in Hp. simpl in *.
    apply andb_true_iff in Hr as [[->%String.eqb_eq ->%String.eqb_eq]%andb_true_iff Hr]. eauto.
  - intros (r & Hl & Hr). exists ((childSchema e, childTable e, id'), r). split; [done|].
    rewrite elem_of_filter, elem_of_map_to_list. simpl.
    by rewrite !String.eqb_refl, Hr.
Qed.

Lemma via_child l e meta id id' :
  of_parent (tm_schema meta) (tm_table meta) e = true →
  id' ∈ listChildIds c l e id ↔ via l e (row_key meta id) (childSchema e, childTable e, id').
Proof using All. intros Hp. rewrite elem_listChildIds. unfold via. simpl. naive_solver. Qed.

Lemma via_elem l e meta id k' :
  via l e (row_key meta id) k' → ∃ id', k' = (childSchema e, childTable e, id') ∧ id' ∈ listChildIds c l e id.
Proof using All.
  intros (Hp & Ht & r & Hr & Hs). destruct k' as [t id']. simpl in Ht. subst t. exists id'. split; [done|].
  rewrite elem_listChildIds. eauto.
Qed.

(** ** Runs *)

Definition table_of (s : TxState) (n : string) : list Archived := default [] (mirrors s !! n).
Definition serial_of (s : TxState) (n : string) : Z := default 1 (serials s !! n).
Definition mirror_of (k : Key) : string := mirror_name k.1.1 k.1.2.
Notation keys arch := (map fst (arch : list (Key * Archived))).
(** What a list of archived rows puts into the mirror [n]. *)
Definition into (n : string) (arch : list (Key * Archived)) : list Archived :=
  map snd (List.filter (λ p, String.eqb (mirror_of p.1) n) arch).

(** What was archived at [t] for the row [k]. *)
Definition copy_of (t : Z) (l : Live) (k : Key) (a : Archived) : Prop :=
  ar_id a = k.2 ∧ ar_deletedAt a = t ∧
  ∃ r0 r, l !! k = Some r0 ∧ kept k r0 r ∧ ar_row a = pick (columns c k.1.1 k.1.2) r.

Record run (t : Z) (s s' : TxState) (arch : list (Key * Archived)) : Prop := {
  run_nodup : NoDup (keys arch);
  run_gone : ∀ k, k ∈ keys arch → is_Some (live s !! k) ∧ live s' !! k = None;
  run_kept : ∀ k, k ∉ keys arch → option_Forall2 (kept k) (live s !! k) (live s' !! k);
  run_mirrors : ∀ n, table_of s' n = table_of s n ++ into n arch;
  run_ids : ∀ n, map ar_archiveId (into n arch) = seqZ (serial_of s n) (Z.of_nat (length (into n arch))) ∧
                 serial_of s' n = serial_of s n + Z.of_nat (length (into n arch));
  run_tables : ∀ n, is_Some (mirrors s !! n) → is_Some (mirrors s' !! n);
  run_role : active s' = active s ∧ reader s' = reader s;
  run_rows : ∀ k a, (k, a) ∈ arch → copy_of t (live s) k a;
  run_below : ∀ l1 k l2 k', keys arch = l1 ++ k :: l2 → hangs (live s) k k' → k' ∈ l1 }.

Lemma run_refl t s : run t s s [].
Proof.
  split; try set_solver.
  - constructor.
  - intros k _. destruct (live s !! k); constructor. apply archive_kept_refl.
  - intros n. by rewrite app_nil_r.
  - intros n. split; [done|]. simpl. lia.
  - intros [] ? ? ? ?; discriminate.
Qed.

Lemma via_before l l' e k k' :
  e ∈ registry c → behavior e ≠ fk_hide → option_Forall2 (kept k') (l !! k') (l' !! k') → via l e k k' ↔ via l' e k k'.
Proof using All.
  intros He Hb Hk. unfold via.
  assert (∀ r r', k'.1 = (childSchema e, childTable e) → kept k' r r' → r' !! childColumn e = r !! childColumn e) as Hl
    by eauto using kept_link.
  split; intros (Hp & Ht & r & Hr & Hs); (split_and!; [done|done|]); rewrite Hr in Hk; inversion Hk as [? ? Hkept|]; subst;
    eexists; (split; [done|]); [rewrite (Hl _ _ Ht Hkept)|rewrite <- (Hl _ _ Ht Hkept)]; done.
Qed.

Lemma link_before t s s' arch (P : FkBehavior → Prop) k k' :
  run t s s' arch → k' ∉ keys arch → (∀ b, P b → b ≠ fk_hide) →
  (∃ e, e ∈ registry c ∧ P (behavior e) ∧ via (live s) e k k') ↔
  (∃ e, e ∈ registry c ∧ P (behavior e) ∧ via (live s') e k k').
Proof using All.
  intros Hr Hk HP. f_equiv. intros e. split; intros (He & Hb & Hv); (split_and!; [done|done|]).
  - rewrite <- via_before; [exact Hv|done|by apply HP|by apply (run_kept _ _ _ _ Hr)].
  - rewrite via_before; [exact Hv|done|by apply HP|by apply (run_kept _ _ _ _ Hr)].
Qed.
Lemma hangs_before t s s' arch k k' : run t s s' arch → k' ∉ keys arch → hangs (live s) k k' ↔ hangs (live s') k k'.
Proof using All. intros Hr Hk. by apply (link_before t s s' arch (λ b, b ≠ fk_hide)). Qed.
Lemma below_before t s s' arch k k' : run t s s' arch → k' ∉ keys arch → below (live s) k k' ↔ below (live s') k k'.
Proof using All. intros Hr Hk. apply (link_before t s s' arch (λ b, b = fk_cascade)); [done|done|by intros b ->]. Qed.

(** A link between rows of a later state was there before. *)
Lemma below_back t s s' arch k k' : run t s s' arch → below (live s') k k' → below (live s) k k'.
Proof using All.
  intros Hr Hb. destruct (decide (k' ∈ keys arch)) as [Hin|Hin]; [|by rewrite below_before].
  apply (run_gone _ _ _ _ Hr) in Hin as [_ Hn]. destruct Hb as (e & _ & _ & _ & _ & r & Hs & _). congruence.
Qed.
Lemma reach_back t s s' arch k k' : run t s s' arch → rtc (below (live s')) k k' → rtc (below (live s)) k k'.
Proof using All. intros Hr. apply rtc_subrel. intros ? ?. by eapply below_back. Qed.

Lemma run_trans t s1 s2 s3 a1 a2 : run t s1 s2 a1 → run t s2 s3 a2 → run t s1 s3 (a1 ++ a2).
Proof using All.
  intros H1 H2.
  assert (∀ k, k ∈ keys a2 → k ∉ keys a1) as Hdisj.
  { intros k Hk2 Hk1. apply (run_gone _ _ _ _ H1) in Hk1 as [_ Hn]. apply (run_gone _ _ _ _ H2) in Hk2 as [[] _]. congruence. }
  assert (∀ k r, k ∉ keys a1 → live s2 !! k = Some r → ∃ r0, live s1 !! k = Some r0 ∧ kept k r0 r) as Hback.
  { intros k r Hk Hr. pose proof (run_kept _ _ _ _ H1 k Hk) as Ho. rewrite Hr in Ho. inversion Ho; eauto. }
  split; rewrite ?map_app.
  - apply NoDup_app. split_and!; [apply H1| |apply H2]. intros k Hk Hk2. by eapply Hdisj.
  - intros k. rewrite elem_of_app. intros [Hk|Hk].
    + destruct (run_gone _ _ _ _ H1 k Hk) as [Hs Hn]. split; [done|].
      assert (k ∉ keys a2) as Hk2 by (intros Hk2; by apply (Hdisj k)).
      pose proof (run_kept _ _ _ _ H2 k Hk2) as Ho. rewrite Hn in Ho. by inversion Ho.
    + destruct (run_gone _ _ _ _ H2 k Hk) as [[r Hr] Hn]. split; [|done].
      destruct (Hback k r (Hdisj k Hk) Hr) as (r0 & -> & _). eauto.
  - intros k. rewrite not_elem_of_app. intros [Hk1 Hk2].
    pose proof (run_kept _ _ _ _ H1 k Hk1) as Ho1. pose proof (run_kept _ _ _ _ H2 k Hk2) as Ho2.
    destruct Ho1; inversion Ho2; subst; constructor. by eapply archive_kept_trans.
  - intros n. unfold into. rewrite (run_mirrors _ _ _ _ H2), (run_mirrors _ _ _ _ H1), List.filter_app, map_app. by rewrite (assoc (++)).
  - intros n. destruct (run_ids _ _ _ _ H1 n) as [I1 S1], (run_ids _ _ _ _ H2 n) as [I2 S2].
    assert (into n (a1 ++ a2) = into n a1 ++ into n a2) as -> by (unfold into; by rewrite List.filter_app, map_app).
    rewrite map_app, length_app, I1, I2, S2, S1, Nat2Z.inj_add, seqZ_app by lia. split; [done|lia].
  - intros n Hn. by apply (run_tables _ _ _ _ H2), (run_tables _ _ _ _ H1).
  - destruct (run_role _ _ _ _ H1) as [<- <-]. apply H2.
  - intros k a. rewrite elem_of_app. intros [Hk|Hk]; [by apply (run_rows _ _ _ _ H1)|].
    destruct (run_rows _ _ _ _ H2 k a Hk) as (Hi & Ht & r0 & r & Hr0 & Hkept & Hrow).
    assert (k ∈ keys a2) as Hk2 by (apply list_elem_of_fmap; by exists (k, a)).
    destruct (Hback k r0 (Hdisj k Hk2) Hr0) as (r1 & Hr1 & Hk1). split_and!; [done|done|].
    exists r1, r. split_and!; [done|by eapply archive_kept_trans|done].
  - intros l1 k l2 k' Hl Hb. apply app_eq_inv in Hl as [(l & Hl1 & Hl2)|(l & Hl1 & Hl2)].
    + destruct l as [|x l]; simpl in Hl2.
      * destruct (decide (k' ∈ keys a1)) as [Hin|Hin]; [rewrite app_nil_r in Hl1; by rewrite <- Hl1|].
        assert (k' ∈ []) as []%elem_of_nil.
        eapply (run_below _ _ _ _ H2 [] k l2); [done|]. by rewrite <- hangs_before.
      * injection Hl2 as <- ->. by eapply (run_below _ _ _ _ H1).
    + subst l1. rewrite elem_of_app. destruct (decide (k' ∈ keys a1)) as [Hin|Hin]; [by left|right].
      eapply (run_below _ _ _ _ H2); [exact Hl2|]. by rewrite <- hangs_before.
Qed.

(** ** The soft deletion of one row *)

Notation M := (JS TxState ArchiveError).

Definition entry_of (p : Key * Archived) : Cascaded :=
  {| ca_schema := p.1.1.1; ca_table := p.1.1.2; ca_archiveId := ar_archiveId p.2; ca_id := p.1.2 |}.

(** The row and everything below it went, the row last. *)
Definition moved (t : Z) (k : Key) (s s' : TxState) (cascaded cascaded' : list Cascaded) : Prop :=
  ∃ arch, run t s s' arch ∧ cascaded' = cascaded ++ map entry_of arch ∧ (∃ l, keys arch = l ++ [k]) ∧
          ∀ k', k' ∈ keys arch → rtc (below (live s)) k k'.

Lemma no_blocking l meta id e k' :
  describeBlockingChildren c l meta id = [] → e ∈ registry c → behavior e = fk_block → ¬ via l e (row_key meta id) k'.
Proof using All.
  intros Hb He Hf Hv. pose proof Hv as (Hp & _). apply via_elem in Hv as (i & _ & Hi).
  assert (e ∈ List.filter (has_behavior fk_block) (loadRegistryByParent c (tm_schema meta) (tm_table meta))) as Hin.
  { unfold has_behavior, loadRegistryByParent. by rewrite elem_of_filter, (scan_perm _), elem_of_filter, bool_decide_eq_true. }
  unfold describeBlockingChildren in Hb. revert Hb Hin. generalize (List.filter (has_behavior fk_block) (loadRegistryByParent c (tm_schema meta) (tm_table meta))).
  intros es. induction es as [|e1 es IH]; simpl; intros Hb Hin; [by apply elem_of_nil in Hin|].
  apply elem_of_cons in Hin as [<-|Hin].
  - destruct (listChildIds c l e id); [by apply elem_of_nil in Hi|done].
  - destruct (listChildIds c l e1 id); [auto|done].
Qed.

Lemma archive_move_moved schema table id t cascaded s cascaded' s' :
  let k := (schema, table, id) in
  (∀ k', ¬ below (live s) k k') →
  archive_move c (table_meta c schema table) id t cascaded s = (Ok cascaded', s') → moved t k s s' cascaded cascaded'.
Proof using All.
  cbv zeta. intros Hleaf. unfold archive_move.
  intros (b & ? & [= <- <-] & Hr)%js_bind_ok. apply js_bind_ok in Hr as ([] & ? & [Hblock ->]%throw_if_ok & Hr).
  apply negb_false_iff, bool_decide_eq_true, length_zero_iff_nil in Hblock.
  apply js_bind_ok in Hr as ([] & ? & [= <-] & Hr). apply js_bind_ok in Hr as ([] & ? & [= <-] & Hr).
  apply js_bind_ok in Hr as (n & s1 & Hi & Hr). unfold insert_archive, row_key in Hi. simpl in Hi.
  apply js_bind_ok in Hi as (row & ? & [= <- <-] & Hi). simpl in Hi.
  destruct (live s !! _) as [r|] eqn:Hrow; [|by injection Hi as <- <-].
  apply js_bind_ok in Hi as (an & ? & [= <- <-] & Hi). apply js_bind_ok in Hi as (actor & ? & [= <- <-] & Hi).
  apply js_bind_ok in Hi as ([] & ? & [= <-] & Hi). apply js_bind_ok in Hi as ([] & ? & [= <-] & Hi).
  injection Hi as <- <-. apply js_bind_ok in Hr as (d & ? & [= <- <-] & Hr). simpl in Hr. unfold row_key in Hr. simpl in Hr.
  destruct (delete_live c (live s) (schema, table, id)) as [l|code] eqn:Hd; [|done].
  apply js_bind_ok in Hr as ([] & ? & [= <-] & Hr). apply js_bind_ok in Hr as ([] & ? & [= <-] & Hr).
  injection Hr as <- <-. destruct (delete_law _ _ _ Hd) as [Hgone Hkept].
  eexists [((schema, table, id),
    {| ar_archiveId := default 1 (serials s !! mirror_name schema table); ar_id := id;
       ar_row := pick (columns c schema table) r; ar_deletedAt := t; ar_deletedBy := _ |})]. split_and!; [|reflexivity|by exists []|].
  - split; simpl.
    + apply NoDup_singleton.
    + intros k ->%list_elem_of_singleton. by rewrite Hrow.
    + intros k Hk. apply Hkept. set_solver.
    + intros n. unfold table_of, into, mirror_of. simpl. destruct (String.eqb_spec (mirror_name schema table) n) as [<-|Hn].
      * by rewrite lookup_insert_eq.
      * by rewrite lookup_insert_ne, app_nil_r.
    + intros n. unfold serial_of, into, mirror_of. simpl. destruct (String.eqb_spec (mirror_name schema table) n) as [<-|Hn]; simpl.
      * by rewrite lookup_insert_eq.
      * rewrite lookup_insert_ne by done. split; [done|lia].
    + intros n Hn. simpl. by apply lookup_insert_is_Some'; right.
    + done.
    + intros k a [= -> ->]%list_elem_of_singleton. split_and!; [done|done|]. exists r, r. split_and!; [done|apply archive_kept_refl|done].
    + intros l1 k l2 k' Hl Hb. exfalso. destruct l1 as [|? [|]]; try discriminate. simplify_eq/=.
      destruct Hb as (e & He & Hnh & Hv). destruct (behavior e) eqn:Hbe; [done| |by apply (no_blocking _ _ _ _ _ Hblock He Hbe Hv)].
      apply (Hleaf k'). by exists e.
  - simpl. intros k' ->%list_elem_of_singleton. done.
Qed.

Lemma moved_children t schema table (rec : string → list Cascaded → M (list Cascaded)) ids cascaded s cascaded' s' :
  (∀ id cascaded s cascaded' s', rec id cascaded s = (Ok cascaded', s') →
     moved t (schema, table, id) s s' cascaded cascaded') →
  js_fold (λ cascaded id, rec id cascaded) ids cascaded s = (Ok cascaded', s') →
  ∃ arch, run t s s' arch ∧ cascaded' = cascaded ++ map entry_of arch ∧
          (∀ id, id ∈ ids → (schema, table, id) ∈ keys arch) ∧
          ∀ k', k' ∈ keys arch → ∃ id, id ∈ ids ∧ rtc (below (live s)) (schema, table, id) k'.
Proof using All.
  intros Hrec. revert cascaded s. induction ids as [|id ids IH]; intros cascaded s.
  - intros [= <- <-]. exists []. rewrite app_nil_r. split_and!; [apply run_refl|done|set_solver|set_solver].
  - intros (c1 & s1 & H1 & H2)%js_fold_ok. apply Hrec in H1 as (a1 & R1 & -> & (l & Hl) & Hreach).
    apply IH in H2 as (a2 & R2 & -> & Hin & Hr2). exists (a1 ++ a2). rewrite map_app, (assoc (++)). split_and!.
    + by eapply run_trans.
    + done.
    + intros i. rewrite map_app, elem_of_app, elem_of_cons, Hl. intros [->|Hi]; [left; set_solver|right; auto].
    + intros k'. rewrite map_app, elem_of_app. intros [Hk|Hk].
      * exists id. split; [left|auto].
      * apply Hr2 in Hk as (i & Hi & Hk). exists i. split; [by right|]. by eapply reach_back.
Qed.

Lemma moved_entries t k (rec : RegistryEntry → string → list Cascaded → M (list Cascaded)) (entries : list RegistryEntry)
    n cascaded s n' cascaded' s' limit err :
  (∀ e id cascaded s cascaded' s', e ∈ entries → rec e id cascaded s = (Ok cascaded', s') →
     moved t (childSchema e, childTable e, id) s s' cascaded cascaded') →
  (∀ e, e ∈ entries → e ∈ registry c ∧ behavior e = fk_cascade ∧ of_parent k.1.1 k.1.2 e = true) →
  js_fold (λ '(totalRows, cascaded) entry,
    childIds ← getf (λ s, listChildIds c (live s) entry k.2);
    let totalRows := totalRows + Z.of_nat (length childIds) in
    _ ← throw_if (limit <? totalRows) (err entry);
    cascaded ← js_fold (λ cascaded id, rec entry id cascaded) childIds cascaded;
    mret (totalRows, cascaded)) entries (n, cascaded) s = (Ok (n', cascaded'), s') →
  ∃ arch, run t s s' arch ∧ cascaded' = cascaded ++ map entry_of arch ∧
          (∀ e k', e ∈ entries → via (live s) e k k' → k' ∈ keys arch) ∧
          ∀ k', k' ∈ keys arch → ∃ k1, below (live s) k k1 ∧ rtc (below (live s)) k1 k'.
Proof using All.
  intros Hrec He. revert n cascaded s. induction entries as [|e es IH]; intros n cascaded s.
  - intros [= <- <- <-]. exists []. rewrite app_nil_r. split_and!; [apply run_refl|done|set_solver|set_solver].
  - intros ([n1 c1] & s1 & H1 & H2)%js_fold_ok. apply js_bind_ok in H1 as (ids & ? & [= <- <-] & H1).
    apply js_bind_ok in H1 as ([] & s0 & [_ ->]%throw_if_ok & H1).
    apply js_bind_ok in H1 as (c1' & s1' & H1 & Hm). injection Hm as <- <- <-.
    destruct (He e ltac:(left)) as (Hreg & Hb & Hp).
    eapply (moved_children t (childSchema e) (childTable e)) in H1 as (a1 & R1 & -> & Hin1 & Hr1); [|intros; eapply Hrec; [left|done]].
    apply IH in H2 as (a2 & R2 & -> & Hin2 & Hr2); [|intros; eapply Hrec; [by right|done]|intros; apply He; by right].
    exists (a1 ++ a2). rewrite map_app, (assoc (++)). split_and!.
    + by eapply run_trans.
    + done.
    + intros e' k' [->|He']%elem_of_cons Hv; rewrite map_app, elem_of_app.
      * left. apply (via_elem (live s) e {| tm_schema := k.1.1; tm_table := k.1.2; columnNames := [] |} k.2) in Hv as (i & -> & Hi).
        by apply Hin1.
      * destruct (decide (k' ∈ keys a1)) as [|Hn]; [by left|right]. apply (Hin2 e'); [done|].
        destruct (He e' ltac:(by right)) as (Hreg' & Hb' & _).
        rewrite <- via_before; [exact Hv|done|by rewrite Hb'|by apply (run_kept _ _ _ _ R1)].
    + intros k'. rewrite map_app, elem_of_app. intros [Hk|Hk].
      * apply Hr1 in Hk as (i & Hi & Hk). exists (childSchema e, childTable e, i). split; [|done].
        exists e. split_and!; [done|done|].
        by apply (via_child (live s) e {| tm_schema := k.1.1; tm_table := k.1.2; columnNames := [] |} k.2).
      * apply Hr2 in Hk as (k1 & Hk1 & Hk). exists k1. split; [by eapply below_back|by eapply reach_back].
Qed.

Lemma ensureMirror_ok meta s u s' :
  ensureMirrorExists meta s = (Ok u, s') → s' = s ∧ is_Some (mirrors s !! mirror_name (tm_schema meta) (tm_table meta)).
Proof.
  intros (m & ? & [= <- <-] & [Hb ->]%throw_if_ok)%js_bind_ok. split; [done|].
  apply bool_decide_eq_false in Hb. by apply not_eq_None_Some.
Qed.

Lemma softDelete_moved fuel schema table id t maxDepth maxRows depth cascaded s cascaded' s' :
  softDeleteByReference c fuel (table_meta c schema table) id t maxDepth maxRows depth cascaded s = (Ok cascaded', s') →
  moved t (schema, table, id) s s' cascaded cascaded'.
Proof using All.
  revert schema table id depth cascaded s cascaded' s'. induction fuel as [|fuel IH]; intros schema table id depth cascaded s cascaded' s'; simpl.
  { by destruct (maxDepth <? depth). }
  destruct (maxDepth <? depth); [done|]. intros ([] & s1 & He & Hr)%js_bind_ok.
  apply ensureMirror_ok in He as [-> _].
  apply js_bind_ok in Hr as ([n c1] & s1 & Hf & Hr).
  eapply (moved_entries t (schema, table, id) (λ e id, softDeleteByReference c fuel (child_meta c e) id t maxDepth maxRows (depth + 1)))
    in Hf as (a1 & R1 & -> & Hin & Hreach).
  2: { intros e i ? ? ? ? _. apply IH. }
  2: { intros e. by rewrite elem_cascades. }
  apply archive_move_moved in Hr as (a2 & R2 & -> & (l & Hl) & Hreach2).
  2: { intros k' Hb. pose proof Hb as Hb2. apply (below_back _ _ _ _ _ _ R1) in Hb2.
       destruct Hb2 as (e & Hreg & Hbh & Hv). assert (k' ∈ keys a1) as Hk.
       { apply (Hin e); [|done]. rewrite elem_cascades. split_and!; [done|done|]. by destruct Hv. }
       apply (run_gone _ _ _ _ R1) in Hk as [_ Hn]. destruct Hb as (? & _ & _ & _ & _ & r & ? & _). congruence. }
  exists (a1 ++ a2). rewrite !map_app, (assoc (++)). split_and!.
  - by eapply run_trans.
  - done.
  - exists (keys a1 ++ l). by rewrite Hl, (assoc (++)).
  - intros k'. rewrite elem_of_app. intros [Hk|Hk].
    + apply Hreach in Hk as (k1 & ? & ?). by eapply rtc_l.
    + apply Hreach2 in Hk. by eapply reach_back.
Qed.
End catalog.

(** ** The plan of a soft deletion and the deletion it admits.

    A plan counts every row below the one that is deleted and follows every chain to its end;
    the walk ends whatever the data; and a deletion whose plan was made does not hit the limits. *)

Lemma out_fold_ok {E A B} (f : B → A → outcome E B) x l b b' :
  out_fold f (x :: l) b = Ok b' ↔ ∃ b1, f b x = Ok b1 ∧ out_fold f l b1 = Ok b'.
Proof. cbn [out_fold]. apply outcome_bind_ok. Qed.

Section plan.
Context (c : Catalog) {Hlaw : Lawful c}.
Notation below := (below c).
Notation via := via.
Notation plan := (buildCascadePlan c).

Definition count (p : CascadePlan) : Z := cp_totalRows p.

(** ** A plan covers what is below *)

(** [rows] holds everything below [k], and every chain from [k] ends within [limit] steps. *)
Definition covers (l : Live) (limit : Z) (k : Key) (rows : list Key) : Prop :=
  (∀ k', rtc (below l) k k' → k' ∈ rows) ∧ (∀ n k', nsteps (below l) n k k' → Z.of_nat n ≤ limit).

Lemma covers_rows l limit k rows rows' : rows ⊆ rows' → covers l limit k rows → covers l limit k rows'.
Proof. intros Hs [H1 H2]. split; [|done]. intros k' Hk. apply Hs, H1, Hk. Qed.

Lemma plan_children l limit schema table (rec : string → outcome ArchiveError CascadePlan) ids st m o st' m' o' :
  (∀ id p, id ∈ ids → rec id = Ok p → ∃ rows, Z.of_nat (length rows) = count p ∧ covers l limit (schema, table, id) rows) →
  out_fold (λ '(steps, totalRows, observedMaxDepth) childId,
    childPlan ← rec childId;
    Ok (steps ++ cp_steps childPlan, totalRows + (cp_totalRows childPlan - 1),
        Z.max observedMaxDepth (cp_maxDepth childPlan))) ids (st, m, o) = Ok (st', m', o') →
  ∃ rows, m' = m + Z.of_nat (length rows) - Z.of_nat (length ids) ∧
          ∀ id, id ∈ ids → covers l limit (schema, table, id) rows.
Proof using.
  clear Hlaw. intros Hrec. revert st m o. induction ids as [|id ids IH]; intros st m o.
  - intros [= _ <- _]. exists []. split; [simpl; lia|set_solver].
  - intros ([[st1 m1] o1] & H1 & H2)%out_fold_ok. apply outcome_bind_ok in H1 as (p & Hp & [= _ <- _]).
    destruct (Hrec id p ltac:(left) Hp) as (rows1 & Hl1 & Hc1).
    apply IH in H2 as (rows2 & -> & Hc2); [|intros; apply Hrec; [by right|done]].
    exists (rows1 ++ rows2). split; [rewrite length_app; unfold count in *; simpl length; lia|].
    intros i [->|Hi]%elem_of_cons; (eapply covers_rows; [|eauto]); set_solver.
Qed.

Lemma plan_entries l limit k (rec : RegistryEntry → string → outcome ArchiveError CascadePlan) entries st m o st' m' o' :
  (∀ e id p, e ∈ entries → rec e id = Ok p →
     ∃ rows, Z.of_nat (length rows) = count p ∧ covers l limit (childSchema e, childTable e, id) rows) →
  out_fold (λ '(steps, totalRows, observedMaxDepth) entry,
    let childIds := listChildIds c l entry k.2 in
    match childIds with
    | [] => Ok (steps, totalRows, observedMaxDepth)
    | _ =>
        let step := {| cs_schema := childSchema entry; cs_table := childTable entry;
                       cs_rowCount := Z.of_nat (length childIds) |} in
        out_fold (λ '(steps, totalRows, observedMaxDepth) childId,
          childPlan ← rec entry childId;
          Ok (steps ++ cp_steps childPlan, totalRows + (cp_totalRows childPlan - 1),
              Z.max observedMaxDepth (cp_maxDepth childPlan)))
          childIds (steps ++ [step], totalRows + Z.of_nat (length childIds), observedMaxDepth)
    end) entries (st, m, o) = Ok (st', m', o') →
  ∃ rows, m' = m + Z.of_nat (length rows) ∧
          ∀ e k', e ∈ entries → via l e k k' → covers l limit k' rows.
Proof using All.
  intros Hrec. revert st m o. induction entries as [|e es IH]; intros st m o.
  - intros [= _ <- _]. exists []. split; [simpl; lia|set_solver].
  - intros ([[st1 m1] o1] & H1 & H2)%out_fold_ok.
    apply IH in H2 as (rows2 & -> & Hc2); [|intros; eapply Hrec; [by right|done]].
    assert (∃ rows1, m1 = m + Z.of_nat (length rows1) ∧
              ∀ id, id ∈ listChildIds c l e k.2 → covers l limit (childSchema e, childTable e, id) rows1)
      as (rows1 & -> & Hc1).
    { destruct (listChildIds c l e k.2) as [|id ids] eqn:Hids.
      - injection H1 as _ <- _. exists []. split; [simpl; lia|set_solver].
      - cbv zeta iota in H1. rewrite <- Hids in H1. apply (plan_children l limit (childSchema e) (childTable e)) in H1
          as (rows & -> & Hc); [|intros; eapply Hrec; [left|done]].
        exists rows. rewrite <- Hids. split; [lia|done]. }
    exists (rows1 ++ rows2). split; [rewrite length_app; lia|].
    intros e' k' [->|He]%elem_of_cons Hv; [|eapply covers_rows; [|by eapply Hc2]; set_solver].
    apply (via_elem c l e {| tm_schema := k.1.1; tm_table := k.1.2; columnNames := [] |} k.2) in Hv as (i & -> & Hi).
    eapply covers_rows; [|by apply Hc1]. set_solver.
Qed.

Lemma plan_covers fuel l meta id maxDepth maxRows depth p :
  plan fuel l meta id maxDepth maxRows depth = Ok p →
  count p ≤ maxRows ∧
  ∃ rows, Z.of_nat (length rows) = count p ∧ covers l (maxDepth - depth) (row_key meta id) rows.
Proof using All.
  revert meta id depth p. induction fuel as [|fuel IH]; intros meta id depth p; simpl.
  { by destruct (maxDepth <? depth). }
  destruct (Z.ltb_spec maxDepth depth) as [|Hd]; [done|].
  intros ([[st m] o] & Hf & Hr)%outcome_bind_ok. destruct (Z.ltb_spec maxRows m) as [|Hm]; [done|]. injection Hr as <-.
  split; [done|].
  apply (plan_entries l (maxDepth - depth - 1) (row_key meta id)
           (λ e id, plan fuel l (child_meta c e) id maxDepth maxRows (depth + 1))) in Hf as (rows & -> & Hc).
  2: { intros e i q _ Hq. apply IH in Hq as (_ & rows & Hl & Hcov). exists rows. split; [done|].
       by replace (maxDepth - depth - 1) with (maxDepth - (depth + 1)) by lia. }
  assert (∀ k', below l (row_key meta id) k' → covers l (maxDepth - depth - 1) k' rows) as Hbelow.
  { intros k' (e & He & Hb & Hv). apply (Hc e); [|done]. rewrite elem_cascades; [|done]. split_and!; [done|done|].
    by destruct Hv. }
  exists (row_key meta id :: rows). split; [unfold count; simpl; lia|]. split.
  - intros k' Hk. inversion Hk as [|? k1 ? H1 H2]; subst; [left|right]. by apply (Hbelow k1).
  - intros n k' Hn. inversion Hn as [|? ? k1 ? H1 H2]; subst; [lia|]. apply (Hbelow k1) in H2; [lia|done].
Qed.

(** ** The walk ends *)

Lemma out_fold_never {E A B} (f g : B → A → outcome E B) e l b :
  (∀ b x, x ∈ l → f b x = g b x ∧ f b x ≠ Throw e) → out_fold f l b = out_fold g l b ∧ out_fold f l b ≠ Throw e.
Proof.
  revert b. induction l as [|x l IH]; intros b Hf; [done|]. simpl. destruct (Hf b x ltac:(left)) as [<- Hn].
  destruct (f b x) as [b'|e']; simpl; [|split; congruence]. apply IH. intros. apply Hf. by right.
Qed.

Lemma plan_enough fuel1 fuel2 l meta id maxDepth maxRows depth :
  maxDepth - depth < Z.of_nat fuel1 → maxDepth - depth < Z.of_nat fuel2 →
  plan fuel1 l meta id maxDepth maxRows depth = plan fuel2 l meta id maxDepth maxRows depth ∧
  plan fuel1 l meta id maxDepth maxRows depth ≠ Throw Exhausted.
Proof using.
  clear Hlaw. revert fuel2 meta id depth. induction fuel1 as [|f1 IH]; intros [|f2] meta id depth H1 H2; simpl;
    destruct (Z.ltb_spec maxDepth depth) as [|Hd]; try done; try lia.
  match goal with |- (out_fold ?f ?es ?b ≫= _) = (out_fold ?g _ _ ≫= _) ∧ _ =>
    destruct (out_fold_never f g Exhausted es b) as [<- Hn]
  end.
  - intros [[st m] o] e _. destruct (listChildIds c l e id) as [|i ids] eqn:Hids; [done|]. rewrite <- Hids.
    apply out_fold_never. intros [[st1 m1] o1] x _.
    destruct (IH f2 (child_meta c e) x (depth + 1)) as [<- Hn]; [lia|lia|].
    destruct (plan f1 l (child_meta c e) x maxDepth maxRows (depth + 1)); simpl; [done|]. split; congruence.
  - destruct (out_fold _ _ _) as [[[st m] o]|e]; simpl; [|split; congruence]. by destruct (maxRows <? m).
Qed.

(** ** An admitted deletion stays within the limits *)

Definition limit_error (e : ArchiveError) : bool :=
  match e with CascadeTooDeepError _ _ _ | CascadeTooLargeError _ _ _ _ | Exhausted => true | _ => false end.

(** What is left of the rows the plan was made for. *)
Definition left_of (l l' : Live) : Prop := ∀ k r, l' !! k = Some r → ∃ r0, l !! k = Some r0 ∧ kept c k r0 r.

Lemma left_of_refl l : left_of l l.
Proof. intros k r Hr. exists r. split; [done|apply archive_kept_refl]. Qed.
Lemma left_of_run t l s s' arch : left_of l (live s) → run c t s s' arch → left_of l (live s').
Proof using.
  clear Hlaw. intros Hl Hr k r Hk. destruct (decide (k ∈ map fst arch)) as [Hin|Hin].
  - apply (run_gone _ _ _ _ _ Hr) in Hin as [_ Hn]. congruence.
  - pose proof (run_kept _ _ _ _ _ Hr k Hin) as Ho. rewrite Hk in Ho. inversion Ho as [r1 ? Hk1 Hs|]; subst.
    destruct (Hl k r1) as (r0 & ? & ?); [done|]. exists r0. split; [done|]. by eapply archive_kept_trans.
Qed.

Lemma NoDup_listChildIds l e id : NoDup (listChildIds c l e id).
Proof using All.
  unfold listChildIds. apply NoDup_fmap_2_strong.
  - intros [[t1 i1] r1] [[t2 i2] r2]. setoid_rewrite (scan_perm c). rewrite !elem_of_filter.
    unfold refers, in_table. destruct t1 as [a1 b1], t2 as [a2 b2]. simpl.
    intros [H1 [[->%String.eqb_eq ->%String.eqb_eq]%andb_true_iff _]%andb_true_iff].
    intros [H2 [[->%String.eqb_eq ->%String.eqb_eq]%andb_true_iff _]%andb_true_iff] ->.
    f_equal. apply elem_of_map_to_list in H1, H2. congruence.
  - setoid_rewrite (scan_perm c). apply NoDup_ListNoDup, List.NoDup_filter, NoDup_ListNoDup, NoDup_map_to_list.
Qed.

Lemma fewer_children l l' e id :
  e ∈ registry c → behavior e = fk_cascade → left_of l l' →
  Z.of_nat (length (listChildIds c l' e id)) ≤ Z.of_nat (length (listChildIds c l e id)) ∧
  listChildIds c l' e id ⊆ listChildIds c l e id.
Proof using All.
  intros He Hb Hl. assert (listChildIds c l' e id ⊆ listChildIds c l e id) as Hs.
  { intros i. rewrite !elem_listChildIds by done. intros (r & Hr & Hv). destruct (Hl _ _ Hr) as (r0 & Hr0 & Hk).
    exists r0. split; [done|]. rewrite <- (kept_link c e r0 r (childSchema e, childTable e, i) He); [exact Hv|by rewrite Hb|done|exact Hk]. }
  split; [|done]. apply Nat2Z.inj_le, submseteq_length, NoDup_submseteq; [apply NoDup_listChildIds|done].
Qed.

Definition within_limits {A} (o : outcome ArchiveError A) : Prop :=
  match o with Ok _ => True | Throw e => limit_error e = false end.

Lemma within_bind {A B} (m : JS TxState ArchiveError A) (f : A → JS TxState ArchiveError B) s :
  within_limits (m s).1 → (∀ a s1, m s = (Ok a, s1) → within_limits (f a s1).1) → within_limits ((m ≫= f) s).1.
Proof using. clear Hlaw. unfold mbind, js_bind. destruct (m s) as [[a|e] s1]; simpl; [auto|done]. Qed.

Lemma within_archive_move meta id t cascaded s : within_limits (archive_move c meta id t cascaded s).1.
Proof using.
  clear Hlaw. unfold archive_move. apply within_bind; [done|]. intros b s1 [= <- <-].
  apply within_bind; [unfold throw_if; by destruct (negb _)|]. intros [] s1 _.
  apply within_bind; [done|]. intros [] s2 _. apply within_bind; [done|]. intros [] s3 _. apply within_bind.
  { unfold insert_archive. apply within_bind; [done|]. intros [r|] s4 _; [|done].
    repeat (apply within_bind; [done|]; intros ? ? _). done. }
  intros [n|] s4 _; [|done]. apply within_bind; [done|]. intros [l|code] s5 _.
  - repeat (apply within_bind; [done|]; intros ? ? _). done.
  - unfold throw. simpl. by destruct (_ || _).
Qed.

Section walk.
Context (fuel : nat) (l : Live) (t maxDepth maxRows depth : Z).
Notation sub_plan e i := (plan fuel l (child_meta c e) i maxDepth maxRows (depth + 1)).
Notation sub_delete e i := (softDeleteByReference c fuel (child_meta c e) i t maxDepth maxRows (depth + 1)).
Context (Hsub : ∀ e i p cascaded s, sub_plan e i = Ok p → left_of l (live s) → within_limits (sub_delete e i cascaded s).1).

Lemma left_of_delete e i cascaded s cascaded' s' :
  left_of l (live s) → sub_delete e i cascaded s = (Ok cascaded', s') → left_of l (live s').
Proof using Hlaw. intros Hl (arch & Hr & _)%softDelete_moved; [|done]. by eapply left_of_run. Qed.

Lemma walk_children e ids st m o st' m' o' cascaded s :
  out_fold (λ '(steps, totalRows, observedMaxDepth) childId,
    childPlan ← sub_plan e childId;
    Ok (steps ++ cp_steps childPlan, totalRows + (cp_totalRows childPlan - 1),
        Z.max observedMaxDepth (cp_maxDepth childPlan))) ids (st, m, o) = Ok (st', m', o') →
  m ≤ m' ∧
  ∀ ids', ids' ⊆ ids → left_of l (live s) →
    let r := js_fold (λ cascaded childId, sub_delete e childId cascaded) ids' cascaded s in
    within_limits r.1 ∧ (is_ok r.1 → left_of l (live r.2)).
Proof using Hlaw Hsub.
  intros Hf. assert (m ≤ m' ∧ ∀ i, i ∈ ids → ∃ p, sub_plan e i = Ok p) as [Hm Hp].
  { clear s. revert st m o Hf. induction ids as [|i ids IH]; intros st m o.
    - intros [= _ <- _]. split; [lia|set_solver].
    - intros ([[st1 m1] o1] & H1 & H2)%out_fold_ok. apply outcome_bind_ok in H1 as (p & Hp & [= _ <- _]).
      apply IH in H2 as [Hm Hps]. destruct (plan_covers _ _ _ _ _ _ _ _ Hp) as (_ & rows & Hl & Hc & _).
      assert (row_key (child_meta c e) i ∈ rows) as Hi by by apply Hc.
      assert (1 ≤ Z.of_nat (length rows)) by (destruct rows; [by apply elem_of_nil in Hi|simpl; lia]).
      unfold count in *. split; [lia|]. intros j [->|Hj]%elem_of_cons; eauto. }
  split; [done|]. clear Hf. intros ids' Hs Hl. revert cascaded s Hl. induction ids' as [|i ids' IH]; intros cascaded s Hl; [done|].
  cbv zeta. cbn [js_fold]. destruct (Hp i) as [p Hpi]; [set_solver|]. pose proof (Hsub e i p cascaded s Hpi Hl) as Hw.
  unfold mbind, js_bind. destruct (sub_delete e i cascaded s) as [[c1|err] s1] eqn:Hd; [|done].
  apply IH; [set_solver|]. by eapply left_of_delete.
Qed.

Lemma walk_entries k entries st m o st' m' o' n cascaded s :
  (∀ e, e ∈ entries → e ∈ registry c ∧ behavior e = fk_cascade) →
  out_fold (λ '(steps, totalRows, observedMaxDepth) entry,
    let childIds := listChildIds c l entry k.2 in
    match childIds with
    | [] => Ok (steps, totalRows, observedMaxDepth)
    | _ =>
        let step := {| cs_schema := childSchema entry; cs_table := childTable entry;
                       cs_rowCount := Z.of_nat (length childIds) |} in
        out_fold (λ '(steps, totalRows, observedMaxDepth) childId,
          childPlan ← sub_plan entry childId;
          Ok (steps ++ cp_steps childPlan, totalRows + (cp_totalRows childPlan - 1),
              Z.max observedMaxDepth (cp_maxDepth childPlan)))
          childIds (steps ++ [step], totalRows + Z.of_nat (length childIds), observedMaxDepth)
    end) entries (st, m, o) = Ok (st', m', o') →
  m ≤ m' ∧
  (m' ≤ maxRows → n ≤ m → left_of l (live s) →
   within_limits (js_fold (λ '(totalRows, cascaded) entry,
     childIds ← getf (λ s, listChildIds c (live s) entry k.2);
     let totalRows := totalRows + Z.of_nat (length childIds) in
     _ ← throw_if (maxRows <? totalRows)
           (CascadeTooLargeError maxRows k None (Some (childSchema entry +:+ "." +:+ childTable entry)));
     cascaded ← js_fold (λ cascaded childId, sub_delete entry childId cascaded) childIds cascaded;
     mret (totalRows, cascaded)) entries (n, cascaded) s).1).
Proof using Hlaw Hsub.
  intros He. revert st m o n cascaded s. induction entries as [|e es IH]; intros st m o n cascaded s.
  { intros [= _ <- _]. split; [lia|done]. }
  intros ([[st1 m1] o1] & H1 & H2)%out_fold_ok.
  set (ids := listChildIds c l e k.2) in *. cbv zeta in H1.
  assert (m + Z.of_nat (length ids) ≤ m1 ∧
    ∀ cascaded s ids', ids' ⊆ ids → left_of l (live s) →
      let r := js_fold (λ cascaded childId, sub_delete e childId cascaded) ids' cascaded s in
      within_limits r.1 ∧ (is_ok r.1 → left_of l (live r.2))) as [Hm1 Hc].
  { assert (ids = [] ∨ ids ≠ []) as [Hids|Hids] by (destruct ids; auto).
    - rewrite Hids in H1 |- *. injection H1 as _ <- _. split; [simpl; lia|].
      intros cas s1 ids' Hs. destruct ids' as [|i ids']; [done|]. set_solver.
    - assert (out_fold (λ '(steps, totalRows, observedMaxDepth) childId,
        childPlan ← sub_plan e childId;
        Ok (steps ++ cp_steps childPlan, totalRows + (cp_totalRows childPlan - 1),
            Z.max observedMaxDepth (cp_maxDepth childPlan))) ids
        (st ++ [{| cs_schema := childSchema e; cs_table := childTable e; cs_rowCount := Z.of_nat (length ids) |}],
         m + Z.of_nat (length ids), o) = Ok (st1, m1, o1)) as H1' by by (destruct ids).
      split; [by apply (walk_children _ _ _ _ _ _ _ _ [] s) in H1' as [? _]|].
      intros cas s1 ids' Hs Hl. destruct (walk_children _ _ _ _ _ _ _ _ cas s1 H1') as [_ Hw]. by apply Hw. }
  destruct (He e ltac:(left)) as [Hreg Hb].
  assert (∀ x, x ∈ es → x ∈ registry c ∧ behavior x = fk_cascade) as He' by (intros; apply He; by right).
  split; [apply (IH He' _ _ _ 0 [] s) in H2 as [? _]; lia|].
  intros HR Hn Hl. cbn [js_fold]. apply within_bind.
  - apply within_bind; [done|]. intros ids' s1 [= <- <-].
    destruct (fewer_children l (live s) e k.2 Hreg Hb Hl) as [Hfew Hsubset]. fold ids in Hfew, Hsubset.
    apply (IH He' _ _ _ 0 [] s) in H2 as [? _].
    apply within_bind; [by destruct (Z.ltb_spec maxRows (n + Z.of_nat (length (listChildIds c (live s) e k.2)))); [lia|]|].
    intros [] s1 [_ ->]%throw_if_ok. apply within_bind; [by apply Hc|]. done.
  - intros [n1 c1] s1 H1r. apply js_bind_ok in H1r as (ids' & ? & [= <- <-] & H1r).
    apply js_bind_ok in H1r as ([] & ? & [_ ->]%throw_if_ok & H1r). apply js_bind_ok in H1r as (c2 & s2 & Hd & [= <- <- <-]).
    destruct (fewer_children l (live s) e k.2 Hreg Hb Hl) as [Hfew Hsubset]. fold ids in Hfew, Hsubset.
    destruct (Hc cascaded s _ Hsubset Hl) as [_ Hl2]. rewrite Hd in Hl2. simpl in Hl2.
    apply (IH He' _ _ _ (n + Z.of_nat (length (listChildIds c (live s) e k.2))) c2 s2) in H2 as [_ Hw].
    apply Hw; [done|lia|]. by apply Hl2.
Qed.
End walk.

(** A deletion of rows whose plan was made hits neither limit. *)
Lemma admitted_delete fuel l schema table id t maxDepth maxRows depth p cascaded s :
  plan fuel l (table_meta c schema table) id maxDepth maxRows depth = Ok p → left_of l (live s) →
  within_limits (softDeleteByReference c fuel (table_meta c schema table) id t maxDepth maxRows depth cascaded s).1.
Proof using All.
  revert schema table id depth p cascaded s. induction fuel as [|fuel IH]; intros schema table id depth p cascaded s Hp Hl.
  { simpl in Hp. by destruct (maxDepth <? depth). }
  simpl in Hp |- *. destruct (maxDepth <? depth); [done|].
  apply outcome_bind_ok in Hp as ([[st m] o] & Hf & Hr).
  destruct (Z.ltb_spec maxRows m) as [|Hm]; [done|].
  apply within_bind.
  { unfold ensureMirrorExists. apply within_bind; [done|]. intros. unfold throw_if. by destruct (bool_decide _). }
  intros [] s1 [-> _]%ensureMirror_ok. apply within_bind.
  - eapply (walk_entries fuel l t maxDepth maxRows depth) with (k := (schema, table, id)); [| |exact Hf|done|lia|done].
    + intros e i q cas s1. apply IH.
    + intros e. rewrite elem_cascades by done. tauto.
  - intros [n c1] s1 _. apply within_archive_move.
Qed.
End plan.
