(* ===== verification/ArchiveRestore.v ===== *)
(** * ArchiveRestore: a cascading restoration undoes a soft deletion.

    Between the deletion and the end of the restoration, the database is the one before the
    deletion but for a set of rows that are still archived; restoring a row takes it and the
    rows below it out of that set. *)
From S2P Require Import Prelude JsText JsJson Archive ArchiveRun.
Local Open Scope Z_scope.

Lemma head_latest (l : list Archived) a :
  a ∈ l → (∀ b, b ∈ l → ar_deletedAt a ≤ ar_deletedAt b → b = a) →
  head (js_sort (λ a b, ar_deletedAt b <=? ar_deletedAt a) l) = Some a.
Proof.
  intros Ha Hmax. set (le := λ a b, ar_deletedAt b <=? ar_deletedAt a).
  assert (StronglySorted (λ a b, le a b = true) (js_sort le l)) as Hs.
  { apply (js_sort_sorted le (λ _, True)); unfold le; [lia|lia|]. by apply Forall_true. }
  assert (a ∈ js_sort le l) as Hin by by rewrite js_sort_perm.
  assert (∀ b, b ∈ js_sort le l → b ∈ l) as Hl by (intros b; by rewrite js_sort_perm).
  destruct (js_sort le l) as [|h r]; [by apply elem_of_nil in Hin|]. simpl. f_equal.
  inversion Hs as [|? ? _ Hh]; subst. apply elem_of_cons in Hin as [->|Hin]; [done|].
  apply Hmax; [apply Hl; left|]. rewrite Forall_forall in Hh. apply Hh in Hin. unfold le in Hin. lia.
Qed.

Lemma find_unique {A} (f : A → bool) l a :
  a ∈ l → f a = true → (∀ b, b ∈ l → f b = true → b = a) → List.find f l = Some a.
Proof.
  intros Hin Hf Hu. destruct (List.find f l) as [b|] eqn:Hb.
  - apply List.find_some in Hb as [Hb Hfb]. f_equal. apply Hu; [by rewrite list_elem_of_In|done].
  - rewrite (List.find_none _ _ Hb a) in Hf; [done|by apply list_elem_of_In].
Qed.

Section restore.
Context (c : Catalog) {Hlaw : Lawful c}.
Notation keys arch := (map fst (arch : list (Key * Archived))).

(** The state before the deletion, the deletion, and the row it began with. *)
Context (s0 s1 : TxState) (t : Z) (arch : list (Key * Archived)) (Hrun : run c t s0 s1 arch).
Notation below := (below c (live s0)).
Notation hangs := (hangs c (live s0)).
Notation meta_of k := (table_meta c k.1.1 k.1.2).

(** The moved rows have no reference by a [hide] key, the keys of the registry are text columns, they refer
    to live rows, a row refers to one moved row at most by its other keys, tables have mirrors of their
    own, moved rows have no columns but those of the catalog, archive ids are unique and old
    deletions earlier. *)
Record tidy (moved : Key → Prop) : Prop := {
  no_hide : ∀ k r col, moved k → live s0 !! k = Some r → hides c k.1.1 k.1.2 col → r !! col = Some JNull;
  text_keys : ∀ k r e, live s0 !! k = Some r → e ∈ registry c → of_child k.1.1 k.1.2 e = true →
    match r !! childColumn e with
    | Some (JString fk) => fk ≠ EmptyString ∧ is_Some (live s0 !! (parentSchema e, parentTable e, fk))
    | Some (JNumber _) => False
    | _ => True
    end;
  one_parent : ∀ p q k, moved p → moved q → hangs p k → hangs q k → p = q;
  own_mirror : ∀ k k', moved k →
    (is_Some (live s0 !! k') ∨ ∃ e, e ∈ registry c ∧ k'.1 = (childSchema e, childTable e)) →
    mirror_of k = mirror_of k' → k.1 = k'.1;
  all_columns : ∀ k r, moved k → live s0 !! k = Some r → pick (columns c k.1.1 k.1.2) r = r;
  unique_ids : ∀ n, NoDup (map ar_archiveId (table_of s0 n)) ∧
                    ∀ a, a ∈ table_of s0 n → ar_archiveId a < serial_of s0 n ∧ ar_deletedAt a < t }.
Context (Htidy : tidy (λ k, k ∈ keys arch)).

(** No moved row is in conflict with another row, and the database takes one whose parents are
    live, in any part of the database before the deletion. *)
Context (Hunique : ∀ k r, k ∈ keys arch → live s0 !! k = Some r → findRestoreConflict c (live s0) (meta_of k) r k.2 = None).
Context (Hinsert : ∀ l k r, l ⊆ live s0 → k ∈ keys arch → live s0 !! k = Some r → l !! k = None →
  (∀ p, hangs p k → is_Some (l !! p)) → insert_error c l k r = None).

(** ** The archived rows *)

Definition still (S : gset Key) (arch : list (Key * Archived)) : list (Key * Archived) :=
  List.filter (λ p, bool_decide (p.1 ∈ S)) arch.
Record between (S : gset Key) (s : TxState) : Prop := {
  bw_sub : ∀ k, k ∈ S → k ∈ keys arch;
  bw_live : ∀ k, live s !! k = if decide (k ∈ S) then None else live s0 !! k;
  bw_mirror : ∀ n, table_of s n = table_of s0 n ++ into n (still S arch) }.

Lemma key_row k : k ∈ keys arch → ∃ a r, (k, a) ∈ arch ∧ live s0 !! k = Some r ∧ ar_id a = k.2 ∧ ar_deletedAt a = t ∧ ar_row a = r.
Proof using All.
  intros ([k' a] & -> & Hin)%list_elem_of_fmap. simpl.
  destruct (run_rows _ _ _ _ _ Hrun k' a Hin) as (Hi & Ht & r0 & r & Hr0 & Hk & Ha). exists a, r0.
  split_and!; [done|done|done|done|]. rewrite Ha.
  assert (k' ∈ keys arch) as Hm by (apply list_elem_of_fmap; by exists (k', a)).
  assert (r = r0) as ->; [|by apply (all_columns _ Htidy k')].
  apply map_eq. intros col. destruct (Hk col) as [->|[Hh ->]]; [done|]. symmetry. by apply (no_hide _ Htidy k').
Qed.

Lemma arch_unique k a b : (k, a) ∈ arch → (k, b) ∈ arch → a = b.
Proof using Hrun.
  pose proof (run_nodup _ _ _ _ _ Hrun) as Hnd. revert Hnd. clear. induction arch as [|[k' x] l IH]; simpl; [set_solver|].
  intros [Hn Hnd]%NoDup_cons. rewrite !elem_of_cons.
  intros [[= -> ->]|Ha] [[= ->]|Hb]; [done| | |by apply IH].
  - destruct Hn. apply list_elem_of_fmap. by exists (k', b).
  - subst. destruct Hn. apply list_elem_of_fmap. by exists (k', a).
Qed.

Lemma elem_into n S a : a ∈ into n (still S arch) ↔ ∃ k, (k, a) ∈ arch ∧ k ∈ S ∧ mirror_of k = n.
Proof using.
  clear. unfold into, still. rewrite list_elem_of_fmap. setoid_rewrite elem_of_filter. setoid_rewrite elem_of_filter. split.
  - intros ([k b] & -> & [? ?%bool_decide_eq_true] & ?%String.eqb_eq). eauto.
  - intros (k & ? & ? & <-). exists (k, a). by rewrite String.eqb_refl, bool_decide_eq_true_2.
Qed.

(** Archive ids are unique in every mirror. *)
Lemma unique_into n a b : a ∈ table_of s1 n → b ∈ table_of s1 n → ar_archiveId a = ar_archiveId b → a = b.
Proof using Hrun Htidy.
  assert (NoDup (map ar_archiveId (table_of s1 n))) as Hnd.
  { rewrite (run_mirrors _ _ _ _ _ Hrun), map_app. destruct (run_ids _ _ _ _ _ Hrun n) as [-> _].
    destruct (unique_ids _ Htidy n) as [Hnd Hlt]. apply NoDup_app. split_and!; [done| |apply NoDup_seqZ].
    intros i (a' & -> & Ha)%list_elem_of_fmap Hi%elem_of_seqZ. apply Hlt in Ha. lia. }
  revert Hnd. generalize (table_of s1 n). clear. intros l. induction l as [|x l IH]; simpl; [set_solver|].
  intros [Hn Hnd]%NoDup_cons. rewrite !elem_of_cons. intros [->|Ha] [->|Hb] Hid; [done| | |by apply IH].
  - destruct Hn. rewrite Hid. by apply list_elem_of_fmap_2.
  - destruct Hn. rewrite <- Hid. by apply list_elem_of_fmap_2.
Qed.

Lemma between_sub S s n a : between S s → a ∈ table_of s n → a ∈ table_of s1 n.
Proof using Hrun.
  intros Hb. rewrite (bw_mirror _ _ Hb), (run_mirrors _ _ _ _ _ Hrun), !elem_of_app, elem_into.
  intros [?|(k & Ha & _ & <-)]; [by left|right]. unfold into. apply list_elem_of_fmap. exists (k, a).
  split; [done|]. rewrite elem_of_filter. by rewrite String.eqb_refl.
Qed.

Lemma in_between S s k a : between S s → k ∈ S → (k, a) ∈ arch → a ∈ table_of s (mirror_of k).
Proof using. intros Hb Hk Ha. rewrite (bw_mirror _ _ Hb), elem_of_app, elem_into. right. eauto. Qed.

(** Two moved rows with one mirror and one id are one row. *)
Lemma same_row k k' : k ∈ keys arch → k' ∈ keys arch → mirror_of k = mirror_of k' → k.2 = k'.2 → k = k'.
Proof using Hrun Htidy.
  intros Hk Hk' Hm Hi. assert (k.1 = k'.1) as Ht.
  { apply (own_mirror _ Htidy); [done| |done]. left. by apply (run_gone _ _ _ _ _ Hrun) in Hk' as [? _]. }
  destruct k as [? ?], k' as [? ?]. simpl in *. congruence.
Qed.

Lemma loaded S s k a : between S s → k ∈ S → (k, a) ∈ arch → loadArchivedRow c (mirrors s) (meta_of k) k.2 None = Some a.
Proof using All.
  intros Hb Hk Ha. pose proof (bw_sub _ _ Hb _ Hk) as Hin.
  assert (∀ x, (k, x) ∈ arch → x = a) as Hu by (intros; by eapply arch_unique).
  destruct (key_row k Hin) as (a' & r & Ha' & _ & Hid & Ht & _). rewrite (Hu _ Ha') in *.
  unfold loadArchivedRow. apply head_latest; setoid_rewrite (scan_perm c).
  - rewrite elem_of_filter, Hid, String.eqb_refl. split; [|done]. by apply (in_between S s k a).
  - intros b. rewrite elem_of_filter, andb_true_r, String.eqb_eq. intros [Hbin Hbid] Hle.
    assert (b ∈ table_of s (mirror_of k)) as Hbin' by exact Hbin.
    rewrite (bw_mirror _ _ Hb), elem_of_app, elem_into in Hbin'. destruct Hbin' as [Hold|(k' & Hk' & HkS & Hm)].
    + apply (unique_ids _ Htidy) in Hold as [_ Hlt]. lia.
    + apply Hu. assert (k' = k) as ->; [|done]. apply same_row; [by apply (bw_sub _ _ Hb)|done|done|].
      destruct (run_rows _ _ _ _ _ Hrun _ _ Hk') as (<- & _). done.
Qed.

(** ** The steps of one restoration *)

Lemma no_archived_parents S s k r :
  between S s → live s0 !! k = Some r → (∀ p, hangs p k → p ∉ S) → findArchivedParents c s (meta_of k) r = [].
Proof using All.
  intros Hb Hr Hp. unfold findArchivedParents. cbn [tm_schema tm_table table_meta].
  assert (∀ e, e ∈ List.filter (λ e, has_behavior fk_block e || has_behavior fk_cascade e) (loadRegistryByChild c k.1.1 k.1.2) →
    e ∈ registry c ∧ of_child k.1.1 k.1.2 e = true ∧ behavior e ≠ fk_hide) as Hes.
  { intros e. rewrite elem_of_filter. unfold loadRegistryByChild. rewrite (scan_perm _), elem_of_filter.
    intros [[He Hc] Hf]. split; [done|]. split; [done|]. intros Hh. unfold has_behavior in Hf. by rewrite Hh in Hf. }
  revert Hes. generalize (List.filter (λ e, has_behavior fk_block e || has_behavior fk_cascade e) (loadRegistryByChild c k.1.1 k.1.2)).
  intros es Hes. induction es as [|e es IH]; [done|]. simpl.
  destruct (Hes e ltac:(left)) as (He & Hc & Hnh). pose proof (text_keys _ Htidy k r e Hr He Hc) as Hf.
  assert (∀ x, x ∈ es → x ∈ registry c ∧ of_child k.1.1 k.1.2 x = true ∧ behavior x ≠ fk_hide) as Hes' by (intros; apply Hes; by right).
  destruct (r !! childColumn e) as [[| | | | |fk| | |]|] eqn:Hcol; try by apply IH.
  destruct (String.eqb_spec fk EmptyString) as [|Hne]; [by apply IH|]. destruct Hf as [_ Hf].
  rewrite bool_decide_eq_true_2; [by apply IH|]. rewrite (bw_live _ _ Hb). rewrite decide_False; [done|].
  apply Hp. exists e. split_and!; [done|done|]. split_and!.
  - unfold of_parent. simpl. by rewrite !String.eqb_refl.
  - unfold of_child in Hc. apply andb_true_iff in Hc as [->%String.eqb_eq ->%String.eqb_eq]. by destruct k as [[] ?].
  - exists r. split; [done|]. rewrite Hcol. simpl. apply String.eqb_refl.
Qed.

Lemma live_sub S s : between S s → live s ⊆ live s0.
Proof using.
  intros Hb. apply map_subseteq_spec. intros k r. rewrite (bw_live _ _ Hb). by destruct (decide _).
Qed.

Lemma no_conflict l meta r id :
  l ⊆ live s0 → findRestoreConflict c (live s0) meta r id = None → findRestoreConflict c l meta r id = None.
Proof using Hlaw.
  intros Hl. unfold findRestoreConflict. generalize (unique_constraints c (tm_schema meta) (tm_table meta)). intros us.
  induction us as [|[n cols] us IH]; [done|]. simpl. destruct (mapM _ cols) as [vs|]; [|done].
  set (f := λ p : Key * Row, in_table (tm_schema meta) (tm_table meta) p.1 && negb (String.eqb (key_id p.1) id) &&
              forallb (λ v, same_value (p.2 !! v.1) v.2) vs).
  destruct (scan c (List.filter f (map_to_list (live s0)))) as [|p ps] eqn:H0; simpl; [|done]. intros Hn.
  assert (List.filter f (map_to_list l) = []) as Hnil.
  { apply elem_of_nil_inv. intros [k' r']. rewrite elem_of_filter, elem_of_map_to_list. intros [Hin Hf].
    apply (lookup_weaken _ (live s0)) in Hin; [|done].
    assert ((k', r') ∈ scan c (List.filter f (map_to_list (live s0)))) as Hin0
      by by rewrite (scan_perm _), elem_of_filter, elem_of_map_to_list.
    rewrite H0 in Hin0. by apply elem_of_nil in Hin0. }
  rewrite Hnil. pose proof (scan_perm c _ (@nil (Key * Row))) as Hs. symmetry in Hs. apply Permutation_nil in Hs. rewrite Hs. simpl.
  by apply IH.
Qed.
Lemma insert_row S s k a r :
  between S s → k ∈ S → (k, a) ∈ arch → live s0 !! k = Some r → (∀ p, hangs p k → p ∉ S) →
  insert_live c (meta_of k) k.2 (ar_archiveId a) s = (Ok (), on_live (<[k := r]>) s).
Proof using All.
  intros Hb Hk Ha Hr Hp. unfold insert_live, mbind, js_bind, getf. cbn [tm_schema tm_table table_meta columnNames].
  change (default [] (mirrors s !! mirror_name k.1.1 k.1.2)) with (table_of s (mirror_of k)).
  rewrite (find_unique _ _ a).
  2: { by apply (in_between S s k a). }
  2: { apply Z.eqb_refl. }
  2: { intros b Hbin Hid%Z.eqb_eq. eapply unique_into; [eapply between_sub; [exact Hb|exact Hbin]| |done].
       eapply between_sub; [exact Hb|]. by apply (in_between S s k a). }
  destruct (key_row k (bw_sub _ _ Hb _ Hk)) as (a' & r' & Ha' & Hr' & Hid & _ & Hrow).
  rewrite (arch_unique _ _ _ Ha' Ha) in *. rewrite Hr in Hr'. injection Hr' as <-. rewrite Hrow, Hid.
  rewrite (all_columns _ Htidy k r (bw_sub _ _ Hb _ Hk) Hr). unfold row_key. cbn [tm_schema tm_table table_meta].
  assert ((k.1.1, k.1.2, k.2) = k) as -> by by destruct k as [[] ?].
  rewrite (Hinsert (live s) k r); [done|by eapply live_sub|by apply (bw_sub _ _ Hb)|done| |].
  - rewrite (bw_live _ _ Hb). by rewrite decide_True.
  - intros p Hpk. rewrite (bw_live _ _ Hb), decide_False by by apply Hp.
    destruct Hpk as (e & He & _ & Hpar & Hchild & r1 & Hr1 & Hsql). rewrite Hr in Hr1. injection Hr1 as <-.
    pose proof (text_keys _ Htidy k r e Hr He) as Hf. unfold of_child in Hf. rewrite Hchild, !String.eqb_refl in Hf.
    specialize (Hf eq_refl). unfold sql_is in Hsql. destruct (r !! childColumn e) as [[| | | | |fk| | |]|]; try done.
    apply String.eqb_eq in Hsql as ->. unfold of_parent in Hpar. apply andb_true_iff in Hpar as [H1%String.eqb_eq H2%String.eqb_eq].
    rewrite H1, H2 in Hf. assert ((p.1.1, p.1.2, p.2) = p) as Hpe by by destruct p as [[] ?]. rewrite Hpe in Hf.
    by destruct Hf.
Qed.

Lemma filter_into (g : Archived → bool) (h h' : Key * Archived → bool) n (l : list (Key * Archived)) :
  (∀ p, p ∈ l → mirror_of p.1 = n → h' p = h p && g p.2) →
  List.filter g (into n (List.filter h l)) = into n (List.filter h' l).
Proof using.
  clear. intros Hg. unfold into. induction l as [|p l IH]; [done|]. simpl.
  assert (List.filter g (map snd (List.filter (λ p, String.eqb (mirror_of p.1) n) (List.filter h l))) =
          map snd (List.filter (λ p, String.eqb (mirror_of p.1) n) (List.filter h' l))) as IH'
    by (apply IH; intros; apply Hg; [by right|done]).
  destruct (String.eqb_spec (mirror_of p.1) n) as [Hn|Hn].
  - rewrite (Hg p ltac:(left) Hn). destruct (h p) eqn:Hh, (g p.2) eqn:Hgp; simpl; rewrite ?Hn, ?String.eqb_refl; simpl;
      rewrite ?Hgp, ?IH'; done.
  - assert (String.eqb (mirror_of p.1) n = false) as Hf by by apply String.eqb_neq.
    destruct (h p), (h' p); simpl; rewrite ?Hf; done.
Qed.

Lemma remove_row S s k a r s' :
  between S s → k ∈ S → (k, a) ∈ arch → live s0 !! k = Some r → live s' = <[k := r]> (live s) →
  mirrors s' = alter (List.filter (λ b, negb (ar_archiveId b =? ar_archiveId a))) (mirror_of k) (mirrors s) →
  between (S ∖ {[k]}) s'.
Proof using All.
  intros Hb Hk Ha Hr Hl Hm. split.
  - intros x Hx. apply (bw_sub _ _ Hb). set_solver.
  - intros x. rewrite Hl. destruct (decide (x = k)) as [->|Hx].
    + rewrite lookup_insert_eq, decide_False by set_solver. done.
    + rewrite lookup_insert_ne, (bw_live _ _ Hb) by done. destruct (decide (x ∈ S)); [rewrite decide_True by set_solver|rewrite decide_False by set_solver]; done.
  - intros n. unfold table_of at 1. rewrite Hm. destruct (decide (mirror_of k = n)) as [<-|Hn].
    + rewrite lookup_alter. rewrite decide_True by done.
      assert (∀ o : option (list Archived), default [] (List.filter (λ b, negb (ar_archiveId b =? ar_archiveId a)) <$> o) =
              List.filter (λ b, negb (ar_archiveId b =? ar_archiveId a)) (default [] o)) as -> by by intros [].
      change (default [] (mirrors s !! mirror_of k)) with (table_of s (mirror_of k)).
      assert (∀ b, b ∈ table_of s1 (mirror_of k) → ar_archiveId b = ar_archiveId a → b = a) as Hu.
      { intros b Hbin Hid. apply (unique_into (mirror_of k)); [done| |done].
        eapply between_sub; [exact Hb|]. by apply (in_between S s k a). }
      destruct (run_rows _ _ _ _ _ Hrun k a Ha) as (Hid & Ht & _).
      rewrite (bw_mirror _ _ Hb), List.filter_app. f_equal.
      * apply filter_all_true, Forall_forall. intros b Hbold. apply negb_true_iff, Z.eqb_neq. intros He.
        apply Hu in He; [|rewrite (run_mirrors _ _ _ _ _ Hrun), elem_of_app; by left]. subst b.
        apply (unique_ids _ Htidy) in Hbold as [_ Hlt]. lia.
      * apply filter_into. intros [k' b] Hin Hmk. simpl in *.
        destruct (Z.eqb_spec (ar_archiveId b) (ar_archiveId a)) as [He|He]; simpl; rewrite ?andb_false_r, ?andb_true_r.
        -- apply bool_decide_eq_false. intros Hin2. apply Hu in He.
           ++ subst b. destruct (run_rows _ _ _ _ _ Hrun k' a Hin) as (Hid' & _). assert (k' = k); [|set_solver].
              apply same_row; [|by apply (bw_sub _ _ Hb)|done|congruence]. apply (bw_sub _ _ Hb). set_solver.
           ++ rewrite (run_mirrors _ _ _ _ _ Hrun), elem_of_app. right. unfold into. apply list_elem_of_fmap. exists (k', b).
              split; [done|]. rewrite elem_of_filter. simpl. by rewrite Hmk, String.eqb_refl.
        -- apply bool_decide_ext. assert (k' ≠ k); [|set_solver]. intros ->. apply He. f_equal. by eapply arch_unique.
    + rewrite lookup_alter_ne by done. change (default [] (mirrors s !! n)) with (table_of s n).
      rewrite (bw_mirror _ _ Hb). f_equal. rewrite <- (filter_all_true (λ _, true) (into n (still S arch))) by by apply Forall_forall.
      apply filter_into. intros [k' b] Hin Hmk. simpl in *. rewrite andb_true_r. apply bool_decide_ext.
      assert (k' ≠ k) by (intros ->; done). set_solver.
Qed.
(** ** Rows below a row *)

Lemma elem_children S s k e i :
  between S s → k ∈ keys arch → e ∈ cascades c (meta_of k) →
  i ∈ archived_children c (mirrors s) e k.2 t ↔
  (childSchema e, childTable e, i) ∈ S ∧ via (live s0) e k (childSchema e, childTable e, i).
Proof using All.
  intros Hb Hk (He & _ & Hp)%elem_cascades; [|done]. unfold archived_children.
  change (default [] (mirrors s !! mirror_name (childSchema e) (childTable e)))
    with (table_of s (mirror_name (childSchema e) (childTable e))).
  rewrite list_elem_of_fmap. setoid_rewrite (scan_perm c). setoid_rewrite elem_of_filter. split.
  - intros (a & -> & Hin & [Hv Ht%Z.eqb_eq]%andb_true_iff). rewrite (bw_mirror _ _ Hb), elem_of_app, elem_into in Hin.
    destruct Hin as [Hold|(k' & Ha & HS & Hm)]; [apply (unique_ids _ Htidy) in Hold as [_ ?]; lia|].
    pose proof (bw_sub _ _ Hb _ HS) as Hk'. assert (k'.1 = (childSchema e, childTable e)) as Ht'.
    { apply (own_mirror _ Htidy k' (childSchema e, childTable e, ar_id a)); [done| |done]. right. by exists e. }
    destruct (key_row k' Hk') as (a' & r & Ha' & Hr & Hid & _ & Hrow). rewrite (arch_unique _ _ _ Ha' Ha) in *.
    assert (k' = (childSchema e, childTable e, ar_id a)) as Hke by (rewrite Hid, <- Ht'; by destruct k' as [[] ?]).
    rewrite <- Hke. split; [done|]. split; [exact Hp|]. split; [exact Ht'|]. exists r. split; [exact Hr|]. by rewrite <- Hrow.
  - intros [HS (_ & _ & r & Hr & Hv)]. destruct (key_row _ (bw_sub _ _ Hb _ HS)) as (a & r' & Ha & Hr' & Hid & Ht & Hrow).
    exists a. split; [done|]. split; [by apply (in_between S s (childSchema e, childTable e, i) a)|].
    rewrite Hr in Hr'. injection Hr' as <-. rewrite Hrow, Hv, Ht. simpl. apply Z.eqb_refl.
Qed.

Lemma NoDup_between S s n : between S s → NoDup (table_of s n).
Proof using Hrun Htidy.
  intros Hb. rewrite (bw_mirror _ _ Hb). apply NoDup_app. split_and!.
  - eapply NoDup_fmap_1. apply (unique_ids _ Htidy).
  - intros a Hold (k & Ha & _ & _)%elem_into. apply (unique_ids _ Htidy) in Hold as [_ Hlt].
    destruct (run_rows _ _ _ _ _ Hrun k a Ha) as (_ & Ht & _). lia.
  - unfold into. apply NoDup_fmap_2_strong.
    + intros [k1 a1] [k2 a2]. unfold still. rewrite !elem_of_filter. simpl.
      intros [[H1 _] Hm1%String.eqb_eq] [[H2 _] Hm2%String.eqb_eq] ->. f_equal.
      destruct (run_rows _ _ _ _ _ Hrun k1 a2 H1) as (Hi1 & _), (run_rows _ _ _ _ _ Hrun k2 a2 H2) as (Hi2 & _).
      apply same_row; [| |congruence|congruence]; apply list_elem_of_fmap; [by exists (k1, a2)|by exists (k2, a2)].
    + apply NoDup_ListNoDup. do 2 apply List.NoDup_filter. apply NoDup_ListNoDup. eapply NoDup_fmap_1. apply (run_nodup _ _ _ _ _ Hrun).
Qed.

Lemma NoDup_children S s k e : between S s → k ∈ keys arch → e ∈ cascades c (meta_of k) →
  NoDup (archived_children c (mirrors s) e k.2 t).
Proof using All.
  intros Hb Hk (He & _ & Hp)%elem_cascades; [|done]. unfold archived_children.
  change (default [] (mirrors s !! mirror_name (childSchema e) (childTable e)))
    with (table_of s (mirror_name (childSchema e) (childTable e))).
  apply NoDup_fmap_2_strong.
  - intros a1 a2. setoid_rewrite (scan_perm c). rewrite !elem_of_filter.
    intros [H1 [_ T1%Z.eqb_eq]%andb_true_iff] [H2 [_ T2%Z.eqb_eq]%andb_true_iff] Hid.
    rewrite (bw_mirror _ _ Hb), elem_of_app, elem_into in H1, H2.
    destruct H1 as [Hold|(k1 & A1 & S1 & M1)]; [apply (unique_ids _ Htidy) in Hold as [_ ?]; lia|].
    destruct H2 as [Hold|(k2 & A2 & S2 & M2)]; [apply (unique_ids _ Htidy) in Hold as [_ ?]; lia|].
    destruct (run_rows _ _ _ _ _ Hrun k1 a1 A1) as (Hi1 & _), (run_rows _ _ _ _ _ Hrun k2 a2 A2) as (Hi2 & _).
    assert (k1 = k2) as ->; [|by eapply arch_unique].
    apply same_row; [by apply (bw_sub _ _ Hb)|by apply (bw_sub _ _ Hb)|congruence|congruence].
  - setoid_rewrite (scan_perm c). apply NoDup_ListNoDup, List.NoDup_filter, NoDup_ListNoDup. by apply (NoDup_between S).
Qed.

Lemma tc_before l1 k l2 x : keys arch = l1 ++ k :: l2 → tc below k x → x ∈ l1.
Proof using All.
  intros Hl Ht. revert l1 l2 Hl. induction Ht as [k x H1|k y x H1 H2 IH]; intros l1 l2 Hl.
  - eapply (run_below _ _ _ _ _ Hrun); [exact Hl|by apply below_hangs].
  - assert (y ∈ l1) as Hy by (eapply (run_below _ _ _ _ _ Hrun); [exact Hl|by apply below_hangs]).
    apply list_elem_of_split in Hy as (a & b & ->). rewrite <- (assoc (++)) in Hl.
    specialize (IH a (b ++ k :: l2) Hl). set_solver.
Qed.
Lemma below_moved k x : k ∈ keys arch → rtc below k x → x ∈ keys arch.
Proof using All.
  intros Hk [->|Ht]%rtc_tc; [done|]. apply list_elem_of_split in Hk as (l1 & l2 & Hl).
  rewrite Hl. rewrite elem_of_app. left. by eapply tc_before.
Qed.
Lemma no_cycle k : k ∈ keys arch → ¬ tc below k k.
Proof using All.
  intros (l1 & l2 & Hl)%list_elem_of_split Ht. pose proof (tc_before _ _ _ _ Hl Ht) as Hin.
  pose proof (run_nodup _ _ _ _ _ Hrun) as Hnd. rewrite Hl in Hnd. apply NoDup_app in Hnd as (_ & Hd & _).
  apply (Hd k Hin). left.
Qed.

Lemma chain x1 x2 y : x1 ∈ keys arch → x2 ∈ keys arch → rtc below x1 y → rtc below x2 y → rtc below x1 x2 ∨ rtc below x2 x1.
Proof using All.
  intros H1 H2 Hy. revert x2 H2. revert y Hy.
  apply (rtc_ind_r (λ y, ∀ x2, x2 ∈ keys arch → rtc below x2 y → rtc below x1 x2 ∨ rtc below x2 x1) x1).
  { intros x2 _ Hy. by right. }
  intros z y Hxz Hzy IH x2 H2 Hy2.
  apply rtc_inv_r in Hy2 as [->|(z' & Hz' & Hz'y)]; [left; by eapply rtc_r|].
  assert (z = z') as <-; [|by apply IH].
  apply (one_parent _ Htidy z z' y); [by apply (below_moved x1)|by apply (below_moved x2)|by apply below_hangs|by apply below_hangs].
Qed.

(** Nothing is below two children of one row. *)
Lemma apart k x1 x2 y : k ∈ keys arch → below k x1 → below k x2 → x1 ≠ x2 → rtc below x1 y → rtc below x2 y → False.
Proof using All.
  intros Hk H1 H2 Hne Hy1 Hy2.
  assert (x1 ∈ keys arch) as K1 by by (apply (below_moved k); [|apply rtc_once]).
  assert (x2 ∈ keys arch) as K2 by by (apply (below_moved k); [|apply rtc_once]).
  assert (∀ x x', x ∈ keys arch → below k x → below k x' → x ≠ x' → rtc below x x' → False) as Hno.
  { intros x x' Kx Hx Hx' Hn Hr. apply rtc_inv_r in Hr as [|(z & Hz & Hzx)]; [done|].
    assert (z = k) as -> by (apply (one_parent _ Htidy z k x'); [by apply (below_moved x)|done|by apply below_hangs|by apply below_hangs]).
    apply (no_cycle k Hk). eapply tc_rtc_r; [apply tc_once, Hx|exact Hz]. }
  destruct (chain x1 x2 y) as [Hr|Hr]; [done|done|done|done|by eapply (Hno x1 x2)|by eapply (Hno x2 x1)].
Qed.
(** ** Restoring a row and what is below it *)

(** From [S], the call ends well and takes the rows [gone] out of [S]. *)
Definition restores {A} (m : JS TxState ArchiveError A) (S : gset Key) (s : TxState) (gone : Key → Prop) : Prop :=
  ∃ r s' S', m s = (Ok r, s') ∧ between S' s' ∧ ∀ x, x ∈ S' ↔ x ∈ S ∧ ¬ gone x.

(** The whole subtree is archived, and nothing it hangs from. *)
Definition ready (S : gset Key) (k : Key) : Prop :=
  (∀ x, rtc below k x → x ∈ S) ∧ (∀ p, hangs p k → p ∉ S).

Definition restore_spec (fuel : nat) (k : Key) : Prop :=
  ∀ S s acc, between S s → ready S k →
    restores (restoreByReference c fuel (meta_of k) k.2 with_cascade acc) S s (rtc below k).

Notation child e i := ((childSchema e, childTable e, i) : Key).

Lemma restore_children fuel k e ids S s acc :
  k ∈ keys arch → k ∉ S → (∀ i, i ∈ ids → restore_spec fuel (child e i)) → NoDup ids →
  (∀ i, i ∈ ids → below k (child e i) ∧ ∀ x, rtc below (child e i) x → x ∈ S) → between S s →
  restores (js_fold (λ restoredChildren childId,
      restoredChildren ← restoreByReference c fuel (child_meta c e) childId with_cascade restoredChildren;
      mret (restoredChildren ++ [(childSchema e, childTable e, childId)])) ids acc) S s
    (λ x, ∃ i, i ∈ ids ∧ rtc below (child e i) x).
Proof using All.
  intros Hk HkS Hspec Hnd. revert S s acc HkS. induction Hnd as [|i ids Hni Hnd IH]; intros S s acc HkS Hids Hb.
  { exists acc, s, S. split_and!; [done|done|set_solver]. }
  destruct (Hids i ltac:(left)) as [Hbelow Hsub].
  destruct (Hspec i ltac:(left) S s acc Hb) as (r1 & s2 & S2 & H1 & Hb2 & HS2).
  { split; [done|]. intros p Hp HpS. assert (p = k) as ->; [|done].
    apply (one_parent _ Htidy p k (child e i)); [by apply (bw_sub _ _ Hb)|done|done|by apply below_hangs]. }
  destruct (IH (λ j Hj, Hspec j (list_elem_of_further _ _ _ Hj)) S2 s2 (r1 ++ [child e i])) as (r3 & s3 & S3 & H3 & Hb3 & HS3).
  - rewrite HS2. tauto.
  - intros j Hj. destruct (Hids j ltac:(by right)) as [Hj1 Hj2]. split; [done|]. intros x Hx. apply HS2. split; [auto|].
    intros Hix. eapply (apart k (child e i) (child e j) x); [done|done|done| |done|done]. congruence.
  - done.
  - exists r3, s3, S3. split_and!; [|done|].
    + cbn [js_fold]. unfold mbind, js_bind in *. unfold child_meta. cbn [tm_schema tm_table fst snd] in H1. rewrite H1. exact H3.
    + intros x. rewrite HS3, HS2. setoid_rewrite elem_of_cons. naive_solver.
Qed.

Lemma restore_entries fuel k (es : list RegistryEntry) S s acc :
  k ∈ keys arch → k ∉ S → (∀ e i, e ∈ es → below k (child e i) → restore_spec fuel (child e i)) →
  (∀ e, e ∈ es → e ∈ cascades c (meta_of k)) →
  (∀ x y, below k x → rtc below x y → (y ∈ S ↔ x ∈ S)) → between S s →
  restores (js_fold (λ restoredChildren entry,
      children ← getf (λ s, archived_children c (mirrors s) entry k.2 t);
      js_fold (λ restoredChildren childId,
        restoredChildren ← restoreByReference c fuel (child_meta c entry) childId with_cascade restoredChildren;
        mret (restoredChildren ++ [(childSchema entry, childTable entry, childId)])) children restoredChildren)
    es acc) S s (λ x, ∃ e y, e ∈ es ∧ via (live s0) e k y ∧ rtc below y x).
Proof using All.
  intros Hk HkS Hspec Hes. revert S s acc HkS. induction es as [|e es IH]; intros S s acc HkS Hclosed Hb.
  { exists acc, s, S. split_and!; [done|done|set_solver]. }
  assert (∀ y, via (live s0) e k y → below k y) as Hvia.
  { intros y Hy. exists e. destruct (elem_cascades c e (meta_of k)) as [Hc _]. destruct (Hc (Hes e ltac:(left))) as (? & ? & _). done. }
  set (ids := archived_children c (mirrors s) e k.2 t).
  assert (∀ i, i ∈ ids ↔ child e i ∈ S ∧ via (live s0) e k (child e i)) as Hids
    by (intros i; apply elem_children; [done|done|apply Hes; left]).
  destruct (restore_children fuel k e ids S s acc) as (r1 & s2 & S2 & H1 & Hb2 & HS2); [done|done| | | |done|].
  - intros i [_ Hi]%Hids. apply Hspec; [left|by apply Hvia].
  - apply (NoDup_children S); [done|done|apply Hes; left].
  - intros i [HiS Hi]%Hids. split; [by apply Hvia|]. intros x Hx. apply (Hclosed (child e i) x); [by apply Hvia|done|done].
  - assert (∀ x, x ∈ S2 ↔ x ∈ S ∧ ¬ ∃ y, via (live s0) e k y ∧ rtc below y x) as HS2'.
    { intros x. rewrite HS2. split; intros [Hx Hn]; (split; [done|]).
      - intros (y & Hy & Hyx). apply Hn. pose proof Hy as (_ & Ht & _). exists y.2.
        assert (child e y.2 = y) as He by (destruct y as [? ?]; simpl in *; congruence).
        rewrite He. split; [|done]. apply Hids. rewrite He. split; [|done]. apply (Hclosed y x); [by apply Hvia|done|done].
      - intros (i & [_ Hi]%Hids & Hix). apply Hn. by exists (child e i). }
    destruct (IH (λ e' i He', Hspec e' i (list_elem_of_further _ _ _ He')) (λ e' He', Hes e' (list_elem_of_further _ _ _ He'))
                S2 s2 r1) as (r3 & s3 & S3 & H3 & Hb3 & HS3).
    + rewrite HS2. tauto.
    + intros x y Hx Hxy. rewrite !HS2'. rewrite (Hclosed x y Hx Hxy). split; intros [Hin Hn]; (split; [done|]).
      * intros (z & Hz & Hzx). apply Hn. exists z. split; [done|]. by etrans.
      * intros (z & Hz & Hzy). apply Hn. exists x. destruct (decide (z = x)) as [->|Hne]; [done|exfalso].
        eapply (apart k z x y); [done|by apply Hvia|done|done|done|done].
    + done.
    + exists r3, s3, S3. split_and!; [|done|].
      * cbn [js_fold]. unfold mbind, js_bind, getf in *. fold ids. rewrite H1. exact H3.
      * intros x. rewrite HS3, HS2'. setoid_rewrite elem_of_cons. naive_solver.
Qed.

Lemma restore_row fuel l1 k l2 : keys arch = l1 ++ k :: l2 → (length l1 < fuel)%nat → restore_spec fuel k.
Proof using All.
  revert l1 k l2. induction fuel as [|fuel IH]; intros l1 k l2 Hl Hlen S s acc Hb [Hsub Hpar]; [lia|].
  assert (k ∈ S) as HkS by by apply Hsub.
  assert (k ∈ keys arch) as Hk by by apply (bw_sub _ _ Hb).
  destruct (key_row k Hk) as (a & r & Ha & Hr & Hid & Ht & Hrow).
  pose proof (loaded S s k a Hb HkS Ha) as Hload.
  pose proof (no_archived_parents S s k r Hb Hr Hpar) as Hnp.
  assert (∀ s', live s' = live s → mirrors s' = mirrors s → between S s') as Hsame.
  { intros s' E1 E2. split; [apply Hb|rewrite E1; apply Hb|intros n; unfold table_of; rewrite E2; apply Hb]. }
  set (sa := on_settings (<["app.archive_reason" := "restore"]>) (on_settings (<["app.archive_move" := "in_progress"]>) s)).
  pose proof (insert_row S sa k a r (Hsame sa eq_refl eq_refl) HkS Ha Hr Hpar) as Hins.
  set (s2 := on_metrics (λ l, l ++ [m_restore (metricLabel (meta_of k))])
    (on_mirrors (λ m, alter (List.filter (λ b, negb (ar_archiveId b =? ar_archiveId a))) (mirror_of k) m) (on_live (<[k := r]>) sa))).
  assert (between (S ∖ {[k]}) s2) as Hb2 by by apply (remove_row S s k a r).
  destruct (restore_entries fuel k (cascades c (meta_of k)) (S ∖ {[k]}) s2 acc) as (r3 & s3 & S3 & H3 & Hb3 & HS3);
    [done|set_solver| |done| |done|].
  - intros e i _ Hbel. assert (child e i ∈ l1) as Hin by (eapply (tc_before l1 k l2); [done|by apply tc_once]).
    apply list_elem_of_split in Hin as (x & y & ->). rewrite <- (assoc (++)) in Hl. simpl in Hl.
    apply (IH x (child e i) (y ++ k :: l2)); [done|]. rewrite length_app in Hlen. simpl in Hlen. lia.
  - intros x y Hx Hxy.
    assert (∀ z, tc below k z → z ∈ S ∖ {[k]}) as Hin.
    { intros z Hz. apply elem_of_difference. split; [by apply Hsub, tc_rtc|]. intros ->%elem_of_singleton. by apply (no_cycle k). }
    split; intros _; apply Hin; [by apply tc_once|]. eapply tc_rtc_r; [by apply tc_once|done].
  - exists r3, s3, S3. split_and!; [|done|].
    + cbn [restoreByReference ro_archiveId ro_cascade with_cascade]. unfold mbind, js_bind, getf in H3 |- *.
      rewrite Hload, Hrow, Hnp. cbn [length js_fold].
      rewrite bool_decide_eq_true_2 by done. cbn [negb andb throw_if]. unfold mret, js_ret in H3 |- *.
      rewrite (no_conflict (live s) (meta_of k) r k.2); [|by eapply live_sub|by apply Hunique].
      unfold set_config, modify, report. fold sa. rewrite Hins, Ht. exact H3.
    + intros x. rewrite HS3, elem_of_difference, elem_of_singleton. split.
      * intros [[HxS Hne] Hn]. split; [done|]. intros Hkx. inversion Hkx as [|? y ? (e & He & Hbe & Hv) Hyx]; subst; [done|].
        apply Hn. exists e, y. split_and!; [|done|done]. rewrite elem_cascades by done. split_and!; [done|done|]. by destruct Hv.
      * intros [HxS Hn]. split; [split; [done|]|].
        -- intros ->. apply Hn. done.
        -- intros (e & y & (He & Hbe & _)%elem_cascades & Hv & Hyx); [|done]. apply Hn. eapply rtc_l; [|done]. by exists e.
Qed.
End restore.
