(* ===== verification/ArchiveClaims.v ===== *)
(** * ArchiveClaims: the properties of soft deletion.

    A soft deletion moves a row and exactly the rows below it, children first; its plan bounds
    what it moves and the walk ends on any data; a cascading restoration puts everything back.
    The last section shows where the code gives less: rows that refer to two moved rows. *)
From S2P Require Import Prelude JsText JsJson Archive ArchiveRun ArchiveRestore.
Local Open Scope Z_scope.

Section claims.
Context (c : Catalog) {Hlaw : Lawful c}.

Lemma checked_ok table s u s' : checked_table table s = (Ok u, s') →
  s' = s ∧ active s = true ∧ reader s = false ∧ isSoftDeletable table = true ∧
  is_Some (mirrors s !! mirror_name (tm_schema (tb_meta table)) (tm_table (tb_meta table))).
Proof.
  clear. intros (? & ? & Ha & Hr)%js_bind_ok. apply js_bind_ok in Ha as (a & ? & [= <- <-] & [Ha ->]%throw_if_ok).
  apply js_bind_ok in Hr as (? & ? & Hw & Hr). apply js_bind_ok in Hw as (b & ? & [= <- <-] & [Hw ->]%throw_if_ok).
  apply js_bind_ok in Hr as (? & ? & [Hs ->]%throw_if_ok & Hr). apply ensureMirror_ok in Hr as [-> Hm].
  apply negb_false_iff in Ha, Hs. done.
Qed.

Lemma checked_passes table s :
  active s = true → reader s = false → isSoftDeletable table = true →
  is_Some (mirrors s !! mirror_name (tm_schema (tb_meta table)) (tm_table (tb_meta table))) →
  checked_table table s = (Ok (), s).
Proof.
  clear. intros Ha Hr Hs Hm. unfold checked_table, ensureActive, ensureWritableRole, ensureMirrorExists, mbind, js_bind, getf.
  simpl. rewrite Ha. simpl. rewrite Hr. simpl. rewrite Hs. simpl. rewrite bool_decide_eq_false_2; [done|]. by apply not_eq_None_Some.
Qed.

(** What a soft deletion that returned went through. *)
Lemma softDelete_inv table id options now s o s' :
  softDelete c table id options now s = (Ok o, s') →
  let meta := tb_meta table in
  let depth := default 4 (maxCascadeDepth options) in
  let rows := default 100 (maxCascadeRows options) in
  checked_table table s = (Ok (), s) ∧
  ∃ p, buildCascadePlan c (depth_fuel depth) (live s) meta id depth rows 0 = Ok p ∧
    if dryRun options then o = inl p ∧ s' = s else
    ∃ cascaded, softDeleteByReference c (depth_fuel depth) meta id now depth rows 0 [] s = (Ok cascaded, s') ∧
      o = inr {| sd_archiveId := default 0 (ca_archiveId <$> List.find (is_root meta id) cascaded);
                 sd_cascaded := List.filter (λ e, negb (is_root meta id e)) cascaded; sd_deletedAt := now |}.
Proof.
  clear. intros ([] & s1 & Hc & Hr)%js_bind_ok. pose proof (checked_ok _ _ _ _ Hc) as (-> & _). cbv zeta in Hr |- *.
  split; [done|]. apply js_bind_ok in Hr as (l & ? & [= <- <-] & Hr). apply js_bind_ok in Hr as (p & ? & Hp & Hr).
  injection Hp as Hp <-. exists p. split; [done|]. destruct (dryRun options); [by injection Hr as <- <-|].
  apply js_bind_ok in Hr as (cascaded & ? & Hd & Hr). injection Hr as <- <-. eauto.
Qed.

(** ** What moves *)

(** C30. A soft deletion that returns has moved the row and exactly the live rows below it by
    cascading keys, each once and after every row that refers to it, into the mirrors, as they
    were and with one time; every other row and everything archived before stays; and the
    answer names the moved rows. *)
Theorem softDelete_moves_subtree table id options now s r s' :
  let root := row_key (tb_meta table) id in
  tb_meta table = table_meta c (tm_schema (tb_meta table)) (tm_table (tb_meta table)) →
  softDelete c table id options now s = (Ok (inr r), s') →
  ∃ arch, run c now s s' arch ∧ (∀ k, k ∈ map fst arch ↔ rtc (below c (live s)) root k) ∧
          sd_deletedAt r = now ∧
          ∃ rest a, arch = rest ++ [(root, a)] ∧ sd_cascaded r = map entry_of rest ∧ sd_archiveId r = ar_archiveId a.
Proof using All.
  cbv zeta. intros Hm [_ (p & Hp & Hd)]%softDelete_inv. destruct (dryRun options); [by destruct Hd|].
  destruct Hd as (cascaded & Hd & [= ->]). rewrite Hm in Hd. apply softDelete_moved in Hd as (arch & Hrun & -> & (l & Hl) & Hreach); [|done].
  set (root := row_key (tb_meta table) id). change (map fst arch = l ++ [root]) in Hl.
  exists arch. split; [done|]. split.
  { intros k. split; [apply Hreach|]. intros Hk.
    assert (root ∈ map fst arch) as Hroot by (rewrite Hl; set_solver).
    revert Hroot. clearbody root. clear Hl Hreach. induction Hk as [|x y z Hxy _ IH]; [done|]. intros Hx. apply IH.
    apply list_elem_of_split in Hx as (l1 & l2 & Hl). pose proof (run_below _ _ _ _ _ Hrun _ _ _ y Hl (below_hangs _ _ _ _ Hxy)) as Hy.
    rewrite Hl. set_solver. }
  split; [done|].
  destruct (exists_last (l := arch)) as (rest & [k a] & ->); [by intros ->; destruct l|].
  rewrite map_app in Hl. simpl in Hl. apply app_inj_tail in Hl as [Hrest ->]. exists rest, a. split; [done|]. simpl.
  pose proof (run_nodup _ _ _ _ _ Hrun) as Hnd. rewrite map_app in Hnd. apply NoDup_app in Hnd as (_ & Hd2 & _).
  assert (is_root (tb_meta table) id (entry_of (root, a)) = true) as Hr1
    by (unfold is_root; simpl; by rewrite !String.eqb_refl).
  assert (∀ e, e ∈ map entry_of rest → is_root (tb_meta table) id e = false) as Hr2.
  { intros e ([k' b] & -> & Hin)%list_elem_of_fmap. apply not_true_is_false. unfold is_root. simpl.
    intros [[H1%String.eqb_eq H2%String.eqb_eq]%andb_true_iff H3%String.eqb_eq]%andb_true_iff.
    apply (Hd2 k'); [apply list_elem_of_fmap; by exists (k', b)|]. simpl. apply list_elem_of_singleton.
    unfold root, row_key. destruct k' as [[] ?]. simpl in *. congruence. }
  rewrite map_app. split.
  - rewrite List.filter_app. simpl. rewrite Hr1. simpl. rewrite app_nil_r. apply filter_all_true, Forall_forall.
    intros e He. by rewrite Hr2.
  - rewrite (find_unique _ _ (entry_of (root, a))); [done| |done|].
    + rewrite elem_of_app. right. left.
    + intros e He Ht. apply elem_of_app in He as [He|He]; [by rewrite Hr2 in Ht|]. by apply list_elem_of_singleton in He.
Qed.

(** ** Plans *)

(** A dry run changes nothing, and a deletion within the limits of a plan never fails by
    them: it moves at most the rows the plan counts, which are within the limit. *)
Theorem dry_run_predicts table id options now s p s1 :
  tb_meta table = table_meta c (tm_schema (tb_meta table)) (tm_table (tb_meta table)) →
  dryRun options = true →
  softDelete c table id options now s = (Ok (inl p), s1) →
  let real := {| maxCascadeDepth := maxCascadeDepth options; maxCascadeRows := maxCascadeRows options; dryRun := false |} in
  s1 = s ∧ cp_totalRows p ≤ default 100 (maxCascadeRows options) ∧
  match softDelete c table id real now s with
  | (Ok (inr r), _) => Z.of_nat (length (sd_cascaded r)) + 1 ≤ cp_totalRows p
  | (Ok (inl _), _) => False
  | (Throw e, _) => limit_error e = false
  end.
Proof using All.
  intros Hm Hdry Hs. cbv zeta. apply softDelete_inv in Hs as [Hc (q & Hp & Hd)]. rewrite Hdry in Hd. destruct Hd as [[= <-] ->].
  split; [done|]. destruct (plan_covers _ _ _ _ _ _ _ _ _ Hp) as (Hmax & rows & Hlen & Hcov & _). split; [done|].
  set (real := {| maxCascadeDepth := maxCascadeDepth options; maxCascadeRows := maxCascadeRows options; dryRun := false |}).
  destruct (softDelete c table id real now s) as [[[q|r]|e] s2] eqn:Hr.
  - apply softDelete_inv in Hr as [_ (q' & _ & (? & _ & [=]))].
  - apply softDelete_moves_subtree in Hr as (arch & Hrun & Hreach & _ & rest & a & Harch & Hcas & _); [|done].
    rewrite Hcas. assert (length (map fst arch) ≤ length rows)%nat as Hle.
    { apply submseteq_length, NoDup_submseteq; [apply (run_nodup _ _ _ _ _ Hrun)|]. intros k Hk. by apply Hcov, Hreach. }
    unfold count in Hlen. rewrite Harch, map_app, length_app in Hle. simpl in Hle. rewrite !length_map in *. lia.
  - unfold softDelete, real, mbind, js_bind, getf, lift in Hr. rewrite Hc in Hr. cbn [maxCascadeDepth maxCascadeRows dryRun] in Hr.
    rewrite Hp in Hr.
    pose proof (admitted_delete c (depth_fuel (default 4 (maxCascadeDepth options))) (live s) (tm_schema (tb_meta table))
      (tm_table (tb_meta table)) id now (default 4 (maxCascadeDepth options)) (default 100 (maxCascadeRows options)) 0 p [] s) as Hw. rewrite <- Hm in Hw.
    specialize (Hw Hp (left_of_refl c _)).
    destruct (softDeleteByReference c _ _ _ _ _ _ _ _ _) as [[?|e'] ?]; [done|]. injection Hr as <- _. exact Hw.
Qed.

(** C38. The walk over the rows below ends on any data: more fuel than the depth limit gives
    never changes the answer, which is never for lack of it; and a row that is below itself is
    refused. *)
Theorem plan_walk_ends l meta id maxDepth maxRows fuel :
  (depth_fuel maxDepth ≤ fuel)%nat →
  let plan := buildCascadePlan c (depth_fuel maxDepth) l meta id maxDepth maxRows 0 in
  buildCascadePlan c fuel l meta id maxDepth maxRows 0 = plan ∧ plan ≠ Throw Exhausted ∧
  ∀ k p, rtc (below c l) (row_key meta id) k → tc (below c l) k k → plan ≠ Ok p.
Proof using All.
  intros Hf. cbv zeta. unfold depth_fuel in *.
  destruct (plan_enough c (S (Z.to_nat maxDepth)) fuel l meta id maxDepth maxRows 0) as [He Hn]; [lia|lia|].
  rewrite He in *. split; [done|]. split; [done|]. intros k p Hk Hcyc Hp.
  apply plan_covers in Hp as (_ & rows & _ & _ & Hdepth); [|done].
  assert (∀ n, ∃ m k', (n ≤ m)%nat ∧ nsteps (below c l) m (row_key meta id) k' ∧ rtc (below c l) k' k) as Hlong.
  { intros n. apply rtc_nsteps in Hk as (d & Hd). induction n as [|n (m & k' & Hm & Hs & Hr)].
    - exists d, k. split_and!; [lia|done|done].
    - apply tc_rtc in Hcyc as Hc'. assert (tc (below c l) k' k) as Ht by (by eapply tc_rtc_l).
      inversion Ht as [? ? H1|? y ? H1 H2]; subst.
      + exists (S m), k. split_and!; [lia|by eapply nsteps_r|done].
      + exists (S m), y. split_and!; [lia|by eapply nsteps_r|by apply tc_rtc]. }
  destruct (Hlong (S (Z.to_nat maxDepth))) as (m & k' & Hm & Hs & _). apply Hdepth in Hs. lia.
Qed.

(** ** Restoration *)

(** After a deletion that left the other rows as they were. *)
Lemma restored_whole s0 s1 now arch table id rest a :
  let root := row_key (tb_meta table) id in
  tb_meta table = table_meta c (tm_schema (tb_meta table)) (tm_table (tb_meta table)) →
  checked_table table s0 = (Ok (), s0) → run c now s0 s1 arch → tidy c s0 now (λ k, k ∈ map fst arch) →
  (∀ k r, k ∈ map fst arch → live s0 !! k = Some r → findRestoreConflict c (live s0) (table_meta c k.1.1 k.1.2) r k.2 = None) →
  (∀ l k r, l ⊆ live s0 → k ∈ map fst arch → live s0 !! k = Some r → l !! k = None →
     (∀ p, hangs c (live s0) p k → is_Some (l !! p)) → insert_error c l k r = None) →
  (∀ k, k ∉ map fst arch → live s1 !! k = live s0 !! k) →
  arch = rest ++ [(root, a)] → (∀ k, k ∈ map fst arch ↔ rtc (below c (live s0)) root k) →
  ∃ fuel restored s2, restoreWithCascade c fuel table id None s1 = (Ok restored, s2) ∧
    live s2 = live s0 ∧ ∀ n, table_of s2 n = table_of s0 n.
Proof using All.
  cbv zeta. intros Hm Hc Hrun Ht Hunique Hinsert Hsame Harch Hreach. set (root := row_key (tb_meta table) id) in *.
  assert (map fst arch = map fst rest ++ root :: []) as Hk by by rewrite Harch, map_app.
  destruct (restore_row c s0 s1 now arch Hrun Ht Hunique Hinsert (S (length (map fst rest))) (map fst rest) root [] Hk ltac:(lia)
              (list_to_set (map fst arch)) s1 []) as (acc & s2 & S2 & H2 & Hb2 & HS2).
  - split.
    + intros k. by rewrite elem_of_list_to_set.
    + intros k. destruct (decide (k ∈ (list_to_set (map fst arch) : gset Key))) as [Hin|Hin]; rewrite elem_of_list_to_set in Hin;
        [by apply (run_gone _ _ _ _ _ Hrun)|by apply Hsame].
    + intros n. rewrite (run_mirrors _ _ _ _ _ Hrun). f_equal. f_equal. symmetry. apply filter_all_true, Forall_forall.
      intros [k b] Hin. apply bool_decide_eq_true. rewrite elem_of_list_to_set. apply list_elem_of_fmap. by exists (k, b).
  - split.
    + intros x Hx. rewrite elem_of_list_to_set. by apply Hreach.
    + intros p Hp. rewrite elem_of_list_to_set. intros Hin. apply list_elem_of_split in Hin as (l1 & l2 & Hl).
      pose proof (run_below _ _ _ _ _ Hrun _ _ _ _ Hl Hp) as Hroot. pose proof (run_nodup _ _ _ _ _ Hrun) as Hnd.
      rewrite Hk in Hl, Hnd. destruct (exists_last (l := p :: l2)) as (l2' & x & Hx); [done|]. rewrite Hx, (assoc (++)) in Hl.
      apply app_inj_tail in Hl as [Hl <-]. apply NoDup_app in Hnd as (_ & Hd & _). apply (Hd root); [|left].
      rewrite Hl. set_solver.
  - exists (S (length (map fst rest))), acc, s2.
    assert (∀ k, k ∉ S2) as Hempty.
    { intros k. rewrite HS2, elem_of_list_to_set, Hreach. tauto. }
    split; [|split].
    + unfold restoreWithCascade, restoreFromArchive, mbind, js_bind. rewrite checked_passes; [rewrite Hm; exact H2|..];
        apply checked_ok in Hc as (_ & Ha & Hr & Hs & Hmir); [destruct (run_role _ _ _ _ _ Hrun) as [-> _]|destruct (run_role _ _ _ _ _ Hrun) as [_ ->]| |
          apply (run_tables _ _ _ _ _ Hrun)]; done.
    + apply map_eq. intros k. rewrite (bw_live _ _ _ _ Hb2). by rewrite decide_False.
    + intros n. rewrite (bw_mirror _ _ _ _ Hb2). assert (still S2 arch = []) as ->; [|by rewrite app_nil_r].
      apply filter_all_false, Forall_forall. intros [k b] _. by apply bool_decide_eq_false.
Qed.

(** The database in which the moved rows are back and the others as the deletion left them. *)
Section back.
Context (s0 s1 : TxState) (t : Z) (arch : list (Key * Archived)) (Hrun : run c t s0 s1 arch) (back : Live).
Notation moved := (λ k, k ∈ map fst arch).
Context (Hmoved : ∀ k, moved k → back !! k = live s0 !! k) (Hkept : ∀ k, ¬ moved k → back !! k = live s1 !! k).

Lemma back_kept k : option_Forall2 (kept c k) (live s0 !! k) (back !! k).
Proof using All.
  destruct (decide (moved k)) as [Hk|Hk]; [|rewrite Hkept by done; by apply (run_kept _ _ _ _ _ Hrun)].
  rewrite Hmoved by done. destruct (live s0 !! k); constructor. apply archive_kept_refl.
Qed.
Lemma back_some k : is_Some (back !! k) ↔ is_Some (live s0 !! k).
Proof using All. pose proof (back_kept k) as Hk. inversion Hk; split; intros []; try done; by eexists. Qed.
Lemma back_link (P : FkBehavior → Prop) p k : (∀ b, P b → b ≠ fk_hide) →
  (∃ e, e ∈ registry c ∧ P (behavior e) ∧ via back e p k) ↔ (∃ e, e ∈ registry c ∧ P (behavior e) ∧ via (live s0) e p k).
Proof using All.
  intros HP. f_equiv. intros e. split; intros (He & Hb & Hv); (split_and!; [done|done|]); revert Hv;
    rewrite (via_before c (live s0) back e p k He (HP _ Hb) (back_kept k)); auto.
Qed.
Lemma back_hangs p k : hangs c back p k ↔ hangs c (live s0) p k.
Proof using All. by apply (back_link (λ b, b ≠ fk_hide)). Qed.
Lemma back_below p k : rtc (below c back) p k ↔ rtc (below c (live s0)) p k.
Proof using All.
  assert (∀ p k, below c back p k ↔ below c (live s0) p k) as Hb.
  { intros p1 k1. apply (back_link (λ b, b = fk_cascade)). by intros b ->. }
  split; apply rtc_subrel; intros; by apply Hb.
Qed.
Lemma back_run : run c t (on_live (λ _, back) s0) s1 arch.
Proof using All.
  destruct Hrun as [r1 r2 r3 r4 r5 r6 r7 r8 r9]. split; try done.
  - intros k Hk. simpl. rewrite Hmoved by done. by apply r2.
  - intros k Hk. simpl. rewrite Hkept by done. destruct (live s1 !! k); constructor. apply archive_kept_refl.
  - intros k a Ha. destruct (r8 k a Ha) as (Hi & Ht & r0 & r & Hr & Hc). split; [done|]. split; [done|]. exists r0, r. split; [|done].
    simpl. rewrite Hmoved; [done|]. apply list_elem_of_fmap. by exists (k, a).
  - intros l1 k l2 k' Hl Hh. apply (r9 _ _ _ _ Hl). by apply back_hangs.
Qed.
Lemma back_tidy : tidy c s0 t moved → tidy c (on_live (λ _, back) s0) t moved.
Proof using All.
  intros [t1 t2 t3 t4 t5 t6]. split; simpl; try done.
  - intros k r col Hk. rewrite Hmoved by done. by apply t1.
  - intros k r e Hr He Hc. pose proof (back_kept k) as Ho. rewrite Hr in Ho. inversion Ho as [r0 ? Hk Hr0|]; subst.
    destruct (Hk (childColumn e)) as [->|[_ ->]]; [|done]. pose proof (t2 k r0 e (eq_sym Hr0) He Hc) as Hf.
    destruct (r0 !! childColumn e) as [[| | | | |fk| | |]|]; try done. destruct Hf as [? Hf]. split; [done|]. by apply back_some.
  - intros p q k Hp Hq. rewrite !back_hangs. by apply t3.
  - intros k k' Hk Hk'. apply t4; [done|]. destruct Hk' as [?|?]; [left; by apply back_some|by right].
  - intros k r Hk. rewrite Hmoved by done. by apply t5.
Qed.
End back.

(** C31. After a soft deletion, a cascading restoration of the row returns and puts back the moved rows and
    the mirrors as they were; the other rows stay as the deletion left them, which is as they were but for
    references by [hide] keys, which are null. The conditions: no row refers to two of the moved ones, these
    have no reference by a [hide] key themselves, and the database keeps its constraints. *)
Theorem restore_undoes_softDelete table id options now s0 r s1 back :
  let root := row_key (tb_meta table) id in
  let moved := rtc (below c (live s0)) root in
  tb_meta table = table_meta c (tm_schema (tb_meta table)) (tm_table (tb_meta table)) →
  softDelete c table id options now s0 = (Ok (inr r), s1) →
  (∀ k, moved k → back !! k = live s0 !! k) → (∀ k, ¬ moved k → back !! k = live s1 !! k) →
  tidy c s0 now moved →
  (∀ k r, moved k → back !! k = Some r → findRestoreConflict c back (table_meta c k.1.1 k.1.2) r k.2 = None) →
  (∀ l k r, l ⊆ back → moved k → back !! k = Some r → l !! k = None →
     (∀ p, hangs c back p k → is_Some (l !! p)) → insert_error c l k r = None) →
  ∃ fuel restored s2, restoreWithCascade c fuel table id None s1 = (Ok restored, s2) ∧
    live s2 = back ∧ (∀ k, option_Forall2 (kept c k) (live s0 !! k) (live s2 !! k)) ∧ ∀ n, table_of s2 n = table_of s0 n.
Proof using All.
  cbv zeta. intros Hm Hd Hmoved Hkept Htidy Hunique Hinsert. pose proof Hd as [Hc _]%softDelete_inv.
  apply softDelete_moves_subtree in Hd as (arch & Hrun & Hreach & _ & rest & a & Harch & _); [|done].
  set (root := row_key (tb_meta table) id) in *. setoid_rewrite <- Hreach in Hmoved. setoid_rewrite <- Hreach in Hkept.
  setoid_rewrite <- Hreach in Hunique. setoid_rewrite <- Hreach in Hinsert.
  assert (tidy c s0 now (λ k, k ∈ map fst arch)) as Ht.
  { destruct Htidy as [t1 t2 t3 t4 t5 t6]. split; [intros k r0 col Hk; by apply t1, Hreach|done| |intros k k' Hk; by apply t4, Hreach|
      intros k r0 Hk; by apply t5, Hreach|done]. intros p q k Hp Hq. apply t3; by apply Hreach. }
  pose proof (back_run s0 s1 now arch Hrun back Hmoved Hkept) as Hrun'. pose proof (back_tidy s0 s1 now arch Hrun back Hmoved Hkept Ht) as Ht'.
  pose proof (back_kept s0 s1 now arch Hrun back Hmoved Hkept) as Hall.
  destruct (restored_whole (on_live (λ _, back) s0) s1 now arch table id rest a) as (fuel & res & s2 & H2 & Hl & Hmir); try done.
  - apply checked_ok in Hc as (_ & ? & ? & ? & ?). by apply checked_passes.
  - intros k Hk. symmetry. by apply Hkept.
  - intros k. rewrite Hreach. symmetry. by eapply back_below.
  - exists fuel, res, s2. split; [exact H2|]. simpl in Hl. rewrite Hl. split_and!; [done|exact Hall|exact Hmir].
Qed.
End claims.

(** ** A blog: posts, comments and replies, pins and bookmarks *)
Module Example.
Definition foreign_key (child column parent : string) (b : FkBehavior) : RegistryEntry :=
  {| parentSchema := "blog"; parentTable := parent; childSchema := "blog"; childTable := child;
     fkConstraint := child +:+ "_" +:+ column; behavior := b; childColumn := column |}.
Definition keys_of : list RegistryEntry :=
  [foreign_key "comment" "post_id" "post" fk_cascade; foreign_key "comment" "parent_id" "comment" fk_cascade;
   foreign_key "pin" "post_id" "post" fk_block; foreign_key "bookmark" "post_id" "post" fk_hide].
Definition columns_of (schema table : string) : list string :=
  if String.eqb table "post" then ["title"] else if String.eqb table "comment" then ["post_id"; "parent_id"] else ["post_id"].

(** A delete fails while a row refers to the deleted one, and nulls the references of bookmarks. *)
Definition referred (l : Live) (k : Key) : bool :=
  existsb (λ e, negb (has_behavior fk_hide e) && of_parent k.1.1 k.1.2 e && existsb (refers e k.2) (map_to_list l)) keys_of.
Definition null_ref (k k' : Key) (r : Row) (e : RegistryEntry) : Row :=
  if has_behavior fk_hide e && of_parent k.1.1 k.1.2 e && refers e k.2 (k', r) then <[childColumn e := JNull]> r else r.
Definition set_null (k : Key) (l : Live) : Live := map_imap (λ k' r, Some (foldl (null_ref k k') r keys_of)) l.
Definition blog (order : ∀ {A}, list A → list A) : Catalog :=
  {| registry := keys_of; columns := columns_of; unique_constraints := λ _ _, []; scan := @order;
     delete_live := λ l k, if referred (delete k l) k then Throw "23503" else Ok (set_null k (delete k l));
     insert_error := λ _ _ _, None |}.
Definition forwards : Catalog := blog (λ _ l, l).
Definition backwards : Catalog := blog (λ _ l, reverse l).

Lemma null_ref_kept order k k' r e : e ∈ keys_of → kept (blog order) k' r (null_ref k k' r e).
Proof.
  intros He col. unfold null_ref, refers, in_table. cbn [fst snd]. destruct (has_behavior fk_hide e) eqn:Hb; [|by left].
  destruct (of_parent k.1.1 k.1.2 e); [|by left]. destruct (String.eqb k'.1.1 (childSchema e)) eqn:Hs; [|by left].
  destruct (String.eqb k'.1.2 (childTable e)) eqn:Ht; [|by left]. cbn [andb]. destruct (sql_is (r !! childColumn e) k.2); [|by left].
  destruct (decide (col = childColumn e)) as [->|]; [right|left; by rewrite lookup_insert_ne].
  split; [|apply lookup_insert_eq]. exists e. unfold of_child. apply bool_decide_eq_true in Hb.
  apply String.eqb_eq in Hs, Ht. rewrite Hs, Ht, !String.eqb_refl. done.
Qed.
Lemma set_null_kept order k l k' : option_Forall2 (kept (blog order) k') (l !! k') (set_null k l !! k').
Proof.
  unfold set_null. rewrite map_lookup_imap. destruct (l !! k') as [r|]; cbn -[keys_of]; constructor.
  enough (∀ es, es ⊆ keys_of → ∀ r0, kept (blog order) k' r r0 → kept (blog order) k' r (foldl (null_ref k k') r0 es)) as Hf.
  { apply Hf; [done|apply archive_kept_refl]. }
  induction es as [|e es IH]; intros Hes r0 Hr0; [done|]. apply IH; [set_solver|].
  eapply archive_kept_trans; [exact Hr0|]. apply null_ref_kept. set_solver.
Qed.

Lemma blog_lawful (order : ∀ A, list A → list A) : (∀ A (l : list A), order A l ≡ₚ l) → Lawful (blog order).
Proof.
  intros Ho. split; [exact Ho| |].
  - intros l k l'. simpl. destruct (referred _ _); [done|]. intros [= <-]. split.
    + unfold set_null. by rewrite map_lookup_imap, lookup_delete_eq.
    + intros k' Hk. rewrite <- (lookup_delete_ne l k k') by done. apply set_null_kept.
  - intros e He Hb (e' & He' & Hc & Hb' & Hcol).
    assert (e' = foreign_key "bookmark" "post_id" "post" fk_hide) as ->.
    { simpl in He'. repeat (apply elem_of_cons in He' as [->|He']; [by try discriminate Hb'|]). by apply elem_of_nil in He'. }
    simpl in He. repeat (apply elem_of_cons in He as [->|He]; [by try discriminate Hc|]). by apply elem_of_nil in He.
Qed.
#[export] Instance forwards_lawful : Lawful forwards.
Proof. by apply blog_lawful. Qed.
#[export] Instance backwards_lawful : Lawful backwards.
Proof. apply blog_lawful. intros A l. apply reverse_Permutation. Qed.

Definition post (id : string) : Key := ("blog", "post", id).
Definition comment (id : string) : Key := ("blog", "comment", id).
Definition bookmark (id : string) : Key := ("blog", "bookmark", id).
Definition with_rows (l : Live) : TxState :=
  {| active := true; reader := false; live := l; mirrors := {[ "blog_post" := []; "blog_comment" := []; "blog_pin" := []; "blog_bookmark" := [] ]};
     serials := ∅; settings := ∅; metrics := [] |}.
Definition posts : Table := {| tb_meta := table_meta forwards "blog" "post"; isSoftDeletable := true |}.
Definition usual (dry : bool) : SoftDeleteOptions :=
  {| maxCascadeDepth := None; maxCascadeRows := None; dryRun := dry |}.

(** A comment on a post, a reply to the comment and a bookmark of the post; [back] is the database
    once the post is restored. *)
Definition blog_rows (bookmarked : json) : Live :=
  {[ post "p" := {[ "title" := JString "hello" ]}; comment "a" := {[ "post_id" := JString "p" ]};
     comment "b" := {[ "parent_id" := JString "a" ]}; bookmark "m" := {[ "post_id" := bookmarked ]} ]}.
Definition s0 : TxState := with_rows (blog_rows (JString "p")).
Definition back : Live := blog_rows JNull.
Definition s1 : TxState := (softDelete forwards posts "p" (usual false) 1000 s0).2.
Definition answer : SoftDeleteResult :=
  {| sd_archiveId := 1;
     sd_cascaded := [{| ca_schema := "blog"; ca_table := "comment"; ca_archiveId := 1; ca_id := "b" |};
                     {| ca_schema := "blog"; ca_table := "comment"; ca_archiveId := 2; ca_id := "a" |}];
     sd_deletedAt := 1000 |}.
Lemma deleted : softDelete forwards posts "p" (usual false) 1000 s0 = (Ok (inr answer), s1).
Proof. vm_compute. reflexivity. Qed.
Definition planned : CascadePlan :=
  {| cp_parent := post "p";
     cp_steps := [{| cs_schema := "blog"; cs_table := "comment"; cs_rowCount := 1 |};
                  {| cs_schema := "blog"; cs_table := "comment"; cs_rowCount := 1 |}];
     cp_totalRows := 3; cp_maxDepth := 2; cp_withinLimits := true |}.
Lemma plan_made : softDelete forwards posts "p" (usual true) 1000 s0 = (Ok (inl planned), s0).
Proof. vm_compute. reflexivity. Qed.
Opaque s0 s1.

Lemma softDelete_moves_subtree_witness :
  ∃ arch, run forwards 1000 s0 s1 arch ∧ map fst arch = [comment "b"; comment "a"; post "p"].
Proof.
  destruct (softDelete_moves_subtree forwards posts "p" (usual false) 1000 s0 answer s1 eq_refl deleted)
    as (arch & Hrun & _ & _ & rest & a & Harch & Hcas & _).
  exists arch. split; [exact Hrun|].
  assert (map (λ e, (ca_schema e, ca_table e, ca_id e)) (sd_cascaded answer) = map fst rest) as Hk.
  { rewrite Hcas, map_map. apply map_ext. intros [[[sc tb] i] x]. reflexivity. }
  rewrite Harch, map_app, <- Hk. reflexivity.
Defined.

Lemma dry_run_predicts_witness :
  ∃ p, softDelete forwards posts "p" (usual true) 1000 s0 = (Ok (inl p), s0) ∧ cp_totalRows p = 3 ∧ 3 ≤ 100.
Proof.
  exists planned. destruct (dry_run_predicts forwards posts "p" (usual true) 1000 s0 planned s0 eq_refl eq_refl plan_made) as (_ & Hmax & _).
  split; [exact plan_made|]. split; [reflexivity|exact Hmax].
Defined.

Lemma plan_walk_ends_witness :
  buildCascadePlan forwards 50 (live s0) (table_meta forwards "blog" "post") "p" 4 100 0
  = buildCascadePlan forwards (depth_fuel 4) (live s0) (table_meta forwards "blog" "post") "p" 4 100 0.
Proof. apply (plan_walk_ends forwards (live s0) (table_meta forwards "blog" "post") "p" 4 100 50). vm_compute. repeat constructor. Defined.

Transparent s0 s1.
Lemma rows_cases v k r : blog_rows v !! k = Some r →
  (k = post "p" ∧ r = {[ "title" := JString "hello" ]}) ∨ (k = comment "a" ∧ r = {[ "post_id" := JString "p" ]}) ∨
  (k = comment "b" ∧ r = {[ "parent_id" := JString "a" ]}) ∨ (k = bookmark "m" ∧ r = {[ "post_id" := v ]}).
Proof. unfold blog_rows. rewrite !lookup_insert_Some, lookup_singleton_Some. naive_solver. Qed.
Definition live_cases k r : live s0 !! k = Some r → _ := rows_cases (JString "p") k r.
Lemma entry_cases e : e ∈ keys_of →
  e = foreign_key "comment" "post_id" "post" fk_cascade ∨ e = foreign_key "comment" "parent_id" "comment" fk_cascade ∨
  e = foreign_key "pin" "post_id" "post" fk_block ∨ e = foreign_key "bookmark" "post_id" "post" fk_hide.
Proof. unfold keys_of. rewrite !elem_of_cons, elem_of_nil. naive_solver. Qed.
Lemma hangs_parent p k : hangs forwards (live s0) p k →
  (k = comment "a" ∧ p = post "p") ∨ (k = comment "b" ∧ p = comment "a").
Proof.
  intros (e & He & Hb & Hp & Hc & r & Hr & Hv).
  apply live_cases in Hr as [[-> ->]|[[-> ->]|[[-> ->]|[-> ->]]]]; apply entry_cases in He as [->|[->|[->| ->]]];
    try discriminate Hc; try done; vm_compute in Hv; try discriminate Hv; destruct p as [[sc tb] i];
    unfold of_parent in Hp; apply andb_true_iff in Hp as [H1%String.eqb_eq H2%String.eqb_eq]; simpl in *; subst;
    destruct i as [|x [|]]; try discriminate Hv; try (destruct x as [[] [] [] [] [] [] [] []]; discriminate Hv).
  - left. split; [done|]. f_equal. unfold post. f_equal. destruct x as [[] [] [] [] [] [] [] []]; try discriminate Hv; done.
  - right. split; [done|]. unfold comment. f_equal. destruct x as [[] [] [] [] [] [] [] []]; try discriminate Hv; done.
Qed.
Notation moved := (rtc (below forwards (live s0)) (post "p")).
Lemma moved_cases k : moved k → k = post "p" ∨ k = comment "a" ∨ k = comment "b".
Proof.
  intros [<-|(z & _ & [[-> _]|[-> _]]%below_hangs%hangs_parent)]%rtc_inv_r; auto.
Qed.
Lemma moved_rows : moved (post "p") ∧ moved (comment "a") ∧ moved (comment "b").
Proof.
  assert (below forwards (live s0) (post "p") (comment "a")) as Ha.
  { exists (foreign_key "comment" "post_id" "post" fk_cascade). split_and!; [set_solver|done|]. split_and!; [done|done|].
    eexists. split; vm_compute; reflexivity. }
  assert (below forwards (live s0) (comment "a") (comment "b")) as Hb.
  { exists (foreign_key "comment" "parent_id" "comment" fk_cascade). split_and!; [set_solver|done|]. split_and!; [done|done|].
    eexists. split; vm_compute; reflexivity. }
  split_and!; [done|by apply rtc_once|by eapply rtc_l, rtc_once].
Qed.
Lemma s0_tidy : tidy forwards s0 1000 moved.
Proof.
  split.
  - intros k r col Hk _ (e & He & Hc & Hb & _). apply moved_cases in Hk as [->|[->| ->]];
      apply entry_cases in He as [->|[->|[->| ->]]]; discriminate.
  - intros k r e [[-> ->]|[[-> ->]|[[-> ->]|[-> ->]]]]%live_cases [->|[->|[->| ->]]]%entry_cases Hc; try discriminate Hc; vm_compute;
      try done; (split; [discriminate|by eexists]).
  - intros p q k _ _ [[-> ->]|[-> ->]]%hangs_parent [[Hk ->]|[Hk ->]]%hangs_parent; done.
  - intros k k' Hk Hk'.
    assert (k.1 = ("blog", "post") ∨ k.1 = ("blog", "comment")) as Ht by (apply moved_cases in Hk as [->|[->| ->]]; auto).
    assert (k'.1 = ("blog", "post") ∨ k'.1 = ("blog", "comment") ∨ k'.1 = ("blog", "pin") ∨ k'.1 = ("blog", "bookmark")) as Ht'.
    { destruct Hk' as [[r Hr]|(e & He & ->)].
      - apply live_cases in Hr as [[-> _]|[[-> _]|[[-> _]|[-> _]]]]; auto.
      - apply entry_cases in He as [->|[->|[->| ->]]]; auto. }
    unfold mirror_of. destruct k as [kt ki], k' as [kt' ki']. simpl in Ht, Ht' |- *.
    destruct Ht as [->| ->], Ht' as [->|[->|[->| ->]]]; done.
  - intros k r Hk [[-> ->]|[[-> ->]|[[-> ->]|[-> ->]]]]%live_cases; vm_compute; reflexivity.
  - intros n. assert (table_of s0 n = []) as ->.
    { unfold table_of. destruct (mirrors s0 !! n) as [l|] eqn:Hl; [|done]. revert Hl. unfold s0, with_rows. cbn [mirrors].
      rewrite !lookup_insert_Some, lookup_singleton_Some. naive_solver. }
    split; [constructor|]. intros a Ha. by apply elem_of_nil in Ha.
Qed.
Lemma back_moved k : moved k → back !! k = live s0 !! k.
Proof. intros [->|[->| ->]]%moved_cases; vm_compute; reflexivity. Qed.
Definition left_rows : Live := {[ bookmark "m" := {[ "post_id" := JNull ]} ]}.
Lemma rows_left : live s1 = left_rows.
Proof. vm_cast_no_check (eq_refl left_rows). Qed.
Lemma back_kept_rows k : ¬ moved k → back !! k = live s1 !! k.
Proof.
  intros Hk. rewrite rows_left. destruct moved_rows as (Hp & Ha & Hb). unfold back, blog_rows.
  rewrite !lookup_insert_ne by (intros <-; done). done.
Qed.

Lemma restore_undoes_softDelete_witness :
  ∃ fuel restored s2, restoreWithCascade forwards fuel posts "p" None s1 = (Ok restored, s2) ∧
    live s2 = back ∧ (∀ k, option_Forall2 (kept forwards k) (live s0 !! k) (live s2 !! k)) ∧
    ∀ n, table_of s2 n = table_of s0 n.
Proof.
  exact (restore_undoes_softDelete forwards posts "p" (usual false) 1000 s0 answer s1 back eq_refl deleted back_moved
           back_kept_rows s0_tidy (λ k r _ _, eq_refl) (λ l k r _ _ _ _ _, eq_refl)).
Defined.

(** ** A reply that also refers to its post *)

Definition thread : TxState := with_rows {[ post "p" := {[ "title" := JString "hello" ]};
  comment "a" := {[ "post_id" := JString "p" ]};
  comment "b" := {[ "post_id" := JString "p"; "parent_id" := JString "a" ]} ]}.
Definition thread_gone : TxState := (softDelete backwards posts "p" (usual false) 1000 thread).2.

(** ** A composite key, as those of [0014_flow.sql] *)

(** The registry's query takes the first column of the key, [tenant_id], for the one that names the parent. *)
Definition nodes_graph_id_fkey : RegistryEntry :=
  {| parentSchema := "flow"; parentTable := "graphs"; childSchema := "flow"; childTable := "nodes";
     fkConstraint := "nodes_graph_id_fkey"; behavior := fk_cascade; childColumn := "tenant_id" |}.
Definition refers_by_graph_id (k : Key) (p : Key * Row) : bool :=
  in_table "flow" "nodes" p.1 && String.eqb k.1.2 "graphs" && sql_is (p.2 !! "graph_id") k.2.
Definition flow : Catalog :=
  {| registry := [nodes_graph_id_fkey];
     columns := λ _ table, if String.eqb table "graphs" then ["tenant_id"] else ["tenant_id"; "graph_id"];
     unique_constraints := λ _ _, []; scan := λ _ l, l;
     delete_live := λ l k, if existsb (refers_by_graph_id k) (map_to_list l) then Throw "23001" else Ok (delete k l);
     insert_error := λ _ _ _, None |}.
Definition graph_with_node : TxState :=
  {| active := true; reader := false;
     live := {[ ("flow", "graphs", "g") := {[ "tenant_id" := JString "t" ]};
                ("flow", "nodes", "n") := {[ "tenant_id" := JString "t"; "graph_id" := JString "g" ]} ]};
     mirrors := {[ "flow_graphs" := []; "flow_nodes" := [] ]}; serials := ∅; settings := ∅; metrics := [] |}.
End Example.

(** A graph that has a node cannot be deleted, although the node's key cascades: the node is not found
    under the graph, and the database refuses to delete a graph it still refers to. *)
Theorem composite_key_blocks :
  let graphs := {| tb_meta := table_meta Example.flow "flow" "graphs"; isSoftDeletable := true |} in
  (softDelete Example.flow graphs "g" (Example.usual false) 1000 Example.graph_with_node).1
    = Throw (SoftDeleteBlockedError ("flow", "graphs", "g") []).
Proof. vm_compute. reflexivity. Qed.

(** A reply that refers to its comment and to its post cannot be deleted with the post when
    the database lists the comment first, because the reply is gone when its turn comes; when it
    lists the reply first, the deletion works, and a cascading restoration fails the same way
    whatever the order. *)
Theorem thread_is_stuck n :
  (softDelete Example.forwards Example.posts "p" (Example.usual false) 1000 Example.thread).1
    = Throw (ArchiveMirrorMissingError (qualifiedName "blog" "comment") (Some "b")) ∧
  live Example.thread_gone = ∅ ∧
  (restoreWithCascade Example.forwards (10 + n) Example.posts "p" None Example.thread_gone).1
    = Throw (ArchiveMirrorMissingError (mirrorQualifiedName "blog" "comment") (Some "a")) ∧
  (restoreWithCascade Example.backwards (10 + n) Example.posts "p" None Example.thread_gone).1
    = Throw (ArchiveMirrorMissingError (mirrorQualifiedName "blog" "comment") (Some "b")).
Proof. split; [vm_compute; reflexivity|]. split; [vm_compute; reflexivity|]. split; vm_compute; reflexivity. Qed.
