(* ===== verification/Idempotency.v ===== *)
(** * Idempotency: the interceptor that answers a repeated request with the stored response.

    [idempotency/src/idempotency.interceptor.ts] over the interfaces of [types.ts],
    [redis-idempotency.backend.ts], and the two durable stores, [database-idempotency.store.ts]
    and [pg-idempotency.store.ts].

    A backend that is not connected answers as none would, so [backend] says whether there is
    a connected one. An intercepted request is a [prog]: a tree of the calls it awaits, each followed by what
    the code does with its reply. Between two calls of one request the calls of others run. *)
From Stdlib Require Import Ascii.
From S2P Require Import Prelude JsText JsJson.
Local Open Scope Z_scope.

(** ** Requests *)

Inductive HeaderValue := hv_string (s : string) | hv_list (l : list string) | hv_other.
(** [headerToString] of contracts/src/headers.ts *)
Definition headerToString (v : HeaderValue) : option string :=
  match v with
  | hv_string s => Some s
  | hv_list (s :: _) => Some s
  | _ => None
  end.

Record RequestLike := {
  rq_headers : list (string * HeaderValue);
  rq_method : option string;
  rq_originalUrl : option string;
  rq_url : option string;
  rq_body : json;
  rq_tenantId : option string;
  rq_principal : option string;
  rq_actor : option string;
  rq_user : option string }.

Record IdempotentMetadata := { md_transactional : bool; md_headerName : option string; md_ttlMs : option Z }.

Record IdempotencyDecisionContext := {
  compositeKey : string;
  headerName : string;
  headerValue : string;
  requestFingerprint : string;
  dc_tenantId : option string;
  dc_userId : option string;
  routeKey : string;
  ttlMs : Z }.

Record Options := {
  defaultHeaderName : string;
  replayKeyHeaderName : string;
  replayMarkerHeaderName : string;
  op_ttlMs : Z;
  durableStrict : bool;
  waitAttempts : nat }.
Definition DEFAULT_OPTIONS : Options :=
  {| defaultHeaderName := "Idempotency-Key"; replayKeyHeaderName := "X-Idempotency-Key";
     replayMarkerHeaderName := "Idempotency-Replayed"; op_ttlMs := 86400000; durableStrict := false;
     waitAttempts := 12 |}.

Notation Headers := (list (string * string)).
Inductive EntryStatus := en_pending | en_completed.
#[export] Instance EntryStatus_eq_dec : EqDecision EntryStatus.
Proof. solve_decision. Defined.
Record StoredEntry := {
  en_requestFingerprint : string;
  en_statusCode : option Z;
  en_body : json;
  en_headers : Headers;
  en_expiresAt : Z;
  en_status : EntryStatus }.

(** What a handler does: it returns with a status and headers on the response, or throws an
    [HttpException] or anything else. *)
Inductive HandlerOutcome :=
| h_value (status : Z) (body : json) (headers : Headers)
| h_http (status : Z) (response : json) (headers : Headers)
| h_error.

(** [Unavailable]: the backend or the store did not answer. *)
Inductive IdemError :=
| BadRequest (message : string)
| Unprocessable
| ServiceUnavailable (message : string)
| HandlerHttp (status : Z) (response : json)
| HandlerFailure
| Unavailable.

(** The answer of a request: the body of the handler, or a stored response with the status and
    the headers set on the way. *)
Inductive Answer :=
| handled (body : json)
| replayed (status : Z) (headers : Headers) (body : json).

(** ** The decision context *)

Section context.
Context (sha256 : string → string) (locale_le : string → string → bool).

Definition upper_char (c : ascii) : ascii := if byte_in 97 122 c then ascii_of_N (N_of_ascii c - 32) else c.
Fixpoint upper (s : string) : string :=
  match s with EmptyString => EmptyString | String c s' => String (upper_char c) (upper s') end.
Definition normalizeMethod (method : option string) : string := default EmptyString (upper <$> method).
Definition toUserId (r : RequestLike) : option string :=
  match rq_principal r, rq_actor r with
  | Some u, _ => Some u
  | None, Some u => Some u
  | None, None => rq_user r
  end.
Definition toPath (r : RequestLike) : string :=
  let raw := match rq_originalUrl r with Some u => u | None => default EmptyString (rq_url r) end in
  default EmptyString (head (split_on "?"%char raw)).

(** [value.trim()] *)
Fixpoint trim_end (s : list ascii) : list ascii :=
  match s with
  | [] => []
  | c :: s' => if blank (String.string_of_list_ascii s) then [] else c :: trim_end s'
  end.
Definition trim (s : string) : string :=
  String.string_of_list_ascii (trim_end (trim_start (String.length s) (String.list_ascii_of_string s))).

Definition header (r : RequestLike) (name : string) : option HeaderValue :=
  snd <$> List.find (λ p, String.eqb p.1 name) (rq_headers r).
Definition getIdempotencyKey (r : RequestLike) (name : string) : option string :=
  raw ← match header r name with Some v => Some v | None => header r (lower name) end;
  value ← trim <$> headerToString raw;
  if String.eqb value EmptyString then None else Some value.

Definition request_fingerprint (r : RequestLike) : string :=
  sha256 (normalizeMethod (rq_method r) +:+ ":" +:+ toPath r +:+ ":" +:+ stableStringify locale_le (rq_body r)).

Definition text_or_null (o : option string) : json := match o with Some s => JString s | None => JNull end.
Definition nonempty (o : option string) : option string := s ← o; if String.eqb s EmptyString then None else Some s.
Definition buildDecisionContext (r : RequestLike) (name value : string) (ttl : Z) : IdempotencyDecisionContext :=
  let route := normalizeMethod (rq_method r) +:+ ":" +:+ toPath r in
  {| compositeKey := sha256 (default EmptyString (encode (JObject
       [("tenantId", text_or_null (rq_tenantId r)); ("userId", text_or_null (toUserId r));
        ("routeKey", JString route); ("headerValue", JString value)])));
     headerName := name; headerValue := value; requestFingerprint := request_fingerprint r;
     dc_tenantId := nonempty (rq_tenantId r); dc_userId := nonempty (toUserId r); routeKey := route; ttlMs := ttl |}.

(** [intercept] up to [run]: the route is not idempotent here, the request is refused, or it
    runs with its context. *)
Inductive Interception :=
| pass
| refuse (e : IdemError)
| guarded (ctx : IdempotencyDecisionContext).
Definition intercept (o : Options) (noIdempotent : bool) (metadata : option IdempotentMetadata) (r : RequestLike) : Interception :=
  if noIdempotent then pass else
  match metadata with
  | None => pass
  | Some md =>
      if md_transactional md then pass else
      let name := default (defaultHeaderName o) (md_headerName md) in
      match getIdempotencyKey r name with
      | None => refuse (BadRequest (name +:+ " header is required for idempotent routes"))
      | Some k => guarded (buildDecisionContext r name k (default (op_ttlMs o) (md_ttlMs md)))
      end
  end.
End context.

(** ** Programs *)

Inductive call :=
| BackendGet
| BackendSet (e : StoredEntry)
| AcquireLock (token : string)
| LockToken
| DropLock
| IsLocked
| StoreLookup
| StoreReserve
| StorePersist (status : Z) (body : json) (headers : Headers)
| StoreClear
| RandomUUID
| Now
| IncrementReplay
| HandlerBegin
| HandlerEnd
| Sleep.
Definition reply (c : call) : Type :=
  match c with
  | BackendGet | StoreLookup => option StoredEntry
  | LockToken => option string
  | AcquireLock _ | IsLocked | StoreReserve | StorePersist _ _ _ => bool
  | RandomUUID => string
  | Now => Z
  | HandlerEnd => HandlerOutcome
  | _ => ()
  end.

Inductive prog (A : Type) : Type :=
| Done (o : outcome IdemError A)
| Await (c : call) (k : outcome IdemError (reply c) → prog A).
Arguments Done {A} o.
Arguments Await {A} c k.

#[export] Instance prog_ret : MRet prog := λ A a, Done (Ok a).
#[export] Instance prog_bind : MBind prog := λ A B f,
  fix go p := match p with
              | Done (Ok a) => f a
              | Done (Throw e) => Done (Throw e)
              | Await c k => Await c (λ r, go (k r))
              end.
Definition perform (c : call) : prog (reply c) := Await c (λ r, Done r).
Definition raise {A} (e : IdemError) : prog A := Done (Throw e).
(** [try { p } catch (e) { h }] and [try { p } finally { f }] *)
Fixpoint catching {A} (p : prog A) (h : IdemError → prog A) : prog A :=
  match p with
  | Done (Ok a) => Done (Ok a)
  | Done (Throw e) => h e
  | Await c k => Await c (λ r, catching (k r) h)
  end.
Fixpoint finally {A} (p : prog A) (f : prog ()) : prog A :=
  match p with
  | Done o => _ ← f; Done o
  | Await c k => Await c (λ r, finally (k r) f)
  end.

(** ** [run] *)

Section run.
Context (o : Options) (backend store : bool).   (** whether the two are provided *)

Definition when (b : bool) (p : prog ()) : prog () := if b then p else mret ().
Definition maybe {A} (b : bool) (p : prog A) : prog (option A) := if b then a ← p; mret (Some a) else mret None.
Definition backend_get : prog (option StoredEntry) := if backend then perform BackendGet else mret None.
Definition store_lookup : prog (option StoredEntry) := if store then perform StoreLookup else mret None.

(** [releaseLock] of the backend: two commands. *)
Definition releaseLock (token : string) : prog () :=
  current ← perform LockToken;
  if bool_decide (current = Some token) then perform DropLock else mret ().

(** [assertFingerprintMatches], and the entry if it is completed. *)
Definition ready (ctx : IdempotencyDecisionContext) (found : option StoredEntry) : prog (option StoredEntry) :=
  match found with
  | None => mret None
  | Some e =>
      if negb (String.eqb (en_requestFingerprint e) (requestFingerprint ctx)) then raise Unprocessable
      else mret (if bool_decide (en_status e = en_completed) then Some e else None)
  end.

Fixpoint waitForReadyEntry (attempts : nat) (ctx : IdempotencyDecisionContext) : prog (option StoredEntry) :=
  match attempts with
  | O => mret None
  | S attempts =>
      cached ← backend_get;
      cached ← ready ctx cached;
      match cached with
      | Some e => mret (Some e)
      | None =>
          entry ← store_lookup;
          entry ← ready ctx entry;
          match entry with
          | Some e => mret (Some e)
          | None =>
              locked ← maybe backend (perform IsLocked);
              if default false locked then _ ← perform Sleep; waitForReadyEntry attempts ctx else mret None
          end
      end
  end.

(** [applyReplayHeaders] and the body. *)
Definition replay (ctx : IdempotencyDecisionContext) (e : StoredEntry) : Answer :=
  replayed (default 200 (en_statusCode e))
    ((replayKeyHeaderName o, headerValue ctx) :: (replayMarkerHeaderName o, "true") :: en_headers e) (en_body e).

Definition completed_entry (ctx : IdempotencyDecisionContext) (status : Z) (body : json) (headers : Headers) (now : Z) : StoredEntry :=
  {| en_requestFingerprint := requestFingerprint ctx; en_statusCode := Some status; en_body := body;
     en_headers := headers; en_expiresAt := now + ttlMs ctx; en_status := en_completed |}.

(** What is stored of an outcome of the handler. *)
Definition settle (ctx : IdempotencyDecisionContext) (status : Z) (body : json) (headers : Headers) : prog () :=
  if status <? 500 then
    now ← perform Now;
    _ ← when backend (perform (BackendSet (completed_entry ctx status body headers now)));
    when store (_ ← perform (StorePersist status body headers); mret ())
  else when store (perform StoreClear).

(** [error instanceof HttpException] *)
Definition http_exception (e : IdemError) : option (Z * json) :=
  match e with
  | HandlerHttp status response => Some (status, response)
  | _ => None
  end.

(** The [try] block; the headers of the response are those the handler left. *)
Definition execute (ctx : IdempotencyDecisionContext) : prog Answer :=
  _ ← perform HandlerBegin;
  ended ← perform HandlerEnd;
  let headers := match ended with h_value _ _ h | h_http _ _ h => h | h_error => [] end in
  catching
    match ended with
    | h_value status body _ => _ ← settle ctx status body headers; mret (handled body)
    | h_http status response _ => raise (HandlerHttp status response)
    | h_error => raise HandlerFailure
    end
    (λ e, _ ← match http_exception e with
              | Some (status, response) => settle ctx status response headers
              | None => when store (perform StoreClear)
              end;
          raise e).

(** The wait of a request that did not get the lock, or the reservation of one that did; an
    answer ends the request. *)
Definition ownership (ctx : IdempotencyDecisionContext) (token : string) (lockAcquired : bool) : prog (option Answer) :=
  if negb lockAcquired then
    waited ← waitForReadyEntry (waitAttempts o) ctx;
    match waited with
    | Some e => _ ← perform IncrementReplay; mret (Some (replay ctx e))
    | None =>
        if durableStrict o then raise (ServiceUnavailable "Unable to establish durable idempotency ownership")
        else mret None
    end
  else
    reserved ← maybe store (perform StoreReserve);
    if bool_decide (reserved = Some false) && durableStrict o then
      _ ← when backend (releaseLock token);
      raise (ServiceUnavailable "Unable to reserve durable idempotency entry")
    else mret None.

Definition run (ctx : IdempotencyDecisionContext) : prog Answer :=
  backendHit ← backend_get;
  backendHit ← ready ctx backendHit;
  match backendHit with
  | Some e => _ ← perform IncrementReplay; mret (replay ctx e)
  | None =>
      durableHit ← store_lookup;
      durableHit ← ready ctx durableHit;
      match durableHit with
      | Some e => _ ← perform IncrementReplay; _ ← when backend (perform (BackendSet e)); mret (replay ctx e)
      | None =>
          token ← perform RandomUUID;
          acquired ← maybe backend (perform (AcquireLock token));
          let lockAcquired := default false acquired in
          answer ← ownership ctx token lockAcquired;
          match answer with
          | Some a => mret a
          | None => finally (execute ctx) (when lockAcquired (when backend (releaseLock token)))
          end
      end
  end.
End run.

(** ** Stores *)

Definition RowKey : Type := option string * string.
Definition row_key (ctx : IdempotencyDecisionContext) : RowKey := (dc_tenantId ctx, compositeKey ctx).

(** [IdempotencyStore], its tables in [D]; the first argument is the clock of the database. *)
Class DurableStore (D : Type) := {
  lookup : Z → IdempotencyDecisionContext → D → option StoredEntry;
  reserve : Z → IdempotencyDecisionContext → D → bool * D;
  persistResponse : Z → IdempotencyDecisionContext → Z → json → Headers → D → bool * D;
  clearReservation : IdempotencyDecisionContext → D → D }.

(** What the interceptor relies on: a reservation is granted for a key that has no row, and
    makes one; storing a response changes no other row and removes none, clearing removes only
    rows that hold no response. *)
Class ReservesOnce (D : Type) `{DurableStore D} := {
  has_row : D → RowKey → bool;
  reserve_granted : ∀ now ctx d d', reserve now ctx d = (true, d') →
    has_row d (row_key ctx) = false ∧ has_row d' (row_key ctx) = true;
  reserve_keeps : ∀ now ctx d k, has_row d k = true → has_row (reserve now ctx d).2 k = true;
  persist_keeps : ∀ now ctx st b h d k, has_row d k = true → has_row (persistResponse now ctx st b h d).2 k = true;
  clear_keeps : ∀ ctx d k, k ≠ row_key ctx → has_row d k = true → has_row (clearReservation ctx d) k = true }.

Definition ttl_seconds (ctx : IdempotencyDecisionContext) : Z := Z.max 1 (ttlMs ctx / 1000).

Section stores.
(** What [JSON.parse] makes of the text [JSON.stringify] makes of a body. *)
Context (through : json → json).

(** [core.idempotency_keys], unique by tenant and key with nulls not distinct. *)
Record DurableRow := {
  dr_fingerprint : string;
  dr_status : EntryStatus;
  dr_response : option (Z * json);
  dr_headers : Headers;
  dr_expiresAt : Z }.
Record DatabaseTable := { db_rows : gmap RowKey DurableRow }.

Definition database_lookup (now : Z) (ctx : IdempotencyDecisionContext) (d : DatabaseTable) : option StoredEntry :=
  row ← db_rows d !! row_key ctx;
  if dr_expiresAt row <=? now then None else
  Some {| en_requestFingerprint := dr_fingerprint row; en_statusCode := fst <$> dr_response row;
          en_body := match dr_response row with Some (_, JUndefined) | None => JNull | Some (_, b) => b end;
          en_headers := dr_headers row; en_expiresAt := dr_expiresAt row; en_status := dr_status row |}.
Definition database_reserve (now : Z) (ctx : IdempotencyDecisionContext) (d : DatabaseTable) : bool * DatabaseTable :=
  match db_rows d !! row_key ctx with
  | Some _ => (false, d)
  | None => (true, {| db_rows := <[row_key ctx := {| dr_fingerprint := requestFingerprint ctx; dr_status := en_pending;
                                     dr_response := None; dr_headers := [];
                                     dr_expiresAt := now + 1000 * ttl_seconds ctx |}]> (db_rows d) |})
  end.
Definition database_persist (now : Z) (ctx : IdempotencyDecisionContext) (status : Z) (body : json) (headers : Headers)
    (d : DatabaseTable) : bool * DatabaseTable :=
  match db_rows d !! row_key ctx with
  | None => (false, d)
  | Some row => (true, {| db_rows := <[row_key ctx := {| dr_fingerprint := dr_fingerprint row; dr_status := en_completed;
                                        dr_response := Some (status, through body); dr_headers := headers;
                                        dr_expiresAt := now + 1000 * ttl_seconds ctx |}]> (db_rows d) |})
  end.
Definition database_clear (ctx : IdempotencyDecisionContext) (d : DatabaseTable) : DatabaseTable :=
  match db_rows d !! row_key ctx with
  | Some row => if bool_decide (dr_status row = en_pending) then {| db_rows := delete (row_key ctx) (db_rows d) |} else d
  | None => d
  end.
#[export] Instance DatabaseIdempotencyStore : DurableStore DatabaseTable :=
  {| lookup := database_lookup; reserve := database_reserve; persistResponse := database_persist;
     clearReservation := database_clear |}.

(** The table of [PgIdempotencyStore]; a body of SQL null is [None]. *)
Record PgRow := { pg_fingerprint : string; pg_statusCode : option Z; pg_body : option json; pg_expiresAt : Z }.
Record PgTable := { pg_rows : gmap RowKey PgRow }.

Definition pg_lookup (now : Z) (ctx : IdempotencyDecisionContext) (d : PgTable) : option StoredEntry :=
  _ ← dc_tenantId ctx;
  row ← pg_rows d !! row_key ctx;
  if pg_expiresAt row <=? now then None else
  Some {| en_requestFingerprint := pg_fingerprint row; en_statusCode := Some (default 200 (pg_statusCode row));
          en_body := match pg_statusCode row with None => JNull | Some _ => default JNull (pg_body row) end;
          en_headers := []; en_expiresAt := pg_expiresAt row;
          en_status := match pg_statusCode row with None => en_pending | Some _ => en_completed end |}.
Definition pg_reserve (now : Z) (ctx : IdempotencyDecisionContext) (d : PgTable) : bool * PgTable :=
  match dc_tenantId ctx, pg_rows d !! row_key ctx with
  | Some _, None => (true, {| pg_rows := <[row_key ctx := {| pg_fingerprint := requestFingerprint ctx; pg_statusCode := None;
                               pg_body := None; pg_expiresAt := now + 1000 * ttl_seconds ctx |}]> (pg_rows d) |})
  | _, _ => (false, d)
  end.
Definition pg_persist (now : Z) (ctx : IdempotencyDecisionContext) (status : Z) (body : json) (headers : Headers)
    (d : PgTable) : bool * PgTable :=
  match dc_tenantId ctx, pg_rows d !! row_key ctx with
  | Some _, Some row =>
      if String.eqb (pg_fingerprint row) (requestFingerprint ctx)
      then (true, {| pg_rows := <[row_key ctx := {| pg_fingerprint := pg_fingerprint row; pg_statusCode := Some status;
                      pg_body := Some (match body with JUndefined => JNull | b => through b end);
                      pg_expiresAt := now + 1000 * ttl_seconds ctx |}]> (pg_rows d) |})
      else (false, d)
  | _, _ => (false, d)
  end.
Definition pg_clear (ctx : IdempotencyDecisionContext) (d : PgTable) : PgTable :=
  match dc_tenantId ctx, pg_rows d !! row_key ctx with
  | Some _, Some row =>
      if String.eqb (pg_fingerprint row) (requestFingerprint ctx) && bool_decide (~ is_Some (pg_body row))
      then {| pg_rows := delete (row_key ctx) (pg_rows d) |} else d
  | _, _ => d
  end.
#[export] Instance PgIdempotencyStore : DurableStore PgTable :=
  {| lookup := pg_lookup; reserve := pg_reserve; persistResponse := pg_persist; clearReservation := pg_clear |}.
End stores.
