(* ===== verification/IdempotencySystem.v ===== *)
(** * IdempotencySystem: concurrent requests over one backend and one durable store.

    The world the calls act on, the interleaving of any number of requests, and a typestate for
    programs: a request reserves before it runs its handler, runs it once, and clears its
    reservation only after a failure. *)
From S2P Require Import Prelude JsText JsJson Idempotency.
Local Open Scope Z_scope.

(** The Redis database (values with the time they expire), the durable store, and what the
    handlers did: [begun] and [ended] are histories, not part of the code. *)
Record World (D : Type) := {
  w_now : Z;
  entries : gmap string (StoredEntry * Z);
  locks : gmap string (string * Z);
  tables : D;
  uuids : nat;
  replays : nat;
  begun : list RowKey;
  ended : list (RowKey * HandlerOutcome) }.
Arguments w_now {D}. Arguments entries {D}. Arguments locks {D}. Arguments tables {D}.
Arguments uuids {D}. Arguments replays {D}. Arguments begun {D}. Arguments ended {D}.

Section world.
Context {D : Type} `{DurableStore D} (through : json → json) (uuid_at : nat → string) (handler : nat → HandlerOutcome).
Notation World := (World D).

Definition set_now n (w : World) : World := {| w_now := n; entries := entries w; locks := locks w; tables := tables w;
  uuids := uuids w; replays := replays w; begun := begun w; ended := ended w |}.
Definition set_entries e (w : World) : World := {| w_now := w_now w; entries := e; locks := locks w; tables := tables w;
  uuids := uuids w; replays := replays w; begun := begun w; ended := ended w |}.
Definition set_locks l (w : World) : World := {| w_now := w_now w; entries := entries w; locks := l; tables := tables w;
  uuids := uuids w; replays := replays w; begun := begun w; ended := ended w |}.
Definition set_tables d (w : World) : World := {| w_now := w_now w; entries := entries w; locks := locks w; tables := d;
  uuids := uuids w; replays := replays w; begun := begun w; ended := ended w |}.
Definition set_uuids n (w : World) : World := {| w_now := w_now w; entries := entries w; locks := locks w; tables := tables w;
  uuids := n; replays := replays w; begun := begun w; ended := ended w |}.
Definition set_replays n (w : World) : World := {| w_now := w_now w; entries := entries w; locks := locks w; tables := tables w;
  uuids := uuids w; replays := n; begun := begun w; ended := ended w |}.
Definition set_history b e (w : World) : World := {| w_now := w_now w; entries := entries w; locks := locks w;
  tables := tables w; uuids := uuids w; replays := replays w; begun := b; ended := e |}.

(** A Redis value that has not expired. *)
Definition alive {A} (now : Z) (o : option (A * Z)) : option A := p ← o; if p.2 <=? now then None else Some p.1.

(** The entry [JSON.parse] makes of the text of an entry. *)
Definition parsed (e : StoredEntry) : StoredEntry :=
  {| en_requestFingerprint := en_requestFingerprint e; en_statusCode := en_statusCode e; en_body := through (en_body e);
     en_headers := en_headers e; en_expiresAt := en_expiresAt e; en_status := en_status e |}.

Definition exec (ctx : IdempotencyDecisionContext) (c : call) (w : World) : reply c * World :=
  let k := compositeKey ctx in
  let now := w_now w in
  match c with
  | BackendGet => (alive now (entries w !! k), w)
  | BackendSet e => ((), set_entries (<[k := (parsed e, now + ttlMs ctx)]> (entries w)) w)
  | AcquireLock token =>
      match alive now (locks w !! k) with
      | Some _ => (false, w)
      | None => (true, set_locks (<[k := (token, now + ttlMs ctx)]> (locks w)) w)
      end
  | LockToken => (alive now (locks w !! k), w)
  | DropLock => ((), set_locks (delete k (locks w)) w)
  | IsLocked => (bool_decide (is_Some (alive now (locks w !! k))), w)
  | StoreLookup => (lookup now ctx (tables w), w)
  | StoreReserve => let '(r, d) := reserve now ctx (tables w) in (r, set_tables d w)
  | StorePersist status body headers =>
      let '(r, d) := persistResponse now ctx status body headers (tables w) in (r, set_tables d w)
  | StoreClear => ((), set_tables (clearReservation ctx (tables w)) w)
  | RandomUUID => (uuid_at (uuids w), set_uuids (S (uuids w)) w)
  | Now => (now, w)
  | IncrementReplay => ((), set_replays (S (replays w)) w)
  | HandlerBegin => ((), set_history (begun w ++ [row_key ctx]) (ended w) w)
  | HandlerEnd => let h := handler (length (ended w)) in (h, set_history (begun w) (ended w ++ [(row_key ctx, h)]) w)
  | Sleep => ((), w)
  end.

(** A request with no other in between. *)
Fixpoint alone {A} (ctx : IdempotencyDecisionContext) (p : prog A) (w : World) : outcome IdemError A * World :=
  match p with
  | Done o => (o, w)
  | Await c k => let '(r, w) := exec ctx c w in alone ctx (k (Ok r)) w
  end.

(** ** Concurrent requests *)

Record System := { world : World; procs : list (IdempotencyDecisionContext * prog Answer) }.

(** The calls the backend and the store answer. *)
Definition remote (c : call) : bool :=
  match c with
  | RandomUUID | Now | IncrementReplay | HandlerBegin | HandlerEnd | Sleep => false
  | _ => true
  end.

Context (o : Options) (backend store : bool).
(** [may_fail]: whether calls of the backend and the store may go unanswered. *)
Inductive step (may_fail : bool) : System → System → Prop :=
| step_arrive ctx s : step may_fail s {| world := world s; procs := procs s ++ [(ctx, run o backend store ctx)] |}
| step_call s i ctx c k :
    procs s !! i = Some (ctx, Await c k) →
    step may_fail s {| world := (exec ctx c (world s)).2; procs := <[i := (ctx, k (Ok (exec ctx c (world s)).1))]> (procs s) |}
| step_fail s i ctx c k :
    may_fail = true → remote c = true → procs s !! i = Some (ctx, Await c k) →
    step may_fail s {| world := world s; procs := <[i := (ctx, k (Throw Unavailable))]> (procs s) |}
| step_wait s d : 0 ≤ d → step may_fail s {| world := set_now (w_now (world s) + d) (world s); procs := procs s |}.

Definition fresh_world (d : D) (now : Z) : World :=
  {| w_now := now; entries := ∅; locks := ∅; tables := d; uuids := 0; replays := 0; begun := []; ended := [] |}.
Definition reachable (may_fail : bool) (d : D) (now : Z) : System → Prop :=
  rtc (step may_fail) {| world := fresh_world d now; procs := [] |}.

(** An executable scheduler: the next call of the [i]-th request, [n] times. *)
Definition advance (i : nat) (s : System) : System :=
  match procs s !! i with
  | Some (ctx, Await c k) =>
      {| world := (exec ctx c (world s)).2; procs := <[i := (ctx, k (Ok (exec ctx c (world s)).1))]> (procs s) |}
  | _ => s
  end.
Definition fail_call (i : nat) (s : System) : System :=
  match procs s !! i with
  | Some (ctx, Await c k) => if remote c then {| world := world s; procs := <[i := (ctx, k (Throw Unavailable))]> (procs s) |} else s
  | _ => s
  end.
Definition arrive (ctx : IdempotencyDecisionContext) (s : System) : System :=
  {| world := world s; procs := procs s ++ [(ctx, run o backend store ctx)] |}.
Lemma advance_steps b i n s : rtc (step b) s (Nat.iter n (advance i) s).
Proof.
  induction n as [|n IH]; [done|]. simpl. etrans; [exact IH|]. unfold advance.
  destruct (procs _ !! i) as [[ctx [|c k]]|] eqn:Hi; try done. apply rtc_once. by econstructor.
Qed.
Lemma fail_steps i s : rtc (step true) s (fail_call i s).
Proof.
  unfold fail_call. destruct (procs s !! i) as [[ctx [|c k]]|] eqn:Hi; try done.
  destruct (remote c) eqn:Hr; [|done]. apply rtc_once. by eapply step_fail.
Qed.
End world.

(** ** Typestate *)

(** A handler's outcome that is stored and replayed. *)
Definition settles (h : HandlerOutcome) : bool :=
  match h with
  | h_value status _ _ | h_http status _ _ => status <? 500
  | h_error => false
  end.

Inductive phase := ph_outside | ph_owner | ph_running | ph_settled | ph_failed.
#[export] Instance phase_eq_dec : EqDecision phase.
Proof. solve_decision. Defined.

(** [typed ph p Q]: run from the phase [ph], the program [p] reserves only from outside, begins
    its handler once it owns the key, ends it, stores what settles and clears what failed; it
    ends in a phase and an outcome of [Q]. *)
Fixpoint typed {A} (ph : phase) (p : prog A) (Q : phase → outcome IdemError A → Prop) : Prop :=
  match p with
  | Done o => Q ph o
  | Await c k =>
      match c return (outcome IdemError (reply c) → prog A) → Prop with
      | StoreReserve => λ k, ph = ph_outside ∧ typed ph_owner (k (Ok true)) Q ∧ typed ph_outside (k (Ok false)) Q
      | HandlerBegin => λ k, ph = ph_owner ∧ typed ph_running (k (Ok ())) Q
      | HandlerEnd => λ k, ph = ph_running ∧ ∀ h, typed (if settles h then ph_settled else ph_failed) (k (Ok h)) Q
      | StorePersist _ _ _ => λ k, ph = ph_settled ∧ ∀ r, typed ph_settled (k (Ok r)) Q
      | StoreClear => λ k, ph = ph_failed ∧ typed ph_outside (k (Ok ())) Q
      | _ => λ k, ∀ r, typed ph (k (Ok r)) Q
      end k
  end.

Section typed.
Context {A : Type}.
Implicit Types (Q : phase → outcome IdemError A → Prop).

Lemma typed_weaken ph (p : prog A) Q Q' : (∀ ph o, Q ph o → Q' ph o) → typed ph p Q → typed ph p Q'.
Proof.
  intros HQ. revert ph. induction p as [o|c k IH]; intros ph; simpl; [apply HQ|].
  destruct c; simpl in *; naive_solver.
Qed.
End typed.

Lemma typed_bind {A B} ph (p : prog A) (f : A → prog B) Q :
  typed ph p (λ ph' o, match o with Ok a => typed ph' (f a) Q | Throw e => Q ph' (Throw e) end) → typed ph (p ≫= f) Q.
Proof.
  revert ph. induction p as [[a|e]|c k IH]; intros ph; simpl; try done.
  destruct c; simpl in *; naive_solver.
Qed.
Lemma typed_catching {A} ph (p : prog A) h Q :
  typed ph p (λ ph' o, match o with Ok a => Q ph' (Ok a) | Throw e => typed ph' (h e) Q end) → typed ph (catching p h) Q.
Proof.
  revert ph. induction p as [[a|e]|c k IH]; intros ph; simpl; try done.
  destruct c; simpl in *; naive_solver.
Qed.
Lemma typed_finally {A} ph (p : prog A) (f : prog ()) Q :
  typed ph p (λ ph' o, typed ph' f (λ ph'' r, match r with Ok _ => Q ph'' o | Throw e => Q ph'' (Throw e) end)) →
  typed ph (finally p f) Q.
Proof.
  revert ph. induction p as [o|c k IH]; intros ph; simpl.
  - intros Ht. apply typed_bind. eapply typed_weaken; [|exact Ht]. by intros ph' [?|?].
  - destruct c; simpl in *; naive_solver.
Qed.

(** Programs without a call that changes the phase. *)
Definition quiet {A} (p : prog A) : Prop := ∀ ph Q, (∀ o, Q ph o) → typed ph p Q.
Lemma calm_bind {A B} (p : prog A) (f : A → prog B) : quiet p → (∀ a, quiet (f a)) → quiet (p ≫= f).
Proof. intros Hp Hf ph Q HQ. apply typed_bind, Hp. intros [a|e]; [by apply Hf|apply HQ]. Qed.
Lemma calm_done {A} o : quiet (@Done A o).
Proof. intros ph Q HQ. apply HQ. Qed.
Lemma calm_ret {A} (a : A) : quiet (mret a : prog A).
Proof. apply calm_done. Qed.
Lemma calm_call c : match c with StoreReserve | HandlerBegin | HandlerEnd | StorePersist _ _ _ | StoreClear => False | _ => True end →
  quiet (perform c).
Proof. intros Hc ph Q HQ. by destruct c; try done; simpl; intros r; apply HQ. Qed.
Create HintDb quiet discriminated.
#[export] Hint Resolve calm_bind calm_done calm_ret : quiet.
#[export] Hint Extern 1 (quiet _) => lazymatch goal with |- quiet (perform ?c) => exact (calm_call c I) end : quiet.
#[export] Hint Extern 2 (∀ _, quiet _) => intros ? : quiet.

Section run.
Context (o : Options) (backend : bool).

Lemma quiet_ready ctx found : quiet (ready ctx found).
Proof. unfold ready, raise. destruct found; [|auto with quiet]. case_match; auto with quiet. Qed.
Lemma quiet_when b p : quiet p → quiet (when b p).
Proof. unfold when. destruct b; auto with quiet. Qed.
Lemma quiet_maybe {A} b (p : prog A) : quiet p → quiet (maybe b p).
Proof. unfold maybe. destruct b; auto with quiet. Qed.
Hint Resolve quiet_ready quiet_when quiet_maybe : quiet.
Lemma quiet_get : quiet (backend_get backend).
Proof. unfold backend_get. case_match; auto with quiet. Qed.
Lemma quiet_lookup store : quiet (store_lookup store).
Proof. unfold store_lookup. case_match; auto with quiet. Qed.
Hint Resolve quiet_get quiet_lookup : quiet.
Lemma quiet_release token : quiet (releaseLock token).
Proof. unfold releaseLock. apply calm_bind; [auto with quiet|]. intros c. case_match; auto with quiet. Qed.
Hint Resolve quiet_release : quiet.
Lemma quiet_wait store n ctx : quiet (waitForReadyEntry backend store n ctx).
Proof.
  induction n as [|n IH]; cbn [waitForReadyEntry]; [auto with quiet|].
  apply calm_bind; [auto with quiet|]. intros x. apply calm_bind; [auto with quiet|]. intros [e|]; [auto with quiet|].
  apply calm_bind; [auto with quiet|]. intros y. apply calm_bind; [auto with quiet|]. intros [e|]; [auto with quiet|].
  apply calm_bind; [auto with quiet|]. intros l. destruct (default false l); auto with quiet.
Qed.

Lemma typed_execute ctx : typed ph_owner (execute backend true ctx) (λ _ _, True).
Proof.
  unfold execute. simpl. split; [done|]. split; [done|]. intros h. apply typed_catching.
  destruct h as [st b hs|st b hs|]; simpl.
  - unfold settle. destruct (st <? 500) eqn:Hst; simpl.
    + intros now. destruct backend; simpl; try intros ?; repeat split; done.
    + repeat split; done.
  - unfold settle. destruct (st <? 500) eqn:Hst; simpl.
    + intros now. destruct backend; simpl; try intros ?; repeat split; done.
    + repeat split; done.
  - repeat split; done.
Qed.

#[local] Opaque finally.
(** In strict mode with a durable store, a request follows the protocol. *)
Lemma typed_run ctx : durableStrict o = true → typed ph_outside (run o backend true ctx) (λ _ _, True).
Proof.
  intros Hs. unfold run. apply typed_bind, quiet_get. intros [found|]; [|done].
  apply typed_bind, quiet_ready. intros [[e|]|]; [simpl; done| |done].
  apply typed_bind, quiet_lookup. intros [row|]; [|done].
  apply typed_bind, quiet_ready. intros [[e|]|]; [|simpl; intros token|done].
  { apply typed_bind. simpl. intros _. apply typed_bind, quiet_when; [auto with quiet|]. by intros [[]|]. }
  apply typed_bind. eapply (quiet_maybe backend (perform (AcquireLock token))); [auto with quiet|]. intros [acq|]; [|done].
  apply typed_bind. unfold ownership. destruct (default false acq) eqn:Hacq; simpl.
  - rewrite Hs. split; [done|]. split; simpl.
    + apply typed_finally. eapply typed_weaken; [|apply typed_execute]. intros ph o' _.
      apply quiet_when; [apply quiet_release|]. by intros [].
    + apply typed_bind, quiet_when; [apply quiet_release|]. by intros [[]|].
  - apply typed_bind, quiet_wait. intros [[e|]|]; simpl; [done| |done]. rewrite Hs. done.
Qed.
End run.
