(* ===== verification/IdempotencyClaims.v ===== *)
(** * IdempotencyClaims: what a repeated request gets.

    In strict mode with a durable store, however requests interleave, a key settles once and no
    two handlers of a key run together; a stored response is replayed to the same request and
    refused to another; and the modes and failures in which a handler runs again. *)
From S2P Require Import Prelude JsText JsJson Idempotency IdempotencySystem.
Local Open Scope Z_scope.

(** ** The stores *)

#[export] Instance database_reserves_once through : @ReservesOnce DatabaseTable (DatabaseIdempotencyStore through).
Proof.
  refine {| has_row d k := bool_decide (is_Some (db_rows d !! k)) |}.
  - intros now ctx d d'. simpl. unfold database_reserve. destruct (db_rows d !! row_key ctx) eqn:Hr; [done|]. intros [= <-]. simpl.
    split; [done|by rewrite lookup_insert_eq].
  - intros now ctx d k. simpl. unfold database_reserve. destruct (db_rows d !! row_key ctx) eqn:Hr; [done|]. simpl.
    rewrite !bool_decide_eq_true. intros ?. apply lookup_insert_is_Some'. by right.
  - intros now ctx st b h d k. simpl. unfold database_persist. destruct (db_rows d !! row_key ctx) eqn:Hr; [|done]. simpl.
    rewrite !bool_decide_eq_true. intros ?. apply lookup_insert_is_Some'. by right.
  - intros ctx d k Hk. simpl. unfold database_clear. destruct (db_rows d !! row_key ctx) as [row|]; [|done].
    destruct (bool_decide (dr_status row = en_pending)); [|done]. simpl.
    rewrite !bool_decide_eq_true. by rewrite lookup_delete_ne.
Defined.

#[export] Instance pg_reserves_once through : @ReservesOnce PgTable (PgIdempotencyStore through).
Proof.
  refine {| has_row d k := bool_decide (is_Some (pg_rows d !! k)) |}.
  - intros now ctx d d'. simpl. unfold pg_reserve. destruct (dc_tenantId ctx); [|done]. destruct (pg_rows d !! row_key ctx) eqn:Hr; [done|].
    intros [= <-]. simpl. split; [done|by rewrite lookup_insert_eq].
  - intros now ctx d k. simpl. unfold pg_reserve. destruct (dc_tenantId ctx); [|done]. destruct (pg_rows d !! row_key ctx) eqn:Hr; [done|].
    simpl. rewrite !bool_decide_eq_true. intros ?. apply lookup_insert_is_Some'. by right.
  - intros now ctx st b h d k. simpl. unfold pg_persist. destruct (dc_tenantId ctx); [|done]. destruct (pg_rows d !! row_key ctx) eqn:Hr; [|done].
    destruct (String.eqb _ _); [|done]. simpl. rewrite !bool_decide_eq_true. intros ?. apply lookup_insert_is_Some'. by right.
  - intros ctx d k Hk. simpl. unfold pg_clear. destruct (dc_tenantId ctx); [|done]. destruct (pg_rows d !! row_key ctx); [|done].
    destruct (_ && _); [|done]. simpl. rewrite !bool_decide_eq_true. by rewrite lookup_delete_ne.
Defined.

(** ** Counting *)

Definition count {A} (f : A → bool) (l : list A) : nat := length (List.filter f l).
Lemma count_app {A} (f : A → bool) l1 l2 : count f (l1 ++ l2) = (count f l1 + count f l2)%nat.
Proof. unfold count. by rewrite List.filter_app, length_app. Qed.
Lemma count_one {A} (f : A → bool) x : count f [x] = Nat.b2n (f x).
Proof. unfold count. simpl. by destruct (f x). Qed.
Definition same (k : RowKey) {A} (f : A → RowKey) (x : A) : bool := bool_decide (f x = k).
(** The settled handlers of a key, and those that run. *)
Definition settled_of {D} (k : RowKey) (w : World D) : nat := count (λ p, same k fst p && settles p.2) (ended w).
Definition begun_of {D} (k : RowKey) (w : World D) : nat := count (same k id) (begun w).
Definition ended_of {D} (k : RowKey) (w : World D) : nat := count (same k fst) (ended w).

Section strict.
Context {D : Type} `{HD : ReservesOnce D} (through : json → json) (uuid_at : nat → string) (handler : nat → HandlerOutcome).
Context (o : Options) (backend : bool) (Hstrict : durableStrict o = true).
Notation step := (step through uuid_at handler o backend true false).
Notation reachable := (reachable through uuid_at handler o backend true false).

(** A request with the phase it is in. *)
Notation tagged := (IdempotencyDecisionContext * phase)%type.
Definition owning (ph : phase) : nat := match ph with ph_owner | ph_running | ph_failed => 1 | _ => 0 end.
Definition running (ph : phase) : nat := match ph with ph_running => 1 | _ => 0 end.
(** How many of the requests for [k] have a weight. *)
Definition of_key (k : RowKey) (f : phase → nat) (t : tagged) : nat := if decide (row_key t.1 = k) then f t.2 else 0.
Definition total (k : RowKey) (f : phase → nat) (ts : list tagged) : nat := sum_list_with (of_key k f) ts.

Lemma total_insert k f ts i t t' :
  ts !! i = Some t → (total k f (<[i := t']> ts) + of_key k f t = total k f ts + of_key k f t')%nat.
Proof.
  revert i. induction ts as [|u ts IH]; intros [|i] Hi; try done; simpl in *.
  - injection Hi as ->. unfold total. simpl. lia.
  - specialize (IH i Hi). unfold total in *. simpl. lia.
Qed.
Lemma total_pos k f ts i t : ts !! i = Some t → (of_key k f t ≤ total k f ts)%nat.
Proof.
  revert i. induction ts as [|u ts IH]; intros [|i] Hi; try done; simpl in *.
  - injection Hi as ->. unfold total. simpl. lia.
  - specialize (IH i Hi). unfold total in *. simpl. lia.
Qed.

Definition fits (p : IdempotencyDecisionContext * prog Answer) (t : tagged) : Prop :=
  p.1 = t.1 ∧ typed t.2 p.2 (λ _ _, True).
(** The reservation of a key stands while a request owns the key or has settled it. *)
Definition accounts (w : World D) (ts : list tagged) (k : RowKey) : Prop :=
  (total k owning ts + settled_of k w ≤ 1)%nat ∧
  ((1 ≤ total k owning ts + settled_of k w)%nat → has_row (tables w) k = true) ∧
  begun_of k w = (ended_of k w + total k running ts)%nat.
Definition sound (s : System (D:=D)) : Prop :=
  ∃ ts : list tagged, Forall2 fits (procs s) ts ∧ ∀ k, accounts (world s) ts k.

(** A call that moves the request [i] from its phase to [ph']. *)
Lemma sound_move (w : World D) ps i ctx ph' p' w' ts :
  Forall2 fits ps ts → typed ph' p' (λ _ _, True) →
  (∀ k, accounts w' (<[i := (ctx, ph')]> ts) k) → sound {| world := w'; procs := <[i := (ctx, p')]> ps |}.
Proof. intros Hf Ht Hk. exists (<[i := (ctx, ph')]> ts). split; [|exact Hk]. simpl. by apply Forall2_insert. Qed.

(** A call that moves no request and removes no row. *)
Lemma accounts_stay (w w' : World D) ts i t k :
  ts !! i = Some t → begun w' = begun w → ended w' = ended w →
  (has_row (tables w) k = true → has_row (tables w') k = true) → accounts w ts k → accounts w' (<[i := t]> ts) k.
Proof.
  intros Hi Hb He Hr (H1 & H2 & H3). rewrite list_insert_id by done.
  unfold accounts, settled_of, begun_of, ended_of in *. rewrite Hb, He. auto.
Qed.

Lemma of_tables k d (w : World D) :
  settled_of k (set_tables d w) = settled_of k w ∧ begun_of k (set_tables d w) = begun_of k w ∧
  ended_of k (set_tables d w) = ended_of k w ∧ tables (set_tables d w) = d.
Proof. done. Qed.

Lemma settled_add k (w : World D) b key h :
  settled_of k (set_history b (ended w ++ [(key, h)]) w)
  = (settled_of k w + if decide (key = k) then Nat.b2n (settles h) else 0)%nat.
Proof. unfold settled_of, same. cbn [ended set_history]. rewrite count_app, count_one. simpl. by case_decide as Hd; [rewrite bool_decide_eq_true_2|rewrite bool_decide_eq_false_2]. Qed.
Lemma ended_add k (w : World D) b key h :
  ended_of k (set_history b (ended w ++ [(key, h)]) w) = (ended_of k w + if decide (key = k) then 1 else 0)%nat.
Proof. unfold ended_of, same. cbn [ended set_history]. rewrite count_app, count_one. simpl. by case_decide as Hd; [rewrite bool_decide_eq_true_2|rewrite bool_decide_eq_false_2]. Qed.
Lemma begun_add k (w : World D) key e :
  begun_of k (set_history (begun w ++ [key]) e w) = (begun_of k w + if decide (key = k) then 1 else 0)%nat.
Proof. unfold begun_of, same, id. cbn [begun set_history]. rewrite count_app, count_one. by case_decide as Hd; [rewrite bool_decide_eq_true_2|rewrite bool_decide_eq_false_2]. Qed.

Ltac move_to i ctx ph' :=
  lazymatch goal with Ht : _ !! i = Some (ctx, ?ph), Hk : ∀ k, accounts ?w ?ts k |- accounts _ _ ?key =>
    pose proof (total_insert key owning ts i _ (ctx, ph') Ht) as Hown; pose proof (total_insert key running ts i _ (ctx, ph') Ht) as Hrun;
    pose proof (total_pos key owning ts i _ Ht) as Hpos;
    destruct (Hk key) as (H1 & H2 & H3); unfold of_key in Hown, Hrun, Hpos; simpl in Hown, Hrun, Hpos; unfold accounts;
    destruct (decide (row_key ctx = key)) as [Hkey|Hkey]
  end.

Lemma call_sound (w : World D) ps i ctx c k ts ph :
  Forall2 fits ps ts → (∀ k, accounts w ts k) → ts !! i = Some (ctx, ph) → typed ph (Await c k) (λ _ _, True) →
  sound {| world := (exec through uuid_at handler ctx c w).2; procs := <[i := (ctx, k (Ok (exec through uuid_at handler ctx c w).1))]> ps |}.
Proof using HD.
  intros Hf Hk Ht Hty.
  destruct c; simpl in Hty; try (apply (sound_move w _ i ctx ph _ _ _ Hf (Hty _)); intros key; by apply (accounts_stay w)).
  - (* acquireLock *)
    apply (sound_move w _ i ctx ph _ _ _ Hf (Hty _)). intros key. simpl. by destruct (alive _ _); apply (accounts_stay w).
  - (* reserve *)
    destruct Hty as (-> & Hyes & Hno). simpl. destruct (reserve (w_now w) ctx (tables w)) as [[|] d] eqn:Hr; simpl.
    + apply (sound_move w _ i ctx ph_owner _ _ _ Hf Hyes). intros key.
      destruct (reserve_granted _ _ _ _ Hr) as [Hbefore Hafter]. pose proof (reserve_keeps (w_now w) ctx (tables w) key) as Hkeep.
      rewrite Hr in Hkeep. move_to i ctx ph_owner.
      * subst key. rewrite Hbefore in H2. destruct (of_tables (row_key ctx) d w) as (-> & -> & -> & ->).
        split_and!; [|done|lia]. destruct (total _ owning ts + settled_of (row_key ctx) w)%nat eqn:Ht0; [lia|].
        discriminate H2. lia.
      * destruct (of_tables key d w) as (-> & -> & -> & ->). split_and!; [lia| |lia]. intros Hge. apply Hkeep, H2. lia.
    + apply (sound_move w _ i ctx ph_outside _ _ _ Hf Hno). intros key. apply (accounts_stay w); try done.
      pose proof (reserve_keeps (w_now w) ctx (tables w) key) as Hkeep. by rewrite Hr in Hkeep.
  - (* persistResponse *)
    destruct Hty as (-> & Hty). simpl. destruct (persistResponse (w_now w) ctx status body headers (tables w)) as [r d] eqn:Hr; simpl.
    apply (sound_move w _ i ctx ph_settled _ _ _ Hf (Hty r)). intros key. apply (accounts_stay w); try done.
    pose proof (persist_keeps (w_now w) ctx status body headers (tables w) key) as Hkeep. by rewrite Hr in Hkeep.
  - (* clearReservation *)
    destruct Hty as (-> & Hty). simpl. apply (sound_move w _ i ctx ph_outside _ _ _ Hf Hty). intros key.
    destruct (of_tables key (clearReservation ctx (tables w)) w) as (E1 & E2 & E3 & E4).
    move_to i ctx ph_outside; rewrite E1, E2, E3, E4; split_and!; try lia; intros Hge.
    apply clear_keeps; [congruence|]. apply H2. lia.
  - (* the handler begins *)
    destruct Hty as (-> & Hty). simpl. apply (sound_move w _ i ctx ph_running _ _ _ Hf Hty). intros key. move_to i ctx ph_running.
    all: rewrite begun_add; case_decide; try done.
    all: change (settled_of key (set_history ?b (ended w) w)) with (settled_of key w).
    all: change (ended_of key (set_history ?b (ended w) w)) with (ended_of key w).
    all: split_and!; [lia| |lia]; intros; apply H2; lia.
  - (* the handler ends *)
    destruct Hty as (-> & Hty). simpl. set (h := handler (length (ended w))).
    apply (sound_move w _ i ctx (if settles h then ph_settled else ph_failed) _ _ _ Hf (Hty h)). intros key.
    move_to i ctx (if settles h then ph_settled else ph_failed).
    all: rewrite settled_add, ended_add; case_decide; try done.
    all: change (begun_of key (set_history (begun w) ?e w)) with (begun_of key w).
    all: destruct (settles h); simpl in *; split_and!; try lia; intros; apply H2; lia.
Qed.

Lemma requests_step_sound s s' : step s s' → sound s → sound s'.
Proof using Hstrict HD.
  intros Hst (ts & Hf & Hk). destruct Hst as [ctx s|s i ctx c k Hi|s i ctx c k Hfail|s d Hd]; [| |done|by exists ts].
  - exists (ts ++ [(ctx, ph_outside)]). split.
    + apply Forall2_app; [done|]. constructor; [|constructor]. split; [done|]. by apply typed_run.
    + intros k. unfold accounts, total. rewrite !sum_list_with_app. cbn. unfold of_key. simpl.
      destruct (decide (row_key ctx = k)); rewrite !Nat.add_0_r; apply Hk.
  - destruct (Forall2_lookup_l _ _ _ _ _ Hf Hi) as ([ctx' ph] & Ht & Hctx & Hty). simpl in Hctx, Hty. subst ctx'.
    destruct s as [w ps]. by apply (call_sound w ps i ctx c k ts ph).
Qed.

Lemma requests_reachable_sound d now s : reachable d now s → sound s.
Proof using Hstrict HD.
  intros Hr. eapply (rtc_ind_r (λ s, sound s)); [|intros ? ? _ Hst; by apply requests_step_sound|exact Hr].
  exists []. split; [constructor|]. intros k. split_and!; [by apply Nat.le_0_l|intros Hge; by inversion Hge|done].
Qed.

(** C4. In strict mode with a durable store, as long as no call of the backend or of the store fails:
    however many requests interleave and whatever expires meanwhile, at most one handler of a key
    settles, and no two handlers of a key run at the same time. The condition is needed
    ([strict_settles_twice_on_failure]). *)
Theorem strict_settles_once d now s k :
  reachable d now s →
  (settled_of k (world s) ≤ 1)%nat ∧ (begun_of k (world s) ≤ S (ended_of k (world s)))%nat.
Proof using Hstrict HD.
  intros (ts & _ & Hk)%requests_reachable_sound. destruct (Hk k) as (H1 & _ & H3). split; [lia|].
  assert (total k running ts ≤ total k owning ts)%nat; [|lia].
  clear. unfold total. induction ts as [|[ctx ph] ts IH]; simpl; [done|].
  assert (of_key k running (ctx, ph) ≤ of_key k owning (ctx, ph))%nat; [|lia].
  unfold of_key. case_decide; [by destruct ph; simpl; lia|done].
Qed.
End strict.

(** ** One request at a time *)

Section alone.
Context (through : json → json) (uuid_at : nat → string) (handler : nat → HandlerOutcome) (o : Options).
Notation Tables := DatabaseTable.
#[local] Instance Store : DurableStore DatabaseTable := DatabaseIdempotencyStore through.
Notation alone := (alone through uuid_at handler).
Notation request store ctx := (alone ctx (run o true store ctx)).

(** What a handler that settles answers, and what is stored of it. *)
Definition answer_of (h : HandlerOutcome) : outcome IdemError Answer :=
  match h with
  | h_value _ body _ => Ok (handled body)
  | h_http status response _ => Throw (HandlerHttp status response)
  | h_error => Throw HandlerFailure
  end.
Definition stored_of (h : HandlerOutcome) : Z * json * Headers :=
  match h with
  | h_value status body headers | h_http status body headers => (status, body, headers)
  | h_error => (500, JNull, [])
  end.

(** Nothing is known of the key of [ctx]. *)
Definition unseen (ctx : IdempotencyDecisionContext) (w : World Tables) : Prop :=
  alive (w_now w) (entries w !! compositeKey ctx) = None ∧ db_rows (tables w) !! row_key ctx = None ∧
  alive (w_now w) (locks w !! compositeKey ctx) = None.
Definition same_key (ctx ctx' : IdempotencyDecisionContext) : Prop :=
  compositeKey ctx' = compositeKey ctx ∧ dc_tenantId ctx' = dc_tenantId ctx.

Lemma first_request ctx w h :
  unseen ctx w → 0 < ttlMs ctx → handler (length (ended w)) = h → settles h = true →
  let '(status, body, headers) := stored_of h in
  let '(a, w') := request true ctx w in
  a = answer_of h ∧ w_now w' = w_now w ∧ ended w' = ended w ++ [(row_key ctx, h)] ∧
  entries w' !! compositeKey ctx
    = Some (parsed through (completed_entry ctx status body headers (w_now w)), w_now w + ttlMs ctx) ∧
  db_rows (tables w') !! row_key ctx
    = Some {| dr_fingerprint := requestFingerprint ctx; dr_status := en_completed; dr_response := Some (status, through body);
              dr_headers := headers; dr_expiresAt := w_now w + 1000 * ttl_seconds ctx |} ∧
  locks w' !! compositeKey ctx = None.
Proof.
  intros (He & Hr & Hl) Httl Hh Hs. destruct w as [now es ls [rows] us rs bs hs]. simpl in He, Hr, Hl, Hh.
  assert (alive now (Some (uuid_at us, now + ttlMs ctx)) = Some (uuid_at us)) as Halive
    by (unfold alive; simpl; by rewrite (proj2 (Z.leb_gt _ _)) by lia).
  unfold run. simpl. rewrite He. simpl. unfold database_lookup. simpl. rewrite Hr. simpl. rewrite Hl. simpl.
  unfold database_reserve. simpl. rewrite Hr. simpl. rewrite Hh.
  destruct h as [st b hd|st b hd|]; [| |done]; simpl in Hs; unfold settle; simpl; rewrite Hs; simpl;
    unfold database_persist; simpl; rewrite lookup_insert_eq; simpl; rewrite lookup_insert_eq, Halive; simpl;
    rewrite bool_decide_eq_true_2 by done; simpl; rewrite !lookup_insert_eq, lookup_delete_eq; done.
Qed.

(** A later request, [d] milliseconds after; [lost]: the backend has lost its entries. *)
Definition later (lost : bool) (d : Z) (w : World Tables) : World Tables :=
  set_now (w_now w + d) (if lost then set_entries ∅ w else w).
Definition replay_of (lost : bool) (ctx : IdempotencyDecisionContext) (h : HandlerOutcome) : Answer :=
  let '(status, body, headers) := stored_of h in
  replayed status ((replayKeyHeaderName o, headerValue ctx) :: (replayMarkerHeaderName o, "true") :: headers)
    (if lost then match through body with JUndefined => JNull | b => b end else through body).

(** A request that settles (a value, or an [HttpException], with a status under 500) is answered
    with what its handler did, and while the stored response lasts the same request again is
    answered with the same status, headers and body, whether the backend still has the entry or
    the durable store alone; another request under the same key is refused. No handler runs. *)
Theorem settled_is_replayed ctx w h (lost : bool) d ctx' :
  unseen ctx w → 0 < ttlMs ctx → handler (length (ended w)) = h → settles h = true →
  same_key ctx ctx' → 0 ≤ d < (if lost then 1000 * ttl_seconds ctx else ttlMs ctx) →
  let '(a, w1) := request true ctx w in
  let '(a', w2) := request true ctx' (later lost d w1) in
  a = answer_of h ∧
  a' = (if String.eqb (requestFingerprint ctx) (requestFingerprint ctx') then Ok (replay_of lost ctx' h) else Throw Unprocessable) ∧
  ended w2 = ended w1 ∧ length (ended w1) = S (length (ended w)).
Proof.
  intros Hu Httl Hh Hs [Hk Ht] Hd. pose proof (first_request ctx w h Hu Httl Hh Hs) as Hfirst.
  unfold replay_of. destruct (stored_of h) as [[status body] headers].
  destruct (request true ctx w) as [a w1]. destruct Hfirst as (-> & Hnow & Hended & He & Hr & Hl).
  assert (length (ended w1) = S (length (ended w))) as Hlen by (rewrite Hended, length_app; simpl; lia).
  destruct w1 as [now es ls [rows] us rs bs hs]. simpl in *. subst now.
  assert (row_key ctx' = row_key ctx) as Hrow by (unfold row_key; by rewrite Hk, Ht).
  unfold run, later. destruct lost; simpl.
  - rewrite lookup_empty. simpl. unfold database_lookup. simpl. rewrite Hrow, Hr. simpl.
    rewrite (proj2 (Z.leb_gt _ _)) by lia. simpl. destruct (String.eqb _ _); simpl; [|done]. by destruct (through body).
  - rewrite Hk, He. simpl. rewrite (proj2 (Z.leb_gt _ _)) by lia. simpl. by destruct (String.eqb _ _).
Qed.

(** A reservation left behind blocks its key in strict mode: while a row of the key is there,
    expired or not, and no response, every request of the key gets 503 and leaves the store as
    it was. Nothing removes an expired reservation: a request clears only one it was granted. *)
Theorem reservation_blocks ctx w row :
  durableStrict o = true → db_rows (tables w) !! row_key ctx = Some row →
  (dr_status row = en_pending ∧ dr_fingerprint row = requestFingerprint ctx ∨ dr_expiresAt row ≤ w_now w) →
  alive (w_now w) (entries w !! compositeKey ctx) = None → alive (w_now w) (locks w !! compositeKey ctx) = None →
  let '(a, w') := request true ctx w in
  a = Throw (ServiceUnavailable "Unable to reserve durable idempotency entry") ∧ tables w' = tables w ∧ begun w' = begun w.
Proof.
  intros Hst Hr Hrow He Hl. destruct w as [now es ls [rows] us rs bs hs]. simpl in *.
  unfold run. simpl. rewrite He. simpl. unfold database_lookup. simpl. rewrite Hr. simpl.
  destruct (dr_expiresAt row <=? now) eqn:Hexp; simpl.
  - rewrite Hl. simpl. unfold database_reserve. simpl. rewrite Hr. simpl. rewrite Hst. simpl. rewrite lookup_insert_eq.
    by destruct (alive _ _) as [t|]; simpl; try (case_bool_decide; simpl).
  - destruct Hrow as [[Hp Hf]|]; [|lia]. rewrite Hf, String.eqb_refl, Hp. simpl.
    rewrite Hl. simpl. unfold database_reserve. simpl. rewrite Hr. simpl. rewrite Hst. simpl. rewrite lookup_insert_eq.
    by destruct (alive _ _) as [t|]; simpl; try (case_bool_decide; simpl).
Qed.
End alone.

(** ** Without a backend *)

(** Every call of [p], whatever the replies, is one of [P]; it ends in an outcome of [Q]. *)
Fixpoint calls {A} (P : call → Prop) (p : prog A) (Q : outcome IdemError A → Prop) : Prop :=
  match p with
  | Done o => Q o
  | Await c k => P c ∧ ∀ r, calls P (k r) Q
  end.
Lemma calls_weaken {A} P (p : prog A) (Q Q' : outcome IdemError A → Prop) : (∀ o, Q o → Q' o) → calls P p Q → calls P p Q'.
Proof. intros HQ. induction p as [o|c k IH]; simpl; [apply HQ|]. intros [? ?]. auto. Qed.
Lemma calls_bind {A B} P (p : prog A) (f : A → prog B) Q :
  calls P p (λ o, match o with Ok a => calls P (f a) Q | Throw e => Q (Throw e) end) → calls P (p ≫= f) Q.
Proof. induction p as [[a|e]|c k IH]; simpl; [done..|]. intros [? ?]. split; [done|]. intros r. by apply IH. Qed.
Lemma calls_finally {A} P (p : prog A) (f : prog ()) Q :
  calls P p (λ o, calls P f (λ r, match r with Ok _ => Q o | Throw e => Q (Throw e) end)) → calls P (finally p f) Q.
Proof.
  induction p as [o|c k IH]; simpl.
  - intros Hf. apply calls_bind. eapply calls_weaken; [|exact Hf]. by intros [].
  - intros [? ?]. split; [done|]. intros r. by apply IH.
Qed.
Lemma calls_catching {A} P (p : prog A) h Q :
  calls P p (λ o, match o with Ok a => Q (Ok a) | Throw e => calls P (h e) Q end) → calls P (catching p h) Q.
Proof. induction p as [[a|e]|c k IH]; simpl; [done..|]. intros [? ?]. split; [done|]. intros r. by apply IH. Qed.
Lemma calls_all {A} P (p : prog A) Q : calls P p (λ _, True) → (∀ o, Q o) → calls P p Q.
Proof. intros Hp HQ. eapply calls_weaken; [|exact Hp]. auto. Qed.

Section no_backend.
Context {D : Type} `{DurableStore D} (through : json → json) (uuid_at : nat → string) (handler : nat → HandlerOutcome)
  (o : Options) (store may_fail : bool).

Lemma calls_ready P ctx found Q : (∀ o, Q o) → calls P (ready ctx found) Q.
Proof. intros HQ. unfold ready. destruct found; [|apply HQ]. destruct (negb _); apply HQ. Qed.
Lemma calls_lookup (P : call → Prop) Q : P StoreLookup → (∀ o, Q o) → calls P (store_lookup store) Q.
Proof. intros HP HQ. unfold store_lookup. destruct store; simpl; [|apply HQ]. split; [done|]. intros r. apply HQ. Qed.
Lemma calls_wait (P : call → Prop) n ctx Q :
  P StoreLookup → P Sleep → (∀ o, Q o) → calls P (waitForReadyEntry false store n ctx) Q.
Proof.
  intros HP HS HQ. induction n as [|n IH]; cbn [waitForReadyEntry]; [apply HQ|]. simpl.
  apply calls_bind, calls_lookup; [done|]. intros [row|]; [|apply HQ].
  apply calls_bind, calls_ready. intros [[e|]|]; apply HQ.
Qed.
#[local] Opaque finally.

(** The calls of a request up to its handler, and those of its handler. *)
Definition early (c : call) : Prop := match c with StoreLookup | RandomUUID | IncrementReplay | Sleep => True | _ => False end.
Definition unreserved (c : call) : Prop := match c with StoreReserve => False | _ => True end.
Lemma calls_run P ctx :
  (∀ c, early c → P c) → (durableStrict o = false → calls P (execute false store ctx) (λ _, True)) →
  calls P (run o false store ctx) (λ _, True).
Proof.
  intros HP Hexec. unfold run. simpl. apply calls_bind, calls_lookup; [by apply HP|]. intros [row|]; [|done].
  apply calls_bind, calls_ready. intros [[e|]|]; [simpl; split; [by apply HP|by intros []]| |done]. simpl. split; [by apply HP|].
  intros [token|]; [|done]. apply calls_bind, calls_bind, calls_wait; [by apply HP..|].
  intros [[e|]|]; [|destruct (durableStrict o) eqn:Hs; [done|]|done].
  - simpl. split; [by apply HP|]. by intros [].
  - simpl. apply calls_finally. apply calls_all; [by apply Hexec|]. done.
Qed.
Lemma calls_clear Q : (∀ o, Q o) → calls unreserved (when store (perform StoreClear)) Q.
Proof. intros HQ. destruct store; simpl; [split; [done|]; intros r|]; apply HQ. Qed.
Lemma calls_settle ctx st b hs Q : (∀ o, Q o) → calls unreserved (settle false store ctx st b hs) Q.
Proof.
  intros HQ. unfold settle. destruct (st <? 500); [|by apply calls_clear]. simpl. split; [done|].
  intros [now|]; [|apply HQ]. destruct store; simpl; [split; [done|]; intros [r|]|]; apply HQ.
Qed.
Lemma calls_execute ctx : calls unreserved (execute false store ctx) (λ _, True).
Proof.
  unfold execute. simpl. split; [done|]. intros [[]|]; [|done]. split; [done|]. intros [h|]; [|done]. apply calls_catching.
  destruct h as [st b hs|st b hs|]; simpl.
  - apply calls_bind, calls_settle. intros [[]|e]; [done|]. apply calls_bind.
    destruct (http_exception e) as [[??]|]; [apply calls_settle|apply calls_clear]; by intros [].
  - apply calls_bind, calls_settle. by intros [].
  - apply calls_bind, calls_clear. by intros [].
Qed.

(** What holds of the world as long as only calls of [P] are made. *)
Lemma calls_invariant (P : call → Prop) (I : World D → Prop) d now s :
  (∀ ctx, calls P (run o false store ctx) (λ _, True)) →
  (∀ ctx c w, P c → I w → I (exec through uuid_at handler ctx c w).2) → (∀ n w, I w → I (set_now n w)) →
  I (fresh_world d now) → reachable through uuid_at handler o false store may_fail d now s → I (world s).
Proof.
  intros Hrun Hexec Hwait H0 Hr. cut (I (world s) ∧ Forall (λ p, calls P p.2 (λ _, True)) (procs s)); [by intros []|].
  eapply (rtc_ind_r (λ s, I (world s) ∧ Forall (λ p, calls P p.2 (λ _, True)) (procs s))); [| |exact Hr]; [by split; [|constructor]|].
  clear s Hr. intros s s' _ Hst (Hi & Hq).
  destruct Hst as [ctx s|s i ctx c k Hs|s i ctx c k _ _ Hs|s e Hd]; simpl; [| | |by split; [apply Hwait|]].
  - split; [done|]. apply Forall_app. split; [done|]. constructor; [apply Hrun|constructor].
  - destruct (proj1 (Forall_lookup _ _) Hq _ _ Hs) as [Hc Hk]. split; [by apply Hexec|]. apply Forall_insert; [done|]. apply Hk.
  - destruct (proj1 (Forall_lookup _ _) Hq _ _ Hs) as [Hc Hk]. split; [done|]. apply Forall_insert; [done|]. apply Hk.
Qed.

(** In strict mode without a connected backend no request ever runs its handler, whatever the
    durable store holds. *)
Theorem strict_needs_backend d now s :
  durableStrict o = true → reachable through uuid_at handler o false store may_fail d now s →
  begun (world s) = [] ∧ ended (world s) = [].
Proof.
  intros Hs. apply (calls_invariant early (λ w, begun w = [] ∧ ended w = [])); [|by intros ? [] ?| |done]; [|done].
  intros ctx. apply calls_run; [done|]. by rewrite Hs.
Qed.
End no_backend.

Section no_backend_default.
Context (through : json → json) (uuid_at : nat → string) (handler : nat → HandlerOutcome) (o : Options) (may_fail : bool).
#[local] Instance DefaultStore : DurableStore DatabaseTable := DatabaseIdempotencyStore through.

(** Outside strict mode, the durable store without a connected backend (what the module
    provides by default) never stores anything: no request reserves, so that no response finds
    its row, and every request runs its handler, however often it is repeated. *)
Theorem nothing_is_stored now s ctx :
  durableStrict o = false → (0 < waitAttempts o)%nat →
  reachable through uuid_at handler o false true may_fail {| db_rows := ∅ |} now s →
  db_rows (tables (world s)) = ∅ ∧
  begun (alone through uuid_at handler ctx (run o false true ctx) (world s)).2 = begun (world s) ++ [row_key ctx].
Proof.
  intros Hs Hn Hr. assert (db_rows (tables (world s)) = ∅) as Hrows.
  { revert Hr. apply (calls_invariant through uuid_at handler o true may_fail unreserved (λ w, db_rows (tables w) = ∅)); try done.
    - intros ctx'. apply calls_run; [by intros []|]. intros _. apply calls_execute.
    - intros ctx' c w Hc Hi. destruct c; simpl; try done.
      + by destruct (alive _ _).
      + unfold database_persist. rewrite Hi, lookup_empty. by simpl.
      + unfold database_clear. by rewrite Hi, lookup_empty. }
  split; [done|]. destruct (world s) as [now' es ls [rows] us rs bs hs]. simpl in *. subst rows.
  destruct (waitAttempts o) as [|n] eqn:Hw; [lia|].
  unfold run, ownership. simpl. unfold database_lookup. simpl. rewrite lookup_empty. simpl. rewrite Hw. simpl.
  unfold database_lookup. simpl. rewrite lookup_empty. simpl. rewrite Hs. simpl.
  destruct (handler (length hs)) as [st b hd|st b hd|]; unfold settle; simpl; try destruct (st <? 500); simpl;
    unfold database_persist, database_clear; simpl; by rewrite ?lookup_empty.
Qed.
End no_backend_default.

(** ** On concrete requests *)

Module Example.
Definition id_json (j : json) : json := j.
Definition request : RequestLike :=
  {| rq_headers := [("idempotency-key", hv_string " abc ")]; rq_method := Some "post"; rq_originalUrl := Some "/orders?draft=1";
     rq_url := None; rq_body := JObject [("total", JNumber "10")]; rq_tenantId := Some "t1"; rq_principal := Some "u1";
     rq_actor := None; rq_user := None |}.
Definition order : IdempotencyDecisionContext :=
  buildDecisionContext (λ s, s) String.leb request "Idempotency-Key" "abc" 60000.
Definition created : HandlerOutcome := h_value 201 (JString "order-1") [("Location", "/orders/1")].
Definition uuid (n : nat) : string := if Nat.eqb n 0 then "token-0" else "token-1".
Definition empty : DatabaseTable := {| db_rows := ∅ |}.
Definition strict : Options := {| defaultHeaderName := "Idempotency-Key"; replayKeyHeaderName := "X-Idempotency-Key";
  replayMarkerHeaderName := "Idempotency-Replayed"; op_ttlMs := 60000; durableStrict := true; waitAttempts := 2 |}.
#[local] Instance store : DurableStore DatabaseTable := DatabaseIdempotencyStore id_json.

Example order_is_guarded :
  intercept (λ s, s) String.leb strict false (Some {| md_transactional := false; md_headerName := None; md_ttlMs := None |}) request
  = guarded order.
Proof. vm_compute. reflexivity. Qed.

Section schedule.
Context (handler : nat → HandlerOutcome) (o : Options) (backend : bool).
Notation State := (System (D:=DatabaseTable)).
Definition start : State := {| world := fresh_world empty 0; procs := [] |}.
Definition go (i n : nat) (s : State) : State := Nat.iter n (advance id_json uuid handler i) s.
Definition come (s : State) : State := arrive o backend true order s.
Lemma go_steps b i n s : rtc (step id_json uuid handler o backend true b) s (go i n s).
Proof. apply advance_steps. Qed.
Lemma come_steps b s : rtc (step id_json uuid handler o backend true b) s (come s).
Proof. apply rtc_once. constructor. Qed.
(** The second request looks before the first has its lock, and asks for the lock after the
    first has released it. *)
Definition late_lock : State := go 1 30 (go 0 30 (go 1 2 (come (come start)))).
Lemma late_lock_reachable b : reachable id_json uuid handler o backend true b empty 0 late_lock.
Proof. unfold late_lock, reachable. do 2 (etrans; [|apply go_steps]). etrans; [|apply go_steps]. do 2 (etrans; [|apply come_steps]). done. Qed.
(** The backend does not answer the first request that stores its response. *)
Definition lost_set : State := go 1 30 (come (go 0 30 (fail_call 0 (go 0 8 (come start))))).
Lemma lost_set_reachable : reachable id_json uuid handler o backend true true empty 0 lost_set.
Proof.
  unfold lost_set, reachable. etrans; [|apply go_steps]. etrans; [|apply come_steps]. etrans; [|apply go_steps].
  etrans; [|apply fail_steps]. etrans; [|apply go_steps]. apply come_steps.
Qed.
End schedule.

Example strict_settles_once_witness :
  reachable id_json uuid (λ _, created) strict true true false empty 0 (late_lock (λ _, created) strict true) ∧
  settled_of (row_key order) (world (late_lock (λ _, created) strict true)) = 1%nat ∧
  (settled_of (row_key order) (world (late_lock (λ _, created) strict true)) ≤ 1)%nat.
Proof.
  split; [apply late_lock_reachable|]. split; [vm_compute; reflexivity|].
  exact (proj1 (strict_settles_once id_json uuid (λ _, created) strict true eq_refl empty 0 _ (row_key order) (late_lock_reachable _ _ _ _))).
Defined.
Example strict_needs_backend_witness :
  procs (late_lock (λ _, created) strict false) <> [] ∧ begun (world (late_lock (λ _, created) strict false)) = [].
Proof.
  split; [vm_compute; discriminate|].
  exact (proj1 (strict_needs_backend id_json uuid (λ _, created) strict true false empty 0 _ eq_refl (late_lock_reachable _ _ _ _))).
Defined.

Example settled_is_replayed_witness :
  let '(a, w1) := alone id_json uuid (λ _, created) order (run strict true true order) (fresh_world empty 0) in
  let '(a', w2) := alone id_json uuid (λ _, created) order (run strict true true order) (later true 59999 w1) in
  a = answer_of created ∧
  a' = (if String.eqb (requestFingerprint order) (requestFingerprint order) then Ok (replay_of id_json strict true order created)
        else Throw Unprocessable) ∧
  ended w2 = ended w1 ∧ length (ended w1) = 1%nat.
Proof.
  assert (Hu : unseen order (fresh_world empty 0)) by (split_and!; vm_compute; reflexivity).
  assert (Hd : 0 ≤ 59999 < 1000 * ttl_seconds order) by (split; vm_compute; [discriminate|reflexivity]).
  exact (settled_is_replayed id_json uuid (λ _, created) strict order (fresh_world empty 0) created true 59999 order
    Hu eq_refl eq_refl eq_refl (conj eq_refl eq_refl) Hd).
Defined.
Example nothing_is_stored_witness :
  db_rows (tables (world (late_lock (λ _, created) DEFAULT_OPTIONS false))) = ∅.
Proof.
  exact (proj1 (nothing_is_stored id_json uuid (λ _, created) DEFAULT_OPTIONS false 0 _ order eq_refl (Nat.lt_0_succ 11)
    (late_lock_reachable _ _ _ _))).
Defined.
Definition left_behind : DatabaseTable :=
  {| db_rows := <[row_key order := {| dr_fingerprint := "other"; dr_status := en_pending; dr_response := None; dr_headers := [];
                                      dr_expiresAt := 1000 |}]> ∅ |}.
Example reservation_blocks_witness :
  let '(a, w') := alone id_json uuid (λ _, created) order (run strict true true order) (fresh_world left_behind 5000) in
  a = Throw (ServiceUnavailable "Unable to reserve durable idempotency entry") ∧ tables w' = left_behind ∧ begun w' = [].
Proof.
  assert (Hrow : db_rows left_behind !! row_key order = Some {| dr_fingerprint := "other"; dr_status := en_pending;
    dr_response := None; dr_headers := []; dr_expiresAt := 1000 |}) by (vm_compute; reflexivity).
  assert (Hpast : 1000 ≤ 5000) by lia.
  exact (reservation_blocks id_json uuid (λ _, created) strict order (fresh_world left_behind 5000) _
    eq_refl Hrow (or_intror Hpast) eq_refl eq_refl).
Defined.
End Example.
#[local] Existing Instance Example.store.

(** Without strict mode the lock does not keep a key to one handler: a request that looked
    before another had its lock, and asks for the lock after the other has released it, does not
    look again, and its handler settles too; the first response is overwritten. *)
Theorem default_mode_settles_twice o :
  durableStrict o = false →
  reachable Example.id_json Example.uuid (λ _, Example.created) o true true false Example.empty 0
    (Example.late_lock (λ _, Example.created) o true) ∧
  settled_of (row_key Example.order) (world (Example.late_lock (λ _, Example.created) o true)) = 2%nat.
Proof.
  intros Ho. split; [apply Example.late_lock_reachable|]. destruct o as [n1 n2 n3 ttl st wait]. simpl in Ho. subst st.
  vm_compute. reflexivity.
Qed.
Example default_mode_settles_twice_witness :
  settled_of (row_key Example.order) (world (Example.late_lock (λ _, Example.created) DEFAULT_OPTIONS true)) = 2%nat.
Proof. exact (proj2 (default_mode_settles_twice DEFAULT_OPTIONS eq_refl)). Defined.

(** Nor does strict mode when a call of the backend fails: if the response of a handler that
    returned cannot be stored in the backend, the reservation is cleared as if the handler had
    failed, and the same request runs its handler again. *)
Theorem strict_settles_twice_on_failure :
  let s := Example.lost_set (λ _, Example.created) Example.strict true in
  reachable Example.id_json Example.uuid (λ _, Example.created) Example.strict true true true Example.empty 0 s ∧
  settled_of (row_key Example.order) (world s) = 2%nat.
Proof. split; [apply Example.lost_set_reachable|]. vm_compute. reflexivity. Qed.
