(* ===== verification/WorklistTypes.v ===== *)
(** * WorklistTypes: errors and data shared by the worklist components.

    [worklist/src/errors.ts], [types.ts] and [sql-errors.ts]. *)
From S2P Require Import Prelude JsText JsDate.
Local Open Scope Z_scope.

Inductive WorklistEntity := ent_queue | ent_item.
Inductive WorklistError :=
| WorklistNotFoundError (entity : WorklistEntity) (id : string)
| WorklistConflictError (message : string)
| WorklistInputError (message : string)
| WorklistForbiddenError (message : string)
| UnknownWorklistStrategyError (key : string)
| WorklistStrategyRegistrationError (key : string)
| WorklistCalendarRequiredError
| WorklistSchedulerRequiredError
| SqlError (code message : string)   (** an error of the database that has no class of its own *)
| RangeError
| TypeError
| Rejected.                          (** a call of a host function that was rejected *)

(** [mapWorklistSqlError]: what an error of the database becomes. *)
Definition mapWorklistSqlError (e : WorklistError) : WorklistError :=
  match e with
  | SqlError code message =>
      if String.eqb code "WK400" || String.eqb code "23503" || String.eqb code "23514" then WorklistInputError message
      else if String.eqb code "WK403" then WorklistForbiddenError message
      else if String.eqb code "WK404" then
        WorklistNotFoundError (if bool_decide (String.index 0 "queue" message = None) then ent_item else ent_queue) "unknown"
      else if String.eqb code "WK409" || String.eqb code "23505" then WorklistConflictError message
      else e
  | _ => e
  end.

(** A deadline of an item, its dates as given, and the default of a queue. *)
Inductive DateInput := di_date (time : option Z) | di_text (text : string).
Inductive WorklistDeadline :=
| dl_absolute (dueAt : DateInput)
| dl_business_days (businessDays : Z) (calendarKey : option string) (startAt : option DateInput).
Inductive WorklistQueueDefaultDeadline :=
| qd_elapsed (seconds : Z)
| qd_business_days (businessDays : Z) (calendarKey : option string).

Inductive DeadlineKind := dk_absolute | dk_business_days.
#[export] Instance DeadlineKind_eq_dec : EqDecision DeadlineKind.
Proof. solve_decision. Defined.
(** [dueAt] may be an invalid date. *)
Record ResolvedWorklistDeadline := {
  rd_kind : DeadlineKind;
  rd_dueAt : option Z;
  rd_businessDays : option Z;
  rd_calendarKey : option string }.
