(* ===== verification/BusinessCalendar.v ===== *)
(** * BusinessCalendar: business-day deadlines of worklist items.

    [worklist/src/tenant-business-calendar.ts] and [deadline.ts]. The dates of a zone, which
    [Intl.DateTimeFormat] knows, are a parameter, as are the callbacks of the host. A number
    that may be NaN is an [option]. *)
From stdpp Require Import pretty.
From S2P Require Import Prelude JsMap JsText JsDate WorklistTypes.
From Stdlib Require Import Ascii.
Local Open Scope Z_scope.

(** ** Civil dates *)

Definition DAY_MS : Z := 86400000.
Definition MAX_CIVIL_DATES : nat := 1098.

(** [/^[+-]\d{2}(?::?\d{2})?$/] *)
Definition offset_timezone (s : string) : bool :=
  match s with
  | String c s1 =>
      (Ascii.eqb c "+" || Ascii.eqb c "-") &&
      match take_digits 2 0 s1 with
      | Some (_, s2) =>
          String.eqb s2 EmptyString ||
          match take_digits 2 0 (default s2 (expect ":" s2)) with
          | Some (_, s3) => String.eqb s3 EmptyString
          | None => false
          end
      | None => false
      end
  | EmptyString => false
  end.

(** [setUTCFullYear(year, month - 1, day)], in days. *)
Definition civilDay (year month day : Z) : option Z :=
  t ← time_clip (make_day (year + (month - 1) / 12) ((month - 1) mod 12 + 1) day * DAY_MS); Some (t / DAY_MS).

(** [new Date(ordinal * DAY_MS)] *)
Definition date_of (ordinal : option Z) : option Z := o ← ordinal; time_clip (o * DAY_MS).

Definition padStart (n : nat) (s : string) : string :=
  String.string_of_list_ascii (replicate (n - String.length s) "0"%char) +:+ s.
Definition civilParts (ordinal : option Z) : option (Z * string) :=
  t ← date_of ordinal;
  let f := utc_fields t in
  Some (df_year f, padStart 4 (pretty (df_year f)) +:+ "-" +:+ padStart 2 (pretty (df_month f)) +:+ "-"
                     +:+ padStart 2 (pretty (df_day f))).
Definition civil_key (ordinal : option Z) : string := default "NaN-NaN-NaN" (snd <$> civilParts ordinal).

Definition validHoliday (value : option string) : bool :=
  match (s ← value;
         '(y, s1) ← take_digits 4 0 s; s2 ← expect "-" s1; '(m, s3) ← take_digits 2 0 s2; s4 ← expect "-" s3;
         '(d, s5) ← take_digits 2 0 s4; if String.eqb s5 EmptyString then Some (y, m, d) else None) with
  | Some (y, m, d) =>
      match t ← date_of (civilDay y m d); Some (utc_fields t) with
      | Some f => (df_year f =? y) && (df_month f =? m) && (df_day f =? d)
      | None => false
      end
  | None => false
  end.

(** ** The dates of a zone *)

(** The local year, month and day of an instant. *)
Definition Format : Type := Z → Z * Z * Z.

Definition localOrdinal (formatter : Format) (instant : option Z) : outcome WorklistError (option Z) :=
  match t ← instant; time_clip t with
  | Some t => let '(y, m, d) := formatter t in Ok (civilDay y m d)
  | None => Throw RangeError
  end.

Definition below (a b : option Z) : bool := match a, b with Some x, Some y => x <? y | _, _ => false end.
Definition equals (a b : option Z) : bool := match a, b with Some x, Some y => x =? y | _, _ => false end.

(** The bisection; [fuel] is enough once [upper - lower < 2 ^ fuel]. *)
Fixpoint bisect (fuel : nat) (formatter : Format) (ordinal lower upper : Z) : outcome WorklistError Z :=
  match fuel with
  | O => Ok lower
  | S fuel =>
      if lower <? upper then
        let middle := lower + (upper - lower) / 2 in
        local ← localOrdinal formatter (Some middle);
        if below local (Some ordinal) then bisect fuel formatter ordinal (middle + 1) upper
        else bisect fuel formatter ordinal lower middle
      else Ok lower
  end.
Definition startOfLocalDate (formatter : Format) (ordinal : option Z) : outcome WorklistError Z :=
  match ordinal with
  | None => _ ← localOrdinal formatter None; Throw RangeError
  | Some o =>
      lower ← bisect 29 formatter o (o * DAY_MS - 2 * DAY_MS) (o * DAY_MS + 2 * DAY_MS);
      local ← localOrdinal formatter (Some lower);
      if negb (equals local (Some o)) then Throw (WorklistInputError "Due date does not exist in the tenant timezone")
      else Ok lower
  end.

(** ** The calendar *)

(** What the host answers: anything, or a set of anything ([None]: not a string). *)
Inductive Supplied := not_a_set | a_set (members : list (option string)).

Section calendar.
(** [resolvedOptions().timeZone] and the dates of a timezone the constructor accepts; the host's
    timezone of a tenant ([None]: not a string) and holidays, the [n]-th call answered by its
    [n]-th reply. *)
Context (intl : string → option (string * Format)) (timezoneForTenant : string → outcome WorklistError (option string)).
Context (holidaysFor : nat → string → option string → option Z → outcome WorklistError Supplied).
Context (tenantId : string) (calendarKey : option string).

(** The number of calls made and the sets kept of them. *)
Notation Known := (nat * jsmap (option Z) (list string))%type.

Definition holidaysForYear (year : option Z) (known : Known) : outcome WorklistError (list string * Known) :=
  match jm_get year known.2 with
  | Some cached => Ok (cached, known)
  | None =>
      supplied ← holidaysFor known.1 tenantId calendarKey year;
      match supplied with
      | not_a_set => Throw (WorklistInputError "Tenant holidays must be a set of civil dates")
      | a_set members =>
          if negb (forallb validHoliday members) then Throw (WorklistInputError "Tenant holiday must be a valid YYYY-MM-DD date")
          else let set := omap id members in Ok (set, (S known.1, jm_set year set known.2))
      end
  end.

Definition working (ordinal : option Z) (holidays : list string) : bool :=
  negb (equals (utc_weekday <$> date_of ordinal) (Some 0)) && negb (equals (utc_weekday <$> date_of ordinal) (Some 6))
  && negb (bool_decide (civil_key ordinal ∈ holidays)).

Fixpoint walk (fuel : nat) (formatter : Format) (ordinal : option Z) (remaining : Z) (known : Known) : outcome WorklistError Z :=
  match fuel with
  | O => Throw (WorklistInputError "Business calendar exhausted")
  | S fuel =>
      let ordinal := Z.succ <$> ordinal in
      '(holidays, known) ← holidaysForYear (fst <$> civilParts ordinal) known;
      if working ordinal holidays then
        if remaining - 1 =? 0 then startOfLocalDate formatter (Z.succ <$> ordinal)
        else walk fuel formatter ordinal (remaining - 1) known
      else walk fuel formatter ordinal remaining known
  end.

Definition addBusinessDays (startAt : option Z) (businessDays : Z) : outcome WorklistError (option Z) :=
  if (businessDays <? 0) || (businessDays >? 366) then
    Throw (WorklistInputError "businessDays must be an integer from 0 through 366") else
  match startAt with
  | None => Throw (WorklistInputError "startAt must be a valid date")
  | Some start =>
      let invalid := WorklistInputError "Tenant timezone must be a valid IANA timezone" in
      timezone ← timezoneForTenant tenantId;
      match timezone with
      | None => Throw invalid
      | Some timezone =>
          if String.eqb timezone EmptyString || offset_timezone timezone then Throw invalid else
          match intl timezone with
          | None => Throw invalid
          | Some (resolved, formatter) =>
              if offset_timezone resolved then Throw invalid
              else if businessDays =? 0 then Ok (Some start)
              else
                ordinal ← localOrdinal formatter (Some start);
                due ← walk MAX_CIVIL_DATES formatter ordinal businessDays (0%nat, []);
                Ok (Some due)
          end
      end
  end.
End calendar.

(** ** Deadlines *)

(** [WorklistBusinessCalendar]: a calendar of the host, or [TenantBusinessCalendar]. *)
Definition Calendar : Type := string → option string → option Z → Z → outcome WorklistError (option Z).

Definition validDate (value : DateInput) (field : string) : outcome WorklistError Z :=
  match (match value with di_date t => t | di_text s => date_parse s end) with
  | Some t => Ok t
  | None => Throw (WorklistInputError (field +:+ " must be a valid date"))
  end.

Section deadline.
Context (tenantId : string) (now : Z) (calendar : option Calendar).

Definition resolveBusinessDays (businessDays : Z) (calendarKey : option string) (startAt : option Z) :
    outcome WorklistError ResolvedWorklistDeadline :=
  match calendar with
  | None => Throw WorklistCalendarRequiredError
  | Some addBusinessDays =>
      let start := default now startAt in
      dueAt ← addBusinessDays tenantId calendarKey (Some start) businessDays;
      resolved ← validDate (di_date dueAt) "business calendar result";
      if resolved <? start then Throw (WorklistInputError "business calendar returned a deadline before its start")
      else Ok {| rd_kind := dk_business_days; rd_dueAt := Some resolved; rd_businessDays := Some businessDays;
                 rd_calendarKey := calendarKey |}
  end.
Definition absolute (dueAt : option Z) : ResolvedWorklistDeadline :=
  {| rd_kind := dk_absolute; rd_dueAt := dueAt; rd_businessDays := None; rd_calendarKey := None |}.
(** A calendar key or a start that is the empty string counts as none. *)
Definition given (key : option string) : option string := k ← key; if String.eqb k EmptyString then None else Some k.

Definition resolveWorklistDeadline (deadline : option WorklistDeadline) (queueDefault : option WorklistQueueDefaultDeadline) :
    outcome WorklistError (option ResolvedWorklistDeadline) :=
  match deadline with
  | Some (dl_absolute dueAt) => t ← validDate dueAt "dueAt"; Ok (Some (absolute (Some t)))
  | Some (dl_business_days n key startAt) =>
      start ← match startAt with
              | None | Some (di_text EmptyString) => Ok None
              | Some s => t ← validDate s "startAt"; Ok (Some t)
              end;
      Some <$> resolveBusinessDays n (given key) start
  | None =>
      match queueDefault with
      | Some (qd_elapsed seconds) => Ok (Some (absolute (time_clip (now + seconds * 1000))))
      | Some (qd_business_days n key) => Some <$> resolveBusinessDays n (given key) None
      | None => Ok None
      end
  end.
End deadline.
