(* ===== verification/CalendarClaims.v ===== *)
(** * CalendarClaims: what a business-day deadline is.

    The deadline is the first instant of the local date after the [n]-th business day that
    follows the date of the start; holidays exhaust the search only when there are many; an
    item's own deadline goes before the one of its queue. *)
From S2P Require Import Prelude JsMap JsText JsDate WorklistTypes BusinessCalendar.
Local Open Scope Z_scope.
#[local] Opaque civilParts working utc_fields.

(** ** Business days *)

Section days.
Context (H : option Z → list string).   (** the holidays of a year *)

Definition business (day : Z) : bool := working (Some day) (H (fst <$> civilParts (Some day))).
(** The business days among the [k] days after [o]. *)
Definition business_days (o : Z) (k : nat) : Z := Z.of_nat (length (List.filter business (seqZ (o + 1) (Z.of_nat k)))).

Fixpoint nth_business (fuel : nat) (o remaining : Z) : option Z :=
  match fuel with
  | O => None
  | S fuel =>
      if business (o + 1) then if remaining =? 1 then Some (o + 1) else nth_business fuel (o + 1) (remaining - 1)
      else nth_business fuel (o + 1) remaining
  end.

Lemma business_days_S o k : business_days o (S k) = (if business (o + 1) then 1 else 0) + business_days (o + 1) k.
Proof.
  unfold business_days. rewrite seqZ_cons by lia. replace (Z.succ (o + 1)) with (o + 1 + 1) by lia.
  replace (Z.pred (Z.of_nat (S k))) with (Z.of_nat k) by lia. simpl. destruct (business (o + 1)); simpl; lia.
Qed.
Lemma business_days_nonneg o k : 0 ≤ business_days o k.
Proof. unfold business_days. lia. Qed.

Lemma nth_business_spec fuel o n :
  1 ≤ n →
  match nth_business fuel o n with
  | Some d => o < d ≤ o + Z.of_nat fuel ∧ business d = true ∧ business_days o (Z.to_nat (d - o)) = n
  | None => business_days o fuel < n
  end.
Proof.
  revert o n. induction fuel as [|fuel IH]; intros o n Hn; cbn [nth_business]; [unfold business_days; simpl; lia|].
  rewrite business_days_S. destruct (business (o + 1)) eqn:Hb.
  - destruct (Z.eqb_spec n 1) as [->|].
    + split; [lia|]. split; [done|]. replace (o + 1 - o) with 1 by lia. change (Z.to_nat 1) with 1%nat.
      rewrite business_days_S, Hb. unfold business_days. simpl. lia.
    + specialize (IH (o + 1) (n - 1) ltac:(lia)). destruct (nth_business fuel (o + 1) (n - 1)) as [d|]; [|lia].
      destruct IH as (Hd & Hbd & Hc). split; [lia|]. split; [done|].
      replace (Z.to_nat (d - o)) with (S (Z.to_nat (d - (o + 1)))) by lia. rewrite business_days_S, Hb. lia.
  - specialize (IH (o + 1) n ltac:(lia)). destruct (nth_business fuel (o + 1) n) as [d|]; [|lia].
    destruct IH as (Hd & Hbd & Hc). split; [lia|]. split; [done|].
    replace (Z.to_nat (d - o)) with (S (Z.to_nat (d - (o + 1)))) by lia. rewrite business_days_S, Hb. lia.
Qed.
End days.

(** ** Enough days *)

(** The day of the week of a date, and the dates of [n] in a row that satisfy [p]. *)
Definition weekday (day : Z) : bool := negb ((day + 4) mod 7 =? 0) && negb ((day + 4) mod 7 =? 6).
Fixpoint days_with (p : Z → bool) (n : nat) (o : Z) : Z :=
  match n with O => 0 | S n => (if p (o + 1) then 1 else 0) + days_with p n (o + 1) end.

Lemma days_with_app p n m o : days_with p (n + m) o = days_with p n o + days_with p m (o + Z.of_nat n).
Proof.
  revert o. induction n as [|n IH]; intros o; simpl; [by rewrite Z.add_0_r|].
  rewrite IH. replace (o + Z.of_nat (S n)) with (o + 1 + Z.of_nat n) by lia. lia.
Qed.
Lemma days_with_le p n o : 0 ≤ days_with p n o ≤ Z.of_nat n.
Proof. revert o. induction n as [|n IH]; intros o; simpl; [lia|]. specialize (IH (o + 1)). destruct (p (o + 1)); lia. Qed.
Lemma week_of_weekdays o : days_with weekday 7 o = 5.
Proof.
  simpl. unfold weekday. rewrite !Z.add_0_r. repeat rewrite <- Z.add_assoc. simpl.
  assert (∀ i, (o + i) mod 7 = (o mod 7 + i) mod 7) as Hmod by (intros; by rewrite Zplus_mod_idemp_l).
  rewrite !Hmod. pose proof (Z.mod_pos_bound o 7 ltac:(lia)). set (r := o mod 7) in *. clearbody r.
  assert (r = 0 ∨ r = 1 ∨ r = 2 ∨ r = 3 ∨ r = 4 ∨ r = 5 ∨ r = 6) as Hr by lia.
  by destruct Hr as [->|[->|[->|[->|[->|[->| ->]]]]]].
Qed.
Lemma weeks_of_weekdays k o : days_with weekday (k * 7) o = 5 * Z.of_nat k.
Proof. revert o. induction k as [|k IH]; intros o; [done|]. cbn [Nat.mul]. rewrite days_with_app, week_of_weekdays, IH. lia. Qed.
(** Six days in a row have at least four weekdays. *)
Lemma weekdays_of_dates o : 784 ≤ days_with weekday 1098 o.
Proof.
  change 1098%nat with (156 * 7 + 6)%nat. rewrite days_with_app, weeks_of_weekdays.
  generalize (o + Z.of_nat (156 * 7)). intros o'. pose proof (week_of_weekdays o') as Hw.
  change 7%nat with (6 + 1)%nat in Hw. rewrite days_with_app in Hw. pose proof (days_with_le weekday 1 (o' + Z.of_nat 6)). lia.
Qed.

Section enough.
Context (H : option Z → list string).
(** A holiday on a weekday. *)
Definition lost (day : Z) : bool := weekday day && bool_decide (civil_key (Some day) ∈ H (fst <$> civilParts (Some day))).

#[local] Transparent working.
Lemma business_split day : Z.abs day ≤ 100000000 → business H day = weekday day && negb (lost day).
Proof.
  intros Hd. unfold business, working, lost, weekday, date_of. simpl. unfold time_clip.
  rewrite (proj2 (Z.leb_le _ _)) by (unfold DAY_MS, MAX_TIME; lia). simpl. unfold utc_weekday.
  change MS_PER_DAY with DAY_MS. rewrite Z.div_mul by done.
  by destruct (negb _ && negb _); simpl.
Qed.
#[local] Opaque working.
Lemma business_days_lost k o :
  Z.abs o + Z.of_nat k ≤ 100000000 → business_days H o k = days_with weekday k o - days_with lost k o.
Proof.
  revert o. induction k as [|k IH]; intros o Ho; [done|].
  rewrite business_days_S, business_split, IH by lia. simpl. unfold lost at 1 3. destruct (weekday (o + 1)), (bool_decide _); simpl; lia.
Qed.
End enough.

(** ** Local dates *)

(** [L] gives the local date of an instant: the formatter shows it, it is less than a day from
    the date of UTC, and does not go back. *)
Record zone (formatter : Format) (L : Z → Z) : Prop := {
  zone_shows t : Z.abs t ≤ MAX_TIME - 2 * DAY_MS → (let '(y, m, d) := formatter t in civilDay y m d) = Some (L t);
  zone_near t : t / DAY_MS - 1 ≤ L t ≤ t / DAY_MS + 1;
  zone_mono t t' : t ≤ t' → L t ≤ L t' }.

Section local.
Context (f : Format) (L : Z → Z) (Hz : zone f L).

Lemma localOrdinal_shows t : Z.abs t ≤ MAX_TIME - 2 * DAY_MS → localOrdinal f (Some t) = Ok (Some (L t)).
Proof.
  intros Ht. unfold localOrdinal. simpl. unfold time_clip. rewrite (proj2 (Z.leb_le _ _)) by (unfold DAY_MS in *; lia).
  pose proof (zone_shows _ _ Hz t Ht) as Hs. destruct (f t) as [[y m] d]. by rewrite Hs.
Qed.

Lemma bisect_spec fuel o lower upper :
  lower ≤ upper → upper - lower < 2 ^ Z.of_nat fuel →
  Z.abs lower ≤ MAX_TIME - 2 * DAY_MS → Z.abs upper ≤ MAX_TIME - 2 * DAY_MS →
  (∀ t, t < lower → L t < o) → o ≤ L upper →
  ∃ r, bisect fuel f o lower upper = Ok r ∧ lower ≤ r ≤ upper ∧ (∀ t, t < r → L t < o) ∧ o ≤ L r.
Proof using Hz.
  revert lower upper. induction fuel as [|fuel IH]; intros lower upper Hle Hw Hl Hu Hlow Hup.
  { assert (lower = upper) as -> by (change (2 ^ Z.of_nat 0) with 1 in Hw; lia). exists upper. repeat split; auto; lia. }
  cbn [bisect]. destruct (Z.ltb_spec lower upper) as [Hlt|]; [|assert (lower = upper) as -> by lia; exists upper; repeat split; auto; lia].
  set (middle := lower + (upper - lower) / 2).
  assert (lower ≤ middle < upper) as Hm by (unfold middle; Z.div_mod_to_equations; lia).
  rewrite Nat2Z.inj_succ, Z.pow_succ_r in Hw by lia.
  rewrite localOrdinal_shows by lia. simpl. destruct (Z.ltb_spec (L middle) o) as [Hlo|Hhi].
  - destruct (IH (middle + 1) upper) as (r & -> & Hr & Hb & Ho); [lia|unfold middle; Z.div_mod_to_equations; lia|lia|lia| |done|].
    { intros t Ht. pose proof (zone_mono _ _ Hz t middle ltac:(lia)). lia. }
    exists r. repeat split; auto; lia.
  - destruct (IH lower middle) as (r & -> & Hr & Hb & Ho); [lia|unfold middle; Z.div_mod_to_equations; lia|lia|lia|done|done|].
    exists r. repeat split; auto; lia.
Qed.

(** The first instant of a local date, unless the zone skips it. *)
Lemma startOfLocalDate_spec o :
  Z.abs o ≤ 100000000 - 10 →
  (∃ due, startOfLocalDate f (Some o) = Ok due ∧ L due = o ∧ ∀ t, t < due → L t < o) ∨
  (startOfLocalDate f (Some o) = Throw (WorklistInputError "Due date does not exist in the tenant timezone") ∧ ∀ t, L t ≠ o).
Proof using Hz.
  intros Ho. unfold startOfLocalDate.
  destruct (bisect_spec 29 o (o * DAY_MS - 2 * DAY_MS) (o * DAY_MS + 2 * DAY_MS)) as (r & Hr & Hb & Hbelow & Habove);
    try (unfold DAY_MS, MAX_TIME in *; lia).
  { intros t Ht. pose proof (zone_near _ _ Hz t). unfold DAY_MS in *. Z.div_mod_to_equations. lia. }
  { pose proof (zone_near _ _ Hz (o * DAY_MS + 2 * DAY_MS)). unfold DAY_MS in *. Z.div_mod_to_equations. lia. }
  rewrite Hr. simpl. rewrite localOrdinal_shows by (unfold DAY_MS, MAX_TIME in *; lia). simpl.
  destruct (Z.eqb_spec (L r) o) as [He|Hne]; simpl.
  - left. exists r. auto.
  - right. split; [done|]. intros t Ht. destruct (Z.lt_ge_cases t r) as [Hlt|Hge].
    + specialize (Hbelow t Hlt). lia.
    + pose proof (zone_mono _ _ Hz r t Hge). lia.
Qed.
End local.

(** ** The deadline *)

Section deadline_days.
#[local] Opaque startOfLocalDate MAX_CIVIL_DATES.
Context (intl : string → option (string * Format)) (timezoneForTenant : string → outcome WorklistError (option string)).
Context (holidaysFor : nat → string → option string → option Z → outcome WorklistError Supplied).
Context (tenantId : string) (calendarKey : option string).
(** The host answers with a timezone and, for each year, with the same valid holidays. *)
Context (timezone resolved : string) (f : Format) (L : Z → Z) (H : option Z → list string).
Context (Htz : timezoneForTenant tenantId = Ok (Some timezone)) (Hne : timezone ≠ EmptyString).
Context (Hoff : offset_timezone timezone = false) (Hintl : intl timezone = Some (resolved, f)) (Hres : offset_timezone resolved = false).
Context (Hz : zone f L).
Context (Hhol : ∀ n year, holidaysFor n tenantId calendarKey year = Ok (a_set (Some <$> H year))).
Context (Hvalid : ∀ year, forallb validHoliday (Some <$> H year) = true).

Notation addBusinessDays := (addBusinessDays intl timezoneForTenant holidaysFor tenantId calendarKey).
Notation walk := (walk holidaysFor tenantId calendarKey).

Lemma holidays_known year known :
  (∀ y set, jm_get y known.2 = Some set → set = H y) →
  ∃ known', holidaysForYear holidaysFor tenantId calendarKey year known = Ok (H year, known') ∧
            ∀ y set, jm_get y known'.2 = Some set → set = H y.
Proof using Hhol Hvalid.
  intros Hk. unfold holidaysForYear. destruct (jm_get year known.2) as [cached|] eqn:Hc.
  { apply Hk in Hc as ->. eauto. }
  rewrite Hhol. simpl. rewrite Hvalid. simpl. eexists. split.
  - f_equal. f_equal. clear. induction (H year) as [|h l IH]; simpl; [done|]. by f_equal.
  - intros y set. simpl. rewrite jm_get_set. case_decide; [|apply Hk]. intros [= <-]. subst.
    clear. induction (H year) as [|h l IH]; simpl; [done|]. by f_equal.
Qed.

Lemma walk_spec fuel o n known :
  1 ≤ n → (∀ y set, jm_get y known.2 = Some set → set = H y) →
  walk fuel f (Some o) n known =
  match nth_business H fuel o n with
  | Some d => startOfLocalDate f (Some (d + 1))
  | None => Throw (WorklistInputError "Business calendar exhausted")
  end.
Proof using Hhol Hvalid.
  revert o n known. induction fuel as [|fuel IH]; intros o n known Hn Hk; cbn [BusinessCalendar.walk nth_business]; [done|].
  simpl fmap. replace (Z.succ o) with (o + 1) by lia.
  destruct (holidays_known (fst <$> civilParts (Some (o + 1))) known Hk) as (known' & -> & Hk'). simpl.
  change (working (Some (o + 1)) (H (fst <$> civilParts (Some (o + 1))))) with (business H (o + 1)).
  destruct (business H (o + 1)); [|by apply IH].
  destruct (Z.eqb_spec n 1) as [->|]; simpl.
  - done.
  - rewrite (proj2 (Z.eqb_neq _ _)) by lia. apply IH; [lia|done].
Qed.

Lemma due_in_range start d :
  Z.abs start ≤ MAX_TIME - 1200 * DAY_MS → L start < d ≤ L start + Z.of_nat MAX_CIVIL_DATES → Z.abs (d + 1) ≤ 100000000 - 10.
Proof using Hz.
  change (Z.of_nat MAX_CIVIL_DATES) with 1098. intros Hs Hd. pose proof (zone_near _ _ Hz start).
  unfold DAY_MS, MAX_TIME in *. Z.div_mod_to_equations. lia.
Qed.
Lemma addBusinessDays_walk start n :
  1 ≤ n ≤ 366 → Z.abs start ≤ MAX_TIME - 1200 * DAY_MS →
  addBusinessDays (Some start) n =
  match nth_business H MAX_CIVIL_DATES (L start) n with
  | Some d => Some <$> startOfLocalDate f (Some (d + 1))
  | None => Throw (WorklistInputError "Business calendar exhausted")
  end.
Proof using All.
  intros Hn Hs. unfold BusinessCalendar.addBusinessDays. generalize MAX_CIVIL_DATES. intros fuel.
  rewrite (proj2 (Z.ltb_ge _ _)) by lia. replace (n >? 366) with false by lia. rewrite Htz. cbn [orb mbind outcome_bind].
  rewrite (proj2 (String.eqb_neq _ _) Hne), Hoff. cbn [orb]. rewrite Hintl, Hres, (proj2 (Z.eqb_neq n 0)) by lia.
  rewrite (localOrdinal_shows f L Hz) by (unfold DAY_MS, MAX_TIME in *; lia). cbn [mbind outcome_bind].
  rewrite (walk_spec fuel (L start) n (0%nat, [])) by (done || lia).
  by destruct (nth_business H fuel (L start) n).
Qed.

(** C35. A business-day deadline is the first instant of the local date after the [n]-th business
    day that follows the local date of the start; the search gives up only when fewer than [n] of the
    next 1098 dates are business days, and the deadline has no instant only when the zone skips
    its date. *)
Theorem deadline_after_business_days start n :
  1 ≤ n ≤ 366 → Z.abs start ≤ MAX_TIME - 1200 * DAY_MS →
  let o := L start in
  let due := addBusinessDays (Some start) n in
  (business_days H o MAX_CIVIL_DATES < n ∧ due = Throw (WorklistInputError "Business calendar exhausted")) ∨
  ∃ d, o < d ≤ o + Z.of_nat MAX_CIVIL_DATES ∧ business H d = true ∧ business_days H o (Z.to_nat (d - o)) = n ∧
    ((∃ t, due = Ok (Some t) ∧ L t = d + 1 ∧ ∀ t', t' < t → L t' ≤ d) ∨
     (due = Throw (WorklistInputError "Due date does not exist in the tenant timezone") ∧ ∀ t, L t ≠ d + 1)).
Proof using All.
  intros Hn Hs o due. unfold due. rewrite addBusinessDays_walk by done. fold o.
  pose proof (nth_business_spec H MAX_CIVIL_DATES o n ltac:(lia)) as Hnth.
  destruct (nth_business H MAX_CIVIL_DATES o n) as [d|]; [|by left].
  destruct Hnth as (Hd & Hb & Hc). right. exists d. split; [done|]. split; [done|]. split; [done|].
  pose proof (due_in_range start d Hs Hd) as Hrange.
  destruct (startOfLocalDate_spec f L Hz (d + 1) Hrange) as [(t & -> & Ht & Hbefore)|[-> Hskip]].
  - left. exists t. split; [done|]. split; [done|]. intros t' Ht'. specialize (Hbefore t' Ht'). lia.
  - right. done.
Qed.

(** While at most 418 of the next 1098 dates are holidays on a weekday, whatever the number of
    days asked for, the search finds a deadline after the start, or throws because the zone skips its
    date. *)
Theorem deadline_is_found start n :
  1 ≤ n ≤ 366 → Z.abs start ≤ MAX_TIME - 1200 * DAY_MS →
  days_with (lost H) 1098 (L start) ≤ 418 →
  (∃ t, addBusinessDays (Some start) n = Ok (Some t) ∧ start < t) ∨
  ∃ d, addBusinessDays (Some start) n = Throw (WorklistInputError "Due date does not exist in the tenant timezone") ∧ ∀ t, L t ≠ d.
Proof using All.
  intros Hn Hs Hlost. rewrite addBusinessDays_walk by done.
  pose proof (nth_business_spec H MAX_CIVIL_DATES (L start) n ltac:(lia)) as Hnth.
  destruct (nth_business H MAX_CIVIL_DATES (L start) n) as [d|].
  - destruct Hnth as (Hd & _). destruct (startOfLocalDate_spec f L Hz (d + 1)) as [(t & -> & Ht & _)|[-> Hskip]];
      [by apply (due_in_range start)|left|right; by exists (d + 1)].
    exists t. split; [done|]. apply Z.nle_gt. intros Hle. pose proof (zone_mono _ _ Hz t start Hle). lia.
  - change MAX_CIVIL_DATES with 1098%nat in Hnth. pose proof (weekdays_of_dates (L start)).
    pose proof (zone_near _ _ Hz start). rewrite business_days_lost in Hnth; [lia|].
    unfold DAY_MS, MAX_TIME in *. Z.div_mod_to_equations. lia.
Qed.
End deadline_days.

(** ** Resolving deadlines *)

(** A deadline that is resolved is the one the item was given, or else the default of its
    queue; a business-day one is a valid date that is not before its start, by the calendar; only an
    elapsed default can give an invalid date, and none is resolved only when none was given. *)
Theorem resolved_deadline tenantId now calendar deadline queueDefault r :
  resolveWorklistDeadline tenantId now calendar deadline queueDefault = Ok r →
  match deadline, queueDefault, r with
  | Some (dl_absolute dueAt), _, Some d => rd_kind d = dk_absolute ∧ ∃ t, validDate dueAt "dueAt" = Ok t ∧ rd_dueAt d = Some t
  | Some (dl_business_days n key startAt), _, Some d =>
      rd_kind d = dk_business_days ∧ rd_businessDays d = Some n ∧ rd_calendarKey d = given key ∧
      ∃ add start due, calendar = Some add ∧ add tenantId (given key) (Some start) n = Ok (Some due) ∧ rd_dueAt d = Some due ∧ start ≤ due
  | None, Some (qd_elapsed s), Some d => rd_kind d = dk_absolute ∧ rd_dueAt d = time_clip (now + s * 1000)
  | None, Some (qd_business_days n key), Some d =>
      rd_kind d = dk_business_days ∧ rd_businessDays d = Some n ∧ rd_calendarKey d = given key ∧
      ∃ add due, calendar = Some add ∧ add tenantId (given key) (Some now) n = Ok (Some due) ∧ rd_dueAt d = Some due ∧ now ≤ due
  | None, None, None => True
  | _, _, _ => False
  end.
Proof.
  assert (∀ n key start d, resolveBusinessDays tenantId now calendar n key start = Ok d →
    rd_kind d = dk_business_days ∧ rd_businessDays d = Some n ∧ rd_calendarKey d = key ∧
    ∃ add due, calendar = Some add ∧ add tenantId key (Some (default now start)) n = Ok (Some due) ∧ rd_dueAt d = Some due ∧ default now start ≤ due) as Hdays.
  { intros n key start d. unfold resolveBusinessDays. destruct calendar as [add|]; [|done].
    intros (due & Hadd & Hr)%outcome_bind_ok. destruct due as [due|]; [|done]. simpl in Hr.
    destruct (Z.ltb_spec due (default now start)); [done|]. injection Hr as <-. simpl. eauto 10. }
  unfold resolveWorklistDeadline. destruct deadline as [[dueAt|n key startAt]|].
  - intros (t & Ht & Hr)%outcome_bind_ok. injection Hr as <-. simpl. eauto.
  - intros (start & Hs & Hr)%outcome_bind_ok.
    destruct (resolveBusinessDays _ _ _ _ _ _) as [d|] eqn:Hd; [|done]. injection Hr as <-.
    apply Hdays in Hd as (? & ? & ? & add & due & ? & ? & ? & ?). split_and!; [done..|]. eauto 10.
  - destruct queueDefault as [[s|n key]|].
    + intros [= <-]. done.
    + destruct (resolveBusinessDays _ _ _ _ _ _) as [d|] eqn:Hd; [|done]. intros Hr. injection Hr as <-.
      apply Hdays in Hd as (? & ? & ? & add & due & ? & ? & ? & ?). split_and!; [done..|]. eauto 10.
    + by intros [= <-].
Qed.

(** ** On concrete calendars *)

Module Example.
(** A zone three hours behind UTC, and a host with two holidays. *)
Definition sao_paulo : Format := λ t, civil_from_days ((t - 10800000) / DAY_MS).
Definition local (t : Z) : Z := (t - 10800000) / DAY_MS.
Definition intl (s : string) : option (string * Format) := if String.eqb s "America/Sao_Paulo" then Some (s, sao_paulo) else None.
Definition host_zone (tenant : string) : outcome WorklistError (option string) := Ok (Some "America/Sao_Paulo").
Definition holidays (year : option Z) : list string := if bool_decide (year = Some 2026) then ["2026-09-07"; "2026-10-12"] else [].
Definition host_holidays (n : nat) (tenant : string) (key : option string) (year : option Z) : outcome WorklistError Supplied :=
  Ok (a_set (Some <$> holidays year)).
(** Friday 2026-09-04, 18:00 local. *)
Definition friday : Z := 1788555600000.

Lemma sao_paulo_zone : zone sao_paulo local.
Proof.
  split.
  - intros t Ht. unfold sao_paulo, local. set (z := (t - 10800000) / DAY_MS).
    assert (Z.abs z ≤ 100000000) as Hr by (unfold z, DAY_MS, MAX_TIME in *; Z.div_mod_to_equations; lia). clearbody z.
    pose proof (days_civil_days z) as Hd. destruct (civil_from_days z) as [[y m] d]. destruct Hd as [Hd Hv].
    unfold valid_civil in Hv. unfold civilDay. replace ((m - 1) / 12) with 0 by (Z.div_mod_to_equations; lia).
    replace ((m - 1) mod 12 + 1) with m by (rewrite Z.mod_small; lia). rewrite Z.add_0_r, <- days_from_civil_day, Hd.
    unfold time_clip. rewrite (proj2 (Z.leb_le _ _)) by (unfold DAY_MS, MAX_TIME; lia). simpl. by rewrite Z.div_mul.
  - intros t. unfold local, DAY_MS. Z.div_mod_to_equations. lia.
  - intros t t' Ht. unfold local. apply Z.div_le_mono; unfold DAY_MS; lia.
Qed.
Lemma holidays_valid year : forallb validHoliday (Some <$> holidays year) = true.
Proof. unfold holidays. case_bool_decide; vm_compute; reflexivity. Qed.

(** The next business day after that Friday is Tuesday the 8th, which ends at 00:00 on the 9th. *)
Example after_holiday : addBusinessDays intl host_zone host_holidays "t" None (Some friday) 1 = Ok (Some 1788922800000).
Proof. vm_compute. reflexivity. Qed.

Lemma friday_in_range : Z.abs friday ≤ MAX_TIME - 1200 * DAY_MS.
Proof. unfold friday, MAX_TIME, DAY_MS. lia. Qed.
Lemma few_holidays : days_with (lost holidays) 1098 (local friday) ≤ 418.
Proof. apply Z.leb_le. vm_compute. reflexivity. Qed.
Lemma zone_named : "America/Sao_Paulo"%string ≠ EmptyString.
Proof. done. Qed.
Lemma one_day : 1 ≤ 1 ≤ 366.
Proof. lia. Qed.
Example deadline_after_business_days_witness :
  let o := local friday in
  let due := addBusinessDays intl host_zone host_holidays "t" None (Some friday) 1 in
  (business_days holidays o MAX_CIVIL_DATES < 1 ∧ due = Throw (WorklistInputError "Business calendar exhausted")) ∨
  ∃ d, o < d ≤ o + Z.of_nat MAX_CIVIL_DATES ∧ business holidays d = true ∧ business_days holidays o (Z.to_nat (d - o)) = 1 ∧
    ((∃ t, due = Ok (Some t) ∧ local t = d + 1 ∧ ∀ t', t' < t → local t' ≤ d) ∨
     (due = Throw (WorklistInputError "Due date does not exist in the tenant timezone") ∧ ∀ t, local t ≠ d + 1)).
Proof.
  exact (deadline_after_business_days intl host_zone host_holidays "t" None "America/Sao_Paulo" "America/Sao_Paulo" sao_paulo local
    holidays eq_refl zone_named eq_refl eq_refl eq_refl sao_paulo_zone (λ _ _, eq_refl) holidays_valid friday 1 one_day friday_in_range).
Defined.
Example deadline_is_found_witness :
  ∃ t, addBusinessDays intl host_zone host_holidays "t" None (Some friday) 1 = Ok (Some t) ∧ friday < t.
Proof.
  destruct (deadline_is_found intl host_zone host_holidays "t" None "America/Sao_Paulo" "America/Sao_Paulo" sao_paulo local
    holidays eq_refl zone_named eq_refl eq_refl eq_refl sao_paulo_zone (λ _ _, eq_refl) holidays_valid friday 1 one_day friday_in_range few_holidays)
    as [Ht|(d & Hd & _)]; [exact Ht|]. vm_compute in Hd. discriminate.
Defined.
Definition calendar : Calendar := λ tenant key start n, addBusinessDays intl host_zone host_holidays tenant key start n.
Lemma friday_deadline :
  resolveWorklistDeadline "t" friday (Some calendar) (Some (dl_business_days 1 None None)) None
  = Ok (Some {| rd_kind := dk_business_days; rd_dueAt := Some 1788922800000; rd_businessDays := Some 1; rd_calendarKey := None |}).
Proof. vm_compute. reflexivity. Qed.
Example resolved_deadline_witness : ∃ add start due,
  Some calendar = Some add ∧ add "t" (given None) (Some start) 1 = Ok (Some due) ∧ Some 1788922800000 = Some due ∧ start ≤ due.
Proof. exact (proj2 (proj2 (proj2 (resolved_deadline "t" friday (Some calendar) (Some (dl_business_days 1 None None)) None _ friday_deadline)))). Defined.
End Example.
