(* ===== verification/Worklist.v ===== *)
(** * Worklist: the tables of a work list and the functions that change them.

    The functions of [data/migrations/platform/0018_worklist.sql], which
    [worklist/src/worklist-items.service.ts] calls. The tables hold the rows of one tenant, which
    is what row level security shows. A function locks the rows it changes before it reads
    them, and a claim the capacity of its user, so that each is one step.

    [clock_timestamp()] and [gen_random_uuid()] are read by index. *)
From Stdlib Require Import QArith.
From stdpp Require Import pretty.
From Stdlib Require Import Ascii.
From S2P Require Import Prelude JsText JsJson WorklistTypes.
Local Open Scope Z_scope.

Inductive ItemStatus := st_pending | st_claimed | st_completed | st_canceled.
Inductive EventKind :=
| ek_enqueue | ek_claim | ek_assign | ek_release | ek_complete | ek_cancel | ek_reassign | ek_override
| ek_deadline_set | ek_deadline_breach.
#[export] Instance ItemStatus_eq_dec : EqDecision ItemStatus.
Proof. solve_decision. Defined.
#[export] Instance EventKind_eq_dec : EqDecision EventKind.
Proof. solve_decision. Defined.

Notation Payload := (list (string * json)).

Record Queue := {
  qu_code : string;
  qu_strategy : string;
  qu_requiredPermission : string;
  qu_supervisorPermission : string;
  qu_claimLimit : option Z;
  qu_slaSeconds : option Z;
  qu_slaBusinessDays : option Z;
  qu_calendarKey : option string }.
Record Worker := { wk_available : bool; wk_weight : Q; wk_lastAssignedAt : option Z }.
Record Item := {
  it_queue : string;
  it_entityType : string;
  it_entityId : string;
  it_priority : Z;
  it_status : ItemStatus;
  it_assignee : option string;
  it_claimedAt : option Z;
  it_deadlineKind : option DeadlineKind;
  it_businessDays : option Z;
  it_calendarKey : option string;
  it_dueAt : option Z;
  it_breachDetectedAt : option Z;
  it_completedAt : option Z;
  it_completedBy : option string;
  it_canceledAt : option Z;
  it_payload : Payload;
  it_meta : Payload;
  it_createdAt : Z }.
Record Event := {
  ev_id : string;
  ev_item : string;
  ev_kind : EventKind;
  ev_actor : option string;
  ev_from : option string;
  ev_to : option string;
  ev_reason : option string;
  ev_payload : Payload;
  ev_createdAt : Z }.

(** [perms]: the permission keys of each user with an active membership, granted to the user, its
    roles or its groups. *)
Record Tables := {
  queues : gmap string Queue;
  items : gmap string Item;
  events : list Event;
  workers : gmap (string * string) Worker;
  perms : gmap string (list string);
  ticks : nat;
  uuids : nat }.

Definition set_items i (s : Tables) : Tables :=
  {| queues := queues s; items := i; events := events s; workers := workers s; perms := perms s; ticks := ticks s; uuids := uuids s |}.
Definition set_events e (s : Tables) : Tables :=
  {| queues := queues s; items := items s; events := e; workers := workers s; perms := perms s; ticks := ticks s; uuids := uuids s |}.
Definition set_workers w (s : Tables) : Tables :=
  {| queues := queues s; items := items s; events := events s; workers := w; perms := perms s; ticks := ticks s; uuids := uuids s |}.
Definition set_draws t u (s : Tables) : Tables :=
  {| queues := queues s; items := items s; events := events s; workers := workers s; perms := perms s; ticks := t; uuids := u |}.

(** ** Items *)

Definition set_assigned st assignee claimed (i : Item) : Item :=
  {| it_queue := it_queue i; it_entityType := it_entityType i; it_entityId := it_entityId i; it_priority := it_priority i;
     it_status := st; it_assignee := assignee; it_claimedAt := claimed; it_deadlineKind := it_deadlineKind i;
     it_businessDays := it_businessDays i; it_calendarKey := it_calendarKey i; it_dueAt := it_dueAt i;
     it_breachDetectedAt := it_breachDetectedAt i; it_completedAt := it_completedAt i; it_completedBy := it_completedBy i;
     it_canceledAt := it_canceledAt i; it_payload := it_payload i; it_meta := it_meta i; it_createdAt := it_createdAt i |}.
Definition set_closed st completedAt completedBy canceledAt (i : Item) : Item :=
  {| it_queue := it_queue i; it_entityType := it_entityType i; it_entityId := it_entityId i; it_priority := it_priority i;
     it_status := st; it_assignee := it_assignee i; it_claimedAt := it_claimedAt i; it_deadlineKind := it_deadlineKind i;
     it_businessDays := it_businessDays i; it_calendarKey := it_calendarKey i; it_dueAt := it_dueAt i;
     it_breachDetectedAt := it_breachDetectedAt i; it_completedAt := completedAt; it_completedBy := completedBy;
     it_canceledAt := canceledAt; it_payload := it_payload i; it_meta := it_meta i; it_createdAt := it_createdAt i |}.
Definition set_breached at_ (i : Item) : Item :=
  {| it_queue := it_queue i; it_entityType := it_entityType i; it_entityId := it_entityId i; it_priority := it_priority i;
     it_status := it_status i; it_assignee := it_assignee i; it_claimedAt := it_claimedAt i; it_deadlineKind := it_deadlineKind i;
     it_businessDays := it_businessDays i; it_calendarKey := it_calendarKey i; it_dueAt := it_dueAt i;
     it_breachDetectedAt := Some at_; it_completedAt := it_completedAt i; it_completedBy := it_completedBy i;
     it_canceledAt := it_canceledAt i; it_payload := it_payload i; it_meta := it_meta i; it_createdAt := it_createdAt i |}.

Definition open (i : Item) : bool := match it_status i with st_pending | st_claimed => true | _ => false end.

(** [items_deadline_shape_ck] *)
Definition deadline_shape (i : Item) : bool :=
  match it_deadlineKind i, it_dueAt i, it_businessDays i, it_calendarKey i with
  | None, None, None, None => true
  | Some dk_absolute, Some _, None, None => true
  | Some dk_business_days, Some _, Some n, _ => 0 <? n
  | _, _, _, _ => false
  end.
(** [uq_worklist_items_open_entity]: only an insertion can violate it, since no update opens a
    closed item or changes what it is about. *)
Definition same_entity (i j : Item) : bool :=
  open i && open j && String.eqb (it_queue i) (it_queue j) && String.eqb (it_entityType i) (it_entityType j)
  && String.eqb (it_entityId i) (it_entityId j).

(** The order of claims: priority, due date with none last, creation, id. *)
Definition claim_compare (a b : string * Item) : Z :=
  let due x y := match x, y with
                 | Some x, Some y => x - y
                 | Some _, None => -1
                 | None, Some _ => 1
                 | None, None => 0
                 end in
  let p := it_priority a.2 - it_priority b.2 in
  if negb (p =? 0) then p else
  let d := due (it_dueAt a.2) (it_dueAt b.2) in
  if negb (d =? 0) then d else
  let c := it_createdAt a.2 - it_createdAt b.2 in
  if negb (c =? 0) then c else
  match String.compare a.1 b.1 with Lt => -1 | Eq => 0 | Gt => 1 end.

Definition btrim_empty (s : string) : bool := forallb (Ascii.eqb " ") (String.list_ascii_of_string s).
Definition missing (s : option string) : bool := match s with Some s => btrim_empty s | None => true end.

(** ** Permissions *)

Definition permission_pattern_matches (grant required : string) : bool :=
  let g := split_on ":" grant in
  let r := split_on ":" required in
  (Nat.eqb (length g) 3) && (Nat.eqb (length r) 3)
  && forallb (λ p, String.eqb p.1 "*" || String.eqb p.1 p.2) (combine g r).
Definition user_holds_permission (s : Tables) (user required : string) : bool :=
  existsb (λ g, permission_pattern_matches g required) (default [] (perms s !! user)).

Definition holds_claim (queue user : string) (i : Item) : bool :=
  String.eqb (it_queue i) queue && bool_decide (it_assignee i = Some user) && bool_decide (it_status i = st_claimed).
Definition open_claim_count (s : Tables) (queue user : string) : Z :=
  Z.of_nat (length (List.filter (λ p, holds_claim queue user p.2) (map_to_list (items s)))).

Record Eligible := { el_user : string; el_weight : Q; el_lastAssignedAt : option Z; el_openItemCount : Z }.
Definition eligible_workers (s : Tables) (queue : string) : list Eligible :=
  match queues s !! queue with
  | None => []
  | Some q =>
      omap (λ m : string * list string,
        let w := workers s !! (queue, m.1) in
        if user_holds_permission s m.1 (qu_requiredPermission q) && default true (wk_available <$> w)
        then Some {| el_user := m.1; el_weight := default 1%Q (wk_weight <$> w); el_lastAssignedAt := w ≫= wk_lastAssignedAt;
                     el_openItemCount := open_claim_count s queue m.1 |}
        else None) (map_to_list (perms s))
  end.

(** ** Functions *)

Section functions.
Context (clock : nat → Z) (uuid : nat → string).
(** The quotient of a count and a weight, as [numeric] rounds it, and the JSON text of a time. *)
Context (load : Z → Q → Q) (time_text : Z → string).
Context (actor : option string).

Notation Sql := (JS Tables WorklistError).
Definition raise {A} (code message : string) : Sql A := throw (SqlError code message).
Definition raise_if (c : bool) (code message : string) : Sql () := if c then raise code message else mret ().
Definition clock_timestamp : Sql Z :=
  n ← getf ticks; _ ← modify (λ s, set_draws (S n) (uuids s) s); mret (clock n).
Definition gen_random_uuid : Sql string :=
  n ← getf uuids; _ ← modify (λ s, set_draws (ticks s) (S n) s); mret (uuid n).

Definition insert_event (item : string) (kind : EventKind) (from to reason : option string) (payload : Payload) : Sql () :=
  id ← gen_random_uuid;
  createdAt ← clock_timestamp;
  known ← getf (λ s, ev_id <$> events s);
  _ ← raise_if (bool_decide (id ∈ known)) "23505" "duplicate key";
  modify (λ s, set_events (events s ++ [{| ev_id := id; ev_item := item; ev_kind := kind; ev_actor := actor; ev_from := from; ev_to := to;
    ev_reason := reason; ev_payload := payload; ev_createdAt := createdAt |}]) s).
Definition update_item (id : string) (f : Item → Item) : Sql () := modify (λ s, set_items (alter f id (items s)) s).

Definition queue_row (queue : string) : Sql Queue :=
  q ← getf (λ s, queues s !! queue);
  match q with Some q => mret q | None => raise "WK404" "queue not found" end.
Definition item_row (item : string) : Sql Item :=
  i ← getf (λ s, items s !! item);
  match i with Some i => mret i | None => raise "WK404" "item not found" end.

Definition assert_can_work (queue : string) (user : option string) (ignore_availability : bool) : Sql () :=
  q ← queue_row queue;
  match user with
  | None => raise "WK403" "actor is required to work queue"
  | Some user =>
      holds ← getf (λ s, user_holds_permission s user (qu_requiredPermission q));
      _ ← raise_if (negb holds) "WK403" "user does not hold permission";
      w ← getf (λ s, workers s !! (queue, user));
      raise_if (negb ignore_availability && negb (default true (wk_available <$> w))) "WK403" "worker is unavailable"
  end.
Definition assert_supervisor (queue : string) : Sql () :=
  q ← queue_row queue;
  holds ← getf (λ s, match actor with Some a => user_holds_permission s a (qu_supervisorPermission q) | None => false end);
  raise_if (negb holds) "WK403" "actor does not hold supervisor permission".
Definition assert_claim_capacity (queue user : string) : Sql () :=
  q ← getf (λ s, queues s !! queue);
  match q ≫= qu_claimLimit with
  | None => mret ()
  | Some limit =>
      n ← getf (λ s, open_claim_count s queue user);
      raise_if (limit <=? n) "WK409" "claim limit reached for queue"
  end.
Definition touch_worker_state (queue user : string) : Sql () :=
  now ← clock_timestamp;
  modify (λ s, set_workers (<[(queue, user) :=
    match workers s !! (queue, user) with
    | Some w => {| wk_available := wk_available w; wk_weight := wk_weight w; wk_lastAssignedAt := Some now |}
    | None => {| wk_available := true; wk_weight := 1%Q; wk_lastAssignedAt := Some now |}
    end]> (workers s)) s).

Definition text_field (name : string) (value : option string) : Payload := match value with Some v => [(name, JString v)] | None => [] end.
Definition deadline_payload (kind : option DeadlineKind) (due businessDays : option Z) (calendarKey : option string) : Payload :=
  text_field "kind" ((λ k, match k with dk_absolute => "absolute" | dk_business_days => "business_days" end) <$> kind)
  ++ text_field "dueAt" (time_text <$> due)
  ++ match businessDays with Some n => [("businessDays", JNumber (pretty n))] | None => [] end
  ++ text_field "calendarKey" calendarKey.

Definition item_enqueue (queueCode entityType entityId : string) (priority due : option Z) (kind : option DeadlineKind)
    (businessDays : option Z) (calendarKey : option string) (payload meta : Payload) : Sql string :=
  _ ← raise_if (negb (bool_decide (is_Some actor))) "WK403" "app.tenant_id and app.actor_id are required";
  _ ← raise_if (btrim_empty entityType || btrim_empty entityId) "WK400" "entity type and id are required";
  found ← getf (λ s, List.find (λ p, String.eqb (qu_code p.2) queueCode) (map_to_list (queues s)));
  match found with
  | None => raise "WK404" "queue not found"
  | Some (queue, q) =>
      '(due, kind) ← match due, qu_slaSeconds q, qu_slaBusinessDays q with
                     | None, Some secs, _ => now ← clock_timestamp; mret (Some (now + 1000 * secs), Some dk_absolute)
                     | None, None, Some _ => raise "WK400" "business calendar deadline must be resolved by the application"
                     | _, _, _ => mret (due, kind)
                     end;
      id ← gen_random_uuid;
      now ← clock_timestamp;
      let item := {| it_queue := queue; it_entityType := entityType; it_entityId := entityId; it_priority := default 100 priority;
                     it_status := st_pending; it_assignee := None; it_claimedAt := None; it_deadlineKind := kind;
                     it_businessDays := businessDays; it_calendarKey := calendarKey; it_dueAt := due; it_breachDetectedAt := None;
                     it_completedAt := None; it_completedBy := None; it_canceledAt := None; it_payload := payload; it_meta := meta;
                     it_createdAt := now |} in
      _ ← raise_if (negb (deadline_shape item)) "23514" "items_deadline_shape_ck";
      old ← getf items;
      _ ← raise_if (bool_decide (is_Some (old !! id)) || existsb (λ p, same_entity item p.2) (map_to_list old)) "23505" "duplicate key";
      _ ← modify (set_items (<[id := item]> old));
      _ ← insert_event id ek_enqueue None None None [("entityType", JString entityType); ("entityId", JString entityId)];
      _ ← (if bool_decide (is_Some due) then insert_event id ek_deadline_set None None None (deadline_payload kind due businessDays calendarKey) else mret ());
      mret id
  end.

(** What a claim does to a pending item. *)
Definition take (item queue user : string) : Sql () :=
  now ← clock_timestamp;
  _ ← update_item item (set_assigned st_claimed (Some user) (Some now));
  touch_worker_state queue user.

(** The first pending item of a queue that no other session holds; [locked] are those held. *)
Definition first_of (l : list (string * Item)) : option (string * Item) :=
  foldr (λ x acc, match acc with Some y => if claim_compare x y <=? 0 then Some x else Some y | None => Some x end) None l.
Definition next_item (locked : string → bool) (queue : string) (s : Tables) : option string :=
  fst <$> first_of (List.filter (λ p, String.eqb (it_queue p.2) queue && bool_decide (it_status p.2 = st_pending) && negb (locked p.1))
                                (map_to_list (items s))).

Definition item_claim_next (locked : string → bool) (queue : string) (user : option string) : Sql (option string) :=
  let user := match user with Some u => Some u | None => actor end in
  _ ← assert_can_work queue user false;
  match user with
  | None => mret None
  | Some user =>
      _ ← assert_claim_capacity queue user;
      next ← getf (next_item locked queue);
      match next with
      | None => mret None
      | Some item => _ ← take item queue user; _ ← insert_event item ek_claim None (Some user) None []; mret (Some item)
      end
  end.

Definition item_claim (item : string) (user : option string) : Sql () :=
  let user := match user with Some u => Some u | None => actor end in
  row ← item_row item;
  _ ← raise_if (negb (bool_decide (it_status row = st_pending))) "WK409" "item is not pending";
  _ ← assert_can_work (it_queue row) user false;
  match user with
  | None => mret ()
  | Some user =>
      _ ← assert_claim_capacity (it_queue row) user;
      _ ← take item (it_queue row) user;
      insert_event item ek_claim None (Some user) None []
  end.

(** Who may release or complete: the supervisor, with a reason, or else the assignee. *)
Definition assert_owner (row : Item) (reason : option string) (force : bool) : Sql () :=
  if force then
    _ ← raise_if (missing reason) "WK400" "supervisor override reason is required";
    assert_supervisor (it_queue row)
  else raise_if (negb (bool_decide (it_assignee row = actor))) "WK403" "only the current assignee may change the item".
Definition operation (name : string) (force : bool) : Payload := if force then [("operation", JString name)] else [].

Definition item_release (item : string) (reason : option string) (force : bool) : Sql () :=
  row ← item_row item;
  _ ← raise_if (negb (bool_decide (it_status row = st_claimed))) "WK409" "item is not claimed";
  _ ← assert_owner row reason force;
  _ ← update_item item (set_assigned st_pending None None);
  insert_event item (if force then ek_override else ek_release) (it_assignee row) None reason (operation "release" force).

(** [payload || jsonb_build_object('operation', ...)] *)
Definition with_operation (payload : Payload) (name : string) (force : bool) : Payload :=
  if force then List.filter (λ p, negb (String.eqb p.1 "operation")) payload ++ operation name true else payload.

Definition item_complete (item : string) (note : option string) (payload : Payload) (force : bool) : Sql () :=
  row ← item_row item;
  if bool_decide (it_status row = st_completed) then mret () else
  _ ← raise_if (negb (bool_decide (it_status row = st_claimed))) "WK409" "item is not claimed";
  _ ← assert_owner row note force;
  now ← clock_timestamp;
  _ ← update_item item (set_closed st_completed (Some now) (match actor with Some a => Some a | None => it_assignee row end)
                                   (it_canceledAt row));
  insert_event item (if force then ek_override else ek_complete) (it_assignee row) None note (with_operation payload "complete" force).

Definition item_cancel (item : string) (reason : option string) : Sql () :=
  _ ← raise_if (missing reason) "WK400" "cancel reason is required";
  row ← item_row item;
  _ ← raise_if (negb (open row)) "WK409" "item is not open";
  _ ← assert_supervisor (it_queue row);
  now ← clock_timestamp;
  _ ← update_item item (set_closed st_canceled (it_completedAt row) (it_completedBy row) (Some now));
  insert_event item ek_cancel (it_assignee row) None reason [].

Definition item_reassign (item toUser : string) (reason : option string) (override : bool) : Sql () :=
  _ ← raise_if (missing reason) "WK400" "reassign reason is required";
  row ← item_row item;
  _ ← raise_if (negb (open row)) "WK409" "item is not open";
  _ ← assert_supervisor (it_queue row);
  _ ← assert_can_work (it_queue row) (Some toUser) override;
  _ ← (if bool_decide (it_assignee row = Some toUser) then mret () else assert_claim_capacity (it_queue row) toUser);
  _ ← take item (it_queue row) toUser;
  insert_event item (if override then ek_override else ek_reassign) (it_assignee row) (Some toUser) reason (operation "reassign" override).

Definition item_assign_next (locked : string → bool) (queue user strategy : string) : Sql (option string) :=
  _ ← assert_can_work queue (Some user) false;
  _ ← assert_claim_capacity queue user;
  next ← getf (next_item locked queue);
  match next with
  | None => mret None
  | Some item =>
      _ ← take item queue user;
      _ ← insert_event item ek_assign None (Some user) None [("strategy", JString strategy)];
      mret (Some item)
  end.

(** [last_assigned_at ASC NULLS FIRST], then the user. *)
Definition rotation_before (a b : Eligible) : bool :=
  match el_lastAssignedAt a, el_lastAssignedAt b with
  | None, Some _ => true
  | Some _, None => false
  | Some x, Some y => (x <? y) || ((x =? y) && String.leb (el_user a) (el_user b))
  | None, None => String.leb (el_user a) (el_user b)
  end.
Definition load_before (a b : Eligible) : bool :=
  let x := load (el_openItemCount a) (el_weight a) in
  let y := load (el_openItemCount b) (el_weight b) in
  if Qeq_bool x y then rotation_before a b else Qle_bool x y.
Definition first_worker (before : Eligible → Eligible → bool) (l : list Eligible) : option Eligible :=
  foldr (λ x acc, match acc with Some y => if before x y then Some x else Some y | None => Some x end) None l.

Definition assign_next (locked : string → bool) (queue : string) : Sql (option string) :=
  q ← queue_row queue;
  _ ← raise_if (negb (String.eqb (qu_strategy q) "round_robin" || String.eqb (qu_strategy q) "load_balanced"))
        "WK409" "queue strategy does not use built-in push assignment";
  free ← getf (λ s, List.filter (λ e, match qu_claimLimit q with None => true | Some limit => el_openItemCount e <? limit end)
                                (eligible_workers s queue));
  match first_worker (if String.eqb (qu_strategy q) "round_robin" then rotation_before else load_before) free with
  | None => mret None
  | Some e => item_assign_next locked queue (el_user e) (qu_strategy q)
  end.

(** Open items past their deadline that were not flagged and no other session holds. *)
Definition breached (locked : string → bool) (now : Z) (p : string * Item) : bool :=
  open p.2 && match it_dueAt p.2 with Some d => d <=? now | None => false end
  && bool_decide (it_breachDetectedAt p.2 = None) && negb (locked p.1).
Definition due_compare (a b : string * Item) : Z :=
  let d := default 0 (it_dueAt a.2) - default 0 (it_dueAt b.2) in
  if negb (d =? 0) then d else match String.compare a.1 b.1 with Lt => -1 | Eq => 0 | Gt => 1 end.
(** The clock is read once for the comparison; the events returned are those recorded. *)
Definition detect_breaches (locked : string → bool) (limit : Z) : Sql (list Event) :=
  _ ← raise_if ((limit <? 1) || (limit >? 1000)) "WK400" "breach detection limit must be between 1 and 1000";
  _ ← raise_if (negb (bool_decide (is_Some actor))) "WK403" "app.tenant_id and app.actor_id are required";
  now ← clock_timestamp;
  rows ← getf (λ s, List.firstn (Z.to_nat limit) (js_sort (λ a b, due_compare a b <=? 0) (List.filter (breached locked now) (map_to_list (items s)))));
  n ← getf (λ s, length (events s));
  _ ← js_each (λ p, at_ ← clock_timestamp;
                    _ ← update_item p.1 (set_breached at_);
                    insert_event p.1 ek_deadline_breach (it_assignee p.2) None None
                      (text_field "dueAt" (time_text <$> it_dueAt p.2) ++ text_field "entityType" (Some (it_entityType p.2))
                       ++ text_field "entityId" (Some (it_entityId p.2)))) rows;
  getf (λ s, List.skipn n (events s)).
End functions.
