(* ===== verification/WorklistItems.v ===== *)
(** * WorklistItems: the services over the tables of [Worklist].

    [worklist/src/worklist-items.service.ts], [worklist-sla.service.ts] and [strategies.ts]. The
    inputs are those [parseWorklistInput] lets pass; the event sink and the strategies of the
    host are parameters. A call is a transaction, whose writes are undone when it fails, and then
    the publication of its events. *)
From Stdlib Require Import QArith.
From S2P Require Import Prelude JsMap JsText JsJson JsDate WorklistTypes BusinessCalendar Worklist.
Local Open Scope Z_scope.

(** [published]: the events the sink took. *)
Record Service := { tables : Tables; published : list Event; publications : nat }.
Definition set_tables t (s : Service) : Service := {| tables := t; published := published s; publications := publications s |}.

Record Candidate := { cd_userId : string; cd_available : bool; cd_weight : Q; cd_lastAssignedAt : option Z; cd_openItemCount : Z }.
Definition Strategy : Type := string → list Candidate → outcome WorklistError (option string).

(** ** Strategies *)

Section strategies.
(** [localeCompare], and the quotient of two numbers. *)
Context (localeCompare : string → string → Z) (quotient : Z → Q → Q).

(** [-Infinity - -Infinity] is NaN, which is false. *)
Definition last_compare (a b : Candidate) : Z :=
  match cd_lastAssignedAt a, cd_lastAssignedAt b with
  | None, None => 0
  | None, Some _ => -1
  | Some _, None => 1
  | Some x, Some y => x - y
  end.
Definition rotation_compare (a b : Candidate) : Z :=
  let t := last_compare a b in if negb (t =? 0) then t else localeCompare (cd_userId a) (cd_userId b).
Definition load_compare (a b : Candidate) : Z :=
  let x := quotient (cd_openItemCount a) (cd_weight a) in
  let y := quotient (cd_openItemCount b) (cd_weight b) in
  if Qeq_bool x y then rotation_compare a b else if Qle_bool x y then -1 else 1.
Definition select_first (compare : Candidate → Candidate → Z) (candidates : list Candidate) : option string :=
  cd_userId <$> head (js_sort (λ a b, compare a b <=? 0) (List.filter cd_available candidates)).
Definition RoundRobinWorklistStrategy : Strategy := λ _ candidates, Ok (select_first rotation_compare candidates).
Definition LoadBalancedWorklistStrategy : Strategy := λ _ candidates, Ok (select_first load_compare candidates).
End strategies.

Definition BUILTIN_WORKLIST_STRATEGY_KEYS : list string := ["pull"; "round_robin"; "load_balanced"].
Section registry.
Context (trim : string → string).
Definition register (key : string) (strategy : Strategy) (strategies : jsmap string Strategy) :
    outcome WorklistError (jsmap string Strategy) :=
  let key := trim key in
  if bool_decide (key ∈ BUILTIN_WORKLIST_STRATEGY_KEYS) then Throw (WorklistStrategyRegistrationError key)
  else if jm_has key strategies then Throw (WorklistStrategyRegistrationError key)
  else Ok (jm_set key strategy strategies).
End registry.

(** ** The service *)

Section service.
Context (clock : nat → Z) (uuid : nat → string) (load : Z → Q → Q) (time_text : Z → string).
Context (sink : nat → bool).   (** whether the sink takes the [n]-th event it is given *)
Context (strategies : jsmap string Strategy) (calendar : option Calendar).
(** The context of the call: its tenant and user, and the rows that other sessions hold. *)
Context (tenantId : string) (actor : option string) (locked : string → bool).

Notation Call := (JS Service WorklistError).
Notation Sql := (JS Tables WorklistError).

(** [database.tx]: the clock and the random source keep what was drawn from them. *)
Definition tx {A} (m : Sql A) : Call A := λ s,
  match m (tables s) with
  | (Ok a, t) => (Ok a, set_tables t s)
  | (Throw e, t) => (Throw e, set_tables (set_draws (ticks t) (uuids t) (tables s)) s)
  end.
Definition mapped {A} (m : Call A) : Call A := js_catch m (λ e, throw (mapWorklistSqlError e)).

Definition publish_one (event : Event) : Call () := λ s,
  let s' := {| tables := tables s; published := published s; publications := S (publications s) |} in
  if sink (publications s)
  then (Ok (), {| tables := tables s; published := published s ++ [event]; publications := S (publications s) |})
  else (Throw Rejected, s').
Definition publish (events : list Event) : Call () := js_each publish_one events.

Definition getInTransaction (item : string) : Sql Item :=
  i ← getf (λ s, items s !! item);
  match i with Some i => mret i | None => throw (WorklistNotFoundError ent_item item) end.

(** [order by created_at, id] *)
Definition event_le (a b : Event) : bool :=
  (ev_createdAt a <? ev_createdAt b) || ((ev_createdAt a =? ev_createdAt b) && String.leb (ev_id a) (ev_id b)).
Definition events_of (item : string) (s : Tables) : list Event :=
  js_sort event_le (List.filter (λ e, String.eqb (ev_item e) item) (events s)).

(** [seen]: the tables when the events of the item were counted. The transaction counts them
    before [mutate] locks the row, and at read committed what other transactions commit in between
    is part of what [mutate] finds. *)
Definition itemMutation_from (seen : Tables) (item : string) (mutate : Sql ()) : Call Item :=
  let before := length (List.filter (λ e, String.eqb (ev_item e) item) (events seen)) in
  mapped (
    '(row, new) ← tx (
      _ ← mutate;
      row ← getInTransaction item;
      all ← getf (events_of item);
      mret (row, List.skipn before all));
    _ ← publish new;
    mret row).
(** The call when no other commits between the count and the lock. *)
Definition itemMutation (item : string) (mutate : Sql ()) : Call Item :=
  seen ← getf tables; itemMutation_from seen item mutate.
Definition claimingMutation (claim : Sql (option string)) : Call (option Item) :=
  mapped (
    mutation ← tx (
      result ← claim;
      match result with
      | None => mret None
      | Some item =>
          row ← getInTransaction item;
          all ← getf (events_of item);
          mret (Some (row, option_list (last all)))
      end);
    match mutation with
    | None => mret None
    | Some (row, new) => _ ← publish new; mret (Some row)
    end).

(** [mapQueueRow] *)
Definition defaultDeadline (q : Queue) : option WorklistQueueDefaultDeadline :=
  match qu_slaSeconds q, qu_slaBusinessDays q with
  | Some s, _ => Some (qd_elapsed s)
  | None, Some n => Some (qd_business_days n (given (qu_calendarKey q)))
  | None, None => None
  end.
Definition queue_by_code (code : string) (s : Tables) : option (string * Queue) :=
  List.find (λ p, String.eqb (qu_code p.2) code) (map_to_list (queues s)).

Record EnqueueInput := {
  en_queueCode : string;
  en_entityType : string;
  en_entityId : string;
  en_priority : option Z;
  en_deadline : option WorklistDeadline;
  en_payload : Payload;
  en_meta : Payload }.
(** An invalid [dueAt] is no timestamp for the database. *)
Definition enqueue (now : Z) (value : EnqueueInput) : Call Item :=
  queue ← getf (λ s, queue_by_code (en_queueCode value) (tables s));
  match queue with
  | None => throw (WorklistNotFoundError ent_queue (en_queueCode value))
  | Some (_, q) =>
      deadline ← lift (resolveWorklistDeadline tenantId now calendar (en_deadline value) (defaultDeadline q));
      match deadline with
      | None => throw TypeError
      | Some d =>
          mapped (
            '(row, new) ← tx (
              _ ← (if bool_decide (rd_dueAt d = None) then throw (SqlError "22007" "invalid input syntax") else mret ());
              item ← item_enqueue clock uuid time_text actor (en_queueCode value) (en_entityType value) (en_entityId value)
                       (en_priority value) (rd_dueAt d) (Some (rd_kind d)) (rd_businessDays d) (rd_calendarKey d)
                       (en_payload value) (en_meta value);
              row ← getInTransaction item;
              all ← getf (events_of item);
              mret (row, all));
            _ ← publish new;
            mret row)
      end
  end.

Definition claimNext (queue : string) (user : option string) : Call (option Item) :=
  claimingMutation (item_claim_next clock uuid actor locked queue user).
Definition claim (item : string) (user : option string) : Call Item := itemMutation item (item_claim clock uuid actor item user).
Definition release (item : string) (reason : option string) : Call Item :=
  itemMutation item (item_release clock uuid actor item reason false).
Definition complete (item : string) (note : option string) (payload : Payload) : Call Item :=
  itemMutation item (item_complete clock uuid actor item note payload false).
Definition cancel (item : string) (reason : string) : Call Item := itemMutation item (item_cancel clock uuid actor item (Some reason)).
Definition reassign (item toUser reason : string) : Call Item :=
  itemMutation item (item_reassign clock uuid actor item toUser (Some reason) false).

Inductive Override := ov_release | ov_complete (payload : Payload) | ov_reassign (toUser : string).
Definition supervisorOverride (item : string) (o : Override) (reason : string) : Call Item :=
  match o with
  | ov_release => itemMutation item (item_release clock uuid actor item (Some reason) true)
  | ov_complete payload => itemMutation item (item_complete clock uuid actor item (Some reason) payload true)
  | ov_reassign toUser => itemMutation item (item_reassign clock uuid actor item toUser (Some reason) true)
  end.

Definition eligibleCandidates (queue : string) (s : Tables) : list Candidate :=
  (λ e, {| cd_userId := el_user e; cd_available := true; cd_weight := el_weight e; cd_lastAssignedAt := el_lastAssignedAt e;
           cd_openItemCount := el_openItemCount e |}) <$> eligible_workers s queue.
Definition assignNext (queue : string) : Call (option Item) :=
  row ← getf (λ s, queues (tables s) !! queue);
  match row with
  | None => throw (WorklistNotFoundError ent_queue queue)
  | Some q =>
      if String.eqb (qu_strategy q) "pull" then throw (WorklistConflictError "Pull queues distribute through claimNext")
      else if String.eqb (qu_strategy q) "round_robin" || String.eqb (qu_strategy q) "load_balanced"
      then claimingMutation (assign_next clock uuid load actor locked queue)
      else
        match jm_get (qu_strategy q) strategies with
        | None => throw (UnknownWorklistStrategyError (qu_strategy q))
        | Some select =>
            candidates ← getf (λ s, eligibleCandidates queue (tables s));
            selected ← lift (select queue candidates);
            match selected with
            | None => mret None
            | Some user =>
                if negb (existsb (λ c, String.eqb (cd_userId c) user) candidates)
                then throw (WorklistInputError "Custom strategy selected a user outside the eligible candidate set")
                else claimingMutation (item_assign_next clock uuid actor locked queue user (qu_strategy q))
            end
        end
  end.

Definition detectBreaches (limit : Z) : Call (list Event) :=
  if (limit <? 1) || (limit >? 1000) then throw (WorklistInputError "Breach detection limit must be between 1 and 1000") else
  mapped (new ← tx (detect_breaches clock uuid time_text actor locked limit); _ ← publish new; mret new).

(** ** Reading *)

Definition get (item : string) : Call Item := tx (getInTransaction item).

Record ItemQuery := { iq_queueId : option string; iq_status : option ItemStatus; iq_assigneeId : option string; iq_entityType : option string }.
Definition selects (q : ItemQuery) (i : Item) : bool :=
  match iq_queueId q with Some x => String.eqb (it_queue i) x | None => true end
  && match iq_status q with Some x => bool_decide (it_status i = x) | None => true end
  && match iq_assigneeId q with Some x => bool_decide (it_assignee i = Some x) | None => true end
  && match iq_entityType q with Some x => String.eqb (it_entityType i) x | None => true end.
Definition page_of {A} (page pageSize : nat) (l : list A) : list A := List.firstn pageSize (List.skipn ((page - 1) * pageSize) l).
Definition list_items (page pageSize : nat) (q : ItemQuery) (s : Tables) : list (string * Item) * nat :=
  let rows := js_sort (λ a b, claim_compare a b <=? 0) (List.filter (λ p, selects q p.2) (map_to_list (items s))) in
  (page_of page pageSize rows, length rows).
Record EventQuery := { eq_itemId : option string; eq_after : option Z; eq_afterId : option string }.
Definition follows (q : EventQuery) (e : Event) : bool :=
  match eq_itemId q with Some x => String.eqb (ev_item e) x | None => true end
  && match eq_after q with Some t => t <? ev_createdAt e | None => true end
  && match eq_afterId q with Some x => String.ltb x (ev_id e) | None => true end.
Definition listEvents (page pageSize : nat) (q : EventQuery) (s : Tables) : list Event * nat :=
  let rows := js_sort event_le (List.filter (follows q) (events s)) in
  (page_of page pageSize rows, length rows).
End service.
