(* ===== verification/WorklistSpec.v ===== *)
(** * WorklistSpec: what a work list promises, and that its functions keep it.

    [wstep]: the abstract work list, whose steps enqueue an item or move one item, with the events
    that record it. Every function of [Worklist] that returns is such
    steps. *)
From Stdlib Require Import QArith.
From S2P Require Import Prelude JsText JsJson WorklistTypes Worklist.

Local Open Scope Z_scope.

(** ** The abstract work list *)

Section spec.
Context (actor : option string).

(** [user] may hold items of [queue]. *)
Definition may_work (s : Tables) (queue user : string) (ignore_availability : bool) : Prop :=
  ∃ q, queues s !! queue = Some q ∧ user_holds_permission s user (qu_requiredPermission q) = true ∧
       (ignore_availability = true ∨ default true (wk_available <$> workers s !! (queue, user)) = true).
Definition has_capacity (s : Tables) (queue user : string) : Prop :=
  ∀ q limit, queues s !! queue = Some q → qu_claimLimit q = Some limit → open_claim_count s queue user < limit.
Definition supervises (s : Tables) (queue : string) : Prop :=
  ∃ q a, queues s !! queue = Some q ∧ actor = Some a ∧ user_holds_permission s a (qu_supervisorPermission q) = true.
Definition owns (s : Tables) (i : Item) (reason : option string) (force : bool) : Prop :=
  if force then missing reason = false ∧ supervises s (it_queue i) else it_assignee i = actor.

(** The moves of one item, with the event that records each. *)
Inductive moves (s : Tables) (i : Item) : Item → Event → Prop :=
| mv_claim user now e :
    it_status i = st_pending → may_work s (it_queue i) user false → has_capacity s (it_queue i) user →
    ev_kind e = ek_claim ∨ ev_kind e = ek_assign → ev_from e = None → ev_to e = Some user →
    moves s i (set_assigned st_claimed (Some user) (Some now) i) e
| mv_reassign user now override e :
    open i = true → supervises s (it_queue i) → missing (ev_reason e) = false → may_work s (it_queue i) user override →
    it_assignee i = Some user ∨ has_capacity s (it_queue i) user →
    ev_kind e = (if override then ek_override else ek_reassign) → ev_payload e = operation "reassign" override →
    ev_from e = it_assignee i → ev_to e = Some user →
    moves s i (set_assigned st_claimed (Some user) (Some now) i) e
| mv_release force e :
    it_status i = st_claimed → owns s i (ev_reason e) force →
    ev_kind e = (if force then ek_override else ek_release) → ev_payload e = operation "release" force →
    ev_from e = it_assignee i → ev_to e = None →
    moves s i (set_assigned st_pending None None i) e
| mv_complete now payload force e :
    it_status i = st_claimed → owns s i (ev_reason e) force →
    ev_kind e = (if force then ek_override else ek_complete) → ev_payload e = with_operation payload "complete" force →
    ev_from e = it_assignee i → ev_to e = None →
    moves s i (set_closed st_completed (Some now) (match actor with Some a => Some a | None => it_assignee i end) (it_canceledAt i) i) e
| mv_cancel now e :
    open i = true → supervises s (it_queue i) → missing (ev_reason e) = false →
    ev_kind e = ek_cancel → ev_from e = it_assignee i → ev_to e = None →
    moves s i (set_closed st_canceled (it_completedAt i) (it_completedBy i) (Some now) i) e
| mv_breach now due at_ e :
    open i = true → it_dueAt i = Some due → due ≤ now → it_breachDetectedAt i = None →
    ev_kind e = ek_deadline_breach → ev_from e = it_assignee i →
    moves s i (set_breached at_ i) e.

Definition fresh_row (i : Item) : Prop :=
  it_status i = st_pending ∧ it_assignee i = None ∧ it_claimedAt i = None ∧ it_breachDetectedAt i = None ∧
  it_completedAt i = None ∧ it_completedBy i = None ∧ it_canceledAt i = None.

Inductive wstep (s s' : Tables) : Prop :=
| ws_drawn :
    queues s' = queues s → perms s' = perms s → items s' = items s → events s' = events s → wstep s s'
| ws_enqueue id i new :
    items s !! id = None → fresh_row i → deadline_shape i = true →
    (∀ j item, items s !! j = Some item → same_entity i item = false) →
    Forall (λ e, ev_item e = id ∧ ev_actor e = actor) new →
    (∃ e, new = [e] ∧ ev_kind e = ek_enqueue) ∨ (∃ e e', new = [e; e'] ∧ ev_kind e = ek_enqueue ∧ ev_kind e' = ek_deadline_set) →
    queues s' = queues s → perms s' = perms s → items s' = <[id := i]> (items s) → events s' = events s ++ new → wstep s s'
| ws_move id i i' e :
    items s !! id = Some i → moves s i i' e → ev_item e = id → ev_actor e = actor →
    queues s' = queues s → perms s' = perms s → items s' = <[id := i']> (items s) → events s' = events s ++ [e] → wstep s s'.
Lemma wstep_queues s s' : wstep s s' → queues s' = queues s.
Proof. by destruct 1. Qed.
Definition wsteps : Tables → Tables → Prop := rtc wstep.
End spec.

(** ** The functions *)

(** Runs a method on a state. *)
Ltac run := unfold mbind, js_bind, mret, js_ret, getf, modify, throw; cbn.

Section functions.
Context (clock : nat → Z) (uuid : nat → string) (load : Z → Q → Q) (time_text : Z → string) (actor : option string).
Notation Sql := (JS Tables WorklistError).

(** What only draws from the clock and the random source. *)
Definition drawn (s s' : Tables) : Prop :=
  queues s' = queues s ∧ items s' = items s ∧ events s' = events s ∧ workers s' = workers s ∧ perms s' = perms s.
Lemma drawn_refl s : drawn s s.
Proof. repeat split. Qed.

Lemma raise_if_ok c code message s u s' : raise_if c code message s = (Ok u, s') → c = false ∧ s' = s.
Proof. unfold raise_if, raise, throw. destruct c; [done|]. by intros [= _ <-]. Qed.
Lemma clock_ok s z s' : clock_timestamp clock s = (Ok z, s') → drawn s s'.
Proof. unfold clock_timestamp. run. intros [= _ <-]. repeat split. Qed.
Lemma uuid_ok s z s' : gen_random_uuid uuid s = (Ok z, s') → drawn s s'.
Proof. unfold gen_random_uuid. run. intros [= _ <-]. repeat split. Qed.
Lemma queue_row_ok q s row s' : queue_row q s = (Ok row, s') → s' = s ∧ queues s !! q = Some row.
Proof. unfold queue_row, raise. run. destruct (queues s !! q); [|done]. by intros [= <- <-]. Qed.
Lemma item_row_ok i s row s' : item_row i s = (Ok row, s') → s' = s ∧ items s !! i = Some row.
Proof. unfold item_row, raise. run. destruct (items s !! i); [|done]. by intros [= <- <-]. Qed.

Lemma insert_event_ok id kind from to reason payload s u s' :
  insert_event clock uuid actor id kind from to reason payload s = (Ok u, s') →
  ∃ eid at_, s' = set_events (events s ++ [{| ev_id := eid; ev_item := id; ev_kind := kind; ev_actor := actor; ev_from := from;
    ev_to := to; ev_reason := reason; ev_payload := payload; ev_createdAt := at_ |}]) (set_draws (S (ticks s)) (S (uuids s)) s)
    ∧ eid ∉ ev_id <$> events s.
Proof.
  unfold insert_event, gen_random_uuid, clock_timestamp, raise_if, raise. run. case_bool_decide; [done|].
  cbn. intros [= _ <-]. eauto.
Qed.

Lemma assert_can_work_ok queue user ig s u s' :
  assert_can_work queue (Some user) ig s = (Ok u, s') → s' = s ∧ may_work s queue user ig.
Proof.
  unfold assert_can_work. intros (q & s1 & [-> Hq]%queue_row_ok & H)%js_bind_ok.
  apply js_bind_ok in H as (h & s2 & [= <- <-] & H). apply js_bind_ok in H as ([] & s3 & [Hh ->]%raise_if_ok & H).
  apply js_bind_ok in H as (w & s4 & [= <- <-] & H). apply raise_if_ok in H as [Hw ->].
  split; [done|]. exists q. split; [done|]. split; [by apply negb_false_iff|].
  destruct ig; [by left|]. right. by apply negb_false_iff.
Qed.
Lemma assert_can_work_some queue user ig s u s' :
  assert_can_work queue user ig s = (Ok u, s') → s' = s ∧ ∃ w, user = Some w ∧ may_work s queue w ig.
Proof.
  destruct user as [w|]; [intros [-> H]%assert_can_work_ok; eauto|].
  unfold assert_can_work, raise, throw. intros (q & s1 & [-> Hq]%queue_row_ok & H)%js_bind_ok. done.
Qed.
Lemma assert_supervisor_ok queue s u s' :
  assert_supervisor actor queue s = (Ok u, s') → s' = s ∧ supervises actor s queue.
Proof.
  unfold assert_supervisor. intros (q & s1 & [-> Hq]%queue_row_ok & H)%js_bind_ok.
  apply js_bind_ok in H as (h & s2 & [= <- <-] & H). apply raise_if_ok in H as [Hh ->]. split; [done|]. apply negb_false_iff in Hh.
  destruct actor as [a|] eqn:Ha; [|done]. by exists q, a.
Qed.
Lemma assert_claim_capacity_ok queue user s u s' :
  assert_claim_capacity queue user s = (Ok u, s') → s' = s ∧ has_capacity s queue user.
Proof.
  unfold assert_claim_capacity. run. intros H. unfold has_capacity.
  destruct (queues s !! queue) as [q|] eqn:Hq; cbn in H; [|by injection H as _ <-; split; [|congruence]].
  destruct (qu_claimLimit q) as [limit|] eqn:Hl; cbn in H; [|injection H as _ <-; split; [done|congruence]].
  apply raise_if_ok in H as [Hc ->]. split; [done|]. intros q' limit' [= <-] ?. simplify_eq. lia.
Qed.
Lemma assert_owner_ok row reason force s u s' :
  assert_owner actor row reason force s = (Ok u, s') → s' = s ∧ owns actor s row reason force.
Proof.
  unfold assert_owner, owns. destruct force.
  - intros ([] & s1 & [Hm ->]%raise_if_ok & [-> H]%assert_supervisor_ok)%js_bind_ok. done.
  - intros [Hb ->]%raise_if_ok. split; [done|]. apply negb_false_iff in Hb. by apply bool_decide_eq_true in Hb.
Qed.

Lemma take_ok id queue user s u s' i :
  items s !! id = Some i → take clock id queue user s = (Ok u, s') →
  ∃ now, queues s' = queues s ∧ perms s' = perms s ∧ events s' = events s ∧
         items s' = <[id := set_assigned st_claimed (Some user) (Some now) i]> (items s).
Proof.
  intros Hi. unfold take, update_item, touch_worker_state, clock_timestamp. run. intros [= _ <-]. cbn.
  eexists. split; [done|]. split; [done|]. split; [done|].
  apply map_eq. intros j. destruct (decide (j = id)) as [->|];
    [rewrite lookup_alter_eq, lookup_insert_eq, Hi; done|by rewrite lookup_alter_ne, lookup_insert_ne].
Qed.
Lemma update_ok id f s u s' i :
  items s !! id = Some i → update_item id f s = (Ok u, s') →
  queues s' = queues s ∧ perms s' = perms s ∧ events s' = events s ∧ items s' = <[id := f i]> (items s).
Proof.
  intros Hi. unfold update_item. run. intros [= _ <-]. cbn. split_and!; [done..|].
  apply map_eq. intros j. destruct (decide (j = id)) as [->|];
    [rewrite lookup_alter_eq, lookup_insert_eq, Hi; done|by rewrite lookup_alter_ne, lookup_insert_ne].
Qed.

(** An item changed and then one event for it. *)
Lemma moved id i i' s s1 s2 kind from to reason payload u :
  items s !! id = Some i →
  queues s1 = queues s → perms s1 = perms s → events s1 = events s → items s1 = <[id := i']> (items s) →
  insert_event clock uuid actor id kind from to reason payload s1 = (Ok u, s2) →
  (∀ eid at_, moves actor s i i' {| ev_id := eid; ev_item := id; ev_kind := kind; ev_actor := actor; ev_from := from; ev_to := to;
                                    ev_reason := reason; ev_payload := payload; ev_createdAt := at_ |}) →
  wsteps actor s s2.
Proof.
  intros Hi Hq Hp He Hit (eid & at_ & -> & _)%insert_event_ok Hm. apply rtc_once.
  eapply (ws_move actor s _ id i i'); [done|apply (Hm eid at_)|done|done|done|done|done|by cbn; rewrite He].
Qed.
End functions.

(** ** Every function of [Worklist] that returns is steps of the abstract work list. *)

Section sim.
Context (clock : nat → Z) (uuid : nat → string) (load : Z → Q → Q) (time_text : Z → string) (actor : option string).

(** Splits the first call off a method that returned. *)
Ltac bind H := let a := fresh "a" in let s := fresh "s" in let H1 := fresh "Hcall" in
  apply js_bind_ok in H as (a & s & H1 & H).
Ltac read H := let a := fresh "a" in let s := fresh "s" in
  apply js_bind_ok in H as (a & s & [= <- <-] & H).

Lemma claim_sim id queue user kind payload s u s' i :
  items s !! id = Some i → it_queue i = queue → it_status i = st_pending → kind = ek_claim ∨ kind = ek_assign →
  may_work s queue user false → has_capacity s queue user →
  (_ ← take clock id queue user; insert_event clock uuid actor id kind None (Some user) None payload) s = (Ok u, s') →
  wsteps actor s s'.
Proof.
  intros Hi <- Hp Hk Hm Hc H. bind H. destruct (take_ok _ _ _ _ _ _ _ _ Hi Hcall) as (now & ? & ? & ? & ?).
  eapply moved; [exact Hi| | | | |exact H|]; [done..|]. intros eid at_. by apply mv_claim.
Qed.

Lemma item_claim_sim id user s u s' : item_claim clock uuid actor id user s = (Ok u, s') → wsteps actor s s'.
Proof.
  unfold item_claim. intros H. bind H. apply item_row_ok in Hcall as [-> Hi].
  bind H. apply raise_if_ok in Hcall as [Hp ->]. apply negb_false_iff, bool_decide_eq_true in Hp.
  bind H. apply assert_can_work_some in Hcall as (-> & w & Hw & Hm). rewrite Hw in H.
  bind H. apply assert_claim_capacity_ok in Hcall as [-> Hc]. eapply claim_sim; [exact Hi| | | | | |exact H]; auto.
Qed.

Lemma first_of_elem l x : first_of l = Some x → x ∈ l.
Proof.
  revert x. induction l as [|y l IH]; intros x; simpl; [done|].
  unfold first_of in *. simpl. destruct (foldr _ None l) as [z|]; [destruct (_ <=? _)|]; intros [= <-]; [left|right; by apply IH|left].
Qed.
Lemma next_item_ok locked queue s id :
  next_item locked queue s = Some id → ∃ i, items s !! id = Some i ∧ it_queue i = queue ∧ it_status i = st_pending ∧ locked id = false.
Proof.
  unfold next_item. intros Hn. destruct (first_of _) as [[id' i]|] eqn:Hf; [|done]. simpl in Hn. injection Hn as ->.
  apply first_of_elem in Hf. rewrite list_elem_of_In, List.filter_In, <- list_elem_of_In, elem_of_map_to_list in Hf. simpl in Hf.
  destruct Hf as [Hi Hb]. exists i. apply andb_true_iff in Hb as [[Hq%String.eqb_eq Hp%bool_decide_eq_true]%andb_true_iff Hl%negb_true_iff].
  done.
Qed.

(** A claim of the next item, of whatever kind. *)
Lemma next_sim locked queue user kind payload s (r : option string) s' :
  may_work s queue user false → has_capacity s queue user → kind = ek_claim ∨ kind = ek_assign →
  (next ← getf (next_item locked queue);
   match next with
   | None => mret None
   | Some item =>
       _ ← take clock item queue user;
       _ ← insert_event clock uuid actor item kind None (Some user) None payload;
       mret (Some item)
   end) s = (Ok r, s') → wsteps actor s s'.
Proof.
  intros Hm Hc Hk H. read H. destruct (next_item locked queue s) as [id|] eqn:Hn; [|by injection H as _ <-].
  apply next_item_ok in Hn as (i & Hi & Hq & Hp & _). bind H. bind H. injection H as _ <-.
  eapply (claim_sim id queue user kind payload s); [exact Hi|done..|]. apply js_bind_ok. eauto.
Qed.
Lemma item_claim_next_sim locked queue user s r s' :
  item_claim_next clock uuid actor locked queue user s = (Ok r, s') → wsteps actor s s'.
Proof.
  unfold item_claim_next. intros H. bind H. apply assert_can_work_some in Hcall as (-> & w & Hw & Hm). rewrite Hw in H.
  bind H. apply assert_claim_capacity_ok in Hcall as [-> Hc]. eapply next_sim; [exact Hm|exact Hc| |exact H]. by left.
Qed.
Lemma item_assign_next_sim locked queue user strategy s r s' :
  item_assign_next clock uuid actor locked queue user strategy s = (Ok r, s') → wsteps actor s s'.
Proof.
  unfold item_assign_next. intros H. bind H. apply assert_can_work_ok in Hcall as [-> Hm].
  bind H. apply assert_claim_capacity_ok in Hcall as [-> Hc]. eapply next_sim; [exact Hm|exact Hc| |exact H]. by right.
Qed.
Lemma assign_next_sim locked queue s r s' :
  assign_next clock uuid load actor locked queue s = (Ok r, s') → wsteps actor s s'.
Proof.
  unfold assign_next. intros H. bind H. apply queue_row_ok in Hcall as [-> Hq]. bind H. apply raise_if_ok in Hcall as [_ ->].
  read H. destruct (first_worker _ _); [by eapply item_assign_next_sim|by injection H as _ <-].
Qed.

Lemma item_release_sim id reason force s u s' :
  item_release clock uuid actor id reason force s = (Ok u, s') → wsteps actor s s'.
Proof.
  unfold item_release. intros H. bind H. apply item_row_ok in Hcall as [-> Hi].
  bind H. apply raise_if_ok in Hcall as [Hp ->]. apply negb_false_iff, bool_decide_eq_true in Hp.
  bind H. apply assert_owner_ok in Hcall as [-> Ho]. bind H.
  destruct (update_ok _ _ _ _ _ _ Hi Hcall) as (? & ? & ? & ?).
  eapply moved; [exact Hi| | | | |exact H|]; [done..|]. intros eid at_. by apply (mv_release actor s a force).
Qed.
Lemma item_complete_sim id note payload force s u s' :
  item_complete clock uuid actor id note payload force s = (Ok u, s') → wsteps actor s s'.
Proof.
  unfold item_complete. intros H. bind H. apply item_row_ok in Hcall as [-> Hi].
  case_bool_decide; [by injection H as _ <-|].
  bind H. apply raise_if_ok in Hcall as [Hp ->]. apply negb_false_iff, bool_decide_eq_true in Hp.
  bind H. apply assert_owner_ok in Hcall as [-> Ho]. bind H. apply clock_ok in Hcall as (Hq & Hit & He & _ & Hpe). bind H.
  rewrite <- Hit in Hi. destruct (update_ok _ _ _ _ _ _ Hi Hcall) as (? & ? & ? & Hit').
  rewrite Hit in Hi, Hit'. eapply moved; [exact Hi| | | |exact Hit'|exact H|]; [congruence..|].
  intros eid at_. by apply (mv_complete actor s a _ payload force).
Qed.
Lemma item_cancel_sim id reason s u s' : item_cancel clock uuid actor id reason s = (Ok u, s') → wsteps actor s s'.
Proof.
  unfold item_cancel. intros H. bind H. apply raise_if_ok in Hcall as [Hr ->]. bind H. apply item_row_ok in Hcall as [-> Hi].
  bind H. apply raise_if_ok in Hcall as [Hp ->]. apply negb_false_iff in Hp.
  bind H. apply assert_supervisor_ok in Hcall as [-> Ho]. bind H. apply clock_ok in Hcall as (Hq & Hit & He & _ & Hpe). bind H.
  rewrite <- Hit in Hi. destruct (update_ok _ _ _ _ _ _ Hi Hcall) as (? & ? & ? & Hit').
  rewrite Hit in Hi, Hit'. eapply moved; [exact Hi| | | |exact Hit'|exact H|]; [congruence..|].
  intros eid at_. by apply mv_cancel.
Qed.
Lemma item_reassign_sim id user reason override s u s' :
  item_reassign clock uuid actor id user reason override s = (Ok u, s') → wsteps actor s s'.
Proof.
  unfold item_reassign. intros H. bind H. apply raise_if_ok in Hcall as [Hr ->]. bind H. apply item_row_ok in Hcall as [-> Hi].
  bind H. apply raise_if_ok in Hcall as [Hp ->]. apply negb_false_iff in Hp.
  bind H. apply assert_supervisor_ok in Hcall as [-> Ho]. bind H. apply assert_can_work_ok in Hcall as [-> Hm].
  bind H. assert (s0 = s ∧ (it_assignee a0 = Some user ∨ has_capacity s (it_queue a0) user)) as [-> Hc].
  { case_bool_decide; [injection Hcall as _ <-; auto|apply assert_claim_capacity_ok in Hcall as [-> ?]; auto]. }
  bind H. destruct (take_ok _ _ _ _ _ _ _ _ Hi Hcall0) as (now & ? & ? & ? & ?).
  eapply moved; [exact Hi| | | | |exact H|]; [done..|]. intros eid at_. by apply (mv_reassign actor s a0 user now override).
Qed.

(** ** Enqueuing *)

Lemma deadline_of_ok due kind q s d s' :
  (match due, qu_slaSeconds q, qu_slaBusinessDays q with
   | None, Some secs, _ => now ← clock_timestamp clock; mret (Some (now + 1000 * secs), Some dk_absolute)
   | None, None, Some _ => raise "WK400" "business calendar deadline must be resolved by the application"
   | _, _, _ => mret (due, kind)
   end : JS Tables WorklistError (option Z * option DeadlineKind)) s = (Ok d, s') → drawn s s'.
Proof.
  destruct due; [by intros [= _ <-]|]. destruct (qu_slaSeconds q).
  - intros H. bind H. injection H as _ <-. by eapply clock_ok.
  - destruct (qu_slaBusinessDays q); [done|by intros [= _ <-]].
Qed.

Lemma item_enqueue_ok code entityType entityId priority due kind days key payload meta s id s' :
  item_enqueue clock uuid time_text actor code entityType entityId priority due kind days key payload meta s = (Ok id, s') →
  items s !! id = None ∧ ∃ i new,
    fresh_row i ∧ deadline_shape i = true ∧ (∀ j item, items s !! j = Some item → same_entity i item = false) ∧
    Forall (λ e, ev_item e = id ∧ ev_actor e = actor) new ∧
    ((∃ e, new = [e] ∧ ev_kind e = ek_enqueue) ∨ (∃ e e', new = [e; e'] ∧ ev_kind e = ek_enqueue ∧ ev_kind e' = ek_deadline_set)) ∧
    queues s' = queues s ∧ perms s' = perms s ∧ items s' = <[id := i]> (items s) ∧ events s' = events s ++ new.
Proof.
  unfold item_enqueue. intros H. bind H. apply raise_if_ok in Hcall as [_ ->]. bind H. apply raise_if_ok in Hcall as [_ ->].
  read H. destruct (List.find _ _) as [[queue q]|]; [|done].
  bind H. destruct a1 as [due' kind']. apply deadline_of_ok in Hcall as (Hq1 & Hi1 & He1 & _ & Hp1).
  bind H. apply uuid_ok in Hcall as (Hq2 & Hi2 & He2 & _ & Hp2). bind H. apply clock_ok in Hcall as (Hq3 & Hi3 & He3 & _ & Hp3).
  bind H. apply raise_if_ok in Hcall as [Hshape%negb_false_iff ->]. read H. bind H. apply raise_if_ok in Hcall as [Hnew ->].
  apply orb_false_iff in Hnew as [Hid Hent]. apply bool_decide_eq_false, eq_None_not_Some in Hid.
  bind H. injection Hcall as _ <-. bind H. apply insert_event_ok in Hcall as (eid & at_ & -> & _). bind H. injection H as <- <-.
  rewrite Hi3, Hi2, Hi1 in *. split; [done|].
  assert (∀ i, existsb (λ p : string * Item, same_entity i p.2) (map_to_list (items s)) = false →
    ∀ j item, items s !! j = Some item → same_entity i item = false) as Hdiff.
  { intros i Hex j item Hj. destruct (same_entity i item) eqn:Hs; [|done]. exfalso. apply not_true_iff_false in Hex. apply Hex.
    apply existsb_exists. exists (j, item). split; [|done]. by rewrite <- list_elem_of_In, elem_of_map_to_list. }
  case_bool_decide; [apply insert_event_ok in Hcall as (eid' & at' & -> & _)|injection Hcall as _ <-]; eexists _.
  - eexists [_; _]. split_and!; last (cbn; by rewrite He3, He2, He1, <- (assoc_L app)); last (cbn; done);
      [by repeat split|exact Hshape|by apply Hdiff|by repeat constructor|right; by eexists _, _|cbn; congruence..].
  - eexists [_]. split_and!; last (cbn; by rewrite He3, He2, He1); last (cbn; done);
      [by repeat split|exact Hshape|by apply Hdiff|by repeat constructor|left; by eexists _|cbn; congruence..].
Qed.
Lemma item_enqueue_sim code entityType entityId priority due kind days key payload meta s id s' :
  item_enqueue clock uuid time_text actor code entityType entityId priority due kind days key payload meta s = (Ok id, s') →
  wsteps actor s s'.
Proof.
  intros (Hid & i & new & Hf & Hs & Hd & Hev & Hk & Hq & Hp & Hi & He)%item_enqueue_ok. apply rtc_once. by eapply ws_enqueue.
Qed.

(** ** Breaches *)

Lemma breach_sim locked now rows s u s' :
  NoDup rows.*1 → Forall (λ p, items s !! p.1 = Some p.2 ∧ breached locked now p = true) rows →
  js_each (λ p, at_ ← clock_timestamp clock;
                _ ← update_item p.1 (set_breached at_);
                insert_event clock uuid actor p.1 ek_deadline_breach (it_assignee p.2) None None
                  (text_field "dueAt" (time_text <$> it_dueAt p.2) ++ text_field "entityType" (Some (it_entityType p.2))
                   ++ text_field "entityId" (Some (it_entityId p.2)))) rows s = (Ok u, s') →
  wsteps actor s s'.
Proof.
  revert s u. induction rows as [|[id i] rows IH]; intros s u Hnd Hall H; [by injection H as _ <-|].
  apply NoDup_cons in Hnd as [Hni Hnd]. apply Forall_cons in Hall as [[Hi Hb] Hall]. cbn [js_each] in H. bind H. bind Hcall.
  apply clock_ok in Hcall0 as (Hq & Hit & He & _ & Hp). bind Hcall. simpl in *.
  rewrite <- Hit in Hi. destruct (update_ok _ _ _ _ _ _ Hi Hcall0) as (? & ? & ? & Hit'). rewrite Hit in Hi, Hit'.
  etrans.
  - eapply moved; [exact Hi| | | |exact Hit'|exact Hcall|]; [congruence..|].
    intros eid at_. unfold breached in Hb. simpl in Hb.
    apply andb_true_iff in Hb as [[[Hopen Hdue]%andb_true_iff Hnone%bool_decide_eq_true]%andb_true_iff _].
    destruct (it_dueAt i) as [due|] eqn:Hd; [|done]. eapply (mv_breach actor s i now due); try done. lia.
  - eapply IH; [done| |exact H]. apply insert_event_ok in Hcall as (eid & at_ & -> & _). cbn. rewrite Hit'.
    apply Forall_forall. intros p Hin. pose proof (proj1 (Forall_forall _ _) Hall p Hin) as [Hpi Hpb]. split; [|done].
    rewrite lookup_insert_ne; [done|]. intros ->. apply Hni. by apply (list_elem_of_fmap_2 fst).
Qed.

Lemma detect_breaches_sim locked limit s r s' :
  detect_breaches clock uuid time_text actor locked limit s = (Ok r, s') → wsteps actor s s'.
Proof.
  unfold detect_breaches. intros H. bind H. apply raise_if_ok in Hcall as [_ ->]. bind H. apply raise_if_ok in Hcall as [_ ->].
  bind H. apply clock_ok in Hcall as (Hq & Hit & He & _ & Hp). read H. read H. bind H. injection H as <- <-.
  transitivity s0; [by apply rtc_once, ws_drawn|]. eapply breach_sim; [| |exact Hcall].
  - rewrite fmap_take. eapply sublist_NoDup; [|apply sublist_take]. rewrite js_sort_perm. apply NoDup_fmap_filter, NoDup_fst_map_to_list.
  - apply Forall_take, Forall_forall. intros p Hin. rewrite js_sort_perm, list_elem_of_In, List.filter_In, <- list_elem_of_In in Hin.
    destruct p as [id i]. rewrite elem_of_map_to_list in Hin. exact Hin.
Qed.
End sim.
