(* ===== verification/WorklistInv.v ===== *)
(** * WorklistInv: what the abstract work list keeps.

    The events of an item are its history: replayed, they give its status and its assignee; an
    item's columns agree with its status; no two open items of a queue are about the same
    entity; a breach is recorded once. A limit of claims holds as long as it stands. *)
From Stdlib Require Import QArith.
From S2P Require Import Prelude JsText JsJson WorklistTypes Worklist WorklistSpec.
Local Open Scope Z_scope.

(** ** Histories *)

Definition operation_of (e : Event) : option string :=
  match List.find (λ p, String.eqb p.1 "operation") (ev_payload e) with Some (_, JString s) => Some s | _ => None end.
(** The status and the assignee after an event. *)
Notation View := (ItemStatus * option string)%type.
Definition apply_event (v : option View) (e : Event) : option View :=
  let closed st := (λ v : View, (st, v.2)) <$> v in
  match ev_kind e with
  | ek_enqueue => Some (st_pending, None)
  | ek_claim | ek_assign | ek_reassign => Some (st_claimed, ev_to e)
  | ek_release => Some (st_pending, None)
  | ek_complete => closed st_completed
  | ek_cancel => closed st_canceled
  | ek_override =>
      match operation_of e with
      | Some op => if String.eqb op "release" then Some (st_pending, None)
                   else if String.eqb op "reassign" then Some (st_claimed, ev_to e)
                   else if String.eqb op "complete" then closed st_completed else None
      | None => None
      end
  | ek_deadline_set | ek_deadline_breach => v
  end.
Definition about (id : string) (e : Event) : bool := String.eqb (ev_item e) id.
Definition replay (id : string) (evs : list Event) : option View := foldl apply_event None (List.filter (about id) evs).
Definition view (i : Item) : View := (it_status i, it_assignee i).
Definition breaches (id : string) (evs : list Event) : nat :=
  length (List.filter (λ e, about id e && bool_decide (ev_kind e = ek_deadline_breach)) evs).

(** ** The invariant *)

Definition item_ok (i : Item) : Prop :=
  deadline_shape i = true ∧
  match it_status i with
  | st_pending => it_assignee i = None ∧ it_claimedAt i = None ∧ it_completedAt i = None ∧ it_canceledAt i = None
  | st_claimed => is_Some (it_assignee i) ∧ is_Some (it_claimedAt i) ∧ it_completedAt i = None ∧ it_canceledAt i = None
  | st_completed => is_Some (it_assignee i) ∧ is_Some (it_completedAt i) ∧ is_Some (it_completedBy i) ∧ it_canceledAt i = None
  | st_canceled => is_Some (it_canceledAt i) ∧ it_completedAt i = None
  end.
Record Inv (s : Tables) : Prop := {
  inv_history id : replay id (events s) = view <$> items s !! id;
  inv_items id i : items s !! id = Some i → item_ok i;
  inv_known e : e ∈ events s → is_Some (items s !! ev_item e);
  inv_open id i id' i' : items s !! id = Some i → items s !! id' = Some i' → same_entity i i' = true → id = id';
  inv_breach id i : items s !! id = Some i →
    breaches id (events s) = (match it_breachDetectedAt i with Some _ => 1 | None => 0 end)%nat }.

Lemma replay_app id evs new : replay id (evs ++ new) = foldl apply_event (replay id evs) (List.filter (about id) new).
Proof. unfold replay. by rewrite List.filter_app, foldl_app. Qed.
Lemma breaches_app id evs new : breaches id (evs ++ new) = (breaches id evs + breaches id new)%nat.
Proof. unfold breaches. by rewrite List.filter_app, length_app. Qed.
Lemma about_other id evs : (∀ e, e ∈ evs → ev_item e ≠ id) → List.filter (about id) evs = [].
Proof.
  intros He. apply filter_all_false, Forall_forall. intros e Hin. unfold about. apply String.eqb_neq. auto.
Qed.
Lemma breaches_other id evs : (∀ e, e ∈ evs → ev_item e ≠ id) → breaches id evs = 0%nat.
Proof.
  intros He. unfold breaches. rewrite filter_all_false; [done|]. apply Forall_forall. intros e Hin. unfold about.
  by rewrite (proj2 (String.eqb_neq _ _)) by auto.
Qed.

(** What a move does to the item and its history. *)
Lemma moves_ok actor s i i' e :
  moves actor s i i' e → item_ok i →
  item_ok i' ∧ apply_event (Some (view i)) e = Some (view i') ∧ open i = true ∧
  it_queue i' = it_queue i ∧ it_entityType i' = it_entityType i ∧ it_entityId i' = it_entityId i ∧
  (ev_kind e ≠ ek_deadline_breach ∧ it_breachDetectedAt i' = it_breachDetectedAt i ∨
   ev_kind e = ek_deadline_breach ∧ it_breachDetectedAt i = None ∧ is_Some (it_breachDetectedAt i')).
Proof.
  intros Hm [Hd Hok]. destruct Hm as [user now e Hp _ _ [Hk|Hk] _ Hto|user now ov e Ho _ _ _ _ Hk Hpl _ Hto|force e Hp _ Hk Hpl _ _|
    now payload force e Hp Hown Hk Hpl _ _|now e Ho _ _ Hk _ _|now due at_ e Ho _ _ Hb Hk _].
  - unfold open, item_ok, apply_event, view. rewrite Hk, Hto, Hp in *. simpl. split_and!; try done; naive_solver.
  - unfold open, item_ok, apply_event, view. rewrite Hk, Hto, Hp in *. simpl. split_and!; try done; naive_solver.
  - assert (it_completedAt i = None ∧ it_canceledAt i = None) as [Hc1 Hc2] by (unfold open in Ho; destruct (it_status i); naive_solver).
    unfold item_ok, apply_event, view, operation_of. rewrite Hk, Hpl, Hto. simpl.
    split_and!; try done; [destruct ov; done|left; destruct ov; done].
  - unfold open, item_ok, apply_event, view, operation_of. rewrite Hk, Hpl, Hp in *. simpl.
    split_and!; try done; try naive_solver; [destruct force; done|left; destruct force; done].
  - assert (open i = true) as Ho by (unfold open; by rewrite Hp). rewrite Hp in Hok.
    unfold item_ok, apply_event, view, operation_of. rewrite Hk, Hpl. simpl. split_and!; try done.
    + naive_solver.
    + destruct actor; naive_solver.
    + naive_solver.
    + destruct force; [|done]. unfold with_operation.
      assert (List.find (λ p : string * json, String.eqb p.1 "operation")
                (List.filter (λ p, negb (String.eqb p.1 "operation")) payload ++ operation "complete" true)
              = Some ("operation"%string, JString "complete")) as ->; [|done].
      clear. induction payload as [|[k v] payload IH]; simpl; [done|]. destruct (String.eqb k "operation") eqn:Hk; simpl; [done|]. by rewrite Hk.
    + left. destruct force; done.
  - assert (it_completedAt i = None) as Hc1 by (unfold open in Ho; destruct (it_status i); naive_solver).
    unfold item_ok, apply_event, view. rewrite Hk. simpl. split_and!; try done. by left.
  - unfold open, item_ok, apply_event, view in *. rewrite Hk. simpl. split_and!; try done. right. by split_and!.
Qed.

Lemma same_entity_cong i i' j : open i = true → it_queue i' = it_queue i → it_entityType i' = it_entityType i →
  it_entityId i' = it_entityId i → same_entity i' j = true → same_entity i j = true.
Proof. intros Ho Hq Ht He. unfold same_entity. rewrite Hq, Ht, He, Ho. by destruct (open i'). Qed.
Lemma same_entity_sym i j : same_entity i j = same_entity j i.
Proof.
  unfold same_entity. rewrite (andb_comm (open i)), (String.eqb_sym (it_queue i)), (String.eqb_sym (it_entityType i)),
    (String.eqb_sym (it_entityId i)). done.
Qed.

Lemma wstep_inv actor s s' : wstep actor s s' → Inv s → Inv s'.
Proof.
  intros Hst [Hh Hi Hk Ho Hb]. destruct Hst as [_ _ Eit Eev|id i new Hid Hf Hs Hd Hev Hkind _ _ Eit Eev|id i i' e Hid Hm He Ha _ _ Eit Eev].
  - split; setoid_rewrite Eit || idtac; setoid_rewrite Eev || idtac; assumption.
  - destruct Hf as (Hst & Has & Hcl & Hbr & Hco & Hcb & Hca).
    assert (∀ e, e ∈ events s → ev_item e ≠ id) as Hold by (intros e Hin <-; destruct (Hk e Hin) as [? ?]; congruence).
    assert (∀ id', id' ≠ id → ∀ e, e ∈ new → ev_item e ≠ id') as Hnew.
    { intros id' Hne e Hin. rewrite Forall_forall in Hev. destruct (Hev e Hin) as [He _]. congruence. }
    split.
    + intros id'. rewrite Eit, Eev, replay_app. destruct (decide (id' = id)) as [->|Hne].
      * rewrite lookup_insert_eq. unfold replay. rewrite (about_other id (events s)) by done. simpl. unfold view. rewrite Hst, Has.
        rewrite filter_all_true.
        -- destruct Hkind as [(e & -> & Hk1)|(e & e' & -> & Hk1 & Hk2)]; simpl; unfold apply_event; rewrite Hk1, ?Hk2; done.
        -- eapply Forall_impl; [exact Hev|]. intros e [He _]. unfold about. rewrite He. apply String.eqb_refl.
      * rewrite lookup_insert_ne by done. rewrite (about_other id' new) by auto. apply Hh.
    + intros id' j. rewrite Eit. destruct (decide (id' = id)) as [->|Hne]; [rewrite lookup_insert_eq|rewrite lookup_insert_ne by done; apply Hi].
      intros [= <-]. split; [done|]. rewrite Hst. done.
    + intros e. rewrite Eev, Eit, elem_of_app. intros [Hin|Hin].
      * apply lookup_insert_is_Some'. right. by apply Hk.
      * rewrite Forall_forall in Hev. destruct (Hev e Hin) as [He _]. rewrite He, lookup_insert_eq. eauto.
    + intros a i1 b i2. rewrite Eit. destruct (decide (a = id)) as [->|Ha], (decide (b = id)) as [->|Hb']; try done;
        rewrite ?lookup_insert_eq, ?lookup_insert_ne by done.
      * intros [= <-] H2 Hsame. rewrite (Hd _ _ H2) in Hsame. done.
      * intros H1 [= <-] Hsame. rewrite same_entity_sym, (Hd _ _ H1) in Hsame. done.
      * apply Ho.
    + intros id' j. rewrite Eit, Eev, breaches_app. destruct (decide (id' = id)) as [->|Hne].
      * rewrite lookup_insert_eq. intros [= <-]. rewrite Hbr, breaches_other by done.
        destruct Hkind as [(e & -> & Hk1)|(e & e' & -> & Hk1 & Hk2)]; unfold breaches; simpl; rewrite Hk1, ?Hk2, !andb_false_r; done.
      * rewrite lookup_insert_ne by done. intros Hj. rewrite (Hb id' j Hj), (breaches_other id' new) by auto. lia.
  - destruct (moves_ok _ _ _ _ _ Hm (Hi id i Hid)) as (Hok & Hview & Hop & Hq & Ht & Hent & Hbr).
    split.
    + intros id'. rewrite Eit, Eev, replay_app. destruct (decide (id' = id)) as [->|Hne].
      * rewrite lookup_insert_eq, (Hh id), Hid. simpl. unfold about. rewrite He, String.eqb_refl. simpl. done.
      * rewrite lookup_insert_ne by done. rewrite about_other; [apply Hh|]. intros e' ->%list_elem_of_singleton. congruence.
    + intros id' j. rewrite Eit. destruct (decide (id' = id)) as [->|Hne]; [rewrite lookup_insert_eq|rewrite lookup_insert_ne by done; apply Hi].
      by intros [= <-].
    + intros e'. rewrite Eev, Eit, elem_of_app, list_elem_of_singleton. intros [Hin| ->].
      * apply lookup_insert_is_Some'. right. by apply Hk.
      * rewrite He, lookup_insert_eq. eauto.
    + intros a i1 b i2. rewrite Eit. destruct (decide (a = id)) as [->|Hna], (decide (b = id)) as [->|Hnb]; try done;
        rewrite ?lookup_insert_eq, ?lookup_insert_ne by done.
      * intros [= <-] H2 Hsame. eapply Ho; [exact Hid|exact H2|]. by eapply same_entity_cong.
      * intros H1 [= <-] Hsame. eapply Ho; [exact H1|exact Hid|]. rewrite same_entity_sym in Hsame |- *. by eapply same_entity_cong.
      * apply Ho.
    + intros id' j. rewrite Eit, Eev, breaches_app. destruct (decide (id' = id)) as [->|Hne].
      * rewrite lookup_insert_eq. intros [= <-]. rewrite (Hb id i Hid). unfold breaches, about. simpl. rewrite He, String.eqb_refl. simpl.
        destruct Hbr as [[Hnk ->]|(Hk1 & -> & [t ->])]; [rewrite bool_decide_eq_false_2 by done|rewrite bool_decide_eq_true_2 by done]; simpl; lia.
      * rewrite lookup_insert_ne by done. intros Hj. rewrite (Hb id' j Hj), (breaches_other id' [e]); [lia|].
        intros e' ->%list_elem_of_singleton. congruence.
Qed.

Lemma wsteps_inv actor s s' : wsteps actor s s' → Inv s → Inv s'.
Proof. induction 1 as [|? ? ? Hst _ IH]; [done|]. intros. by eapply IH, wstep_inv. Qed.
Lemma empty_inv s : items s = ∅ → events s = [] → Inv s.
Proof.
  intros Hi He. split.
  - intros id. by rewrite Hi, lookup_empty, He.
  - intros id i. by rewrite Hi, lookup_empty.
  - intros e. rewrite He. by intros ?%elem_of_nil.
  - intros id i id' i'. by rewrite Hi, lookup_empty.
  - intros id i. by rewrite Hi, lookup_empty.
Qed.

(** ** Claims *)

Lemma filter_perm_length {A} (f : A → bool) l1 l2 : l1 ≡ₚ l2 → length (List.filter f l1) = length (List.filter f l2).
Proof.
  induction 1 as [|x l1 l2 _ IH|x y l|l1 l2 l3 _ IH1 _ IH2]; simpl; [done| | |congruence].
  - by destruct (f x); simpl; rewrite ?IH.
  - by destruct (f x), (f y).
Qed.
Lemma claims_insert s s' queue user id i i' :
  items s !! id = Some i → items s' = <[id := i']> (items s) →
  open_claim_count s' queue user + Z.b2z (holds_claim queue user i) = open_claim_count s queue user + Z.b2z (holds_claim queue user i').
Proof.
  intros Hi Hs'. unfold open_claim_count. rewrite Hs', <- insert_delete_eq.
  rewrite (filter_perm_length _ _ _ (map_to_list_insert (delete id (items s)) id i' (lookup_delete_eq _ _))).
  rewrite <- (insert_delete_id (items s) id i Hi) at 2.
  rewrite (filter_perm_length _ _ _ (map_to_list_insert (delete id (items s)) id i (lookup_delete_eq _ _))).
  simpl. destruct (holds_claim queue user i), (holds_claim queue user i'); simpl; lia.
Qed.
Lemma claims_new s s' queue user id i :
  items s !! id = None → items s' = <[id := i]> (items s) → holds_claim queue user i = false →
  open_claim_count s' queue user = open_claim_count s queue user.
Proof.
  intros Hi Hs' Hc. unfold open_claim_count. rewrite Hs'. rewrite (filter_perm_length _ _ _ (map_to_list_insert (items s) id i Hi)).
  simpl. by rewrite Hc.
Qed.

(** No step takes a user past a limit. *)
Lemma wstep_limit actor s s' queue user limit :
  wstep actor s s' → Inv s → (∃ q, queues s !! queue = Some q ∧ qu_claimLimit q = Some limit) →
  open_claim_count s queue user ≤ limit → open_claim_count s' queue user ≤ limit.
Proof.
  intros Hst Hinv (q & Hq & Hl) Hc. destruct Hst as [_ _ Eit Eev|id i new Hid Hf _ _ _ _ _ _ Eit _|id i i' e Hid Hm _ _ _ _ Eit _].
  - unfold open_claim_count. by rewrite Eit.
  - rewrite (claims_new s s' queue user id i Hid Eit); [done|]. unfold holds_claim. destruct Hf as (-> & _).
    by rewrite andb_false_r.
  - pose proof (claims_insert s s' queue user id i i' Hid Eit) as Hcount. pose proof (inv_items s Hinv id i Hid) as [_ Hok].
    assert (holds_claim queue user i' = true → holds_claim queue user i = true ∨ open_claim_count s queue user < limit) as Htake.
    { unfold holds_claim. destruct Hm as [w now e Hp _ Hcap _ _ _|w now ov e Ho _ _ _ Hcap _ _ _ _|force e Hp|now payload force e Hp|now e Ho|]; simpl;
        rewrite ?andb_true_iff, ?bool_decide_eq_true, ?String.eqb_eq; try naive_solver.
      intros [[<- [= ->]] _]. destruct Hcap as [Ha|Hcap]; [|right; by eapply Hcap]. left. split; [done|].
      unfold open in Ho. destruct (it_status i); naive_solver. }
    destruct (holds_claim queue user i'), (holds_claim queue user i); simpl in Hcount; try lia.
Qed.
