(* ===== verification/WorklistPublish.v ===== *)
(** * WorklistPublish: the service publishes the ledger.

    When the sink takes every event and the clock moves on at each reading, what was published is
    the ledger of the tables, event by event and in order, whichever calls returned or failed:
    each call reads back just the events its transaction appended. *)
From Stdlib Require Import QArith.
From stdpp Require Import sorting.
From S2P Require Import Prelude JsMap JsText JsJson WorklistTypes BusinessCalendar Worklist WorklistItems WorklistSpec WorklistInv.

(** ** Which events a function appends, and that the service publishes just those.

    Under a clock that moves on at each reading, the ledger is in the order of its timestamps, so
    that the events a call reads back are the ones it wrote. *)

Local Open Scope Z_scope.

(** ** Appending *)

Section appends.
Context (clock : nat → Z) (uuid : nat → string) (load : Z → Q → Q) (time_text : Z → string) (actor : option string).

(** Between two states events were appended, all of [P], stamped by readings made in between. *)
Definition grows (P : Event → Prop) (t t' : Tables) : Prop :=
  (ticks t ≤ ticks t')%nat ∧ ∃ new ks, events t' = events t ++ new ∧ Forall P new ∧
    ev_createdAt <$> new = clock <$> ks ∧ StronglySorted lt ks ∧ Forall (λ k, ticks t ≤ k < ticks t')%nat ks.
Definition appends {A} (P : Event → Prop) (m : JS Tables WorklistError A) : Prop := ∀ t, grows P t (m t).2.

Lemma grows_drawn P t t' : (ticks t ≤ ticks t')%nat → events t' = events t → grows P t t'.
Proof. intros Hk He. split; [done|]. exists [], []. rewrite app_nil_r. repeat split; try done; constructor. Qed.
Lemma grows_trans P t1 t2 t3 : grows P t1 t2 → grows P t2 t3 → grows P t1 t3.
Proof.
  intros (H1 & n1 & k1 & E1 & P1 & C1 & S1 & R1) (H2 & n2 & k2 & E2 & P2 & C2 & S2 & R2). split; [lia|].
  exists (n1 ++ n2), (k1 ++ k2). split_and!.
  - by rewrite E2, E1, (assoc_L app).
  - by apply Forall_app.
  - by rewrite !fmap_app, C1, C2.
  - apply StronglySorted_app_2; [|done..]. intros x y Hx Hy. rewrite Forall_forall in R1, R2. specialize (R1 x Hx). specialize (R2 y Hy). lia.
  - apply Forall_app. split; (eapply Forall_impl; [eassumption|]); simpl; intros; lia.
Qed.
Lemma grows_weaken (P P' : Event → Prop) t t' : (∀ e, P e → P' e) → grows P t t' → grows P' t t'.
Proof. intros HP (H & new & ks & ? & HF & ?). split; [done|]. exists new, ks. split; [done|]. split; [by eapply Forall_impl|done]. Qed.

Lemma appends_ret {A} P (a : A) : appends P (mret a).
Proof. intros t. by apply grows_drawn. Qed.
Lemma appends_throw {A} P e : appends P (throw e : JS Tables WorklistError A).
Proof. intros t. by apply grows_drawn. Qed.
Lemma appends_raise {A} P c m : appends P (raise c m : JS Tables WorklistError A).
Proof. apply appends_throw. Qed.
Lemma appends_raise_if P b c m : appends P (raise_if b c m).
Proof. unfold raise_if. destruct b; [apply appends_raise|apply appends_ret]. Qed.
Lemma appends_getf {A} P (f : Tables → A) : appends P (getf f).
Proof. intros t. by apply grows_drawn. Qed.
Lemma appends_modify P (f : Tables → Tables) : (∀ t, ticks (f t) = ticks t ∧ events (f t) = events t) → appends P (modify f).
Proof. intros Hf t. destruct (Hf t). apply grows_drawn; simpl; [lia|done]. Qed.
Lemma appends_bind {A B} P (m : JS Tables WorklistError A) (f : A → JS Tables WorklistError B) :
  appends P m → (∀ a, appends P (f a)) → appends P (m ≫= f).
Proof.
  intros Hm Hf t. specialize (Hm t). unfold mbind, js_bind. destruct (m t) as [[a|e] t1]; simpl in *; [|done].
  eapply grows_trans; [exact Hm|apply Hf].
Qed.
Lemma appends_clock P : appends P (clock_timestamp clock).
Proof. intros t. apply grows_drawn; simpl; [lia|done]. Qed.
Lemma appends_uuid P : appends P (gen_random_uuid uuid).
Proof. intros t. by apply grows_drawn. Qed.
Lemma appends_event (P : Event → Prop) id kind from to reason payload :
  (∀ e, ev_item e = id → P e) → appends P (insert_event clock uuid actor id kind from to reason payload).
Proof.
  intros HP t. unfold insert_event, gen_random_uuid, clock_timestamp, raise_if, raise. run. case_bool_decide; simpl.
  { apply grows_drawn; simpl; [lia|done]. }
  split; [simpl; lia|]. eexists [_], [ticks t]. split; [done|]. split_and!; simpl; try done.
  - constructor; [by apply HP|constructor].
  - repeat constructor.
  - constructor; [lia|constructor].
Qed.
Create HintDb appends discriminated.
Hint Resolve appends_ret appends_throw appends_raise appends_raise_if appends_getf appends_bind appends_clock appends_uuid appends_event : appends.
Hint Extern 1 (appends _ (update_item _ _)) => apply appends_modify; by intros : appends.
Hint Extern 1 (appends _ (modify _)) => apply appends_modify; by intros : appends.
Hint Extern 2 (∀ _, appends _ _) => intros ? : appends.
Hint Extern 2 (appends _ _) => lazymatch goal with |- appends _ (match ?x with _ => _ end) => destruct x end : appends.
Hint Extern 3 => lazymatch goal with |- ∀ _, ev_item _ = _ → _ => by intros end : appends.

Lemma appends_queue_row P q : appends P (queue_row q).
Proof. unfold queue_row. auto 10 with appends. Qed.
Lemma appends_item_row P q : appends P (item_row q).
Proof. unfold item_row. auto 10 with appends. Qed.
Hint Resolve appends_queue_row appends_item_row : appends.
Lemma appends_can_work P q u b : appends P (assert_can_work q u b).
Proof. unfold assert_can_work. auto 10 with appends. Qed.
Lemma appends_supervisor P q : appends P (assert_supervisor actor q).
Proof. unfold assert_supervisor. auto 10 with appends. Qed.
Lemma appends_capacity P q u : appends P (assert_claim_capacity q u).
Proof. unfold assert_claim_capacity. auto 10 with appends. Qed.
Lemma appends_take P i q u : appends P (take clock i q u).
Proof. unfold take, touch_worker_state. auto 10 with appends. Qed.
Hint Resolve appends_can_work appends_supervisor appends_capacity appends_take : appends.
Lemma appends_owner P row r b : appends P (assert_owner actor row r b).
Proof. unfold assert_owner. auto 10 with appends. Qed.
Hint Resolve appends_owner : appends.

Notation item_is id := (λ e : Event, ev_item e = id).
Lemma appends_claim id user : appends (item_is id) (item_claim clock uuid actor id user).
Proof. unfold item_claim. auto 20 with appends. Qed.
Lemma appends_release id r b : appends (item_is id) (item_release clock uuid actor id r b).
Proof. unfold item_release. auto 20 with appends. Qed.
Lemma appends_complete id r p b : appends (item_is id) (item_complete clock uuid actor id r p b).
Proof. unfold item_complete. auto 20 with appends. Qed.
Lemma appends_cancel id r : appends (item_is id) (item_cancel clock uuid actor id r).
Proof. unfold item_cancel. auto 20 with appends. Qed.
Lemma appends_reassign id u r b : appends (item_is id) (item_reassign clock uuid actor id u r b).
Proof. unfold item_reassign. auto 20 with appends. Qed.
Notation any := (λ _ : Event, True).
Lemma appends_enqueue a b c d e f g h i j : appends any (item_enqueue clock uuid time_text actor a b c d e f g h i j).
Proof. unfold item_enqueue. auto 30 with appends. Qed.
Lemma appends_claim_next l q u : appends any (item_claim_next clock uuid actor l q u).
Proof. unfold item_claim_next. auto 30 with appends. Qed.
Lemma appends_assign l q u st : appends any (item_assign_next clock uuid actor l q u st).
Proof. unfold item_assign_next. auto 30 with appends. Qed.
Hint Resolve appends_assign : appends.
Lemma appends_assign_next l q : appends any (assign_next clock uuid load actor l q).
Proof. unfold assign_next. auto 30 with appends. Qed.
Lemma appends_breaches l n : appends any (detect_breaches clock uuid time_text actor l n).
Proof.
  unfold detect_breaches. assert (∀ rows, appends any (js_each (λ p : string * Item, at_ ← clock_timestamp clock;
                    _ ← update_item p.1 (set_breached at_);
                    insert_event clock uuid actor p.1 ek_deadline_breach (it_assignee p.2) None None
                      (text_field "dueAt" (time_text <$> it_dueAt p.2) ++ text_field "entityType" (Some (it_entityType p.2))
                       ++ text_field "entityId" (Some (it_entityId p.2)))) rows)) as Heach.
  { induction rows; simpl; auto 20 with appends. }
  auto 30 with appends.
Qed.
End appends.

(** ** Sorted ledgers *)

Lemma js_sort_sorted_id {A} (le : A → A → bool) l : StronglySorted (λ a b, le a b = true) l → js_sort le l = l.
Proof.
  induction 1 as [|x l _ IH Hx]; [done|]. simpl. rewrite IH. destruct l as [|y l]; [done|].
  apply Forall_cons in Hx as [Hxy _]. simpl. by rewrite Hxy.
Qed.
Lemma filter_sorted {A} (R : A → A → Prop) (f : A → bool) l : StronglySorted R l → StronglySorted R (List.filter f l).
Proof.
  induction 1 as [|x l _ IH Hx]; simpl; [constructor|]. destruct (f x); [|done]. constructor; [done|].
  apply Forall_forall. intros y. rewrite list_elem_of_In, List.filter_In, <- list_elem_of_In. intros [Hy _].
  by eapply Forall_forall in Hx.
Qed.

Section publish.
Context (clock : nat → Z) (uuid : nat → string) (load : Z → Q → Q) (time_text : Z → string) (actor : option string).
Context (clock_moves : ∀ m n, (m < n)%nat → clock m < clock n).

(** The events were stamped by readings of the clock, one after the other. *)
Definition stamped (t : Tables) : Prop := ∃ ks,
  ev_createdAt <$> events t = clock <$> ks ∧ StronglySorted lt ks ∧ Forall (λ k, k < ticks t)%nat ks.
Lemma stamped_grows P t t' : stamped t → grows clock P t t' → stamped t'.
Proof.
  intros (ks & Hc & Hs & Hk) (Hle & new & ks' & He & _ & Hc' & Hs' & Hk'). exists (ks ++ ks'). split_and!.
  - by rewrite He, !fmap_app, Hc, Hc'.
  - apply StronglySorted_app_2; [|done..]. intros x y Hx Hy. rewrite Forall_forall in Hk, Hk'.
    specialize (Hk x Hx). specialize (Hk' y Hy). lia.
  - apply Forall_app. split; (eapply Forall_impl; [eassumption|]); simpl; intros; lia.
Qed.
Lemma stamped_sorted t : stamped t → StronglySorted (λ a b, event_le a b = true) (events t).
Proof using clock_moves.
  intros (ks & Hc & Hs & _). revert Hc. generalize (events t). induction Hs as [|k ks _ IH Hk]; intros l; destruct l as [|e l]; try done.
  { constructor. }
  cbn. intros [= He Hl]. constructor; [by apply IH|]. apply Forall_forall. intros e' He'.
  apply (list_elem_of_fmap_2 ev_createdAt) in He'. rewrite Hl in He'. apply list_elem_of_fmap in He' as (k' & Hk' & Hin).
  eapply Forall_forall in Hk; [|exact Hin]. unfold event_le. rewrite He, Hk', (proj2 (Z.ltb_lt _ _)) by auto. done.
Qed.
Lemma events_of_stamped id t : stamped t → events_of id t = List.filter (about id) (events t).
Proof using clock_moves. intros Ht. apply js_sort_sorted_id, filter_sorted, stamped_sorted, Ht. Qed.

(** ** Claims append the event they name *)

Ltac bind H := let a := fresh "a" in let s := fresh "s" in let H1 := fresh "Hcall" in
  apply js_bind_ok in H as (a & s & H1 & H).

Definition names (t : Tables) (r : option string) (t' : Tables) : Prop :=
  match r with None => events t' = events t | Some id => ∃ e, ev_item e = id ∧ events t' = events t ++ [e] end.
Lemma next_names locked queue user kind payload s r s' :
  (next ← getf (next_item locked queue);
   match next with
   | None => mret None
   | Some item =>
       _ ← take clock item queue user;
       _ ← insert_event clock uuid actor item kind None (Some user) None payload;
       mret (Some item)
   end) s = (Ok r, s') → names s r s'.
Proof.
  intros H. apply js_bind_ok in H as (next & s1 & [= <- <-] & H). destruct (next_item locked queue s) as [id|] eqn:Hn; [|injection H as <- <-; exact eq_refl].
  apply next_item_ok in Hn as (i & Hi & _). bind H. destruct (take_ok _ _ _ _ _ _ _ _ Hi Hcall) as (now & _ & _ & He & _).
  bind H. injection H as <- <-. apply insert_event_ok in Hcall0 as (eid & at_ & -> & _). cbn. rewrite He. eexists; split; [|reflexivity]; reflexivity.
Qed.
Lemma item_claim_next_names locked queue user s r s' :
  item_claim_next clock uuid actor locked queue user s = (Ok r, s') → names s r s'.
Proof.
  unfold item_claim_next. intros H. bind H. apply assert_can_work_some in Hcall as (-> & w & Hw & _). rewrite Hw in H.
  bind H. apply assert_claim_capacity_ok in Hcall as [-> _]. by eapply next_names.
Qed.
Lemma item_assign_next_names locked queue user strategy s r s' :
  item_assign_next clock uuid actor locked queue user strategy s = (Ok r, s') → names s r s'.
Proof.
  unfold item_assign_next. intros H. bind H. apply assert_can_work_ok in Hcall as [-> _].
  bind H. apply assert_claim_capacity_ok in Hcall as [-> _]. by eapply next_names.
Qed.
Lemma assign_next_names locked queue s r s' :
  assign_next clock uuid load actor locked queue s = (Ok r, s') → names s r s'.
Proof.
  unfold assign_next. intros H. bind H. apply queue_row_ok in Hcall as [-> _]. bind H. apply raise_if_ok in Hcall as [_ ->].
  bind H. injection Hcall as _ <-. destruct (first_worker _ _); [by eapply item_assign_next_names|by injection H as <- <-].
Qed.
End publish.

(** ** Calls *)

Section service.
Context (clock : nat → Z) (uuid : nat → string) (load : Z → Q → Q) (time_text : Z → string) (sink : nat → bool) (actor : option string).
Context (clock_moves : ∀ m n, (m < n)%nat → clock m < clock n) (sink_takes : ∀ n, sink n = true).

(** A state whose ledger is in order, and a call that publishes what it appends. *)
Record sound (s : Service) : Prop := { sd_stamped : stamped clock (tables s); sd_inv : Inv (tables s) }.
Definition appended (R : list Event → list Event → Prop) (s s' : Service) : Prop :=
  ∃ new evs, events (tables s') = events (tables s) ++ new ∧ published s' = published s ++ evs ∧ R new evs.
Definition keeps {A} (m : JS Service WorklistError A) : Prop := ∀ s, sound s → sound (m s).2 ∧ appended eq s (m s).2.
Definition pub (evs : list Event) (s : Service) : Service :=
  {| tables := tables s; published := published s ++ evs; publications := publications s + length evs |}.

Lemma publish_all evs s : publish sink evs s = (Ok (), pub evs s).
Proof using sink_takes.
  revert s. induction evs as [|e evs IH]; intros [t p n].
  - unfold pub. simpl. by rewrite app_nil_r, Nat.add_0_r.
  - unfold publish in *. cbn [js_each]. unfold mbind, js_bind, publish_one. simpl. rewrite sink_takes, IH. unfold pub. simpl.
    by rewrite <- (assoc_L app), Nat.add_succ_r.
Qed.
Lemma publish_then {A} evs (a : A) s : (publish sink evs ≫= (λ _, mret a : JS Service WorklistError A)) s = (Ok a, pub evs s).
Proof using sink_takes. unfold mbind, js_bind. by rewrite publish_all. Qed.
Lemma pub_nil s : pub [] s = s.
Proof. destruct s. unfold pub. simpl. by rewrite app_nil_r, Nat.add_0_r. Qed.

Lemma appended_refl R s : R [] [] → appended R s s.
Proof. exists [], []. by rewrite !app_nil_r. Qed.
Lemma keeps_pure {A} (m : JS Service WorklistError A) : (∀ s, (m s).2 = s) → keeps m.
Proof. intros Hm s Hs. rewrite Hm. split; [done|by apply appended_refl]. Qed.
Lemma keeps_bind {A B} (m : JS Service WorklistError A) (f : A → JS Service WorklistError B) :
  keeps m → (∀ a, keeps (f a)) → keeps (m ≫= f).
Proof.
  intros Hm Hf s Hs. specialize (Hm s Hs). unfold mbind, js_bind. destruct (m s) as [[a|e] s1]; [|done].
  destruct Hm as [H1 (n1 & ? & E1 & P1 & <-)]. destruct (Hf a s1 H1) as [H2 (n2 & ? & E2 & P2 & <-)]. split; [done|].
  simpl in *. exists (n1 ++ n2), (n1 ++ n2). by rewrite E2, E1, P2, P1, !(assoc_L app).
Qed.
Lemma mapped_state {A} (m : JS Service WorklistError A) s : (mapped m s).2 = (m s).2.
Proof. unfold mapped, js_catch. by destruct (m s) as [[a|e] s1]. Qed.

(** A transaction that appends events, and what is published after it. *)
Lemma sound_tx {A B} P R (m : JS Tables WorklistError B) (out : B → list Event) (k : B → JS Service WorklistError A) s :
  sound s → grows clock P (tables s) (m (tables s)).2 → R [] [] →
  (∀ b t, m (tables s) = (Ok b, t) → wsteps actor (tables s) t ∧ ∃ new, events t = events (tables s) ++ new ∧ R new (out b)) →
  (∀ b s', (k b s').2 = pub (out b) s') → sound ((tx m ≫= k) s).2 ∧ appended R s ((tx m ≫= k) s).2.
Proof.
  intros [Hst Hinv] Hg HR Hm Hk. unfold mbind, js_bind, tx.
  destruct (m (tables s)) as [[b|e] t]; simpl in Hg.
  - destruct (Hm b t eq_refl) as (Hw & new & Hn & Hout). rewrite Hk. split; [split; simpl; [by eapply stamped_grows|by eapply wsteps_inv]|].
    by exists new, (out b).
  - simpl. split; [|by exists [], []; simpl; rewrite !app_nil_r]. split; simpl; [|by destruct Hinv].
    destruct Hst as (ks & ? & ? & Hks). exists ks. split_and!; [done..|].
    destruct Hg as [Hle _]. eapply Forall_impl; [exact Hks|]. simpl. lia.
Qed.

(** What only reads the tables after [m]. *)
Lemma grows_read {A B} P (m : JS Tables WorklistError A) (f : A → JS Tables WorklistError B) :
  appends clock P m → (∀ a t, (f a t).2 = t) → ∀ t, grows clock P t ((m ≫= f) t).2.
Proof.
  intros Hm Hf t. specialize (Hm t). unfold mbind, js_bind. destruct (m t) as [[a|e] t1]; simpl in *; [|done]. by rewrite Hf.
Qed.
Lemma getInTransaction_ok id t row t' : getInTransaction id t = (Ok row, t') → t' = t.
Proof. unfold getInTransaction, throw. run. destruct (items t !! id); [|done]. by intros [= _ <-]. Qed.
Lemma getInTransaction_state id t : (getInTransaction id t).2 = t.
Proof. unfold getInTransaction, throw. run. by destruct (items t !! id). Qed.

Lemma filter_about_same id (new : list Event) : Forall (λ e, ev_item e = id) new → List.filter (about id) new = new.
Proof.
  induction 1 as [|e new He _ IH]; [done|]. simpl. unfold about at 1. rewrite (proj2 (String.eqb_eq _ _)) by done. by rewrite IH.
Qed.
(** A mutation publishes the events of its item since they were counted, its own last. *)
Definition since_count (id : string) (more new evs : list Event) : Prop :=
  (new = [] ∧ evs = []) ∨ evs = List.filter (about id) more ++ new.
Lemma counted_mutation id m seen more s :
  appends clock (λ e, ev_item e = id) m → (∀ t u t', m t = (Ok u, t') → wsteps actor t t') →
  sound s → events (tables s) = events seen ++ more →
  sound (itemMutation_from sink seen id m s).2 ∧ appended (since_count id more) s (itemMutation_from sink seen id m s).2.
Proof using clock_moves sink_takes.
  intros Ha Hw Hs Hmore. unfold itemMutation_from. rewrite mapped_state. pose proof (sd_stamped s Hs) as Hst.
  eapply (sound_tx _ _ _ snd); [done|apply grows_read; [exact Ha|]|by left| |].
  - intros [] t. run. pose proof (getInTransaction_state id t). by destruct (getInTransaction id t) as [[row|e] t1].
  - intros [row new] t H. apply js_bind_ok in H as (u & t1 & Hm & H). apply js_bind_ok in H as (row' & t2 & ->%getInTransaction_ok & H).
    apply js_bind_ok in H as (all & t2 & [= <- <-] & [= _ <- <-]). split; [by eapply Hw|].
    pose proof (Ha (tables s)) as Hg. rewrite Hm in Hg. simpl in Hg. simpl.
    rewrite (events_of_stamped clock clock_moves) by (by eapply stamped_grows). destruct Hg as (_ & new & ks & He & Hnew & _).
    exists new. split; [done|]. right. by rewrite He, Hmore, !List.filter_app, <- (assoc_L app), drop_app_length, (filter_about_same id new).
  - intros [row new] s'. by rewrite publish_then.
Qed.
Lemma keeps_mutation id m :
  appends clock (λ e, ev_item e = id) m → (∀ t u t', m t = (Ok u, t') → wsteps actor t t') → keeps (itemMutation sink id m).
Proof using clock_moves sink_takes.
  intros Ha Hw s Hs. destruct (counted_mutation id m (tables s) [] s Ha Hw Hs) as (H1 & new & evs & He & Hp & Hr).
  { by rewrite app_nil_r. }
  split; [exact H1|]. exists new, evs. split; [exact He|]. split; [exact Hp|]. by destruct Hr as [[-> ->]| ->].
Qed.
Lemma keeps_claiming m :
  appends clock (λ _, True) m → (∀ t r t', m t = (Ok r, t') → wsteps actor t t' ∧ names t r t') → keeps (claimingMutation sink m).
Proof using clock_moves sink_takes.
  intros Ha Hw s Hs. unfold claimingMutation. rewrite mapped_state. pose proof (sd_stamped s Hs) as Hst.
  eapply (sound_tx _ _ _ (λ r, match r with Some (_, new) => new | None => [] end)); [done|apply grows_read; [exact Ha|]|done| |].
  - intros [id|] t; [|done]. run. pose proof (getInTransaction_state id t). by destruct (getInTransaction id t) as [[row|e] t1].
  - intros b t H. apply js_bind_ok in H as (r & t1 & Hm & H). destruct (Hw _ _ _ Hm) as [Hsteps Hn].
    destruct r as [id|]; [|injection H as <- <-; simpl in *; split; [done|exists []; by rewrite app_nil_r]].
    apply js_bind_ok in H as (row' & t2 & ->%getInTransaction_ok & H). apply js_bind_ok in H as (all & t2 & [= <- <-] & [= <- <-]).
    split; [done|]. simpl. pose proof (Ha (tables s)) as Hg. rewrite Hm in Hg. simpl in Hg.
    rewrite (events_of_stamped clock clock_moves) by (by eapply stamped_grows). destruct Hn as (e & He & ->). exists [e]. split; [done|].
    rewrite List.filter_app, (filter_about_same id [e]) by (by repeat constructor). by rewrite last_snoc.
  - intros [[row new]|] s'; [by rewrite publish_then|by rewrite pub_nil].
Qed.

Lemma appends_getInTransaction P id : appends clock P (getInTransaction id).
Proof. intros t. rewrite getInTransaction_state. by apply grows_drawn. Qed.
Lemma keeps_enqueue calendar tenantId now value : keeps (enqueue clock uuid time_text sink calendar tenantId actor now value).
Proof using clock_moves sink_takes.
  unfold enqueue. apply keeps_bind; [by apply keeps_pure|]. intros [[queue q]|]; [|by apply keeps_pure].
  apply keeps_bind; [by apply keeps_pure|]. intros [d|]; [|by apply keeps_pure].
  intros s Hs. rewrite mapped_state. destruct Hs as [Hst Hinv]. eapply (sound_tx (λ _, True) _ _ snd); [done| |done| |].
  - apply appends_bind; [case_bool_decide; [apply appends_throw|apply appends_ret]|]. intros _.
    apply appends_bind; [apply appends_enqueue|]. intros id. apply appends_bind; [apply appends_getInTransaction|]. intros row.
    apply appends_bind; [apply appends_getf|]. intros all. apply appends_ret.
  - intros [row new] t H. apply js_bind_ok in H as (u & s1 & Hu & H). assert (s1 = tables s) as -> by (case_bool_decide; [done|by injection Hu]).
    apply js_bind_ok in H as (id & t1 & Hi & H). apply js_bind_ok in H as (row' & t2 & ->%getInTransaction_ok & H).
    apply js_bind_ok in H as (all & t2 & [= <- <-] & [= _ <- <-]). split; [by eapply item_enqueue_sim|]. simpl.
    epose proof (appends_enqueue clock uuid time_text actor _ _ _ _ _ _ _ _ _ _ (tables s)) as Hg. rewrite Hi in Hg. simpl in Hg.
    rewrite (events_of_stamped clock clock_moves) by (by eapply stamped_grows).
    apply item_enqueue_ok in Hi as (Hid & i & new & _ & _ & _ & Hnew & _ & _ & _ & _ & ->). exists new. split; [done|].
    rewrite List.filter_app, (about_other id (events (tables s))), filter_about_same; [done| |].
    + eapply Forall_impl; [exact Hnew|]. by intros e [].
    + intros e He <-. destruct (inv_known _ Hinv e He) as [i' Hi']. congruence.
  - intros [row new] s'. by rewrite publish_then.
Qed.
Lemma keeps_detect locked limit : keeps (detectBreaches clock uuid time_text sink actor locked limit).
Proof using clock_moves sink_takes.
  unfold detectBreaches. destruct (_ || _) eqn:Hl; [by apply keeps_pure|]. intros s Hs. rewrite mapped_state.
  pose proof (appends_breaches clock uuid time_text actor locked limit (tables s)) as Hg.
  eapply (sound_tx _ _ _ id); [done|exact Hg|done| |].
  - intros new t H. split; [by eapply detect_breaches_sim|]. rewrite H in Hg. destruct Hg as (_ & evs & _ & He & _). simpl in He.
    unfold id. revert H. unfold detect_breaches. intros H.
    apply js_bind_ok in H as (a & s1 & [_ ->]%raise_if_ok & H). apply js_bind_ok in H as (a1 & s1 & [_ ->]%raise_if_ok & H).
    apply js_bind_ok in H as (a2 & s1 & (_ & _ & Hev & _)%clock_ok & H). apply js_bind_ok in H as (rows & s2 & [= <- <-] & H).
    apply js_bind_ok in H as (n & s2 & [= <- <-] & H). apply js_bind_ok in H as (a3 & s2 & _ & [= <- <-]).
    exists evs. split; [done|]. by rewrite Hev, He, drop_app_length.
  - intros new s'. by rewrite publish_then.
Qed.
End service.
