(* ===== verification/WorklistOrder.v ===== *)
(** * WorklistOrder: which item a claim takes. *)
From Stdlib Require Import QArith Ascii.
From S2P Require Import Prelude JsText JsJson WorklistTypes Worklist WorklistSpec.
Local Open Scope Z_scope.

(** ** Comparisons *)

(** A comparison of a total preorder, as [order by] and [sort] use them. *)
Record comparison_of {A} (c : A → A → Z) : Prop := {
  cmp_opp x y : c x y < 0 ↔ 0 < c y x;
  cmp_trans x y z : c x y ≤ 0 → c y z ≤ 0 → c x z ≤ 0 }.

Lemma cmp_flip {A} (c : A → A → Z) x y : comparison_of c → c x y < 0 ∨ c y x ≤ 0.
Proof. intros Hc. pose proof (cmp_opp c Hc x y). lia. Qed.
(** One comparison, and where it ties another. *)
Definition lex {A} (c d : A → A → Z) (x y : A) : Z := if negb (c x y =? 0) then c x y else d x y.
Lemma lex_comparison {A} (c d : A → A → Z) : comparison_of c → comparison_of d → comparison_of (lex c d).
Proof.
  intros [Co Ct] [Do Dt]. split; unfold lex.
  - intros x y. pose proof (Co x y). pose proof (Co y x). pose proof (Do x y).
    destruct (Z.eqb_spec (c x y) 0), (Z.eqb_spec (c y x) 0); simpl; lia.
  - intros x y z. pose proof (Ct x y z). pose proof (Dt x y z). pose proof (Ct z x y). pose proof (Ct y z x).
    pose proof (Co x y). pose proof (Co y z). pose proof (Co x z). pose proof (Co y x). pose proof (Co z y). pose proof (Co z x).
    destruct (Z.eqb_spec (c x y) 0), (Z.eqb_spec (c y z) 0), (Z.eqb_spec (c x z) 0); simpl; lia.
Qed.
Lemma key_comparison {A} (k : A → Z) : comparison_of (λ x y, k x - k y).
Proof. split; intros; lia. Qed.
Lemma comparison_on {A B} (f : A → B) (c : B → B → Z) : comparison_of c → comparison_of (λ x y, c (f x) (f y)).
Proof. intros [Co Ct]. split; eauto. Qed.

(** Absent values last. *)
Definition nulls_last (x y : option Z) : Z :=
  match x, y with Some x, Some y => x - y | Some _, None => -1 | None, Some _ => 1 | None, None => 0 end.
Lemma nulls_last_comparison : comparison_of nulls_last.
Proof. split; [intros [x|] [y|]|intros [x|] [y|] [z|]]; simpl; lia. Qed.

Definition text_compare (x y : string) : Z := match String.compare x y with Lt => -1 | Eq => 0 | Gt => 1 end.
Lemma text_compare_step a x b y :
  text_compare (String a x) (String b y) = lex (λ p q, Z.of_N (N_of_ascii p.1) - Z.of_N (N_of_ascii q.1)) (λ p q, text_compare p.2 q.2) (a, x) (b, y)
  ∨ Z.of_N (N_of_ascii a) - Z.of_N (N_of_ascii b) ≠ 0 ∧
    Z.sgn (text_compare (String a x) (String b y)) = Z.sgn (Z.of_N (N_of_ascii a) - Z.of_N (N_of_ascii b)).
Proof.
  unfold text_compare, lex. simpl. unfold Ascii.compare. destruct (N.compare_spec (N_of_ascii a) (N_of_ascii b)); simpl;
    destruct (Z.eqb_spec (Z.of_N (N_of_ascii a) - Z.of_N (N_of_ascii b)) 0); simpl; lia.
Qed.
Lemma text_compare_comparison : comparison_of text_compare.
Proof.
  split.
  - intros x y. unfold text_compare. rewrite (String.compare_antisym x y). destruct (String.compare y x); simpl; lia.
  - intros x. induction x as [|a x IH]; intros [|b y] [|c z]; try (unfold text_compare; simpl; lia).
    pose proof (text_compare_step a x b y). pose proof (text_compare_step b y c z). pose proof (text_compare_step a x c z).
    unfold lex in *. simpl in *. specialize (IH y z).
    destruct (Z.eqb_spec (Z.of_N (N_of_ascii a) - Z.of_N (N_of_ascii b)) 0), (Z.eqb_spec (Z.of_N (N_of_ascii b) - Z.of_N (N_of_ascii c)) 0),
      (Z.eqb_spec (Z.of_N (N_of_ascii a) - Z.of_N (N_of_ascii c)) 0); simpl in *; lia.
Qed.
Lemma text_compare_eq x y : text_compare x y = 0 → x = y.
Proof. unfold text_compare. destruct (String.compare x y) eqn:H; [|done..]. intros _. by apply String.compare_eq_iff. Qed.

Lemma claim_compare_comparison : comparison_of claim_compare.
Proof.
  change claim_compare with (lex (λ a b : string * Item, it_priority a.2 - it_priority b.2)
    (lex (λ a b, nulls_last (it_dueAt a.2) (it_dueAt b.2))
      (lex (λ a b, it_createdAt a.2 - it_createdAt b.2) (λ a b, text_compare a.1 b.1)))).
  apply lex_comparison; [apply (key_comparison (λ a : string * Item, it_priority a.2))|].
  apply lex_comparison; [apply (comparison_on (λ a : string * Item, it_dueAt a.2)), nulls_last_comparison|].
  apply lex_comparison; [apply (key_comparison (λ a : string * Item, it_createdAt a.2))|].
  apply (comparison_on fst), text_compare_comparison.
Qed.
Lemma claim_compare_eq a b : claim_compare a b = 0 → a.1 = b.1.
Proof.
  unfold claim_compare. destruct (Z.eqb_spec (it_priority a.2 - it_priority b.2) 0); [|done]. simpl.
  match goal with |- context [negb (?d =? 0)] => destruct (Z.eqb_spec d 0); [|done] end. simpl.
  destruct (Z.eqb_spec (it_createdAt a.2 - it_createdAt b.2) 0); [|done]. simpl. apply text_compare_eq.
Qed.

(** ** The next item *)

Lemma first_of_least l x : first_of l = Some x → ∀ y, y ∈ l → claim_compare x y ≤ 0.
Proof.
  revert x. induction l as [|a l IH]; intros x; [done|]. unfold first_of in *. cbn [foldr].
  pose proof (cmp_trans _ claim_compare_comparison) as Ht.
  assert (∀ z, claim_compare z z ≤ 0) as Hr by (intros z; pose proof (cmp_opp _ claim_compare_comparison z z); lia).
  destruct (foldr _ None l) as [z|] eqn:Hz.
  - destruct (Z.leb_spec (claim_compare a z) 0); intros [= <-] y Hy; apply elem_of_cons in Hy as [->|Hy]; [apply Hr|by eauto| |by eauto].
    pose proof (cmp_opp _ claim_compare_comparison z a). lia.
  - intros [= <-] y [->|Hy]%elem_of_cons; [apply Hr|]. destruct l; [by apply elem_of_nil in Hy|].
    simpl in Hz. destruct (foldr _ None l); [|done]. by destruct (_ <=? 0).
Qed.
Lemma first_of_none l : first_of l = None → l = [].
Proof. destruct l as [|a l]; [done|]. unfold first_of. cbn [foldr]. destruct (foldr _ None l); [by destruct (_ <=? 0)|done]. Qed.

(** The items a claim of [queue] may take. *)
Definition claimable (locked : string → bool) (queue : string) (s : Tables) (id : string) (i : Item) : Prop :=
  items s !! id = Some i ∧ it_queue i = queue ∧ it_status i = st_pending ∧ locked id = false.
Lemma claimable_elem locked queue s id i :
  claimable locked queue s id i ↔
  (id, i) ∈ List.filter (λ p, String.eqb (it_queue p.2) queue && bool_decide (it_status p.2 = st_pending) && negb (locked p.1))
                        (map_to_list (items s)).
Proof.
  rewrite list_elem_of_In, List.filter_In, <- list_elem_of_In, elem_of_map_to_list. unfold claimable. simpl.
  rewrite !andb_true_iff, String.eqb_eq, bool_decide_eq_true, negb_true_iff. tauto.
Qed.
Lemma next_item_least locked queue s :
  match next_item locked queue s with
  | Some id => ∃ i, claimable locked queue s id i ∧
      ∀ id' i', claimable locked queue s id' i' → id' ≠ id → claim_compare (id, i) (id', i') < 0
  | None => ∀ id i, ¬ claimable locked queue s id i
  end.
Proof.
  unfold next_item. destruct (first_of _) as [[id i]|] eqn:Hf; simpl.
  - exists i. split; [by apply claimable_elem, first_of_elem|]. intros id' i' Hc Hne.
    apply claimable_elem in Hc. pose proof (first_of_least _ _ Hf _ Hc).
    destruct (Z.eq_dec (claim_compare (id, i) (id', i')) 0) as [H0|]; [|lia]. apply claim_compare_eq in H0. by simpl in H0.
  - intros id i Hc%claimable_elem. apply first_of_none in Hf. rewrite Hf in Hc. by apply elem_of_nil in Hc.
Qed.
