(* ===== verification/WorklistClaims.v ===== *)
(** * WorklistClaims: what the work list service guarantees.

    Any sequence of calls, by any users, with any rows held by other sessions, is steps of the
    abstract work list; the ledger is the history of the items; a claim limit holds; every event is
    published once and in order; and where the service gives less. *)
From Stdlib Require Import QArith.
From stdpp Require Import pretty.
From S2P Require Import Prelude JsMap JsText JsJson WorklistTypes BusinessCalendar Worklist WorklistItems WorklistSpec WorklistInv WorklistPublish WorklistOrder.
Local Open Scope Z_scope.

(** ** Calls *)

Inductive Request :=
| rq_enqueue (now : Z) (value : EnqueueInput)
| rq_claimNext (queue : string) (user : option string)
| rq_claim (item : string) (user : option string)
| rq_assignNext (queue : string)
| rq_release (item : string) (reason : option string)
| rq_complete (item : string) (note : option string) (payload : Payload)
| rq_cancel (item reason : string)
| rq_reassign (item toUser reason : string)
| rq_override (item : string) (o : Override) (reason : string)
| rq_detect (limit : Z).

Section calls.
Context (clock : nat → Z) (uuid : nat → string) (load : Z → Q → Q) (time_text : Z → string).
Context (sink : nat → bool) (strategies : jsmap string Strategy) (calendar : option Calendar) (tenantId : string).

Definition handle (actor : option string) (locked : string → bool) (r : Request) : JS Service WorklistError () :=
  match r with
  | rq_enqueue now value => _ ← enqueue clock uuid time_text sink calendar tenantId actor now value; mret ()
  | rq_claimNext queue user => _ ← claimNext clock uuid sink actor locked queue user; mret ()
  | rq_claim item user => _ ← claim clock uuid sink actor item user; mret ()
  | rq_assignNext queue => _ ← assignNext clock uuid load sink strategies actor locked queue; mret ()
  | rq_release item reason => _ ← release clock uuid sink actor item reason; mret ()
  | rq_complete item note payload => _ ← complete clock uuid sink actor item note payload; mret ()
  | rq_cancel item reason => _ ← cancel clock uuid sink actor item reason; mret ()
  | rq_reassign item toUser reason => _ ← reassign clock uuid sink actor item toUser reason; mret ()
  | rq_override item o reason => _ ← supervisorOverride clock uuid sink actor item o reason; mret ()
  | rq_detect limit => _ ← detectBreaches clock uuid time_text sink actor locked limit; mret ()
  end.

(** A call, or a change of queues, workers and permissions. *)
Inductive sstep (s : Service) : Service → Prop :=
| ss_call actor locked r : sstep s (handle actor locked r s).2
| ss_settings q w p : sstep s (set_tables {| queues := q; items := items (tables s); events := events (tables s); workers := w; perms := p;
                                             ticks := ticks (tables s); uuids := uuids (tables s) |} s).
Definition start (t : Tables) : Service := {| tables := t; published := []; publications := 0 |}.
Definition empty_list (t : Tables) : Prop := items t = ∅ ∧ events t = [].
Definition reachable (s : Service) : Prop := ∃ t, empty_list t ∧ rtc sstep (start t) s.

(** ** Refinement *)

Definition refines {A} (actor : option string) (m : JS Service WorklistError A) : Prop :=
  ∀ s, wsteps actor (tables s) (tables (m s).2).
Lemma refines_pure {A} actor (m : JS Service WorklistError A) : (∀ s, tables (m s).2 = tables s) → refines actor m.
Proof. intros Hm s. rewrite Hm. reflexivity. Qed.
Lemma refines_bind {A B} actor (m : JS Service WorklistError A) (f : A → JS Service WorklistError B) :
  refines actor m → (∀ a, refines actor (f a)) → refines actor (m ≫= f).
Proof.
  intros Hm Hf s. specialize (Hm s). unfold mbind, js_bind. destruct (m s) as [[a|e] s1]; simpl in *; [|done].
  etrans; [exact Hm|apply Hf].
Qed.
Lemma refines_tx {A} actor (m : JS Tables WorklistError A) :
  (∀ s r s', m s = (Ok r, s') → wsteps actor s s') → refines actor (tx m).
Proof.
  intros Hm s. unfold tx. destruct (m (tables s)) as [[a|e] t] eqn:Hr; simpl; [by eapply Hm|].
  by apply rtc_once, ws_drawn.
Qed.
Lemma refines_mapped {A} actor (m : JS Service WorklistError A) : refines actor m → refines actor (mapped m).
Proof. intros Hm s. specialize (Hm s). unfold mapped, js_catch. destruct (m s) as [[a|e] s1]; exact Hm. Qed.
Lemma tables_publish evs s : tables (publish sink evs s).2 = tables s.
Proof.
  revert s. induction evs as [|e evs IH]; intros s; [done|]. cbn [publish js_each]. unfold publish in *. simpl.
  unfold mbind, js_bind, publish_one. destruct (sink (publications s)); simpl; [|done]. by rewrite IH.
Qed.
Lemma refines_mutation actor item m :
  (∀ s u s', m s = (Ok u, s') → wsteps actor s s') → refines actor (itemMutation sink item m).
Proof.
  intros Hm. apply refines_bind; [by apply refines_pure|]. intros seen. apply refines_mapped, refines_bind; [apply refines_tx|].
  - intros s r s' H. apply js_bind_ok in H as (u & s2 & Hu & H).
    apply js_bind_ok in H as (row & s3 & Hrow & H). injection H as _ <-.
    unfold getInTransaction, throw in Hrow. revert Hrow. run. destruct (items s2 !! item); [|done]. intros [= _ <-]. by eapply Hm.
  - intros [row new]. apply refines_bind; [apply refines_pure, tables_publish|]. intros _. by apply refines_pure.
Qed.
Lemma refines_claiming actor m :
  (∀ s r s', m s = (Ok r, s') → wsteps actor s s') → refines actor (claimingMutation sink m).
Proof.
  intros Hm. apply refines_mapped, refines_bind; [apply refines_tx|].
  - intros s r s' H. apply js_bind_ok in H as (a & s1 & Ha & H). apply Hm in Ha.
    destruct a as [item|]; [|by injection H as _ <-]. apply js_bind_ok in H as (row & s3 & Hrow & H). injection H as _ <-.
    unfold getInTransaction in Hrow. revert Hrow. run. destruct (items s1 !! item); [|done]. by intros [= _ <-].
  - intros [[row new]|]; [|by apply refines_pure]. apply refines_bind; [apply refines_pure, tables_publish|].
    intros _. by apply refines_pure.
Qed.

Lemma refines_handle actor locked r : refines actor (handle actor locked r).
Proof.
  destruct r as [now value|queue user|item user|queue|item reason|item note payload|item reason|item toUser reason|item o reason|limit]; simpl;
    (apply refines_bind; [|by intros; apply refines_pure]).
  - unfold enqueue. apply refines_bind; [by apply refines_pure|]. intros [[queue q]|]; [|by apply refines_pure].
    apply refines_bind; [by apply refines_pure|]. intros [d|]; [|by apply refines_pure].
    apply refines_mapped, refines_bind; [apply refines_tx|].
    + intros s [row new] s' H. apply js_bind_ok in H as (u & s1 & Hu & H).
      assert (s1 = s) as -> by (case_bool_decide; [done|by injection Hu]).
      apply js_bind_ok in H as (item & s2 & Hi & H). apply js_bind_ok in H as (row' & s3 & Hrow & H). injection H as _ _ <-.
      unfold getInTransaction in Hrow. revert Hrow. run. destruct (items s2 !! item); [|done]. intros [= _ <-]. by eapply item_enqueue_sim.
    + intros [row new]. apply refines_bind; [apply refines_pure, tables_publish|]. intros _. by apply refines_pure.
  - apply refines_claiming. intros. by eapply item_claim_next_sim.
  - apply refines_mutation. intros. by eapply item_claim_sim.
  - unfold assignNext. apply refines_bind; [by apply refines_pure|]. intros [q|]; [|by apply refines_pure].
    destruct (String.eqb _ "pull"); [by apply refines_pure|]. destruct (_ || _).
    { apply refines_claiming. intros. by eapply assign_next_sim. }
    destruct (jm_get _ _) as [select|]; [|by apply refines_pure]. apply refines_bind; [by apply refines_pure|]. intros candidates.
    apply refines_bind; [by apply refines_pure|]. intros [user|]; [|by apply refines_pure].
    destruct (negb _); [by apply refines_pure|]. apply refines_claiming. intros. by eapply item_assign_next_sim.
  - apply refines_mutation. intros. by eapply item_release_sim.
  - apply refines_mutation. intros. by eapply item_complete_sim.
  - apply refines_mutation. intros. by eapply item_cancel_sim.
  - apply refines_mutation. intros. by eapply item_reassign_sim.
  - destruct o; simpl; apply refines_mutation; intros; [by eapply item_release_sim|by eapply item_complete_sim|by eapply item_reassign_sim].
  - unfold detectBreaches. destruct (_ || _); [by apply refines_pure|]. apply refines_mapped, refines_bind.
    + apply refines_tx. intros. by eapply detect_breaches_sim.
    + intros new. apply refines_bind; [apply refines_pure, tables_publish|]. intros _. by apply refines_pure.
Qed.

(** C7. Every call of the service, whether it returns or throws, is steps of the abstract work
    list made by its user: the functions of the database under it implement it. *)
Theorem service_refines actor locked r s : wsteps actor (tables s) (tables (handle actor locked r s).2).
Proof. apply refines_handle. Qed.

Lemma reachable_inv s : reachable s → Inv (tables s).
Proof.
  intros (t & [Hi He] & Hr). eapply (rtc_ind_r (λ s, Inv (tables s))); [| |exact Hr]; [by apply empty_inv|].
  clear. intros s s' _ Hst Hinv. destruct Hst as [actor locked r|q w p].
  - eapply wsteps_inv; [apply refines_handle|done].
  - simpl. destruct Hinv as [H1 H2 H3 H4 H5]. by split.
Qed.

(** C8. The ledger is the history of the items: in every reachable state, the events of an item,
    replayed, give its status and assignee; its columns agree with its status; no two open items
    of a queue are about the same entity; and a missed deadline is recorded once. *)
Theorem ledger_is_history s : reachable s → Inv (tables s).
Proof. apply reachable_inv. Qed.

(** C9. While a queue has a claim limit, no user holds more claimed items of it, however items are
    claimed, assigned, reassigned or forced. *)
Theorem claim_limit_holds t s queue user limit :
  empty_list t → 0 ≤ limit →
  rtc (λ s s', sstep s s' ∧ ∃ q, queues (tables s) !! queue = Some q ∧ qu_claimLimit q = Some limit) (start t) s →
  open_claim_count (tables s) queue user ≤ limit.
Proof.
  intros [Hi He] Hl Hr. cut (Inv (tables s) ∧ open_claim_count (tables s) queue user ≤ limit); [by intros []|].
  eapply (rtc_ind_r (λ s, Inv (tables s) ∧ open_claim_count (tables s) queue user ≤ limit)); [| |exact Hr].
  { split; [by apply empty_inv|]. unfold open_claim_count. simpl. by rewrite Hi, map_to_list_empty. }
  clear. intros s s' _ [Hst Hq] [Hinv Hc]. destruct Hst as [actor locked r|q w p].
  - pose proof (refines_handle actor locked r s) as Hsteps. revert Hsteps Hq Hinv Hc. generalize (tables s) (tables (handle actor locked r s).2).
    clear. intros t t'. induction 1 as [|t1 t2 t3 Hst _ IH]; intros Hq Hinv Hc; [done|]. apply IH.
    + destruct Hq as (q & Hq & Hl). exists q. by rewrite (wstep_queues _ _ _ Hst).
    + by eapply wstep_inv.
    + by eapply wstep_limit.
  - simpl. split; [|done]. destruct Hinv as [H1 H2 H3 H4 H5]. by split.
Qed.

(** ** Order *)

(** A claim of the next item takes, of the pending items of the queue that no other session
    holds, the first by priority, due date, creation and id, and it answers nothing only when
    there is none. *)
Theorem claimNext_takes_first actor locked queue user s r s' :
  claimNext clock uuid sink actor locked queue user s = (Ok r, s') →
  match r with
  | Some row => ∃ id i now w, claimable locked queue (tables s) id i ∧
      (∀ id' i', claimable locked queue (tables s) id' i' → id' ≠ id → claim_compare (id, i) (id', i') < 0) ∧
      row = set_assigned st_claimed (Some w) (Some now) i ∧ (match user with Some u => Some u | None => actor end) = Some w ∧
      items (tables s') = <[id := row]> (items (tables s))
  | None => (∀ id i, ¬ claimable locked queue (tables s) id i) ∧ items (tables s') = items (tables s)
  end.
Proof.
  unfold claimNext, claimingMutation, mapped, js_catch. intros H.
  destruct ((tx _ ≫= _) s) as [[b|e] s1] eqn:Hb; [|done]. simplify_eq.
  apply js_bind_ok in Hb as (m & s1 & Htx & Hk). unfold tx in Htx.
  destruct ((item_claim_next _ _ _ _ _ _ ≫= _) (tables s)) as [[m'|e] t] eqn:Hm; [|done]. simplify_eq.
  apply js_bind_ok in Hm as (next & t1 & Hc & Hm). unfold item_claim_next in Hc.
  apply js_bind_ok in Hc as (u & t2 & (-> & w & Hw & _)%assert_can_work_some & Hc). rewrite Hw in Hc.
  apply js_bind_ok in Hc as (u1 & t2 & [-> _]%assert_claim_capacity_ok & Hc).
  apply js_bind_ok in Hc as (nx & t2 & [= <- <-] & Hc). pose proof (next_item_least locked queue (tables s)) as Hl.
  destruct (next_item locked queue (tables s)) as [id|].
  - destruct Hl as (i & Hi & Hleast). apply js_bind_ok in Hc as (u2 & t2 & Ht & Hc).
    pose proof Hi as [Hid _]. destruct (take_ok _ _ _ _ _ _ _ _ Hid Ht) as (now & _ & _ & _ & Hit).
    apply js_bind_ok in Hc as (u3 & t3 & (eid & at_ & -> & _)%insert_event_ok & Hc). injection Hc as <- <-.
    apply js_bind_ok in Hm as (row & t4 & Hrow & Hm). unfold getInTransaction in Hrow. revert Hrow. run.
    rewrite Hit, lookup_insert_eq. intros [= <- <-]. apply js_bind_ok in Hm as (all & t5 & [= <- <-] & [= <- <-]).
    apply js_bind_ok in Hk as (u4 & s2 & Hp & [= <- <-]).
    apply (f_equal (λ r, tables r.2)) in Hp. rewrite tables_publish in Hp. simpl in Hp.
    exists id, i, now, w. split_and!; [done..|]. by rewrite <- Hp.
  - injection Hc as <- <-. injection Hm as <- <-. injection Hk as <- <-. done.
Qed.

(** ** Publication *)

Lemma keeps_handle (clock_moves : ∀ m n, (m < n)%nat → clock m < clock n) (sink_takes : ∀ n, sink n = true) actor locked r :
  keeps clock (handle actor locked r).
Proof.
  pose proof (keeps_mutation clock sink) as Hmut. pose proof (keeps_claiming clock sink) as Hclaim.
  destruct r as [now value|queue user|item user|queue|item reason|item note payload|item reason|item toUser reason|item o reason|limit]; simpl;
    (apply keeps_bind; [|by intros; apply keeps_pure]).
  - apply (keeps_enqueue clock uuid time_text sink actor); assumption.
  - eapply Hclaim; [done..|apply appends_claim_next|]. intros. split; [eapply item_claim_next_sim|eapply item_claim_next_names]; eassumption.
  - eapply Hmut; [done..|apply appends_claim|]. intros. by eapply item_claim_sim.
  - unfold assignNext. apply keeps_bind; [by apply keeps_pure|]. intros [q|]; [|by apply keeps_pure].
    destruct (String.eqb _ "pull"); [by apply keeps_pure|]. destruct (_ || _).
    { eapply Hclaim; [done..|apply appends_assign_next|]. intros. split; [by eapply assign_next_sim|by eapply assign_next_names]. }
    destruct (jm_get _ _) as [select|]; [|by apply keeps_pure]. apply keeps_bind; [by apply keeps_pure|]. intros candidates.
    apply keeps_bind; [by apply keeps_pure|]. intros [user|]; [|by apply keeps_pure].
    destruct (negb _); [by apply keeps_pure|].
    eapply Hclaim; [done..|apply appends_assign|]. intros. split; [by eapply item_assign_next_sim|by eapply item_assign_next_names].
  - eapply Hmut; [done..|apply appends_release|]. intros. by eapply item_release_sim.
  - eapply Hmut; [done..|apply appends_complete|]. intros. by eapply item_complete_sim.
  - eapply Hmut; [done..|apply appends_cancel|]. intros. by eapply item_cancel_sim.
  - eapply Hmut; [done..|apply appends_reassign|]. intros. by eapply item_reassign_sim.
  - destruct o; simpl; eapply Hmut; try done; [apply appends_release| |apply appends_complete| |apply appends_reassign|];
      intros; [by eapply item_release_sim|by eapply item_complete_sim|by eapply item_reassign_sim].
  - apply (keeps_detect clock uuid time_text sink actor); assumption.
Qed.

(** *** Calls that overlap

    A mutation of an item counts its events before it locks the row, and every call publishes after
    its commit: other calls run in between. The transactions themselves are steps. *)

Definition mutation_of (actor : option string) (r : Request) : option (string * JS Tables WorklistError ()) :=
  match r with
  | rq_claim item user => Some (item, item_claim clock uuid actor item user)
  | rq_release item reason => Some (item, item_release clock uuid actor item reason false)
  | rq_complete item note payload => Some (item, item_complete clock uuid actor item note payload false)
  | rq_cancel item reason => Some (item, item_cancel clock uuid actor item (Some reason))
  | rq_reassign item toUser reason => Some (item, item_reassign clock uuid actor item toUser (Some reason) false)
  | rq_override item ov_release reason => Some (item, item_release clock uuid actor item (Some reason) true)
  | rq_override item (ov_complete payload) reason => Some (item, item_complete clock uuid actor item (Some reason) payload true)
  | rq_override item (ov_reassign toUser) reason => Some (item, item_reassign clock uuid actor item toUser (Some reason) true)
  | _ => None
  end.
Lemma handle_mutation actor locked r item m :
  mutation_of actor r = Some (item, m) → handle actor locked r = (_ ← itemMutation sink item m; mret ()).
Proof. destruct r as [| | | | | | | |? []|]; simpl; try done; by intros [= <- <-]. Qed.

(** The mutations whose count was taken, with the tables it was taken from, and what the calls that have
    committed are still to publish. *)
Record Traffic := {
  service : Service;
  counted : list (option string * Request * Tables);
  unsent : list (list Event) }.
(** A commit whose publications are to come. *)
Definition committed (s' : Service) (evs : list Event) (l : list (option string * Request * Tables)) (w : Traffic) : Traffic :=
  {| service := {| tables := tables s'; published := published (service w); publications := publications (service w) |};
     counted := l; unsent := evs :: unsent w |}.
Inductive ostep (w : Traffic) : Traffic → Prop :=
| os_call actor locked r evs :
    published (handle actor locked r (service w)).2 = published (service w) ++ evs →
    ostep w (committed (handle actor locked r (service w)).2 evs (counted w) w)
| os_settings q k p : ostep w
    {| service := set_tables {| queues := q; items := items (tables (service w)); events := events (tables (service w)); workers := k;
                                perms := p; ticks := ticks (tables (service w)); uuids := uuids (tables (service w)) |} (service w);
       counted := counted w; unsent := unsent w |}
| os_count actor r : is_Some (mutation_of actor r) →
    ostep w {| service := service w; counted := (actor, r, tables (service w)) :: counted w; unsent := unsent w |}
| os_mutate l1 actor r seen l2 item m evs :
    counted w = l1 ++ (actor, r, seen) :: l2 → mutation_of actor r = Some (item, m) →
    published (itemMutation_from sink seen item m (service w)).2 = published (service w) ++ evs →
    ostep w (committed (itemMutation_from sink seen item m (service w)).2 evs (l1 ++ l2) w)
| os_send l1 e evs l2 : unsent w = l1 ++ (e :: evs) :: l2 →
    ostep w {| service := {| tables := tables (service w); published := published (service w) ++ [e];
                             publications := S (publications (service w)) |};
               counted := counted w; unsent := l1 ++ evs :: l2 |}.
Definition overlapped (w : Traffic) : Prop :=
  ∃ t, empty_list t ∧ rtc ostep {| service := start t; counted := []; unsent := [] |} w.

Record tracked (w : Traffic) : Prop := {
  tr_sound : sound clock (service w);
  tr_all e : e ∈ events (tables (service w)) ↔ e ∈ published (service w) ++ concat (unsent w);
  tr_seen c : c ∈ counted w → ∃ more, events (tables (service w)) = events c.2 ++ more }.

Lemma tracked_committed s' new evs l w :
  tracked w → sound clock s' → events (tables s') = events (tables (service w)) ++ new →
  (∀ e, e ∈ new → e ∈ evs) → (∀ e, e ∈ evs → e ∈ events (tables s')) → l ⊆ counted w → tracked (committed s' evs l w).
Proof.
  intros [[Hst Hi] Ha Hc] [Hst' Hi'] He Hn Hevs Hl. split; simpl.
  - by split.
  - intros e. specialize (Ha e). specialize (Hn e). specialize (Hevs e). rewrite He in Hevs |- *. set_solver.
  - intros c Hin. destruct (Hc c (Hl c Hin)) as [more Hm]. exists (more ++ new). by rewrite He, Hm, (assoc_L app).
Qed.

Lemma mutation_appends actor r item m :
  mutation_of actor r = Some (item, m) →
  appends clock (λ e, ev_item e = item) m ∧ ∀ t u t', m t = (Ok u, t') → wsteps actor t t'.
Proof.
  destruct r as [| | | | | | | |? []|]; simpl; try done; intros [= <- <-].
  - split; [apply appends_claim|]. intros. by eapply item_claim_sim.
  - split; [apply appends_release|]. intros. by eapply item_release_sim.
  - split; [apply appends_complete|]. intros. by eapply item_complete_sim.
  - split; [apply appends_cancel|]. intros. by eapply item_cancel_sim.
  - split; [apply appends_reassign|]. intros. by eapply item_reassign_sim.
  - split; [apply appends_release|]. intros. by eapply item_release_sim.
  - split; [apply appends_complete|]. intros. by eapply item_complete_sim.
  - split; [apply appends_reassign|]. intros. by eapply item_reassign_sim.
Qed.

Lemma sound_settings s q w p : sound clock s →
  sound clock (set_tables {| queues := q; items := items (tables s); events := events (tables s); workers := w; perms := p;
                             ticks := ticks (tables s); uuids := uuids (tables s) |} s).
Proof. intros [Hst [H1 H2 H3 H4 H5]]. split; [exact Hst|by split]. Qed.
Lemma sound_start t : empty_list t → sound clock (start t).
Proof. intros [Hi He]. split; [|by apply empty_inv]. exists []. simpl. rewrite He. split; [done|]. split; constructor. Qed.

Lemma tracked_step (clock_moves : ∀ m n, (m < n)%nat → clock m < clock n) (sink_takes : ∀ n, sink n = true) w w' :
  tracked w → ostep w w' → tracked w'.
Proof.
  intros Hw Hst. pose proof Hw as [Hs Ha Hc]. destruct Hst as [actor locked r evs Hp|q k p|actor r _|l1 actor r seen l2 item m evs Hl Hm Hp|l1 e evs l2 Hl].
  - destruct (keeps_handle clock_moves sink_takes actor locked r _ Hs) as [Hs' (new & ? & He & Hp' & <-)].
    rewrite Hp in Hp'. apply app_inv_head in Hp' as ->. apply (tracked_committed _ new); [done..| |done]. intros e Hin. rewrite He, elem_of_app. by right.
  - split; simpl; [by apply sound_settings|exact Ha|exact Hc].
  - split; simpl; [done|exact Ha|]. intros c [->|Hin]%elem_of_cons; [exists []; by rewrite app_nil_r|by apply Hc].
  - destruct (Hc (actor, r, seen)) as [more Hmore]; [rewrite Hl; set_solver|]. simpl in Hmore.
    destruct (mutation_appends _ _ _ _ Hm) as [Happ Hsim].
    destruct (counted_mutation clock sink actor clock_moves sink_takes item m seen more _ Happ Hsim Hs Hmore)
      as [Hs' (new & evs' & He & Hp' & Hr)].
    rewrite Hp in Hp'. apply app_inv_head in Hp' as <-. apply (tracked_committed _ new); [done|done|done| | |rewrite Hl; set_solver].
    + intros e Hin. destruct Hr as [[-> _]| ->]; [by apply elem_of_nil in Hin|]. rewrite elem_of_app. by right.
    + intros e Hin. rewrite He, Hmore, !elem_of_app. destruct Hr as [[_ ->]| ->]; [by apply elem_of_nil in Hin|].
      apply elem_of_app in Hin as [Hin|Hin]; [|by right]. rewrite list_elem_of_In, List.filter_In, <- list_elem_of_In in Hin. left. right. apply Hin.
  - split; simpl; [by destruct Hs|intros e'; rewrite Ha, Hl, !concat_app; simpl; rewrite !elem_of_app, !elem_of_cons, elem_of_nil, !elem_of_app; tauto|exact Hc].
Qed.

(** C10. When the sink takes every event and the clock moves on at each reading, then what calls that run
    one after the other published is the ledger, every event once and in order, whichever returned or
    failed; and when calls overlap, between the count of the events of an item and the lock of its row or
    while others publish, the events of the ledger are those that were published, perhaps
    more than once, or that a call which has committed is about to publish. *)
Theorem ledger_is_published :
  (∀ m n, (m < n)%nat → clock m < clock n) → (∀ n, sink n = true) →
  (∀ s, reachable s → published s = events (tables s)) ∧
  (∀ w, overlapped w → ∀ e, e ∈ events (tables (service w)) ↔ e ∈ published (service w) ++ concat (unsent w)).
Proof.
  intros Hclock Hs. split.
  - intros s (t & Ht & Hr). cut (sound clock s ∧ published s = events (tables s)); [by intros []|].
    eapply (rtc_ind_r (λ s, sound clock s ∧ published s = events (tables s))); [| |exact Hr].
    + split; [by apply sound_start|]. destruct Ht as [_ He]. by symmetry.
    + clear -Hclock Hs. intros s s' _ Hst [Hg Hp]. destruct Hst as [actor locked r|q w p]; [|by split; [apply sound_settings|]].
      destruct (keeps_handle Hclock Hs actor locked r s Hg) as [Hg' (new & ? & He & Hp' & <-)]. split; [done|]. by rewrite Hp', He, Hp.
  - intros w (t & Ht & Hr). apply tr_all. eapply (rtc_ind_r tracked); [| |exact Hr].
    + split; simpl; [by apply sound_start|intros e; destruct Ht as [_ He]; cbn; by rewrite He|intros c []%elem_of_nil].
    + intros. by eapply tracked_step.
Qed.
End calls.

(** ** Examples *)

Module Example.
Definition clock (n : nat) : Z := 1788555600000 + Z.of_nat n.
Definition uuid (n : nat) : string := match n with O => "item" | S n => String.append "e" (pretty n) end.
Definition load (n : Z) (w : Q) : Q := (inject_Z n / w)%Q.
Definition time_text (t : Z) : string := pretty t.
Definition takes (n : nat) : bool := true.
Definition review : Queue :=
  {| qu_code := "review"; qu_strategy := "pull"; qu_requiredPermission := "review:work:tenant";
     qu_supervisorPermission := "review:lead:tenant"; qu_claimLimit := Some 1; qu_slaSeconds := Some 3600;
     qu_slaBusinessDays := None; qu_calendarKey := None |}.
Definition tables0 : Tables :=
  {| queues := {[ "q" := review ]}; items := ∅; events := []; workers := ∅;
     perms := list_to_map [("ana", ["review:work:*"]); ("lia", ["review:*:tenant"])]; ticks := 0; uuids := 0 |}.
Definition order (code : string) : EnqueueInput :=
  {| en_queueCode := code; en_entityType := "order"; en_entityId := "7"; en_priority := None; en_deadline := None; en_payload := []; en_meta := [] |}.

Section calls.
Context (t : Tables).
Definition call (actor : string) (r : Request) (s : Service) : Service :=
  (handle clock uuid load time_text takes [] None "tenant" (Some actor) (λ _, false) r s).2.
Definition after (calls : list (string * Request)) : Service := foldl (λ s c, call c.1 c.2 s) (start t) calls.
Lemma after_steps (P : Service → Prop) calls :
  (∀ calls' c, calls' ++ [c] `prefix_of` calls → P (after calls')) →
  rtc (λ s s', sstep clock uuid load time_text takes [] None "tenant" s s' ∧ P s) (start t) (after calls).
Proof.
  induction calls as [|c calls IH] using rev_ind; intros HP; [done|]. eapply rtc_r.
  - apply IH. intros calls' c' Hpre. apply (HP calls' c'). by apply prefix_app_r.
  - unfold after. rewrite foldl_snoc. split; [constructor|]. by apply (HP calls c).
Qed.
End calls.

(** Ana claims the order; a claim past her limit is refused; she completes it. *)
Definition history : list (string * Request) :=
  [("lia", rq_enqueue 1788555600000 (order "review")); ("ana", rq_claimNext "q" None); ("ana", rq_claimNext "q" None);
   ("ana", rq_complete "item" None [])].
Lemma reachable_after t calls : empty_list t →
  reachable clock uuid load time_text takes [] None "tenant" (after t calls).
Proof.
  intros Ht. exists t. split; [exact Ht|]. eapply rtc_subrel; [|apply (after_steps t (λ _, True)); done]. by intros s s' [H _].
Qed.
Lemma tables0_empty : empty_list tables0.
Proof. by split. Qed.

Lemma ledger_is_history_witness :
  let s := after tables0 history in
  Inv (tables s) ∧ ev_kind <$> events (tables s) = [ek_enqueue; ek_deadline_set; ek_claim; ek_complete].
Proof.
  split; [|vm_compute; reflexivity].
  exact (ledger_is_history _ _ _ _ _ _ _ _ _ (reachable_after tables0 history tables0_empty)).
Defined.
(** Ana's release counts before her claim is committed; it has published the claim's event again and is
    about to publish its own. *)
Definition o_call (actor : string) (r : Request) (w : Traffic) : Traffic :=
  let s' := call actor r (service w) in committed s' (drop (length (published (service w))) (published s')) (counted w) w.
Definition o_send (w : Traffic) : Traffic :=
  match unsent w with
  | (e :: evs) :: l => {| service := {| tables := tables (service w); published := published (service w) ++ [e];
                                        publications := S (publications (service w)) |};
                          counted := counted w; unsent := [] ++ evs :: l |}
  | _ => w
  end.
Definition releasing (w : Traffic) : option string * Request * Tables := (Some "ana", rq_release "item" None, tables (service w)).
Definition o_release (seen : Tables) (w : Traffic) : Traffic :=
  let s' := (itemMutation_from takes seen "item" (item_release clock uuid (Some "ana") "item" None false) (service w)).2 in
  committed s' (drop (length (published (service w))) (published s')) [] w.
Definition w0 : Traffic := {| service := start tables0; counted := []; unsent := [] |}.
Definition w1 : Traffic := o_send (o_send (o_call "lia" (rq_enqueue 1788555600000 (order "review")) w0)).
Definition w2 : Traffic := {| service := service w1; counted := [releasing w1]; unsent := unsent w1 |}.
Definition w3 : Traffic := o_send (o_call "ana" (rq_claimNext "q" None) w2).
Definition w4 : Traffic := o_send (o_release (tables (service w1)) w3).

Notation overlapped := (overlapped clock uuid load time_text takes [] None "tenant").
Lemma overlapped_call actor r w :
  published (call actor r (service w)) = published (service w) ++ drop (length (published (service w))) (published (call actor r (service w))) →
  overlapped w → overlapped (o_call actor r w).
Proof. intros Hp (t & Ht & Hr). exists t. split; [exact Ht|]. eapply rtc_r; [exact Hr|]. exact (os_call _ _ _ _ _ _ _ _ w (Some actor) (λ _, false) r _ Hp). Qed.
Lemma overlapped_send w : overlapped w → overlapped (o_send w).
Proof.
  intros (t & Ht & Hr). unfold o_send. destruct (unsent w) as [|[|e evs] l] eqn:Hu; [by exists t..|]. exists t. split; [exact Ht|].
  eapply rtc_r; [exact Hr|]. by apply (os_send _ _ _ _ _ _ _ _ w []).
Qed.
Lemma overlapped_w4 : overlapped w4.
Proof.
  apply overlapped_send.
  assert (overlapped w3) as (t & Ht & Hr).
  { apply overlapped_send, overlapped_call; [vm_compute; reflexivity|].
    assert (overlapped w1) as (t & Ht & Hr).
    { do 2 apply overlapped_send. apply overlapped_call; [vm_compute; reflexivity|]. exists tables0. split; [apply tables0_empty|done]. }
    exists t. split; [exact Ht|]. eapply rtc_r; [exact Hr|]. apply (os_count _ _ _ _ _ _ _ _ w1 (Some "ana") (rq_release "item" None)). by eexists. }
  exists t. split; [exact Ht|]. eapply rtc_r; [exact Hr|].
  refine (os_mutate _ _ _ _ _ _ _ _ w3 [] (Some "ana") (rq_release "item" None) (tables (service w1)) [] "item" _ _ _ eq_refl _);
    [reflexivity|vm_compute; reflexivity].
Qed.

Lemma ledger_is_published_witness :
  (let s := after tables0 history in published s = events (tables s) ∧ length (published s) = 4%nat) ∧
  (∀ e, e ∈ events (tables (service w4)) ↔ e ∈ published (service w4) ++ concat (unsent w4)) ∧
  ev_kind <$> published (service w4) = [ek_enqueue; ek_deadline_set; ek_claim; ek_claim] ∧
  ev_kind <$> concat (unsent w4) = [ek_release].
Proof.
  pose proof (ledger_is_published clock uuid load time_text takes [] None "tenant") as H.
  destruct H as [H1 H2]; [intros m n Hlt; unfold clock; lia|reflexivity|].
  split; [split; [exact (H1 _ (reachable_after tables0 history tables0_empty))|vm_compute; reflexivity]|].
  split; [exact (H2 w4 overlapped_w4)|]. split; vm_compute; reflexivity.
Defined.
Lemma claim_limit_holds_witness :
  open_claim_count (tables (after tables0 (firstn 3 history))) "q" "ana" ≤ 1
  ∧ open_claim_count (tables (after tables0 (firstn 3 history))) "q" "ana" = 1.
Proof.
  split; [|vm_compute; reflexivity].
  apply (claim_limit_holds clock uuid load time_text takes [] None "tenant" tables0); [apply tables0_empty|lia|].
  refine (after_steps tables0 (λ s, ∃ q, queues (tables s) !! "q" = Some q ∧ qu_claimLimit q = Some 1) (firstn 3 history) _).
  intros calls c Hpre. exists review. split; [|reflexivity].
  unfold history in Hpre. simpl in Hpre. destruct Hpre as [l Hl].
  destruct calls as [|x1 [|x2 [|x3 [|x4 calls]]]]; simplify_eq/=; vm_compute; reflexivity.
Defined.

Lemma claimNext_takes_first_witness :
  let s := after tables0 (firstn 1 history) in
  ∃ row s', claimNext clock uuid takes (Some "ana") (λ _, false) "q" None s = (Ok (Some row), s') ∧
  ∃ id i now w, claimable (λ _, false) "q" (tables s) id i ∧
    (∀ id' i', claimable (λ _, false) "q" (tables s) id' i' → id' ≠ id → claim_compare (id, i) (id', i') < 0) ∧
    row = set_assigned st_claimed (Some w) (Some now) i ∧ Some "ana" = Some w ∧
    items (tables s') = <[id := row]> (items (tables s)).
Proof.
  eexists _, _. split; [vm_compute; reflexivity|].
  refine (claimNext_takes_first clock uuid takes (Some "ana") (λ _, false) "q" None (after tables0 (firstn 1 history)) (Some _) _ _).
  vm_compute. reflexivity.
Defined.

End Example.

(** The condition is needed: at read committed the events of an item can be counted before another call
    commits, and the event of that call is then published by both. *)
Theorem overlapping_calls_publish_twice :
  overlapped Example.clock Example.uuid Example.load Example.time_text Example.takes [] None "tenant" Example.w4 ∧
  ev_kind <$> events (tables (service Example.w4)) = [ek_enqueue; ek_deadline_set; ek_claim; ek_release] ∧
  ev_kind <$> published (service (Example.o_send Example.w4)) = [ek_enqueue; ek_deadline_set; ek_claim; ek_claim; ek_release].
Proof. split; [exact Example.overlapped_w4|]. vm_compute. done. Qed.

(** A reader that continues after the last event it read misses those with smaller identifiers. *)
Lemma event_cursor_skips :
  let ev id t := {| ev_id := id; ev_item := "item"; ev_kind := ek_claim; ev_actor := None; ev_from := None; ev_to := None;
                    ev_reason := None; ev_payload := []; ev_createdAt := t |} in
  let s := set_events [ev "b" 1; ev "a" 2] Example.tables0 in
  let read after := (listEvents 1 1 {| eq_itemId := None; eq_after := fst <$> after; eq_afterId := snd <$> after |} s).1 in
  read None = [ev "b" 1] ∧ read (Some (1, "b")) = [] ∧ ev "a" 2 ∈ events s.
Proof. split_and!; [vm_compute; reflexivity..|]. set_solver. Qed.
