(* ===== verification/JobsRepository.v ===== *)
(** * JobsRepository: the tables of the job queue and the transactions on them.

    [jobs/src/jobs.repository.ts] over the tables of [data/migrations/platform/0018_jobs.sql] and
    [0019_jobs_actor_timezone.sql]. A transaction locks the rows it changes before it reads them,
    so that it is one step; [locked] are the rows that other transactions hold.

    A [jsonb] value is its text; an id is a [uuid], in lower case. Instants of the database are in
    microseconds and read from a clock by index; [run_at] and [next_run_at], which are only
    written from a [Date], are in milliseconds. *)
From Stdlib Require Import Ascii.
From S2P Require Import Prelude JsText JsDate Cron.
Local Open Scope Z_scope.

Inductive JobsError :=
| TenantContextMissingError
| ActorContextMissingError
| JobTenantMismatchError (tenantId callerTenantId : string)
| JobActorMembershipError (tenantId actorId : string)
| JobActorAssignmentDeniedError (tenantId actorId : string)
| ScheduleActorRequiredError
| UnknownJobTypeError (jobType : string)
| DuplicateJobTypeHandlerError (jobType : string)
| InvalidScheduleError (reason : string)
| InvalidJobInputError (reason : string)
| CronFailure (e : CronError)
| PlainError (message : string)
| TypeError
| HostError (message : string)
| SqlError (code : string).

(** ** Tables *)

Notation Jsonb := string.

Inductive JobStatus := pending | running | succeeded | failed | dead_letter | canceled.
Inductive ScheduleKind := kind_cron | kind_interval.
#[export] Instance JobStatus_eq_dec : EqDecision JobStatus.
Proof. solve_decision. Defined.
#[export] Instance ScheduleKind_eq_dec : EqDecision ScheduleKind.
Proof. solve_decision. Defined.

Record Job := {
  jb_tenantId : string;
  jb_scheduleId : option string;
  jb_jobType : string;
  jb_payload : Jsonb;
  jb_status : JobStatus;
  jb_priority : Z;
  jb_attempts : Z;
  jb_maxAttempts : Z;
  jb_runAt : Z;
  jb_lockedBy : option string;
  jb_lockedUntil : option Z;
  jb_startedAt : option Z;
  jb_finishedAt : option Z;
  jb_lastError : option string;
  jb_deadLetterReason : option string;
  jb_idempotencyKey : option string;
  jb_actorId : option string;
  jb_createdAt : Z;
  jb_updatedAt : Z }.
Record BackoffPolicy := { bp_baseMs : Z; bp_maxMs : Z; bp_multiplier : Z }.
(** [sc_nextRunAt]: [None] is [-infinity], which an application can write but no [Date] can hold;
    [infinity] is a time no clock reaches. *)
Record Schedule := {
  sc_tenantId : string;
  sc_name : string;
  sc_jobType : string;
  sc_kind : ScheduleKind;
  sc_actorId : option string;
  sc_timezone : string;
  sc_cronExpression : option string;
  sc_intervalSeconds : option Z;
  sc_payload : Jsonb;
  sc_priority : Z;
  sc_maxAttempts : Z;
  sc_backoff : BackoffPolicy;
  sc_isEnabled : bool;
  sc_disabledReason : option string;
  sc_nextRunAt : option Z;
  sc_lastEnqueuedAt : option Z;
  sc_createdBy : option string;
  sc_createdAt : Z;
  sc_updatedAt : Z }.

(** The tables of the package and the keys of the tables they refer to; [members] are the active
    memberships, of a tenant and a user. *)
Record Tables := {
  jobs : gmap string Job;
  schedules : gmap string Schedule;
  tenants : gset string;
  users : gset string;
  members : gset (string * string);
  ticks : nat;
  uuids : nat }.
Definition set_jobs x (s : Tables) : Tables :=
  {| jobs := x; schedules := schedules s; tenants := tenants s; users := users s; members := members s; ticks := ticks s; uuids := uuids s |}.
Definition set_schedules x (s : Tables) : Tables :=
  {| jobs := jobs s; schedules := x; tenants := tenants s; users := users s; members := members s; ticks := ticks s; uuids := uuids s |}.
Definition set_draws t u (s : Tables) : Tables :=
  {| jobs := jobs s; schedules := schedules s; tenants := tenants s; users := users s; members := members s; ticks := t; uuids := u |}.

Notation Sql := (JS Tables JobsError).
(** A transaction is undone when it fails, except for what it drew. *)
Definition tx {A} (m : Sql A) : Sql A := λ s,
  match m s with
  | (Ok a, s') => (Ok a, s')
  | (Throw e, s') => (Throw e, set_draws (ticks s') (uuids s') s)
  end.

(** ** Constraints *)

(** [char_length] of a text in UTF-8: the bytes that begin a code point. *)
Fixpoint char_length (s : string) : Z :=
  match s with
  | EmptyString => 0
  | String c s' => (if byte_in 128 191 c then 0 else 1) + char_length s'
  end.
Definition named (s : string) : bool := (1 <=? char_length s) && (char_length s <=? 200).
Definition smallint (z : Z) : bool := (- 2 ^ 15 <=? z) && (z <? 2 ^ 15).
Definition integer (z : Z) : bool := (- 2 ^ 31 <=? z) && (z <? 2 ^ 31).
(** A [Date] as a [timestamptz]: the first instant is that of the year 4714 BC. *)
Definition MIN_TIMESTAMP : Z := -210866803200000.
Definition timestamptz (date : option Z) : outcome JobsError Z :=
  match date with
  | None => Throw (SqlError "22007")
  | Some t => if t <? MIN_TIMESTAMP then Throw (SqlError "22008") else Ok t
  end.
(** [SqlError code] unless the condition holds. *)
Definition ensure (b : bool) (code : string) : outcome JobsError () := if b then Ok () else Throw (SqlError code).
Definition known (o : option string) (s : gset string) : bool := match o with Some x => bool_decide (x ∈ s) | None => true end.

Record NewJob := {
  nj_tenantId : string;
  nj_jobType : string;
  nj_payload : Jsonb;
  nj_runAt : option Z;
  nj_priority : Z;
  nj_maxAttempts : Z;
  nj_idempotencyKey : option string;
  nj_actorId : option string;
  nj_scheduleId : option string }.
Record NewSchedule := {
  ns_tenantId : string;
  ns_name : string;
  ns_jobType : string;
  ns_actorId : string;
  ns_timezone : string;
  ns_kind : ScheduleKind;
  ns_cronExpression : option string;
  ns_intervalSeconds : option Z;
  ns_payload : Jsonb;
  ns_priority : Z;
  ns_maxAttempts : Z;
  ns_backoff : BackoffPolicy;
  ns_nextRunAt : option Z;
  ns_createdBy : option string;
  ns_isEnabled : bool }.

Definition plain_texts (l : list string) : bool := forallb (λ t, negb (has_nul t)) l.
Definition check_job (i : NewJob) : outcome JobsError Z :=
  _ ← ensure (plain_texts (nj_jobType i :: option_list (nj_idempotencyKey i))) "22021";
  runAt ← timestamptz (nj_runAt i);
  _ ← ensure (smallint (nj_priority i) && integer (nj_maxAttempts i)) "22003";
  _ ← ensure (named (nj_jobType i) && (1 <=? nj_maxAttempts i)) "23514";
  mret runAt.
Definition some_positive (o : option Z) : bool := match o with Some z => 0 <? z | None => true end.
Definition cron_fields (kind : ScheduleKind) (cron : option string) (interval : option Z) : bool :=
  match kind, cron, interval with
  | kind_cron, Some _, None => true
  | kind_interval, None, Some _ => true
  | _, _, _ => false
  end.
Definition backoff_ok (b : BackoffPolicy) : bool :=
  (0 <=? bp_baseMs b) && (0 <=? bp_maxMs b) && (1 <=? bp_multiplier b) && (bp_baseMs b <=? bp_maxMs b).
Definition check_schedule (i : NewSchedule) : outcome JobsError Z :=
  _ ← ensure (plain_texts (ns_name i :: ns_jobType i :: ns_timezone i :: option_list (ns_cronExpression i))) "22021";
  next ← timestamptz (ns_nextRunAt i);
  _ ← ensure (smallint (ns_priority i) && integer (ns_maxAttempts i) && integer (default 0 (ns_intervalSeconds i))
              && integer (bp_baseMs (ns_backoff i)) && integer (bp_maxMs (ns_backoff i)) && (bp_multiplier (ns_backoff i) <? 10000)) "22003";
  _ ← ensure (named (ns_name i) && named (ns_jobType i) && some_positive (ns_intervalSeconds i) && (1 <=? ns_maxAttempts i)
              && backoff_ok (ns_backoff i) && cron_fields (ns_kind i) (ns_cronExpression i) (ns_intervalSeconds i)) "23514";
  mret next.

(** ** Jobs *)

Section repository.
(** [clock_timestamp()] and [gen_random_uuid()], and the zone data of [Intl]. *)
Context (clock : nat → Z) (uuid : nat → string) (intl : string → option Formatter).

Definition clock_timestamp : Sql Z :=
  n ← getf ticks; _ ← modify (λ s, set_draws (S n) (uuids s) s); mret (clock n).
Definition gen_random_uuid : Sql string :=
  n ← getf uuids; _ ← modify (λ s, set_draws (ticks s) (S n) s); mret (uuid n).
Definition put_job (id : string) (j : Job) : Sql () := modify (λ s, set_jobs (<[id := j]> (jobs s)) s).
Definition put_schedule (id : string) (sc : Schedule) : Sql () := modify (λ s, set_schedules (<[id := sc]> (schedules s)) s).

Definition with_status (status : JobStatus) (lockedBy : option string) (lockedUntil : option Z) (finishedAt : option Z) (now : Z) (j : Job) : Job :=
  {| jb_tenantId := jb_tenantId j; jb_scheduleId := jb_scheduleId j; jb_jobType := jb_jobType j; jb_payload := jb_payload j;
     jb_status := status; jb_priority := jb_priority j; jb_attempts := jb_attempts j; jb_maxAttempts := jb_maxAttempts j;
     jb_runAt := jb_runAt j; jb_lockedBy := lockedBy; jb_lockedUntil := lockedUntil; jb_startedAt := jb_startedAt j;
     jb_finishedAt := finishedAt; jb_lastError := jb_lastError j; jb_deadLetterReason := jb_deadLetterReason j;
     jb_idempotencyKey := jb_idempotencyKey j; jb_actorId := jb_actorId j; jb_createdAt := jb_createdAt j; jb_updatedAt := now |}.
Definition touch (now : Z) (j : Job) : Job := with_status (jb_status j) (jb_lockedBy j) (jb_lockedUntil j) (jb_finishedAt j) now j.
(** The columns an outcome writes beside those of [with_status]. *)
Definition with_errors (runAt : Z) (lastError deadLetterReason : option string) (j : Job) : Job :=
  {| jb_tenantId := jb_tenantId j; jb_scheduleId := jb_scheduleId j; jb_jobType := jb_jobType j; jb_payload := jb_payload j;
     jb_status := jb_status j; jb_priority := jb_priority j; jb_attempts := jb_attempts j; jb_maxAttempts := jb_maxAttempts j;
     jb_runAt := runAt; jb_lockedBy := jb_lockedBy j; jb_lockedUntil := jb_lockedUntil j; jb_startedAt := jb_startedAt j;
     jb_finishedAt := jb_finishedAt j; jb_lastError := lastError; jb_deadLetterReason := deadLetterReason;
     jb_idempotencyKey := jb_idempotencyKey j; jb_actorId := jb_actorId j; jb_createdAt := jb_createdAt j; jb_updatedAt := jb_updatedAt j |}.
(** Attempt [jb_attempts j + 1], begun at [now]. *)
Definition claimed (workerId : string) (until now : Z) (j : Job) : Job :=
  {| jb_tenantId := jb_tenantId j; jb_scheduleId := jb_scheduleId j; jb_jobType := jb_jobType j; jb_payload := jb_payload j;
     jb_status := running; jb_priority := jb_priority j; jb_attempts := jb_attempts j + 1; jb_maxAttempts := jb_maxAttempts j;
     jb_runAt := jb_runAt j; jb_lockedBy := Some workerId; jb_lockedUntil := Some until;
     jb_startedAt := match jb_startedAt j with Some t => Some t | None => Some now end;
     jb_finishedAt := jb_finishedAt j; jb_lastError := jb_lastError j; jb_deadLetterReason := jb_deadLetterReason j;
     jb_idempotencyKey := jb_idempotencyKey j; jb_actorId := jb_actorId j; jb_createdAt := jb_createdAt j; jb_updatedAt := now |}.
(** The references to a schedule or a user that is deleted. *)
Definition without_schedule (id : string) (j : Job) : Job :=
  {| jb_tenantId := jb_tenantId j; jb_scheduleId := if decide (jb_scheduleId j = Some id) then None else jb_scheduleId j;
     jb_jobType := jb_jobType j; jb_payload := jb_payload j;
     jb_status := jb_status j; jb_priority := jb_priority j; jb_attempts := jb_attempts j; jb_maxAttempts := jb_maxAttempts j;
     jb_runAt := jb_runAt j; jb_lockedBy := jb_lockedBy j; jb_lockedUntil := jb_lockedUntil j; jb_startedAt := jb_startedAt j;
     jb_finishedAt := jb_finishedAt j; jb_lastError := jb_lastError j; jb_deadLetterReason := jb_deadLetterReason j;
     jb_idempotencyKey := jb_idempotencyKey j; jb_actorId := jb_actorId j; jb_createdAt := jb_createdAt j; jb_updatedAt := jb_updatedAt j |}.
Definition without_actor (user : string) (j : Job) : Job :=
  {| jb_tenantId := jb_tenantId j; jb_scheduleId := jb_scheduleId j; jb_jobType := jb_jobType j; jb_payload := jb_payload j;
     jb_status := jb_status j; jb_priority := jb_priority j; jb_attempts := jb_attempts j; jb_maxAttempts := jb_maxAttempts j;
     jb_runAt := jb_runAt j; jb_lockedBy := jb_lockedBy j; jb_lockedUntil := jb_lockedUntil j; jb_startedAt := jb_startedAt j;
     jb_finishedAt := jb_finishedAt j; jb_lastError := jb_lastError j; jb_deadLetterReason := jb_deadLetterReason j;
     jb_idempotencyKey := jb_idempotencyKey j; jb_actorId := if decide (jb_actorId j = Some user) then None else jb_actorId j;
     jb_createdAt := jb_createdAt j; jb_updatedAt := jb_updatedAt j |}.
Definition without_creator (user : string) (sc : Schedule) : Schedule :=
  {| sc_tenantId := sc_tenantId sc; sc_name := sc_name sc; sc_jobType := sc_jobType sc; sc_kind := sc_kind sc; sc_actorId := sc_actorId sc;
     sc_timezone := sc_timezone sc; sc_cronExpression := sc_cronExpression sc; sc_intervalSeconds := sc_intervalSeconds sc;
     sc_payload := sc_payload sc; sc_priority := sc_priority sc; sc_maxAttempts := sc_maxAttempts sc; sc_backoff := sc_backoff sc;
     sc_isEnabled := sc_isEnabled sc; sc_disabledReason := sc_disabledReason sc; sc_nextRunAt := sc_nextRunAt sc;
     sc_lastEnqueuedAt := sc_lastEnqueuedAt sc; sc_createdBy := if decide (sc_createdBy sc = Some user) then None else sc_createdBy sc;
     sc_createdAt := sc_createdAt sc; sc_updatedAt := sc_updatedAt sc |}.

(** The row of the unique index on tenant, type and key. *)
Definition has_key (tenantId jobType key : string) (j : Job) : bool :=
  String.eqb (jb_tenantId j) tenantId && String.eqb (jb_jobType j) jobType && bool_decide (jb_idempotencyKey j = Some key).
Definition job_by_key (tenantId jobType : string) (key : option string) (s : Tables) : option (string * Job) :=
  match key with
  | None => None
  | Some key => List.find (λ p, has_key tenantId jobType key p.2) (map_to_list (jobs s))
  end.
Definition new_job (i : NewJob) (runAt createdAt updatedAt : Z) : Job :=
  {| jb_tenantId := nj_tenantId i; jb_scheduleId := nj_scheduleId i; jb_jobType := nj_jobType i; jb_payload := nj_payload i;
     jb_status := pending; jb_priority := nj_priority i; jb_attempts := 0; jb_maxAttempts := nj_maxAttempts i; jb_runAt := runAt;
     jb_lockedBy := None; jb_lockedUntil := None; jb_startedAt := None; jb_finishedAt := None; jb_lastError := None;
     jb_deadLetterReason := None; jb_idempotencyKey := nj_idempotencyKey i; jb_actorId := nj_actorId i;
     jb_createdAt := createdAt; jb_updatedAt := updatedAt |}.
Definition job_references (i : NewJob) (s : Tables) : bool :=
  bool_decide (nj_tenantId i ∈ tenants s) && known (nj_actorId i) (users s) && known (nj_scheduleId i) (dom (schedules s)).
(** The defaults of a row are evaluated before a conflict is found. *)
Definition insertJob (i : NewJob) : Sql (string * Job) :=
  runAt ← lift (check_job i);
  id ← gen_random_uuid;
  createdAt ← clock_timestamp;
  updatedAt ← clock_timestamp;
  found ← getf (job_by_key (nj_tenantId i) (nj_jobType i) (nj_idempotencyKey i));
  match found with
  | Some (id, j) =>
      now ← clock_timestamp;
      _ ← put_job id (touch now j);
      mret (id, touch now j)
  | None =>
      taken ← getf (λ s, bool_decide (is_Some (jobs s !! id)));
      _ ← throw_if taken (SqlError "23505");
      ok ← getf (job_references i);
      _ ← throw_if (negb ok) (SqlError "23503");
      let j := new_job i runAt createdAt updatedAt in
      _ ← put_job id j;
      mret (id, j)
  end.
Definition enqueue (i : NewJob) : Sql (string * Job) := tx (insertJob i).

Definition due (now : Z) (j : Job) : bool :=
  match jb_status j with
  | pending => 1000 * jb_runAt j <=? now
  | running => match jb_lockedUntil j with Some t => t <=? now | None => false end
  | _ => false
  end.
(** [order by priority desc, run_at asc] *)
Definition claim_le (a b : string * Job) : bool :=
  (jb_priority b.2 <? jb_priority a.2) || ((jb_priority a.2 =? jb_priority b.2) && (jb_runAt a.2 <=? jb_runAt b.2)).
Definition claim_one (workerId : string) (visibilityTimeoutMs : Z) (p : string * Job) : Sql (string * Job) :=
  now ← clock_timestamp;
  let j := claimed workerId (now + 1000 * visibilityTimeoutMs) now p.2 in
  _ ← put_job p.1 j;
  mret (p.1, j).
Fixpoint claim_each (workerId : string) (visibilityTimeoutMs : Z) (l : list (string * Job)) : Sql (list (string * Job)) :=
  match l with
  | [] => mret []
  | p :: l => c ← claim_one workerId visibilityTimeoutMs p; cs ← claim_each workerId visibilityTimeoutMs l; mret (c :: cs)
  end.
(** [scan]: the order in which the query meets the rows, which sorting keeps for rows that compare
    equal. The clock is read once for the rows that are due. *)
Definition claim (scan : list (string * Job) → list (string * Job)) (locked : string → bool)
    (workerId : string) (limit visibilityTimeoutMs : Z) : Sql (list (string * Job)) :=
  tx (
    _ ← throw_if (limit <? 0) (SqlError "2201W");
    now ← clock_timestamp;
    rows ← getf (λ s, List.firstn (Z.to_nat limit) (js_sort claim_le
                   (List.filter (λ p, due now p.2 && negb (locked p.1)) (scan (map_to_list (jobs s))))));
    claim_each workerId visibilityTimeoutMs rows).

(** The row an outcome updates: [id=$1 and locked_by=$2 and status='running'] *)
Definition owned (workerId : string) (j : Job) : bool := bool_decide (jb_lockedBy j = Some workerId) && bool_decide (jb_status j = running).
Definition settle_owned (id workerId : string) (f : Z → Job → Job) : Sql () :=
  found ← getf (λ s, jobs s !! id);
  match found with
  | Some j => if owned workerId j then now ← clock_timestamp; put_job id (f now j) else mret ()
  | None => mret ()
  end.
Definition succeed (id workerId : string) : Sql () :=
  tx (settle_owned id workerId (λ now, with_status succeeded None None (Some now) now)).
(** [error.slice(0, 4000)] is a parameter: it counts UTF-16 units. *)
Definition fail (cut : string → string) (id workerId error : string) (retryAt : option (option Z)) : Sql () :=
  tx (
    _ ← throw_if (has_nul (cut error)) (SqlError "22021");
    match retryAt with
    | None =>
        settle_owned id workerId (λ now j,
          with_errors (jb_runAt j) (Some (cut error)) (Some (cut error)) (with_status dead_letter None None (Some now) now j))
    | Some date =>
        runAt ← lift (timestamptz date);
        settle_owned id workerId (λ now j, with_errors runAt (Some (cut error)) None (with_status pending None None None now j))
    end).
Definition deadLetter (id workerId reason : string) : Sql () :=
  tx (settle_owned id workerId (λ now j,
        with_errors (jb_runAt j) (jb_lastError j) (Some reason) (with_status dead_letter None None (Some now) now j))).
Definition getJob (id tenantId : string) : Sql (option Job) :=
  getf (λ s, j ← jobs s !! id; if String.eqb (jb_tenantId j) tenantId then Some j else None).
Definition cancel (id tenantId : string) : Sql bool :=
  tx (
    found ← getJob id tenantId;
    match found with
    | Some j =>
        if bool_decide (jb_status j = pending) || bool_decide (jb_status j = running)
        then now ← clock_timestamp; _ ← put_job id (with_status canceled (jb_lockedBy j) (jb_lockedUntil j) (Some now) now j); mret true
        else mret false
    | None => mret false
    end).
Definition isActiveTenantMember (tenantId actorId : string) : Sql bool := getf (λ s, bool_decide ((tenantId, actorId) ∈ members s)).

(** ** Schedules *)

Definition recur (nextRunAt : option Z) (isEnabled : bool) (disabledReason : option string) (lastEnqueuedAt : option Z) (updatedAt : Z)
    (sc : Schedule) : Schedule :=
  {| sc_tenantId := sc_tenantId sc; sc_name := sc_name sc; sc_jobType := sc_jobType sc; sc_kind := sc_kind sc; sc_actorId := sc_actorId sc;
     sc_timezone := sc_timezone sc; sc_cronExpression := sc_cronExpression sc; sc_intervalSeconds := sc_intervalSeconds sc;
     sc_payload := sc_payload sc; sc_priority := sc_priority sc; sc_maxAttempts := sc_maxAttempts sc; sc_backoff := sc_backoff sc;
     sc_isEnabled := isEnabled; sc_disabledReason := disabledReason; sc_nextRunAt := nextRunAt; sc_lastEnqueuedAt := lastEnqueuedAt;
     sc_createdBy := sc_createdBy sc; sc_createdAt := sc_createdAt sc; sc_updatedAt := updatedAt |}.
(** The row of a schedule that was not there, and that of one that keeps its identity and history. *)
Definition defined (i : NewSchedule) (nextRunAt : Z) (lastEnqueuedAt : option Z) (createdBy : option string) (createdAt updatedAt : Z) : Schedule :=
  {| sc_tenantId := ns_tenantId i; sc_name := ns_name i; sc_jobType := ns_jobType i; sc_kind := ns_kind i; sc_actorId := Some (ns_actorId i);
     sc_timezone := ns_timezone i; sc_cronExpression := ns_cronExpression i; sc_intervalSeconds := ns_intervalSeconds i;
     sc_payload := ns_payload i; sc_priority := ns_priority i; sc_maxAttempts := ns_maxAttempts i; sc_backoff := ns_backoff i;
     sc_isEnabled := ns_isEnabled i; sc_disabledReason := None; sc_nextRunAt := Some nextRunAt; sc_lastEnqueuedAt := lastEnqueuedAt;
     sc_createdBy := createdBy; sc_createdAt := createdAt; sc_updatedAt := updatedAt |}.
Definition same_name (tenantId name : string) (sc : Schedule) : bool := String.eqb (sc_tenantId sc) tenantId && String.eqb (sc_name sc) name.
Definition schedule_by_name (tenantId name : string) (s : Tables) : option (string * Schedule) :=
  List.find (λ p, same_name tenantId name p.2) (map_to_list (schedules s)).
Definition upsertSchedule (i : NewSchedule) : Sql (string * Schedule) :=
  tx (
    nextRunAt ← lift (check_schedule i);
    id ← gen_random_uuid;
    createdAt ← clock_timestamp;
    updatedAt ← clock_timestamp;
    found ← getf (schedule_by_name (ns_tenantId i) (ns_name i));
    match found with
    | Some (id, sc) =>
        now ← clock_timestamp;
        ok ← getf (known (Some (ns_actorId i)) ∘ users);
        _ ← throw_if (negb ok) (SqlError "23503");
        let sc' := defined i nextRunAt (sc_lastEnqueuedAt sc) (sc_createdBy sc) (sc_createdAt sc) now in
        _ ← put_schedule id sc';
        mret (id, sc')
    | None =>
        taken ← getf (λ s, bool_decide (is_Some (schedules s !! id)));
        _ ← throw_if taken (SqlError "23505");
        ok ← getf (λ s, bool_decide (ns_tenantId i ∈ tenants s) && known (Some (ns_actorId i)) (users s) && known (ns_createdBy i) (users s));
        _ ← throw_if (negb ok) (SqlError "23503");
        let sc := defined i nextRunAt None (ns_createdBy i) createdAt updatedAt in
        _ ← put_schedule id sc;
        mret (id, sc)
    end).
Definition getSchedule (id tenantId : string) : Sql (option Schedule) :=
  getf (λ s, sc ← schedules s !! id; if String.eqb (sc_tenantId sc) tenantId then Some sc else None).
Definition truthy (o : option string) : bool := match o with Some x => negb (String.eqb x EmptyString) | None => false end.
Definition setScheduleEnabled (id tenantId : string) (enabled : bool) : Sql () :=
  tx (
    found ← getSchedule id tenantId;
    match found with
    | Some sc =>
        _ ← throw_if (enabled && negb (truthy (sc_actorId sc))) ScheduleActorRequiredError;
        _ ← throw_if (enabled && truthy (sc_disabledReason sc))
              (InvalidScheduleError "repair the invalid schedule with an authorized upsert before resuming");
        now ← clock_timestamp;
        put_schedule id (recur (sc_nextRunAt sc) enabled (sc_disabledReason sc) (sc_lastEnqueuedAt sc) now sc)
    | None => mret ()
    end).
Definition deleteSchedule (id tenantId : string) : Sql () :=
  found ← getSchedule id tenantId;
  match found with
  | Some _ =>
      _ ← modify (λ s, set_schedules (delete id (schedules s)) s);
      modify (λ s, set_jobs (without_schedule id <$> jobs s) s)
  | None => mret ()
  end.

(** ** Materialization *)

Definition due_schedule (now : Z) (sc : Schedule) : bool :=
  sc_isEnabled sc && bool_decide (is_Some (sc_actorId sc)) && match sc_nextRunAt sc with Some t => 1000 * t <=? now | None => true end.
(** [order by next_run_at asc] *)
Definition schedule_le (a b : string * Schedule) : bool :=
  match sc_nextRunAt a.2, sc_nextRunAt b.2 with
  | Some x, Some y => x <=? y
  | None, _ => true
  | Some _, None => false
  end.
(** The next run after [sc_nextRunAt], as a [Date]. [-infinity] is read as a number, which has none of
    the methods of a [Date]. *)
Definition next_run (sc : Schedule) : outcome JobsError (option Z) :=
  match sc_kind sc with
  | kind_cron =>
      match sc_cronExpression sc with
      | None => Throw TypeError
      | Some expression =>
          match sc_nextRunAt sc with
          | Some t =>
              match nextCronRunAt intl expression (Some t) (sc_timezone sc) with
              | Ok t' => Ok (Some t')
              | Throw e => Throw (CronFailure e)
              end
          | None =>
              match parseCronExpression expression with
              | Throw e => Throw (CronFailure e)
              | Ok _ =>
                  if String.eqb (sc_timezone sc) "UTC" then Throw TypeError
                  else match timezoneFormatter intl (sc_timezone sc) expression with
                       | Throw e => Throw (CronFailure e)
                       | Ok _ => Throw TypeError
                       end
              end
          end
      end
  | kind_interval =>
      match sc_nextRunAt sc, sc_intervalSeconds sc with
      | Some t, Some seconds => Ok (time_clip (t + seconds * 1000))
      | Some t, None => Ok (time_clip t)
      | None, _ => Throw TypeError
      end
  end.
Definition occurrence_key (id : string) (t : Z) : string := "schedule:" +:+ id +:+ ":" +:+ to_iso t.
Definition occurrence (id : string) (sc : Schedule) (t : Z) : NewJob :=
  {| nj_tenantId := sc_tenantId sc; nj_jobType := sc_jobType sc; nj_payload := sc_payload sc; nj_runAt := Some t;
     nj_priority := sc_priority sc; nj_maxAttempts := sc_maxAttempts sc; nj_idempotencyKey := Some (occurrence_key id t);
     nj_actorId := sc_actorId sc; nj_scheduleId := Some id |}.
(** One schedule of the batch; whether a job was inserted for it. *)
Definition materialize_one (p : string * Schedule) : Sql bool :=
  let '(id, sc) := p in
  match next_run sc, sc_nextRunAt sc with
  | Throw (CronFailure (InvalidCronExpressionError _)), _ =>
      now ← clock_timestamp;
      _ ← put_schedule id (recur (sc_nextRunAt sc) false (Some "invalid_schedule") (sc_lastEnqueuedAt sc) now sc);
      mret false
  | Throw e, _ => throw e
  | Ok _, None => throw TypeError
  | Ok next, Some t =>
      _ ← insertJob (occurrence id sc t);
      next ← lift (timestamptz next);
      lastEnqueuedAt ← clock_timestamp;
      updatedAt ← clock_timestamp;
      _ ← put_schedule id (recur (Some next) (sc_isEnabled sc) (sc_disabledReason sc) (Some lastEnqueuedAt) updatedAt sc);
      mret true
  end.
Fixpoint materialize_each (l : list (string * Schedule)) : Sql (list (string * Schedule)) :=
  match l with
  | [] => mret []
  | p :: l =>
      inserted ← materialize_one p;
      rest ← materialize_each l;
      mret (if inserted : bool then p :: rest else rest)
  end.
Definition materialize (scan : list (string * Schedule) → list (string * Schedule)) (locked : string → bool) (limit : Z) :
    Sql (list (string * Schedule)) :=
  tx (
    _ ← throw_if (limit <? 0) (SqlError "2201W");
    now ← clock_timestamp;
    rows ← getf (λ s, List.firstn (Z.to_nat limit) (js_sort schedule_le
                   (List.filter (λ p, due_schedule now p.2 && negb (locked p.1)) (scan (map_to_list (schedules s))))));
    materialize_each rows).
End repository.
