(* ===== verification/JobsService.v ===== *)
(** * JobsService: the calls of an application, the registry of handlers and the backoff.

    [jobs/src/jobs.service.ts], [jobs.registry.ts], [backoff.ts] and [constants.ts]. The request is
    its context; the answer of the host's [authorizeTechnicalActor] is an argument. A call reads
    the memberships in a transaction of its own, before the one that writes: what it read is an
    argument, [members]. *)
From Stdlib Require Import Ascii.
From S2P Require Import Prelude JsMap JsText JsDate Cron JobsRepository.
Local Open Scope Z_scope.

(** ** Backoff *)

Definition DEFAULT_WORKER_BATCH_SIZE : Z := 10.
Definition DEFAULT_SCHEDULER_BATCH_SIZE : Z := 25.
Definition DEFAULT_VISIBILITY_TIMEOUT_MS : Z := 60000.
Definition DEFAULT_MAX_ATTEMPTS : Z := 5.
Definition DEFAULT_BACKOFF_POLICY : BackoffPolicy := {| bp_baseMs := 1000; bp_maxMs := 300000; bp_multiplier := 2 |}.

(** [below n] is [Math.floor(random() * n)]. *)
Definition computeBackoffMs (below : Z → Z) (policy : BackoffPolicy) (attempt : Z) : Z :=
  let exponential := bp_baseMs policy * bp_multiplier policy ^ Z.max 0 (attempt - 1) in
  let ceiling := Z.min (bp_maxMs policy) exponential in
  below (ceiling + 1).

(** A member of a partial policy: absent, or given; [Some None] is no finite number. *)
Record PartialBackoff := { pb_baseMs : option (option Z); pb_maxMs : option (option Z); pb_multiplier : option (option Z) }.
Definition no_backoff : PartialBackoff := {| pb_baseMs := None; pb_maxMs := None; pb_multiplier := None |}.
Definition normalizeBackoff (policy : PartialBackoff) (defaults : BackoffPolicy) : outcome JobsError BackoffPolicy :=
  match default (Some (bp_baseMs defaults)) (pb_baseMs policy), default (Some (bp_maxMs defaults)) (pb_maxMs policy),
        default (Some (bp_multiplier defaults)) (pb_multiplier policy) with
  | Some baseMs, Some maxMs, Some multiplier =>
      if (baseMs <? 0) || (maxMs <? baseMs) || (multiplier <? 1) then Throw (PlainError "Invalid job backoff policy")
      else Ok {| bp_baseMs := baseMs; bp_maxMs := maxMs; bp_multiplier := multiplier |}
  | _, _, _ => Throw (PlainError "Invalid job backoff policy")
  end.

(** ** The registry *)

Section registry.
Context {Handler : Type}.
Definition register (jobType : string) (handler : Handler) : JS (jsmap string Handler) JobsError () :=
  _ ← throw_if (blank jobType) (UnknownJobTypeError jobType);
  there ← getf (jm_has jobType);
  _ ← throw_if there (DuplicateJobTypeHandlerError jobType);
  modify (jm_set jobType handler).
Definition get (handlers : jsmap string Handler) (jobType : string) : outcome JobsError Handler :=
  match jm_get jobType handlers with Some h => Ok h | None => Throw (UnknownJobTypeError jobType) end.
End registry.

(** ** Inputs *)

Record RequestContext := { cx_tenantId : option string; cx_actorId : option string }.
Record EnqueueJobInput := {
  ei_jobType : option string;
  ei_payload : option Jsonb;
  ei_tenantId : string;
  ei_actorId : option string;
  ei_runAt : option (option Z);        (** a [Date], which may be invalid *)
  ei_delayMs : option Z;
  ei_priority : option Z;
  ei_maxAttempts : option Z;
  ei_idempotencyKey : option string }.
Record UpsertScheduleInput := {
  ui_name : option string;
  ui_jobType : option string;
  ui_tenantId : string;
  ui_actorId : option string;
  ui_kind : option ScheduleKind;       (** [None]: neither of the two *)
  ui_timezone : option string;
  ui_cronExpression : option string;
  ui_intervalSeconds : option Z;
  ui_payload : option Jsonb;
  ui_priority : option Z;
  ui_maxAttempts : option Z;
  ui_backoff : option PartialBackoff;
  ui_isEnabled : option bool;
  ui_createdBy : option string }.

Definition is_hex (c : ascii) : bool := is_digit c || byte_in 97 102 c || byte_in 65 70 c.
Fixpoint hex_then (n : nat) (k : string → bool) (s : string) : bool :=
  match n with
  | O => k s
  | S n' => match s with String c s' => is_hex c && hex_then n' k s' | EmptyString => false end
  end.
Definition dash (k : string → bool) (s : string) : bool := match s with String c s' => Ascii.eqb c "-" && k s' | EmptyString => false end.
(** [/^[0-9a-f]{8}-[0-9a-f]{4}-[0-9a-f]{4}-[0-9a-f]{4}-[0-9a-f]{12}$/iu] *)
Definition UUID_PATTERN : string → bool :=
  hex_then 8 (dash (hex_then 4 (dash (hex_then 4 (dash (hex_then 4 (dash (hex_then 12 (λ s, String.eqb s EmptyString))))))))).
(** [value ? { ... } : {}] and [!value] *)
Definition nonempty (o : option string) : option string := match o with Some s => if String.eqb s EmptyString then None else Some s | None => None end.
Definition nonzero (o : option Z) : option Z := match o with Some z => if z =? 0 then None else Some z | None => None end.

Section service.
Context (clock : nat → Z) (uuid : nat → string) (intl : string → option Formatter).
(** [new Intl.DateTimeFormat('en-US', { timeZone }).resolvedOptions().timeZone] *)
Context (canonical : string → option string).

Definition canonicalTimezone (value : string) : outcome JobsError string :=
  let refused := InvalidScheduleError "timezone must be a canonical IANA name" in
  if (negb (String.eqb value "UTC") && negb (has_char "/" value)) || starts_with "Etc/GMT+" value || starts_with "Etc/GMT-" value
  then Throw refused
  else match canonical value with Some zone => Ok zone | None => Throw refused end.

Definition caller (context : RequestContext) (tenantId : string) : outcome JobsError (string * string) :=
  match nonempty (cx_tenantId context), nonempty (cx_actorId context) with
  | None, _ => Throw TenantContextMissingError
  | _, None => Throw ActorContextMissingError
  | Some tenant, Some actor =>
      if String.eqb tenantId tenant then Ok (tenant, actor) else Throw (JobTenantMismatchError tenantId tenant)
  end.

(** [answer] is what the host's callback gives: [None] when there is none. *)
Definition authorizeActor (members : gset (string * string)) (answer : option (outcome JobsError bool))
    (tenantId actorId callerActorId : string) : outcome JobsError () :=
  if negb (bool_decide ((lower tenantId, lower actorId) ∈ members)) then Throw (JobActorMembershipError tenantId actorId)
  else if String.eqb actorId callerActorId then Ok ()
  else match answer with
       | Some (Ok true) => Ok ()
       | Some (Throw e) => Throw e
       | _ => Throw (JobActorAssignmentDeniedError tenantId actorId)
       end.

(** [jsNow] is [Date.now()]. *)
Definition enqueue_input (context : RequestContext) (members : gset (string * string)) (answer : option (outcome JobsError bool)) (jsNow : Z)
    (input : EnqueueJobInput) : outcome JobsError NewJob :=
  let required := InvalidJobInputError "jobType, tenantId, and a non-negative exclusive delay/runAt are required" in
  match ei_jobType input with
  | None => Throw required
  | Some jobType =>
      if blank jobType || String.eqb (ei_tenantId input) EmptyString
         || bool_decide (is_Some (ei_runAt input) ∧ is_Some (ei_delayMs input)) || (default 0 (ei_delayMs input) <? 0)
      then Throw required
      else if bool_decide (ei_actorId input = Some EmptyString) then Throw (InvalidJobInputError "actorId is required")
      else if match ei_actorId input with Some a => negb (UUID_PATTERN a) | None => false end
      then Throw (InvalidJobInputError "actorId must be a UUID")
      else
        '(_, callerActor) ← caller context (ei_tenantId input);
        let actorId := default callerActor (ei_actorId input) in
        _ ← authorizeActor members answer (ei_tenantId input) actorId callerActor;
        mret {| nj_tenantId := lower (ei_tenantId input); nj_jobType := jobType; nj_payload := default "{}" (ei_payload input);
                nj_runAt := match ei_runAt input with Some date => date | None => time_clip (jsNow + default 0 (ei_delayMs input)) end;
                nj_priority := default 0 (ei_priority input); nj_maxAttempts := default DEFAULT_MAX_ATTEMPTS (ei_maxAttempts input);
                nj_idempotencyKey := nonempty (ei_idempotencyKey input); nj_actorId := Some (lower actorId); nj_scheduleId := None |}
  end.
Definition enqueue (context : RequestContext) (members : gset (string * string)) (answer : option (outcome JobsError bool)) (jsNow : Z)
    (input : EnqueueJobInput) : Sql (string * Job) :=
  i ← lift (enqueue_input context members answer jsNow input);
  JobsRepository.enqueue clock uuid i.

(** A call on one row: the caller's tenant, then the transaction. *)
Definition in_tenant {A} (context : RequestContext) (required : JobsError) (tenantId : option string) (m : string → Sql A) : Sql A :=
  match nonempty tenantId with
  | None => throw required
  | Some tenant => _ ← lift (caller context tenant); m (lower tenant)
  end.
Definition job_tenant_required : JobsError := InvalidJobInputError "tenantId is required".
Definition schedule_tenant_required : JobsError := InvalidScheduleError "tenantId is required".
Definition getJob (context : RequestContext) (jobId : string) (tenantId : option string) : Sql (option Job) :=
  in_tenant context job_tenant_required tenantId (JobsRepository.getJob (lower jobId)).
Definition cancel (context : RequestContext) (jobId : string) (tenantId : option string) : Sql bool :=
  in_tenant context job_tenant_required tenantId (JobsRepository.cancel clock (lower jobId)).
Definition getSchedule (context : RequestContext) (id : string) (tenantId : option string) : Sql (option Schedule) :=
  in_tenant context schedule_tenant_required tenantId (JobsRepository.getSchedule (lower id)).
Definition pauseSchedule (context : RequestContext) (id : string) (tenantId : option string) : Sql () :=
  in_tenant context schedule_tenant_required tenantId (λ t, setScheduleEnabled clock (lower id) t false).
Definition resumeSchedule (context : RequestContext) (id : string) (tenantId : option string) : Sql () :=
  in_tenant context schedule_tenant_required tenantId (λ t, setScheduleEnabled clock (lower id) t true).
Definition deleteSchedule (context : RequestContext) (id : string) (tenantId : option string) : Sql () :=
  in_tenant context schedule_tenant_required tenantId (JobsRepository.deleteSchedule (lower id)).

(** The first run of a schedule. *)
Definition first_run (jsNow : Z) (timezone : string) (input : UpsertScheduleInput) : outcome JobsError (option Z) :=
  match ui_kind input, nonempty (ui_cronExpression input), nonzero (ui_intervalSeconds input) with
  | Some kind_cron, Some expression, None =>
      match parseCronExpression expression with
      | Throw e => Throw (CronFailure e)
      | Ok _ =>
          match nextCronRunAt intl expression (Some jsNow) timezone with
          | Ok t => Ok (Some t)
          | Throw e => Throw (CronFailure e)
          end
      end
  | Some kind_interval, None, Some seconds =>
      if 0 <? seconds then Ok (time_clip (jsNow + seconds * 1000))
      else Throw (InvalidScheduleError "cron requires cronExpression; interval requires positive intervalSeconds")
  | _, _, _ => Throw (InvalidScheduleError "cron requires cronExpression; interval requires positive intervalSeconds")
  end.
Definition schedule_input (context : RequestContext) (members : gset (string * string)) (answer : option (outcome JobsError bool)) (jsNow : Z)
    (input : UpsertScheduleInput) : outcome JobsError NewSchedule :=
  match nonempty (Some (ui_tenantId input)), ui_name input, ui_jobType input with
  | Some tenantId, Some name, Some jobType =>
      if blank name || blank jobType then Throw (InvalidScheduleError "tenantId, name, and jobType are required")
      else match ui_actorId input with
      | None => Throw ScheduleActorRequiredError
      | Some actorId =>
          if blank actorId then Throw ScheduleActorRequiredError
          else if negb (UUID_PATTERN actorId) then Throw (InvalidScheduleError "actorId must be a UUID")
          else
            '(_, callerActor) ← caller context tenantId;
            timezone ← canonicalTimezone (default "UTC" (ui_timezone input));
            nextRunAt ← first_run jsNow timezone input;
            _ ← authorizeActor members answer tenantId actorId callerActor;
            backoff ← normalizeBackoff (default no_backoff (ui_backoff input)) DEFAULT_BACKOFF_POLICY;
            match ui_kind input with
            | None => Throw (InvalidScheduleError "cron requires cronExpression; interval requires positive intervalSeconds")
            | Some kind =>
                mret {| ns_tenantId := lower tenantId; ns_name := name; ns_jobType := jobType; ns_actorId := lower actorId; ns_timezone := timezone;
                        ns_kind := kind; ns_cronExpression := nonempty (ui_cronExpression input);
                        ns_intervalSeconds := nonzero (ui_intervalSeconds input); ns_payload := default "{}" (ui_payload input);
                        ns_priority := default 0 (ui_priority input); ns_maxAttempts := default DEFAULT_MAX_ATTEMPTS (ui_maxAttempts input);
                        ns_backoff := backoff; ns_nextRunAt := nextRunAt; ns_createdBy := lower <$> nonempty (ui_createdBy input);
                        ns_isEnabled := default true (ui_isEnabled input) |}
            end
      end
  | _, _, _ => Throw (InvalidScheduleError "tenantId, name, and jobType are required")
  end.
Definition upsertSchedule (context : RequestContext) (members : gset (string * string)) (answer : option (outcome JobsError bool)) (jsNow : Z)
    (input : UpsertScheduleInput) : Sql (string * Schedule) :=
  i ← lift (schedule_input context members answer jsNow input);
  JobsRepository.upsertSchedule clock uuid i.
End service.
