(* ===== verification/JobsSystem.v ===== *)
(** * JobsSystem: workers and schedulers beside the calls of applications.

    [jobs/src/jobs.worker.ts] and [jobs.scheduler.ts]. A worker claims in one transaction, then runs
    the handlers and records each outcome in a transaction of its own. Between two transactions any
    others run, a handler takes any time, a transaction can fail and a process can stop: an
    execution that takes no further step. *)
From S2P Require Import Prelude JsMap JsText JsDate Cron JobsRepository JobsService.
Local Open Scope Z_scope.

(** ** The polling loop of a worker or a scheduler *)

(** [timer]: the handle of the interval, from a timer port that numbers them; [ticking]: a tick is
    under way. *)
Record Poller := { timer : option nat; ticking : bool; handles : nat }.
Definition new_poller : Poller := {| timer := None; ticking := false; handles := 0 |}.
Definition start (enabled : bool) (p : Poller) : Poller :=
  if negb enabled || bool_decide (is_Some (timer p)) then p
  else {| timer := Some (handles p); ticking := ticking p; handles := S (handles p) |}.
Definition stop (p : Poller) : Poller := {| timer := None; ticking := ticking p; handles := handles p |}.
(** The callback of the interval [handle], which the port may still make after it was cleared; whether
    a tick begins. *)
Definition fire (handle : nat) (p : Poller) : bool * Poller :=
  if negb (bool_decide (timer p = Some handle)) || ticking p then (false, p)
  else (true, {| timer := timer p; ticking := true; handles := handles p |}).
Definition tick_ended (p : Poller) : Poller := {| timer := timer p; ticking := false; handles := handles p |}.

(** ** Executions *)

Inductive Ending := en_executed | en_not_executable (reason : string) | en_failed (message : string).
Inductive Phase := ph_claimed | ph_running | ph_ended (e : Ending) | ph_settled.
Record Execution := { ex_worker : string; ex_id : string; ex_job : Job; ex_phase : Phase }.
Definition set_phase p (e : Execution) : Execution := {| ex_worker := ex_worker e; ex_id := ex_id e; ex_job := ex_job e; ex_phase := p |}.

Section system.
Context (clock : nat → Z) (uuid : nat → string) (intl : string → option Formatter) (canonical : string → option string).
Context (cut : string → string).

(** The claim of a tick. *)
Definition tick_claim (scan : list (string * Job) → list (string * Job)) (locked : string → bool) (workerId : string)
    (batchSize visibilityTimeoutMs : option Z) : Sql (list (string * Job)) :=
  claim clock scan locked workerId (default DEFAULT_WORKER_BATCH_SIZE batchSize) (default DEFAULT_VISIBILITY_TIMEOUT_MS visibilityTimeoutMs).
Definition executions_of (workerId : string) (l : list (string * Job)) : list Execution :=
  (λ p, {| ex_worker := workerId; ex_id := p.1; ex_job := p.2; ex_phase := ph_claimed |}) <$> l.

(** What comes before the handler: [execute] up to its call of [executeHandler], which reads the
    membership and runs the handler. [registered] are the types with a handler. *)
Definition begin_execution (registered : string → bool) (members : gset (string * string)) (j : Job) : Phase :=
  match nonempty (Some (jb_tenantId j)), nonempty (jb_actorId j) with
  | Some tenantId, Some actorId =>
      if negb (registered (jb_jobType j)) then ph_ended (en_failed ("No handler registered for job type: " +:+ jb_jobType j))
      else if negb (bool_decide ((tenantId, actorId) ∈ members)) then ph_ended (en_not_executable "inactive_actor_membership")
      else ph_running
  | _, _ => ph_ended (en_not_executable "missing_actor")
  end.
(** [null], or the [Date] of the next attempt; [jsNow] is the reading of the worker's clock. *)
Definition retryAt (jsNow : Z) (below : Z → Z) (j : Job) : option (option Z) :=
  if jb_maxAttempts j <=? jb_attempts j then None
  else Some (time_clip (jsNow + computeBackoffMs below DEFAULT_BACKOFF_POLICY (jb_attempts j))).
Definition settle (jsNow : Z) (below : Z → Z) (e : Execution) (o : Ending) : Sql () :=
  match o with
  | en_executed => succeed clock (ex_id e) (ex_worker e)
  | en_not_executable reason => deadLetter clock (ex_id e) (ex_worker e) reason
  | en_failed message => fail clock cut (ex_id e) (ex_worker e) message (retryAt jsNow below (ex_job e))
  end.

(** A tick of the scheduler: how many occurrences it materialized. *)
Definition tick_materialize (scan : list (string * Schedule) → list (string * Schedule)) (locked : string → bool) (batchSize : option Z) : Sql nat :=
  length <$> materialize clock uuid intl scan locked (default DEFAULT_SCHEDULER_BATCH_SIZE batchSize).

(** ** Other calls *)

Inductive Call :=
| call_enqueue (context : RequestContext) (members : gset (string * string)) (answer : option (outcome JobsError bool)) (jsNow : Z) (i : EnqueueJobInput)
| call_cancel (context : RequestContext) (id : string) (tenantId : option string)
| call_upsertSchedule (context : RequestContext) (members : gset (string * string)) (answer : option (outcome JobsError bool)) (jsNow : Z) (i : UpsertScheduleInput)
| call_pauseSchedule (context : RequestContext) (id : string) (tenantId : option string)
| call_resumeSchedule (context : RequestContext) (id : string) (tenantId : option string)
| call_deleteSchedule (context : RequestContext) (id : string) (tenantId : option string)
| call_materialize (scan : list (string * Schedule) → list (string * Schedule)) (locked : string → bool) (batchSize : option Z).
Definition run_call (c : Call) : Sql () :=
  match c with
  | call_enqueue context members answer jsNow i => _ ← JobsService.enqueue clock uuid context members answer jsNow i; mret ()
  | call_cancel context id tenantId => _ ← JobsService.cancel clock context id tenantId; mret ()
  | call_upsertSchedule context members answer jsNow i =>
      _ ← JobsService.upsertSchedule clock uuid intl canonical context members answer jsNow i; mret ()
  | call_pauseSchedule context id tenantId => pauseSchedule clock context id tenantId
  | call_resumeSchedule context id tenantId => resumeSchedule clock context id tenantId
  | call_deleteSchedule context id tenantId => JobsService.deleteSchedule context id tenantId
  | call_materialize scan locked batchSize => _ ← tick_materialize scan locked batchSize; mret ()
  end.

(** ** Other writers *)

(** An application may write the schedules of its tenant as far as the constraints of the table
    go. *)
Definition storable (s : Tables) (sc : Schedule) : bool :=
  bool_decide (sc_tenantId sc ∈ tenants s) && known (sc_actorId sc) (users s) && known (sc_createdBy sc) (users s)
  && named (sc_name sc) && named (sc_jobType sc) && some_positive (sc_intervalSeconds sc) && (1 <=? sc_maxAttempts sc) && backoff_ok (sc_backoff sc)
  && cron_fields (sc_kind sc) (sc_cronExpression sc) (sc_intervalSeconds sc)
  && (bool_decide (is_Some (sc_actorId sc)) || negb (sc_isEnabled sc))
  && smallint (sc_priority sc) && integer (sc_maxAttempts sc)
  && match sc_nextRunAt sc with Some t => MIN_TIMESTAMP <=? t | None => true end.
Inductive outside (s : Tables) : Tables → Prop :=
| out_members l : outside s {| jobs := jobs s; schedules := schedules s; tenants := tenants s; users := users s; members := l; ticks := ticks s; uuids := uuids s |}
| out_tenant t : outside s {| jobs := jobs s; schedules := schedules s; tenants := {[t]} ∪ tenants s; users := users s; members := members s; ticks := ticks s; uuids := uuids s |}
| out_user u : outside s {| jobs := jobs s; schedules := schedules s; tenants := tenants s; users := {[u]} ∪ users s; members := members s; ticks := ticks s; uuids := uuids s |}
(** Deletions, with what the foreign keys do. *)
| out_delete_tenant t :
    outside s {| jobs := filter (λ p, jb_tenantId p.2 ≠ t) (jobs s); schedules := filter (λ p, sc_tenantId p.2 ≠ t) (schedules s);
                 tenants := tenants s ∖ {[t]}; users := users s; members := members s; ticks := ticks s; uuids := uuids s |}
| out_delete_user u :
    map_Forall (λ _ sc, sc_actorId sc ≠ Some u) (schedules s) →
    outside s {| jobs := without_actor u <$> jobs s; schedules := without_creator u <$> schedules s; tenants := tenants s; users := users s ∖ {[u]};
                 members := members s; ticks := ticks s; uuids := uuids s |}
| out_schedule id sc :
    storable s sc = true → (∀ old, schedules s !! id = Some old → sc_tenantId old = sc_tenantId sc) →
    (∀ id' sc', schedules s !! id' = Some sc' → same_name (sc_tenantId sc) (sc_name sc) sc' = true → id' = id) →
    outside s (set_schedules (<[id := sc]> (schedules s)) s).

(** ** The system *)

(** [cl_at] and [cl_until]: when the claim was made and when its lease ends. *)
Record Claim := { cl_id : string; cl_attempts : Z; cl_worker : string; cl_at : Z; cl_until : Z }.
Definition claim_of (e : Execution) : Claim :=
  {| cl_id := ex_id e; cl_attempts := jb_attempts (ex_job e); cl_worker := ex_worker e; cl_at := jb_updatedAt (ex_job e);
     cl_until := default 0 (jb_lockedUntil (ex_job e)) |}.
(** [executions] keeps those that are settled: it is the history of the claims. [runs] is that of the
    claims whose handler began. *)
Record Sys := { db : Tables; executions : list Execution; runs : list Claim }.
Definition claims (s : Sys) : list Claim := claim_of <$> executions s.
Definition set_db x (s : Sys) : Sys := {| db := x; executions := executions s; runs := runs s |}.
Definition set_execution n e (s : Sys) : Sys := {| db := db s; executions := <[n := e]> (executions s); runs := runs s |}.
Definition with_executions (es : list Execution) (x : Tables) (s : Sys) : Sys :=
  {| db := x; executions := executions s ++ es; runs := runs s |}.

Inductive step (s : Sys) : Sys → Prop :=
| st_call c : step s (set_db (run_call c (db s)).2 s)
| st_outside x : outside (db s) x → step s (set_db x s)
| st_claim scan locked workerId batchSize visibilityTimeoutMs l x :
    (∀ l, scan l ≡ₚ l) →
    tick_claim scan locked workerId batchSize visibilityTimeoutMs (db s) = (Ok l, x) →
    step s (with_executions (executions_of workerId l) x s)
| st_claim_fails scan locked workerId batchSize visibilityTimeoutMs e x :
    tick_claim scan locked workerId batchSize visibilityTimeoutMs (db s) = (Throw e, x) → step s (set_db x s)
| st_begin n e registered :
    executions s !! n = Some e → ex_phase e = ph_claimed →
    let p := begin_execution registered (members (db s)) (ex_job e) in
    step s {| db := db s; executions := <[n := set_phase p e]> (executions s);
              runs := runs s ++ match p with ph_running => [claim_of e] | _ => [] end |}
(** The query of the membership can fail, and the handler can return or throw. *)
| st_no_begin n e message :
    executions s !! n = Some e → ex_phase e = ph_claimed → step s (set_execution n (set_phase (ph_ended (en_failed message)) e) s)
| st_returned n e : executions s !! n = Some e → ex_phase e = ph_running → step s (set_execution n (set_phase (ph_ended en_executed) e) s)
| st_threw n e message :
    executions s !! n = Some e → ex_phase e = ph_running → step s (set_execution n (set_phase (ph_ended (en_failed message)) e) s)
| st_settle n e o jsNow below :
    executions s !! n = Some e → ex_phase e = ph_ended o →
    step s (set_db (settle jsNow below e o (db s)).2 (set_execution n (set_phase ph_settled e) s))
| st_unsettled n e o :
    executions s !! n = Some e → ex_phase e = ph_ended o → step s (set_execution n (set_phase ph_settled e) s).

Definition start_sys (t : Tables) : Sys := {| db := t; executions := []; runs := [] |}.
Definition fresh (t : Tables) : Prop := jobs t = ∅ ∧ schedules t = ∅.
Definition reachable (s : Sys) : Prop := ∃ t, fresh t ∧ rtc step (start_sys t) s.
End system.
