(* ===== verification/JobsInv.v ===== *)
(** * JobsInv: what the steps of the job queue do to its jobs.

    [jtrans] is the life of a job: it is claimed when it is due, settled by the holder of its lock or
    canceled. Every step moves each job along it at most once, creates pending jobs, or deletes the
    jobs of a tenant; the rest is work that leaves what a job is as it is. *)
From S2P Require Import Prelude JsMap JsText JsDate Cron JobsRepository JobsService JobsSystem.
Local Open Scope Z_scope.

(** ** The life of a job *)

Definition terminal (st : JobStatus) : bool := match st with pending | running => false | _ => true end.
(** What identifies a job: nothing changes it. *)
Definition job_facts (j : Job) :=
  (jb_tenantId j, jb_jobType j, jb_payload j, jb_priority j, jb_maxAttempts j, jb_idempotencyKey j, jb_createdAt j).
Definition job_state (j : Job) :=
  (jb_status j, jb_attempts j, jb_runAt j, jb_lockedBy j, jb_lockedUntil j, jb_startedAt j, jb_finishedAt j, jb_lastError j, jb_deadLetterReason j).
Definition same_work (j j' : Job) : Prop := job_facts j' = job_facts j ∧ job_state j' = job_state j.
Definition fresh_job (j : Job) : Prop := jb_status j = pending ∧ jb_attempts j = 0 ∧ jb_lockedBy j = None ∧ jb_lockedUntil j = None ∧ jb_finishedAt j = None.

(** The claim of an attempt at [now], when the job is due at [read]. *)
Inductive jtrans (j : Job) : Job → Prop :=
| jt_claim read now until w :
    due read j = true → jtrans j (claimed w until now j)
| jt_succeed w now :
    owned w j = true → jtrans j (with_status succeeded None None (Some now) now j)
| jt_retry w now runAt message :
    owned w j = true → jtrans j (with_errors runAt (Some message) None (with_status pending None None None now j))
| jt_dead w now message :
    owned w j = true → jtrans j (with_errors (jb_runAt j) (Some message) (Some message) (with_status dead_letter None None (Some now) now j))
| jt_refuse w now reason :
    owned w j = true → jtrans j (with_errors (jb_runAt j) (jb_lastError j) (Some reason) (with_status dead_letter None None (Some now) now j))
| jt_cancel now :
    terminal (jb_status j) = false → jtrans j (with_status canceled (jb_lockedBy j) (jb_lockedUntil j) (Some now) now j).

#[export] Instance same_work_equiv : Equivalence same_work.
Proof.
  split; [by split|intros j j' [H1 H2]; by split|]. intros j1 j2 j3 [H1 H2] [H3 H4]. split; congruence.
Qed.
Lemma same_work_touch now j : same_work j (touch now j).
Proof. by destruct j. Qed.
Lemma same_work_schedule id j : same_work j (without_schedule id j).
Proof. by destruct j. Qed.
Lemma same_work_actor u j : same_work j (without_actor u j).
Proof. by destruct j. Qed.
Lemma same_work_fresh j j' : same_work j j' → fresh_job j → fresh_job j'.
Proof. intros [_ H] (? & ? & ? & ? & ?). unfold job_state in H. unfold fresh_job. split_and!; congruence. Qed.

(** ** Work that moves no job *)

Section quiet.
#[local] Set Default Proof Using "Type".
Context (clock : nat → Z) (uuid : nat → string) (intl : string → option Formatter) (canonical : string → option string) (cut : string → string).

(** One row for a key. *)
Definition keys_unique (s : Tables) : Prop :=
  ∀ id id' j j', jobs s !! id = Some j → jobs s !! id' = Some j' →
    jb_tenantId j = jb_tenantId j' → jb_jobType j = jb_jobType j' → jb_idempotencyKey j = jb_idempotencyKey j' →
    is_Some (jb_idempotencyKey j) → id = id'.

Definition row_kept (s s' : Tables) (id : string) : Prop :=
  match jobs s !! id, jobs s' !! id with
  | Some j, Some j' => same_work j j'
  | None, Some j' => fresh_job j' ∧ ∃ n, (uuids s ≤ n < uuids s')%nat ∧ id = uuid n
  | None, None => True
  | Some _, None => False
  end.
Record quiet (s s' : Tables) : Prop := {
  qu_ticks : (ticks s ≤ ticks s')%nat;
  qu_uuids : (uuids s ≤ uuids s')%nat;
  qu_rows : ∀ id, row_kept s s' id;
  qu_keys : keys_unique s → keys_unique s' }.

Lemma quiet_refl s : quiet s s.
Proof. split; [done|done| |done]. intros id. unfold row_kept. by destruct (jobs s !! id). Qed.
Lemma quiet_trans s1 s2 s3 : quiet s1 s2 → quiet s2 s3 → quiet s1 s3.
Proof.
  intros [Ht1 Hu1 Hr1 Hk1] [Ht2 Hu2 Hr2 Hk2]. split; [lia|lia| |auto].
  intros id. specialize (Hr1 id). specialize (Hr2 id). unfold row_kept in *.
  destruct (jobs s1 !! id) as [j1|], (jobs s2 !! id) as [j2|], (jobs s3 !! id) as [j3|]; try done.
  - by etrans.
  - destruct Hr1 as [Hf (n & ? & ->)]. split; [by eapply same_work_fresh|]. exists n. split; [lia|done].
  - destruct Hr2 as [Hf (n & ? & ->)]. split; [done|]. exists n. split; [lia|done].
Qed.
(** The same jobs, later. *)
Lemma quiet_same s s' : jobs s' = jobs s → (ticks s ≤ ticks s')%nat → (uuids s ≤ uuids s')%nat → quiet s s'.
Proof.
  intros Hj ? ?. split; [done|done| |].
  - intros id. unfold row_kept. rewrite Hj. by destruct (jobs s !! id).
  - unfold keys_unique. by rewrite Hj.
Qed.
Lemma keys_unique_map (f : Job → Job) s : (∀ j, job_facts (f j) = job_facts j) → keys_unique s → keys_unique (set_jobs (f <$> jobs s) s).
Proof.
  intros Hf Hk id id' j j' Hj Hj' H1 H2 H3 H4. simpl in *. rewrite lookup_fmap in Hj, Hj'.
  destruct (jobs s !! id) as [i|] eqn:E, (jobs s !! id') as [i'|] eqn:E'; simplify_eq/=.
  pose proof (Hf i) as F. pose proof (Hf i') as F'. unfold job_facts in F, F'. injection F; injection F'. intros.
  eapply Hk; [exact E|exact E'|congruence..].
Qed.
(** A row written over one with the same work. *)
Lemma quiet_row id j j' s : jobs s !! id = Some j → same_work j j' → quiet s (set_jobs (<[id := j']> (jobs s)) s).
Proof.
  intros Hj Hw. split; [done|done| |].
  - intros id'. unfold row_kept. simpl. destruct (decide (id = id')) as [<-|Hne]; [by rewrite Hj, lookup_insert_eq|].
    rewrite lookup_insert_ne by done. by destruct (jobs s !! id').
  - intros Hk a b x y Hx Hy H1 H2 H3 H4. simpl in *. destruct Hw as [F _]. unfold job_facts in F. injection F as F1 F2 F3 F4 F5 F6 F7.
    apply lookup_insert_Some in Hx, Hy. destruct Hx as [[<- <-]|[_ Hx]], Hy as [[<- <-]|[_ Hy]]; [done|..].
    + eapply Hk; [exact Hj|exact Hy|congruence..].
    + eapply Hk; [exact Hx|exact Hj|congruence..].
    + eapply Hk; [exact Hx|exact Hy|congruence..].
Qed.

Definition quietly {A} (m : Sql A) : Prop := ∀ s, quiet s (m s).2.
Lemma quietly_pure {A} (m : Sql A) : (∀ s, (m s).2 = s) → quietly m.
Proof. intros Hm s. rewrite Hm. apply quiet_refl. Qed.
Lemma quietly_bind {A B} (m : Sql A) (f : A → Sql B) : quietly m → (∀ a, quietly (f a)) → quietly (m ≫= f).
Proof.
  intros Hm Hf s. specialize (Hm s). unfold mbind, js_bind. destruct (m s) as [[a|e] s1]; simpl in *; [|done].
  eapply quiet_trans; [exact Hm|apply Hf].
Qed.
Lemma quietly_tx {A} (m : Sql A) : quietly m → quietly (tx m).
Proof.
  intros Hm s. specialize (Hm s). unfold tx. destruct (m s) as [[a|e] s1]; [done|]. by apply quiet_same; [|apply Hm|apply Hm].
Qed.
Lemma quietly_draw (f : Tables → Tables) : (∀ s, jobs (f s) = jobs s ∧ (ticks s ≤ ticks (f s))%nat ∧ (uuids s ≤ uuids (f s))%nat) → quietly (modify f).
Proof. intros Hf s. destruct (Hf s) as (? & ? & ?). by apply quiet_same. Qed.

(** ** The methods that move no job *)

Lemma has_key_spec tenantId jobType key j :
  has_key tenantId jobType key j = true ↔ jb_tenantId j = tenantId ∧ jb_jobType j = jobType ∧ jb_idempotencyKey j = Some key.
Proof. unfold has_key. rewrite !andb_true_iff, !String.eqb_eq, bool_decide_eq_true. by rewrite (assoc (∧)). Qed.
Lemma job_by_key_some tenantId jobType key s id j :
  job_by_key tenantId jobType key s = Some (id, j) →
  jobs s !! id = Some j ∧ jb_tenantId j = tenantId ∧ jb_jobType j = jobType ∧ jb_idempotencyKey j = key ∧ is_Some key.
Proof.
  unfold job_by_key. destruct key as [key|]; [|done]. intros [Hin Hk]%find_some.
  apply has_key_spec in Hk as (? & ? & ?). apply list_elem_of_In, elem_of_map_to_list in Hin. by repeat split.
Qed.
Lemma job_by_key_none tenantId jobType key s :
  job_by_key tenantId jobType key s = None →
  ∀ id j, jobs s !! id = Some j → jb_tenantId j = tenantId → jb_jobType j = jobType → jb_idempotencyKey j = key → is_Some key → False.
Proof.
  unfold job_by_key. intros Hn id j Hj H1 H2 H3 [k ->]. 
  pose proof (find_none _ _ Hn (id, j)) as Hf. simpl in Hf. apply not_true_iff_false in Hf; [by apply Hf, has_key_spec|].
  by apply list_elem_of_In, elem_of_map_to_list.
Qed.

Lemma clock_run s : clock_timestamp clock s = (Ok (clock (ticks s)), set_draws (S (ticks s)) (uuids s) s).
Proof. done. Qed.
Lemma uuid_run s : gen_random_uuid uuid s = (Ok (uuid (uuids s)), set_draws (ticks s) (S (uuids s)) s).
Proof. done. Qed.
Lemma quietly_clock : quietly (clock_timestamp clock).
Proof. intros s. apply quiet_same; simpl; [done|lia..]. Qed.
Lemma quietly_uuid : quietly (gen_random_uuid uuid).
Proof. intros s. apply quiet_same; simpl; [done|lia..]. Qed.
Lemma quietly_put_schedule id sc : quietly (put_schedule id sc).
Proof. intros s. by apply quiet_same. Qed.
Lemma quietly_throw_if b e : quietly (throw_if b e).
Proof. apply quietly_pure. intros s. by destruct b. Qed.

(** A method after the draws of a row. *)
Lemma quiet_drawn s0 s s' : quiet s s' → jobs s = jobs s0 → (ticks s0 ≤ ticks s)%nat → (uuids s0 ≤ uuids s)%nat → quiet s0 s'.
Proof. intros. eapply quiet_trans; [by apply (quiet_same s0 s)|done]. Qed.
Lemma quietly_insertJob i : quietly (insertJob clock uuid i).
Proof.
  intros s. unfold insertJob, mbind, js_bind. unfold lift at 1. destruct (check_job i) as [runAt|e]; cbn; [|apply quiet_refl].
  rewrite uuid_run. cbn -[set_draws]. rewrite !clock_run. cbn -[set_draws].
  match goal with |- context [job_by_key _ _ _ ?x] => set (s3 := x) end.
  assert (jobs s3 = jobs s) as Hj by done. destruct (job_by_key _ _ _ s3) as [[id j]|] eqn:Hk; cbn.
  - apply job_by_key_some in Hk as (Hin & _).
    apply (quiet_drawn _ (set_draws (S (ticks s3)) (uuids s3) s3)); [|done|simpl; lia|simpl; lia].
    rewrite clock_run. cbn -[set_draws]. by apply (quiet_row id j); [|apply same_work_touch].
  - case_bool_decide as Htaken; cbn; [apply quiet_same; simpl; [done|lia..]|].
    destruct (job_references i s3); cbn; [|apply quiet_same; simpl; [done|lia..]].
    assert (jobs s !! uuid (uuids s) = None) as Hnone by (apply eq_None_not_Some; by rewrite <- Hj).
    split; [simpl; lia|simpl; lia| |].
    + intros id. unfold row_kept. cbn. destruct (decide (uuid (uuids s) = id)) as [<-|Hne].
      * rewrite Hnone, lookup_insert_eq. split; [done|]. exists (uuids s). split; [lia|done].
      * rewrite lookup_insert_ne by done. by destruct (jobs s !! id).
    + intros Hu a b x y Hx Hy H1 H2 H3 H4. cbn in Hx, Hy. apply lookup_insert_Some in Hx, Hy.
      pose proof (job_by_key_none _ _ _ _ Hk) as Hn.
      destruct Hx as [[<- <-]|[_ Hx]], Hy as [[<- <-]|[_ Hy]]; simpl in *; [done|..].
      * destruct (Hn b y Hy ltac:(congruence) ltac:(congruence) ltac:(congruence) H4).
      * destruct (Hn a x Hx ltac:(congruence) ltac:(congruence) ltac:(congruence) ltac:(by rewrite <- H3)).
      * by eapply Hu.
Qed.

Create HintDb quiet discriminated.
Hint Resolve quietly_clock quietly_uuid quietly_put_schedule quietly_throw_if quietly_insertJob : quiet.
Ltac quietly :=
  repeat first
    [ progress intros
    | progress cbv beta
    | solve [eauto 2 with quiet]
    | apply quietly_bind
    | apply quietly_tx
    | solve [apply quietly_pure; done]
    | match goal with |- quietly (match ?x with _ => _ end) => destruct x eqn:? end
    | match goal with |- quietly (let '_ := ?x in _) => destruct x eqn:? end ].

Lemma quietly_materialize_each l : quietly (materialize_each clock uuid intl l).
Proof.
  induction l as [|p l IH]; cbn [materialize_each]; [by apply quietly_pure|].
  apply quietly_bind; [|quietly; exact IH].
  unfold materialize_one. quietly.
Qed.
Lemma quietly_materialize scan locked limit : quietly (materialize clock uuid intl scan locked limit).
Proof. unfold materialize. quietly. apply quietly_materialize_each. Qed.
Lemma quietly_upsertSchedule i : quietly (JobsRepository.upsertSchedule clock uuid i).
Proof. unfold JobsRepository.upsertSchedule. quietly. Qed.
Lemma quietly_setScheduleEnabled id t b : quietly (setScheduleEnabled clock id t b).
Proof. unfold setScheduleEnabled, JobsRepository.getSchedule. quietly. Qed.
Lemma quiet_map f s : (∀ j, same_work j (f j)) → quiet s (set_jobs (f <$> jobs s) s).
Proof.
  intros Hf. split; [done|done| |].
  - intros id. unfold row_kept. simpl. rewrite lookup_fmap. destruct (jobs s !! id); simpl; [apply Hf|done].
  - apply keys_unique_map. intros j. apply Hf.
Qed.
Lemma quietly_deleteSchedule id t : quietly (JobsRepository.deleteSchedule id t).
Proof.
  unfold JobsRepository.deleteSchedule, JobsRepository.getSchedule. quietly.
  - intros s0. by apply quiet_same.
  - intros s0. apply quiet_map. intros j. apply same_work_schedule.
Qed.
Lemma quietly_enqueue context mem answer jsNow i : quietly (JobsService.enqueue clock uuid context mem answer jsNow i).
Proof. unfold JobsService.enqueue, JobsRepository.enqueue. quietly. Qed.
Lemma quietly_in_tenant {A} context required tenantId (m : string → Sql A) : (∀ t, quietly (m t)) → quietly (in_tenant context required tenantId m).
Proof. unfold in_tenant. quietly. Qed.

Lemma quietly_fmap {A B} (f : A → B) (m : Sql A) : quietly m → quietly (f <$> m).
Proof. intros Hm s. specialize (Hm s). unfold fmap, js_fmap. by destruct (m s) as [[a|e] s1]. Qed.
(** Every call but a cancellation. *)
Lemma quietly_call c : match c with call_cancel _ _ _ => True | _ => quietly (run_call clock uuid intl canonical c) end.
Proof.
  destruct c; cbn [run_call]; [|done|..]; unfold JobsService.upsertSchedule, pauseSchedule, resumeSchedule, JobsService.deleteSchedule, tick_materialize.
  all: repeat first [apply quietly_in_tenant; intros|apply quietly_setScheduleEnabled|apply quietly_deleteSchedule|apply quietly_enqueue
         |apply quietly_fmap|apply quietly_materialize|apply quietly_upsertSchedule|progress quietly].
Qed.

(** ** Claims *)

Lemma claim_each_spec w v rows s l x :
  NoDup rows.*1 → claim_each clock w v rows s = (Ok l, x) →
  Forall2 (λ p q, q.1 = p.1 ∧ ∃ n, (ticks s ≤ n < ticks x)%nat ∧ q.2 = claimed w (clock n + 1000 * v) (clock n) p.2) rows l ∧
  jobs x = list_to_map l ∪ jobs s ∧ schedules x = schedules s ∧ (ticks s ≤ ticks x)%nat ∧ uuids x = uuids s.
Proof.
  revert s l x. induction rows as [|p rows IH]; intros s l x Hnd Hrun; cbn [claim_each] in Hrun.
  { injection Hrun as <- <-. split_and!; [constructor| |done|lia|done]. simpl. by rewrite (left_id_L ∅ (∪)). }
  apply NoDup_cons in Hnd as [Hp Hnd]. apply js_bind_ok in Hrun as (c & s1 & Hc & Hrun). apply js_bind_ok in Hrun as (cs & s2 & Hcs & Hrun).
  injection Hrun as <- <-. unfold claim_one, mbind, js_bind in Hc. rewrite clock_run in Hc. cbn in Hc. injection Hc as <- <-.
  apply IH in Hcs as (HF & Hj & Hs & Ht & Hu); [|done]. cbn in Hj, Hs, Ht, Hu. split_and!; [|..|done|lia|done].
  - constructor; [split; [done|exists (ticks s); split; [lia|done]]|].
    eapply Forall2_impl; [exact HF|]. intros q r [-> (n & ? & ->)]. split; [done|]. exists n. simpl in *. split; [lia|done].
  - assert (cs.*1 = rows.*1) as Hks by (clear -HF; induction HF as [|q r ?? [H _] _ IH]; csimpl; congruence).
    rewrite Hj. simpl. rewrite <- insert_union_l, insert_union_r; [done|]. apply not_elem_of_list_to_map. by rewrite Hks.
Qed.

(** What a claim did: the rows it took and what they were. *)
Record Taken (w : string) (v limit : Z) (locked : string → bool) (s : Tables) (read : Z) (rows l : list (string * Job)) (x : Tables) : Prop := {
  tk_rows : ∀ p, p ∈ rows → jobs s !! p.1 = Some p.2 ∧ due read p.2 = true ∧ locked p.1 = false;
  tk_nodup : NoDup rows.*1;
  tk_length : Z.of_nat (length rows) ≤ limit;
  tk_claimed : Forall2 (λ p q, q.1 = p.1 ∧ ∃ n, (ticks s < n < ticks x)%nat ∧ q.2 = claimed w (clock n + 1000 * v) (clock n) p.2) rows l;
  tk_jobs : jobs x = list_to_map l ∪ jobs s;
  tk_schedules : schedules x = schedules s;
  tk_ticks : (ticks s < ticks x)%nat;
  tk_uuids : uuids x = uuids s }.

Lemma claim_taken scan locked w limit v s l x :
  (∀ l, scan l ≡ₚ l) → claim clock scan locked w limit v s = (Ok l, x) →
  ∃ rows, Taken w v limit locked s (clock (ticks s)) rows l x ∧
    rows = List.firstn (Z.to_nat limit) (js_sort claim_le
             (List.filter (λ p, due (clock (ticks s)) p.2 && negb (locked p.1)) (scan (map_to_list (jobs s))))).
Proof.
  intros Hscan Hrun. unfold claim, tx in Hrun.
  match type of Hrun with context [match ?m with _ => _ end] => destruct m as [[r|e] s1] eqn:Hm end; [|done]. injection Hrun as -> ->.
  apply js_bind_ok in Hm as (u & s2 & Hlim & Hm). destruct (Z.ltb_spec limit 0); [done|]. injection Hlim as _ <-.
  unfold mbind, js_bind in Hm. rewrite clock_run in Hm. cbn -[set_draws] in Hm.
  set (rows := List.firstn _ _) in Hm. exists rows. split; [|done].
  assert (∀ p, p ∈ rows → jobs s !! p.1 = Some p.2 ∧ due (clock (ticks s)) p.2 = true ∧ locked p.1 = false) as Hrows.
  { intros p Hp. unfold rows in Hp. apply elem_of_take in Hp as (i & Hp & _). apply list_elem_of_lookup_2 in Hp.
    rewrite js_sort_perm in Hp. apply list_elem_of_In, filter_In in Hp as [Hp Hf]. apply list_elem_of_In in Hp. rewrite Hscan in Hp.
    destruct p as [id j]. apply elem_of_map_to_list in Hp. apply andb_true_iff in Hf as [? ?%negb_true_iff]. done. }
  assert (NoDup rows.*1) as Hnd.
  { eapply sublist_NoDup; [|apply fmap_sublist, sublist_take]. rewrite js_sort_perm.
    apply (sublist_NoDup _ (scan (map_to_list (jobs s))).*1); [rewrite Hscan; apply NoDup_fst_map_to_list|].
    apply fmap_sublist. clear. induction (scan _) as [|a l IH]; simpl; [constructor|]. case_match; by constructor. }
  apply claim_each_spec in Hm as (HF & Hj & Hs & Ht & Hu); [|done]. cbn in HF, Hj, Hs, Ht, Hu. split; [done|done| |..|done|done|lia|done].
  - unfold rows. rewrite length_firstn. lia.
  - eapply Forall2_impl; [exact HF|]. intros p q [-> (n & ? & ->)]. split; [done|]. exists n. split; [lia|done].
Qed.

(** ** Settlements and cancellations *)

(** One job moved, to a state in which nobody runs it. *)
Inductive moved (s x : Tables) : Prop :=
| moved_row id j j' :
    jobs s !! id = Some j → jtrans j j' → jb_status j' ≠ running → jobs x = <[id := j']> (jobs s) →
    schedules x = schedules s → (ticks s ≤ ticks x)%nat → uuids x = uuids s → moved s x.

Lemma settle_owned_spec id w f s :
  (settle_owned clock id w f s).1 = Ok () ∧
  ((settle_owned clock id w f s).2 = s ∧ (∀ j, jobs s !! id = Some j → owned w j = false) ∨
   ∃ j, jobs s !! id = Some j ∧ owned w j = true ∧
     (settle_owned clock id w f s).2 = set_jobs (<[id := f (clock (ticks s)) j]> (jobs s)) (set_draws (S (ticks s)) (uuids s) s)).
Proof.
  unfold settle_owned, getf, mbind, js_bind. destruct (jobs s !! id) as [j|] eqn:Hj; [|split; [done|left; split; [done|congruence]]].
  destruct (owned w j) eqn:Ho; (split; [done|]); [right; by exists j|left]. split; [done|]. intros ? [= <-]. done.
Qed.

(** What a settlement does: nothing, or the row of the execution moves, when its worker still holds it. *)
Lemma settle_spec jsNow below e o s :
  let x := (settle clock cut jsNow below e o s).2 in
  x = s ∨ ∃ j j', jobs s !! ex_id e = Some j ∧ owned (ex_worker e) j = true ∧ jtrans j j' ∧ jb_status j' ≠ running ∧
    jobs x = <[ex_id e := j']> (jobs s) ∧ schedules x = schedules s ∧ (ticks s ≤ ticks x)%nat ∧ uuids x = uuids s.
Proof.
  assert (∀ f, (∀ now j, owned (ex_worker e) j = true → jtrans j (f now j) ∧ jb_status (f now j) ≠ running) →
    let x := (settle_owned clock (ex_id e) (ex_worker e) f s).2 in
    x = s ∨ ∃ j j', jobs s !! ex_id e = Some j ∧ owned (ex_worker e) j = true ∧ jtrans j j' ∧ jb_status j' ≠ running ∧
      jobs x = <[ex_id e := j']> (jobs s) ∧ schedules x = schedules s ∧ (ticks s ≤ ticks x)%nat ∧ uuids x = uuids s) as Hgen.
  { intros f Hf. destruct (settle_owned_spec (ex_id e) (ex_worker e) f s) as [_ [[-> _]|(j & Hj & Ho & ->)]]; [by left|right].
    exists j, (f (clock (ticks s)) j). destruct (Hf (clock (ticks s)) j Ho). split_and!; try done. simpl. lia. }
  assert (∀ f, (settle_owned clock (ex_id e) (ex_worker e) f s).1 = Ok ()) as Hok by (intros f; apply settle_owned_spec).
  assert (∀ f, (tx (settle_owned clock (ex_id e) (ex_worker e) f) s).2 = (settle_owned clock (ex_id e) (ex_worker e) f s).2) as Htx.
  { intros f. specialize (Hok f). unfold tx. destruct (settle_owned clock _ _ f s) as [[u|e'] s1]; [done|]. discriminate Hok. }
  destruct o as [|reason|message]; cbn [settle].
  - unfold succeed. rewrite Htx. apply Hgen. intros now j Ho. split; [by eapply jt_succeed|done].
  - unfold deadLetter. rewrite Htx. apply Hgen. intros now j Ho. split; [by eapply jt_refuse|done].
  - unfold fail. destruct (has_nul (cut message)); [left; by destruct s|].
    match goal with |- context [throw_if false ?e ≫= ?k] => change (throw_if false e ≫= k) with (k ()) end. cbv beta.
    destruct (retryAt jsNow below (ex_job e)) as [date|].
    + destruct (timestamptz date) as [runAt|err]; [|left; by destruct s].
      match goal with |- context [lift (Ok ?a) ≫= ?k] => change (lift (Ok a) ≫= k) with (k a) end. cbv beta.
      rewrite Htx. apply Hgen. intros now j Ho. split; [by eapply jt_retry|done].
    + rewrite Htx. apply Hgen. intros now j Ho. split; [by eapply jt_dead|done].
Qed.

Lemma cancel_spec id t s :
  let x := (JobsRepository.cancel clock id t s).2 in
  x = s ∨ moved s x ∧ ∀ id' j', jobs x !! id' = Some j' → jb_status j' = pending → jobs s !! id' = Some j'.
Proof.
  unfold JobsRepository.cancel, tx, JobsRepository.getJob, getf, mbind, js_bind. cbn.
  destruct (jobs s !! id) as [j|] eqn:Hj; cbn; [|by left]. destruct (String.eqb _ _); [|by left].
  destruct (bool_decide (jb_status j = pending) || bool_decide (jb_status j = running)) eqn:Hst; cbn; [right|by left]. split.
  - econstructor; [exact Hj|by apply jt_cancel; destruct (jb_status j)|by destruct j|done|done|simpl; lia|done].
  - intros id' j'. rewrite clock_run. cbn. intros [[_ <-]|[_ ?]]%lookup_insert_Some; [by destruct j|done].
Qed.
End quiet.
