(* ===== verification/JobsRun.v ===== *)
(** * JobsRun: what holds in every state of the job queue.

    The executions are numbered by their claims: the attempts of a job are the claims made of it, and
    each is run at most once. When no worker claims a job that it still executes, a job is claimed
    anew only after the lease of each execution that is not settled. *)
From S2P Require Import Prelude JsMap JsText JsDate Cron JobsRepository JobsService JobsSystem JobsInv.
Local Open Scope Z_scope.

Section run.
#[local] Set Default Proof Using "Type".
Context (clock : nat → Z) (uuid : nat → string) (intl : string → option Formatter) (canonical : string → option string) (cut : string → string).
(** Random ids do not repeat. *)
Context (Huuid : Inj (=) (=) uuid).
Notation step := (step clock uuid intl canonical cut).

(** ** What a step does to the rows *)

(** The tenant was deleted, and its schedules with it. *)
Definition gone (tenantId : string) (x : Tables) : Prop :=
  tenantId ∉ tenants x ∧ ∀ id sc, schedules x !! id = Some sc → sc_tenantId sc ≠ tenantId.
Definition row_step (s x : Tables) (id : string) : Prop :=
  match jobs s !! id, jobs x !! id with
  | Some j, Some j' => same_work j j' ∨ jtrans j j'
  | None, Some j' => fresh_job j'
  | Some j, None => gone (jb_tenantId j) x
  | None, None => True
  end.
(** No claim: the attempts stay, and a job that moves is not running any more. *)
Definition row_rest (s x : Tables) (id : string) : Prop :=
  match jobs s !! id, jobs x !! id with
  | Some j, Some j' => same_work j j' ∨ jtrans j j' ∧ jb_attempts j' = jb_attempts j ∧ jb_status j' ≠ running
  | None, Some j' => fresh_job j' ∧ ∃ n, (uuids s ≤ n < uuids x)%nat ∧ id = uuid n
  | Some j, None => gone (jb_tenantId j) x
  | None, None => True
  end.
Record rest (s x : Tables) : Prop := {
  rs_ticks : (ticks s ≤ ticks x)%nat;
  rs_uuids : (uuids s ≤ uuids x)%nat;
  rs_rows : ∀ id, row_rest s x id;
  rs_keys : keys_unique s → keys_unique x }.

Lemma jtrans_facts j j' : jtrans j j' → job_facts j' = job_facts j.
Proof. by destruct 1; destruct j. Qed.
Lemma jtrans_rest j j' : jtrans j j' → jb_status j' ≠ running → jb_attempts j' = jb_attempts j.
Proof. by destruct 1. Qed.

Lemma quiet_rest s x : quiet uuid s x → rest s x.
Proof.
  intros [Ht Hu Hr Hk]. split; [done|done| |done]. intros id. specialize (Hr id). unfold row_kept in Hr. unfold row_rest.
  destruct (jobs s !! id), (jobs x !! id); [by left|done|exact Hr|done].
Qed.
Lemma rest_refl s : rest s s.
Proof. apply quiet_rest, quiet_refl. Qed.
Lemma moved_rest s x : moved s x → rest s x.
Proof.
  intros [id j j' Hj Htr Hst Hx _ Ht Hu]. split; [done|lia| |].
  - intros id'. unfold row_rest. rewrite Hx. destruct (decide (id = id')) as [<-|Hne].
    + rewrite Hj, lookup_insert_eq. right. auto using jtrans_rest.
    + rewrite lookup_insert_ne by done. destruct (jobs s !! id'); [by left|done].
  - intros Hk a b i i' Hi Hi' H1 H2 H3 H4. rewrite Hx in Hi, Hi'. pose proof (jtrans_facts _ _ Htr) as F. unfold job_facts in F. injection F as F1 F2 F3 F4 F5 F6 F7.
    apply lookup_insert_Some in Hi, Hi'. destruct Hi as [[<- <-]|[_ Hi]], Hi' as [[<- <-]|[_ Hi']]; [done|..].
    + eapply Hk; [exact Hj|exact Hi'|congruence..].
    + eapply Hk; [exact Hi|exact Hj|congruence..].
    + eapply Hk; [exact Hi|exact Hi'|congruence..].
Qed.
Lemma outside_rest s x : outside s x → rest s x.
Proof.
  intros Ho. destruct Ho; try (apply quiet_rest; by apply quiet_same).
  - split; [done|done| |].
    + intros id. unfold row_rest. cbn [jobs]. destruct (jobs s !! id) as [j|] eqn:Hj.
      * destruct (decide (jb_tenantId j = t)) as [Heq|Hne].
        -- rewrite map_lookup_filter_None_2; [rewrite Heq; split; [intros [_ Hn]%elem_of_difference; by apply Hn, elem_of_singleton|by intros ?? [_ ?]%map_lookup_filter_Some]|]. right. intros j' Hj' []. simpl. congruence.
        -- rewrite (map_lookup_filter_Some_2 _ _ _ j); [by left|done|done].
      * by rewrite map_lookup_filter_None_2; [|left].
    + intros Hk a b i i' [Hi _]%map_lookup_filter_Some [Hi' _]%map_lookup_filter_Some. by eapply Hk.
  - split; [done|done| |].
    + intros id. unfold row_rest. cbn [jobs]. rewrite lookup_fmap. destruct (jobs s !! id); simpl; [left; apply same_work_actor|done].
    + intros Hk. by apply (keys_unique_map (without_actor u) s).
Qed.

(** ** The invariant *)

Definition key (e : Execution) : string * Z := (ex_id e, jb_attempts (ex_job e)).
(** The columns of a claim. *)
Definition exec_ok (tk : nat) (e : Execution) : Prop :=
  jb_status (ex_job e) = running ∧ jb_lockedBy (ex_job e) = Some (ex_worker e) ∧ is_Some (jb_lockedUntil (ex_job e)) ∧
  ∃ n, (n < tk)%nat ∧ jb_updatedAt (ex_job e) = clock n.
Record Inv (s : Sys) : Prop := {
  i_keys : keys_unique (db s);
  i_ids : ∀ id j, jobs (db s) !! id = Some j → ∃ n, (n < uuids (db s))%nat ∧ id = uuid n;
  i_known : ∀ e, e ∈ executions s → ∃ n, (n < uuids (db s))%nat ∧ ex_id e = uuid n;
  i_attempts : ∀ id j, jobs (db s) !! id = Some j → 0 ≤ jb_attempts j;
  i_below : ∀ e j, e ∈ executions s → jobs (db s) !! ex_id e = Some j → 1 ≤ jb_attempts (ex_job e) ≤ jb_attempts j;
  i_all : ∀ id j k, jobs (db s) !! id = Some j → 1 ≤ k ≤ jb_attempts j → ∃ e, e ∈ executions s ∧ key e = (id, k);
  i_nodup : NoDup (key <$> executions s);
  i_exec : ∀ e, e ∈ executions s → exec_ok (ticks (db s)) e;
  i_lock : ∀ id j, jobs (db s) !! id = Some j → jb_status j = running →
    ∃ e, e ∈ executions s ∧ key e = (id, jb_attempts j) ∧ jb_lockedBy j = Some (ex_worker e) ∧ jb_lockedUntil j = jb_lockedUntil (ex_job e);
  i_runs : ∀ c, c ∈ runs s → ∃ e, e ∈ executions s ∧ ex_phase e ≠ ph_claimed ∧ c = claim_of e;
  i_once : NoDup (runs s) }.

Lemma inv_start t : fresh t → Inv (start_sys t).
Proof. intros [Hj _]. split; cbn; rewrite ?Hj; try done; try (by intros ?; inversion 1); try constructor. by intros id id' j j' ?; rewrite Hj in *. Qed.

Lemma NoDup_fmap_elem {A B} (f : A → B) l x y : NoDup (f <$> l) → x ∈ l → y ∈ l → f x = f y → x = y.
Proof.
  intros Hnd [n Hn]%list_elem_of_lookup [m Hm]%list_elem_of_lookup Heq.
  assert (n = m) as ->; [|congruence]. eapply NoDup_lookup; [exact Hnd| |]; rewrite list_lookup_fmap; [by rewrite Hn|by rewrite Hm; simpl; rewrite Heq].
Qed.
(** Two executions of one attempt are one. *)
Lemma exec_same s e e' : Inv s → e ∈ executions s → e' ∈ executions s → key e = key e' → e = e'.
Proof. intros HI. apply NoDup_fmap_elem, HI. Qed.
Lemma exec_ok_mono n m e : exec_ok n e → (n ≤ m)%nat → exec_ok m e.
Proof. intros (? & ? & ? & k & ? & ?) ?. split_and!; [done..|]. exists k. split; [lia|done]. Qed.
Lemma fresh_state j : fresh_job j → jb_attempts j = 0 ∧ jb_status j = pending.
Proof. by intros (? & ? & _). Qed.
Lemma same_state j j' : same_work j j' →
  jb_attempts j' = jb_attempts j ∧ jb_status j' = jb_status j ∧ jb_lockedBy j' = jb_lockedBy j ∧ jb_lockedUntil j' = jb_lockedUntil j.
Proof. intros [_ H]. unfold job_state in H. injection H. done. Qed.

Lemma inv_db s x : Inv s → rest (db s) x → Inv (set_db x s).
Proof using Huuid.
  intros HI [Ht Hu Hr Hk].
  assert (∀ id j', jobs x !! id = Some j' →
    (∃ j, jobs (db s) !! id = Some j ∧ jb_attempts j' = jb_attempts j ∧
       (jb_status j' = running → jb_status j = running ∧ jb_lockedBy j' = jb_lockedBy j ∧ jb_lockedUntil j' = jb_lockedUntil j)) ∨
    (jobs (db s) !! id = None ∧ jb_attempts j' = 0 ∧ jb_status j' = pending ∧ ∃ n, (uuids (db s) ≤ n < uuids x)%nat ∧ id = uuid n)) as Hrow.
  { intros id j' Hj'. specialize (Hr id). unfold row_rest in Hr. rewrite Hj' in Hr. destruct (jobs (db s) !! id) as [j|] eqn:Hj.
    - left. exists j. split; [done|]. destruct Hr as [Hw|(Htr & Ha & Hst)].
      + apply same_state in Hw as (-> & -> & -> & ->). done.
      + by split.
    - right. destruct Hr as [Hf ?]. apply fresh_state in Hf as [-> ->]. done. }
  split; cbn.
  - apply Hk, (i_keys s HI).
  - intros id j' Hj'. destruct (Hrow id j' Hj') as [(j & Hj & _)|(_ & _ & _ & n & ? & ->)].
    + destruct (i_ids s HI _ _ Hj) as (n & ? & ->). exists n. split; [lia|done].
    + exists n. split; [lia|done].
  - intros e He. destruct (i_known s HI e He) as (n & ? & ->). exists n. split; [lia|done].
  - intros id j' Hj'. destruct (Hrow id j' Hj') as [(j & Hj & -> & _)|(_ & -> & _)]; [by eapply (i_attempts s HI)|done].
  - intros e j' He Hj'. destruct (Hrow _ j' Hj') as [(j & Hj & -> & _)|(_ & _ & _ & n & ? & Heq)]; [by apply (i_below s HI)|].
    destruct (i_known s HI e He) as (m & ? & Hm). rewrite Hm in Heq. apply Huuid in Heq. lia.
  - intros id j' k Hj' Hle. destruct (Hrow id j' Hj') as [(j & Hj & Ha & _)|(_ & Ha & _)]; rewrite Ha in Hle; [by eapply (i_all s HI)|lia].
  - apply (i_nodup s HI).
  - intros e He. eapply exec_ok_mono; [by apply (i_exec s HI)|done].
  - intros id j' Hj' Hst. destruct (Hrow id j' Hj') as [(j & Hj & -> & Hrun)|(_ & _ & ? & _)]; [|congruence].
    destruct (Hrun Hst) as (Hst' & -> & ->). by apply (i_lock s HI).
  - apply (i_runs s HI).
  - apply (i_once s HI).
Qed.

(** An execution that moves on. *)
Lemma set_phase_elem (n : nat) e p (l : list Execution) e' : l !! n = Some e → e' ∈ <[n := set_phase p e]> l → e' = set_phase p e ∨ e' ∈ l.
Proof. intros Hn [i Hi]%list_elem_of_lookup. apply list_lookup_insert_Some in Hi as [(<- & <- & _)|(_ & Hi)]; [by left|right; by eapply list_elem_of_lookup_2]. Qed.
Lemma elem_set_phase (n : nat) e p (l : list Execution) e' : l !! n = Some e → e' ∈ l → e' = e ∨ e' ∈ <[n := set_phase p e]> l.
Proof.
  intros Hn [i Hi]%list_elem_of_lookup. destruct (decide (n = i)) as [<-|Hne]; [left; congruence|right].
  eapply list_elem_of_lookup_2. by rewrite list_lookup_insert_ne.
Qed.
Lemma set_phase_in (n : nat) e p (l : list Execution) : l !! n = Some e → set_phase p e ∈ <[n := set_phase p e]> l.
Proof. intros Hn. eapply list_elem_of_lookup_2, list_lookup_insert_eq. by eapply lookup_lt_Some. Qed.

Lemma inv_phase s n e p cs :
  Inv s → executions s !! n = Some e → p ≠ ph_claimed → (cs = [] ∨ cs = [claim_of e] ∧ ex_phase e = ph_claimed) →
  Inv {| db := db s; executions := <[n := set_phase p e]> (executions s); runs := runs s ++ cs |}.
Proof.
  intros HI Hn Hp Hcs. pose proof (list_elem_of_lookup_2 _ _ _ Hn) as He.
  assert (∀ e', e' ∈ <[n := set_phase p e]> (executions s) → ∃ e0, e0 ∈ executions s ∧ ex_id e' = ex_id e0 ∧ ex_job e' = ex_job e0 ∧ ex_worker e' = ex_worker e0) as Hold.
  { intros e' [->|He']%(set_phase_elem _ _ _ _ _ Hn); [by exists e|by exists e']. }
  assert (∀ e0, e0 ∈ executions s → ∃ e', e' ∈ <[n := set_phase p e]> (executions s) ∧ key e' = key e0 ∧ claim_of e' = claim_of e0 ∧
            ex_worker e' = ex_worker e0 ∧ ex_job e' = ex_job e0 ∧ (ex_phase e0 ≠ ph_claimed → ex_phase e' ≠ ph_claimed)) as Hnew.
  { intros e0 [->|He0]%(elem_set_phase n e p _ _ Hn); [exists (set_phase p e)|by exists e0]. split; [by apply set_phase_in|done]. }
  split; cbn; try apply HI.
  - intros e' (e0 & He0 & -> & _)%Hold. by apply (i_known s HI).
  - intros e' j (e0 & He0 & -> & -> & _)%Hold. by apply (i_below s HI).
  - intros id j k Hj Hk. destruct (i_all s HI id j k Hj Hk) as (e0 & (e' & ? & Hke & _)%Hnew & <-). by exists e'.
  - replace (key <$> _) with (key <$> executions s); [apply HI|]. rewrite list_fmap_insert. symmetry. apply list_insert_id.
    by rewrite list_lookup_fmap, Hn.
  - intros e' (e0 & He0 & Hi & Hj & Hw)%Hold. unfold exec_ok. rewrite Hj, Hw. by apply (i_exec s HI).
  - intros id j Hj Hst. destruct (i_lock s HI id j Hj Hst) as (e0 & (e' & ? & Hke & _ & Hw & Hjb & _)%Hnew & ? & ? & ?). exists e'.
    rewrite Hke, Hw, Hjb. done.
  - intros c [Hc|Hc]%elem_of_app.
    + destruct (i_runs s HI c Hc) as (e0 & He0 & Hph & ->). destruct (Hnew e0 He0) as (e' & ? & _ & <- & _ & _ & ?). exists e'. auto.
    + destruct Hcs as [->|[-> _]]; [by apply elem_of_nil in Hc|]. apply list_elem_of_singleton in Hc as ->.
      exists (set_phase p e). split; [by apply set_phase_in|done].
  - apply NoDup_app. split; [apply HI|]. split; [|destruct Hcs as [->|[-> _]]; [constructor|apply NoDup_singleton]].
    intros c Hc Hin. destruct Hcs as [->|[-> Hph]]; [by apply elem_of_nil in Hin|]. apply list_elem_of_singleton in Hin as ->.
    destruct (i_runs s HI _ Hc) as (e0 & He0 & Hph0 & Heq). assert (e = e0) as <-; [|done]. apply (exec_same s); [done..|].
    unfold claim_of in Heq. injection Heq. unfold key. congruence.
Qed.

(** ** Claims *)

Section taken.
Context {w : string} {v limit : Z} {locked : string → bool} {s : Tables} {read : Z} {rows l : list (string * Job)} {x : Tables}.
Hypothesis HT : Taken clock w v limit locked s read rows l x.

Lemma taken_ids : l.*1 = rows.*1.
Proof using HT. pose proof (tk_claimed _ _ _ _ _ _ _ _ _ _ HT) as HF. clear HT. induction HF as [|p q ?? [H _] _ IH]; csimpl; congruence. Qed.
Lemma taken_nodup : NoDup l.*1.
Proof using HT. rewrite taken_ids. apply HT. Qed.
(** The row of a claim, before and after. *)
Lemma taken_in id j' : (id, j') ∈ l →
  jobs x !! id = Some j' ∧ ∃ j n, jobs s !! id = Some j ∧ due read j = true ∧ locked id = false ∧ (ticks s < n < ticks x)%nat ∧
    j' = claimed w (clock n + 1000 * v) (clock n) j.
Proof using HT.
  intros Hin. split.
  - rewrite (tk_jobs _ _ _ _ _ _ _ _ _ _ HT), lookup_union_Some_raw. left. apply elem_of_list_to_map; [apply taken_nodup|done].
  - apply list_elem_of_lookup in Hin as [i Hi]. destruct (Forall2_lookup_r _ _ _ _ _ (tk_claimed _ _ _ _ _ _ _ _ _ _ HT) Hi) as (p & Hp & Heq & n & Hn & Hj').
    simpl in *. subst. apply list_elem_of_lookup_2 in Hp. destruct (tk_rows _ _ _ _ _ _ _ _ _ _ HT p Hp) as (? & ? & ?). eauto 10.
Qed.
Lemma taken_row id j' : jobs x !! id = Some j' → (id, j') ∈ l ∨ id ∉ l.*1 ∧ jobs s !! id = Some j'.
Proof using HT.
  rewrite (tk_jobs _ _ _ _ _ _ _ _ _ _ HT), lookup_union_Some_raw. intros [Hl|[Hl Hs]].
  - left. by apply elem_of_list_to_map_2.
  - right. split; [by apply not_elem_of_list_to_map|done].
Qed.
Lemma taken_none id : jobs x !! id = None ↔ jobs s !! id = None.
Proof using HT.
  split.
  - rewrite (tk_jobs _ _ _ _ _ _ _ _ _ _ HT), lookup_union_None. by intros [_ ?].
  - intros Hn. apply eq_None_not_Some. intros [j' [Hin|[_ ?]]%taken_row]; [|congruence].
    apply taken_in in Hin as (_ & j & n & ? & _). congruence.
Qed.
Lemma taken_keys : keys_unique s → keys_unique x.
Proof using HT.
  assert (∀ id j', jobs x !! id = Some j' → ∃ j, jobs s !! id = Some j ∧ job_facts j' = job_facts j) as Hold.
  { intros id j' [Hin|[_ ?]]%taken_row; [|by exists j']. apply taken_in in Hin as (_ & j & n & ? & _ & _ & _ & ->). by exists j. }
  intros Hk a b i i' (i0 & Hi & F)%Hold (i0' & Hi' & F')%Hold ????. unfold job_facts in F, F'. injection F. injection F'. intros.
  eapply Hk; [exact Hi|exact Hi'|congruence..].
Qed.
End taken.

Lemma executions_elem w l e : e ∈ executions_of w l → (ex_id e, ex_job e) ∈ l ∧ ex_worker e = w ∧ ex_phase e = ph_claimed.
Proof. unfold executions_of. intros ([id j] & -> & Hin)%list_elem_of_fmap. done. Qed.
Lemma executions_in w l id j : (id, j) ∈ l → {| ex_worker := w; ex_id := id; ex_job := j; ex_phase := ph_claimed |} ∈ executions_of w l.
Proof. intros Hin. unfold executions_of. apply list_elem_of_fmap. by exists (id, j). Qed.
Lemma executions_keys w l : key <$> executions_of w l = (λ p, (p.1, jb_attempts p.2)) <$> l.
Proof. unfold executions_of. by rewrite <- list_fmap_compose. Qed.

Lemma inv_claim s w v limit locked read rows l x :
  Inv s → Taken clock w v limit locked (db s) read rows l x → Inv (with_executions (executions_of w l) x s).
Proof.
  intros HI HT. pose proof (tk_ticks _ _ _ _ _ _ _ _ _ _ HT) as Ht. pose proof (tk_uuids _ _ _ _ _ _ _ _ _ _ HT) as Hu.
  assert (∀ e, e ∈ executions_of w l → ∃ j, jobs (db s) !! ex_id e = Some j ∧ jobs x !! ex_id e = Some (ex_job e) ∧
            jb_attempts (ex_job e) = jb_attempts j + 1 ∧ exec_ok (ticks x) e) as Hnew.
  { intros e (Hin & Hw & _)%executions_elem. apply (taken_in HT) in Hin as (Hx & j & n & Hj & _ & _ & Hn & Hcl). exists j. rewrite Hcl in Hx |- *.
    split_and!; [done..|]. unfold exec_ok. rewrite Hcl, Hw. split_and!; [done..|]. exists n. split; [lia|done]. }
  split; cbn.
  - apply (taken_keys HT), (i_keys s HI).
  - rewrite Hu. intros id j' [Hin|[_ ?]]%(taken_row HT); [|by eapply (i_ids s HI)].
    apply (taken_in HT) in Hin as (_ & j & n & ? & _). by eapply (i_ids s HI).
  - rewrite Hu. intros e [He|He]%elem_of_app; [by apply (i_known s HI)|]. destruct (Hnew e He) as (j & ? & _). by eapply (i_ids s HI).
  - intros id j' [Hin|[_ ?]]%(taken_row HT); [|by eapply (i_attempts s HI)].
    apply (taken_in HT) in Hin as (_ & j & n & Hj & _ & _ & _ & ->). simpl. pose proof (i_attempts s HI _ _ Hj). lia.
  - intros e j' [He|He]%elem_of_app Hj'.
    + apply (taken_row HT) in Hj' as [Hin|[_ ?]]; [|by apply (i_below s HI)].
      apply (taken_in HT) in Hin as (_ & j & n & Hj & _ & _ & _ & ->). simpl. pose proof (i_below s HI e j He Hj). lia.
    + destruct (Hnew e He) as (j & Hj & Hx & Ha & _). rewrite Hj' in Hx. injection Hx as ->. pose proof (i_attempts s HI _ _ Hj). lia.
  - intros id j' k Hj' Hk. destruct (taken_row HT id j' Hj') as [Hin|[_ Hj]].
    + pose proof (taken_in HT _ _ Hin) as (_ & j & n & Hj & _ & _ & _ & Hcl). assert (jb_attempts j' = jb_attempts j + 1) as Ha by by rewrite Hcl.
      destruct (decide (k = jb_attempts j')) as [->|Hne].
      * eexists. split; [apply elem_of_app; right; by apply executions_in|done].
      * destruct (i_all s HI id j k Hj ltac:(lia)) as (e & ? & ?). exists e. split; [apply elem_of_app; by left|done].
    + destruct (i_all s HI id j' k Hj Hk) as (e & ? & ?). exists e. split; [apply elem_of_app; by left|done].
  - rewrite fmap_app. apply NoDup_app. split; [apply HI|]. split.
    + intros k (e & -> & He)%list_elem_of_fmap (e' & Heq & He')%list_elem_of_fmap. destruct (Hnew e' He') as (j & Hj & _ & Ha & _).
      unfold key in Heq. injection Heq as Hid Hat. rewrite <- Hid in Hj. pose proof (i_below s HI e j He Hj). lia.
    + rewrite executions_keys. pose proof (taken_nodup HT) as Hnd. clear -Hnd. induction l as [|p l' IH]; csimpl in *; [constructor|].
      apply NoDup_cons in Hnd as [Hp Hnd]. constructor; [|by apply IH]. intros (q & Heq & Hq)%list_elem_of_fmap. apply Hp.
      injection Heq as -> _. by apply list_elem_of_fmap_2.
  - intros e [He|He]%elem_of_app; [eapply exec_ok_mono; [by apply (i_exec s HI)|lia]|]. by destruct (Hnew e He) as (j & _ & _ & _ & ?).
  - intros id j' Hj' Hst. destruct (taken_row HT id j' Hj') as [Hin|[_ Hj]].
    + pose proof (taken_in HT _ _ Hin) as (_ & j & n & _ & _ & _ & _ & Hcl).
      exists {| ex_worker := w; ex_id := id; ex_job := j'; ex_phase := ph_claimed |}. split; [apply elem_of_app; right; by apply executions_in|].
      split; [done|]. by rewrite Hcl.
    + destruct (i_lock s HI id j' Hj Hst) as (e & ? & ?). exists e. split; [apply elem_of_app; by left|done].
  - intros c Hc. destruct (i_runs s HI c Hc) as (e & ? & ?). exists e. split; [apply elem_of_app; by left|done].
  - apply HI.
Qed.

(** ** Steps *)

(** A step changes the tables by work that claims nothing, or moves an execution, or claims. *)
Inductive shape (s : Sys) : Sys → Prop :=
| sh_rest x : rest (db s) x → shape s (set_db x s)
| sh_phase n e p cs :
    executions s !! n = Some e → p ≠ ph_claimed → (cs = [] ∨ cs = [claim_of e] ∧ ex_phase e = ph_claimed) →
    shape s {| db := db s; executions := <[n := set_phase p e]> (executions s); runs := runs s ++ cs |}
| sh_settle n e p x :
    executions s !! n = Some e → p ≠ ph_claimed → rest (db s) x →
    shape s (set_db x {| db := db s; executions := <[n := set_phase p e]> (executions s); runs := runs s ++ [] |})
| sh_claim w v limit locked read rows l x :
    Taken clock w v limit locked (db s) read rows l x → shape s (with_executions (executions_of w l) x s).

Lemma settle_rest jsNow below e o s : rest s (settle clock cut jsNow below e o s).2.
Proof.
  destruct (settle_spec clock cut jsNow below e o s) as [->|(j & j' & ? & ? & ? & ? & ? & ? & ? & ?)]; [apply rest_refl|].
  apply moved_rest. by econstructor.
Qed.
Lemma call_rest c s : rest s (run_call clock uuid intl canonical c s).2.
Proof.
  pose proof (quietly_call clock uuid intl canonical c) as Hq. destruct c; try (apply quiet_rest, Hq). clear Hq. cbn [run_call].
  unfold JobsService.cancel, in_tenant. destruct (nonempty tenantId) as [t|]; [|apply rest_refl].
  unfold lift, mbind, js_bind. destruct (caller context t) as [c|err]; [|apply rest_refl].
  pose proof (cancel_spec clock (lower id) (lower t) s) as Hc. destruct (JobsRepository.cancel clock (lower id) (lower t) s) as [[b|err] x]; cbn in *;
    (destruct Hc as [->|[? _]]; [apply rest_refl|by apply moved_rest]).
Qed.
Lemma claim_each_total w v rows s : ∃ l x, claim_each clock w v rows s = (Ok l, x).
Proof.
  revert s. induction rows as [|p rows IH]; intros s; [by eexists _, _|]. cbn [claim_each]. unfold claim_one, mbind, js_bind. rewrite clock_run. cbn -[set_draws].
  match goal with |- context [claim_each _ _ _ _ ?s1] => destruct (IH s1) as (l & x & ->) end. by eexists _, _.
Qed.
Lemma claim_fails_rest scan locked w limit v s e x : claim clock scan locked w limit v s = (Throw e, x) → rest s x.
Proof.
  unfold claim, tx, throw_if. destruct (limit <? 0); [intros [= _ <-]; destruct s; apply rest_refl|].
  unfold mbind, js_bind. cbn -[set_draws clock_timestamp]. rewrite clock_run. cbn -[set_draws].
  match goal with |- context [claim_each _ _ _ ?rows ?s1] => destruct (claim_each_total w v rows s1) as (l & y & ->) end. done.
Qed.

Lemma step_shape s s' : step s s' → shape s s'.
Proof.
  assert (∀ n e p, executions s !! n = Some e → p ≠ ph_claimed → shape s (set_execution n (set_phase p e) s)) as Hphase.
  { intros n e p Hn Hp. pose proof (sh_phase s n e p [] Hn Hp (or_introl eq_refl)) as H. by rewrite app_nil_r in H. }
  destruct 1.
  - apply sh_rest, call_rest.
  - by apply sh_rest, outside_rest.
  - destruct (claim_taken clock scan locked workerId _ _ _ _ _ H H0) as (rows & HT & _). by eapply sh_claim.
  - apply sh_rest. by eapply claim_fails_rest.
  - apply sh_phase; [done|..].
    + unfold p, begin_execution. repeat case_match; done.
    + destruct p; [by left..|right; done|by left|by left].
  - by apply Hphase.
  - by apply Hphase.
  - by apply Hphase.
  - pose proof (sh_settle s n e ph_settled _ H ltac:(done) (settle_rest jsNow below e o (db s))) as Hs. by rewrite app_nil_r in Hs.
  - by apply Hphase.
Qed.

Lemma shape_inv s s' : shape s s' → Inv s → Inv s'.
Proof using Huuid.
  destruct 1; intros HI.
  - by apply inv_db.
  - by apply inv_phase.
  - apply inv_db; [by apply inv_phase; [..|by left]|done].
  - by eapply inv_claim.
Qed.
Lemma jobs_inv s : reachable clock uuid intl canonical cut s → Inv s.
Proof using Huuid.
  intros (t & Ht & Hrun). apply inv_start in Ht. induction Hrun as [|s1 s2 s3 Hst _ IH]; [done|]. apply IH. by eapply shape_inv; [apply step_shape|].
Qed.

(** Every row moves along [jtrans] at most once. *)
Lemma rest_row s x id : rest s x → row_step s x id.
Proof.
  intros [_ _ Hr _]. specialize (Hr id). unfold row_rest in Hr. unfold row_step. destruct (jobs s !! id), (jobs x !! id); [|done|by destruct Hr|done].
  destruct Hr as [?|(? & _)]; [by left|by right].
Qed.
Lemma shape_row s s' id : shape s s' → row_step (db s) (db s') id.
Proof.
  destruct 1 as [x Hr|n e p cs Hn Hp Hcs|n e p x Hn Hp Hr|w v limit locked read rows l x HT]; cbn.
  - by apply rest_row.
  - apply rest_row, rest_refl.
  - by apply rest_row.
  - unfold row_step. destruct (jobs x !! id) as [j'|] eqn:Hx.
    + destruct (taken_row HT id j' Hx) as [Hin|[_ Hj]].
      * apply (taken_in HT) in Hin as (_ & j & n & Hj & Hdue & _ & _ & ->). rewrite Hj. right. by eapply jt_claim.
      * rewrite Hj. by left.
    + apply (taken_none HT) in Hx. by rewrite Hx.
Qed.

(** ** Leases *)

(** The clock does not run backwards. *)
Context (Hclock : ∀ n m, (n ≤ m)%nat → clock n ≤ clock m).
(** A step in which no worker claims a job that it still executes. *)
Definition orderly (s s' : Sys) : Prop :=
  step s s' ∧ ∀ e e', e ∈ drop (length (executions s)) (executions s') → e' ∈ executions s → ex_id e' = ex_id e → ex_worker e' = ex_worker e →
    ex_phase e' = ph_settled.
Definition attempt (e : Execution) : Z := jb_attempts (ex_job e).
Record Leases (s : Sys) : Prop := {
  l_stale : ∀ e e', e ∈ executions s → e' ∈ executions s → ex_id e = ex_id e' → attempt e < attempt e' → ex_phase e ≠ ph_settled →
    cl_until (claim_of e) ≤ cl_at (claim_of e');
  l_worker : ∀ e e', e ∈ executions s → e' ∈ executions s → ex_id e = ex_id e' → attempt e < attempt e' → ex_worker e = ex_worker e' →
    ex_phase e = ph_settled;
  l_pending : ∀ e j, e ∈ executions s → jobs (db s) !! ex_id e = Some j → jb_status j = pending → ex_phase e ≠ ph_settled →
    attempt e < jb_attempts j }.

Lemma leases_start t : Leases (start_sys t).
Proof. split; intros ??; by rewrite elem_of_nil. Qed.

(** The same executions, or some of them settled. *)
Lemma leases_executions s es : Leases s →
  (∀ e, e ∈ es → ∃ e0, e0 ∈ executions s ∧ claim_of e = claim_of e0 ∧ (ex_phase e0 = ph_settled → ex_phase e = ph_settled)) →
  ∀ r, Leases {| db := db s; executions := es; runs := r |}.
Proof.
  intros HL Hold r. split; cbn [executions db].
  - intros e e' (e0 & He0 & Hc & Hp)%Hold (e0' & He0' & Hc' & _)%Hold Hid Hlt Hs. rewrite Hc, Hc'. unfold attempt in *. 
    injection Hc as ?????. injection Hc' as ?????. apply (l_stale s HL); [done|done|congruence|unfold attempt; congruence|auto].
  - intros e e' (e0 & He0 & Hc & Hp)%Hold (e0' & He0' & Hc' & _)%Hold Hid Hlt Hw. unfold attempt in *.
    injection Hc as ?????. injection Hc' as ?????. apply Hp. apply (l_worker s HL e0 e0'); [done|done|congruence|unfold attempt; congruence|congruence].
  - intros e j (e0 & He0 & Hc & Hp)%Hold Hj Hst Hs. injection Hc as Hid Hat ???. unfold attempt. rewrite Hat. apply (l_pending s HL); [done|congruence|done|auto].
Qed.
Lemma phase_old s n e p : executions s !! n = Some e → ex_phase e ≠ ph_settled →
  ∀ e', e' ∈ <[n := set_phase p e]> (executions s) → ∃ e0, e0 ∈ executions s ∧ claim_of e' = claim_of e0 ∧ (ex_phase e0 = ph_settled → ex_phase e' = ph_settled).
Proof.
  intros Hn Hne e' [->|He']%(set_phase_elem _ _ _ _ _ Hn); [|by exists e']. exists e. split; [by eapply list_elem_of_lookup_2|done].
Qed.
(** Work on the tables after which no job is newly pending. *)
Lemma leases_db s x : Inv s → Leases s → rest (db s) x →
  (∀ id j j', jobs (db s) !! id = Some j → jobs x !! id = Some j' → jb_status j' = pending → jb_status j = pending) → Leases (set_db x s).
Proof using Huuid.
  intros HI HL Hr Hp. split; cbn; [apply HL|apply HL|]. intros e j' He Hj' Hst Hs.
  pose proof (rs_rows _ _ Hr (ex_id e)) as Hrow. unfold row_rest in Hrow. rewrite Hj' in Hrow. destruct (jobs (db s) !! ex_id e) as [j|] eqn:Hj.
  - assert (jb_attempts j' = jb_attempts j) as -> by (destruct Hrow as [[]%same_state|(_ & ? & _)]; done). apply (l_pending s HL); [done|done|by eapply Hp|done].
  - destruct Hrow as [_ (n & ? & Heq)]. destruct (i_known s HI e He) as (m & ? & Hm). rewrite Hm in Heq. apply Huuid in Heq. lia.
Qed.

Lemma quiet_pending s x : quiet uuid s x → ∀ id j j', jobs s !! id = Some j → jobs x !! id = Some j' → jb_status j' = pending → jb_status j = pending.
Proof. intros [_ _ Hr _] id j j' Hj Hj' Hst. specialize (Hr id). unfold row_kept in Hr. rewrite Hj, Hj' in Hr. apply same_state in Hr as (_ & <- & _). done. Qed.
Lemma outside_pending s x : outside s x → ∀ id j j', jobs s !! id = Some j → jobs x !! id = Some j' → jb_status j' = pending → jb_status j = pending.
Proof.
  intros Ho. destruct Ho; cbn; intros id0 j j' Hj Hj' Hst; try congruence.
  - apply map_lookup_filter_Some in Hj' as [? _]. congruence.
  - rewrite lookup_fmap, Hj in Hj'. injection Hj' as <-. done.
Qed.
Lemma call_pending c s id j j' :
  jobs s !! id = Some j → jobs (run_call clock uuid intl canonical c s).2 !! id = Some j' → jb_status j' = pending → jb_status j = pending.
Proof.
  pose proof (quietly_call clock uuid intl canonical c) as Hq. destruct c; try (by intros; eapply quiet_pending; [apply Hq|..]). clear Hq.
  cbn [run_call]. unfold JobsService.cancel, in_tenant. destruct (nonempty tenantId) as [t|]; [|intros Hj Hj'; change (jobs s !! id = Some j') in Hj'; congruence].
  unfold lift, mbind, js_bind. destruct (caller context t) as [c|err]; [|intros Hj Hj'; change (jobs s !! id = Some j') in Hj'; congruence].
  pose proof (cancel_spec clock (lower id0) (lower t) s) as Hc. destruct (JobsRepository.cancel clock (lower id0) (lower t) s) as [[b|err] x]; cbn in *;
    (destruct Hc as [->|[_ Hp]]; [congruence|]; intros Hj Hj' Hst; rewrite (Hp _ _ Hj' Hst) in Hj; congruence).
Qed.

Lemma leases_settle s n e o jsNow below :
  Inv s → Leases s → executions s !! n = Some e → ex_phase e = ph_ended o →
  Leases (set_db (settle clock cut jsNow below e o (db s)).2 (set_execution n (set_phase ph_settled e) s)).
Proof.
  intros HI HL Hn Hph. pose proof (list_elem_of_lookup_2 _ _ _ Hn) as He.
  assert (Leases (set_execution n (set_phase ph_settled e) s)) as HL1.
  { apply (leases_executions s); [done|]. eapply phase_old; [done|by rewrite Hph]. }
  assert (Inv (set_execution n (set_phase ph_settled e) s)) as HI1.
  { pose proof (inv_phase s n e ph_settled [] HI Hn ltac:(done) (or_introl eq_refl)) as H. by rewrite app_nil_r in H. }
  pose proof (settle_rest jsNow below e o (db s)) as Hrest.
  destruct (settle_spec clock cut jsNow below e o (db s)) as [->|(j & j' & Hj & Ho & Htr & Hst & Hx & _)]; [done|].
  set (x := (settle clock cut jsNow below e o (db s)).2) in *.
  split; cbn; [apply HL1|apply HL1|]. intros e' i' He' Hi' Hpend Hs.
  rewrite Hx in Hi'. apply lookup_insert_Some in Hi' as [[Hid <-]|[Hne Hi']].
  - apply andb_true_iff in Ho as [Hw%bool_decide_eq_true Hrun%bool_decide_eq_true].
    destruct (i_lock s HI _ _ Hj Hrun) as (ec & Hec & Hkey & Hlock & _). injection Hkey as Hidc Hatc. rewrite (jtrans_rest _ _ Htr Hst).
    assert (e = ec) as ->.
    { apply (exec_same s); [done..|]. unfold key. f_equal; [done|]. destruct (decide (attempt e < attempt ec)) as [Hlt|Hge].
      - assert (ex_phase e = ph_settled) as Hp; [|by rewrite Hph in Hp]. apply (l_worker s HL e ec); [done|done|done|done|congruence].
      - pose proof (i_below s HI e j He Hj). unfold attempt in Hge. lia. }
    assert (jobs (db s) !! ex_id e' = Some j) as Hj2 by congruence. pose proof (i_below _ HI1 e' j He' Hj2). unfold attempt.
    destruct (decide (jb_attempts (ex_job e') = jb_attempts j)) as [Heq|]; [|lia]. destruct Hs.
    rewrite (exec_same _ e' (set_phase ph_settled ec) HI1 He'); [done|by apply set_phase_in|]. unfold key; cbn. congruence.
  - apply (set_phase_elem _ _ _ _ _ Hn) in He' as [->|He']; [done|]. by apply (l_pending s HL).
Qed.

(** A claim waits for the leases of the executions that are not settled. *)
Lemma claim_waits s w v limit locked rows l x e j n :
  Inv s → Leases s → Taken clock w v limit locked (db s) (clock (ticks (db s))) rows l x →
  e ∈ executions s → jobs (db s) !! ex_id e = Some j → due (clock (ticks (db s))) j = true → (ticks (db s) < n)%nat → ex_phase e ≠ ph_settled →
  cl_until (claim_of e) ≤ clock n.
Proof using Hclock.
  intros HI HL HT He Hj Hdue Hn Hs. pose proof (i_below s HI e j He Hj) as Hle.
  assert (∀ e', e' ∈ executions s → cl_at (claim_of e') ≤ clock n) as Hat.
  { intros e' He'. destruct (i_exec s HI e' He') as (_ & _ & _ & m & Hm & Heq). cbn. rewrite Heq. apply Hclock. lia. }
  assert (∀ ec, ec ∈ executions s → key ec = (ex_id e, jb_attempts j) → attempt e < jb_attempts j → cl_until (claim_of e) ≤ clock n) as Hstale.
  { intros ec Hec Hk Hlt. injection Hk as Hid Hat'. specialize (Hat ec Hec). pose proof (l_stale s HL e ec He Hec ltac:(done)) as Hst.
    unfold attempt in *. specialize (Hst ltac:(lia) Hs). lia. }
  unfold due in Hdue. destruct (jb_status j) eqn:Hst; try done.
  - pose proof (l_pending s HL e j He Hj Hst Hs) as Hlt. destruct (i_all s HI _ j (jb_attempts j) Hj ltac:(lia)) as (ec & Hec & Hk). by apply (Hstale ec).
  - destruct (i_lock s HI _ j Hj Hst) as (ec & Hec & Hk & _ & Hlock). destruct (decide (attempt e < jb_attempts j)) as [|Hge]; [by apply (Hstale ec)|].
    assert (e = ec) as -> by (apply (exec_same s); [done..|]; rewrite Hk; unfold key, attempt in *; f_equal; lia).
    unfold claim_of; cbn. rewrite <- Hlock. destruct (jb_lockedUntil j) as [u|]; [|done]. apply Z.leb_le in Hdue. cbn.
    pose proof (Hclock (ticks (db s)) n ltac:(lia)). lia.
Qed.

Lemma leases_claim s w v limit locked rows l x :
  Inv s → Leases s → Taken clock w v limit locked (db s) (clock (ticks (db s))) rows l x →
  (∀ e e', e ∈ executions_of w l → e' ∈ executions s → ex_id e' = ex_id e → ex_worker e' = ex_worker e → ex_phase e' = ph_settled) →
  Leases (with_executions (executions_of w l) x s).
Proof using Hclock.
  intros HI HL HT Hord. pose proof (inv_claim s w v limit locked _ rows l x HI HT) as HI'.
  assert (∀ e, e ∈ executions_of w l → ∃ j n, jobs (db s) !! ex_id e = Some j ∧ due (clock (ticks (db s))) j = true ∧ (ticks (db s) < n)%nat ∧
            attempt e = jb_attempts j + 1 ∧ cl_at (claim_of e) = clock n ∧ jobs x !! ex_id e = Some (ex_job e) ∧ jb_status (ex_job e) = running) as Hnew.
  { intros e (Hin & Hw & _)%executions_elem. apply (taken_in HT) in Hin as (Hx & j & n & Hj & Hdue & _ & Hn & Hcl). exists j, n.
    split_and!; [done|done|lia|unfold attempt; by rewrite Hcl|cbn; by rewrite Hcl|done|by rewrite Hcl]. }
  (* an older execution beside a new one of the same job *)
  assert (∀ e e', e ∈ executions s → e' ∈ executions_of w l → ex_id e = ex_id e' → attempt e < attempt e') as Hlt.
  { intros e e' He He' Hid. destruct (Hnew e' He') as (j & n & Hj & _ & _ & -> & _). rewrite <- Hid in Hj. pose proof (i_below s HI e j He Hj). unfold attempt. lia. }
  assert (∀ e e', e ∈ executions_of w l → e' ∈ executions_of w l → ex_id e = ex_id e' → attempt e = attempt e') as Heq.
  { intros e e' (j & n & Hj & _ & _ & -> & _)%Hnew (j' & n' & Hj' & _ & _ & -> & _)%Hnew Hid. rewrite Hid in Hj. congruence. }
  split; cbn [with_executions executions db].
  - intros e e' [He|He]%elem_of_app [He'|He']%elem_of_app Hid Ha Hs.
    + by apply (l_stale s HL).
    + destruct (Hnew e' He') as (j & n & Hj & Hdue & Hn & _ & -> & _). rewrite <- Hid in Hj. by apply (claim_waits s w v limit locked rows l x e j n).
    + pose proof (Hlt e' e He' He ltac:(done)). lia.
    + pose proof (Heq e e' He He' Hid). lia.
  - intros e e' [He|He]%elem_of_app [He'|He']%elem_of_app Hid Ha Hw.
    + by apply (l_worker s HL e e').
    + by apply (Hord e' e).
    + pose proof (Hlt e' e He' He ltac:(done)). lia.
    + pose proof (Heq e e' He He' Hid). lia.
  - intros e j' [He|He]%elem_of_app Hj' Hst Hs.
    + destruct (taken_row HT _ _ Hj') as [Hin|[_ Hj]]; [|by apply (l_pending s HL)].
      apply (taken_in HT) in Hin as (_ & j & n & _ & _ & _ & _ & ->). done.
    + destruct (Hnew e He) as (j & n & _ & _ & _ & _ & _ & Hx & Hrun). congruence.
Qed.

Lemma leases_step s s' : orderly s s' → Inv s → Leases s → Leases s'.
Proof using Hclock Huuid.
  intros [Hst Hord] HI HL. revert Hord. destruct Hst; intros Hord; try (apply (leases_executions s); [done|]; eapply phase_old; [done|congruence]).
  - apply leases_db; [done|done|apply call_rest|]. intros id j j'. apply call_pending.
  - apply leases_db; [done|done|by apply outside_rest|]. by apply outside_pending.
  - destruct (claim_taken clock scan locked workerId _ _ _ _ _ H H0) as (rows & HT & _). eapply leases_claim; [done|done|exact HT|].
    intros e e' He. apply Hord. cbn. by rewrite drop_app_length.
  - apply leases_db; [done|done|by eapply claim_fails_rest|].
    assert (jobs x = jobs (db s)) as ->; [|congruence]. revert H. unfold tick_claim, claim, tx.
    match goal with |- context [match ?m with _ => _ end] => destruct m as [[r|err] s1] end; [done|]. by intros [= _ <-].
  - by apply leases_settle.
Qed.
Lemma orderly_leases t s : fresh t → rtc orderly (start_sys t) s → Inv s ∧ Leases s.
Proof using Hclock Huuid.
  intros Ht Hrun. pose proof (inv_start t Ht) as HI. pose proof (leases_start t) as HL.
  induction Hrun as [|s1 s2 s3 Ho _ IH]; [done|]. pose proof Ho as [Hst _]. apply IH; [by eapply shape_inv; [apply step_shape|]|by eapply leases_step].
Qed.
End run.

(** ** Schedules and their occurrences *)

Section occurrences.
Context (clock : nat → Z) (uuid : nat → string) (intl : string → option Formatter) (canonical : string → option string) (cut : string → string).
Notation step := (step clock uuid intl canonical cut).

Definition has_job (x : Tables) (tenantId jobType k : string) : Prop :=
  ∃ id j, jobs x !! id = Some j ∧ has_key tenantId jobType k j = true.
Lemma has_key_facts t ty k j j' : job_facts j' = job_facts j → has_key t ty k j' = has_key t ty k j.
Proof. unfold job_facts, has_key. intros F. injection F as -> -> _ _ _ -> _. done. Qed.
Lemma quiet_has_job s x t ty k : quiet uuid s x → has_job s t ty k → has_job x t ty k.
Proof.
  intros [_ _ Hr _] (id & j & Hj & Hk). specialize (Hr id). unfold row_kept in Hr. rewrite Hj in Hr.
  destruct (jobs x !! id) as [j'|] eqn:Hx; [|done]. exists id, j'. split; [done|]. by rewrite (has_key_facts _ _ _ j j' (proj1 Hr)).
Qed.

Lemma insertJob_spec i s r x k :
  insertJob clock uuid i s = (Ok r, x) → nj_idempotencyKey i = Some k → has_job x (nj_tenantId i) (nj_jobType i) k ∧ schedules x = schedules s.
Proof.
  intros Hrun Hk. unfold insertJob, mbind, js_bind in Hrun. unfold lift in Hrun at 1. destruct (check_job i) as [runAt|e]; cbn -[gen_random_uuid] in Hrun; [|done].
  rewrite uuid_run in Hrun. cbn -[set_draws] in Hrun. rewrite !clock_run in Hrun. cbn -[set_draws] in Hrun.
  revert Hrun. match goal with |- context [job_by_key _ _ _ ?y] => set (s3 := y) end.
  destruct (job_by_key _ _ _ s3) as [[id j]|] eqn:Hf; cbn -[set_draws].
  - rewrite clock_run. cbn. intros [= _ <-]. split; [|done]. apply job_by_key_some in Hf as (_ & Ht & Hty & Hkey & _).
    exists id. eexists. split; [apply lookup_insert_eq|]. apply has_key_spec; cbn. repeat split; congruence.
  - case_bool_decide; [done|]. cbn. destruct (job_references i s3); [|done]. cbn. intros [= _ <-]. split; [|done].
    eexists _, _. split; [apply lookup_insert_eq|]. by apply has_key_spec.
Qed.

(** What a materialization makes of one schedule of its batch: it is disabled, or the job of its next run
    is there and it moves on. *)
Inductive advanced (id : string) (sc : Schedule) (x : Tables) : Schedule → Prop :=
| ad_disabled now e :
    next_run intl sc = Throw (CronFailure (InvalidCronExpressionError e)) →
    advanced id sc x (recur (sc_nextRunAt sc) false (Some "invalid_schedule") (sc_lastEnqueuedAt sc) now sc)
| ad_moved t b lastEnqueuedAt updatedAt :
    sc_nextRunAt sc = Some t → next_run intl sc = Ok (Some b) → has_job x (sc_tenantId sc) (sc_jobType sc) (occurrence_key id t) →
    advanced id sc x (recur (Some b) (sc_isEnabled sc) (sc_disabledReason sc) (Some lastEnqueuedAt) updatedAt sc).
Lemma advanced_later id sc x y sc' : quiet uuid x y → advanced id sc x sc' → advanced id sc y sc'.
Proof. intros Hq []; [by eapply ad_disabled|eapply ad_moved; [done..|by eapply quiet_has_job]]. Qed.

Lemma materialize_one_spec id sc s b x :
  materialize_one clock uuid intl (id, sc) s = (Ok b, x) → ∃ sc', schedules x = <[id := sc']> (schedules s) ∧ advanced id sc x sc'.
Proof.
  unfold materialize_one. destruct (next_run intl sc) as [next|err] eqn:Hn.
  - destruct (sc_nextRunAt sc) as [t|] eqn:Ht; [|done].
    intros (r & s1 & Hins & Hrun)%js_bind_ok. destruct (insertJob_spec _ _ _ _ _ Hins eq_refl) as [Hjob Hsc].
    apply js_bind_ok in Hrun as (b0 & s2 & Hd & Hrun). unfold lift in Hd. injection Hd as Hd <-.
    destruct next as [next|]; [|done]. unfold timestamptz in Hd. destruct (next <? MIN_TIMESTAMP); [done|]. injection Hd as <-.
    unfold mbind, js_bind in Hrun. rewrite !clock_run in Hrun. cbn in Hrun. injection Hrun as _ <-.
    eexists. split; [cbn; by rewrite Hsc|]. eapply ad_moved; [done|done|]. destruct Hjob as (jid & j & ? & ?). by exists jid, j.
  - destruct err as [| | | | | | | | | |[e|]| | | |]; try done.
    unfold mbind, js_bind. rewrite clock_run. cbn. intros [= _ <-]. eexists. split; [done|]. by eapply ad_disabled.
Qed.

Lemma materialize_each_spec l s r x :
  materialize_each clock uuid intl l s = (Ok r, x) → NoDup l.*1 → (∀ p, p ∈ l → schedules s !! p.1 = Some p.2) →
  ∀ id, (id ∉ l.*1 ∧ schedules x !! id = schedules s !! id) ∨
    ∃ sc sc', (id, sc) ∈ l ∧ schedules x !! id = Some sc' ∧ advanced id sc x sc'.
Proof.
  revert s r x. induction l as [|[id0 sc0] l IH]; intros s r x Hrun Hnd Hl id; cbn [materialize_each] in Hrun.
  { injection Hrun as _ <-. left. split; [apply not_elem_of_nil|done]. }
  apply js_bind_ok in Hrun as (b & s1 & Hone & Hrun). apply js_bind_ok in Hrun as (rest & s2 & Hrest & [= _ <-]).
  apply materialize_one_spec in Hone as (sc0' & Hs1 & Had). csimpl in Hnd. apply NoDup_cons in Hnd as [Hnew Hnd].
  assert (quiet uuid s1 s2) as Hq.
  { pose proof (quietly_materialize_each clock uuid intl l s1) as Hq. by rewrite Hrest in Hq. }
  destruct (IH s1 rest s2 Hrest Hnd) with (id := id) as [[Hid Heq]|(sc & sc' & Hin & Hx & Ha)].
  { intros p Hp. rewrite Hs1, lookup_insert_ne; [by apply Hl; right|]. intros ->. apply Hnew. by apply list_elem_of_fmap_2. }
  - destruct (decide (id = id0)) as [->|Hne].
    + right. exists sc0, sc0'. split; [by left|]. rewrite Heq, Hs1, lookup_insert_eq. split; [done|]. by eapply advanced_later.
    + left. csimpl. split; [by apply not_elem_of_cons|]. by rewrite Heq, Hs1, lookup_insert_ne.
  - right. exists sc, sc'. split; [by right|]. done.
Qed.

Lemma materialize_spec scan locked limit s id sc :
  (∀ l, scan l ≡ₚ l) → schedules s !! id = Some sc →
  let x := (materialize clock uuid intl scan locked limit s).2 in
  schedules x !! id = Some sc ∨
  ∃ sc', schedules x !! id = Some sc' ∧ advanced id sc x sc' ∧ due_schedule (clock (ticks s)) sc = true.
Proof.
  intros Hscan Hsc. unfold materialize, tx, throw_if. destruct (limit <? 0); [by left|].
  unfold mbind, js_bind. cbn -[set_draws clock_timestamp]. rewrite clock_run. cbn -[set_draws].
  set (rows := List.firstn _ _). set (s1 := set_draws _ _ s).
  destruct (materialize_each clock uuid intl rows s1) as [[r|e] x] eqn:Hrun; [|by left].
  assert (∀ p, p ∈ rows → schedules s !! p.1 = Some p.2 ∧ due_schedule (clock (ticks s)) p.2 = true) as Hrows.
  { intros [id' sc'] Hp. unfold rows in Hp. apply elem_of_take in Hp as (i & Hp & _). apply list_elem_of_lookup_2 in Hp.
    rewrite js_sort_perm in Hp. apply list_elem_of_In, filter_In in Hp as [Hp Hf]. apply list_elem_of_In in Hp. rewrite Hscan in Hp.
    apply elem_of_map_to_list in Hp. apply andb_true_iff in Hf as [? _]. done. }
  assert (NoDup rows.*1) as Hnd.
  { eapply sublist_NoDup; [|apply fmap_sublist, sublist_take]. rewrite js_sort_perm.
    apply (sublist_NoDup _ (scan (map_to_list (schedules s))).*1); [rewrite Hscan; apply NoDup_fst_map_to_list|].
    apply fmap_sublist. clear. induction (scan _) as [|a l IH]; simpl; [constructor|]. case_match; by constructor. }
  destruct (materialize_each_spec _ _ _ _ Hrun Hnd ltac:(intros p Hp; by apply Hrows) id) as [[_ Heq]|(sc0 & sc' & Hin & Hx & Ha)].
  - left. cbn. by rewrite Heq.
  - right. destruct (Hrows _ Hin) as [Hsc0 Hdue]. cbn in Hsc0, Hdue. rewrite Hsc in Hsc0. injection Hsc0 as <-. by exists sc'.
Qed.

(** ** Runs in which a schedule is not redefined *)

Definition recurrence (sc : Schedule) :=
  (sc_tenantId sc, sc_jobType sc, sc_kind sc, sc_cronExpression sc, sc_timezone sc, sc_intervalSeconds sc).
(** A step that leaves the recurrence and the next run of the schedule [id], or materializes. *)
Definition undisturbed (id : string) (s s' : Sys) : Prop :=
  step s s' ∧
  ((∃ sc sc', schedules (db s) !! id = Some sc ∧ schedules (db s') !! id = Some sc' ∧ recurrence sc' = recurrence sc ∧ sc_nextRunAt sc' = sc_nextRunAt sc) ∨
   ∃ scan locked batchSize, (∀ l, scan l ≡ₚ l) ∧ s' = set_db (run_call clock uuid intl canonical (call_materialize scan locked batchSize) (db s)).2 s).

Lemma step_has_job s s' id sc ty k :
  step s s' → schedules (db s') !! id = Some sc → has_job (db s) (sc_tenantId sc) ty k → has_job (db s') (sc_tenantId sc) ty k.
Proof.
  intros Hst Hsc (jid & j & Hj & Hk). pose proof (shape_row clock uuid s s' jid (step_shape clock uuid intl canonical cut s s' Hst)) as Hrow.
  unfold row_step in Hrow. rewrite Hj in Hrow. destruct (jobs (db s') !! jid) as [j'|] eqn:Hj'.
  - exists jid, j'. split; [done|]. rewrite <- Hk. apply has_key_facts. destruct Hrow as [[? _]|?%jtrans_facts]; done.
  - destruct Hrow as [_ Hgone]. apply has_key_spec in Hk as (Ht & _). by destruct (Hgone id sc Hsc).
Qed.

(** The next run of a schedule, as a function of the last. *)
Definition next_of (r : Schedule) (t : Z) : outcome JobsError (option Z) := next_run intl (recur (Some t) true None None 0 r).
Lemma next_of_recurrence sc sc' t : recurrence sc' = recurrence sc → next_of sc' t = next_of sc t.
Proof. unfold recurrence, next_of, next_run. intros H. injection H as _ _ H3 H4 H5 H6. cbn. by rewrite H3, H4, H5, H6. Qed.
Lemma next_run_next_of sc t : sc_nextRunAt sc = Some t → next_run intl sc = next_of sc t.
Proof. intros Ht. unfold next_of, next_run. cbn. by rewrite Ht. Qed.

(** The runs from [a] to [b], each the next of the one before, all of which satisfy [P]. *)
Inductive chain (r : Schedule) (P : Z → Prop) (a : Z) : Z → Prop :=
| chain_here : chain r P a a
| chain_next b c : chain r P a b → P b → next_of r b = Ok (Some c) → chain r P a c.
Lemma chain_impl r P Q a b : chain r P a b → (∀ t, P t → Q t) → chain r Q a b.
Proof. intros Hc HPQ. induction Hc; [constructor|]. by eapply chain_next; [|apply HPQ|]. Qed.

(** Every run that a schedule has left behind has its job, and was due. *)
Definition left_behind (id : string) (sc : Schedule) (x : Tables) (t : Z) : Prop :=
  has_job x (sc_tenantId sc) (sc_jobType sc) (occurrence_key id t) ∧ ∃ n, 1000 * t ≤ clock n.
Lemma undisturbed_chain id s s' sc a :
  rtc (undisturbed id) s s' → schedules (db s) !! id = Some sc → sc_nextRunAt sc = Some a →
  ∃ sc' b, schedules (db s') !! id = Some sc' ∧ recurrence sc' = recurrence sc ∧ sc_nextRunAt sc' = Some b ∧
    chain sc (left_behind id sc (db s')) a b.
Proof.
  intros Hrun Hsc Ha. revert s' Hrun. apply rtc_ind_r; [exists sc, a; split_and!; [done..|constructor]|].
  intros s' s'' _ [Hst Hu] IH. destruct IH as (sc1 & b & Hs1 & Hr1 & Hb & Hc).
  assert (∀ sc2, schedules (db s'') !! id = Some sc2 → recurrence sc2 = recurrence sc → chain sc (left_behind id sc (db s'')) a b) as Hkeep.
  { intros sc2 Hs2 Hr2. eapply chain_impl; [exact Hc|]. intros t [Hjob ?]. split; [|done].
    assert (sc_tenantId sc2 = sc_tenantId sc) as Ht by (unfold recurrence in Hr2; congruence). rewrite <- Ht in *. by eapply step_has_job. }
  destruct Hu as [(sc1' & sc2 & Hs1' & Hs2 & Hr2 & Hn2)|(scan & locked & batchSize & Hscan & ->)].
  - rewrite Hs1 in Hs1'. injection Hs1' as <-. exists sc2, b. split_and!; [done|congruence|congruence|]. eapply Hkeep; [done|congruence].
  - cbn [run_call db set_db] in *. unfold tick_materialize in *.
    assert (∀ y, ((length <$> materialize clock uuid intl scan locked (default DEFAULT_SCHEDULER_BATCH_SIZE batchSize)) ≫= (λ _, mret ())) y =
      (let '(o, z) := materialize clock uuid intl scan locked (default DEFAULT_SCHEDULER_BATCH_SIZE batchSize) y in
       (match o with Ok _ => Ok () | Throw e => Throw e end, z))) as Heq.
    { intros y. unfold fmap, js_fmap, mbind, js_bind. by destruct (materialize _ _ _ _ _ _ y) as [[l|e] z]. }
    rewrite Heq in *. pose proof (materialize_spec scan locked (default DEFAULT_SCHEDULER_BATCH_SIZE batchSize) (db s') id sc1 Hscan Hs1) as Hm.
    destruct (materialize _ _ _ _ _ _ (db s')) as [o x]. cbn in *.
    destruct Hm as [Hx|(sc2 & Hx & Had & Hdue)]; [exists sc1, b; split_and!; [done..|by eapply Hkeep]|].
    assert (recurrence sc2 = recurrence sc1) as Hr2 by (by destruct Had).
    pose proof (Hkeep sc2 Hx ltac:(congruence)) as Hc'. destruct Had as [now e Hbad|t c le u Ht Hnext Hjob].
    + eexists _, b. split_and!; [exact Hx|cbn; congruence|done|done].
    + rewrite Hb in Ht. injection Ht as <-. eexists _, c. split_and!; [exact Hx|cbn; congruence|done|].
      eapply chain_next; [exact Hc'| |by rewrite <- (next_of_recurrence sc sc1), <- next_run_next_of].
      split; [by unfold recurrence in Hr1; injection Hr1 as <- <- _ _ _ _|]. exists (ticks (db s')).
      unfold due_schedule in Hdue. rewrite Hb in Hdue. apply andb_true_iff in Hdue as [_ ?%Z.leb_le]. done.
Qed.
End occurrences.
