(* ===== verification/JobsClaims.v ===== *)
(** * JobsClaims: the theorems of the job queue.

    [drive] runs a list of actions; the states of the concrete queue of [Example] are those the witnesses
    apply the theorems to. *)
From stdpp Require Import pretty.
From S2P Require Import Prelude JsMap JsText JsDate Cron CronParse CronSearch JobsRepository JobsService JobsSystem JobsInv JobsRun.
Local Open Scope Z_scope.

(** ** Scripts *)

Inductive Action :=
| ac_call (c : Call)
| ac_schedule (id : string) (sc : Schedule)
| ac_claim (workerId : string)
| ac_begin (n : nat)
| ac_return (n : nat)
| ac_throw (n : nat) (message : string)
| ac_settle (n : nat).
Section drive.
#[local] Set Default Proof Using "Type".
Context (clock : nat → Z) (uuid : nat → string) (intl : string → option Formatter) (canonical : string → option string) (cut : string → string).
Notation step := (step clock uuid intl canonical cut).
Notation orderly := (orderly clock uuid intl canonical cut).

(** Every type has a handler, the worker's clock shows 0 and the delays are none. *)
Definition act (a : Action) (s : Sys) : option Sys :=
  match a with
  | ac_call c => Some (set_db (run_call clock uuid intl canonical c (db s)).2 s)
  | ac_schedule id sc =>
      if storable (db s) sc && bool_decide (schedules (db s) = ∅)
      then Some (set_db (set_schedules (<[id := sc]> (schedules (db s))) (db s)) s) else None
  | ac_claim workerId =>
      match tick_claim clock (λ l, l) (λ _, false) workerId None None (db s) with
      | (Ok l, x) => Some (with_executions (executions_of workerId l) x s)
      | (Throw _, _) => None
      end
  | ac_begin n =>
      e ← executions s !! n;
      match ex_phase e with
      | ph_claimed =>
          let p := begin_execution (λ _, true) (members (db s)) (ex_job e) in
          Some {| db := db s; executions := <[n := set_phase p e]> (executions s);
                  runs := runs s ++ match p with ph_running => [claim_of e] | _ => [] end |}
      | _ => None
      end
  | ac_return n =>
      e ← executions s !! n; match ex_phase e with ph_running => Some (set_execution n (set_phase (ph_ended en_executed) e) s) | _ => None end
  | ac_throw n message =>
      e ← executions s !! n; match ex_phase e with ph_running => Some (set_execution n (set_phase (ph_ended (en_failed message)) e) s) | _ => None end
  | ac_settle n =>
      e ← executions s !! n;
      match ex_phase e with
      | ph_ended o => Some (set_db (settle clock cut 0 (λ _, 0) e o (db s)).2 (set_execution n (set_phase ph_settled e) s))
      | _ => None
      end
  end.
Fixpoint drive (l : list Action) (s : Sys) : option Sys := match l with [] => Some s | a :: l => s' ← act a s; drive l s' end.

Lemma action_step a s s' : act a s = Some s' → step s s'.
Proof.
  destruct a as [c|id sc|w|n|n|n message|n]; cbn [act].
  - intros [= <-]. apply st_call.
  - destruct (storable (db s) sc) eqn:Hst; [|done]. destruct (bool_decide_reflect (schedules (db s) = ∅)) as [He|]; [|done].
    intros [= <-]. apply st_outside, out_schedule; [done|..]; intros *; by rewrite He, lookup_empty.
  - destruct (tick_claim _ _ _ _ _ _ _) as [[l|e] x] eqn:Hc; [|done]. intros [= <-]. eapply (st_claim _ _ _ _ _ s (λ l, l)); [done|exact Hc].
  - destruct (executions s !! n) as [e|] eqn:Hn; [|done]. cbn. destruct (ex_phase e) eqn:Hp; try done. intros [= <-]. by apply (st_begin _ _ _ _ _ s n e).
  - destruct (executions s !! n) as [e|] eqn:Hn; [|done]. cbn. destruct (ex_phase e) eqn:Hp; try done. intros [= <-]. by apply st_returned.
  - destruct (executions s !! n) as [e|] eqn:Hn; [|done]. cbn. destruct (ex_phase e) eqn:Hp; try done. intros [= <-]. by apply st_threw.
  - destruct (executions s !! n) as [e|] eqn:Hn; [|done]. cbn. destruct (ex_phase e) eqn:Hp; try done. intros [= <-]. by apply st_settle.
Qed.
Lemma drive_runs l s s' : drive l s = Some s' → rtc step s s'.
Proof.
  revert s. induction l as [|a l IH]; intros s; simpl; [by intros [= <-]|]. destruct (act a s) as [s1|] eqn:Ha; [|done]. simpl.
  intros Hd. eapply rtc_l; [by eapply action_step|by apply IH].
Qed.
(** A claim by another worker than those of the executions there are is orderly. *)
Definition orderly_in (a : Action) (s : Sys) : bool :=
  match a with ac_claim w => forallb (λ e, negb (String.eqb (ex_worker e) w)) (executions s) | _ => true end.
Fixpoint orderly_script (l : list Action) (s : Sys) : bool :=
  match l with
  | [] => true
  | a :: l => match act a s with Some s' => orderly_in a s && orderly_script l s' | None => false end
  end.
Lemma act_orderly a s s' : act a s = Some s' → orderly_in a s = true → orderly s s'.
Proof.
  intros Ha Ho. split; [by eapply action_step|]. intros e e' He He' _ Hw. destruct a as [c|id sc|w|n|n|n message|n]; cbn [act] in Ha.
  3: { destruct (tick_claim _ _ _ _ _ _ _) as [[l|err] x]; [|done]. injection Ha as <-. cbn in He. rewrite drop_app_length in He.
       apply executions_elem in He as (_ & Hwe & _). cbn in Ho. rewrite forallb_forall in Ho. specialize (Ho e' (proj1 (list_elem_of_In _ _) He')).
       by rewrite Hw, Hwe, String.eqb_refl in Ho. }
  all: exfalso; revert He; rewrite drop_ge; [apply not_elem_of_nil|].
  1: by injection Ha as <-.
  1: destruct (storable _ _ && _); [|done]; by injection Ha as <-.
  all: destruct (executions s !! n) as [e0|]; [|done]; cbn in Ha; destruct (ex_phase e0); try done; injection Ha as <-; cbn; by rewrite length_insert.
Qed.
Lemma orderly_steps l s s' : drive l s = Some s' → orderly_script l s = true → rtc orderly s s'.
Proof.
  revert s. induction l as [|a l IH]; intros s; simpl; [by intros [= <-]|]. destruct (act a s) as [s1|] eqn:Ha; [|done]. simpl.
  intros Hd [Ho Hs]%andb_true_iff. eapply rtc_l; [by eapply act_orderly|by apply IH].
Qed.
End drive.

(** ** A small queue *)

Module Small.
(** A second passes from one reading of the clock to the next, and a thousand between the fourth and the
    fifth: longer than a lease. *)
Definition clock (n : nat) : Z := 1000000 * (Z.of_nat n + if (n <? 4)%nat then 0 else 1000).
Definition uuid (n : nat) : string := pretty n.
Definition intl (zone : string) : option Formatter := None.
Definition canonical (zone : string) : option string := if String.eqb zone "UTC" then Some "UTC" else None.
Definition cut (s : string) : string := s.
Definition tables0 : Tables :=
  {| jobs := ∅; schedules := ∅; tenants := {["t"]}; users := {["00000000-0000-0000-0000-000000000001"]};
     members := {[("t", "00000000-0000-0000-0000-000000000001")]}; ticks := 0; uuids := 0 |}.
Definition actor : string := "00000000-0000-0000-0000-000000000001".
Definition context : RequestContext := {| cx_tenantId := Some "t"; cx_actorId := Some actor |}.
(** A job that may be attempted [n] times. *)
Definition input (n : Z) : EnqueueJobInput :=
  {| ei_jobType := Some "mail"; ei_payload := None; ei_tenantId := "t"; ei_actorId := None; ei_runAt := None; ei_delayMs := None;
     ei_priority := None; ei_maxAttempts := Some n; ei_idempotencyKey := Some "k" |}.
Definition enqueue_mail (n : Z) : Action := ac_call (call_enqueue context (members tables0) None 0 (input n)).
Definition begun : Sys := start_sys tables0.
Notation Drive := (drive clock uuid intl canonical cut).
Definition run (l : list Action) (s : Sys) : Sys := default s (Drive l s).
Definition runs_ (l : list Action) (s : Sys) : bool := match Drive l s with Some _ => true | None => false end.

(** Two workers: the second claims when the lease of the first has passed. *)
Definition twice_script : list Action := [enqueue_mail 1; ac_claim "v"; ac_begin 0; ac_claim "w"; ac_begin 1].
Definition twice : Sys := run twice_script begun.
(** One worker whose first execution goes on after its lease: it fails when the second has begun. *)
Definition stale_script : list Action :=
  [enqueue_mail 5; ac_claim "v"; ac_begin 0; ac_claim "v"; ac_begin 1; ac_throw 0 "late"; ac_settle 0].
Definition freed : Sys := run (stale_script ++ [ac_claim "v"; ac_begin 2]) begun.
Definition failing : Sys := run [enqueue_mail 1; ac_claim "v"; ac_begin 0; ac_throw 0 "no"] begun.

(** A schedule due every quarter of an hour, and a clock an hour past its first run. *)
Definition august : Z := 1787566000000.
Definition late_clock (n : nat) : Z := 1000 * (august + 3600000) + Z.of_nat (Nat.min n 1000).
Definition quarters : UpsertScheduleInput :=
  {| ui_name := Some "q"; ui_jobType := Some "mail"; ui_tenantId := "t"; ui_actorId := Some actor; ui_kind := Some kind_cron; ui_timezone := None;
     ui_cronExpression := Some "*/15 * * * *"; ui_intervalSeconds := None; ui_payload := None; ui_priority := None; ui_maxAttempts := None;
     ui_backoff := None; ui_isEnabled := None; ui_createdBy := None |}.
Definition tick : Call := call_materialize (λ l, l) (λ _, false) None.
Definition after (c : Call) (s : Sys) : Sys := set_db (run_call late_clock uuid intl canonical c (db s)).2 s.
Definition scheduled : Sys := after (call_upsertSchedule context (members tables0) None august quarters) begun.
Definition ticked : Sys := after tick (after tick scheduled).
Definition no_schedule : Schedule := defined
  {| ns_tenantId := "t"; ns_name := "p"; ns_jobType := "mail"; ns_actorId := actor; ns_timezone := "UTC"; ns_kind := kind_interval;
     ns_cronExpression := None; ns_intervalSeconds := Some 60; ns_payload := "{}"; ns_priority := 0; ns_maxAttempts := 5;
     ns_backoff := DEFAULT_BACKOFF_POLICY; ns_nextRunAt := None; ns_createdBy := None; ns_isEnabled := true |} 0 None None 0 0.
(** What a tenant can write. *)
Definition poison : Schedule := recur None true None None 0 no_schedule.
Definition poisoned : Sys := run [ac_schedule "p" poison] begun.
Definition the_schedule : Schedule := default no_schedule (schedules (db scheduled) !! "0").
Definition no_job : Job := new_job (occurrence "" no_schedule 0) 0 0 0.
Definition no_execution : Execution := {| ex_worker := ""; ex_id := ""; ex_job := no_job; ex_phase := ph_settled |}.
Definition execution (n : nat) (s : Sys) : Execution := default no_execution (executions s !! n).

Lemma ids_differ : Inj (=) (=) uuid.
Proof. unfold uuid. apply _. Qed.
Lemma tables0_fresh : fresh tables0.
Proof. done. Qed.
Lemma script_steps l s : runs_ l s = true → rtc (step clock uuid intl canonical cut) s (run l s).
Proof. unfold runs_, run. destruct (Drive l s) as [s'|] eqn:Hd; [|done]. intros _. by eapply drive_runs. Qed.
Lemma run_orderly l s : runs_ l s = true → orderly_script clock uuid intl canonical cut l s = true →
  rtc (orderly clock uuid intl canonical cut) s (run l s).
Proof. unfold runs_, run. destruct (Drive l s) as [s'|] eqn:Hd; [|done]. intros _. by eapply orderly_steps. Qed.
Lemma script_reaches l : runs_ l begun = true → reachable clock uuid intl canonical cut (run l begun).
Proof. intros Hd. exists tables0. split; [apply tables0_fresh|by apply script_steps]. Qed.
Lemma reach_twice : reachable clock uuid intl canonical cut twice.
Proof. apply script_reaches. by vm_compute. Qed.
Lemma seconds_pass n m : (n ≤ m)%nat → clock n ≤ clock m.
Proof. unfold clock. intros ?. destruct (Nat.ltb_spec n 4), (Nat.ltb_spec m 4); lia. Qed.
Lemma execution_in n s : (n < length (executions s))%nat → execution n s ∈ executions s.
Proof. intros Hn. unfold execution. destruct (lookup_lt_is_Some_2 _ _ Hn) as [e He]. rewrite He. by eapply list_elem_of_lookup_2. Qed.
Lemma late_clock_bound n : late_clock n ≤ 1000 * (MAX_TIME - MAX_SEARCH_MINUTES * MINUTE_MS).
Proof. unfold late_clock, august, MAX_TIME, MAX_SEARCH_MINUTES, MINUTE_MS. lia. Qed.
Lemma tick_undisturbed s : undisturbed late_clock uuid intl canonical cut "0" s (after tick s).
Proof. split; [apply st_call|right]. by exists (λ l, l), (λ _, false), None. Qed.
End Small.

(** ** The theorems *)

Section claims.
Context (clock : nat → Z) (uuid : nat → string) (intl : string → option Formatter) (canonical : string → option string) (cut : string → string).

(** C19. The life of a job. In every reachable state a key names at most one job of its tenant and type. Every
    step leaves each job as it is, moves it along [jtrans] once, or deletes it with its tenant; what
    identifies it never changes, a job that succeeded, was canceled or is dead stays what it is, and a
    new job is pending. *)
Theorem jobs_follow_their_life s :
  Inj (=) (=) uuid → reachable clock uuid intl canonical cut s →
  keys_unique (db s) ∧
  ∀ s', step clock uuid intl canonical cut s s' → ∀ id,
    match jobs (db s) !! id, jobs (db s') !! id with
    | Some j, Some j' => (same_work j j' ∨ jtrans j j') ∧ job_facts j' = job_facts j ∧ (terminal (jb_status j) = true → same_work j j')
    | None, Some j' => fresh_job j'
    | Some j, None => jb_tenantId j ∉ tenants (db s')
    | None, None => True
    end.
Proof.
  intros Huuid Hr. split; [by eapply i_keys, jobs_inv|]. intros s' Hst id.
  pose proof (shape_row clock uuid s s' id (step_shape clock uuid intl canonical cut s s' Hst)) as Hrow. unfold row_step in Hrow.
  destruct (jobs (db s) !! id) as [j|], (jobs (db s') !! id) as [j'|]; [|apply Hrow|done|done]. split; [done|].
  destruct Hrow as [Hw|Htr]; [split; [apply Hw|done]|]. split; [by apply jtrans_facts|]. intros Ht. exfalso.
  destruct Htr as [read now until w Hdue| | | | |]; unfold due, owned in *; try (by destruct (jb_status j));
    match goal with H : _ && _ = true |- _ => apply andb_true_iff in H as [_ H%bool_decide_eq_true]; by rewrite H in Ht end.
Qed.

(** C20. The attempts of a job are the claims made of it, in whichever states it was and whoever claimed it: no two
    claims have the same number, and the handler of a claim begins at most once. *)
Theorem attempts_run_once s :
  Inj (=) (=) uuid → reachable clock uuid intl canonical cut s →
  let number := λ c, (cl_id c, cl_attempts c) in
  NoDup (number <$> claims s) ∧ NoDup (number <$> runs s) ∧ runs s ⊆ claims s ∧
  ∀ id j, jobs (db s) !! id = Some j → jb_attempts j = Z.of_nat (length (filter (λ c, cl_id c = id) (claims s))).
Proof.
  intros Huuid HI%jobs_inv number; [|done].
  assert (number <$> claims s = key <$> executions s) as Hnum by (unfold claims; by rewrite <- list_fmap_compose).
  assert (NoDup (number <$> claims s)) as Hnd by (rewrite Hnum; apply HI).
  assert (runs s ⊆ claims s) as Hsub.
  { intros c (e & He & _ & ->)%(i_runs _ _ _ HI). unfold claims. by apply list_elem_of_fmap_2. }
  split_and!; [done| |done|].
  - apply (NoDup_fmap_2_strong number); [|apply HI]. intros c c' Hc%Hsub Hc'%Hsub Heq. by eapply (NoDup_fmap_elem number).
  - intros id j Hj. pose proof (i_attempts _ _ _ HI id j Hj) as Hpos. set (l := filter _ _).
    assert (cl_attempts <$> l ≡ₚ seqZ 1 (jb_attempts j)) as Hperm.
    { apply NoDup_Permutation; [| |].
      - apply NoDup_fmap_2_strong; [|apply NoDup_filter; by eapply NoDup_fmap_1].
        intros c c' [Hc Hin]%list_elem_of_filter [Hc' Hin']%list_elem_of_filter Heq. eapply (NoDup_fmap_elem number); [done..|]. unfold number. congruence.
      - apply NoDup_seqZ.
      - intros k. rewrite elem_of_seqZ, list_elem_of_fmap. split.
        + intros (c & -> & [Hc Hin]%list_elem_of_filter). unfold claims in Hin. apply list_elem_of_fmap in Hin as (e & -> & He). cbn in Hc.
          rewrite <- Hc in Hj. pose proof (i_below _ _ _ HI e j He Hj). cbn. lia.
        + intros Hk. destruct (i_all _ _ _ HI id j k Hj ltac:(lia)) as (e & He & Hkey). injection Hkey as Hid Hat. exists (claim_of e).
          split; [done|]. apply list_elem_of_filter. split; [done|]. unfold claims. by apply list_elem_of_fmap_2. }
    apply Permutation_length in Hperm. rewrite length_fmap, length_seqZ in Hperm. lia.
Qed.

(** C21. When the clock does not run backwards and no worker claims a job that it still executes, a later
    claim of a job is made only after the lease of every execution of it that is not settled: its
    handlers overlap only past the visibility timeout. *)
Theorem claims_wait_for_leases t s e e' :
  Inj (=) (=) uuid → (∀ n m, (n ≤ m)%nat → clock n ≤ clock m) → fresh t → rtc (orderly clock uuid intl canonical cut) (start_sys t) s →
  e ∈ executions s → e' ∈ executions s → ex_id e = ex_id e' → jb_attempts (ex_job e) < jb_attempts (ex_job e') → ex_phase e ≠ ph_settled →
  cl_until (claim_of e) ≤ cl_at (claim_of e').
Proof. intros Huuid Hclock Ht Hrun. by eapply l_stale, orderly_leases. Qed.

(** C22. A cron schedule in UTC skips no run: however long the scheduler is behind, whatever fails and
    whatever else happens but a redefinition of the schedule, every due minute between two of its next runs has
    its job. The clock is before the last five years of [Date]. *)
Theorem no_run_is_skipped s s' id sc e p a :
  (∀ n, clock n ≤ 1000 * (MAX_TIME - MAX_SEARCH_MINUTES * MINUTE_MS)) →
  rtc (undisturbed clock uuid intl canonical cut id) s s' →
  schedules (db s) !! id = Some sc → sc_kind sc = kind_cron → sc_cronExpression sc = Some e → sc_timezone sc = "UTC" →
  parseCronExpression e = Ok p → sc_nextRunAt sc = Some a → YEAR_100 ≤ a →
  ∃ sc' b, schedules (db s') !! id = Some sc' ∧ sc_nextRunAt sc' = Some b ∧ a ≤ b ∧ (b = a ∨ CronSearch.due p b) ∧
    ∀ t, t = a ∨ CronSearch.due p t → a ≤ t < b → has_job (db s') (sc_tenantId sc) (sc_jobType sc) (occurrence_key id t).
Proof.
  intros Hclock Hrun Hsc Hk He Htz Hp Ha Hyear.
  destruct (undisturbed_chain clock uuid intl canonical cut id s s' sc a Hrun Hsc Ha) as (sc' & b & Hsc' & _ & Hb & Hc).
  exists sc', b. split; [done|]. split; [done|]. clear Hb Hsc' Hrun. induction Hc as [|b c Hc (Hle & Hdue & IH) [Hjob [n Hn]] Hnext].
  { split; [done|]. split; [by left|]. intros. lia. }
  unfold next_of, next_run in Hnext. cbn in Hnext. rewrite Hk, He, Htz in Hnext.
  pose proof (next_run_least intl e b ltac:(lia) ltac:(pose proof (Hclock n); lia)) as Hl. rewrite Hp in Hl.
  destruct Hl as [(t & Ht & Hduet & Hbt & Hmin)|[Hf _]]; [|by rewrite Hf in Hnext].
  rewrite Ht in Hnext. injection Hnext as <-. split; [lia|]. split; [by right|]. intros t' Hor Hr.
  destruct (Z.lt_trichotomy t' b) as [|[->|]]; [apply IH; [done|lia]|done|]. destruct Hor as [->|Hd]; [lia|]. pose proof (Hmin t' Hd). lia.
Qed.

(** C24. An attempt that fails while its worker holds the job ends it at the ceiling: it is dead with the error as
    its reason. Below the ceiling it is pending again, and due within the exponential delay of the
    attempt, five minutes at most. *)
Theorem failed_attempt_ends s e j message jsNow below :
  (∀ n, 0 < n → 0 ≤ below n < n) → 0 ≤ jsNow ≤ MAX_TIME - 300000 → has_nul (cut message) = false →
  jobs s !! ex_id e = Some j → owned (ex_worker e) j = true → 1 ≤ jb_attempts (ex_job e) →
  let x := (settle clock cut jsNow below e (en_failed message) s).2 in
  ∃ j', jobs x = <[ex_id e := j']> (jobs s) ∧ jb_lastError j' = Some (cut message) ∧ jb_lockedBy j' = None ∧ jb_attempts j' = jb_attempts j ∧
    if jb_maxAttempts (ex_job e) <=? jb_attempts (ex_job e)
    then jb_status j' = dead_letter ∧ jb_deadLetterReason j' = Some (cut message)
    else jb_status j' = pending ∧ jsNow ≤ jb_runAt j' ≤ jsNow + Z.min 300000 (1000 * 2 ^ (jb_attempts (ex_job e) - 1)).
Proof.
  intros Hbelow Hnow Hnul Hj Ho Hat. cbn [settle]. unfold fail. rewrite Hnul. unfold retryAt.
  assert (∀ f, (tx (settle_owned clock (ex_id e) (ex_worker e) f) s).2 =
    set_jobs (<[ex_id e := f (clock (ticks s)) j]> (jobs s)) (set_draws (S (ticks s)) (uuids s) s)) as Hset.
  { intros f. unfold tx, settle_owned, getf, mbind, js_bind. cbn. rewrite Hj, Ho. done. }
  match goal with |- context [throw_if false ?e ≫= ?k] => change (throw_if false e ≫= k) with (k ()) end. cbv beta.
  destruct (jb_maxAttempts (ex_job e) <=? jb_attempts (ex_job e)); [rewrite Hset; by eexists|].
  pose proof (Hbelow (Z.min 300000 (1000 * 2 ^ (jb_attempts (ex_job e) - 1)) + 1)) as Hb.
  assert (0 < 2 ^ (jb_attempts (ex_job e) - 1)) by (apply Z.pow_pos_nonneg; lia). specialize (Hb ltac:(lia)).
  unfold computeBackoffMs. cbn [bp_baseMs bp_maxMs bp_multiplier DEFAULT_BACKOFF_POLICY]. rewrite Z.max_r by lia. set (d := below _) in *.
  assert (time_clip (jsNow + d) = Some (jsNow + d)) as ->.
  { unfold time_clip. rewrite Z.abs_eq by lia. rewrite (proj2 (Z.leb_le _ _)); [done|]. unfold MAX_TIME in *. lia. }
  unfold timestamptz. rewrite (proj2 (Z.ltb_ge _ _)) by (unfold MIN_TIMESTAMP; lia).
  match goal with |- context [lift (Ok ?a) ≫= ?k] => change (lift (Ok a) ≫= k) with (k a) end. cbv beta. rewrite Hset.
  eexists. split; [done|]. cbn. split_and!; try done; lia.
Qed.

(** C23. One schedule blocks the others: while an enabled schedule that its tenant wrote with a next run of
    [-infinity] is the first in line, every materialization fails and changes no schedule and no job of
    any tenant. *)
Theorem infinite_schedule_blocks_all s id sc scan locked limit :
  (∀ l, scan l ≡ₚ l) → schedules s !! id = Some sc → sc_isEnabled sc = true → is_Some (sc_actorId sc) → sc_nextRunAt sc = None →
  (sc_kind sc = kind_interval ∨ sc_kind sc = kind_cron ∧ sc_timezone sc = "UTC" ∧ ∃ e p, sc_cronExpression sc = Some e ∧ parseCronExpression e = Ok p) →
  (∀ id' sc', schedules s !! id' = Some sc' → sc_nextRunAt sc' = None → id' = id) → locked id = false → 1 ≤ limit →
  ∃ tk, materialize clock uuid intl scan locked limit s = (Throw TypeError, set_draws tk (uuids s) s).
Proof.
  intros Hscan Hsc Hen Hact Hn Hkind Honly Hlock Hlim. unfold materialize, tx, throw_if. rewrite (proj2 (Z.ltb_ge _ _)) by lia.
  unfold mbind, js_bind. cbn -[set_draws clock_timestamp]. rewrite clock_run. cbn -[set_draws].
  set (due_ := List.filter _ _).
  assert ((id, sc) ∈ js_sort schedule_le due_) as Hin.
  { rewrite js_sort_perm. apply list_elem_of_In, filter_In. split.
    - apply list_elem_of_In. rewrite Hscan. by apply elem_of_map_to_list.
    - cbn. unfold due_schedule. rewrite Hen, Hn, Hlock. by rewrite bool_decide_true. }
  assert (∃ l, js_sort schedule_le due_ = (id, sc) :: l) as [l ->].
  { assert (StronglySorted (λ a b, schedule_le a b = true) (js_sort schedule_le due_)) as Hs.
    { apply (js_sort_sorted _ (λ _, True)); [| |by apply Forall_true].
      - intros x y _ _. unfold schedule_le. destruct (sc_nextRunAt x.2), (sc_nextRunAt y.2); try done. intros ?%Z.leb_gt. apply Z.leb_le. lia.
      - intros x y z _ _ _. unfold schedule_le. destruct (sc_nextRunAt x.2), (sc_nextRunAt y.2), (sc_nextRunAt z.2); try done.
        intros ?%Z.leb_le ?%Z.leb_le. apply Z.leb_le. lia. }
    destruct (js_sort schedule_le due_) as [|[id0 sc0] l] eqn:Hl; [by apply elem_of_nil in Hin|]. exists l.
    assert ((id0, sc0) ∈ js_sort schedule_le due_) as Hin0 by (rewrite Hl; by left).
    rewrite js_sort_perm in Hin0. apply list_elem_of_In, filter_In in Hin0 as [Hin0 _]. apply list_elem_of_In in Hin0. rewrite Hscan in Hin0.
    apply elem_of_map_to_list in Hin0. change (schedules s !! id0 = Some sc0) in Hin0. apply elem_of_cons in Hin as [Hin|Hin]; [by injection Hin as <- <-|].
    apply StronglySorted_inv in Hs as [_ Hall]. rewrite Forall_forall in Hall. specialize (Hall _ Hin). unfold schedule_le in Hall. cbn in Hall.
    rewrite Hn in Hall. destruct (sc_nextRunAt sc0) eqn:Hn0; [done|]. pose proof (Honly _ _ Hin0 Hn0) as ->. rewrite Hsc in Hin0. by injection Hin0 as <-. }
  destruct (Z.to_nat limit) eqn:Hz; [lia|]. cbn [List.firstn materialize_each].
  assert (next_run intl sc = Throw TypeError) as Hnext.
  { unfold next_run. rewrite Hn. destruct Hkind as [->|(-> & -> & e & p & -> & ->)]; [done|by rewrite String.eqb_refl]. }
  unfold materialize_one, mbind, js_bind. rewrite Hnext. cbn. by eexists.
Qed.
End claims.

(** ** Witnesses *)

Module Example.
Import Small.

Lemma jobs_follow_their_life_witness :
  let s := twice in reachable clock uuid intl canonical cut s ∧
  keys_unique (db s) ∧ ∀ s', step clock uuid intl canonical cut s s' → ∀ id,
    match jobs (db s) !! id, jobs (db s') !! id with
    | Some j, Some j' => (same_work j j' ∨ jtrans j j') ∧ job_facts j' = job_facts j ∧ (terminal (jb_status j) = true → same_work j j')
    | None, Some j' => fresh_job j'
    | Some j, None => jb_tenantId j ∉ tenants (db s')
    | None, None => True
    end.
Proof. split; [exact reach_twice|]. exact (jobs_follow_their_life clock uuid intl canonical cut twice ids_differ reach_twice). Defined.
Lemma attempts_run_once_witness :
  let number := λ c, (cl_id c, cl_attempts c) in
  number <$> runs twice = [("0", 1); ("0", 2)] ∧
  NoDup (number <$> claims twice) ∧ NoDup (number <$> runs twice) ∧ runs twice ⊆ claims twice ∧
  ∀ id j, jobs (db twice) !! id = Some j → jb_attempts j = Z.of_nat (length (filter (λ c, cl_id c = id) (claims twice))).
Proof. split; [by vm_compute|]. exact (attempts_run_once clock uuid intl canonical cut twice ids_differ reach_twice). Defined.
Lemma claims_wait_for_leases_witness :
  let e := execution 0 twice in let e' := execution 1 twice in
  ex_phase e = ph_running ∧ ex_phase e' = ph_running ∧ cl_until (claim_of e) ≤ cl_at (claim_of e').
Proof.
  split; [by vm_compute|split; [by vm_compute|]].
  apply (claims_wait_for_leases clock uuid intl canonical cut tables0 twice).
  - exact ids_differ.
  - exact seconds_pass.
  - exact tables0_fresh.
  - apply run_orderly; by vm_compute.
  - apply execution_in. vm_compute. lia.
  - apply execution_in. vm_compute. lia.
  - by vm_compute.
  - by vm_compute.
  - by vm_compute.
Defined.
Lemma no_run_is_skipped_witness :
  sc_nextRunAt the_schedule = Some 1787566500000 ∧
  ∃ sc' b, schedules (db ticked) !! "0" = Some sc' ∧ sc_nextRunAt sc' = Some b ∧ 1787566500000 ≤ b ∧
    (b = 1787566500000 ∨ ∃ p, parseCronExpression "*/15 * * * *" = Ok p ∧ CronSearch.due p b).
Proof.
  assert (∃ p, parseCronExpression "*/15 * * * *" = Ok p) as [p Hp] by (eexists; by vm_compute).
  split; [by vm_compute|].
  destruct (no_run_is_skipped late_clock uuid intl canonical cut scheduled ticked "0" the_schedule "*/15 * * * *" p 1787566500000)
    as (sc' & b & Hs & Hb & Hle & Hor & _).
  - exact late_clock_bound.
  - eapply rtc_l; [apply tick_undisturbed|]. eapply rtc_l; [apply tick_undisturbed|]. apply rtc_refl.
  - by vm_compute.
  - by vm_compute.
  - by vm_compute.
  - by vm_compute.
  - exact Hp.
  - by vm_compute.
  - by vm_compute.
  - exists sc', b. split; [exact Hs|]. split; [exact Hb|]. split; [exact Hle|].
    destruct Hor as [Hd|Hd]; [left; exact Hd|right; exists p; split; [exact Hp|exact Hd]].
Defined.
Lemma failed_attempt_ends_witness :
  let e := execution 0 failing in let s := db failing in
  ex_phase e = ph_ended (en_failed "no") ∧ ∃ j', jobs (settle clock cut 1000 (λ _, 0) e (en_failed "no") s).2 = <[ex_id e := j']> (jobs s) ∧
    jb_status j' = dead_letter ∧ jb_deadLetterReason j' = Some "no".
Proof.
  split; [by vm_compute|].
  destruct (failed_attempt_ends clock cut (db failing) (execution 0 failing) (default no_job (jobs (db failing) !! "0")) "no" 1000 (λ _, 0))
    as (j' & Hx & _ & _ & _ & Hend).
  - intros n ?. lia.
  - vm_compute. split; discriminate.
  - by vm_compute.
  - by vm_compute.
  - by vm_compute.
  - by vm_compute.
  - exists j'. split; [exact Hx|]. revert Hend. replace (_ <=? _) with true by by vm_compute. intros [H1 H2]. split; [exact H1|exact H2].
Defined.
Lemma infinite_schedule_blocks_all_witness :
  runs_ [ac_schedule "p" poison] begun = true ∧
  ∃ tk, materialize clock uuid intl (λ l, l) (λ _, false) 25 (db poisoned) = (Throw TypeError, set_draws tk (uuids (db poisoned)) (db poisoned)).
Proof.
  split; [by vm_compute|].
  apply (infinite_schedule_blocks_all clock uuid intl (db poisoned) "p" poison).
  - done.
  - by vm_compute.
  - done.
  - by eexists.
  - done.
  - by left.
  - intros id' sc'. change (schedules (db poisoned)) with ({["p" := poison]} : gmap string Schedule).
    intros [<- _]%lookup_singleton_Some. done.
  - done.
  - lia.
Defined.

(** A worker that dies with a job leaves it to be claimed again, whatever the ceiling: the handler of a job
    that may be attempted once begins a second time. *)
Lemma ceiling_is_passed :
  ∃ s c j, reachable clock uuid intl canonical cut s ∧ c ∈ runs s ∧ jobs (db s) !! cl_id c = Some j ∧ jb_maxAttempts j < cl_attempts c.
Proof.
  exists twice, (claim_of (execution 1 twice)), (default no_job (jobs (db twice) !! "0")). split_and!; [exact reach_twice|by vm_compute; repeat constructor|by vm_compute..].
Qed.
(** A late failure of a worker settles its newer claim of the job, which is still running and in its
    lease: the job is pending again and claimed a third time. *)
Lemma late_failure_frees_newer_claim :
  ∃ s e e', reachable clock uuid intl canonical cut s ∧ e ∈ executions s ∧ e' ∈ executions s ∧ ex_id e = ex_id e' ∧
    ex_phase e = ph_running ∧ ex_phase e' = ph_running ∧ jb_attempts (ex_job e) < jb_attempts (ex_job e') ∧ cl_at (claim_of e') < cl_until (claim_of e).
Proof.
  exists freed, (execution 1 freed), (execution 2 freed). split_and!; try (by vm_compute).
  - apply script_reaches. by vm_compute.
  - apply execution_in. vm_compute. lia.
  - apply execution_in. vm_compute. lia.
Qed.
End Example.
