(* ===== verification/RateLimit.v ===== *)
(** * RateLimit: the guard, its policies and the two stores of [ratelimit/src].

    [redis-rate-limit.store.ts] runs a Lua script, which Redis executes in one step: it is a
    function of the keys of a bucket. [pg-rate-limit.store.ts] is one upsert. The readings of
    [Date.now()] are arguments, and so is the clock of Redis. Numbers are integers. *)
From Stdlib Require Import Ascii.
From stdpp Require Import pretty.
From S2P Require Import Prelude JsText JsDate JsCursor.
Local Open Scope Z_scope.

Inductive RateError :=
| NotConfigured
| ScriptError                         (** an error of the Lua script *)
| RangeError_
| SqlFailure (code : string)
| ServiceUnavailableException
| TooManyRequests
| ExecutorError (message : string).

(** ** Decisions *)

Inductive RateLimitBucket := bucket_ip | bucket_tenant | bucket_user | bucket_route.
Record RateLimitMetadata := { md_bucket : RateLimitBucket; md_scope : string; md_cost : option Z; md_limit : option Z; md_windowSeconds : option Z }.
Record ResolvedRateLimitPolicy := { rp_bucket : RateLimitBucket; rp_scope : string; rp_cost : Z; rp_limit : Z; rp_windowSeconds : Z }.
Record RateLimitDecisionContext := {
  dc_bucketKey : string;
  dc_tenantId : option string;
  dc_userId : option string;
  dc_ttlMs : Z;
  dc_scope : string;
  dc_cost : Z;
  dc_limit : Z;
  dc_bucket : RateLimitBucket }.
Record RateLimitDecision := {
  rd_allowed : bool;
  rd_limit : Z;
  rd_remaining : Z;
  rd_resetAtEpochMs : Z;
  rd_retryAfterSeconds : Z;
  rd_used : Z }.

(** [Math.ceil(ms / 1000)] *)
Definition ceil_seconds (ms : Z) : Z := - (- ms / 1000).
Definition retry_after (ms : Z) : Z := Z.max 1 (ceil_seconds ms).

(** ** The sliding window in Redis *)

(** The sorted set of members by score, the hash of their weights, the counter, and when the three keys
    expire: the script gives them one time to live. *)
Record Window := { events : gmap string Z; weights : gmap string Z; total : Z; expiresAt : Z }.
Definition no_window : Window := {| events := ∅; weights := ∅; total := 0; expiresAt := 0 |}.
(** Keys past their time to live are gone. *)
Definition alive (redisNow : Z) (w : Window) : Window := if expiresAt w <=? redisNow then no_window else w.

(** The lowest score: [ZRANGE key 0 0 WITHSCORES]. *)
Definition oldest (m : gmap string Z) : option Z :=
  map_fold (λ _ t o, Some (match o with Some u => Z.min t u | None => t end)) None m.
Definition reset_at (now windowMs : Z) (m : gmap string Z) : Z := match oldest m with Some t => t + windowMs | None => now + windowMs end.
Definition sum_of (m : gmap string Z) : Z := map_fold (λ _ c s, c + s) 0 m.

(** [ZRANGEBYSCORE key -inf minScore] and the entries that stay. *)
Definition expired_at (minScore : Z) (m : gmap string Z) : gmap string Z := filter (λ p, p.2 ≤ minScore) m.
Definition kept_at (minScore : Z) (m : gmap string Z) : gmap string Z := filter (λ p, minScore < p.2) m.
(** The weights of a set of members, 0 for a member that has none. *)
Definition weights_of (members weights : gmap string Z) : gmap string Z := map_imap (λ m _, Some (default 0 (weights !! m))) members.

(** [max_unpack]: how many values [unpack] can pass to a call of Lua. *)
Definition SLIDING_WINDOW_LUA (max_unpack : nat) (now windowMs limit cost : Z) (member : string) (redisNow : Z) (w0 : Window) :
    outcome RateError RateLimitDecision * Window :=
  let w := alive redisNow w0 in
  let minScore := now - windowMs in
  let expired := expired_at minScore (events w) in
  if (max_unpack <? size expired)%nat then (Throw ScriptError, w) else
  let removedCost := sum_of (weights_of expired (weights w)) in
  let w1 := {| events := kept_at minScore (events w); weights := filter (λ p, expired !! p.1 = None) (weights w);
               total := if 0 <? removedCost then total w - removedCost else total w; expiresAt := expiresAt w |} in
  let current := total w1 in
  if limit <? current + cost then
    let resetAt := reset_at now windowMs (events w1) in
    (Ok {| rd_allowed := false; rd_limit := limit; rd_remaining := Z.max (limit - current) 0; rd_resetAtEpochMs := resetAt;
           rd_retryAfterSeconds := retry_after (resetAt - now); rd_used := current |}, w1)
  else
    let used := current + cost in
    let events' := <[member := now]> (events w1) in
    let resetAt := reset_at now windowMs events' in
    (Ok {| rd_allowed := true; rd_limit := limit; rd_remaining := Z.max (limit - used) 0; rd_resetAtEpochMs := resetAt;
           rd_retryAfterSeconds := retry_after (resetAt - now); rd_used := used |},
     {| events := events'; weights := <[member := cost]> (weights w1); total := used; expiresAt := redisNow + Z.max (windowMs * 2) 1000 |}).

Definition MAX_SAFE_INTEGER : Z := 2 ^ 53 - 1.
Definition bucket_name (b : RateLimitBucket) : string :=
  match b with bucket_ip => "ip" | bucket_tenant => "tenant" | bucket_user => "user" | bucket_route => "route" end.
Definition baseKey (keyPrefix : option string) (c : RateLimitDecisionContext) : string :=
  default "stynx:ratelimit" keyPrefix +:+ ":" +:+ bucket_name (dc_bucket c) +:+ ":" +:+ dc_scope c +:+ ":" +:+ dc_bucketKey c.
(** A store of one process: whether it is connected, and its counter. *)
Record RedisStore := { connected : bool; keyPrefix : option string; sequence : Z }.
Definition member_of (now sequence_ : Z) : string := pretty now +:+ ":" +:+ pretty sequence_.
Definition consumeRedis (max_unpack : nat) (now redisNow : Z) (c : RateLimitDecisionContext) (st : RedisStore) (db : gmap string Window) :
    outcome RateError RateLimitDecision * RedisStore * gmap string Window :=
  if negb (connected st) then (Throw NotConfigured, st, db) else
  let k := baseKey (keyPrefix st) c in
  let sequence' := (sequence st + 1) mod MAX_SAFE_INTEGER in
  let '(r, w) := SLIDING_WINDOW_LUA max_unpack now (dc_ttlMs c) (dc_limit c) (dc_cost c) (member_of now sequence') redisNow (default no_window (db !! k)) in
  (r, {| connected := true; keyPrefix := keyPrefix st; sequence := sequence' |}, <[k := w]> db).

(** ** What Postgres reads of a text *)

Section sql.
(** The cast [$1::uuid]: the value, if the text is one. *)
Context (uuid_in : string → option string).

(** ** The fixed windows in Postgres *)

(** The table is the host's: a row by tenant, bucket and the start of the window, with the hits, an [int], and when
    the row expires. The two times are written and parsed again as ISO texts, which for years after 9999 is left
    out. *)
Notation Windows := (gmap (string * string * Z) (Z * Z)).
Definition toISOString (ms : Z) : outcome RateError Z := if MAX_TIME <? Z.abs ms then Throw RangeError_ else Ok ms.
Definition int4 (z : Z) : bool := (- 2 ^ 31 <=? z) && (z <? 2 ^ 31).
Definition upsert (tenantId bucketKey : string) (windowStartMs cost expiresAtMs : Z) (db : Windows) : outcome RateError Z * Windows :=
  match uuid_in tenantId with
  | None => (Throw (SqlFailure "22P02"), db)
  | Some tenant =>
      let k := (tenant, bucketKey, windowStartMs) in
      let hits := match db !! k with Some (hits, _) => hits + cost | None => cost end in
      if int4 cost && int4 hits then (Ok hits, <[k := (hits, expiresAtMs)]> db) else (Throw (SqlFailure "22003"), db)
  end.
Definition consumePg (now : Z) (c : RateLimitDecisionContext) (db : Windows) : outcome RateError RateLimitDecision * Windows :=
  match dc_tenantId c with
  | None =>
      (Ok {| rd_allowed := true; rd_limit := dc_limit c; rd_remaining := Z.max (dc_limit c - dc_cost c) 0; rd_resetAtEpochMs := now + dc_ttlMs c;
             rd_retryAfterSeconds := retry_after (dc_ttlMs c); rd_used := dc_cost c |}, db)
  | Some tenantId =>
      if dc_ttlMs c =? 0 then (Throw RangeError_, db) else   (** the start of the window is [NaN] *)
      let windowStartMs := now / dc_ttlMs c * dc_ttlMs c in
      let expiresAtMs := windowStartMs + dc_ttlMs c * 2 in
      match toISOString windowStartMs, toISOString expiresAtMs with
      | Ok start, Ok expires =>
          let '(hits, db) := upsert tenantId (dc_bucketKey c) start (dc_cost c) expires db in
          match hits with
          | Throw e => (Throw e, db)
          | Ok used =>
              let resetAtEpochMs := windowStartMs + dc_ttlMs c in
              (Ok {| rd_allowed := used <=? dc_limit c; rd_limit := dc_limit c; rd_remaining := Z.max (dc_limit c - used) 0;
                     rd_resetAtEpochMs := resetAtEpochMs; rd_retryAfterSeconds := retry_after (resetAtEpochMs - now); rd_used := used |}, db)
          end
      | _, _ => (Throw RangeError_, db)
      end
  end.

(** ** Policies *)

(** What the queries read: the overrides with their [updated_at], and the platform's values by key. *)
Record Override := { ov_tenantId : string; ov_scope : string; ov_limit : Z; ov_windowSeconds : Z; ov_updatedAt : Z }.
Record ConfigValue := { cv_limit : option Z; cv_windowSeconds : option Z }.
Record PolicyTables := { overrides : list Override; config : gmap string ConfigValue }.
Record GuardOptions := {
  go_defaultLimit : option Z;
  go_defaultWindowSeconds : option Z;
  go_distributedStrict : bool;
  go_healthCheckPathPrefixes : option (list string);
  go_defaults : gmap string (Z * Z) }.
Definition nonempty (o : option string) : option string := match o with Some s => if String.eqb s EmptyString then None else Some s | None => None end.
Definition nonzero (o : option Z) : option Z := match o with Some z => if z =? 0 then None else Some z | None => None end.
(** [order by updated_at desc limit 1] *)
Definition newer (a b : Override) : bool := ov_updatedAt b <=? ov_updatedAt a.
(** A database: what the transactions of a resolution, in their order, read, unless they fail. *)
Notation Reader := (nat → outcome RateError PolicyTables).
Definition lookupOverride (database : option Reader) (n : nat) (tenantId : option string) (scope : string) :
    outcome RateError (option Override) :=
  match nonempty tenantId, database with
  | Some tenantId, Some read =>
      t ← read n;
      match uuid_in tenantId with
      | None => Throw (SqlFailure "22P02")
      | Some tenant =>
          Ok (head (js_sort newer (List.filter (λ o, String.eqb (ov_tenantId o) tenant && String.eqb (ov_scope o) scope) (overrides t))))
      end
  | _, _ => Ok None
  end.
Definition lookupPlatformConfig (database : option Reader) (n : nat) (scope : string) : outcome RateError (option ConfigValue) :=
  match database with
  | None => Ok None
  | Some read =>
      t ← read n;
      Ok (match config t !! ("ratelimit." +:+ scope) with Some v => Some v | None => config t !! ("ratelimit:" +:+ scope) end)
  end.
(** [a ?? b] *)
Definition orElse {A} (a b : option A) : option A := match a with Some _ => a | None => b end.
Infix "??" := orElse (at level 60, right associativity).
Definition lookupLimit (options : GuardOptions) (database : option Reader) (tenantId : option string) (scope : string) : outcome RateError Z :=
  override ← lookupOverride database 0 tenantId scope;
  match nonzero (ov_limit <$> override) with
  | Some limit => Ok limit
  | None =>
      platform ← lookupPlatformConfig database 1 scope;
      Ok (default 120 ((platform ≫= cv_limit) ?? (fst <$> go_defaults options !! scope) ?? go_defaultLimit options))
  end.
Definition lookupWindow (options : GuardOptions) (database : option Reader) (tenantId : option string) (scope : string) : outcome RateError Z :=
  override ← lookupOverride database 2 tenantId scope;
  match nonzero (ov_windowSeconds <$> override) with
  | Some seconds => Ok seconds
  | None =>
      platform ← lookupPlatformConfig database 3 scope;
      Ok (default 60 ((platform ≫= cv_windowSeconds) ?? (snd <$> go_defaults options !! scope) ?? go_defaultWindowSeconds options))
  end.
Definition resolve (options : GuardOptions) (database : option Reader) (tenantId : option string) (metadata : RateLimitMetadata) :
    outcome RateError ResolvedRateLimitPolicy :=
  limit ← match md_limit metadata with Some limit => Ok limit | None => lookupLimit options database tenantId (md_scope metadata) end;
  windowSeconds ← match md_windowSeconds metadata with
                  | Some seconds => Ok seconds | None => lookupWindow options database tenantId (md_scope metadata) end;
  Ok {| rp_bucket := md_bucket metadata; rp_scope := md_scope metadata; rp_cost := default 1 (md_cost metadata);
        rp_limit := limit; rp_windowSeconds := windowSeconds |}.
End sql.
Notation Windows := (gmap (string * string * Z) (Z * Z)).
Notation Reader := (nat → outcome RateError PolicyTables).

(** ** The guard *)

(** The members the code reads; [rq_claims] is [stynxClaims]. *)
Record RequestLike := {
  rq_authorization : option string;       (** [headerToString(headers.authorization)] *)
  rq_method : option string;
  rq_path : option string;
  rq_originalUrl : option string;
  rq_url : option string;
  rq_ip : option string;
  rq_tenantId : option string;
  rq_claims : option (option string * option string);
  rq_principal : option string;
  rq_actor : option string;
  rq_user : option string;
  rq_response : bool }.                   (** there is a response with [setHeader] *)
Infix "??" := orElse (at level 60, right associativity).
Definition toPath (r : RequestLike) : string := default "/" (rq_path r ?? rq_originalUrl r ?? rq_url r).
Definition toMethod (r : RequestLike) : string := default "GET" (rq_method r).

Section guard.
(** [JSON.parse] of a payload: its members [sub] and [tenant_id] that are strings. *)
Context (payload : string → option (option string * option string)).
(** Durations are differences of [performance.now()], and [toFixed3] writes one as a header. *)
Context {Duration : Type} (toFixed3 : Duration → string).
Definition drop_bytes (n : nat) (s : string) : string := String.substring n (String.length s) s.
Definition trim (s : string) : string :=
  let fix go (l : list ascii) : list ascii := match l with [] => [] | c :: l' => if blank (String.string_of_list_ascii l) then [] else c :: go l' end in
  String.string_of_list_ascii (go (trim_start (String.length s) (String.list_ascii_of_string s))).
Definition parseStynxAccessToken (authorization : option string) : option (option string * option string) :=
  header ← authorization;
  if negb (starts_with "Bearer " header) then None else
  match split_on "." (trim (drop_bytes 7 header)) with
  | _ :: part :: _ => payload (base64url_decode part)
  | _ => None
  end.
Definition toUserId (r : RequestLike) : option string :=
  rq_principal r ?? rq_actor r ?? rq_user r ?? (rq_claims r ≫= fst) ?? (parseStynxAccessToken (rq_authorization r) ≫= fst).
Definition toTenantId (r : RequestLike) : option string :=
  rq_tenantId r ?? (rq_claims r ≫= snd) ?? (parseStynxAccessToken (rq_authorization r) ≫= snd).
Definition bucketKey (bucket : RateLimitBucket) (scope : string) (r : RequestLike) (method path : string) (tenantId userId : option string) : string :=
  match bucket with
  | bucket_ip => scope +:+ ":ip:" +:+ default "unknown" (rq_ip r)
  | bucket_tenant => scope +:+ ":tenant:" +:+ default "public" tenantId
  | bucket_user => scope +:+ ":user:" +:+ default "anonymous" userId
  | bucket_route => scope +:+ ":route:" +:+ default "public" tenantId +:+ ":" +:+ method +:+ ":" +:+ path
  end.
Definition buildDecisionContext (r : RequestLike) (resolved : ResolvedRateLimitPolicy) : RateLimitDecisionContext :=
  let tenantId := toTenantId r in
  let userId := toUserId r in
  {| dc_bucketKey := bucketKey (rp_bucket resolved) (rp_scope resolved) r (toMethod r) (toPath r) tenantId userId;
     dc_tenantId := nonempty tenantId; dc_userId := nonempty userId; dc_ttlMs := rp_windowSeconds resolved * 1000;
     dc_scope := rp_scope resolved; dc_cost := rp_cost resolved; dc_limit := rp_limit resolved; dc_bucket := rp_bucket resolved |}.
Definition isHealthCheckRequest (options : GuardOptions) (r : RequestLike) : bool :=
  existsb (λ p, starts_with p (toPath r)) (default ["/api/v1/system/health"] (go_healthCheckPathPrefixes options)).

(** An exception of the framework passes; any other answer of the store is none. *)
Definition tryConsumeDistributed (answer : option (outcome RateError RateLimitDecision)) : outcome RateError (option RateLimitDecision) :=
  match answer with
  | None => Ok None
  | Some (Ok d) => Ok (Some d)
  | Some (Throw ServiceUnavailableException) => Throw ServiceUnavailableException
  | Some (Throw TooManyRequests) => Throw TooManyRequests
  | Some (Throw _) => Ok None
  end.
(** The headers that tell the limit. *)
Definition applyHeaders (r : RequestLike) (d : RateLimitDecision) : list (string * string) :=
  if negb (rq_response r) then []
  else [("X-RateLimit-Limit", pretty (rd_limit d)); ("X-RateLimit-Remaining", pretty (rd_remaining d));
        ("X-RateLimit-Reset", pretty (ceil_seconds (rd_resetAtEpochMs d)))]
       ++ (if rd_allowed d then [] else [("Retry-After", pretty (rd_retryAfterSeconds d))]).
Definition applyOverheadHeader (r : RequestLike) (duration : Duration) : list (string * string) :=
  if rq_response r then [("X-Stynx-RateLimit-Overhead-Ms", toFixed3 duration)] else [].

(** [InMemoryRateLimitMetrics]; its percentiles and histograms only read the latencies. *)
Record RateLimitMetrics := { blocked : gmap string Z; latencies : gmap string (list Duration) }.
Definition incrementBlocked (scope : string) (m : RateLimitMetrics) : RateLimitMetrics :=
  {| blocked := <[scope := default 0 (blocked m !! scope) + 1]> (blocked m); latencies := latencies m |}.
Definition recordLatency (scope : string) (elapsed : Duration) (m : RateLimitMetrics) : RateLimitMetrics :=
  {| blocked := blocked m; latencies := <[scope := default [] (latencies m !! scope) ++ [elapsed]]> (latencies m) |}.

(** What the guard hands to its store, if it asks it. [resolver]: the policy resolver, [None] without one. *)
Definition consults (options : GuardOptions) (systemRoute : bool) (metadata : option RateLimitMetadata)
    (resolver : option (RequestLike → RateLimitMetadata → outcome RateError ResolvedRateLimitPolicy)) (r : RequestLike) :
    outcome RateError (option RateLimitDecisionContext) :=
  if systemRoute || isHealthCheckRequest options r then Ok None
  else match metadata, resolver with
       | Some metadata, Some resolver => resolved ← resolver r metadata; Ok (Some (buildDecisionContext r resolved))
       | _, _ => Ok None
       end.
(** [store]: the answer of the store to a context, [None] without one; [elapsed] is how long it took. *)
Definition canActivate (options : GuardOptions) (systemRoute : bool) (metadata : option RateLimitMetadata)
    (resolver : option (RequestLike → RateLimitMetadata → outcome RateError ResolvedRateLimitPolicy))
    (store : option (RateLimitDecisionContext → outcome RateError RateLimitDecision)) (elapsed : Duration) (r : RequestLike)
    (metrics : option RateLimitMetrics) : outcome RateError bool * list (string * string) * option RateLimitMetrics :=
  match consults options systemRoute metadata resolver r with
  | Throw e => (Throw e, [], metrics)
  | Ok None => (Ok true, [], metrics)
  | Ok (Some c) =>
      match tryConsumeDistributed ((λ s, s c) <$> store) with
      | Throw e => (Throw e, [], metrics)
      | Ok decision =>
          let metrics := recordLatency (dc_scope c) elapsed <$> metrics in
          match decision with
          | None => (if go_distributedStrict options then Throw ServiceUnavailableException else Ok true, [], metrics)
          | Some d =>
              let headers := applyHeaders r d ++ applyOverheadHeader r elapsed in
              if rd_allowed d then (Ok true, headers, metrics)
              else (Throw TooManyRequests, headers, incrementBlocked (dc_scope c) <$> metrics)
          end
      end
  end.
End guard.
