(* ===== verification/RateLimitClaims.v ===== *)
(** * RateLimitClaims: the script of the Redis store is a sliding log, and what the stores bound.

    [reference] keeps every admitted request and counts those of the last window. The script answers
    what it answers, when members differ and the clocks agree to within a window. *)
From Stdlib Require Import Ascii.
From stdpp Require Import pretty sorting.
From S2P Require Import Prelude JsText JsDate JsCursor RateLimit.
Local Open Scope Z_scope.

(** ** The sliding log *)

(** A member with its time and its cost, the newest first. *)
Record Entry := { en_member : string; en_at : Z; en_cost : Z }.
Definition live (after : Z) (log : list Entry) : list Entry := filter (λ x, after < en_at x) log.
Definition used_of (log : list Entry) : Z := foldr (λ x s, en_cost x + s) 0 log.
Definition earliest (log : list Entry) : option Z :=
  foldr (λ x o, Some (match o with Some u => Z.min (en_at x) u | None => en_at x end)) None log.

Record Call := { ca_now : Z; ca_redisNow : Z; ca_limit : Z; ca_cost : Z; ca_member : string }.
Definition reference (windowMs : Z) (c : Call) (log : list Entry) : RateLimitDecision * list Entry :=
  let window := live (ca_now c - windowMs) log in
  let used := used_of window in
  let answer allowed used window :=
    let resetAt := match earliest window with Some t => t + windowMs | None => ca_now c + windowMs end in
    {| rd_allowed := allowed; rd_limit := ca_limit c; rd_remaining := Z.max (ca_limit c - used) 0; rd_resetAtEpochMs := resetAt;
       rd_retryAfterSeconds := retry_after (resetAt - ca_now c); rd_used := used |} in
  let entry := {| en_member := ca_member c; en_at := ca_now c; en_cost := ca_cost c |} in
  if used + ca_cost c <=? ca_limit c
  then (answer true (used + ca_cost c) (entry :: window), entry :: log)
  else (answer false used window, log).
Fixpoint run_reference (windowMs : Z) (calls : list Call) (log : list Entry) : list RateLimitDecision * list Entry :=
  match calls with
  | [] => ([], log)
  | c :: calls => let '(d, log1) := reference windowMs c log in let '(ds, log2) := run_reference windowMs calls log1 in (d :: ds, log2)
  end.
Definition script (max_unpack : nat) (windowMs : Z) (c : Call) (w : Window) : outcome RateError RateLimitDecision * Window :=
  SLIDING_WINDOW_LUA max_unpack (ca_now c) windowMs (ca_limit c) (ca_cost c) (ca_member c) (ca_redisNow c) w.
Fixpoint run_script (max_unpack : nat) (windowMs : Z) (calls : list Call) (w : Window) : list (outcome RateError RateLimitDecision) * Window :=
  match calls with
  | [] => ([], w)
  | c :: calls => let '(d, w1) := script max_unpack windowMs c w in let '(ds, w2) := run_script max_unpack windowMs calls w1 in (d :: ds, w2)
  end.

(** ** Logs as keys of Redis *)

Definition times (log : list Entry) : gmap string Z := list_to_map ((λ x, (en_member x, en_at x)) <$> log).
Definition costs (log : list Entry) : gmap string Z := list_to_map ((λ x, (en_member x, en_cost x)) <$> log).
Definition members (log : list Entry) : list string := en_member <$> log.

Lemma times_some log m t : NoDup (members log) → times log !! m = Some t ↔ ∃ x, x ∈ log ∧ en_member x = m ∧ en_at x = t.
Proof.
  intros Hnd. unfold times. rewrite <- elem_of_list_to_map.
  - rewrite list_elem_of_fmap. split; [intros (x & [= -> ->] & ?); by exists x|intros (x & ? & <- & <-); by exists x].
  - rewrite <- list_fmap_compose. exact Hnd.
Qed.
Lemma costs_some log m c : NoDup (members log) → costs log !! m = Some c ↔ ∃ x, x ∈ log ∧ en_member x = m ∧ en_cost x = c.
Proof.
  intros Hnd. unfold costs. rewrite <- elem_of_list_to_map.
  - rewrite list_elem_of_fmap. split; [intros (x & [= -> ->] & ?); by exists x|intros (x & ? & <- & <-); by exists x].
  - rewrite <- list_fmap_compose. exact Hnd.
Qed.
Lemma member_same log x y : NoDup (members log) → x ∈ log → y ∈ log → en_member x = en_member y → x = y.
Proof.
  intros Hnd [n Hn]%list_elem_of_lookup [k Hk]%list_elem_of_lookup Heq.
  assert (n = k) as ->; [|congruence]. eapply NoDup_lookup; [exact Hnd| |]; unfold members; rewrite list_lookup_fmap; [by rewrite Hn|by rewrite Hk; simpl; rewrite Heq].
Qed.
Lemma members_filter (P : Entry → Prop) `{∀ x, Decision (P x)} log : NoDup (members log) → NoDup (members (filter P log)).
Proof. intros Hnd. eapply sublist_NoDup; [exact Hnd|]. apply fmap_sublist, sublist_filter. Qed.

Lemma sum_costs log : NoDup (members log) → sum_of (costs log) = used_of log.
Proof.
  induction log as [|x log IH]; intros Hnd; [done|]. apply NoDup_cons in Hnd as [Hx Hnd]. unfold costs. csimpl. unfold sum_of.
  rewrite map_fold_insert_L; [|intros; lia|].
  - rewrite <- IH by done. done.
  - apply not_elem_of_list_to_map. by rewrite <- list_fmap_compose.
Qed.
Lemma oldest_times log : NoDup (members log) → oldest (times log) = earliest log.
Proof.
  induction log as [|x log IH]; intros Hnd; [done|]. apply NoDup_cons in Hnd as [Hx Hnd]. unfold times. csimpl. unfold oldest.
  rewrite map_fold_insert_L.
  - rewrite <- IH by done. done.
  - intros j1 j2 z1 z2 [y|] _ _ _; f_equal; lia.
  - apply not_elem_of_list_to_map. by rewrite <- list_fmap_compose.
Qed.
Lemma kept_times b log : NoDup (members log) → kept_at b (times log) = times (live b log).
Proof.
  intros Hnd. apply map_eq. intros m. apply option_eq. intros t. unfold kept_at. rewrite map_lookup_filter_Some.
  rewrite !times_some by (try apply members_filter; done). unfold live. setoid_rewrite list_elem_of_filter. simpl. naive_solver.
Qed.
Lemma expired_times b log : NoDup (members log) → expired_at b (times log) = times (filter (λ x, en_at x ≤ b) log).
Proof.
  intros Hnd. apply map_eq. intros m. apply option_eq. intros t. unfold expired_at. rewrite map_lookup_filter_Some.
  rewrite !times_some by (try apply members_filter; done). setoid_rewrite list_elem_of_filter. simpl. naive_solver.
Qed.
Lemma expired_weights b log : NoDup (members log) →
  weights_of (times (filter (λ x, en_at x ≤ b) log)) (costs log) = costs (filter (λ x, en_at x ≤ b) log).
Proof.
  intros Hnd. pose proof (members_filter (λ x, en_at x ≤ b) log Hnd) as Hnd'. apply map_eq. intros m. apply option_eq. intros c.
  unfold weights_of. rewrite map_lookup_imap, costs_some by done. split.
  - intros Hs. destruct (times _ !! m) as [t|] eqn:Ht; [|done]. apply times_some in Ht as (x & Hx & <- & _); [|done]. simpl in Hs.
    injection Hs as <-. exists x. split; [done|]. split; [done|]. apply list_elem_of_filter in Hx as [_ Hx].
    by erewrite (proj2 (costs_some log _ _ Hnd)) by eauto.
  - intros (x & Hx & <- & <-). erewrite (proj2 (times_some _ _ _ Hnd')) by eauto. simpl.
    apply list_elem_of_filter in Hx as [_ Hx]. by erewrite (proj2 (costs_some log _ _ Hnd)) by eauto.
Qed.
Lemma kept_weights b log : NoDup (members log) →
  filter (λ p, times (filter (λ x, en_at x ≤ b) log) !! p.1 = None) (costs log) = costs (live b log).
Proof.
  intros Hnd. pose proof (members_filter (λ x, en_at x ≤ b) log Hnd) as Hnd'. apply map_eq. intros m. apply option_eq. intros c.
  rewrite map_lookup_filter_Some, !costs_some by (try apply members_filter; done). unfold live. setoid_rewrite list_elem_of_filter. simpl. split.
  - intros [(x & Hx & <- & <-) Hn]. exists x. split; [|done]. split; [|done]. apply Znot_ge_lt. intros Hge.
    assert (times (filter (λ x, en_at x ≤ b) log) !! en_member x = Some (en_at x)); [|congruence]. apply times_some; [done|]. exists x.
    split; [|done]. apply list_elem_of_filter. split; [lia|done].
  - intros (x & [Hb Hx] & <- & <-). split; [by exists x|]. apply eq_None_not_Some. intros [t (y & Hy & Hm & _)%times_some]; [|done].
    apply list_elem_of_filter in Hy as [Hle Hy]. assert (y = x) as -> by (by apply (member_same log)). lia.
Qed.
Lemma used_split b log : used_of (filter (λ x, en_at x ≤ b) log) + used_of (live b log) = used_of log.
Proof.
  unfold live. induction log as [|x log IH]; [done|]. rewrite !filter_cons. cbn [used_of foldr]. fold (used_of log).
  destruct (decide (en_at x ≤ b)), (decide (b < en_at x)); try lia; cbn [used_of foldr]; fold (used_of (filter (λ x, en_at x ≤ b) log));
    fold (used_of (filter (λ x, b < en_at x) log)); lia.
Qed.
Lemma live_live a b log : a ≤ b → live b (live a log) = live b log.
Proof.
  intros Hab. unfold live. rewrite list_filter_filter. apply filter_ext_elem. intros x _. lia.
Qed.
Lemma used_count log : Forall (λ x, 0 < en_cost x) log → Z.of_nat (length log) ≤ used_of log.
Proof. induction 1; simpl; [lia|]. fold (used_of l). lia. Qed.
Lemma live_length a b log : a ≤ b → (length (live b log) ≤ length (live a log))%nat.
Proof. intros Hab. rewrite <- (live_live a b) by done. apply length_filter. Qed.

(** ** The script against the log *)

(** The keys hold the entries after [b]. *)
Definition holds (b : Z) (w : Window) (log : list Entry) : Prop :=
  events w = times (live b log) ∧ weights w = costs (live b log) ∧ total w = used_of (live b log).
(** What two calls in this order need: time does not go back, and keys that Redis let expire hold nothing of
    the window any more. *)
Definition well_timed (windowMs : Z) (c1 c2 : Call) : Prop :=
  ca_now c1 ≤ ca_now c2 ∧ (ca_redisNow c1 + Z.max (windowMs * 2) 1000 ≤ ca_redisNow c2 → ca_now c1 ≤ ca_now c2 - windowMs).
(** What a state needs for a call to come. *)
Definition ready (windowMs : Z) (b : Z) (w : Window) (log : list Entry) (c : Call) : Prop :=
  b ≤ ca_now c - windowMs ∧ (expiresAt w ≤ ca_redisNow c → Forall (λ x, en_at x ≤ ca_now c - windowMs) log) ∧
  ca_member c ∉ members log ∧ Forall (λ x, en_at x ≤ ca_now c) log.
Definition legal (log : list Entry) : Prop := NoDup (members log) ∧ Forall (λ x, 0 < en_cost x) log.

Lemma Forall_kept {A} (P Q : A → Prop) `{∀ x, Decision (Q x)} l : Forall P l → Forall P (filter Q l).
Proof. rewrite !Forall_forall. intros Hl x [_ Hx]%list_elem_of_filter. auto. Qed.
Lemma live_nil b log : Forall (λ x, en_at x ≤ b) log → live b log = [].
Proof. unfold live. induction 1; [done|]. rewrite filter_cons_False by lia. done. Qed.
Lemma size_times log : (size (times log) ≤ length log)%nat.
Proof.
  unfold times. induction log as [|x log IH]; csimpl; [by rewrite map_size_empty|].
  etrans; [|apply le_n_S, IH]. rewrite map_size_insert. destruct (list_to_map _ !! _); simpl; lia.
Qed.
Lemma alive_holds windowMs b w log c : holds b w log → ready windowMs b w log c →
  ∃ b', b' ≤ ca_now c - windowMs ∧ holds b' (alive (ca_redisNow c) w) log ∧ (length (live b' log) ≤ length (live b log))%nat.
Proof.
  intros Hh (Hb & He & _). unfold alive. case_match eqn:Hx; [|by exists b]. exists (ca_now c - windowMs). split; [done|].
  unfold holds. rewrite (live_nil _ log) by (apply He; lia). split; [done|simpl; lia].
Qed.

(** What the script leaves after it has dropped the entries that expired. *)
Lemma cleaned_holds b b' w log : legal log → b ≤ b' → holds b w log →
  let expired := expired_at b' (events w) in
  let removed := sum_of (weights_of expired (weights w)) in
  (size expired ≤ length (live b log))%nat ∧ kept_at b' (events w) = times (live b' log) ∧
  filter (λ p, expired !! p.1 = None) (weights w) = costs (live b' log) ∧
  (if 0 <? removed then total w - removed else total w) = used_of (live b' log).
Proof.
  intros [Hnd Hc] Hb (-> & -> & ->). pose proof (members_filter (λ x, b < en_at x) log Hnd) as Hnd'. fold (live b log) in Hnd'. simpl.
  rewrite expired_times, kept_times, expired_weights, kept_weights, live_live by done.
  assert (Forall (λ x, 0 < en_cost x) (filter (λ x, en_at x ≤ b') (live b log))) as Hpos by (by do 2 apply Forall_kept).
  rewrite sum_costs by (by apply members_filter). pose proof (used_split b' (live b log)) as Hs. rewrite live_live in Hs by done.
  apply used_count in Hpos. split; [|split; [done|split; [done|case_match; lia]]].
  etrans; [apply size_times|]. apply length_filter.
Qed.

Lemma script_answers n windowMs c b w log : 0 < windowMs → (length (live b log) ≤ n)%nat → legal log → holds b w log →
  ready windowMs b w log c →
  ∃ w', script n windowMs c w = (Ok (reference windowMs c log).1, w') ∧ holds (ca_now c - windowMs) w' (reference windowMs c log).2 ∧
    (expiresAt w' = ca_redisNow c + Z.max (windowMs * 2) 1000 ∨
     (reference windowMs c log).2 = log ∧ expiresAt w' = expiresAt (alive (ca_redisNow c) w)).
Proof.
  intros HW Hn Hl Hh Hr. destruct (alive_holds _ _ _ _ _ Hh Hr) as (b1 & Hb1 & H1 & Hlen).
  destruct (cleaned_holds _ _ _ _ Hl Hb1 H1) as (Hs & He & Hw & Ht). unfold script, SLIDING_WINDOW_LUA, reference. cbv zeta.
  rewrite (proj2 (Nat.ltb_ge _ _)) by lia. cbn [events weights total expiresAt]. rewrite He, Hw, Ht. clear He Hw Ht Hs.
  set (K := live (ca_now c - windowMs) log). assert (NoDup (members K)) as HK by (apply members_filter, Hl).
  assert (ca_member c ∉ members K) as Hm.
  { destruct Hr as (_ & _ & Hm & _). contradict Hm. unfold members in *. apply list_elem_of_fmap in Hm as (x & -> & [_ Hx]%list_elem_of_filter).
    by apply list_elem_of_fmap_2. }
  unfold reset_at. case_match eqn:Hlim.
  - rewrite (proj2 (Z.leb_gt _ _)) by lia. rewrite oldest_times by done. eexists. split; [done|]. split; [done|]. by right.
  - rewrite (proj2 (Z.leb_le _ _)) by lia. set (e := {| en_member := ca_member c; en_at := ca_now c; en_cost := ca_cost c |}).
    assert (<[ca_member c := ca_now c]> (times K) = times (e :: K)) as -> by done.
    rewrite oldest_times by by constructor. eexists. split; [done|]. split; [|by left].
    assert (live (ca_now c - windowMs) (e :: log) = e :: K) as Hk.
    { unfold live. rewrite filter_cons, decide_True by (simpl; lia). done. }
    unfold holds. cbn [events weights total snd]. rewrite Hk. split; [done|]. split; [done|].
    simpl. fold (used_of K). lia.
Qed.
Lemma reference_keeps windowMs c log : 0 < ca_cost c → legal log → ca_member c ∉ members log → legal (reference windowMs c log).2.
Proof. intros Hc [Hnd Hp] Hm. unfold reference. cbv zeta. case_match; [|done]. split; constructor; done. Qed.
Lemma reference_short n windowMs b c log : 0 < windowMs → 0 < ca_cost c → ca_limit c ≤ Z.of_nat n → legal log → b ≤ ca_now c - windowMs →
  (length (live b log) ≤ n)%nat → (length (live (ca_now c - windowMs) (reference windowMs c log).2) ≤ n)%nat.
Proof.
  intros HW Hc Hl [_ Hp] Hb Hn. unfold reference. cbv zeta. case_match eqn:Hok; simpl.
  - apply Z.leb_le in Hok. unfold live. rewrite filter_cons, decide_True by (simpl; lia). fold (live (ca_now c - windowMs) log). simpl.
    assert (Z.of_nat (length (live (ca_now c - windowMs) log)) ≤ used_of (live (ca_now c - windowMs) log)); [|lia].
    apply used_count. by apply Forall_kept.
  - etrans; [by apply (live_length b)|done].
Qed.
Lemma reference_grows windowMs c log : (reference windowMs c log).2 = log ∨
  (reference windowMs c log).2 = {| en_member := ca_member c; en_at := ca_now c; en_cost := ca_cost c |} :: log.
Proof. unfold reference. cbv zeta. case_match; auto. Qed.
Lemma ready_next windowMs b w log c c2 w' : ready windowMs b w log c → ready windowMs b w log c2 → well_timed windowMs c c2 →
  ca_member c ≠ ca_member c2 →
  (expiresAt w' = ca_redisNow c + Z.max (windowMs * 2) 1000 ∨
   (reference windowMs c log).2 = log ∧ expiresAt w' = expiresAt (alive (ca_redisNow c) w)) →
  ready windowMs (ca_now c - windowMs) w' (reference windowMs c log).2 c2.
Proof.
  intros (Hb & He & Hm & Hf) (Hb2 & He2 & Hm2 & Hf2) [Hle Hx] Hne Hw.
  assert (Forall (λ x, en_at x ≤ ca_now c) (reference windowMs c log).2) as Hall.
  { destruct (reference_grows windowMs c log) as [->| ->]; [done|]. by constructor. }
  split; [lia|]. split; [|split].
  - intros Hexp. destruct Hw as [Hw|[-> Hw]].
    + eapply Forall_impl; [exact Hall|]. simpl. lia.
    + unfold alive in Hw. case_match; [|apply He2; lia]. eapply Forall_impl; [apply He; lia|]. simpl. lia.
  - destruct (reference_grows windowMs c log) as [->| ->]; [done|]. unfold members. csimpl. apply not_elem_of_cons. split; [done|exact Hm2].
  - eapply Forall_impl; [exact Hall|]. simpl. lia.
Qed.

Lemma script_runs_log n windowMs calls : ∀ b w log,
  0 < windowMs → Forall (λ c, 0 < ca_cost c ∧ ca_limit c ≤ Z.of_nat n) calls → NoDup (ca_member <$> calls) →
  StronglySorted (well_timed windowMs) calls → (length (live b log) ≤ n)%nat → legal log → holds b w log → Forall (ready windowMs b w log) calls →
  (run_script n windowMs calls w).1 = Ok <$> (run_reference windowMs calls log).1.
Proof.
  induction calls as [|c calls IH]; intros b w log HW Hc Hnd Hs Hn Hl Hh Hr; [done|].
  apply Forall_cons in Hc as [[Hc Hlim] Hcs]. apply NoDup_cons in Hnd as [Hni Hnd]. apply StronglySorted_inv in Hs as [Hs Hall].
  apply Forall_cons in Hr as [Hr Hrs]. destruct (script_answers n windowMs c b w log) as (w' & Hrun & Hh' & Hw'); [done..|].
  specialize (IH (ca_now c - windowMs) w' (reference windowMs c log).2). cbn [run_script run_reference]. rewrite Hrun.
  destruct (reference windowMs c log) as [d log'] eqn:Href. cbn [fst snd] in *.
  assert (log' = (reference windowMs c log).2) as Hlog by by rewrite Href.
  destruct (run_script n windowMs calls w') as [ds w2], (run_reference windowMs calls log') as [es log2]. cbn [fst snd] in *. csimpl. f_equal.
  apply IH; [done|done|done|done| |rewrite Hlog; apply reference_keeps; [done|done|apply Hr]|done|].
  - rewrite Hlog. eapply reference_short; [done|done|done|done|apply Hr|done].
  - rewrite Forall_forall in *. intros c2 Hc2. rewrite Hlog. eapply ready_next; eauto; [|by rewrite Href].
    intros Heq. apply Hni. rewrite Heq. by apply list_elem_of_fmap_2.
Qed.

(** ** What is admitted *)

(** The calls that were allowed, and the cost of those in a span of time. *)
Definition granted (calls : list Call) (ds : list (outcome RateError RateLimitDecision)) : list Call :=
  omap (λ '(c, d), match d with Ok d => if rd_allowed d then Some c else None | Throw _ => None end) (zip calls ds).
Definition cost_within (after until : Z) (calls : list Call) : Z :=
  foldr (λ c s, (if decide (after < ca_now c ≤ until) then ca_cost c else 0) + s) 0 calls.

(** Every entry was in the limit with those before it that were in its window. *)
Fixpoint bounded (windowMs limit : Z) (log : list Entry) : Prop :=
  match log with
  | [] => True
  | x :: log => en_cost x + used_of (live (en_at x - windowMs) log) ≤ limit ∧ Forall (λ y, en_at y ≤ en_at x) log ∧ bounded windowMs limit log
  end.
Definition used_within (after until : Z) (log : list Entry) : Z := used_of (filter (λ x, after < en_at x ∧ en_at x ≤ until) log).

Lemma used_mono (P Q : Entry → Prop) `{∀ x, Decision (P x)} `{∀ x, Decision (Q x)} log :
  Forall (λ x, 0 ≤ en_cost x) log → (∀ x, P x → Q x) → used_of (filter P log) ≤ used_of (filter Q log).
Proof.
  intros Hc HPQ. induction Hc as [|x log Hx Hc IH]; [done|]. rewrite !filter_cons.
  destruct (decide (P x)) as [Hp|], (decide (Q x)); simpl; fold (used_of (filter P log)) (used_of (filter Q log)); try lia.
  by apply HPQ in Hp.
Qed.
Lemma bounded_within windowMs limit log x : 0 ≤ limit → Forall (λ e, 0 ≤ en_cost e) log → bounded windowMs limit log →
  used_within (x - windowMs) x log ≤ limit.
Proof.
  intros Hlim. unfold used_within. induction log as [|e log IH]; intros Hc Hb; [done|].
  apply Forall_cons in Hc as [He Hc]. destruct Hb as (Hsum & Hle & Hb). rewrite filter_cons. case_decide as Hin; [|by apply IH].
  simpl. fold (used_of (filter (λ y, x - windowMs < en_at y ∧ en_at y ≤ x) log)). etrans; [|exact Hsum].
  apply Z.add_le_mono_l. apply used_mono; [done|]. intros y. lia.
Qed.
Lemma reference_bounded windowMs limit c log : ca_limit c ≤ limit → Forall (λ x, en_at x ≤ ca_now c) log → bounded windowMs limit log →
  bounded windowMs limit (reference windowMs c log).2.
Proof.
  intros Hl Hle Hb. unfold reference. cbv zeta. case_match eqn:Hok; [|done]. apply Z.leb_le in Hok. simpl.
  split; [lia|]. split; [exact Hle|exact Hb].
Qed.
Lemma run_bounded windowMs limit calls : ∀ log, Forall (λ c, ca_limit c ≤ limit) calls → StronglySorted (well_timed windowMs) calls →
  Forall (λ c, Forall (λ x, en_at x ≤ ca_now c) log) calls → bounded windowMs limit log →
  bounded windowMs limit (run_reference windowMs calls log).2.
Proof.
  induction calls as [|c calls IH]; intros log Hl Hs Hle Hb; [done|]. apply Forall_cons in Hl as [Hl Hls].
  apply StronglySorted_inv in Hs as [Hs Hall]. apply Forall_cons in Hle as [Hle Hles]. simpl.
  pose proof (reference_bounded windowMs limit c log Hl Hle Hb) as Hb1. pose proof (reference_grows windowMs c log) as Hg.
  destruct (reference windowMs c log) as [d log1]. cbn [snd] in *. specialize (IH log1 Hls Hs).
  destruct (run_reference windowMs calls log1) as [ds log2]. apply IH; [|done].
  rewrite Forall_forall in *. intros c2 Hc2. specialize (Hall c2 Hc2) as [Hnow _]. destruct Hg as [->| ->]; [by apply Hles|].
  constructor; [exact Hnow|by apply Hles].
Qed.
Lemma run_granted windowMs calls after until : ∀ log,
  used_within after until (run_reference windowMs calls log).2
  = cost_within after until (granted calls (Ok <$> (run_reference windowMs calls log).1)) + used_within after until log.
Proof.
  induction calls as [|c calls IH]; intros log; [done|]. specialize (IH (reference windowMs c log).2). simpl.
  assert (used_within after until (reference windowMs c log).2
          = (if rd_allowed (reference windowMs c log).1 then if decide (after < ca_now c ≤ until) then ca_cost c else 0 else 0)
            + used_within after until log) as Hone.
  { unfold reference. cbv zeta. case_match; simpl; [|done]. unfold used_within. rewrite filter_cons. simpl. by case_decide. }
  destruct (reference windowMs c log) as [d log1]. cbn [fst snd] in *.
  destruct (run_reference windowMs calls log1) as [ds log2]. cbn [fst snd] in *. rewrite IH, Hone. unfold granted. csimpl.
  destruct (rd_allowed d); csimpl; fold (granted calls (Ok <$> ds)); [|lia]. fold (cost_within after until (granted calls (Ok <$> ds))). lia.
Qed.
Lemma run_costs windowMs calls : ∀ log, Forall (λ c, 0 ≤ ca_cost c) calls → Forall (λ x, 0 ≤ en_cost x) log →
  Forall (λ x, 0 ≤ en_cost x) (run_reference windowMs calls log).2.
Proof.
  induction calls as [|c calls IH]; intros log Hc Hl; [done|]. apply Forall_cons in Hc as [Hc Hcs]. simpl.
  pose proof (reference_grows windowMs c log) as Hg. destruct (reference windowMs c log) as [d log1]. cbn [snd] in Hg.
  specialize (IH log1 Hcs). destruct (run_reference windowMs calls log1) as [ds log2]. apply IH. destruct Hg as [->| ->]; [done|].
  by constructor.
Qed.

(** Calls of the script on the keys of one bucket, whose members differ, against the log of what was admitted. *)
Lemma script_is_sliding_log n windowMs calls :
  0 < windowMs → Forall (λ c, 0 < ca_cost c ∧ ca_limit c ≤ Z.of_nat n) calls → NoDup (ca_member <$> calls) →
  StronglySorted (well_timed windowMs) calls →
  let answers := (run_script n windowMs calls no_window).1 in
  answers = Ok <$> (run_reference windowMs calls []).1 ∧
  ∀ limit, 0 ≤ limit → Forall (λ c, ca_limit c ≤ limit) calls →
    ∀ x, cost_within (x - windowMs) x (granted calls answers) ≤ limit.
Proof.
  intros HW Hc Hnd Hs answers. assert (answers = Ok <$> (run_reference windowMs calls []).1) as Ha.
  { set (b := default 0 (ca_now <$> head calls) - windowMs). apply (script_runs_log n windowMs calls b); try done.
    - simpl. lia.
    - split; constructor.
    - destruct calls as [|c calls]; [done|]. apply StronglySorted_inv in Hs as [_ Hall]. simpl in b. constructor.
      + repeat split; [unfold b; lia|constructor|apply not_elem_of_nil|constructor].
      + eapply Forall_impl; [exact Hall|]. intros c2 [Hle _].
        repeat split; [unfold b; lia|constructor|apply not_elem_of_nil|constructor]. }
  split; [exact Ha|]. intros limit Hlim Hl x. rewrite Ha.
  pose proof (run_granted windowMs calls (x - windowMs) x []) as Hg. unfold used_within in Hg at 2. simpl in Hg.
  rewrite Z.add_0_r in Hg. rewrite <- Hg. apply bounded_within; [done|apply run_costs; [eapply Forall_impl; [exact Hc|]; simpl; lia|constructor]|].
  apply run_bounded; [done|done| |done]. apply Forall_forall. intros c _. constructor.
Qed.

(** ** The store of a process *)

Lemma pretty_no_colon n : has_char ":"%char (pretty (n : Z)) = false.
Proof.
  assert (∀ y, Ascii.eqb ":"%char (pretty_N_char y) = false) as Hc by (intros y; unfold pretty_N_char; by repeat case_match).
  assert (∀ x s, has_char ":"%char s = false → has_char ":"%char (pretty_N_go x s) = false) as Hgo.
  { intros x. induction (N.lt_wf_0 x) as [x _ IH]. intros s Hs.
    assert (x = 0 ∨ 0 < x)%N as [->|Hx] by lia; [by rewrite pretty_N_go_0|]. rewrite pretty_N_go_step by done.
    apply IH; [by apply N.div_lt|]. cbn [has_char]. by rewrite Hs, Hc. }
  destruct n as [|p|p]; [done|..]; unfold pretty, pretty_Z, pretty, pretty_positive, pretty, pretty_N;
    rewrite decide_False by done; [by apply Hgo|]. rewrite has_char_app. by rewrite Hgo.
Qed.
Lemma member_of_inj now1 now2 n1 n2 : member_of now1 n1 = member_of now2 n2 → now1 = now2 ∧ n1 = n2.
Proof.
  intros Heq. apply (f_equal (split_on ":"%char)) in Heq. unfold member_of in Heq.
  change (":" +:+ pretty n1) with (String ":"%char (pretty n1)) in Heq. change (":" +:+ pretty n2) with (String ":"%char (pretty n2)) in Heq.
  rewrite !split_on_app, !split_on_single in Heq by apply pretty_no_colon.
  injection Heq as H1%(inj pretty) H2%(inj pretty). done.
Qed.

(** Calls of [consume] by one process, with the two clocks, and those of them on a key. *)
Record Ask := { ak_now : Z; ak_redisNow : Z; ak_context : RateLimitDecisionContext }.
Fixpoint consume_all (max_unpack : nat) (asks : list Ask) (st : RedisStore) (db : gmap string Window) :
    list (outcome RateError RateLimitDecision) :=
  match asks with
  | [] => []
  | a :: asks =>
      let '(r, st, db) := consumeRedis max_unpack (ak_now a) (ak_redisNow a) (ak_context a) st db in
      r :: consume_all max_unpack asks st db
  end.
Section on_key.
Context (prefix : option string) (k : string).
Definition on_key (a : Ask) : bool := String.eqb (baseKey prefix (ak_context a)) k.
Definition answers_on (asks : list Ask) (rs : list (outcome RateError RateLimitDecision)) : list (outcome RateError RateLimitDecision) :=
  omap (λ '(a, r), if on_key a then Some r else None) (zip asks rs).
Fixpoint calls_on (sequence_ : Z) (asks : list Ask) : list Call :=
  match asks with
  | [] => []
  | a :: asks =>
      let rest := calls_on (sequence_ + 1) asks in
      if on_key a
      then {| ca_now := ak_now a; ca_redisNow := ak_redisNow a; ca_limit := dc_limit (ak_context a); ca_cost := dc_cost (ak_context a);
              ca_member := member_of (ak_now a) (sequence_ + 1) |} :: rest
      else rest
  end.

Lemma calls_on_members asks : ∀ n c, c ∈ calls_on n asks → ∃ m, n < m ∧ ca_member c = member_of (ca_now c) m.
Proof using Type.
  induction asks as [|a asks IH]; intros n c Hc; [by apply elem_of_nil in Hc|]. simpl in Hc.
  assert (c ∈ calls_on (n + 1) asks → ∃ m, n < m ∧ ca_member c = member_of (ca_now c) m) as Hrest.
  { intros (m & Hm & ?)%IH. exists m. split; [lia|done]. }
  destruct (on_key a); [|by apply Hrest]. apply elem_of_cons in Hc as [->|Hc]; [|by apply Hrest]. exists (n + 1). split; [lia|done].
Qed.
Lemma calls_on_differ asks : ∀ n, NoDup (ca_member <$> calls_on n asks).
Proof using Type.
  induction asks as [|a asks IH]; intros n; [constructor|]. simpl. destruct (on_key a); [|apply IH]. csimpl. constructor; [|apply IH].
  intros (c & Heq & (m & Hm & Hc)%calls_on_members)%list_elem_of_fmap. simpl in Heq. rewrite Hc in Heq. apply member_of_inj in Heq as [_ ?]. lia.
Qed.
Lemma calls_on_sorted (R : Ask → Ask → Prop) (R' : Call → Call → Prop) :
  (∀ a1 a2 n1 n2, R a1 a2 → ∀ c1 c2, c1 ∈ calls_on n1 [a1] → c2 ∈ calls_on n2 [a2] → R' c1 c2) →
  ∀ asks n, StronglySorted R (List.filter on_key asks) → StronglySorted R' (calls_on n asks).
Proof using Type.
  intros HR. induction asks as [|a asks IH]; intros n Hs; [constructor|]. simpl in *. destruct (on_key a) eqn:Hk; [|by apply IH].
  apply StronglySorted_inv in Hs as [Hs Hall]. constructor; [by apply IH|]. clear Hs IH. revert Hall. generalize (n + 1) at 2 as n'.
  induction asks as [|a2 asks IH]; intros n' Hall; [constructor|]. simpl in *. destruct (on_key a2) eqn:Hk2; [|by apply IH].
  apply Forall_cons in Hall as [H2 Hall]. constructor; [|by apply IH].
  eapply (HR a a2 n n' H2); simpl; rewrite ?Hk, ?Hk2; left.
Qed.
Lemma calls_on_Forall (P : Ask → Prop) (Q : Call → Prop) :
  (∀ a n c, P a → c ∈ calls_on n [a] → Q c) → ∀ asks n, Forall P (List.filter on_key asks) → Forall Q (calls_on n asks).
Proof using Type.
  intros HPQ. induction asks as [|a asks IH]; intros n Hall; [constructor|]. simpl in *. destruct (on_key a) eqn:Hk; [|by apply IH].
  apply Forall_cons in Hall as [Ha Hall]. constructor; [|by apply IH]. eapply (HPQ a n); [done|]. simpl. rewrite Hk. left.
Qed.

Lemma store_runs_script max_unpack windowMs asks : ∀ st db,
  connected st = true → keyPrefix st = prefix → 0 ≤ sequence st → sequence st + Z.of_nat (length asks) < MAX_SAFE_INTEGER →
  Forall (λ a, dc_ttlMs (ak_context a) = windowMs) (List.filter on_key asks) →
  answers_on asks (consume_all max_unpack asks st db)
  = (run_script max_unpack windowMs (calls_on (sequence st) asks) (default no_window (db !! k))).1.
Proof using Type.
  induction asks as [|a asks IH]; intros [conn pre seq] db Hc Hp H0 Hseq Hall; simpl in *; [done|]. subst conn pre. unfold consumeRedis.
  cbn [connected keyPrefix sequence negb]. rewrite Z.mod_small by lia.
  destruct (SLIDING_WINDOW_LUA _ _ _ _ _ _ _ _) as [r w] eqn:Hlua. unfold answers_on. csimpl.
  fold (answers_on asks (consume_all max_unpack asks {| connected := true; keyPrefix := prefix; sequence := seq + 1 |}
                           (<[baseKey prefix (ak_context a) := w]> db))).
  assert (Forall (λ a, dc_ttlMs (ak_context a) = windowMs) (List.filter on_key asks)) as Htail
    by (destruct (on_key a); [by apply Forall_cons in Hall as [_ Hall]|exact Hall]).
  rewrite IH; [|done|done|cbn [sequence]; lia|cbn [sequence]; lia|exact Htail]. cbn [sequence].
  destruct (on_key a) eqn:Hk; unfold on_key in Hk.
  - apply String.eqb_eq in Hk. rewrite Hk in *. apply Forall_cons in Hall as [Hw _]. rewrite lookup_insert_eq.
    cbn [run_script default]. unfold script. cbn [ca_now ca_redisNow ca_limit ca_cost ca_member]. rewrite <- Hw, Hlua, Hw.
    by destruct (run_script _ _ _ _).
  - apply String.eqb_neq in Hk. by rewrite lookup_insert_ne by done.
Qed.
End on_key.

(** The times of two calls of one bucket, as [well_timed]. *)
Definition timed (windowMs : Z) (a1 a2 : Ask) : Prop :=
  ak_now a1 ≤ ak_now a2 ∧ (ak_redisNow a1 + Z.max (windowMs * 2) 1000 ≤ ak_redisNow a2 → ak_now a1 ≤ ak_now a2 - windowMs).

(** C39. The calls of [consume] by a process on one bucket, among its calls on others, answer what a log of all
    admitted requests answers that counts the cost of the last window; and however a window is laid, the cost
    admitted in it is at most the limit. The bucket begins without keys and has one window length, the clock of the
    process does not go back and that of Redis agrees with it to within a window, every call costs something, and no
    limit is beyond the number of values Lua unpacks. *)
Theorem redis_store_is_sliding_log max_unpack windowMs k asks st db :
  let here := List.filter (on_key (keyPrefix st) k) asks in
  let answers := answers_on (keyPrefix st) k asks (consume_all max_unpack asks st db) in
  let calls := calls_on (keyPrefix st) k (sequence st) asks in
  connected st = true → 0 ≤ sequence st → sequence st + Z.of_nat (length asks) < MAX_SAFE_INTEGER → db !! k = None →
  0 < windowMs →
  Forall (λ a, dc_ttlMs (ak_context a) = windowMs ∧ 0 < dc_cost (ak_context a) ∧ dc_limit (ak_context a) ≤ Z.of_nat max_unpack) here →
  StronglySorted (timed windowMs) here →
  answers = Ok <$> (run_reference windowMs calls []).1 ∧
  ∀ limit, 0 ≤ limit → Forall (λ a, dc_limit (ak_context a) ≤ limit) here →
    ∀ x, cost_within (x - windowMs) x (granted calls answers) ≤ limit.
Proof.
  intros here answers calls Hc H0 Hseq Hk HW Hall Hs. subst here answers calls.
  assert (Hstep : ∀ a n c, c ∈ calls_on (keyPrefix st) k n [a] → ca_now c = ak_now a ∧ ca_redisNow c = ak_redisNow a ∧
            ca_cost c = dc_cost (ak_context a) ∧ ca_limit c = dc_limit (ak_context a)).
  { intros a n c. simpl. destruct (on_key _ _ a); [intros ->%list_elem_of_singleton; done|intros []%elem_of_nil]. }
  rewrite (store_runs_script (keyPrefix st) k max_unpack windowMs), Hk; [|done..|eapply Forall_impl; [exact Hall|]; by intros a []].
  destruct (script_is_sliding_log max_unpack windowMs (calls_on (keyPrefix st) k (sequence st) asks)) as [Ha Hb].
  - done.
  - revert Hall. apply calls_on_Forall. intros a n c [_ Hcost] (_ & _ & -> & ->)%Hstep. exact Hcost.
  - apply calls_on_differ.
  - revert Hs. apply calls_on_sorted. intros a1 a2 n1 n2 HR c1 c2 (H1 & H2 & _)%Hstep (H3 & H4 & _)%Hstep. unfold well_timed.
    rewrite H1, H2, H3, H4. exact HR.
  - split; [exact Ha|]. intros limit Hlim Hl. apply Hb; [exact Hlim|]. revert Hl. apply calls_on_Forall.
    intros a n c Hle (_ & _ & _ & ->)%Hstep. exact Hle.
Qed.

(** ** What the limits do not cover *)

(** A script that finds more expired members than Lua unpacks fails and leaves the keys, so the next calls fail
    too, until Redis lets the keys expire; and a guard that is not strict admits them all. *)
Theorem overflow_admits payload {Duration} toFixed3 max_unpack now W limit cost member redisNow w
    options metadata resolver (elapsed : Duration) r metrics c :
  expiresAt w > redisNow → (max_unpack < size (expired_at (now - W) (events w)))%nat →
  go_distributedStrict options = false → consults payload options false metadata resolver r = Ok (Some c) →
  let '(answer, w') := SLIDING_WINDOW_LUA max_unpack now W limit cost member redisNow w in
  w' = w ∧ (canActivate payload toFixed3 options false metadata resolver (Some (λ _, answer)) elapsed r metrics).1.1 = Ok true.
Proof.
  intros Hx Hn Hstrict Hc. unfold SLIDING_WINDOW_LUA, alive. rewrite (proj2 (Z.leb_gt _ _)) by lia.
  rewrite (proj2 (Nat.ltb_lt _ _)) by done. split; [done|]. unfold canActivate. rewrite Hc. simpl. by rewrite Hstrict.
Qed.

Module Example.
Definition of_cost (tenant : option string) (cost : Z) : RateLimitDecisionContext :=
  {| dc_bucketKey := "api:ip:10.0.0.1"; dc_tenantId := tenant; dc_userId := None; dc_ttlMs := 1000; dc_scope := "api"; dc_cost := cost;
     dc_limit := 10; dc_bucket := bucket_ip |}.
Definition started : RedisStore := {| connected := true; keyPrefix := None; sequence := 0 |}.
Definition ask (now cost : Z) : Ask := {| ak_now := now; ak_redisNow := now + 5; ak_context := of_cost None cost |}.
(** Seven and three fill the limit, one more is refused, and later the seven are out of the window. *)
Definition asks : list Ask := [ask 100 7; ask 600 3; ask 1000 1; ask 1100 7; ask 1101 1].
Definition ip_key : string := "stynx:ratelimit:ip:api:api:ip:10.0.0.1".
Lemma asked : map (λ r, match r with Ok d => Some (rd_allowed d, rd_used d, rd_resetAtEpochMs d) | Throw _ => None end)
    (consume_all 100 asks started ∅)
  = [Some (true, 7, 1100); Some (true, 10, 1100); Some (false, 10, 1100); Some (true, 10, 1600); Some (false, 10, 1600)].
Proof. vm_compute. reflexivity. Qed.

Definition admitted_cost : Z :=
  cost_within (1100 - 1000) 1100 (granted (calls_on None ip_key 0 asks) (answers_on None ip_key asks (consume_all 100 asks started ∅))).
Lemma redis_store_is_sliding_log_witness : admitted_cost = 10 ∧ admitted_cost ≤ 10.
Proof.
  assert (List.filter (on_key None ip_key) asks = asks) as Hhere by (vm_compute; reflexivity). split; [vm_compute; reflexivity|].
  refine (proj2 (redis_store_is_sliding_log 100 1000 ip_key asks started ∅ eq_refl _ _ eq_refl _ _ _) 10 _ _ 1100);
    cbn [keyPrefix started]; rewrite ?Hhere; try lia; unfold asks; repeat constructor; simpl; lia.
Defined.

(** Two processes whose calls of one millisecond are the first of each give one member, whose weight leaves the
    counter once: half of it stays after the window has passed. *)
Theorem processes_share_members :
  let '(d1, _, db1) := consumeRedis 100 100 100 (of_cost None 4) started ∅ in
  let '(d2, _, db2) := consumeRedis 100 100 100 (of_cost None 4) started db1 in
  let '(d3, _, db3) := consumeRedis 100 1500 1500 (of_cost None 1) {| connected := true; keyPrefix := None; sequence := 1 |} db2 in
  ((λ d, rd_used d) <$> match d3 with Ok d => Some d | Throw _ => None end) = Some 5 ∧
  sum_of (weights (default no_window (db3 !! ip_key))) = 1.
Proof. vm_compute. split; reflexivity. Qed.

(** The windows of Postgres begin at fixed times: the whole limit is admitted just before the end of one and again
    at the beginning of the next. *)
Theorem pg_windows_are_fixed :
  let '(d1, db1) := consumePg Some 999 (of_cost (Some "t") 10) ∅ in
  let '(d2, db2) := consumePg Some 1000 (of_cost (Some "t") 10) db1 in
  match d1, d2 with Ok d1, Ok d2 => rd_allowed d1 && rd_allowed d2 | _, _ => false end = true.
Proof. vm_compute. reflexivity. Qed.
End Example.

(** Without a tenant the store of Postgres admits every call. *)
Theorem pg_admits_without_tenant uuid_in now c db : dc_tenantId c = None →
  ∃ d, consumePg uuid_in now c db = (Ok d, db) ∧ rd_allowed d = true.
Proof. intros Hc. unfold consumePg. rewrite Hc. by eexists. Qed.
