(* ===== verification/OutboxSelectors.v ===== *)
(** * OutboxSelectors: entity selectors and named destinations.

    The selectors of [outbox/src/outbox.service.ts]: a destination is a set of entities, given by
    names and prefixes, and the registry takes only destinations whose sets are disjoint, so that
    an event has one port. A value the host passes may be of any type: [option] and the
    constructors [.._other] stand for the values of another type. *)
From S2P Require Import Prelude JsMap JsText.

Inductive OutboxError :=
| RangeError
| OutboxNotFoundError
| OutboxEventTransactionError (reason : string)
| OutboxEventConflictError
| OutboxEventNotFailedError
| OutboxRetirementInputError
| OutboxRetirementConflictError (reason : string)
| OutboxAlreadyEnqueuedError
| OutboxAmbiguousAckError (matches_ : nat)
| OutboxLegacyCutoverError
| OutboxCustomTableCutoverUnsupportedError
| OutboxOwnershipContentionError
| AuditChainKeyMismatchError
| SqlError (code : string).

(** ** Selectors *)

Record EntityMatcher := { entities : list string; prefixes : list string }.

Inductive ListInput := li_undefined | li_other | li_list (items : list (option string)).
Inductive SelectorInput := si_undefined | si_other | si_selector (entities prefixes : ListInput).

Definition non_empty (item : option string) : bool := match item with Some s => negb (String.eqb s EmptyString) | None => false end.
Definition list_input (items : ListInput) : outcome OutboxError (list string) :=
  match items with
  | li_undefined => Ok []
  | li_other => Throw RangeError
  | li_list l => if forallb non_empty l then Ok (omap id l) else Throw RangeError
  end.
Definition entityMatcher (value : SelectorInput) (allowEmpty : bool) : outcome OutboxError (option EntityMatcher) :=
  match value with
  | si_undefined => Ok None
  | si_other => Throw RangeError
  | si_selector e p =>
      e ← list_input e; p ← list_input p;
      if negb allowEmpty && (Nat.eqb (length e + length p) 0) then Throw RangeError
      else Ok (Some {| entities := e; prefixes := p |})
  end.

Definition matchesEntity (matcher : EntityMatcher) (entity : string) : bool :=
  existsb (String.eqb entity) (entities matcher) || existsb (λ prefix, starts_with prefix entity) (prefixes matcher).

Definition shared_prefix (left right : list string) : option string :=
  foldr (λ prefix rest,
    match List.find (λ candidate, starts_with prefix candidate || starts_with candidate prefix) right with
    | Some other => Some (if Nat.leb (String.length prefix) (String.length other) then other else prefix)
    | None => rest
    end) None left.
Definition sharedEntity (left right : EntityMatcher) : option string :=
  match List.find (matchesEntity right) (entities left) with
  | Some e => Some e
  | None =>
      match List.find (matchesEntity left) (entities right) with
      | Some e => Some e
      | None => shared_prefix (prefixes left) (prefixes right)
      end
  end.

(** ** The registry *)

Section registry.
Context {Port : Type}.

Record Destination := { ds_name : string; ds_matcher : EntityMatcher; ds_dispatcher : option Port }.
Inductive PortInput := pi_undefined | pi_other | pi_port (p : Port).
Inductive DestinationInput := di_other | di_destination (name : option string) (selector : SelectorInput) (dispatcher : PortInput).

Definition assertCovered (destination : Destination) (dispatchable : EntityMatcher) : bool :=
  forallb (matchesEntity dispatchable) (entities (ds_matcher destination))
  && forallb (λ prefix, existsb (λ covering, starts_with covering prefix) (prefixes dispatchable)) (prefixes (ds_matcher destination)).

Notation Registry := (jsmap string Destination).
Definition clash (registry : Registry) (matcher : EntityMatcher) : bool :=
  existsb (λ other, bool_decide (is_Some (sharedEntity (ds_matcher other) matcher))) (jm_values registry).
Definition add_destination (dispatchable : option EntityMatcher) (registry : Registry) (entry : DestinationInput) :
    outcome OutboxError Registry :=
  match entry with
  | di_other => Throw RangeError
  | di_destination name selector dispatcher =>
      match name with
      | None | Some EmptyString => Throw RangeError
      | Some name =>
          if jm_has name registry then Throw RangeError else
          matcher ← entityMatcher selector false;
          match matcher, dispatcher with
          | None, _ | _, pi_other => Throw RangeError
          | Some matcher, _ =>
              let destination := {| ds_name := name; ds_matcher := matcher;
                                    ds_dispatcher := match dispatcher with pi_port p => Some p | _ => None end |} in
              if clash registry matcher then Throw RangeError
              else if match dispatchable with Some d => negb (assertCovered destination d) | None => false end then Throw RangeError
              else Ok (jm_set name destination registry)
          end
      end
  end.
Fixpoint add_destinations (dispatchable : option EntityMatcher) (registry : Registry) (entries : list DestinationInput) :
    outcome OutboxError Registry :=
  match entries with
  | [] => Ok registry
  | entry :: entries => registry ← add_destination dispatchable registry entry; add_destinations dispatchable registry entries
  end.
(** [None]: no registry was given; [Some None]: it is not a list. *)
Definition destinationRegistry (value : option (option (list DestinationInput))) (dispatchable : option EntityMatcher) :
    outcome OutboxError Registry :=
  match value with
  | None => Ok []
  | Some None => Throw RangeError
  | Some (Some entries) => add_destinations dispatchable [] entries
  end.

Definition hasDestination (dispatchable : option EntityMatcher) (entity : string) : bool :=
  match dispatchable with None => true | Some d => matchesEntity d entity end.
Definition portFor (registry : Registry) (dispatcher : option Port) (entity : string) : option Port :=
  match List.find (λ d, matchesEntity (ds_matcher d) entity) (jm_values registry) with
  | Some d => match ds_dispatcher d with Some p => Some p | None => dispatcher end
  | None => dispatcher
  end.
(** A filter is a selector or the name of a destination. *)
Inductive FilterInput := fi_selector (s : SelectorInput) | fi_destination (name : option string).
Definition dispatchMatcher (registry : Registry) (filter : FilterInput) : outcome OutboxError (option EntityMatcher) :=
  match filter with
  | fi_selector s => entityMatcher s false
  | fi_destination None | fi_destination (Some EmptyString) => Throw RangeError
  | fi_destination (Some name) =>
      match jm_get name registry with Some d => Ok (Some (ds_matcher d)) | None => Throw RangeError end
  end.
End registry.
Arguments Destination : clear implicits.
Arguments DestinationInput : clear implicits.
Arguments PortInput : clear implicits.

(** ** What the checks decide *)

Lemma prefix_matches p e : starts_with p e = true ↔ ∃ r, e = p +:+ r.
Proof. apply starts_with_spec. Qed.
Lemma matchesEntity_spec m e :
  matchesEntity m e = true ↔ e ∈ entities m ∨ ∃ p, p ∈ prefixes m ∧ starts_with p e = true.
Proof.
  unfold matchesEntity. rewrite orb_true_iff, !existsb_exists. setoid_rewrite <- list_elem_of_In.
  setoid_rewrite String.eqb_eq. naive_solver.
Qed.

Lemma starts_with_refl s : starts_with s s = true.
Proof. apply starts_with_spec. exists EmptyString. induction s as [|c s IH]; [done|]. rewrite str_app_cons. by f_equal. Qed.
Lemma starts_with_trans a b c : starts_with a b = true → starts_with b c = true → starts_with a c = true.
Proof.
  rewrite !starts_with_spec. intros [x ->] [y ->]. exists (x +:+ y). clear. induction a as [|c a IH]; [by rewrite !str_app_nil|]. rewrite !str_app_cons. by f_equal.
Qed.
(** Two prefixes of one text: the shorter is a prefix of the longer. *)
Lemma starts_with_total a b c : starts_with a c = true → starts_with b c = true → starts_with a b = true ∨ starts_with b a = true.
Proof.
  rewrite !starts_with_spec. revert b c. induction a as [|x a IH]; intros b c [r ->] [r' Hr]; [left; by exists b|].
  destruct b as [|y b]; [right; by exists (String x a)|]. rewrite !str_app_cons in Hr. injection Hr as -> Hr.
  destruct (IH b (a +:+ r) (ex_intro _ r eq_refl) (ex_intro _ r' Hr)) as [[z ->]|[z ->]]; [left|right]; exists z; by rewrite str_app_cons.
Qed.
Lemma starts_with_shorter a b : starts_with a b = true → (String.length a ≤ String.length b)%nat.
Proof. rewrite starts_with_spec. intros [r ->]. induction a; rewrite ?str_app_cons; simpl; lia. Qed.
Lemma starts_with_longer a b : starts_with a b = true → (String.length b ≤ String.length a)%nat → a = b.
Proof.
  rewrite starts_with_spec. intros [r ->]. induction a as [|x a IH]; rewrite ?str_app_nil, ?str_app_cons; simpl; intros Hl; [by destruct r; [|simpl in Hl; lia]|].
  f_equal. apply IH. lia.
Qed.

Lemma shared_prefix_spec left right :
  match shared_prefix left right with
  | Some e => ∃ p q, p ∈ left ∧ q ∈ right ∧ starts_with p e = true ∧ starts_with q e = true
  | None => ∀ p q, p ∈ left → q ∈ right → starts_with p q = false ∧ starts_with q p = false
  end.
Proof.
  induction left as [|p left IH]; simpl; [intros p q []%elem_of_nil|].
  destruct (List.find _ right) as [q|] eqn:Hf.
  - apply List.find_some in Hf as [Hq Hs]. apply list_elem_of_In in Hq. exists p, q. split; [by left|]. split; [done|].
    apply orb_true_iff in Hs as [Hs|Hs]; destruct (Nat.leb_spec (String.length p) (String.length q)).
    + split; [done|apply starts_with_refl].
    + pose proof (starts_with_shorter _ _ Hs). lia.
    + pose proof (starts_with_longer _ _ Hs ltac:(lia)) as ->. split; apply starts_with_refl.
    + split; [apply starts_with_refl|done].
  - destruct (shared_prefix left right) as [e|].
    + destruct IH as (p' & q & ? & ? & ?). exists p', q. split; [by right|done].
    + intros p' q [->|Hp]%elem_of_cons Hq; [|by apply IH]. apply list_elem_of_In in Hq.
      pose proof (List.find_none _ _ Hf q Hq) as Hn. by apply orb_false_iff in Hn.
Qed.

(** [sharedEntity] answers with an entity both selectors match, and only when there is none with
    nothing. *)
Lemma sharedEntity_spec left right :
  match sharedEntity left right with
  | Some e => matchesEntity left e = true ∧ matchesEntity right e = true
  | None => ∀ e, matchesEntity left e = true → matchesEntity right e = false
  end.
Proof.
  unfold sharedEntity. destruct (List.find (matchesEntity right) _) as [e|] eqn:H1.
  { apply List.find_some in H1 as [He Hm]. split; [|done]. apply matchesEntity_spec. left. by apply list_elem_of_In. }
  destruct (List.find (matchesEntity left) _) as [e|] eqn:H2.
  { apply List.find_some in H2 as [He Hm]. split; [done|]. apply matchesEntity_spec. left. by apply list_elem_of_In. }
  pose proof (shared_prefix_spec (prefixes left) (prefixes right)) as Hp. destruct (shared_prefix _ _) as [e|].
  { destruct Hp as (p & q & Hpl & Hql & Hpe & Hqe). split; apply matchesEntity_spec; eauto. }
  intros e [He|(p & Hp1 & Hp2)]%matchesEntity_spec.
  { by apply (List.find_none _ _ H1), list_elem_of_In. }
  destruct (matchesEntity right e) eqn:Hr; [|done]. exfalso. apply matchesEntity_spec in Hr as [He|(q & Hq1 & Hq2)].
  - apply list_elem_of_In, (List.find_none _ _ H2) in He. apply not_true_iff_false in He. apply He.
    apply matchesEntity_spec. eauto.
  - destruct (Hp p q Hp1 Hq1), (starts_with_total p q e Hp2 Hq2); congruence.
Qed.

(** ** Registries *)

Section registries.
Context {Port : Type}.
Implicit Types (d : Destination Port) (ds : list (Destination Port)).

Definition disjoint (a b : EntityMatcher) : Prop := ∀ e, matchesEntity a e = true → matchesEntity b e = false.
Lemma disjoint_sharedEntity a b : sharedEntity a b = None ↔ disjoint a b.
Proof.
  pose proof (sharedEntity_spec a b) as Hs. destruct (sharedEntity a b) as [e|]; split; try done.
  intros Hd. destruct Hs as [Ha Hb]. specialize (Hd e Ha). congruence.
Qed.
(** What is covered is dispatchable. *)
Lemma covered_sound d dispatchable e :
  assertCovered d dispatchable = true → matchesEntity (ds_matcher d) e = true → matchesEntity dispatchable e = true.
Proof.
  unfold assertCovered. rewrite andb_true_iff, !forallb_forall. setoid_rewrite <- list_elem_of_In.
  intros [He Hp] [Hin|(p & Hin & Hpe)]%matchesEntity_spec; [by apply He|].
  apply Hp, existsb_exists in Hin as (c & Hc%list_elem_of_In & Hcp). apply matchesEntity_spec. right. exists c.
  split; [done|]. by eapply starts_with_trans.
Qed.

(** A destination as the host writes it. *)
Definition input_of d : DestinationInput Port :=
  di_destination (Some (ds_name d))
    (si_selector (li_list (Some <$> entities (ds_matcher d))) (li_list (Some <$> prefixes (ds_matcher d))))
    (match ds_dispatcher d with Some p => pi_port p | None => pi_undefined end).
Definition proper d : Prop :=
  ds_name d ≠ EmptyString ∧ (∀ s, s ∈ entities (ds_matcher d) ++ prefixes (ds_matcher d) → s ≠ EmptyString) ∧
  entities (ds_matcher d) ++ prefixes (ds_matcher d) ≠ [].
Definition covered (dispatchable : option EntityMatcher) d : Prop :=
  match dispatchable with Some m => assertCovered d m = true | None => True end.
Definition registry_of ds : jsmap string (Destination Port) := (λ d, (ds_name d, d)) <$> ds.

Lemma list_input_some l : (∀ s, s ∈ l → s ≠ EmptyString) → list_input (li_list (Some <$> l)) = Ok l.
Proof.
  intros Hl. unfold list_input. rewrite (proj2 (forallb_forall _ _)).
  - f_equal. induction l as [|s l IH]; [done|]. cbn. f_equal. apply IH. intros x Hx. apply Hl. by right.
  - intros s Hs. apply list_elem_of_In, list_elem_of_fmap in Hs as (x & -> & Hx). simpl. apply negb_true_iff, String.eqb_neq. auto.
Qed.
Lemma entityMatcher_proper d allowEmpty : proper d →
  entityMatcher (si_selector (li_list (Some <$> entities (ds_matcher d))) (li_list (Some <$> prefixes (ds_matcher d)))) allowEmpty
  = Ok (Some (ds_matcher d)).
Proof.
  intros (_ & Hs & Hne). unfold entityMatcher. rewrite !list_input_some by (intros; apply Hs, elem_of_app; auto).
  unfold mbind, outcome_bind. destruct (Nat.eqb_spec (length (entities (ds_matcher d)) + length (prefixes (ds_matcher d))) 0) as [H0|].
  - destruct Hne. rewrite <- length_app in H0. by destruct (_ ++ _).
  - rewrite andb_false_r. by destruct (ds_matcher d).
Qed.
Lemma clash_spec ds m : clash (registry_of ds) m = false ↔ Forall (λ d, disjoint (ds_matcher d) m) ds.
Proof.
  unfold clash, jm_values, registry_of. rewrite <- list_fmap_compose. induction ds as [|d ds IH]; simpl; [by rewrite Forall_nil|].
  rewrite orb_false_iff, IH, Forall_cons, bool_decide_eq_false, <- disjoint_sharedEntity. by rewrite eq_None_not_Some.
Qed.
Lemma jm_set_new {V} k (v : V) (m : jsmap string V) : k ∉ jm_keys m → jm_set k v m = m ++ [(k, v)].
Proof.
  unfold jm_keys. induction m as [|[k' v'] m IH]; simpl; [done|]. rewrite not_elem_of_cons. intros [Hne Hk].
  rewrite decide_False by done. by rewrite IH.
Qed.
Lemma keys_registry_of ds : jm_keys (registry_of ds) = ds_name <$> ds.
Proof. unfold jm_keys, registry_of. by rewrite <- list_fmap_compose. Qed.

Lemma add_destination_proper dispatchable ds d reg : proper d →
  add_destination dispatchable (registry_of ds) (input_of d) = Ok reg ↔
  reg = registry_of (ds ++ [d]) ∧ ds_name d ∉ ds_name <$> ds ∧ Forall (λ d', disjoint (ds_matcher d') (ds_matcher d)) ds ∧ covered dispatchable d.
Proof.
  intros Hp. unfold add_destination, input_of. rewrite entityMatcher_proper by done. destruct Hp as [Hn _].
  destruct (ds_name d) as [|c n] eqn:Hname; [done|]. rewrite <- Hname. unfold jm_has.
  case_bool_decide as Hk.
  { split; [done|]. intros (_ & Hni & _). rewrite <- keys_registry_of in Hni. apply jm_get_None in Hni. rewrite Hni in Hk. by destruct Hk. }
  rewrite <- eq_None_not_Some, jm_get_None, keys_registry_of in Hk. unfold mbind, outcome_bind. rewrite <- clash_spec.
  replace {| ds_name := ds_name d; ds_matcher := ds_matcher d; ds_dispatcher := _ |} with d by (by destruct d as [? ? []]).
  assert (jm_set (ds_name d) d (registry_of ds) = registry_of (ds ++ [d])) as ->
    by (rewrite jm_set_new by (by rewrite keys_registry_of); unfold registry_of; by rewrite fmap_app).
  unfold covered. destruct (ds_dispatcher d); destruct (clash _ _), dispatchable as [m|]; try destruct (assertCovered d m); simpl;
    split; try (by intros [= <-]); try done; try (by intros (-> & _)); naive_solver.
Qed.

Definition pairwise_disjoint ds : Prop := ForallOrdPairs (λ a b, disjoint (ds_matcher a) (ds_matcher b)) ds.
Lemma pairwise_snoc ds d : pairwise_disjoint (ds ++ [d]) ↔ pairwise_disjoint ds ∧ Forall (λ d', disjoint (ds_matcher d') (ds_matcher d)) ds.
Proof.
  unfold pairwise_disjoint. induction ds as [|x ds IH]; simpl.
  { split; [intros _; split; constructor|]. intros _. constructor; constructor. }
  split.
  - inversion 1 as [|? ? Hx Hds]; subst. apply IH in Hds as [Hds Hd]. apply Forall_app in Hx as [Hx Hxd].
    split; [by constructor|]. constructor; [by inversion Hxd|done].
  - intros [H Hall]. inversion H as [|? ? Hx Hds]; subst. apply Forall_cons in Hall as [Hxd Hall].
    constructor; [apply Forall_app; by repeat constructor|]. by apply IH.
Qed.
Lemma add_destinations_proper dispatchable ds0 ds reg : Forall proper ds →
  NoDup (ds_name <$> ds0) → pairwise_disjoint ds0 → Forall (covered dispatchable) ds0 →
  add_destinations dispatchable (registry_of ds0) (input_of <$> ds) = Ok reg ↔
  reg = registry_of (ds0 ++ ds) ∧ NoDup (ds_name <$> ds0 ++ ds) ∧ pairwise_disjoint (ds0 ++ ds) ∧ Forall (covered dispatchable) (ds0 ++ ds).
Proof.
  intros Hp. revert ds0. induction Hp as [|d ds Hd Hds IH]; intros ds0 Hn Hpw Hc; cbn [add_destinations fmap list_fmap].
  { rewrite app_nil_r. split; [by intros [= <-]|by intros (-> & _)]. }
  unfold mbind, outcome_bind. destruct (add_destination _ _ _) as [r|e] eqn:Ha.
  - apply add_destination_proper in Ha as (-> & Hni & Hdis & Hcov); [|done].
    rewrite (cons_middle d ds0 ds), (assoc_L app). apply IH.
    + rewrite fmap_app. apply NoDup_app. split; [done|]. split; [|apply NoDup_singleton]. intros x Hx ->%list_elem_of_singleton. done.
    + by apply pairwise_snoc.
    + apply Forall_app. by repeat constructor.
  - split; [done|]. intros (_ & Hnd & Hpd & Hcv). exfalso. rewrite (cons_middle d ds0 ds), (assoc_L app) in Hnd, Hpd, Hcv.
    assert (∀ r, add_destination dispatchable (registry_of ds0) (input_of d) ≠ Ok r) as Hno by (by intros r; rewrite Ha).
    apply (Hno (registry_of (ds0 ++ [d]))). apply add_destination_proper; [done|]. split; [done|].
    rewrite fmap_app in Hnd. apply NoDup_app in Hnd as (Hnd & _ & _). rewrite fmap_app in Hnd. apply NoDup_app in Hnd as (_ & Hnd & _).
    apply Forall_app in Hcv as [Hcv _]. apply Forall_app in Hcv as [_ [Hcv _]%Forall_cons]. split; [|split; [|done]].
    + intros Hin. by apply (Hnd _ Hin), list_elem_of_singleton.
    + clear -Hpd. induction ds as [|x l IH] using rev_ind; [rewrite app_nil_r in Hpd; by apply pairwise_snoc in Hpd as [_ ?]|].
      rewrite (assoc_L app) in Hpd. apply pairwise_snoc in Hpd as [Hpd _]. by apply IH.
Qed.
End registries.
