(* ===== verification/Outbox.v ===== *)
(** * Outbox: the event log and its delivery queue.

    The event-mode methods of [outbox/src/outbox.service.ts] over the tables of
    [data/migrations/platform/0021_outbox_event_log.sql], [0022], [0025] and [0026]: what a
    transaction reads and writes, and what its method decides. A delivery row is locked before it
    is read, and appends of one tenant are serialised by an advisory lock, so that a
    transaction is one step; [locked] are the rows other transactions hold.

    A [jsonb] value is its text. Times of the database are in microseconds and read from a clock
    by index; a [Date] is in milliseconds. Texts are in UTF-8. *)
From Stdlib Require Import Ascii.
From S2P Require Import Prelude JsMap JsText OutboxSelectors.
Local Open Scope Z_scope.

(** ** Tables *)

Notation Jsonb := string.
(** Tenant and event. *)
Notation Key := (string * Z)%type.

Inductive DeliveryStatus := PENDING | SENT | SENT_UNRESOLVED | ERROR | ACKED | RETIRED.
Inductive AttemptResult := ar_CLAIMED | ar_SENT | ar_ERROR | ar_LEGACY_HISTORY_UNAVAILABLE.
Inductive AckStatus := ack_ACKED | ack_ERROR.
#[export] Instance DeliveryStatus_eq_dec : EqDecision DeliveryStatus.
Proof. solve_decision. Defined.
#[export] Instance AttemptResult_eq_dec : EqDecision AttemptResult.
Proof. solve_decision. Defined.
#[export] Instance AckStatus_eq_dec : EqDecision AckStatus.
Proof. solve_decision. Defined.
Definition terminal (st : DeliveryStatus) : bool := match st with ACKED | RETIRED => true | _ => false end.
Definition status_of (st : AckStatus) : DeliveryStatus := match st with ack_ACKED => ACKED | ack_ERROR => ERROR end.

(** [createdAt] has millisecond precision: it is a number of milliseconds. *)
Record Event := {
  ev_entity : string;
  ev_entityId : string;
  ev_idempotencyKey : string;
  ev_payload : Jsonb;
  ev_metadata : option Jsonb;
  ev_createdAt : Z }.
Record Delivery := {
  dl_legacy : option string;
  dl_status : DeliveryStatus;
  dl_attempts : Z;
  dl_leaseUntil : option Z;
  dl_nextAttemptAt : option Z;
  dl_lastError : option string;
  dl_updatedAt : Z }.
Record Evidence := {
  te_provider : option string;
  te_protocol : option string;
  te_requestBytes : option string;
  te_responseBytes : option string;
  te_requestHeaders : option Jsonb;
  te_responseStatus : option Z;
  te_requestTransmission : option string }.
Record Attempt := {
  at_result : AttemptResult;
  at_error : option string;
  at_leasedAt : option Z;
  at_completedAt : option Z;
  at_evidence : Evidence;
  at_requestSha256 : option string;
  at_responseSha256 : option string;
  at_evidenceState : list (string * string);
  at_legacyMessage : option string }.
Record EventAck := { ea_key : Key; ea_status : AckStatus; ea_rawBody : option string; ea_verified : bool; ea_source : string }.
Record Retirement := { rt_idempotencyKey : string; rt_actorId : string; rt_reason : string; rt_previousStatus : DeliveryStatus; rt_retiredAt : Z }.

(** The log and the queue; [order] is the sequence [event_order_seq]. *)
Record Log := {
  events : gmap Key Event;
  deliveries : gmap Key Delivery;
  attempts : gmap (Key * Z) Attempt;
  acks : list EventAck;
  retirements : gmap Key Retirement;
  tenant_clock : gmap string Z;
  order : Z;
  quarantine : list (string * string);
  migrated : bool;          (** [legacy_ownership.state = 'NEW'] *)
  ticks : nat }.

Definition set_events x (s : Log) : Log :=
  {| events := x; deliveries := deliveries s; attempts := attempts s; acks := acks s; retirements := retirements s;
     tenant_clock := tenant_clock s; order := order s; quarantine := quarantine s; migrated := migrated s; ticks := ticks s |}.
Definition set_deliveries x (s : Log) : Log :=
  {| events := events s; deliveries := x; attempts := attempts s; acks := acks s; retirements := retirements s;
     tenant_clock := tenant_clock s; order := order s; quarantine := quarantine s; migrated := migrated s; ticks := ticks s |}.
Definition set_attempts x (s : Log) : Log :=
  {| events := events s; deliveries := deliveries s; attempts := x; acks := acks s; retirements := retirements s;
     tenant_clock := tenant_clock s; order := order s; quarantine := quarantine s; migrated := migrated s; ticks := ticks s |}.
Definition set_acks x (s : Log) : Log :=
  {| events := events s; deliveries := deliveries s; attempts := attempts s; acks := x; retirements := retirements s;
     tenant_clock := tenant_clock s; order := order s; quarantine := quarantine s; migrated := migrated s; ticks := ticks s |}.
Definition set_retirements x (s : Log) : Log :=
  {| events := events s; deliveries := deliveries s; attempts := attempts s; acks := acks s; retirements := x;
     tenant_clock := tenant_clock s; order := order s; quarantine := quarantine s; migrated := migrated s; ticks := ticks s |}.
Definition set_clock x (s : Log) : Log :=
  {| events := events s; deliveries := deliveries s; attempts := attempts s; acks := acks s; retirements := retirements s;
     tenant_clock := x; order := order s; quarantine := quarantine s; migrated := migrated s; ticks := ticks s |}.
Definition set_quarantine x (s : Log) : Log :=
  {| events := events s; deliveries := deliveries s; attempts := attempts s; acks := acks s; retirements := retirements s;
     tenant_clock := tenant_clock s; order := order s; quarantine := x; migrated := migrated s; ticks := ticks s |}.
Definition set_draws o t (s : Log) : Log :=
  {| events := events s; deliveries := deliveries s; attempts := attempts s; acks := acks s; retirements := retirements s;
     tenant_clock := tenant_clock s; order := o; quarantine := quarantine s; migrated := migrated s; ticks := t |}.

(** [outbox.event_uuid] as the number its 128 bits denote, in the order of [uuid], for the times its
    48 bits of milliseconds hold. *)
Definition event_uuid (ms order_ : Z) : Z :=
  ms * 2 ^ 80 + 7 * 2 ^ 76 + Z.shiftr order_ 62 * 2 ^ 64 + (8 + Z.land (Z.shiftr order_ 60) 3) * 2 ^ 60
  + Z.land order_ 1152921504606846975.

(** The order of the log: [(created_at, id)]. *)
Definition before (a b : Z * Z) : bool := (a.1 <? b.1) || ((a.1 =? b.1) && (a.2 <? b.2)).
Definition position (k : Key) (e : Event) : Z * Z := (ev_createdAt e, k.2).
Definition row_before (a b : Key * Event) : bool := before (position a.1 a.2) (position b.1 b.2).
Definition row_le (a b : Key * Event) : bool := negb (row_before b a).
Definition log_order (l : list (Key * Event)) : list (Key * Event) := js_sort row_le l.
Definition same_aggregate (a b : Key * Event) : bool :=
  String.eqb a.1.1 b.1.1 && String.eqb (ev_entity a.2) (ev_entity b.2) && String.eqb (ev_entityId a.2) (ev_entityId b.2).

Notation Sql := (JS Log OutboxError).
(** A transaction is undone when it fails, except for what it drew from the clock and the sequence. *)
Definition tx {A} (m : Sql A) : Sql A := λ s,
  match m s with
  | (Ok a, s') => (Ok a, s')
  | (Throw e, s') => (Throw e, set_draws (order s') (ticks s') s)
  end.

Section methods.
Context (clock : nat → Z) (sha256 : string → string).
(** The lease in milliseconds, the declared destinations and the backoff policy of the module. *)
Context (eventLeaseMs : Z) (dispatchable : option EntityMatcher) (nextAttemptAt : Z → Z → Z).

Definition clock_timestamp : Sql Z :=
  n ← getf ticks; _ ← modify (λ s, set_draws (order s) (S n) s); mret (clock n).
(** [nextval] of a sequence of [bigint] that does not cycle. *)
Definition nextval : Sql Z :=
  n ← getf order;
  if n <? 2 ^ 63 then _ ← modify (λ s, set_draws (n + 1) (ticks s) s); mret n else throw (SqlError "2200H").

(** ** Appending *)

Record AppendEvent := { ap_entity : string; ap_entityId : string; ap_idempotencyKey : string; ap_payload : Jsonb; ap_metadata : option Jsonb }.
(** What the transaction of the caller says of itself. *)
Record Transaction := {
  tr_role : string;
  tr_tenantId : option string;
  tr_appRole : option string;
  tr_sqlRole : string;
  tr_isolation : string;
  tr_readOnly : string;
  tr_recovery : bool;
  tr_chainKey : option string }.
Definition append_reason (appRoleName : string) (t : Transaction) : option string :=
  if negb (bool_decide (tr_appRole t = Some "app")) then Some "app_role"
  else if negb (String.eqb (tr_sqlRole t) appRoleName) then Some "sql_role"
  else if negb (String.eqb (tr_isolation t) "read committed") then Some "isolation"
  else if negb (String.eqb (tr_readOnly t) "off") then Some "read_only"
  else if tr_recovery t then Some "recovery" else None.

Definition tick_clock (tenantId : string) : Sql Z :=
  now ← clock_timestamp;
  clocks ← getf tenant_clock;
  let ms := Z.max (default 0 (clocks !! tenantId)) (Z.max 0 (now / 1000)) in
  _ ← modify (set_clock (<[tenantId := ms]> clocks));
  mret ms.

Definition event_by_key (tenantId key : string) (s : Log) : option (Key * Event) :=
  List.find (λ r, String.eqb r.1.1 tenantId && String.eqb (ev_idempotencyKey r.2) key) (map_to_list (events s)).
Definition same_fact (e : Event) (event : AppendEvent) : bool :=
  String.eqb (ev_entity e) (ap_entity event) && String.eqb (ev_entityId e) (ap_entityId event)
  && String.eqb (ev_payload e) (ap_payload event) && bool_decide (ev_metadata e = ap_metadata event).
Definition new_delivery (updatedAt : Z) : Delivery :=
  {| dl_legacy := None; dl_status := PENDING; dl_attempts := 0; dl_leaseUntil := None; dl_nextAttemptAt := None;
     dl_lastError := None; dl_updatedAt := updatedAt |}.
Definition append_one (ms : Z) (tenantId : string) (event : AppendEvent) : Sql (Key * Event) :=
  if String.eqb (ap_entity event) EmptyString || String.eqb (ap_entityId event) EmptyString
     || String.eqb (ap_idempotencyKey event) EmptyString
  then throw (OutboxEventTransactionError EmptyString) else
  n ← nextval;
  found ← getf (event_by_key tenantId (ap_idempotencyKey event));
  match found with
  | Some row => if same_fact row.2 event then mret row else throw OutboxEventConflictError
  | None =>
      let key := (tenantId, event_uuid ms n) in
      let row := {| ev_entity := ap_entity event; ev_entityId := ap_entityId event; ev_idempotencyKey := ap_idempotencyKey event;
                    ev_payload := ap_payload event; ev_metadata := ap_metadata event; ev_createdAt := ms |} in
      old ← getf events;
      _ ← modify (set_events (<[key := row]> old));
      _ ← (if hasDestination dispatchable (ev_entity row)
           then now ← clock_timestamp; ds ← getf deliveries; modify (set_deliveries (<[key := new_delivery now]> ds))
           else mret ());
      mret (key, row)
  end.
Fixpoint append_each (ms : Z) (tenantId : string) (l : list AppendEvent) : Sql (list (Key * Event)) :=
  match l with
  | [] => mret []
  | event :: l => row ← append_one ms tenantId event; rows ← append_each ms tenantId l; mret (row :: rows)
  end.
(** [contended]: the marker of the legacy tables is held by a cutover. The transaction is the caller's,
    which may go on after an error. *)
Definition appendManyInTransaction (appRoleName : string) (currentTenantId : option string) (contended : bool)
    (trx : Transaction) (l : list AppendEvent) : Sql (list (Key * Event)) :=
  match l with
  | [] => mret []
  | _ =>
      if negb (String.eqb (tr_role trx) "app") then throw (OutboxEventTransactionError "transaction_role") else
      match tr_tenantId trx with
      | None => throw (OutboxEventTransactionError "tenant")
      | Some tenantId =>
          match append_reason appRoleName trx with
          | Some reason => throw (OutboxEventTransactionError reason)
          | None =>
              if negb (bool_decide (lower <$> currentTenantId = Some tenantId)) then throw AuditChainKeyMismatchError
              else if contended then throw OutboxOwnershipContentionError
              else if match tr_chainKey trx with Some key => negb (String.eqb key tenantId) | None => false end
              then throw AuditChainKeyMismatchError
              else ms ← tick_clock tenantId; append_each ms tenantId l
          end
      end
  end.

(** ** Claiming *)

Definition matches_filter (only : option EntityMatcher) (entity : string) : bool :=
  match only with None => true | Some m => matchesEntity m entity end.
(** An older delivery of the aggregate that is not done. *)
Definition blocked (s : Log) (row : Key * Event) : bool :=
  existsb (λ p, same_aggregate p row && row_before p row
                && match deliveries s !! p.1 with Some d => negb (terminal (dl_status d)) | None => false end)
          (map_to_list (events s)).
Definition eligible (now : Z) (e : Event) (d : Delivery) : bool :=
  match dl_status d with
  | PENDING | ERROR => default (1000 * ev_createdAt e) (dl_nextAttemptAt d) <=? now
  | SENT => match dl_leaseUntil d with Some t => t <? now | None => false end
  | _ => false
  end.
Definition due (locked : Key → bool) (tenant : option string) (only : option EntityMatcher) (now : Z) (s : Log) (row : Key * Event) : bool :=
  match deliveries s !! row.1 with
  | None => false
  | Some d =>
      match tenant with Some t => String.eqb row.1.1 t | None => true end
      && (bool_decide (dl_legacy d = None) || migrated s)
      && eligible now row.2 d && negb (blocked s row) && matches_filter only (ev_entity row.2) && negb (locked row.1)
  end.

Record Claim := { cl_key : Key; cl_event : Event; cl_attempts : Z }.
Definition claimed (at_ : Z) (d : Delivery) : Delivery :=
  {| dl_legacy := dl_legacy d; dl_status := SENT; dl_attempts := dl_attempts d + 1; dl_leaseUntil := Some (at_ + 1000 * eventLeaseMs);
     dl_nextAttemptAt := None; dl_lastError := dl_lastError d; dl_updatedAt := at_ |}.
Definition no_evidence : Evidence :=
  {| te_provider := None; te_protocol := None; te_requestBytes := None; te_responseBytes := None; te_requestHeaders := None;
     te_responseStatus := None; te_requestTransmission := None |}.
Definition claimed_attempt (at_ : Z) : Attempt :=
  {| at_result := ar_CLAIMED; at_error := None; at_leasedAt := Some at_; at_completedAt := None; at_evidence := no_evidence;
     at_requestSha256 := None; at_responseSha256 := None; at_evidenceState := []; at_legacyMessage := None |}.
Definition claim_one (row : Key * Event) : Sql Claim :=
  at_ ← clock_timestamp;
  ds ← getf deliveries;
  match ds !! row.1 with
  | None => throw (SqlError "P0002")
  | Some d =>
      let d' := claimed at_ d in
      _ ← modify (set_deliveries (<[row.1 := d']> ds));
      mret {| cl_key := row.1; cl_event := row.2; cl_attempts := dl_attempts d' |}
  end.
Definition claim_attempt (c : Claim) : Sql () :=
  at_ ← clock_timestamp;
  old ← getf attempts;
  match old !! (cl_key c, cl_attempts c) with
  | Some _ => mret ()
  | None => modify (set_attempts (<[(cl_key c, cl_attempts c) := claimed_attempt at_]> old))
  end.
Fixpoint claim_rows (rows : list (Key * Event)) : Sql (list Claim) :=
  match rows with
  | [] => mret []
  | row :: rows => c ← claim_one row; cs ← claim_rows rows; mret (c :: cs)
  end.
(** The clock is read once for the rows that are due. *)
Definition claim_due (locked : Key → bool) (tenant : option string) (limit : Z) (only : option EntityMatcher) : Sql (list Claim) :=
  _ ← throw_if (limit <? 0) (SqlError "2201W");
  now ← clock_timestamp;
  rows ← getf (λ s, List.firstn (Z.to_nat limit) (log_order (List.filter (due locked tenant only now s) (map_to_list (events s)))));
  cs ← claim_rows rows;
  _ ← js_each claim_attempt cs;
  mret cs.

(** ** Settling *)

Definition transportEvidenceState (e : Evidence) : list (string * string) :=
  let captured {A} (x : option A) := match x with Some _ => "captured" | None => "unavailable" end in
  [("requestBytes", captured (te_requestBytes e)); ("responseBytes", captured (te_responseBytes e));
   ("requestHeaders", match te_requestHeaders e with Some _ => "redacted-or-digested" | None => "unavailable" end);
   ("responseStatus", captured (te_responseStatus e));
   ("requestTransmission", default "unavailable" (te_requestTransmission e))].
Definition completed (result : AttemptResult) (error : option string) (evidence : Evidence) (at_ : Z) (a : Attempt) : Attempt :=
  {| at_result := result; at_error := match error with Some _ => error | None => at_error a end; at_leasedAt := at_leasedAt a;
     at_completedAt := Some at_; at_evidence := evidence; at_requestSha256 := sha256 <$> te_requestBytes evidence;
     at_responseSha256 := sha256 <$> te_responseBytes evidence; at_evidenceState := transportEvidenceState evidence;
     at_legacyMessage := at_legacyMessage a |}.
(** Every role but the owner may complete an attempt once ([guard_app_attempt_completion]). *)
Definition complete_attempt (as_app : bool) (c : Claim) (result : AttemptResult) (error : option string) (evidence : Evidence) : Sql () :=
  at_ ← clock_timestamp;
  old ← getf attempts;
  match old !! (cl_key c, cl_attempts c) with
  | None => mret ()
  | Some a =>
      _ ← throw_if (as_app && negb (bool_decide (at_result a = ar_CLAIMED) && bool_decide (at_completedAt a = None))) (SqlError "42501");
      modify (set_attempts (<[(cl_key c, cl_attempts c) := completed result error evidence at_ a]> old))
  end.
(** The claim is still the last one of its delivery. *)
Definition owns (c : Claim) (d : Delivery) : bool := (dl_attempts d =? cl_attempts c) && bool_decide (dl_status d = SENT).
Definition extended (at_ : Z) (d : Delivery) : Delivery :=
  {| dl_legacy := dl_legacy d; dl_status := dl_status d; dl_attempts := dl_attempts d; dl_leaseUntil := Some (at_ + 1000 * eventLeaseMs);
     dl_nextAttemptAt := dl_nextAttemptAt d; dl_lastError := dl_lastError d; dl_updatedAt := at_ |}.
Definition failed (message : string) (next at_ : Z) (d : Delivery) : Delivery :=
  {| dl_legacy := dl_legacy d; dl_status := ERROR; dl_attempts := dl_attempts d; dl_leaseUntil := None;
     dl_nextAttemptAt := Some (1000 * next); dl_lastError := Some message; dl_updatedAt := at_ |}.
Definition update_owned (c : Claim) (f : Z → Delivery → Delivery) : Sql bool :=
  at_ ← clock_timestamp;
  ds ← getf deliveries;
  match ds !! cl_key c with
  | Some d => if owns c d then _ ← modify (set_deliveries (<[cl_key c := f at_ d]> ds)); mret true else mret false
  | None => mret false
  end.
Definition settle_sent (as_app : bool) (c : Claim) (evidence : Evidence) : Sql () :=
  tx (_ ← update_owned c extended; complete_attempt as_app c ar_SENT None evidence).
Definition settle_failed (as_app : bool) (c : Claim) (message : string) (evidence : Evidence) (next : Z) : Sql bool :=
  tx (changed ← update_owned c (failed message next);
      _ ← complete_attempt as_app c ar_ERROR (Some message) evidence;
      mret changed).

(** ** Acknowledging *)

(** [eventId]: absent, the empty text, a text that is no uuid, or the number of a uuid. *)
Inductive EventId := id_absent | id_empty | id_malformed | id_uuid (id : Z).
Record AckInput := {
  ai_eventId : EventId;
  ai_idempotencyKey : option string;
  ai_rawBody : string;
  ai_status : AckStatus;
  ai_hmacVerified : bool }.
Definition identified (i : AckInput) : bool :=
  let keyed := match ai_idempotencyKey i with Some key => negb (String.eqb key EmptyString) | None => false end in
  match ai_eventId i with
  | id_malformed => false
  | id_absent | id_empty => keyed
  | id_uuid _ => negb keyed
  end.
(** The empty text is no uuid for the database. *)
Definition find_event (tenantId : string) (i : AckInput) : Sql (option Key) :=
  _ ← throw_if match ai_eventId i with id_empty => true | _ => false end (SqlError "22P02");
  getf (λ s, fst <$> List.find (λ r, String.eqb r.1.1 tenantId
    && match ai_eventId i with id_uuid id => r.1.2 =? id | _ => true end
    && match ai_idempotencyKey i with Some key => String.eqb (ev_idempotencyKey r.2) key | None => true end) (map_to_list (events s))).
Definition acknowledged (st : DeliveryStatus) (next : option Z) (at_ : Z) (d : Delivery) : Delivery :=
  {| dl_legacy := dl_legacy d; dl_status := st; dl_attempts := dl_attempts d; dl_leaseUntil := None; dl_nextAttemptAt := next;
     dl_lastError := dl_lastError d; dl_updatedAt := at_ |}.
(** [jsNow]: the [Date] of the process. *)
Definition apply_ack (jsNow : Z) (key : Key) (i : AckInput) : Sql () :=
  ds ← getf deliveries;
  match ds !! key with
  | None => throw OutboxNotFoundError
  | Some d =>
      let next := match ai_status i with ack_ERROR => Some (1000 * nextAttemptAt (dl_attempts d) jsNow) | ack_ACKED => None end in
      at_ ← clock_timestamp;
      _ ← (if terminal (dl_status d) then mret ()
           else modify (set_deliveries (<[key := acknowledged (status_of (ai_status i)) next at_ d]> ds)));
      modify (λ s, set_acks (acks s ++ [{| ea_key := key; ea_status := ai_status i; ea_rawBody := Some (ai_rawBody i);
                                           ea_verified := true; ea_source := "verified-raw-body" |}]) s)
  end.
Definition recordUnboundAck (rawBody reason : string) : Sql () :=
  modify (λ s, set_quarantine (quarantine s ++ [(rawBody, reason)]) s).
Definition ackTenantEvent (tenantId : option string) (jsNow : Z) (i : AckInput) : Sql () :=
  match tenantId with
  | None => throw OutboxNotFoundError
  | Some tenantId =>
      if negb (ai_hmacVerified i) then _ ← recordUnboundAck (ai_rawBody i) "invalid-hmac"; throw OutboxNotFoundError
      else if negb (identified i) then throw OutboxNotFoundError
      else tx (key ← find_event tenantId i;
               match key with None => throw OutboxNotFoundError | Some key => apply_ack jsNow key i end)
  end.
(** The sweep of the owner names its tenant; [tenantId] is [None] when it is not a uuid. *)
Definition ackEvent (tenantId : option string) (jsNow : Z) (i : AckInput) : Sql () :=
  match tenantId with
  | Some tenantId =>
      if identified i then
        key ← find_event tenantId i;
        match key with
        | None => _ ← recordUnboundAck (ai_rawBody i) "unknown-event"; throw OutboxNotFoundError
        | Some key =>
            if ai_hmacVerified i then tx (apply_ack jsNow key i)
            else _ ← recordUnboundAck (ai_rawBody i) "invalid-hmac"; throw OutboxNotFoundError
        end
      else _ ← recordUnboundAck (ai_rawBody i) "missing-or-ambiguous-event-identity"; throw OutboxNotFoundError
  | None => _ ← recordUnboundAck (ai_rawBody i) "missing-or-ambiguous-event-identity"; throw OutboxNotFoundError
  end.

(** ** Operators *)

Definition retried (next at_ : Z) (d : Delivery) : Delivery :=
  {| dl_legacy := dl_legacy d; dl_status := PENDING; dl_attempts := dl_attempts d; dl_leaseUntil := None;
     dl_nextAttemptAt := Some next; dl_lastError := dl_lastError d; dl_updatedAt := at_ |}.
(** [eventId] is [None] when it is not a uuid. *)
Definition retryEvent (tenantId : string) (eventId : option Z) (immediate : bool) (jsNow : Z) : Sql Delivery :=
  match eventId with
  | None => throw OutboxNotFoundError
  | Some id =>
      tx (ds ← getf deliveries;
          match ds !! (tenantId, id) with
          | None => throw OutboxNotFoundError
          | Some d =>
              _ ← throw_if (negb (bool_decide (dl_status d = ERROR))) OutboxEventNotFailedError;
              at_ ← clock_timestamp;
              let next := if immediate then at_ else Z.min (default at_ (dl_nextAttemptAt d)) (1000 * nextAttemptAt (dl_attempts d) jsNow) in
              _ ← modify (set_deliveries (<[(tenantId, id) := retried next at_ d]> ds));
              mret (retried next at_ d)
          end)
  end.

(** [None] for what is no text, or has no UTF-8 form, or is a value with other members. *)
Record RetirementInput := { ri_idempotencyKey : option string; ri_reason : option string; ri_other : bool }.
Definition valid_text (limit : nat) (s : string) : bool :=
  Nat.leb (String.length s) limit && negb (has_char "000"%char s).
Definition valid_retirement (trim : string → string) (i : RetirementInput) : option (string * string) :=
  match ri_idempotencyKey i, ri_reason i with
  | Some key, Some reason =>
      if negb (ri_other i) && negb (String.eqb key EmptyString) && valid_text 255 key
         && negb (String.eqb (trim reason) EmptyString) && valid_text 2048 reason
      then Some (key, reason) else None
  | _, _ => None
  end.
Definition retired (at_ : Z) (d : Delivery) : Delivery :=
  {| dl_legacy := dl_legacy d; dl_status := RETIRED; dl_attempts := dl_attempts d; dl_leaseUntil := None; dl_nextAttemptAt := None;
     dl_lastError := dl_lastError d; dl_updatedAt := at_ |}.
Definition receipts (tenantId : string) (id : Z) (key : string) (s : Log) : list (Key * Retirement) :=
  List.filter (λ r, String.eqb r.1.1 tenantId && ((r.1.2 =? id) || String.eqb (rt_idempotencyKey r.2) key)) (map_to_list (retirements s)).
Definition retireEvent (trim : string → string) (tenantId actorId : string) (eventId : option Z) (input : RetirementInput) :
    Sql (Key * Retirement) :=
  match eventId, valid_retirement trim input with
  | Some id, Some (key, reason) =>
      tx (ds ← getf deliveries;
          match ds !! (tenantId, id) with
          | None => throw OutboxNotFoundError
          | Some d =>
              existing ← getf (receipts tenantId id key);
              match existing with
              | r :: rest =>
                  if Nat.eqb (length rest) 0 && (r.1.2 =? id) && String.eqb (rt_idempotencyKey r.2) key
                     && String.eqb (rt_actorId r.2) actorId && String.eqb (rt_reason r.2) reason
                  then mret r
                  else throw (OutboxRetirementConflictError
                                (if existsb (λ r, String.eqb (rt_idempotencyKey r.2) key) existing then "operation-conflict" else "already-retired"))
              | [] =>
                  _ ← throw_if (bool_decide (dl_status d = ACKED)) (OutboxRetirementConflictError "already-acked");
                  _ ← throw_if (bool_decide (dl_status d = RETIRED)) (OutboxRetirementConflictError "already-retired");
                  _ ← match dl_leaseUntil d with
                      | Some t => now ← clock_timestamp; throw_if (now <? 1000 * (t / 1000)) (OutboxRetirementConflictError "active-lease")
                      | None => mret ()
                      end;
                  at_ ← clock_timestamp;
                  let r := {| rt_idempotencyKey := key; rt_actorId := actorId; rt_reason := reason; rt_previousStatus := dl_status d;
                              rt_retiredAt := at_ |} in
                  rs ← getf retirements;
                  _ ← modify (set_retirements (<[(tenantId, id) := r]> rs));
                  _ ← modify (set_deliveries (<[(tenantId, id) := retired at_ d]> ds));
                  mret ((tenantId, id), r)
              end
          end)
  | _, _ => throw OutboxRetirementInputError
  end.
End methods.
