(* ===== verification/OutboxLegacy.v ===== *)
(** * OutboxLegacy: the message table of the first outbox, and its migration to the event log.

    [enqueue], [dispatchDue], [ack], [retry], [getOne] and [cutoverLegacyMessages] of
    [outbox/src/outbox.service.ts] over the tables of migration [0018_outbox.sql]. [platform] says
    whether the tables are those of the platform, whose rows a cutover can take over. *)
From S2P Require Import Prelude JsMap JsText OutboxSelectors Outbox.
Local Open Scope Z_scope.

Inductive MessageStatus := ms_PENDING | ms_SENT | ms_ACKED | ms_ERROR.
#[export] Instance MessageStatus_eq_dec : EqDecision MessageStatus.
Proof. solve_decision. Defined.
Record Message := {
  mg_tenantId : string;
  mg_entity : string;
  mg_entityId : string;
  mg_payload : Jsonb;
  mg_metadata : option Jsonb;
  mg_status : MessageStatus;
  mg_attempts : Z;
  mg_lastError : option string;
  mg_nextAttemptAt : option Z;
  mg_idempotencyKey : string;
  mg_ackTime : option Z;
  mg_createdAt : Z;
  mg_updatedAt : Z;
  mg_migratedEvent : option Z }.
Record Acknowledgement := { ak_status : AckStatus; ak_message : option string; ak_time : Z }.

(** [acknowledgements] by message, which is unique. *)
Record Tables := {
  log : Log;
  messages : gmap string Message;
  acknowledgements : gmap string Acknowledgement;
  event_map : gmap string (Key * Z);
  generation : Z;
  uuids : nat }.
Definition set_log x (s : Tables) : Tables :=
  {| log := x; messages := messages s; acknowledgements := acknowledgements s; event_map := event_map s; generation := generation s; uuids := uuids s |}.
Definition set_messages x (s : Tables) : Tables :=
  {| log := log s; messages := x; acknowledgements := acknowledgements s; event_map := event_map s; generation := generation s; uuids := uuids s |}.
Definition set_acknowledgements x (s : Tables) : Tables :=
  {| log := log s; messages := messages s; acknowledgements := x; event_map := event_map s; generation := generation s; uuids := uuids s |}.
Definition set_map x (s : Tables) : Tables :=
  {| log := log s; messages := messages s; acknowledgements := acknowledgements s; event_map := x; generation := generation s; uuids := uuids s |}.
Definition set_generation x (s : Tables) : Tables :=
  {| log := log s; messages := messages s; acknowledgements := acknowledgements s; event_map := event_map s; generation := x; uuids := uuids s |}.
Definition set_uuids x (s : Tables) : Tables :=
  {| log := log s; messages := messages s; acknowledgements := acknowledgements s; event_map := event_map s; generation := generation s; uuids := x |}.

Definition set_message st attempts err next (at_ : Z) (m : Message) : Message :=
  {| mg_tenantId := mg_tenantId m; mg_entity := mg_entity m; mg_entityId := mg_entityId m; mg_payload := mg_payload m;
     mg_metadata := mg_metadata m; mg_status := st; mg_attempts := attempts; mg_lastError := err; mg_nextAttemptAt := next;
     mg_idempotencyKey := mg_idempotencyKey m; mg_ackTime := mg_ackTime m; mg_createdAt := mg_createdAt m; mg_updatedAt := at_;
     mg_migratedEvent := mg_migratedEvent m |}.
Definition set_ackTime t (m : Message) : Message :=
  {| mg_tenantId := mg_tenantId m; mg_entity := mg_entity m; mg_entityId := mg_entityId m; mg_payload := mg_payload m;
     mg_metadata := mg_metadata m; mg_status := mg_status m; mg_attempts := mg_attempts m; mg_lastError := mg_lastError m;
     mg_nextAttemptAt := mg_nextAttemptAt m; mg_idempotencyKey := mg_idempotencyKey m; mg_ackTime := t; mg_createdAt := mg_createdAt m;
     mg_updatedAt := mg_updatedAt m; mg_migratedEvent := mg_migratedEvent m |}.
Definition set_key key (at_ : Z) (m : Message) : Message :=
  {| mg_tenantId := mg_tenantId m; mg_entity := mg_entity m; mg_entityId := mg_entityId m; mg_payload := mg_payload m;
     mg_metadata := mg_metadata m; mg_status := mg_status m; mg_attempts := mg_attempts m; mg_lastError := mg_lastError m;
     mg_nextAttemptAt := mg_nextAttemptAt m; mg_idempotencyKey := key; mg_ackTime := mg_ackTime m; mg_createdAt := mg_createdAt m;
     mg_updatedAt := at_; mg_migratedEvent := mg_migratedEvent m |}.
Definition set_migrated event (m : Message) : Message :=
  {| mg_tenantId := mg_tenantId m; mg_entity := mg_entity m; mg_entityId := mg_entityId m; mg_payload := mg_payload m;
     mg_metadata := mg_metadata m; mg_status := mg_status m; mg_attempts := mg_attempts m; mg_lastError := mg_lastError m;
     mg_nextAttemptAt := mg_nextAttemptAt m; mg_idempotencyKey := mg_idempotencyKey m; mg_ackTime := mg_ackTime m;
     mg_createdAt := mg_createdAt m; mg_updatedAt := mg_updatedAt m; mg_migratedEvent := Some event |}.

Notation Db := (JS Tables OutboxError).
Definition on_log {A} (m : JS Log OutboxError A) : Db A := λ s, let '(r, l) := m (log s) in (r, set_log l s).
Definition legacy_tx {A} (m : Db A) : Db A := λ s,
  match m s with
  | (Ok a, s') => (Ok a, s')
  | (Throw e, s') => (Throw e, set_uuids (uuids s') (set_log (set_draws (order (log s')) (ticks (log s')) (log s)) s))
  end.

Section legacy.
Context (clock : nat → Z) (uuid : nat → string) (platform : bool) (nextAttemptAt : Z → Z → Z).
Definition now_ : Db Z := on_log (clock_timestamp clock).
Definition gen_uuid : Db string := n ← getf uuids; _ ← modify (set_uuids (S n)); mret (uuid n).

(** ** Messages *)

Record Envelope := { en_entity : string; en_entityId : string; en_payload : Jsonb; en_metadata : option Jsonb; en_idempotencyKey : option string }.
Definition key_of (e : Envelope) : string :=
  match en_idempotencyKey e with Some key => key | None => en_entity e +:+ ":" +:+ en_entityId e end.
Definition same_key (tenantId key : string) (r : string * Message) : bool :=
  String.eqb (mg_tenantId r.2) tenantId && String.eqb (mg_idempotencyKey r.2) key.
Definition same_message (tenantId entity entityId : string) (r : string * Message) : bool :=
  String.eqb (mg_tenantId r.2) tenantId && String.eqb (mg_entity r.2) entity && String.eqb (mg_entityId r.2) entityId.
(** In the transaction of the caller. [contended]: a cutover holds the marker. *)
Definition enqueue (contended : bool) (tenantId : option string) (envelope : Envelope) : Db (string * Message) :=
  if platform && contended then throw OutboxOwnershipContentionError else
  gone ← getf (λ s, platform && migrated (log s));
  if gone : bool then throw OutboxLegacyCutoverError else
  match tenantId with
  | None => throw (SqlError "23502")
  | Some tenantId =>
      let key := key_of envelope in
      at_ ← now_;
      rows ← getf messages;
      match List.find (same_message tenantId (en_entity envelope) (en_entityId envelope)) (map_to_list rows) with
      | Some (id, m) =>
          if existsb (λ r, negb (String.eqb r.1 id) && same_key tenantId key r) (map_to_list rows) then throw OutboxAlreadyEnqueuedError
          else _ ← modify (set_messages (<[id := set_key key at_ m]> rows)); mret (id, set_key key at_ m)
      | None =>
          id ← gen_uuid;
          if existsb (same_key tenantId key) (map_to_list rows) || bool_decide (is_Some (rows !! id)) then throw OutboxAlreadyEnqueuedError else
          let m := {| mg_tenantId := tenantId; mg_entity := en_entity envelope; mg_entityId := en_entityId envelope;
                      mg_payload := en_payload envelope; mg_metadata := en_metadata envelope; mg_status := ms_PENDING; mg_attempts := 0;
                      mg_lastError := None; mg_nextAttemptAt := None; mg_idempotencyKey := key; mg_ackTime := None;
                      mg_createdAt := at_; mg_updatedAt := at_; mg_migratedEvent := None |} in
          _ ← modify (set_messages (<[id := m]> rows));
          mret (id, m)
      end
  end.
Definition getOne (tenantId entity entityId : string) : Db (string * Message) :=
  rows ← getf messages;
  match List.find (same_message tenantId entity entityId) (map_to_list rows) with
  | Some r => mret r
  | None => throw OutboxNotFoundError
  end.

Definition message_due (locked : string → bool) (now : Z) (s : Tables) (r : string * Message) : bool :=
  match mg_status r.2 with ms_PENDING | ms_ERROR => true | _ => false end
  && negb (platform && migrated (log s)) && (negb platform || bool_decide (mg_migratedEvent r.2 = None))
  && (default (mg_createdAt r.2) (mg_nextAttemptAt r.2) <=? now) && negb (locked r.1).
(** Rows of one creation time come in any order. *)
Definition claimDue (locked : string → bool) (limit : Z) : Db (list (string * Message)) :=
  legacy_tx (
    _ ← throw_if (limit <? 0) (SqlError "2201W");
    now ← now_;
    rows ← getf (λ s, List.firstn (Z.to_nat limit) (js_sort (λ a b, mg_createdAt a.2 <=? mg_createdAt b.2)
                                                            (List.filter (message_due locked now s) (map_to_list (messages s)))));
    let sent := (λ r, (r.1, set_message ms_SENT (mg_attempts r.2 + 1) None None now r.2)) <$> rows in
    _ ← js_each (λ r, modify (λ s, set_messages (<[r.1 := r.2]> (messages s)) s)) sent;
    mret sent).
(** What [recordDispatchFailure] persists, in one transaction; it is tried again until a deadline
    while a lock is held. The message is cut to 4000 characters. *)
Definition recordDispatchFailure (cut : string → string) (jsNow : Z) (row : string * Message) (message : string) : Db Message :=
  let next := Some (1000 * nextAttemptAt (mg_attempts row.2) jsNow) in
  legacy_tx (
    now ← now_;
    rows ← getf messages;
    match rows !! row.1 with
    | None => throw OutboxNotFoundError
    | Some m =>
        let m' := if bool_decide (mg_status m = ms_ACKED) then m else set_message ms_ERROR (mg_attempts m) (Some (cut message)) next now m in
        _ ← modify (set_messages (<[row.1 := m']> rows));
        _ ← (if platform then
               match mg_migratedEvent m with
               | None => mret ()
               | Some event =>
                   let key := (mg_tenantId m, event) in
                   at_ ← now_;
                   _ ← on_log (old ← getf attempts;
                               match old !! (key, mg_attempts row.2) with
                               | Some _ => mret ()
                               | None => modify (set_attempts (<[(key, mg_attempts row.2) :=
                                   {| at_result := ar_ERROR; at_error := Some message; at_leasedAt := None; at_completedAt := Some at_;
                                      at_evidence := no_evidence; at_requestSha256 := None; at_responseSha256 := None;
                                      at_evidenceState := []; at_legacyMessage := Some row.1 |}]> old))
                               end);
                   on_log (ds ← getf deliveries;
                           match ds !! key with
                           | Some d =>
                               if bool_decide (dl_status d = SENT_UNRESOLVED)
                               then modify (set_deliveries (<[key :=
                                 {| dl_legacy := dl_legacy d; dl_status := ERROR; dl_attempts := dl_attempts d; dl_leaseUntil := dl_leaseUntil d;
                                    dl_nextAttemptAt := next; dl_lastError := Some message; dl_updatedAt := at_ |}]> ds))
                               else mret ()
                           | None => mret ()
                           end)
               end
             else mret ());
        mret m'
    end).
Record MessageOutcome := {
  mo_id : string;
  mo_message : Message;
  mo_dispatched : bool;
  mo_reconciliationRequired : bool;
  mo_error : option string }.
(** [send]: the error of a port, or [None] when it took the row. What other transactions do in
    between is not shown here: each row of [OutboxSystem] is a step of its own. *)
Section dispatch.
Context (cut : string → string) (jsNow : Z) (send : option (string * Message → option string)) (error_text : OutboxError → string).
Definition persistence_pending (e : OutboxError) : bool :=
  match e with
  | OutboxOwnershipContentionError => true
  | SqlError code => String.eqb code "40P01" || String.eqb code "55P03"
  | OutboxNotFoundError => negb platform
  | _ => false
  end.
Definition dispatch_one (port : string * Message → option string) (row : string * Message) : Db MessageOutcome :=
  match port row with
  | None => mret {| mo_id := row.1; mo_message := row.2; mo_dispatched := true; mo_reconciliationRequired := false; mo_error := None |}
  | Some message =>
      js_catch
        (m ← recordDispatchFailure cut jsNow row message;
         mret {| mo_id := row.1; mo_message := m; mo_dispatched := false; mo_reconciliationRequired := false; mo_error := Some message |})
        (λ e, if persistence_pending e
              then mret {| mo_id := row.1; mo_message := row.2; mo_dispatched := false; mo_reconciliationRequired := true;
                           mo_error := Some ("Send failed: " +:+ message +:+ "; persistence unresolved: " +:+ error_text e) |}
              else throw e)
  end.
Fixpoint dispatch_each (port : string * Message → option string) (rows : list (string * Message)) : Db (list MessageOutcome) :=
  match rows with
  | [] => mret []
  | row :: rows => o ← dispatch_one port row; os ← dispatch_each port rows; mret (o :: os)
  end.
Definition dispatchDue (locked : string → bool) (limit : Z) : Db (list MessageOutcome) :=
  rows ← claimDue locked limit;
  match send with
  | None => mret ((λ r, {| mo_id := r.1; mo_message := r.2; mo_dispatched := false; mo_reconciliationRequired := false; mo_error := None |}) <$> rows)
  | Some port => dispatch_each port rows
  end.
End dispatch.
(** [read]: the attempts it read of the row, which is not locked until it is written. *)
Definition retry (jsNow : Z) (read : Message → Z) (id : string) (immediate : bool) : Db Message :=
  legacy_tx (
    rows ← getf messages;
    match rows !! id with
    | None => throw OutboxNotFoundError
    | Some m =>
        _ ← throw_if (platform && bool_decide (is_Some (mg_migratedEvent m))) OutboxLegacyCutoverError;
        now ← now_;
        let attempts := read m + 1 in
        let next := if immediate then jsNow else nextAttemptAt attempts jsNow in
        let m' := set_message ms_PENDING attempts None (Some (1000 * next)) now m in
        _ ← modify (set_messages (<[id := m']> rows));
        mret m'
    end).

Record MessageAck := { ma_entity : string; ma_entityId : string; ma_status : AckStatus; ma_detail : option string; ma_tenantId : option string }.
Definition resolveAckTarget (i : MessageAck) : Db (string * Message) :=
  rows ← getf (λ s, List.filter (λ r, String.eqb (mg_entity r.2) (ma_entity i) && String.eqb (mg_entityId r.2) (ma_entityId i)
    && match ma_tenantId i with Some t => String.eqb t EmptyString || String.eqb (mg_tenantId r.2) t | None => true end) (map_to_list (messages s)));
  match rows with
  | [] => throw OutboxNotFoundError
  | [r] => mret r
  | _ => throw (OutboxAmbiguousAckError (length rows))
  end.
Definition ack (jsNow : Z) (i : MessageAck) : Db Message :=
  legacy_tx (
    '(id, m) ← resolveAckTarget i;
    now ← now_;
    let next := match ma_status i with ack_ERROR => Some (1000 * nextAttemptAt (mg_attempts m) jsNow) | ack_ACKED => None end in
    let m' := set_ackTime (Some now) (set_message (match ma_status i with ack_ERROR => ms_ERROR | ack_ACKED => ms_ACKED end) (mg_attempts m)
                (match ma_status i with ack_ERROR => ma_detail i | ack_ACKED => None end) next now m) in
    rows ← getf messages;
    _ ← modify (set_messages (<[id := m']> rows));
    old ← getf acknowledgements;
    _ ← match old !! id with
        | Some _ => mret ()
        | None => modify (set_acknowledgements (<[id := {| ak_status := ma_status i; ak_message := ma_detail i; ak_time := now |}]> old))
        end;
    _ ← match (if platform then mg_migratedEvent m else None) with
        | None => mret ()
        | Some event =>
            let key := (mg_tenantId m, event) in
            _ ← on_log (modify (λ s, set_acks (acks s ++ [{| ea_key := key; ea_status := ma_status i; ea_rawBody := None; ea_verified := false;
                                                             ea_source := "caller-asserted-legacy-api" |}]) s));
            at_ ← now_;
            on_log (ds ← getf deliveries;
                    match ds !! key with
                    | Some d => if terminal (dl_status d) then mret ()
                                else modify (set_deliveries (<[key := acknowledged (status_of (ma_status i)) next at_ d]> ds))
                    | None => mret ()
                    end)
        end;
    mret m').

(** ** The cutover *)

Definition status_after (st : MessageStatus) : DeliveryStatus :=
  match st with ms_PENDING => PENDING | ms_SENT => SENT_UNRESOLVED | ms_ACKED => ACKED | ms_ERROR => ERROR end.
Definition legacy_le (a b : string * Message) : bool :=
  String.ltb (mg_tenantId a.2) (mg_tenantId b.2)
  || (String.eqb (mg_tenantId a.2) (mg_tenantId b.2)
      && ((mg_createdAt a.2 <? mg_createdAt b.2) || ((mg_createdAt a.2 =? mg_createdAt b.2) && String.leb a.1 b.1))).
(** One message becomes an event with its delivery. *)
Definition import_message (ack_ : option Acknowledgement) (r : string * Message) : JS Log OutboxError Key :=
  let '(id, m) := r in
  ms ← tick_clock clock (mg_tenantId m);
  n ← nextval;
  let key := (mg_tenantId m, event_uuid ms n) in
  old ← getf events;
  if existsb (λ r, String.eqb r.1.1 (mg_tenantId m) && String.eqb (ev_idempotencyKey r.2) (mg_idempotencyKey m)) (map_to_list old)
  then throw (SqlError "23505") else
  at_ ← clock_timestamp clock;
  _ ← modify (set_events (<[key := {| ev_entity := mg_entity m; ev_entityId := mg_entityId m; ev_idempotencyKey := mg_idempotencyKey m;
                                      ev_payload := mg_payload m; ev_metadata := mg_metadata m; ev_createdAt := ms |}]> old));
  ds ← getf deliveries;
  _ ← modify (set_deliveries (<[key := {| dl_legacy := Some id; dl_status := status_after (mg_status m); dl_attempts := mg_attempts m;
                                          dl_leaseUntil := None; dl_nextAttemptAt := mg_nextAttemptAt m; dl_lastError := mg_lastError m;
                                          dl_updatedAt := at_ |}]> ds));
  ats ← getf attempts;
  _ ← (if 0 <? mg_attempts m
       then modify (set_attempts (<[(key, 0) := {| at_result := ar_LEGACY_HISTORY_UNAVAILABLE; at_error := mg_lastError m; at_leasedAt := None;
              at_completedAt := None; at_evidence := no_evidence; at_requestSha256 := None; at_responseSha256 := None; at_evidenceState := [];
              at_legacyMessage := Some id |}]> ats))
       else mret ());
  _ ← match ack_ with
      | Some a => modify (λ s, set_acks (acks s ++ [{| ea_key := key; ea_status := ak_status a; ea_rawBody := None; ea_verified := false;
                                                       ea_source := "legacy-import" |}]) s)
      | None => mret ()
      end;
  mret key.
Definition cutover_message (generation_ : Z) (r : string * Message) : Db () :=
  ack_ ← getf (λ s, acknowledgements s !! r.1);
  key ← on_log (import_message ack_ r);
  _ ← modify (λ s, set_map (<[r.1 := (key, generation_)]> (event_map s)) s);
  modify (λ s, set_messages (alter (set_migrated key.2) r.1 (messages s)) s).
Definition set_state_new (s : Log) : Log :=
  {| events := events s; deliveries := deliveries s; attempts := attempts s; acks := acks s; retirements := retirements s;
     tenant_clock := tenant_clock s; order := order s; quarantine := quarantine s; migrated := true; ticks := ticks s |}.
(** [audited]: a table of the outbox has a row trigger of the audit. The error stands for those of
    storage that the cutover does not support. *)
Definition cutoverLegacyMessages (consumer_owned audit_available audited : bool) : Db (nat * Z) :=
  if consumer_owned || negb platform then throw OutboxCustomTableCutoverUnsupportedError else
  legacy_tx (
    if negb audit_available then throw OutboxCustomTableCutoverUnsupportedError else
    done ← getf (λ s, migrated (log s));
    current ← getf generation;
    if done : bool then n ← getf (λ s, size (event_map s)); mret (n, current) else
    if audited then throw OutboxCustomTableCutoverUnsupportedError else
    rows ← getf (λ s, js_sort legacy_le (map_to_list (messages s)));
    _ ← js_each (cutover_message (current + 1)) rows;
    _ ← on_log (modify set_state_new);
    _ ← modify (set_generation (current + 1));
    mret (length rows, current + 1)).
End legacy.
