(* ===== verification/OutboxSystem.v ===== *)
(** * OutboxSystem: sweeps that deliver events beside each other.

    [dispatchTenantEventsDue] and [dispatchEventsDue] of [outbox/src/outbox.service.ts] claim in one
    transaction, then send each event and settle it in another. Between two transactions of a sweep
    any others run, a send takes any time, a transaction can fail and a process can stop. *)
From S2P Require Import Prelude JsMap JsText OutboxSelectors Outbox OutboxLegacy.
Local Open Scope Z_scope.

(** ** Sweeps *)

(** What a port answers. *)
Inductive Reply := rp_sent (evidence : Evidence) | rp_failed (message : string) (evidence : Evidence).
Inductive Phase := ph_next | ph_sending | ph_replied (r : Reply).
(** [oc_failed]: the row is reported as an error, with the next attempt. *)
Record Outcome := {
  oc_claim : Claim;
  oc_failed : option (string * Z);
  oc_dispatched : bool;
  oc_reconciliationRequired : bool;
  oc_error : option string }.
(** A sweep after its claim: the claims left, the first of them in the works. *)
Record Sweep := { sw_as_app : bool; sw_todo : list Claim; sw_phase : Phase; sw_outcomes : list Outcome }.

Section sweeps.
Context (clock : nat → Z) (sha256 : string → string).
Context (eventLeaseMs : Z) (dispatchable : option EntityMatcher) (nextAttemptAt : Z → Z → Z).
Context {Port : Type} (registry : jsmap string (Destination Port)) (dispatcher : option Port).

(** [dispatchTenantEventsDue] and [dispatchEventsDue] up to their first send. *)
Definition dispatchTenantEventsDue (tenantId : option string) (locked : Key → bool) (limit : Z) (filter : FilterInput) : JS Log OutboxError Sweep :=
  match tenantId with
  | None => throw OutboxNotFoundError
  | Some tenantId =>
      if limit <? 1 then throw RangeError else
      only ← lift (dispatchMatcher registry filter);
      cs ← tx (claim_due clock eventLeaseMs locked (Some tenantId) limit only);
      mret {| sw_as_app := true; sw_todo := cs; sw_phase := ph_next; sw_outcomes := [] |}
  end.
Definition dispatchEventsDue (locked : Key → bool) (limit : Z) (filter : FilterInput) : JS Log OutboxError Sweep :=
  only ← lift (dispatchMatcher registry filter);
  cs ← tx (claim_due clock eventLeaseMs locked None limit only);
  mret {| sw_as_app := false; sw_todo := cs; sw_phase := ph_next; sw_outcomes := [] |}.

Definition finish (w : Sweep) (cs : list Claim) (o : Outcome) : Sweep :=
  {| sw_as_app := sw_as_app w; sw_todo := cs; sw_phase := ph_next; sw_outcomes := sw_outcomes w ++ [o] |}.
Definition set_phase p (w : Sweep) : Sweep :=
  {| sw_as_app := sw_as_app w; sw_todo := sw_todo w; sw_phase := p; sw_outcomes := sw_outcomes w |}.
(** An event without a port is left claimed. *)
Definition begin_send (w : Sweep) : option Sweep :=
  match sw_todo w, sw_phase w with
  | c :: cs, ph_next =>
      match portFor registry dispatcher (ev_entity (cl_event c)) with
      | Some _ => Some (set_phase ph_sending w)
      | None => Some (finish w cs {| oc_claim := c; oc_failed := None; oc_dispatched := false; oc_reconciliationRequired := false; oc_error := None |})
      end
  | _, _ => None
  end.
Definition settle (as_app : bool) (c : Claim) (r : Reply) (jsNow : Z) : JS Log OutboxError bool :=
  match r with
  | rp_sent evidence => (λ _, true) <$> settle_sent clock sha256 eventLeaseMs as_app c evidence
  | rp_failed message evidence => settle_failed clock sha256 as_app c message evidence (nextAttemptAt (cl_attempts c) jsNow)
  end.
(** [result]: what the transaction answered, or the text of its error. *)
Definition outcome_of (c : Claim) (r : Reply) (jsNow : Z) (result : string + bool) : Outcome :=
  match r, result with
  | rp_sent _, inr _ => {| oc_claim := c; oc_failed := None; oc_dispatched := true; oc_reconciliationRequired := false; oc_error := None |}
  | rp_sent _, inl e =>
      {| oc_claim := c; oc_failed := None; oc_dispatched := true; oc_reconciliationRequired := true;
         oc_error := Some ("Send succeeded; attempt persistence unresolved: " +:+ e) |}
  | rp_failed message _, inr changed =>
      {| oc_claim := c; oc_failed := if changed : bool then Some (message, nextAttemptAt (cl_attempts c) jsNow) else None;
         oc_dispatched := false; oc_reconciliationRequired := false; oc_error := Some message |}
  | rp_failed message _, inl e =>
      {| oc_claim := c; oc_failed := None; oc_dispatched := false; oc_reconciliationRequired := true;
         oc_error := Some ("Send failed: " +:+ message +:+ "; attempt persistence unresolved: " +:+ e) |}
  end.
Definition settle_step (w : Sweep) (jsNow : Z) (error_text : OutboxError → string) (s : Log) : option (Sweep * Log) :=
  match sw_todo w, sw_phase w with
  | c :: cs, ph_replied r =>
      let '(res, s') := settle (sw_as_app w) c r jsNow s in
      let result := match res with Ok b => inr b | Throw e => inl (error_text e) end in
      Some (finish w cs (outcome_of c r jsNow result), s')
  | _, _ => None
  end.

(** ** Other calls *)

Context (uuid : nat → string) (platform : bool).
Inductive Call :=
| call_append (appRoleName : string) (currentTenantId : option string) (contended commits : bool) (trx : Transaction) (l : list AppendEvent)
| call_ackTenant (tenantId : option string) (jsNow : Z) (i : AckInput)
| call_ack (tenantId : option string) (jsNow : Z) (i : AckInput)
| call_unbound (rawBody reason : string)
| call_retry (tenantId : string) (eventId : option Z) (immediate : bool) (jsNow : Z)
| call_retire (trim : string → string) (tenantId actorId : string) (eventId : option Z) (i : RetirementInput)
| call_enqueue (contended commits : bool) (tenantId : option string) (e : Envelope)
| call_claimDue (locked : string → bool) (limit : Z)
| call_dispatchFailure (cut : string → string) (jsNow : Z) (row : string * Message) (message : string)
| call_retryMessage (jsNow : Z) (read : Message → Z) (id : string) (immediate : bool)
| call_ackMessage (jsNow : Z) (i : MessageAck)
| call_cutover (consumer_owned audit_available audited : bool).
(** A caller of an append or an enqueue that fails may go on; its transaction may be undone in any
    case. *)
Definition undone {A} (m : JS Tables OutboxError A) : JS Tables OutboxError A := λ s,
  let '(r, s') := m s in (r, set_uuids (uuids s') (set_log (set_draws (order (log s')) (ticks (log s')) (log s)) s)).
Definition callers_tx {A} (commits : bool) (m : JS Tables OutboxError A) : JS Tables OutboxError A := if commits then m else undone m.
Definition run_call (c : Call) : JS Tables OutboxError () :=
  match c with
  | call_append appRoleName currentTenantId contended commits trx l =>
      _ ← callers_tx commits (on_log (appendManyInTransaction clock dispatchable appRoleName currentTenantId contended trx l)); mret ()
  | call_ackTenant tenantId jsNow i => on_log (ackTenantEvent clock nextAttemptAt tenantId jsNow i)
  | call_ack tenantId jsNow i => on_log (ackEvent clock nextAttemptAt tenantId jsNow i)
  | call_unbound rawBody reason => on_log (recordUnboundAck rawBody reason)
  | call_retry tenantId eventId immediate jsNow => _ ← on_log (retryEvent clock nextAttemptAt tenantId eventId immediate jsNow); mret ()
  | call_retire trim tenantId actorId eventId i => _ ← on_log (retireEvent clock trim tenantId actorId eventId i); mret ()
  | call_enqueue contended commits tenantId e => _ ← callers_tx commits (enqueue clock uuid platform contended tenantId e); mret ()
  | call_claimDue locked limit => _ ← claimDue clock platform locked limit; mret ()
  | call_dispatchFailure cut jsNow row message => _ ← recordDispatchFailure clock platform nextAttemptAt cut jsNow row message; mret ()
  | call_retryMessage jsNow read id immediate => _ ← retry clock platform nextAttemptAt jsNow read id immediate; mret ()
  | call_ackMessage jsNow i => _ ← ack clock platform nextAttemptAt jsNow i; mret ()
  | call_cutover consumer_owned audit_available audited =>
      _ ← cutoverLegacyMessages clock platform consumer_owned audit_available audited; mret ()
  end.

(** ** The system *)

(** [claims] and [sends] are histories: every claim that was made, and every event that was handed
    to a port. *)
Record Sys := { db : Tables; sweeps : gmap nat Sweep; claims : list Claim; sends : list Claim }.
Definition set_db x (s : Sys) : Sys := {| db := x; sweeps := sweeps s; claims := claims s; sends := sends s |}.
Definition set_dblog x (s : Sys) : Sys := set_db (set_log x (db s)) s.
Definition set_sweep n w (s : Sys) : Sys := {| db := db s; sweeps := <[n := w]> (sweeps s); claims := claims s; sends := sends s |}.

Inductive Sweeping := sweep_tenant (tenantId : option string) | sweep_all.
Definition run_sweep (k : Sweeping) (locked : Key → bool) (limit : Z) (filter : FilterInput) : JS Log OutboxError Sweep :=
  match k with
  | sweep_tenant tenantId => dispatchTenantEventsDue tenantId locked limit filter
  | sweep_all => dispatchEventsDue locked limit filter
  end.

Inductive step (s : Sys) : Sys → Prop :=
| st_call c : step s (set_db (run_call c (db s)).2 s)
| st_claim k locked limit filter n w l :
    sweeps s !! n = None → run_sweep k locked limit filter (log (db s)) = (Ok w, l) →
    step s {| db := set_log l (db s); sweeps := <[n := w]> (sweeps s); claims := claims s ++ sw_todo w; sends := sends s |}
| st_claim_fails k locked limit filter e l :
    run_sweep k locked limit filter (log (db s)) = (Throw e, l) → step s (set_dblog l s)
| st_begin n w w' :
    sweeps s !! n = Some w → begin_send w = Some w' →
    step s {| db := db s; sweeps := <[n := w']> (sweeps s); claims := claims s;
              sends := sends s ++ match sw_phase w' with ph_sending => firstn 1 (sw_todo w') | _ => [] end |}
| st_reply n w r :
    sweeps s !! n = Some w → sw_phase w = ph_sending → step s (set_sweep n (set_phase (ph_replied r) w) s)
| st_settle n w jsNow error_text w' l :
    sweeps s !! n = Some w → settle_step w jsNow error_text (log (db s)) = Some (w', l) → step s (set_dblog l (set_sweep n w' s))
| st_unsettled n w jsNow c cs r e :
    sweeps s !! n = Some w → sw_todo w = c :: cs → sw_phase w = ph_replied r →
    step s (set_sweep n (finish w cs (outcome_of c r jsNow (inl e))) s)
| st_stop n : step s {| db := db s; sweeps := delete n (sweeps s); claims := claims s; sends := sends s |}.

Definition start (t : Tables) : Sys := {| db := t; sweeps := ∅; claims := []; sends := [] |}.
(** Tables before the first event, with the messages there are. *)
Definition fresh (t : Tables) : Prop :=
  events (log t) = ∅ ∧ deliveries (log t) = ∅ ∧ attempts (log t) = ∅ ∧ acks (log t) = [] ∧ retirements (log t) = ∅ ∧
  tenant_clock (log t) = ∅ ∧ 0 ≤ order (log t) ≤ 2 ^ 63 ∧ migrated (log t) = false ∧ event_map t = ∅ ∧
  ∀ id m, messages t !! id = Some m → mg_migratedEvent m = None.
Definition reachable (s : Sys) : Prop := ∃ t, fresh t ∧ rtc step (start t) s.
End sweeps.
