(* ===== verification/OutboxInv.v ===== *)
(** * OutboxInv: the abstract queue.

    [move] is what can happen to the log and the queue in one go: an event is logged after the older
    ones of its tenant, with its delivery; a delivery follows a transition of [dtrans], its protocol,
    with the receipt of a retirement and the acknowledgement of an acknowledged one; the rest is
    work that leaves events and deliveries as they are. [OutboxMoves] shows that every method is a
    sequence of moves; here is what moves preserve. *)
From S2P Require Import Prelude JsMap JsText OutboxSelectors Outbox OutboxLegacy.
Local Open Scope Z_scope.

(** ** Identifiers *)

Lemma event_uuid_split ms n :
  0 ≤ n < 2 ^ 63 → event_uuid ms n = ms * 2 ^ 80 + 7 * 2 ^ 76 + n / 2 ^ 62 * 2 ^ 64 + (8 + n / 2 ^ 60 mod 4) * 2 ^ 60 + n mod 2 ^ 60.
Proof.
  intros Hn. unfold event_uuid. rewrite !Z.shiftr_div_pow2 by lia.
  change 3 with (Z.ones 2). change 1152921504606846975 with (Z.ones 60). by rewrite !Z.land_ones by lia.
Qed.
(** The digits of an order in base 2^60, 4 and 2. *)
Lemma order_digits n : 0 ≤ n < 2 ^ 63 →
  n = n / 2 ^ 62 * 2 ^ 62 + n / 2 ^ 60 mod 4 * 2 ^ 60 + n mod 2 ^ 60 ∧ 0 ≤ n / 2 ^ 62 < 2 ∧ 0 ≤ n / 2 ^ 60 mod 4 < 4 ∧ 0 ≤ n mod 2 ^ 60 < 2 ^ 60.
Proof.
  intros Hn. pose proof (Z.div_mod n (2 ^ 60) ltac:(lia)). pose proof (Z.div_mod (n / 2 ^ 60) 4 ltac:(lia)) as H4.
  rewrite Z.div_div in H4 by lia. change (2 ^ 60 * 4) with (2 ^ 62) in H4.
  pose proof (Z.mod_pos_bound n (2 ^ 60)). pose proof (Z.mod_pos_bound (n / 2 ^ 60) 4).
  assert (0 ≤ n / 2 ^ 62 < 2) by (split; [apply Z.div_pos; lia|apply Z.div_lt_upper_bound; lia]). lia.
Qed.
Lemma event_uuid_mono ms n n' : 0 ≤ n < n' → n' < 2 ^ 63 → event_uuid ms n < event_uuid ms n'.
Proof.
  intros Hn Hn'. rewrite !event_uuid_split by lia. pose proof (order_digits n ltac:(lia)). pose proof (order_digits n' ltac:(lia)).
  revert H H0. generalize (n / 2 ^ 62) (n' / 2 ^ 62) (n / 2 ^ 60 mod 4) (n' / 2 ^ 60 mod 4) (n mod 2 ^ 60) (n' mod 2 ^ 60). lia.
Qed.

(** ** Positions *)

Lemma before_irrefl p : before p p = false.
Proof. unfold before. lia. Qed.
Lemma before_trans p q r : before p q = true → before q r = true → before p r = true.
Proof. unfold before. lia. Qed.
Lemma before_asym p q : before p q = true → before q p = false.
Proof. unfold before. lia. Qed.

(** ** The protocol *)

(** The transitions of a delivery of an event [e]. *)
Inductive dtrans (e : Event) (d : Delivery) : Delivery → Prop :=
| dt_claim now at_ lease : eligible now e d = true → dtrans e d (claimed lease at_ d)
| dt_extend at_ lease : dl_status d = SENT → dtrans e d (extended lease at_ d)
| dt_fail message next at_ : dl_status d = SENT → dtrans e d (failed message next at_ d)
| dt_ack st next at_ : terminal (dl_status d) = false → dtrans e d (acknowledged (status_of st) next at_ d)
| dt_retry next at_ : dl_status d = ERROR → dtrans e d (retried next at_ d)
| dt_retire now at_ :
    terminal (dl_status d) = false → (∀ t, dl_leaseUntil d = Some t → 1000 * (t / 1000) ≤ now) → dtrans e d (retired at_ d)
| dt_unresolved next message at_ :
    dl_status d = SENT_UNRESOLVED →
    dtrans e d {| dl_legacy := dl_legacy d; dl_status := ERROR; dl_attempts := dl_attempts d; dl_leaseUntil := dl_leaseUntil d;
                  dl_nextAttemptAt := next; dl_lastError := Some message; dl_updatedAt := at_ |}.

(** What a delivery starts as: to be sent, or what the cutover made of a message. *)
Definition initial (d : Delivery) : Prop :=
  dl_leaseUntil d = None ∧
  ((dl_legacy d = None ∧ dl_status d = PENDING ∧ dl_attempts d = 0) ∨ (is_Some (dl_legacy d) ∧ ∃ st, dl_status d = status_after st)).

Lemma dtrans_open e d d' : dtrans e d d' → terminal (dl_status d) = false.
Proof. intros Hd. destruct Hd as [now at_ lease H|at_ lease H|m n a H|st n a H|n a H|now a H H'|n m a H]; revert H; unfold eligible; by destruct (dl_status d). Qed.
Lemma dtrans_terminal e d d' : rtc (dtrans e) d d' → terminal (dl_status d) = true → d' = d.
Proof. destruct 1 as [|? ? ? Hd]; [done|]. intros Ht. apply dtrans_open in Hd. congruence. Qed.
Lemma dtrans_attempts e d d' : rtc (dtrans e) d d' → dl_attempts d ≤ dl_attempts d'.
Proof. induction 1 as [|? ? ? Hd _ IH]; [done|]. destruct Hd; simpl in *; lia. Qed.
Lemma dtrans_legacy e d d' : rtc (dtrans e) d d' → dl_legacy d' = dl_legacy d.
Proof. induction 1 as [|? ? ? Hd _ IH]; [done|]. rewrite IH. by destruct Hd. Qed.
Definition leased (d : Delivery) : Prop := dl_status d = SENT → is_Some (dl_leaseUntil d).
Lemma dtrans_leased e d d' : dtrans e d d' → leased d → leased d'.
Proof.
  unfold leased. destruct 1 as [| | |st ? ? ?| | |]; simpl; try done; try eauto; try (intros; congruence).
  by destruct st.
Qed.

(** ** Moves *)

(** What every move keeps. *)
Record kept (s s' : Log) : Prop := {
  kp_acks : acks s `prefix_of` acks s';
  kp_attempts x : is_Some (attempts s !! x) → is_Some (attempts s' !! x);
  kp_migrated : migrated s' = migrated s }.

(** A delivery of no message is acknowledged by a verified acknowledgement. *)
Definition acked_by (k : Key) (d : Delivery) (s : Log) : Prop :=
  dl_status d = ACKED → dl_legacy d = None → ∃ a, a ∈ acks s ∧ ea_key a = k ∧ ea_status a = ack_ACKED ∧ ea_verified a = true.

Inductive move (s s' : Log) : Prop :=
| mv_work :
    kept s s' → events s' = events s → deliveries s' = deliveries s → retirements s' = retirements s →
    tenant_clock s' = tenant_clock s → order s' = order s ∨ order s ≤ order s' ≤ 2 ^ 63 → move s s'
| mv_clock t ms :
    default 0 (tenant_clock s !! t) ≤ ms → s' = set_clock (<[t := ms]> (tenant_clock s)) s → move s s'
| mv_event t ms e (d : option Delivery) :
    kept s s' → tenant_clock s !! t = Some ms → 0 ≤ ms → ev_createdAt e = ms → order s < 2 ^ 63 →
    (∀ k e', events s !! k = Some e' → k.1 = t → ev_idempotencyKey e' ≠ ev_idempotencyKey e) →
    match d with Some d => initial d | None => True end →
    events s' = <[(t, event_uuid ms (order s)) := e]> (events s) →
    deliveries s' = match d with Some d => <[(t, event_uuid ms (order s)) := d]> (deliveries s) | None => deliveries s end →
    retirements s' = retirements s → tenant_clock s' = tenant_clock s → order s' = order s + 1 → move s s'
| mv_delivery k e d d' :
    kept s s' → events s !! k = Some e → deliveries s !! k = Some d → dtrans e d d' → dl_status d' ≠ RETIRED → acked_by k d' s' →
    events s' = events s → deliveries s' = <[k := d']> (deliveries s) → retirements s' = retirements s →
    tenant_clock s' = tenant_clock s → order s' = order s → move s s'
| mv_retire k e d r d' :
    kept s s' → events s !! k = Some e → deliveries s !! k = Some d → dtrans e d d' → dl_status d' = RETIRED →
    (∀ k' r', retirements s !! k' = Some r' → k'.1 = k.1 → rt_idempotencyKey r' ≠ rt_idempotencyKey r) →
    events s' = events s → deliveries s' = <[k := d']> (deliveries s) → retirements s' = <[k := r]> (retirements s) →
    tenant_clock s' = tenant_clock s → order s' = order s → move s s'.

Lemma log_kept_refl s : kept s s.
Proof. by split. Qed.
#[export] Hint Resolve log_kept_refl : core.
Lemma log_kept_trans s1 s2 s3 : kept s1 s2 → kept s2 s3 → kept s1 s3.
Proof. intros [A1 A2 A3] [B1 B2 B3]. split; [by etrans|auto|congruence]. Qed.
Lemma move_kept s s' : move s s' → kept s s'.
Proof. destruct 1 as [H|t ms H ->|t ms e d H|k e d d' H|k e d r d' H]; done. Qed.

(** ** What moves preserve *)

Record Basic (s : Log) : Prop := {
  b_order : 0 ≤ order s ≤ 2 ^ 63;
  b_ids k e : events s !! k = Some e →
    0 ≤ ev_createdAt e ≤ default 0 (tenant_clock s !! k.1) ∧ ∃ n, k.2 = event_uuid (ev_createdAt e) n ∧ 0 ≤ n < order s;
  b_keys k e k' e' : events s !! k = Some e → events s !! k' = Some e' → k.1 = k'.1 → ev_idempotencyKey e = ev_idempotencyKey e' → k = k';
  b_delivered k d : deliveries s !! k = Some d → is_Some (events s !! k);
  b_leased k d : deliveries s !! k = Some d → leased d;
  b_acked k d : deliveries s !! k = Some d → acked_by k d s;
  b_retired k : is_Some (retirements s !! k) ↔ ∃ d, deliveries s !! k = Some d ∧ dl_status d = RETIRED;
  b_receipts k r k' r' : retirements s !! k = Some r → retirements s !! k' = Some r' → k.1 = k'.1 → rt_idempotencyKey r = rt_idempotencyKey r' → k = k' }.

(** How a log relates to a later one. *)
Record Advance (s s' : Log) : Prop := {
  adv_acks : acks s `prefix_of` acks s';
  adv_attempts x : is_Some (attempts s !! x) → is_Some (attempts s' !! x);
  adv_migrated : migrated s = true → migrated s' = true;
  adv_events k e : events s !! k = Some e → events s' !! k = Some e;
  adv_new k e k0 e0 : events s !! k = None → events s' !! k = Some e → events s !! k0 = Some e0 → k0.1 = k.1 →
    before (position k0 e0) (position k e) = true;
  adv_later k e : events s !! k = None → events s' !! k = Some e → default 0 (tenant_clock s !! k.1) ≤ ev_createdAt e;
  adv_deliveries k d e : events s !! k = Some e → deliveries s !! k = Some d → ∃ d', deliveries s' !! k = Some d' ∧ rtc (dtrans e) d d';
  adv_start k d' : deliveries s !! k = None → deliveries s' !! k = Some d' →
    events s !! k = None ∧ ∃ e d, events s' !! k = Some e ∧ initial d ∧ rtc (dtrans e) d d';
  adv_retirements k r : retirements s !! k = Some r → retirements s' !! k = Some r;
  adv_clock t : default 0 (tenant_clock s !! t) ≤ default 0 (tenant_clock s' !! t);
  adv_order : order s ≤ order s' }.

Lemma advance_refl s : Advance s s.
Proof. split; try done; try congruence. intros k d e _ Hd. exists d. by split. Qed.
Lemma advance_trans s1 s2 s3 : Advance s1 s2 → Advance s2 s3 → Advance s1 s3.
Proof.
  intros H1 H2. split.
  - etrans; by eapply adv_acks.
  - intros x Hx. by apply (adv_attempts _ _ H2), (adv_attempts _ _ H1).
  - intros Hm. by apply (adv_migrated _ _ H2), (adv_migrated _ _ H1).
  - intros k e He. by eapply adv_events, adv_events.
  - intros k e k0 e0 Hk He H0 Ht. destruct (events s2 !! k) as [e2|] eqn:Hk2.
    + pose proof (adv_events _ _ H2 k e2 Hk2). simplify_eq. by eapply (adv_new _ _ H1).
    + eapply (adv_new _ _ H2); [done..|by eapply adv_events|done].
  - intros k e Hk He. destruct (events s2 !! k) as [e2|] eqn:Hk2.
    + pose proof (adv_events _ _ H2 k e2 Hk2). simplify_eq. by eapply (adv_later _ _ H1).
    + etrans; [apply (adv_clock _ _ H1)|by eapply (adv_later _ _ H2)].
  - intros k d e He Hd. destruct (adv_deliveries _ _ H1 k d e He Hd) as (d2 & Hd2 & Ht2).
    destruct (adv_deliveries _ _ H2 k d2 e (adv_events _ _ H1 _ _ He) Hd2) as (d3 & Hd3 & Ht3). exists d3. split; [done|]. by etrans.
  - intros k d' Hn Hd'. destruct (deliveries s2 !! k) as [d2|] eqn:Hd2.
    + destruct (adv_start _ _ H1 k d2 Hn Hd2) as (He1 & e & d & He & Hi & Ht). split; [done|].
      destruct (adv_deliveries _ _ H2 k d2 e He Hd2) as (d3 & Hd3 & Ht3). simplify_eq. exists e, d.
      split; [by eapply adv_events|]. split; [done|]. by etrans.
    + destruct (adv_start _ _ H2 k d' Hd2 Hd') as (He2 & Hrest). split; [|done].
      destruct (events s1 !! k) as [e|] eqn:He1; [|done]. apply (adv_events _ _ H1) in He1. congruence.
  - intros k r Hr. by apply (adv_retirements _ _ H2), (adv_retirements _ _ H1).
  - intros t. etrans; [apply (adv_clock _ _ H1)|apply (adv_clock _ _ H2)].
  - etrans; [apply (adv_order _ _ H1)|apply (adv_order _ _ H2)].
Qed.

(** A new event takes the next order, at a time its tenant's clock has reached. *)
Section new_event.
Context (s : Log) (t : string) (ms : Z) (e : Event).
Let k : Key := (t, event_uuid ms (order s)).
Context (Hb : Basic s) (Hc : tenant_clock s !! t = Some ms) (Hce : ev_createdAt e = ms) (Ho : order s < 2 ^ 63).

Lemma new_event_after k' e' : events s !! k' = Some e' → k'.1 = t → before (position k' e') (position k e) = true.
Proof.
  intros Hk' Ht. destruct (b_ids _ Hb k' e' Hk') as ([? Hle] & n & Hid & Hn). rewrite Ht, Hc in Hle. simpl in Hle.
  unfold before, position. simpl. rewrite Hce, Hid. destruct (Z.eq_dec (ev_createdAt e') ms) as [->|]; [|lia].
  pose proof (event_uuid_mono ms n (order s)). lia.
Qed.
Lemma new_event_fresh : events s !! k = None.
Proof.
  destruct (events s !! k) as [e'|] eqn:Hk; [|done]. pose proof (new_event_after k e' Hk eq_refl) as Hbf.
  destruct (b_ids _ Hb k e' Hk) as ([? Hle] & n & Hid & Hn). simpl in Hle. rewrite Hc in Hle. simpl in Hle.
  unfold before, position in Hbf. simpl in Hbf, Hid. rewrite Hce in Hbf. destruct (Z.eq_dec (ev_createdAt e') ms) as [He|]; [lia|].
  rewrite !event_uuid_split in Hid by lia. pose proof (order_digits n ltac:(lia)). pose proof (order_digits (order s) ltac:(lia)). lia.
Qed.
Lemma new_event_undelivered : deliveries s !! k = None.
Proof.
  destruct (deliveries s !! k) eqn:Hdk; [|done]. apply (b_delivered _ Hb) in Hdk. rewrite new_event_fresh in Hdk. by destruct Hdk.
Qed.
End new_event.

Lemma move_advance s s' : Basic s → move s s' → Advance s s'.
Proof.
  intros Hb Hm. destruct (move_kept _ _ Hm) as [Hka Hkt Hkm].
  destruct Hm as [_ He Hd Hr Hc Ho|t ms Hms ->|t ms e d _ Hc Hms Hce Ho Hkeys Hi He Hd Hr Hcl Hor|k e d d' _ Hke Hkd Ht Hnr Hak He Hd Hr Hc Ho|k e d r d' _ Hke Hkd Ht Hrt Hu He Hd Hr Hc Ho].
  - split; rewrite ?Hkm, ?He, ?Hd, ?Hr, ?Hc; try done; try lia; try congruence. intros k d e _ Hdk. exists d. by split.
  - split; simpl; try done; try congruence; [intros k d e _ Hd; exists d; by split|].
    intros t'. destruct (decide (t' = t)) as [->|]; [by rewrite lookup_insert_eq|by rewrite lookup_insert_ne].
  - pose proof (new_event_after s t ms e Hb Hc Hce Ho) as Hafter. pose proof (new_event_fresh s t ms e Hb Hc Hce Ho) as Hf.
    pose proof (new_event_undelivered s t ms e Hb Hc Hce Ho) as Hud. set (k := (t, event_uuid ms (order s))) in *.
    split; rewrite ?Hkm, ?He, ?Hd, ?Hr, ?Hcl; try done; try lia.
    + intros k' e' Hk'. rewrite lookup_insert_ne by congruence. done.
    + intros k' e' k0 e0 Hn. destruct (decide (k' = k)) as [->|]; [rewrite lookup_insert_eq; intros [= <-]; by apply Hafter|].
      rewrite lookup_insert_ne by done. congruence.
    + intros k' e' Hn. destruct (decide (k' = k)) as [->|]; [rewrite lookup_insert_eq; intros [= <-]|rewrite lookup_insert_ne by done; congruence].
      unfold k. simpl. rewrite Hc. simpl. lia.
    + intros k' d1 e1 He1 Hd1. assert (k' ≠ k) by congruence. exists d1. split; [|done]. destruct d; [by rewrite lookup_insert_ne|done].
    + intros k' d1 Hn. destruct d as [d|]; [|congruence]. destruct (decide (k' = k)) as [->|]; [|rewrite lookup_insert_ne by done; congruence].
      rewrite lookup_insert_eq. intros [= <-]. split; [done|]. exists e, d. rewrite lookup_insert_eq. split; [done|]. split; [done|apply rtc_refl].
  - split; rewrite ?Hkm, ?He, ?Hd, ?Hr, ?Hc; try done; try lia; try congruence; intros k' d1.
    + intros e1 He1 Hd1. destruct (decide (k' = k)) as [->|]; [|rewrite lookup_insert_ne by done; exists d1; by split].
      rewrite lookup_insert_eq. simplify_eq. eexists. split; [done|]. by apply rtc_once.
    + intros Hn. destruct (decide (k' = k)) as [->|]; [congruence|]. rewrite lookup_insert_ne by done. congruence.
  - assert (retirements s !! k = None) as Hnr.
    { apply eq_None_not_Some. intros (d0 & Hd0 & Hs)%(b_retired _ Hb). simplify_eq. apply dtrans_open in Ht. by rewrite Hs in Ht. }
    split; rewrite ?Hkm, ?He, ?Hd, ?Hr, ?Hc; try done; try lia; try congruence; intros k' d1.
    + intros e1 He1 Hd1. destruct (decide (k' = k)) as [->|]; [|rewrite lookup_insert_ne by done; exists d1; by split].
      rewrite lookup_insert_eq. simplify_eq. eexists. split; [done|]. by apply rtc_once.
    + intros Hn. destruct (decide (k' = k)) as [->|]; [congruence|]. rewrite lookup_insert_ne by done. congruence.
    + intros Hr'. rewrite lookup_insert_ne; [done|congruence].
Qed.

Lemma acked_by_prefix k d s s' : acks s `prefix_of` acks s' → acked_by k d s → acked_by k d s'.
Proof.
  intros [l Hl] Ha Hs Hn. destruct (Ha Hs Hn) as (a & Hin & ?). exists a. split; [|done]. rewrite Hl. apply elem_of_app. by left.
Qed.
Lemma initial_leased d : initial d → leased d.
Proof. intros (Hl & [(_ & Hp & _)|(_ & st & Hst)]) Hs; [congruence|]. rewrite Hst in Hs. by destruct st. Qed.
Lemma initial_open k d s : initial d → acked_by k d s ∧ dl_status d ≠ RETIRED.
Proof.
  intros (_ & [(_ & Hp & _)|(Hl & st & Hst)]).
  - split; [|congruence]. intros Hs. congruence.
  - split; [intros _ Hn; rewrite Hn in Hl; by destruct Hl|rewrite Hst; by destruct st].
Qed.

(** A delivery that moves keeps what is said of its row alone. *)
Lemma basic_delivery s s' k e d d' :
  Basic s → kept s s' → events s !! k = Some e → deliveries s !! k = Some d → dtrans e d d' → acked_by k d' s' →
  events s' = events s → deliveries s' = <[k := d']> (deliveries s) → tenant_clock s' = tenant_clock s → order s' = order s →
  (∀ k, is_Some (retirements s' !! k) ↔ ∃ d, deliveries s' !! k = Some d ∧ dl_status d = RETIRED) →
  (∀ k r k' r', retirements s' !! k = Some r → retirements s' !! k' = Some r' → k.1 = k'.1 → rt_idempotencyKey r = rt_idempotencyKey r' → k = k') →
  Basic s'.
Proof.
  intros Hb Hk Hke Hkd Ht Hak He Hd Hc Ho Hr Hu. split; rewrite ?He, ?Hd, ?Hc, ?Ho; try apply Hb.
  - intros k' d1. destruct (decide (k' = k)) as [->|]; [by rewrite Hke|]. rewrite lookup_insert_ne by done. apply (b_delivered _ Hb).
  - intros k' d1. destruct (decide (k' = k)) as [->|]; [rewrite lookup_insert_eq; intros [= <-]|rewrite lookup_insert_ne by done; apply (b_leased _ Hb)].
    by eapply dtrans_leased, (b_leased _ Hb).
  - intros k' d1. destruct (decide (k' = k)) as [->|]; [rewrite lookup_insert_eq; by intros [= <-]|rewrite lookup_insert_ne by done].
    intros Hd1. eapply acked_by_prefix; [apply (kp_acks _ _ Hk)|by apply (b_acked _ Hb)].
  - rewrite <- Hd. exact Hr.
  - exact Hu.
Qed.
Lemma move_basic s s' : Basic s → move s s' → Basic s'.
Proof.
  intros Hb Hm. destruct Hm as [Hk He Hd Hr Hc Ho|t ms Hms ->|t ms e d Hk Hc Hms Hce Ho Hkeys Hi He Hd Hr Hcl Hor|k e d d' Hk Hke Hkd Ht Hnr Hak He Hd Hr Hc Ho|k e d r d' Hk Hke Hkd Ht Hrt Hu He Hd Hr Hc Ho].
  - pose proof (b_order _ Hb). split; rewrite ?He, ?Hd, ?Hr, ?Hc; try apply Hb; [lia| |].
    + intros k e Hke. destruct (b_ids _ Hb k e Hke) as (? & n & ? & ?). split; [done|]. exists n. split; [done|lia].
    + intros k d Hkd. eapply acked_by_prefix; [apply (kp_acks _ _ Hk)|by apply (b_acked _ Hb)].
  - split; try apply Hb. simpl. intros k e Hke. destruct (b_ids _ Hb k e Hke) as (? & ?). split; [|done].
    destruct (decide (k.1 = t)) as [<-|]; [rewrite lookup_insert_eq; simpl; lia|by rewrite lookup_insert_ne].
  - pose proof (new_event_fresh s t ms e Hb Hc Hce Ho) as Hf. pose proof (new_event_undelivered s t ms e Hb Hc Hce Ho) as Hud.
    pose proof (b_order _ Hb). set (k := (t, event_uuid ms (order s))) in *.
    assert (∀ k' d', deliveries s' !! k' = Some d' → (k' = k ∧ d = Some d') ∨ (k' ≠ k ∧ deliveries s !! k' = Some d')) as Hcase.
    { intros k' d'. rewrite Hd. destruct d as [d|]; [|right; split; [|done]; congruence].
      destruct (decide (k' = k)) as [->|]; [rewrite lookup_insert_eq; intros [= <-]; by left|rewrite lookup_insert_ne by done; by right]. }
    split; rewrite ?He, ?Hr, ?Hcl; try apply Hb; [lia|..].
    + intros k' e'. destruct (decide (k' = k)) as [->|]; [rewrite lookup_insert_eq; intros [= <-]|rewrite lookup_insert_ne by done].
      * unfold k. simpl. rewrite Hc, Hce. simpl. split; [lia|]. exists (order s). split; [done|lia].
      * intros Hk'. destruct (b_ids _ Hb k' e' Hk') as (? & m & ? & ?). split; [done|]. exists m. split; [done|lia].
    + intros k1 e1 k2 e2. destruct (decide (k1 = k)) as [->|], (decide (k2 = k)) as [->|]; rewrite ?lookup_insert_eq, ?lookup_insert_ne by done; try done.
      * intros [= <-] H2 Ht Hes. symmetry in Ht. by destruct (Hkeys k2 e2 H2 Ht).
      * intros H1 [= <-] Ht Hes. by destruct (Hkeys k1 e1 H1 Ht).
      * apply (b_keys _ Hb).
    + intros k' d' [[-> _]|[? Hd']]%Hcase; [by rewrite lookup_insert_eq|]. rewrite lookup_insert_ne by done. by eapply (b_delivered _ Hb).
    + intros k' d' [[-> ->]|[? Hd']]%Hcase; [by apply initial_leased|by apply (b_leased _ Hb) in Hd'].
    + intros k' d' [[-> ->]|[? Hd']]%Hcase; [by apply initial_open|]. eapply acked_by_prefix; [apply (kp_acks _ _ Hk)|by apply (b_acked _ Hb)].
    + intros k'. rewrite (b_retired _ Hb). split; intros (d0 & Hd0 & Hs).
      * exists d0. split; [|done]. rewrite Hd. destruct d as [d|]; [|done]. rewrite lookup_insert_ne; [done|congruence].
      * apply Hcase in Hd0 as [[-> ->]|[? Hd0]]; [|by exists d0]. by destruct (initial_open k d0 s Hi).
  - eapply (basic_delivery s s' k e d d'); try done; rewrite Hr; [|apply Hb]. intros k'. rewrite (b_retired _ Hb), Hd.
    destruct (decide (k' = k)) as [->|]; [rewrite lookup_insert_eq|by rewrite lookup_insert_ne].
    split; intros (d0 & Hd0 & Hs); simplify_eq. apply dtrans_open in Ht. by rewrite Hs in Ht.
  - eapply (basic_delivery s s' k e d d'); try done; [intros ?; congruence|rewrite Hr..].
    + intros k'. rewrite Hd. destruct (decide (k' = k)) as [->|]; [rewrite !lookup_insert_eq; split; [by eexists|done]|].
      rewrite !lookup_insert_ne by done. apply (b_retired _ Hb).
    + intros k1 r1 k2 r2. destruct (decide (k1 = k)) as [->|], (decide (k2 = k)) as [->|]; rewrite ?lookup_insert_eq, ?lookup_insert_ne by done; try done.
      * intros [= <-] H2 Htn Hes. symmetry in Htn. by destruct (Hu k2 r2 H2 Htn).
      * intros H1 [= <-] Htn Hes. by destruct (Hu k1 r1 H1 Htn).
      * apply (b_receipts _ Hb).
Qed.

(** ** Sequences of moves *)

Lemma moves_basic s s' : rtc move s s' → Basic s → Basic s'.
Proof. induction 1 as [|? ? ? Hm _ IH]; [done|]. intros Hb. by apply IH, (move_basic _ _ Hb). Qed.
Lemma moves_advance s s' : rtc move s s' → Basic s → Advance s s'.
Proof.
  induction 1 as [|? ? ? Hm _ IH]; [intros _; apply advance_refl|]. intros Hb.
  eapply advance_trans; [by apply move_advance|]. by apply IH, (move_basic _ _ Hb).
Qed.
Lemma moves_migrated s s' : rtc move s s' → migrated s' = migrated s.
Proof. induction 1 as [|? ? ? Hm _ IH]; [done|]. rewrite IH. apply (kp_migrated _ _ (move_kept _ _ Hm)). Qed.

(** A change that is a sequence of moves. *)
Definition evolves (s s' : Log) : Prop := Basic s → rtc move s s'.
#[export] Instance evolves_preorder : PreOrder evolves.
Proof.
  split; [by intros s _|]. intros s1 s2 s3 H1 H2 Hb. etrans; [by apply H1|]. apply H2. eapply moves_basic; eauto.
Qed.

(** ** The switch *)

(** The queue in its environment: moves, and the switch from the messages to the events. *)
Inductive queue_step (s s' : Log) : Prop :=
| qs_move : move s s' → queue_step s s'
| qs_switch : s' = set_state_new s → queue_step s s'.
Lemma queue_step_sound s s' : queue_step s s' → Basic s → Basic s' ∧ Advance s s'.
Proof.
  intros [Hm| ->] Hb; [split; [by eapply move_basic|by apply move_advance]|]. split; [by destruct Hb; split|].
  split; try done; simpl; try congruence. intros k d e _ Hd. by exists d.
Qed.
Lemma queue_steps_sound s s' : rtc queue_step s s' → Basic s → Basic s' ∧ Advance s s'.
Proof.
  induction 1 as [s|s1 s2 s3 Hs _ IH]; intros Hb; [split; [done|apply advance_refl]|].
  destruct (queue_step_sound _ _ Hs Hb) as [Hb2 Ha]. destruct (IH Hb2) as [Hb3 Ha']. split; [done|]. by eapply advance_trans.
Qed.
Lemma moves_queue_steps s s' : rtc move s s' → rtc queue_step s s'.
Proof. intros Hm. eapply rtc_subrel; [|exact Hm]. intros. by apply qs_move. Qed.
