(* ===== verification/OutboxMoves.v ===== *)
(** * OutboxMoves: every method evolves the log, what a claim does, and the
    oldest open event of an aggregate. *)
From S2P Require Import Prelude JsMap JsText OutboxSelectors Outbox OutboxLegacy OutboxInv.

Local Open Scope Z_scope.

(** Runs a method on a state. *)
Ltac run := unfold mbind, js_bind, mret, js_ret, getf, modify, throw, throw_if; cbn.

Definition evolving {A} (m : JS Log OutboxError A) : Prop := ∀ s, evolves s (m s).2.
Lemma evolving_pure {A} (m : JS Log OutboxError A) : (∀ s, (m s).2 = s) → evolving m.
Proof. intros Hm s. by rewrite Hm. Qed.
Lemma evolving_bind {A B} (m : JS Log OutboxError A) (f : A → JS Log OutboxError B) :
  evolving m → (∀ a, evolving (f a)) → evolving (m ≫= f).
Proof.
  intros Hm Hf s. specialize (Hm s). unfold mbind, js_bind. destruct (m s) as [[a|e] s1]; simpl in *; [|done].
  etrans; [exact Hm|apply Hf].
Qed.
(** A change by one move. *)
Lemma move_evolves s s' : (Basic s → move s s') → evolves s s'.
Proof. intros Hm Hb. by apply rtc_once, Hm. Qed.
Lemma work_evolves s s' :
  events s' = events s → deliveries s' = deliveries s → retirements s' = retirements s → tenant_clock s' = tenant_clock s →
  order s' = order s → kept s s' → evolves s s'.
Proof. intros ? ? ? ? ? ?. apply move_evolves. intros _. apply mv_work; [done..|by left]. Qed.
Lemma draws_evolves o t s : order s ≤ o → o ≤ 2 ^ 63 ∨ o = order s → evolves s (set_draws o t s).
Proof. intros H1 H2. apply move_evolves. intros _. apply mv_work; [by split|done..|]. simpl. lia. Qed.
Lemma evolves_tx {A} (m : JS Log OutboxError A) s : evolves s (m s).2 → evolves s (tx m s).2.
Proof.
  unfold tx. intros Hm. destruct (m s) as [[a|e] s1]; [exact Hm|]. intros Hb. pose proof (moves_advance _ _ (Hm Hb) Hb) as Ha.
  pose proof (moves_basic _ _ (Hm Hb) Hb) as Hb1. revert Hb. apply draws_evolves; [apply (adv_order _ _ Ha)|left; apply (b_order _ Hb1)].
Qed.
Lemma evolving_tx {A} (m : JS Log OutboxError A) : evolving m → evolving (tx m).
Proof. intros Hm s. by apply evolves_tx. Qed.

Section moves.
Context (clock : nat → Z) (sha256 : string → string).
Context (eventLeaseMs : Z) (dispatchable : option EntityMatcher) (nextAttemptAt : Z → Z → Z).

Lemma evolving_clock : evolving (clock_timestamp clock).
Proof. intros s. apply draws_evolves; [simpl; lia|by right]. Qed.

(** ** Appending *)

Lemma tick_clock_evolves t s :
  let '(r, s') := tick_clock clock t s in
  ∃ ms, r = Ok ms ∧ 0 ≤ ms ∧ tenant_clock s' !! t = Some ms ∧ events s' = events s ∧ deliveries s' = deliveries s ∧ evolves s s'.
Proof.
  unfold tick_clock, clock_timestamp. run. eexists. split; [done|]. split; [lia|]. split; [by rewrite lookup_insert_eq|].
  split; [done|]. split; [done|].
  etrans; [apply (evolving_clock s)|]. apply move_evolves. intros _. eapply (mv_clock (set_draws _ _ s) _ t); [|reflexivity]. simpl. lia.
Qed.
Lemma event_by_key_none t key s : event_by_key t key s = None → ∀ k e, events s !! k = Some e → k.1 = t → ev_idempotencyKey e ≠ key.
Proof.
  unfold event_by_key. intros Hf k e Hk Ht He. pose proof (List.find_none _ _ Hf (k, e)) as Hn.
  rewrite <- list_elem_of_In, elem_of_map_to_list in Hn. specialize (Hn Hk). simpl in Hn.
  rewrite Ht, He, !String.eqb_refl in Hn. done.
Qed.
Lemma event_by_key_some t key s row : event_by_key t key s = Some row → events s !! row.1 = Some row.2 ∧ row.1.1 = t ∧ ev_idempotencyKey row.2 = key.
Proof.
  unfold event_by_key. intros [Hin Hb]%List.find_some. rewrite <- list_elem_of_In in Hin. destruct row as [k e]. rewrite elem_of_map_to_list in Hin.
  apply andb_true_iff in Hb as [Ht He]. by apply String.eqb_eq in Ht, He.
Qed.

(** A new event, with its delivery, at the next order. *)
Lemma insert_event_evolves s t ms e (d : option Delivery) s' :
  tenant_clock s !! t = Some ms → 0 ≤ ms → ev_createdAt e = ms → order s < 2 ^ 63 →
  (∀ k' e', events s !! k' = Some e' → k'.1 = t → ev_idempotencyKey e' ≠ ev_idempotencyKey e) →
  match d with Some d => initial d | None => True end →
  let k := (t, event_uuid ms (order s)) in
  events s' = <[k := e]> (events s) → deliveries s' = (match d with Some d => <[k := d]> (deliveries s) | None => deliveries s end) →
  retirements s' = retirements s → tenant_clock s' = tenant_clock s → order s' = order s + 1 → kept s s' → evolves s s'.
Proof. intros. apply move_evolves. intros _. by eapply (mv_event _ _ t ms e d). Qed.

Lemma append_one_evolves ms t event s :
  tenant_clock s !! t = Some ms → 0 ≤ ms →
  evolves s (append_one clock dispatchable ms t event s).2 ∧ tenant_clock (append_one clock dispatchable ms t event s).2 = tenant_clock s.
Proof.
  intros Hc Hms. unfold append_one. destruct (_ || _); [split; [by apply evolving_pure|done]|].
  unfold nextval, clock_timestamp. run. destruct (Z.ltb_spec (order s) (2 ^ 63)) as [Ho|]; [|by split]. run.
  destruct (event_by_key t _ _) as [row|] eqn:Hf.
  { destruct (same_fact _ _); run; (split; [|done]); (apply draws_evolves; lia). }
  pose proof (event_by_key_none _ _ _ Hf) as Hkeys. simpl in Hkeys. destruct (hasDestination _ _) eqn:Hd; run; (split; [|done]).
  - eapply (insert_event_evolves s t ms _ (Some (new_delivery _))); last done; last reflexivity; last reflexivity; last reflexivity; last reflexivity; last reflexivity; [exact Hc|exact Hms|done|exact Ho|exact Hkeys|split; [done|by left]].
  - eapply (insert_event_evolves s t ms _ None); last done; last reflexivity; last reflexivity; last reflexivity; last reflexivity; last reflexivity; [exact Hc|exact Hms|done|exact Ho|exact Hkeys|done].
Qed.
Lemma append_each_evolves ms t l s : tenant_clock s !! t = Some ms → 0 ≤ ms → evolves s (append_each clock dispatchable ms t l s).2.
Proof.
  revert s. induction l as [|event l IH]; intros s Hc Hms; [done|]. cbn [append_each].
  destruct (append_one_evolves ms t event s Hc Hms) as [H1 H2]. unfold mbind, js_bind.
  destruct (append_one _ _ _ _ _ s) as [[row|e] s1]; simpl in *; [|done]. rewrite <- H2 in Hc.
  specialize (IH s1 Hc Hms). destruct (append_each _ _ _ _ _ s1) as [[rows|e] s2]; simpl in *; by etrans.
Qed.
Lemma evolving_append appRoleName current contended trx l : evolving (appendManyInTransaction clock dispatchable appRoleName current contended trx l).
Proof.
  unfold appendManyInTransaction. destruct l as [|event l]; [by apply evolving_pure|]. destruct (negb _); [by apply evolving_pure|].
  destruct (tr_tenantId trx) as [t|]; [|by apply evolving_pure]. destruct (append_reason _ _); [by apply evolving_pure|].
  destruct (negb _); [by apply evolving_pure|]. destruct contended; [by apply evolving_pure|]. destruct (match tr_chainKey trx with _ => _ end); [by apply evolving_pure|].
  intros s. pose proof (tick_clock_evolves t s) as Ht. unfold mbind, js_bind. destruct (tick_clock clock t s) as [r s1].
  destruct Ht as (ms & -> & Hms & Hc & _ & _ & Hev). etrans; [exact Hev|]. by apply append_each_evolves.
Qed.

(** ** One delivery *)

(** A change of one delivery by the protocol. *)
Lemma set_delivery_evolves s k d d' s' :
  deliveries s !! k = Some d → (∀ e, events s !! k = Some e → dtrans e d d') → dl_status d' ≠ RETIRED → acked_by k d' s' →
  events s' = events s → deliveries s' = <[k := d']> (deliveries s) → retirements s' = retirements s → tenant_clock s' = tenant_clock s →
  order s' = order s → kept s s' → evolves s s'.
Proof.
  intros Hd Ht Hr Ha He Hdl Hrt Hc Ho Hk. apply move_evolves. intros Hb. destruct (b_delivered _ Hb k d Hd) as [e Hke].
  eapply (mv_delivery s s' k e d d'); eauto.
Qed.
Lemma open_delivery_evolves s k d d' s' :
  deliveries s !! k = Some d → (∀ e, events s !! k = Some e → dtrans e d d') → terminal (dl_status d') = false →
  events s' = events s → deliveries s' = <[k := d']> (deliveries s) → retirements s' = retirements s → tenant_clock s' = tenant_clock s →
  order s' = order s → kept s s' → evolves s s'.
Proof.
  intros Hd Ht Hr He Hdl Hrt Hc Ho Hk. eapply (set_delivery_evolves s k d d'); try done; [intros Hs; by rewrite Hs in Hr|intros Hs; by rewrite Hs in Hr].
Qed.
Lemma update_owned_evolves c f s :
  (∀ at_ d, dl_status d = SENT → (∀ e, dtrans e d (f at_ d)) ∧ terminal (dl_status (f at_ d)) = false) → evolves s (update_owned clock c f s).2.
Proof.
  intros Hf. unfold update_owned, clock_timestamp. run. destruct (deliveries s !! cl_key c) as [d|] eqn:Hd; [|by apply (evolving_clock s)].
  destruct (owns c d) eqn:Ho; run; [|by apply (evolving_clock s)].
  assert (dl_status d = SENT) as Hs by (unfold owns in Ho; apply andb_true_iff in Ho as [_ Ho]; by apply bool_decide_eq_true in Ho).
  eapply open_delivery_evolves; [exact Hd|intros e _; by apply Hf|by apply Hf|done..].
Qed.
Lemma evolving_complete as_app c result error evidence : evolving (complete_attempt clock sha256 as_app c result error evidence).
Proof.
  intros s. unfold complete_attempt, clock_timestamp. run. destruct (attempts s !! _) as [a|]; [|by apply (evolving_clock s)].
  destruct (as_app && _); run; [by apply (evolving_clock s)|]. apply work_evolves; [done..|]. split; try done. simpl. intros x Hx.
  destruct (decide (x = (cl_key c, cl_attempts c))) as [->|]; [by rewrite lookup_insert_eq|by rewrite lookup_insert_ne].
Qed.
Lemma evolving_settle_sent as_app c evidence : evolving (settle_sent clock sha256 eventLeaseMs as_app c evidence).
Proof.
  apply evolving_tx, evolving_bind; [|intros; apply evolving_complete]. intros s. apply update_owned_evolves. intros ? ? Hs. simpl. rewrite Hs. split; [intros; by apply dt_extend|done].
Qed.
Lemma evolving_settle_failed as_app c message evidence next : evolving (settle_failed clock sha256 as_app c message evidence next).
Proof.
  apply evolving_tx, evolving_bind; [intros s; apply update_owned_evolves; intros; split; [intros; by apply dt_fail|done]|]. intros b.
  apply evolving_bind; [apply evolving_complete|]. intros _. by apply evolving_pure.
Qed.

Lemma evolving_unbound rawBody reason : evolving (recordUnboundAck rawBody reason).
Proof. intros s. by apply work_evolves. Qed.
Lemma kept_acks s s' l : acks s' = acks s ++ l → attempts s' = attempts s → migrated s' = migrated s → kept s s'.
Proof. intros Ha Ht Hm. split; [rewrite Ha; by eexists|by rewrite Ht|by rewrite Hm]. Qed.
Lemma evolving_apply_ack jsNow key i : evolving (apply_ack clock nextAttemptAt jsNow key i).
Proof.
  intros s. unfold apply_ack, clock_timestamp. run. destruct (deliveries s !! key) as [d|] eqn:Hd; [|done]. run.
  destruct (terminal (dl_status d)) eqn:Ht; run.
  { etrans; [apply (evolving_clock s)|]. apply work_evolves; [done..|]. by eapply kept_acks. }
  etrans; [apply (evolving_clock s)|]. eapply (set_delivery_evolves _ key d (acknowledged (status_of (ai_status i)) _ _ d)); [exact Hd|intros e _; by apply dt_ack|simpl; by destruct (ai_status i)| |done..|by eapply kept_acks].
  intros Hs _. eexists. split; [apply elem_of_app; right; apply list_elem_of_singleton; reflexivity|]. simpl in *. by destruct (ai_status i).
Qed.
Lemma evolving_refused {A} rawBody reason : evolving (_ ← recordUnboundAck rawBody reason; throw OutboxNotFoundError : JS Log OutboxError A).
Proof. apply evolving_bind; [apply evolving_unbound|]. intros _. by apply evolving_pure. Qed.
Lemma evolving_find tenantId i : evolving (find_event tenantId i).
Proof. apply evolving_pure. intros s. unfold find_event. run. by destruct (ai_eventId i). Qed.
Lemma evolving_ackTenantEvent tenantId jsNow i : evolving (ackTenantEvent clock nextAttemptAt tenantId jsNow i).
Proof.
  unfold ackTenantEvent. destruct tenantId as [t|]; [|by apply evolving_pure]. destruct (negb _); [apply evolving_refused|].
  destruct (negb _); [by apply evolving_pure|]. apply evolving_tx, evolving_bind; [apply evolving_find|].
  intros [key|]; [apply evolving_apply_ack|by apply evolving_pure].
Qed.
Lemma evolving_ackEvent tenantId jsNow i : evolving (ackEvent clock nextAttemptAt tenantId jsNow i).
Proof.
  unfold ackEvent. destruct tenantId as [t|]; [|apply evolving_refused]. destruct (identified i); [|apply evolving_refused].
  apply evolving_bind; [apply evolving_find|]. intros [key|]; [|apply evolving_refused].
  destruct (ai_hmacVerified i); [apply evolving_tx, evolving_apply_ack|apply evolving_refused].
Qed.
Lemma evolving_retryEvent tenantId eventId immediate jsNow : evolving (retryEvent clock nextAttemptAt tenantId eventId immediate jsNow).
Proof.
  unfold retryEvent. destruct eventId as [id|]; [|by apply evolving_pure]. apply evolving_tx. intros s. unfold clock_timestamp. run.
  destruct (deliveries s !! _) as [d|] eqn:Hd; [|done]. run. case_bool_decide as He; run; [|done].
  etrans; [apply (evolving_clock s)|]. eapply open_delivery_evolves; [exact Hd|intros e _; by apply dt_retry|done..].
Qed.
(** A retirement with its receipt. *)
Lemma retire_evolves s k d now at_ key r s' :
  deliveries s !! k = Some d → terminal (dl_status d) = false → (∀ t, dl_leaseUntil d = Some t → 1000 * (t / 1000) ≤ now) →
  receipts k.1 k.2 key s = [] → rt_idempotencyKey r = key → events s' = events s → deliveries s' = <[k := retired at_ d]> (deliveries s) →
  retirements s' = <[k := r]> (retirements s) → tenant_clock s' = tenant_clock s → order s' = order s → kept s s' → evolves s s'.
Proof.
  intros Hd Ht Hl Hn <- He Hdl Hr Hc Ho Hk. apply move_evolves. intros Hb. destruct (b_delivered _ Hb k d Hd) as [e Hke].
  eapply (mv_retire s s' k e d r); eauto using dt_retire. intros k' r' Hr' Htn Hid.
  assert ((k', r') ∈ receipts k.1 k.2 (rt_idempotencyKey r) s) as Hin; [|rewrite Hn in Hin; by apply elem_of_nil in Hin].
  unfold receipts. rewrite list_elem_of_In, List.filter_In, <- list_elem_of_In, elem_of_map_to_list. split; [done|]. simpl.
  rewrite Htn, Hid, !String.eqb_refl. by rewrite orb_true_r.
Qed.
Lemma evolving_retireEvent trim tenantId actorId eventId i : evolving (retireEvent clock trim tenantId actorId eventId i).
Proof.
  unfold retireEvent. destruct eventId as [id|]; [|by apply evolving_pure]. destruct (valid_retirement _ _) as [[key reason]|]; [|by apply evolving_pure].
  apply evolving_tx. intros s. unfold clock_timestamp. run. destruct (deliveries s !! _) as [d|] eqn:Hd; [|done]. run.
  destruct (receipts tenantId id key s) as [|r rest] eqn:Hn; [|by destruct (_ && _)]. run.
  case_bool_decide as Ha; run; [done|]. case_bool_decide as Hr; run; [done|].
  assert (terminal (dl_status d) = false) as Hopen by (revert Ha Hr; by destruct (dl_status d)).
  destruct (dl_leaseUntil d) as [t|] eqn:Hl; run; [destruct (Z.ltb_spec (clock (ticks s)) (1000 * (t / 1000))); run; [by apply (evolving_clock s)|]|].
  - eapply (retire_evolves s _ d (clock (ticks s)) _ key); [exact Hd|done|intros t'; rewrite Hl; by intros [= <-]|exact Hn| |done..]; done.
  - eapply (retire_evolves s _ d 0 _ key); [exact Hd|done|intros t'; by rewrite Hl|exact Hn| |done..]; done.
Qed.

(** ** Retirements *)

Lemma elem_of_receipts tenantId id key s r :
  r ∈ receipts tenantId id key s ↔ retirements s !! r.1 = Some r.2 ∧ r.1.1 = tenantId ∧ (r.1.2 = id ∨ rt_idempotencyKey r.2 = key).
Proof.
  unfold receipts. rewrite list_elem_of_In, List.filter_In, <- list_elem_of_In. destruct r as [k r].
  rewrite elem_of_map_to_list, andb_true_iff, orb_true_iff, Z.eqb_eq, !String.eqb_eq. done.
Qed.
Lemma retireEvent_ok trim tenantId actorId eventId i s r s' :
  retireEvent clock trim tenantId actorId eventId i s = (Ok r, s') →
  ∃ id key reason, eventId = Some id ∧ valid_retirement trim i = Some (key, reason) ∧ r.1 = (tenantId, id) ∧
    retirements s' !! r.1 = Some r.2 ∧ is_Some (deliveries s' !! r.1) ∧
    rt_idempotencyKey r.2 = key ∧ rt_actorId r.2 = actorId ∧ rt_reason r.2 = reason.
Proof.
  unfold retireEvent. destruct eventId as [id|]; [|done]. destruct (valid_retirement trim i) as [[key reason]|]; [|done].
  unfold tx, clock_timestamp. run. destruct (deliveries s !! (tenantId, id)) as [d|] eqn:Hd; [|done]. run.
  destruct (receipts tenantId id key s) as [|r0 rest] eqn:Hrec; run.
  - case_bool_decide; run; [done|]. case_bool_decide; run; [done|].
    destruct (dl_leaseUntil d) as [t|]; run; [destruct (_ <? _); run; [done|]|]; intros [= <- <-]; exists id, key, reason; simpl; rewrite !lookup_insert_eq; by split_and!.
  - destruct (_ && _) eqn:Hc; [|done]. intros [= -> <-]. rewrite !andb_true_iff, !String.eqb_eq, Z.eqb_eq in Hc.
    destruct Hc as [[[[_ Hid] Hk] Ha] Hre]. assert (r ∈ receipts tenantId id key s) as Hin by (rewrite Hrec; by left).
    apply elem_of_receipts in Hin as (Hr & Ht & _). assert (r.1 = (tenantId, id)) as Heq by (destruct r as [[? ?] ?]; simpl in *; congruence).
    exists id, key, reason. rewrite Heq in Hr |- *. rewrite Hd. by split_and!.
Qed.
Lemma retireEvent_again trim tenantId actorId id i key reason s r :
  Basic s → valid_retirement trim i = Some (key, reason) → r.1 = (tenantId, id) → retirements s !! r.1 = Some r.2 →
  is_Some (deliveries s !! r.1) → rt_idempotencyKey r.2 = key → rt_actorId r.2 = actorId → rt_reason r.2 = reason →
  retireEvent clock trim tenantId actorId (Some id) i s = (Ok r, s).
Proof.
  intros Hb Hv Hk Hr [d Hd] <- <- <-. assert (receipts tenantId id (rt_idempotencyKey r.2) s = [r]) as Hrec.
  { apply Permutation_singleton_r, NoDup_Permutation; [|apply NoDup_singleton|].
    - unfold receipts. pose proof (NoDup_map_to_list (retirements s)) as Hnd. rewrite <- (list_fmap_id (map_to_list _)) in Hnd.
      eapply NoDup_fmap_filter in Hnd. by rewrite list_fmap_id in Hnd.
    - intros r'. rewrite elem_of_receipts, list_elem_of_singleton. split; [|intros ->; rewrite Hk; simpl; rewrite <- Hk; by auto].
      intros (Hr' & Ht & Hor). assert (r'.1 = r.1) as Heq.
      { destruct Hor as [Hid|Hid]; [rewrite Hk; destruct r' as [[? ?] ?]; simpl in *; congruence|].
        eapply (b_receipts _ Hb); [exact Hr'|exact Hr|by rewrite Hk|done]. }
      rewrite Heq, Hr in Hr'. destruct r, r'. simpl in *. congruence. }
  unfold retireEvent. rewrite Hv. unfold tx. run. rewrite Hk in Hd. rewrite Hd. run. rewrite Hrec. simpl. rewrite Hk. simpl.
  by rewrite Z.eqb_refl, !String.eqb_refl.
Qed.

(** ** Claims *)

(** What [s'] has in common with [s] after claims. *)
Definition claims_only (s s' : Log) : Prop :=
  events s' = events s ∧ acks s' = acks s ∧ retirements s' = retirements s ∧ tenant_clock s' = tenant_clock s ∧ order s' = order s ∧
  quarantine s' = quarantine s ∧ migrated s' = migrated s.
Definition row_of (c : Claim) : Key * Event := (cl_key c, cl_event c).

Lemma claim_row_in cs rows c : row_of <$> cs = rows → c ∈ cs → cl_key c ∈ rows.*1.
Proof. intros <- Hc. apply list_elem_of_fmap. exists (row_of c). split; [done|]. by apply list_elem_of_fmap_2. Qed.
Lemma claim_rows_spec now rows s r s' :
  claim_rows clock eventLeaseMs rows s = (r, s') → NoDup rows.*1 →
  Forall (λ row, events s !! row.1 = Some row.2 ∧ ∃ d, deliveries s !! row.1 = Some d ∧ eligible now row.2 d = true) rows →
  ∃ cs, r = Ok cs ∧ row_of <$> cs = rows ∧ claims_only s s' ∧ attempts s' = attempts s ∧ evolves s s' ∧
    Forall (λ c, ∃ d at_, deliveries s !! cl_key c = Some d ∧ eligible now (cl_event c) d = true ∧ cl_attempts c = dl_attempts d + 1 ∧
                          deliveries s' !! cl_key c = Some (claimed eventLeaseMs at_ d)) cs ∧
    (∀ k, k ∉ rows.*1 → deliveries s' !! k = deliveries s !! k).
Proof.
  revert s r s'. induction rows as [|row rows IH]; intros s r s' H Hnd Hall.
  { injection H as <- <-. exists []. split_and!; try done. }
  apply NoDup_cons in Hnd as [Hni Hnd]. apply Forall_cons in Hall as [(He & d & Hd & Hel) Hall].
  cbn [claim_rows] in H. unfold claim_one, clock_timestamp in H. unfold mbind, js_bind, getf, modify, mret, js_ret in H. cbn in H. rewrite Hd in H. cbn in H.
  set (s1 := set_deliveries (<[row.1 := claimed eventLeaseMs (clock (ticks s)) d]> (deliveries s)) (set_draws (order s) (S (ticks s)) s)) in H.
  assert (evolves s s1) as Hev1.
  { etrans; [apply (evolving_clock s)|]. eapply open_delivery_evolves; [exact Hd|intros e He'; simplify_eq/=; by eapply dt_claim|done..]. }
  destruct (claim_rows clock eventLeaseMs rows s1) as [r2 s2] eqn:Hrows.
  destruct (IH s1 r2 s2 Hrows Hnd) as (cs & -> & Hcs & Honly & Hat & Hev & Hcl & Hother).
  { apply Forall_forall. intros row' Hin. destruct (proj1 (Forall_forall _ _) Hall row' Hin) as (He' & d' & Hd' & Hel'). split; [done|]. exists d'. split; [|done].
    unfold s1. simpl. rewrite lookup_insert_ne; [done|]. intros Heq. apply Hni. rewrite Heq. by apply list_elem_of_fmap_2. }
  injection H as <- <-. eexists. split; [done|]. split; [rewrite fmap_cons, Hcs; by destruct row|]. split; [done|]. split; [done|].
  split; [by etrans|]. split.
  - constructor.
    + simpl. exists d, (clock (ticks s)). split; [done|]. split; [done|]. split; [done|]. rewrite Hother by done. unfold s1. simpl. by rewrite lookup_insert_eq.
    + apply Forall_forall. intros c Hin. destruct (proj1 (Forall_forall _ _) Hcl c Hin) as (d' & at_ & Hd' & ?). exists d', at_. split; [|done].
      unfold s1 in Hd'. simpl in Hd'. rewrite lookup_insert_ne in Hd'; [done|]. intros Heq. apply Hni. rewrite Heq. by eapply claim_row_in.
  - intros k Hk. rewrite fmap_cons, not_elem_of_cons in Hk. destruct Hk as [Hne Hk]. rewrite Hother by done. unfold s1. simpl. by rewrite lookup_insert_ne.
Qed.

Lemma claim_attempts_spec cs s :
  ∃ s', js_each (claim_attempt clock) cs s = (Ok (), s') ∧ claims_only s s' ∧ deliveries s' = deliveries s ∧ evolves s s' ∧
    (∀ x, is_Some (attempts s !! x) → is_Some (attempts s' !! x)) ∧ Forall (λ c, is_Some (attempts s' !! (cl_key c, cl_attempts c))) cs.
Proof.
  revert s. induction cs as [|c cs IH]; intros s; [by exists s|]. cbn [js_each]. unfold claim_attempt, clock_timestamp. run.
  assert (∀ s1, claims_only s s1 → deliveries s1 = deliveries s → evolves s s1 → (∀ x, is_Some (attempts s !! x) → is_Some (attempts s1 !! x)) →
    is_Some (attempts s1 !! (cl_key c, cl_attempts c)) → ∃ s', js_each (claim_attempt clock) cs s1 = (Ok (), s') ∧
    claims_only s s' ∧ deliveries s' = deliveries s ∧ evolves s s' ∧
    (∀ x, is_Some (attempts s !! x) → is_Some (attempts s' !! x)) ∧ Forall (λ c, is_Some (attempts s' !! (cl_key c, cl_attempts c))) (c :: cs)) as Hrest.
  { intros s1 (? & ? & ? & ? & ? & ? & ?) Hd He Hat Hc. destruct (IH s1) as (s' & Hrun & (? & ? & ? & ? & ? & ? & ?) & Hd' & He' & Hat' & Hall).
    exists s'. split; [done|]. split; [split_and!; congruence|]. split; [congruence|]. split; [by etrans|]. split; [auto|]. constructor; [auto|done]. }
  destruct (attempts s !! _) as [a|] eqn:Ha; run; [apply Hrest|].
  - done. - done. - apply evolving_clock. - done. - simpl. by rewrite Ha.
  - apply Hrest; simpl; [done|done| | |by rewrite lookup_insert_eq].
    + etrans; [apply (evolving_clock s)|]. apply work_evolves; [done..|]. split; [done| |done]. simpl. intros x Hx.
      destruct (decide (x = (cl_key c, cl_attempts c))) as [->|]; [by rewrite lookup_insert_eq|by rewrite lookup_insert_ne].
    + intros x Hx. destruct (decide (x = (cl_key c, cl_attempts c))) as [->|]; [by rewrite lookup_insert_eq|by rewrite lookup_insert_ne].
Qed.

(** The rows a claim takes, in order. *)
Definition due_rows (locked : Key → bool) (tenant : option string) (limit : Z) (only : option EntityMatcher) (now : Z) (s : Log) : list (Key * Event) :=
  List.firstn (Z.to_nat limit) (log_order (List.filter (due locked tenant only now s) (map_to_list (events s)))).
Record claims_made (s s' : Log) (cs : list Claim) : Prop := {
  cm_only : claims_only s s';
  cm_claimed : Forall (λ c, ∃ d at_, deliveries s !! cl_key c = Some d ∧ terminal (dl_status d) = false ∧ cl_attempts c = dl_attempts d + 1 ∧
                                     deliveries s' !! cl_key c = Some (claimed eventLeaseMs at_ d)) cs;
  cm_first : Forall (λ c, events s !! cl_key c = Some (cl_event c) ∧ blocked s (row_of c) = false) cs;
  cm_distinct : NoDup (cl_key <$> cs);
  cm_other k : k ∉ cl_key <$> cs → deliveries s' !! k = deliveries s !! k;
  cm_attempts : Forall (λ c, is_Some (attempts s' !! (cl_key c, cl_attempts c))) cs }.

Lemma due_row_in locked tenant limit only now s row :
  row ∈ due_rows locked tenant limit only now s → events s !! row.1 = Some row.2 ∧ due locked tenant only now s row = true.
Proof.
  unfold due_rows. intros Hin. assert (row ∈ log_order (List.filter (due locked tenant only now s) (map_to_list (events s)))) as Hin'.
  { rewrite <- (firstn_skipn (Z.to_nat limit)). apply elem_of_app. by left. }
  clear Hin. rename Hin' into Hin. unfold log_order in Hin.
  rewrite js_sort_perm, list_elem_of_In, List.filter_In, <- list_elem_of_In in Hin. destruct row as [k e]. by rewrite elem_of_map_to_list in Hin.
Qed.
Lemma due_rows_distinct locked tenant limit only now s : NoDup (due_rows locked tenant limit only now s).*1.
Proof.
  unfold due_rows, log_order. assert (NoDup (js_sort row_le (List.filter (due locked tenant only now s) (map_to_list (events s)))).*1) as Hnd.
  { rewrite js_sort_perm. generalize (NoDup_fst_map_to_list (events s)). generalize (map_to_list (events s)). intros l.
    induction l as [|x l IH]; [done|]. simpl. rewrite NoDup_cons. intros [Hx Hl]. destruct (due _ _ _ _ _ x); [|by apply IH].
    rewrite fmap_cons, NoDup_cons. split; [|by apply IH]. intros Hin. apply Hx. apply list_elem_of_fmap in Hin as (y & -> & Hy).
    apply list_elem_of_fmap. exists y. split; [done|]. apply list_elem_of_In. apply list_elem_of_In, List.filter_In in Hy. by destruct Hy. }
  rewrite <- (firstn_skipn (Z.to_nat limit) (js_sort _ _)), fmap_app, NoDup_app in Hnd. by destruct Hnd.
Qed.
Lemma due_eligible locked tenant only now s row :
  due locked tenant only now s row = true → blocked s row = false ∧ ∃ d, deliveries s !! row.1 = Some d ∧ eligible now row.2 d = true.
Proof.
  unfold due. destruct (deliveries s !! row.1) as [d|]; [|done]. intros H. repeat (apply andb_true_iff in H as [H ?]).
  split; [by apply negb_true_iff|]. by exists d.
Qed.
Lemma eligible_open now e d : eligible now e d = true → terminal (dl_status d) = false.
Proof. unfold eligible. by destruct (dl_status d). Qed.

Lemma claim_due_spec locked tenant limit only s :
  0 ≤ limit → ∃ cs s', tx (claim_due clock eventLeaseMs locked tenant limit only) s = (Ok cs, s') ∧
    row_of <$> cs = due_rows locked tenant limit only (clock (ticks s)) s ∧ evolves s s' ∧ claims_made s s' cs.
Proof.
  intros Hl. set (rows := due_rows locked tenant limit only (clock (ticks s)) s). unfold tx, claim_due, clock_timestamp. run.
  destruct (Z.ltb_spec limit 0); [lia|]. cbn.
  change (List.firstn _ (log_order _)) with rows. set (s1 := set_draws (order s) (S (ticks s)) s).
  destruct (claim_rows clock eventLeaseMs rows s1) as [r s2] eqn:Hrows.
  destruct (claim_rows_spec (clock (ticks s)) rows s1 r s2 Hrows) as (cs & -> & Hcs & Honly & Hat & Hev & Hcl & Hother).
  { apply due_rows_distinct. }
  { apply Forall_forall. intros row [He Hd]%due_row_in. split; [done|]. exact (proj2 (due_eligible _ _ _ _ _ _ Hd)). }
  destruct (claim_attempts_spec cs s2) as (s' & Hrun & (? & ? & ? & ? & ? & ? & ?) & Hd' & He' & Hat' & Hall).
  rewrite Hrun. exists cs, s'. split; [done|]. split; [done|]. split; [etrans; [apply (evolving_clock s)|]; by etrans|].
  assert (∀ c, c ∈ cs → row_of c ∈ rows) as Hin by (intros c Hc; rewrite <- Hcs; by apply list_elem_of_fmap_2).
  destruct Honly as (? & ? & ? & ? & ? & ? & ?). split.
  - split_and!; simpl in *; congruence.
  - eapply Forall_impl; [exact Hcl|]. intros c (d & at_ & Hd & Hel & Hn & Hset). exists d, at_. split; [done|]. split; [by eapply eligible_open|].
    split; [done|]. by rewrite Hd'.
  - apply Forall_forall. intros c [He Hd]%Hin%due_row_in. split; [done|]. by apply due_eligible in Hd as [? _].
  - pose proof (due_rows_distinct locked tenant limit only (clock (ticks s)) s) as Hnd. fold rows in Hnd. rewrite <- Hcs, <- list_fmap_compose in Hnd.
    exact Hnd.
  - intros k Hk. rewrite Hd', Hother; [done|]. intros Hk'. apply Hk. rewrite <- Hcs, <- list_fmap_compose in Hk'. exact Hk'.
  - done.
Qed.
End moves.

(** ** The oldest open event of an aggregate, which a sweep can always claim. *)

Definition open_at (l : Log) (row : Key * Event) : bool := match deliveries l !! row.1 with Some d => negb (terminal (dl_status d)) | None => false end.
(** The time from which a delivery can be claimed. *)
Definition ready_at (e : Event) (d : Delivery) : Z :=
  match dl_status d with
  | SENT => default 0 (dl_leaseUntil d) + 1
  | _ => default (1000 * ev_createdAt e) (dl_nextAttemptAt d)
  end.

Lemma ready_eligible e d now :
  leased d → terminal (dl_status d) = false → dl_status d ≠ SENT_UNRESOLVED → ready_at e d ≤ now → eligible now e d = true.
Proof.
  unfold leased, ready_at, eligible. destruct (dl_status d); try done; [lia| |lia].
  intros Hl _ _. destruct (Hl eq_refl) as [t ->]. simpl. lia.
Qed.

Lemma same_aggregate_spec a b :
  same_aggregate a b = true ↔ a.1.1 = b.1.1 ∧ ev_entity a.2 = ev_entity b.2 ∧ ev_entityId a.2 = ev_entityId b.2.
Proof. unfold same_aggregate. rewrite !andb_true_iff, !String.eqb_eq. tauto. Qed.

(** The first row of a list in the order of the log. *)
Lemma first_row (l : list (Key * Event)) row : row ∈ l → ∃ m, m ∈ l ∧ ∀ x, x ∈ l → row_before x m = false.
Proof.
  intros Hin. assert (StronglySorted (λ a b, row_le a b = true) (log_order l)) as Hs.
  { apply (js_sort_sorted _ (λ _, True)); [..|by apply Forall_true]; unfold row_le, row_before, before; lia. }
  assert (∀ x, x ∈ log_order l ↔ x ∈ l) as Heq by (intros x; unfold log_order; by rewrite js_sort_perm).
  destruct (log_order l) as [|m rest]; [by apply Heq, elem_of_nil in Hin|]. exists m. split; [apply Heq; by left|].
  apply StronglySorted_inv in Hs as [_ Hs]. intros x [->|Hx]%Heq%elem_of_cons; [apply before_irrefl|].
  apply negb_true_iff. exact (proj1 (Forall_forall _ _) Hs x Hx).
Qed.
Lemma oldest_open l row :
  events l !! row.1 = Some row.2 → open_at l row = true →
  ∃ row0, events l !! row0.1 = Some row0.2 ∧ open_at l row0 = true ∧ same_aggregate row0 row = true ∧ row_before row row0 = false ∧
          blocked l row0 = false.
Proof.
  intros He Ho. set (L := List.filter (λ r, open_at l r && same_aggregate r row) (map_to_list (events l))).
  assert (∀ r, r ∈ L ↔ events l !! r.1 = Some r.2 ∧ open_at l r = true ∧ same_aggregate r row = true) as HL.
  { intros [k e]. unfold L. rewrite list_elem_of_In, List.filter_In, <- list_elem_of_In, elem_of_map_to_list, andb_true_iff. done. }
  destruct (first_row L row) as (row0 & (He0 & Ho0 & Hs0)%HL & Hfirst); [apply HL; split; [done|]; split; [done|by apply same_aggregate_spec]|].
  exists row0. split; [done|]. split; [done|]. split; [done|]. split; [apply Hfirst, HL; split; [done|]; split; [done|by apply same_aggregate_spec]|].
  apply not_true_iff_false. unfold blocked. rewrite existsb_exists. intros (r & Hin & Hr). rewrite !andb_true_iff in Hr. destruct Hr as [[Hs Hb] Hop].
  rewrite (Hfirst r) in Hb; [done|]. apply HL. split; [destruct r; by apply elem_of_map_to_list, list_elem_of_In|]. split; [exact Hop|].
  apply same_aggregate_spec in Hs, Hs0. apply same_aggregate_spec. destruct Hs as (? & ? & ?), Hs0 as (? & ? & ?). split_and!; congruence.
Qed.

Section heads.
Context (clock : nat → Z) (eventLeaseMs : Z).

Lemma claim_takes l row d locked tenant limit only :
  events l !! row.1 = Some row.2 → deliveries l !! row.1 = Some d → blocked l row = false → eligible (clock (ticks l)) row.2 d = true →
  dl_legacy d = None ∨ migrated l = true → match tenant with Some t => t = row.1.1 | None => True end →
  matches_filter only (ev_entity row.2) = true → locked row.1 = false →
  Z.of_nat (length (List.filter (due locked tenant only (clock (ticks l)) l) (map_to_list (events l)))) ≤ limit →
  ∃ cs l', tx (claim_due clock eventLeaseMs locked tenant limit only) l = (Ok cs, l') ∧ row.1 ∈ cl_key <$> cs.
Proof.
  intros He Hd Hb Hel Hleg Ht Hf Hl Hlim.
  destruct (claim_due_spec clock eventLeaseMs locked tenant limit only l) as (cs & l' & Hrun & Hrows & _); [lia|].
  exists cs, l'. split; [done|]. assert (row ∈ due_rows locked tenant limit only (clock (ticks l)) l) as Hin.
  { unfold due_rows. rewrite List.firstn_all2.
    - unfold log_order. rewrite js_sort_perm, list_elem_of_In, List.filter_In, <- list_elem_of_In. split; [destruct row; by apply elem_of_map_to_list|].
      unfold due. rewrite Hd, Hel, Hb, Hf, Hl, !andb_true_iff. split_and!; try done; [destruct tenant; [by apply String.eqb_eq|done]|].
      destruct Hleg as [-> | ->]; [done|by rewrite orb_true_r].
    - unfold log_order. rewrite js_sort_perm. lia. }
  rewrite <- Hrows in Hin. apply list_elem_of_fmap in Hin as (c & -> & Hc). apply list_elem_of_fmap. by exists c.
Qed.
End heads.
