(* ===== verification/OutboxTables.v ===== *)
(** * OutboxTables: the messages beside the log.

    Every call on the messages is a sequence of moves of the log, or the switch; before the switch no
    message is linked to an event, and after it each one is, to an event of its own. *)
From S2P Require Import Prelude JsMap JsText OutboxSelectors Outbox OutboxLegacy OutboxSystem OutboxInv OutboxMoves.
Local Open Scope Z_scope.

(** Takes the branches of the condition in front. *)
Ltac branch := match goal with |- context [if ?b then _ else _] => destruct b end.

(** ** The link between messages and events *)

Definition same_content (m m' : Message) : Prop :=
  mg_tenantId m' = mg_tenantId m ∧ mg_entity m' = mg_entity m ∧ mg_entityId m' = mg_entityId m ∧ mg_payload m' = mg_payload m ∧
  mg_metadata m' = mg_metadata m ∧ mg_idempotencyKey m' = mg_idempotencyKey m ∧ mg_migratedEvent m' = mg_migratedEvent m.
(** The event [k] tells the fact of the message [m], whose delivery it took over. *)
Definition imported (l : Log) (id : string) (m : Message) (k : Key) : Prop :=
  mg_tenantId m = k.1 ∧ ∃ e d, events l !! k = Some e ∧ deliveries l !! k = Some d ∧ dl_legacy d = Some id ∧
    ev_entity e = mg_entity m ∧ ev_entityId e = mg_entityId m ∧ ev_payload e = mg_payload m ∧ ev_metadata e = mg_metadata m ∧
    ev_idempotencyKey e = mg_idempotencyKey m.
Definition linked_to (s : Tables) (id : string) (m : Message) (k : Key) : Prop :=
  mg_migratedEvent m = Some k.2 ∧ (∃ g, event_map s !! id = Some (k, g)) ∧ imported (log s) id m k.

Definition unlinked (s : Tables) : Prop :=
  migrated (log s) = false ∧ event_map s = ∅ ∧ ∀ id m, messages s !! id = Some m → mg_migratedEvent m = None.
Definition handed_over (platform : bool) (s : Tables) : Prop :=
  migrated (log s) = true ∧ platform = true ∧ (∀ id m, messages s !! id = Some m → ∃ k, linked_to s id m k) ∧
  ∀ id, is_Some (event_map s !! id) → is_Some (messages s !! id).
Definition mapped (platform : bool) (s : Tables) : Prop := unlinked s ∨ handed_over platform s.

Lemma imported_advance l l' id m k : Basic l → Advance l l' → imported l id m k → imported l' id m k.
Proof.
  intros Hb Ha (Ht & e & d & He & Hd & Hl & Hrest). split; [done|]. destruct (adv_deliveries _ _ Ha k d e He Hd) as (d' & Hd' & Hrt).
  exists e, d'. split; [by apply (adv_events _ _ Ha)|]. split; [done|]. split; [|done]. by rewrite (dtrans_legacy _ _ _ Hrt).
Qed.

Section tables.
Context (clock : nat → Z) (uuid : nat → string) (platform : bool) (nextAttemptAt : Z → Z → Z).

Definition safe (s s' : Tables) : Prop := Basic (log s) → mapped platform s → rtc move (log s) (log s') ∧ mapped platform s'.
#[local] Instance safe_preorder : PreOrder safe.
Proof.
  split; [by intros s _|]. intros s1 s2 s3 H1 H2 Hb Hm. destruct (H1 Hb Hm) as [Hr1 Hm2].
  destruct (H2 (moves_basic _ _ Hr1 Hb) Hm2) as [Hr2 Hm3]. split; [by etrans|done].
Qed.

(** The log evolves beside the messages. *)
Lemma log_safe s l : evolves (log s) l → safe s (set_log l s).
Proof.
  intros He Hb Hm. specialize (He Hb). split; [done|]. pose proof (moves_migrated _ _ He) as Hmi. pose proof (moves_advance _ _ He Hb) as Ha.
  destruct Hm as [(H1 & H2 & H3)|(H1 & H2 & H3 & H4)]; [left; split; [simpl; congruence|done]|right]. split; [simpl; congruence|].
  split; [done|]. split; [|done]. simpl. intros id m Hid. destruct (H3 id m Hid) as (k & Hl & Hg & Hi). exists k. split; [done|]. split; [done|].
  by eapply imported_advance.
Qed.
(** A message keeps what it tells. *)
Lemma message_safe s id m m' s' :
  messages s !! id = Some m → same_content m m' → messages s' = <[id := m']> (messages s) → log s' = log s → event_map s' = event_map s → safe s s'.
Proof.
  intros Hid (C1 & C2 & C3 & C4 & C5 & C6 & C7) Hms Hl Hem Hb Hm. rewrite Hl. split; [done|].
  destruct Hm as [(H1 & H2 & H3)|(H1 & H2 & H3 & H4)]; [left|right]; unfold unlinked, handed_over; rewrite Hl, Hem, Hms.
  - split; [done|]. split; [done|]. intros id' m1. destruct (decide (id' = id)) as [->|]; [|rewrite lookup_insert_ne by done; apply H3].
    rewrite lookup_insert_eq. intros [= <-]. rewrite C7. by eapply H3.
  - split; [done|]. split; [done|]. split.
    + intros id' m1. destruct (decide (id' = id)) as [->|].
      * rewrite lookup_insert_eq. intros [= <-]. destruct (H3 id m Hid) as (k & Hl' & Hg & Ht & e & d & Hrest). exists k. unfold linked_to, imported.
        rewrite Hl, Hem, C1, C2, C3, C4, C5, C6, C7. split; [done|]. split; [done|]. split; [done|]. by exists e, d.
      * rewrite lookup_insert_ne by done. intros Hm1. destruct (H3 id' m1 Hm1) as (k & Hrest). exists k. unfold linked_to in *. by rewrite Hl, Hem.
    + intros id' Hx. apply H4 in Hx. destruct (decide (id' = id)) as [->|]; [by rewrite lookup_insert_eq|by rewrite lookup_insert_ne].
Qed.
(** Before the switch messages are free. *)
Lemma free_safe s s' :
  platform && migrated (log s) = false → log s' = log s → event_map s' = event_map s →
  (∀ id m, messages s' !! id = Some m → mg_migratedEvent m = None ∨ ∃ m0, messages s !! id = Some m0 ∧ mg_migratedEvent m = mg_migratedEvent m0) → safe s s'.
Proof.
  intros Hf Hl Hem Hms Hb Hm. rewrite Hl. split; [done|]. destruct Hm as [(H1 & H2 & H3)|(H1 & H2 & _)]; [|by rewrite H1, H2 in Hf].
  left. unfold unlinked. rewrite Hl, Hem. split; [done|]. split; [done|]. intros id m Hid. destruct (Hms id m Hid) as [|(m0 & Hm0 & ->)]; [done|by eapply H3].
Qed.
(** Rows that nothing here is about. *)
Lemma frame_safe s s' : log s' = log s → messages s' = messages s → event_map s' = event_map s → safe s s'.
Proof.
  intros Hl Hms Hem Hb Hm. rewrite Hl. split; [done|]. revert Hm. unfold mapped, unlinked, handed_over, linked_to. by rewrite Hl, Hms, Hem.
Qed.
Lemma beside_safe s s' : evolves (log s) (log s') → messages s' = messages s → event_map s' = event_map s → safe s s'.
Proof. intros Hl Hms Hem. etrans; [by apply (log_safe s (log s'))|by apply frame_safe]. Qed.
Lemma undo_safe s s1 :
  rtc move (log s) (log s1) → safe s (set_uuids (uuids s1) (set_log (set_draws (order (log s1)) (ticks (log s1)) (log s)) s)).
Proof.
  intros Hm. etrans; [apply (log_safe s (set_draws (order (log s1)) (ticks (log s1)) (log s)))|by apply frame_safe].
  intros Hb. pose proof (moves_advance _ _ Hm Hb) as Ha. pose proof (moves_basic _ _ Hm Hb) as Hb1. revert Hb.
  apply draws_evolves; [apply (adv_order _ _ Ha)|left; apply (b_order _ Hb1)].
Qed.
Lemma tx_safe {A} (m : JS Tables OutboxError A) s : safe s (m s).2 → safe s (legacy_tx m s).2.
Proof.
  unfold legacy_tx. intros Hm. destruct (m s) as [[a|e] s1]; [exact Hm|]. simpl. intros Hb Hma. apply undo_safe; [|done..]. by apply Hm.
Qed.
Lemma callers_safe {A} commits (m : JS Tables OutboxError A) s : safe s (m s).2 → safe s (callers_tx commits m s).2.
Proof.
  destruct commits; [done|]. unfold callers_tx, undone. intros Hm. destruct (m s) as [r s1]. simpl in *. intros Hb Hma.
  apply undo_safe; [|done..]. by apply Hm.
Qed.
Lemma now_safe s : safe s (now_ clock s).2.
Proof. exact (log_safe s _ (evolving_clock clock (log s))). Qed.
Lemma on_log_safe {A} (m : JS Log OutboxError A) s : evolving m → safe s (on_log m s).2.
Proof. intros Hm. unfold on_log. specialize (Hm (log s)). destruct (m (log s)) as [r l]. by apply log_safe. Qed.

(** ** Calls on the messages *)

Lemma enqueue_safe contended tenantId envelope s : safe s (enqueue clock uuid platform contended tenantId envelope s).2.
Proof.
  unfold enqueue. destruct (platform && contended); [done|]. run. destruct (platform && migrated (log s)) eqn:Hf; [done|].
  destruct tenantId as [t|]; [|done]. pose proof (now_safe s) as Hn. unfold now_, on_log in Hn. unfold now_, on_log, clock_timestamp, gen_uuid. run. simpl in Hn.
  destruct (List.find _ (map_to_list (messages s))) as [[id m]|] eqn:Hfind.
  - branch; run; [exact Hn|]. etrans; [exact Hn|]. apply List.find_some in Hfind as [Hin _].
    apply list_elem_of_In, elem_of_map_to_list in Hin. apply free_safe; [done..|]. simpl. intros id' m'.
    destruct (decide (id' = id)) as [->|]; [rewrite lookup_insert_eq; intros [= <-]; right; by exists m|rewrite lookup_insert_ne by done; right; eauto].
  - branch; run; (etrans; [exact Hn|]); [by apply frame_safe|]. apply free_safe; [done..|]. simpl. intros id' m'.
    destruct (decide (id' = uuid (uuids s))) as [->|]; [rewrite lookup_insert_eq; intros [= <-]; by left|rewrite lookup_insert_ne by done; right; eauto].
Qed.
Lemma set_messages_safe rows s :
  Forall (λ r, ∃ m, messages s !! r.1 = Some m ∧ same_content m r.2) rows →
  safe s (js_each (E:=OutboxError) (λ r, modify (λ s, set_messages (<[r.1 := r.2]> (messages s)) s)) rows s).2.
Proof.
  revert s. induction rows as [|[id m'] rows IH]; intros s Hall; [done|]. cbn [js_each]. run.
  apply Forall_cons in Hall as [(m & Hid & Hc) Hall]. etrans; [by apply (message_safe s id m m' (set_messages (<[id := m']> (messages s)) s))|]. apply IH.
  eapply Forall_impl; [exact Hall|]. intros [id2 m2] (m3 & Hid3 & Hc3). simpl in *. destruct (decide (id2 = id)) as [->|].
  - exists m'. rewrite lookup_insert_eq. split; [done|]. simplify_eq. destruct Hc as (? & ? & ? & ? & ? & ? & ?), Hc3 as (? & ? & ? & ? & ? & ? & ?).
    unfold same_content. split_and!; congruence.
  - exists m3. by rewrite lookup_insert_ne.
Qed.
Lemma claimDue_safe locked limit s : safe s (claimDue clock platform locked limit s).2.
Proof.
  unfold claimDue. apply tx_safe. pose proof (now_safe s) as Hn. unfold now_, on_log in Hn. unfold now_, on_log, clock_timestamp. run. simpl in Hn.
  destruct (limit <? 0); run; [done|]. set (rows := (λ r, _) <$> List.firstn _ _).
  pose proof (set_messages_safe rows (set_log (set_draws (order (log s)) (S (ticks (log s))) (log s)) s)) as Hs.
  destruct (js_each _ rows _) as [[[]|e] s1]; simpl in *; (etrans; [exact Hn|]; apply Hs); clear Hs.
  all: apply Forall_forall; intros r Hr; unfold rows in Hr; apply list_elem_of_fmap in Hr as ([id m] & -> & Hin).
  all: exists m; split; [|done]; simpl.
  all: assert (Hin' : (id, m) ∈ js_sort (λ a b, mg_createdAt a.2 <=? mg_createdAt b.2) (List.filter
         (message_due platform locked (clock (ticks (log s))) (set_log (set_draws (order (log s)) (S (ticks (log s))) (log s)) s)) (map_to_list (messages s))))
       by (rewrite <- (firstn_skipn (Z.to_nat limit)); apply elem_of_app; by left).
  all: rewrite js_sort_perm, list_elem_of_In, List.filter_In, <- list_elem_of_In, elem_of_map_to_list in Hin'; by destruct Hin'.
Qed.
Lemma retry_safe jsNow read id immediate s : safe s (retry clock platform nextAttemptAt jsNow read id immediate s).2.
Proof.
  unfold retry. apply tx_safe. pose proof (now_safe s) as Hn. unfold now_, on_log in Hn. unfold now_, on_log, clock_timestamp. run. simpl in Hn.
  destruct (messages s !! id) as [m|] eqn:Hid; [|done]. run. destruct (platform && _); run; [done|]. etrans; [exact Hn|].
  eapply (message_safe _ id m); [exact Hid| |reflexivity|done..]. done.
Qed.

(** What a late failure writes beside its message. *)
Lemma kept_attempt l l' x a : acks l' = acks l → attempts l' = <[x := a]> (attempts l) → migrated l' = migrated l → kept l l'.
Proof.
  intros Ha Ht Hm. split; [by rewrite Ha| |done]. rewrite Ht. intros y Hy.
  destruct (decide (y = x)) as [->|]; [by rewrite lookup_insert_eq|by rewrite lookup_insert_ne].
Qed.
Lemma recordDispatchFailure_safe cut jsNow row message s :
  safe s (recordDispatchFailure clock platform nextAttemptAt cut jsNow row message s).2.
Proof.
  unfold recordDispatchFailure. apply tx_safe. pose proof (now_safe s) as Hn. unfold now_, on_log, clock_timestamp in *. run. simpl in Hn.
  destruct (messages s !! row.1) as [m|] eqn:Hid; [|exact Hn]. etrans; [exact Hn|]. run.
  set (m' := if bool_decide (mg_status m = ms_ACKED) then m else _). set (s1 := set_log _ s).
  assert (safe s1 (set_messages (<[row.1 := m']> (messages s)) s1)) as H1.
  { eapply (message_safe _ row.1 m m'); [exact Hid| |done..]. unfold m'. by branch. }
  destruct platform; run; [|exact H1]. destruct (mg_migratedEvent m) as [ev|]; run; [|exact H1]. etrans; [exact H1|].
  etrans; [refine (log_safe _ _ (evolving_clock clock _))|].
  destruct (attempts (log s) !! _); run; (destruct (deliveries (log s) !! _) as [d|] eqn:Hd; run; [case_bool_decide as Hu; run|]); try done.
  - refine (log_safe _ _ _). eapply open_delivery_evolves; [exact Hd|intros e _; by apply dt_unresolved|done..].
  - refine (log_safe _ _ _). eapply open_delivery_evolves; [exact Hd|intros e _; by apply dt_unresolved|done..|by eapply kept_attempt].
  - refine (log_safe _ _ _). apply work_evolves; [done..|by eapply kept_attempt].
  - refine (log_safe _ _ _). apply work_evolves; [done..|by eapply kept_attempt].
Qed.

Lemma mapped_legacy s id m ev d :
  mapped platform s → messages s !! id = Some m → mg_migratedEvent m = Some ev → deliveries (log s) !! (mg_tenantId m, ev) = Some d →
  is_Some (dl_legacy d).
Proof.
  intros [(_ & _ & Hm)|(_ & _ & Hm & _)] Hid Hev Hd; [specialize (Hm id m Hid); congruence|].
  destruct (Hm id m Hid) as (k & Hk & _ & Ht & e & d' & _ & Hd' & Hl & _). rewrite Hev in Hk. destruct k as [t k2]. simpl in *. simplify_eq. by rewrite Hl.
Qed.
Lemma ack_safe jsNow i s : safe s (ack clock platform nextAttemptAt jsNow i s).2.
Proof.
  unfold ack, resolveAckTarget. apply tx_safe. pose proof (now_safe s) as Hn. unfold now_, on_log, clock_timestamp in *. run. simpl in Hn.
  set (rows := List.filter _ _). destruct rows as [|[id m] [|]] eqn:Hrows; [done| |done]. run.
  assert (messages s !! id = Some m) as Hid.
  { apply elem_of_map_to_list. assert ((id, m) ∈ rows) as Hin by (rewrite Hrows; by left). unfold rows in Hin.
    apply list_elem_of_In, List.filter_In in Hin as [Hin _]. by apply list_elem_of_In. }
  etrans; [exact Hn|]. set (s1 := set_log _ s). set (m' := set_ackTime _ _).
  assert (safe s1 (set_messages (<[id := m']> (messages s)) s1)) as H1 by (eapply (message_safe _ id m m'); [exact Hid|done..]).
  etrans; [exact H1|]. clear H1.
  destruct (acknowledgements s !! id) as [a|]; run; (destruct (if platform then mg_migratedEvent m else None) as [ev|] eqn:Hev; run; [|by apply frame_safe]).
  all: assert (mg_migratedEvent m = Some ev) as Hev' by (revert Hev; by destruct platform).
  all: intros Hb Hm; refine ((_ : safe _ _) Hb Hm).
  all: destruct (deliveries (log s) !! (mg_tenantId m, ev)) as [d|] eqn:Hd; [destruct (terminal (dl_status d)) eqn:Ht|]; run.
  all: apply beside_safe; [|done..]; simpl.
  all: (etrans; [apply (evolving_clock clock)|]).
  all: try (apply work_evolves; [done..|by eapply kept_acks]).
  all: eapply (set_delivery_evolves _ _ d (acknowledged (status_of (ma_status i)) _ _ d)); [exact Hd|intros e _; by apply dt_ack|simpl; by destruct (ma_status i)| |done..|by eapply kept_acks].
  all: intros _ Hnl; simpl in Hnl; destruct (mapped_legacy _ id m' ev d Hm) as [x Hx]; [apply lookup_insert_eq|done|exact Hd|congruence].
Qed.

(** ** The cutover *)

Lemma initial_import id st attempts next err at_ :
  initial {| dl_legacy := Some id; dl_status := status_after st; dl_attempts := attempts; dl_leaseUntil := None; dl_nextAttemptAt := next;
             dl_lastError := err; dl_updatedAt := at_ |}.
Proof. split; [done|]. right. split; [by eexists|by exists st]. Qed.
Lemma kept_import l l' :
  attempts l' = attempts l ∨ (∃ x a, attempts l' = <[x := a]> (attempts l)) → acks l' = acks l ∨ (∃ a, acks l' = acks l ++ [a]) → migrated l' = migrated l → kept l l'.
Proof.
  intros Ha Hk Hm. split; [destruct Hk as [-> |[a ->]]; [done|by eexists]| |done]. intros y Hy. destruct Ha as [-> |(x & a & ->)]; [done|].
  destruct (decide (y = x)) as [->|]; [by rewrite lookup_insert_eq|by rewrite lookup_insert_ne].
Qed.
Lemma import_message_spec ack_ id m s :
  let '(r, s') := import_message clock ack_ (id, m) s in
  evolves s s' ∧ match r with Ok k => imported s' id m k | Throw _ => True end.
Proof.
  unfold import_message. pose proof (tick_clock_evolves clock (mg_tenantId m) s) as Ht. unfold mbind at 1. unfold js_bind at 1.
  destruct (tick_clock clock (mg_tenantId m) s) as [r s1]. destruct Ht as (ms & -> & Hms & Hc & _ & _ & Hev).
  unfold nextval, clock_timestamp. run. destruct (Z.ltb_spec (order s1) (2 ^ 63)) as [Ho|]; [|by split]. run.
  destruct (existsb _ (map_to_list (events s1))) eqn:Hex; run.
  { split; [|done]. etrans; [exact Hev|]. apply draws_evolves; lia. }
  assert (∀ k' e', events s1 !! k' = Some e' → k'.1 = mg_tenantId m → ev_idempotencyKey e' ≠ mg_idempotencyKey m) as Hfresh.
  { intros k' e' Hk' Htn Hid. apply not_true_iff_false in Hex. apply Hex. apply existsb_exists. exists (k', e').
    split; [by apply list_elem_of_In, elem_of_map_to_list|]. simpl. by rewrite Htn, Hid, !String.eqb_refl. }
  destruct (0 <? mg_attempts m), ack_ as [a|]; run.
  all: split; [etrans; [exact Hev|]|split; [done|]; eexists; eexists; simpl; rewrite !lookup_insert_eq; split_and!; done].
  all: eapply (insert_event_evolves s1 (mg_tenantId m) ms _ (Some _)); last (apply kept_import; simpl; by eauto);
    last reflexivity; last reflexivity; last reflexivity; last reflexivity; last reflexivity;
    [exact Hc|exact Hms|done|exact Ho|exact Hfresh|apply initial_import].
Qed.
#[local] Arguments import_message : simpl never.
Lemma cutover_rows_spec g rows s :
  Basic (log s) → NoDup rows.*1 → (∀ id m, (id, m) ∈ rows → messages s !! id = Some m) →
  let '(r, s') := js_each (cutover_message clock g) rows s in
  rtc move (log s) (log s') ∧ match r with
  | Ok _ =>
      (∀ id, id ∉ rows.*1 → messages s' !! id = messages s !! id ∧ event_map s' !! id = event_map s !! id) ∧
      (∀ id m, (id, m) ∈ rows → ∃ k, messages s' !! id = Some (set_migrated k.2 m) ∧ event_map s' !! id = Some (k, g) ∧ imported (log s') id m k)
  | Throw _ => True
  end.
Proof.
  revert s. induction rows as [|[id m] rows IH]; intros s Hb Hnd Hin.
  { cbn. split; [done|]. split; [done|]. intros ? ? H. by apply elem_of_nil in H. }
  rewrite fmap_cons in Hnd. apply NoDup_cons in Hnd as [Hni Hnd].
  cbn [js_each]. unfold mbind at 1, js_bind at 1, cutover_message at 1, on_log. run.
  pose proof (import_message_spec (acknowledgements s !! id) id m (log s)) as Hi.
  revert Hi. destruct (import_message _ _ _ (log s)) as [[k|e] l]; intros [Hev Hi]; specialize (Hev Hb); cbn; [|by split].
  set (s1 := set_messages _ _).
  specialize (IH s1 (moves_basic _ _ Hev Hb) Hnd). revert IH.
  destruct (js_each (cutover_message clock g) rows s1) as [r s']. intros IH. destruct IH as [Hmv Hr].
  { intros id' m' Hin'. unfold s1. simpl. rewrite lookup_alter_ne; [apply Hin; by right|]. intros ->. apply Hni.
    apply list_elem_of_fmap. by exists (id', m'). }
  split; [etrans; [exact Hev|exact Hmv]|]. destruct r as [[]|e]; [|done]. destruct Hr as [Hout Hrows]. split.
  - intros id' Hid'. apply not_elem_of_cons in Hid' as [Hne Hid']. simpl in Hne. destruct (Hout id' Hid') as [-> ->].
    unfold s1. simpl. by rewrite lookup_alter_ne, lookup_insert_ne.
  - intros id' m' Hin'. apply elem_of_cons in Hin' as [[= -> ->]|Hin']; [|by apply Hrows]. exists k. destruct (Hout id Hni) as [-> ->].
    unfold s1. simpl. rewrite lookup_alter_eq, (Hin id m) by by left. rewrite lookup_insert_eq. split; [done|]. split; [done|].
    eapply imported_advance; [exact (moves_basic _ _ Hev Hb)|exact (moves_advance _ _ Hmv (moves_basic _ _ Hev Hb))|exact Hi].
Qed.

(** A message told by the linked rows. *)
Lemma imported_migrated l id m k : imported l id m k → imported l id (set_migrated k.2 m) k.
Proof. done. Qed.
Lemma cutover_spec consumer_owned audit_available audited s :
  Basic (log s) → mapped platform s →
  let '(r, s') := cutoverLegacyMessages clock platform consumer_owned audit_available audited s in
  match r with
  | Ok _ => handed_over platform s' ∧ rtc queue_step (log s) (log s')
  | Throw _ => rtc move (log s) (log s') ∧ mapped platform s'
  end.
Proof.
  intros Hb Hm. unfold cutoverLegacyMessages. destruct (consumer_owned || negb platform) eqn:Hown; [by split|].
  assert (platform = true) as Hp by (revert Hown; by destruct platform, consumer_owned). unfold legacy_tx. run.
  assert (∀ s1, rtc move (log s) (log s1) → safe s (set_uuids (uuids s1) (set_log (set_draws (order (log s1)) (ticks (log s1)) (log s)) s))) as Hundo
    by (intros; by apply undo_safe).
  destruct audit_available; run; [|by apply Hundo].
  destruct (migrated (log s)) eqn:Hmi; run; [destruct Hm as [(? & _)|Hm]; [congruence|]; split; [done|apply rtc_refl]|].
  destruct audited; run; [by apply Hundo|].
  pose proof (cutover_rows_spec (generation s + 1) (js_sort legacy_le (map_to_list (messages s))) s Hb) as Hc.
  revert Hc. destruct (js_each _ _ s) as [r s']. intros Hc. destruct Hc as [Hmv Hr].
  { rewrite js_sort_perm. apply NoDup_fst_map_to_list. }
  { intros id m. rewrite js_sort_perm. by rewrite elem_of_map_to_list. }
  destruct r as [[]|e]; run; [|by apply Hundo]. destruct Hr as [Hout Hrows].
  destruct Hm as [(_ & Hem & Hfree)|(? & _)]; [|congruence].
  assert (∀ id, messages s !! id = None → id ∉ (js_sort legacy_le (map_to_list (messages s))).*1) as Hnone.
  { intros id Hid. rewrite js_sort_perm. intros ([id' m] & -> & Hin)%list_elem_of_fmap. apply elem_of_map_to_list in Hin. simpl in Hid. congruence. }
  split; [|etrans; [apply moves_queue_steps, Hmv|apply rtc_once; by apply qs_switch]].
  split; [done|]. split; [done|]. simpl. split.
  - intros id m1 Hid. destruct (messages s !! id) as [m|] eqn:Hmid; [|destruct (Hout id (Hnone id Hmid)); congruence].
    destruct (Hrows id m) as (k & Hk & Hg & Hi); [rewrite js_sort_perm; by apply elem_of_map_to_list|].
    rewrite Hid in Hk. injection Hk as ->. exists k. split; [done|]. split; [by eexists|]. exact Hi.
  - intros id Hx. destruct (messages s !! id) as [m|] eqn:Hmid.
    + destruct (Hrows id m) as (k & Hk & _); [rewrite js_sort_perm; by apply elem_of_map_to_list|]. by rewrite Hk.
    + destruct (Hout id (Hnone id Hmid)) as [_ Hx']. rewrite Hx', Hem, lookup_empty in Hx. by destruct Hx.
Qed.
End tables.

(** A failure that is recorded late is not told from that of the last claim: whatever attempt [row] was
    claimed with, a message that another sweep is sending becomes due again. *)
Theorem late_failure_reopens_message clock platform nextAttemptAt cut jsNow id row message s m :
  messages s !! id = Some m → mg_status m = ms_SENT →
  ∃ m' s', recordDispatchFailure clock platform nextAttemptAt cut jsNow (id, row) message s = (Ok m', s') ∧
    messages s' !! id = Some m' ∧ mg_status m' = ms_ERROR ∧ mg_attempts m' = mg_attempts m ∧
    mg_nextAttemptAt m' = Some (1000 * nextAttemptAt (mg_attempts row) jsNow).
Proof.
  intros Hid Hs. unfold recordDispatchFailure, legacy_tx, now_, on_log, clock_timestamp. run. rewrite Hid, Hs. cbn.
  destruct platform; run; [destruct (mg_migratedEvent m) as [ev|]; run|].
  1: destruct (attempts (log s) !! _); run; (destruct (deliveries (log s) !! _) as [d|]; run; [case_bool_decide; run|]).
  all: eexists _, _; (split; [reflexivity|]); simpl; by rewrite lookup_insert_eq.
Qed.
