(* ===== verification/OutboxRun.v ===== *)
(** * OutboxRun: what holds in every state of the outbox.

    Every step is a sequence of moves of the queue, or the switch. The histories of claims and sends
    agree with the tables: a claim is of an event whose older deliveries of its aggregate are done,
    its number is its own, and a claim is sent at most once. *)
From S2P Require Import Prelude JsMap JsText OutboxSelectors Outbox OutboxLegacy OutboxSystem OutboxInv OutboxTables OutboxMoves.

Local Open Scope Z_scope.

Lemma NoDup_fmap_same {A B} (f : A → B) l x y : NoDup (f <$> l) → x ∈ l → y ∈ l → f x = f y → x = y.
Proof.
  induction l as [|z l IH]; [intros _ Hx; by apply elem_of_nil in Hx|]. rewrite fmap_cons, NoDup_cons. intros [Hz Hnd].
  intros [->|Hx]%elem_of_cons [->|Hy]%elem_of_cons Heq; [done|exfalso; apply Hz|exfalso; apply Hz|by apply IH].
  - rewrite Heq. by apply list_elem_of_fmap_2.
  - rewrite <- Heq. by apply list_elem_of_fmap_2.
Qed.

Section run.
Context (clock : nat → Z) (sha256 : string → string).
Context (eventLeaseMs : Z) (dispatchable : option EntityMatcher) (nextAttemptAt : Z → Z → Z).
Context {Port : Type} (registry : jsmap string (Destination Port)) (dispatcher : option Port).
Context (uuid : nat → string) (platform : bool).

Notation step := (step clock sha256 eventLeaseMs dispatchable nextAttemptAt registry dispatcher uuid platform).
Notation run_call := (run_call clock dispatchable nextAttemptAt uuid platform).
Notation settle := (settle clock sha256 eventLeaseMs nextAttemptAt).

(** ** The tables *)

Lemma safe_bind_mret {A} (m : JS Tables OutboxError A) s : safe platform s (m s).2 → safe platform s ((_ ← m; mret ()) s).2.
Proof. unfold mbind, js_bind. by destruct (m s) as [[a|e] s1]. Qed.
Lemma run_call_spec c s :
  Basic (log s) → mapped platform s → rtc queue_step (log s) (log (run_call c s).2) ∧ mapped platform (run_call c s).2.
Proof.
  intros Hb Hm. assert (safe platform s (run_call c s).2 → rtc queue_step (log s) (log (run_call c s).2) ∧ mapped platform (run_call c s).2) as Hsafe.
  { intros Hs. destruct (Hs Hb Hm) as [Hr Hm']. split; [by apply moves_queue_steps|done]. }
  destruct c as [appRoleName current contended commits trx l|tenantId jsNow i|tenantId jsNow i|rawBody reason|tenantId eventId immediate jsNow|trim tenantId actorId eventId i|contended commits tenantId e|locked limit|cut jsNow row message|jsNow read id immediate|jsNow i|consumer_owned audit_available audited];
    cbn [OutboxSystem.run_call] in *.
  12: { pose proof (cutover_spec clock platform consumer_owned audit_available audited s Hb Hm) as Hc. unfold mbind, js_bind. revert Hc.
    destruct (cutoverLegacyMessages _ _ _ _ _ s) as [[x|e] s1]; simpl; [intros [? ?]; split; [done|by right]|intros [? ?]; split; [by apply moves_queue_steps|done]]. }
  all: apply Hsafe; try apply safe_bind_mret.
  - apply callers_safe, on_log_safe, evolving_append.
  - apply on_log_safe, evolving_ackTenantEvent.
  - apply on_log_safe, evolving_ackEvent.
  - apply on_log_safe, evolving_unbound.
  - apply on_log_safe, evolving_retryEvent.
  - apply on_log_safe, evolving_retireEvent.
  - apply callers_safe, enqueue_safe.
  - apply claimDue_safe.
  - apply recordDispatchFailure_safe.
  - apply retry_safe.
  - apply ack_safe.
Qed.

Lemma evolving_settle as_app c r jsNow : evolving (settle as_app c r jsNow).
Proof.
  destruct r as [evidence|message evidence]; cbn [OutboxSystem.settle]; [|apply evolving_settle_failed].
  intros s. pose proof (evolving_settle_sent clock sha256 eventLeaseMs as_app c evidence s) as Hs. revert Hs.
  unfold fmap, js_fmap. by destruct (settle_sent _ _ _ _ _ _ s) as [[]].
Qed.

Lemma claim_tx_spec locked tenant limit only l :
  let '(r, l') := tx (claim_due clock eventLeaseMs locked tenant limit only) l in
  evolves l l' ∧ match r with Ok cs => claims_made eventLeaseMs l l' cs | Throw _ => True end.
Proof.
  destruct (Z.ltb_spec limit 0) as [Hl|Hl].
  - unfold tx, claim_due. run. destruct (Z.ltb_spec limit 0); [|lia]. cbn. split; [|done]. apply draws_evolves; lia.
  - destruct (claim_due_spec clock eventLeaseMs locked tenant limit only l Hl) as (cs & l' & -> & _ & Hev & Hc). by split.
Qed.
Lemma run_sweep_spec k locked limit filter l r l' :
  run_sweep clock eventLeaseMs registry k locked limit filter l = (r, l') →
  evolves l l' ∧ match r with Ok w => sw_phase w = ph_next ∧ claims_made eventLeaseMs l l' (sw_todo w) | Throw _ => True end.
Proof.
  destruct k as [tenantId|]; unfold run_sweep, dispatchTenantEventsDue, dispatchEventsDue.
  - destruct tenantId as [t|]; [|intros [= <- <-]; by split]. destruct (limit <? 1); [intros [= <- <-]; by split|].
    unfold mbind, js_bind, lift. destruct (dispatchMatcher registry filter) as [only|e]; [|intros [= <- <-]; by split].
    pose proof (claim_tx_spec locked (Some t) limit only l) as Hc. revert Hc.
    destruct (tx _ l) as [[cs|e] l1]; intros [Hev Hc]; intros [= <- <-]; by split.
  - unfold mbind, js_bind, lift. destruct (dispatchMatcher registry filter) as [only|e]; [|intros [= <- <-]; by split].
    pose proof (claim_tx_spec locked None limit only l) as Hc. revert Hc.
    destruct (tx _ l) as [[cs|e] l1]; intros [Hev Hc]; intros [= <- <-]; by split.
Qed.

(** A settlement of a claim that is not the last of its delivery leaves the queue alone. *)
Lemma complete_attempt_queue as_app c result error evidence l :
  let '(r, l') := complete_attempt clock sha256 as_app c result error evidence l in deliveries l' = deliveries l.
Proof.
  unfold complete_attempt, clock_timestamp. run. destruct (attempts l !! _) as [a|]; run; [|done]. by destruct (as_app && _).
Qed.
Lemma settle_unowned as_app c r jsNow l :
  (∀ d, deliveries l !! cl_key c = Some d → owns c d = false) →
  let '(res, l') := settle as_app c r jsNow l in
  deliveries l' = deliveries l ∧ match r, res with rp_failed _ _, Ok changed => changed = false | _, _ => True end.
Proof.
  intros Ho.
  assert (∀ f, ∃ l1, update_owned clock c f l = (Ok false, l1) ∧ deliveries l1 = deliveries l) as Hu.
  { intros f. unfold update_owned, clock_timestamp. run. destruct (deliveries l !! cl_key c) as [d|] eqn:Hd; [rewrite (Ho d eq_refl)|]; by eexists. }
  destruct r as [evidence|message evidence]; cbn [OutboxSystem.settle].
  - unfold settle_sent, tx, fmap, js_fmap, mbind, js_bind. destruct (Hu (extended eventLeaseMs)) as (l1 & -> & Hl1).
    pose proof (complete_attempt_queue as_app c ar_SENT None evidence l1) as Hc. revert Hc. destruct (complete_attempt _ _ _ _ _ _ _ l1) as [[[]|e] l2]; simpl; [|done].
    intros ->. by split.
  - unfold settle_failed, tx, mbind, js_bind, mret, js_ret. destruct (Hu (failed message (nextAttemptAt (cl_attempts c) jsNow))) as (l1 & -> & Hl1).
    pose proof (complete_attempt_queue as_app c ar_ERROR (Some message) evidence l1) as Hc. revert Hc.
    destruct (complete_attempt _ _ _ _ _ _ _ l1) as [[[]|e] l2]; simpl; [|done]. intros ->. by split.
Qed.

(** Every step is sound for the tables. *)
Lemma step_tables s s' :
  step s s' → Basic (log (db s)) → mapped platform (db s) → rtc queue_step (log (db s)) (log (db s')) ∧ mapped platform (db s').
Proof.
  intros Hs Hb Hm.
  assert (∀ l, evolves (log (db s)) l → rtc queue_step (log (db s)) l ∧ mapped platform (set_log l (db s))) as Hlog.
  { intros l He. destruct (log_safe platform (db s) l He Hb Hm) as [H1 H2]. split; [by apply moves_queue_steps|done]. }
  destruct Hs as [c|k locked limit filter n w l Hn Hr|k locked limit filter e l Hr|n w w' Hw Hbg|n w r Hw Hp|n w jsNow et w' l Hw Hst|n w jsNow c cs r e Hw Ht Hp|n];
    try (split; [apply rtc_refl|done]).
  - by apply run_call_spec.
  - apply run_sweep_spec in Hr as [Hev _]. by apply Hlog.
  - apply run_sweep_spec in Hr as [Hev _]. by apply Hlog.
  - apply Hlog. unfold settle_step in Hst. destruct (sw_todo w) as [|c cs]; [done|]. destruct (sw_phase w) as [| |r]; [done..|].
    pose proof (evolving_settle (sw_as_app w) c r jsNow (log (db s))) as Hev. revert Hev Hst.
    destruct (settle (sw_as_app w) c r jsNow (log (db s))) as [res l1]. by intros ? [= _ <-].
Qed.

(** ** The histories *)

Definition claim_id (c : Claim) : Key * Z := (cl_key c, cl_attempts c).
(** Claims of a sweep that no port was handed yet. *)
Definition pending (w : Sweep) : list Claim := match sw_phase w with ph_next => sw_todo w | _ => List.tl (sw_todo w) end.

Definition first_of_aggregate (l : Log) (c : Claim) : Prop :=
  ∀ row d, events l !! row.1 = Some row.2 → deliveries l !! row.1 = Some d → same_aggregate row (row_of c) = true →
    row_before row (row_of c) = true → terminal (dl_status d) = true.
Definition in_turn (a b : Claim) : Prop := same_aggregate (row_of a) (row_of b) = true → row_before (row_of b) (row_of a) = false.
Record recorded (l : Log) (c : Claim) : Prop := {
  rc_event : events l !! cl_key c = Some (cl_event c);
  rc_delivery : ∃ d, deliveries l !! cl_key c = Some d ∧ cl_attempts c ≤ dl_attempts d;
  rc_first : first_of_aggregate l c;
  rc_attempt : is_Some (attempts l !! claim_id c) }.

Record Histories (s : Sys) : Prop := {
  h_recorded : Forall (recorded (log (db s))) (claims s);
  h_distinct : NoDup (claim_id <$> claims s);
  h_in_turn : StronglySorted in_turn (claims s);
  h_todo n w : sweeps s !! n = Some w → sw_todo w ⊆ claims s;
  h_sends : NoDup (sends s);
  h_sent : sends s ⊆ claims s;
  h_pending n w : sweeps s !! n = Some w → NoDup (sw_todo w) ∧ ∀ c, c ∈ pending w → c ∉ sends s;
  h_apart n w n' w' c : sweeps s !! n = Some w → sweeps s !! n' = Some w' → c ∈ sw_todo w → c ∈ sw_todo w' → n = n' }.

Lemma recorded_advance l l' c : Basic l → Advance l l' → recorded l c → recorded l' c.
Proof.
  intros Hb Ha [He (d & Hd & Hn) Hf Hat]. destruct (adv_deliveries _ _ Ha _ _ _ He Hd) as (d' & Hd' & Ht). split.
  - by apply (adv_events _ _ Ha).
  - exists d'. split; [done|]. pose proof (dtrans_attempts _ _ _ Ht). lia.
  - intros row d1 Hrow Hd1 Hsame Hbf. destruct (deliveries l !! row.1) as [d0|] eqn:Hd0.
    + destruct (b_delivered _ Hb _ _ Hd0) as [e0 He0]. pose proof (adv_events _ _ Ha _ _ He0) as He0'. simplify_eq.
      destruct (adv_deliveries _ _ Ha _ _ _ He0 Hd0) as (d2 & Hd2 & Ht2). simplify_eq.
      pose proof (Hf row d0 He0 Hd0 Hsame Hbf) as Hterm. by rewrite (dtrans_terminal _ _ _ Ht2 Hterm).
    + destruct (adv_start _ _ Ha _ _ Hd0 Hd1) as (Hnew & _). pose proof (adv_new _ _ Ha _ _ _ _ Hnew Hrow He) as Hafter.
      unfold same_aggregate in Hsame. repeat (apply andb_true_iff in Hsame as [Hsame ?]). apply String.eqb_eq in Hsame.
      unfold row_before in Hbf. simpl in Hbf, Hsame. rewrite (before_asym _ _ (Hafter (eq_sym Hsame))) in Hbf. done.
  - by apply (adv_attempts _ _ Ha).
Qed.

Lemma claimed_open l l' cs c : claims_made eventLeaseMs l l' cs → c ∈ cs →
  events l !! cl_key c = Some (cl_event c) ∧ blocked l (row_of c) = false ∧
  ∃ d, deliveries l !! cl_key c = Some d ∧ terminal (dl_status d) = false ∧ cl_attempts c = dl_attempts d + 1.
Proof.
  intros Hc Hin. destruct (proj1 (Forall_forall _ _) (cm_claimed _ _ _ _ Hc) c Hin) as (d & at_ & Hd & Ho & Hn & _).
  destruct (proj1 (Forall_forall _ _) (cm_first _ _ _ _ Hc) c Hin) as [He Hb]. split; [done|]. split; [done|]. by exists d.
Qed.
(** An open delivery in front of a row blocks it. *)
Lemma not_blocked l row row' d :
  blocked l row = false → events l !! row'.1 = Some row'.2 → deliveries l !! row'.1 = Some d → same_aggregate row' row = true →
  row_before row' row = true → terminal (dl_status d) = true.
Proof.
  intros Hb He Hd Hs Hbf. destruct (terminal (dl_status d)) eqn:Ht; [done|]. exfalso. apply not_true_iff_false in Hb. apply Hb.
  unfold blocked. apply existsb_exists. exists row'. split; [apply list_elem_of_In; destruct row'; by apply elem_of_map_to_list|].
  by rewrite Hs, Hbf, Hd, Ht.
Qed.
Lemma claims_recorded l l' cs : Basic l → Advance l l' → claims_made eventLeaseMs l l' cs → Forall (recorded l') cs.
Proof.
  intros Hb Ha Hc. apply Forall_forall. intros c Hin. destruct (claimed_open _ _ _ _ Hc Hin) as (He & Hbl & _).
  destruct (proj1 (Forall_forall _ _) (cm_claimed _ _ _ _ Hc) c Hin) as (d & at_ & Hd & Ho & Hn & Hd').
  split; [by apply (adv_events _ _ Ha)|exists (claimed eventLeaseMs at_ d); split; [done|simpl; lia]| |exact (proj1 (Forall_forall _ _) (cm_attempts _ _ _ _ Hc) c Hin)].
  intros row d1 Hrow Hd1 Hsame Hbf. destruct (cm_only _ _ _ _ Hc) as (Hev & _). rewrite Hev in Hrow.
  destruct (deliveries l !! row.1) as [d0|] eqn:Hd0.
  - pose proof (not_blocked l (row_of c) row d0 Hbl Hrow Hd0 Hsame Hbf) as Hterm. destruct (adv_deliveries _ _ Ha _ _ _ Hrow Hd0) as (d2 & Hd2 & Ht).
    simplify_eq. by rewrite (dtrans_terminal _ _ _ Ht Hterm).
  - destruct (adv_start _ _ Ha _ _ Hd0 Hd1) as (Hnew & _). congruence.
Qed.
Lemma in_turn_new l l' cs a b : claims_made eventLeaseMs l l' cs → (recorded l a ∨ a ∈ cs) → b ∈ cs → in_turn a b.
Proof.
  intros Hc Ha Hb Hsame. destruct (claimed_open _ _ _ _ Hc Hb) as (Heb & _ & d & Hd & Ho & _).
  destruct (row_before (row_of b) (row_of a)) eqn:Hbf; [|done]. exfalso.
  assert (same_aggregate (row_of b) (row_of a) = true) as Hsame'.
  { unfold same_aggregate in *. repeat (apply andb_true_iff in Hsame as [Hsame ?]). by rewrite (String.eqb_sym (row_of b).1.1),
      (String.eqb_sym (ev_entity (row_of b).2)), (String.eqb_sym (ev_entityId (row_of b).2)), Hsame, H, H0. }
  assert (terminal (dl_status d) = true); [|congruence]. destruct Ha as [Ha|Ha].
  - by eapply (rc_first _ _ Ha (row_of b)).
  - destruct (claimed_open _ _ _ _ Hc Ha) as (_ & Hbl & _). by eapply (not_blocked l (row_of a) (row_of b)).
Qed.
Lemma fresh_ids l l' cs c c' : claims_made eventLeaseMs l l' cs → recorded l c → c' ∈ cs → claim_id c ≠ claim_id c'.
Proof.
  intros Hc Hr Hin Heq. destruct (claimed_open _ _ _ _ Hc Hin) as (_ & _ & d & Hd & _ & Hn). destruct (rc_delivery _ _ Hr) as (d0 & Hd0 & Hle).
  injection Heq as Hk Hat. rewrite Hk in Hd0. simplify_eq. lia.
Qed.
Lemma sorted_app cs cs' : StronglySorted in_turn cs → (∀ a b, a ∈ cs ++ cs' → b ∈ cs' → in_turn a b) → StronglySorted in_turn (cs ++ cs').
Proof.
  induction 1 as [|a cs Hs IH Hall]; intros Hnew; simpl.
  - assert (∀ l, l ⊆ cs' → StronglySorted in_turn l) as Hl; [|by apply Hl].
    induction l as [|a l IH]; intros Hsub; constructor; [apply IH; intros x Hx; apply Hsub; by right|].
    apply Forall_forall. intros b Hb. apply Hnew; apply Hsub; [by left|by right].
  - constructor.
    + apply IH. intros x y Hx Hy. apply Hnew; [by right|done].
    + apply Forall_app. split; [done|]. apply Forall_forall. intros b Hb. apply Hnew; [by left|done].
Qed.

Lemma pending_todo w c : c ∈ pending w → c ∈ sw_todo w.
Proof. unfold pending. destruct (sw_phase w); [done|..]; destruct (sw_todo w); [done|by right|done|by right]. Qed.
Lemma histories_log s s' :
  Basic (log (db s)) → Advance (log (db s)) (log (db s')) → sweeps s' = sweeps s → claims s' = claims s → sends s' = sends s →
  Histories s → Histories s'.
Proof.
  intros Hb Ha Hs Hc Hse H. split; rewrite ?Hs, ?Hc, ?Hse; try apply H.
  eapply Forall_impl; [exact (h_recorded _ H)|]. intros c. by apply recorded_advance.
Qed.
(** A sweep goes on with what it has left. *)
Lemma histories_sweep s n w w' :
  sweeps s !! n = Some w → sw_todo w' ⊆ sw_todo w → NoDup (sw_todo w') → pending w' ⊆ pending w → Histories s → Histories (set_sweep n w' s).
Proof.
  intros Hw Hsub Hnd Hp H. split; simpl; try apply H; intros n1 w1.
  - destruct (decide (n1 = n)) as [->|]; [rewrite lookup_insert_eq; intros [= <-]|rewrite lookup_insert_ne by done; apply H].
    intros c Hc. eapply (h_todo _ H); [exact Hw|]. by apply Hsub.
  - destruct (decide (n1 = n)) as [->|]; [rewrite lookup_insert_eq; intros [= <-]|rewrite lookup_insert_ne by done; apply H].
    split; [done|]. intros c Hc. eapply (h_pending _ H); [exact Hw|]. by apply Hp.
  - intros n2 w2 c H1 H2 Hc1 Hc2.
    assert (∀ n3 w3, <[n := w']> (sweeps s) !! n3 = Some w3 → c ∈ sw_todo w3 → ∃ w4, sweeps s !! n3 = Some w4 ∧ c ∈ sw_todo w4) as Hold.
    { intros n3 w3. destruct (decide (n3 = n)) as [->|]; [rewrite lookup_insert_eq; intros [= <-] Hc; exists w; split; [done|by apply Hsub]|].
      rewrite lookup_insert_ne by done. eauto. }
    destruct (Hold _ _ H1 Hc1) as (w3 & Hw3 & Hc3). destruct (Hold _ _ H2 Hc2) as (w4 & Hw4 & Hc4). by eapply (h_apart _ H).
Qed.
Lemma histories_finish s n w c cs o :
  sweeps s !! n = Some w → sw_todo w = c :: cs → sw_phase w ≠ ph_next → Histories s → Histories (set_sweep n (finish w cs o) s).
Proof.
  intros Hw Ht Hp H. destruct (h_pending _ H n w Hw) as [Hnd _]. rewrite Ht in Hnd. apply NoDup_cons in Hnd as [_ Hnd].
  eapply histories_sweep; [exact Hw|rewrite Ht; set_solver|done| |done]. unfold pending. rewrite Ht. simpl. by destruct (sw_phase w).
Qed.

Lemma histories_claim s n w l k locked limit filter :
  sweeps s !! n = None → run_sweep clock eventLeaseMs registry k locked limit filter (log (db s)) = (Ok w, l) →
  Basic (log (db s)) → Advance (log (db s)) l → Histories s →
  Histories {| db := set_log l (db s); sweeps := <[n := w]> (sweeps s); claims := claims s ++ sw_todo w; sends := sends s |}.
Proof.
  intros Hn Hr Hb Ha H.
  apply run_sweep_spec in Hr as [_ [Hph Hc]]. pose proof (claims_recorded _ _ _ Hb Ha Hc) as Hnew.
  assert (∀ c, c ∈ claims s → c ∉ sw_todo w) as Hold.
  { intros c Hc1 Hc2. pose proof (proj1 (Forall_forall _ _) (h_recorded _ H) c Hc1) as Hrc. by apply (fresh_ids _ _ _ c c Hc Hrc). }
  split; simpl.
  + apply Forall_app. split; [|done]. eapply Forall_impl; [exact (h_recorded _ H)|]. intros c. by apply recorded_advance.
  + rewrite fmap_app. apply NoDup_app. split; [apply H|]. split.
    * intros i (c & -> & Hc1)%list_elem_of_fmap (c' & Heq & Hc2)%list_elem_of_fmap.
      pose proof (proj1 (Forall_forall _ _) (h_recorded _ H) c Hc1) as Hrc. by apply (fresh_ids _ _ _ c c' Hc Hrc).
    * pose proof (cm_distinct _ _ _ _ Hc) as Hnd. change (cl_key <$> sw_todo w) with ((λ c, (claim_id c).1) <$> sw_todo w) in Hnd.
      rewrite (list_fmap_compose claim_id fst) in Hnd. by eapply NoDup_fmap_1.
  + apply sorted_app; [apply H|]. intros a b Hia Hib. eapply in_turn_new; [exact Hc| |done].
    apply elem_of_app in Hia as [Hia|Hia]; [left|by right]. by apply (proj1 (Forall_forall _ _) (h_recorded _ H)).
  + intros n1 w1. destruct (decide (n1 = n)) as [->|]; [rewrite lookup_insert_eq; intros [= <-]; set_solver|rewrite lookup_insert_ne by done].
    intros Hw1. pose proof (h_todo _ H _ _ Hw1). set_solver.
  + apply H.
  + pose proof (h_sent _ H). set_solver.
  + intros n1 w1. destruct (decide (n1 = n)) as [->|]; [rewrite lookup_insert_eq; intros [= <-]|rewrite lookup_insert_ne by done; apply H].
    split; [eapply NoDup_fmap_1, (cm_distinct _ _ _ _ Hc)|]. unfold pending. rewrite Hph. intros c Hc1 Hc2. apply (Hold c); [|done]. by apply (h_sent _ H).
  + intros n1 w1 n2 w2 c.
    destruct (decide (n1 = n)) as [->|], (decide (n2 = n)) as [->|]; rewrite ?lookup_insert_eq, ?lookup_insert_ne by done; [done|..|apply H].
    * intros [= <-] Hw2 Hc1 Hc2. destruct (Hold c); [by eapply (h_todo _ H)|done].
    * intros Hw1 [= <-] Hc1 Hc2. destruct (Hold c); [by eapply (h_todo _ H)|done].
Qed.
Lemma histories_begin s n w w' :
  sweeps s !! n = Some w → begin_send registry dispatcher w = Some w' → Histories s →
  Histories {| db := db s; sweeps := <[n := w']> (sweeps s); claims := claims s;
               sends := sends s ++ match sw_phase w' with ph_sending => firstn 1 (sw_todo w') | _ => [] end |}.
Proof.
  intros Hw Hbg H.
  unfold begin_send in Hbg. destruct (sw_todo w) as [|c cs] eqn:Ht; [done|]. destruct (sw_phase w) eqn:Hp; [|done..].
  destruct (h_pending _ H n w Hw) as [Hnd Hns]. unfold pending in Hns. rewrite Hp, Ht in Hns. rewrite Ht in Hnd. apply NoDup_cons in Hnd as [Hni Hnd].
  destruct (portFor _ _ _); injection Hbg as <-; simpl.
  + rewrite Ht. simpl. assert (c ∉ sends s) as Hcs by (apply Hns; by left).
    pose proof (histories_sweep s n w (set_phase ph_sending w) Hw) as H1. simpl in H1. rewrite Ht in H1.
    specialize (H1 ltac:(done) ltac:(by apply NoDup_cons)).
    specialize (H1 ltac:(unfold pending; rewrite Hp; simpl; rewrite Ht; simpl; set_solver) H).
    split; simpl; try apply H1.
    * apply NoDup_app. split; [apply H|]. split; [set_solver|apply NoDup_singleton].
    * pose proof (h_sent _ H). pose proof (h_todo _ H n w Hw). rewrite Ht in *. set_solver.
    * intros n1 w1 Hw1. destruct (h_pending _ H1 n1 w1 Hw1) as [Hnd1 Hns1]. split; [done|]. intros c1 Hc1.
      apply not_elem_of_app. split; [by apply Hns1|]. intros ->%list_elem_of_singleton.
      destruct (decide (n1 = n)) as [->|Hne].
      -- rewrite lookup_insert_eq in Hw1. injection Hw1 as <-. unfold pending in Hc1. simpl in Hc1. rewrite Ht in Hc1. done.
      -- rewrite lookup_insert_ne in Hw1 by done. apply Hne. symmetry. eapply (h_apart _ H n w n1 w1 c); [done..|rewrite Ht; by left|].
         by apply pending_todo.
  + rewrite app_nil_r. apply (histories_sweep s n w _ Hw); simpl; [rewrite Ht; set_solver|done|unfold pending; simpl; rewrite Hp, Ht; set_solver|done].
Qed.
Lemma step_histories s s' :
  step s s' → Basic (log (db s)) → Advance (log (db s)) (log (db s')) → Histories s → Histories s'.
Proof.
  intros Hs Hb Ha H.
  destruct Hs as [c|k locked limit filter n w l Hn Hr|k locked limit filter e l Hr|n w w' Hw Hbg|n w r Hw Hp|n w jsNow et w' l Hw Hst|n w jsNow c cs r e Hw Ht Hp|n].
  - by eapply histories_log.
  - by eapply histories_claim.
  - by eapply histories_log.
  - by eapply histories_begin.
  - apply (histories_sweep s n w _ Hw); simpl; [done|apply (h_pending _ H n w Hw)|unfold pending; simpl; by rewrite Hp|done].
  - unfold settle_step in Hst. destruct (sw_todo w) as [|c cs] eqn:Ht; [done|]. destruct (sw_phase w) as [| |r] eqn:Hp; [done..|].
    revert Hst. destruct (settle (sw_as_app w) c r jsNow (log (db s))) as [res l1]. intros [= <- <-].
    eapply (histories_log (set_sweep n _ s)); [exact Hb|exact Ha|done..|]. eapply histories_finish; [done|exact Ht|congruence|done].
  - eapply histories_finish; [done|exact Ht|congruence|done].
  - split; simpl; try apply H.
    + intros n1 w1 [_ Hw1]%lookup_delete_Some. by eapply (h_todo _ H).
    + intros n1 w1 [_ Hw1]%lookup_delete_Some. by eapply (h_pending _ H).
    + intros n1 w1 n2 w2 c [_ Hw1]%lookup_delete_Some [_ Hw2]%lookup_delete_Some. by eapply (h_apart _ H).
Qed.

(** ** Reachable states *)

Record Sound (s : Sys) : Prop := { sd_basic : Basic (log (db s)); sd_mapped : mapped platform (db s); sd_histories : Histories s }.
Lemma fresh_sound t : fresh t → Sound (start t).
Proof.
  intros (He & Hd & Hat & Hak & Hr & Hc & Ho & Hm & Hem & Hms). split.
  - split; simpl; rewrite ?He, ?Hd, ?Hat, ?Hak, ?Hr, ?Hc; try done.
    intros k. rewrite !lookup_empty. split; [by intros []|by intros (? & ? & _)].
  - by left.
  - by split; try constructor.
Qed.
Lemma outbox_step_sound s s' : step s s' → Sound s → Sound s' ∧ rtc queue_step (log (db s)) (log (db s')) ∧ Advance (log (db s)) (log (db s')).
Proof.
  intros Hs [Hb Hm Hh]. destruct (step_tables s s' Hs Hb Hm) as [Hq Hm']. destruct (queue_steps_sound _ _ Hq Hb) as [Hb' Ha].
  split; [|done]. split; [done|done|]. by eapply step_histories.
Qed.
Lemma steps_sound s s' : rtc step s s' → Sound s → Sound s' ∧ Advance (log (db s)) (log (db s')).
Proof.
  induction 1 as [s|s1 s2 s3 Hs _ IH]; intros H1; [split; [done|apply advance_refl]|].
  destruct (outbox_step_sound _ _ Hs H1) as (H2 & _ & Ha). destruct (IH H2) as [H3 Ha']. split; [done|]. by eapply advance_trans.
Qed.
Lemma outbox_sound s : reachable clock sha256 eventLeaseMs dispatchable nextAttemptAt registry dispatcher uuid platform s → Sound s.
Proof. intros (t & Hf & Hr). eapply steps_sound; [exact Hr|by apply fresh_sound]. Qed.
(** A transaction on the log alone. *)
Lemma moves_sound s l : rtc move (log (db s)) l → Sound s → Sound (set_dblog l s).
Proof.
  intros Hm [Hb Hma Hh]. destruct (log_safe platform (db s) l (λ _, Hm) Hb Hma) as [_ Hma'].
  split; [by eapply moves_basic|done|]. eapply (histories_log s); [done|by eapply moves_advance|done..].
Qed.
End run.

(** ** What an append logs, and what a repeated one answers. *)

(** The event [row] of the tenant is the fact that was appended. *)
Definition logged (l : Log) (t : string) (event : AppendEvent) (row : Key * Event) : Prop :=
  row.1.1 = t ∧ events l !! row.1 = Some row.2 ∧ ev_idempotencyKey row.2 = ap_idempotencyKey event ∧ same_fact row.2 event = true.
Definition just_queued (l : Log) (k : Key) : Prop :=
  ∃ d, deliveries l !! k = Some d ∧ dl_status d = PENDING ∧ dl_attempts d = 0 ∧ dl_nextAttemptAt d = None.
Definition appendable (event : AppendEvent) : Prop :=
  ap_entity event ≠ EmptyString ∧ ap_entityId event ≠ EmptyString ∧ ap_idempotencyKey event ≠ EmptyString.

Section append.
Context (clock : nat → Z) (dispatchable : option EntityMatcher).
Notation append_one := (append_one clock dispatchable).
Notation append_each := (append_each clock dispatchable).

Lemma same_fact_refl ms event :
  same_fact {| ev_entity := ap_entity event; ev_entityId := ap_entityId event; ev_idempotencyKey := ap_idempotencyKey event;
               ev_payload := ap_payload event; ev_metadata := ap_metadata event; ev_createdAt := ms |} event = true.
Proof. unfold same_fact. simpl. rewrite !String.eqb_refl. by rewrite bool_decide_true. Qed.
Lemma same_fact_entity e event : same_fact e event = true → ev_entity e = ap_entity event.
Proof. unfold same_fact. rewrite !andb_true_iff, !String.eqb_eq. naive_solver. Qed.
Lemma append_one_ok ms t event s row s' :
  append_one ms t event s = (Ok row, s') →
  appendable event ∧ logged s' t event row ∧
  (∀ k, just_queued s k → just_queued s' k) ∧
  (events s !! row.1 = None → hasDestination dispatchable (ap_entity event) = true → just_queued s' row.1) ∧
  (∀ k, k ≠ row.1 → events s' !! k = events s !! k).
Proof.
  unfold Outbox.append_one. destruct (String.eqb_spec (ap_entity event) EmptyString) as [|H1]; [done|].
  destruct (String.eqb_spec (ap_entityId event) EmptyString) as [|H2]; [done|].
  destruct (String.eqb_spec (ap_idempotencyKey event) EmptyString) as [|H3]; [done|]. simpl.
  unfold nextval, clock_timestamp. run. destruct (order s <? 2 ^ 63); [|done]. run.
  destruct (event_by_key t _ _) as [row'|] eqn:Hf.
  - destruct (same_fact row'.2 event) eqn:Hsame; [|done]. intros [= -> <-].
    apply event_by_key_some in Hf as (He & Ht & Hk). simpl in He. split; [done|]. split; [by repeat split|]. split; [done|]. split; [|done]. congruence.
  - destruct (hasDestination _ _) eqn:Hd; run; intros [= <- <-]; (split; [done|]); simpl.
    all: split; [split; [done|]; split; [apply lookup_insert_eq|]; split; [done|apply same_fact_refl]|].
    all: split; [|split; [|intros k Hk; by rewrite lookup_insert_ne]].
    + intros k. destruct (decide (k = (t, event_uuid ms (order s)))) as [->|Hne]; [intros _; eexists; simpl; rewrite lookup_insert_eq; by split|].
      unfold just_queued. simpl. by rewrite lookup_insert_ne.
    + intros _ _. eexists. simpl. rewrite lookup_insert_eq. by split.
    + done.
    + intros _ H. congruence.
Qed.
(** What a batch logged, whose first events were logged in [s]. *)
Definition delivered_too (s s' : Log) (event : AppendEvent) (row : Key * Event) : Prop :=
  events s !! row.1 = None → hasDestination dispatchable (ap_entity event) = true → just_queued s' row.1.
Lemma append_each_ok ms t l s rows s' :
  Basic s → tenant_clock s !! t = Some ms → 0 ≤ ms → append_each ms t l s = (Ok rows, s') →
  Forall appendable l ∧ Forall2 (λ event row, logged s' t event row ∧ delivered_too s s' event row) l rows ∧
  (∀ k, just_queued s k → just_queued s' k).
Proof.
  revert s rows. induction l as [|event l IH]; intros s rows Hb Hc Hms; cbn [Outbox.append_each]; [by intros [= <- <-]|].
  destruct (append_one_evolves clock dispatchable ms t event s Hc Hms) as [Hev1 Hcl]. pose proof (append_one_ok ms t event s) as H1.
  unfold mbind, js_bind. destruct (append_one ms t event s) as [[row|e] s1]; [|done]. simpl in Hev1, Hcl.
  destruct (H1 row s1 eq_refl) as (Hv & Hlog & Hq & Hnew & Hother). pose proof (moves_basic _ _ (Hev1 Hb) Hb) as Hb1. rewrite <- Hcl in Hc.
  pose proof (append_each_evolves clock dispatchable ms t l s1 Hc Hms) as Hev2. specialize (IH s1).
  destruct (append_each ms t l s1) as [[rows1|e] s2]; [|done]. intros [= <- <-]. simpl in Hev2.
  pose proof (moves_advance _ _ (Hev2 Hb1) Hb1) as Ha. destruct (IH rows1 Hb1 Hc Hms eq_refl) as (Hvs & Hall & Hqs).
  assert (logged s2 t event row) as Hlog2 by (destruct Hlog as (? & He & ?); split; [done|]; split; [by apply (adv_events _ _ Ha)|done]).
  split; [by constructor|]. split; [|auto]. constructor; [split; [done|intros Hn Hd; by apply Hqs, Hnew]|].
  eapply Forall2_impl; [exact Hall|]. intros event' row' [Hlog' Hdel]. split; [done|]. intros Hn Hd.
  destruct (decide (row'.1 = row.1)) as [Heq|Hne]; [|apply Hdel; [by rewrite Hother|done]].
  rewrite Heq in Hn |- *. apply Hqs, Hnew; [done|]. destruct Hlog2 as (_ & He & _ & Hs), Hlog' as (_ & He' & _ & Hs').
  rewrite Heq, He in He'. injection He' as He'. by rewrite <- (same_fact_entity _ _ Hs), He', (same_fact_entity _ _ Hs').
Qed.

(** ** Again *)

Lemma event_by_key_logged s t event row : Basic s → logged s t event row → event_by_key t (ap_idempotencyKey event) s = Some row.
Proof.
  intros Hb (Ht & He & Hk & _). destruct (event_by_key t (ap_idempotencyKey event) s) as [row'|] eqn:Hf.
  - apply event_by_key_some in Hf as (He' & Ht' & Hk'). assert (row'.1 = row.1) as Heq by (eapply (b_keys _ Hb); [exact He'|exact He|congruence|congruence]).
    rewrite Heq, He in He'. destruct row, row'. simpl in *. congruence.
  - exfalso; by eapply event_by_key_none.
Qed.
Lemma append_one_again ms t event row s :
  appendable event → logged s t event row → event_by_key t (ap_idempotencyKey event) s = Some row → order s < 2 ^ 63 →
  append_one ms t event s = (Ok row, set_draws (order s + 1) (ticks s) s).
Proof.
  intros (H1 & H2 & H3) (_ & _ & _ & Hs) Hf Ho. apply String.eqb_neq in H1, H2, H3. unfold Outbox.append_one. rewrite H1, H2, H3. simpl.
  unfold nextval. run. destruct (Z.ltb_spec (order s) (2 ^ 63)); [|lia]. run.
  change (event_by_key t (ap_idempotencyKey event) (set_draws (order s + 1) (ticks s) s)) with (event_by_key t (ap_idempotencyKey event) s).
  by rewrite Hf, Hs.
Qed.
Lemma append_each_again ms t l rows s :
  Basic s → Forall appendable l → Forall2 (logged s t) l rows → order s + Z.of_nat (length l) ≤ 2 ^ 63 →
  ∃ s', append_each ms t l s = (Ok rows, s') ∧ events s' = events s ∧ deliveries s' = deliveries s.
Proof.
  intros Hb Hv Hall. assert (∀ s1, events s1 = events s → order s1 + Z.of_nat (length l) ≤ 2 ^ 63 →
    ∃ s', append_each ms t l s1 = (Ok rows, s') ∧ events s' = events s1 ∧ deliveries s' = deliveries s1) as H; [|by apply H].
  induction Hall as [|event row l rows Hlog Hall IH]; intros s1 He Ho; cbn [Outbox.append_each]; [by exists s1|].
  apply Forall_cons in Hv as [Hv Hvs]. cbn [length] in Ho. unfold mbind, js_bind. rewrite (append_one_again ms t event row s1); [|done| |..].
  - destruct (IH Hvs (set_draws (order s1 + 1) (ticks s1) s1)) as (s' & -> & He' & Hd'); [done|simpl; lia|]. by exists s'.
  - destruct Hlog as (? & ? & ?). split; [done|]. by rewrite He.
  - unfold event_by_key. rewrite He. by apply event_by_key_logged.
  - lia.
Qed.

(** ** The transaction *)

Lemma tick_clock_order t s : order (tick_clock clock t s).2 = order s.
Proof. done. Qed.

Lemma appendMany_admitted appRoleName current trx l t s rows s' :
  tr_tenantId trx = Some t → l ≠ [] → appendManyInTransaction clock dispatchable appRoleName current false trx l s = (Ok rows, s') →
  (∀ s1, appendManyInTransaction clock dispatchable appRoleName current false trx l s1 = (ms ← tick_clock clock t; append_each ms t l) s1).
Proof.
  intros Ht Hl Happ s1. revert Happ. unfold appendManyInTransaction. destruct l as [|event l]; [done|]. rewrite Ht.
  destruct (negb (String.eqb (tr_role trx) "app")); [done|]. destruct (append_reason appRoleName trx); [done|]. destruct (negb (bool_decide _)); [done|].
  destruct (match tr_chainKey trx with Some key => negb (String.eqb key t) | None => false end); [done|]. by intros _.
Qed.
End append.
