(* ===== verification/OutboxStream.v ===== *)
(** * OutboxStream: the events of a tenant as a stream, and the backoff policies.

    [OutboxEventStreamSource] of [outbox/src/event-stream-source.ts]: a reader asks for the events
    after a cursor, again and again, while the log goes on. *)
From S2P Require Import Prelude JsMap JsText OutboxSelectors Outbox OutboxLegacy OutboxSystem OutboxInv OutboxMoves OutboxTables OutboxRun.
Local Open Scope Z_scope.

(** ** The source *)

(** [createdAt] in milliseconds; no [id] comes before every other. *)
Record Cursor := { cu_createdAt : Z; cu_id : option Z }.
(** The state of the session that reads. *)
Record Reader := { rd_recovery : bool; rd_role : option string; rd_sqlRole : string }.

Definition onPrimary (appRoleName : string) (r : Reader) : JS Log OutboxError () :=
  if rd_recovery r then throw (OutboxEventTransactionError "recovery")
  else if negb (bool_decide (rd_role r = Some "app")) then throw (OutboxEventTransactionError "app_role")
  else if negb (String.eqb (rd_sqlRole r) appRoleName) then throw (OutboxEventTransactionError "sql_role") else mret ().
Definition after_cursor (c : Cursor) (row : Key * Event) : bool :=
  (cu_createdAt c <? ev_createdAt row.2)
  || ((ev_createdAt row.2 =? cu_createdAt c) && match cu_id c with None => true | Some id => id <? row.1.2 end).
Definition since (tenantId : string) (c : Cursor) (s : Log) : list (Key * Event) :=
  log_order (List.filter (λ row, String.eqb row.1.1 tenantId && after_cursor c row) (map_to_list (events s))).
Definition listSince (appRoleName : string) (r : Reader) (tenantId : string) (c : Cursor) (limit : Z) : JS Log OutboxError (list (Key * Event)) :=
  _ ← onPrimary appRoleName r;
  _ ← throw_if (limit <? 0) (SqlError "2201W");
  getf (λ s, List.firstn (Z.to_nat limit) (since tenantId c s)).
Definition cursor_of (row : Key * Event) : Cursor := {| cu_createdAt := ev_createdAt row.2; cu_id := Some row.1.2 |}.
(** The time of the clock of the tenant, which later events do not precede. *)
Definition now (clock : nat → Z) (appRoleName : string) (r : Reader) (tenantId : string) : JS Log OutboxError Z :=
  tx (_ ← onPrimary appRoleName r; tick_clock clock tenantId).
(** [id] by the number of its uuid, and by its text in the table of migrated messages. *)
Definition findById (appRoleName : string) (r : Reader) (tenantId : string) (id : option (Z * string)) : JS Tables OutboxError (option (Key * Event)) :=
  match id with
  | None => mret None
  | Some (id, text) =>
      _ ← on_log (onPrimary appRoleName r);
      s ← getf (λ s, s);
      let target := match event_map s !! text with
                    | Some (k, _) => if String.eqb k.1 tenantId then k.2 else id
                    | None => id
                    end in
      mret ((λ e, ((tenantId, target), e)) <$> events (log s) !! (tenantId, target))
  end.

(** ** Backoff policies *)

(** [outbox/src/backoff.ts]; [jitter]: the drawn whole number. Options are whole numbers. *)
Definition FixedIntervalBackoffPolicy (intervalMs : Z) (attempt jsNow : Z) : Z := jsNow + intervalMs.
Record ExponentialBackoffOptions := { bo_baseMs : option Z; bo_factor : option Z; bo_maxMs : option Z; bo_jitterMs : option Z }.
Definition ExponentialBackoffPolicy (o : ExponentialBackoffOptions) (random : Z → Z) (attempt jsNow : Z) : Z :=
  let exponent := Z.max 0 (attempt - 1) in
  let uncapped := default 30000 (bo_baseMs o) * default 2 (bo_factor o) ^ exponent in
  let capped := Z.min uncapped (default 3600000 (bo_maxMs o)) in
  let jitterMs := default 5000 (bo_jitterMs o) in
  jsNow + capped + (if 0 <? jitterMs then random jitterMs else 0).

(** ** The order of the log *)

Lemma row_before_total (a b : Key * Event) : a.1.1 = b.1.1 → a.1 ≠ b.1 → row_before a b = true ∨ row_before b a = true.
Proof.
  destruct a as [[t i] e], b as [[t' i'] e']. unfold row_before, position, before. simpl. intros -> Hne.
  assert (i ≠ i') by congruence. destruct (Z.lt_trichotomy (ev_createdAt e) (ev_createdAt e')) as [?|[?|?]]; lia.
Qed.
Lemma row_le_total a b : row_le a b = false → row_le b a = true.
Proof. unfold row_le. intros Hb%negb_false_iff. apply negb_true_iff. by apply before_asym. Qed.
Lemma row_le_trans a b c : row_le a b = true → row_le b c = true → row_le a c = true.
Proof. unfold row_le, row_before, before. lia. Qed.
Lemma log_order_sorted l : StronglySorted (λ a b, row_le a b = true) (log_order l).
Proof. apply (js_sort_sorted _ (λ _, True)); [eauto using row_le_total|eauto using row_le_trans|by apply Forall_true]. Qed.
Lemma log_order_unique l1 l2 :
  (∀ x y, x ∈ l1 → y ∈ l1 → row_le x y = true → row_le y x = true → x = y) → l1 ≡ₚ l2 → log_order l1 = log_order l2.
Proof. apply (js_sort_unique _ (λ _, True)); [eauto using row_le_total|eauto using row_le_trans|by apply Forall_true]. Qed.
Lemma log_order_fixed l : StronglySorted (λ a b, row_le a b = true) l → log_order l = l.
Proof.
  induction 1 as [|x l Hs IH Hall]; [done|]. unfold log_order in *. simpl. rewrite IH. destruct l as [|y l]; [done|].
  apply Forall_cons in Hall as [Hxy _]. simpl. by rewrite Hxy.
Qed.

Lemma elem_of_since t c l row : row ∈ since t c l ↔ events l !! row.1 = Some row.2 ∧ row.1.1 = t ∧ after_cursor c row = true.
Proof.
  unfold since, log_order. rewrite js_sort_perm, list_elem_of_In, List.filter_In, <- list_elem_of_In. destruct row as [k e].
  rewrite elem_of_map_to_list, andb_true_iff, String.eqb_eq. done.
Qed.
Lemma since_nodup t c l : NoDup (since t c l).
Proof.
  unfold since, log_order. rewrite js_sort_perm. pose proof (NoDup_map_to_list (events l)) as Hnd.
  rewrite <- (list_fmap_id (map_to_list (events l))) in Hnd. apply (NoDup_fmap_filter id) with (p := λ row, String.eqb row.1.1 t && after_cursor c row) in Hnd.
  by rewrite list_fmap_id in Hnd.
Qed.
(** Rows of one tenant are told apart by their positions. *)
Lemma row_le_anti l (x y : Key * Event) :
  events l !! x.1 = Some x.2 → events l !! y.1 = Some y.2 → x.1.1 = y.1.1 → row_le x y = true → row_le y x = true → x = y.
Proof.
  intros Hx Hy Ht H1%negb_true_iff H2%negb_true_iff. destruct (decide (x.1 = y.1)) as [Hk|Hne].
  - rewrite Hk in Hx. destruct x, y. simpl in *. congruence.
  - destruct (row_before_total x y Ht Hne); congruence.
Qed.
(** A sorted list of the rows is the stream. *)
Lemma since_unique t c l rows :
  NoDup rows → StronglySorted (λ a b, row_le a b = true) rows → (∀ row, row ∈ rows ↔ row ∈ since t c l) → since t c l = rows.
Proof.
  intros Hnd Hs Heq. rewrite <- (log_order_fixed rows Hs), <- (log_order_fixed (since t c l)) by apply log_order_sorted.
  apply log_order_unique.
  - intros x y (? & ? & _)%elem_of_since (? & ? & _)%elem_of_since. apply (row_le_anti l); [done..|congruence].
  - apply NoDup_Permutation; [apply since_nodup|done|]. intros row. by rewrite Heq.
Qed.

(** A log that goes on only adds to the end of the stream. *)
Lemma since_grows t c l l' : Basic l → Advance l l' → since t c l `prefix_of` since t c l'.
Proof.
  intros Hb Ha. set (new := log_order (List.filter (λ row, bool_decide (events l !! row.1 = None)) (since t c l'))).
  assert (∀ row, row ∈ new ↔ row ∈ since t c l' ∧ events l !! row.1 = None) as Hnew.
  { intros row. unfold new, log_order. rewrite js_sort_perm, !list_elem_of_In, List.filter_In, bool_decide_eq_true. done. }
  assert (∀ row, row ∈ since t c l → row ∈ since t c l') as Hold.
  { intros row (He & Ht & Hc)%elem_of_since. apply elem_of_since. split; [by apply (adv_events _ _ Ha)|done]. }
  exists new. apply since_unique.
  - apply NoDup_app. split; [apply since_nodup|]. split.
    + intros row (He & _)%elem_of_since [_ Hn]%Hnew. congruence.
    + unfold new, log_order. rewrite js_sort_perm. pose proof (since_nodup t c l') as Hnd. rewrite <- (list_fmap_id (since t c l')) in Hnd.
      eapply NoDup_fmap_filter in Hnd. by rewrite list_fmap_id in Hnd.
  - apply StronglySorted_app. split; [|split; apply log_order_sorted]. intros a b (Hea & Hta & _)%elem_of_since [(Heb & Htb & _)%elem_of_since Hn]%Hnew.
    unfold row_le. apply negb_true_iff, before_asym. eapply (adv_new _ _ Ha); [exact Hn|exact Heb|exact Hea|congruence].
  - intros row. rewrite elem_of_app. split; [intros [Hin|Hin]; [by apply Hold|by apply Hnew in Hin as [Hin _]]|].
    intros Hin. destruct (events l !! row.1) as [e|] eqn:He; [left|right; by apply Hnew].
    apply elem_of_since in Hin as (He' & Ht & Hc). apply elem_of_since. pose proof (adv_events _ _ Ha _ _ He). split; [congruence|done].
Qed.

(** After a row of the stream comes the rest of it. *)
Lemma after_cursor_of r row : after_cursor (cursor_of r) row = row_before r row.
Proof. unfold after_cursor, cursor_of, row_before, before, position. simpl. f_equal. f_equal. apply Z.eqb_sym. Qed.
Lemma after_cursor_trans c r row : after_cursor c r = true → row_before r row = true → after_cursor c row = true.
Proof. unfold after_cursor, row_before, before, position. simpl. destruct (cu_id c); lia. Qed.
Lemma since_rest t c l seen r rest : since t c l = seen ++ r :: rest → since t (cursor_of r) l = rest.
Proof.
  intros Hs. pose proof (log_order_sorted (List.filter (λ row, String.eqb row.1.1 t && after_cursor c row) (map_to_list (events l)))) as Hsort.
  fold (since t c l) in Hsort. pose proof (since_nodup t c l) as Hnd. rewrite Hs in Hsort, Hnd.
  apply StronglySorted_app in Hsort as (Hcross & _ & Hsort). apply StronglySorted_inv in Hsort as [Hsort Hr].
  apply NoDup_app in Hnd as (_ & Hout & Hnd). apply NoDup_cons in Hnd as [Hnr Hnd].
  assert (∀ x, x ∈ seen ++ r :: rest → events l !! x.1 = Some x.2 ∧ x.1.1 = t ∧ after_cursor c x = true) as Hin by (intros x; rewrite <- Hs; apply elem_of_since).
  destruct (Hin r) as (Her & Htr & Hcr); [apply elem_of_app; right; by left|].
  apply since_unique; [done..|]. intros x. rewrite elem_of_since, after_cursor_of. split.
  - intros Hx. destruct (Hin x) as (Hex & Htx & Hcx); [apply elem_of_app; right; by right|]. split; [done|]. split; [done|].
    pose proof (proj1 (Forall_forall _ _) Hr x Hx) as Hle. destruct (row_before r x) eqn:Hbf; [done|].
    exfalso. apply Hnr. rewrite (row_le_anti l r x); [done..|congruence|done|unfold row_le; by rewrite Hbf].
  - intros (Hex & Htx & Hbf). assert (x ∈ seen ++ r :: rest) as Hx.
    { rewrite <- Hs. apply elem_of_since. split; [done|]. split; [done|]. by eapply after_cursor_trans. }
    apply elem_of_app in Hx as [Hx|[->|Hx]%elem_of_cons]; [exfalso| |done].
    + specialize (Hcross x r Hx ltac:(by left)). unfold row_le in Hcross. by rewrite Hbf in Hcross.
    + unfold row_before in Hbf. by rewrite before_irrefl in Hbf.
Qed.

(** ** Readers *)

Definition cursor_at (c0 : Cursor) (seen : list (Key * Event)) : Cursor := match last seen with Some r => cursor_of r | None => c0 end.
Lemma since_cursor_at t c0 l seen rest : since t c0 l = seen ++ rest → since t (cursor_at c0 seen) l = rest.
Proof.
  unfold cursor_at. destruct seen as [|r seen _] using rev_ind; [done|]. rewrite last_snoc, <- app_assoc. simpl. apply since_rest.
Qed.
Lemma listSince_ok appRoleName r t c limit l rows : (listSince appRoleName r t c limit l).1 = Ok rows → rows = List.firstn (Z.to_nat limit) (since t c l).
Proof.
  unfold listSince, onPrimary. run. destruct (rd_recovery r); [done|]. destruct (negb _); [done|]. destruct (negb _); [done|]. cbn.
  destruct (limit <? 0); [done|]. by intros [= <-].
Qed.

Lemma onPrimary_spec appRoleName r l : onPrimary appRoleName r l = (Ok (), l) ∨ ∃ e, ∀ l, onPrimary appRoleName r l = (Throw e, l).
Proof. unfold onPrimary. destruct (rd_recovery r); [right; by eexists|]. destruct (negb _); [right; by eexists|]. destruct (negb _); [right; by eexists|by left]. Qed.
Lemma listSince_primary appRoleName r t c limit l l' : onPrimary appRoleName r l' = (Ok (), l') → 0 ≤ limit →
  (listSince appRoleName r t c limit l).1 = Ok (List.firstn (Z.to_nat limit) (since t c l)).
Proof.
  intros Hp Hl. destruct (onPrimary_spec appRoleName r l) as [H|[e He]]; [|by rewrite He in Hp]. unfold listSince, mbind, js_bind. rewrite H.
  unfold throw_if. destruct (Z.ltb_spec limit 0); [lia|]. done.
Qed.
Lemma now_spec clock appRoleName r t l ms l' :
  now clock appRoleName r t l = (Ok ms, l') →
  onPrimary appRoleName r l = (Ok (), l) ∧ evolves l l' ∧ events l' = events l ∧ tenant_clock l' !! t = Some ms.
Proof.
  unfold now, tx, mbind, js_bind. destruct (onPrimary_spec appRoleName r l) as [H|[e He]]; [rewrite H|by rewrite He].
  pose proof (tick_clock_evolves clock t l) as Ht. revert Ht. destruct (tick_clock clock t l) as [r0 l1]. intros (ms' & -> & _ & Hc & He & _ & Hev).
  intros [= -> <-]. done.
Qed.

Section readers.
Context (clock : nat → Z) (sha256 : string → string).
Context (eventLeaseMs : Z) (dispatchable : option EntityMatcher) (nextAttemptAt : Z → Z → Z).
Context {Port : Type} (registry : jsmap string (Destination Port)) (dispatcher : option Port).
Context (uuid : nat → string) (platform : bool).

(** A reader that began at [s0] with the cursor [c0] has [seen] these rows; the outbox goes on between
    its requests. *)
Inductive follows (appRoleName : string) (r : Reader) (t : string) (c0 : Cursor) (s0 : Sys) : Sys → list (Key * Event) → Prop :=
| fo_start : follows appRoleName r t c0 s0 s0 []
| fo_goes_on s s' seen :
    follows appRoleName r t c0 s0 s seen → step clock sha256 eventLeaseMs dispatchable nextAttemptAt registry dispatcher uuid platform s s' →
    follows appRoleName r t c0 s0 s' seen
| fo_asks s seen limit rows :
    follows appRoleName r t c0 s0 s seen → (listSince appRoleName r t (cursor_at c0 seen) limit (log (db s))).1 = Ok rows →
    follows appRoleName r t c0 s0 s (seen ++ rows).

Lemma follows_sound appRoleName r t c0 s0 s seen :
  follows appRoleName r t c0 s0 s seen → Sound platform s0 → Sound platform s ∧ Advance (log (db s0)) (log (db s)) ∧ seen `prefix_of` since t c0 (log (db s)).
Proof.
  induction 1 as [|s s' seen _ IH Hs|s seen limit rows _ IH Hr]; intros H0.
  - split; [done|]. split; [apply advance_refl|apply prefix_nil].
  - destruct (IH H0) as (H1 & Ha & Hp). destruct (outbox_step_sound _ _ _ _ _ _ _ _ _ _ _ Hs H1) as (H2 & _ & Ha').
    split; [done|]. split; [by eapply advance_trans|]. etrans; [exact Hp|]. by apply since_grows, Ha'; apply H1.
  - destruct (IH H0) as (H1 & Ha & [rest Hrest]). split; [done|]. split; [done|]. apply listSince_ok in Hr as ->.
    rewrite (since_cursor_at _ _ _ _ _ Hrest), Hrest. apply prefix_app. eexists. symmetry. apply firstn_skipn.
Qed.
End readers.
