(* ===== verification/OutboxReads.v ===== *)
(** * OutboxReads: what the outbox shows of the log and the queue.

    The reads of [outbox/src/outbox.service.ts] in the tenant of the request, each one query; that a
    query of an aggregate, which selects some rows by their ranks, shows what a walk over all of
    them would. *)
From S2P Require Import Prelude JsMap JsText OutboxSelectors Outbox OutboxInv OutboxMoves OutboxStream.
Local Open Scope Z_scope.

(** ** Views *)

Record OutboxEventDelivery := { vw_key : Key; vw_event : Event; vw_delivery : option Delivery; vw_retirement : option Retirement }.
Definition eventSummary (s : Log) (row : Key * Event) : OutboxEventDelivery :=
  {| vw_key := row.1; vw_event := row.2; vw_delivery := deliveries s !! row.1; vw_retirement := retirements s !! row.1 |}.
Definition DELIVERY_STATUSES : list DeliveryStatus := [PENDING; SENT; SENT_UNRESOLVED; ERROR; ACKED; RETIRED].
Definition statusCounts (rows : list (DeliveryStatus * Z)) : jsmap DeliveryStatus Z :=
  foldl (λ counts row, jm_set row.1 row.2 counts) ((λ st, (st, 0)) <$> DELIVERY_STATUSES) rows.
(** [None]: absent; [Some None]: no text. *)
Definition filterText (value : option (option string)) : outcome OutboxError (option string) :=
  match value with
  | None => Ok None
  | Some None | Some (Some EmptyString) => Throw RangeError
  | Some (Some s) => Ok (Some s)
  end.
Definition of_entity (entity entityPrefix : option string) (e : Event) : bool :=
  match entity with Some s => String.eqb (ev_entity e) s | None => true end
  && match entityPrefix with Some p => starts_with p (ev_entity e) | None => true end.

Notation Row := (Key * Event * Delivery)%type.

Section reads.
(** The tenant of the request. *)
Context (currentTenantId : option string).
Definition requestTenant : JS Log OutboxError string :=
  match currentTenantId with None | Some EmptyString => throw OutboxNotFoundError | Some t => mret t end.
Definition tenant_events (t : string) (s : Log) : list (Key * Event) := List.filter (λ row, String.eqb row.1.1 t) (map_to_list (events s)).

(** ** Lists *)

(** [lq_limit]: [Some None] when it is no safe integer. [lq_deliveryStatus]: absent, or its names,
    [None] for another. [lq_cursor]: absent, not well formed, or the time and the number of the id. *)
Record OutboxEventListQuery := {
  lq_limit : option (option Z);
  lq_deliveryStatus : option (list (option DeliveryStatus));
  lq_entity : option (option string);
  lq_entityPrefix : option (option string);
  lq_cursor : option (option (Z * Z)) }.
Definition list_limit (value : option (option Z)) (default_ max : Z) : outcome OutboxError Z :=
  match value with
  | None => Ok default_
  | Some None => Throw RangeError
  | Some (Some n) => if (n <? 1) || (max <? n) then Throw RangeError else Ok n
  end.
Definition statuses_of (value : option (list (option DeliveryStatus))) : outcome OutboxError (option (list DeliveryStatus)) :=
  match value with
  | None => Ok None
  | Some l => if bool_decide (l = []) then Throw RangeError else match mapM id l with Some sts => Ok (Some sts) | None => Throw RangeError end
  end.
Definition listed (sts : option (list DeliveryStatus)) (entity entityPrefix : option string) (cursor : option (Z * Z)) (s : Log) (row : Key * Event) : bool :=
  match sts with
  | Some sts => match deliveries s !! row.1 with Some d => bool_decide (dl_status d ∈ sts) | None => false end
  | None => true
  end
  && of_entity entity entityPrefix row.2
  && match cursor with Some c => before (position row.1 row.2) c | None => true end.
Definition listEvents (query : OutboxEventListQuery) : JS Log OutboxError (list OutboxEventDelivery * option (Z * Z)) :=
  t ← requestTenant;
  limit ← lift (list_limit (lq_limit query) 50 500);
  sts ← lift (statuses_of (lq_deliveryStatus query));
  entity ← lift (filterText (lq_entity query));
  entityPrefix ← lift (filterText (lq_entityPrefix query));
  cursor ← match lq_cursor query with Some None => throw RangeError | Some (Some c) => mret (Some c) | None => mret None end;
  s ← getf (λ s, s);
  let rows := List.firstn (Z.to_nat (limit + 1)) (rev (log_order (List.filter (listed sts entity entityPrefix cursor s) (tenant_events t s)))) in
  let items := List.firstn (Z.to_nat limit) rows in
  mret (eventSummary s <$> items,
        match last items with
        | Some row => if limit <? Z.of_nat (length rows) then Some (position row.1 row.2) else None
        | None => None
        end).
Definition getEventDelivery (eventId : option Z) : JS Log OutboxError (option OutboxEventDelivery) :=
  t ← requestTenant;
  match eventId with
  | None => mret None
  | Some id =>
      s ← getf (λ s, s);
      mret match events s !! (t, id), deliveries s !! (t, id) with Some e, Some _ => Some (eventSummary s ((t, id), e)) | _, _ => None end
  end.
(** By ordinal. *)
Definition listEventAttempts (eventId : option Z) : JS Log OutboxError (list (Z * Attempt)) :=
  t ← requestTenant;
  match eventId with
  | None => mret []
  | Some id =>
      getf (λ s, (λ r, (r.1.2, r.2)) <$> js_sort (λ a b, a.1.2 <=? b.1.2) (List.filter (λ r, bool_decide (r.1.1 = (t, id))) (map_to_list (attempts s))))
  end.
Definition getEventRetirement (eventId : option Z) : JS Log OutboxError (option Retirement) :=
  t ← requestTenant; match eventId with None => mret None | Some id => getf (λ s, retirements s !! (t, id)) end.

(** ** Counts *)

Record OutboxQueueHealth := { qh_tenantId : string; qh_total : Z; qh_byStatus : jsmap DeliveryStatus Z; qh_oldestUnackedCreatedAt : option Z }.
Definition smallest (l : list Z) : option Z := head (js_sort Z.leb l).
(** The rows of [group by]: statuses that occur, with their count and the oldest creation. *)
Definition grouped (rows : list (Event * Delivery)) : list (DeliveryStatus * Z * option Z) :=
  omap (λ st, let group := List.filter (λ r, bool_decide (dl_status r.2 = st)) rows in
              match group with
              | [] => None
              | _ => Some (st, Z.of_nat (length group), if terminal st then None else smallest ((λ r, ev_createdAt r.1) <$> group))
              end) DELIVERY_STATUSES.
Definition getQueueHealth {Port} (registry : jsmap string (Destination Port)) (entity entityPrefix : option (option string)) (destination : option (option string)) :
    JS Log OutboxError OutboxQueueHealth :=
  t ← requestTenant;
  entity ← lift (filterText entity);
  entityPrefix ← lift (filterText entityPrefix);
  only ← match destination with None => mret None | Some name => lift (dispatchMatcher registry (fi_destination name)) end;
  s ← getf (λ s, s);
  let rows := omap (λ row, d ← deliveries s !! row.1;
                           if of_entity entity entityPrefix row.2 && matches_filter only (ev_entity row.2) then Some (row.2, d) else None) (tenant_events t s) in
  let result := grouped rows in
  mret {| qh_tenantId := t; qh_total := foldl (λ sum r, sum + r.1.2) 0 result; qh_byStatus := statusCounts (fst <$> result);
          qh_oldestUnackedCreatedAt := smallest (omap snd result) |}.

(** ** Aggregates *)

Record Ranked := { rk_row : Row; rk_position : Z; rk_statusRank : Z; rk_statusCount : Z }.
Definition status (r : Row) : DeliveryStatus := dl_status r.2.
Definition count_of (st : DeliveryStatus) (l : list Row) : Z := Z.of_nat (length (List.filter (λ r, bool_decide (status r = st)) l)).
(** The window functions of the query. *)
Fixpoint rank (all seen rest : list Row) : list Ranked :=
  match rest with
  | [] => []
  | r :: rest =>
      {| rk_row := r; rk_position := Z.of_nat (length seen) + 1; rk_statusRank := count_of (status r) seen + 1; rk_statusCount := count_of (status r) all |}
      :: rank all (seen ++ [r]) rest
  end.
Definition aggregate_rows (t entity entityId : string) (s : Log) : list Row :=
  omap (λ row, d ← deliveries s !! row.1; Some (row, d))
    (log_order (List.filter (λ row, String.eqb (ev_entity row.2) entity && String.eqb (ev_entityId row.2) entityId) (tenant_events t s))).
Record OutboxAggregateDelivery := { ag_entity : string; ag_entityId : string; ag_head : option Row; ag_counts : jsmap DeliveryStatus Z; ag_events : list Row }.
Definition outstanding (r : Row) : bool := negb (terminal (status r)).
Definition getAggregateDelivery (entity entityId : string) (limit : option (option Z)) : JS Log OutboxError (option OutboxAggregateDelivery) :=
  t ← requestTenant;
  limit ← lift (list_limit limit 100 1000);
  all ← getf (aggregate_rows t entity entityId);
  let rows := List.filter (λ r, (rk_position r <=? limit) || (rk_statusRank r =? 1)) (rank all [] all) in
  match rows with
  | [] => mret None
  | _ =>
      mret (Some {| ag_entity := entity; ag_entityId := entityId;
                    ag_head := rk_row <$> List.find (λ r, outstanding (rk_row r)) rows;
                    ag_counts := statusCounts ((λ r, (status (rk_row r), rk_statusCount r)) <$> List.filter (λ r, rk_statusRank r =? 1) rows);
                    ag_events := rk_row <$> List.filter (λ r, rk_position r <=? limit) rows |})
  end.
(** A walk over the deliveries of the aggregate. *)
Definition walk (entity entityId : string) (limit : Z) (all : list Row) : option OutboxAggregateDelivery :=
  match all with
  | [] => None
  | _ => Some {| ag_entity := entity; ag_entityId := entityId; ag_head := List.find outstanding all;
                 ag_counts := (λ st, (st, count_of st all)) <$> DELIVERY_STATUSES; ag_events := List.firstn (Z.to_nat limit) all |}
  end.
End reads.

(** ** The ranks select enough *)

Lemma rank_rows all seen rest : rk_row <$> rank all seen rest = rest.
Proof. revert seen. induction rest as [|r rest IH]; intros seen; [done|]. simpl. by rewrite IH. Qed.
Lemma count_of_snoc st seen r : count_of st (seen ++ [r]) = count_of st seen + (if decide (status r = st) then 1 else 0).
Proof.
  unfold count_of. rewrite List.filter_app, length_app, Nat2Z.inj_add. f_equal. cbn [List.filter].
  destruct (decide (status r = st)) as [H|H]; [by rewrite bool_decide_true|by rewrite bool_decide_false].
Qed.
Lemma count_of_none st l : (∀ r, r ∈ l → status r ≠ st) → count_of st l = 0.
Proof.
  unfold count_of. induction l as [|r l IH]; [done|]. intros Hl. simpl. rewrite bool_decide_false by (apply Hl; by left).
  apply IH. intros r' Hr'. apply Hl. by right.
Qed.
Lemma count_of_nonneg st l : 0 ≤ count_of st l.
Proof. unfold count_of. lia. Qed.
(** The rows a page of [limit] selects. *)
Notation selected limit := (λ r, (rk_position r <=? limit) || (rk_statusRank r =? 1)).

(** The oldest outstanding row is the first of its status. *)
Lemma rank_head limit all seen rest :
  Forall (λ r, outstanding r = false) seen →
  rk_row <$> List.find (λ r, outstanding (rk_row r)) (List.filter (selected limit) (rank all seen rest)) = List.find outstanding rest.
Proof.
  revert seen. induction rest as [|r rest IH]; intros seen Hs; [done|]. cbn [rank List.filter List.find rk_position rk_statusRank].
  destruct (outstanding r) eqn:Ho.
  - assert (count_of (status r) seen = 0) as ->.
    { apply count_of_none. intros r' Hr' Hst. pose proof (proj1 (Forall_forall _ _) Hs r' Hr') as Ho'. unfold outstanding in *. congruence. }
    rewrite orb_true_r. cbn [List.find rk_row]. by rewrite Ho.
  - assert (Forall (λ r, outstanding r = false) (seen ++ [r])) as Hs' by (apply Forall_app; by repeat constructor).
    destruct (_ || _); [cbn [List.find rk_row]; rewrite Ho|]; by apply IH.
Qed.
(** A page is the rows up to its limit. *)
Lemma rank_page limit all seen rest :
  0 ≤ limit → rk_row <$> List.filter (λ r, rk_position r <=? limit) (List.filter (selected limit) (rank all seen rest))
  = List.firstn (Z.to_nat (limit - Z.of_nat (length seen))) rest.
Proof.
  intros Hl. revert seen. induction rest as [|r rest IH]; intros seen; [by destruct (Z.to_nat _)|]. cbn [rank List.filter rk_position rk_statusRank].
  specialize (IH (seen ++ [r])). rewrite length_app in IH. simpl in IH. destruct (Z.leb_spec (Z.of_nat (length seen) + 1) limit) as [Hle|Hgt].
  - simpl. rewrite (proj2 (Z.leb_le _ _) Hle). rewrite fmap_cons, IH. simpl.
    replace (Z.to_nat (limit - Z.of_nat (length seen))) with (S (Z.to_nat (limit - Z.of_nat (length seen + 1)))) by lia. done.
  - replace (Z.to_nat (limit - Z.of_nat (length seen))) with 0%nat by lia.
    replace (Z.to_nat (limit - Z.of_nat (length seen + 1))) with 0%nat in IH by lia. simpl. simpl in IH.
    destruct (_ =? 1); [simpl; rewrite (proj2 (Z.leb_gt _ _) Hgt)|]; by rewrite IH.
Qed.
(** The first rows of each status tell how many it has. *)
Definition firsts (all rest : list Row) (seen : list Row) : list (DeliveryStatus * Z) :=
  (λ r, (status (rk_row r), rk_statusCount r)) <$> List.filter (λ r, rk_statusRank r =? 1) (rank all seen rest).
Lemma selected_firsts limit l : List.filter (λ r, rk_statusRank r =? 1) (List.filter (selected limit) l) = List.filter (λ r, rk_statusRank r =? 1) l.
Proof.
  induction l as [|r l IH]; [done|]. simpl. destruct (rk_statusRank r =? 1) eqn:H1; rewrite ?orb_true_r, ?orb_false_r; simpl; [rewrite H1; by f_equal|].
  destruct (_ <=? _); simpl; rewrite ?H1; done.
Qed.
Lemma jm_set_statuses (f : DeliveryStatus → Z) st v : jm_set st v ((λ x, (x, f x)) <$> DELIVERY_STATUSES) = (λ x, (x, if decide (x = st) then v else f x)) <$> DELIVERY_STATUSES.
Proof. by destruct st. Qed.
Lemma statuses_ext (f g : DeliveryStatus → Z) : (∀ st, f st = g st) → (λ x, (x, f x)) <$> DELIVERY_STATUSES = (λ x, (x, g x)) <$> DELIVERY_STATUSES.
Proof. intros H. simpl. by rewrite !H. Qed.
Lemma fold_firsts all seen rest :
  seen ++ rest = all →
  foldl (λ counts row, jm_set row.1 row.2 counts) ((λ st, (st, if decide (count_of st seen = 0) then 0 else count_of st all)) <$> DELIVERY_STATUSES) (firsts all rest seen)
  = (λ st, (st, count_of st all)) <$> DELIVERY_STATUSES.
Proof.
  unfold firsts. revert seen. induction rest as [|r rest IH]; intros seen Hall.
  - rewrite app_nil_r in Hall. subst seen. apply statuses_ext. intros st. by destruct (decide _) as [->|].
  - cbn [rank List.filter rk_statusRank]. specialize (IH (seen ++ [r])). rewrite <- app_assoc in IH. specialize (IH Hall). rewrite <- IH.
    pose proof (count_of_nonneg (status r) seen) as Hn. destruct (Z.eqb_spec (count_of (status r) seen + 1) 1) as [H1|H1].
    + rewrite fmap_cons. cbn [foldl fst snd rk_row rk_statusCount]. rewrite jm_set_statuses. f_equal. apply statuses_ext. intros st. rewrite count_of_snoc.
      pose proof (count_of_nonneg st seen). repeat case_decide; subst; try done; lia.
    + f_equal. apply statuses_ext. intros st. rewrite count_of_snoc. pose proof (count_of_nonneg st seen). repeat case_decide; subst; try done; lia.
Qed.

(** ** The head of an aggregate *)

Lemma elem_of_aggregate_rows t entity entityId s row d :
  (row, d) ∈ aggregate_rows t entity entityId s ↔
  events s !! row.1 = Some row.2 ∧ deliveries s !! row.1 = Some d ∧ row.1.1 = t ∧ ev_entity row.2 = entity ∧ ev_entityId row.2 = entityId.
Proof.
  unfold aggregate_rows. rewrite list_elem_of_omap. split.
  - intros (row' & Hin & Hd). destruct (deliveries s !! row'.1) as [d'|] eqn:Hd'; [|done]. injection Hd as <- <-. unfold log_order in Hin.
    rewrite js_sort_perm, list_elem_of_In, List.filter_In, <- list_elem_of_In in Hin. unfold tenant_events in Hin.
    rewrite list_elem_of_In, List.filter_In, <- list_elem_of_In in Hin. destruct row' as [k e]. rewrite elem_of_map_to_list, andb_true_iff, !String.eqb_eq in Hin.
    naive_solver.
  - intros (He & Hd & Ht & H1 & H2). exists row. rewrite Hd. split; [|done]. unfold log_order, tenant_events.
    rewrite js_sort_perm, list_elem_of_In, List.filter_In, List.filter_In, <- list_elem_of_In. destruct row as [k e].
    rewrite elem_of_map_to_list, andb_true_iff, !String.eqb_eq. done.
Qed.
Lemma aggregate_rows_sorted t entity entityId s : StronglySorted (λ a b, row_le a.1 b.1 = true) (aggregate_rows t entity entityId s).
Proof.
  unfold aggregate_rows. match goal with |- context [log_order ?l] => generalize (log_order_sorted l); generalize (log_order l) end.
  induction 1 as [|row l Hl IH Hall]; [constructor|]. cbn [omap list_omap]. destruct (deliveries s !! row.1) as [d|]; [|done].
  constructor; [done|]. apply Forall_forall. intros [row' d'] Hin. apply list_elem_of_omap in Hin as (row2 & Hin & Hd).
  destruct (deliveries s !! row2.1); [|done]. injection Hd as <- <-. exact (proj1 (Forall_forall _ _) Hall _ Hin).
Qed.
(** In a sorted list the first outstanding row is the one with none in front of it. *)
Lemma find_sorted (l : list Row) r :
  StronglySorted (λ a b, row_le a.1 b.1 = true) l → r ∈ l → outstanding r = true → (∀ x, x ∈ l → row_le x.1 r.1 = true → row_le r.1 x.1 = true → x = r) →
  List.find outstanding l = Some r ↔ ∀ x, x ∈ l → outstanding x = true → row_before x.1 r.1 = false.
Proof.
  intros Hs Hin Ho Hanti. induction Hs as [|y l Hs IH Hall]; [by apply elem_of_nil in Hin|]. simpl. destruct (outstanding y) eqn:Hy.
  - split.
    + intros [= ->] x [->|Hx]%elem_of_cons _; [apply before_irrefl|]. apply negb_true_iff. exact (proj1 (Forall_forall _ _) Hall x Hx).
    + intros Hf. f_equal. apply Hanti; [by left| |unfold row_le; rewrite (Hf y); [done|by left|done]].
      apply elem_of_cons in Hin as [->|Hin]; [unfold row_le, row_before; by rewrite before_irrefl|]. exact (proj1 (Forall_forall _ _) Hall r Hin).
  - apply elem_of_cons in Hin as [->|Hin]; [congruence|]. rewrite IH; [|done|intros x Hx; apply Hanti; by right].
    split; intros Hf x Hx; [apply elem_of_cons in Hx as [->|Hx]; [congruence|by apply Hf]|apply Hf; by right].
Qed.
Lemma head_unblocked t entity entityId s row d :
  (row, d) ∈ aggregate_rows t entity entityId s → terminal (dl_status d) = false →
  blocked s row = false ↔ List.find outstanding (aggregate_rows t entity entityId s) = Some (row, d).
Proof.
  intros Hin Ho. pose proof Hin as Hrow. apply elem_of_aggregate_rows in Hrow as (He & Hd & Ht & H1 & H2).
  rewrite find_sorted; [|apply aggregate_rows_sorted|done|unfold outstanding, status; simpl; by rewrite Ho|].
  - split.
    + intros Hb [row' d'] Hin' Ho'. apply elem_of_aggregate_rows in Hin' as (He' & Hd' & Ht' & H1' & H2'). destruct (row_before row' row) eqn:Hbf; [|done].
      apply not_true_iff_false in Hb. destruct Hb. unfold blocked. apply existsb_exists. exists row'.
      split; [destruct row'; by apply list_elem_of_In, elem_of_map_to_list|]. rewrite Hbf, Hd'. unfold outstanding, status in Ho'. simpl in Ho'.
      rewrite Ho', andb_true_r, andb_true_r. apply same_aggregate_spec. split_and!; congruence.
    + intros Hf. apply not_true_iff_false. unfold blocked. rewrite existsb_exists. intros (row' & Hin' & Hc). rewrite !andb_true_iff in Hc.
      destruct Hc as [[Hs Hbf] Hop]. destruct (deliveries s !! row'.1) as [d'|] eqn:Hd'; [|done]. apply same_aggregate_spec in Hs as (? & ? & ?).
      pose proof (Hf (row', d')) as Hf'. simpl in Hf'. rewrite Hf' in Hbf; [done| |exact Hop]. apply elem_of_aggregate_rows.
      split; [destruct row'; by apply elem_of_map_to_list, list_elem_of_In|]. split_and!; try done; congruence.
  - intros [row' d'] (He' & Hd' & Ht' & _)%elem_of_aggregate_rows Hl Hr. simpl in Hl, Hr.
    assert (row' = row) as -> by (eapply (row_le_anti s); [done..|congruence|done|done]). congruence.
Qed.
