(* ===== verification/OutboxExample.v ===== *)
(** * OutboxExample: the outbox run on a script.

    [drive] runs a list of actions; a run of it is a run of the system. The states of the concrete
    outbox here, with two events of one aggregate and an old message, are those the witnesses of
    [OutboxClaims] apply its theorems to. *)
From S2P Require Import Prelude JsMap JsText OutboxSelectors Outbox OutboxLegacy OutboxSystem OutboxStream.
Local Open Scope Z_scope.

(** ** Scripts *)

Inductive Action :=
| ac_call (c : Call)
| ac_sweep (k : Sweeping) (limit : Z) (filter : FilterInput) (n : nat)
| ac_begin (n : nat)
| ac_reply (n : nat) (r : Reply)
| ac_settle (n : nat) (jsNow : Z)
| ac_stop (n : nat).
Definition nothing_locked {A} (_ : A) : bool := false.
Definition no_text (_ : OutboxError) : string := EmptyString.

Section drive.
Context (clock : nat → Z) (sha256 : string → string).
Context (eventLeaseMs : Z) (dispatchable : option EntityMatcher) (nextAttemptAt : Z → Z → Z).
Context {Port : Type} (registry : jsmap string (Destination Port)) (dispatcher : option Port).
Context (uuid : nat → string) (platform : bool).
Notation step := (step clock sha256 eventLeaseMs dispatchable nextAttemptAt registry dispatcher uuid platform).

Definition act (a : Action) (s : Sys) : option Sys :=
  match a with
  | ac_call c => Some (set_db (run_call clock dispatchable nextAttemptAt uuid platform c (db s)).2 s)
  | ac_sweep k limit filter n =>
      match sweeps s !! n, run_sweep clock eventLeaseMs registry k nothing_locked limit filter (log (db s)) with
      | None, (Ok w, l) => Some {| db := set_log l (db s); sweeps := <[n := w]> (sweeps s); claims := claims s ++ sw_todo w; sends := sends s |}
      | _, _ => None
      end
  | ac_begin n =>
      w ← sweeps s !! n; w' ← begin_send registry dispatcher w;
      Some {| db := db s; sweeps := <[n := w']> (sweeps s); claims := claims s;
              sends := sends s ++ match sw_phase w' with ph_sending => firstn 1 (sw_todo w') | _ => [] end |}
  | ac_reply n r =>
      w ← sweeps s !! n;
      match sw_phase w with ph_sending => Some (set_sweep n (set_phase (ph_replied r) w) s) | _ => None end
  | ac_settle n jsNow =>
      w ← sweeps s !! n; '(w', l) ← settle_step clock sha256 eventLeaseMs nextAttemptAt w jsNow no_text (log (db s));
      Some (set_dblog l (set_sweep n w' s))
  | ac_stop n => Some {| db := db s; sweeps := delete n (sweeps s); claims := claims s; sends := sends s |}
  end.
Fixpoint drive (l : list Action) (s : Sys) : option Sys :=
  match l with [] => Some s | a :: l => s ← act a s; drive l s end.

Lemma act_step a s s' : act a s = Some s' → step s s'.
Proof.
  destruct a as [c|k limit filter n|n|n r|n jsNow|n]; simpl.
  - intros [= <-]. apply st_call.
  - destruct (sweeps s !! n) eqn:Hn; [done|]. destruct (run_sweep _ _ _ _ _ _ _ _) as [[w|e] l] eqn:Hr; [|done]. intros [= <-]. by eapply st_claim.
  - destruct (sweeps s !! n) as [w|] eqn:Hn; [|done]. simpl. destruct (begin_send _ _ w) as [w'|] eqn:Hb; [|done]. intros [= <-]. by eapply st_begin.
  - destruct (sweeps s !! n) as [w|] eqn:Hn; [|done]. simpl. destruct (sw_phase w) eqn:Hp; [done| |done]. intros [= <-]. by eapply st_reply.
  - destruct (sweeps s !! n) as [w|] eqn:Hn; [|done]. simpl. destruct (settle_step _ _ _ _ w jsNow _ _) as [[w' l]|] eqn:Hs; [|done]. intros [= <-]. by eapply st_settle.
  - intros [= <-]. apply st_stop.
Qed.
Lemma drive_steps l s s' : drive l s = Some s' → rtc step s s'.
Proof.
  revert s. induction l as [|a l IH]; intros s; simpl; [by intros [= <-]|]. destruct (act a s) as [s1|] eqn:Ha; [|done]. simpl.
  intros Hd. eapply rtc_l; [by eapply act_step|by apply IH].
Qed.
End drive.

(** ** A small outbox *)

Module Small.
(** A minute passes from one reading of the clock to the next; a lease is half of it. *)
Definition clock (n : nat) : Z := 1700000000000000 + 60000000 * Z.of_nat n.
Definition lease : Z := 30000.
Definition policy : Z → Z → Z := FixedIntervalBackoffPolicy 1000.
Definition registry : jsmap string (Destination unit) := [].
Definition same (s : string) : string := s.
Definition uuid (n : nat) : string := "u".

Definition message : Message :=
  {| mg_tenantId := "t"; mg_entity := "order"; mg_entityId := "0"; mg_payload := "{}"; mg_metadata := None; mg_status := ms_PENDING;
     mg_attempts := 0; mg_lastError := None; mg_nextAttemptAt := None; mg_idempotencyKey := "order:0"; mg_ackTime := None; mg_createdAt := 0;
     mg_updatedAt := 0; mg_migratedEvent := None |}.
Definition log0 : Log :=
  {| events := ∅; deliveries := ∅; attempts := ∅; acks := []; retirements := ∅; tenant_clock := ∅; order := 1; quarantine := []; migrated := false;
     ticks := 0 |}.
Definition tables0 : Tables :=
  {| log := log0; messages := {["m" := message]}; acknowledgements := ∅; event_map := ∅; generation := 0; uuids := 0 |}.
Definition trx : Transaction :=
  {| tr_role := "app"; tr_tenantId := Some "t"; tr_appRole := Some "app"; tr_sqlRole := "stynx_app"; tr_isolation := "read committed";
     tr_readOnly := "off"; tr_recovery := false; tr_chainKey := None |}.
Definition event (key : string) : AppendEvent :=
  {| ap_entity := "order"; ap_entityId := "1"; ap_idempotencyKey := key; ap_payload := "{}"; ap_metadata := None |}.
Definition append : Call := call_append "stynx_app" (Some "t") false true trx [event "a"; event "b"].
Definition sweep (n : nat) : Action := ac_sweep (sweep_tenant (Some "t")) 10 (fi_selector si_undefined) n.
Definition evidence : Evidence := no_evidence.
Definition acknowledge (key : string) : Call :=
  call_ackTenant (Some "t") 0 {| ai_eventId := id_absent; ai_idempotencyKey := Some key; ai_rawBody := "ok"; ai_status := ack_ACKED; ai_hmacVerified := true |}.
Definition retirement : RetirementInput := {| ri_idempotencyKey := Some "r"; ri_reason := Some "gone"; ri_other := false |}.
Definition event_of (key : string) (s : Sys) : Key * Event := default (EmptyString, 0, {| ev_entity := ""; ev_entityId := ""; ev_idempotencyKey := "";
  ev_payload := ""; ev_metadata := None; ev_createdAt := 0 |}) (event_by_key "t" key (log (db s))).

Definition run (l : list Action) (s : Sys) : Sys := default s (drive clock same lease None policy registry (Some tt) uuid true l s).
Definition begun : Sys := start tables0.
(** Two events; the first is claimed, its send takes too long, it is claimed again and acknowledged, and
    the second is claimed. *)
Definition appended : Sys := run [ac_call append] begun.
Definition overtaken : Sys := run [sweep 0; ac_begin 0; ac_reply 0 (rp_failed "timeout" evidence); sweep 1] appended.
Definition acknowledged_ : Sys := run [ac_begin 1; ac_reply 1 (rp_sent evidence); ac_settle 1 0; ac_call (acknowledge "a"); sweep 2; ac_begin 2] overtaken.
Definition handed : Sys := run [ac_call (call_cutover false true false)] appended.

Definition no_claim : Claim := {| cl_key := (EmptyString, 0); cl_event := (event_of "" begun).2; cl_attempts := 0 |}.
Definition idle : Sweep := {| sw_as_app := true; sw_todo := []; sw_phase := ph_next; sw_outcomes := [] |}.
(** The first sweep, whose claim is not the last any more, and its settlement. *)
Definition late : Sweep := default idle (sweeps overtaken !! 0%nat).
Definition late_settled : Sweep * Log := default (idle, log0) (settle_step clock same lease policy late 0 no_text (log (db overtaken))).
Definition head_claim (w : Sweep) : Claim := default no_claim (head (sw_todo w)).
Definition delivery_of (c : Claim) (s : Sys) : option Delivery := deliveries (log (db s)) !! cl_key c.
Lemma default_some {A} (x : A) (o : option A) : match o with Some _ => true | None => false end = true → o = Some (default x o).
Proof. by destruct o. Qed.

Definition ok_of {A} (x : A) (o : outcome OutboxError A) : A := match o with Ok a => a | Throw _ => x end.
Lemma ok_pair {A} (x : A) (p : outcome OutboxError A * Log) : match p.1 with Ok _ => true | Throw _ => false end = true → p = (Ok (ok_of x p.1), p.2).
Proof. by destruct p as [[] ?]. Qed.
Definition batch : list AppendEvent := [event "a"; event "b"].
Definition append_to (s : Sys) : outcome OutboxError (list (Key * Event)) * Log :=
  appendManyInTransaction clock None "stynx_app" (Some "t") false trx batch (log (db s)).
Definition retire_in (s : Sys) : outcome OutboxError (Key * Retirement) * Log :=
  retireEvent clock same "t" "actor" (Some (event_of "b" s).1.2) retirement (log (db s)).
Definition no_receipt : Key * Retirement :=
  ((EmptyString, 0), {| rt_idempotencyKey := ""; rt_actorId := ""; rt_reason := ""; rt_previousStatus := PENDING; rt_retiredAt := 0 |}).
Definition reader : Reader := {| rd_recovery := false; rd_role := Some "app"; rd_sqlRole := "stynx_app" |}.
Definition now_at (s : Sys) : outcome OutboxError Z * Log := now clock "stynx_app" reader "t" (log (db s)).
Definition oldest : Key * Event := event_of "a" appended.
Definition newest : Key * Event := event_of "b" appended.
Definition orders : Destination unit := {| ds_name := "orders"; ds_matcher := {| entities := ["order"]; prefixes := [] |}; ds_dispatcher := Some tt |}.
Definition bills : Destination unit := {| ds_name := "bills"; ds_matcher := {| entities := []; prefixes := ["bill."] |}; ds_dispatcher := None |}.

Notation Reachable := (reachable clock same lease None policy registry (Some tt) uuid true).
Lemma fresh_tables : fresh tables0.
Proof.
  split_and!; try done. intros id m. simpl. intros [<- <-]%lookup_singleton_Some. done.
Qed.
Definition runs (l : list Action) (s : Sys) : bool := match drive clock same lease None policy registry (Some tt) uuid true l s with Some _ => true | None => false end.
Lemma run_steps l s : runs l s = true →
  rtc (step clock same lease None policy registry (Some tt) uuid true) s (run l s).
Proof. unfold run, runs. destruct (drive _ _ _ _ _ _ _ _ _ l s) as [s'|] eqn:Hd; [|done]. intros _. by eapply drive_steps. Qed.
Lemma reach_begun : Reachable begun.
Proof. exists tables0. split; [apply fresh_tables|apply rtc_refl]. Qed.
Lemma reach_run l s : Reachable s → runs l s = true → Reachable (run l s).
Proof. intros (t & Hf & Hr) Hd. exists t. split; [done|]. etrans; [exact Hr|by apply run_steps]. Qed.
Lemma reach_appended : Reachable appended.
Proof. apply reach_run; [apply reach_begun|by vm_compute]. Qed.
Lemma reach_overtaken : Reachable overtaken.
Proof. apply reach_run; [apply reach_appended|by vm_compute]. Qed.
Lemma reach_acknowledged : Reachable acknowledged_.
Proof. apply reach_run; [apply reach_overtaken|by vm_compute]. Qed.
Lemma reach_handed : Reachable handed.
Proof. apply reach_run; [apply reach_appended|by vm_compute]. Qed.
End Small.
