(* ===== verification/OutboxClaims.v ===== *)
(** * OutboxClaims: the theorems of the outbox. *)
From S2P Require Import Prelude JsMap JsText OutboxSelectors Outbox OutboxLegacy OutboxSystem OutboxInv OutboxMoves OutboxTables OutboxRun OutboxStream OutboxReads OutboxExample.
Local Open Scope Z_scope.

Section claims.
Context (clock : nat → Z) (sha256 : string → string).
Context (eventLeaseMs : Z) (dispatchable : option EntityMatcher) (nextAttemptAt : Z → Z → Z).
Context {Port : Type} (registry : jsmap string (Destination Port)) (dispatcher : option Port).
Context (uuid : nat → string) (platform : bool).

Notation step := (step clock sha256 eventLeaseMs dispatchable nextAttemptAt registry dispatcher uuid platform).
Notation reachable := (reachable clock sha256 eventLeaseMs dispatchable nextAttemptAt registry dispatcher uuid platform).
Notation sound s H := (outbox_sound clock sha256 eventLeaseMs dispatchable nextAttemptAt registry dispatcher uuid platform s H).

(** C11. Whatever the calls and the sweeps do, the log and the queue only change by steps of the
    abstract queue: events are logged once, after the older ones of their tenant, deliveries follow
    their protocol, and nothing logged, acknowledged, retired or attempted is lost. *)
Theorem outbox_refines_queue s s' : reachable s → step s s' → rtc queue_step (log (db s)) (log (db s')) ∧ Advance (log (db s)) (log (db s')).
Proof. intros Hr Hs. by destruct (outbox_step_sound _ _ _ _ _ _ _ _ _ _ _ Hs (sound s Hr)) as (_ & ? & ?). Qed.

(** C12. The events of an aggregate are claimed in the order of the log: a claim is never followed by
    one of an older event, and when an event was claimed the older ones are acknowledged or retired. *)
Theorem aggregates_are_claimed_in_order s :
  reachable s →
  (∀ l1 a l2 b l3, claims s = l1 ++ a :: l2 ++ b :: l3 → same_aggregate (row_of a) (row_of b) = true → row_before (row_of b) (row_of a) = false) ∧
  (∀ c row d, c ∈ claims s → events (log (db s)) !! row.1 = Some row.2 → deliveries (log (db s)) !! row.1 = Some d →
    same_aggregate row (row_of c) = true → row_before row (row_of c) = true → terminal (dl_status d) = true).
Proof.
  intros Hr. pose proof (sd_histories _ _ (sound s Hr)) as Hh. split.
  - intros l1 a l2 b l3 Hc. pose proof (h_in_turn _ Hh) as Hs. rewrite Hc in Hs. apply StronglySorted_app in Hs as (_ & _ & Hs).
    apply StronglySorted_inv in Hs as [_ Ha]. apply (proj1 (Forall_forall _ _) Ha b). apply elem_of_app. right. by left.
  - intros c row d Hc He Hd. by apply (rc_first _ _ (proj1 (Forall_forall _ _) (h_recorded _ Hh) c Hc)).
Qed.

(** C13. No two claims are the same attempt of an event, every attempt has its row in the history of
    attempts and is handed to a port at most once. *)
Theorem attempts_are_sent_once s :
  reachable s →
  NoDup (claim_id <$> claims s) ∧ NoDup (claim_id <$> sends s) ∧ sends s ⊆ claims s ∧
  ∀ c, c ∈ claims s → is_Some (attempts (log (db s)) !! claim_id c) ∧
    ∃ d, deliveries (log (db s)) !! cl_key c = Some d ∧ cl_attempts c ≤ dl_attempts d.
Proof.
  intros Hr. pose proof (sd_histories _ _ (sound s Hr)) as Hh. split; [apply Hh|]. split; [|split; [apply Hh|]].
  - apply NoDup_fmap_2_strong; [|apply Hh]. intros c c' Hc Hc' Heq. apply (NoDup_fmap_same claim_id (claims s)); [apply Hh|by apply Hh..|done].
  - intros c Hc. pose proof (proj1 (Forall_forall _ _) (h_recorded _ Hh) c Hc) as H. split; [apply H|]. apply H.
Qed.

(** C18. The settlement of a claim changes no delivery once the event was claimed again or is not
    awaiting one, and schedules nothing. *)
Theorem late_settlement_is_fenced s n w c cs jsNow error_text w' l d :
  reachable s → sweeps s !! n = Some w → sw_todo w = c :: cs → deliveries (log (db s)) !! cl_key c = Some d →
  (∃ c', c' ∈ claims s ∧ cl_key c' = cl_key c ∧ cl_attempts c < cl_attempts c') ∨ dl_status d ≠ SENT →
  settle_step clock sha256 eventLeaseMs nextAttemptAt w jsNow error_text (log (db s)) = Some (w', l) →
  deliveries l = deliveries (log (db s)) ∧ ∃ o, sw_outcomes w' = sw_outcomes w ++ [o] ∧ oc_failed o = None.
Proof.
  intros Hr Hw Ht Hd Hlate Hst. pose proof (sd_histories _ _ (sound s Hr)) as Hh.
  assert (owns c d = false) as Ho.
  { unfold owns. apply andb_false_iff. destruct Hlate as [(c' & Hc' & Hk & Hlt)|Hs]; [left|right; by apply bool_decide_eq_false].
    destruct (rc_delivery _ _ (proj1 (Forall_forall _ _) (h_recorded _ Hh) c' Hc')) as (d' & Hd' & Hle). rewrite Hk in Hd'. simplify_eq. lia. }
  unfold settle_step in Hst. rewrite Ht in Hst. destruct (sw_phase w) as [| |r]; [done..|].
  pose proof (settle_unowned clock sha256 eventLeaseMs nextAttemptAt (sw_as_app w) c r jsNow (log (db s))) as Hs.
  revert Hst Hs. destruct (settle _ _ _ _ _ _ _ _ _) as [res l1]. intros [= <- <-] Hs.
  destruct Hs as [Hdl Hres]; [intros d0 Hd0; congruence|]. split; [done|]. eexists. split; [done|].
  destruct r, res as [b|e]; try done. by subst b.
Qed.

(** C15. An append that returns has logged each event as it was told, the new ones with a delivery to
    be claimed if they have a destination; the same append, however much later, answers the same rows
    and neither logs nor queues anything. *)
Theorem append_is_idempotent s appRoleName current trx t l rows l1 s2 :
  reachable s → tr_tenantId trx = Some t →
  appendManyInTransaction clock dispatchable appRoleName current false trx l (log (db s)) = (Ok rows, l1) →
  rtc step (set_dblog l1 s) s2 → order (log (db s2)) + Z.of_nat (length l) ≤ 2 ^ 63 →
  Forall2 (λ event row, logged l1 t event row ∧ delivered_too dispatchable (log (db s)) l1 event row) l rows ∧
  ∃ l3, appendManyInTransaction clock dispatchable appRoleName current false trx l (log (db s2)) = (Ok rows, l3) ∧
        events l3 = events (log (db s2)) ∧ deliveries l3 = deliveries (log (db s2)).
Proof.
  intros Hr Ht Happ Hrun Ho. pose proof (sound s Hr) as Hs. destruct l as [|event l]; [injection Happ as <- <-; split; [constructor|by eexists]|].
  pose proof (appendMany_admitted clock dispatchable appRoleName current trx (event :: l) t _ _ _ Ht ltac:(done) Happ) as Hadm. rewrite Hadm in Happ.
  pose proof (tick_clock_evolves clock t (log (db s))) as Htick. unfold mbind, js_bind in Happ. destruct (tick_clock clock t (log (db s))) as [r0 la].
  destruct Htick as (ms & -> & Hms & Hc & Hea & Hda & Heva). pose proof (Heva (sd_basic _ _ Hs)) as Hma.
  pose proof (moves_basic _ _ Hma (sd_basic _ _ Hs)) as Hba. pose proof (append_each_evolves clock dispatchable ms t (event :: l) la Hc Hms Hba) as Hmb.
  rewrite Happ in Hmb. simpl in Hmb. destruct (append_each_ok clock dispatchable ms t _ _ _ _ Hba Hc Hms Happ) as (Hv & Hall & _).
  assert (Sound platform (set_dblog l1 s)) as Hs1 by (eapply moves_sound; [etrans; [exact Hma|exact Hmb]|done]).
  split.
  - eapply Forall2_impl; [exact Hall|]. intros event' row' [Hlog Hd]. split; [done|]. unfold delivered_too in *. by rewrite <- Hea.
  - destruct (steps_sound _ _ _ _ _ _ _ _ _ _ _ Hrun Hs1) as [Hs2 Ha]. rewrite Hadm. unfold mbind, js_bind.
    pose proof (tick_clock_evolves clock t (log (db s2))) as Htick2. pose proof (tick_clock_order clock t (log (db s2))) as Hord.
    destruct (tick_clock clock t (log (db s2))) as [r2 lb]. destruct Htick2 as (ms2 & -> & Hms2 & Hc2 & Heb & Hdb & Hevb).
    simpl in Hord. pose proof (moves_basic _ _ (Hevb (sd_basic _ _ Hs2)) (sd_basic _ _ Hs2)) as Hbb.
    destruct (append_each_again clock dispatchable ms2 t (event :: l) rows lb Hbb Hv) as (l3 & -> & He3 & Hd3).
    + eapply Forall2_impl; [exact Hall|]. intros event' row' [(? & He' & ?) _]. split; [done|]. split; [|done]. rewrite Heb. by apply (adv_events _ _ Ha).
    + by rewrite Hord.
    + exists l3. split; [done|]. split; congruence.
Qed.

(** C17. Of every aggregate with an open event the oldest open one can be claimed: once its time has
    come, a sweep of its tenant and entity whose limit is not below the number of due events claims it,
    unless another transaction holds its row, it is a send that was never resolved, which
    waits for an operator, or an old message before the messages were migrated. *)
Theorem oldest_open_event_is_claimed s row d :
  reachable s → events (log (db s)) !! row.1 = Some row.2 → deliveries (log (db s)) !! row.1 = Some d → terminal (dl_status d) = false →
  ∃ row0 d0, events (log (db s)) !! row0.1 = Some row0.2 ∧ deliveries (log (db s)) !! row0.1 = Some d0 ∧ terminal (dl_status d0) = false ∧
    same_aggregate row0 row = true ∧ row_before row row0 = false ∧
    (dl_status d0 ≠ SENT_UNRESOLVED → dl_legacy d0 = None ∨ migrated (log (db s)) = true → ready_at row0.2 d0 ≤ clock (ticks (log (db s))) →
     ∀ locked tenant limit only,
       match tenant with Some t => t = row0.1.1 | None => True end → matches_filter only (ev_entity row0.2) = true → locked row0.1 = false →
       Z.of_nat (length (List.filter (due locked tenant only (clock (ticks (log (db s)))) (log (db s))) (map_to_list (events (log (db s)))))) ≤ limit →
       ∃ cs l', tx (claim_due clock eventLeaseMs locked tenant limit only) (log (db s)) = (Ok cs, l') ∧ row0.1 ∈ cl_key <$> cs).
Proof.
  intros Hr He Hd Ho. pose proof (sd_basic _ _ (sound s Hr)) as Hb.
  destruct (oldest_open _ row He) as (row0 & He0 & Ho0 & Hs0 & Hbf & Hbl); [unfold open_at; by rewrite Hd, Ho|].
  unfold open_at in Ho0. destruct (deliveries (log (db s)) !! row0.1) as [d0|] eqn:Hd0; [|done]. apply negb_true_iff in Ho0.
  exists row0, d0. do 5 (split; [done|]). intros Hu Hleg Hready locked tenant limit only Ht Hf Hl Hlim.
  eapply claim_takes; [done..| |done|done|done|done|done]. apply ready_eligible; [by eapply (b_leased _ Hb)|done..].
Qed.

(** C16. What is retired has one receipt; what is acknowledged has a verified acknowledgement, unless its
    delivery was taken over from an old message (its acknowledgement may then be that of the message);
    both endings are final, and a receipt's key is used once in its tenant. *)
Theorem endings_are_accounted_for s s' k d :
  reachable s → rtc step s s' → deliveries (log (db s)) !! k = Some d →
  (dl_status d = RETIRED ↔ is_Some (retirements (log (db s)) !! k)) ∧
  (dl_status d = ACKED → dl_legacy d = None → ∃ a, a ∈ acks (log (db s)) ∧ ea_key a = k ∧ ea_status a = ack_ACKED ∧ ea_verified a = true) ∧
  (terminal (dl_status d) = true → deliveries (log (db s')) !! k = Some d) ∧
  (∀ r, retirements (log (db s)) !! k = Some r → retirements (log (db s')) !! k = Some r) ∧
  (∀ k' r r', retirements (log (db s)) !! k = Some r → retirements (log (db s)) !! k' = Some r' → k'.1 = k.1 →
    rt_idempotencyKey r' = rt_idempotencyKey r → k' = k).
Proof.
  intros Hr Hs Hd. pose proof (sound s Hr) as H. pose proof (sd_basic _ _ H) as Hb. destruct (steps_sound _ _ _ _ _ _ _ _ _ _ _ Hs H) as [_ Ha].
  split; [|split; [by apply (b_acked _ Hb)|split; [|split]]].
  - rewrite (b_retired _ Hb). split; [intros Hst; by exists d|]. intros (d' & Hd' & Hst). congruence.
  - intros Ht. destruct (b_delivered _ Hb k d Hd) as [e He]. destruct (adv_deliveries _ _ Ha k d e He Hd) as (d' & Hd' & Hrt).
    by rewrite <- (dtrans_terminal _ _ _ Hrt Ht).
  - intros r. apply (adv_retirements _ _ Ha).
  - intros k' r r' Hk Hk' Ht Hid. by eapply (b_receipts _ Hb).
Qed.

(** A retirement leaves its event retired with the receipt it answers; the same retirement, however
    much later, answers that receipt again and changes nothing. *)
Theorem retirement_is_idempotent s trim tenantId actorId eventId i r l s2 :
  reachable s → retireEvent clock trim tenantId actorId eventId i (log (db s)) = (Ok r, l) → rtc step (set_dblog l s) s2 →
  retirements l !! r.1 = Some r.2 ∧ (∃ d, deliveries l !! r.1 = Some d ∧ dl_status d = RETIRED) ∧
  retireEvent clock trim tenantId actorId eventId i (log (db s2)) = (Ok r, log (db s2)).
Proof.
  intros Hr Hret Hrun. pose proof (sound s Hr) as Hs.
  pose proof (evolving_retireEvent clock trim tenantId actorId eventId i (log (db s)) (sd_basic _ _ Hs)) as Hm. rewrite Hret in Hm. simpl in Hm.
  pose proof (moves_sound _ _ _ Hm Hs) as Hs1.
  destruct (retireEvent_ok _ _ _ _ _ _ _ _ _ Hret) as (id & key & reason & -> & Hv & Hk & Hrt & [d Hd] & Hrest). split; [done|]. split.
  - apply (b_retired _ (sd_basic _ _ Hs1)). by eexists.
  - destruct (steps_sound _ _ _ _ _ _ _ _ _ _ _ Hrun Hs1) as [Hs2 Ha]. destruct (b_delivered _ (sd_basic _ _ Hs1) _ _ Hd) as [e He].
    destruct (adv_deliveries _ _ Ha _ _ _ He Hd) as (d2 & Hd2 & _).
    eapply (retireEvent_again clock trim tenantId actorId id i key reason); [apply Hs2|done|done|by apply (adv_retirements _ _ Ha)|by eexists|apply Hrest..].
Qed.

(** C14. A reader that begins at the time of its tenant and asks on from the last row it was given sees
    the stream from its beginning, in order and each event once, whatever happens in between; the
    stream holds every event logged since, and each answer is the next part of it. *)
Theorem stream_shows_every_event_once s0 appRoleName r t ms l0 s seen :
  let c0 := {| cu_createdAt := ms; cu_id := None |} in
  reachable s0 → now clock appRoleName r t (log (db s0)) = (Ok ms, l0) →
  follows clock sha256 eventLeaseMs dispatchable nextAttemptAt registry dispatcher uuid platform appRoleName r t c0 (set_dblog l0 s0) s seen →
  seen `prefix_of` since t c0 (log (db s)) ∧ NoDup (since t c0 (log (db s))) ∧
  (∀ row, events (log (db s)) !! row.1 = Some row.2 → row.1.1 = t → events (log (db s0)) !! row.1 = None → row ∈ since t c0 (log (db s))) ∧
  ∀ limit, 0 ≤ limit →
    (listSince appRoleName r t (cursor_at c0 seen) limit (log (db s))).1 =
    Ok (List.firstn (Z.to_nat limit) (List.skipn (length seen) (since t c0 (log (db s))))).
Proof.
  intros c0 Hr Hnow Hf. pose proof (sound s0 Hr) as Hs. destruct (now_spec _ _ _ _ _ _ _ Hnow) as (Hp & Hev & He & Hc).
  pose proof (moves_sound _ _ _ (Hev (sd_basic _ _ Hs)) Hs) as Hs1.
  destruct (follows_sound _ _ _ _ _ _ _ _ _ _ _ _ _ _ _ _ Hf Hs1) as (Hs2 & Ha & Hpre). split; [done|]. split; [apply since_nodup|]. split.
  - intros row Hrow Ht Hn. apply elem_of_since. split; [done|]. split; [done|].
    pose proof (adv_later _ _ Ha row.1 row.2) as Hl. simpl in Hl. rewrite He, Ht, Hc in Hl. specialize (Hl Hn Hrow). simpl in Hl.
    unfold after_cursor, c0. simpl. lia.
  - intros limit Hl. rewrite (listSince_primary _ _ _ _ _ _ _ Hp Hl). destruct Hpre as [rest Hrest].
    rewrite (since_cursor_at _ _ _ _ _ Hrest), Hrest, skipn_app, skipn_all, Nat.sub_diag. done.
Qed.

(** C25. Once the messages were handed over every message is told by an event of its own, which took
    over its delivery, for good, and another cutover answers the count and changes nothing. *)
Theorem messages_are_handed_over_once s s' audited :
  reachable s → rtc step s s' → migrated (log (db s)) = true →
  (∀ id m, messages (db s') !! id = Some m → ∃ k, linked_to (db s') id m k) ∧
  (∀ id id' k g g', event_map (db s') !! id = Some (k, g) → event_map (db s') !! id' = Some (k, g') → id = id') ∧
  cutoverLegacyMessages clock platform false true audited (db s') = (Ok (size (event_map (db s')), generation (db s')), db s').
Proof.
  intros Hr Hrun Hm. destruct (steps_sound _ _ _ _ _ _ _ _ _ _ _ Hrun (sound s Hr)) as [[Hb Hma _] Ha]. pose proof (adv_migrated _ _ Ha Hm) as Hm'.
  destruct Hma as [(? & _)|(_ & Hp & Hms & Hem)]; [congruence|]. split; [done|]. split.
  - intros id id' k g g' Hid Hid'.
    assert (∀ i gi, event_map (db s') !! i = Some (k, gi) → ∃ d, deliveries (log (db s')) !! k = Some d ∧ dl_legacy d = Some i) as Hone.
    { intros i gi Hi. destruct (Hem i ltac:(by eexists)) as [m Hmi]. destruct (Hms i m Hmi) as (k' & _ & (g0 & Hg0) & _ & e & d & _ & Hd & Hl & _).
      rewrite Hi in Hg0. injection Hg0 as <- _. by exists d. }
    destruct (Hone _ _ Hid) as (d & Hd & Hl), (Hone _ _ Hid') as (d' & Hd' & Hl'). congruence.
  - unfold cutoverLegacyMessages, legacy_tx. rewrite Hp. run. by rewrite Hm'.
Qed.
End claims.

(** C37. A list of destinations is admitted exactly when their names differ, no entity belongs to two
    of them and each is covered by what the module dispatches; then an entity of a destination goes to
    its port, or the default one, and gets a delivery. *)
Theorem registry_exact {Port : Type} dispatchable (ds : list (Destination Port)) reg :
  Forall proper ds →
  (destinationRegistry (Some (Some (input_of <$> ds))) dispatchable = Ok reg ↔
   reg = registry_of ds ∧ NoDup (ds_name <$> ds) ∧ pairwise_disjoint ds ∧ Forall (covered dispatchable) ds) ∧
  (destinationRegistry (Some (Some (input_of <$> ds))) dispatchable = Ok reg →
   ∀ d e default_, d ∈ ds → matchesEntity (ds_matcher d) e = true →
     portFor reg default_ e = match ds_dispatcher d with Some p => Some p | None => default_ end ∧ hasDestination dispatchable e = true).
Proof.
  intros Hp. assert (destinationRegistry (Some (Some (input_of <$> ds))) dispatchable = Ok reg ↔
    reg = registry_of ds ∧ NoDup (ds_name <$> ds) ∧ pairwise_disjoint ds ∧ Forall (covered dispatchable) ds) as Hex.
  { apply (add_destinations_proper dispatchable [] ds reg Hp); [constructor|constructor|constructor]. }
  split; [done|]. intros (-> & _ & Hd & Hc)%Hex d e default_ Hin Hm. split.
  - assert (List.find (λ d, matchesEntity (ds_matcher d) e) ds = Some d) as Hf; [|].
    { clear Hex Hp Hc. induction Hd as [|x ds Hx Hd IH]; [by apply elem_of_nil in Hin|]. simpl. apply elem_of_cons in Hin as [<-|Hin]; [by rewrite Hm|].
      destruct (matchesEntity (ds_matcher x) e) eqn:Hxe; [|by apply IH].
      pose proof (proj1 (Forall_forall _ _) Hx d Hin e Hxe). congruence. }
    unfold portFor, jm_values, registry_of. rewrite <- list_fmap_compose, list_fmap_id, Hf. done.
  - pose proof (proj1 (Forall_forall _ _) Hc d Hin) as Hcd. unfold covered, hasDestination in *. destruct dispatchable as [m|]; [|done].
    by eapply covered_sound.
Qed.

(** The view of an aggregate, read in one query by ranks, is that of a walk over its deliveries
    whatever the limit: the exact counts, the first rows, and the oldest outstanding one, which is the
    one that nothing blocks. *)
Theorem aggregate_view_exact t entity entityId limit s :
  t ≠ EmptyString → 1 ≤ limit ≤ 1000 →
  getAggregateDelivery (Some t) entity entityId (Some (Some limit)) s = (Ok (walk entity entityId limit (aggregate_rows t entity entityId s)), s) ∧
  ∀ row d, (row, d) ∈ aggregate_rows t entity entityId s → terminal (dl_status d) = false →
    blocked s row = false ↔ List.find outstanding (aggregate_rows t entity entityId s) = Some (row, d).
Proof.
  intros Ht Hl. split; [|intros row d; apply head_unblocked]. unfold getAggregateDelivery, requestTenant. destruct t as [|c t]; [done|].
  unfold list_limit. destruct (Z.ltb_spec limit 1); [lia|]. destruct (Z.ltb_spec 1000 limit); [lia|]. run. unfold lift. cbn.
  set (all := aggregate_rows _ entity entityId s). pose proof (rank_head limit all [] all (List.Forall_nil _)) as Hh.
  pose proof (rank_page limit all [] all ltac:(lia)) as Hp. pose proof (fold_firsts all [] all eq_refl) as Hf. unfold firsts in Hf.
  rewrite <- (selected_firsts limit) in Hf. simpl in Hp. rewrite Z.sub_0_r in Hp.
  destruct all as [|r rest] eqn:Hall; [done|]. rewrite <- Hall in *.
  destruct (List.filter _ (rank all [] all)) as [|x xs] eqn:Hx.
  - exfalso. rewrite Hall in Hp. simpl in Hp. destruct (Z.to_nat limit) eqn:Hn; [lia|done].
  - unfold walk. rewrite Hall. rewrite <- Hall. rewrite Hh, Hp. do 4 f_equal. exact Hf.
Qed.

(** ** Witnesses *)

Section witnesses.
Import Small.

Lemma outbox_refines_queue_witness : rtc queue_step log0 (log (db appended)) ∧ Advance log0 (log (db appended)).
Proof.
  apply (outbox_refines_queue clock same lease None policy registry (Some tt) uuid true begun appended); [apply reach_begun|apply (st_call _ _ _ _ _ _ _ _ _ begun append)].
Defined.
Lemma aggregates_are_claimed_in_order_witness :
  length (claims acknowledged_) = 3%nat ∧
  (∀ l1 a l2 b l3, claims acknowledged_ = l1 ++ a :: l2 ++ b :: l3 → same_aggregate (row_of a) (row_of b) = true → row_before (row_of b) (row_of a) = false) ∧
  ∀ c row d, c ∈ claims acknowledged_ → events (log (db acknowledged_)) !! row.1 = Some row.2 → deliveries (log (db acknowledged_)) !! row.1 = Some d →
    same_aggregate row (row_of c) = true → row_before row (row_of c) = true → terminal (dl_status d) = true.
Proof.
  split; [by vm_compute|]. apply (aggregates_are_claimed_in_order clock same lease None policy registry (Some tt) uuid true acknowledged_ reach_acknowledged).
Defined.
Lemma attempts_are_sent_once_witness :
  length (sends acknowledged_) = 3%nat ∧ NoDup (claim_id <$> claims acknowledged_) ∧ NoDup (claim_id <$> sends acknowledged_) ∧ sends acknowledged_ ⊆ claims acknowledged_ ∧
  ∀ c, c ∈ claims acknowledged_ → is_Some (attempts (log (db acknowledged_)) !! claim_id c) ∧
    ∃ d, deliveries (log (db acknowledged_)) !! cl_key c = Some d ∧ cl_attempts c ≤ dl_attempts d.
Proof.
  split; [by vm_compute|]. apply (attempts_are_sent_once clock same lease None policy registry (Some tt) uuid true acknowledged_ reach_acknowledged).
Defined.
(** The send of the first claim fails after the event was claimed again. *)
Lemma late_settlement_is_fenced_witness :
  deliveries late_settled.2 = deliveries (log (db overtaken)) ∧ ∃ o, sw_outcomes late_settled.1 = sw_outcomes late ++ [o] ∧ oc_failed o = None.
Proof.
  eapply (late_settlement_is_fenced clock same lease None policy registry (Some tt) uuid true overtaken 0 late (head_claim late) (List.tl (sw_todo late)) 0 no_text
    late_settled.1 late_settled.2 (default (new_delivery 0) (delivery_of (head_claim late) overtaken))).
  - apply reach_overtaken.
  - apply default_some. by vm_compute.
  - by vm_compute.
  - apply default_some. by vm_compute.
  - left. exists (nth 1 (claims overtaken) no_claim). split; [apply list_elem_of_In, nth_In; apply Nat.ltb_lt; by vm_compute|]. split; by vm_compute.
  - rewrite <- surjective_pairing. apply default_some. by vm_compute.
Defined.
Lemma append_is_idempotent_witness :
  Forall2 (λ event row, logged (append_to begun).2 "t" event row ∧ delivered_too None log0 (append_to begun).2 event row) batch (ok_of [] (append_to begun).1) ∧
  ∃ l3, appendManyInTransaction clock None "stynx_app" (Some "t") false trx batch (append_to begun).2 = (Ok (ok_of [] (append_to begun).1), l3) ∧
        events l3 = events (append_to begun).2 ∧ deliveries l3 = deliveries (append_to begun).2.
Proof.
  apply (append_is_idempotent clock same lease None policy registry (Some tt) uuid true begun "stynx_app" (Some "t") trx "t" batch (ok_of [] (append_to begun).1)
    (append_to begun).2 (set_dblog (append_to begun).2 begun)).
  - apply reach_begun.
  - done.
  - apply (ok_pair [] (append_to begun)). by vm_compute.
  - apply rtc_refl.
  - by vm_compute.
Defined.
(** The second event waits for the first, which a sweep claims. *)
Lemma oldest_open_event_is_claimed_witness :
  ∃ row0 d0, events (log (db appended)) !! row0.1 = Some row0.2 ∧ deliveries (log (db appended)) !! row0.1 = Some d0 ∧ terminal (dl_status d0) = false ∧
    same_aggregate row0 newest = true ∧ row_before newest row0 = false ∧
    (dl_status d0 ≠ SENT_UNRESOLVED → dl_legacy d0 = None ∨ migrated (log (db appended)) = true → ready_at row0.2 d0 ≤ clock (ticks (log (db appended))) →
     ∀ locked tenant limit only,
       match tenant with Some t => t = row0.1.1 | None => True end → matches_filter only (ev_entity row0.2) = true → locked row0.1 = false →
       Z.of_nat (length (List.filter (due locked tenant only (clock (ticks (log (db appended)))) (log (db appended))) (map_to_list (events (log (db appended)))))) ≤ limit →
       ∃ cs l', tx (claim_due clock lease locked tenant limit only) (log (db appended)) = (Ok cs, l') ∧ row0.1 ∈ cl_key <$> cs).
Proof.
  apply (oldest_open_event_is_claimed clock same lease None policy registry (Some tt) uuid true appended newest
    (default (new_delivery 0) (deliveries (log (db appended)) !! newest.1))); [apply reach_appended|by vm_compute|apply default_some; by vm_compute|by vm_compute].
Defined.
Lemma endings_are_accounted_for_witness :
  ∃ d, deliveries (log (db acknowledged_)) !! oldest.1 = Some d ∧ dl_status d = ACKED ∧
    ∃ a, a ∈ acks (log (db acknowledged_)) ∧ ea_key a = oldest.1 ∧ ea_status a = ack_ACKED ∧ ea_verified a = true.
Proof.
  pose (d := default (new_delivery 0) (deliveries (log (db acknowledged_)) !! oldest.1)).
  assert (deliveries (log (db acknowledged_)) !! oldest.1 = Some d) as Hd by (apply default_some; by vm_compute).
  exists d. split; [done|]. split; [by vm_compute|].
  apply (endings_are_accounted_for clock same lease None policy registry (Some tt) uuid true acknowledged_ acknowledged_ oldest.1 d);
    [apply reach_acknowledged|apply rtc_refl|done|by vm_compute|by vm_compute].
Defined.
Lemma retirement_is_idempotent_witness :
  retirements (retire_in appended).2 !! (ok_of no_receipt (retire_in appended).1).1 = Some (ok_of no_receipt (retire_in appended).1).2 ∧
  (∃ d, deliveries (retire_in appended).2 !! (ok_of no_receipt (retire_in appended).1).1 = Some d ∧ dl_status d = RETIRED) ∧
  retireEvent clock same "t" "actor" (Some newest.1.2) retirement (retire_in appended).2 = (Ok (ok_of no_receipt (retire_in appended).1), (retire_in appended).2).
Proof.
  apply (retirement_is_idempotent clock same lease None policy registry (Some tt) uuid true appended same "t" "actor" (Some newest.1.2) retirement
    (ok_of no_receipt (retire_in appended).1) (retire_in appended).2 (set_dblog (retire_in appended).2 appended)).
  - apply reach_appended.
  - apply (ok_pair no_receipt (retire_in appended)). by vm_compute.
  - apply rtc_refl.
Defined.
(** A reader takes the time, two events are logged, and it asks for one row. *)
Lemma stream_shows_every_event_once_witness :
  let c0 := {| cu_createdAt := ok_of 0 (now_at begun).1; cu_id := None |} in
  let s1 := set_dblog (now_at begun).2 begun in
  let s2 := run [ac_call append] s1 in
  let seen := List.firstn 1 (since "t" c0 (log (db s2))) in
  length seen = 1%nat ∧ (listSince "stynx_app" reader "t" (cursor_at c0 seen) 10 (log (db s2))).1 = Ok (List.firstn 10 (List.skipn (length seen) (since "t" c0 (log (db s2))))).
Proof.
  intros c0 s1 s2 seen. split; [by vm_compute|].
  apply (stream_shows_every_event_once clock same lease None policy registry (Some tt) uuid true begun "stynx_app" reader "t" (ok_of 0 (now_at begun).1) (now_at begun).2 s2 seen);
    [apply reach_begun|apply (ok_pair 0 (now_at begun)); by vm_compute| |done].
  apply (fo_asks _ _ _ _ _ _ _ _ _ _ _ _ _ _ _ [] 1); [|by vm_compute].
  eapply fo_goes_on; [apply fo_start|]. apply (st_call _ _ _ _ _ _ _ _ _ s1 append).
Defined.
Lemma messages_are_handed_over_once_witness :
  (∀ id m, messages (db handed) !! id = Some m → ∃ k, linked_to (db handed) id m k) ∧ is_Some (messages (db handed) !! "m") ∧
  cutoverLegacyMessages clock true false true true (db handed) = (Ok (size (event_map (db handed)), generation (db handed)), db handed).
Proof.
  destruct (messages_are_handed_over_once clock same lease None policy registry (Some tt) uuid true handed handed true reach_handed (rtc_refl _ _)) as (H1 & _ & H3);
    [by vm_compute|]. split; [done|]. split; [|done]. exists (default message (messages (db handed) !! "m")). apply default_some. by vm_compute.
Defined.
Lemma aggregate_view_exact_witness :
  getAggregateDelivery (Some "t") "order" "1" (Some (Some 1)) (log (db acknowledged_)) =
  (Ok (walk "order" "1" 1 (aggregate_rows "t" "order" "1" (log (db acknowledged_)))), log (db acknowledged_)) ∧
  (length <$> (ag_events <$> walk "order" "1" 1 (aggregate_rows "t" "order" "1" (log (db acknowledged_))))) = Some 1%nat.
Proof. split; [by apply (aggregate_view_exact "t" "order" "1" 1 (log (db acknowledged_)))|by vm_compute]. Defined.
Lemma registry_exact_witness :
  destinationRegistry (Some (Some (input_of <$> [orders; bills]))) None = Ok (registry_of [orders; bills]) ∧
  portFor (registry_of [orders; bills]) None "bill.paid" = None ∧ portFor (registry_of [orders; bills]) None "order" = Some tt.
Proof.
  assert (Forall proper [orders; bills]) as Hp.
  { repeat constructor; try done; intros s; simpl; intros Hs; repeat (apply elem_of_cons in Hs as [->|Hs]; [done|]); by apply elem_of_nil in Hs. }
  assert (destinationRegistry (Some (Some (input_of <$> [orders; bills]))) None = Ok (registry_of [orders; bills])) as Ha by by vm_compute.
  destruct (registry_exact None [orders; bills] (registry_of [orders; bills]) Hp) as [_ Hr]. split; [done|].
  split; [apply (Hr Ha bills "bill.paid" None); [right; by left|by vm_compute]|apply (Hr Ha orders "order" None); [by left|by vm_compute]].
Defined.
End witnesses.
